(* ===== verification/_CoqProject ===== *)
-Q . S2P
Prelude.v
Partition.v
Hlc.v
Envelope.v
Varint.v
Ikey.v
Counter.v
Lattice.v
Placement.v
Merge.v
MergeLaws.v
Score.v
F64.v
BudgetCore.v
Ring.v
Store.v
Zset.v
ZsetPop.v
Apply.v
AntiEntropy.v
BudgetEngine.v
MapSum.v
BudgetClock.v
BudgetSafety.v
Resp.v
Reply.v
Glob.v
PubSub.v
Server.v
ListCmd.v
ListLaws.v
ListRefine.v
ListArgs.v
Generic.v
GenericLaws.v
Scan.v
StringCmd.v
StringLaws.v
ElemLaws.v
SetCmd.v
SetLaws.v
HashCmd.v
HashLaws.v
DiffBase.v
Myers.v
MyersRun.v
TextDiff.v
TextLaws.v
BTree.v
Lis.v
Fenwick.v
LisSuffix.v
DiffTree.v
TreeLaws.v
Align.v
AlignLaws.v
Compose.v
ComposeLaws.v
RunLaws.v
ShellLaws.v
Classify.v
ClassifyLaws.v
Graph.v
GraphLaws.v
Plan.v
PlanShape.v
PlanNodes.v
PlanLive.v
PlanPlace.v
PlanLaws.v
Json.v
JsonPath.v
RgaLaws.v
JsonTree.v
JsonLaws.v
JsonRound.v
JsonDoc.v
JsonCmd.v
JsonStore.v
JsonSet.v
