(* ===== verification/Prelude.v ===== *)
(** * marekvs: a verified model of a replicated Redis-compatible store

    marekvs keeps every datum as a record: an internal key, a 19-byte envelope
    (type, flags, hybrid logical clock, origin node, deadline) and a payload.
    Nodes write locally, stream their writes to the owners of the partition,
    merge whatever arrives, and repair the rest by anti-entropy.  Its promise is
    that replicas holding the same records show the same data, whatever the
    order and number of deliveries, and that budgets - escrowed, token-based
    spending limits - are never overspent.

    ** Files, and the code they model (paths under src/crates)

    - [Prelude]: bytes, machine integers, panics ([rust]), versions, tactics,
      hints and list lemmas shared by all files.
    - [Partition]: marekvs-core/src/lib.rs - CRC16 slots, hash tags, partitions.
    - [Hlc]: marekvs-core/src/hlc.rs - the clock word; its compare-and-swap
      loops are single steps of an event sequence.
    - [Envelope]: marekvs-core/src/envelope.rs - header, record types, heads.
    - [Varint], [Ikey]: marekvs-core/src/ikey.rs - internal keys, their parser,
      list positions.
    - [Counter]: marekvs-core/src/counter.rs - positive-negative counters.
    - [Lattice]: no code; the interface [JoinLaws]/[MergeWith] between record
      merges and the replicas that apply them.
    - [Merge], [MergeLaws]: marekvs-core/src/merge.rs - element records
      (observed-remove sets with dots), registers, counters, HyperLogLog
      registers; the laws and their limits.
    - [Score], [F64]: marekvs-core/src/score.rs and the double arithmetic the
      commands use.
    - [BudgetCore]: marekvs-core/src/budget.rs - budget heads, slots, tokens.
    - [Placement]: marekvs-cluster/src/placement.rs - rendezvous placement.
    - [Ring]: marekvs-repl/src/ring.rs and the sending side of
      marekvs-repl/src/lib.rs (peer flow, pump, acknowledgements).
    - [Store]: marekvs-engine/src/store.rs - one shard thread over an ordered
      key-value engine, which is the class [KV] with the laws [KVLaws].
    - [Zset], [ZsetPop]: marekvs-engine/src/cmd/zset.rs - sorted sets and their
      score index.
    - [Apply]: the receiving side of marekvs-repl/src/lib.rs.
    - [AntiEntropy]: marekvs-repl/src/ae.rs and its message handlers.
    - [BudgetEngine], [MapSum], [BudgetClock], [BudgetSafety]:
      marekvs-engine/src/cmd/budget.rs - grants, closes, folds, windows and the
      administration commands, with the ledger argument.
    - [Resp], [Reply]: marekvs-resp/src/lib.rs and marekvs-engine/src/reply.rs -
      the incremental request parser with its buffer, and the reply writers of
      both protocol versions.
    - [Glob], [PubSub]: marekvs-engine/src/pubsub.rs, cmd/pubsub.rs - the glob
      matcher, the subscription registry, sessions and local delivery.
    - [Server]: the connection loop of marekvs-server/src/main.rs and the
      dispatcher of marekvs-engine/src/lib.rs - authentication, transactions,
      batching of pipelines; the commands themselves are the class it runs over.
    - [ListCmd], [ListLaws], [ListRefine], [ListArgs]:
      marekvs-engine/src/cmd/list.rs - lists with their cached range, the
      refinement of sequences, the argument layer and the blocking polls.
    - [Generic], [GenericLaws], [Scan]: marekvs-engine/src/cmd/generic.rs -
      DEL, EXISTS, TYPE, the TTL and EXPIRE families, KEYS, SCAN, RENAME, COPY;
      key deletion itself is in [Store].
    - [StringCmd], [StringLaws]: marekvs-engine/src/cmd/string.rs - strings and
      counters, and their refinement of a register with a deadline.
    - [ElemLaws]: no code; how collections of element records behave under the
      record writers, shared by sets and hashes.
    - [SetCmd], [SetLaws]: marekvs-engine/src/cmd/set.rs - sets.
    - [HashCmd], [HashLaws]: marekvs-engine/src/cmd/hash.rs - hashes with field
      deadlines and counter fields.
    - [DiffBase]: marekvs-diff/src/budget.rs - budget, cancellation, errors and
      the monad [diffm] of a comparison that may stop or panic.
    - [Myers], [MyersRun]: no code of their own; the frontier of the search as
      mathematics, and its array and trace as both searches keep them.
    - [TextDiff], [TextLaws]: marekvs-diff/src/textdiff.rs - text diffs.
    - [BTree]: ordered maps of the standard library.  [Lis], [Fenwick],
      [LisSuffix]: the two subsequence routines of marekvs-diff/src/align.rs and
      classify.rs.
    - [DiffTree], [TreeLaws]: marekvs-diff/src/model.rs, matching.rs, exact.rs -
      trees, matchings and the exact layer.  [Align], [AlignLaws]:
      marekvs-diff/src/align.rs - sibling alignment.
    - [Classify], [ClassifyLaws]: marekvs-diff/src/classify.rs - which nodes were
      inserted, deleted, moved, rewritten.  [Graph], [GraphLaws]:
      marekvs-diff/src/graph.rs - the change graph with its budgets.
    - [Compose]: the changes of graph.rs, the composition of edits, runs and
      shells of marekvs-diff/src/plan.rs, and the conflict tests of merge3.rs.
      [ComposeLaws], [RunLaws], [ShellLaws]: their laws.
    - [Plan]: marekvs-diff/src/plan.rs - planning a selection of changes.
      [PlanShape], [PlanNodes], [PlanLive], [PlanPlace], [PlanLaws]: what a plan
      of all changes emits.
    - [Json], [JsonPath], [RgaLaws], [JsonTree], [JsonLaws], [JsonRound]:
      marekvs-core/src/json.rs - path and value codecs, the order of array
      elements, decomposition and materialization.
    - [JsonDoc]: marekvs-engine/src/cmd/json/path.rs and doc.rs - static paths,
      loading and the record writes.  [JsonCmd]:
      marekvs-engine/src/cmd/json/mod.rs - the JSON commands.  [JsonStore],
      [JsonSet]: the records of a document in the store, from one write to a
      root SET.

    ** State and effects

    A shard is a thread that runs one job at a time, so a handler is a function
    in the state monad [M] over [Shard] (store, clock word, pop hints, number of
    wall-clock readings); [wall] gives the reading of each tick.  A panic is the
    value [Panic].  Concurrency between nodes and between threads appears as
    sequences of atomic steps: [hlc_event], [lane_event], budget operations and
    replicated records in any order.  A document comparison is a function in
    [diffm] over the number of cancellation checks made; what each check sees is
    part of the token, so every way of interrupting it is covered.

    ** What the theorems show

    Budgets: no run of any number of nodes overspends ([cluster_never_overspends],
    [node_never_overspends]); CREATE, TOPUP and RECLAIM conserve capacity.
    Merging: element records refine an add-wins observed-remove set; elements,
    counters, registers and budget records converge for every delivery order;
    the capped and type-mixed cases where they do not are closed theorems of
    kind "error".  Replication: no entry below a cursor is silently lost; a
    batch of records is, per key, its deliveries; two anti-entropy exchanges
    settle a bucket; placement is agreed on, minimal and zone-spanning.  Store
    and sorted sets: scans are complete, deletes stay effective when a
    collection is re-created, the score index follows the members, ZPOPMIN
    returns the minimum from a sound position.  Codecs: round trips in the
    direction the code relies on, key order equals logical order.  Protocol: the
    commands parsed do not depend on how the input is cut into reads, parsing
    ends, replies stay in step with commands, and batching a pipeline is
    indistinguishable from running it in order; without the password nothing
    changes.  Publish delivers once per matching subscription.  Lists: every run
    of pushes, pops, reads and moves is a run on a sequence
    ([list_commands_refine_sequence]).  Strings, sets and hashes: every run on a
    key is a run on a register with a deadline, a finite set, a finite map with
    field deadlines ([string_commands_refine_register],
    [set_commands_refine_finite_set], [hash_commands_refine_finite_map]).
    Documents: text edits turn the old text into the new one whatever the level,
    budget and interruption ([diff_text_lossless]); the search behind them finds
    a longest common subsequence; both sibling-selection routines are longest;
    the correspondence of two trees stays one-to-one between equal kinds
    ([correspondence_one_to_one]); planning every change of a graph emits the
    target document ([accept_all_reproduces_target]), for one-to-one matchings
    that pair the roots, distinct change ids, trees within the depth limit,
    budgets below 2^64 - 1 and a token that is never raised; edits of two sides
    without a conflict merge in either order ([independent_edits_merge]).  JSON:
    the order of an array is the replay of its insertions, the same on every
    replica ([rga_order_refines_replay]); a value survives its decomposition into
    records ([build_decompose]); materialization is total ([build_doc_total]);
    a SET at the root replaces whatever the key held and is read back as written
    ([json_set_get]), for values whose strings fit a record and a key that shows
    a root whenever it shows anything - the state one node's commands leave.
    Keyspace: DEL makes a key absent, RENAME
    moves a string, KEYS lists the live matches.  Where the code departs from
    what it means to do - RENAME onto itself, SCAN with COUNT 0, a move onto a
    key of another type, an overflowing deadline, a huge pop count - the
    departure is a theorem of kind "error" and a finding.

    ** Bounds and fuel

    Loops that are not structural carry fuel that suffices for every machine
    value: 10 bytes for a 64-bit varint, 20 decimal and 16 hexadecimal digits.
    Byte strings that must be slices are shorter than 2^63 ([slice_len_ok]);
    values inside element records are shorter than 2^56 bytes.  Budget runs
    assume a wall clock below 2^47 ms and fewer than 2^62 clock readings.  List
    runs assume room on the clock word for 2m + 4 ticks per operation of m
    elements, m below 2^50, and positions that far from the ends of 2^63.  String
    runs take one tick per operation and increments that fit the node's slot;
    set and hash runs one tick per record written, with deadlines that lie
    beyond the run or before it.  Text coordinates are [u32]s, so lossless diffs
    assume texts below 2^32 characters; trees have at most 2^32 nodes.  The
    loops over subtrees carry the number of nodes below, the queue of the
    alignment the pairs and children it can hold; running out would be a panic,
    and no run panics.  The walks of a plan carry the number of nodes, array
    order and materialization the number of records.  The parser's loops carry the number of buffered bytes, the glob matcher the
    square of its input; both are proved to be enough.

    ** Not modelled

    Storage failures and physical TTLs of the key-value engine, sockets, the
    peer mesh, gossip, Kubernetes, metrics, Lua scripting and schema compilation
    (libraries or I/O the sources only call); bootstrap, the rejoin gate and cold
    purge of the replication engine; Protobuf documents (the record
    decomposition RENAME and COPY need is a parameter); of JSON the parsing of
    texts and of JSONPath, the serializer with its formats (parameters; numbers
    are the class [JsonNumber]) and the argument layer of the commands; of
    document diffs the near layer, whose scores are floating point, the content
    digest and the chunk sizes of the wire form (parameters), reading graphs from
    JSON and the assembly of a three-way merge;
    streams, OBJECT, CONFIG, CLIENT, the float parser of the
    blocking timeouts, and the hop between shards of a command with keys of
    several partitions. *)

From Stdlib Require Export ZArith Lia Bool.
From stdpp Require Export base list sorting gmap.

#[global] Open Scope Z_scope.

(** ** Bytes and fixed-width integers *)

(** A byte string ([Vec<u8>], [&[u8]]) is a list of integers in [0..255]. *)
Abbreviation bytes := (list Z).

Definition in_range (w z : Z) : Prop := 0 <= z < 2 ^ w.
Definition u8 : Z -> Prop := in_range 8.
Definition u16 : Z -> Prop := in_range 16.
Definition u32 : Z -> Prop := in_range 32.
Definition u64 : Z -> Prop := in_range 64.
Definition i64 (z : Z) : Prop := - 2 ^ 63 <= z < 2 ^ 63.
Definition is_bytes (l : bytes) : Prop := Forall u8 l.

(** Wrap-around of a [w]-bit unsigned integer. *)
Definition wrap (w z : Z) : Z := z mod 2 ^ w.
(** [as i64] of a 64-bit pattern: two's complement. *)
Definition to_signed (w z : Z) : Z :=
  if z <? 2 ^ (w - 1) then z else z - 2 ^ w.
Definition saturating_add (w a b : Z) : Z := Z.min (a + b) (2 ^ w - 1).
Definition saturating_sub (a b : Z) : Z := Z.max (a - b) 0.
Definition checked_add (w a b : Z) : option Z :=
  if a + b <? 2 ^ w then Some (a + b) else None.

(** [to_be_bytes] of an [n]-byte integer (two's complement for negatives). *)
Fixpoint be_bytes (n : nat) (z : Z) : bytes :=
  match n with
  | O => []
  | S k => (z / 256 ^ Z.of_nat k) mod 256 :: be_bytes k z
  end.

(** [from_be_bytes] as an unsigned integer. *)
Definition of_be (l : bytes) : Z := fold_left (fun acc b => acc * 256 + b) l 0.

(** [&l[from..to]] (callers have checked the bounds, as the code does). *)
Definition slice (from to : nat) (l : bytes) : bytes :=
  take (to - from) (drop from l).

(** [l[i]] (callers have checked the bound). *)
Definition byte_at (l : bytes) (i : nat) : Z := default 0 (l !! i).

(** [a.starts_with(b)]. *)
Fixpoint starts_with (l p : bytes) : bool :=
  match p, l with
  | [], _ => true
  | _, [] => false
  | y :: p', x :: l' => (x =? y) && starts_with l' p'
  end.

(** [memcmp] order of byte strings ([Ord] of [[u8]]). *)
Fixpoint bytes_cmp (a b : bytes) : comparison :=
  match a, b with
  | [], [] => Eq
  | [], _ => Lt
  | _, [] => Gt
  | x :: a', y :: b' =>
      match x ?= y with Eq => bytes_cmp a' b' | c => c end
  end.
Definition bytes_ltb (a b : bytes) : bool :=
  match bytes_cmp a b with Lt => true | _ => false end.
Definition bytes_eqb (a b : bytes) : bool := bool_decide (a = b).

(** [l.iter().position(|&b| b == c)]. *)
Fixpoint position (c : Z) (l : bytes) : option nat :=
  match l with
  | [] => None
  | b :: l' => if b =? c then Some O else S <$> position c l'
  end.

(** Decimal text of an integer ([i64::to_string]); twenty digits hold every
    64-bit magnitude. *)
Fixpoint dec_loop (fuel : nat) (v : Z) (acc : bytes) : bytes :=
  match fuel with
  | O => acc
  | S fuel =>
      let acc := (48 + v mod 10) :: acc in
      if v / 10 =? 0 then acc else dec_loop fuel (v / 10) acc
  end.
Definition Z_to_string (z : Z) : bytes :=
  if z <? 0 then 45 :: dec_loop 20 (- z) [] else dec_loop 20 z [].

(** [Vec::dedup_by]: drop an element that matches the last one kept. *)
Fixpoint dedup_after {A} (same : A -> A -> bool) (prev : A) (l : list A) : list A :=
  match l with
  | [] => []
  | x :: l' => if same x prev then dedup_after same prev l' else x :: dedup_after same x l'
  end.
Definition dedup_by {A} (same : A -> A -> bool) (l : list A) : list A :=
  match l with [] => [] | x :: l' => x :: dedup_after same x l' end.

(** ** Panics

    A Rust function that may panic returns [Ret v] or [Panic]. *)
Inductive rust (A : Type) : Type :=
  | Ret (a : A)
  | Panic.
Arguments Ret {A} a.
Arguments Panic {A}.

Definition rust_bind {A B} (m : rust A) (f : A -> rust B) : rust B :=
  match m with Ret a => f a | Panic => Panic end.

Declare Scope rust_scope.
Delimit Scope rust_scope with rust.
Notation "'let!' x := m 'in' k" := (rust_bind m (fun x => k))
  (at level 10, x pattern, m at level 100, k at level 200) : rust_scope.
#[global] Open Scope rust_scope.

(** ** Record versions: the order on [(u64, NodeId)] *)
Abbreviation version := (Z * Z)%type.

Definition ver_cmp (a b : version) : comparison :=
  match a.1 ?= b.1 with Eq => a.2 ?= b.2 | c => c end.
Definition ver_ltb (a b : version) : bool :=
  match ver_cmp a b with Lt => true | _ => false end.
Definition ver_leb (a b : version) : bool :=
  match ver_cmp a b with Gt => false | _ => true end.
(** [Ord::max]. *)
Definition ver_max (a b : version) : version := if ver_ltb a b then b else a.

(** ** Automation *)

(** Case split on every comparison of the goal and hypotheses, then [lia]. *)
Ltac cmp_cases :=
  repeat match goal with
  | |- context [?x ?= ?y] => destruct (Z.compare_spec x y)
  | H : context [?x ?= ?y] |- _ => destruct (Z.compare_spec x y)
  end.
Ltac ver_solve :=
  repeat match goal with p : (Z * Z)%type |- _ => destruct p as [? ?] end;
  unfold ver_max, ver_ltb, ver_leb, ver_cmp in *; simpl in *;
  simplify_eq; cmp_cases; subst; simpl in *;
  try (f_equal; lia); try lia; try congruence.
Ltac invert H := inversion H; subst; clear H.

Create HintDb marekvs.

(** ** Lemmas: byte strings *)

Lemma length_be_bytes n z : length (be_bytes n z) = n.
Proof. induction n; simpl; congruence. Qed.

Lemma be_bytes_is_bytes n z : is_bytes (be_bytes n z).
Proof.
  induction n as [|n IH]; simpl; constructor; [|exact IH].
  unfold u8, in_range. pose proof (Z.mod_pos_bound (z / 256 ^ Z.of_nat n) 256). lia.
Qed.

Lemma of_be_acc l a :
  fold_left (fun acc b => acc * 256 + b) l a = a * 256 ^ Z.of_nat (length l) + of_be l.
Proof.
  unfold of_be. revert a; induction l as [|b l IH]; intros a.
  - simpl. lia.
  - cbn [fold_left]. rewrite IH, (IH (0 * 256 + b)).
    simpl length. rewrite Nat2Z.inj_succ, Z.pow_succ_r by lia. ring.
Qed.

Lemma of_be_cons b l : of_be (b :: l) = b * 256 ^ Z.of_nat (length l) + of_be l.
Proof. unfold of_be. simpl. rewrite of_be_acc. unfold of_be. lia. Qed.

Lemma of_be_be_bytes n z : of_be (be_bytes n z) = z mod 256 ^ Z.of_nat n.
Proof.
  induction n as [|n IH]; cbn [be_bytes].
  - rewrite Z.mod_1_r. reflexivity.
  - rewrite of_be_cons, IH, length_be_bytes.
    set (p := 256 ^ Z.of_nat n). assert (0 < p) by (apply Z.pow_pos_nonneg; lia).
    rewrite Nat2Z.inj_succ, Z.pow_succ_r by lia. fold p.
    rewrite (Z.mul_comm 256), Z.rem_mul_r by lia. ring.
Qed.

Lemma of_be_bound l : is_bytes l -> 0 <= of_be l < 256 ^ Z.of_nat (length l).
Proof.
  induction 1 as [|b l Hb _ IH]; [simpl; unfold of_be; simpl; lia|].
  rewrite of_be_cons. simpl length. rewrite Nat2Z.inj_succ, Z.pow_succ_r by lia.
  unfold u8, in_range in Hb. nia.
Qed.

Lemma be_bytes_of_be l : is_bytes l -> be_bytes (length l) (of_be l) = l.
Proof.
  assert (Hgen : forall l q, is_bytes l ->
    be_bytes (length l) (q * 256 ^ Z.of_nat (length l) + of_be l) = l).
  { clear l. induction l as [|b l IH]; intros q Hl; [reflexivity|].
    invert Hl. cbn [be_bytes length]. rewrite of_be_cons.
    pose proof (of_be_bound l H2) as Hb. unfold u8, in_range in H1.
    set (p := 256 ^ Z.of_nat (length l)) in *.
    rewrite Nat2Z.inj_succ, Z.pow_succ_r by lia. fold p.
    replace (q * (256 * p) + (b * p + of_be l)) with ((q * 256 + b) * p + of_be l) by ring.
    f_equal; [|apply IH; assumption].
    rewrite Z.div_add_l, Z.div_small by lia.
    rewrite Z.add_0_r, Z.add_comm, Z.mod_add, Z.mod_small by lia. reflexivity. }
  intros Hl. specialize (Hgen l 0 Hl). rewrite Z.mul_0_l, Z.add_0_l in Hgen. exact Hgen.
Qed.

Lemma of_be_be_bytes_range n z :
  0 <= z < 256 ^ Z.of_nat n -> of_be (be_bytes n z) = z.
Proof. intros. rewrite of_be_be_bytes. apply Z.mod_small. assumption. Qed.

Lemma of_be_u64 z : u64 z -> of_be (be_bytes 8 z) = z.
Proof. intros H. apply of_be_be_bytes_range. exact H. Qed.
Lemma of_be_u16 z : u16 z -> of_be (be_bytes 2 z) = z.
Proof. intros H. apply of_be_be_bytes_range. exact H. Qed.
Lemma of_be_u32 z : u32 z -> of_be (be_bytes 4 z) = z.
Proof. intros H. apply of_be_be_bytes_range. exact H. Qed.
Lemma to_signed_of_be z : i64 z -> to_signed 64 (of_be (be_bytes 8 z)) = z.
Proof.
  unfold i64, to_signed. intros H. rewrite of_be_be_bytes.
  change (256 ^ Z.of_nat 8) with (2 ^ 64). change (64 - 1) with 63.
  destruct (Z_lt_le_dec z 0).
  - replace (z mod 2 ^ 64) with (z + 2 ^ 64).
    + destruct (Z.ltb_spec (z + 2 ^ 64) (2 ^ 63)); lia.
    + symmetry. rewrite <- (Z.mod_add z 1) by lia. apply Z.mod_small. lia.
  - rewrite Z.mod_small by lia. destruct (Z.ltb_spec z (2 ^ 63)); lia.
Qed.
Lemma be_bytes_of_signed l :
  is_bytes l -> length l = 8%nat -> be_bytes 8 (to_signed 64 (of_be l)) = l.
Proof.
  intros Hl Hn. rewrite <- (be_bytes_of_be l Hl) at 2. rewrite Hn.
  unfold to_signed. destruct (_ <? _); [reflexivity|].
  set (x := of_be l). assert (Hgen : forall n q, (n <= 8)%nat ->
    be_bytes n (x - q * 2 ^ 64) = be_bytes n x).
  { induction n as [|n IH]; intros q Hle; [reflexivity|]. cbn [be_bytes]. f_equal; [|apply IH; lia].
    replace (x - q * 2 ^ 64) with (x + (- q * 256 ^ (7 - Z.of_nat n) * 256) * 256 ^ Z.of_nat n).
    - rewrite Z.div_add by (apply Z.pow_nonzero; lia). apply Z.mod_add. lia.
    - assert (256 ^ (7 - Z.of_nat n) * (256 * 256 ^ Z.of_nat n) = 2 ^ 64) as <-.
      { rewrite <- Z.pow_succ_r, <- Z.pow_add_r by lia.
        replace (7 - Z.of_nat n + Z.succ (Z.of_nat n)) with 8 by lia. reflexivity. }
      ring. }
  rewrite <- (Hgen 8%nat 1) by lia. f_equal.
Qed.

Lemma starts_with_spec l p : starts_with l p = true <-> exists s, l = p ++ s.
Proof.
  revert l; induction p as [|y p IH]; intros l; simpl.
  - split; [exists l; reflexivity|]. destruct l; reflexivity.
  - destruct l as [|x l].
    + split; [discriminate|]. intros [s Hs]. discriminate.
    + simpl. rewrite andb_true_iff, IH, Z.eqb_eq. split.
      * intros [-> [s ->]]. exists s. reflexivity.
      * intros [s Hs]. invert Hs. eauto.
Qed.

Lemma starts_with_app p s : starts_with (p ++ s) p = true.
Proof. apply starts_with_spec. eauto. Qed.

Lemma bytes_cmp_refl a : bytes_cmp a a = Eq.
Proof. induction a as [|x a IH]; simpl; [|rewrite Z.compare_refl]; auto. Qed.

Lemma bytes_cmp_eq a b : bytes_cmp a b = Eq <-> a = b.
Proof.
  split; [|intros ->; apply bytes_cmp_refl].
  revert b; induction a as [|x a IH]; intros [|y b]; simpl; try discriminate; [auto|].
  destruct (Z.compare_spec x y) as [->| |]; try discriminate.
  intros H. f_equal. auto.
Qed.

Lemma bytes_cmp_antisym a b : bytes_cmp b a = CompOpp (bytes_cmp a b).
Proof.
  revert b; induction a as [|x a IH]; intros [|y b]; simpl; auto.
  rewrite Z.compare_antisym. destruct (x ?= y); simpl; auto.
Qed.

Lemma bytes_cmp_trans a b c : bytes_cmp a b = Lt -> bytes_cmp b c = Lt -> bytes_cmp a c = Lt.
Proof.
  revert b c; induction a as [|x a IH]; intros [|y b] [|z c]; simpl; try discriminate; auto.
  intros H1 H2. cmp_cases; subst; try lia; try discriminate; eauto.
Qed.

Lemma bytes_cmp_app_eqlen a b x y : length a = length b ->
  bytes_cmp (a ++ x) (b ++ y) =
  match bytes_cmp a b with Eq => bytes_cmp x y | c => c end.
Proof.
  revert b; induction a as [|h a IH]; intros [|k b] Hl; try discriminate; [reflexivity|].
  simpl. destruct (h ?= k); auto.
Qed.

Lemma bytes_cmp_app_same p x y : bytes_cmp (p ++ x) (p ++ y) = bytes_cmp x y.
Proof. rewrite bytes_cmp_app_eqlen, bytes_cmp_refl; reflexivity. Qed.

(** Big-endian encoding turns numeric order into [memcmp] order. *)
Lemma be_bytes_cmp n x y :
  0 <= x < 256 ^ Z.of_nat n -> 0 <= y < 256 ^ Z.of_nat n ->
  bytes_cmp (be_bytes n x) (be_bytes n y) = (x ?= y).
Proof.
  assert (Hdm : forall p z, 0 < p -> z = p * (z / p) + z mod p) by (intros; apply Z.div_mod; lia).
  assert (Hgen : forall n x y, bytes_cmp (be_bytes n x) (be_bytes n y) =
     (x mod 256 ^ Z.of_nat n ?= y mod 256 ^ Z.of_nat n)).
  { clear n x y. induction n as [|n IH]; intros x y; cbn [be_bytes bytes_cmp].
    - rewrite !Z.mod_1_r. reflexivity.
    - rewrite Nat2Z.inj_succ, Z.pow_succ_r by lia.
      set (p := 256 ^ Z.of_nat n) in *. assert (0 < p) by (apply Z.pow_pos_nonneg; lia).
      rewrite (Z.mul_comm 256), !Z.rem_mul_r by lia. rewrite IH.
      pose proof (Z.mod_pos_bound x p ltac:(lia)). pose proof (Z.mod_pos_bound y p ltac:(lia)).
      set (a := (x / p) mod 256). set (b := (y / p) mod 256).
      destruct (Z.compare_spec a b) as [->|Hab|Hab];
        destruct (Z.compare_spec (x mod p) (y mod p));
        symmetry; first [apply Z.compare_eq_iff; nia | apply Z.compare_lt_iff; nia
                        | apply Z.compare_gt_iff; nia]. }
  intros Hx Hy. rewrite Hgen, !Z.mod_small by assumption. reflexivity.
Qed.

Lemma position_app c p s : c ∉ p -> position c (p ++ c :: s) = Some (length p).
Proof.
  induction p as [|b p IH]; intros Hn; simpl.
  - rewrite Z.eqb_refl. reflexivity.
  - destruct (Z.eqb_spec b c) as [->|]; [exfalso; apply Hn; left|].
    rewrite IH; [reflexivity|]. intros Hin. apply Hn. right. assumption.
Qed.

Lemma position_Some c l n : position c l = Some n ->
  exists p s, l = p ++ c :: s /\ length p = n /\ c ∉ p.
Proof.
  revert n; induction l as [|b l IH]; intros n; simpl; [discriminate|].
  destruct (Z.eqb_spec b c) as [->|Hne].
  - intros [= <-]. exists [], l. split_and!; [reflexivity..|]. apply not_elem_of_nil.
  - destruct (position c l) as [m|]; [|discriminate]. intros [= <-].
    destruct (IH m eq_refl) as (p & s & -> & <- & Hn). exists (b :: p), s.
    split_and!; [reflexivity..|]. intros [->|]%elem_of_cons; auto.
Qed.

Lemma position_None c l : position c l = None <-> c ∉ l.
Proof.
  induction l as [|b l IH]; simpl; [split; [intros _; apply not_elem_of_nil|reflexivity]|].
  rewrite not_elem_of_cons. destruct (Z.eqb_spec b c) as [->|Hne]; [naive_solver|].
  rewrite fmap_None, IH. naive_solver.
Qed.

Lemma slice_app_l p x s : slice (length p) (length p + length x) (p ++ x ++ s) = x.
Proof.
  unfold slice. rewrite drop_app_length.
  replace (length p + length x - length p)%nat with (length x) by lia.
  apply take_app_length.
Qed.

Lemma is_bytes_app a b : is_bytes (a ++ b) <-> is_bytes a /\ is_bytes b.
Proof. apply Forall_app. Qed.
Lemma is_bytes_take n l : is_bytes l -> is_bytes (take n l).
Proof. apply Forall_take. Qed.
Lemma is_bytes_drop n l : is_bytes l -> is_bytes (drop n l).
Proof. apply Forall_drop. Qed.
Lemma is_bytes_slice a b l : is_bytes l -> is_bytes (slice a b l).
Proof. intros. apply is_bytes_take, is_bytes_drop. assumption. Qed.
Lemma length_slice a b l : (a <= b <= length l)%nat -> length (slice a b l) = (b - a)%nat.
Proof. intros. unfold slice. rewrite length_take, length_drop. lia. Qed.
#[export] Hint Resolve be_bytes_is_bytes is_bytes_take is_bytes_drop is_bytes_slice : marekvs.

(** Re-encoding a decoded big-endian field gives the field back. *)
Lemma be_bytes_of_slice a b n l :
  is_bytes l -> (a <= b <= length l)%nat -> (b - a)%nat = n ->
  be_bytes n (of_be (slice a b l)) = slice a b l.
Proof.
  intros Hl Hb <-. rewrite <- (length_slice a b l) at 1 by assumption.
  apply be_bytes_of_be. auto with marekvs.
Qed.
Lemma slice_split a b c l : (a <= b <= c)%nat -> slice a b l ++ slice b c l = slice a c l.
Proof.
  intros H. unfold slice.
  replace (drop b l) with (drop (b - a) (drop a l)) by (rewrite drop_drop; f_equal; lia).
  replace (take (c - a) (drop a l)) with (take ((b - a) + (c - b)) (drop a l)) by (f_equal; lia).
  apply take_take_drop.
Qed.
Lemma slice_all b l : (length l <= b)%nat -> slice 0 b l = l.
Proof. intros. unfold slice. rewrite drop_0, Nat.sub_0_r. apply take_ge. assumption. Qed.

(** ** Lemmas: versions *)
Lemma ver_cmp_eq a b : ver_cmp a b = Eq <-> a = b.
Proof. split; intros; ver_solve. Qed.
Lemma ver_cmp_antisym a b : ver_cmp b a = CompOpp (ver_cmp a b).
Proof. ver_solve. Qed.
Lemma ver_ltb_irrefl a : ver_ltb a a = false.
Proof. ver_solve. Qed.
Lemma ver_ltb_trans a b c : ver_ltb a b = true -> ver_ltb b c = true -> ver_ltb a c = true.
Proof. ver_solve. Qed.
Lemma ver_ltb_total a b : ver_ltb a b = true \/ a = b \/ ver_ltb b a = true.
Proof. ver_solve; auto. Qed.
Lemma ver_ltb_asym a b : ver_ltb a b = true -> ver_ltb b a = false.
Proof. ver_solve. Qed.
Lemma ver_max_comm a b : ver_max a b = ver_max b a.
Proof. ver_solve. Qed.
Lemma ver_max_assoc a b c : ver_max a (ver_max b c) = ver_max (ver_max a b) c.
Proof. ver_solve. Qed.
Lemma ver_max_idem a : ver_max a a = a.
Proof. unfold ver_max. rewrite ver_ltb_irrefl. reflexivity. Qed.

Lemma ver_max_select {A} (T : version -> A) a b : (if ver_ltb a b then T b else T a) = T (ver_max a b).
Proof. unfold ver_max. destruct (ver_ltb a b); reflexivity. Qed.

(** ** Lemmas: sorted lists *)

(** A strictly sorted list is determined by its elements. *)
Lemma sorted_ext {A} (R : relation A) `{!Irreflexive R, !Transitive R} l1 l2 :
  StronglySorted R l1 -> StronglySorted R l2 ->
  (forall x, x ∈ l1 <-> x ∈ l2) -> l1 = l2.
Proof.
  intros H1. revert l2. induction H1 as [|x l1 Hs IH Hx]; intros l2 H2 Heq.
  - destruct l2 as [|y l2]; [reflexivity|]. exfalso.
    apply (not_elem_of_nil y), Heq. left.
  - destruct H2 as [|y l2 Hs2 Hy].
    { exfalso. apply (not_elem_of_nil x), Heq. left. }
    rewrite Forall_forall in Hx. rewrite Forall_forall in Hy.
    assert (x = y) as ->.
    { pose proof (proj1 (Heq x) ltac:(left)) as Hxy.
      pose proof (proj2 (Heq y) ltac:(left)) as Hyx.
      apply elem_of_cons in Hxy as [|Hxy]; [auto|]. apply elem_of_cons in Hyx as [|Hyx]; [auto|].
      exfalso. apply (irreflexivity R x). etrans; [apply Hx|apply Hy]; eassumption. }
    f_equal. apply IH; [assumption|]. intros z. specialize (Heq z).
    rewrite !elem_of_cons in Heq.
    assert (z ∈ l1 -> z <> y) by (intros Hz ->; apply (irreflexivity R y); auto).
    assert (z ∈ l2 -> z <> y) by (intros Hz ->; apply (irreflexivity R y); auto).
    naive_solver.
Qed.

(** ** Lemmas: bit operations on fixed-width integers *)
Lemma wrap_testbit w z i : 0 <= w -> 0 <= i ->
  Z.testbit (wrap w z) i = (i <? w) && Z.testbit z i.
Proof.
  intros Hw Hi. unfold wrap. rewrite <- Z.land_ones by assumption.
  rewrite Z.land_spec, Z.testbit_ones_nonneg by assumption. apply andb_comm.
Qed.

Lemma byte_case (P : Z -> bool) x :
  forallb P (seqZ 0 256) = true -> u8 x -> P x = true.
Proof.
  intros H Hx. rewrite forallb_forall in H. apply H.
  apply list_elem_of_In, elem_of_seqZ. unfold u8, in_range in Hx. lia.
Qed.

Lemma wrap_range w z : 0 <= w -> in_range w (wrap w z).
Proof. intros. apply Z.mod_pos_bound. apply Z.pow_pos_nonneg; lia. Qed.

Lemma range_testbit w z i : 0 <= w -> in_range w z -> w <= i -> Z.testbit z i = false.
Proof.
  intros Hw Hz Hi. rewrite <- (Z.mod_small z (2 ^ w)) by exact Hz.
  apply Z.mod_pow2_bits_high. lia.
Qed.

Lemma testbit_range w z : 0 <= w -> 0 <= z ->
  (forall i, w <= i -> Z.testbit z i = false) -> in_range w z.
Proof.
  intros Hw Hz H. unfold in_range. split; [assumption|].
  destruct (Z.eq_dec z 0) as [->|]; [apply Z.pow_pos_nonneg; lia|].
  apply Z.log2_lt_pow2; [lia|]. destruct (Z_lt_le_dec (Z.log2 z) w); [assumption|].
  specialize (H (Z.log2 z) ltac:(lia)). rewrite Z.bit_log2 in H by lia. discriminate.
Qed.

Lemma lxor_range w a b : 0 <= w -> in_range w a -> in_range w b -> in_range w (Z.lxor a b).
Proof.
  intros Hw Ha Hb. apply testbit_range; [assumption| |].
  - apply Z.lxor_nonneg. unfold in_range in *. lia.
  - intros i Hi. rewrite Z.lxor_spec, (range_testbit w a), (range_testbit w b) by assumption.
    reflexivity.
Qed.


(** Disjoint bit fields: [or] of a value below [2^s] and a shifted value. *)
Lemma lor_shiftl a x s : 0 <= s -> 0 <= a < 2 ^ s -> Z.lor a (Z.shiftl x s) = a + x * 2 ^ s.
Proof.
  intros Hs Ha. rewrite <- Z.shiftl_mul_pow2 by assumption.
  assert (Z.land a (Z.shiftl x s) = 0) as Hd.
  { apply Z.bits_inj'. intros i Hi. rewrite Z.land_spec, Z.shiftl_spec, Z.testbit_0_l by lia.
    destruct (Z_lt_le_dec i s).
    - rewrite (Z.testbit_neg_r _ (i - s)) by lia. apply andb_false_r.
    - rewrite (range_testbit s a) by (assumption || lia). reflexivity. }
  rewrite <- Z.lxor_lor, <- Z.add_nocarry_lxor by assumption. reflexivity.
Qed.
