(* ===== verification/Partition.v ===== *)
(** * Partitioning: CRC16 slots and hash tags ([crates/marekvs-core/src/lib.rs])

    The table-driven CRC16/XMODEM of [crc16], the hash-tag rule of
    [hash_slice], and the slot/partition maps [slot_of] and [pid_of].  The
    table is shown equal to the bit-serial definition of the polynomial, slots
    and partitions are in range, and keys that share a hash tag share a
    partition. *)

From S2P Require Import Prelude.

(** One shift of the table-building loop (u16 arithmetic). *)
Definition crc_bit (crc : Z) : Z :=
  if negb (Z.land crc 32768 =? 0)
  then Z.lxor (wrap 16 (Z.shiftl crc 1)) 4129
  else wrap 16 (Z.shiftl crc 1).

Definition crc_tab_entry (i : Z) : Z := Nat.iter 8 crc_bit (wrap 16 (Z.shiftl i 8)).

Definition CRC16_TAB : list Z := crc_tab_entry <$> seqZ 0 256.

Definition crc_step (crc b : Z) : Z :=
  Z.lxor (wrap 16 (Z.shiftl crc 8))
    (byte_at CRC16_TAB (Z.to_nat (Z.land (Z.lxor (Z.shiftr crc 8) b) 255))).

Definition crc16 (data : bytes) : Z := fold_left crc_step data 0.

Definition hash_slice (key : bytes) : bytes :=
  match position 123 key with
  | Some open =>
      match position 125 (drop (open + 1) key) with
      | Some close_rel =>
          if (0 <? close_rel)%nat
          then slice (open + 1) (open + 1 + close_rel) key
          else key
      | None => key
      end
  | None => key
  end.

Definition slot_of (userkey : bytes) : Z := crc16 (hash_slice userkey) mod 16384.

Definition pid_of (userkey : bytes) : Z := Z.shiftr (slot_of userkey) 2.

Definition PARTITIONS : Z := 4096.

(** The bit-serial CRC-16/XMODEM: polynomial 0x1021, initial value 0, most
    significant bit first. *)
Definition crc16_xmodem (data : bytes) : Z :=
  fold_left (fun crc b => Nat.iter 8 crc_bit (Z.lxor crc (Z.shiftl b 8))) data 0.

(** ** Linearity of the shift register over xor *)

Lemma wrap_lxor w a b : 0 <= w -> wrap w (Z.lxor a b) = Z.lxor (wrap w a) (wrap w b).
Proof.
  intros Hw. apply Z.bits_inj'. intros i Hi.
  rewrite Z.lxor_spec, !wrap_testbit, Z.lxor_spec by lia.
  destruct (i <? w), (Z.testbit a i), (Z.testbit b i); reflexivity.
Qed.

Lemma top_bit x : (Z.land x 32768 =? 0) = negb (Z.testbit x 15).
Proof.
  change 32768 with (2 ^ 15). destruct (Z.testbit x 15) eqn:E; simpl.
  - apply Z.eqb_neq. intros H.
    assert (Z.testbit (Z.land x (2 ^ 15)) 15 = true) as Ht.
    { rewrite Z.land_spec, E, Z.pow2_bits_true by lia. reflexivity. }
    rewrite H, Z.testbit_0_l in Ht. discriminate.
  - apply Z.eqb_eq, Z.bits_inj'. intros i Hi.
    rewrite Z.land_spec, Z.testbit_0_l, Z.pow2_bits_eqb by lia.
    destruct (Z.eqb_spec 15 i) as [<-|]; [rewrite E|]; auto using andb_false_r.
Qed.

Lemma crc_bit_alt x :
  crc_bit x = Z.lxor (wrap 16 (Z.shiftl x 1)) (if Z.testbit x 15 then 4129 else 0).
Proof.
  unfold crc_bit. rewrite top_bit, negb_involutive.
  destruct (Z.testbit x 15); [reflexivity|]. rewrite Z.lxor_0_r. reflexivity.
Qed.

Lemma lxor_swap a b c d : Z.lxor (Z.lxor a b) (Z.lxor c d) = Z.lxor (Z.lxor a c) (Z.lxor b d).
Proof.
  rewrite !Z.lxor_assoc. f_equal. rewrite <- !Z.lxor_assoc. f_equal. apply Z.lxor_comm.
Qed.

Lemma crc_bit_linear a b : crc_bit (Z.lxor a b) = Z.lxor (crc_bit a) (crc_bit b).
Proof.
  rewrite !crc_bit_alt, lxor_swap, Z.lxor_spec, Z.shiftl_lxor, wrap_lxor by lia.
  f_equal. destruct (Z.testbit a 15), (Z.testbit b 15); reflexivity.
Qed.

Lemma crc_bits_linear n a b :
  Nat.iter n crc_bit (Z.lxor a b) = Z.lxor (Nat.iter n crc_bit a) (Nat.iter n crc_bit b).
Proof. induction n as [|n IH]; simpl; [|rewrite IH, crc_bit_linear]; reflexivity. Qed.

Lemma crc_bits_low x : u8 x -> Nat.iter 8 crc_bit x = Z.shiftl x 8.
Proof.
  intros Hx. apply Z.eqb_eq. revert x Hx.
  intros x. apply (byte_case (fun x => Nat.iter 8 crc_bit x =? Z.shiftl x 8)).
  vm_compute. reflexivity.
Qed.

Lemma crc_tab_lookup i : u8 i -> byte_at CRC16_TAB (Z.to_nat i) = Nat.iter 8 crc_bit (Z.shiftl i 8).
Proof.
  intros Hi. apply Z.eqb_eq. revert i Hi. intros i.
  apply (byte_case (fun i => byte_at CRC16_TAB (Z.to_nat i) =? Nat.iter 8 crc_bit (Z.shiftl i 8))).
  vm_compute. reflexivity.
Qed.

Lemma crc_bit_range x : u16 (crc_bit x).
Proof.
  rewrite crc_bit_alt. apply lxor_range; [lia|apply wrap_range; lia|].
  unfold in_range. destruct (Z.testbit x 15); lia.
Qed.

Lemma split_bytes_lxor crc b : u16 crc -> u8 b ->
  Z.lxor crc (Z.shiftl b 8) = Z.lxor (wrap 8 crc) (Z.shiftl (Z.lxor (Z.shiftr crc 8) b) 8).
Proof.
  intros Hc Hb. apply Z.bits_inj'. intros i Hi.
  rewrite !Z.lxor_spec, wrap_testbit, !Z.shiftl_spec by lia.
  destruct (Z.ltb_spec i 8); simpl.
  - rewrite !(Z.testbit_neg_r _ (i - 8)) by lia. reflexivity.
  - rewrite Z.lxor_spec, Z.shiftr_spec by lia. replace (i - 8 + 8) with i by lia.
    destruct (Z.testbit crc i), (Z.testbit b (i - 8)); reflexivity.
Qed.

Lemma wrap_shiftl_byte crc : wrap 16 (Z.shiftl crc 8) = Z.shiftl (wrap 8 crc) 8.
Proof.
  apply Z.bits_inj'. intros i Hi. rewrite wrap_testbit, !Z.shiftl_spec by lia.
  destruct (Z_lt_le_dec i 8).
  - rewrite !(Z.testbit_neg_r _ (i - 8)) by lia. apply andb_false_r.
  - rewrite wrap_testbit by lia. f_equal.
    destruct (Z.ltb_spec i 16), (Z.ltb_spec (i - 8) 8); lia || reflexivity.
Qed.

Lemma high_byte_range crc : u16 crc -> u8 (Z.shiftr crc 8).
Proof.
  unfold u16, u8, in_range. rewrite Z.shiftr_div_pow2 by lia. intros H.
  change (2 ^ 16) with (2 ^ 8 * 2 ^ 8) in H. split; [apply Z.div_pos; lia|].
  apply Z.div_lt_upper_bound; lia.
Qed.

Lemma crc_step_xmodem crc b : u16 crc -> u8 b ->
  crc_step crc b = Nat.iter 8 crc_bit (Z.lxor crc (Z.shiftl b 8)).
Proof.
  intros Hc Hb. unfold crc_step.
  set (h := Z.lxor (Z.shiftr crc 8) b).
  assert (Hh : u8 h) by (apply lxor_range; [lia|apply high_byte_range; assumption|assumption]).
  replace (Z.land h 255) with h.
  2:{ change 255 with (Z.ones 8). rewrite Z.land_ones by lia. symmetry. apply Z.mod_small, Hh. }
  rewrite split_bytes_lxor by assumption. fold h.
  rewrite crc_bits_linear, crc_bits_low by (apply wrap_range; lia).
  rewrite crc_tab_lookup, wrap_shiftl_byte by assumption. reflexivity.
Qed.

Lemma crc_iter_range n x : (0 < n)%nat -> u16 (Nat.iter n crc_bit x).
Proof. destruct n; [lia|]. intros _. apply crc_bit_range. Qed.

(** The table-driven CRC agrees with the bit-serial CRC-16/XMODEM. *)
Lemma crc16_fold data crc : is_bytes data -> u16 crc ->
  fold_left crc_step data crc =
  fold_left (fun crc b => Nat.iter 8 crc_bit (Z.lxor crc (Z.shiftl b 8))) data crc
  /\ u16 (fold_left crc_step data crc).
Proof.
  intros Hd. revert crc. induction Hd as [|b data Hb _ IH]; intros crc Hc; [auto|].
  cbn [fold_left]. rewrite crc_step_xmodem by assumption. apply IH, crc_iter_range. lia.
Qed.

Lemma crc16_range data : is_bytes data -> u16 (crc16 data).
Proof. intros H. apply crc16_fold; [assumption|]. unfold u16, in_range. lia. Qed.

(** The table-driven [crc16] computes, on every byte string, the
    bit-serial CRC-16/XMODEM that Redis Cluster clients use. *)
Theorem crc16_is_xmodem data : is_bytes data -> crc16 data = crc16_xmodem data.
Proof. intros H. apply crc16_fold; [assumption|]. unfold u16, in_range. lia. Qed.

Lemma crc16_is_xmodem_witness :
  is_bytes [49; 50; 51; 52; 53; 54; 55; 56; 57] /\
  crc16_xmodem [49; 50; 51; 52; 53; 54; 55; 56; 57] = 12739.
Proof.
  assert (H : is_bytes [49; 50; 51; 52; 53; 54; 55; 56; 57]).
  { repeat constructor; unfold u8, in_range; lia. }
  split; [exact H|]. rewrite <- (crc16_is_xmodem _ H). vm_compute. reflexivity.
Defined.

(** ** Hash tags and ranges *)

Lemma hash_slice_tag pre tag post :
  123 ∉ pre -> 125 ∉ tag -> tag <> [] ->
  hash_slice (pre ++ 123 :: tag ++ 125 :: post) = tag.
Proof.
  intros Hpre Htag Hne. unfold hash_slice. rewrite position_app by assumption.
  replace (drop (length pre + 1) (pre ++ 123 :: tag ++ 125 :: post)) with (tag ++ 125 :: post).
  2:{ rewrite drop_app_ge by lia. replace (length pre + 1 - length pre)%nat with 1%nat by lia.
      reflexivity. }
  rewrite position_app by assumption. destruct tag as [|t tag]; [congruence|].
  change ((0 <? length (t :: tag))%nat) with true. cbv iota.
  replace (pre ++ 123 :: (t :: tag) ++ 125 :: post)
    with ((pre ++ [123]) ++ (t :: tag) ++ 125 :: post) by (rewrite <- app_assoc; reflexivity).
  replace (length pre + 1)%nat with (length (pre ++ [123])) by (rewrite length_app; reflexivity).
  apply slice_app_l.
Qed.

(** Keys whose first brace pair holds the same non-empty tag live on the
    same slot and the same partition, whatever surrounds the tag: the slot is
    the slot of the bare tag. *)
Theorem hash_tag_colocates pre tag post :
  123 ∉ pre -> 123 ∉ tag -> 125 ∉ tag -> tag <> [] ->
  slot_of (pre ++ 123 :: tag ++ 125 :: post) = slot_of tag /\
  pid_of (pre ++ 123 :: tag ++ 125 :: post) = pid_of tag.
Proof.
  intros Hpre Ho Hc Hne. unfold pid_of, slot_of.
  rewrite hash_slice_tag by assumption.
  replace (hash_slice tag) with tag; [auto|].
  unfold hash_slice. rewrite (proj2 (position_None 123 tag)) by assumption. reflexivity.
Qed.

Lemma hash_tag_colocates_witness :
  slot_of [120; 123; 97; 125; 121] = slot_of [97] /\ pid_of [120; 123; 97; 125; 121] = pid_of [97].
Proof.
  apply (hash_tag_colocates [120] [97] [121]);
    try (rewrite list_elem_of_singleton; discriminate); discriminate.
Defined.

Lemma hash_slice_bytes key : is_bytes key -> is_bytes (hash_slice key).
Proof.
  intros H. unfold hash_slice. destruct (position _ _); [|assumption].
  destruct (position _ _); [|assumption]. destruct (_ <? _)%nat; auto with marekvs.
Qed.

Lemma slot_of_range key : 0 <= slot_of key < 16384.
Proof. apply Z.mod_pos_bound. lia. Qed.

Lemma pid_of_slot key : 4 * pid_of key <= slot_of key <= 4 * pid_of key + 3.
Proof.
  unfold pid_of. rewrite Z.shiftr_div_pow2 by lia. change (2 ^ 2) with 4.
  pose proof (Z.div_mod (slot_of key) 4 ltac:(lia)). pose proof (Z.mod_pos_bound (slot_of key) 4). lia.
Qed.
Lemma pid_of_range key : 0 <= pid_of key < PARTITIONS.
Proof. unfold PARTITIONS. pose proof (slot_of_range key). pose proof (pid_of_slot key). lia. Qed.

(** Every partition is the run of four consecutive slots
    [4*pid .. 4*pid+3], and every user key falls in one of the 4096
    partitions. *)
Theorem pid_is_slot_group key :
  0 <= pid_of key < PARTITIONS /\ 4 * pid_of key <= slot_of key <= 4 * pid_of key + 3.
Proof. split; [apply pid_of_range|apply pid_of_slot]. Qed.
