(* ===== verification/Hlc.v ===== *)
(** * Hybrid logical clock ([crates/marekvs-core/src/hlc.rs])

    The clock is one [AtomicU64]; every operation is a single atomic
    [fetch_update], so an execution of any number of threads is a sequence of
    steps on that word.  The wall clock is an input of each step, as
    [SystemTime::now] is not under the program's control and may go
    backwards. *)

From S2P Require Import Prelude.

Definition MAX_CLOCK_DRIFT_MS : Z := 5000.

Definition hlc_pack (phys_ms logical : Z) : Z :=
  Z.lor (wrap 64 (Z.shiftl phys_ms 16)) logical.

Definition hlc_phys_ms (hlc : Z) : Z := Z.shiftr hlc 16.

(** [Hlc::new]: the initial value of the word. *)
Definition Hlc_new (wall : Z) : Z := hlc_pack wall 0.

(** [Hlc::now]: the new word and the returned timestamp. *)
Definition Hlc_now (prev wall : Z) : Z * Z :=
  let t := Z.max (wrap 64 (prev + 1)) (hlc_pack wall 0) in (t, t).

(** [Hlc::observe]: the new word and the clamped remote timestamp. *)
Definition Hlc_observe (prev wall remote : Z) : Z * Z :=
  let limit := hlc_pack (wall + MAX_CLOCK_DRIFT_MS) 0 in
  let remote := Z.min remote limit in
  (wrap 64 (Z.max prev remote + 1), remote).

Definition Hlc_is_drifted (wall remote : Z) : bool :=
  wall + MAX_CLOCK_DRIFT_MS <? hlc_phys_ms remote.

(** One atomic operation of some thread. *)
Inductive hlc_event :=
  | Now (wall : Z)
  | Observe (wall remote : Z).

Definition hlc_step (s : Z) (e : hlc_event) : Z * Z :=
  match e with
  | Now wall => Hlc_now s wall
  | Observe wall remote => Hlc_observe s wall remote
  end.

(** The values the operations return, in order. *)
Fixpoint hlc_run (s : Z) (es : list hlc_event) : list Z :=
  match es with
  | [] => []
  | e :: es' => (hlc_step s e).2 :: hlc_run (hlc_step s e).1 es'
  end.

Definition hlc_final (s : Z) (es : list hlc_event) : Z :=
  fold_left (fun s e => (hlc_step s e).1) es s.

(** Every wall-clock reading of the run is at most [W]. *)
Definition wall_of (e : hlc_event) : Z :=
  match e with Now w => w | Observe w _ => w end.
Definition walls_below (W : Z) (es : list hlc_event) : Prop :=
  Forall (fun e => 0 <= wall_of e <= W) es.

Definition remote_u64 (e : hlc_event) : Prop :=
  match e with Now _ => True | Observe _ r => u64 r end.

(** ** Lemmas *)

Lemma hlc_pack_0 w : 0 <= w < 2 ^ 48 -> hlc_pack w 0 = w * 65536.
Proof.
  intros H. unfold hlc_pack, wrap. rewrite Z.lor_0_r, Z.shiftl_mul_pow2 by lia.
  change (2 ^ 16) with 65536. change (2 ^ 48) with 281474976710656 in H.
  apply Z.mod_small. change (2 ^ 64) with 18446744073709551616. lia.
Qed.

Lemma hlc_phys_div h : hlc_phys_ms h = h / 65536.
Proof. unfold hlc_phys_ms. rewrite Z.shiftr_div_pow2 by lia. reflexivity. Qed.

(** Timestamps are 64-bit words. *)
Lemma Hlc_now_u64 w t : u64 (Hlc_now w t).2.
Proof.
  unfold Hlc_now, hlc_pack. cbn [snd]. rewrite Z.lor_0_r. pose proof (wrap_range 64 (w + 1) ltac:(lia)).
  pose proof (wrap_range 64 (Z.shiftl t 16) ltac:(lia)). unfold u64, in_range in *. lia.
Qed.

Lemma Hlc_now_spec prev wall : 0 <= prev -> prev + 1 < 2 ^ 64 -> 0 <= wall < 2 ^ 48 ->
  exists t, Hlc_now prev wall = (t, t) /\ prev < t < 2 ^ 64.
Proof.
  intros H0 H1 Hw. unfold Hlc_now. rewrite hlc_pack_0 by assumption. unfold wrap.
  rewrite Z.mod_small by lia. eexists. split; [reflexivity|]. lia.
Qed.

Section run.
(** [W] bounds the wall clock and [B] the clock word during the run. *)
Context (W : Z) (HW : 0 <= W) (HW48 : W + MAX_CLOCK_DRIFT_MS < 2 ^ 48).

Definition ceiling : Z := (W + MAX_CLOCK_DRIFT_MS) * 65536.

Lemma hlc_step_bound s e : 0 <= wall_of e <= W -> remote_u64 e ->
  0 <= s -> s + 1 < 2 ^ 64 -> ceiling + 1 < 2 ^ 64 ->
  0 <= (hlc_step s e).1 <= Z.max s ceiling + 1 /\
  (hlc_step s e).2 <= (hlc_step s e).1 /\
  (forall w, e = Now w -> s < (hlc_step s e).2) /\
  s <= (hlc_step s e).1.
Proof.
  unfold ceiling, MAX_CLOCK_DRIFT_MS in *. intros Hw Hr Hs Hs64 Hc.
  destruct e as [w|w r]; simpl in *.
  - rewrite hlc_pack_0 by lia. unfold wrap. rewrite Z.mod_small by lia.
    split_and!; intros; try lia.
  - unfold Hlc_observe, MAX_CLOCK_DRIFT_MS, u64, in_range in *. rewrite hlc_pack_0 by lia. simpl.
    unfold wrap. rewrite Z.mod_small by lia. split_and!; intros; try lia; discriminate.
Qed.

Lemma hlc_final_bound es s :
  walls_below W es -> Forall remote_u64 es -> 0 <= s ->
  Z.max s ceiling + Z.of_nat (length es) < 2 ^ 64 ->
  s <= hlc_final s es <= Z.max s ceiling + Z.of_nat (length es).
Proof.
  intros Hw Hr. revert s. induction Hw as [|e es He _ IH]; intros s Hs Hb;
    unfold hlc_final; cbn [fold_left]; [simpl; lia|].
  invert Hr. cbn [length] in *. rewrite Nat2Z.inj_succ in *.
  destruct (hlc_step_bound s e) as (Hs1 & _ & _ & Hs2); try assumption; try lia.
  pose proof (IH ltac:(assumption) (hlc_step s e).1 ltac:(lia) ltac:(lia)) as IH'.
  unfold hlc_final in IH'. lia.
Qed.

Lemma now_exceeds_start es s j w b :
  walls_below W es -> Forall remote_u64 es -> 0 <= s ->
  Z.max s ceiling + Z.of_nat (length es) < 2 ^ 64 ->
  es !! j = Some (Now w) -> hlc_run s es !! j = Some b -> s < b.
Proof.
  intros Hw Hr. revert s j. induction Hw as [|e es He _ IH]; intros s j Hs Hb; [discriminate|].
  invert Hr. cbn [length] in *. rewrite Nat2Z.inj_succ in *.
  destruct (hlc_step_bound s e) as (Hs1 & _ & Hnow & Hle); try assumption; try lia.
  destruct j as [|j]; cbn [hlc_run lookup list_lookup]; [intros [= ->] [= <-]; eauto|].
  intros Hj Hb'. pose proof (IH ltac:(assumption) (hlc_step s e).1 j ltac:(lia) ltac:(lia) Hj Hb'). lia.
Qed.

Lemma hlc_run_ordered es s i j w a b :
  walls_below W es -> Forall remote_u64 es -> 0 <= s ->
  Z.max s ceiling + Z.of_nat (length es) < 2 ^ 64 -> (i < j)%nat ->
  es !! j = Some (Now w) -> hlc_run s es !! i = Some a -> hlc_run s es !! j = Some b -> a < b.
Proof.
  intros Hw Hr. revert s i j. induction Hw as [|e es He Hes IH]; intros s i j Hs Hb Hij; [discriminate|].
  invert Hr. cbn [length] in *. rewrite Nat2Z.inj_succ in *.
  destruct (hlc_step_bound s e) as (Hs1 & Hout & _ & _); try assumption; try lia.
  destruct j as [|j]; [lia|]. destruct i as [|i]; cbn [hlc_run lookup list_lookup]; intros Hj Ha Hb'.
  - injection Ha as <-. pose proof (now_exceeds_start es (hlc_step s e).1 j w b Hes ltac:(assumption)
      ltac:(lia) ltac:(lia) Hj Hb'). lia.
  - apply (IH ltac:(assumption) (hlc_step s e).1 i j); try lia; assumption.
Qed.
End run.

(** [C36] In every interleaving of clock operations, each timestamp issued by
    [now] is strictly greater than every timestamp issued and every (clamped)
    remote timestamp observed before it, however the wall clock moves, as long
    as the 64-bit word cannot overflow during the run. *)
Theorem hlc_strictly_monotone W s es i j w a b :
  0 <= W -> W + MAX_CLOCK_DRIFT_MS < 2 ^ 48 -> walls_below W es -> Forall remote_u64 es ->
  0 <= s -> Z.max s (ceiling W) + Z.of_nat (length es) < 2 ^ 64 -> (i < j)%nat ->
  es !! j = Some (Now w) -> hlc_run s es !! i = Some a -> hlc_run s es !! j = Some b ->
  a < b.
Proof. intros. eapply hlc_run_ordered; eassumption. Qed.

Lemma hlc_strictly_monotone_witness :
  exists a b, hlc_run (Hlc_new 10) [Now 10; Observe 10 (12 * 65536); Now 3] !! 1%nat = Some a /\
    hlc_run (Hlc_new 10) [Now 10; Observe 10 (12 * 65536); Now 3] !! 2%nat = Some b /\ a < b.
Proof.
  eexists _, _. split; [vm_compute; reflexivity|]. split; [vm_compute; reflexivity|].
  apply (hlc_strictly_monotone 10 (Hlc_new 10) [Now 10; Observe 10 (12 * 65536); Now 3] 1 2 3).
  - lia.
  - unfold MAX_CLOCK_DRIFT_MS. lia.
  - repeat constructor; simpl; lia.
  - repeat constructor; unfold u64, in_range; lia.
  - vm_compute. discriminate.
  - vm_compute. reflexivity.
  - lia.
  - reflexivity.
  - vm_compute. reflexivity.
  - vm_compute. reflexivity.
Defined.

(** [C37] A skewed peer cannot run the clock away: whatever 64-bit remote
    timestamps are observed, the clock word never goes down and ends at most
    one tick per operation above [max(start, latest wall + 5 s)]. *)
Theorem hlc_drift_bounded W s es :
  0 <= W -> W + MAX_CLOCK_DRIFT_MS < 2 ^ 48 -> walls_below W es -> Forall remote_u64 es ->
  0 <= s -> Z.max s (ceiling W) + Z.of_nat (length es) < 2 ^ 64 ->
  s <= hlc_final s es <= Z.max s (ceiling W) + Z.of_nat (length es).
Proof. intros. apply hlc_final_bound; assumption. Qed.

Lemma hlc_drift_bounded_witness :
  hlc_final 0 [Observe 10 (2 ^ 64 - 1); Observe 11 (2 ^ 64 - 1)] <= 5011 * 65536 + 2.
Proof.
  apply (hlc_drift_bounded 11 0 [Observe 10 (2 ^ 64 - 1); Observe 11 (2 ^ 64 - 1)]);
    unfold ceiling, MAX_CLOCK_DRIFT_MS; cbn [length]; try lia.
  - repeat constructor; simpl; lia.
  - repeat constructor; unfold u64, in_range; lia.
Defined.

(** [observe] returns the remote timestamp unchanged exactly when it is
    at most [wall + 5 s] with logical part zero.  [is_drifted] implies that
    the timestamp is clamped, but the converse fails on the boundary
    millisecond: a timestamp of physical time exactly [wall + 5 s] and a
    non-zero logical part is clamped and not reported as drifted. *)
Theorem clamp_versus_is_drifted s wall remote :
  0 <= wall -> wall + MAX_CLOCK_DRIFT_MS < 2 ^ 48 -> u64 remote ->
  ((Hlc_observe s wall remote).2 <> remote <->
   Hlc_is_drifted wall remote = true \/
   (hlc_phys_ms remote = wall + MAX_CLOCK_DRIFT_MS /\ remote mod 65536 <> 0)).
Proof.
  intros Hw Hw48 Hr. unfold Hlc_observe, Hlc_is_drifted. rewrite hlc_pack_0 by (unfold MAX_CLOCK_DRIFT_MS in *; lia).
  cbn [fst snd]. rewrite hlc_phys_div, Z.ltb_lt.
  pose proof (Z.div_mod remote 65536 ltac:(lia)). pose proof (Z.mod_pos_bound remote 65536 ltac:(lia)).
  set (L := wall + MAX_CLOCK_DRIFT_MS) in *. lia.
Qed.

Lemma clamp_versus_is_drifted_witness :
  (Hlc_observe 0 0 (5000 * 65536 + 1)).2 <> 5000 * 65536 + 1 /\
  Hlc_is_drifted 0 (5000 * 65536 + 1) = false.
Proof.
  split; [|vm_compute; reflexivity].
  apply (clamp_versus_is_drifted 0 0 (5000 * 65536 + 1));
    [lia|unfold MAX_CLOCK_DRIFT_MS; lia|unfold u64, in_range; lia|].
  right. vm_compute. split; [reflexivity|discriminate].
Defined.
