(* ===== verification/Envelope.v ===== *)
(** * Record envelope ([crates/marekvs-core/src/envelope.rs])

    The 19-byte header of every stored value and the collection-head payload:
    flag bits, record types, and the byte codecs with their round trips in both
    directions. *)

From S2P Require Import Prelude.

Definition ENVELOPE_LEN : nat := 19.
Definition TOMBSTONE : Z := 1.
Definition COLLECTION_HEAD : Z := 2.

Inductive RecordType :=
  | RString | HashField | SetMember | ZsetMember | RList | StreamEntry
  | Counter | HllRegister | CounterField.

#[export] Instance RecordType_eq_dec : EqDecision RecordType.
Proof. solve_decision. Defined.

(** [rtype as u8]. *)
Definition rtype_u8 (t : RecordType) : Z :=
  match t with
  | RString => 0 | HashField => 1 | SetMember => 2 | ZsetMember => 3 | RList => 4
  | StreamEntry => 5 | Counter => 6 | HllRegister => 7 | CounterField => 8
  end.

Definition RecordType_from_bits (b : Z) : RecordType :=
  match b with
  | 1 => HashField | 2 => SetMember | 3 => ZsetMember | 4 => RList | 5 => StreamEntry
  | 6 => Counter | 7 => HllRegister | 8 => CounterField | _ => RString
  end.

Definition is_or_element (t : RecordType) : bool :=
  match t with
  | HashField | SetMember | ZsetMember | CounterField => true
  | _ => false
  end.

Record Envelope := mkEnvelope {
  flags : Z;
  hlc : Z;
  origin : Z;
  ttl_deadline_ms : Z;
}.

#[export] Instance Envelope_eq_dec : EqDecision Envelope.
Proof. solve_decision. Defined.

Definition Envelope_new (rtype : RecordType) (hlc origin : Z) : Envelope :=
  mkEnvelope (wrap 8 (Z.shiftl (rtype_u8 rtype) 2)) hlc origin 0.

Definition Envelope_tombstone (rtype : RecordType) (hlc origin : Z) : Envelope :=
  mkEnvelope (Z.lor (wrap 8 (Z.shiftl (rtype_u8 rtype) 2)) TOMBSTONE) hlc origin 0.

Definition Envelope_head (hlc origin : Z) : Envelope :=
  mkEnvelope COLLECTION_HEAD hlc origin 0.

Definition with_ttl (e : Envelope) (deadline_ms : Z) : Envelope :=
  mkEnvelope (flags e) (hlc e) (origin e) deadline_ms.

Definition is_tombstone (e : Envelope) : bool := negb (Z.land (flags e) TOMBSTONE =? 0).
Definition is_head (e : Envelope) : bool := negb (Z.land (flags e) COLLECTION_HEAD =? 0).

Definition rtype (e : Envelope) : RecordType :=
  RecordType_from_bits (Z.land (Z.shiftr (flags e) 2) 15).

Definition env_version (e : Envelope) : version := (hlc e, origin e).

Definition is_expired (e : Envelope) (now_ms : Z) : bool :=
  negb (ttl_deadline_ms e =? 0) && (ttl_deadline_ms e <=? now_ms).

Definition expiry_hlc (e : Envelope) : Z := wrap 64 (Z.shiftl (ttl_deadline_ms e) 16).

(** [encode_to]: the bytes appended to the output. *)
Definition encode_to (e : Envelope) : bytes :=
  [flags e] ++ be_bytes 8 (hlc e) ++ be_bytes 2 (origin e) ++ be_bytes 8 (ttl_deadline_ms e).

Definition encode_with (e : Envelope) (payload : bytes) : bytes := encode_to e ++ payload.

Definition Envelope_decode (value : bytes) : option (Envelope * bytes) :=
  if (length value <? ENVELOPE_LEN)%nat then None else
  Some (mkEnvelope (byte_at value 0) (of_be (slice 1 9 value)) (of_be (slice 9 11 value))
          (of_be (slice 11 19 value)),
        drop ENVELOPE_LEN value).

(** [head::encode] / [head::decode]: collection-head payload. *)
Definition CTYPE_HASH : Z := 1.
Definition CTYPE_SET : Z := 2.
Definition CTYPE_ZSET : Z := 3.
Definition CTYPE_STREAM : Z := 4.
Definition CTYPE_LIST : Z := 5.
Definition CTYPE_HLL : Z := 6.
Definition CTYPE_BUDGET : Z := 7.
Definition CTYPE_JSON : Z := 8.
Definition CTYPE_PROTO : Z := 9.

Definition head_encode (ctype del_hlc : Z) : bytes := ctype :: be_bytes 8 del_hlc.

Definition head_decode (payload : bytes) : option (Z * Z) :=
  if (length payload <? 9)%nat then None else
  Some (byte_at payload 0, of_be (slice 1 9 payload)).

(** ** Well-formed envelopes: every field at its width *)
Record envelope_ok (e : Envelope) : Prop := {
  flags_u8 : u8 (flags e);
  hlc_u64 : u64 (hlc e);
  origin_u16 : u16 (origin e);
  ttl_u64 : u64 (ttl_deadline_ms e);
}.

Lemma length_encode_to e : length (encode_to e) = 19%nat.
Proof. reflexivity. Qed.

Lemma Envelope_decode_encode_with e payload :
  envelope_ok e -> Envelope_decode (encode_with e payload) = Some (e, payload).
Proof.
  intros [Hf Hh Ho Ht]. unfold Envelope_decode, encode_with.
  rewrite length_app, length_encode_to.
  destruct (Nat.ltb_spec (19 + length payload) ENVELOPE_LEN); [unfold ENVELOPE_LEN in *; lia|].
  change (byte_at (encode_to e ++ payload) 0) with (flags e).
  change (slice 1 9 (encode_to e ++ payload)) with (be_bytes 8 (hlc e)).
  change (slice 9 11 (encode_to e ++ payload)) with (be_bytes 2 (origin e)).
  change (slice 11 19 (encode_to e ++ payload)) with (be_bytes 8 (ttl_deadline_ms e)).
  change (drop ENVELOPE_LEN (encode_to e ++ payload)) with payload.
  rewrite !of_be_u64, of_be_u16 by assumption. destruct e. reflexivity.
Qed.

Lemma of_be_slice_bound a n value :
  is_bytes value -> (a + n <= length value)%nat ->
  0 <= of_be (slice a (a + n) value) < 256 ^ Z.of_nat n.
Proof.
  intros Hv Hb. pose proof (of_be_bound (slice a (a + n) value) ltac:(auto with marekvs)) as H.
  rewrite length_slice in H by lia. replace (a + n - a)%nat with n in H by lia. exact H.
Qed.
Lemma of_be_slice_u64 a value :
  is_bytes value -> (a + 8 <= length value)%nat -> u64 (of_be (slice a (a + 8) value)).
Proof. intros. apply (of_be_slice_bound a 8); assumption. Qed.
Lemma of_be_slice_u16 a value :
  is_bytes value -> (a + 2 <= length value)%nat -> u16 (of_be (slice a (a + 2) value)).
Proof. intros. apply (of_be_slice_bound a 2); assumption. Qed.

Lemma byte_at_u8 l i : is_bytes l -> u8 (byte_at l i).
Proof.
  intros H. unfold byte_at. destruct (l !! i) eqn:E; simpl.
  - eapply Forall_lookup_1 in H; eassumption.
  - unfold u8, in_range. lia.
Qed.

Lemma Envelope_decode_ok value e payload :
  is_bytes value -> Envelope_decode value = Some (e, payload) ->
  envelope_ok e /\ is_bytes payload /\ value = encode_with e payload.
Proof.
  unfold Envelope_decode, ENVELOPE_LEN. intros Hv.
  destruct (Nat.ltb_spec (length value) 19) as [|Hlen]; [discriminate|].
  intros [= <- <-]. split; [|split].
  - split; cbn [flags hlc origin ttl_deadline_ms];
      [apply byte_at_u8|apply (of_be_slice_u64 1)|apply (of_be_slice_u16 9)|apply (of_be_slice_u64 11)];
      assumption || lia.
  - auto with marekvs.
  - unfold encode_with, encode_to. cbn [flags hlc origin ttl_deadline_ms].
    rewrite !be_bytes_of_slice by (lia || assumption).
    rewrite <- !app_assoc.
    replace ([byte_at value 0]) with (slice 0 1 value).
    2:{ destruct value; [simpl in Hlen; lia|]. reflexivity. }
    rewrite !app_assoc, !slice_split by lia. unfold slice. rewrite drop_0.
    symmetry. apply take_drop.
Qed.

(** Envelope codec: decoding what [encode_with] wrote gives back the
    envelope and the payload, and every byte string that decodes is exactly
    the encoding of its decoded parts (the layout has no redundancy). *)
Theorem envelope_codec_roundtrip :
  (forall e payload, envelope_ok e -> Envelope_decode (encode_with e payload) = Some (e, payload)) /\
  (forall value e payload, is_bytes value -> Envelope_decode value = Some (e, payload) ->
     encode_with e payload = value).
Proof.
  split; [exact Envelope_decode_encode_with|].
  intros value e payload Hv Hd. symmetry. eapply Envelope_decode_ok; eassumption.
Qed.

Lemma envelope_codec_roundtrip_witness :
  Envelope_decode (encode_with (mkEnvelope 8 258 3 7) [1; 2]) = Some (mkEnvelope 8 258 3 7, [1; 2]).
Proof.
  apply (proj1 envelope_codec_roundtrip). split; unfold u8, u64, u16, in_range; simpl; lia.
Defined.

Lemma head_decode_encode ctype del_hlc tail :
  u64 del_hlc -> head_decode (head_encode ctype del_hlc ++ tail) = Some (ctype, del_hlc).
Proof.
  intros H. unfold head_decode, head_encode. rewrite length_app. cbn [length].
  rewrite length_be_bytes. destruct (Nat.ltb_spec (9 + length tail) 9); [lia|].
  change (slice 1 9 ((ctype :: be_bytes 8 del_hlc) ++ tail)) with (be_bytes 8 del_hlc).
  rewrite of_be_u64 by assumption. reflexivity.
Qed.

(** ** Flag bits *)

Lemma rtype_from_bits_u8 t : RecordType_from_bits (rtype_u8 t) = t.
Proof. destruct t; reflexivity. Qed.

(** The flag byte the merge code builds for an element: type, and tombstone
    bit when [dead]. *)
Definition element_flags (t : RecordType) (dead : bool) : Z :=
  let f := wrap 8 (Z.shiftl (rtype_u8 t) 2) in if dead then Z.lor f TOMBSTONE else f.

Lemma element_flags_spec t dead h o ttl :
  let e := mkEnvelope (element_flags t dead) h o ttl in
  rtype e = t /\ is_tombstone e = dead /\ is_head e = false.
Proof. destruct t, dead; vm_compute; auto. Qed.

Lemma element_flags_u8 t dead : u8 (element_flags t dead).
Proof. destruct t, dead; vm_compute; split; discriminate || reflexivity. Qed.

(** The three flag constructors are independent of the four-bit type
    field: every record type (the ninth, [CounterField], included) is
    recovered from a live and from a tombstone envelope, the tombstone bit is
    set exactly by [Envelope::tombstone], and a head is a head of type
    [String] and never a tombstone. *)
Theorem envelope_flags_independent t h o ttl :
  let live := with_ttl (Envelope_new t h o) ttl in
  let dead := with_ttl (Envelope_tombstone t h o) ttl in
  let head := with_ttl (Envelope_head h o) ttl in
  rtype live = t /\ rtype dead = t /\ is_tombstone live = false /\ is_tombstone dead = true /\
  is_head live = false /\ is_head dead = false /\
  is_head head = true /\ is_tombstone head = false /\ rtype head = RString.
Proof. destruct t; vm_compute; auto 20. Qed.
