(* ===== verification/Varint.v ===== *)
(** * LEB128 varints ([put_varint] / [get_varint])

    The same two private functions appear in [merge.rs], [ikey.rs], [json.rs],
    [pdoc.rs] and [protohead.rs]; they are modelled once.  The loop of
    [put_varint] runs at most ten times on a 64-bit value, which is the fuel
    given to it; [put_varint_fuel] shows that more fuel changes nothing. *)

From S2P Require Import Prelude.

Fixpoint put_varint_loop (fuel : nat) (v : Z) : bytes :=
  match fuel with
  | O => []
  | S fuel =>
      let b := Z.land v 127 in
      let v := Z.shiftr v 7 in
      if v =? 0 then [b] else Z.lor b 128 :: put_varint_loop fuel v
  end.

Definition put_varint (v : Z) : bytes := put_varint_loop 10 v.

Fixpoint get_varint_loop (buf : bytes) (v shift : Z) (i : nat) : option (Z * nat) :=
  match buf with
  | [] => None
  | b :: buf =>
      let v := Z.lor v (wrap 64 (Z.shiftl (Z.land b 127) shift)) in
      if Z.land b 128 =? 0 then Some (v, S i) else
      let shift := shift + 7 in
      if 63 <? shift then None else get_varint_loop buf v shift (S i)
  end.

Definition get_varint (buf : bytes) : option (Z * nat) := get_varint_loop buf 0 0 0.

Lemma low7_range v : 0 <= Z.land v 127 < 128.
Proof.
  change 127 with (Z.ones 7). rewrite Z.land_ones by lia. change (2 ^ 7) with 128.
  apply Z.mod_pos_bound. lia.
Qed.

(** The continuation bit of a byte is independent of its low seven bits. *)
Lemma varint_byte_bits x : 0 <= x < 128 ->
  Z.land x 128 = 0 /\ Z.land x 127 = x /\ Z.land (Z.lor x 128) 128 <> 0 /\
  Z.land (Z.lor x 128) 127 = x /\ u8 (Z.lor x 128).
Proof.
  intros Hx.
  assert (H : negb (x <? 128) || ((Z.land x 128 =? 0) && (Z.land x 127 =? x) &&
     negb (Z.land (Z.lor x 128) 128 =? 0) && (Z.land (Z.lor x 128) 127 =? x) &&
     (0 <=? Z.lor x 128) && (Z.lor x 128 <? 256)) = true).
  { apply (byte_case (fun x => negb (x <? 128) || ((Z.land x 128 =? 0) && (Z.land x 127 =? x) &&
     negb (Z.land (Z.lor x 128) 128 =? 0) && (Z.land (Z.lor x 128) 127 =? x) &&
     (0 <=? Z.lor x 128) && (Z.lor x 128 <? 256)))); [vm_compute; reflexivity|].
    unfold u8, in_range. lia. }
  destruct (Z.ltb_spec x 128); [|lia]. simpl in H. rewrite !andb_true_iff, negb_true_iff in H.
  rewrite !Z.eqb_eq, Z.eqb_neq, Z.leb_le, Z.ltb_lt in H. unfold u8, in_range. intuition.
Qed.

Lemma put_varint_fuel n m v : 0 <= v < 2 ^ (7 * Z.of_nat n) -> (0 < n <= m)%nat ->
  put_varint_loop m v = put_varint_loop n v.
Proof.
  revert m v; induction n as [|n IH]; intros m v Hv Hnm; [lia|].
  destruct m as [|m]; [lia|]. cbn [put_varint_loop].
  destruct (Z.eqb_spec (Z.shiftr v 7) 0) as [|Hne]; [reflexivity|]. f_equal.
  destruct n as [|n].
  - exfalso. apply Hne. rewrite Z.shiftr_div_pow2 by lia. apply Z.div_small. simpl in Hv. lia.
  - apply IH; [|lia]. rewrite Z.shiftr_div_pow2 by lia. split; [apply Z.div_pos; lia|].
    apply Z.div_lt_upper_bound; [lia|]. rewrite <- Z.pow_add_r by lia.
    replace (7 + 7 * Z.of_nat (S n)) with (7 * Z.of_nat (S (S n))) by lia. lia.
Qed.

Lemma get_put_varint_loop n v acc shift i rest :
  (0 < n)%nat -> 0 <= v < 2 ^ (7 * Z.of_nat n) -> 0 <= shift -> 0 <= acc < 2 ^ shift ->
  v * 2 ^ shift < 2 ^ 64 -> (shift + 7 * Z.of_nat n <= 70) ->
  get_varint_loop (put_varint_loop n v ++ rest) acc shift i =
  Some (acc + v * 2 ^ shift, (i + length (put_varint_loop n v))%nat).
Proof.
  revert v acc shift i; induction n as [|n IH]; intros v acc shift i Hn Hv Hs Hacc Hfit Hsh; [lia|].
  cbn [put_varint_loop].
  assert (Hdm : v = 128 * (Z.shiftr v 7) + Z.land v 127).
  { rewrite Z.shiftr_div_pow2 by lia. change 127 with (Z.ones 7). rewrite Z.land_ones by lia.
    apply Z.div_mod. lia. }
  pose proof (low7_range v) as Hlow. set (q := Z.shiftr v 7) in *. set (b := Z.land v 127) in *.
  assert (0 <= q) by (apply Z.shiftr_nonneg; lia).
  destruct (varint_byte_bits b Hlow) as (B1 & B2 & B3 & B4 & _).
  assert (Hp : 0 < 2 ^ shift) by (apply Z.pow_pos_nonneg; lia).
  assert (Hw : wrap 64 (Z.shiftl b shift) = Z.shiftl b shift).
  { unfold wrap. rewrite Z.shiftl_mul_pow2 by lia. apply Z.mod_small. nia. }
  destruct (Z.eqb_spec q 0) as [Hq|Hq]; cbn [app get_varint_loop length].
  - rewrite B1, B2, Hw, lor_shiftl by lia. simpl. f_equal. f_equal; [|lia].
    replace v with b by lia. reflexivity.
  - rewrite B4, Hw, lor_shiftl by lia. rewrite (proj2 (Z.eqb_neq _ _) B3).
    assert (n <> O).
    { intros ->. apply Hq. unfold q. rewrite Z.shiftr_div_pow2 by lia. apply Z.div_small. simpl in Hv. lia. }
    destruct (Z.ltb_spec 63 (shift + 7)) as [Hbig|_].
    { exfalso. assert (1 <= q) by lia. assert (2 ^ 64 <= 128 * 2 ^ shift).
      { change 128 with (2 ^ 7). rewrite <- Z.pow_add_r by lia. apply Z.pow_le_mono_r; lia. }
      nia. }
    rewrite IH; try lia.
    + f_equal. f_equal; [|lia]. rewrite Z.pow_add_r by lia. change (2 ^ 7) with 128. clearbody q b. subst v. ring.
    + split; [lia|]. unfold q. rewrite Z.shiftr_div_pow2 by lia. apply Z.div_lt_upper_bound; [lia|].
      rewrite <- Z.pow_add_r by lia. replace (7 + 7 * Z.of_nat n) with (7 * Z.of_nat (S n)) by lia. lia.
    + rewrite Z.pow_add_r by lia. change (2 ^ 7) with 128. nia.
    + rewrite Z.pow_add_r by lia. change (2 ^ 7) with 128. nia.
Qed.

Lemma get_put_varint v rest : u64 v ->
  get_varint (put_varint v ++ rest) = Some (v, length (put_varint v)).
Proof.
  intros Hv. unfold get_varint, put_varint, u64, in_range in *.
  rewrite get_put_varint_loop by (try lia; simpl; lia). f_equal. f_equal. lia.
Qed.

Lemma put_varint_prefix_free a b x y : u64 a -> u64 b ->
  put_varint a ++ x = put_varint b ++ y -> a = b /\ x = y.
Proof.
  intros Ha Hb H. pose proof (get_put_varint a x Ha) as Ga. rewrite H, get_put_varint in Ga by assumption.
  injection Ga as -> _. apply app_inv_head in H. auto.
Qed.

Lemma put_varint_length v : (0 < length (put_varint v) <= 10)%nat.
Proof.
  unfold put_varint. assert (H : forall n v, (length (put_varint_loop n v) <= n)%nat).
  { induction n as [|n IH]; intros w; simpl; [lia|]. destruct (_ =? 0); simpl; [lia|]. specialize (IH (Z.shiftr w 7)). lia. }
  split; [|apply H]. change 10%nat with (S 9). generalize 9%nat. intros n.
  cbn [put_varint_loop]. destruct (_ =? 0); simpl; lia.
Qed.

Lemma put_varint_is_bytes v : is_bytes (put_varint v).
Proof.
  unfold put_varint. generalize 10%nat. intros n. revert v; induction n as [|n IH]; intros v; simpl; [constructor|].
  pose proof (low7_range v). destruct (varint_byte_bits (Z.land v 127) ltac:(assumption)) as (_ & _ & _ & _ & ?).
  destruct (_ =? 0).
  - constructor; [unfold u8, in_range; lia|constructor].
  - constructor; [assumption|apply IH].
Qed.
#[export] Hint Resolve put_varint_is_bytes : marekvs.

Lemma get_varint_loop_bound buf v shift i w n :
  get_varint_loop buf v shift i = Some (w, n) -> (i < n <= i + length buf)%nat.
Proof.
  revert v shift i; induction buf as [|b buf IH]; intros v shift i; simpl; [discriminate|].
  destruct (_ =? 0); [intros [= _ <-]; lia|]. destruct (63 <? _); [discriminate|].
  intros H. apply IH in H. lia.
Qed.

(** The decoded length never runs past the buffer. *)
Lemma get_varint_bound buf w n : get_varint buf = Some (w, n) -> (0 < n <= length buf)%nat.
Proof. intros H. apply get_varint_loop_bound in H. lia. Qed.
