(* ===== verification/Ikey.v ===== *)
(** * Internal storage keys ([crates/marekvs-core/src/ikey.rs])

    Key builders, the parser, and the list-position allocator.  Keys parse back
    to what they were built from, a collection prefix covers exactly its own
    elements, and big-endian suffixes make [memcmp] order the numeric order.

    [parse] can panic: [n + klen] overflows [usize] on a crafted length prefix
    (in a debug build the addition panics; in a release build it wraps below
    [n] and the slice [rest[n..n + klen]] panics), so it returns [rust]. *)

From S2P Require Import Prelude Partition Varint.

Inductive Tag :=
  | TString | THead | THashField | TSetMember | TZsetMember | TZsetScore | TListElem
  | THllRegister | TList | TStreamEntry | TBudget | TJson | TProtoField.

#[export] Instance Tag_eq_dec : EqDecision Tag.
Proof. solve_decision. Defined.

(** [tag as u8]: the ASCII letters of the enum. *)
Definition tag_u8 (t : Tag) : Z :=
  match t with
  | TString => 115 | THead => 77 | THashField => 104 | TSetMember => 83 | TZsetMember => 122
  | TZsetScore => 90 | TListElem => 113 | THllRegister => 72 | TList => 108 | TStreamEntry => 120
  | TBudget => 98 | TJson => 106 | TProtoField => 112
  end.

Definition base (tag : Tag) (userkey : bytes) : bytes :=
  be_bytes 2 (pid_of userkey) ++ [tag_u8 tag].

Definition simple (tag : Tag) (userkey : bytes) : bytes := base tag userkey ++ userkey.

Definition prefixed (tag : Tag) (userkey suffix : bytes) : bytes :=
  base tag userkey ++ put_varint (Z.of_nat (length userkey)) ++ userkey ++ suffix.

Definition string_key (userkey : bytes) : bytes := simple TString userkey.
Definition list_key (userkey : bytes) : bytes := simple TList userkey.

(** ** List positions *)
Definition LIST_CENTER : Z := Z.shiftl 1 63.
Definition LIST_POS_STRIDE : Z := 1024.
Definition LIST_NODE_ID_MAX : Z := LIST_POS_STRIDE - 1.

(** [pos & !(LIST_POS_STRIDE - 1)] in u64. *)
Definition list_slot_base (pos : Z) : Z :=
  Z.land pos (2 ^ 64 - 1 - (LIST_POS_STRIDE - 1)).

Definition list_pos_in_slot (slot_base node : Z) : Z :=
  Z.lor (list_slot_base slot_base) (Z.land node (LIST_POS_STRIDE - 1)).

(** The release profile wraps; a debug build panics on the underflow. *)
Definition list_pos_before (head node : Z) : Z :=
  list_pos_in_slot (wrap 64 (list_slot_base head - LIST_POS_STRIDE)) node.

Definition list_pos_after (tail node : Z) : Z :=
  list_pos_in_slot (wrap 64 (list_slot_base tail + LIST_POS_STRIDE)) node.

Definition list_pos_nth (index node : Z) : Z :=
  list_pos_in_slot (wrap 64 (LIST_CENTER + wrap 64 (index * LIST_POS_STRIDE))) node.

Definition list_elem_key (userkey : bytes) (pos : Z) : bytes :=
  prefixed TListElem userkey (be_bytes 8 pos).

Definition list_pos (suffix : bytes) : option Z :=
  if (8 <=? length suffix)%nat then Some (of_be (slice 0 8 suffix)) else None.

(** ** Element keys *)
Definition head_key (userkey : bytes) : bytes := prefixed THead userkey [].
Definition hash_field_key (userkey field : bytes) : bytes := prefixed THashField userkey field.
Definition set_member_key (userkey member : bytes) : bytes := prefixed TSetMember userkey member.
Definition zset_member_key (userkey member : bytes) : bytes := prefixed TZsetMember userkey member.
Definition zset_score_key (userkey : bytes) (score_be : Z) (member : bytes) : bytes :=
  prefixed TZsetScore userkey (be_bytes 8 score_be ++ member).
Definition hll_register_key (userkey : bytes) (bucket : Z) : bytes :=
  prefixed THllRegister userkey (be_bytes 2 bucket).
Definition stream_entry_key (userkey : bytes) (id_ms id_seq : Z) : bytes :=
  prefixed TStreamEntry userkey (be_bytes 8 id_ms ++ be_bytes 8 id_seq).

Definition collection_prefix (tag : Tag) (userkey : bytes) : bytes := prefixed tag userkey [].

Definition ELEMENT_TAGS : list Tag :=
  [THashField; TSetMember; TZsetMember; TListElem; TStreamEntry; THllRegister; TBudget; TJson;
   TProtoField].

Definition BUDGET_SLOT : Z := 76.
Definition BUDGET_WINDOW_SLOT : Z := 87.
Definition BUDGET_TOKEN : Z := 84.

Definition budget_slot_key (userkey : bytes) (gen node epoch : Z) : bytes :=
  prefixed TBudget userkey ([BUDGET_SLOT] ++ be_bytes 8 gen ++ be_bytes 2 node ++ be_bytes 8 epoch).

Definition budget_window_slot_key (userkey : bytes) (gen window node epoch : Z) : bytes :=
  prefixed TBudget userkey
    ([BUDGET_WINDOW_SLOT] ++ be_bytes 8 gen ++ be_bytes 8 window ++ be_bytes 2 node ++ be_bytes 8 epoch).

Definition budget_token_key (userkey : bytes) (gen hlc node epoch : Z) : bytes :=
  prefixed TBudget userkey
    ([BUDGET_TOKEN] ++ be_bytes 8 gen ++ be_bytes 8 hlc ++ be_bytes 2 node ++ be_bytes 8 epoch).

Definition budget_kind_prefix (userkey : bytes) (kind gen : Z) : bytes :=
  prefixed TBudget userkey ([kind] ++ be_bytes 8 gen).

Definition json_node_key (userkey path : bytes) : bytes := prefixed TJson userkey path.
Definition proto_field_key (userkey path : bytes) : bytes := prefixed TProtoField userkey path.
Definition partition_prefix (pid : Z) : bytes := be_bytes 2 pid.

(** ** The parser *)
Record ParsedKey := mkParsedKey {
  pk_pid : Z;
  pk_tag : Z;
  pk_userkey : bytes;
  pk_suffix : bytes;
}.

Definition is_simple_tag (tag : Z) : bool := (tag =? 115) || (tag =? 108).
Definition is_prefixed_tag (tag : Z) : bool :=
  bool_decide (tag ∈ [77; 104; 83; 122; 90; 113; 120; 72; 98; 106; 112]).

Definition parse (ikey : bytes) : rust (option ParsedKey) :=
  if (length ikey <? 3)%nat then Ret None else
  let pid := of_be (slice 0 2 ikey) in
  let tag := byte_at ikey 2 in
  let rest := drop 3 ikey in
  if is_simple_tag tag then Ret (Some (mkParsedKey pid tag rest [])) else
  if is_prefixed_tag tag then
    match get_varint rest with
    | None => Ret None
    | Some (klen, n) =>
        if 2 ^ 64 <=? Z.of_nat n + klen then Panic else
        if Z.of_nat (length rest) <? Z.of_nat n + klen then Ret None else
        let klen := Z.to_nat klen in
        Ret (Some (mkParsedKey pid tag (slice n (n + klen) rest) (drop (n + klen) rest)))
    end
  else Ret None.

(** A length a Rust slice can have ([isize::MAX] bytes at most). *)
Definition slice_len_ok (l : bytes) : Prop := Z.of_nat (length l) < 2 ^ 63.

(** Tags written by [simple] and tags written by [prefixed]. *)
Definition simple_tag (t : Tag) : bool := match t with TString | TList => true | _ => false end.

(** ** Lemmas: parsing *)

Lemma length_base t k : length (base t k) = 3%nat.
Proof. reflexivity. Qed.

Lemma pid_bytes k : of_be (be_bytes 2 (pid_of k)) = pid_of k.
Proof.
  apply of_be_u16. pose proof (pid_of_range k) as H.
  unfold PARTITIONS in H. unfold u16, in_range. lia.
Qed.

Lemma slice_len_u64 k : slice_len_ok k -> u64 (Z.of_nat (length k)).
Proof. unfold slice_len_ok, u64, in_range. lia. Qed.

Lemma parse_simple t k : simple_tag t = true ->
  parse (simple t k) = Ret (Some (mkParsedKey (pid_of k) (tag_u8 t) k [])).
Proof.
  intros Ht. unfold parse, simple. rewrite length_app, length_base.
  destruct (Nat.ltb_spec (3 + length k) 3); [lia|].
  change (slice 0 2 (base t k ++ k)) with (be_bytes 2 (pid_of k)).
  change (byte_at (base t k ++ k) 2) with (tag_u8 t).
  change (drop 3 (base t k ++ k)) with k. rewrite pid_bytes.
  destruct t; try discriminate; reflexivity.
Qed.

Lemma parse_prefixed t k s : simple_tag t = false -> slice_len_ok k ->
  parse (prefixed t k s) = Ret (Some (mkParsedKey (pid_of k) (tag_u8 t) k s)).
Proof.
  intros Ht Hk. unfold parse, prefixed. rewrite length_app, length_base.
  set (r := put_varint _ ++ k ++ s).
  destruct (Nat.ltb_spec (3 + length r) 3); [lia|].
  change (slice 0 2 (base t k ++ r)) with (be_bytes 2 (pid_of k)).
  change (byte_at (base t k ++ r) 2) with (tag_u8 t).
  change (drop 3 (base t k ++ r)) with r. rewrite pid_bytes.
  assert (is_simple_tag (tag_u8 t) = false /\ is_prefixed_tag (tag_u8 t) = true) as [-> ->]
    by (destruct t; try discriminate; split; reflexivity).
  unfold r. rewrite get_put_varint by (apply slice_len_u64; assumption).
  pose proof (put_varint_length (Z.of_nat (length k))). unfold slice_len_ok in Hk.
  set (n := length (put_varint (Z.of_nat (length k)))) in *.
  destruct (Z.leb_spec (2 ^ 64) (Z.of_nat n + Z.of_nat (length k))); [lia|].
  destruct (Z.ltb_spec (Z.of_nat (length (put_varint (Z.of_nat (length k)) ++ k ++ s)))
              (Z.of_nat n + Z.of_nat (length k))) as [Hlt|_].
  { rewrite !length_app in Hlt. fold n in Hlt. lia. }
  rewrite Nat2Z.id. unfold n at 1 2. rewrite slice_app_l. do 3 f_equal.
  rewrite app_assoc, drop_app_length' by (rewrite length_app; reflexivity). reflexivity.
Qed.

Lemma tag_u8_inj t t' : tag_u8 t = tag_u8 t' -> t = t'.
Proof. destruct t, t'; vm_compute; congruence. Qed.

(** A key built for an element parses back to the partition, tag, user
    key and suffix it was built from, and so does a simple (string) key; hence
    distinct (tag, user key, suffix) triples never share a storage key. *)
Theorem ikey_parse_roundtrip :
  (forall t k s, simple_tag t = false -> slice_len_ok k ->
     parse (prefixed t k s) = Ret (Some (mkParsedKey (pid_of k) (tag_u8 t) k s))) /\
  (forall t k, simple_tag t = true ->
     parse (simple t k) = Ret (Some (mkParsedKey (pid_of k) (tag_u8 t) k []))) /\
  (forall t k s t' k' s', simple_tag t = false -> simple_tag t' = false ->
     slice_len_ok k -> slice_len_ok k' ->
     prefixed t k s = prefixed t' k' s' -> t = t' /\ k = k' /\ s = s').
Proof.
  split; [exact parse_prefixed|]. split; [exact parse_simple|].
  intros t k s t' k' s' Ht Ht' Hk Hk' H.
  pose proof (parse_prefixed t k s Ht Hk) as P. rewrite H, parse_prefixed in P by assumption.
  injection P as _ Htag -> ->. auto using tag_u8_inj.
Qed.

Lemma ikey_parse_roundtrip_witness :
  parse (prefixed THashField [117; 49] [110]) =
  Ret (Some (mkParsedKey (pid_of [117; 49]) 104 [117; 49] [110])).
Proof. apply (proj1 ikey_parse_roundtrip); [reflexivity|unfold slice_len_ok; simpl; lia]. Defined.

Lemma prefixed_split t k s : prefixed t k s = collection_prefix t k ++ s.
Proof. unfold collection_prefix, prefixed. rewrite app_nil_r, <- !app_assoc. reflexivity. Qed.

(** A collection scan is exact: a stored element key starts with the
    scan prefix of a collection iff it is an element of that collection - no
    longer user key, other tag or other partition falls under it. *)
Theorem collection_prefix_exact t k t' k' s :
  slice_len_ok k -> slice_len_ok k' ->
  starts_with (prefixed t' k' s) (collection_prefix t k) = true <-> t' = t /\ k' = k.
Proof.
  intros Hk Hk'. rewrite starts_with_spec. split.
  - intros [x Hx]. unfold collection_prefix, prefixed in Hx.
    rewrite app_nil_r, <- !app_assoc in Hx.
    assert (Hlen : length (base t' k') = length (base t k)) by reflexivity.
    pose proof Hx as Hx2. apply app_inj_1 in Hx2 as [Hb Hr]; [|assumption].
    apply put_varint_prefix_free in Hr as [Hn Hr]; try (apply slice_len_u64; assumption).
    apply app_inj_1 in Hr as [-> _]; [|lia].
    split; [|reflexivity]. apply tag_u8_inj.
    unfold base in Hb. apply app_inj_tail in Hb as [_ Hb]. assumption.
  - intros [-> ->]. exists s. apply prefixed_split.
Qed.

Lemma collection_prefix_exact_witness :
  starts_with (prefixed TSetMember [97; 98] [1]) (collection_prefix TSetMember [97; 98]) = true /\
  starts_with (prefixed TSetMember [97; 98] [1]) (collection_prefix TSetMember [97]) = false.
Proof.
  split.
  - apply (collection_prefix_exact TSetMember [97; 98] TSetMember [97; 98] [1]);
      unfold slice_len_ok; simpl; auto; lia.
  - vm_compute. reflexivity.
Defined.

(** [parse] is not total: for every element tag and every length prefix
    within ten of [2^64], the bounds check overflows and the call panics
    (under [panic = "abort"], the release profile, the process dies). *)
Theorem parse_length_prefix_panics t p0 p1 klen rest :
  simple_tag t = false -> u64 klen -> 2 ^ 64 - Z.of_nat (length (put_varint klen)) <= klen ->
  parse (p0 :: p1 :: tag_u8 t :: put_varint klen ++ rest) = Panic.
Proof.
  intros Ht Hk Hbig. unfold parse. cbn [length]. rewrite length_app.
  destruct (Nat.ltb_spec (S (S (S (length (put_varint klen) + length rest)))) 3); [lia|].
  set (r := put_varint klen ++ rest).
  change (byte_at (p0 :: p1 :: tag_u8 t :: r) 2) with (tag_u8 t).
  change (drop 3 (p0 :: p1 :: tag_u8 t :: r)) with r.
  assert (is_simple_tag (tag_u8 t) = false /\ is_prefixed_tag (tag_u8 t) = true) as [-> ->]
    by (destruct t; try discriminate; split; reflexivity).
  unfold r. rewrite get_put_varint by assumption.
  destruct (Z.leb_spec (2 ^ 64) (Z.of_nat (length (put_varint klen)) + klen)); [reflexivity|lia].
Qed.

Lemma parse_length_prefix_panics_witness :
  parse (0 :: 0 :: 104 :: put_varint (2 ^ 64 - 1) ++ []) = Panic.
Proof.
  apply (parse_length_prefix_panics THashField 0 0 (2 ^ 64 - 1) []);
    [reflexivity|unfold u64, in_range; lia|]. vm_compute. discriminate.
Defined.

Lemma prefixed_is_bytes t u s : is_bytes u -> is_bytes s -> is_bytes (prefixed t u s).
Proof.
  intros Hu Hs. unfold prefixed, base. apply is_bytes_app; split; [apply is_bytes_app; split|apply is_bytes_app; split; [|apply is_bytes_app; split]];
    auto with marekvs.
  apply Forall_singleton. unfold u8, in_range. destruct t; cbn; lia.
Qed.

(** ** Lemmas: order *)

Lemma prefixed_cmp t k s s' : bytes_cmp (prefixed t k s) (prefixed t k s') = bytes_cmp s s'.
Proof. rewrite !prefixed_split. apply bytes_cmp_app_same. Qed.

Lemma be8_cmp x y : u64 x -> u64 y -> bytes_cmp (be_bytes 8 x) (be_bytes 8 y) = (x ?= y).
Proof. intros Hx Hy. apply be_bytes_cmp; assumption. Qed.

(** Key order is value order: within one collection, [memcmp] on the
    storage keys orders list elements by position, zset index entries by
    (score, member) and stream entries by (ms, seq). *)
Theorem element_key_order k :
  (forall p q, u64 p -> u64 q -> bytes_cmp (list_elem_key k p) (list_elem_key k q) = (p ?= q)) /\
  (forall s m s' m', u64 s -> u64 s' ->
     bytes_cmp (zset_score_key k s m) (zset_score_key k s' m') =
     match s ?= s' with Eq => bytes_cmp m m' | c => c end) /\
  (forall ms sq ms' sq', u64 ms -> u64 sq -> u64 ms' -> u64 sq' ->
     bytes_cmp (stream_entry_key k ms sq) (stream_entry_key k ms' sq') = ver_cmp (ms, sq) (ms', sq')).
Proof.
  unfold list_elem_key, zset_score_key, stream_entry_key, ver_cmp.
  split_and!; intros; rewrite prefixed_cmp, ?bytes_cmp_app_eqlen by reflexivity;
    rewrite ?be8_cmp by assumption; reflexivity.
Qed.

Lemma element_key_order_witness :
  bytes_cmp (list_elem_key [113] 255) (list_elem_key [113] 256) = Lt.
Proof.
  rewrite (proj1 (element_key_order [113])); [reflexivity|unfold u64, in_range; lia..].
Defined.

(** ** List positions *)

Lemma list_slot_base_spec pos : u64 pos -> list_slot_base pos = pos - pos mod 1024.
Proof.
  intros Hp. unfold list_slot_base, LIST_POS_STRIDE.
  change (2 ^ 64 - 1 - (1024 - 1)) with (Z.shiftl (Z.ones 54) 10).
  assert (pos - pos mod 1024 = Z.shiftl (Z.shiftr pos 10) 10) as ->.
  { rewrite Z.shiftl_mul_pow2, Z.shiftr_div_pow2 by lia. change (2 ^ 10) with 1024.
    pose proof (Z.div_mod pos 1024 ltac:(lia)). lia. }
  apply Z.bits_inj'. intros i Hi. rewrite Z.land_spec, !Z.shiftl_spec by lia.
  destruct (Z_lt_le_dec i 10).
  - rewrite !(Z.testbit_neg_r _ (i - 10)) by lia. apply andb_false_r.
  - rewrite Z.shiftr_spec by lia. replace (i - 10 + 10) with i by lia.
    destruct (Z_lt_le_dec i 64).
    + rewrite Z.ones_spec_low by lia. apply andb_true_r.
    + rewrite (range_testbit 64 pos) by (assumption || lia). reflexivity.
Qed.

Definition node_ok (node : Z) : Prop := 0 <= node <= LIST_NODE_ID_MAX.

Lemma list_pos_in_slot_spec b node :
  u64 b -> node_ok node -> list_pos_in_slot b node = b - b mod 1024 + node.
Proof.
  unfold node_ok, LIST_NODE_ID_MAX. intros Hb Hn. unfold list_pos_in_slot.
  rewrite list_slot_base_spec by assumption. unfold LIST_POS_STRIDE in *.
  assert (Z.land node (1024 - 1) = node) as ->.
  { change (1024 - 1) with (Z.ones 10). rewrite Z.land_ones by lia. apply Z.mod_small. lia. }
  pose proof (Z.div_mod b 1024 ltac:(lia)) as Hd.
  assert (b - b mod 1024 = Z.shiftl (b / 1024) 10) as ->
    by (rewrite Z.shiftl_mul_pow2 by lia; change (2 ^ 10) with 1024; lia).
  rewrite Z.lor_comm, lor_shiftl, Z.shiftl_mul_pow2 by lia. lia.
Qed.

Lemma wrap_u64 z : u64 (wrap 64 z).
Proof. apply wrap_range. lia. Qed.

Lemma list_pos_before_spec head node : u64 head -> 1024 <= head -> node_ok node ->
  list_pos_before head node = head - head mod 1024 - 1024 + node.
Proof.
  intros Hh Hge Hn. unfold list_pos_before. rewrite list_pos_in_slot_spec by auto using wrap_u64.
  rewrite list_slot_base_spec by assumption. unfold LIST_POS_STRIDE, wrap, u64, in_range in *.
  pose proof (Z.div_mod head 1024 ltac:(lia)). pose proof (Z.mod_pos_bound head 1024 ltac:(lia)).
  rewrite (Z.mod_small (head - head mod 1024 - 1024)) by lia.
  replace (head - head mod 1024 - 1024) with ((head / 1024 - 1) * 1024) by lia.
  rewrite Z.mod_mul by lia. lia.
Qed.

Lemma list_pos_after_spec tail node : u64 tail -> tail < 2 ^ 64 - 1024 -> node_ok node ->
  list_pos_after tail node = tail - tail mod 1024 + 1024 + node.
Proof.
  intros Hh Hge Hn. unfold list_pos_after. rewrite list_pos_in_slot_spec by auto using wrap_u64.
  rewrite list_slot_base_spec by assumption. unfold LIST_POS_STRIDE, wrap, u64, in_range in *.
  pose proof (Z.div_mod tail 1024 ltac:(lia)). pose proof (Z.mod_pos_bound tail 1024 ltac:(lia)).
  rewrite (Z.mod_small (tail - tail mod 1024 + 1024)) by lia.
  replace (tail - tail mod 1024 + 1024) with ((tail / 1024 + 1) * 1024) by lia.
  rewrite Z.mod_mul by lia. lia.
Qed.

(** A push allocates next to the observed head or tail, a rebuild by index. *)
Inductive list_alloc :=
  | PushLeft (head : Z)
  | PushRight (tail : Z)
  | Rebuild (index : Z).

Definition alloc_pos (a : list_alloc) (node : Z) : Z :=
  match a with
  | PushLeft h => list_pos_before h node
  | PushRight t => list_pos_after t node
  | Rebuild i => list_pos_nth i node
  end.

Lemma alloc_pos_salt a node : node_ok node -> alloc_pos a node mod 1024 = node.
Proof.
  intros Hn.
  assert (H : forall z, list_pos_in_slot (wrap 64 z) node mod 1024 = node).
  { intros z. rewrite list_pos_in_slot_spec by auto using wrap_u64.
    set (b := wrap 64 z). unfold node_ok, LIST_NODE_ID_MAX, LIST_POS_STRIDE in Hn.
    pose proof (Z.div_mod b 1024 ltac:(lia)).
    replace (b - b mod 1024 + node) with (node + (b / 1024) * 1024) by lia.
    rewrite Z.mod_add by lia. apply Z.mod_small. lia. }
  destruct a; apply H.
Qed.

(** Concurrent pushes never collide: two different nodes never allocate
    the same list position, whatever heads, tails or rebuild indexes they
    observed (even at the ends of the position space, where the arithmetic
    wraps). *)
Theorem list_positions_never_collide a b n m :
  node_ok n -> node_ok m -> n <> m -> alloc_pos a n <> alloc_pos b m.
Proof.
  intros Hn Hm Hne Heq. apply Hne.
  rewrite <- (alloc_pos_salt a n Hn), <- (alloc_pos_salt b m Hm). congruence.
Qed.

Lemma list_positions_never_collide_witness :
  alloc_pos (PushLeft LIST_CENTER) 1 <> alloc_pos (PushLeft LIST_CENTER) 2.
Proof.
  apply list_positions_never_collide; unfold node_ok, LIST_NODE_ID_MAX, LIST_POS_STRIDE; lia.
Defined.

(** A push lands on the correct side of what it observed: one slot below
    the head or above the tail, salted with the node id, so successive pushes
    of any nodes extend the list outwards as long as a slot is left. *)
Theorem list_push_sides pos node :
  u64 pos -> node_ok node ->
  (1024 <= pos -> list_pos_before pos node < pos /\
     list_slot_base (list_pos_before pos node) = list_slot_base pos - LIST_POS_STRIDE) /\
  (pos < 2 ^ 64 - 1024 -> pos < list_pos_after pos node < 2 ^ 64 /\
     list_slot_base (list_pos_after pos node) = list_slot_base pos + LIST_POS_STRIDE).
Proof.
  intros Hp Hn. pose proof Hn as Hn'. unfold node_ok, LIST_NODE_ID_MAX, LIST_POS_STRIDE in Hn'.
  pose proof (Z.div_mod pos 1024 ltac:(lia)) as Hd. pose proof (Z.mod_pos_bound pos 1024 ltac:(lia)).
  pose proof Hp as Hp'. unfold u64, in_range in Hp'.
  split; intros Hb.
  - rewrite list_pos_before_spec by assumption. split; [lia|].
    rewrite !list_slot_base_spec; [|assumption|unfold u64, in_range; lia].
    replace (pos - pos mod 1024 - 1024 + node) with (node + (pos / 1024 - 1) * 1024) by lia.
    rewrite Z.mod_add, (Z.mod_small node) by lia. unfold LIST_POS_STRIDE. lia.
  - rewrite list_pos_after_spec by assumption.
    assert (pos - pos mod 1024 + 1024 + node < 2 ^ 64) by (change (2 ^ 64) with (2 ^ 54 * 1024) in *; nia).
    split; [lia|].
    rewrite !list_slot_base_spec; [|assumption|unfold u64, in_range; lia].
    replace (pos - pos mod 1024 + 1024 + node) with (node + (pos / 1024 + 1) * 1024) by lia.
    rewrite Z.mod_add, (Z.mod_small node) by lia. unfold LIST_POS_STRIDE. lia.
Qed.

Lemma list_push_sides_witness :
  list_pos_before LIST_CENTER 7 < LIST_CENTER /\ LIST_CENTER < list_pos_after LIST_CENTER 7.
Proof.
  destruct (list_push_sides LIST_CENTER 7) as [H1 H2].
  - unfold LIST_CENTER, u64, in_range. vm_compute. split; [discriminate|reflexivity].
  - unfold node_ok, LIST_NODE_ID_MAX, LIST_POS_STRIDE. lia.
  - split; [apply H1|apply H2]; vm_compute; discriminate || reflexivity.
Defined.
