(* ===== verification/Counter.v ===== *)
(** * PN counters ([crates/marekvs-core/src/counter.rs])

    A counter is a last-writer-wins base register plus one grow-only
    [(pos, neg)] slot per node.  [binary_search_by_key] followed by an insert
    or an in-place update is modelled by [slot_update], the same search on the
    node-sorted slot vector; on a vector that is not sorted (never produced by
    this code) Rust leaves the result of the search unspecified. *)

From S2P Require Import Prelude.

Definition MAX_SLOTS : nat := 255.

Abbreviation slots := (list (Z * (Z * Z))).

Record CounterState := mkCounter {
  base_hlc : Z;
  base_origin : Z;
  cbase : Z;
  cslots : slots;
}.

#[export] Instance CounterState_eq_dec : EqDecision CounterState.
Proof. solve_decision. Defined.

Definition on_base (base_hlc base_origin base : Z) : CounterState :=
  mkCounter base_hlc base_origin base [].

Definition base_version (c : CounterState) : version := (base_hlc c, base_origin c).

(** [base + Σpos − Σneg] in i128. *)
Definition slots_sum (l : slots) : Z :=
  fold_right (fun s acc => s.2.1 - s.2.2 + acc) 0 l.
Definition raw_value (c : CounterState) : Z := cbase c + slots_sum (cslots c).

Definition value (c : CounterState) : option Z :=
  let v := raw_value c in
  if (- 2 ^ 63 <=? v) && (v <? 2 ^ 63) then Some v else None.

(** Search for [node]; apply [f] to the slot found there, or insert [f None]. *)
Fixpoint slot_update (node : Z) (f : option (Z * Z) -> Z * Z) (l : slots) : slots :=
  match l with
  | [] => [(node, f None)]
  | (n, v) :: l' =>
      if node <? n then (node, f None) :: l
      else if node =? n then (n, f (Some v)) :: l'
      else (n, v) :: slot_update node f l'
  end.

Definition bump_slot (delta : Z) (s : option (Z * Z)) : Z * Z :=
  let '(pos, neg) := default (0, 0) s in
  if 0 <=? delta then (saturating_add 64 pos delta, neg)
  else (pos, saturating_add 64 neg (Z.abs delta)).

Definition bump (c : CounterState) (node delta : Z) : CounterState :=
  mkCounter (base_hlc c) (base_origin c) (cbase c)
    (slot_update node (bump_slot delta) (cslots c)).

Definition slot_max (v w : Z * Z) : Z * Z := (Z.max v.1 w.1, Z.max v.2 w.2).

Definition join_slot (w : Z * Z) (s : option (Z * Z)) : Z * Z :=
  match s with Some v => slot_max v w | None => w end.

Definition join_slots (self other : slots) : slots :=
  take MAX_SLOTS (fold_left (fun acc s => slot_update s.1 (join_slot s.2) acc) other self).

Definition CounterState_merge (a b : CounterState) : CounterState :=
  match ver_cmp (base_version a) (base_version b) with
  | Gt => a
  | Lt => b
  | Eq => mkCounter (base_hlc a) (base_origin a) (cbase a) (join_slots (cslots a) (cslots b))
  end.

Definition encode_slot (s : Z * (Z * Z)) : bytes :=
  be_bytes 2 s.1 ++ be_bytes 8 s.2.1 ++ be_bytes 8 s.2.2.

Definition CounterState_encode (c : CounterState) : bytes :=
  be_bytes 8 (base_hlc c) ++ be_bytes 2 (base_origin c) ++ be_bytes 8 (cbase c) ++
  [wrap 8 (Z.of_nat (length (cslots c)))] ++ concat (encode_slot <$> cslots c).

Fixpoint decode_slots (n : nat) (rest : bytes) : slots :=
  match n with
  | O => []
  | S n =>
      (of_be (slice 0 2 rest), (of_be (slice 2 10 rest), of_be (slice 10 18 rest)))
      :: decode_slots n (drop 18 rest)
  end.

Definition CounterState_decode (payload : bytes) : option CounterState :=
  if (length payload <? 19)%nat then None else
  let base_hlc := of_be (slice 0 8 payload) in
  let base_origin := of_be (slice 8 10 payload) in
  let base := to_signed 64 (of_be (slice 10 18 payload)) in
  let n := Z.to_nat (byte_at payload 18) in
  if (length payload <? 19 + n * 18)%nat then None else
  Some (mkCounter base_hlc base_origin base (decode_slots n (drop 19 payload))).

(** ** Well-formed counters *)

(** Slots sorted by node id, one per node. *)
Definition node_lt (a b : Z * (Z * Z)) : Prop := a.1 < b.1.
#[export] Instance node_lt_irrefl : Irreflexive node_lt.
Proof. intros x. unfold node_lt, complement. lia. Qed.
#[export] Instance node_lt_trans : Transitive node_lt.
Proof. intros x y z. unfold node_lt. lia. Qed.

Definition slots_sorted (l : slots) : Prop := StronglySorted node_lt l.

Record counter_wf (c : CounterState) : Prop := {
  wf_sorted : slots_sorted (cslots c);
  wf_cap : (length (cslots c) <= MAX_SLOTS)%nat;
}.

(** Equal base versions name the same base write. *)
Definition base_agree (a b : CounterState) : Prop :=
  base_version a = base_version b -> cbase a = cbase b.

Fixpoint slots_get (l : slots) (n : Z) : option (Z * Z) :=
  match l with
  | [] => None
  | (m, v) :: l' => if n =? m then Some v else slots_get l' n
  end.

(** ** Lemmas: slots as finite maps *)

Lemma slots_get_below l n x : Forall (node_lt x) l -> n <= x.1 -> slots_get l n = None.
Proof.
  intros Hf Hn. induction Hf as [|[m v] l Hm _ IH]; simpl; [reflexivity|].
  unfold node_lt in Hm. simpl in Hm. destruct (Z.eqb_spec n m); [lia|]. apply IH.
Qed.

Lemma slots_get_elem l n v : slots_sorted l -> slots_get l n = Some v <-> (n, v) ∈ l.
Proof.
  intros Hs. induction Hs as [|[m w] l Hs IH Hf]; simpl.
  - split; [discriminate|]. intros H. exfalso. revert H. apply not_elem_of_nil.
  - rewrite elem_of_cons. destruct (Z.eqb_spec n m) as [->|Hne].
    + split; [intros [= ->]; auto|]. intros [[= ->]|Hin]; [reflexivity|].
      rewrite Forall_forall in Hf. specialize (Hf _ Hin). unfold node_lt in Hf. simpl in Hf. lia.
    + rewrite IH. split; [auto|]. intros [[= -> _]|]; [congruence|assumption].
Qed.

Lemma slots_ext l1 l2 : slots_sorted l1 -> slots_sorted l2 ->
  (forall n, slots_get l1 n = slots_get l2 n) -> l1 = l2.
Proof.
  intros H1 H2 H. apply (sorted_ext node_lt); try assumption. intros [n v].
  rewrite <- !slots_get_elem by assumption. rewrite H. reflexivity.
Qed.

Lemma slot_update_below node f l x :
  x.1 < node -> Forall (node_lt x) l -> Forall (node_lt x) (slot_update node f l).
Proof.
  intros Hx. induction 1 as [|[m v] l Hm Hl IH]; simpl; [repeat constructor; assumption|].
  destruct (node <? m); [repeat constructor; assumption|].
  destruct (node =? m); constructor; assumption.
Qed.

Lemma slot_update_sorted node f l : slots_sorted l -> slots_sorted (slot_update node f l).
Proof.
  intros Hs. induction Hs as [|[m v] l Hs IH Hf]; simpl; [repeat constructor|].
  destruct (Z.ltb_spec node m) as [Hlt|Hge].
  - constructor; [constructor; assumption|]. constructor; [assumption|].
    eapply Forall_impl; [exact Hf|]. intros y. unfold node_lt. simpl. lia.
  - destruct (Z.eqb_spec node m) as [->|Hne].
    + constructor; [assumption|]. eapply Forall_impl; [exact Hf|]. intros y. exact (fun H => H).
    + constructor; [assumption|]. apply slot_update_below; [simpl; lia|assumption].
Qed.

Lemma slot_update_get node f l n : slots_sorted l ->
  slots_get (slot_update node f l) n =
  if n =? node then Some (f (slots_get l node)) else slots_get l n.
Proof.
  intros Hs. induction Hs as [|[m v] l Hs IH Hf]; simpl.
  - destruct (n =? node); reflexivity.
  - destruct (Z.ltb_spec node m) as [Hlt|Hge].
    + simpl. destruct (Z.eqb_spec n node) as [->|]; [|reflexivity].
      destruct (Z.eqb_spec node m); [lia|].
      rewrite (slots_get_below l node (m, v)) by (assumption || (simpl; lia)). reflexivity.
    + destruct (Z.eqb_spec node m) as [->|Hne]; simpl.
      * destruct (n =? m); reflexivity.
      * rewrite IH. destruct (Z.eqb_spec n m) as [->|]; [|reflexivity].
        destruct (Z.eqb_spec m node); [lia|reflexivity].
Qed.

(** The fold of [join_slots], before truncation. *)
Definition join_raw (self other : slots) : slots :=
  fold_left (fun acc s => slot_update s.1 (join_slot s.2) acc) other self.

Lemma join_raw_sorted other self : slots_sorted self -> slots_sorted (join_raw self other).
Proof.
  unfold join_raw. revert self. induction other as [|s other IH]; intros self Hs; simpl; [assumption|].
  apply IH, slot_update_sorted, Hs.
Qed.

Definition opt_max (v w : option (Z * Z)) : option (Z * Z) :=
  union_with (fun v w => Some (slot_max v w)) v w.

Lemma join_raw_get other self n : slots_sorted self -> slots_sorted other ->
  slots_get (join_raw self other) n = opt_max (slots_get self n) (slots_get other n).
Proof.
  intros Hs Ho. unfold join_raw. revert self Hs.
  induction Ho as [|[m w] other Ho IH Hf]; intros self Hs; simpl.
  - destruct (slots_get self n); reflexivity.
  - rewrite IH by (apply slot_update_sorted; assumption).
    rewrite slot_update_get by assumption. destruct (Z.eqb_spec n m) as [->|]; [|reflexivity].
    rewrite (slots_get_below other m (m, w)) by (assumption || (simpl; lia)).
    destruct (slots_get self m); reflexivity.
Qed.

Lemma opt_max_comm v w : opt_max v w = opt_max w v.
Proof. destruct v as [[? ?]|], w as [[? ?]|]; simpl; unfold slot_max; simpl; do 2 f_equal; lia. Qed.
Lemma opt_max_assoc u v w : opt_max u (opt_max v w) = opt_max (opt_max u v) w.
Proof.
  destruct u as [[? ?]|], v as [[? ?]|], w as [[? ?]|]; simpl; unfold slot_max; simpl; do 2 f_equal; lia.
Qed.
Lemma opt_max_idem v : opt_max v v = v.
Proof. destruct v as [[? ?]|]; simpl; unfold slot_max; simpl; rewrite ?Z.max_id; reflexivity. Qed.

(** [join_raw] as a two-way merge of sorted slot lists. *)
Fixpoint slots_merge (a : slots) : slots -> slots :=
  fix go (b : slots) : slots :=
    match a, b with
    | [], _ => b
    | _, [] => a
    | (n, v) :: a', (m, w) :: b' =>
        if n <? m then (n, v) :: slots_merge a' b
        else if m <? n then (m, w) :: go b'
        else (n, slot_max v w) :: slots_merge a' b'
    end.

Lemma slots_merge_nil_r a : slots_merge a [] = a.
Proof. destruct a as [|[n v] a]; reflexivity. Qed.

Lemma slots_merge_cons n v a m w b :
  slots_merge ((n, v) :: a) ((m, w) :: b) =
  if n <? m then (n, v) :: slots_merge a ((m, w) :: b)
  else if m <? n then (m, w) :: slots_merge ((n, v) :: a) b
  else (n, slot_max v w) :: slots_merge a b.
Proof. reflexivity. Qed.

Lemma slots_merge_below a b x :
  Forall (node_lt x) a -> Forall (node_lt x) b -> Forall (node_lt x) (slots_merge a b).
Proof.
  intros Ha. revert b. induction Ha as [|[n v] a Hn Ha IHa]; intros b Hb; [destruct b; assumption|].
  induction Hb as [|[m w] b Hm Hb IHb]; [constructor; assumption|].
  rewrite slots_merge_cons. destruct (n <? m); [constructor; auto|].
  destruct (m <? n); constructor; auto.
Qed.

Lemma slots_merge_sorted a b : slots_sorted a -> slots_sorted b -> slots_sorted (slots_merge a b).
Proof.
  intros Ha. revert b. induction Ha as [|[n v] a Ha IHa Hfa]; intros b Hb; [destruct b; assumption|].
  induction Hb as [|[m w] b Hb IHb Hfb]; [constructor; assumption|].
  assert (Hup : forall p q l, p < q.1 -> Forall (node_lt q) l -> Forall (node_lt (p, w)) l).
  { intros p q l Hp Hl. eapply Forall_impl; [exact Hl|]. unfold node_lt. simpl. lia. }
  rewrite slots_merge_cons. destruct (Z.ltb_spec n m); [|destruct (Z.ltb_spec m n)].
  - constructor; [apply IHa; constructor; assumption|].
    apply slots_merge_below; [assumption|]. constructor; [assumption|].
    eapply Forall_impl; [exact Hfb|]. unfold node_lt. simpl. lia.
  - constructor; [assumption|].
    change ((fix go (b : slots) : slots := _) b) with (slots_merge ((n, v) :: a) b).
    apply slots_merge_below; [|assumption]. constructor; [assumption|].
    eapply Forall_impl; [exact Hfa|]. unfold node_lt. simpl. lia.
  - constructor; [apply IHa; assumption|]. apply slots_merge_below; [exact Hfa|].
    eapply Forall_impl; [exact Hfb|]. unfold node_lt. simpl. lia.
Qed.

Lemma slots_merge_get a b n : slots_sorted a -> slots_sorted b ->
  slots_get (slots_merge a b) n = opt_max (slots_get a n) (slots_get b n).
Proof.
  intros Ha. revert b. induction Ha as [|[p v] a Ha IHa Hfa]; intros b Hb.
  { destruct b as [|[m w] b]; [reflexivity|]. simpl. destruct (n =? m), (slots_get b n); reflexivity. }
  induction Hb as [|[m w] b Hb IHb Hfb].
  { rewrite slots_merge_nil_r. destruct (slots_get ((p, v) :: a) n); reflexivity. }
  rewrite slots_merge_cons. destruct (Z.ltb_spec p m); [|destruct (Z.ltb_spec m p)].
  - cbn [slots_get]. rewrite IHa by (constructor; assumption). cbn [slots_get].
    destruct (Z.eqb_spec n p) as [->|]; [|reflexivity].
    destruct (Z.eqb_spec p m); [lia|].
    rewrite (slots_get_below b p (m, w)) by (assumption || (simpl; lia)). reflexivity.
  - cbn [slots_get]. rewrite IHb. cbn [slots_get].
    destruct (Z.eqb_spec n m) as [->|]; [|reflexivity].
    destruct (Z.eqb_spec m p); [lia|].
    rewrite (slots_get_below a m (p, v)) by (assumption || (simpl; lia)). reflexivity.
  - assert (m = p) as -> by lia. cbn [slots_get]. rewrite IHa by assumption.
    destruct (n =? p); reflexivity.
Qed.

Lemma join_raw_merge a b : slots_sorted a -> slots_sorted b -> join_raw a b = slots_merge a b.
Proof.
  intros Ha Hb. apply slots_ext; [apply join_raw_sorted|apply slots_merge_sorted|]; try assumption.
  intros n. rewrite join_raw_get, slots_merge_get by assumption. reflexivity.
Qed.

(** Truncating an input further than the result is truncated changes nothing. *)
Lemma slots_merge_take k j a b : (k <= j)%nat ->
  take k (slots_merge (take j a) b) = take k (slots_merge a b).
Proof.
  revert k j b. induction a as [|[n v] a IHa]; intros k j b Hkj; [rewrite take_nil; reflexivity|].
  destruct k as [|k]; [reflexivity|]. destruct j as [|j]; [lia|].
  cbn [take]. induction b as [|[m w] b IHb] in k, j, Hkj |- *.
  - rewrite !slots_merge_nil_r. cbn [take]. f_equal. rewrite take_take. f_equal. lia.
  - rewrite !slots_merge_cons. destruct (n <? m); [|destruct (m <? n)]; cbn [take]; f_equal.
    + apply IHa. lia.
    + destruct k as [|k]; [reflexivity|].
      specialize (IHb k j ltac:(lia)). cbn [take] in IHb. exact IHb.
    + apply IHa. lia.
Qed.

Lemma take_sorted {A} (R : relation A) k l : StronglySorted R l -> StronglySorted R (take k l).
Proof.
  intros Hs. revert k. induction Hs as [|x l Hs IH Hf]; intros [|k]; simpl; constructor; auto.
  apply Forall_take. assumption.
Qed.

Lemma slots_merge_comm a b : slots_sorted a -> slots_sorted b -> slots_merge a b = slots_merge b a.
Proof.
  intros Ha Hb. apply slots_ext; try (apply slots_merge_sorted; assumption).
  intros n. rewrite !slots_merge_get by assumption. apply opt_max_comm.
Qed.

Lemma slots_merge_assoc a b c : slots_sorted a -> slots_sorted b -> slots_sorted c ->
  slots_merge a (slots_merge b c) = slots_merge (slots_merge a b) c.
Proof.
  intros Ha Hb Hc. apply slots_ext; try (repeat apply slots_merge_sorted; assumption).
  intros n. rewrite !slots_merge_get by (try apply slots_merge_sorted; assumption). apply opt_max_assoc.
Qed.

Lemma slots_merge_idem a : slots_sorted a -> slots_merge a a = a.
Proof.
  intros Ha. apply slots_ext; [apply slots_merge_sorted; assumption|assumption|].
  intros n. rewrite slots_merge_get by assumption. apply opt_max_idem.
Qed.

(** ** [join_slots] is a join, cap included *)

Lemma join_slots_merge a b : slots_sorted a -> slots_sorted b ->
  join_slots a b = take MAX_SLOTS (slots_merge a b).
Proof. intros Ha Hb. rewrite <- join_raw_merge by assumption. reflexivity. Qed.

Lemma join_slots_sorted a b : slots_sorted a -> slots_sorted b -> slots_sorted (join_slots a b).
Proof.
  intros Ha Hb. rewrite join_slots_merge by assumption.
  apply take_sorted, slots_merge_sorted; assumption.
Qed.

Lemma join_slots_comm a b : slots_sorted a -> slots_sorted b -> join_slots a b = join_slots b a.
Proof. intros Ha Hb. rewrite !join_slots_merge, slots_merge_comm by assumption. reflexivity. Qed.

Lemma join_slots_assoc a b c : slots_sorted a -> slots_sorted b -> slots_sorted c ->
  join_slots a (join_slots b c) = join_slots (join_slots a b) c.
Proof.
  intros Ha Hb Hc. pose proof (slots_merge_sorted b c Hb Hc) as Hbc.
  pose proof (slots_merge_sorted a b Ha Hb) as Hab.
  rewrite (join_slots_merge b c), (join_slots_merge a b) by assumption.
  rewrite !join_slots_merge by (try apply take_sorted; assumption).
  rewrite slots_merge_take, slots_merge_comm by (try apply take_sorted; lia || assumption).
  rewrite slots_merge_take, slots_merge_comm, slots_merge_assoc by (lia || assumption). reflexivity.
Qed.

Lemma join_slots_idem a : slots_sorted a -> (length a <= MAX_SLOTS)%nat -> join_slots a a = a.
Proof. intros Ha Hl. rewrite join_slots_merge, slots_merge_idem by assumption. apply take_ge, Hl. Qed.

Lemma CounterState_merge_wf a b : counter_wf a -> counter_wf b -> counter_wf (CounterState_merge a b).
Proof.
  intros [Sa La] [Sb Lb]. unfold CounterState_merge.
  destruct (ver_cmp _ _); split; simpl; auto using join_slots_sorted.
  unfold join_slots. rewrite length_take. lia.
Qed.

Lemma CounterState_merge_comm a b : counter_wf a -> counter_wf b -> base_agree a b ->
  CounterState_merge a b = CounterState_merge b a.
Proof.
  intros [Sa _] [Sb _] Hab. unfold CounterState_merge. rewrite (ver_cmp_antisym (base_version a)).
  destruct (ver_cmp (base_version a) (base_version b)) eqn:E; simpl; try reflexivity.
  apply ver_cmp_eq in E. rewrite (Hab E), join_slots_comm by assumption.
  injection E as -> ->. reflexivity.
Qed.

Lemma CounterState_merge_assoc a b c : counter_wf a -> counter_wf b -> counter_wf c ->
  CounterState_merge a (CounterState_merge b c) = CounterState_merge (CounterState_merge a b) c.
Proof.
  intros [Sa _] [Sb _] [Sc _]. unfold CounterState_merge.
  destruct (ver_cmp (base_version a) (base_version b)) eqn:Eab;
  destruct (ver_cmp (base_version b) (base_version c)) eqn:Ebc;
  destruct (ver_cmp (base_version a) (base_version c)) eqn:Eac;
  unfold base_version in *; cbn [base_hlc base_origin cslots cbase];
  rewrite ?Eab, ?Ebc, ?Eac; try reflexivity;
  try (f_equal; apply join_slots_assoc; assumption);
  exfalso; clear -Eab Ebc Eac; ver_solve.
Qed.

Lemma CounterState_merge_idem a : counter_wf a -> CounterState_merge a a = a.
Proof.
  intros [Sa La]. unfold CounterState_merge.
  rewrite (proj2 (ver_cmp_eq _ _) eq_refl), join_slots_idem by assumption. destruct a; reflexivity.
Qed.

(** The slots of a merge are in range when both sides' are. *)
Lemma slot_update_Forall (P : Z * (Z * Z) -> Prop) node f l :
  Forall P l -> P (node, f None) -> (forall v, (node, v) ∈ l -> P (node, f (Some v))) ->
  Forall P (slot_update node f l).
Proof.
  intros Hl. induction Hl as [|[m v] l Hm Hl IH]; intros Hn Hf; simpl; [repeat constructor; assumption|].
  destruct (Z.ltb_spec node m); [repeat constructor; assumption|].
  destruct (Z.eqb_spec node m) as [->|].
  - constructor; [apply Hf; left|assumption].
  - constructor; [assumption|]. apply IH; [assumption|]. intros w Hw. apply Hf. right. exact Hw.
Qed.

(** Counter merge is commutative, associative and idempotent on
    well-formed counters whose equal base versions name equal bases - with
    the 255-slot truncation included, so replicas converge to the same bytes
    in whatever order they exchange states. *)
Theorem counter_merge_semilattice a b c :
  counter_wf a -> counter_wf b -> counter_wf c ->
  base_agree a b ->
  CounterState_merge a b = CounterState_merge b a /\
  CounterState_merge a (CounterState_merge b c) = CounterState_merge (CounterState_merge a b) c /\
  CounterState_merge a a = a.
Proof.
  intros Ha Hb Hc Hab. split_and!.
  - apply CounterState_merge_comm; assumption.
  - apply CounterState_merge_assoc; assumption.
  - apply CounterState_merge_idem; assumption.
Qed.

Lemma counter_merge_semilattice_witness :
  let a := bump (on_base 1 1 5) 3 7 in let b := bump (on_base 1 1 5) 2 (-4) in
  CounterState_merge a b = CounterState_merge b a.
Proof.
  apply (counter_merge_semilattice (bump (on_base 1 1 5) 3 7) (bump (on_base 1 1 5) 2 (-4)) (on_base 2 0 9));
    try (intros; reflexivity); try (intros H; discriminate H);
    split; cbn; repeat constructor; unfold MAX_SLOTS; lia.
Defined.

(** ** Increments *)

Lemma slots_sum_update node f l : slots_sorted l ->
  slots_sum (slot_update node f l) =
  slots_sum l - (let v := default (0, 0) (slots_get l node) in v.1 - v.2)
  + (let w := f (slots_get l node) in w.1 - w.2).
Proof.
  intros Hs. induction Hs as [|[m v] l Hs IH Hf]; simpl; [lia|].
  destruct (Z.ltb_spec node m) as [Hlt|Hge].
  - simpl. destruct (Z.eqb_spec node m); [lia|].
    rewrite (slots_get_below l node (m, v)) by (assumption || (simpl; lia)). simpl. lia.
  - destruct (Z.eqb_spec node m) as [->|Hne]; simpl; [lia|]. rewrite IH. simpl. lia.
Qed.

(** No saturation of the node's own slot. *)
Definition bump_fits (c : CounterState) (node delta : Z) : Prop :=
  let '(pos, neg) := default (0, 0) (slots_get (cslots c) node) in
  0 <= pos /\ 0 <= neg /\ pos + Z.abs delta < 2 ^ 64 /\ neg + Z.abs delta < 2 ^ 64.

Lemma bump_raw_value c node delta : slots_sorted (cslots c) -> bump_fits c node delta ->
  raw_value (bump c node delta) = raw_value c + delta.
Proof.
  intros Hs Hf. unfold raw_value, bump_fits in *. cbn [bump cslots cbase].
  rewrite slots_sum_update by assumption. unfold bump_slot.
  destruct (default (0, 0) (slots_get (cslots c) node)) as [pos neg]. simpl.
  unfold saturating_add. destruct (Z.leb_spec 0 delta); simpl; lia.
Qed.

Lemma bump_slot_grows delta s : 0 <= (default (0, 0) s).1 < 2 ^ 64 -> 0 <= (default (0, 0) s).2 < 2 ^ 64 ->
  opt_max s (Some (bump_slot delta s)) = Some (bump_slot delta s).
Proof.
  intros Hp Hn. unfold bump_slot. destruct s as [[p n]|]; simpl in *; [|reflexivity].
  unfold saturating_add, slot_max. destruct (Z.leb_spec 0 delta); simpl; do 2 f_equal; lia.
Qed.

(** Concurrent bumps of different nodes on a common state commute under join. *)
Lemma merge_concurrent_bumps c n m d e :
  counter_wf c -> n <> m -> bump_fits c n d -> bump_fits c m e ->
  (length (cslots (bump (bump c n d) m e)) <= MAX_SLOTS)%nat ->
  CounterState_merge (bump c n d) (bump c m e) = bump (bump c n d) m e.
Proof.
  intros [Hs _] Hne Hn Hm Hlen. unfold CounterState_merge.
  rewrite (proj2 (ver_cmp_eq _ _)) by reflexivity. unfold bump in *. cbn [cslots base_hlc base_origin cbase] in *.
  f_equal. rewrite join_slots_merge by (apply slot_update_sorted; assumption).
  assert (slots_merge (slot_update n (bump_slot d) (cslots c)) (slot_update m (bump_slot e) (cslots c)) =
          slot_update m (bump_slot e) (slot_update n (bump_slot d) (cslots c))) as ->;
    [|apply take_ge; assumption].
  apply slots_ext; [apply slots_merge_sorted; apply slot_update_sorted; assumption
                   |repeat apply slot_update_sorted; assumption|].
  intros k. rewrite slots_merge_get, !slot_update_get by (repeat apply slot_update_sorted; assumption).
  unfold bump_fits in *.
  destruct (Z.eqb_spec k m) as [->|].
  - destruct (Z.eqb_spec m n); [lia|].
    apply bump_slot_grows; destruct (default (0, 0) (slots_get (cslots c) m)); simpl; lia.
  - destruct (Z.eqb_spec k n) as [->|]; [|apply opt_max_idem].
    rewrite opt_max_comm. apply bump_slot_grows; destruct (default (0, 0) (slots_get (cslots c) n)); simpl; lia.
Qed.

(** Stable increments: when two different nodes increment the same
    counter concurrently, the merged counter holds both increments - its value
    is the common value plus both deltas - as long as no 64-bit slot saturates
    and at most 255 nodes have ever incremented. *)
Theorem concurrent_increments_survive c n m d e :
  counter_wf c -> n <> m -> bump_fits c n d -> bump_fits c m e ->
  (length (cslots (bump (bump c n d) m e)) <= MAX_SLOTS)%nat ->
  raw_value (CounterState_merge (bump c n d) (bump c m e)) = raw_value c + d + e.
Proof.
  intros Hc Hne Hn Hm Hlen. rewrite merge_concurrent_bumps by assumption.
  destruct Hc as [Hs _].
  rewrite bump_raw_value, bump_raw_value; [lia|assumption..| |].
  - cbn [bump cslots]. apply slot_update_sorted, Hs.
  - unfold bump_fits. cbn [bump cslots]. rewrite slot_update_get by assumption.
    destruct (Z.eqb_spec m n); [lia|]. exact Hm.
Qed.

Lemma concurrent_increments_survive_witness :
  raw_value (CounterState_merge (bump (on_base 0 0 0) 1 10) (bump (on_base 0 0 0) 2 (-4))) = 6.
Proof.
  rewrite (concurrent_increments_survive (on_base 0 0 0) 1 2 10 (-4));
    [reflexivity|split; cbn; [constructor|unfold MAX_SLOTS; lia]|lia|unfold bump_fits; simpl; lia..|].
  cbn. unfold MAX_SLOTS. lia.
Defined.

(** ** Codec *)

Record slot_ok (s : Z * (Z * Z)) : Prop := {
  slot_node_u16 : u16 s.1;
  slot_pos_u64 : u64 s.2.1;
  slot_neg_u64 : u64 s.2.2;
}.

Record counter_fields_ok (c : CounterState) : Prop := {
  c_hlc_u64 : u64 (base_hlc c);
  c_origin_u16 : u16 (base_origin c);
  c_base_i64 : i64 (cbase c);
  c_slots_ok : Forall slot_ok (cslots c);
}.

Lemma join_slots_ok a b : Forall slot_ok a -> Forall slot_ok b -> Forall slot_ok (join_slots a b).
Proof.
  intros Ha Hb. unfold join_slots. apply Forall_take. revert a Ha.
  induction Hb as [|[n w] b [Hn Hp Hq] _ IH]; intros a Ha; [assumption|]. apply IH.
  apply slot_update_Forall; [assumption|split; assumption|]. intros v Hv.
  rewrite Forall_forall in Ha. destruct (Ha _ Hv) as [_ Hvp Hvq]. cbn [fst snd] in *.
  unfold u64, in_range in *. split; cbn; unfold u64, in_range; lia || assumption.
Qed.

Lemma CounterState_merge_fields_ok a b : counter_fields_ok a -> counter_fields_ok b ->
  counter_fields_ok (CounterState_merge a b).
Proof.
  intros Ha Hb. unfold CounterState_merge. destruct (ver_cmp _ _); try assumption.
  split; try apply Ha. apply join_slots_ok; [apply Ha|apply Hb].
Qed.

Lemma length_encode_slot s : length (encode_slot s) = 18%nat.
Proof. reflexivity. Qed.

Lemma length_encode_slots l : length (concat (encode_slot <$> l)) = (18 * length l)%nat.
Proof.
  induction l as [|s l IH]; [reflexivity|]. cbn [fmap list_fmap concat].
  rewrite length_app, length_encode_slot, IH. simpl length. lia.
Qed.

Lemma decode_encode_slots l rest : Forall slot_ok l ->
  decode_slots (length l) (concat (encode_slot <$> l) ++ rest) = l.
Proof.
  induction 1 as [|[n [p q]] l [Hn Hp Hq] _ IH]; [reflexivity|].
  cbn [length decode_slots fmap list_fmap concat]. rewrite <- app_assoc.
  set (r := concat _ ++ rest) in *.
  change (slice 0 2 (encode_slot (n, (p, q)) ++ r)) with (be_bytes 2 n).
  change (slice 2 10 (encode_slot (n, (p, q)) ++ r)) with (be_bytes 8 p).
  change (slice 10 18 (encode_slot (n, (p, q)) ++ r)) with (be_bytes 8 q).
  change (drop 18 (encode_slot (n, (p, q)) ++ r)) with r.
  cbn [fst snd] in *. rewrite of_be_u16, !of_be_u64, IH by assumption. reflexivity.
Qed.

(** What [decode] reads back from [encode]: the slot count is one byte. *)
Lemma decode_encode_counter c rest : counter_fields_ok c ->
  CounterState_decode (CounterState_encode c ++ rest) =
  Some (mkCounter (base_hlc c) (base_origin c) (cbase c)
         (decode_slots (Z.to_nat (wrap 8 (Z.of_nat (length (cslots c)))))
            (concat (encode_slot <$> cslots c) ++ rest))).
Proof.
  intros [Hh Ho Hb _]. set (n := wrap 8 (Z.of_nat (length (cslots c)))).
  assert (Hn : 0 <= n <= Z.of_nat (length (cslots c))).
  { unfold n, wrap. split; [apply Z.mod_pos_bound; lia|]. apply Z.mod_le; lia. }
  unfold CounterState_decode.
  set (body := concat (encode_slot <$> cslots c)).
  assert (Hlen : length (CounterState_encode c ++ rest) = (19 + length body + length rest)%nat).
  { unfold CounterState_encode. rewrite !length_app, !length_be_bytes. cbn [length]. fold body. lia. }
  unfold body in Hlen. rewrite length_encode_slots in Hlen.
  destruct (Nat.ltb_spec (length (CounterState_encode c ++ rest)) 19); [lia|].
  change (slice 0 8 (CounterState_encode c ++ rest)) with (be_bytes 8 (base_hlc c)).
  change (slice 8 10 (CounterState_encode c ++ rest)) with (be_bytes 2 (base_origin c)).
  change (slice 10 18 (CounterState_encode c ++ rest)) with (be_bytes 8 (cbase c)).
  change (byte_at (CounterState_encode c ++ rest) 18) with n.
  destruct (Nat.ltb_spec (length (CounterState_encode c ++ rest)) (19 + Z.to_nat n * 18)); [lia|].
  rewrite of_be_u64, of_be_u16, to_signed_of_be by assumption. reflexivity.
Qed.

Lemma counter_decode_encode c : counter_fields_ok c -> (length (cslots c) <= MAX_SLOTS)%nat ->
  CounterState_decode (CounterState_encode c) = Some c.
Proof.
  intros Hok Hlen. rewrite <- (app_nil_r (CounterState_encode c)), decode_encode_counter by assumption.
  unfold MAX_SLOTS in Hlen. unfold wrap. rewrite Z.mod_small, Nat2Z.id by lia.
  rewrite decode_encode_slots by apply Hok. destruct c; reflexivity.
Qed.

(** Counter codec: a counter of at most 255 slots survives encoding.
    One slot more and it does not: [bump] does not enforce [MAX_SLOTS], the
    count byte of a 256-slot counter wraps to zero, and decoding what was
    stored yields the bare base - every increment is lost. *)
Theorem counter_codec_and_slot_overflow c :
  counter_fields_ok c ->
  ((length (cslots c) <= MAX_SLOTS)%nat -> CounterState_decode (CounterState_encode c) = Some c) /\
  (length (cslots c) = S MAX_SLOTS ->
   CounterState_decode (CounterState_encode c) =
   Some (on_base (base_hlc c) (base_origin c) (cbase c))).
Proof.
  intros Hok. split; [apply counter_decode_encode, Hok|]. intros Hlen.
  rewrite <- (app_nil_r (CounterState_encode c)), decode_encode_counter by assumption.
  rewrite Hlen. reflexivity.
Qed.

(** A counter that 256 nodes have bumped once each. *)
Definition counter_256 : CounterState :=
  fold_left (fun c n => bump c n 1) (seqZ 0 256) (on_base 0 0 0).

Lemma counter_codec_and_slot_overflow_witness :
  value counter_256 = Some 256 /\
  CounterState_decode (CounterState_encode counter_256) = Some (on_base 0 0 0).
Proof.
  split; [vm_compute; reflexivity|].
  apply (proj2 (counter_codec_and_slot_overflow counter_256
           ltac:(split; [unfold u64, in_range; simpl; lia|unfold u16, in_range; simpl; lia|unfold i64; simpl; lia|
             apply Forall_forall; intros x Hx;
             assert (He : forallb (fun s => (0 <=? s.1) && (s.1 <? 65536) && (s.2.1 =? 1) && (s.2.2 =? 0)) (cslots counter_256) = true)
               by (vm_compute; reflexivity);
             rewrite forallb_forall in He; specialize (He x (proj1 (list_elem_of_In _ _) Hx));
             split; unfold u16, u64, in_range; lia]))).
  vm_compute. reflexivity.
Defined.
