(* ===== verification/Lattice.v ===== *)
(** * Join semilattices and convergence

    The interface between the merge rules and the replication layer: a merge
    that is closed, commutative, associative and idempotent on the records a
    cluster can hold ([JoinLaws]) makes the state of a replica depend only on
    the set of records it received, whatever their order and multiplicity. *)

From S2P Require Import Prelude.

Class JoinLaws {A : Type} (U : A -> Prop) (join : A -> A -> A) : Prop := {
  jl_closed a b : U a -> U b -> U (join a b);
  jl_comm a b : U a -> U b -> join a b = join b a;
  jl_assoc a b c : U a -> U b -> U c -> join a (join b c) = join (join a b) c;
  jl_idem a : U a -> join a a = a;
}.

(** The state after receiving [x], then the records of [l] one by one. *)
Definition receive {A} (join : A -> A -> A) (x : A) (l : list A) : A := fold_left join l x.

Section convergence.
Context {A : Type} (U : A -> Prop) (join : A -> A -> A) `{!JoinLaws U join}.

Lemma receive_closed x l : U x -> Forall U l -> U (receive join x l).
Proof.
  intros Hx Hl. revert x Hx. induction Hl as [|y l Hy _ IH]; intros x Hx; [assumption|].
  apply IH, jl_closed; assumption.
Qed.

Lemma receive_join x y l : U x -> U y -> Forall U l ->
  receive join (join x y) l = join x (receive join y l).
Proof.
  intros Hx Hy Hl. revert y Hy. induction Hl as [|z l Hz Hl IH]; intros y Hy; [reflexivity|].
  unfold receive in *. simpl. rewrite <- jl_assoc by assumption. apply IH, jl_closed; assumption.
Qed.

(** What was received is below the state. *)
Lemma receive_above x l z : U x -> Forall U l -> z ∈ x :: l ->
  join z (receive join x l) = receive join x l.
Proof.
  intros Hx Hl. revert x Hx. induction Hl as [|y l Hy Hl IH]; intros x Hx Hz.
  - apply list_elem_of_singleton in Hz as ->. apply jl_idem. assumption.
  - change (receive join x (y :: l)) with (receive join (join x y) l).
    apply elem_of_cons in Hz as [->|[->|Hz]%elem_of_cons].
    + rewrite <- receive_join by (try apply jl_closed; assumption).
      rewrite jl_assoc, jl_idem by assumption. reflexivity.
    + rewrite <- receive_join by (try apply jl_closed; assumption).
      rewrite (jl_comm x y), jl_assoc, jl_idem by assumption. reflexivity.
    + apply IH; [apply jl_closed; assumption|]. right. assumption.
Qed.

Lemma receive_below x l s : U x -> Forall U l -> U s ->
  (forall z, z ∈ x :: l -> join z s = s) -> join (receive join x l) s = s.
Proof.
  intros Hx Hl Hs. revert x Hx. induction Hl as [|y l Hy Hl IH]; intros x Hx Hz.
  - apply Hz. left.
  - apply (IH (join x y)); [apply jl_closed; assumption|]. intros z [->|Hin]%elem_of_cons.
    + rewrite <- jl_assoc, (Hz y), (Hz x) by (assumption || set_solver). reflexivity.
    + apply Hz. set_solver.
Qed.

(** Order and duplicates of the deliveries do not matter. *)
Lemma receive_ext x l y m : U x -> Forall U l -> U y -> Forall U m ->
  (forall z, z ∈ x :: l <-> z ∈ y :: m) -> receive join x l = receive join y m.
Proof.
  intros Hx Hl Hy Hm Heq.
  pose proof (receive_closed x l Hx Hl) as Ha. pose proof (receive_closed y m Hy Hm) as Hb.
  assert (join (receive join x l) (receive join y m) = receive join y m) as H1.
  { apply receive_below; try assumption. intros z Hz. apply receive_above; try assumption.
    apply Heq, Hz. }
  assert (join (receive join y m) (receive join x l) = receive join x l) as H2.
  { apply receive_below; try assumption. intros z Hz. apply receive_above; try assumption.
    apply Heq, Hz. }
  rewrite <- H2, jl_comm, H1 by assumption. reflexivity.
Qed.
End convergence.

(** ** Sorting with duplicates removed *)

Section usort.
Context {A : Type} (key : A -> version).
Definition key_gt (a b : A) : Prop := ver_ltb (key b) (key a) = true.

#[export] Instance key_gt_irrefl : Irreflexive key_gt.
Proof. intros x. unfold key_gt, complement. rewrite ver_ltb_irrefl. discriminate. Qed.
#[export] Instance key_gt_trans : Transitive key_gt.
Proof. intros x y z H1 H2. exact (ver_ltb_trans _ _ _ H2 H1). Qed.

Definition key_ge (a b : A) : Prop := ver_leb (key b) (key a) = true.
Lemma key_ge_cases a b : key_ge a b -> key_gt a b \/ key a = key b.
Proof. unfold key_ge, key_gt. generalize (key a), (key b). intros. ver_solve; auto. Qed.
Lemma key_ge_gt_trans a b c : key_ge a b -> key_gt b c -> key_gt a c.
Proof. unfold key_ge, key_gt. generalize (key a), (key b), (key c). intros. ver_solve. Qed.

Context (same : A -> A -> bool) (Hsame : forall a b, same a b = true <-> key a = key b).

Lemma dedup_after_spec prev l :
  StronglySorted key_ge (prev :: l) ->
  StronglySorted key_gt (prev :: dedup_after same prev l) /\
  (forall x, x ∈ dedup_after same prev l -> x ∈ l) /\
  (forall x, x ∈ l -> exists y, y ∈ prev :: dedup_after same prev l /\ key y = key x).
Proof.
  revert prev. induction l as [|x l IH]; intros prev Hs; simpl.
  { split_and!; [repeat constructor|set_solver|set_solver]. }
  invert Hs. invert H1. invert H2. destruct (same x prev) eqn:E.
  - apply Hsame in E. destruct (IH prev) as (I1 & I2 & I3); [constructor; assumption|].
    split_and!; [assumption|set_solver|]. intros y [->|Hy]%elem_of_cons; [|auto].
    exists prev. split; [left|congruence].
  - destruct (IH x) as (I1 & I2 & I3); [constructor; assumption|].
    assert (key_gt prev x) as Hpx.
    { destruct (key_ge_cases prev x) as [|Hk]; [assumption..|].
      assert (same x prev = true) by (apply Hsame; congruence). congruence. }
    split_and!.
    + constructor; [assumption|]. constructor; [assumption|]. invert I1.
      eapply Forall_impl; [eassumption|]. intros z Hz. exact (key_gt_trans _ _ _ Hpx Hz).
    + set_solver.
    + intros y [->|Hy]%elem_of_cons; [exists x; split; [set_solver|reflexivity]|].
      destruct (I3 y Hy) as (z & Hz & Hk). exists z. split; [set_solver|assumption].
Qed.

Lemma dedup_by_spec l : StronglySorted key_ge l ->
  StronglySorted key_gt (dedup_by same l) /\
  (forall x, x ∈ dedup_by same l -> x ∈ l) /\
  (forall x, x ∈ l -> exists y, y ∈ dedup_by same l /\ key y = key x).
Proof.
  destruct l as [|x l]; intros Hs; simpl; [split_and!; [constructor|set_solver..]|].
  destruct (dedup_after_spec x l Hs) as (I1 & I2 & I3). split_and!; [assumption|set_solver|].
  intros y [->|Hy]%elem_of_cons; [exists x; split; [left|reflexivity]|auto].
Qed.
End usort.

(** ** Sorting by descending version *)

Definition desc {A} (key : A -> version) (a b : A) : Prop := ver_leb (key b) (key a) = true.
#[export] Instance desc_dec {A} (key : A -> version) : RelDecision (desc key).
Proof. intros a b. unfold desc. apply _. Defined.
Definition sort_desc {A} (key : A -> version) (l : list A) : list A := merge_sort (desc key) l.

#[export] Instance desc_total {A} (key : A -> version) : Total (desc key).
Proof. intros a b. unfold desc. generalize (key a), (key b). intros. ver_solve; auto. Qed.
#[export] Instance desc_trans {A} (key : A -> version) : Transitive (desc key).
Proof. intros a b c. unfold desc. generalize (key a), (key b), (key c). intros. ver_solve. Qed.

Lemma sort_desc_sorted {A} (key : A -> version) l : StronglySorted (key_ge key) (sort_desc key l).
Proof. apply (StronglySorted_merge_sort (desc key)). Qed.
Lemma sort_desc_elem {A} (key : A -> version) l x : x ∈ sort_desc key l <-> x ∈ l.
Proof. unfold sort_desc. rewrite merge_sort_Permutation. reflexivity. Qed.

Lemma filter_sorted {A} (R : relation A) (P : A -> Prop) `{!forall x, Decision (P x)} l :
  StronglySorted R l -> StronglySorted R (filter P l).
Proof.
  induction 1 as [|x l Hs IH Hf]; [constructor|]. rewrite filter_cons.
  destruct (decide (P x)); [|assumption]. constructor; [assumption|].
  rewrite Forall_forall in Hf |- *. intros y [_ Hy]%list_elem_of_filter. auto.
Qed.

(** ** Winner-takes-all joins *)

(** Keep the greater of two records of a strict order that is total on [U]. *)
Definition pick {A} (ltb : A -> A -> bool) (a b : A) : A := if ltb a b then b else a.

Lemma pick_laws {A} (U : A -> Prop) (ltb : A -> A -> bool) :
  (forall a, ltb a a = false) ->
  (forall a b c, ltb a b = true -> ltb b c = true -> ltb a c = true) ->
  (forall a b, U a -> U b -> ltb a b = true \/ a = b \/ ltb b a = true) ->
  JoinLaws U (pick ltb).
Proof.
  intros Hirr Htr Htot.
  assert (Has : forall a b, ltb a b = true -> ltb b a = false).
  { intros a b H. destruct (ltb b a) eqn:E; [|reflexivity].
    pose proof (Htr a b a H E). rewrite Hirr in *. discriminate. }
  unfold pick. split.
  - intros a b Ha Hb. destruct (ltb a b); assumption.
  - intros a b Ha Hb. destruct (Htot a b Ha Hb) as [H|[->|H]]; [| |].
    + rewrite H, (Has _ _ H). reflexivity.
    + reflexivity.
    + rewrite H, (Has _ _ H). reflexivity.
  - intros a b c Ha Hb Hc.
    destruct (ltb a b) eqn:Hab, (ltb b c) eqn:Hbc; rewrite ?Hab, ?Hbc; try reflexivity.
    + rewrite (Htr _ _ _ Hab Hbc). reflexivity.
    + destruct (ltb a c) eqn:Hac; [|reflexivity].
      destruct (Htot a b Ha Hb) as [?|[->|Hba]]; [congruence..|].
      pose proof (Htr _ _ _ Hba Hac). congruence.
  - intros a _. rewrite Hirr. reflexivity.
Qed.

(** ** Replicas *)

(** What a replica stores under a key when a record arrives, for a byte-level
    [merge]. *)
Definition deliver_with (merge : bytes -> bytes -> rust bytes) (local : option bytes) (incoming : bytes) : rust bytes :=
  match local with
  | None => Ret incoming
  | Some local => merge local incoming
  end.

Fixpoint deliver_all_with (merge : bytes -> bytes -> rust bytes) (local : option bytes) (l : list bytes)
    : rust (option bytes) :=
  match l with
  | [] => Ret local
  | r :: l => let! s := deliver_with merge local r in deliver_all_with merge (Some s) l
  end.

(** The byte-level [merge] implements [join] on the encodings of [U]. *)
Class MergeWith (merge : bytes -> bytes -> rust bytes) {A} (U : A -> Prop) (join : A -> A -> A)
    (enc : A -> bytes) : Prop := {
  mi_merge a b : U a -> U b -> merge (enc a) (enc b) = Ret (enc (join a b));
  mi_closed a b : U a -> U b -> U (join a b);
}.

Section replicas.
Context (merge : bytes -> bytes -> rust bytes) {A : Type} (U : A -> Prop) (join : A -> A -> A)
  (enc : A -> bytes) `{!MergeWith merge U join enc}.

Lemma deliver_all_receive x l : U x -> Forall U l ->
  deliver_all_with merge None (enc <$> x :: l) = Ret (Some (enc (receive join x l))).
Proof.
  intros Hx Hl. cbn [fmap list_fmap deliver_all_with deliver_with rust_bind].
  change (list_fmap A bytes enc l) with (enc <$> l).
  revert x Hx. induction Hl as [|y l Hy _ IH]; intros x Hx; [reflexivity|].
  cbn [fmap list_fmap deliver_all_with deliver_with]. rewrite mi_merge by assumption. cbn [rust_bind].
  apply IH, mi_closed; assumption.
Qed.

Lemma receive_impl_closed x l : U x -> Forall U l -> U (receive join x l).
Proof.
  intros Hx Hl. revert x Hx. induction Hl as [|y l Hy _ IH]; intros x Hx; [assumption|].
  apply IH, mi_closed; assumption.
Qed.

Context `{!JoinLaws U join}.

Lemma replicas_converge l m : l <> [] -> Forall U l -> Forall U m ->
  (forall z, z ∈ l <-> z ∈ m) -> deliver_all_with merge None (enc <$> l) = deliver_all_with merge None (enc <$> m).
Proof.
  intros Hne Hl Hm Heq. destruct l as [|x l]; [contradiction|].
  destruct m as [|y m]; [exfalso; apply (not_elem_of_nil x), Heq; left|].
  invert Hl. invert Hm. rewrite !deliver_all_receive by assumption.
  do 3 f_equal. apply (receive_ext U); assumption.
Qed.
End replicas.
