(* ===== verification/Placement.v ===== *)
(** * Rendezvous placement ([crates/marekvs-cluster/src/placement.rs])

    The owners of a partition are the top candidates by a hash score; with
    zone spreading the same order is walked once per zone first.  The hash
    (xxh3, a library) is the parameter [xxh3]; nothing is assumed of it: ties
    are broken by the node id. *)

From S2P Require Import Prelude Lattice.

Definition le2 (z : Z) : bytes := rev (be_bytes 2 z).

Record Candidate := mkCandidate { c_node : Z; c_active : bool; c_zone : option bytes }.

Definition Candidate_new (node : Z) (active : bool) : Candidate := mkCandidate node active None.

(** Score, node, zone. *)
Record Scored := mkScored { sc_score : Z; sc_node : Z; sc_zone : option bytes }.
Definition sc_key (s : Scored) : version := (sc_score s, sc_node s).

(** The greedy pass: one node per zone. *)
Fixpoint spread_zones (n : nat) (l : list Scored) (out : list Z) (used : list bytes) : list Z :=
  match l with
  | [] => out
  | s :: l =>
      if (length out =? n)%nat then out else
      match sc_zone s with
      | Some z => if bool_decide (z ∈ used) then spread_zones n l out used
                  else spread_zones n l (out ++ [sc_node s]) (used ++ [z])
      | None => spread_zones n l out used
      end
  end.

(** The fallback pass: whatever is left, in score order. *)
Fixpoint fill_slots (n : nat) (l : list Scored) (out : list Z) : list Z :=
  match l with
  | [] => out
  | s :: l =>
      if (length out =? n)%nat then out else
      if bool_decide (sc_node s ∈ out) then fill_slots n l out else fill_slots n l (out ++ [sc_node s])
  end.

Section placement.
Context (xxh3 : bytes -> Z).

Definition score (node pid : Z) : Z := xxh3 (le2 node ++ le2 pid).

Definition ranked (candidates : list Candidate) (pid : Z) : list Scored :=
  sort_desc sc_key ((fun c => mkScored (score (c_node c) pid) (c_node c) (c_zone c)) <$> candidates).

Definition owners_for_zoned (candidates : list Candidate) (pid : Z) (n : nat) (zone_spread : bool) : list Z :=
  let scored := ranked candidates pid in
  if zone_spread then fill_slots n scored (spread_zones n scored [] [])
  else sc_node <$> take n scored.

Definition owners_for (candidates : list Candidate) (pid : Z) (n : nat) : list Z :=
  owners_for_zoned candidates pid n false.

(** ** The ranking *)

Lemma ranked_elem cs pid s : s ∈ ranked cs pid <-> exists c, c ∈ cs /\ s = mkScored (score (c_node c) pid) (c_node c) (c_zone c).
Proof. unfold ranked. rewrite sort_desc_elem, list_elem_of_fmap. naive_solver. Qed.

Lemma ranked_nodes cs pid : sc_node <$> ranked cs pid ≡ₚ c_node <$> cs.
Proof.
  unfold ranked, sort_desc. rewrite merge_sort_Permutation, <- list_fmap_compose. reflexivity.
Qed.

Lemma ranked_nodup cs pid : NoDup (c_node <$> cs) -> NoDup (sc_node <$> ranked cs pid).
Proof. intros Hn. rewrite ranked_nodes. exact Hn. Qed.

Lemma sorted_strict l : StronglySorted (key_ge sc_key) l -> NoDup (sc_node <$> l) -> StronglySorted (key_gt sc_key) l.
Proof.
  induction 1 as [|s l Hs IH Hall]; intros Hn; [constructor|]. cbn in Hn. apply NoDup_cons in Hn as [Hni Hn].
  constructor; [auto|]. rewrite Forall_forall in Hall |- *. intros x Hx.
  destruct (key_ge_cases sc_key s x (Hall x Hx)) as [|Hk]; [assumption|]. exfalso. apply Hni.
  apply list_elem_of_fmap. exists x. split; [|exact Hx]. unfold sc_key in Hk. congruence.
Qed.

Lemma ranked_sorted cs pid : NoDup (c_node <$> cs) -> StronglySorted (key_gt sc_key) (ranked cs pid).
Proof. intros Hn. apply sorted_strict; [apply sort_desc_sorted|apply ranked_nodup, Hn]. Qed.

(** The ranking does not depend on the enumeration order. *)
Lemma ranked_perm cs cs' pid : NoDup (c_node <$> cs) -> cs ≡ₚ cs' -> ranked cs pid = ranked cs' pid.
Proof.
  intros Hn Hp. apply (sorted_ext (key_gt sc_key)).
  - apply ranked_sorted, Hn.
  - apply ranked_sorted. rewrite <- Hp. exact Hn.
  - intros s. rewrite !ranked_elem. setoid_rewrite Hp. reflexivity.
Qed.

(** Removing a candidate removes it from the ranking and moves nobody else. *)
Lemma ranked_without c cs pid : NoDup (c_node <$> c :: cs) ->
  ranked cs pid = filter (fun s => sc_node s <> c_node c) (ranked (c :: cs) pid).
Proof.
  intros Hn. pose proof Hn as Hn'. cbn in Hn'. apply NoDup_cons in Hn' as [Hni Hn'].
  apply (sorted_ext (key_gt sc_key)).
  - apply ranked_sorted, Hn'.
  - apply filter_sorted, ranked_sorted, Hn.
  - intros s. rewrite list_elem_of_filter, !ranked_elem. split.
    + intros (c' & Hc & ->). cbn. split; [|exists c'; split; [right; exact Hc|reflexivity]].
      intros E. apply Hni. rewrite <- E. apply list_elem_of_fmap. eauto.
    + intros (Hne & c' & Hc & ->). apply elem_of_cons in Hc as [->|Hc]; [contradiction|]. eauto.
Qed.

End placement.

(** ** The two passes *)

Lemma spread_zones_spec n l : forall out used, (length out <= n)%nat ->
  exists picked zs, spread_zones n l out used = out ++ (sc_node <$> picked) /\ sublist picked l /\
    sc_zone <$> picked = Some <$> zs /\ NoDup zs /\ (forall z, z ∈ zs -> z ∉ used) /\
    (length (out ++ (sc_node <$> picked)) <= n)%nat /\
    (length (out ++ (sc_node <$> picked)) = n \/ forall s z, s ∈ l -> sc_zone s = Some z -> z ∈ used ++ zs).
Proof.
  induction l as [|s l IH]; intros out used Hlen; cbn [spread_zones].
  { exists [], []. cbn. rewrite app_nil_r. split_and!; [reflexivity|constructor|reflexivity|constructor|set_solver|exact Hlen|right; set_solver]. }
  destruct (Nat.eqb_spec (length out) n) as [E|Hne].
  { exists [], []. cbn. rewrite app_nil_r. split_and!; [reflexivity|apply sublist_nil_l|reflexivity|constructor|set_solver|exact Hlen|left; exact E]. }
  assert (Hskip : (forall z, sc_zone s = Some z -> z ∈ used) -> exists picked zs,
    spread_zones n l out used = out ++ (sc_node <$> picked) /\ sublist picked (s :: l) /\
    sc_zone <$> picked = Some <$> zs /\ NoDup zs /\ (forall z, z ∈ zs -> z ∉ used) /\
    (length (out ++ (sc_node <$> picked)) <= n)%nat /\
    (length (out ++ (sc_node <$> picked)) = n \/ forall s' z, s' ∈ s :: l -> sc_zone s' = Some z -> z ∈ used ++ zs)).
  { intros Hs. destruct (IH out used Hlen) as (pk & zs & I1 & I2 & I3 & I4 & I5 & I6 & I7). exists pk, zs.
    split_and!; try assumption; [apply sublist_cons, I2|]. destruct I7 as [I7|I7]; [left; exact I7|right].
    intros s' z [->|Hin]%elem_of_cons Hz; [apply elem_of_app; left; auto|eapply I7; eassumption]. }
  destruct (sc_zone s) as [z|] eqn:Ez; [|apply Hskip; discriminate].
  case_bool_decide as Hz; [apply Hskip; intros ? [= <-]; exact Hz|]. clear Hskip.
  destruct (IH (out ++ [sc_node s]) (used ++ [z])) as (pk & zs & I1 & I2 & I3 & I4 & I5 & I6 & I7); [rewrite length_app; cbn; lia|].
  rewrite <- app_assoc in I1, I6, I7. exists (s :: pk), (z :: zs). cbn [fmap list_fmap]. rewrite Ez, I3.
  split_and!; try assumption; [apply sublist_skip, I2|reflexivity| | |].
  - constructor; [|exact I4]. intros Hin. apply (I5 z Hin). set_solver.
  - intros y [->|Hy]%elem_of_cons; [exact Hz|]. specialize (I5 y Hy). set_solver.
  - destruct I7 as [I7|I7]; [left; exact I7|right]. intros s' y [->|Hin]%elem_of_cons Hy; [set_solver|].
    specialize (I7 s' y Hin Hy). set_solver.
Qed.

Lemma fill_slots_full n l out : length out = n -> fill_slots n l out = out.
Proof. intros E. destruct l; cbn; [reflexivity|]. rewrite E, Nat.eqb_refl. reflexivity. Qed.

Lemma fill_slots_spec n l : forall out, (length out <= n)%nat -> NoDup out ->
  NoDup (fill_slots n l out) /\ (length (fill_slots n l out) <= n)%nat /\
  (forall o, o ∈ fill_slots n l out -> o ∈ out \/ o ∈ sc_node <$> l) /\
  (length (fill_slots n l out) = n \/ forall o, o ∈ out \/ o ∈ sc_node <$> l -> o ∈ fill_slots n l out).
Proof.
  induction l as [|s l IH]; intros out Hlen Hn; cbn [fill_slots].
  { split_and!; auto. right. intros o [|]; [assumption|set_solver]. }
  destruct (Nat.eqb_spec (length out) n) as [E|Hne]; [split_and!; auto|].
  case_bool_decide as Hin.
  - destruct (IH out Hlen Hn) as (I1 & I2 & I3 & I4). split_and!; try assumption; [set_solver|].
    destruct I4 as [I4|I4]; [left; exact I4|right]. intros o [Ho|Ho]; [apply I4; auto|]. cbn in Ho.
    apply elem_of_cons in Ho as [->|Ho]; apply I4; auto.
  - destruct (IH (out ++ [sc_node s])) as (I1 & I2 & I3 & I4).
    { rewrite length_app. cbn. lia. }
    { apply NoDup_app. split_and!; [exact Hn| |apply NoDup_singleton]. intros x Hx ->%list_elem_of_singleton. auto. }
    split_and!; try assumption; [set_solver|]. destruct I4 as [I4|I4]; [left; exact I4|right].
    intros o Ho. apply I4. set_solver.
Qed.

Lemma fmap_sublist {A B} (f : A -> B) l m : sublist l m -> sublist (f <$> l) (f <$> m).
Proof. induction 1; cbn; constructor; assumption. Qed.

(** The owners, in both modes: distinct candidates, as many as possible. *)
Lemma owners_spec xxh3 cs pid n zone_spread : NoDup (c_node <$> cs) ->
  let os := owners_for_zoned xxh3 cs pid n zone_spread in
  NoDup os /\ (forall o, o ∈ os -> o ∈ c_node <$> cs) /\ length os = Nat.min n (length cs).
Proof.
  intros Hn os. pose proof (ranked_nodup xxh3 cs pid Hn) as Hr. pose proof (ranked_nodes xxh3 cs pid) as Hp.
  assert (Hlen : length (ranked xxh3 cs pid) = length cs).
  { rewrite <- (length_fmap sc_node), Hp, length_fmap. reflexivity. }
  unfold os, owners_for_zoned. destruct zone_spread.
  - set (l := ranked xxh3 cs pid) in *. destruct (spread_zones_spec n l [] []) as (pk & zs & -> & Hsub & _ & _ & _ & Hle & _); [cbn; lia|].
    cbn [app] in Hle |- *. assert (Hpk : NoDup (sc_node <$> pk)) by (eapply sublist_NoDup; [exact Hr|apply fmap_sublist, Hsub]).
    destruct (fill_slots_spec n l (sc_node <$> pk) Hle Hpk) as (F1 & F2 & F3 & F4).
    assert (Hin : forall o, o ∈ fill_slots n l (sc_node <$> pk) -> o ∈ sc_node <$> l).
    { intros o Ho. apply F3 in Ho as [Ho|Ho]; [|exact Ho]. apply list_elem_of_fmap in Ho as (x & -> & Hx).
      apply list_elem_of_fmap. exists x. split; [reflexivity|]. eapply elem_of_sublist; eassumption. }
    split_and!; [exact F1|intros o Ho; rewrite <- Hp; apply Hin, Ho|].
    assert (H1 : (length (fill_slots n l (sc_node <$> pk)) <= length cs)%nat).
    { rewrite <- Hlen, <- (length_fmap sc_node l). apply NoDup_incl_length; [apply NoDup_ListNoDup, F1|].
      intros o Ho. apply list_elem_of_In, Hin, list_elem_of_In, Ho. }
    destruct F4 as [F4|F4]; [lia|].
    assert (H2 : (length cs <= length (fill_slots n l (sc_node <$> pk)))%nat); [|lia].
    rewrite <- Hlen, <- (length_fmap sc_node l). apply NoDup_incl_length; [apply NoDup_ListNoDup, Hr|].
    intros o Ho. apply list_elem_of_In, F4. right. apply list_elem_of_In, Ho.
  - rewrite fmap_take. split_and!.
    + eapply sublist_NoDup; [exact Hr|]. apply sublist_take.
    + intros o Ho. rewrite <- Hp. apply elem_of_take in Ho as (i & Ho & _). eapply list_elem_of_lookup_2, Ho.
    + rewrite length_take, length_fmap, Hlen. reflexivity.
Qed.


(** [C32] Placement is agreed on and complete, with or without zone spreading:
    nodes that enumerate the same members in different orders compute the same
    owner list, the owners are distinct members, and there are as many as the
    replication factor asks for or the membership allows. *)
Theorem placement_agreed xxh3 cs cs' pid n zone_spread :
  NoDup (c_node <$> cs) -> cs ≡ₚ cs' ->
  let os := owners_for_zoned xxh3 cs pid n zone_spread in
  owners_for_zoned xxh3 cs' pid n zone_spread = os /\
  NoDup os /\ (forall o, o ∈ os -> o ∈ c_node <$> cs) /\ length os = Nat.min n (length cs).
Proof.
  intros Hn Hp os. split; [|apply owners_spec, Hn]. unfold os, owners_for_zoned.
  rewrite (ranked_perm xxh3 cs cs' pid Hn Hp). reflexivity.
Qed.

(** A concrete stand-in for the hash. *)
Definition ex_hash (l : bytes) : Z := of_be l mod 97.
Definition ex_cands : list Candidate :=
  [mkCandidate 1 true (Some [97]); mkCandidate 2 true (Some [97]); mkCandidate 3 true (Some [98]); mkCandidate 4 true None].

Lemma placement_agreed_witness :
  owners_for_zoned ex_hash (rev ex_cands) 7 3 true = owners_for_zoned ex_hash ex_cands 7 3 true /\
  length (owners_for_zoned ex_hash ex_cands 7 3 true) = 3%nat.
Proof.
  destruct (placement_agreed ex_hash ex_cands (rev ex_cands) 7 3 true) as (H1 & _ & _ & H2).
  - apply (bool_decide_unpack _). vm_compute. reflexivity.
  - apply Permutation_rev.
  - split; [exact H1|exact H2].
Defined.



(** Zone spreading survives the loss of a zone: if the labelled members
    cover at least [n] zones, the [n] owners of every partition lie in [n]
    different zones. *)
Theorem placement_spans_zones xxh3 cs pid n zones :
  NoDup (c_node <$> cs) -> NoDup zones -> length zones = n ->
  (forall z, z ∈ zones -> exists c, c ∈ cs /\ c_zone c = Some z) ->
  exists zs, NoDup zs /\ length zs = n /\
    Forall2 (fun o z => exists c, c ∈ cs /\ c_node c = o /\ c_zone c = Some z) (owners_for_zoned xxh3 cs pid n true) zs.
Proof.
  intros Hn Hz Hlen Hcov. unfold owners_for_zoned. set (l := ranked xxh3 cs pid).
  destruct (spread_zones_spec n l [] []) as (pk & zs & -> & Hsub & Hzs & Hnd & _ & Hle & Hfull); [cbn; lia|].
  cbn [app] in *. assert (Hpz : length zs = length pk) by (apply (f_equal length) in Hzs; rewrite !length_fmap in Hzs; congruence).
  assert (Hn' : length (sc_node <$> pk) = n).
  { destruct Hfull as [Hf|Hf]; [exact Hf|]. rewrite length_fmap in Hle |- *.
    assert ((length zones <= length zs)%nat); [|lia]. apply NoDup_incl_length; [apply NoDup_ListNoDup, Hz|].
    intros z Hin. apply list_elem_of_In in Hin. apply list_elem_of_In. destruct (Hcov z Hin) as (c & Hc & Hcz).
    apply (Hf (mkScored (score xxh3 (c_node c) pid) (c_node c) (c_zone c)) z); [|exact Hcz].
    apply ranked_elem. eauto. }
  rewrite fill_slots_full by exact Hn'. exists zs. split; [exact Hnd|]. split; [rewrite Hpz, <- Hn', length_fmap; reflexivity|].
  assert (Hall : Forall (fun s => s ∈ l) pk) by (apply Forall_forall; intros s Hs; eapply elem_of_sublist; eassumption).
  clear - Hall Hzs. revert zs Hzs. induction Hall as [|s pk Hs Hall IH]; intros [|z zs] Hzs; try discriminate; [constructor|].
  cbn in Hzs. injection Hzs as E Hzs. cbn. constructor; [|apply IH, Hzs].
  apply ranked_elem in Hs as (c & Hc & ->). exists c. auto.
Qed.

Lemma placement_spans_zones_witness : exists zs, NoDup zs /\ length zs = 2%nat /\
  Forall2 (fun o z => exists c, c ∈ ex_cands /\ c_node c = o /\ c_zone c = Some z) (owners_for_zoned ex_hash ex_cands 7 2 true) zs.
Proof.
  apply (placement_spans_zones ex_hash ex_cands 7 2 [[97]; [98]]).
  - apply (bool_decide_unpack _). vm_compute. reflexivity.
  - apply (bool_decide_unpack _). vm_compute. reflexivity.
  - reflexivity.
  - intros z Hz. apply elem_of_cons in Hz as [->|Hz]; [|apply list_elem_of_singleton in Hz as ->];
      [exists (mkCandidate 1 true (Some [97]))|exists (mkCandidate 3 true (Some [98]))]; split; try reflexivity; unfold ex_cands; set_solver.
Defined.
