(* ===== verification/Merge.v ===== *)
(** * Convergent merge of stored records ([crates/marekvs-core/src/merge.rs])

    Element states (live add-dots with values, covered dots), their codec, the
    record builders, and [merge_values], the function every replica applies to
    incoming records.  This file holds the definitions and the codec; the
    merge laws are in [MergeLaws].

    [sort_unstable] is modelled by a merge sort: the two differ only in the
    order of elements with equal keys, which are equal elements (covered dots)
    or carry the same value (live dots, since a dot names one write).
    [ElementState::decode] can panic on a crafted value length, exactly like
    [ikey::parse], so decoding and everything above it returns [rust]. *)

From S2P Require Import Prelude Envelope Varint Counter Lattice.

Definition MAX_LIVE_DOTS : nat := 4.
Definition MAX_TOMB_DOTS : nat := 255.

Record Dot := mkDot { dot_hlc : Z; dot_origin : Z }.

#[export] Instance Dot_eq_dec : EqDecision Dot.
Proof. solve_decision. Defined.

(** The derived order: by [hlc], then by [origin]. *)
Definition dot_ver (d : Dot) : version := (dot_hlc d, dot_origin d).

Inductive MergeOutcome :=
  | KeepLocal
  | TakeIncoming
  | Merged (v : bytes).

#[export] Instance MergeOutcome_eq_dec : EqDecision MergeOutcome.
Proof. solve_decision. Defined.

Record ElementState := mkElement {
  live : list (Dot * bytes);
  covered : list Dot;
}.

#[export] Instance ElementState_eq_dec : EqDecision ElementState.
Proof. solve_decision. Defined.

Definition is_dead (st : ElementState) : bool :=
  match live st with [] => true | _ => false end.
Definition st_value (st : ElementState) : option bytes := snd <$> head (live st).
Definition dots (st : ElementState) : list Dot := fst <$> live st.

Definition same_dot (a b : Dot * bytes) : bool := bool_decide (a.1 = b.1).
Definition dot_eqb (a b : Dot) : bool := bool_decide (a = b).

Definition normalize (st : ElementState) : ElementState :=
  let covered := take MAX_TOMB_DOTS (dedup_by dot_eqb (sort_desc dot_ver (covered st))) in
  let live := dedup_by same_dot (sort_desc (fun e => dot_ver e.1) (live st)) in
  let live := filter (fun e => e.1 ∉ covered) live in
  mkElement (take MAX_LIVE_DOTS live) covered.

(** ** Codec *)
Definition encode_dot (d : Dot) : bytes := be_bytes 2 (dot_origin d) ++ be_bytes 8 (dot_hlc d).
Definition encode_live (e : Dot * bytes) : bytes :=
  encode_dot e.1 ++ put_varint (Z.of_nat (length e.2)) ++ e.2.

Definition ElementState_encode (st : ElementState) : bytes :=
  [wrap 8 (Z.of_nat (length (live st)))] ++ concat (encode_live <$> live st) ++
  [wrap 8 (Z.of_nat (length (covered st)))] ++ concat (encode_dot <$> covered st).

Definition decode_dot (b : bytes) : Dot := mkDot (of_be (slice 2 10 b)) (of_be (slice 0 2 b)).

(** The [nlive] loop: [rest] is [payload[pos..]]. *)
Fixpoint decode_live (n : nat) (pos : Z) (rest : bytes) : rust (option (list (Dot * bytes) * bytes)) :=
  match n with
  | O => Ret (Some ([], rest))
  | S n =>
      if (length rest <? 10)%nat then Ret None else
      let d := decode_dot rest in
      let rest := drop 10 rest in
      match get_varint rest with
      | None => Ret None
      | Some (vlen, adv) =>
          let pos := pos + 10 + Z.of_nat adv in
          let rest := drop adv rest in
          if 2 ^ 64 <=? pos + vlen then Panic else
          if Z.of_nat (length rest) <? vlen then Ret None else
          let vlen := Z.to_nat vlen in
          let! r := decode_live n (pos + Z.of_nat vlen) (drop vlen rest) in
          Ret (match r with
               | None => None
               | Some (l, rest') => Some ((d, take vlen rest) :: l, rest')
               end)
      end
  end.

Fixpoint decode_covered (n : nat) (rest : bytes) : list Dot :=
  match n with
  | O => []
  | S n => decode_dot rest :: decode_covered n (drop 10 rest)
  end.

Definition ElementState_decode (payload : bytes) : rust (option ElementState) :=
  match payload with
  | [] => Ret None
  | nlive :: rest =>
      let! r := decode_live (Z.to_nat nlive) 1 rest in
      match r with
      | None => Ret None
      | Some (live, []) => Ret None
      | Some (live, ncov :: rest) =>
          let ncov := Z.to_nat ncov in
          if (length rest <? ncov * 10)%nat then Ret None else
          Ret (Some (mkElement live (decode_covered ncov rest)))
      end
  end.

(** ** Record builders *)
Definition encode_element (rtype : RecordType) (version : version) (ttl : Z) (state : ElementState) : bytes :=
  let state := normalize state in
  let flags := wrap 8 (Z.shiftl (rtype_u8 rtype) 2) in
  let flags := if is_dead state then Z.lor flags TOMBSTONE else flags in
  encode_with (mkEnvelope flags version.1 version.2 ttl) (ElementState_encode state).

Definition element_add_with_dot (rtype : RecordType) (hlc origin : Z) (dot : Dot) (value : bytes) : bytes :=
  encode_element rtype (hlc, origin) 0 (mkElement [(dot, value)] []).

Definition element_add (rtype : RecordType) (hlc origin : Z) (value : bytes) : bytes :=
  element_add_with_dot rtype hlc origin (mkDot hlc origin) value.

Definition element_add_ttl (rtype : RecordType) (hlc origin : Z) (value : bytes) (ttl : Z) : bytes :=
  encode_element rtype (hlc, origin) ttl (mkElement [(mkDot hlc origin, value)] []).

Definition element_set (rtype : RecordType) (hlc origin : Z) (value : bytes) (observed : list Dot) : bytes :=
  encode_element rtype (hlc, origin) 0 (mkElement [(mkDot hlc origin, value)] observed).

Definition element_remove (rtype : RecordType) (hlc origin : Z) (observed : list Dot) : bytes :=
  encode_element rtype (hlc, origin) 0 (mkElement [] observed).

Definition element_value (payload : bytes) : rust (option bytes) :=
  let! st := ElementState_decode payload in Ret (st ≫= st_value).

Definition as_counter (value : bytes) : option CounterState :=
  match CounterState_decode value with
  | Some c =>
      if negb (bool_decide (cslots c = [])) && bytes_eqb (CounterState_encode c) value
      then Some c else None
  | None => None
  end.

(** The fold over the live dots of [counter_field_state]. *)
Definition fold_counters (l : list (Dot * bytes)) : option CounterState :=
  fold_left (fun folded e =>
    match as_counter e.2 with
    | None => folded
    | Some c =>
        Some (match folded with None => c | Some acc => CounterState_merge acc c end)
    end) l None.

Definition counter_field_state (payload : bytes) : rust (option CounterState) :=
  let! st := ElementState_decode payload in
  Ret (st ≫= fun st => fold_counters (live st)).

Definition counter_field_value (payload : bytes) : rust (option Z) :=
  let! c := counter_field_state payload in Ret (c ≫= value).

(** Keep the first live entry of each origin. *)
Fixpoint collapse_live (seen : list Z) (l : list (Dot * bytes)) : list (Dot * bytes) :=
  match l with
  | [] => []
  | e :: l' =>
      if bool_decide (dot_origin e.1 ∈ seen) then collapse_live seen l'
      else e :: collapse_live (dot_origin e.1 :: seen) l'
  end.

Definition collapse_per_origin (st : ElementState) : ElementState :=
  mkElement (collapse_live [] (live st)) (covered st).

Definition counter_field_set (hlc origin : Z) (prior : option bytes) (mine : bytes) : rust bytes :=
  let! st := match prior with
             | None => Ret None
             | Some p => ElementState_decode p
             end in
  let st := default (mkElement [] []) st in
  let st := mkElement (live st ++ [(mkDot hlc origin, mine)]) (covered st) in
  Ret (encode_element CounterField (hlc, origin) 0 (collapse_per_origin (normalize st))).

Definition element_display_value (rtype : RecordType) (payload : bytes) : rust (option bytes) :=
  let! n := (if bool_decide (rtype = CounterField) then counter_field_value payload else Ret None) in
  match n with
  | Some n => Ret (Some (Z_to_string n))
  | None => element_value payload
  end.

Definition element_dots (payload : bytes) : rust (list Dot) :=
  let! st := ElementState_decode payload in Ret (default [] (dots <$> st)).

(** ** Merge *)
Definition merge_lww (local incoming : Envelope) : MergeOutcome :=
  if ver_ltb (env_version local) (env_version incoming) then TakeIncoming else KeepLocal.

(** [merged == local] / [merged == incoming] / neither. *)
Definition outcome_of (merged local incoming : bytes) : MergeOutcome :=
  if bytes_eqb merged local then KeepLocal
  else if bytes_eqb merged incoming then TakeIncoming
  else Merged merged.

(** The TTL follows the version winner; ties keep the local one. *)
Definition winner_ttl (lenv ienv : Envelope) : Z :=
  if ver_ltb (env_version lenv) (env_version ienv) then ttl_deadline_ms ienv else ttl_deadline_ms lenv.

Definition merge_counters (lenv : Envelope) (lpay : bytes) (ienv : Envelope) (ipay : bytes)
    (local incoming : bytes) : MergeOutcome :=
  match CounterState_decode lpay, CounterState_decode ipay with
  | Some l, Some i =>
      let joined := CounterState_merge l i in
      let version := ver_max (env_version lenv) (env_version ienv) in
      let env := mkEnvelope (wrap 8 (Z.shiftl (rtype_u8 Counter) 2)) version.1 version.2
                   (winner_ttl lenv ienv) in
      outcome_of (encode_with env (CounterState_encode joined)) local incoming
  | _, _ => merge_lww lenv ienv
  end.

Definition merge_hll_registers (lenv : Envelope) (lpay : bytes) (ienv : Envelope) (ipay : bytes)
    : MergeOutcome :=
  match lpay, ipay with
  | l_rank :: _, i_rank :: _ =>
      match l_rank ?= i_rank with
      | Gt => KeepLocal
      | Lt => TakeIncoming
      | Eq => if ver_leb (env_version lenv) (env_version ienv) then KeepLocal else TakeIncoming
      end
  | _, _ => merge_lww lenv ienv
  end.

(** The join of two decoded element states. *)
Definition join_elements (rt : RecordType) (l i : ElementState) : ElementState :=
  let joined := normalize (mkElement (live l ++ live i) (covered l ++ covered i)) in
  if bool_decide (rt = CounterField) then collapse_per_origin joined else joined.

Definition merge_values (local incoming : bytes) : rust MergeOutcome :=
  match Envelope_decode local, Envelope_decode incoming with
  | None, _ => Ret TakeIncoming
  | Some _, None => Ret KeepLocal
  | Some (lenv, lpay), Some (ienv, ipay) =>
      let rt := rtype ienv in
      if bool_decide (rtype lenv = Counter) && bool_decide (rt = Counter) &&
         negb (is_tombstone lenv) && negb (is_tombstone ienv)
      then Ret (merge_counters lenv lpay ienv ipay local incoming)
      else if bool_decide (rtype lenv = HllRegister) && bool_decide (rt = HllRegister) &&
         negb (is_tombstone lenv) && negb (is_tombstone ienv)
      then Ret (merge_hll_registers lenv lpay ienv ipay)
      else if is_head ienv || is_head lenv || negb (is_or_element rt)
      then Ret (merge_lww lenv ienv)
      else
        let! l := ElementState_decode lpay in
        let! i := ElementState_decode ipay in
        match l, i with
        | Some l, Some i =>
            let rt := RecordType_from_bits (Z.max (rtype_u8 (rtype lenv)) (rtype_u8 rt)) in
            let version := ver_max (env_version lenv) (env_version ienv) in
            let merged := encode_element rt version (winner_ttl lenv ienv) (join_elements rt l i) in
            Ret (outcome_of merged local incoming)
        | _, _ => Ret (merge_lww lenv ienv)
        end
  end.

Definition resolve (local incoming : bytes) (outcome : MergeOutcome) : bytes :=
  match outcome with
  | KeepLocal => local
  | TakeIncoming => incoming
  | Merged m => m
  end.

(** What a replica stores after merging [incoming] into [local]. *)
Definition merged_bytes (local incoming : bytes) : rust bytes :=
  let! o := merge_values local incoming in Ret (resolve local incoming o).

Lemma resolve_outcome_of merged local incoming :
  resolve local incoming (outcome_of merged local incoming) = merged.
Proof.
  unfold outcome_of, bytes_eqb. case_bool_decide as H1; [symmetry; exact H1|].
  case_bool_decide as H2; [symmetry; exact H2|reflexivity].
Qed.

(** ** Codec round trip *)

Record dot_ok (d : Dot) : Prop := { dot_hlc_u64 : u64 (dot_hlc d); dot_origin_u16 : u16 (dot_origin d) }.

(** A state the codec can carry: counts fit a byte, dots are in range and the
    whole payload is a possible slice. *)
Record element_codec_ok (st : ElementState) : Prop := {
  ec_nlive : (length (live st) <= 255)%nat;
  ec_ncov : (length (covered st) <= 255)%nat;
  ec_live : Forall (fun e => dot_ok e.1) (live st);
  ec_cov : Forall dot_ok (covered st);
  ec_size : Z.of_nat (length (ElementState_encode st)) < 2 ^ 63;
}.

Lemma decode_encode_dot d rest : dot_ok d -> decode_dot (encode_dot d ++ rest) = d.
Proof.
  intros [Hh Ho]. unfold decode_dot.
  change (slice 2 10 (encode_dot d ++ rest)) with (be_bytes 8 (dot_hlc d)).
  change (slice 0 2 (encode_dot d ++ rest)) with (be_bytes 2 (dot_origin d)).
  rewrite of_be_u64, of_be_u16 by assumption. destruct d; reflexivity.
Qed.

Lemma decode_encode_live l pos rest : Forall (fun e => dot_ok e.1) l ->
  0 <= pos -> pos + Z.of_nat (length (concat (encode_live <$> l))) < 2 ^ 63 ->
  decode_live (length l) pos (concat (encode_live <$> l) ++ rest) = Ret (Some (l, rest)).
Proof.
  intros Hl. revert pos. induction Hl as [|[d v] l Hd _ IH]; intros pos Hp Hsz; [reflexivity|].
  cbn [fmap list_fmap concat] in *. cbn [length decode_live].
  set (body := concat (encode_live <$> l)) in *.
  set (vi := put_varint (Z.of_nat (length v))).
  assert (encode_live (d, v) = encode_dot d ++ vi ++ v) as He by reflexivity.
  rewrite He in *. clear He. rewrite <- !app_assoc.
  rewrite !length_app in Hsz. change (length (encode_dot d)) with 10%nat in Hsz.
  destruct (Nat.ltb_spec (length (encode_dot d ++ vi ++ v ++ body ++ rest)) 10) as [Hlt|_].
  { rewrite length_app in Hlt. change (length (encode_dot d)) with 10%nat in Hlt. lia. }
  rewrite decode_encode_dot by assumption.
  change (drop 10 (encode_dot d ++ vi ++ v ++ body ++ rest)) with (vi ++ v ++ body ++ rest).
  unfold vi at 1. rewrite get_put_varint by (unfold u64, in_range; lia). fold vi.
  rewrite drop_app_length.
  destruct (Z.leb_spec (2 ^ 64) (pos + 10 + Z.of_nat (length vi) + Z.of_nat (length v))); [lia|].
  destruct (Z.ltb_spec (Z.of_nat (length (v ++ body ++ rest))) (Z.of_nat (length v))) as [Hlt|_].
  { rewrite length_app in Hlt. lia. }
  rewrite Nat2Z.id, drop_app_length, take_app_length.
  rewrite IH by lia. reflexivity.
Qed.

Lemma decode_encode_covered l rest : Forall dot_ok l ->
  decode_covered (length l) (concat (encode_dot <$> l) ++ rest) = l.
Proof.
  induction 1 as [|d l Hd _ IH]; [reflexivity|].
  cbn [length decode_covered fmap list_fmap concat]. rewrite <- app_assoc, decode_encode_dot by assumption.
  f_equal. exact IH.
Qed.

Lemma length_encode_covered l : length (concat (encode_dot <$> l)) = (10 * length l)%nat.
Proof.
  induction l as [|d l IH]; [reflexivity|]. cbn [fmap list_fmap concat]. rewrite length_app, IH.
  change (length (encode_dot d)) with 10%nat. simpl length. lia.
Qed.

Lemma ElementState_decode_encode st : element_codec_ok st ->
  ElementState_decode (ElementState_encode st) = Ret (Some st).
Proof.
  intros [Hnl Hnc Hl Hc Hsz]. unfold ElementState_decode, ElementState_encode in *.
  cbn [app] in *. unfold wrap in *. rewrite (Z.mod_small (Z.of_nat (length (live st)))) in * by lia.
  rewrite (Z.mod_small (Z.of_nat (length (covered st)))) in * by lia.
  cbn [length] in Hsz. rewrite length_app in Hsz.
  rewrite Nat2Z.id, decode_encode_live by (assumption || lia). cbn [rust_bind].
  rewrite Nat2Z.id. rewrite length_encode_covered.
  destruct (Nat.ltb_spec (10 * length (covered st)) (length (covered st) * 10)); [lia|].
  rewrite <- (app_nil_r (concat _)), decode_encode_covered by assumption.
  destruct st; reflexivity.
Qed.

(** An unchecked length aborts the replica: a record whose first live
    entry claims a value length that overflows [pos + vlen] makes
    [ElementState::decode], and with it the merge of any incoming element
    record over a decodable local one, panic instead of falling back to LWW. *)
Theorem element_decode_length_panics d vlen rest :
  dot_ok d -> u64 vlen -> 2 ^ 64 <= 11 + Z.of_nat (length (put_varint vlen)) + vlen ->
  ElementState_decode ([1] ++ encode_dot d ++ put_varint vlen ++ rest) = Panic.
Proof.
  intros Hd Hv Hbig. unfold ElementState_decode. cbn [app]. change (Z.to_nat 1) with 1%nat.
  cbn [decode_live]. set (vi := put_varint vlen) in *.
  destruct (Nat.ltb_spec (length (encode_dot d ++ vi ++ rest)) 10) as [Hlt|_].
  { rewrite length_app in Hlt. change (length (encode_dot d)) with 10%nat in Hlt. lia. }
  change (drop 10 (encode_dot d ++ vi ++ rest)) with (vi ++ rest).
  unfold vi at 1. rewrite get_put_varint by assumption. fold vi.
  destruct (Z.leb_spec (2 ^ 64) (1 + 10 + Z.of_nat (length vi) + vlen)); [|lia]. reflexivity.
Qed.

Lemma element_decode_length_panics_witness :
  ElementState_decode ([1] ++ encode_dot (mkDot 5 1) ++ put_varint (2 ^ 64 - 1) ++ []) = Panic.
Proof.
  apply element_decode_length_panics; [split|..]; unfold u64, u16, in_range; simpl dot_hlc; simpl dot_origin;
    pose proof (put_varint_length (2 ^ 64 - 1)); lia.
Defined.
