(* ===== verification/MergeLaws.v ===== *)
(** * Laws of the record merge ([crates/marekvs-core/src/merge.rs])

    What [merge_values] guarantees on stored bytes: canonical element states,
    the refinement of the element join to an add-wins observed-remove set,
    convergence of replicas for elements, LWW registers, counters and HLL
    registers, and the histories on which the capped joins are not
    associative. *)

From S2P Require Import Prelude Envelope Varint Counter Lattice Merge.

(** ** Canonical element states *)

Notation live_key := (fun e : Dot * bytes => dot_ver e.1).

Lemma dot_ver_inj d e : dot_ver d = dot_ver e -> d = e.
Proof. destruct d, e. unfold dot_ver. simpl. congruence. Qed.

Record element_wf (st : ElementState) : Prop := {
  ew_live : StronglySorted (key_gt live_key) (live st);
  ew_cov : StronglySorted (key_gt dot_ver) (covered st);
  ew_disj : Forall (fun e => e.1 ∉ covered st) (live st);
  ew_nlive : (length (live st) <= MAX_LIVE_DOTS)%nat;
  ew_ncov : (length (covered st) <= MAX_TOMB_DOTS)%nat;
}.

(** A dot names one write, so it carries one value. *)
Definition one_value (l : list (Dot * bytes)) : Prop :=
  forall d v w, (d, v) ∈ l -> (d, w) ∈ l -> v = w.

(** The covered dots and the surviving adds, before the caps. *)
Definition all_covered (c : list Dot) : list Dot := dedup_by dot_eqb (sort_desc dot_ver c).
Definition distinct_adds (l : list (Dot * bytes)) : list (Dot * bytes) :=
  dedup_by same_dot (sort_desc live_key l).
Definition survivors (l : list (Dot * bytes)) (c : list Dot) : list (Dot * bytes) :=
  filter (fun e => e.1 ∉ c) (distinct_adds l).

Lemma dot_eqb_spec a b : dot_eqb a b = true <-> dot_ver a = dot_ver b.
Proof. unfold dot_eqb. rewrite bool_decide_eq_true. split; [congruence|apply dot_ver_inj]. Qed.
Lemma same_dot_spec a b : same_dot a b = true <-> dot_ver a.1 = dot_ver b.1.
Proof. unfold same_dot. rewrite bool_decide_eq_true. split; [congruence|apply dot_ver_inj]. Qed.

Lemma all_covered_sorted c : StronglySorted (key_gt dot_ver) (all_covered c).
Proof. apply (dedup_by_spec dot_ver dot_eqb dot_eqb_spec), sort_desc_sorted. Qed.
Lemma all_covered_elem c d : d ∈ all_covered c <-> d ∈ c.
Proof.
  destruct (dedup_by_spec dot_ver dot_eqb dot_eqb_spec _ (sort_desc_sorted dot_ver c)) as (_ & H1 & H2).
  rewrite <- (sort_desc_elem dot_ver c). split; [apply H1|].
  intros (y & Hy & Hk)%H2. apply dot_ver_inj in Hk as ->. exact Hy.
Qed.

Lemma distinct_adds_sorted l : StronglySorted (key_gt live_key) (distinct_adds l).
Proof. apply (dedup_by_spec live_key same_dot same_dot_spec), sort_desc_sorted. Qed.
Lemma distinct_adds_incl l e : e ∈ distinct_adds l -> e ∈ l.
Proof.
  rewrite <- (sort_desc_elem live_key l).
  apply (dedup_by_spec live_key same_dot same_dot_spec), sort_desc_sorted.
Qed.
Lemma distinct_adds_elem l e : one_value l -> e ∈ distinct_adds l <-> e ∈ l.
Proof.
  intros Hl. split; [apply distinct_adds_incl|]. intros He.
  destruct (dedup_by_spec live_key same_dot same_dot_spec _ (sort_desc_sorted live_key l)) as (_ & H1 & H2).
  destruct (H2 e) as ([d v] & Hy & Hk); [apply sort_desc_elem, He|].
  apply dot_ver_inj in Hk. simpl in Hk. subst d. destruct e as [d w]. simpl in *.
  rewrite (Hl d w v); [exact Hy|exact He|]. apply distinct_adds_incl, Hy.
Qed.

Lemma survivors_sorted l c : StronglySorted (key_gt live_key) (survivors l c).
Proof. apply filter_sorted, distinct_adds_sorted. Qed.
Lemma survivors_elem l c e : one_value l -> e ∈ survivors l c <-> e ∈ l /\ e.1 ∉ c.
Proof. intros Hl. unfold survivors. rewrite list_elem_of_filter, distinct_adds_elem by assumption. tauto. Qed.

Lemma normalize_unfold st : normalize st =
  let c := take MAX_TOMB_DOTS (all_covered (covered st)) in
  mkElement (take MAX_LIVE_DOTS (survivors (live st) c)) c.
Proof. reflexivity. Qed.

Lemma sorted_live_one_value l : StronglySorted (key_gt live_key) l -> one_value l.
Proof.
  induction 1 as [|e l Hs IH Hf]; intros d v w Hv Hw; [set_solver|].
  rewrite Forall_forall in Hf. unfold key_gt in Hf.
  apply elem_of_cons in Hv as [<-|Hv]; apply elem_of_cons in Hw as [Hw|Hw].
  - congruence.
  - apply Hf in Hw. simpl in Hw. rewrite ver_ltb_irrefl in Hw. discriminate.
  - subst e. apply Hf in Hv. simpl in Hv. rewrite ver_ltb_irrefl in Hv. discriminate.
  - eauto.
Qed.

Lemma normalize_wf st : element_wf (normalize st).
Proof.
  rewrite normalize_unfold. cbv zeta. split; cbn [live covered].
  - apply take_sorted, survivors_sorted.
  - apply take_sorted, all_covered_sorted.
  - apply Forall_take, Forall_forall. intros e [He _]%list_elem_of_filter. exact He.
  - rewrite length_take. lia.
  - rewrite length_take. lia.
Qed.

Lemma all_covered_id st : element_wf st -> all_covered (covered st) = covered st.
Proof.
  intros Hwf. apply (sorted_ext (key_gt dot_ver)); [apply all_covered_sorted|apply Hwf|].
  apply all_covered_elem.
Qed.
Lemma survivors_id st : element_wf st -> survivors (live st) (covered st) = live st.
Proof.
  intros [Hl Hc Hd Hn Hm]. apply (sorted_ext (key_gt live_key)); [apply survivors_sorted|assumption|].
  intros e. rewrite survivors_elem by (apply sorted_live_one_value; assumption).
  rewrite Forall_forall in Hd. naive_solver.
Qed.
Lemma normalize_id st : element_wf st -> normalize st = st.
Proof.
  intros Hwf. rewrite normalize_unfold, all_covered_id by assumption.
  rewrite (take_ge (covered st)) by apply Hwf. cbv zeta. rewrite survivors_id by assumption.
  rewrite take_ge by apply Hwf. destruct st; reflexivity.
Qed.

(** The members of a normalized state come from its input. *)
Lemma normalize_live_incl st e : e ∈ live (normalize st) -> e ∈ live st.
Proof.
  rewrite normalize_unfold. cbn [live]. intros He.
  apply elem_of_take in He as (i & He & _). apply list_elem_of_lookup_2 in He.
  apply list_elem_of_filter in He as [_ He]. apply distinct_adds_incl, He.
Qed.
Lemma normalize_cov_incl st d : d ∈ covered (normalize st) -> d ∈ covered st.
Proof.
  rewrite normalize_unfold. cbn [covered]. intros He.
  apply elem_of_take in He as (i & He & _). apply list_elem_of_lookup_2 in He.
  apply all_covered_elem, He.
Qed.

Lemma collapse_live_sublist seen l : collapse_live seen l `sublist_of` l.
Proof.
  revert seen. induction l as [|e l IH]; intros seen; simpl; [constructor|].
  case_bool_decide; constructor; auto.
Qed.

Lemma Forall_sublist {A} (P : A -> Prop) l k : k `sublist_of` l -> Forall P l -> Forall P k.
Proof. rewrite !Forall_forall. intros Hs Hl x Hx. eapply Hl, elem_of_sublist; eassumption. Qed.

Lemma sublist_sorted {A} (R : relation A) l k : k `sublist_of` l -> StronglySorted R l -> StronglySorted R k.
Proof.
  induction 1 as [|x k l Hs IH|x k l Hs IH]; intros H; invert H; [constructor| |auto].
  constructor; [auto|]. eapply Forall_sublist; eassumption.
Qed.

Lemma collapse_wf st : element_wf st -> element_wf (collapse_per_origin st).
Proof.
  intros [Hl Hc Hd Hn Hm]. pose proof (collapse_live_sublist [] (live st)) as Hs.
  split; cbn [live covered collapse_per_origin]; try assumption.
  - eapply sublist_sorted; eassumption.
  - eapply Forall_sublist; eassumption.
  - apply sublist_length in Hs. lia.
Qed.

Lemma join_elements_wf rt l i : element_wf (join_elements rt l i).
Proof.
  unfold join_elements. case_bool_decide; [apply collapse_wf|]; apply normalize_wf.
Qed.

(** ** Element records: merging bytes is joining states *)

(** A canonical element record, before encoding. *)
Record erec := mkErec {
  er_type : RecordType;
  er_ver : version;
  er_ttl : Z;
  er_st : ElementState;
}.

Definition erec_bytes (r : erec) : bytes := encode_element (er_type r) (er_ver r) (er_ttl r) (er_st r).

(** Values that fit in memory: the payload of four of them is a slice. *)
Definition live_ok (e : Dot * bytes) : Prop := dot_ok e.1 /\ Z.of_nat (length e.2) < 2 ^ 56.

Record erec_ok (r : erec) : Prop := {
  eo_type : is_or_element (er_type r) = true;
  eo_hlc : u64 (er_ver r).1;
  eo_origin : u16 (er_ver r).2;
  eo_ttl : u64 (er_ttl r);
  eo_wf : element_wf (er_st r);
  eo_live : Forall live_ok (live (er_st r));
  eo_cov : Forall dot_ok (covered (er_st r));
}.

Lemma length_encode_lives l : Forall live_ok l ->
  Z.of_nat (length (concat (encode_live <$> l))) <= Z.of_nat (length l) * (20 + 2 ^ 56).
Proof.
  induction 1 as [|[d v] l [Hd Hv] _ IH]; [simpl; lia|]. cbn [fmap list_fmap concat length].
  rewrite length_app. cbn [fst snd] in Hv.
  assert (length (encode_live (d, v)) = 10 + (length (put_varint (Z.of_nat (length v))) + length v))%nat as ->.
  { unfold encode_live. cbn [fst snd]. rewrite !length_app. reflexivity. }
  pose proof (put_varint_length (Z.of_nat (length v))). lia.
Qed.

Lemma element_codec_of_wf st : element_wf st -> Forall live_ok (live st) -> Forall dot_ok (covered st) ->
  element_codec_ok st.
Proof.
  intros Hwf Hl Hc. pose proof (ew_nlive _ Hwf) as Hn. pose proof (ew_ncov _ Hwf) as Hm.
  unfold MAX_LIVE_DOTS, MAX_TOMB_DOTS in *. split; try assumption; try lia.
  - eapply Forall_impl; [eassumption|]. intros e [He _]. exact He.
  - unfold ElementState_encode. rewrite !length_app. cbn [length].
    rewrite length_encode_covered. pose proof (length_encode_lives _ Hl). lia.
Qed.

(** The envelope a canonical record carries. *)
Definition erec_env (r : erec) : Envelope :=
  mkEnvelope (element_flags (er_type r) (is_dead (er_st r))) (er_ver r).1 (er_ver r).2 (er_ttl r).

Lemma erec_bytes_eq r : element_wf (er_st r) ->
  erec_bytes r = encode_with (erec_env r) (ElementState_encode (er_st r)).
Proof. intros Hwf. unfold erec_bytes, encode_element. rewrite normalize_id by assumption. reflexivity. Qed.

Lemma erec_payload r : element_wf (er_st r) -> drop ENVELOPE_LEN (erec_bytes r) = ElementState_encode (er_st r).
Proof. intros Hwf. rewrite erec_bytes_eq by assumption. reflexivity. Qed.

Lemma erec_env_ok r : erec_ok r -> envelope_ok (erec_env r).
Proof. intros []. split; simpl; try assumption. apply element_flags_u8. Qed.

Lemma erec_decode r : erec_ok r ->
  Envelope_decode (erec_bytes r) = Some (erec_env r, ElementState_encode (er_st r)) /\
  ElementState_decode (ElementState_encode (er_st r)) = Ret (Some (er_st r)).
Proof.
  intros Hr. rewrite erec_bytes_eq by apply Hr. split.
  - apply Envelope_decode_encode_with, erec_env_ok, Hr.
  - apply ElementState_decode_encode, element_codec_of_wf; apply Hr.
Qed.

Definition rtype_max (a b : RecordType) : RecordType := RecordType_from_bits (Z.max (rtype_u8 a) (rtype_u8 b)).

(** The join of two records: type and version maxima, the TTL of the version
    winner, the joined state. *)
Definition erec_join (a b : erec) : erec :=
  let rt := rtype_max (er_type a) (er_type b) in
  mkErec rt (ver_max (er_ver a) (er_ver b))
    (if ver_ltb (er_ver a) (er_ver b) then er_ttl b else er_ttl a)
    (join_elements rt (er_st a) (er_st b)).

Lemma join_elements_live_incl rt l i e : e ∈ live (join_elements rt l i) -> e ∈ live l \/ e ∈ live i.
Proof.
  unfold join_elements. intros He. rewrite <- elem_of_app.
  apply (normalize_live_incl (mkElement (live l ++ live i) (covered l ++ covered i))).
  revert He. case_bool_decide; [|auto].
  intros He. eapply elem_of_sublist; [exact He|apply collapse_live_sublist].
Qed.
Lemma join_elements_cov_incl rt l i d : d ∈ covered (join_elements rt l i) -> d ∈ covered l \/ d ∈ covered i.
Proof.
  unfold join_elements. intros He. rewrite <- elem_of_app.
  apply (normalize_cov_incl (mkElement (live l ++ live i) (covered l ++ covered i))).
  revert He. case_bool_decide; auto.
Qed.

Lemma rtype_max_or a b : is_or_element a = true -> is_or_element b = true -> is_or_element (rtype_max a b) = true.
Proof. destruct a, b; vm_compute; auto. Qed.

Lemma erec_join_ok a b : erec_ok a -> erec_ok b -> erec_ok (erec_join a b).
Proof.
  intros [] []. unfold erec_join, ver_max. split; cbn [er_type er_ver er_ttl er_st];
    try (destruct (ver_ltb _ _); assumption).
  - apply rtype_max_or; assumption.
  - apply join_elements_wf.
  - rewrite !Forall_forall in *. intros e [?|?]%join_elements_live_incl; auto.
  - rewrite !Forall_forall in *. intros e [?|?]%join_elements_cov_incl; auto.
Qed.

Lemma or_element_not_special t : is_or_element t = true -> t <> Counter /\ t <> HllRegister.
Proof. destruct t; simpl; try discriminate; split; discriminate. Qed.

(** The stored bytes after merging two canonical element records are the
    canonical bytes of the join. *)
Lemma merged_bytes_erec a b : erec_ok a -> erec_ok b ->
  merged_bytes (erec_bytes a) (erec_bytes b) = Ret (erec_bytes (erec_join a b)).
Proof.
  intros Ha Hb. unfold merged_bytes, merge_values.
  destruct (erec_decode a Ha) as [-> Hda]. destruct (erec_decode b Hb) as [-> Hdb].
  pose proof (element_flags_spec (er_type a) (is_dead (er_st a)) (er_ver a).1 (er_ver a).2 (er_ttl a)) as (Ta & Da & Ia).
  pose proof (element_flags_spec (er_type b) (is_dead (er_st b)) (er_ver b).1 (er_ver b).2 (er_ttl b)) as (Tb & Db & Ib).
  fold (erec_env a) in Ta, Da, Ia. fold (erec_env b) in Tb, Db, Ib.
  rewrite Ta, Tb, Ia, Ib. destruct (or_element_not_special _ (eo_type _ Ha)) as [Hc Hh].
  rewrite (bool_decide_eq_false_2 _ Hc), (bool_decide_eq_false_2 _ Hh), (eo_type _ Hb).
  cbn [andb orb negb]. rewrite Hda, Hdb. cbn [rust_bind]. rewrite resolve_outcome_of.
  unfold erec_bytes, erec_join, winner_ttl. cbn [er_type er_ver er_ttl er_st].
  unfold env_version, erec_env. cbn [hlc origin ttl_deadline_ms].
  rewrite <- !surjective_pairing. reflexivity.
Qed.

(** ** Replicas *)

Notation deliver_all := (deliver_all_with merged_bytes).
Notation MergeImpl := (MergeWith merged_bytes).

#[export] Instance erec_impl : MergeImpl erec_ok erec_join erec_bytes.
Proof. split; [apply merged_bytes_erec|apply erec_join_ok]. Qed.

(** ** Elements refine an observed-remove set *)

Definition adds (rs : list erec) : list (Dot * bytes) := rs ≫= fun r => live (er_st r).
Definition covs (rs : list erec) : list Dot := rs ≫= fun r => covered (er_st r).

(** The abstract element after a set of records: every add that no received
    remove covers, and every covered dot. *)
Definition orset (rs : list erec) : ElementState :=
  mkElement (survivors (adds rs) (covs rs)) (all_covered (covs rs)).

Definition orset_fits (rs : list erec) : Prop :=
  (length (live (orset rs)) <= MAX_LIVE_DOTS)%nat /\
  (length (covered (orset rs)) <= MAX_TOMB_DOTS)%nat.

(** Neither cap is exceeded at any point of the delivery sequence. *)
Definition history_fits (rs : list erec) : Prop := forall n, orset_fits (take n rs).

(** An element other than a counter field. *)
Definition plain (r : erec) : Prop := erec_ok r /\ er_type r <> CounterField.

Lemma rtype_max_plain a b : a <> CounterField -> b <> CounterField -> rtype_max a b <> CounterField.
Proof. destruct a, b; vm_compute; congruence. Qed.
Lemma plain_join a b : plain a -> plain b -> plain (erec_join a b).
Proof. intros [Ha Ta] [Hb Tb]. split; [apply erec_join_ok|apply rtype_max_plain]; assumption. Qed.

Lemma adds_app a b : adds (a ++ b) = adds a ++ adds b.
Proof. apply bind_app. Qed.
Lemma covs_app a b : covs (a ++ b) = covs a ++ covs b.
Proof. apply bind_app. Qed.

Lemma one_value_incl l k : (forall e, e ∈ k -> e ∈ l) -> one_value l -> one_value k.
Proof. intros Hi Hl d v w Hv Hw. apply (Hl d); auto. Qed.

Lemma normalize_orset st rs : one_value (live st) -> one_value (adds rs) -> orset_fits rs ->
  (forall d, d ∈ covered st <-> d ∈ covs rs) ->
  (forall e, e.1 ∉ covs rs -> e ∈ live st <-> e ∈ adds rs) ->
  normalize st = orset rs.
Proof.
  intros Ho1 Ho2 [Hn Hm] Hc Hl. rewrite normalize_unfold. unfold orset in *. cbn [live covered] in *.
  assert (all_covered (covered st) = all_covered (covs rs)) as ->.
  { apply (sorted_ext (key_gt dot_ver)); try apply all_covered_sorted.
    intros d. rewrite !all_covered_elem. apply Hc. }
  rewrite (take_ge _ MAX_TOMB_DOTS) by assumption. cbv zeta.
  assert (survivors (live st) (all_covered (covs rs)) = survivors (adds rs) (covs rs)) as ->.
  { apply (sorted_ext (key_gt live_key)); try apply survivors_sorted. intros e.
    rewrite !survivors_elem, all_covered_elem by assumption. naive_solver. }
  rewrite take_ge by assumption. reflexivity.
Qed.

Lemma join_orset rt rs r : rt <> CounterField -> one_value (adds (rs ++ [r])) ->
  orset_fits (rs ++ [r]) ->
  join_elements rt (orset rs) (er_st r) = orset (rs ++ [r]).
Proof.
  intros Hrt Ho Hf. unfold join_elements. rewrite bool_decide_eq_false_2 by assumption.
  assert (Hr : adds [r] = live (er_st r) /\ covs [r] = covered (er_st r)).
  { unfold adds, covs. cbn. rewrite !app_nil_r. auto. }
  destruct Hr as [Hra Hrc].
  assert (one_value (adds rs)) as Ho'.
  { eapply one_value_incl; [|exact Ho]. intros e He. rewrite adds_app. set_solver. }
  rewrite <- Hra, <- Hrc.
  apply normalize_orset; try assumption; cbn [live covered].
  - eapply one_value_incl; [|exact Ho]. intros e. rewrite adds_app, !elem_of_app.
    unfold orset. cbn [live]. rewrite survivors_elem by assumption. naive_solver.
  - intros d. rewrite covs_app, !elem_of_app. unfold orset. cbn [covered].
    rewrite all_covered_elem. reflexivity.
  - intros e. rewrite covs_app, adds_app, !elem_of_app. unfold orset. cbn [live].
    rewrite survivors_elem by assumption. naive_solver.
Qed.

Lemma orset_single r : erec_ok r -> orset [r] = er_st r.
Proof.
  intros Hr. unfold orset, adds, covs. cbn. rewrite !app_nil_r.
  rewrite all_covered_id, survivors_id by apply Hr. destruct (er_st r); reflexivity.
Qed.

Lemma receive_orset p x l : plain x -> Forall plain l -> er_st x = orset p ->
  one_value (adds (p ++ l)) -> history_fits (p ++ l) ->
  er_st (receive erec_join x l) = orset (p ++ l).
Proof.
  intros Hx Hl. revert p x Hx. induction Hl as [|r l Hr Hl IH]; intros p x Hx Hst Ho Hf.
  { rewrite app_nil_r. exact Hst. }
  change (receive erec_join x (r :: l)) with (receive erec_join (erec_join x r) l).
  replace (p ++ r :: l) with ((p ++ [r]) ++ l) in * by (rewrite <- app_assoc; reflexivity).
  apply IH; try assumption; [apply plain_join; assumption|].
  cbn [erec_join er_st]. rewrite Hst. apply join_orset.
  - apply rtype_max_plain; [apply Hx|apply Hr].
  - eapply one_value_incl; [|exact Ho]. intros e. rewrite (adds_app (p ++ [r])). set_solver.
  - specialize (Hf (length (p ++ [r]))). rewrite take_app_length in Hf. exact Hf.
Qed.

(** Type, version and TTL of a record, and their join. *)
Definition erec_meta (r : erec) : RecordType * version * Z := (er_type r, er_ver r, er_ttl r).
Definition meta_join (a b : RecordType * version * Z) : RecordType * version * Z :=
  (rtype_max a.1.1 b.1.1, ver_max a.1.2 b.1.2, if ver_ltb a.1.2 b.1.2 then b.2 else a.2).

Lemma receive_meta x l : erec_meta (receive erec_join x l) = receive meta_join (erec_meta x) (erec_meta <$> l).
Proof.
  revert x. induction l as [|r l IH]; intros x; [reflexivity|].
  change (receive erec_join x (r :: l)) with (receive erec_join (erec_join x r) l). rewrite IH. reflexivity.
Qed.

Lemma rtype_max_laws a b c : rtype_max a b = rtype_max b a /\
  rtype_max a (rtype_max b c) = rtype_max (rtype_max a b) c /\ rtype_max a a = a.
Proof. destruct a, b, c; vm_compute; auto. Qed.

(** A version names one write, so it fixes the TTL. *)
#[export] Instance meta_laws (T : version -> Z) : JoinLaws (fun m => m.2 = T m.1.2) meta_join.
Proof.
  split; unfold meta_join.
  - intros [[ta va] la] [[tb vb] lb]; simpl. intros -> ->. apply ver_max_select.
  - intros [[ta va] la] [[tb vb] lb]; simpl. intros -> ->.
    rewrite !ver_max_select, (ver_max_comm va). rewrite (proj1 (rtype_max_laws ta tb ta)). reflexivity.
  - intros [[ta va] la] [[tb vb] lb] [[tc vc] lc]; simpl. intros -> -> ->.
    rewrite !ver_max_select, ver_max_assoc. rewrite (proj1 (proj2 (rtype_max_laws ta tb tc))). reflexivity.
  - intros [[ta va] la] _. simpl. rewrite ver_max_idem, ver_ltb_irrefl.
    rewrite (proj2 (proj2 (rtype_max_laws ta ta ta))). reflexivity.
Qed.

Lemma erec_eq a b : erec_meta a = erec_meta b -> er_st a = er_st b -> a = b.
Proof. destruct a, b. unfold erec_meta. simpl. congruence. Qed.

Lemma orset_ext rs qs : one_value (adds rs) -> (forall z, z ∈ rs <-> z ∈ qs) -> orset rs = orset qs.
Proof.
  intros Ho Heq.
  assert (Ha : forall e, e ∈ adds rs <-> e ∈ adds qs).
  { intros e. unfold adds. rewrite !list_elem_of_bind. naive_solver. }
  assert (Hc : forall d, d ∈ covs rs <-> d ∈ covs qs).
  { intros d. unfold covs. rewrite !list_elem_of_bind. naive_solver. }
  assert (one_value (adds qs)) by (eapply one_value_incl; [intros e; apply Ha|assumption]).
  unfold orset. f_equal.
  - apply (sorted_ext (key_gt live_key)); try apply survivors_sorted. intros e.
    rewrite !survivors_elem, Ha, Hc by assumption. reflexivity.
  - apply (sorted_ext (key_gt dot_ver)); try apply all_covered_sorted. intros d.
    rewrite !all_covered_elem. apply Hc.
Qed.

Lemma orset_live_elem rs e : one_value (adds rs) -> e ∈ live (orset rs) <-> e ∈ adds rs /\ e.1 ∉ covs rs.
Proof. apply survivors_elem. Qed.

Lemma erec_env_tombstone r : is_tombstone (erec_env r) = is_dead (er_st r).
Proof.
  apply (element_flags_spec (er_type r) (is_dead (er_st r)) (er_ver r).1 (er_ver r).2 (er_ttl r)).
Qed.

Lemma orset_dead rs : one_value (adds rs) ->
  is_dead (orset rs) = true <-> forall e, e ∈ adds rs -> e.1 ∈ covs rs.
Proof.
  intros Ho. pose proof (fun e => orset_live_elem rs e Ho) as Hlive.
  unfold is_dead. destruct (live (orset rs)) as [|e0 l0].
  - split; [|reflexivity]. intros _ e He. destruct (decide (e.1 ∈ covs rs)) as [|Hn]; [assumption|].
    exfalso. apply (not_elem_of_nil e), Hlive. auto.
  - split; [discriminate|]. intros Hall. destruct (proj1 (Hlive e0)) as [He Hn]; [left|].
    destruct (Hn (Hall e0 He)).
Qed.

(** The state of a replica that received [x], then [l]. *)
Lemma receive_plain x l : plain x -> Forall plain l -> one_value (adds (x :: l)) -> history_fits (x :: l) ->
  erec_ok (receive erec_join x l) /\ er_st (receive erec_join x l) = orset (x :: l) /\
  deliver_all None (erec_bytes <$> x :: l) = Ret (Some (erec_bytes (receive erec_join x l))).
Proof.
  intros Hx Hl Ho Hf.
  assert (Forall erec_ok l) by (eapply Forall_impl; [eassumption|intros r []; assumption]).
  split_and!.
  - apply (receive_impl_closed merged_bytes _ _ erec_bytes); [apply Hx|assumption].
  - apply (receive_orset [x] x l); try assumption. symmetry. apply orset_single. apply Hx.
  - apply (deliver_all_receive merged_bytes erec_ok _ erec_bytes); [apply Hx|assumption].
Qed.



(** ** Writers produce canonical records *)

Definition canonical (rt : RecordType) (b : bytes) : Prop :=
  exists r, b = erec_bytes r /\ erec_ok r /\ er_type r = rt.

Lemma encode_element_canonical rt ver ttl st :
  is_or_element rt = true -> u64 ver.1 -> u16 ver.2 -> u64 ttl ->
  Forall live_ok (live st) -> Forall dot_ok (covered st) ->
  canonical rt (encode_element rt ver ttl st).
Proof.
  intros Hrt Hh Ho Ht Hl Hc. exists (mkErec rt ver ttl (normalize st)). split_and!; [|split|]; try assumption;
    cbn [er_type er_ver er_ttl er_st].
  - unfold erec_bytes, encode_element. cbn [er_type er_ver er_ttl er_st].
    rewrite (normalize_id (normalize st)) by apply normalize_wf. reflexivity.
  - apply normalize_wf.
  - rewrite !Forall_forall in *. intros e He%normalize_live_incl. auto.
  - rewrite !Forall_forall in *. intros d Hd%normalize_cov_incl. auto.
  - reflexivity.
Qed.

(** [C38] Writers are canonical: [element_add], [element_add_with_dot],
    [element_add_ttl], [element_set], [element_remove] and [counter_field_set]
    (over any canonical prior record) emit records in the canonical form that
    the merge laws are stated on: sorted, duplicate-free, within the caps, live
    and covered disjoint, tombstone bit equal to deadness. *)
Theorem element_writers_canonical rt h o v d obs ttl prior :
  is_or_element rt = true -> u64 h -> u16 o -> Z.of_nat (length v) < 2 ^ 56 -> dot_ok d ->
  Forall dot_ok obs -> u64 ttl -> erec_ok prior ->
  canonical rt (element_add rt h o v) /\ canonical rt (element_add_with_dot rt h o d v) /\
  canonical rt (element_add_ttl rt h o v ttl) /\ canonical rt (element_set rt h o v obs) /\
  canonical rt (element_remove rt h o obs) /\
  exists b, counter_field_set h o (Some (ElementState_encode (er_st prior))) v = Ret b /\
    canonical CounterField b.
Proof.
  intros Hrt Hh Ho Hv Hd Hobs Ht Hp.
  assert (Hlive : forall d, dot_ok d -> live_ok (d, v)) by (intros; split; assumption).
  assert (Hdot : dot_ok (mkDot h o)) by (split; assumption).
  assert (u64 0) by (unfold u64, in_range; lia).
  split_and!; try (apply encode_element_canonical; cbn [live covered fst snd];
    repeat first [assumption | apply Hlive | constructor]; fail).
  unfold counter_field_set. rewrite (proj2 (erec_decode prior Hp)). cbn [rust_bind default].
  eexists. split; [reflexivity|]. apply encode_element_canonical; try assumption; [reflexivity| |].
  - rewrite Forall_forall. intros e He.
    eapply elem_of_sublist in He; [|apply collapse_live_sublist].
    apply normalize_live_incl in He. cbn [live default id] in He. apply elem_of_app in He as [He|He]; [|apply list_elem_of_singleton in He as ->; auto].
    pose proof (eo_live _ Hp) as Hl. rewrite Forall_forall in Hl. auto.
  - rewrite Forall_forall. intros e He. cbn [covered collapse_per_origin] in He.
    apply normalize_cov_incl in He. pose proof (eo_cov _ Hp) as Hc. rewrite Forall_forall in Hc. auto.
Qed.

(** A small history: node 1 adds "a", node 3 removes it, node 2 adds "b". *)
Definition ex_add1 : erec := mkErec SetMember (5, 1) 0 (mkElement [(mkDot 5 1, [97])] []).
Definition ex_rem : erec := mkErec SetMember (6, 3) 0 (mkElement [] [mkDot 5 1]).
Definition ex_add2 : erec := mkErec SetMember (7, 2) 9 (mkElement [(mkDot 7 2, [98])] []).

Ltac solve_plain :=
  repeat first [split | constructor]; cbn; unfold u64, u16, in_range, key_gt;
  try reflexivity; try lia; try discriminate;
  try (apply (bool_decide_unpack _); vm_compute; exact I).

Lemma ex_plain : plain ex_add1 /\ plain ex_rem /\ plain ex_add2.
Proof. solve_plain. Qed.

Lemma ex_one_value : one_value (adds [ex_add1; ex_rem; ex_add2]).
Proof. intros d v w Hv Hw. cbn in Hv, Hw. set_solver. Qed.



Lemma element_writers_canonical_witness :
  canonical SetMember (element_set SetMember 9 1 [97] [mkDot 5 1; mkDot 5 1]).
Proof.
  destruct ex_plain as (H1 & _).
  apply (element_writers_canonical SetMember 9 1 [97] (mkDot 9 1) [mkDot 5 1; mkDot 5 1] 0 ex_add1);
    try apply H1; repeat constructor; cbn; unfold u64, u16, in_range; lia.
Defined.

(** ** LWW registers *)

(** A plain register (string, list element, stream entry) or collection head,
    live or tombstone. *)
Definition lww_type (t : RecordType) : bool :=
  match t with RString | RList | StreamEntry => true | _ => false end.

Abbreviation reg := (Envelope * bytes)%type.
Definition reg_bytes (r : reg) : bytes := encode_with r.1 r.2.
Definition reg_ltb (a b : reg) : bool := ver_ltb (env_version a.1) (env_version b.1).

(** [W] is the record each version was written as. *)
Definition lww_ok (W : version -> reg) (r : reg) : Prop :=
  envelope_ok r.1 /\ lww_type (rtype r.1) = true /\ r = W (env_version r.1).

#[export] Instance lww_laws W : JoinLaws (lww_ok W) (pick reg_ltb).
Proof.
  apply pick_laws; unfold reg_ltb.
  - intros a. apply ver_ltb_irrefl.
  - intros a b c. apply ver_ltb_trans.
  - intros a b (_ & _ & Ha) (_ & _ & Hb).
    destruct (ver_ltb_total (env_version a.1) (env_version b.1)) as [|[He|]]; auto.
    right. left. rewrite Ha, Hb, He. reflexivity.
Qed.

Lemma merged_bytes_lww a b : envelope_ok a.1 -> envelope_ok b.1 ->
  lww_type (rtype a.1) = true -> lww_type (rtype b.1) = true ->
  merged_bytes (reg_bytes a) (reg_bytes b) = Ret (reg_bytes (pick reg_ltb a b)).
Proof.
  intros Ha Hb Ta Tb. unfold merged_bytes, merge_values, reg_bytes.
  rewrite !Envelope_decode_encode_with by assumption.
  assert (rtype a.1 <> Counter /\ rtype a.1 <> HllRegister) as [Hc Hh] by (destruct (rtype a.1); done).
  rewrite (bool_decide_eq_false_2 _ Hc), (bool_decide_eq_false_2 _ Hh).
  assert (is_or_element (rtype b.1) = false) as -> by (destruct (rtype b.1); done).
  rewrite orb_true_r. cbn [andb rust_bind]. unfold merge_lww, pick, reg_ltb.
  destruct (ver_ltb _ _); reflexivity.
Qed.

#[export] Instance lww_impl W : MergeImpl (lww_ok W) (pick reg_ltb) reg_bytes.
Proof.
  split; [|apply jl_closed].
  intros a b (Ha & Ta & _) (Hb & Tb & _). apply merged_bytes_lww; assumption.
Qed.

(** ** HyperLogLog registers *)

Definition hll_rank (r : reg) : Z := byte_at r.2 0.

(** Order of two registers: by rank, then the older version is greater. *)
Definition hll_ltb (a b : reg) : bool :=
  match hll_rank a ?= hll_rank b with
  | Lt => true
  | Gt => false
  | Eq => ver_ltb (env_version b.1) (env_version a.1)
  end.

Definition hll_ok (W : version -> reg) (r : reg) : Prop :=
  envelope_ok r.1 /\ rtype r.1 = HllRegister /\ is_tombstone r.1 = false /\ r.2 <> [] /\
  r = W (env_version r.1).

#[export] Instance hll_laws W : JoinLaws (hll_ok W) (pick hll_ltb).
Proof.
  apply pick_laws; unfold hll_ltb.
  - intros a. rewrite Z.compare_refl. apply ver_ltb_irrefl.
  - intros a b c. destruct (Z.compare_spec (hll_rank a) (hll_rank b)),
      (Z.compare_spec (hll_rank b) (hll_rank c)), (Z.compare_spec (hll_rank a) (hll_rank c));
      try lia; try discriminate; auto. intros H2 H3. exact (ver_ltb_trans _ _ _ H3 H2).
  - intros a b Ha Hb. rewrite (Z.compare_antisym (hll_rank a)).
    destruct (hll_rank a ?= hll_rank b); simpl; auto.
    destruct (ver_ltb_total (env_version a.1) (env_version b.1)) as [|[He|]]; auto.
    right. left. destruct Ha as (_ & _ & _ & _ & ->), Hb as (_ & _ & _ & _ & ->). congruence.
Qed.

Lemma ver_leb_negb a b : ver_leb a b = negb (ver_ltb b a).
Proof. ver_solve. Qed.

#[export] Instance hll_impl W : MergeImpl (hll_ok W) (pick hll_ltb) reg_bytes.
Proof.
  split; [|apply jl_closed].
  intros [ea pa] [eb pb] (Ha & Ta & Da & Na & _) (Hb & Tb & Db & Nb & _). cbn [fst snd] in *.
  unfold merged_bytes, merge_values, reg_bytes. cbn [fst snd].
  rewrite !Envelope_decode_encode_with by assumption. rewrite Ta, Tb, Da, Db.
  destruct pa as [|ra pa]; [contradiction|]. destruct pb as [|rb pb]; [contradiction|].
  cbn [bool_decide andb negb rust_bind merge_hll_registers].
  unfold pick, hll_ltb, hll_rank, byte_at. cbn. rewrite ver_leb_negb.
  destruct (ra ?= rb); try reflexivity. destruct (ver_ltb _ _); reflexivity.
Qed.

(** Registers converge: replicas that received the same set of records of
    a plain register (or of a HyperLogLog register), in any order and with any
    duplication, store byte-identical values. *)
Theorem register_replicas_converge (W : version -> reg) rs qs :
  rs <> [] -> Forall (lww_ok W) rs \/ Forall (hll_ok W) rs -> (forall z, z ∈ rs <-> z ∈ qs) ->
  deliver_all None (reg_bytes <$> rs) = deliver_all None (reg_bytes <$> qs).
Proof.
  intros Hne Hok Heq.
  assert (Hq : forall P, Forall P rs -> Forall P qs).
  { intros P. rewrite !Forall_forall. intros H z Hz. apply H, Heq, Hz. }
  destruct Hok as [H|H].
  - exact (replicas_converge merged_bytes (lww_ok W) (pick reg_ltb) reg_bytes rs qs Hne H (Hq _ H) Heq).
  - exact (replicas_converge merged_bytes (hll_ok W) (pick hll_ltb) reg_bytes rs qs Hne H (Hq _ H) Heq).
Qed.

(** A register wins by version: a SET at HLC 9 over one at HLC 5. *)
Lemma register_replicas_converge_witness :
  let old := (Envelope_new RString 5 1, [97]) in let new := (Envelope_new RString 9 2, [98]) in
  deliver_all None (reg_bytes <$> [old; new]) = deliver_all None (reg_bytes <$> [new; old; old]).
Proof.
  intros old new.
  apply (register_replicas_converge (fun v => if v.1 =? 5 then old else new)); [discriminate| |set_solver].
  left. apply Forall_cons_2; [|apply Forall_cons_2; [|apply Forall_nil_2]]; (split; [|split; reflexivity]);
    split; vm_compute; (split; [discriminate|reflexivity]).
Defined.

(** ** Counters *)

Record crec := mkCrec { cr_ver : version; cr_ttl : Z; cr_st : CounterState }.

Definition crec_env (r : crec) : Envelope :=
  mkEnvelope (element_flags Counter false) (cr_ver r).1 (cr_ver r).2 (cr_ttl r).
Definition crec_bytes (r : crec) : bytes := encode_with (crec_env r) (CounterState_encode (cr_st r)).

Definition crec_join (a b : crec) : crec :=
  mkCrec (ver_max (cr_ver a) (cr_ver b))
    (if ver_ltb (cr_ver a) (cr_ver b) then cr_ttl b else cr_ttl a)
    (CounterState_merge (cr_st a) (cr_st b)).

(** [B] is the base value each base version stands for, [T] the TTL of each
    record version. *)
Record crec_ok (B T : version -> Z) (r : crec) : Prop := {
  co_env : envelope_ok (crec_env r);
  co_fields : counter_fields_ok (cr_st r);
  co_wf : counter_wf (cr_st r);
  co_base : cbase (cr_st r) = B (base_version (cr_st r));
  co_ttl : cr_ttl r = T (cr_ver r);
}.

Lemma counter_base_closed (B : version -> Z) a b :
  cbase a = B (base_version a) -> cbase b = B (base_version b) ->
  cbase (CounterState_merge a b) = B (base_version (CounterState_merge a b)).
Proof. unfold CounterState_merge. destruct (ver_cmp _ _); auto. Qed.

Lemma crec_join_ok B T a b : crec_ok B T a -> crec_ok B T b -> crec_ok B T (crec_join a b).
Proof.
  intros [Ea Fa Wa Ba Ta] [Eb Fb Wb Bb Tb]. split; cbn [cr_ver cr_ttl cr_st crec_join].
  - destruct Ea, Eb. unfold crec_env, crec_join, ver_max in *. cbn in *.
    split; cbn; try assumption; destruct (ver_ltb _ _); assumption.
  - apply CounterState_merge_fields_ok; assumption.
  - apply CounterState_merge_wf; assumption.
  - apply counter_base_closed; assumption.
  - rewrite Ta, Tb. apply ver_max_select.
Qed.

Lemma base_agree_of B a b : cbase a = B (base_version a) -> cbase b = B (base_version b) -> base_agree a b.
Proof. unfold base_agree. congruence. Qed.

#[export] Instance crec_laws B T : JoinLaws (crec_ok B T) crec_join.
Proof.
  split; [apply crec_join_ok|..].
  - intros a b [_ _ Wa Ba Ta] [_ _ Wb Bb Tb]. unfold crec_join.
    rewrite Ta, Tb, !ver_max_select, (ver_max_comm (cr_ver b)). f_equal.
    apply CounterState_merge_comm; try assumption. eapply base_agree_of; eassumption.
  - intros a b c [_ _ Wa _ Ta] [_ _ Wb _ Tb] [_ _ Wc _ Tc]. unfold crec_join. cbn [cr_ver cr_ttl cr_st].
    rewrite Ta, Tb, Tc, !ver_max_select, ver_max_assoc. f_equal.
    apply CounterState_merge_assoc; assumption.
  - intros a [_ _ Wa _ _]. unfold crec_join. rewrite ver_max_idem, ver_ltb_irrefl.
    rewrite CounterState_merge_idem by assumption. destruct a; reflexivity.
Qed.

Lemma crec_decode B T r : crec_ok B T r ->
  Envelope_decode (crec_bytes r) = Some (crec_env r, CounterState_encode (cr_st r)) /\
  CounterState_decode (CounterState_encode (cr_st r)) = Some (cr_st r).
Proof.
  intros [E F W _ _]. split; [apply Envelope_decode_encode_with, E|].
  apply counter_decode_encode; [assumption|apply W].
Qed.

#[export] Instance crec_impl B T : MergeImpl (crec_ok B T) crec_join crec_bytes.
Proof.
  split; [|apply crec_join_ok]. intros a b Ha Hb. unfold merged_bytes, merge_values.
  destruct (crec_decode B T a Ha) as [-> Hda]. destruct (crec_decode B T b Hb) as [-> Hdb].
  destruct (element_flags_spec Counter false (cr_ver a).1 (cr_ver a).2 (cr_ttl a)) as (Ta & Da & _).
  destruct (element_flags_spec Counter false (cr_ver b).1 (cr_ver b).2 (cr_ttl b)) as (Tb & Db & _).
  fold (crec_env a) in Ta, Da. fold (crec_env b) in Tb, Db. rewrite Ta, Tb, Da, Db.
  cbn [andb negb rust_bind bool_decide]. rewrite bool_decide_eq_true_2 by reflexivity. cbn [andb rust_bind].
  unfold merge_counters. rewrite Hda, Hdb, resolve_outcome_of.
  unfold winner_ttl, env_version, crec_env. cbn [hlc origin ttl_deadline_ms].
  rewrite <- !surjective_pairing. reflexivity.
Qed.

(** [C34] Counters converge: replicas that received the same set of counter
    records, in any order and with any duplication, store byte-identical
    values, so they all read the same number. *)
Theorem counter_replicas_converge (B T : version -> Z) rs qs :
  rs <> [] -> Forall (crec_ok B T) rs -> (forall z, z ∈ rs <-> z ∈ qs) ->
  deliver_all None (crec_bytes <$> rs) = deliver_all None (crec_bytes <$> qs) /\
  exists r, deliver_all None (crec_bytes <$> rs) = Ret (Some (crec_bytes r)) /\
    CounterState_decode (drop 19 (crec_bytes r)) = Some (cr_st r).
Proof.
  intros Hne Hok Heq.
  assert (Hq : Forall (crec_ok B T) qs).
  { rewrite Forall_forall in Hok |- *. intros z Hz. apply Hok, Heq, Hz. }
  split; [exact (replicas_converge merged_bytes (crec_ok B T) crec_join crec_bytes rs qs Hne Hok Hq Heq)|].
  destruct rs as [|x l]; [contradiction|]. invert Hok. exists (receive crec_join x l).
  split; [exact (deliver_all_receive merged_bytes (crec_ok B T) crec_join crec_bytes x l H1 H2)|].
  exact (proj2 (crec_decode B T _ (receive_closed _ crec_join x l H1 H2))).
Qed.

(** A counter bumped once on a small base. *)
Lemma bumped_crec_ok b n d v : u16 n -> -100 < d < 100 -> -100 < b < 100 -> u64 v.1 -> u16 v.2 ->
  crec_ok (fun _ => b) (fun _ => 0) (mkCrec v 0 (bump (on_base 0 0 b) n d)).
Proof.
  intros Hn Hd Hb Hv1 Hv2. split; try reflexivity.
  - split; cbn; try assumption; unfold u8, u64, in_range; vm_compute; (split; [discriminate|reflexivity]).
  - split; cbn; [unfold u64, in_range; lia|unfold u16, in_range; lia|unfold i64; lia|].
    apply Forall_cons_2; [|apply Forall_nil_2]. unfold bump_slot, saturating_add. simpl.
    destruct (Z.leb_spec 0 d); split; cbn; try assumption; unfold u64, in_range; lia.
  - split; cbn; [repeat constructor|unfold MAX_SLOTS; lia].
Qed.

Lemma counter_replicas_converge_witness :
  let a := mkCrec (5, 1) 0 (bump (on_base 0 0 3) 1 10) in
  let b := mkCrec (6, 2) 0 (bump (on_base 0 0 3) 2 (-4)) in
  deliver_all None (crec_bytes <$> [a; b]) = deliver_all None (crec_bytes <$> [b; a; b]).
Proof.
  intros a b. apply (counter_replicas_converge (fun _ => 3) (fun _ => 0)); [discriminate| |set_solver].
  apply Forall_cons_2; [|apply Forall_cons_2; [|apply Forall_nil_2]]; apply bumped_crec_ok;
    unfold u16, u64, in_range; cbn; lia.
Defined.

(** ** Counter-valued hash fields *)

(** What a read of a counter field shows of a stored record. *)
Definition field_display (r : bytes) : rust (option bytes) := element_display_value CounterField (drop ENVELOPE_LEN r).

Lemma as_counter_encode c : counter_fields_ok c -> (length (cslots c) <= MAX_SLOTS)%nat -> cslots c <> [] ->
  as_counter (CounterState_encode c) = Some c.
Proof.
  intros Hok Hlen Hne. unfold as_counter. rewrite counter_decode_encode by assumption.
  rewrite (bool_decide_eq_false_2 _ Hne). unfold bytes_eqb. rewrite bool_decide_eq_true_2 by reflexivity.
  reflexivity.
Qed.

Lemma slot_update_not_nil n f l : slot_update n f l <> [].
Proof. destruct l as [|[m v] l]; simpl; [discriminate|]. destruct (n <? m), (n =? m); discriminate. Qed.

(** The join of two one-entry counter fields of different nodes holds both
    entries, newest first. *)
Lemma join_counter_fields x y : dot_origin x.1 <> dot_origin y.1 ->
  join_elements CounterField (mkElement [x] []) (mkElement [y] []) =
  mkElement (if ver_ltb (dot_ver y.1) (dot_ver x.1) then [x; y] else [y; x]) [].
Proof.
  intros Hne. assert (Hxy : x.1 <> y.1) by congruence.
  assert (Hov : one_value [x; y]).
  { intros d v w. rewrite !elem_of_cons, !elem_of_nil. destruct x, y. naive_solver. }
  assert (Hd : distinct_adds [x; y] = if ver_ltb (dot_ver y.1) (dot_ver x.1) then [x; y] else [y; x]).
  { apply (sorted_ext (key_gt live_key)); [apply distinct_adds_sorted| |].
    - destruct (ver_ltb_total (dot_ver y.1) (dot_ver x.1)) as [E|[E|E]].
      + rewrite E. repeat constructor. exact E.
      + apply dot_ver_inj in E. congruence.
      + rewrite (ver_ltb_asym _ _ E). repeat constructor. exact E.
    - intros e. rewrite distinct_adds_elem by assumption. destruct (ver_ltb _ _); set_solver. }
  unfold join_elements. rewrite bool_decide_eq_true_2 by reflexivity.
  rewrite normalize_unfold. cbn [live covered app]. unfold survivors. rewrite Hd.
  change (take MAX_TOMB_DOTS (all_covered [])) with (@nil Dot). cbv zeta.
  assert (Hn : forall d : Dot, d ∉ []) by apply not_elem_of_nil.
  destruct (ver_ltb _ _); rewrite !filter_cons_True, filter_nil by apply Hn; cbn;
    unfold collapse_per_origin; cbn [live covered collapse_live];
    rewrite (bool_decide_eq_false_2 (_ ∈ [])) by apply not_elem_of_nil;
    rewrite bool_decide_eq_false_2 by (rewrite list_elem_of_singleton; congruence); reflexivity.
Qed.

Lemma erec_single h o v : u64 h -> u16 o -> Z.of_nat (length v) < 2 ^ 56 ->
  erec_ok (mkErec CounterField (h, o) 0 (mkElement [(mkDot h o, v)] [])).
Proof.
  intros Hh Ho Hv. split; cbn; try assumption; [reflexivity|unfold u64, in_range; lia| | |constructor].
  - split; cbn; try (unfold MAX_LIVE_DOTS, MAX_TOMB_DOTS; lia).
    + apply SSorted_cons; [apply SSorted_nil|apply Forall_nil_2].
    + apply SSorted_nil.
    + apply Forall_cons_2; [apply not_elem_of_nil|apply Forall_nil_2].
  - apply Forall_cons_2; [split; [split|]; assumption|apply Forall_nil_2].
Qed.

Lemma counter_field_set_fresh h o v : u64 h -> u16 o -> Z.of_nat (length v) < 2 ^ 56 ->
  counter_field_set h o None v = Ret (erec_bytes (mkErec CounterField (h, o) 0 (mkElement [(mkDot h o, v)] []))).
Proof.
  intros Hh Ho Hv. unfold counter_field_set. cbn [rust_bind default live covered app].
  rewrite normalize_id by apply (erec_single h o v Hh Ho Hv). reflexivity.
Qed.

Lemma length_counter_encode c : (length (CounterState_encode c) = 19 + 18 * length (cslots c))%nat.
Proof.
  unfold CounterState_encode. rewrite !length_app, !length_be_bytes, length_encode_slots. cbn. lia.
Qed.

(** Displaying the merge of two one-entry counter fields: the joined counter. *)
Lemma display_counter_fields h1 n a h2 m b : u64 h1 -> u16 n -> u64 h2 -> u16 m -> n <> m ->
  counter_fields_ok a -> counter_fields_ok b -> counter_wf a -> counter_wf b ->
  cslots a <> [] -> cslots b <> [] -> base_agree a b ->
  exists ra rb r,
    counter_field_set h1 n None (CounterState_encode a) = Ret ra /\
    counter_field_set h2 m None (CounterState_encode b) = Ret rb /\
    deliver_all None [ra; rb] = Ret (Some r) /\
    field_display r =
      match value (CounterState_merge a b) with
      | Some v => Ret (Some (Z_to_string v))
      | None => element_value (drop ENVELOPE_LEN r)
      end.
Proof.
  intros Hh1 Hn Hh2 Hm Hne Fa Fb Wa Wb Na Nb Hab.
  assert (Hlen : forall c, counter_wf c -> Z.of_nat (length (CounterState_encode c)) < 2 ^ 56).
  { intros c [_ Hc]. rewrite length_counter_encode. unfold MAX_SLOTS in Hc. lia. }
  set (ea := mkErec CounterField (h1, n) 0 (mkElement [(mkDot h1 n, CounterState_encode a)] [])).
  set (eb := mkErec CounterField (h2, m) 0 (mkElement [(mkDot h2 m, CounterState_encode b)] [])).
  assert (Oa : erec_ok ea) by (apply erec_single; auto).
  assert (Ob : erec_ok eb) by (apply erec_single; auto).
  exists (erec_bytes ea), (erec_bytes eb), (erec_bytes (erec_join ea eb)).
  split_and!; [apply counter_field_set_fresh; auto..| |].
  { apply (deliver_all_receive merged_bytes erec_ok erec_join erec_bytes ea [eb] Oa). apply Forall_singleton, Ob. }
  destruct (erec_decode _ (erec_join_ok _ _ Oa Ob)) as [_ Hd].
  unfold field_display. rewrite erec_payload by apply (erec_join_ok _ _ Oa Ob).
  unfold element_display_value. rewrite bool_decide_eq_true_2 by reflexivity.
  unfold counter_field_value, counter_field_state. rewrite Hd. cbn [rust_bind mbind option_bind].
  assert (fold_counters (live (er_st (erec_join ea eb))) = Some (CounterState_merge a b)) as ->.
  { unfold erec_join, ea, eb. cbn [er_st er_type]. change (rtype_max CounterField CounterField) with CounterField.
    rewrite join_counter_fields by exact Hne. cbn [live fst].
    unfold fold_counters. destruct (ver_ltb _ _); cbn [fold_left snd];
      rewrite !as_counter_encode by (assumption || apply Wa || apply Wb); [reflexivity|].
    f_equal. symmetry. apply CounterState_merge_comm; assumption. }
  cbn [mbind option_bind rust_bind]. destruct (value _); reflexivity.
Qed.

(** Concurrent HINCRBYs are never lost to dot selection: two nodes that
    increment the same base counter field concurrently write two different
    live dots, and the field displays the base plus both increments once the
    records merge. *)
Theorem counter_field_increments_survive c n m d e h1 h2 :
  counter_wf c -> bump_fits c n d -> bump_fits c m e ->
  counter_wf (bump c n d) -> counter_wf (bump c m e) ->
  (length (cslots (bump (bump c n d) m e)) <= MAX_SLOTS)%nat ->
  counter_fields_ok (bump c n d) -> counter_fields_ok (bump c m e) ->
  u16 n -> u16 m -> u64 h1 -> u64 h2 -> n <> m -> i64 (raw_value c + d + e) ->
  exists ra rb r,
    counter_field_set h1 n None (CounterState_encode (bump c n d)) = Ret ra /\
    counter_field_set h2 m None (CounterState_encode (bump c m e)) = Ret rb /\
    deliver_all None [ra; rb] = Ret (Some r) /\
    field_display r = Ret (Some (Z_to_string (raw_value c + d + e))).
Proof.
  intros Wc Fn Fm Wn Wm Hlen On Om Hn Hm Hh1 Hh2 Hne Hi.
  destruct (display_counter_fields h1 n (bump c n d) h2 m (bump c m e)) as (ra & rb & r & H1 & H2 & H3 & H4);
    try assumption; try apply slot_update_not_nil; [intros _; reflexivity|].
  exists ra, rb, r. split_and!; try assumption. rewrite H4.
  rewrite merge_concurrent_bumps by assumption. unfold value.
  rewrite !bump_raw_value; [|apply Wc|exact Fn|apply Wn|].
  - unfold i64 in Hi. destruct (Z.leb_spec (- 2 ^ 63) (raw_value c + d + e)); [|lia].
    destruct (Z.ltb_spec (raw_value c + d + e) (2 ^ 63)); [|lia]. reflexivity.
  - unfold bump_fits in *. cbn [cslots bump]. rewrite slot_update_get by apply Wc.
    destruct (Z.eqb_spec m n); [congruence|]. exact Fm.
Qed.

Lemma counter_field_increments_survive_witness :
  exists ra rb r,
    counter_field_set 7 1 None (CounterState_encode (bump (on_base 0 0 3) 1 10)) = Ret ra /\
    counter_field_set 8 2 None (CounterState_encode (bump (on_base 0 0 3) 2 (-4))) = Ret rb /\
    deliver_all None [ra; rb] = Ret (Some r) /\
    field_display r = Ret (Some [57]).
Proof.
  assert (Hw : forall n d, counter_wf (bump (on_base 0 0 3) n d)).
  { intros. split; cbn; [repeat constructor|unfold MAX_SLOTS; lia]. }
  assert (Hf : forall n d, u16 n -> -100 < d < 100 -> counter_fields_ok (bump (on_base 0 0 3) n d)).
  { intros n d Hn Hd. split; cbn; [unfold u64, in_range; lia|unfold u16, in_range; lia|unfold i64; lia|].
    apply Forall_cons_2; [|apply Forall_nil_2]. unfold bump_slot, saturating_add. simpl.
    destruct (Z.leb_spec 0 d); split; cbn; try assumption; unfold u64, in_range; lia. }
  apply (counter_field_increments_survive (on_base 0 0 3) 1 2 10 (-4) 7 8);
    try apply Hw; try apply Hf; unfold u16, u64, i64, in_range, bump_fits; cbn; unfold MAX_SLOTS; try lia.
  - split; cbn; [constructor|unfold MAX_SLOTS; lia].
  - change (raw_value (on_base 0 0 3)) with 3. lia.
Defined.

(** ** Histories on which the merge is not associative *)

Definition order_matters (rs : list bytes) : Prop :=
  exists qs x y, Permutation rs qs /\ deliver_all None rs = Ret (Some x) /\
    deliver_all None qs = Ret (Some y) /\ x <> y.

(** Five nodes add the same set member concurrently; a client removes the four
    newest adds, the ones a capped record shows. *)
Definition five_adds : list bytes :=
  (fun i => element_add SetMember (100 + i) i [120]) <$> [1; 2; 3; 4; 5].
Definition remove_newest_four : bytes :=
  element_remove SetMember 200 9 ((fun i => mkDot (100 + i) i) <$> [2; 3; 4; 5]).

(** Instantiate an existential with the computed value of [m]. *)
Ltac exists_result m :=
  let r := eval vm_compute in m in
  match r with Ret (Some ?x) => exists x | Ret ?x => exists x | Some ?x => exists x end.

(** The live-dot cap costs associativity: with five concurrent adds and a
    remove of the four newest, a replica that sees the adds first has dropped
    the oldest add and stores a tombstone, one that sees the remove first keeps
    it and stores a live member. *)
Theorem live_cap_breaks_associativity :
  order_matters (five_adds ++ [remove_newest_four]) /\
  (exists x, deliver_all None (five_adds ++ [remove_newest_four]) = Ret (Some x) /\
     fmap (fun d => is_tombstone d.1) (Envelope_decode x) = Some true) /\
  (exists y, deliver_all None (remove_newest_four :: five_adds) = Ret (Some y) /\
     fmap (fun d => is_tombstone d.1) (Envelope_decode y) = Some false).
Proof.
  split_and!.
  - exists (remove_newest_four :: five_adds). do 2 eexists.
    split_and!; [symmetry; apply Permutation_cons_append|vm_compute; reflexivity..|vm_compute; discriminate].
  - eexists. split; vm_compute; reflexivity.
  - eexists. split; vm_compute; reflexivity.
Qed.

(** Node 1 increments a counter field twice; node 2 observes the result and
    deletes the field. *)
Definition incr_slot (k : Z) : bytes := CounterState_encode (bump (on_base 0 0 0) 1 k).
Definition incr1 : rust bytes := counter_field_set 10 1 None (incr_slot 1).
Definition incr2 : rust bytes :=
  let! r1 := incr1 in counter_field_set 20 1 (Some (drop ENVELOPE_LEN r1)) (incr_slot 2).
Definition hdel2 : rust bytes :=
  let! r2 := incr2 in
  let! observed := element_dots (drop ENVELOPE_LEN r2) in
  Ret (element_remove HashField 30 2 observed).

(** A deleted counter field can come back: the second increment replaces
    the first dot without covering it, so a delete that observed only the
    second dot does not cover the first.  A replica that receives increment 1,
    the delete and increment 2 in this order ends with the stale first
    increment alive and displayed, one that receives them in causal order ends
    with the field deleted, and merging the two states resurrects the field. *)
Theorem counter_field_delete_resurrected :
  exists r1 r2 rm dead stale,
    incr1 = Ret r1 /\ incr2 = Ret r2 /\ hdel2 = Ret rm /\
    deliver_all None [r1; r2; rm] = Ret (Some dead) /\
    field_display dead = Ret None /\
    deliver_all None [r1; rm; r2] = Ret (Some stale) /\
    field_display stale = Ret (Some [49]) /\
    merged_bytes dead stale = Ret stale.
Proof.
  exists_result incr1. exists_result incr2. exists_result hdel2.
  exists_result (let! r1 := incr1 in let! r2 := incr2 in let! rm := hdel2 in deliver_all None [r1; r2; rm]).
  exists_result (let! r1 := incr1 in let! r2 := incr2 in let! rm := hdel2 in deliver_all None [r1; rm; r2]).
  split_and!; vm_compute; reflexivity.
Qed.

(** A concurrent SET makes counter convergence depend on the order: the
    counter of node 1 outranks the SET, the counter of node 2 does not.  A
    replica that sees the counters first reads both increments; one that sees
    the SET between them has dropped node 2's increment. *)
Theorem counter_set_race_loses_increment :
  let c1 := crec_bytes (mkCrec (60, 1) 0 (bump (on_base 0 0 0) 1 1)) in
  let c2 := crec_bytes (mkCrec (30, 2) 0 (bump (on_base 0 0 0) 2 1)) in
  let set := reg_bytes (Envelope_new RString 50 3, [55]) in
  exists x y,
    deliver_all None [c1; c2; set] = Ret (Some x) /\ deliver_all None [c2; set; c1] = Ret (Some y) /\
    (CounterState_decode (drop ENVELOPE_LEN x) ≫= value) = Some 2 /\
    (CounterState_decode (drop ENVELOPE_LEN y) ≫= value) = Some 1.
Proof.
  intros c1 c2 set. exists_result (deliver_all None [c1; c2; set]). exists_result (deliver_all None [c2; set; c1]).
  split_and!; vm_compute; reflexivity.
Qed.
