(* ===== verification/Score.v ===== *)
(** * Order-preserving score encoding ([crates/marekvs-core/src/score.rs])

    An [f64] is its 64-bit pattern ([to_bits]).  [f64_value] is the number a
    pattern stands for, scaled by 2^1074 so that it is an integer; infinities
    get a magnitude above every finite one (NaN is rejected before a score is
    encoded). *)

From S2P Require Import Prelude.

(** [f == 0.0]: both zeros. *)
Definition is_zero (bits : Z) : bool := wrap 63 bits =? 0.

Definition encode_score (f : Z) : Z :=
  let bits := if is_zero f then 0 else f in
  if Z.shiftr bits 63 =? 1 then Z.lxor bits (2 ^ 64 - 1) else Z.lxor bits (Z.shiftl 1 63).

Definition decode_score (u : Z) : Z :=
  if Z.shiftr u 63 =? 1 then Z.lxor u (Z.shiftl 1 63) else Z.lxor u (2 ^ 64 - 1).

(** ** IEEE 754 binary64 *)

(** Magnitude of the low 63 bits: subnormals, then normals. *)
Definition f64_mag (m : Z) : Z :=
  let e := m / 2 ^ 52 in
  if e =? 0 then m mod 2 ^ 52 else (2 ^ 52 + m mod 2 ^ 52) * 2 ^ (e - 1).
Definition f64_value (bits : Z) : Z :=
  if bits <? 2 ^ 63 then f64_mag bits else - f64_mag (bits - 2 ^ 63).

Lemma f64_mag_mono x y : 0 <= x -> x < y -> f64_mag x < f64_mag y.
Proof.
  intros Hx Hxy. unfold f64_mag.
  pose proof (Z.div_mod x (2 ^ 52) ltac:(lia)). pose proof (Z.mod_pos_bound x (2 ^ 52) ltac:(lia)).
  pose proof (Z.div_mod y (2 ^ 52) ltac:(lia)). pose proof (Z.mod_pos_bound y (2 ^ 52) ltac:(lia)).
  set (ex := x / 2 ^ 52) in *. set (ey := y / 2 ^ 52) in *.
  set (mx := x mod 2 ^ 52) in *. set (my := y mod 2 ^ 52) in *.
  assert (0 <= ex) by (apply Z.div_pos; lia).
  assert (ex < ey \/ ex = ey /\ mx < my) as [He|[-> Hm]] by nia.
  - destruct (Z.eqb_spec ey 0); [lia|].
    assert (2 ^ 0 <= 2 ^ (ey - 1)) by (apply Z.pow_le_mono_r; lia).
    destruct (Z.eqb_spec ex 0); [nia|].
    assert (2 ^ (Z.succ (ex - 1)) <= 2 ^ (ey - 1)) by (apply Z.pow_le_mono_r; lia).
    rewrite Z.pow_succ_r in * by lia. assert (0 < 2 ^ (ex - 1)) by (apply Z.pow_pos_nonneg; lia).
    set (P := 2 ^ (ex - 1)) in *. set (Q := 2 ^ (ey - 1)) in *.
    assert ((2 ^ 52 + mx) * P < 2 ^ 53 * P) by nia.
    assert (2 ^ 52 * Q <= (2 ^ 52 + my) * Q) by nia. lia.
  - destruct (Z.eqb_spec ey 0); [assumption|]. assert (0 < 2 ^ (ey - 1)) by (apply Z.pow_pos_nonneg; lia).
    apply Z.mul_lt_mono_pos_r; lia.
Qed.

Lemma f64_mag_nonneg x : 0 <= x -> 0 <= f64_mag x.
Proof.
  intros Hx. unfold f64_mag. pose proof (Z.mod_pos_bound x (2 ^ 52) ltac:(lia)).
  destruct (_ =? 0); [lia|]. assert (0 <= 2 ^ (x / 2 ^ 52 - 1)) by (apply Z.pow_nonneg; lia). nia.
Qed.

(** ** The encoding in closed form *)

Lemma lxor_top b : 0 <= b < 2 ^ 64 ->
  Z.lxor b (Z.shiftl 1 63) = if b <? 2 ^ 63 then b + 2 ^ 63 else b - 2 ^ 63.
Proof.
  intros Hb. destruct (Z.ltb_spec b (2 ^ 63)).
  - rewrite Z.lxor_lor; [rewrite lor_shiftl; lia|].
    apply Z.bits_inj'. intros i Hi. rewrite Z.land_spec, Z.shiftl_spec, Z.testbit_0_l by lia.
    destruct (Z_lt_le_dec i 63).
    + rewrite (Z.testbit_neg_r _ (i - 63)) by lia. apply andb_false_r.
    + rewrite (range_testbit 63 b) by (unfold in_range; lia). reflexivity.
  - replace b with (Z.lxor (b - 2 ^ 63) (Z.shiftl 1 63)) at 1.
    + rewrite Z.lxor_assoc, Z.lxor_nilpotent, Z.lxor_0_r. reflexivity.
    + rewrite Z.lxor_lor; [rewrite lor_shiftl; lia|].
      apply Z.bits_inj'. intros i Hi. rewrite Z.land_spec, Z.shiftl_spec, Z.testbit_0_l by lia.
      destruct (Z_lt_le_dec i 63).
      * rewrite (Z.testbit_neg_r _ (i - 63)) by lia. apply andb_false_r.
      * rewrite (range_testbit 63) by (unfold in_range; lia). reflexivity.
Qed.

Lemma lxor_ones b : 0 <= b < 2 ^ 64 -> Z.lxor b (2 ^ 64 - 1) = 2 ^ 64 - 1 - b.
Proof.
  intros Hb. replace (2 ^ 64 - 1 - b) with (Z.land (Z.lnot b) (Z.ones 64)).
  - apply Z.bits_inj'. intros i Hi. change (2 ^ 64 - 1) with (Z.ones 64).
    rewrite Z.lxor_spec, Z.land_spec, Z.lnot_spec, Z.testbit_ones_nonneg by lia.
    destruct (Z.ltb_spec i 64); [destruct (Z.testbit b i); reflexivity|].
    rewrite (range_testbit 64 b) by (assumption || lia). reflexivity.
  - rewrite Z.land_ones by lia. unfold Z.lnot. symmetry. apply (Z.mod_unique _ _ (-1)); lia.
Qed.

Lemma shiftr_63 b : 0 <= b < 2 ^ 64 -> (Z.shiftr b 63 =? 1) = negb (b <? 2 ^ 63).
Proof.
  intros Hb. rewrite Z.shiftr_div_pow2 by lia.
  destruct (Z.ltb_spec b (2 ^ 63)); simpl.
  - rewrite Z.div_small by lia. reflexivity.
  - replace (b / 2 ^ 63) with 1; [reflexivity|]. apply (Z.div_unique _ _ _ (b - 2 ^ 63)); lia.
Qed.

Lemma is_zero_spec b : 0 <= b < 2 ^ 64 -> is_zero b = (b =? 0) || (b =? 2 ^ 63).
Proof.
  intros Hb. unfold is_zero, wrap.
  destruct (Z_lt_le_dec b (2 ^ 63)).
  - rewrite Z.mod_small by lia. destruct (Z.eqb_spec b (2 ^ 63)); [lia|]. rewrite orb_false_r. reflexivity.
  - replace (b mod 2 ^ 63) with (b - 2 ^ 63) by (apply (Z.mod_unique _ _ 1); lia).
    destruct (Z.eqb_spec b 0); [lia|]. simpl.
    destruct (Z.eqb_spec (b - 2 ^ 63) 0), (Z.eqb_spec b (2 ^ 63)); try lia; reflexivity.
Qed.

Lemma encode_score_eq b : u64 b ->
  encode_score b = if b =? 2 ^ 63 then 2 ^ 63 else if b <? 2 ^ 63 then b + 2 ^ 63 else 2 ^ 64 - 1 - b.
Proof.
  unfold u64, in_range. intros Hb. unfold encode_score. rewrite is_zero_spec by assumption.
  destruct (Z.eqb_spec b (2 ^ 63)) as [->|Hne]; [reflexivity|]. rewrite orb_false_r.
  destruct (Z.eqb_spec b 0) as [->|]; [reflexivity|].
  rewrite shiftr_63, lxor_ones, lxor_top by assumption. destruct (b <? 2 ^ 63); reflexivity.
Qed.

Lemma decode_score_eq u : u64 u -> decode_score u = if u <? 2 ^ 63 then 2 ^ 64 - 1 - u else u - 2 ^ 63.
Proof.
  unfold u64, in_range. intros Hu. unfold decode_score.
  rewrite shiftr_63, lxor_ones, lxor_top by assumption. destruct (u <? 2 ^ 63); reflexivity.
Qed.

(** The signed rank of a pattern, with both zeros at 0: the encoding and the
    numeric value are both strictly increasing in it. *)
Definition f64_rank (b : Z) : Z := if b <? 2 ^ 63 then b else 2 ^ 63 - b.
Definition rank_value (s : Z) : Z := if 0 <=? s then f64_mag s else - f64_mag (- s).
Definition rank_code (s : Z) : Z := if 0 <=? s then s + 2 ^ 63 else s + 2 ^ 63 - 1.

Lemma mono_compare (f : Z -> Z) : (forall x y, x < y -> f x < f y) -> forall x y, (f x ?= f y) = (x ?= y).
Proof.
  intros Hf x y. destruct (Z.compare_spec x y) as [->|H|H]; [apply Z.compare_refl|..].
  - apply Z.compare_lt_iff, Hf, H.
  - apply Z.compare_gt_iff, Hf, H.
Qed.

Lemma rank_value_mono x y : x < y -> rank_value x < rank_value y.
Proof.
  intros H. unfold rank_value. destruct (Z.leb_spec 0 x), (Z.leb_spec 0 y); try lia.
  - apply f64_mag_mono; lia.
  - pose proof (f64_mag_nonneg y ltac:(lia)). pose proof (f64_mag_mono 0 (- x) ltac:(lia) ltac:(lia)).
    change (f64_mag 0) with 0 in *. lia.
  - pose proof (f64_mag_mono (- y) (- x) ltac:(lia) ltac:(lia)). lia.
Qed.

Lemma rank_code_mono x y : x < y -> rank_code x < rank_code y.
Proof. unfold rank_code. destruct (Z.leb_spec 0 x), (Z.leb_spec 0 y); lia. Qed.

Lemma f64_value_rank b : u64 b -> f64_value b = rank_value (f64_rank b).
Proof.
  unfold u64, in_range, f64_value, rank_value, f64_rank. intros Hb. destruct (Z.ltb_spec b (2 ^ 63)).
  - destruct (Z.leb_spec 0 b); [reflexivity|lia].
  - destruct (Z.leb_spec 0 (2 ^ 63 - b)).
    + replace (b - 2 ^ 63) with 0 by lia. replace (2 ^ 63 - b) with 0 by lia. reflexivity.
    + do 2 f_equal. lia.
Qed.

Lemma encode_score_rank b : u64 b -> encode_score b = rank_code (f64_rank b).
Proof.
  intros Hb. rewrite encode_score_eq by assumption. unfold u64, in_range, rank_code, f64_rank in *.
  destruct (Z.eqb_spec b (2 ^ 63)), (Z.ltb_spec b (2 ^ 63)); try lia.
  - destruct (Z.leb_spec 0 (2 ^ 63 - b)); lia.
  - destruct (Z.leb_spec 0 b); lia.
  - destruct (Z.leb_spec 0 (2 ^ 63 - b)); lia.
Qed.

Lemma encode_score_u64 b : u64 b -> u64 (encode_score b).
Proof.
  intros Hb. rewrite encode_score_eq by assumption. unfold u64, in_range in *.
  destruct (Z.eqb_spec b (2 ^ 63)), (Z.ltb_spec b (2 ^ 63)); lia.
Qed.

(** Score keys sort numerically: for any two scores (zeros of either sign,
    subnormals and infinities included), [memcmp] order of the encoded
    big-endian keys is the numeric order of the scores. *)
Theorem score_order_preserved a b : u64 a -> u64 b ->
  bytes_cmp (be_bytes 8 (encode_score a)) (be_bytes 8 (encode_score b)) = (f64_value a ?= f64_value b).
Proof.
  intros Ha Hb. rewrite be_bytes_cmp by (apply encode_score_u64; assumption).
  rewrite !encode_score_rank, !f64_value_rank by assumption.
  rewrite (mono_compare rank_code rank_code_mono), (mono_compare rank_value rank_value_mono). reflexivity.
Qed.

(** -1.5 sorts below +0.0, which equals -0.0. *)
Lemma score_order_preserved_witness :
  bytes_cmp (be_bytes 8 (encode_score 0xBFF8000000000000)) (be_bytes 8 (encode_score 0)) = Lt /\
  bytes_cmp (be_bytes 8 (encode_score (2 ^ 63))) (be_bytes 8 (encode_score 0)) = Eq.
Proof.
  split; rewrite score_order_preserved by (unfold u64, in_range; lia); vm_compute; reflexivity.
Defined.

(** Score round trip: decoding an encoded score gives the score back, with
    -0.0 normalized to +0.0; in the other direction every 64-bit key except the
    unused code of -0.0 is the encoding of its decoding. *)
Theorem score_roundtrip :
  (forall f, u64 f -> decode_score (encode_score f) = if f =? 2 ^ 63 then 0 else f) /\
  (forall u, u64 u -> u <> 2 ^ 63 - 1 -> encode_score (decode_score u) = u).
Proof.
  split.
  - intros f Hf. rewrite decode_score_eq by (apply encode_score_u64; assumption).
    rewrite encode_score_eq by assumption. unfold u64, in_range in Hf.
    destruct (Z.eqb_spec f (2 ^ 63)); [reflexivity|]. destruct (Z.ltb_spec f (2 ^ 63)).
    + destruct (Z.ltb_spec (f + 2 ^ 63) (2 ^ 63)); lia.
    + destruct (Z.ltb_spec (2 ^ 64 - 1 - f) (2 ^ 63)); lia.
  - intros u Hu Hne. rewrite decode_score_eq by assumption. unfold u64, in_range in Hu.
    destruct (Z.ltb_spec u (2 ^ 63)); rewrite encode_score_eq by (unfold u64, in_range; lia).
    + destruct (Z.eqb_spec (2 ^ 64 - 1 - u) (2 ^ 63)); [lia|].
      destruct (Z.ltb_spec (2 ^ 64 - 1 - u) (2 ^ 63)); lia.
    + destruct (Z.eqb_spec (u - 2 ^ 63) (2 ^ 63)); [lia|].
      destruct (Z.ltb_spec (u - 2 ^ 63) (2 ^ 63)); lia.
Qed.

Lemma score_roundtrip_witness : decode_score (encode_score 0x3FF8000000000000) = 0x3FF8000000000000.
Proof. rewrite (proj1 score_roundtrip) by (unfold u64, in_range; lia). reflexivity. Defined.
