(* ===== verification/F64.v ===== *)
(** * Doubles ([f64])

    The IEEE 754 operations the commands use on scores, on bit patterns:
    comparisons through the exact value ([Score.f64_value], which orders the
    infinities outside all finite numbers), addition through the Standard
    Library's specification of binary64. *)

From Stdlib Require Import Floats.SpecFloat.
From S2P Require Import Prelude Score.

Definition is_nan (b : Z) : bool := 0x7FF0000000000000 <? wrap 63 b.

(** [==], [<] and [<=]: false as soon as one side is NaN. *)
Definition f64_cmp (test : Z -> Z -> bool) (a b : Z) : bool :=
  negb (is_nan a) && negb (is_nan b) && test (f64_value a) (f64_value b).
Definition f64_eqb : Z -> Z -> bool := f64_cmp Z.eqb.
Definition f64_ltb : Z -> Z -> bool := f64_cmp Z.ltb.
Definition f64_leb : Z -> Z -> bool := f64_cmp Z.leb.

Definition f64_decode (b : Z) : spec_float :=
  let sign := Z.testbit b 63 in
  let e := wrap 63 b / 2 ^ 52 in
  let m := b mod 2 ^ 52 in
  if e =? 2047 then (if m =? 0 then S754_infinity sign else S754_nan)
  else if e =? 0 then match m with Zpos p => S754_finite sign p (-1074) | _ => S754_zero sign end
  else match m + 2 ^ 52 with Zpos p => S754_finite sign p (e - 1075) | _ => S754_nan end.

Definition f64_encode (x : spec_float) : Z :=
  let sign (s : bool) := if s then 2 ^ 63 else 0 in
  match x with
  | S754_zero s => sign s
  | S754_infinity s => sign s + 2047 * 2 ^ 52
  | S754_nan => 0x7FF8000000000000
  | S754_finite s m e =>
      if Zpos m <? 2 ^ 52 then sign s + Zpos m else sign s + (e + 1075) * 2 ^ 52 + (Zpos m - 2 ^ 52)
  end.

Definition f64_add (a b : Z) : Z := f64_encode (SFadd 53 1024 (f64_decode a) (f64_decode b)).

(** 1.5 + 2.25 = 3.75, a subnormal sum, and infinity - infinity. *)
Example f64_add_examples :
  f64_add 0x3FF8000000000000 0x4002000000000000 = 0x400E000000000000 /\ f64_add 1 2 = 3 /\
  is_nan (f64_add 0x7FF0000000000000 0xFFF0000000000000) = true /\ f64_eqb 0 (2 ^ 63) = true.
Proof. vm_compute. auto. Qed.

(** Equal doubles have the same score code. *)
Lemma f64_eqb_code a b : u64 a -> u64 b -> f64_eqb a b = true -> encode_score a = encode_score b.
Proof.
  intros Ha Hb E. apply andb_true_iff in E as [_ E]. apply Z.eqb_eq in E.
  rewrite (f64_value_rank a Ha), (f64_value_rank b Hb) in E. rewrite (encode_score_rank a Ha), (encode_score_rank b Hb). f_equal.
  apply Z.compare_eq. rewrite <- (mono_compare rank_value rank_value_mono). rewrite E. apply Z.compare_refl.
Qed.
