(* ===== verification/BudgetCore.v ===== *)
(** * Budget records ([crates/marekvs-core/src/budget.rs])

    Codecs of the three record shapes behind the [BG.*] commands (head state,
    escrow slot, reservation token), the client-facing token id, and
    [merge_budget]: pointwise maximum for slots, the rank lattice for tokens. *)

From S2P Require Import Prelude Envelope Ikey Lattice Merge.

Definition MODE_POOL : Z := 0.
Definition MODE_WINDOW : Z := 1.
Definition RANK_OPEN : Z := 0.
Definition RANK_CLOSING : Z := 1.
Definition RANK_FOLDED : Z := 2.
Definition STATE_OPEN : Z := 0.
Definition STATE_COMMITTED : Z := 1.
Definition STATE_RELEASED : Z := 2.
Definition STATE_EXPIRED : Z := 3.
Definition HEAD_VER : Z := 1.
Definition TOKEN_VER : Z := 1.

(** ** Token ids *)

Record TokenId := mkTokenId { tk_gen : Z; tk_hlc : Z; tk_node : Z; tk_epoch : Z }.

Definition hex_char (d : Z) : Z := if d <? 10 then 48 + d else 87 + d.

(** [{:x}]: lowercase hex without leading zeros; sixteen digits hold a [u64]. *)
Fixpoint hex_loop (fuel : nat) (v : Z) (acc : bytes) : bytes :=
  match fuel with
  | O => acc
  | S fuel =>
      let acc := hex_char (v mod 16) :: acc in
      if v / 16 =? 0 then acc else hex_loop fuel (v / 16) acc
  end.
Definition to_hex (v : Z) : bytes := hex_loop 16 v [].

Definition TokenId_format (t : TokenId) : bytes :=
  to_hex (tk_gen t) ++ [45] ++ to_hex (tk_hlc t) ++ [45] ++ to_hex (tk_node t) ++ [45] ++ to_hex (tk_epoch t).

Definition hex_digit (c : Z) : option Z :=
  if (48 <=? c) && (c <=? 57) then Some (c - 48)
  else if (97 <=? c) && (c <=? 102) then Some (c - 87)
  else if (65 <=? c) && (c <=? 70) then Some (c - 55)
  else None.

(** [uN::from_str_radix(s, 16)]: one optional leading [+], at least one digit,
    overflow is an error. *)
Fixpoint hex_digits (w : Z) (acc : Z) (s : bytes) : option Z :=
  match s with
  | [] => Some acc
  | c :: s =>
      match hex_digit c with
      | None => None
      | Some d => if acc * 16 + d <? 2 ^ w then hex_digits w (acc * 16 + d) s else None
      end
  end.
Definition from_hex (w : Z) (s : bytes) : option Z :=
  match s with
  | [] => None
  | [43] => None
  | 43 :: s => hex_digits w 0 s
  | s => hex_digits w 0 s
  end.

(** [s.split('-')]. *)
Fixpoint split_dash (s : bytes) : list bytes :=
  match s with
  | [] => [[]]
  | c :: s =>
      match split_dash s with
      | [] => [[c]]
      | w :: ws => if c =? 45 then [] :: w :: ws else (c :: w) :: ws
      end
  end.

(** A byte that is not ASCII is no hex digit, so the UTF-8 check rejects
    nothing more. *)
Definition TokenId_parse (s : bytes) : option TokenId :=
  match split_dash s with
  | [g; h; n; e] =>
      match from_hex 64 g, from_hex 64 h, from_hex 16 n, from_hex 64 e with
      | Some g, Some h, Some n, Some e => Some (mkTokenId g h n e)
      | _, _, _, _ => None
      end
  | _ => None
  end.

(** ** Head state *)

Record HeadState := mkHead {
  op_seq : Z; hgen : Z; hmode : Z; period_ms : Z; capacity : Z; max_amount : Z;
  default_ttl_ms : Z; max_ttl_ms : Z;
  alloc : list (Z * Z);
  fence : list (Z * Z);
}.

Definition alloc_for (st : HeadState) (node : Z) : Z :=
  match find (fun e => e.1 =? node) (alloc st) with Some e => e.2 | None => 0 end.
Definition is_fenced (st : HeadState) (node : Z) : bool := existsb (fun e => e.1 =? node) (fence st).
Definition alloc_total (st : HeadState) : Z := fold_right (fun e acc => e.2 + acc) 0 (alloc st).

Definition encode_entry (e : Z * Z) : bytes := be_bytes 2 e.1 ++ be_bytes 8 e.2.
Definition encode_entries (l : list (Z * Z)) : bytes :=
  [wrap 8 (Z.of_nat (length l))] ++ concat (encode_entry <$> l).

Definition HeadState_encode (st : HeadState) : bytes :=
  [HEAD_VER] ++ be_bytes 8 (op_seq st) ++ be_bytes 8 (hgen st) ++ [hmode st] ++
  be_bytes 8 (period_ms st) ++ be_bytes 8 (capacity st) ++ be_bytes 8 (max_amount st) ++
  be_bytes 8 (default_ttl_ms st) ++ be_bytes 8 (max_ttl_ms st) ++
  encode_entries (alloc st) ++ encode_entries (fence st).

Fixpoint decode_entry_loop (n : nat) (rest : bytes) : list (Z * Z) :=
  match n with
  | O => []
  | S n => (of_be (slice 0 2 rest), of_be (slice 2 10 rest)) :: decode_entry_loop n (drop 10 rest)
  end.

(** A count byte and that many ten-byte entries. *)
Definition decode_entries (tail : bytes) : option (list (Z * Z) * bytes) :=
  match tail with
  | [] => None
  | n :: rest =>
      let n := Z.to_nat n in
      if (length rest <? n * 10)%nat then None
      else Some (decode_entry_loop n rest, drop (n * 10) rest)
  end.

Definition HeadState_decode (tail : bytes) : option HeadState :=
  if (length tail <? 58)%nat || negb (byte_at tail 0 =? HEAD_VER) then None else
  let u64at p := of_be (slice p (p + 8) tail) in
  match decode_entries (drop 58 tail) with
  | None => None
  | Some (alloc, rest) =>
      match decode_entries rest with
      | None => None
      | Some (fence, _) =>
          Some (mkHead (u64at 1%nat) (u64at 9%nat) (byte_at tail 17) (u64at 18%nat) (u64at 26%nat)
                  (u64at 34%nat) (u64at 42%nat) (u64at 50%nat) alloc fence)
      end
  end.

(** ** Slot state *)

Record SlotState := mkSlot { granted : Z; returned : Z }.
#[export] Instance SlotState_eq_dec : EqDecision SlotState.
Proof. solve_decision. Defined.

Definition outstanding (s : SlotState) : Z := saturating_sub (granted s) (returned s).
Definition SlotState_encode (s : SlotState) : bytes := be_bytes 8 (granted s) ++ be_bytes 8 (returned s).
Definition SlotState_decode (payload : bytes) : option SlotState :=
  if (length payload <? 16)%nat then None
  else Some (mkSlot (of_be (slice 0 8 payload)) (of_be (slice 8 16 payload))).
Definition SlotState_join (a b : SlotState) : SlotState :=
  mkSlot (Z.max (granted a) (granted b)) (Z.max (returned a) (returned b)).

(** ** Token state *)

Record TokenState := mkToken {
  rank : Z; tstate : Z; amount : Z; spent : Z; credited : Z; deadline_ms : Z; window : Z; reqid : Z;
}.
#[export] Instance TokenState_eq_dec : EqDecision TokenState.
Proof. solve_decision. Defined.

Definition TokenState_encode (t : TokenState) : bytes :=
  [TOKEN_VER; rank t; tstate t] ++ be_bytes 8 (amount t) ++ be_bytes 8 (spent t) ++
  be_bytes 8 (credited t) ++ be_bytes 8 (deadline_ms t) ++ be_bytes 8 (window t) ++ be_bytes 8 (reqid t).

Definition TokenState_decode (payload : bytes) : option TokenState :=
  if (length payload <? 51)%nat || negb (byte_at payload 0 =? TOKEN_VER) then None else
  let u64at p := of_be (slice p (p + 8) payload) in
  Some (mkToken (byte_at payload 1) (byte_at payload 2) (u64at 3%nat) (u64at 11%nat) (u64at 19%nat)
          (u64at 27%nat) (u64at 35%nat) (u64at 43%nat)).

(** ** Records *)

Definition encode_slot_record (version : version) (ttl : Z) (tomb : bool) (st : SlotState) : bytes :=
  let flags := wrap 8 (Z.shiftl (rtype_u8 RString) 2) in
  let flags := if tomb then Z.lor flags TOMBSTONE else flags in
  encode_with (mkEnvelope flags version.1 version.2 ttl) (SlotState_encode st).

Definition encode_token_record (version : version) (ttl : Z) (st : TokenState) : bytes :=
  let flags := wrap 8 (Z.shiftl (rtype_u8 RString) 2) in
  let flags := if rank st =? RANK_FOLDED then Z.lor flags TOMBSTONE else flags in
  encode_with (mkEnvelope flags version.1 version.2 ttl) (TokenState_encode st).

(** ** Merge *)

Definition merge_budget (kind : Z) (local incoming : bytes) : MergeOutcome :=
  match Envelope_decode local, Envelope_decode incoming with
  | None, _ => TakeIncoming
  | Some _, None => KeepLocal
  | Some (lenv, lpay), Some (ienv, ipay) =>
      if (kind =? BUDGET_SLOT) || (kind =? BUDGET_WINDOW_SLOT) then
        if is_tombstone lenv || is_tombstone ienv then merge_lww lenv ienv else
        match SlotState_decode lpay, SlotState_decode ipay with
        | Some l, Some i =>
            let joined := SlotState_join l i in
            let version := ver_max (env_version lenv) (env_version ienv) in
            outcome_of (encode_slot_record version (winner_ttl lenv ienv) false joined) local incoming
        | _, _ => merge_lww lenv ienv
        end
      else if kind =? BUDGET_TOKEN then
        match TokenState_decode lpay, TokenState_decode ipay with
        | Some l, Some i =>
            match rank l ?= rank i with
            | Gt => KeepLocal
            | Lt => TakeIncoming
            | Eq => merge_lww lenv ienv
            end
        | _, _ => merge_lww lenv ienv
        end
      else merge_lww lenv ienv
  end.

(** What a replica stores after merging a budget element. *)
Definition merged_budget (kind : Z) (local incoming : bytes) : rust bytes :=
  Ret (resolve local incoming (merge_budget kind local incoming)).

(** ** Token id round trip *)

Lemma hex_char_digit d : 0 <= d < 16 -> hex_digit (hex_char d) = Some d /\ hex_char d <> 45 /\ hex_char d <> 43.
Proof.
  intros Hd. assert (d ∈ seqZ 0 16) as Hin by (apply elem_of_seqZ; lia).
  clear Hd. revert d Hin. apply Forall_forall. repeat constructor; done.
Qed.

Lemma hex_loop_app fuel v acc : hex_loop fuel v acc = hex_loop fuel v [] ++ acc.
Proof.
  revert v acc. induction fuel as [|fuel IH]; intros v acc; [reflexivity|]. cbn [hex_loop].
  destruct (v / 16 =? 0); [reflexivity|]. rewrite IH, (IH _ [_]), <- app_assoc. reflexivity.
Qed.

Lemma hex_loop_chars fuel v : 0 <= v -> Forall (fun c => c <> 45 /\ c <> 43) (hex_loop fuel v []).
Proof.
  revert v. induction fuel as [|fuel IH]; intros v Hv; [constructor|]. cbn [hex_loop].
  assert (Hc : hex_char (v mod 16) <> 45 /\ hex_char (v mod 16) <> 43).
  { apply hex_char_digit. apply Z.mod_pos_bound. lia. }
  destruct (v / 16 =? 0); [repeat constructor; apply Hc|].
  rewrite hex_loop_app. apply Forall_app. split; [apply IH, Z.div_pos; lia|repeat constructor; apply Hc].
Qed.

Lemma hex_digits_loop w fuel v s : 0 <= v < 16 ^ Z.of_nat fuel -> v < 2 ^ w -> (0 < fuel)%nat ->
  hex_digits w 0 (hex_loop fuel v [] ++ s) = hex_digits w v s.
Proof.
  intros Hv Hw. revert v s Hv Hw. induction fuel as [|fuel IH]; intros v s Hv Hw Hf; [lia|]. cbn [hex_loop].
  pose proof (Z.div_mod v 16 ltac:(lia)). pose proof (Z.mod_pos_bound v 16 ltac:(lia)).
  destruct (hex_char_digit (v mod 16)) as (Hd & _ & _); [lia|].
  rewrite Nat2Z.inj_succ, Z.pow_succ_r in Hv by lia.
  destruct (Z.eqb_spec (v / 16) 0) as [E|E].
  - cbn [app hex_digits]. rewrite Hd. destruct (Z.ltb_spec (0 * 16 + v mod 16) (2 ^ w)); [|lia].
    f_equal. lia.
  - rewrite hex_loop_app, <- app_assoc. rewrite IH.
    + cbn [app hex_digits]. rewrite Hd. destruct (Z.ltb_spec (v / 16 * 16 + v mod 16) (2 ^ w)); [|lia].
      f_equal. lia.
    + split; [apply Z.div_pos; lia|]. apply Z.div_lt_upper_bound; lia.
    + lia.
    + destruct fuel; [|lia]. simpl in Hv. exfalso. apply E. apply Z.div_small. lia.
Qed.

Lemma hex_loop_not_nil fuel v : hex_loop (S fuel) v [] <> [].
Proof.
  cbn [hex_loop]. destruct (v / 16 =? 0); [discriminate|]. rewrite hex_loop_app.
  intros [_ E]%app_eq_nil. discriminate.
Qed.

Lemma to_hex_head v : 0 <= v -> exists c s, to_hex v = c :: s /\ c <> 43.
Proof.
  intros Hv. pose proof (hex_loop_chars 16 v Hv) as Hc. unfold to_hex.
  destruct (hex_loop 16 v []) as [|c s] eqn:E.
  - destruct (hex_loop_not_nil 15 v E).
  - invert Hc. exists c, s. tauto.
Qed.

Lemma from_hex_to_hex w v : 0 <= v < 2 ^ 64 -> v < 2 ^ w -> from_hex w (to_hex v) = Some v.
Proof.
  intros Hv Hw. destruct (to_hex_head v) as (c & s & E & Hc); [lia|].
  assert (from_hex w (to_hex v) = hex_digits w 0 (to_hex v)) as ->.
  { rewrite E. unfold from_hex. repeat (destruct c as [|c|c]; try reflexivity; try (exfalso; apply Hc; reflexivity)). }
  rewrite <- (app_nil_r (to_hex v)). unfold to_hex. rewrite hex_digits_loop by (assumption || lia). reflexivity.
Qed.

Lemma split_dash_app a b : 45 ∉ a -> split_dash (a ++ 45 :: b) = a :: split_dash b.
Proof.
  induction a as [|c a IH]; intros Hn.
  - cbn. destruct (split_dash b) as [|w ws] eqn:E; [|reflexivity].
    destruct b as [|c b]; cbn in E; [discriminate|]. destruct (split_dash b); [discriminate|]. destruct (c =? 45); discriminate.
  - cbn [app split_dash]. rewrite IH by set_solver. destruct (Z.eqb_spec c 45); [set_solver|reflexivity].
Qed.
Lemma split_dash_none a : 45 ∉ a -> split_dash a = [a].
Proof.
  induction a as [|c a IH]; intros Hn; [reflexivity|]. cbn [split_dash]. rewrite IH by set_solver.
  destruct (Z.eqb_spec c 45); [set_solver|reflexivity].
Qed.

Lemma to_hex_no_dash v : 0 <= v -> 45 ∉ to_hex v.
Proof.
  intros Hv Hin. pose proof (hex_loop_chars 16 v Hv) as Hc. rewrite Forall_forall in Hc.
  destruct (Hc 45 Hin) as [H _]. apply H. reflexivity.
Qed.

Record token_id_ok (t : TokenId) : Prop := {
  tk_gen_u64 : u64 (tk_gen t); tk_hlc_u64 : u64 (tk_hlc t);
  tk_node_u16 : u16 (tk_node t); tk_epoch_u64 : u64 (tk_epoch t);
}.

(** Token ids round trip: the text a client receives for a reservation
    parses back to the same (generation, HLC, node, epoch). *)
Theorem token_id_roundtrip t : token_id_ok t -> TokenId_parse (TokenId_format t) = Some t.
Proof.
  intros [Hg Hh Hn He]. unfold u64, u16, in_range in *. unfold TokenId_parse, TokenId_format. cbn [app].
  rewrite !split_dash_app by (apply to_hex_no_dash; lia).
  rewrite split_dash_none by (apply to_hex_no_dash; lia).
  rewrite !from_hex_to_hex by lia. destruct t; reflexivity.
Qed.

Lemma token_id_roundtrip_witness :
  TokenId_parse (TokenId_format (mkTokenId 255 4096 7 0)) = Some (mkTokenId 255 4096 7 0).
Proof. apply token_id_roundtrip. split; unfold u64, u16, in_range; cbn; lia. Defined.

(** ** Codec round trips *)

Record slot_state_ok (s : SlotState) : Prop := { granted_u64 : u64 (granted s); returned_u64 : u64 (returned s) }.

Lemma SlotState_decode_encode s tail : slot_state_ok s -> SlotState_decode (SlotState_encode s ++ tail) = Some s.
Proof.
  intros [Hg Hr]. unfold SlotState_decode.
  destruct (Nat.ltb_spec (length (SlotState_encode s ++ tail)) 16) as [Hlt|_].
  { rewrite length_app in Hlt. change (length (SlotState_encode s)) with 16%nat in Hlt. lia. }
  change (slice 0 8 (SlotState_encode s ++ tail)) with (be_bytes 8 (granted s)).
  change (slice 8 16 (SlotState_encode s ++ tail)) with (be_bytes 8 (returned s)).
  rewrite !of_be_u64 by assumption. destruct s; reflexivity.
Qed.

Record token_state_ok (t : TokenState) : Prop := {
  rank_u8 : u8 (rank t); tstate_u8 : u8 (tstate t); amount_u64 : u64 (amount t); spent_u64 : u64 (spent t);
  credited_u64 : u64 (credited t); deadline_u64 : u64 (deadline_ms t); window_u64 : u64 (window t);
  reqid_u64 : u64 (reqid t);
}.

Lemma TokenState_decode_encode t : token_state_ok t -> TokenState_decode (TokenState_encode t) = Some t.
Proof.
  intros [H1 H2 H3 H4 H5 H6 H7 H8]. unfold TokenState_decode.
  change (length (TokenState_encode t) <? 51)%nat with false.
  change (byte_at (TokenState_encode t) 0) with TOKEN_VER.
  change (byte_at (TokenState_encode t) 1) with (rank t).
  change (byte_at (TokenState_encode t) 2) with (tstate t).
  rewrite Z.eqb_refl. cbn [orb negb Nat.add].
  change (slice 3 11 (TokenState_encode t)) with (be_bytes 8 (amount t)).
  change (slice 11 19 (TokenState_encode t)) with (be_bytes 8 (spent t)).
  change (slice 19 27 (TokenState_encode t)) with (be_bytes 8 (credited t)).
  change (slice 27 35 (TokenState_encode t)) with (be_bytes 8 (deadline_ms t)).
  change (slice 35 43 (TokenState_encode t)) with (be_bytes 8 (window t)).
  change (slice 43 51 (TokenState_encode t)) with (be_bytes 8 (reqid t)).
  rewrite !of_be_u64 by assumption. destruct t; reflexivity.
Qed.

Definition entry_ok (e : Z * Z) : Prop := u16 e.1 /\ u64 e.2.

Lemma decode_entry_loop_encode l rest : Forall entry_ok l ->
  decode_entry_loop (length l) (concat (encode_entry <$> l) ++ rest) = l /\
  length (concat (encode_entry <$> l)) = (length l * 10)%nat.
Proof.
  induction 1 as [|[n a] l [Hn Ha] _ [IH1 IH2]]; [split; reflexivity|].
  cbn [length decode_entry_loop fmap list_fmap concat]. rewrite length_app.
  change (list_fmap _ _ encode_entry l) with (encode_entry <$> l). rewrite IH2.
  change (length (encode_entry (n, a))) with 10%nat. split; [|lia]. rewrite <- app_assoc.
  set (body := concat (encode_entry <$> l) ++ rest) in *.
  change (slice 0 2 (encode_entry (n, a) ++ body)) with (be_bytes 2 n).
  change (slice 2 10 (encode_entry (n, a) ++ body)) with (be_bytes 8 a).
  change (drop 10 (encode_entry (n, a) ++ body)) with body.
  rewrite of_be_u16, of_be_u64, IH1 by assumption. reflexivity.
Qed.

Lemma decode_encode_entries l rest : Forall entry_ok l -> (length l <= 255)%nat ->
  decode_entries (encode_entries l ++ rest) = Some (l, rest).
Proof.
  intros Hl Hn. destruct (decode_entry_loop_encode l rest Hl) as [H1 H2].
  unfold decode_entries, encode_entries. cbn [app]. unfold wrap.
  rewrite Z.mod_small, Nat2Z.id, H1 by lia.
  destruct (Nat.ltb_spec (length (concat (encode_entry <$> l) ++ rest)) (length l * 10)) as [Hlt|_].
  { rewrite length_app in Hlt. lia. }
  rewrite <- H2, drop_app_length. reflexivity.
Qed.

Record head_state_ok (st : HeadState) : Prop := {
  op_seq_u64 : u64 (op_seq st); hgen_u64 : u64 (hgen st); hmode_u8 : u8 (hmode st);
  period_u64 : u64 (period_ms st); capacity_u64 : u64 (capacity st); max_amount_u64 : u64 (max_amount st);
  default_ttl_u64 : u64 (default_ttl_ms st); max_ttl_u64 : u64 (max_ttl_ms st);
  alloc_ok : Forall entry_ok (alloc st); fence_ok : Forall entry_ok (fence st);
  alloc_len : (length (alloc st) <= 255)%nat; fence_len : (length (fence st) <= 255)%nat;
}.

Lemma HeadState_decode_encode st : head_state_ok st -> HeadState_decode (HeadState_encode st) = Some st.
Proof.
  intros []. unfold HeadState_decode.
  set (tail := encode_entries (alloc st) ++ encode_entries (fence st)).
  assert (exists pre, HeadState_encode st = pre ++ tail /\ length pre = 58%nat /\
    byte_at (pre ++ tail) 0 = HEAD_VER /\ byte_at (pre ++ tail) 17 = hmode st /\
    slice 1 9 (pre ++ tail) = be_bytes 8 (op_seq st) /\ slice 9 17 (pre ++ tail) = be_bytes 8 (hgen st) /\
    slice 18 26 (pre ++ tail) = be_bytes 8 (period_ms st) /\ slice 26 34 (pre ++ tail) = be_bytes 8 (capacity st) /\
    slice 34 42 (pre ++ tail) = be_bytes 8 (max_amount st) /\
    slice 42 50 (pre ++ tail) = be_bytes 8 (default_ttl_ms st) /\
    slice 50 58 (pre ++ tail) = be_bytes 8 (max_ttl_ms st))
    as (pre & -> & Hlen & -> & Hm & H1 & H9 & H18 & H26 & H34 & H42 & H50).
  { exists ([HEAD_VER] ++ be_bytes 8 (op_seq st) ++ be_bytes 8 (hgen st) ++ [hmode st] ++
      be_bytes 8 (period_ms st) ++ be_bytes 8 (capacity st) ++ be_bytes 8 (max_amount st) ++
      be_bytes 8 (default_ttl_ms st) ++ be_bytes 8 (max_ttl_ms st)).
    split; [unfold HeadState_encode; rewrite <- !app_assoc; reflexivity|]. split_and!; reflexivity. }
  destruct (Nat.ltb_spec (length (pre ++ tail)) 58) as [Hlt|_]; [rewrite length_app in Hlt; lia|].
  rewrite Z.eqb_refl. cbn [orb negb Nat.add]. rewrite Hm, H1, H9, H18, H26, H34, H42, H50.
  rewrite <- Hlen, drop_app_length. unfold tail. rewrite decode_encode_entries by assumption.
  rewrite <- (app_nil_r (encode_entries (fence st))), decode_encode_entries by assumption.
  rewrite !of_be_u64 by assumption. destruct st; reflexivity.
Qed.

(** Budget codecs: head, slot and token payloads decode to what was
    encoded (at most 255 allocations and fences, since the counts are bytes). *)
Theorem budget_codecs_roundtrip :
  (forall st, head_state_ok st -> HeadState_decode (HeadState_encode st) = Some st) /\
  (forall s tail, slot_state_ok s -> SlotState_decode (SlotState_encode s ++ tail) = Some s) /\
  (forall t, token_state_ok t -> TokenState_decode (TokenState_encode t) = Some t).
Proof.
  split_and!; [exact HeadState_decode_encode|exact SlotState_decode_encode|exact TokenState_decode_encode].
Qed.

Lemma budget_codecs_roundtrip_witness :
  HeadState_decode (HeadState_encode (mkHead 1 2 0 0 100 0 10 20 [(1, 60); (2, 40)] [(3, 9)])) =
    Some (mkHead 1 2 0 0 100 0 10 20 [(1, 60); (2, 40)] [(3, 9)]) /\
  TokenState_decode (TokenState_encode (mkToken 2 1 10 4 6 99 0 7)) = Some (mkToken 2 1 10 4 6 99 0 7).
Proof.
  split; apply budget_codecs_roundtrip.
  - split; cbn; unfold u64, u8, in_range; try lia; repeat constructor; cbn; lia.
  - split; cbn; unfold u64, u8, in_range; lia.
Defined.

(** ** Merge laws *)

Definition slot_kind (k : Z) : Prop := k = BUDGET_SLOT \/ k = BUDGET_WINDOW_SLOT.

Record srec := mkSrec { sr_ver : version; sr_ttl : Z; sr_st : SlotState }.
Definition srec_bytes (r : srec) : bytes := encode_slot_record (sr_ver r) (sr_ttl r) false (sr_st r).
Definition srec_join (a b : srec) : srec :=
  mkSrec (ver_max (sr_ver a) (sr_ver b)) (if ver_ltb (sr_ver a) (sr_ver b) then sr_ttl b else sr_ttl a)
    (SlotState_join (sr_st a) (sr_st b)).

(** [T] is the TTL each version was written with. *)
Record srec_ok (T : version -> Z) (r : srec) : Prop := {
  so_hlc : u64 (sr_ver r).1; so_origin : u16 (sr_ver r).2; so_ttl : u64 (sr_ttl r);
  so_st : slot_state_ok (sr_st r); so_T : sr_ttl r = T (sr_ver r);
}.

Lemma SlotState_join_ok a b : slot_state_ok a -> slot_state_ok b -> slot_state_ok (SlotState_join a b).
Proof.
  intros [Ga Ra] [Gb Rb]. unfold u64, in_range in *. split; cbn; unfold u64, in_range; lia.
Qed.

Lemma srec_join_ok T a b : srec_ok T a -> srec_ok T b -> srec_ok T (srec_join a b).
Proof.
  intros [] []. split; cbn [srec_join sr_ver sr_ttl sr_st]; unfold ver_max;
    try (destruct (ver_ltb _ _); assumption). apply SlotState_join_ok; assumption.
Qed.

#[export] Instance srec_laws T : JoinLaws (srec_ok T) srec_join.
Proof.
  split; [apply srec_join_ok|..].
  - intros a b [_ _ _ _ Ta] [_ _ _ _ Tb]. unfold srec_join, SlotState_join.
    rewrite Ta, Tb, !ver_max_select, (ver_max_comm (sr_ver b)). do 2 f_equal; lia.
  - intros a b c [_ _ _ _ Ta] [_ _ _ _ Tb] [_ _ _ _ Tc]. unfold srec_join, SlotState_join.
    cbn [sr_ver sr_ttl sr_st granted returned].
    rewrite Ta, Tb, Tc, !ver_max_select, ver_max_assoc. do 2 f_equal; lia.
  - intros a _. unfold srec_join, SlotState_join. rewrite ver_max_idem, ver_ltb_irrefl, !Z.max_id.
    destruct a as [? ? []]; reflexivity.
Qed.

Definition budget_env (folded : bool) (v : version) (ttl : Z) : Envelope :=
  mkEnvelope (element_flags RString folded) v.1 v.2 ttl.

Lemma budget_env_decode folded v ttl pay : u64 v.1 -> u16 v.2 -> u64 ttl ->
  Envelope_decode (encode_with (budget_env folded v ttl) pay) = Some (budget_env folded v ttl, pay) /\
  is_tombstone (budget_env folded v ttl) = folded /\ env_version (budget_env folded v ttl) = v.
Proof.
  intros Hh Ho Ht. split_and!.
  - apply Envelope_decode_encode_with. split; cbn; try assumption. apply element_flags_u8.
  - apply (element_flags_spec RString folded v.1 v.2 ttl).
  - destruct v; reflexivity.
Qed.

#[export] Instance srec_impl T k : slot_kind k -> MergeWith (merged_budget k) (srec_ok T) srec_join srec_bytes.
Proof.
  intros Hk. split; [|apply srec_join_ok]. intros a b [Ha1 Ha2 Ha3 Ha4 _] [Hb1 Hb2 Hb3 Hb4 _].
  unfold merged_budget, merge_budget.
  change (srec_bytes a) with (encode_with (budget_env false (sr_ver a) (sr_ttl a)) (SlotState_encode (sr_st a))).
  change (srec_bytes b) with (encode_with (budget_env false (sr_ver b) (sr_ttl b)) (SlotState_encode (sr_st b))).
  destruct (budget_env_decode false (sr_ver a) (sr_ttl a) (SlotState_encode (sr_st a))) as (-> & Da & Va); try assumption.
  destruct (budget_env_decode false (sr_ver b) (sr_ttl b) (SlotState_encode (sr_st b))) as (-> & Db & Vb); try assumption.
  rewrite Da, Db. rewrite <- (app_nil_r (SlotState_encode (sr_st a))), <- (app_nil_r (SlotState_encode (sr_st b))).
  rewrite !SlotState_decode_encode by assumption.
  assert ((k =? BUDGET_SLOT) || (k =? BUDGET_WINDOW_SLOT) = true) as -> by (destruct Hk; subst; reflexivity).
  cbn [orb]. rewrite resolve_outcome_of. unfold winner_ttl. rewrite Va, Vb. reflexivity.
Qed.

Record trec := mkTrec { tr_ver : version; tr_ttl : Z; tr_st : TokenState }.
Definition trec_bytes (r : trec) : bytes := encode_token_record (tr_ver r) (tr_ttl r) (tr_st r).

(** Rank first, then version. *)
Definition trec_ltb (a b : trec) : bool :=
  match rank (tr_st a) ?= rank (tr_st b) with
  | Lt => true
  | Gt => false
  | Eq => ver_ltb (tr_ver a) (tr_ver b)
  end.

Record trec_ok (r : trec) : Prop := {
  to_hlc : u64 (tr_ver r).1; to_origin : u16 (tr_ver r).2; to_ttl : u64 (tr_ttl r);
  to_st : token_state_ok (tr_st r);
}.

(** [W] is the record each version was written as. *)
Definition trec_in (W : version -> trec) (r : trec) : Prop := trec_ok r /\ r = W (tr_ver r).

#[export] Instance trec_laws W : JoinLaws (trec_in W) (pick trec_ltb).
Proof.
  apply pick_laws; unfold trec_ltb.
  - intros a. rewrite Z.compare_refl. apply ver_ltb_irrefl.
  - intros a b c. destruct (Z.compare_spec (rank (tr_st a)) (rank (tr_st b))),
      (Z.compare_spec (rank (tr_st b)) (rank (tr_st c))), (Z.compare_spec (rank (tr_st a)) (rank (tr_st c)));
      try lia; try discriminate; auto. apply ver_ltb_trans.
  - intros a b [_ Ha] [_ Hb]. rewrite (Z.compare_antisym (rank (tr_st a))).
    destruct (rank (tr_st a) ?= rank (tr_st b)); simpl; auto.
    destruct (ver_ltb_total (tr_ver a) (tr_ver b)) as [|[He|]]; auto.
    right. left. rewrite Ha, Hb, He. reflexivity.
Qed.

Lemma merged_token a b : trec_ok a -> trec_ok b ->
  merged_budget BUDGET_TOKEN (trec_bytes a) (trec_bytes b) = Ret (trec_bytes (pick trec_ltb a b)).
Proof.
  intros [Ha1 Ha2 Ha3 Ha4] [Hb1 Hb2 Hb3 Hb4]. unfold merged_budget, merge_budget.
  set (f r := rank (tr_st r) =? RANK_FOLDED).
  change (trec_bytes a) with (encode_with (budget_env (f a) (tr_ver a) (tr_ttl a)) (TokenState_encode (tr_st a))).
  change (trec_bytes b) with (encode_with (budget_env (f b) (tr_ver b) (tr_ttl b)) (TokenState_encode (tr_st b))).
  destruct (budget_env_decode (f a) (tr_ver a) (tr_ttl a) (TokenState_encode (tr_st a))) as (-> & Da & Va); try assumption.
  destruct (budget_env_decode (f b) (tr_ver b) (tr_ttl b) (TokenState_encode (tr_st b))) as (-> & Db & Vb); try assumption.
  change ((BUDGET_TOKEN =? BUDGET_SLOT) || (BUDGET_TOKEN =? BUDGET_WINDOW_SLOT)) with false.
  change (BUDGET_TOKEN =? BUDGET_TOKEN) with true. cbv iota.
  rewrite !TokenState_decode_encode by assumption. unfold pick, trec_ltb, merge_lww. rewrite Va, Vb.
  destruct (rank (tr_st a) ?= rank (tr_st b)); [destruct (ver_ltb _ _)|..]; reflexivity.
Qed.

#[export] Instance trec_impl W : MergeWith (merged_budget BUDGET_TOKEN) (trec_in W) (pick trec_ltb) trec_bytes.
Proof. split; [intros a b [Ha _] [Hb _]; apply merged_token; assumption|apply jl_closed]. Qed.


(** A fold is final: whatever open or closing record arrives for a folded
    token, whatever its HLC, and in either merge direction, the stored bytes are
    those of the folded record. *)
Theorem budget_fold_is_final f r : trec_ok f -> trec_ok r ->
  rank (tr_st f) = RANK_FOLDED -> rank (tr_st r) < RANK_FOLDED ->
  merged_budget BUDGET_TOKEN (trec_bytes f) (trec_bytes r) = Ret (trec_bytes f) /\
  merged_budget BUDGET_TOKEN (trec_bytes r) (trec_bytes f) = Ret (trec_bytes f).
Proof.
  intros Hf Hr Ef Er. rewrite !merged_token by assumption. unfold pick, trec_ltb. rewrite Ef.
  rewrite (proj2 (Z.compare_gt_iff _ _)), (proj2 (Z.compare_lt_iff _ _)) by assumption. split; reflexivity.
Qed.

Lemma budget_fold_is_final_witness :
  let f := mkTrec (5, 1) 0 (mkToken RANK_FOLDED STATE_COMMITTED 10 4 6 99 0 0) in
  let r := mkTrec (900, 2) 0 (mkToken RANK_OPEN STATE_OPEN 10 9 0 99 0 0) in
  merged_budget BUDGET_TOKEN (trec_bytes f) (trec_bytes r) = Ret (trec_bytes f).
Proof.
  intros f r. apply budget_fold_is_final; [| |reflexivity|reflexivity];
    repeat split; cbn; unfold RANK_FOLDED, RANK_OPEN, STATE_COMMITTED, STATE_OPEN; lia.
Defined.

