(* ===== verification/Ring.v ===== *)
(** * The replication ring and its senders ([crates/marekvs-repl/src/ring.rs],
    the sender part of [crates/marekvs-repl/src/lib.rs])

    The ring buffers committed operations under its own sequence numbers; a
    sender keeps one [PeerFlow] per peer and pumps ring entries to it.  Locks
    make every operation here one atomic step: a pump pass is two steps (plan
    under one lock, account under another) because other steps may run in
    between.  Wake-ups, metrics and the stall clock are left out. *)

From S2P Require Import Prelude Partition Hlc Envelope Varint Ikey.

(** ** The ring *)

Definition RING_MAX_BYTES : Z := 128 * 1024 * 1024.
Definition RING_MAX_OPS : Z := 262144.

Record ReplOp := mkReplOp { op_ikey : bytes; op_value : bytes }.
Record RingEntry := mkEntry { e_seq : Z; e_origin : Z; e_op : ReplOp }.
Record Ring := mkRing { rbuf : list RingEntry; rbytes : Z; next_local_seq : Z }.

Definition op_size (op : ReplOp) : Z := Z.of_nat (length (op_ikey op)) + Z.of_nat (length (op_value op)) + 32.

Definition new_starting_at (first_seq : Z) : Ring := mkRing [] 0 (Z.max first_seq 1).

(** The appending loop of [push]. *)
Fixpoint append_ops (origin : Z) (ops : list ReplOp) (r : Ring) : Ring :=
  match ops with
  | [] => r
  | op :: ops =>
      append_ops origin ops
        (mkRing (rbuf r ++ [mkEntry (next_local_seq r) origin op]) (rbytes r + op_size op) (next_local_seq r + 1))
  end.

(** The eviction loop of [push]. *)
Fixpoint evict (buf : list RingEntry) (nbytes : Z) : list RingEntry * Z :=
  match buf with
  | [] => ([], nbytes)
  | e :: buf' =>
      if (RING_MAX_BYTES <? nbytes) || (RING_MAX_OPS <? Z.of_nat (length buf))
      then evict buf' (nbytes - op_size (e_op e)) else (buf, nbytes)
  end.

Definition push (origin : Z) (ops : list ReplOp) (r : Ring) : Ring :=
  let r := append_ops origin ops r in
  let '(buf, nbytes) := evict (rbuf r) (rbytes r) in
  mkRing buf nbytes (next_local_seq r).

Definition first_seq (r : Ring) : Z := match rbuf r with e :: _ => e_seq e | [] => next_local_seq r end.

Definition read_after (r : Ring) (after : Z) (max : nat) : list RingEntry * bool :=
  (take max (List.filter (fun e => after <? e_seq e) (rbuf r)), after + 1 <? first_seq r).

Definition occupancy (r : Ring) : Z * Z := (Z.of_nat (length (rbuf r)), rbytes r).

Definition last_seq (r : Ring) : Z := match last (rbuf r) with Some e => e_seq e | None => next_local_seq r - 1 end.

(** ** Per-peer flow *)

Definition BATCH_MAX_OPS : nat := 256.
Definition BATCH_MAX_BYTES : Z := 1024 * 1024.

Record PeerFlow := mkFlow { sent : Z; acked : Z; inflight : list (Z * Z); inflight_bytes : Z }.

Definition flow_at (seq : Z) : PeerFlow := mkFlow seq seq [] 0.
Definition window_full (window : Z) (f : PeerFlow) : bool := window <=? inflight_bytes f.
Definition on_send (last_seq nbytes : Z) (f : PeerFlow) : PeerFlow :=
  mkFlow last_seq (acked f) (inflight f ++ [(last_seq, nbytes)]) (inflight_bytes f + nbytes).

Fixpoint drain (acked : Z) (l : list (Z * Z)) (nbytes : Z) : list (Z * Z) * Z :=
  match l with
  | [] => ([], nbytes)
  | (s, b) :: l' => if s <=? acked then drain acked l' (nbytes - b) else (l, nbytes)
  end.

Definition on_ack (seq : Z) (f : PeerFlow) : PeerFlow :=
  let seq := Z.min seq (sent f) in
  let a := if acked f <? seq then seq else acked f in
  let '(l, b) := drain a (inflight f) (inflight_bytes f) in
  mkFlow (sent f) a l b.

Definition clear_inflight (f : PeerFlow) : PeerFlow := mkFlow (sent f) (acked f) [] 0.

(** ** The pump *)

(** What a pass reads of the cluster view and the interest table for a peer. *)
Record PumpView := mkView {
  v_owners : Z -> list Z;            (** [view.owners(pid, n)] *)
  v_h1 : Z -> option Z;              (** [view.h1(pid, n)] *)
  v_others : bool;                   (** some member is not this node *)
  v_subscribed : Z -> bytes -> bool; (** the peer's unexpired interest *)
}.

Inductive Decision := Skip | Defer | Ship.

Section pump.
Context (self peer : Z).

Definition decision (v : PumpView) (e : RingEntry) : rust Decision :=
  let! p := parse (op_ikey (e_op e)) in
  Ret match p with
  | None => Skip
  | Some p =>
      let owners := v_owners v (pk_pid p) in
      if bool_decide (owners = []) || bool_decide (owners = [self]) then
        if v_others v then Defer else Skip
      else
        let is_h1 := bool_decide (v_h1 v (pk_pid p) = Some self) in
        let home := (e_origin e =? self) && bool_decide (peer ∈ owners) && negb (peer =? self) in
        let fan := is_h1 && negb (e_origin e =? peer) && negb (bool_decide (peer ∈ owners)) &&
                   v_subscribed v (pk_pid p) (pk_userkey p) in
        if home || fan then Ship else Skip
  end.

Definition wire_bytes (op : ReplOp) : Z := Z.of_nat (length (op_ikey op)) + Z.of_nat (length (op_value op)).

(** The walk over the entries read: the new cursor, the operations to ship and
    their bytes. *)
Fixpoint pump_walk (v : PumpView) (es : list RingEntry) (cursor : Z) (ops : list ReplOp) (nbytes : Z)
    : rust (Z * list ReplOp * Z) :=
  match es with
  | [] => Ret (cursor, ops, nbytes)
  | e :: es =>
      let! d := decision v e in
      match d with
      | Skip => pump_walk v es (e_seq e) ops nbytes
      | Defer => Ret (cursor, ops, nbytes)
      | Ship =>
          let ops := ops ++ [e_op e] in
          let nbytes := nbytes + wire_bytes (e_op e) in
          if BATCH_MAX_BYTES <=? nbytes then Ret (e_seq e, ops, nbytes) else pump_walk v es (e_seq e) ops nbytes
      end
  end.

(** A pass that has read the ring and released the lock. *)
Record Plan := mkPlan { pl_cursor : Z; pl_new : Z; pl_ops : list ReplOp; pl_bytes : Z; pl_gap : bool }.

Definition pump_plan (v : PumpView) (window : Z) (r : Ring) (f : PeerFlow) : rust (option Plan) :=
  if window_full window f then Ret None else
  if last_seq r <=? sent f then Ret None else
  let '(entries, gap) := read_after r (sent f) BATCH_MAX_OPS in
  match entries with
  | [] => Ret None
  | _ =>
      let! w := pump_walk v entries (sent f) [] 0 in
      let '(new, ops, nbytes) := w in
      Ret (Some (mkPlan (sent f) new ops nbytes gap))
  end.

(** Accounting after the send; [sent_ok] is what the writer queue answered. *)
Definition pump_finish (p : Plan) (sent_ok : bool) (f : PeerFlow) : PeerFlow :=
  match pl_ops p with
  | [] => if sent f =? pl_cursor p then mkFlow (pl_new p) (acked f) (inflight f) (inflight_bytes f) else f
  | _ => if sent_ok && (sent f =? pl_cursor p) then on_send (pl_new p) (pl_bytes p) f else f
  end.
End pump.

(** ** The ring holds a suffix of everything pushed *)

(** Entries numbered from [first]. *)
Fixpoint numbered (first : Z) (l : list (Z * ReplOp)) : list RingEntry :=
  match l with [] => [] | x :: l => mkEntry first x.1 x.2 :: numbered (first + 1) l end.

Definition buf_size (l : list RingEntry) : Z := fold_right (fun e acc => op_size (e_op e) + acc) 0 l.

Lemma length_numbered f l : length (numbered f l) = length l.
Proof. revert f. induction l; intros f; cbn; [reflexivity|]. f_equal. auto. Qed.

Lemma numbered_app f l m : numbered f (l ++ m) = numbered f l ++ numbered (f + Z.of_nat (length l)) m.
Proof.
  revert f. induction l as [|x l IH]; intros f; cbn [app numbered length]; [f_equal; lia|].
  rewrite IH. cbn. do 2 f_equal. f_equal. lia.
Qed.

Lemma drop_numbered k f l : drop k (numbered f l) = numbered (f + Z.of_nat (Nat.min k (length l))) (drop k l).
Proof.
  revert k f. induction l as [|x l IH]; intros [|k] f; cbn [numbered drop length Nat.min]; try (f_equal; lia); try reflexivity.
  - rewrite Z.add_0_r. reflexivity.
  - rewrite IH. f_equal. lia.
Qed.

Lemma numbered_seq f l e : e ∈ numbered f l -> f <= e_seq e < f + Z.of_nat (length l).
Proof.
  revert f. induction l as [|x l IH]; intros f; cbn [numbered length]; [set_solver|].
  intros [->|He]%elem_of_cons; [cbn; lia|]. apply IH in He. lia.
Qed.

(** Filtering consecutive numbers is dropping. *)
Lemma filter_numbered after f l :
  List.filter (fun e => after <? e_seq e) (numbered f l) = drop (Z.to_nat (after + 1 - f)) (numbered f l).
Proof.
  revert f. induction l as [|x l IH]; intros f; [destruct (Z.to_nat _); reflexivity|].
  cbn [numbered List.filter e_seq]. destruct (Z.ltb_spec after f).
  - replace (Z.to_nat (after + 1 - f)) with O by lia. cbn [drop]. f_equal. rewrite IH.
    replace (Z.to_nat (after + 1 - (f + 1))) with O by lia. reflexivity.
  - replace (Z.to_nat (after + 1 - f)) with (S (Z.to_nat (after + 1 - (f + 1)))) by lia. cbn [drop]. apply IH.
Qed.

Lemma buf_size_app a b : buf_size (a ++ b) = buf_size a + buf_size b.
Proof. induction a as [|e a IH]; cbn; [reflexivity|]. unfold buf_size in *. lia. Qed.

Lemma op_size_pos op : 0 < op_size op.
Proof. unfold op_size. lia. Qed.

Lemma append_ops_spec origin ops r :
  append_ops origin ops r = mkRing (rbuf r ++ numbered (next_local_seq r) ((fun op => (origin, op)) <$> ops))
    (rbytes r + buf_size (numbered (next_local_seq r) ((fun op => (origin, op)) <$> ops)))
    (next_local_seq r + Z.of_nat (length ops)).
Proof.
  revert r. induction ops as [|op ops IH]; intros r; cbn [append_ops fmap list_fmap numbered length].
  { destruct r as [b n s]. cbn. f_equal; [rewrite app_nil_r; reflexivity|lia|lia]. }
  rewrite IH. cbn [rbuf rbytes next_local_seq fst snd]. f_equal; [rewrite <- app_assoc; reflexivity| |lia].
  cbn. fold (buf_size (numbered (next_local_seq r + 1) ((fun op => (origin, op)) <$> ops))). lia.
Qed.

(** What eviction leaves: a suffix with its size, within both caps. *)
Lemma evict_spec buf nbytes : nbytes = buf_size buf ->
  exists j, evict buf nbytes = (drop j buf, buf_size (drop j buf)) /\ (j <= length buf)%nat /\
    buf_size (drop j buf) <= RING_MAX_BYTES /\ Z.of_nat (length (drop j buf)) <= RING_MAX_OPS.
Proof.
  revert nbytes. induction buf as [|e buf IH]; intros nbytes Hn.
  { exists O. subst. cbn. unfold RING_MAX_BYTES, RING_MAX_OPS. split_and!; [reflexivity|lia|lia|lia]. }
  cbn [evict]. destruct (_ || _) eqn:E.
  - destruct (IH (nbytes - op_size (e_op e))) as (j & Hj & Hl & Hb & Ho); [subst; unfold buf_size; cbn; lia|].
    exists (S j). cbn [drop length]. split_and!; [exact Hj|lia|exact Hb|exact Ho].
  - apply orb_false_iff in E as [E1 E2]. apply Z.ltb_ge in E1, E2. exists O. cbn [drop]. subst. split_and!; auto. lia.
Qed.

(** [log] is everything pushed since the ring was created at [first]; the ring
    is a suffix of it, with exact byte accounting, within both caps. *)
Record ring_inv (first : Z) (log : list (Z * ReplOp)) (r : Ring) : Prop := {
  ri_next : next_local_seq r = first + Z.of_nat (length log);
  ri_buf : exists k, (k <= length log)%nat /\ rbuf r = drop k (numbered first log);
  ri_size : rbytes r = buf_size (rbuf r);
  ri_bytes : rbytes r <= RING_MAX_BYTES;
  ri_ops : Z.of_nat (length (rbuf r)) <= RING_MAX_OPS;
}.

Lemma new_ring_inv first : ring_inv (Z.max first 1) [] (new_starting_at first).
Proof.
  split; cbn; unfold RING_MAX_BYTES, RING_MAX_OPS; try lia. exists O. split; [lia|reflexivity].
Qed.

Lemma push_inv first log r origin ops : ring_inv first log r ->
  ring_inv first (log ++ ((fun op => (origin, op)) <$> ops)) (push origin ops r).
Proof.
  intros [Hn (k & Hk & Hbuf) Hs _ _]. unfold push. rewrite append_ops_spec. cbn [rbuf rbytes next_local_seq].
  set (new := (fun op => (origin, op)) <$> ops).
  assert (Hall : rbuf r ++ numbered (next_local_seq r) new = drop k (numbered first (log ++ new))).
  { rewrite numbered_app, drop_app_le by (rewrite length_numbered; assumption). rewrite Hbuf, Hn. reflexivity. }
  rewrite Hall. destruct (evict_spec (drop k (numbered first (log ++ new)))
    (rbytes r + buf_size (numbered (next_local_seq r) new))) as (j & -> & Hj & Hb & Ho).
  { rewrite <- Hall, buf_size_app, Hs. reflexivity. }
  split; cbn [rbuf rbytes next_local_seq]; try assumption.
  - rewrite length_app. unfold new. rewrite length_fmap. lia.
  - exists (k + j)%nat. rewrite length_drop, length_numbered, length_app in Hj. rewrite length_app, drop_drop.
    split; [lia|reflexivity].
  - reflexivity.
Qed.

Lemma first_seq_spec first log r k : ring_inv first log r -> (k <= length log)%nat -> rbuf r = drop k (numbered first log) ->
  first_seq r = first + Z.of_nat k.
Proof.
  intros [Hn _ _ _ _] Hk Hbuf. unfold first_seq. rewrite Hbuf, drop_numbered.
  destruct (drop k log) as [|x l] eqn:E; cbn [numbered].
  - apply (f_equal length) in E. rewrite length_drop in E. cbn in E. lia.
  - cbn. rewrite Nat.min_l by assumption. reflexivity.
Qed.

(** A read without gap returns exactly the next entries after the cursor. *)
Lemma read_after_spec first log r after max es : ring_inv first log r -> read_after r after max = (es, false) ->
  first <= after + 1 /\ es = take max (drop (Z.to_nat (after + 1 - first)) (numbered first log)).
Proof.
  intros Hr. pose proof Hr as [Hn (k & Hk & Hbuf) _ _ _]. unfold read_after.
  rewrite (first_seq_spec first log r k Hr Hk Hbuf). intros [= <- Hgap]. apply Z.ltb_ge in Hgap. split; [lia|]. f_equal.
  rewrite Hbuf, drop_numbered, filter_numbered, drop_numbered, drop_numbered.
  rewrite Nat.min_l by assumption. rewrite length_drop, drop_drop.
  replace (k + Z.to_nat (after + 1 - (first + Z.of_nat k)))%nat with (Z.to_nat (after + 1 - first)) by lia. f_equal. lia.
Qed.

(** A read flags a gap exactly when an entry after the cursor was evicted, or
    the cursor lies before the ring's first sequence number. *)
Lemma read_after_gap first log r after max : ring_inv first log r ->
  (read_after r after max).2 = true <->
  after + 1 < first \/ exists e, e ∈ numbered first log /\ after < e_seq e /\ e ∉ rbuf r.
Proof.
  intros Hr. pose proof Hr as [Hn (k & Hk & Hbuf) _ _ _]. cbn [read_after snd].
  rewrite (first_seq_spec first log r k Hr Hk Hbuf), Z.ltb_lt. split.
  - intros Hlt. destruct (decide (after + 1 < first)) as [|Hge]; [left; assumption|right].
    destruct (lookup_lt_is_Some_2 log (k - 1)) as [x Hx]; [lia|].
    assert (Hin : numbered first log = numbered first (take k log) ++ numbered (first + Z.of_nat k) (drop k log)).
    { rewrite <- (take_drop k log) at 1. rewrite numbered_app, length_take. f_equal. f_equal. lia. }
    assert (Hlast : exists e, e ∈ numbered first (take k log) /\ e_seq e = first + Z.of_nat k - 1).
    { rewrite <- (take_drop (k - 1) (take k log)), numbered_app, length_take, length_take.
      destruct (drop (k - 1) (take k log)) as [|y l] eqn:E.
      - apply (f_equal length) in E. rewrite length_drop, length_take in E. cbn in E. lia.
      - eexists. split; [apply elem_of_app; right; left|]. cbn. lia. }
    destruct Hlast as (e & He & Hs). exists e. split; [rewrite Hin; apply elem_of_app; auto|]. split; [lia|].
    rewrite Hbuf, drop_numbered. intros Hb%numbered_seq. lia.
  - intros [Hlt|(e & He & Hs & Hno)]; [lia|]. destruct (decide (first + Z.of_nat k <= e_seq e)) as [Hge|]; [|lia].
    exfalso. apply Hno. rewrite Hbuf. apply numbered_seq in He as Hrange.
    rewrite <- (take_drop k (numbered first log)) in He. apply elem_of_app in He as [He|He]; [|exact He].
    rewrite <- (take_drop k log), numbered_app in He. rewrite take_app_le in He by (rewrite length_numbered, length_take; lia).
    rewrite take_ge in He by (rewrite length_numbered, length_take; lia). apply numbered_seq in He. rewrite length_take in He. lia.
Qed.

(** ** One lane: the ring, the flow of one peer, and the wire *)

Inductive lane_event :=
  | EPush (origin : Z) (ops : list ReplOp)     (** a commit or an applied batch *)
  | EPlan (v : PumpView)                       (** the first half of a pump pass *)
  | EFinish (sent_ok : bool)                   (** its second half *)
  | EAck (seq : Z)
  | EResume (seq : Z)                          (** the peer reconnected *)
  | EDisconnect.

(** [ln_base] to [ln_gap] record history since the last [EResume]: its cursor,
    the views used, what went on the wire, and whether a gap was flagged. *)
Record Lane := mkLane {
  ln_ring : Ring; ln_flow : PeerFlow; ln_plan : option Plan;
  ln_log : list (Z * ReplOp); ln_base : Z; ln_views : list PumpView; ln_wire : list ReplOp; ln_gap : bool;
}.

Section lane.
Context (self peer window : Z).

Definition lane_step (s : Lane) (e : lane_event) : rust Lane :=
  let 'mkLane r f p log base views wire gap := s in
  match e with
  | EPush origin ops => Ret (mkLane (push origin ops r) f p (log ++ ((fun op => (origin, op)) <$> ops)) base views wire gap)
  | EPlan v =>
      match p with
      | Some _ => Ret s
      | None => let! p := pump_plan self peer v window r f in Ret (mkLane r f p log base (v :: views) wire gap)
      end
  | EFinish sent_ok =>
      match p with
      | None => Ret s
      | Some p => Ret (mkLane r (pump_finish p sent_ok f) None log base views
                         (if sent_ok then wire ++ pl_ops p else wire) (gap || pl_gap p))
      end
  | EAck seq => Ret (mkLane r (on_ack seq f) p log base views wire gap)
  | EResume seq => Ret (mkLane r (flow_at seq) p log seq (match p with Some _ => views | None => [] end) [] false)
  | EDisconnect => Ret (mkLane r (clear_inflight f) p log base views wire gap)
  end.

Fixpoint lane_run (s : Lane) (es : list lane_event) : rust Lane :=
  match es with [] => Ret s | e :: es => let! s := lane_step s e in lane_run s es end.

(** Handled: shipped, or filtered out by a view the pump used. *)
Definition handled (views : list PumpView) (wire : list ReplOp) (e : RingEntry) : Prop :=
  e_op e ∈ wire \/ exists v, v ∈ views /\ decision self peer v e = Ret Skip.

Lemma handled_mono vs vs' w w' e : vs ⊆ vs' -> w ⊆ w' -> handled vs w e -> handled vs' w' e.
Proof. intros Hv Hw [H1|(v & H1 & H2)]; [left; auto|right; exists v; auto]. Qed.

(** The walk handles a prefix of what it read and leaves the cursor at its end. *)
Lemma pump_walk_spec v es : forall c ops n c' ops' n',
  pump_walk self peer v es c ops n = Ret (c', ops', n') ->
  exists j, (j <= length es)%nat /\ c' = default c (e_seq <$> last (take j es)) /\ ops ⊆ ops' /\
    forall e, e ∈ take j es -> e_op e ∈ ops' \/ decision self peer v e = Ret Skip.
Proof.
  induction es as [|e es IH]; intros c ops n c' ops' n'; cbn [pump_walk].
  { intros [= <- <- <-]. exists O. split_and!; [lia|reflexivity|set_solver|set_solver]. }
  destruct (decision self peer v e) as [d|] eqn:Hd; cbn [rust_bind]; [|discriminate].
  assert (Hstep : forall j x ops1, c' = default (e_seq e) (e_seq <$> last (take j es)) -> ops1 ⊆ ops' ->
    (forall e, e ∈ take j es -> e_op e ∈ ops' \/ decision self peer v e = Ret Skip) ->
    (x ∈ ops1 /\ x = e_op e \/ decision self peer v e = Ret Skip) ->
    c' = default c (e_seq <$> last (take (S j) (e :: es))) /\
    forall e', e' ∈ take (S j) (e :: es) -> e_op e' ∈ ops' \/ decision self peer v e' = Ret Skip).
  { intros j x ops1 Hc Hops Hall Hx. cbn [take]. split.
    - rewrite Hc. destruct (take j es) as [|y l] eqn:E; [reflexivity|]. rewrite last_cons_cons.
      destruct (last (y :: l)) eqn:El; [reflexivity|]. apply last_None in El. discriminate.
    - intros e' [->|He']%elem_of_cons; [|auto]. destruct Hx as [[Hx ->]|]; auto. }
  destruct d.
  - intros Hw. destruct (IH _ _ _ _ _ _ Hw) as (j & Hj & Hc & Ho & Hall).
    destruct (Hstep j (e_op e) ops Hc Ho Hall (or_intror Hd)) as [S1 S2]. exists (S j). split_and!; [cbn; lia|exact S1|exact Ho|exact S2].
  - intros [= <- <- <-]. exists O. split_and!; [lia|reflexivity|set_solver|set_solver].
  - assert (He : e_op e ∈ ops ++ [e_op e]) by set_solver. destruct (_ <=? _).
    + intros [= <- <- <-]. destruct (Hstep O (e_op e) (ops ++ [e_op e]) eq_refl) as [S1 S2]; [reflexivity|set_solver|auto|].
      exists 1%nat. split_and!; [cbn; lia|exact S1|set_solver|exact S2].
    + intros Hw. destruct (IH _ _ _ _ _ _ Hw) as (j & Hj & Hc & Ho & Hall).
      destruct (Hstep j (e_op e) (ops ++ [e_op e]) Hc Ho Hall) as [S1 S2]; [auto|].
      exists (S j). split_and!; [cbn; lia|exact S1|set_solver|exact S2].
Qed.

Lemma take_numbered k f l : take k (numbered f l) = numbered f (take k l).
Proof. revert k f. induction l as [|x l IH]; intros [|k] f; cbn; try reflexivity. rewrite IH. reflexivity. Qed.

Lemma numbered_slice f l e a n : e ∈ numbered f l -> f + Z.of_nat a <= e_seq e -> e_seq e < f + Z.of_nat a + Z.of_nat n ->
  e ∈ take n (drop a (numbered f l)).
Proof.
  intros He H1 H2. rewrite <- (take_drop a (numbered f l)) in He. apply elem_of_app in He as [He|He].
  { rewrite take_numbered in He. apply numbered_seq in He. rewrite length_take in He. lia. }
  rewrite <- (take_drop n (drop a (numbered f l))) in He. apply elem_of_app in He as [He|He]; [exact He|].
  rewrite drop_drop, drop_numbered in He. apply numbered_seq in He. rewrite length_drop in He. lia.
Qed.

Lemma last_numbered f l : l <> [] -> e_seq <$> last (numbered f l) = Some (f + Z.of_nat (length l) - 1).
Proof.
  intros Hl. destruct (exists_last Hl) as (l' & x & ->). rewrite numbered_app. cbn [numbered].
  rewrite last_snoc, length_app. cbn. f_equal. lia.
Qed.

(** A plan without gap covers every entry up to its new cursor. *)
Definition plan_ok (first : Z) (log : list (Z * ReplOp)) (views : list PumpView) (p : Plan) : Prop :=
  pl_new p < first + Z.of_nat (length log) /\
  (pl_gap p = false -> forall e, e ∈ numbered first log -> pl_cursor p < e_seq e <= pl_new p -> handled views (pl_ops p) e).

Lemma read_after_seqs first log r after max e : ring_inv first log r -> e ∈ (read_after r after max).1 ->
  e_seq e < first + Z.of_nat (length log).
Proof.
  intros [_ (k & Hk & Hbuf) _ _ _] He. cbn in He. apply elem_of_take in He as (i & He & _).
  apply list_elem_of_lookup_2, list_elem_of_In, filter_In in He as [He _]. rewrite Hbuf in He.
  apply list_elem_of_In in He. rewrite drop_numbered in He. apply numbered_seq in He. rewrite length_drop in He. lia.
Qed.

Lemma pump_plan_ok first log r f v views p : ring_inv first log r -> sent f < first + Z.of_nat (length log) ->
  pump_plan self peer v window r f = Ret (Some p) -> pl_cursor p = sent f /\ plan_ok first log (v :: views) p.
Proof.
  intros Hr Hsent. unfold pump_plan. destruct (window_full _ _); [discriminate|]. destruct (_ <=? _); [discriminate|].
  destruct (read_after r (sent f) BATCH_MAX_OPS) as [es gap] eqn:Er. destruct es as [|e0 es0] eqn:Ees; [discriminate|].
  rewrite <- Ees in *. destruct (pump_walk self peer v es (sent f) [] 0) as [[[new ops] nb]|] eqn:Ew; [|discriminate].
  cbn [rust_bind]. intros [= <-]. split; [reflexivity|].
  destruct (pump_walk_spec v es _ _ _ _ _ _ Ew) as (j & Hj & Hnew & _ & Hall). split; cbn [pl_new pl_gap pl_cursor pl_ops].
  - rewrite Hnew. destruct (last (take j es)) as [x|] eqn:El; [|exact Hsent]. cbn.
    apply (read_after_seqs first log r (sent f) BATCH_MAX_OPS); [exact Hr|]. rewrite Er. cbn.
    apply last_Some in El as (l' & El). assert (Hx : x ∈ take j es) by (rewrite El; set_solver).
    apply elem_of_take in Hx as (i & Hx & _). eapply list_elem_of_lookup_2, Hx.
  - intros ->. destruct (read_after_spec first log r _ _ _ Hr Er) as [Hf Hes]. intros e He Hrange.
    assert (Hin : e ∈ take j es).
    { rewrite Hes, take_take, drop_numbered, take_numbered in Hnew |- *.
      set (a := Z.to_nat (sent f + 1 - first)) in *. set (n := Nat.min j BATCH_MAX_OPS) in *.
      rewrite Nat.min_l in Hnew |- * by (unfold a; lia).
      destruct (decide (take n (drop a log) = [])) as [E|E]; [rewrite E in Hnew; cbn in Hnew; lia|].
      rewrite (last_numbered _ _ E) in Hnew. cbn [default id] in Hnew.
      rewrite <- take_numbered.
      assert (numbered (first + Z.of_nat a) (drop a log) = drop a (numbered first log)) as -> by
        (rewrite drop_numbered, Nat.min_l by (unfold a; lia); reflexivity).
      rewrite length_take in Hnew. apply numbered_slice; [exact He|unfold a; lia|].
      lia. }
    destruct (Hall e Hin) as [H1|H1]; [left; exact H1|right; exists v; split; [left|exact H1]].
Qed.

Record lane_inv (first : Z) (s : Lane) : Prop := {
  li_ring : ring_inv first (ln_log s) (ln_ring s);
  li_keys : Forall (fun x => parse (op_ikey x.2) <> Panic) (ln_log s);
  li_sent : sent (ln_flow s) < first + Z.of_nat (length (ln_log s));
  li_plan : forall p, ln_plan s = Some p -> plan_ok first (ln_log s) (ln_views s) p;
  li_done : ln_gap s = false -> forall e, e ∈ numbered first (ln_log s) ->
    ln_base s < e_seq e <= sent (ln_flow s) -> handled (ln_views s) (ln_wire s) e;
}.

(** Pushed keys parse; a peer resumes from a sequence number the ring has issued. *)
Definition event_ok (s : Lane) (e : lane_event) : Prop :=
  match e with
  | EPush _ ops => Forall (fun op => parse (op_ikey op) <> Panic) ops
  | EResume seq => seq < next_local_seq (ln_ring s)
  | _ => True
  end.

Lemma numbered_old first log new e b : e ∈ numbered first (log ++ new) -> e_seq e <= b -> b < first + Z.of_nat (length log) ->
  e ∈ numbered first log.
Proof.
  intros He H1 H2. rewrite numbered_app in He. apply elem_of_app in He as [He|He]; [exact He|].
  apply numbered_seq in He. lia.
Qed.

Lemma plan_ok_push first log new views p : plan_ok first log views p -> plan_ok first (log ++ new) views p.
Proof.
  intros [H1 H2]. split; [rewrite length_app; lia|]. intros Hg e He Hr. apply H2; [assumption| |assumption].
  eapply numbered_old; [exact He|apply Hr|exact H1].
Qed.

Lemma plan_ok_views first log views views' p : views ⊆ views' -> plan_ok first log views p -> plan_ok first log views' p.
Proof.
  intros Hv [H1 H2]. split; [exact H1|]. intros Hg e He Hr. eapply handled_mono; [exact Hv|reflexivity|]. auto.
Qed.

Lemma pump_finish_sent p ok f : sent (pump_finish p ok f) = sent f \/
  sent f = pl_cursor p /\ sent (pump_finish p ok f) = pl_new p /\ (ok = true \/ pl_ops p = []).
Proof.
  unfold pump_finish. destruct (pl_ops p) as [|o l].
  - destruct (Z.eqb_spec (sent f) (pl_cursor p)); [right|left]; auto.
  - destruct ok; cbn [andb]; [|left; reflexivity]. destruct (Z.eqb_spec (sent f) (pl_cursor p)); [right|left]; auto.
Qed.

(** Finishing a pass extends the handled stretch by what the pass handled. *)
Lemma finish_inv first r f p log base views wire gap ok :
  lane_inv first (mkLane r f (Some p) log base views wire gap) ->
  lane_inv first (mkLane r (pump_finish p ok f) None log base views (if ok then wire ++ pl_ops p else wire) (gap || pl_gap p)).
Proof.
  intros [Ir Ik Is Ip Id]. cbn in *. destruct (Ip p eq_refl) as [P1 P2].
  assert (Hw : wire ⊆ if ok then wire ++ pl_ops p else wire) by (destruct ok; set_solver).
  split; cbn; [exact Ir|exact Ik| |discriminate|].
  - destruct (pump_finish_sent p ok f) as [->|(_ & -> & _)]; assumption.
  - intros [Hg1 Hg2]%orb_false_iff e He Hr. destruct (decide (e_seq e <= sent f)) as [Hle|Hgt].
    { eapply handled_mono; [reflexivity|exact Hw|]. apply Id; [assumption|assumption|lia]. }
    destruct (pump_finish_sent p ok f) as [E|(E1 & E2 & E3)]; [rewrite E in Hr; lia|].
    destruct (P2 Hg2 e He) as [Hin|Hskip]; [lia| |right; exact Hskip]. left.
    destruct E3 as [->|E3]; [apply elem_of_app; auto|]. rewrite E3 in Hin. apply not_elem_of_nil in Hin as [].
Qed.

Lemma numbered_keys first log e : Forall (fun x => parse (op_ikey x.2) <> Panic) log -> e ∈ numbered first log ->
  parse (op_ikey (e_op e)) <> Panic.
Proof.
  intros Hl. revert first. induction Hl as [|x l Hx Hl IH]; intros first; cbn [numbered]; [set_solver|].
  intros [->|He]%elem_of_cons; [exact Hx|]. eapply IH, He.
Qed.

Lemma pump_walk_total v es : forall c ops n, (forall e, e ∈ es -> parse (op_ikey (e_op e)) <> Panic) ->
  exists w, pump_walk self peer v es c ops n = Ret w.
Proof.
  induction es as [|e es IH]; intros c ops n Hk; cbn [pump_walk]; [eexists; reflexivity|].
  unfold decision. pose proof (Hk e ltac:(left)) as He. destruct (parse (op_ikey (e_op e))) as [q|]; [|congruence]. cbn [rust_bind].
  destruct (match q with None => Skip | Some _ => _ end); [|eexists; reflexivity|destruct (_ <=? _); [eexists; reflexivity|]];
    apply IH; intros; apply Hk; right; assumption.
Qed.

Lemma pump_plan_total first log r f v : ring_inv first log r -> Forall (fun x => parse (op_ikey x.2) <> Panic) log ->
  exists p, pump_plan self peer v window r f = Ret p.
Proof.
  intros [_ (k & Hk & Hbuf) _ _ _] Hkeys. unfold pump_plan. destruct (window_full _ _); [eexists; reflexivity|].
  destruct (_ <=? _); [eexists; reflexivity|]. destruct (read_after r (sent f) BATCH_MAX_OPS) as [es gap] eqn:Er.
  destruct es as [|e0 es0] eqn:Ees; [eexists; reflexivity|]. rewrite <- Ees in *.
  destruct (pump_walk_total v es (sent f) [] 0) as [[[new ops] nb] ->]; [|eexists; reflexivity].
  intros e He. apply (numbered_keys first log); [assumption|]. injection Er as <- _.
  apply elem_of_take in He as (i & He & _). apply list_elem_of_lookup_2, list_elem_of_In, filter_In in He as [He _].
  rewrite Hbuf in He. apply list_elem_of_In in He. rewrite <- (take_drop k (numbered first log)). apply elem_of_app. auto.
Qed.

(** Every legal event is executed and keeps the invariant. *)
Lemma lane_step_inv first s e : lane_inv first s -> event_ok s e ->
  exists s', lane_step s e = Ret s' /\ lane_inv first s'.
Proof.
  intros Hi He. destruct s as [r f p log base views wire gap]. pose proof Hi as [Ir Ik Is Ip Id]. cbn in Ir, Ik, Is, Ip, Id.
  destruct e as [origin ops|v|ok|seq|seq|]; cbn in He |- *.
  - eexists. split; [reflexivity|]. split; cbn; [apply push_inv, Ir| |rewrite length_app; lia| |].
    + apply Forall_app. split; [exact Ik|]. apply Forall_fmap. exact He.
    + intros q Hq. apply plan_ok_push, Ip, Hq.
    + intros Hg e Hin Hr. apply Id; [assumption| |assumption]. eapply numbered_old; [exact Hin|apply Hr|exact Is].
  - destruct p as [p|]; [eexists; split; [reflexivity|exact Hi]|].
    destruct (pump_plan_total first log r f v Ir Ik) as [q Eq]. rewrite Eq. cbn [rust_bind].
    eexists. split; [reflexivity|]. split; cbn; try assumption.
    + intros p ->. eapply pump_plan_ok; eassumption.
    + intros Hg e Hin Hr. eapply handled_mono; [|reflexivity|apply Id; assumption]. set_solver.
  - destruct p as [p|]; eexists; (split; [reflexivity|]); [apply finish_inv, Hi|exact Hi].
  - eexists. split; [reflexivity|].
    assert (Hsent : sent (on_ack seq f) = sent f) by (unfold on_ack; destruct (drain _ _ _); reflexivity).
    split; cbn; rewrite ?Hsent; assumption.
  - eexists. split; [reflexivity|]. split; cbn; [exact Ir|exact Ik|rewrite <- (ri_next _ _ _ Ir); exact He| |intros _ e _; lia].
    destruct p as [p|]; [exact Ip|discriminate].
  - eexists. split; [reflexivity|]. split; assumption.
Qed.

(** A run of legal events. *)
Fixpoint events_ok (s : Lane) (es : list lane_event) : Prop :=
  match es with
  | [] => True
  | e :: es => event_ok s e /\ forall s', lane_step s e = Ret s' -> events_ok s' es
  end.

Lemma lane_run_inv first es : forall s, lane_inv first s -> events_ok s es ->
  exists s', lane_run s es = Ret s' /\ lane_inv first s'.
Proof.
  induction es as [|e es IH]; intros s Hi Hr; cbn; [exists s; auto|].
  destruct Hr as [He Hr]. destruct (lane_step_inv first s e Hi He) as (s1 & E & Hi1). rewrite E. cbn [rust_bind].
  apply IH; [exact Hi1|]. apply Hr, E.
Qed.

Definition lane_start (first seq : Z) : Lane :=
  mkLane (new_starting_at first) (flow_at seq) None [] seq [] [] false.
End lane.


Definition ex_view : PumpView := mkView (fun _ => [1; 2]) (fun _ => Some 1) true (fun _ _ => false).
Definition ex_op (n : Z) : ReplOp := mkReplOp (string_key [n]) [n].
(** Two commits, a failed pass, a pass that ships both, its ack, a reconnect
    that rewinds by one, and the pass that re-serves it. *)
Definition ex_events : list lane_event :=
  [EPush 1 [ex_op 1; ex_op 2]; EPlan ex_view; EFinish false; EPlan ex_view; EFinish true; EAck 6; EResume 5; EPlan ex_view; EFinish true].

