(* ===== verification/Store.v ===== *)
(** * The shard store ([crates/marekvs-engine/src/store.rs])

    Reads, prefix scans and merged writes of one shard thread over the
    key-value engine.  The engine (ondaDB) is not part of this repository: it
    is the class [KV] of operations the code calls, with the documented laws
    of an ordered map in [KVLaws].  Storage calls are taken to succeed; a
    failed read is reported to the client by the dispatch fence and is not
    data.  The physical TTL backstop of a record ([onda_ttl_for]) is longer
    than any visibility decision and is left out.

    A shard runs one job at a time, so its code is sequential: [M] threads the
    store, the HLC word, the pop hints and the reads of the wall clock. *)

From S2P Require Import Prelude Partition Hlc Envelope Ikey Counter Lattice Merge BudgetCore.

(** ** The key-value engine *)

Class KV (DB : Type) := {
  kv_get : DB -> bytes -> option bytes;
  kv_put : DB -> bytes -> bytes -> DB;
  kv_delete : DB -> bytes -> DB;
  (** The pairs an iterator over [lower, upper) visits, in order. *)
  kv_range : DB -> bytes -> option bytes -> list (bytes * bytes);
}.

Definition key_lt (a b : bytes * bytes) : Prop := bytes_cmp a.1 b.1 = Lt.
Definition below (k : bytes) (upper : option bytes) : Prop :=
  match upper with None => True | Some u => bytes_cmp k u = Lt end.

Class KVLaws (DB : Type) `{KV DB} : Prop := {
  kv_get_put db k v k' : kv_get (kv_put db k v) k' = if bytes_eqb k k' then Some v else kv_get db k';
  kv_get_delete db k k' : kv_get (kv_delete db k) k' = if bytes_eqb k k' then None else kv_get db k';
  kv_range_sorted db lower upper : StronglySorted key_lt (kv_range db lower upper);
  kv_range_spec db lower upper k v :
    (k, v) ∈ kv_range db lower upper <->
    kv_get db k = Some v /\ bytes_cmp lower k <> Gt /\ below k upper;
}.

(** ** Shard state *)

Record Shard (DB : Type) := mkShard {
  db : DB;
  hlc_word : Z;
  pop_hints : gmap bytes bytes;
  ticks : nat;
}.
Arguments mkShard {DB}.
Arguments db {DB}.
Arguments hlc_word {DB}.
Arguments pop_hints {DB}.
Arguments ticks {DB}.

Definition M (DB A : Type) : Type := Shard DB -> rust (A * Shard DB).

#[export] Instance M_ret DB : MRet (M DB) := fun A a s => Ret (a, s).
#[export] Instance M_bind DB : MBind (M DB) := fun A B f m s => let! r := m s in f r.1 r.2.

Section store.
Context {DB : Type} `{!KV DB}.
(** The node, its store epoch, and the wall-clock reading (ms) of each tick. *)
Context (node_id epoch : Z) (wall : nat -> Z).

Definition lift {A} (r : rust A) : M DB A := fun s => let! a := r in Ret (a, s).
Definition reads {A} (f : DB -> A) : M DB A := fun s => Ret (f (db s), s).
Definition writes (f : DB -> DB) : M DB unit :=
  fun s => Ret (tt, mkShard (f (db s)) (hlc_word s) (pop_hints s) (ticks s)).

Definition now_ms : M DB Z :=
  fun s => Ret (wall (ticks s), mkShard (db s) (hlc_word s) (pop_hints s) (S (ticks s))).
Definition hlc_now : M DB Z :=
  fun s =>
    let '(w, t) := Hlc_now (hlc_word s) (wall (ticks s)) in
    Ret (t, mkShard (db s) w (pop_hints s) (S (ticks s))).

Definition get_raw (ikey : bytes) : M DB (option bytes) := reads (fun d => kv_get d ikey).
Definition put_raw (ikey value : bytes) : M DB unit := writes (fun d => kv_put d ikey value).
Definition del_raw (ikey : bytes) : M DB unit := writes (fun d => kv_delete d ikey).

(** ** Pop hints *)
Inductive PopHint :=
  | At (k : bytes)
  | Empty.

Definition hint_update (f : gmap bytes bytes -> gmap bytes bytes) : M DB unit :=
  fun s => Ret (tt, mkShard (db s) (hlc_word s) (f (pop_hints s)) (ticks s)).
Definition get_pop_hint (prefix : bytes) : M DB (option PopHint) :=
  fun s => Ret ((fun v => match v with [] => Empty | _ => At v end) <$> pop_hints s !! prefix, s).
Definition set_pop_hint (prefix last_key : bytes) : M DB unit := hint_update (insert prefix last_key).
Definition set_pop_hint_empty (prefix : bytes) : M DB unit := hint_update (insert prefix []).
Definition clear_pop_hint (prefix : bytes) : M DB unit := hint_update (delete prefix).
Definition pop_hint_on_insert (prefix element_key : bytes) : M DB unit :=
  hint_update (fun hints =>
    match hints !! prefix with
    | Some hint =>
        if bytes_eqb hint [] || bytes_ltb element_key hint then <[prefix := element_key]> hints else hints
    | None => hints
    end).

(** ** Scans *)

(** [while let Some(last) = end.last_mut()]: the prefix reversed. *)
Fixpoint upper_bound_rev (r : bytes) : option bytes :=
  match r with
  | [] => None
  | last :: r' => if last =? 255 then upper_bound_rev r' else Some (rev (last + 1 :: r'))
  end.
Definition prefix_upper_bound (prefix : bytes) : option bytes := upper_bound_rev (rev prefix).

(** The iterator loop: [f] folds a pair into the accumulator and says
    whether to go on. *)
Fixpoint scan_loop {S} (prefix : bytes) (f : S -> bytes -> bytes -> rust (S * bool)) (acc : S)
    (l : list (bytes * bytes)) : rust S :=
  match l with
  | [] => Ret acc
  | (k, v) :: l' =>
      if negb (starts_with k prefix) then Ret acc else
      let! r := f acc k v in
      if r.2 then scan_loop prefix f r.1 l' else Ret r.1
  end.

Definition scan_from {S} (start prefix : bytes) (f : S -> bytes -> bytes -> rust (S * bool)) (acc : S) : M DB S :=
  fun s =>
    let! r := scan_loop prefix f acc (kv_range (db s) start (prefix_upper_bound prefix)) in Ret (r, s).
Definition scan_prefix {S} (prefix : bytes) (f : S -> bytes -> bytes -> rust (S * bool)) (acc : S) : M DB S :=
  scan_from prefix prefix f acc.

(** A scan of a command handler, whose callback reads the shard. *)
Fixpoint scan_loop_cmd {S} (prefix : bytes) (f : S -> bytes -> bytes -> M DB (S * bool)) (acc : S)
    (l : list (bytes * bytes)) : M DB S :=
  match l with
  | [] => mret acc
  | (k, v) :: l' =>
      if negb (starts_with k prefix) then mret acc else
      r ← f acc k v;
      if (r.2 : bool) then scan_loop_cmd prefix f r.1 l' else mret r.1
  end.
Definition scan_from_cmd {S} (start prefix : bytes) (f : S -> bytes -> bytes -> M DB (S * bool)) (acc : S) : M DB S :=
  l ← reads (fun d => kv_range d start (prefix_upper_bound prefix)); scan_loop_cmd prefix f acc l.
Definition scan_prefix_cmd {S} (prefix : bytes) (f : S -> bytes -> bytes -> M DB (S * bool)) (acc : S) : M DB S :=
  scan_from_cmd prefix prefix f acc.

(** ** Visibility *)

Definition visible (env : Envelope) (payload : bytes) (del_hlc now : Z) : option bytes :=
  if is_tombstone env || is_expired env now || (hlc env <=? del_hlc) then None else Some payload.

Definition read_lww (ikey : bytes) (del_hlc : Z) : M DB (option (Envelope * bytes)) :=
  v ← get_raw ikey;
  match v ≫= Envelope_decode with
  | None => mret None
  | Some (env, pay) =>
      now ← now_ms;
      mret (match visible env pay del_hlc now with None => None | Some _ => Some (env, pay) end)
  end.

Definition read_element (ikey : bytes) (del_hlc : Z) : M DB (option bytes) :=
  v ← get_raw ikey;
  match v ≫= Envelope_decode with
  | None => mret None
  | Some (env, pay) =>
      now ← now_ms;
      match visible env pay del_hlc now with
      | None => mret None
      | Some _ => lift (element_display_value (rtype env) pay)
      end
  end.

Definition expiry_tombstone (env : Envelope) (payload : bytes) : rust bytes :=
  let rt := rtype env in
  if is_or_element rt then
    let! dots := element_dots payload in
    Ret (element_remove rt (expiry_hlc env) (origin env) dots)
  else Ret (encode_with (Envelope_tombstone rt (expiry_hlc env) (origin env)) []).

(** ** Merged writes *)

(** The merge for the record stored under [ikey]. *)
Definition merge_at (ikey local incoming : bytes) : rust MergeOutcome :=
  let! p := parse ikey in
  match p with
  | Some p =>
      match pk_suffix p with
      | kind :: _ => if pk_tag p =? tag_u8 TBudget then Ret (merge_budget kind local incoming)
                     else merge_values local incoming
      | [] => merge_values local incoming
      end
  | None => merge_values local incoming
  end.

Definition write_merged_checked (ikey incoming : bytes) : M DB bool :=
  local ← get_raw ikey;
  changed ← match local with
    | None => _ ← put_raw ikey incoming; mret true
    | Some local =>
        outcome ← lift (merge_at ikey local incoming);
        match outcome with
        | KeepLocal => mret false
        | _ => _ ← put_raw ikey (resolve local incoming outcome); mret true
        end
    end;
  if (changed : bool) then
    p ← lift (parse ikey);
    match p with
    | Some p =>
        if pk_tag p =? tag_u8 TSetMember then
          let live := match Envelope_decode incoming with Some (e, _) => negb (is_tombstone e) | None => false end in
          if live then
            _ ← pop_hint_on_insert (collection_prefix TSetMember (pk_userkey p)) ikey; mret true
          else mret true
        else mret true
    | None => mret true
    end
  else mret false.

Definition write_merged := write_merged_checked.

(** Blind batched puts. *)
Definition put_many_lww (items : list (bytes * bytes)) : M DB unit :=
  writes (fun d => fold_left (fun d i => kv_put d i.1 i.2) items d).

(** ** Heads and type checks *)

Definition get_head (userkey : bytes) : M DB (option (Envelope * Z * Z)) :=
  v ← get_raw (head_key userkey);
  mret (match v ≫= Envelope_decode with
        | None => None
        | Some (env, pay) =>
            match head_decode pay with None => None | Some (ctype, del) => Some (env, ctype, del) end
        end).

(** The delete clock a record that is gone leaves behind. *)
Definition carried_del (env : Envelope) (del now : Z) : Z :=
  let d := if is_tombstone env then Z.max del (hlc env) else del in
  if is_expired env now then Z.max d (expiry_hlc env) else d.

Definition ensure_head (userkey : bytes) (ctype : Z) : M DB Z :=
  let create (prev : option (Envelope * Z * Z)) : M DB Z :=
    now ← now_ms;
    let prev_del := match prev with None => 0 | Some (env, _, del) => carried_del env del now end in
    h ← hlc_now;
    _ ← write_merged (head_key userkey) (encode_with (Envelope_head h node_id) (head_encode ctype prev_del));
    mret prev_del in
  prev ← get_head userkey;
  match prev with
  | Some (env, t, del) =>
      if (t =? ctype) && negb (is_tombstone env) then
        now ← now_ms;
        if is_expired env now then create prev else mret del
      else create prev
  | None => create prev
  end.

Definition record_live (ikey : bytes) (now : Z) : M DB bool :=
  v ← get_raw ikey;
  mret (match v ≫= Envelope_decode with
        | Some (e, _) => negb (is_tombstone e) && negb (is_expired e now)
        | None => false
        end).

Definition head_live (h : option (Envelope * Z * Z)) (now : Z) : bool :=
  match h with Some (e, _, _) => negb (is_tombstone e) && negb (is_expired e now) | None => false end.

(** [Ok(del_hlc)] is [Some], [Err(())] (WRONGTYPE) is [None]. *)
Definition check_type (userkey : bytes) (want : Z) : M DB (option Z) :=
  now ← now_ms;
  if (want =? 115) || (want =? 108) then
    h ← get_head userkey;
    if head_live h now then mret None else
    blocked ← record_live (if want =? 115 then list_key userkey else string_key userkey) now;
    mret (if (blocked : bool) then None else Some 0)
  else
    s ← record_live (string_key userkey) now;
    if (s : bool) then mret None else
    l ← record_live (list_key userkey) now;
    if (l : bool) then mret None else
    h ← get_head userkey;
    mret (match h with
          | Some (env, t, del) =>
              if head_live h now && negb (t =? want) then None else Some (carried_del env del now)
          | None => Some 0
          end).

Definition ctype_tag (ctype : Z) : option Tag :=
  if ctype =? CTYPE_HASH then Some THashField
  else if ctype =? CTYPE_SET then Some TSetMember
  else if ctype =? CTYPE_ZSET then Some TZsetMember
  else if ctype =? CTYPE_STREAM then Some TStreamEntry
  else if ctype =? CTYPE_HLL then Some THllRegister
  else if ctype =? CTYPE_LIST then Some TListElem
  else if ctype =? CTYPE_JSON then Some TJson
  else None.

Definition collection_nonempty (ctype : Z) (userkey : bytes) (del_hlc : Z) : M DB bool :=
  if (ctype =? CTYPE_BUDGET) || (ctype =? CTYPE_PROTO) then mret true else
  match ctype_tag ctype with
  | None => mret false
  | Some tag =>
      now ← now_ms;
      scan_prefix (collection_prefix tag userkey)
        (fun found _ v =>
          Ret (match Envelope_decode v with
               | Some (env, pay) =>
                   match visible env pay del_hlc now with Some _ => (true, false) | None => (found, true) end
               | None => (found, true)
               end)) false
  end.

Definition key_type (userkey : bytes) : M DB (option Z) :=
  now ← now_ms;
  let shows v := match v ≫= Envelope_decode with
    | Some (env, pay) => bool_decide (is_Some (visible env pay 0 now)) | None => false end in
  s ← get_raw (string_key userkey);
  if shows s then mret (Some 115) else
  h ← get_head userkey;
  found ← match h with
    | Some (env, ctype, del) =>
        if negb (is_tombstone env) && negb (is_expired env now)
        then collection_nonempty ctype userkey del else mret false
    | None => mret false
    end;
  if (found : bool) then mret ((fun h => h.1.2) <$> h) else
  l ← get_raw (list_key userkey);
  mret (if shows l then Some 108 else None).

Definition new_lww (rt : RecordType) (payload : bytes) (ttl : Z) : M DB bytes :=
  h ← hlc_now; mret (encode_with (with_ttl (Envelope_new rt h node_id) ttl) payload).
Definition new_tombstone (rt : RecordType) : M DB bytes :=
  h ← hlc_now; mret (encode_with (Envelope_tombstone rt h node_id) []).

(** ** Deleting a key of any type ([cmd/generic.rs]) *)
Definition del_key_hlc (key : bytes) : M DB (option Z) :=
  t ← key_type key;
  match t with
  | None => mret None
  | Some ctype =>
      h ← hlc_now;
      if ctype =? 115 then
        _ ← write_merged (string_key key) (encode_with (Envelope_tombstone RString h node_id) []);
        mret (Some h)
      else
        let env := mkEnvelope (Z.lor COLLECTION_HEAD TOMBSTONE) h node_id 0 in
        _ ← write_merged (head_key key) (encode_with env (head_encode ctype h));
        mret (Some h)
  end.
Definition del_key (key : bytes) : M DB bool := h ← del_key_hlc key; mret (bool_decide (is_Some h)).
End store.

(** ** The map instance of the engine *)

Definition key_le (a b : bytes * bytes) : Prop := bytes_cmp a.1 b.1 <> Gt.
#[export] Instance key_le_dec : RelDecision key_le.
Proof. intros a b. unfold key_le. destruct (bytes_cmp a.1 b.1); [left|left|right]; congruence. Defined.

Definition in_bounds (lower : bytes) (upper : option bytes) (k : bytes) : bool :=
  match bytes_cmp lower k with Gt => false | _ => true end &&
  match upper with None => true | Some u => bytes_ltb k u end.

#[export] Instance gmap_kv : KV (gmap bytes bytes) := {
  kv_get m k := m !! k;
  kv_put m k v := <[k := v]> m;
  kv_delete m k := delete k m;
  kv_range m lower upper :=
    List.filter (fun e => in_bounds lower upper e.1) (merge_sort key_le (map_to_list m));
}.

#[export] Instance key_le_trans : Transitive key_le.
Proof.
  intros a b c Hab Hbc. unfold key_le in *.
  destruct (bytes_cmp a.1 b.1) eqn:E1; [|destruct (bytes_cmp b.1 c.1) eqn:E2|congruence].
  - apply bytes_cmp_eq in E1. rewrite E1. exact Hbc.
  - apply bytes_cmp_eq in E2. rewrite <- E2, E1. discriminate.
  - rewrite (bytes_cmp_trans _ _ _ E1 E2). discriminate.
  - congruence.
Qed.
#[export] Instance key_le_total : Total key_le.
Proof.
  intros a b. unfold key_le. rewrite (bytes_cmp_antisym a.1 b.1).
  destruct (bytes_cmp a.1 b.1); simpl; [left|left|right]; discriminate.
Qed.
#[export] Instance key_lt_irrefl : Irreflexive key_lt.
Proof. intros a. unfold key_lt, complement. rewrite bytes_cmp_refl. discriminate. Qed.
#[export] Instance key_lt_trans : Transitive key_lt.
Proof. intros a b c. apply bytes_cmp_trans. Qed.

Lemma sorted_le_lt l : NoDup (fst <$> l) -> StronglySorted key_le l -> StronglySorted key_lt l.
Proof.
  intros Hnd Hs. induction Hs as [|x l Hs IH Hf]; [constructor|]. cbn in Hnd. apply NoDup_cons in Hnd as [Hx Hnd].
  constructor; [auto|]. rewrite Forall_forall in Hf |- *. intros y Hy. specialize (Hf y Hy).
  unfold key_le, key_lt in *. destruct (bytes_cmp x.1 y.1) eqn:E; [|reflexivity|congruence].
  apply bytes_cmp_eq in E. exfalso. apply Hx. rewrite E. apply list_elem_of_fmap. eauto.
Qed.

Lemma List_filter_sorted {A} (R : relation A) (f : A -> bool) l : StronglySorted R l -> StronglySorted R (List.filter f l).
Proof.
  induction 1 as [|x l Hs IH Hf]; simpl; [constructor|]. destruct (f x); [|assumption].
  constructor; [assumption|]. rewrite Forall_forall in Hf |- *. intros y Hy.
  apply list_elem_of_In, filter_In in Hy as [Hy _]. apply Hf, list_elem_of_In, Hy.
Qed.

#[export] Instance gmap_kv_laws : KVLaws (gmap bytes bytes).
Proof.
  split.
  - intros db k v k'. cbn. unfold bytes_eqb. case_bool_decide as E; [subst; apply lookup_insert_eq|].
    apply lookup_insert_ne. exact E.
  - intros db k k'. cbn. unfold bytes_eqb. case_bool_decide as E; [subst; apply lookup_delete_eq|].
    apply lookup_delete_ne. exact E.
  - intros db lo hi. cbn. apply List_filter_sorted, sorted_le_lt; [|apply (StronglySorted_merge_sort key_le)].
    rewrite merge_sort_Permutation. apply NoDup_fst_map_to_list.
  - intros db lo hi k v. cbn. rewrite list_elem_of_In, filter_In, <- list_elem_of_In.
    rewrite merge_sort_Permutation, elem_of_map_to_list. unfold in_bounds, below, bytes_ltb. cbn [fst].
    destruct (bytes_cmp lo k), hi as [u|]; simpl; try destruct (bytes_cmp k u); naive_solver.
Qed.

(** ** Prefix scans *)

Lemma upper_bound_rev_app r x :
  upper_bound_rev (r ++ [x]) =
  match upper_bound_rev r with
  | Some u => Some (x :: u)
  | None => if x =? 255 then None else Some [x + 1]
  end.
Proof.
  induction r as [|y r IH]; simpl; [reflexivity|]. destruct (y =? 255); [exact IH|].
  rewrite rev_app_distr. reflexivity.
Qed.

Lemma prefix_upper_bound_cons x p :
  prefix_upper_bound (x :: p) =
  match prefix_upper_bound p with
  | Some u => Some (x :: u)
  | None => if x =? 255 then None else Some [x + 1]
  end.
Proof. unfold prefix_upper_bound. simpl. apply upper_bound_rev_app. Qed.

(** The half-open interval from a prefix to its upper bound is exactly the set
    of keys with that prefix. *)
Lemma prefix_interval p k : is_bytes k ->
  bytes_cmp p k <> Gt /\ below k (prefix_upper_bound p) <-> starts_with k p = true.
Proof.
  intros Hk. revert k Hk. induction p as [|x p IH]; intros k Hk.
  { destruct k; simpl; split; auto; intros _; split; auto; discriminate. }
  destruct k as [|y k]; [simpl; split; [intros [H _]; congruence|discriminate]|].
  apply Forall_cons in Hk as [Hy Hk]. specialize (IH k Hk). unfold u8, in_range in Hy.
  rewrite prefix_upper_bound_cons. cbn [bytes_cmp starts_with].
  destruct (Z.compare_spec x y) as [->|Hlt|Hgt].
  - rewrite Z.eqb_refl. cbn [andb]. rewrite <- IH. destruct (prefix_upper_bound p) as [u|]; cbn [below].
    + cbn [bytes_cmp]. rewrite Z.compare_refl. reflexivity.
    + destruct (Z.eqb_spec y 255); cbn [below bytes_cmp]; [tauto|].
      rewrite (proj2 (Z.compare_lt_iff y (y + 1))) by lia. tauto.
  - destruct (Z.eqb_spec y x); [lia|]. cbn [andb]. split; [|discriminate]. intros [_ Hb]. exfalso. revert Hb.
    destruct (prefix_upper_bound p) as [u|]; cbn [below bytes_cmp].
    + rewrite (proj2 (Z.compare_gt_iff y x)) by lia. discriminate.
    + destruct (Z.eqb_spec x 255); [lia|]. cbn [below bytes_cmp].
      destruct (Z.compare_spec y (x + 1)); [|lia|discriminate]. destruct k; discriminate.
  - destruct (Z.eqb_spec y x); [lia|]. cbn [andb]. split; [intros [H _]; congruence|discriminate].
Qed.

Section scans.
Context {DB : Type} `{KVLaws DB}.

(** Every stored key is a byte string. *)
Definition keys_are_bytes (d : DB) : Prop := forall k v, kv_get d k = Some v -> is_bytes k.

Definition with_prefix (d : DB) (p : bytes) : list (bytes * bytes) := kv_range d p (prefix_upper_bound p).

Lemma with_prefix_spec d p k v : keys_are_bytes d ->
  (k, v) ∈ with_prefix d p <-> kv_get d k = Some v /\ starts_with k p = true.
Proof.
  intros Hb. unfold with_prefix. rewrite kv_range_spec. split.
  - intros (Hg & Hp). split; [assumption|]. apply prefix_interval; [eapply Hb; eassumption|assumption].
  - intros (Hg & Hp). split; [assumption|]. apply prefix_interval; [eapply Hb; eassumption|assumption].
Qed.

(** A callback that never stops folds over every pair. *)
Lemma scan_loop_all {S} p (f : S -> bytes -> bytes -> S) acc l :
  Forall (fun e => starts_with e.1 p = true) l ->
  scan_loop p (fun a k v => Ret (f a k v, true)) acc l = Ret (fold_left (fun a e => f a e.1 e.2) l acc).
Proof.
  intros Hl. revert acc. induction Hl as [|[k v] l Hk _ IH]; intros acc; [reflexivity|].
  cbn in Hk |- *. rewrite Hk. cbn. apply IH.
Qed.

Lemma with_prefix_starts d p : keys_are_bytes d -> Forall (fun e => starts_with e.1 p = true) (with_prefix d p).
Proof. intros Hb. apply Forall_forall. intros [k v] Hin. apply with_prefix_spec in Hin; tauto. Qed.
End scans.

(** Prefix scans are complete: with a callback that never stops, a scan
    visits exactly the stored records whose key starts with the prefix, each
    once, in key order - the computed upper bound cuts nothing off and lets
    nothing else in, also for prefixes that end in 0xFF bytes. *)
Theorem scan_prefix_complete {DB} `{KVLaws DB} (s : Shard DB) p :
  keys_are_bytes (db s) ->
  exists l, scan_prefix p (fun a k v => Ret (a ++ [(k, v)], true)) [] s = Ret (l, s) /\
    StronglySorted key_lt l /\
    (forall k v, (k, v) ∈ l <-> kv_get (db s) k = Some v /\ starts_with k p = true).
Proof.
  intros Hb. exists (with_prefix (db s) p). unfold scan_prefix, scan_from.
  rewrite (scan_loop_all p (fun a k v => a ++ [(k, v)])) by (apply with_prefix_starts, Hb).
  assert (Hfold : forall l acc, fold_left (fun a e => a ++ [(e.1, e.2)]) l acc = acc ++ l :> list (bytes * bytes)).
  { induction l as [|[k v] l IH]; intros acc; cbn; [rewrite app_nil_r; reflexivity|].
    rewrite IH, <- app_assoc. reflexivity. }
  rewrite Hfold. split_and!; [reflexivity|apply kv_range_sorted|]. intros k v. apply with_prefix_spec, Hb.
Qed.

Lemma scan_prefix_complete_witness :
  exists l, scan_prefix (DB := gmap bytes bytes) [1; 255] (fun a k v => Ret (a ++ [(k, v)], true)) []
      (mkShard {[ [1; 255; 7] := [9]; [2] := [8] ]} 0 ∅ 0) =
      Ret (l, mkShard {[ [1; 255; 7] := [9]; [2] := [8] ]} 0 ∅ 0) /\ l = [([1; 255; 7], [9])].
Proof.
  destruct (scan_prefix_complete (mkShard {[ [1; 255; 7] := [9]; [2] := [8] ]} 0 ∅ 0) [1; 255]) as (l & Hl & _ & _).
  { intros k v. cbn. intros Hk. apply lookup_insert_Some in Hk as [[<- _]|[_ Hk]];
      [|apply lookup_singleton_Some in Hk as [<- _]]; repeat constructor; unfold u8, in_range; lia. }
  exists l. split; [exact Hl|]. revert Hl. vm_compute. congruence.
Defined.

(** ** Merged writes: functional specification *)

Definition merged_at (ikey local incoming : bytes) : rust bytes :=
  let! o := merge_at ikey local incoming in Ret (resolve local incoming o).

(** Keys outside the budgets merge by the record type alone. *)
Lemma merged_at_plain k p a b : parse k = Ret (Some p) -> pk_tag p <> tag_u8 TBudget -> merged_at k a b = merged_bytes a b.
Proof.
  intros Hp Ht%Z.eqb_neq. unfold merged_at, merge_at. rewrite Hp. cbn [rust_bind]. rewrite Ht.
  destruct (pk_suffix p); reflexivity.
Qed.

Lemma outcome_of_changed m l i : outcome_of m l i <> KeepLocal -> resolve l i (outcome_of m l i) <> l.
Proof.
  unfold outcome_of, bytes_eqb. case_bool_decide as H1; [congruence|].
  case_bool_decide as H2; cbn; congruence.
Qed.

Lemma merge_lww_changed le lp ie ip l i : Envelope_decode l = Some (le, lp) -> Envelope_decode i = Some (ie, ip) ->
  merge_lww le ie <> KeepLocal -> resolve l i (merge_lww le ie) <> l.
Proof.
  intros Hl Hi. unfold merge_lww. destruct (ver_ltb _ _) eqn:E; [|congruence]. intros _. cbn. intros ->.
  rewrite Hl in Hi. injection Hi as -> _. rewrite ver_ltb_irrefl in E. discriminate.
Qed.

Lemma merge_budget_changed kind l i le lp : Envelope_decode l = Some (le, lp) ->
  merge_budget kind l i <> KeepLocal -> resolve l i (merge_budget kind l i) <> l.
Proof.
  intros Hl. unfold merge_budget. rewrite Hl. destruct (Envelope_decode i) as [[ie ip]|] eqn:Hi; [|congruence].
  pose proof (merge_lww_changed le lp ie ip l i Hl Hi) as Hlww.
  destruct (_ || _); [destruct (_ || _)|destruct (_ =? _)]; try exact Hlww.
  - destruct (SlotState_decode lp), (SlotState_decode ip); try exact Hlww. apply outcome_of_changed.
  - destruct (TokenState_decode lp) as [tl|] eqn:El, (TokenState_decode ip) as [ti|] eqn:Ei; try exact Hlww.
    destruct (Z.compare_spec (rank tl) (rank ti)) as [_|Hlt|_]; [exact Hlww| |congruence].
    intros _. cbn. intros ->. rewrite Hl in Hi. injection Hi as <- <-. rewrite El in Ei. injection Ei as <-. lia.
Qed.

Lemma merge_values_changed l i o le lp : Envelope_decode l = Some (le, lp) ->
  merge_values l i = Ret o -> o <> KeepLocal -> resolve l i o <> l.
Proof.
  intros Hl. unfold merge_values. rewrite Hl. destruct (Envelope_decode i) as [[ie ip]|] eqn:Hi; [|congruence].
  pose proof (merge_lww_changed le lp ie ip l i Hl Hi) as Hlww.
  destruct (_ && _ && _ && _).
  { intros [= <-]. unfold merge_counters.
    destruct (CounterState_decode lp), (CounterState_decode ip); try exact Hlww. apply outcome_of_changed. }
  destruct (_ && _ && _ && _).
  { intros [= <-]. unfold merge_hll_registers. destruct lp as [|lr lp], ip as [|ir ip]; try exact Hlww.
    destruct (Z.compare_spec lr ir) as [E|E|E]; [|intros _; cbn; intros ->; rewrite Hl in Hi; injection Hi; lia|congruence].
    destruct (ver_leb _ _) eqn:Ev; [congruence|]. intros _. cbn. intros ->. rewrite Hl in Hi.
    injection Hi as -> _ _. assert (ver_leb (env_version ie) (env_version ie) = true) by ver_solve. congruence. }
  destruct (_ || _ || _); [intros [= <-]; exact Hlww|].
  destruct (ElementState_decode lp) as [sl|]; [|discriminate]. cbn [rust_bind].
  destruct (ElementState_decode ip) as [si|]; [|discriminate]. cbn [rust_bind].
  destruct sl, si; intros [= <-]; try exact Hlww. apply outcome_of_changed.
Qed.

Lemma merge_at_changed k l i o le lp : Envelope_decode l = Some (le, lp) ->
  merge_at k l i = Ret o -> o <> KeepLocal -> resolve l i o <> l.
Proof.
  intros Hl. unfold merge_at. destruct (parse k) as [[p|]|]; cbn [rust_bind]; try discriminate.
  - destruct (pk_suffix p) as [|kind ?]; [eapply merge_values_changed; eassumption|].
    destruct (_ =? _); [|eapply merge_values_changed; eassumption].
    intros [= <-]. eapply merge_budget_changed; eassumption.
  - eapply merge_values_changed; eassumption.
Qed.

Section merged_writes.
Context {DB : Type} `{KVLaws DB}.

(** Same store content at every key but [k]. *)
Definition frame (k : bytes) (d d' : DB) : Prop := forall k', k' <> k -> kv_get d' k' = kv_get d k'.

Lemma kv_put_get_eq (d : DB) k v : kv_get (kv_put d k v) k = Some v.
Proof. rewrite kv_get_put. unfold bytes_eqb. rewrite bool_decide_eq_true_2 by reflexivity. reflexivity. Qed.
Lemma kv_put_frame (d : DB) k v : frame k d (kv_put d k v).
Proof. intros k' Hk. rewrite kv_get_put. unfold bytes_eqb. rewrite bool_decide_eq_false_2 by congruence. reflexivity. Qed.

(** The pop-hint step touches neither the store nor the clock. *)
Lemma write_merged_spec (s : Shard DB) k i :
  parse k <> Panic ->
  match kv_get (db s) k with
  | None => exists s', write_merged k i s = Ret (true, s') /\ db s' = kv_put (db s) k i /\ hlc_word s' = hlc_word s
  | Some l =>
      forall o, merge_at k l i = Ret o ->
      exists s', write_merged k i s = Ret (negb (bool_decide (o = KeepLocal)), s') /\
        db s' = (match o with KeepLocal => db s | _ => kv_put (db s) k (resolve l i o) end) /\
        hlc_word s' = hlc_word s
  end.
Proof.
  intros Hp. unfold write_merged, write_merged_checked, mbind, M_bind, get_raw, reads, put_raw, writes, mret, M_ret, lift.
  cbn [rust_bind fst snd].
  destruct (parse k) as [p|] eqn:Ep; [|congruence].
  destruct (kv_get (db s) k) as [l|].
  - intros o Ho. rewrite Ho. cbn [rust_bind fst snd].
    destruct o; cbn [rust_bind fst snd]; [eauto| |];
      (destruct p as [p|]; [|eexists; cbn; eauto]; cbn [rust_bind fst snd];
       destruct (pk_tag p =? tag_u8 TSetMember); [|eexists; cbn; eauto];
       destruct (match Envelope_decode i with Some _ => _ | None => _ end); eexists; cbn; eauto).
  - cbn [rust_bind fst snd]. destruct p as [p|]; [|eexists; cbn; eauto].
    destruct (pk_tag p =? tag_u8 TSetMember); [|eexists; cbn; eauto].
    destruct (match Envelope_decode i with Some _ => _ | None => _ end); eexists; cbn; eauto.
Qed.

(** Deleting a key. *)
Lemma kv_delete_get_eq (d : DB) k : kv_get (kv_delete d k) k = None.
Proof. rewrite kv_get_delete. unfold bytes_eqb. rewrite bool_decide_eq_true_2 by reflexivity. reflexivity. Qed.
Lemma kv_delete_frame (d : DB) k : frame k d (kv_delete d k).
Proof. intros k' Hk. rewrite kv_get_delete. unfold bytes_eqb. rewrite bool_decide_eq_false_2 by congruence. reflexivity. Qed.
End merged_writes.

(** A merged write of a record that is not a set member changes only the store. *)
Definition with_db {DB} (s : Shard DB) (d : DB) : Shard DB := mkShard d (hlc_word s) (pop_hints s) (ticks s).

Lemma write_merged_plain {DB} `{KVLaws DB} (s : Shard DB) k p i x :
  parse k = Ret (Some p) -> pk_tag p <> tag_u8 TSetMember -> deliver_with (merged_at k) (kv_get (db s) k) i = Ret x ->
  exists b d', write_merged k i s = Ret (b, with_db s d') /\ kv_get d' k = Some x /\ frame k (db s) d'.
Proof.
  intros Hp Ht%Z.eqb_neq Hx. destruct s as [d w hints n].
  unfold write_merged, write_merged_checked, mbind, M_bind, get_raw, reads, put_raw, writes, mret, M_ret, lift.
  cbn [rust_bind fst snd db hlc_word pop_hints ticks with_db] in *.
  destruct (kv_get d k) as [l|] eqn:Hg; cbn [deliver_with] in Hx.
  - unfold merged_at in Hx. destruct (merge_at k l i) as [o|]; [|discriminate]. cbn in Hx. injection Hx as <-.
    cbn [rust_bind fst snd]. destruct o; cbn [rust_bind fst snd db hlc_word pop_hints ticks resolve].
    + exists false, d. split_and!; [reflexivity|exact Hg|intros ? ?; reflexivity].
    + rewrite Hp. cbn [rust_bind fst snd]. rewrite Ht. do 2 eexists.
      split_and!; [reflexivity|apply kv_put_get_eq|apply kv_put_frame].
    + rewrite Hp. cbn [rust_bind fst snd]. rewrite Ht. do 2 eexists.
      split_and!; [reflexivity|apply kv_put_get_eq|apply kv_put_frame].
  - injection Hx as <-. cbn [rust_bind fst snd db hlc_word pop_hints ticks]. rewrite Hp. cbn [rust_bind fst snd]. rewrite Ht.
    do 2 eexists. split_and!; [reflexivity|apply kv_put_get_eq|apply kv_put_frame].
Qed.

(** A merged write stores the merge and tells the truth about it: over a
    decodable record, [write_merged] leaves exactly the merge result under the
    key, touches no other key, and returns true iff the stored bytes changed. *)
Theorem write_merged_reports_change {DB} `{KVLaws DB} (s : Shard DB) k l i o e p :
  parse k <> Panic -> kv_get (db s) k = Some l -> Envelope_decode l = Some (e, p) -> merge_at k l i = Ret o ->
  exists changed s', write_merged k i s = Ret (changed, s') /\
    kv_get (db s') k = Some (resolve l i o) /\ frame k (db s) (db s') /\
    (changed = true <-> resolve l i o <> l).
Proof.
  intros Hp Hg Hd Ho. pose proof (write_merged_spec s k i Hp) as Hw. rewrite Hg in Hw.
  destruct (Hw o Ho) as (s' & Hr & Hs' & _). exists (negb (bool_decide (o = KeepLocal))), s'.
  split; [exact Hr|]. rewrite Hs'. destruct (decide (o = KeepLocal)) as [->|Hne].
  - cbn [resolve]. rewrite bool_decide_eq_true_2 by reflexivity.
    split_and!; [assumption|intros ? ?; reflexivity|split; [discriminate|congruence]].
  - rewrite bool_decide_eq_false_2 by assumption.
    assert (match o with KeepLocal => db s | _ => kv_put (db s) k (resolve l i o) end = kv_put (db s) k (resolve l i o))
      as -> by (destruct o; congruence).
    split_and!; [apply kv_put_get_eq|apply kv_put_frame|].
    split; [intros _; eapply merge_at_changed; eassumption|reflexivity].
Qed.

Definition ex_shard (d : gmap bytes bytes) : Shard (gmap bytes bytes) := mkShard d 0 ∅ 0.

Lemma write_merged_reports_change_witness :
  let k := string_key [107] in
  let old := encode_with (Envelope_new RString 5 1) [97] in
  let new := encode_with (Envelope_new RString 9 2) [98] in
  exists changed s', write_merged k new (ex_shard {[ k := old ]}) = Ret (changed, s') /\
    kv_get (db s') k = Some new.
Proof.
  intros k old new.
  destruct (write_merged_reports_change (ex_shard {[ k := old ]}) k old new TakeIncoming
              (Envelope_new RString 5 1) [97]) as (c & s' & H1 & H2 & _);
    [vm_compute; discriminate|vm_compute; reflexivity..|].
  exists c, s'. split; [exact H1|exact H2].
Defined.

(** ** Deliveries *)

(** The records of a stream that go to [k]. *)
Definition records_for (k : bytes) (ops : list (bytes * bytes)) : list bytes :=
  snd <$> List.filter (fun o => bytes_eqb o.1 k) ops.

Lemma write_merged_deliver {DB} `{KVLaws DB} (s : Shard DB) k i x :
  parse k <> Panic -> deliver_with (merged_at k) (kv_get (db s) k) i = Ret x ->
  exists b s', write_merged k i s = Ret (b, s') /\ kv_get (db s') k = Some x /\ frame k (db s) (db s').
Proof.
  intros Hp Hx. pose proof (write_merged_spec s k i Hp) as Hw.
  destruct (kv_get (db s) k) as [l|] eqn:Hg; cbn [deliver_with] in Hx.
  - unfold merged_at in Hx. destruct (merge_at k l i) as [o|] eqn:Ho; [|discriminate]. cbn in Hx. injection Hx as <-.
    destruct (Hw o eq_refl) as (s' & Hr & Hs' & _). do 2 eexists. split; [exact Hr|]. rewrite Hs'.
    destruct o; [split; [exact Hg|intros ? ?; reflexivity]|..]; split; apply kv_put_get_eq || apply kv_put_frame.
  - injection Hx as <-. destruct Hw as (s' & Hr & Hs' & _). do 2 eexists. split; [exact Hr|]. rewrite Hs'.
    split; [apply kv_put_get_eq|apply kv_put_frame].
Qed.

(** ** Delete clocks *)

Lemma parse_head_key u : slice_len_ok u -> parse (head_key u) = Ret (Some (mkParsedKey (pid_of u) (tag_u8 THead) u [])).
Proof. intros Hu. apply parse_prefixed; [reflexivity|assumption]. Qed.

Lemma head_env_ok h n : u64 h -> u16 n -> envelope_ok (Envelope_head h n).
Proof. intros Hh Hn. split; cbn; try assumption; unfold u8, u64, in_range, COLLECTION_HEAD; lia. Qed.

(** A head record merges by version. *)
Lemma merge_head local env pay h n body : Envelope_decode local = Some (env, pay) -> u64 h -> u16 n ->
  merge_values local (encode_with (Envelope_head h n) body) =
  Ret (merge_lww env (Envelope_head h n)).
Proof.
  intros Hl Hh Hn. unfold merge_values. rewrite Hl, Envelope_decode_encode_with by (apply head_env_ok; assumption).
  change (rtype (Envelope_head h n)) with RString. change (is_head (Envelope_head h n)) with true.
  rewrite !(bool_decide_eq_false_2 (RString = _)) by discriminate. rewrite !andb_false_r. reflexivity.
Qed.

(** Writing a head whose HLC is above the stored one's replaces it. *)
Lemma write_head_wins {DB} `{KVLaws DB} (s : Shard DB) u h n body :
  slice_len_ok u -> u64 h -> u16 n ->
  (forall v env pay, kv_get (db s) (head_key u) = Some v -> Envelope_decode v = Some (env, pay) -> hlc env < h) ->
  exists b s', write_merged (head_key u) (encode_with (Envelope_head h n) body) s = Ret (b, s') /\
    kv_get (db s') (head_key u) = Some (encode_with (Envelope_head h n) body) /\
    frame (head_key u) (db s) (db s').
Proof.
  intros Hu Hh Hn Hnew. apply write_merged_deliver; [rewrite parse_head_key by assumption; discriminate|].
  destruct (kv_get (db s) (head_key u)) as [l|] eqn:Hg; [|reflexivity]. cbn [deliver_with].
  unfold merged_at, merge_at. rewrite parse_head_key by assumption. cbn [rust_bind pk_suffix].
  destruct (Envelope_decode l) as [[env pay]|] eqn:Hl.
  - rewrite (merge_head l env pay) by assumption. cbn [rust_bind]. unfold merge_lww.
    specialize (Hnew l env pay eq_refl Hl). unfold ver_ltb, ver_cmp, env_version. cbn [fst snd hlc Envelope_head].
    rewrite (proj2 (Z.compare_lt_iff _ _) Hnew). reflexivity.
  - unfold merge_values. rewrite Hl. reflexivity.
Qed.

Lemma carried_del_spec env del now :
  del <= carried_del env del now /\ (is_tombstone env = true -> hlc env <= carried_del env del now) /\
  (is_expired env now = true -> expiry_hlc env <= carried_del env del now).
Proof. unfold carried_del. destruct (is_tombstone env), (is_expired env now); split_and!; intros; try lia; discriminate. Qed.

Lemma carried_del_u64 env del now : u64 del -> u64 (hlc env) -> u64 (carried_del env del now).
Proof.
  intros Hd Hh. unfold carried_del. assert (u64 (expiry_hlc env)) by (apply wrap_range; lia).
  unfold u64, in_range in *. destruct (is_tombstone env), (is_expired env now); lia.
Qed.

(** What [ensure_head] does to a head that is gone. *)
Definition recreate_head {DB} `{KV DB} node_id (wall : nat -> Z) u ctype env del : M DB Z :=
  now ← now_ms wall; h ← hlc_now wall;
  _ ← write_merged (head_key u) (encode_with (Envelope_head h node_id) (head_encode ctype (carried_del env del now)));
  mret (carried_del env del now).

Lemma ensure_head_dead {DB} `{KV DB} node_id (wall : nat -> Z) (s : Shard DB) u ctype v env pay t del :
  kv_get (db s) (head_key u) = Some v -> Envelope_decode v = Some (env, pay) -> head_decode pay = Some (t, del) ->
  is_tombstone env = true \/ (forall n, is_expired env (wall n) = true) ->
  exists s1, ensure_head node_id wall u ctype s = recreate_head node_id wall u ctype env del s1 /\
    db s1 = db s /\ hlc_word s1 = hlc_word s.
Proof.
  intros Hg Hv Hh Hdead. unfold ensure_head, get_head, get_raw, reads, mbind, M_bind, mret, M_ret.
  cbn [rust_bind fst snd]. rewrite Hg. cbn [option_bind]. rewrite Hv, Hh.
  destruct (t =? ctype); cbn [andb]; [|exists s; auto].
  destruct (is_tombstone env) eqn:Et; cbn [negb]; [exists s; auto|].
  destruct Hdead as [|Hexp]; [discriminate|]. cbn [rust_bind now_ms fst snd]. rewrite Hexp.
  exists (mkShard (db s) (hlc_word s) (pop_hints s) (S (ticks s))). auto.
Qed.

Lemma recreate_head_spec {DB} `{KVLaws DB} node_id (wall : nat -> Z) (s : Shard DB) u ctype env del :
  slice_len_ok u -> u16 node_id -> 0 <= hlc_word s -> hlc_word s + 1 < 2 ^ 64 -> (forall n, 0 <= wall n < 2 ^ 48) ->
  (forall v env pay, kv_get (db s) (head_key u) = Some v -> Envelope_decode v = Some (env, pay) -> hlc env <= hlc_word s) ->
  exists n h s', let d := carried_del env del (wall n) in
    recreate_head node_id wall u ctype env del s = Ret (d, s') /\
    kv_get (db s') (head_key u) = Some (encode_with (Envelope_head h node_id) (head_encode ctype d)) /\
    hlc_word s < h.
Proof.
  intros Hu Hn Hw0 Hw1 Hwall Hnew. exists (ticks s).
  destruct (Hlc_now_spec (hlc_word s) (wall (S (ticks s))) Hw0 Hw1 (Hwall _)) as (h & Hh & Hlt).
  unfold recreate_head, mbind, M_bind, now_ms, hlc_now. cbn [rust_bind fst snd db hlc_word ticks pop_hints].
  rewrite Hh. cbn [rust_bind fst snd].
  match goal with |- context [write_merged _ _ ?s2] => set (sh := s2) in * end.
  destruct (write_head_wins sh u h node_id (head_encode ctype (carried_del env del (wall (ticks s)))))
    as (b & s' & Hwr & Hg' & _); try assumption.
  { unfold u64, in_range. lia. }
  { intros v e p Hg He. specialize (Hnew v e p Hg He). lia. }
  exists h, s'. rewrite Hwr. split_and!; [reflexivity|exact Hg'|lia].
Qed.

(** Deleted elements stay deleted: re-creating a collection whose head was
    deleted (a tombstone) or has expired carries the delete clock forward.  The
    returned clock is at least the old one, at least the delete's HLC and at
    least the expiry's; the stored head of the new type carries it; and no
    element record at or below the delete is visible under it. *)
Theorem ensure_head_carries_delete_clock {DB} `{KVLaws DB} node_id (wall : nat -> Z) (s : Shard DB) u ctype v env pay t del :
  slice_len_ok u -> u16 node_id ->
  kv_get (db s) (head_key u) = Some v -> Envelope_decode v = Some (env, pay) ->
  head_decode pay = Some (t, del) -> u64 del -> u64 (hlc env) ->
  is_tombstone env = true \/ (forall n, is_expired env (wall n) = true) ->
  hlc env <= hlc_word s -> hlc_word s + 1 < 2 ^ 64 -> (forall n, 0 <= wall n < 2 ^ 48) ->
  exists d s', ensure_head node_id wall u ctype s = Ret (d, s') /\
    del <= d /\ (is_tombstone env = true -> hlc env <= d) /\
    ((forall n, is_expired env (wall n) = true) -> expiry_hlc env <= d) /\
    (exists h, kv_get (db s') (head_key u) = Some (encode_with (Envelope_head h node_id) (head_encode ctype d)) /\
       head_decode (head_encode ctype d) = Some (ctype, d)) /\
    (forall e p now, is_tombstone env = true -> hlc e <= hlc env -> visible e p d now = None).
Proof.
  intros Hu Hn Hg Hv Hh Hdel Hhlc Hdead Hword Hword64 Hwall.
  destruct (ensure_head_dead node_id wall s u ctype v env pay t del Hg Hv Hh Hdead) as (s1 & -> & Hdb & Hw).
  destruct (recreate_head_spec node_id wall s1 u ctype env del) as (n & h & s' & Hr & Hg' & _); try assumption;
    rewrite ?Hw; try (unfold u64, in_range in *; lia).
  { intros v' env' pay' Hgv Hdv. rewrite Hdb, Hg in Hgv. injection Hgv as <-.
    rewrite Hv in Hdv. injection Hdv as <- _. exact Hword. }
  destruct (carried_del_spec env del (wall n)) as (H1 & H2 & H3).
  exists (carried_del env del (wall n)), s'. split_and!; [exact Hr|assumption|assumption|intros He; apply H3, He| |].
  - exists h. split; [exact Hg'|]. rewrite <- (app_nil_r (head_encode _ _)).
    apply head_decode_encode, carried_del_u64; assumption.
  - intros e p now' Ht Hle. unfold visible. specialize (H2 Ht).
    destruct (Z.leb_spec (hlc e) (carried_del env del (wall n))); [|lia]. rewrite orb_true_r. reflexivity.
Qed.

(** A set deleted at HLC 900 and re-created by node 1. *)
Lemma ensure_head_carries_delete_clock_witness :
  let u := [107] in
  let v := encode_with (mkEnvelope 3 900 2 0) (head_encode CTYPE_SET 0) in
  let s := mkShard {[ head_key u := v ]} 1000 ∅ 0 : Shard (gmap bytes bytes) in
  exists d s', ensure_head 1 (fun _ => 0) u CTYPE_SET s = Ret (d, s') /\ 900 <= d.
Proof.
  intros u v s.
  destruct (ensure_head_carries_delete_clock 1 (fun _ => 0) s u CTYPE_SET v (mkEnvelope 3 900 2 0)
              (head_encode CTYPE_SET 0) CTYPE_SET 0) as (d & s' & H1 & _ & H2 & _);
    try (vm_compute; reflexivity); try (unfold u16, u8, u64, in_range, slice_len_ok, CTYPE_SET; cbn; lia);
    [left; vm_compute; reflexivity|].
  exists d, s'. split; [exact H1|]. apply H2. vm_compute. reflexivity.
Defined.
