(* ===== verification/Zset.v ===== *)
(** * Sorted sets ([crates/marekvs-engine/src/cmd/zset.rs])

    A member is an element record under [zset_member_key]; a second key per
    member, [zset_score_key], never replicated, orders the members by score.
    The handlers below are the closures that run on the shard thread, with the
    parsed arguments as inputs.  Scores are bit patterns of doubles. *)

From S2P Require Import Prelude Partition Hlc Envelope Varint Ikey Counter Lattice Merge MergeLaws Score F64 BudgetCore Store.

(** The replies these handlers give. *)
Inductive Reply :=
  | RInt (n : Z)
  | RNull
  | RDouble (bits : Z)
  | RWrongType
  | RNotANumber
  | RPairs (l : list (Z * bytes)).

Definition USIZE_MAX : Z := 2 ^ 64 - 1.

(** [Option<f64> == Option<f64>]. *)
Definition score_eqb (a b : option Z) : bool :=
  match a, b with Some a, Some b => f64_eqb a b | None, None => true | _, _ => false end.

(** The score in an element payload. *)
Definition payload_score (pay : bytes) : rust (option Z) :=
  let! val := element_value pay in
  Ret (match val with Some val => if (length val =? 8)%nat then Some (of_be val) else None | None => None end).

Definition score_from_record (b : bytes) : rust (option Z) :=
  match Envelope_decode b with Some (_, pay) => payload_score pay | None => Ret None end.

Section zset.
Context {DB : Type} `{!KV DB}.
Context (node_id : Z) (wall : nat -> Z).

Definition zset_del_hlc (key : bytes) : M DB (option Z) := check_type wall key CTYPE_ZSET.

Definition member_score (key member : bytes) (del : Z) : M DB (option Z) :=
  v ← get_raw (zset_member_key key member);
  match v ≫= Envelope_decode with
  | None => mret None
  | Some (env, pay) =>
      now ← now_ms wall;
      match visible env pay del now with None => mret None | Some _ => lift (payload_score pay) end
  end.

Definition put_index (idx_key : bytes) : M DB unit :=
  _ ← put_raw idx_key [];
  p ← lift (parse idx_key);
  match p with
  | Some p => pop_hint_on_insert (collection_prefix TZsetScore (pk_userkey p)) idx_key
  | None => mret tt
  end.

(** [get_raw(..).as_deref().and_then(score_from_record)]. *)
Definition stored_score (mk : bytes) : M DB (option Z) :=
  v ← get_raw mk; match v with Some v => lift (score_from_record v) | None => mret None end.

Definition apply_member_record (userkey member incoming : bytes) : M DB bool :=
  let mk := zset_member_key userkey member in
  old_score ← stored_score mk;
  changed ← write_merged mk incoming;
  new_score ← stored_score mk;
  if score_eqb old_score new_score then mret changed else
  _ ← match old_score with Some s => del_raw (zset_score_key userkey (encode_score s) member) | None => mret tt end;
  _ ← match new_score with Some s => put_index (zset_score_key userkey (encode_score s) member) | None => mret tt end;
  mret changed.

Definition write_member (key member : bytes) (score : Z) : M DB unit :=
  h ← hlc_now wall;
  _ ← apply_member_record key member (element_add ZsetMember h node_id (be_bytes 8 score));
  mret tt.

Definition remove_member (key member : bytes) (del : Z) : M DB bool :=
  let mk := zset_member_key key member in
  v ← get_raw mk;
  match v with
  | None => mret false
  | Some v =>
      match Envelope_decode v with
      | None => mret false
      | Some (env, pay) =>
          now ← now_ms wall;
          val ← lift (match visible env pay del now with None => Ret None | Some _ => element_value pay end);
          match val with
          | None => mret false
          | Some _ =>
              old_score ← lift (score_from_record v);
              dots ← lift (element_dots pay);
              h ← hlc_now wall;
              _ ← write_merged mk (element_remove ZsetMember h node_id dots);
              _ ← match old_score with Some s => del_raw (zset_score_key key (encode_score s) member) | None => mret tt end;
              mret true
          end
      end
  end.

(** The entry of the score index at [k], if its member still has that score. *)
Definition index_entry (key : bytes) (del : Z) (k : bytes) : M DB (option (Z * bytes)) :=
  p ← lift (parse k);
  match p with
  | None => mret None
  | Some p =>
      if (8 <=? length (pk_suffix p))%nat then
        let enc := of_be (take 8 (pk_suffix p)) in
        let member := drop 8 (pk_suffix p) in
        sc ← member_score key member del;
        mret (match sc with Some sc => if encode_score sc =? enc then Some (sc, member) else None | None => None end)
      else mret None
  end.

Definition scored_step (key : bytes) (del limit : Z) (out : list (Z * bytes)) (k _v : bytes)
    : M DB (list (Z * bytes) * bool) :=
  e ← index_entry key del k;
  match e with
  | Some e => mret (out ++ [e], negb (limit <=? Z.of_nat (length (out ++ [e]))))
  | None => mret (out, true)
  end.

Definition scored_members_limited (key : bytes) (del limit : Z) : M DB (list (Z * bytes)) :=
  if limit =? 0 then mret [] else
  scan_prefix_cmd (collection_prefix TZsetScore key) (scored_step key del limit) [].

Definition scored_members (key : bytes) (del : Z) : M DB (list (Z * bytes)) :=
  scored_members_limited key del USIZE_MAX.

(** The closure [collect]: the pairs found and the last key visited. *)
Definition collect (key : bytes) (del limit : Z) (acc : list (Z * bytes) * option bytes) (k _v : bytes)
    : M DB ((list (Z * bytes) * option bytes) * bool) :=
  e ← index_entry key del k;
  let out := match e with Some e => acc.1 ++ [e] | None => acc.1 end in
  mret ((out, Some k), Z.of_nat (length out) <? limit).

Definition pop_scored_candidates (key : bytes) (del limit : Z) : M DB (list (Z * bytes)) :=
  let prefix := collection_prefix TZsetScore key in
  hint ← get_pop_hint prefix;
  match hint with
  | Some Empty => mret []
  | _ =>
      r ← match hint with
        | Some (At h) =>
            r ← scan_from_cmd h prefix (collect key del limit) ([], None);
            match r.1 with
            | [] => _ ← clear_pop_hint prefix; scan_prefix_cmd prefix (collect key del limit) r
            | _ => mret r
            end
        | _ => scan_prefix_cmd prefix (collect key del limit) ([], None)
        end;
      _ ← match r with
        | ([], _) => set_pop_hint_empty prefix
        | (_, Some lk) => set_pop_hint prefix lk
        | (_, None) => mret tt
        end;
      mret r.1
  end.

Definition zset_card (key : bytes) (del : Z) : M DB Z :=
  now ← now_ms wall;
  scan_prefix (collection_prefix TZsetMember key)
    (fun n _ v =>
      match Envelope_decode v with
      | Some (env, pay) =>
          match visible env pay del now with
          | Some _ => let! val := element_value pay in Ret (match val with Some _ => n + 1 | None => n end, true)
          | None => Ret (n, true)
          end
      | None => Ret (n, true)
      end) 0.

(** ** The commands *)

Record ZaddFlags := mkZaddFlags { nx : bool; xx : bool; gt : bool; lt : bool; ch : bool; incr : bool }.

(** The loop over the pairs: [inr reply] is an early return, [inl] carries
    the counts and the last score written. *)
Fixpoint zadd_loop (f : ZaddFlags) (key : bytes) (del : Z) (pairs : list (Z * bytes)) (added updated : Z)
    (incr_result : option Z) : M DB ((Z * Z * option Z) + Reply) :=
  match pairs with
  | [] => mret (inl (added, updated, incr_result))
  | (score, member) :: pairs =>
      let skip := if incr f then mret (inr RNull) else zadd_loop f key del pairs added updated incr_result in
      c ← member_score key member del;
      match c with
      | Some cur =>
          if nx f then skip else
          let newscore := if incr f then f64_add cur score else score in
          if incr f && is_nan newscore then mret (inr RNotANumber) else
          if (gt f && f64_leb newscore cur) || (lt f && f64_leb cur newscore) then skip else
          if negb (f64_eqb newscore cur) then
            _ ← ensure_head node_id wall key CTYPE_ZSET;
            _ ← write_member key member newscore;
            zadd_loop f key del pairs added (updated + 1) (Some newscore)
          else zadd_loop f key del pairs added updated (Some newscore)
      | None =>
          if xx f then skip else
          _ ← ensure_head node_id wall key CTYPE_ZSET;
          _ ← write_member key member score;
          zadd_loop f key del pairs (added + 1) updated (Some score)
      end
  end.

Definition zadd (f : ZaddFlags) (key : bytes) (pairs : list (Z * bytes)) : M DB Reply :=
  del ← zset_del_hlc key;
  match del with
  | None => mret RWrongType
  | Some del =>
      r ← zadd_loop f key del pairs 0 0 None;
      mret (match r with
            | inr reply => reply
            | inl (added, updated, res) =>
                if incr f then match res with Some s => RDouble s | None => RNull end
                else if ch f then RInt (added + updated) else RInt added
            end)
  end.

Definition zscore (key member : bytes) : M DB Reply :=
  del ← zset_del_hlc key;
  match del with
  | None => mret RWrongType
  | Some del => s ← member_score key member del; mret (match s with Some s => RDouble s | None => RNull end)
  end.

Definition zcard (key : bytes) : M DB Reply :=
  del ← zset_del_hlc key;
  match del with None => mret RWrongType | Some del => n ← zset_card key del; mret (RInt n) end.

Definition zincrby (key member : bytes) (delta : Z) : M DB Reply :=
  del ← zset_del_hlc key;
  match del with
  | None => mret RWrongType
  | Some del =>
      c ← member_score key member del;
      let newscore := f64_add (default 0 c) delta in
      if is_nan newscore then mret RNotANumber else
      _ ← ensure_head node_id wall key CTYPE_ZSET;
      _ ← write_member key member newscore;
      mret (RDouble newscore)
  end.

Fixpoint zrem_loop (key : bytes) (del : Z) (members : list bytes) (n : Z) : M DB Z :=
  match members with
  | [] => mret n
  | m :: members => r ← remove_member key m del; zrem_loop key del members (if (r : bool) then n + 1 else n)
  end.
Definition zrem (key : bytes) (members : list bytes) : M DB Reply :=
  del ← zset_del_hlc key;
  match del with None => mret RWrongType | Some del => n ← zrem_loop key del members 0; mret (RInt n) end.

(** ZPOPMAX keeps the last [n] pairs of the full walk, best first. *)
Definition last_window (n : Z) (window : list (Z * bytes)) (pair : Z * bytes) : list (Z * bytes) :=
  let w := window ++ [pair] in if n <? Z.of_nat (length w) then tail w else w.

(** Remove the victims; those that were still there are popped. *)
Fixpoint pop_loop (key : bytes) (del : Z) (victims popped : list (Z * bytes)) : M DB (list (Z * bytes)) :=
  match victims with
  | [] => mret popped
  | (score, member) :: victims =>
      r ← remove_member key member del;
      pop_loop key del victims (if (r : bool) then popped ++ [(score, member)] else popped)
  end.

Definition zpop (key : bytes) (count : option Z) (max : bool) : M DB Reply :=
  del ← zset_del_hlc key;
  match del with
  | None => mret RWrongType
  | Some del =>
      let n := default 1 count in
      victims ← (if max then l ← scored_members key del; mret (rev (fold_left (last_window n) l []))
                 else pop_scored_candidates key del n);
      popped ← pop_loop key del victims [];
      mret (RPairs popped)
  end.

End zset.

(** ** Member records *)

(** What the sorted-set writers store: canonical, never expiring. *)
Record member_ok (r : erec) : Prop := {
  mo_rec : erec_ok r;
  mo_type : er_type r = ZsetMember;
  mo_ttl : er_ttl r = 0;
  mo_bytes : Forall (fun e => is_bytes e.2) (live (er_st r));
}.
Definition member_rec (b : bytes) : Prop := exists r, member_ok r /\ b = erec_bytes r.

Definition st_score (st : ElementState) : option Z :=
  match st_value st with Some val => if (length val =? 8)%nat then Some (of_be val) else None | None => None end.

Lemma payload_score_of r : member_ok r -> payload_score (ElementState_encode (er_st r)) = Ret (st_score (er_st r)).
Proof.
  intros Hr. unfold payload_score, element_value. rewrite (proj2 (erec_decode r (mo_rec r Hr))). reflexivity.
Qed.

Lemma score_of_member r : member_ok r -> score_from_record (erec_bytes r) = Ret (st_score (er_st r)).
Proof.
  intros Hr. unfold score_from_record. rewrite (proj1 (erec_decode r (mo_rec r Hr))). apply payload_score_of, Hr.
Qed.

Lemma st_score_u64 r s : member_ok r -> st_score (er_st r) = Some s -> u64 s.
Proof.
  intros Hr. unfold st_score, st_value. pose proof (mo_bytes r Hr) as Hb. destruct (live (er_st r)) as [|e l]; [discriminate|].
  cbn. apply Forall_cons in Hb as [Hb _]. destruct (Nat.eqb_spec (length e.2) 8) as [E|]; [|discriminate].
  intros [= <-]. pose proof (of_be_bound e.2 Hb) as Hv. rewrite E in Hv. exact Hv.
Qed.

Lemma member_join a b : member_ok a -> member_ok b -> member_ok (erec_join a b).
Proof.
  intros [Ra Ta La Ba] [Rb Tb Lb Bb]. split.
  - apply erec_join_ok; assumption.
  - unfold erec_join. cbn. rewrite Ta, Tb. reflexivity.
  - unfold erec_join. cbn. destruct (ver_ltb _ _); assumption.
  - rewrite Forall_forall in *. intros e He. apply join_elements_live_incl in He as [He|He]; auto.
Qed.

Lemma merged_members u m a b : slice_len_ok u -> member_ok a -> member_ok b ->
  merged_at (zset_member_key u m) (erec_bytes a) (erec_bytes b) = Ret (erec_bytes (erec_join a b)).
Proof.
  intros Hu Ha Hb. erewrite merged_at_plain; [|apply parse_prefixed; [reflexivity|exact Hu]|discriminate].
  apply mi_merge; [apply (mo_rec a Ha)|apply (mo_rec b Hb)].
Qed.

Lemma element_add_member h n score : u64 h -> u16 n -> member_rec (element_add ZsetMember h n (be_bytes 8 score)).
Proof.
  intros Hh Hn. exists (mkErec ZsetMember (h, n) 0 (mkElement [(mkDot h n, be_bytes 8 score)] [])).
  split; [|reflexivity]. split; [|reflexivity|reflexivity|cbn [er_st live]; constructor; [apply be_bytes_is_bytes|constructor]].
  split; cbn [er_type er_ver er_ttl er_st fst snd live covered]; try assumption; try reflexivity.
  - unfold u64, in_range. lia.
  - split; cbn [live covered]; try (repeat constructor; set_solver); cbn; unfold MAX_LIVE_DOTS; lia.
  - constructor; [|constructor]. split; [split; assumption|]. cbn [snd]. rewrite length_be_bytes. lia.
  - constructor.
Qed.

(** Removing the observed dots of a record with room for them kills it. *)
Definition removal (h n : Z) (r : erec) : erec := mkErec ZsetMember (h, n) 0 (normalize (mkElement [] (dots (er_st r)))).

Lemma element_remove_eq h n r : element_remove ZsetMember h n (dots (er_st r)) = erec_bytes (removal h n r).
Proof.
  unfold element_remove, erec_bytes, encode_element, removal. cbn [er_type er_ver er_ttl er_st].
  rewrite (normalize_id (normalize _)) by apply normalize_wf. reflexivity.
Qed.

Lemma removal_ok h n r : u64 h -> u16 n -> member_ok r -> member_ok (removal h n r).
Proof.
  intros Hh Hn [[] _ _ _]. unfold removal. split; cbn [er_type er_ver er_ttl er_st]; [|reflexivity|reflexivity|].
  - split; cbn [er_type er_ver er_ttl er_st fst snd]; try assumption; try reflexivity.
    + unfold u64, in_range. lia.
    + apply normalize_wf.
    + rewrite Forall_forall. intros e He%normalize_live_incl. set_solver.
    + rewrite Forall_forall. intros d Hd%normalize_cov_incl. cbn in Hd. unfold dots in Hd.
      apply list_elem_of_fmap in Hd as (e & -> & He). rewrite Forall_forall in eo_live. apply eo_live, He.
  - rewrite Forall_forall. intros e He%normalize_live_incl. set_solver.
Qed.

Lemma dedup_after_length {A} (same : A -> A -> bool) x l : (length (dedup_after same x l) <= length l)%nat.
Proof. revert x. induction l as [|y l IH]; intros x; cbn; [lia|]. destruct (same _ _); cbn; [specialize (IH x)|specialize (IH y)]; lia. Qed.

Lemma all_covered_length c : (length (all_covered c) <= length c)%nat.
Proof.
  unfold all_covered, sort_desc, dedup_by. pose proof (Permutation_length (merge_sort_Permutation (desc dot_ver) c)) as E.
  destruct (merge_sort _ c) as [|x l]; [cbn in *; lia|]. cbn in *. pose proof (dedup_after_length dot_eqb x l). lia.
Qed.

Definition has_room (r : erec) : Prop := (length (covered (er_st r)) + length (live (er_st r)) <= MAX_TOMB_DOTS)%nat.

Lemma removal_dead h n r : member_ok r -> has_room r -> live (er_st (erec_join r (removal h n r))) = [].
Proof.
  intros Hr Hroom. unfold has_room in Hroom.
  assert (Hn : length (dots (er_st r)) = length (live (er_st r))) by apply length_fmap.
  pose proof (all_covered_length (dots (er_st r))) as Hd.
  assert (Hc : covered (er_st (removal h n r)) = all_covered (dots (er_st r))).
  { unfold removal. cbn [er_st]. rewrite normalize_unfold. cbn [covered live]. apply take_ge. lia. }
  assert (Hl : live (er_st (removal h n r)) = []).
  { apply elem_of_nil_inv. intros e He. apply normalize_live_incl in He. set_solver. }
  apply elem_of_nil_inv. intros e He. unfold erec_join, join_elements in He. cbn [er_st er_type] in He.
  rewrite (mo_type r Hr) in He. rewrite bool_decide_eq_false_2 in He by discriminate. rewrite normalize_unfold in He.
  cbn [live covered] in He. rewrite Hc, Hl, app_nil_r in He. apply elem_of_take in He as (i & He & _). apply list_elem_of_lookup_2 in He.
  unfold survivors in He. apply list_elem_of_filter in He as [Hno He]. apply distinct_adds_incl in He. apply Hno.
  pose proof (all_covered_length (covered (er_st r) ++ all_covered (dots (er_st r)))) as Hu. rewrite length_app in Hu.
  rewrite take_ge by lia. apply all_covered_elem, elem_of_app. right. apply all_covered_elem, list_elem_of_fmap. eauto.
Qed.

(** ** The score index *)

Lemma member_key_inj u m u' m' : slice_len_ok u -> slice_len_ok u' ->
  zset_member_key u m = zset_member_key u' m' -> u = u' /\ m = m'.
Proof.
  intros Hu Hu' E. pose proof (parse_prefixed TZsetMember u m eq_refl Hu) as P. fold (zset_member_key u m) in P. rewrite E in P.
  unfold zset_member_key in P. rewrite parse_prefixed in P by (reflexivity || assumption). injection P. auto.
Qed.

Lemma score_key_inj u e m u' e' m' : slice_len_ok u -> slice_len_ok u' -> u64 e -> u64 e' ->
  zset_score_key u e m = zset_score_key u' e' m' -> u = u' /\ e = e' /\ m = m'.
Proof.
  intros Hu Hu' He He' E. pose proof (parse_prefixed TZsetScore u (be_bytes 8 e ++ m) eq_refl Hu) as P.
  fold (zset_score_key u e m) in P. rewrite E in P. unfold zset_score_key in P.
  rewrite parse_prefixed in P by (reflexivity || assumption).
  apply (f_equal (fun r => match r with Ret (Some p) => (pk_userkey p, pk_suffix p) | _ => ([], []) end)) in P.
  cbn [pk_userkey pk_suffix] in P. apply pair_eq in P as [-> P]. apply app_inj_1 in P as [P ->]; [|rewrite !length_be_bytes; reflexivity].
  apply (f_equal of_be) in P. rewrite !of_be_u64 in P by assumption. auto.
Qed.

Lemma member_not_score u m u' e m' : slice_len_ok u -> slice_len_ok u' -> zset_member_key u m <> zset_score_key u' e m'.
Proof.
  intros Hu Hu' E. pose proof (parse_prefixed TZsetMember u m eq_refl Hu) as P. fold (zset_member_key u m) in P. rewrite E in P.
  unfold zset_score_key in P. rewrite parse_prefixed in P by (reflexivity || assumption). discriminate.
Qed.

Section index.
Context {DB : Type} `{KVLaws DB}.

(** The score stored for a member. *)
Definition score_at (d : DB) (u m : bytes) : option Z :=
  match kv_get d (zset_member_key u m) with
  | Some b => match score_from_record b with Ret o => o | Panic => None end
  | None => None
  end.

(** The index has a key for a member exactly where its stored score is. *)
Record zset_wf (d : DB) : Prop := {
  zw_member u m b : slice_len_ok u -> kv_get d (zset_member_key u m) = Some b -> member_rec b;
  zw_index u e m : slice_len_ok u -> u64 e ->
    is_Some (kv_get d (zset_score_key u e m)) <-> encode_score <$> score_at d u m = Some e;
}.

(** Nothing but the records of one member differs. *)
Definition member_frame (u m : bytes) (d d' : DB) : Prop := forall k,
  k <> zset_member_key u m -> (forall e, u64 e -> k <> zset_score_key u e m) -> kv_get d' k = kv_get d k.

Lemma zset_wf_update d d' u m : slice_len_ok u -> zset_wf d -> member_frame u m d d' ->
  (forall b, kv_get d' (zset_member_key u m) = Some b -> member_rec b) ->
  (forall e, u64 e -> is_Some (kv_get d' (zset_score_key u e m)) <-> encode_score <$> score_at d' u m = Some e) ->
  zset_wf d'.
Proof.
  intros Hu [Hm Hi] Hf Hm' Hi'.
  assert (Hk : forall u' m', slice_len_ok u' -> (u', m') <> (u, m) -> kv_get d' (zset_member_key u' m') = kv_get d (zset_member_key u' m')).
  { intros u' m' Hu' Hne. apply Hf.
    - intros E. apply member_key_inj in E as [-> ->]; [congruence|assumption..].
    - intros e He. apply member_not_score; assumption. }
  split.
  - intros u' m' b Hu' Hb. destruct (decide ((u', m') = (u, m))) as [[= -> ->]|Hne]; [auto|]. rewrite Hk in Hb by assumption.
    eapply Hm; eassumption.
  - intros u' e m' Hu' He. destruct (decide ((u', m') = (u, m))) as [[= -> ->]|Hne]; [auto|].
    unfold score_at. rewrite Hk by assumption. fold (score_at d u' m'). rewrite <- (Hi u' e m' Hu' He). rewrite Hf; [reflexivity| |].
    + intros E. symmetry in E. apply member_not_score in E; assumption.
    + intros e' He' E. apply score_key_inj in E as (-> & _ & ->); [congruence|assumption..].
Qed.

Lemma score_at_member d u m r : member_ok r -> kv_get d (zset_member_key u m) = Some (erec_bytes r) ->
  score_at d u m = st_score (er_st r).
Proof. intros Hr Hg. unfold score_at. rewrite Hg, score_of_member by assumption. reflexivity. Qed.

Lemma score_at_u64 d u m s : zset_wf d -> slice_len_ok u -> score_at d u m = Some s -> u64 s.
Proof.
  intros [Hm _] Hu. unfold score_at. destruct (kv_get d _) as [b|] eqn:Hg; [|discriminate].
  destruct (Hm u m b Hu Hg) as (r & Hr & ->). rewrite score_of_member by assumption. apply st_score_u64, Hr.
Qed.

Lemma stored_score_eq (s : Shard DB) u m : (forall b, kv_get (db s) (zset_member_key u m) = Some b -> member_rec b) ->
  stored_score (zset_member_key u m) s = Ret (score_at (db s) u m, s).
Proof.
  intros Hm. unfold stored_score, score_at, get_raw, reads, mbind, M_bind, lift. cbn [rust_bind fst snd].
  destruct (kv_get (db s) _) as [b|] eqn:Hg; [|reflexivity]. destruct (Hm b eq_refl) as (r & Hr & ->).
  rewrite score_of_member by assumption. reflexivity.
Qed.

(** Delivering a member record to its key. *)
Lemma deliver_member d u m b : zset_wf d -> slice_len_ok u -> member_rec b -> exists r, member_ok r /\
  deliver_with (merged_at (zset_member_key u m)) (kv_get d (zset_member_key u m)) b = Ret (erec_bytes r).
Proof.
  intros [Hm _] Hu (i & Hi & ->). destruct (kv_get d _) as [l|] eqn:Hg; cbn [deliver_with]; [|eauto].
  destruct (Hm u m l Hu Hg) as (r & Hr & ->). exists (erec_join r i). split; [apply member_join; assumption|].
  apply merged_members; assumption.
Qed.

Lemma score_eqb_code a b : (forall x, a = Some x -> u64 x) -> (forall x, b = Some x -> u64 x) -> score_eqb a b = true ->
  encode_score <$> a = encode_score <$> b.
Proof.
  intros Ha Hb E. destruct a as [a|], b as [b|]; try discriminate; [|reflexivity].
  cbn. f_equal. apply f64_eqb_code; auto.
Qed.

Lemma put_index_eq (s : Shard DB) u e m : slice_len_ok u -> exists hints,
  put_index (zset_score_key u e m) s = Ret (tt, mkShard (kv_put (db s) (zset_score_key u e m) []) (hlc_word s) hints (ticks s)).
Proof.
  intros Hu. unfold put_index, put_raw, writes, lift, mbind, M_bind. cbn [rust_bind fst snd].
  unfold zset_score_key. rewrite parse_prefixed by (reflexivity || assumption). cbn [rust_bind fst snd].
  unfold pop_hint_on_insert, hint_update. cbn [db hlc_word pop_hints ticks]. eexists. reflexivity.
Qed.

(** The index step of [apply_member_record]: drop the old entry, add the new. *)
Definition unindex (u m : bytes) (old : option Z) (d : DB) : DB :=
  match old with Some s => kv_delete d (zset_score_key u (encode_score s) m) | None => d end.
Definition reindex (u m : bytes) (old new : option Z) (d : DB) : DB :=
  match new with
  | Some s => kv_put (unindex u m old d) (zset_score_key u (encode_score s) m) []
  | None => unindex u m old d
  end.

Lemma unindex_get u m old d e : slice_len_ok u -> (forall x, old = Some x -> u64 x) -> u64 e ->
  is_Some (kv_get (unindex u m old d) (zset_score_key u e m)) <->
  encode_score <$> old <> Some e /\ is_Some (kv_get d (zset_score_key u e m)).
Proof.
  intros Hu Ho He. destruct old as [s|]; cbn [unindex fmap option_fmap option_map];
    [|split; [split; [discriminate|assumption]|tauto]]. specialize (Ho s eq_refl). apply encode_score_u64 in Ho.
  destruct (decide (encode_score s = e)) as [<-|Hne].
  - rewrite kv_delete_get_eq. split; [intros [? ?]; discriminate|tauto].
  - rewrite kv_delete_frame; [|intros E; apply score_key_inj in E as (_ & E & _); auto]. split; [split; congruence|tauto].
Qed.

Lemma reindex_get u m old new d e : slice_len_ok u -> (forall x, old = Some x -> u64 x) -> (forall x, new = Some x -> u64 x) ->
  u64 e -> is_Some (kv_get (reindex u m old new d) (zset_score_key u e m)) <->
  encode_score <$> new = Some e \/ encode_score <$> old <> Some e /\ is_Some (kv_get d (zset_score_key u e m)).
Proof.
  intros Hu Ho Hn He. rewrite <- unindex_get by assumption.
  destruct new as [s|]; cbn [reindex fmap option_fmap option_map]; [|split; [auto|intros [?|?]; [discriminate|assumption]]].
  specialize (Hn s eq_refl). apply encode_score_u64 in Hn. destruct (decide (encode_score s = e)) as [<-|Hne].
  - rewrite kv_put_get_eq. split; [auto|]. intros _. eauto.
  - rewrite kv_put_frame; [|intros E; apply score_key_inj in E as (_ & E & _); auto]. split; [auto|]. intros [E|Hs]; [congruence|exact Hs].
Qed.

Lemma reindex_frame u m old new d : (forall x, old = Some x -> u64 x) -> (forall x, new = Some x -> u64 x) ->
  forall k, (forall e, u64 e -> k <> zset_score_key u e m) -> kv_get (reindex u m old new d) k = kv_get d k.
Proof.
  intros Ho Hn k Hk. assert (Hu : kv_get (unindex u m old d) k = kv_get d k).
  { destruct old as [s|]; [|reflexivity]. apply kv_delete_frame, Hk, encode_score_u64, Ho. reflexivity. }
  destruct new as [s|]; [|exact Hu]. cbn [reindex]. rewrite kv_put_frame; [exact Hu|]. apply Hk, encode_score_u64, Hn. reflexivity.
Qed.

(** The keys an update of one member may add. *)
Definition member_keys (u m : bytes) (d d' : DB) : Prop := forall k, is_Some (kv_get d' k) ->
  is_Some (kv_get d k) \/ k = zset_member_key u m \/ exists e, u64 e /\ k = zset_score_key u e m.

Lemma frame_keys u m d d1 : frame (zset_member_key u m) d d1 -> member_keys u m d d1.
Proof. intros Hf k Hk. destruct (decide (k = zset_member_key u m)) as [->|Hne]; [auto|]. left. rewrite <- Hf; assumption. Qed.

Lemma reindex_keys u m old new d d1 : (forall x, new = Some x -> u64 x) -> member_keys u m d d1 -> member_keys u m d (reindex u m old new d1).
Proof.
  intros Hn Hk k Hs. assert (Hu : is_Some (kv_get (unindex u m old d1) k) -> is_Some (kv_get d1 k)).
  { destruct old as [s|]; [|auto]. cbn [unindex]. rewrite kv_get_delete. destruct (bytes_eqb _ _); [intros [? ?]; discriminate|auto]. }
  destruct new as [s|]; cbn [reindex] in Hs; [|apply Hk, Hu, Hs]. rewrite kv_get_put in Hs. unfold bytes_eqb in Hs.
  case_bool_decide as E; [|apply Hk, Hu, Hs]. right. right. exists (encode_score s). split; [apply encode_score_u64; auto|congruence].
Qed.

(** A store whose member record changed is consistent again once its index
    entry has moved from the old score to the new one. *)
Lemma reindex_wf d d1 u m r : slice_len_ok u -> zset_wf d -> frame (zset_member_key u m) d d1 -> member_ok r ->
  kv_get d1 (zset_member_key u m) = Some (erec_bytes r) ->
  zset_wf (reindex u m (score_at d u m) (st_score (er_st r)) d1) /\
  member_frame u m d (reindex u m (score_at d u m) (st_score (er_st r)) d1) /\
  kv_get (reindex u m (score_at d u m) (st_score (er_st r)) d1) (zset_member_key u m) = Some (erec_bytes r).
Proof.
  intros Hu Hwf Hf Hr Hg. set (d' := reindex _ _ _ _ _).
  assert (Ho : forall x, score_at d u m = Some x -> u64 x) by (intros x; apply score_at_u64; assumption).
  assert (Hn : forall x, st_score (er_st r) = Some x -> u64 x) by (intros x; apply st_score_u64, Hr).
  assert (Hg' : kv_get d' (zset_member_key u m) = Some (erec_bytes r)).
  { unfold d'. rewrite reindex_frame by (auto; intros; apply member_not_score; assumption). exact Hg. }
  assert (Hfr : member_frame u m d d').
  { intros k Hk Hs. unfold d'. rewrite reindex_frame by auto. apply Hf, Hk. }
  split_and!; [|exact Hfr|exact Hg']. apply (zset_wf_update d d' u m Hu Hwf Hfr).
  - intros b Hb. rewrite Hg' in Hb. injection Hb as <-. exists r. auto.
  - intros e He. rewrite (score_at_member d' u m r Hr Hg'). unfold d'. rewrite reindex_get by assumption.
    rewrite Hf by (intros E; symmetry in E; apply member_not_score in E; assumption). rewrite (zw_index d Hwf u e m Hu He). naive_solver.
Qed.

(** The same scores need no index step. *)
Lemma same_score_wf d d1 u m r : slice_len_ok u -> zset_wf d -> frame (zset_member_key u m) d d1 -> member_ok r ->
  kv_get d1 (zset_member_key u m) = Some (erec_bytes r) -> encode_score <$> score_at d u m = encode_score <$> st_score (er_st r) ->
  zset_wf d1 /\ member_frame u m d d1.
Proof.
  intros Hu Hwf Hf Hr Hg E. assert (Hfr : member_frame u m d d1) by (intros k Hk _; apply Hf, Hk). split; [|exact Hfr].
  apply (zset_wf_update d d1 u m Hu Hwf Hfr).
  - intros b Hb. rewrite Hg in Hb. injection Hb as <-. exists r. auto.
  - intros e He. rewrite (score_at_member d1 u m r Hr Hg), <- E.
    rewrite Hf by (intros E'; symmetry in E'; apply member_not_score in E'; assumption). apply (zw_index d Hwf); assumption.
Qed.

(** [apply_member_record] merges the record and keeps the index consistent. *)
Lemma apply_member_record_spec (s : Shard DB) u m b x : slice_len_ok u -> zset_wf (db s) -> member_rec b ->
  deliver_with (merged_at (zset_member_key u m)) (kv_get (db s) (zset_member_key u m)) b = Ret x ->
  exists c s', apply_member_record u m b s = Ret (c, s') /\ zset_wf (db s') /\ member_frame u m (db s) (db s') /\
    kv_get (db s') (zset_member_key u m) = Some x /\ member_keys u m (db s) (db s').
Proof.
  intros Hu Hwf Hb Hx. destruct (deliver_member (db s) u m b Hwf Hu Hb) as (r & Hr & Hx'). rewrite Hx in Hx'. injection Hx' as ->.
  destruct (write_merged_plain s (zset_member_key u m) _ b _ (parse_prefixed TZsetMember u m eq_refl Hu) ltac:(discriminate) Hx)
    as (c & d1 & Hw & Hg & Hf).
  unfold apply_member_record. cbv zeta. unfold mbind at 1, M_bind at 1.
  rewrite stored_score_eq by (intros b' Hb'; eapply zw_member; eassumption). cbn [rust_bind fst snd].
  unfold mbind at 1, M_bind at 1. rewrite Hw. cbn [rust_bind fst snd]. unfold mbind at 1, M_bind at 1.
  rewrite stored_score_eq by (cbn [with_db db]; rewrite Hg; intros b' [= <-]; exists r; auto). cbn [rust_bind fst snd with_db db].
  rewrite (score_at_member d1 u m r Hr Hg). destruct (score_eqb _ _) eqn:E.
  - destruct (same_score_wf (db s) d1 u m r Hu Hwf Hf Hr Hg) as [H1 H2].
    { apply score_eqb_code; [intros ?; apply score_at_u64; assumption|intros ?; apply st_score_u64, Hr|exact E]. }
    exists c. eexists. split; [reflexivity|]. cbn [with_db db]. auto using frame_keys.
  - destruct (reindex_wf (db s) d1 u m r Hu Hwf Hf Hr Hg) as (H1 & H2 & H3).
    pose proof (reindex_keys u m (score_at (db s) u m) (st_score (er_st r)) (db s) d1
      (fun x => st_score_u64 r x Hr) (frame_keys u m (db s) d1 Hf)) as H4.
    unfold reindex, unindex in *. exists c.
    destruct (score_at (db s) u m) as [o|], (st_score (er_st r)) as [n|];
      unfold mbind, M_bind, del_raw, writes, mret, M_ret; cbn [rust_bind fst snd with_db db hlc_word pop_hints ticks].
    + edestruct (put_index_eq (mkShard (kv_delete d1 (zset_score_key u (encode_score o) m)) (hlc_word s) (pop_hints s) (ticks s)))
        as [hints Hp]; [exact Hu|]. rewrite Hp. cbn [rust_bind fst snd]. eexists. split; [reflexivity|]. cbn [db]. auto.
    + eexists. split; [reflexivity|]. cbn [db]. auto.
    + edestruct (put_index_eq (with_db s d1)) as [hints Hp]; [exact Hu|]. unfold with_db in Hp. rewrite Hp.
      cbn [rust_bind fst snd]. eexists. split; [reflexivity|]. cbn [db]. auto.
    + eexists. split; [reflexivity|]. cbn [db]. auto.
Qed.

(** ** Visible scores *)

(** The score a reader sees; member records do not expire. *)
Definition shown (d : DB) (u : bytes) (del : Z) (m : bytes) : option Z :=
  match kv_get d (zset_member_key u m) ≫= Envelope_decode with
  | Some (env, pay) =>
      match visible env pay del 0 with
      | Some _ => match payload_score pay with Ret o => o | Panic => None end
      | None => None
      end
  | None => None
  end.

Lemma visible_member r del now : member_ok r ->
  visible (erec_env r) (ElementState_encode (er_st r)) del now =
  if is_dead (er_st r) || ((er_ver r).1 <=? del) then None else Some (ElementState_encode (er_st r)).
Proof.
  intros Hr. unfold visible. rewrite erec_env_tombstone.
  assert (is_expired (erec_env r) now = false) as ->.
  { unfold is_expired. cbn [erec_env ttl_deadline_ms]. rewrite (mo_ttl r Hr). reflexivity. }
  rewrite orb_false_r. reflexivity.
Qed.

Lemma shown_member d u del m r : member_ok r -> kv_get d (zset_member_key u m) = Some (erec_bytes r) ->
  shown d u del m = if is_dead (er_st r) || ((er_ver r).1 <=? del) then None else st_score (er_st r).
Proof.
  intros Hr Hg. unfold shown. rewrite Hg. cbn [mbind option_bind]. rewrite (proj1 (erec_decode r (mo_rec r Hr))), visible_member by assumption.
  destruct (_ || _); [reflexivity|]. rewrite payload_score_of by assumption. reflexivity.
Qed.

Lemma shown_score d u del m s : zset_wf d -> slice_len_ok u -> shown d u del m = Some s -> score_at d u m = Some s.
Proof.
  intros Hwf Hu. destruct (kv_get d (zset_member_key u m)) as [b|] eqn:Hg; [|unfold shown; rewrite Hg; discriminate].
  destruct (zw_member d Hwf u m b Hu Hg) as (r & Hr & ->). rewrite (shown_member d u del m r Hr Hg), (score_at_member d u m r Hr Hg).
  destruct (_ || _); [discriminate|auto].
Qed.

(** The rest of the shard when only time has passed. *)
Definition later (s s' : Shard DB) : Prop := db s' = db s /\ pop_hints s' = pop_hints s /\ hlc_word s' = hlc_word s.

Context (node_id : Z) (wall : nat -> Z).

Lemma member_score_eq (s : Shard DB) u del m : zset_wf (db s) -> slice_len_ok u ->
  exists s', member_score wall u m del s = Ret (shown (db s) u del m, s') /\ later s s'.
Proof.
  intros Hwf Hu. unfold member_score, mbind, M_bind, get_raw, reads. cbn [rust_bind fst snd].
  destruct (kv_get (db s) (zset_member_key u m)) as [b|] eqn:Hg.
  2: { exists s. unfold shown. rewrite Hg. split; [reflexivity|]. repeat split. }
  destruct (zw_member _ Hwf u m b Hu Hg) as (r & Hr & ->). rewrite (shown_member _ u del m r Hr Hg).
  cbn [option_bind]. rewrite (proj1 (erec_decode r (mo_rec r Hr))). unfold now_ms. cbn [rust_bind fst snd].
  rewrite visible_member by assumption. destruct (_ || _); [eexists; split; [reflexivity|repeat split]|].
  unfold lift. rewrite payload_score_of by assumption. eexists. split; [reflexivity|repeat split].
Qed.

(** Removing a member whose record has room for the observed dots. *)
Definition room_at (d : DB) (u m : bytes) : Prop := forall r,
  member_ok r -> kv_get d (zset_member_key u m) = Some (erec_bytes r) -> has_room r.

Lemma remove_member_spec (s : Shard DB) u m del : u16 node_id -> slice_len_ok u -> zset_wf (db s) -> room_at (db s) u m ->
  exists b s', remove_member node_id wall u m del s = Ret (b, s') /\ zset_wf (db s') /\ member_frame u m (db s) (db s') /\
    pop_hints s' = pop_hints s /\ score_at (db s') u m = (if b then None else score_at (db s) u m) /\
    (b = false -> db s' = db s) /\ (is_Some (shown (db s) u del m) -> b = true).
Proof.
  intros Hn Hu Hwf Hroom. unfold remove_member, mbind, M_bind, get_raw, reads, lift, mret, M_ret. cbn [rust_bind fst snd].
  assert (Hnot : forall s', later s s' -> ~ is_Some (shown (db s) u del m) -> exists b s'', Ret (false, s') = Ret (b, s'') /\
    zset_wf (db s'') /\ member_frame u m (db s) (db s'') /\ pop_hints s'' = pop_hints s /\
    score_at (db s'') u m = (if b then None else score_at (db s) u m) /\
    (b = false -> db s'' = db s) /\ (is_Some (shown (db s) u del m) -> b = true)).
  { intros s' (E1 & E2 & _) Hno. exists false, s'. rewrite E1, E2. split_and!; try reflexivity; [exact Hwf|intros k _ _; reflexivity|tauto]. }
  destruct (kv_get (db s) (zset_member_key u m)) as [b|] eqn:Hg.
  2: { apply Hnot; [repeat split|]. unfold shown. rewrite Hg. intros [? ?]. discriminate. }
  destruct (zw_member _ Hwf u m b Hu Hg) as (r & Hr & ->). destruct (erec_decode r (mo_rec r Hr)) as [D1 D2]. rewrite D1.
  unfold now_ms. cbn [rust_bind fst snd]. rewrite visible_member by assumption. rewrite score_of_member by assumption.
  pose proof (shown_member _ u del m r Hr Hg) as Hsh. destruct (_ || _); cbn [rust_bind fst snd].
  { apply Hnot; [repeat split|]. rewrite Hsh. intros [? ?]. discriminate. }
  unfold element_value, element_dots. rewrite D2. cbn [rust_bind fst snd mbind option_bind].
  destruct (st_value (er_st r)) as [val|] eqn:Hval; cbn [rust_bind fst snd].
  2: { apply Hnot; [repeat split|]. rewrite Hsh. unfold st_score. rewrite Hval. intros [? ?]. discriminate. }
  unfold hlc_now. cbn [db hlc_word pop_hints ticks]. pose proof (Hlc_now_u64 (hlc_word s) (wall (S (ticks s)))) as Hh.
  destruct (Hlc_now _ _) as [w h]. cbn [rust_bind fst snd default fmap option_fmap option_map] in *.
  cbn [id]. rewrite element_remove_eq. set (s1 := mkShard (db s) w (pop_hints s) _).
  pose proof (removal_ok h node_id r Hh Hn Hr) as Hrm. set (j := erec_join r (removal h node_id r)).
  assert (Hj : member_ok j) by (apply member_join; assumption).
  destruct (write_merged_plain s1 (zset_member_key u m) _ (erec_bytes (removal h node_id r)) (erec_bytes j)
    (parse_prefixed TZsetMember u m eq_refl Hu) ltac:(discriminate)) as (c & d1 & Hw & Hg1 & Hf).
  { cbn [s1 db]. rewrite Hg. apply merged_members; assumption. }
  rewrite Hw. cbn [rust_bind fst snd]. assert (Hdead : st_score (er_st j) = None).
  { unfold st_score, st_value, j. rewrite (removal_dead h node_id r Hr (Hroom r Hr Hg)). reflexivity. }
  destruct (reindex_wf (db s) d1 u m j Hu Hwf Hf Hj Hg1) as (H1 & H2 & H3). rewrite Hdead in H1, H2, H3.
  rewrite (score_at_member (db s) u m r Hr Hg) in *. cbn [reindex] in *.
  pose proof (score_at_member _ u m j Hj H3) as H4. rewrite Hdead in H4. exists true. unfold unindex in *.
  destruct (st_score (er_st r)) as [sc|]; unfold del_raw, writes; cbn [rust_bind fst snd];
    (eexists; split; [reflexivity|]; cbn [with_db db pop_hints s1]; split_and!; auto; discriminate).
Qed.
End index.

Lemma write_member_spec {DB} `{KVLaws DB} node_id wall (s : Shard DB) u m score :
  u16 node_id -> slice_len_ok u -> zset_wf (db s) ->
  exists s', write_member node_id wall u m score s = Ret (tt, s') /\ zset_wf (db s') /\ member_frame u m (db s) (db s').
Proof.
  intros Hn Hu Hwf. unfold write_member, mbind, M_bind, hlc_now. pose proof (Hlc_now_u64 (hlc_word s) (wall (ticks s))) as Hh.
  destruct (Hlc_now _ _) as [w h]. cbn [rust_bind fst snd] in *. pose proof (element_add_member h node_id score Hh Hn) as Hb.
  destruct (deliver_member (db s) u m _ Hwf Hu Hb) as (r & Hr & Hx).
  destruct (apply_member_record_spec (mkShard (db s) w (pop_hints s) (S (ticks s))) u m _ _ Hu Hwf Hb Hx)
    as (c & s' & H1 & H2 & H3 & _). rewrite H1. cbn [rust_bind fst snd]. exists s'. auto.
Qed.

Lemma zset_wf_empty : zset_wf (∅ : gmap bytes bytes).
Proof.
  assert (Hget : forall k, kv_get (∅ : gmap bytes bytes) k = None) by (intros k; apply lookup_empty).
  split; [intros u m b _ Hb; rewrite Hget in Hb; discriminate|]. intros u e m _ _. unfold score_at. rewrite !Hget.
  split; [intros [? ?]|]; discriminate.
Qed.


(** 1.0 *)
Definition ex_one : Z := 0x3FF0000000000000.
Definition ex_zkey : bytes := [122].
Definition ex_zwall (n : nat) : Z := 1700000000000 + Z.of_nat n.


(** ** Two defects of ZPOPMIN *)

Definition ex_flags : ZaddFlags := mkZaddFlags false false false false false false.

(** ZADD z 1 a; DEL z; ZPOPMIN z; ZADD z 1 a; ZPOPMIN z; ZCARD z. *)
Definition ex_recreate : M (gmap bytes bytes) (list Reply) :=
  r1 ← zadd 1 ex_zwall ex_flags ex_zkey [(ex_one, [97])];
  _ ← del_key 1 ex_zwall ex_zkey;
  r2 ← zpop 1 ex_zwall ex_zkey None false;
  r3 ← zadd 1 ex_zwall ex_flags ex_zkey [(ex_one, [97])];
  r4 ← zpop 1 ex_zwall ex_zkey None false;
  r5 ← zcard ex_zwall ex_zkey;
  mret [r1; r2; r3; r4; r5].

(** ZADD z 1 a; ZPOPMIN z 0; ZCARD z. *)
Definition ex_pop_none : M (gmap bytes bytes) (list Reply) :=
  r1 ← zadd 1 ex_zwall ex_flags ex_zkey [(ex_one, [97])];
  r2 ← zpop 1 ex_zwall ex_zkey (Some 0) false;
  r3 ← zcard ex_zwall ex_zkey;
  mret [r1; r2; r3].

Definition replies {DB A} (m : M DB A) (s : Shard DB) : option A := match m s with Ret r => Some r.1 | Panic => None end.

(** ZPOPMIN misses a member that ZCARD counts: after DEL, a pop marks the
    set as drained; re-adding the member at its old score changes no stored
    score, so the index entry is not written again, the mark is not lifted and
    the next pop answers with the empty list although the set has one member. *)
Theorem zpopmin_misses_readded_member :
  replies ex_recreate (ex_shard ∅) = Some [RInt 1; RPairs []; RInt 1; RPairs []; RInt 1].
Proof. vm_compute. reflexivity. Qed.

(** ZPOPMIN with count 0 pops one member: the candidate walk tests its
    limit only after taking a pair. *)
Theorem zpopmin_zero_pops_one :
  replies ex_pop_none (ex_shard ∅) = Some [RInt 1; RPairs [(ex_one, [97])]; RInt 0].
Proof. vm_compute. reflexivity. Qed.
