(* ===== verification/ZsetPop.v ===== *)
(** * Popping the least members of a sorted set

    ZPOPMIN walks the score index from a remembered position.  This file shows
    what the walk finds and that the pops are exact as long as the remembered
    position hides no visible member. *)

From S2P Require Import Prelude Partition Hlc Envelope Varint Ikey Counter Lattice Merge MergeLaws Score F64 BudgetCore Store Zset.

(** Score order, then member bytes. *)
Definition score_lt (a b : Z * bytes) : Prop :=
  f64_value a.1 < f64_value b.1 \/ f64_value a.1 = f64_value b.1 /\ bytes_cmp a.2 b.2 = Lt.

#[export] Instance score_lt_irrefl : Irreflexive score_lt.
Proof. intros a. unfold complement, score_lt. rewrite bytes_cmp_refl. intros [?|[_ ?]]; [lia|discriminate]. Qed.
#[export] Instance score_lt_trans : Transitive score_lt.
Proof.
  intros a b c [H1|[H1 H1']] [H2|[H2 H2']]; unfold score_lt; [left; lia..|].
  right. split; [congruence|]. eapply bytes_cmp_trans; eassumption.
Qed.

Lemma bytes_le_trans a b c : bytes_cmp a b <> Gt -> bytes_cmp b c <> Gt -> bytes_cmp a c <> Gt.
Proof. apply (key_le_trans (a, []) (b, []) (c, [])). Qed.

Lemma StronglySorted_omap {A B} (R : relation A) (R' : relation B) (f : A -> option B) l :
  (forall x y a b, x ∈ l -> y ∈ l -> f x = Some a -> f y = Some b -> R x y -> R' a b) ->
  StronglySorted R l -> StronglySorted R' (omap f l).
Proof.
  intros Hf Hs. induction Hs as [|x l Hs IH Hall]; [constructor|].
  assert (Hl : StronglySorted R' (omap f l)) by (apply IH; intros; eapply Hf; try eassumption; right; assumption).
  cbn. destruct (f x) as [a|] eqn:Hx; [|exact Hl]. constructor; [exact Hl|]. apply Forall_forall.
  intros b (y & Hy & Hb)%list_elem_of_omap. apply (Hf x y); [left|right; exact Hy|exact Hx|exact Hb|apply (proj1 (Forall_forall _ _) Hall), Hy].
Qed.

(** The order of index keys is the order of scores and members. *)
Lemma score_key_cmp u a b : u64 a.1 -> u64 b.1 ->
  bytes_cmp (zset_score_key u (encode_score a.1) a.2) (zset_score_key u (encode_score b.1) b.2) = Lt -> score_lt a b.
Proof.
  intros Ha Hb. unfold zset_score_key. rewrite prefixed_cmp. pose proof (encode_score_u64 _ Ha) as Ea.
  pose proof (encode_score_u64 _ Hb) as Eb. rewrite bytes_cmp_app_eqlen by (rewrite !length_be_bytes; reflexivity).
  rewrite be8_cmp by assumption. rewrite (encode_score_rank _ Ha), (encode_score_rank _ Hb).
  rewrite (mono_compare rank_code rank_code_mono). unfold score_lt. rewrite (f64_value_rank _ Ha), (f64_value_rank _ Hb).
  destruct (Z.compare_spec (f64_rank a.1) (f64_rank b.1)) as [->|Hlt|]; [auto| |discriminate].
  intros _. left. apply rank_value_mono, Hlt.
Qed.

Section walk.
Context {DB : Type} `{KVLaws DB}.
Context (node_id : Z) (wall : nat -> Z) (u : bytes) (del : Z) (Hu : slice_len_ok u).

Abbreviation index_prefix := (collection_prefix TZsetScore u).
Abbreviation index_key sc m := (zset_score_key u (encode_score sc) m).

(** The pair an index key stands for. *)
Definition entry_at (d : DB) (k : bytes) : option (Z * bytes) :=
  match parse k with
  | Ret (Some p) =>
      if (8 <=? length (pk_suffix p))%nat then
        match shown d u del (drop 8 (pk_suffix p)) with
        | Some sc => if encode_score sc =? of_be (take 8 (pk_suffix p)) then Some (sc, drop 8 (pk_suffix p)) else None
        | None => None
        end
      else None
  | _ => None
  end.

Lemma index_entry_eq (s : Shard DB) k : zset_wf (db s) -> starts_with k index_prefix = true ->
  exists s', index_entry wall u del k s = Ret (entry_at (db s) k, s') /\ later s s'.
Proof.
  intros Hwf (sfx & ->)%starts_with_spec. unfold index_entry, entry_at, lift, mbind, M_bind.
  rewrite <- prefixed_split, parse_prefixed by (reflexivity || assumption). cbn [rust_bind fst snd pk_suffix].
  destruct (8 <=? length sfx)%nat; [|exists s; split; [reflexivity|repeat split]].
  destruct (member_score_eq wall s u del (drop 8 sfx) Hwf Hu) as (s' & -> & Hl). cbn [rust_bind fst snd].
  exists s'. split; [reflexivity|exact Hl].
Qed.

(** An index key stands for the pair it was built from, and for no other. *)
Lemma entry_at_key d sc m : zset_wf d -> shown d u del m = Some sc -> entry_at d (index_key sc m) = Some (sc, m).
Proof.
  intros Hwf Hs. unfold entry_at, zset_score_key. rewrite parse_prefixed by (reflexivity || assumption). cbn [pk_suffix].
  assert (Hsc : u64 sc) by (eapply score_at_u64; [exact Hwf|exact Hu|eapply shown_score; eassumption]).
  pose proof (encode_score_u64 _ Hsc) as He. pose proof (length_be_bytes 8 (encode_score sc)) as Hl8.
  rewrite length_app, Hl8. cbn [Nat.leb Nat.add].
  rewrite (take_app_length' _ _ 8) by (symmetry; exact Hl8). rewrite (drop_app_length' _ _ 8) by (symmetry; exact Hl8).
  rewrite Hs, of_be_u64, Z.eqb_refl by assumption. reflexivity.
Qed.

Lemma entry_at_inv d k sc m : zset_wf d -> is_bytes k -> starts_with k index_prefix = true -> entry_at d k = Some (sc, m) ->
  shown d u del m = Some sc /\ k = index_key sc m.
Proof.
  intros Hwf Hb (sfx & ->)%starts_with_spec. unfold entry_at. apply is_bytes_app in Hb as [_ Hb].
  rewrite <- prefixed_split, parse_prefixed by (reflexivity || assumption). cbn [pk_suffix].
  destruct (8 <=? length sfx)%nat eqn:E8; [|discriminate]. apply Nat.leb_le in E8.
  destruct (shown d u del (drop 8 sfx)) as [sc'|] eqn:Hs; [|discriminate]. destruct (Z.eqb_spec (encode_score sc') (of_be (take 8 sfx))) as [E|]; [|discriminate].
  intros [= -> <-]. split; [exact Hs|]. unfold zset_score_key. rewrite E.
  replace (be_bytes 8 (of_be (take 8 sfx))) with (take 8 sfx); [rewrite take_drop; reflexivity|].
  rewrite <- (be_bytes_of_be (take 8 sfx)) at 1 by (apply is_bytes_take, Hb). f_equal. rewrite length_take. lia.
Qed.

(** The walk collects pairs up to the limit; the last key it visited is not
    past a pair it left out. *)
Lemma collect_loop d limit l : zset_wf d -> Forall (fun e => starts_with e.1 index_prefix = true) l -> StronglySorted key_lt l ->
  forall acc last s, db s = d -> Z.of_nat (length acc) < limit -> exists last' s',
    scan_loop_cmd index_prefix (collect wall u del limit) (acc, last) l s =
      Ret ((acc ++ take (Z.to_nat limit - length acc) (omap (entry_at d) (fst <$> l)), last'), s') /\ later s s' /\
    (last' = last /\ l = [] \/ exists h, last' = Some h /\ h ∈ fst <$> l) /\
    (forall k e, k ∈ fst <$> l -> entry_at d k = Some e ->
       e ∈ take (Z.to_nat limit - length acc) (omap (entry_at d) (fst <$> l)) \/ exists h, last' = Some h /\ bytes_cmp h k = Lt).
Proof.
  intros Hwf Hp Hs. induction Hs as [|[k v] l Hs IH Hall]; intros acc last s Hd Hlen.
  { exists last, s. cbn. rewrite take_nil, app_nil_r. split_and!; [reflexivity|repeat split|auto|]. intros k e Hk. set_solver. }
  apply Forall_cons in Hp as [Hk Hp]. specialize (IH Hp). cbn [fst] in Hk. cbn [scan_loop_cmd fmap list_fmap fst]. rewrite Hk. cbn [negb].
  unfold mbind, M_bind, collect at 1, mbind, M_bind. rewrite <- Hd in Hwf. destruct (index_entry_eq s k Hwf Hk) as (s1 & -> & Hl1). rewrite Hd in *.
  cbn [rust_bind fst snd mret M_ret]. destruct Hl1 as (D1 & P1 & W1). rewrite Hd in D1.
  assert (Hnext : forall out, Z.of_nat (length out) < limit -> exists last' s',
    scan_loop_cmd index_prefix (collect wall u del limit) (out, Some k) l s1 =
      Ret ((out ++ take (Z.to_nat limit - length out) (omap (entry_at d) (fst <$> l)), last'), s') /\ later s s' /\
    (exists h, last' = Some h /\ h ∈ k :: (fst <$> l)) /\
    (forall k e, k ∈ fst <$> l -> entry_at d k = Some e ->
       e ∈ take (Z.to_nat limit - length out) (omap (entry_at d) (fst <$> l)) \/ exists h, last' = Some h /\ bytes_cmp h k = Lt)).
  { intros out Hout. destruct (IH out (Some k) s1 D1 Hout) as (last' & s' & E1 & (D2 & P2 & W2) & E3 & E4).
    exists last', s'. split_and!; [exact E1|repeat split; congruence| |exact E4].
    destruct E3 as [[-> ->]|(h & -> & Hh)]; [exists k; split; [reflexivity|left]|exists h; split; [reflexivity|right; exact Hh]]. }
  cbn [omap list_omap]. destruct (entry_at d k) as [e|] eqn:Ek.
  - rewrite length_app. cbn [length]. destruct (Z.ltb_spec (Z.of_nat (length acc + 1)) limit) as [Hlt|Hge].
    + destruct (Hnext (acc ++ [e])) as (last' & s' & E1 & E2 & E3 & E4); [rewrite length_app; cbn; lia|].
      exists last', s'. rewrite length_app in *. cbn [length] in *.
      replace (Z.to_nat limit - length acc)%nat with (S (Z.to_nat limit - (length acc + 1)))%nat by lia. cbn [take].
      rewrite E1, <- app_assoc. split_and!; [reflexivity|exact E2|right; exact E3|].
      intros k' e' [->|Hk']%elem_of_cons He'; [rewrite Ek in He'; injection He' as <-; left; left|].
      destruct (E4 k' e' Hk' He') as [Hin|Hh]; [left; right; exact Hin|right; exact Hh].
    + exists (Some k), s1. replace (Z.to_nat limit - length acc)%nat with 1%nat by lia. cbn [take].
      split_and!; [reflexivity|repeat split; congruence|right; exists k; split; [reflexivity|left]|].
      intros k' e' [->|Hk']%elem_of_cons He'; [rewrite Ek in He'; injection He' as <-; left; left|]. right. exists k. split; [reflexivity|].
      apply list_elem_of_fmap in Hk' as (x & -> & Hx). apply (proj1 (Forall_forall _ _) Hall x Hx).
  - rewrite (proj2 (Z.ltb_lt _ _) Hlen). destruct (Hnext acc Hlen) as (last' & s' & E1 & E2 & E3 & E4).
    exists last', s'. rewrite E1. split_and!; [reflexivity|exact E2|right; exact E3|].
    intros k' e' [->|Hk']%elem_of_cons He'; [congruence|]. apply E4; assumption.
Qed.

(** The pairs in the index from a position on. *)
Definition entries_from (d : DB) (b : bytes) : list (Z * bytes) :=
  omap (entry_at d) (fst <$> kv_range d b (prefix_upper_bound index_prefix)).

Lemma range_from d b k v : keys_are_bytes d -> bytes_cmp index_prefix b <> Gt ->
  (k, v) ∈ kv_range d b (prefix_upper_bound index_prefix) <->
  kv_get d k = Some v /\ bytes_cmp b k <> Gt /\ starts_with k index_prefix = true.
Proof.
  intros Hb Hle. rewrite kv_range_spec. split.
  - intros (Hg & Hlo & Hup). split_and!; [exact Hg|exact Hlo|]. apply prefix_interval; [eapply Hb; exact Hg|].
    split; [|exact Hup]. eapply bytes_le_trans; eassumption.
  - intros (Hg & Hlo & Hs). split_and!; [exact Hg|exact Hlo|]. apply prefix_interval; [eapply Hb; exact Hg|exact Hs].
Qed.

Lemma entries_from_spec d b : keys_are_bytes d -> zset_wf d -> bytes_cmp index_prefix b <> Gt ->
  StronglySorted score_lt (entries_from d b) /\
  forall sc m, (sc, m) ∈ entries_from d b <-> shown d u del m = Some sc /\ bytes_cmp b (index_key sc m) <> Gt.
Proof.
  intros Hb Hwf Hle. assert (Hu64 : forall sc m, shown d u del m = Some sc -> u64 sc).
  { intros sc m Hs. eapply score_at_u64; [exact Hwf|exact Hu|eapply shown_score; eassumption]. }
  assert (Hin : forall k, k ∈ fst <$> kv_range d b (prefix_upper_bound index_prefix) ->
    is_bytes k /\ bytes_cmp b k <> Gt /\ starts_with k index_prefix = true).
  { intros k ([k' v] & -> & Hk)%list_elem_of_fmap. apply range_from in Hk as (Hg & ? & ?); [|assumption..]. eauto. }
  split.
  - apply (StronglySorted_omap (fun k k' => bytes_cmp k k' = Lt)).
    + intros x y [sc m] [sc' m'] Hx Hy Ex Ey Hlt. apply Hin in Hx as (Bx & _ & Px), Hy as (By & _ & Py).
      apply entry_at_inv in Ex as [Sx ->], Ey as [Sy ->]; [|assumption..]. apply (score_key_cmp u); cbn; eauto.
    + assert (Hs := kv_range_sorted d b (prefix_upper_bound index_prefix)). induction Hs as [|x l Hs IH Hall]; cbn; [constructor|].
      constructor; [apply IH; intros; apply Hin; right; assumption|]. apply Forall_fmap. exact Hall.
  - intros sc m. unfold entries_from. rewrite list_elem_of_omap. split.
    + intros (k & Hk & He). apply Hin in Hk as (Bk & Lk & Pk). apply entry_at_inv in He as [? ->]; auto.
    + intros [Hs Hl]. exists (index_key sc m). split; [|apply entry_at_key; assumption].
      assert (Hsome : is_Some (kv_get d (index_key sc m))).
      { apply (zw_index d Hwf); [exact Hu|eapply encode_score_u64, Hu64, Hs|]. rewrite (shown_score d u del m sc) by assumption. reflexivity. }
      destruct Hsome as [v Hv]. apply list_elem_of_fmap. exists (index_key sc m, v). split; [reflexivity|].
      apply range_from; [assumption..|]. split_and!; [exact Hv|exact Hl|]. unfold zset_score_key. rewrite prefixed_split. apply starts_with_app.
Qed.

(** The remembered position hides no visible member. *)
Definition hint_ok (s : Shard DB) : Prop :=
  match pop_hints s !! index_prefix with
  | None => True
  | Some [] => forall m, shown (db s) u del m = None
  | Some h => starts_with h index_prefix = true /\
      forall m sc, shown (db s) u del m = Some sc -> bytes_cmp h (index_key sc m) <> Gt
  end.

Lemma starts_with_le p k : starts_with k p = true -> bytes_cmp p k <> Gt.
Proof.
  intros (sfx & ->)%starts_with_spec. rewrite <- (app_nil_r p) at 1. rewrite bytes_cmp_app_same. destruct sfx; discriminate.
Qed.

Lemma index_key_le sc m : bytes_cmp index_prefix (index_key sc m) <> Gt.
Proof. apply starts_with_le. unfold zset_score_key. rewrite prefixed_split. apply starts_with_app. Qed.

(** From a sound position the walk finds what it finds from the start. *)
Lemma entries_from_hint d h : keys_are_bytes d -> zset_wf d -> starts_with h index_prefix = true ->
  (forall m sc, shown d u del m = Some sc -> bytes_cmp h (index_key sc m) <> Gt) ->
  entries_from d h = entries_from d index_prefix.
Proof.
  intros Hb Hwf Hp Hh. destruct (entries_from_spec d h Hb Hwf (starts_with_le _ _ Hp)) as [S1 E1].
  destruct (entries_from_spec d index_prefix Hb Hwf) as [S2 E2]; [rewrite bytes_cmp_refl; discriminate|].
  apply (sorted_ext score_lt); [assumption..|]. intros [sc m]. rewrite E1, E2. split; intros [Hs _]; split; auto using index_key_le.
Qed.

(** A walk from [b] returns the first pairs from there. *)
Lemma walk_from (s : Shard DB) b last limit : keys_are_bytes (db s) -> zset_wf (db s) -> bytes_cmp index_prefix b <> Gt -> 1 <= limit ->
  exists last' s', scan_from_cmd b index_prefix (collect wall u del limit) ([], last) s =
      Ret ((take (Z.to_nat limit) (entries_from (db s) b), last'), s') /\ later s s' /\
    (entries_from (db s) b <> [] -> exists h, last' = Some h /\ starts_with h index_prefix = true) /\
    (forall sc m, (sc, m) ∈ entries_from (db s) b -> (sc, m) ∈ take (Z.to_nat limit) (entries_from (db s) b) \/
       exists h, last' = Some h /\ bytes_cmp h (index_key sc m) = Lt).
Proof.
  intros Hb Hwf Hle Hlim. unfold scan_from_cmd, mbind, M_bind, reads. cbn [rust_bind fst snd].
  set (l := kv_range _ _ _).
  assert (Hl : forall k v, (k, v) ∈ l -> is_bytes k /\ starts_with k index_prefix = true).
  { intros k v Hk. apply range_from in Hk as (Hg & _ & ?); [|assumption..]. eauto. }
  destruct (collect_loop (db s) limit l Hwf) with (acc := @nil (Z * bytes)) (last := last) (s := s)
    as (last' & s' & E1 & E2 & E3 & E4).
  - apply Forall_forall. intros [k v] Hk. apply (Hl k v Hk).
  - apply kv_range_sorted.
  - reflexivity.
  - cbn. lia.
  - rewrite Nat.sub_0_r in *. exists last', s'. split_and!; [exact E1|exact E2| |].
    + intros Hne. destruct E3 as [[_ El]|(h & -> & Hh)]; [exfalso; apply Hne; unfold entries_from; fold l; rewrite El; reflexivity|].
      exists h. split; [reflexivity|]. apply list_elem_of_fmap in Hh as ([k v] & -> & Hk). apply (Hl k v Hk).
    + intros sc m Hin. unfold entries_from in Hin. fold l in Hin. apply list_elem_of_omap in Hin as (k & Hk & He).
      destruct (E4 k (sc, m) Hk He) as [Ht|(h & -> & Hlt)]; [left; exact Ht|right]. exists h. split; [reflexivity|].
      apply list_elem_of_fmap in Hk as ([k' v] & -> & Hk). destruct (Hl k' v Hk) as [Bk Pk]. cbn [fst] in *.
      apply entry_at_inv in He as [_ ->]; assumption.
Qed.

(** What [pop_scored_candidates] leaves behind as position. *)
Definition position_after (L taken : list (Z * bytes)) (h : option bytes) : Prop :=
  match h with
  | None => False
  | Some [] => L = []
  | Some h => starts_with h index_prefix = true /\ forall sc m, (sc, m) ∈ L -> (sc, m) ∈ taken \/ bytes_cmp h (index_key sc m) = Lt
  end.

Lemma pop_candidates_spec (s : Shard DB) limit : keys_are_bytes (db s) -> zset_wf (db s) -> hint_ok s -> 1 <= limit ->
  let L := entries_from (db s) index_prefix in
  exists s', pop_scored_candidates wall u del limit s = Ret (take (Z.to_nat limit) L, s') /\ db s' = db s /\
    position_after L (take (Z.to_nat limit) L) (pop_hints s' !! index_prefix).
Proof.
  intros Hb Hwf Hh Hlim L. unfold hint_ok in Hh.
  assert (Hfull : bytes_cmp index_prefix index_prefix <> Gt) by (rewrite bytes_cmp_refl; discriminate).
  destruct (entries_from_spec (db s) index_prefix Hb Hwf Hfull) as [_ HL]. fold L in HL.
  assert (Hend : forall (s1 : Shard DB) last', db s1 = db s ->
    (L <> [] -> exists h, last' = Some h /\ starts_with h index_prefix = true) ->
    (forall sc m, (sc, m) ∈ L -> (sc, m) ∈ take (Z.to_nat limit) L \/ exists h, last' = Some h /\ bytes_cmp h (index_key sc m) = Lt) ->
    exists s', (let! r := match (take (Z.to_nat limit) L, last') with
        | ([], _) => set_pop_hint_empty index_prefix
        | (_, Some lk) => set_pop_hint index_prefix lk
        | (_, None) => mret tt
        end s1 in Ret (take (Z.to_nat limit) L, r.2)) = Ret (take (Z.to_nat limit) L, s') /\ db s' = db s /\
      position_after L (take (Z.to_nat limit) L) (pop_hints s' !! index_prefix)).
  { intros s1 last' D1 Hlast Hleft. destruct (take (Z.to_nat limit) L) as [|e taken] eqn:Et.
    - eexists. split; [reflexivity|]. split; [exact D1|]. cbn. rewrite lookup_insert_eq. cbn.
      destruct L; [reflexivity|]. destruct (Z.to_nat limit) eqn:El; [lia|discriminate].
    - assert (HLne : L <> []) by (intros E; rewrite E, take_nil in Et; discriminate).
      destruct (Hlast HLne) as (h & -> & Hp). eexists. split; [reflexivity|]. split; [exact D1|]. cbn [set_pop_hint hint_update rust_bind snd pop_hints].
      rewrite lookup_insert_eq. unfold position_after. destruct h as [|x h]; [discriminate|]. split; [exact Hp|].
      intros sc m Hin. destruct (Hleft sc m Hin) as [?|(h' & [= <-] & ?)]; auto. }
  unfold pop_scored_candidates, get_pop_hint, mbind, M_bind. cbn [rust_bind fst snd].
  destruct (pop_hints s !! index_prefix) as [h|] eqn:Eh; cbn [fmap option_fmap option_map].
  2: { destruct (walk_from s index_prefix None limit Hb Hwf Hfull Hlim) as (last' & s1 & E1 & (D1 & _) & E3 & E4).
    unfold scan_prefix_cmd. fold L in E1, E3, E4. rewrite E1. cbn [rust_bind fst snd]. apply Hend; assumption. }
  destruct h as [|x h].
  { exists s. assert (HL0 : L = []) by (apply elem_of_nil_inv; intros [sc m] [Hs _]%HL; rewrite Hh in Hs; discriminate).
    rewrite HL0, take_nil. split_and!; [reflexivity|reflexivity|]. rewrite Eh. reflexivity. }
  destruct Hh as [Hp Hh]. pose proof (entries_from_hint (db s) (x :: h) Hb Hwf Hp Hh) as EL. fold L in EL.
  destruct (walk_from s (x :: h) None limit Hb Hwf (starts_with_le _ _ Hp) Hlim) as (last' & s1 & E1 & (D1 & P1 & _) & E3 & E4).
  rewrite EL in E1, E3, E4. rewrite E1. cbn [rust_bind fst snd].
  destruct (take (Z.to_nat limit) L) as [|e taken] eqn:Et; [|apply Hend; assumption].
  cbn [clear_pop_hint hint_update rust_bind fst snd].
  set (s2 := mkShard (db s1) (hlc_word s1) (delete index_prefix (pop_hints s1)) (ticks s1)).
  destruct (walk_from s2 index_prefix last' limit) as (last2 & s3 & F1 & (D3 & _) & F3 & F4); [cbn [s2 db]; rewrite ?D1; assumption..|].
  unfold scan_prefix_cmd. cbn [s2 db] in F1, F3, F4, D3. rewrite D1 in F1, F3, F4. fold L in F1, F3, F4. rewrite Et in F1, F4.
  fold s2. rewrite F1. cbn [rust_bind fst snd]. apply (Hend s3 last2); [congruence|assumption..].
Qed.

(** ** Removing the victims *)

Lemma shown_frame d d' m m' : slice_len_ok u -> m' <> m -> member_frame u m d d' -> shown d' u del m' = shown d u del m'.
Proof.
  intros _ Hne Hf. unfold shown. rewrite Hf; [reflexivity| |].
  - intros E. apply member_key_inj in E as [_ E]; [congruence|assumption..].
  - intros e _. apply member_not_score; assumption.
Qed.

Lemma room_frame d d' m m' : m' <> m -> member_frame u m d d' -> room_at d u m' -> room_at d' u m'.
Proof.
  intros Hne Hf Hr r Hok Hg. apply (Hr r Hok). rewrite <- Hg. symmetry. apply Hf.
  - intros E. apply member_key_inj in E as [_ E]; [congruence|assumption..].
  - intros e _. apply member_not_score; assumption.
Qed.

(** Removing distinct visible members pops all of them and nothing else. *)
Lemma pop_loop_spec victims : u16 node_id -> forall popped (s : Shard DB),
  zset_wf (db s) -> NoDup (snd <$> victims) ->
  (forall sc m, (sc, m) ∈ victims -> shown (db s) u del m = Some sc /\ room_at (db s) u m) ->
  exists s', pop_loop node_id wall u del victims popped s = Ret (popped ++ victims, s') /\ zset_wf (db s') /\
    pop_hints s' = pop_hints s /\
    forall m, shown (db s') u del m = if decide (m ∈ snd <$> victims) then None else shown (db s) u del m.
Proof.
  intros Hn. induction victims as [|[sc m] victims IH]; intros popped s Hwf Hnd Hv.
  { exists s. cbn. rewrite app_nil_r. split_and!; auto. }
  cbn in Hnd. apply NoDup_cons in Hnd as [Hni Hnd]. destruct (Hv sc m) as [Hs Hroom]; [left|].
  destruct (remove_member_spec node_id wall s u m del Hn Hu Hwf Hroom) as (b & s1 & Hr & Hwf1 & Hf & Hh & Hsc & _ & Hb).
  assert (b = true) as -> by (apply Hb; eauto). cbn [pop_loop]. unfold mbind, M_bind. rewrite Hr. cbn [rust_bind fst snd].
  destruct (IH (popped ++ [(sc, m)]) s1 Hwf1 Hnd) as (s' & E1 & E2 & E3 & E4).
  { intros sc' m' Hin. assert (Hne : m' <> m) by (intros ->; apply Hni, list_elem_of_fmap; exists (sc', m); auto).
    destruct (Hv sc' m') as [H1 H2]; [right; exact Hin|].
    split; [rewrite (shown_frame (db s) (db s1) m m') by assumption; exact H1|eapply room_frame; eassumption]. }
  exists s'. rewrite E1, <- app_assoc. split_and!; [reflexivity|exact E2|congruence|].
  intros m'. rewrite E4. cbn [fmap list_fmap snd]. destruct (decide (m' = m)) as [->|Hne].
  - rewrite (decide_True (P := m ∈ m :: _)) by left. destruct (decide _); [reflexivity|].
    destruct (shown (db s1) u del m) eqn:E; [|reflexivity]. apply shown_score in E; [congruence|assumption..].
  - rewrite (shown_frame (db s) (db s1) m m') by assumption.
    destruct (decide (m' ∈ snd <$> victims)) as [Hin|Hno]; [rewrite decide_True by (right; exact Hin); reflexivity|].
    rewrite decide_False; [reflexivity|]. intros [?|?]%elem_of_cons; contradiction.
Qed.

(** Looking up the delete clock only takes time. *)
Lemma zset_del_hlc_later (s : Shard DB) o s' : zset_del_hlc wall u s = Ret (o, s') -> later s s'.
Proof.
  unfold zset_del_hlc, check_type, record_live, get_head, get_raw, reads, now_ms, mbind, M_bind, mret, M_ret.
  cbn [CTYPE_ZSET Z.eqb orb rust_bind fst snd db]. intros Hr.
  generalize dependent Hr. generalize (string_key u) (list_key u) (head_key u). intros k1 k2 k3 Hr.
  repeat case_match; injection Hr as _ <-; repeat split.
Qed.

Lemma taken_nodup L n : (forall sc m, (sc, m) ∈ L -> forall sc', (sc', m) ∈ L -> sc' = sc) -> StronglySorted score_lt L ->
  NoDup (snd <$> take n L).
Proof.
  intros Hfun Hs. revert n. induction Hs as [|[sc m] L Hs IH Hall]; intros n; [rewrite take_nil; constructor|].
  destruct n as [|n]; [constructor|]. cbn. constructor.
  - intros ([sc' m'] & E & Hin)%list_elem_of_fmap. cbn in E. subst m'. apply elem_of_take in Hin as (i & Hin & _).
    apply list_elem_of_lookup_2 in Hin. pose proof (proj1 (Forall_forall _ _) Hall _ Hin) as Hlt.
    rewrite (Hfun sc m ltac:(left) sc' ltac:(right; exact Hin)) in Hlt. apply (irreflexivity score_lt) in Hlt. exact Hlt.
  - apply IH. intros s1 m1 H1 s2 H2. apply (Hfun s1 m1); right; assumption.
Qed.
End walk.


(** A set with one member, 97 at score 1.0. *)
Definition ex_one_member : Shard (gmap bytes bytes) :=
  match write_member 1 ex_zwall ex_zkey [97] ex_one (ex_shard ∅) with Ret r => r.2 | Panic => ex_shard ∅ end.

Lemma ex_one_member_wf : zset_wf (db ex_one_member).
Proof.
  destruct (write_member_spec 1 ex_zwall (ex_shard ∅) ex_zkey [97] ex_one) as (s' & E & Hwf & _);
    [unfold u16, in_range; lia|reflexivity|apply zset_wf_empty|]. unfold ex_one_member. rewrite E. exact Hwf.
Qed.

(** Every stored element has room for its removal. *)
Definition room_check (b : bytes) : bool :=
  match Envelope_decode b with
  | Some (_, pay) =>
      match ElementState_decode pay with
      | Ret (Some st) => (length (covered st) + length (live st) <=? MAX_TOMB_DOTS)%nat
      | _ => true
      end
  | None => true
  end.

Lemma room_at_check (d : gmap bytes bytes) u m : map_Forall (fun _ v => room_check v = true) d -> room_at d u m.
Proof.
  intros Hd r Hr Hg. specialize (Hd _ _ Hg). cbv beta in Hd. unfold room_check in Hd.
  destruct (erec_decode r (mo_rec r Hr)) as [D1 D2]. rewrite D1, D2 in Hd. apply Nat.leb_le, Hd.
Qed.

