(* ===== verification/Apply.v ===== *)
(** * Applying replicated records ([apply_op_from] and [apply_ops_batch] of
    [crates/marekvs-repl/src/lib.rs])

    Records from the replication stream, anti-entropy and bootstrap are merged
    on the shard thread of their partition: sorted-set members through
    [apply_member_record], which keeps the score index, everything else through
    [write_merged]; list elements also drop the node's position hint
    ([invalidate_hint] of [cmd/list.rs]). *)

From S2P Require Import Prelude Partition Hlc Envelope Varint Ikey Counter Lattice Merge MergeLaws Score BudgetCore Store Zset.

Section apply.
Context {DB : Type} `{!KV DB}.
Context (wall : nat -> Z).

Definition invalidate_hint (key : bytes) : M DB unit := hint_update (delete (collection_prefix TListElem key)).

(** The HLC receive rule, for a record that decodes. *)
Definition observe_record (value : bytes) : M DB unit :=
  match Envelope_decode value with
  | Some (env, _) => fun s =>
      Ret (tt, mkShard (db s) (Hlc_observe (hlc_word s) (wall (ticks s)) (hlc env)).1 (pop_hints s) (S (ticks s)))
  | None => mret tt
  end.

(** Merge a record under its parsed key. *)
Definition apply_parsed (p : ParsedKey) (ikey value : bytes) : M DB unit :=
  if pk_tag p =? tag_u8 TZsetMember then _ ← apply_member_record (pk_userkey p) (pk_suffix p) value; mret tt
  else
    _ ← write_merged ikey value;
    if pk_tag p =? tag_u8 TListElem then invalidate_hint (pk_userkey p) else mret tt.

Definition apply_op_from (op : bytes * bytes) : M DB unit :=
  p ← lift (parse op.1);
  match p with
  | None => mret tt
  | Some p =>
      if PARTITIONS <=? pk_pid p then mret tt else
      _ ← observe_record op.2;
      apply_parsed p op.1 op.2
  end.

Definition apply_in_batch (pid : Z) (op : bytes * bytes) : M DB unit :=
  p ← lift (parse op.1);
  match p with
  | None => mret tt
  | Some p => if pk_pid p =? pid then apply_parsed p op.1 op.2 else mret tt
  end.

Fixpoint observe_all (ops : list (bytes * bytes)) : M DB unit :=
  match ops with [] => mret tt | op :: ops => _ ← observe_record op.2; observe_all ops end.
Fixpoint apply_all (pid : Z) (ops : list (bytes * bytes)) : M DB unit :=
  match ops with [] => mret tt | op :: ops => _ ← apply_in_batch pid op; apply_all pid ops end.

Definition apply_ops_batch (pid : Z) (ops : list (bytes * bytes)) : M DB unit :=
  match ops with [] => mret tt | _ => _ ← observe_all ops; apply_all pid ops end.
End apply.

(** ** A replica's store is its keys' deliveries *)

(** The score index, which no replica sends. *)
Definition is_local (k : bytes) : bool :=
  match parse k with Ret (Some p) => pk_tag p =? tag_u8 TZsetScore | _ => false end.

(** Keys as the builders write them. *)
Record key_ok (k : bytes) : Prop := {
  ko_bytes : is_bytes k;
  ko_parse : exists p, parse k = Ret (Some p) /\ (pk_tag p = tag_u8 TZsetMember ->
    slice_len_ok (pk_userkey p) /\ k = zset_member_key (pk_userkey p) (pk_suffix p));
}.

(** A store whose keys the builders wrote and whose score indexes are
    consistent. *)
Record shard_ok {DB} `{KV DB} (d : DB) : Prop := {
  so_keys k : is_Some (kv_get d k) -> key_ok k;
  so_zset : zset_wf d;
}.

(** A record as replicas send it: under a key of the partition, not of the
    score index; a member record under a member key. *)
Record sendable (pid : Z) (op : bytes * bytes) : Prop := {
  se_key : key_ok op.1;
  se_pid p : parse op.1 = Ret (Some p) -> pk_pid p = pid;
  se_local : is_local op.1 = false;
  se_member u m : slice_len_ok u -> op.1 = zset_member_key u m -> member_rec op.2;
}.

Section deliver.
Context {DB : Type} `{KVLaws DB}.
Context (wall : nat -> Z) (pid : Z).

Lemma score_key_local u e m : slice_len_ok u -> is_local (zset_score_key u e m) = true.
Proof. intros Hu. unfold is_local, zset_score_key. rewrite parse_prefixed by (reflexivity || assumption). reflexivity. Qed.

(** A write under a key that belongs to no sorted set. *)
Lemma zset_wf_frame (d d' : DB) k p : parse k = Ret (Some p) -> pk_tag p <> tag_u8 TZsetMember -> pk_tag p <> tag_u8 TZsetScore ->
  frame k d d' -> zset_wf d -> zset_wf d'.
Proof.
  intros Hp Hm Hs Hf [Wm Wi].
  assert (Em : forall u m, slice_len_ok u -> kv_get d' (zset_member_key u m) = kv_get d (zset_member_key u m)).
  { intros u m Hu. apply Hf. intros <-. unfold zset_member_key in Hp. rewrite parse_prefixed in Hp by (reflexivity || assumption).
    injection Hp as <-. apply Hm. reflexivity. }
  assert (Es : forall u e m, slice_len_ok u -> kv_get d' (zset_score_key u e m) = kv_get d (zset_score_key u e m)).
  { intros u e m Hu. apply Hf. intros <-. unfold zset_score_key in Hp. rewrite parse_prefixed in Hp by (reflexivity || assumption).
    apply Hs. injection Hp as <-. reflexivity. }
  split.
  - intros u m b Hu. rewrite Em by assumption. apply Wm, Hu.
  - intros u e m Hu He. unfold score_at. rewrite Es, Em by assumption. apply Wi; assumption.
Qed.

(** Index keys are built like the keys of their members. *)
Lemma key_ok_score u e m : slice_len_ok u -> key_ok (zset_member_key u m) -> key_ok (zset_score_key u e m).
Proof.
  intros Hu [Hb _]. split.
  - unfold zset_member_key, zset_score_key, prefixed, base in *. repeat rewrite is_bytes_app in *. destruct Hb as ((Hp & _) & Hv & Huu & Hm).
    split_and!; try assumption; [|apply be_bytes_is_bytes]. repeat constructor; unfold u8, in_range; cbn; lia.
  - eexists. unfold zset_score_key. rewrite parse_prefixed by (reflexivity || assumption). split; [reflexivity|discriminate].
Qed.

Lemma apply_in_batch_spec (s : Shard DB) op x : shard_ok (db s) -> sendable pid op ->
  deliver_with (merged_at op.1) (kv_get (db s) op.1) op.2 = Ret x ->
  exists s', apply_in_batch pid op s = Ret (tt, s') /\ shard_ok (db s') /\ kv_get (db s') op.1 = Some x /\
    forall k, k <> op.1 -> is_local k = false -> kv_get (db s') k = kv_get (db s) k.
Proof.
  intros [Hkeys Hwf] [Hk Hpid Hloc Hz] Hx. destruct op as [k r]. cbn [fst snd] in *. destruct (ko_parse k Hk) as (p & Hp & Hm).
  unfold apply_in_batch, mbind, M_bind, lift. cbn [fst snd]. rewrite Hp. cbn [rust_bind fst snd]. rewrite (Hpid p Hp), Z.eqb_refl.
  unfold apply_parsed. destruct (Z.eqb_spec (pk_tag p) (tag_u8 TZsetMember)) as [Et|Et].
  - destruct (Hm Et) as (Hu & Ek). rewrite Ek in Hx, Hk |- *. pose proof (Hz _ _ Hu Ek) as Hr.
    destruct (apply_member_record_spec s (pk_userkey p) (pk_suffix p) r x Hu Hwf Hr Hx) as (c & s' & E1 & E2 & E3 & E4 & E5).
    unfold mbind, M_bind. rewrite E1. cbn [rust_bind fst snd]. exists s'. split_and!; [reflexivity| |exact E4|].
    + split; [|exact E2]. intros k' [Hs|[->|(e & _ & ->)]]%E5; [auto|exact Hk|apply key_ok_score; assumption].
    + intros k' Hne Hl. apply E3; [exact Hne|]. intros e _ ->. rewrite score_key_local in Hl by assumption. discriminate.
  - destruct (write_merged_deliver s k r x) as (c & s1 & E1 & E2 & E3); [rewrite Hp; discriminate|exact Hx|].
    unfold mbind, M_bind. rewrite E1. cbn [rust_bind fst snd].
    assert (Hs : pk_tag p <> tag_u8 TZsetScore) by (unfold is_local in Hloc; rewrite Hp in Hloc; apply Z.eqb_neq, Hloc).
    assert (Hok1 : shard_ok (db s1)).
    { split; [|eapply zset_wf_frame; eassumption]. intros k' Hk'. destruct (decide (k' = k)) as [->|Hne]; [exact Hk|].
      apply Hkeys. rewrite <- E3; assumption. }
    destruct (pk_tag p =? tag_u8 TListElem); (eexists; split; [reflexivity|]; cbn [db]; split_and!; [exact Hok1|exact E2|]);
      intros k' Hne _; apply E3, Hne.
Qed.

Lemma observe_all_db ops (s : Shard DB) : exists s', observe_all wall ops s = Ret (tt, s') /\ db s' = db s.
Proof.
  revert s. induction ops as [|op ops IH]; intros s; [exists s; split; reflexivity|]. cbn [observe_all]. unfold mbind, M_bind, observe_record.
  destruct (Envelope_decode op.2) as [[env pay]|]; cbn [rust_bind fst snd mret M_ret]; [|apply IH].
  destruct (IH (mkShard (db s) (Hlc_observe (hlc_word s) (wall (ticks s)) (hlc env)).1 (pop_hints s) (S (ticks s)))) as (s' & E1 & E2). eauto.
Qed.

Lemma apply_all_deliver ops : Forall (sendable pid) ops -> forall (final : bytes -> option bytes) (s : Shard DB), shard_ok (db s) ->
  (forall k, is_local k = false -> deliver_all_with (merged_at k) (kv_get (db s) k) (records_for k ops) = Ret (final k)) ->
  exists s', apply_all pid ops s = Ret (tt, s') /\ shard_ok (db s') /\ forall k, is_local k = false -> kv_get (db s') k = final k.
Proof.
  intros Hops final. induction Hops as [|[k r] ops Hop Hops IH]; intros s Hwf Hf.
  { exists s. split_and!; [reflexivity|exact Hwf|]. intros k Hk. specialize (Hf k Hk). cbn in Hf. congruence. }
  pose proof (se_local _ _ Hop) as Hk. cbn [fst] in Hk.
  pose proof (Hf k Hk) as Hk'. unfold records_for in Hk'. cbn [List.filter fst] in Hk'.
  unfold bytes_eqb in Hk'. rewrite bool_decide_eq_true_2 in Hk' by reflexivity. cbn [fmap list_fmap deliver_all_with snd] in Hk'.
  destruct (deliver_with _ _ _) as [x|] eqn:Hx; [|discriminate]. cbn [rust_bind] in Hk'.
  destruct (apply_in_batch_spec s (k, r) x Hwf Hop Hx) as (s1 & E1 & E2 & E3 & E4). cbn [fst] in *.
  destruct (IH s1 E2) as (s' & F1 & F2 & F3).
  - intros k' Hl. destruct (decide (k' = k)) as [->|Hne]; [rewrite E3; exact Hk'|]. rewrite E4 by assumption.
    specialize (Hf k' Hl). unfold records_for in Hf. cbn [List.filter fst] in Hf. unfold bytes_eqb in Hf.
    rewrite bool_decide_eq_false_2 in Hf by congruence. exact Hf.
  - exists s'. cbn [apply_all]. unfold mbind, M_bind. rewrite E1. cbn [rust_bind fst snd]. auto.
Qed.

Lemma apply_batch_deliver ops (final : bytes -> option bytes) (s : Shard DB) : Forall (sendable pid) ops -> shard_ok (db s) ->
  (forall k, is_local k = false -> deliver_all_with (merged_at k) (kv_get (db s) k) (records_for k ops) = Ret (final k)) ->
  exists s', apply_ops_batch wall pid ops s = Ret (tt, s') /\ shard_ok (db s') /\ forall k, is_local k = false -> kv_get (db s') k = final k.
Proof.
  intros Hops Hwf Hf. destruct (observe_all_db ops s) as (s1 & E1 & D1). rewrite <- D1 in Hwf, Hf.
  destruct (apply_all_deliver ops Hops final s1 Hwf Hf) as (s2 & E2 & Hrest).
  destruct ops as [|op ops].
  - exists s. cbn in *. injection E1 as ->. injection E2 as ->. auto.
  - exists s2. split; [|exact Hrest]. unfold apply_ops_batch, mbind, M_bind. rewrite E1. exact E2.
Qed.
End deliver.

(** [C17] Applying a batch of replicated records is, key by key, delivering each
    key's records to that key: whatever the interleaving of keys, the run
    returns, every replicated key ends with its own deliveries merged in stream
    order, and the store stays well formed, its score indexes included.  So two replicas agree on a
    key as soon as their deliveries to it agree. *)
Theorem batch_applies_per_key {DB} `{KVLaws DB} wall pid ops (final : bytes -> option bytes) (s : Shard DB) :
  Forall (sendable pid) ops -> shard_ok (db s) ->
  (forall k, is_local k = false -> deliver_all_with (merged_at k) (kv_get (db s) k) (records_for k ops) = Ret (final k)) ->
  exists s', apply_ops_batch wall pid ops s = Ret (tt, s') /\ shard_ok (db s') /\
    forall k, is_local k = false -> kv_get (db s') k = final k.
Proof. apply apply_batch_deliver. Qed.

Lemma batch_applies_per_key_witness :
  let k := string_key [107] in
  let old := encode_with (Envelope_new RString 5 1) [97] in
  let new := encode_with (Envelope_new RString 9 2) [98] in
  exists s', apply_ops_batch ex_zwall (pid_of [107]) [(k, new); (k, old)] (ex_shard ∅) = Ret (tt, s') /\
    kv_get (db s') k = Some new.
Proof.
  intros k old new.
  destruct (batch_applies_per_key ex_zwall (pid_of [107]) [(k, new); (k, old)]
    (fun k' => if bytes_eqb k k' then Some new else None) (ex_shard ∅)) as (s' & E1 & _ & E2).
  - assert (Hp : parse k = Ret (Some (mkParsedKey (pid_of [107]) (tag_u8 TString) [107] []))) by (vm_compute; reflexivity).
    assert (Hb : is_bytes k) by (apply (bool_decide_unpack _); vm_compute; reflexivity).
    assert (Hsend : forall r, sendable (pid_of [107]) (k, r)).
    { intros r. split; cbn [fst snd].
      - split; [exact Hb|]. eexists. split; [exact Hp|discriminate].
      - intros p Hp'. rewrite Hp in Hp'. injection Hp' as <-. reflexivity.
      - vm_compute. reflexivity.
      - intros u m Hu E. pose proof (parse_prefixed TZsetMember u m eq_refl Hu) as P. fold (zset_member_key u m) in P.
        rewrite <- E, Hp in P. discriminate. }
    constructor; [apply Hsend|constructor; [apply Hsend|constructor]].
  - split; [|apply zset_wf_empty]. intros k' [v Hv]. cbn in Hv. rewrite lookup_empty in Hv. discriminate.
  - intros k' _. unfold records_for. cbn [List.filter fst]. unfold bytes_eqb.
    case_bool_decide as E; [subst k'; vm_compute; reflexivity|reflexivity].
  - exists s'. split; [exact E1|]. rewrite E2 by (vm_compute; reflexivity). unfold bytes_eqb.
    rewrite bool_decide_eq_true_2 by reflexivity. reflexivity.
Defined.
