(* ===== verification/AntiEntropy.v ===== *)
(** * Anti-entropy ([crates/marekvs-repl/src/ae.rs] and its message handlers in
    [crates/marekvs-repl/src/lib.rs])

    Replicas compare 256 digests per partition and exchange the records of a
    bucket whose digests differ.  The hash (xxh3) is the parameter [xxh3];
    where a theorem needs it, its hypothesis is that it does not collide on the
    keys and values at hand.  An exchange is one run of the messages BucketKeys,
    RepairOps and RequestKeys between two replicas. *)

From S2P Require Import Prelude Partition Hlc Envelope Varint Ikey Counter Lattice Merge MergeLaws BudgetCore Store Zset Apply.

Definition BUCKETS : nat := 256.

Definition record_hlc (value : bytes) : Z := match Envelope_decode value with Some (e, _) => hlc e | None => 0 end.

(** (key hash, (HLC, value hash)). *)
Abbreviation entry := (Z * (Z * Z))%type.

Section ae.
Context {DB : Type} `{!KV DB}.
Context (xxh3 : bytes -> Z).

Definition entry_hash (ikey : bytes) (hlc vhash : Z) : Z := xxh3 (ikey ++ be_bytes 8 hlc ++ be_bytes 8 vhash).
Definition record_vhash (value : bytes) : Z := xxh3 value.
Definition bucket_of (k : bytes) : Z := Z.land (xxh3 k) 255.

(** The local-only zset score index is not replicated. *)
Definition local_only (k : bytes) : rust bool :=
  let! p := parse k in
  Ret (match p with Some p => pk_tag p =? tag_u8 TZsetScore | None => false end).

Definition digest_step (digests : list Z) (k v : bytes) : rust (list Z * bool) :=
  let! z := local_only k in
  Ret (if z then digests
       else alter (fun d => Z.lxor d (entry_hash k (record_hlc v) (record_vhash v))) (Z.to_nat (bucket_of k)) digests, true).

Definition bucket_digests (pid : Z) : M DB (list Z) :=
  scan_prefix (partition_prefix pid) digest_step (replicate BUCKETS 0).

Definition partition_root (pid : Z) : M DB Z :=
  digests ← bucket_digests pid;
  mret (if forallb (fun d => d =? 0) digests then 0 else xxh3 (concat (be_bytes 8 <$> digests))).

Definition entry_of (k v : bytes) : entry := (xxh3 k, (record_hlc v, record_vhash v)).

Definition entries_step (bucket : Z) (acc : list entry) (k v : bytes) : rust (list entry * bool) :=
  let! z := local_only k in
  Ret (if negb z && (bucket_of k =? bucket) then acc ++ [entry_of k v] else acc, true).

Definition bucket_entries (pid bucket : Z) : M DB (list entry) :=
  scan_prefix (partition_prefix pid) (entries_step bucket) [].

(** [HashMap::from_iter]: later entries win. *)
Definition entry_map (l : list entry) : gmap Z (Z * Z) := fold_left (fun m e => <[e.1 := e.2]> m) l ∅.

(** [a] is newer than [b], or equally new with other content. *)
Definition ahead (a b : Z * Z) : bool := (b.1 <? a.1) || ((a.1 =? b.1) && negb (a.2 =? b.2)).

Definition diff_step (bucket : Z) (theirs : gmap Z (Z * Z)) (acc : list (bytes * bytes) * list entry) (k v : bytes)
    : rust ((list (bytes * bytes) * list entry) * bool) :=
  let! z := local_only k in
  Ret (if z || negb (bucket_of k =? bucket) then acc else
       let send := match theirs !! xxh3 k with None => true | Some t => ahead (entry_of k v).2 t end in
       (if send then acc.1 ++ [(k, v)] else acc.1, acc.2 ++ [entry_of k v]), true).

(** The records to push to the peer and the key hashes to request from it. *)
Definition diff_bucket (pid bucket : Z) (theirs : list entry) : M DB (list (bytes * bytes) * list Z) :=
  let theirs := entry_map theirs in
  r ← scan_prefix (partition_prefix pid) (diff_step bucket theirs) ([], []);
  let mine := entry_map r.2 in
  mret (r.1, fst <$> List.filter (fun e => match mine !! e.1 with None => true | Some m => ahead e.2 m end)
                       (map_to_list theirs)).

Definition hash_step (bucket : Z) (wanted : list Z) (acc : list (bytes * bytes)) (k v : bytes)
    : rust (list (bytes * bytes) * bool) :=
  let! z := local_only k in
  Ret (if negb z && (bucket_of k =? bucket) && bool_decide (xxh3 k ∈ wanted) then acc ++ [(k, v)] else acc, true).

Definition records_by_hash (pid bucket : Z) (wanted : list Z) : M DB (list (bytes * bytes)) :=
  scan_prefix (partition_prefix pid) (hash_step bucket wanted) [].

(** The pushes of the BucketKeys handler: with [no_backfill] (the asker does
    not own the partition) only records the asker already holds. *)
Definition offered_only (no_backfill : bool) (theirs : list entry) (push : list (bytes * bytes)) : list (bytes * bytes) :=
  if no_backfill then List.filter (fun op => bool_decide (xxh3 op.1 ∈ fst <$> theirs)) push else push.

(** One exchange of a bucket between nodes that are not rejoining: the entries
    of [sa] go to [sb]; [sb] pushes what it has ahead and requests what it
    lacks; both merge what they receive.  [wa] and [wb] are the wall clocks of
    the two nodes. *)
Definition ae_exchange (no_backfill : bool) (wa wb : nat -> Z) (pid bucket : Z) (sa sb : Shard DB) : rust (Shard DB * Shard DB) :=
  let! e := bucket_entries pid bucket sa in
  let! d := diff_bucket pid bucket e.1 sb in
  let! a := apply_ops_batch wa pid (offered_only no_backfill e.1 d.1.1) e.2 in
  let! o := records_by_hash pid bucket d.1.2 a.2 in
  let! b := apply_ops_batch wb pid o.1 d.2 in
  Ret (o.2, b.2).
End ae.

(** ** What a scan collects *)

Section repair.
Context {DB : Type} `{KVLaws DB}.
Context (xxh3 : bytes -> Z) (wa wb : nat -> Z) (pid bucket : Z).

Definition in_bucket (k : bytes) : bool := negb (is_local k) && (bucket_of xxh3 k =? bucket).
(** The keys the exchange is about. *)
Definition scope (k : bytes) : bool := starts_with k (partition_prefix pid) && in_bucket k.

(** The records of the bucket, in key order. *)
Definition bucket_records (d : DB) : list (bytes * bytes) :=
  List.filter (fun e => in_bucket e.1) (with_prefix d (partition_prefix pid)).

Definition keys_parse (d : DB) : Prop := forall k v, kv_get d k = Some v -> is_bytes k /\ parse k <> Panic.

Lemma shard_keys_parse d : shard_ok d -> keys_parse d.
Proof.
  intros [Hk _] k v Hv. destruct (Hk k) as [Hb (p & -> & _)]; [eauto|]. split; [exact Hb|discriminate].
Qed.

Lemma keys_parse_bytes d : keys_parse d -> keys_are_bytes d.
Proof. intros Hd k v Hk. apply (Hd k v Hk). Qed.

Lemma local_only_eq k : parse k <> Panic -> local_only k = Ret (is_local k).
Proof. unfold local_only, is_local. destruct (parse k) as [[p|]|]; [reflexivity..|congruence]. Qed.

Lemma bucket_records_spec d k v : keys_parse d -> (k, v) ∈ bucket_records d <-> kv_get d k = Some v /\ scope k = true.
Proof.
  intros Hd. unfold bucket_records, scope. rewrite list_elem_of_In, filter_In, <- list_elem_of_In.
  rewrite (with_prefix_spec d _ k v (keys_parse_bytes d Hd)), andb_true_iff. cbn [fst]. tauto.
Qed.

Lemma bucket_records_nodup d : NoDup (fst <$> bucket_records d).
Proof.
  assert (Hs : StronglySorted key_lt (bucket_records d)) by (apply List_filter_sorted, kv_range_sorted).
  induction Hs as [|e l Hs IH Hall]; cbn; constructor; [|exact IH].
  intros (e' & He & Hin)%list_elem_of_fmap. rewrite Forall_forall in Hall. specialize (Hall e' Hin). unfold key_lt in Hall.
  rewrite He, bytes_cmp_refl in Hall. discriminate.
Qed.

(** A scan whose callback never stops, over keys that parse. *)
Lemma scan_partition {S} (g : S -> bytes -> bytes -> rust (S * bool)) (f : S -> bytes -> bytes -> S) acc (s : Shard DB) :
  keys_parse (db s) -> (forall a k v, parse k <> Panic -> g a k v = Ret (f a k v, true)) ->
  scan_prefix (partition_prefix pid) g acc s =
  Ret (fold_left (fun a e => f a e.1 e.2) (with_prefix (db s) (partition_prefix pid)) acc, s).
Proof.
  intros Hd Hg. unfold scan_prefix, scan_from. fold (with_prefix (db s) (partition_prefix pid)).
  assert (Hl : Forall (fun e => starts_with e.1 (partition_prefix pid) = true /\ parse e.1 <> Panic)
    (with_prefix (db s) (partition_prefix pid))).
  { apply Forall_forall. intros [k v] Hin. apply (with_prefix_spec _ _ _ _ (keys_parse_bytes _ Hd)) in Hin as [Hk Hp].
    split; [exact Hp|apply (Hd k v Hk)]. }
  assert (Hloop : forall l acc, Forall (fun e => starts_with e.1 (partition_prefix pid) = true /\ parse e.1 <> Panic) l ->
    scan_loop (partition_prefix pid) g acc l = Ret (fold_left (fun a e => f a e.1 e.2) l acc)).
  { clear acc. induction l as [|[k v] l IH]; intros acc Hall; [reflexivity|]. apply Forall_cons in Hall as [[Hs Hp] Hall].
    cbn [scan_loop fold_left fst snd] in *. rewrite Hs, Hg by exact Hp. cbn [rust_bind fst snd]. apply IH, Hall. }
  rewrite Hloop by exact Hl. reflexivity.
Qed.

(** Collecting the records that pass a test. *)
Lemma fold_collect {B} (P : bytes * bytes -> bool) (h : bytes * bytes -> B) l acc :
  fold_left (fun a e => if in_bucket e.1 && P e then a ++ [h e] else a) l acc =
  acc ++ (h <$> List.filter P (List.filter (fun e => in_bucket e.1) l)).
Proof.
  revert acc. induction l as [|e l IH]; intros acc; cbn [fold_left List.filter]; [rewrite app_nil_r; reflexivity|].
  rewrite IH. destruct (in_bucket e.1); cbn [andb List.filter]; [|reflexivity].
  destruct (P e); cbn [fmap list_fmap]; [rewrite <- app_assoc|]; reflexivity.
Qed.

Lemma fold_left_ext {A B} (f g : A -> B -> A) l acc : (forall a b, f a b = g a b) -> fold_left f l acc = fold_left g l acc.
Proof. intros E. revert acc. induction l; intros acc; cbn; [reflexivity|]. rewrite E. auto. Qed.

Lemma filter_true {A} (l : list A) : List.filter (fun _ => true) l = l.
Proof. induction l; cbn; congruence. Qed.

Lemma bucket_entries_eq (s : Shard DB) : keys_parse (db s) ->
  bucket_entries xxh3 pid bucket s = Ret ((fun e => entry_of xxh3 e.1 e.2) <$> bucket_records (db s), s).
Proof.
  intros Hd. unfold bucket_entries.
  rewrite (scan_partition _ (fun a k v => if in_bucket k && true then a ++ [entry_of xxh3 k v] else a)); [|exact Hd|].
  - rewrite (fold_collect (fun _ => true) (fun e => entry_of xxh3 e.1 e.2)), filter_true. reflexivity.
  - intros a k v Hk. unfold entries_step. rewrite local_only_eq by exact Hk. cbn [rust_bind]. rewrite andb_true_r. reflexivity.
Qed.

Lemma records_by_hash_eq wanted (s : Shard DB) : keys_parse (db s) ->
  records_by_hash xxh3 pid bucket wanted s =
  Ret (List.filter (fun e => bool_decide (xxh3 e.1 ∈ wanted)) (bucket_records (db s)), s).
Proof.
  intros Hd. unfold records_by_hash.
  rewrite (scan_partition _ (fun a k v => if in_bucket k && bool_decide (xxh3 k ∈ wanted) then a ++ [(k, v)] else a)); [|exact Hd|].
  - rewrite (fold_left_ext _ (fun a e => if in_bucket e.1 && bool_decide (xxh3 e.1 ∈ wanted) then a ++ [id e] else a)) by
      (intros a [k v]; reflexivity).
    rewrite (fold_collect (fun e => bool_decide (xxh3 e.1 ∈ wanted)) id), list_fmap_id. reflexivity.
  - intros a k v Hk. unfold hash_step. rewrite local_only_eq by exact Hk. reflexivity.
Qed.

Definition sends_to (theirs : gmap Z (Z * Z)) (e : bytes * bytes) : bool :=
  match theirs !! xxh3 e.1 with None => true | Some t => ahead (entry_of xxh3 e.1 e.2).2 t end.

Lemma fold_diff theirs l a b :
  fold_left (fun acc e => if in_bucket e.1 then
      (if sends_to theirs e then acc.1 ++ [e] else acc.1, acc.2 ++ [entry_of xxh3 e.1 e.2]) else acc) l (a, b) =
  (a ++ List.filter (sends_to theirs) (List.filter (fun e => in_bucket e.1) l),
   b ++ ((fun e => entry_of xxh3 e.1 e.2) <$> List.filter (fun e => in_bucket e.1) l)).
Proof.
  revert a b. induction l as [|e l IH]; intros a b; cbn [fold_left List.filter fst snd]; [rewrite !app_nil_r; reflexivity|].
  destruct (in_bucket e.1); cbn [List.filter fmap list_fmap fst snd]; [|apply IH].
  destruct (sends_to theirs e); rewrite IH, <- ?app_assoc; reflexivity.
Qed.

Definition wants (mine : gmap Z (Z * Z)) (e : entry) : bool :=
  match mine !! e.1 with None => true | Some m => ahead e.2 m end.

Lemma diff_bucket_eq theirs (s : Shard DB) : keys_parse (db s) ->
  diff_bucket xxh3 pid bucket theirs s =
  Ret ((List.filter (sends_to (entry_map theirs)) (bucket_records (db s)),
        fst <$> List.filter (wants (entry_map ((fun e => entry_of xxh3 e.1 e.2) <$> bucket_records (db s))))
                  (map_to_list (entry_map theirs))), s).
Proof.
  intros Hd. unfold diff_bucket, mbind, M_bind.
  rewrite (scan_partition _ (fun acc k v => if in_bucket k then
      (if sends_to (entry_map theirs) (k, v) then acc.1 ++ [(k, v)] else acc.1, acc.2 ++ [entry_of xxh3 k v]) else acc)); [|exact Hd|].
  - rewrite (fold_left_ext _ (fun acc e => if in_bucket e.1 then
      (if sends_to (entry_map theirs) e then acc.1 ++ [e] else acc.1, acc.2 ++ [entry_of xxh3 e.1 e.2]) else acc)) by
      (intros acc [k v]; reflexivity).
    rewrite fold_diff. cbn [rust_bind fst snd app]. reflexivity.
  - intros a k v Hk. unfold diff_step. rewrite local_only_eq by exact Hk. cbn [rust_bind]. unfold in_bucket.
    destruct (is_local k), (bucket_of xxh3 k =? bucket); reflexivity.
Qed.

(** ** Entries as a map of the store *)

Lemma entry_map_spec l h x : NoDup (fst <$> l) -> entry_map l !! h = Some x <-> (h, x) ∈ l.
Proof.
  assert (Hgen : forall l (m : gmap Z (Z * Z)), NoDup (fst <$> l) ->
    fold_left (fun m e => <[e.1 := e.2]> m) l m !! h = Some x <-> (h, x) ∈ l \/ h ∉ fst <$> l /\ m !! h = Some x).
  { clear l. induction l as [|e l IH]; intros m Hn; cbn [fold_left fmap list_fmap]; [set_solver|].
    cbn in Hn. apply NoDup_cons in Hn as [Hni Hn]. rewrite (IH _ Hn).
    destruct (decide (h = e.1)) as [->|Hne].
    - rewrite lookup_insert_eq. rewrite elem_of_cons. split.
      + intros [Hin|[_ [= <-]]]; [left; right; exact Hin|left; left; destruct e; reflexivity].
      + intros [[E|Hin]|[Hno _]]; [right; split; [exact Hni|rewrite <- E; reflexivity]|left; exact Hin|set_solver].
    - rewrite lookup_insert_ne by congruence. rewrite elem_of_cons, not_elem_of_cons. split.
      + intros [Hin|[Hno Hm]]; auto.
      + intros [[E|Hin]|[[_ Hno] Hm]]; [exfalso; apply Hne; rewrite <- E; reflexivity|auto|auto]. }
  intros Hn. unfold entry_map. rewrite Hgen by exact Hn. rewrite lookup_empty. naive_solver.
Qed.

(** No hash collision among the keys stored on either side. *)
Definition no_collision (da db : DB) : Prop := forall k k',
  scope k = true -> scope k' = true -> is_Some (kv_get da k) \/ is_Some (kv_get db k) ->
  is_Some (kv_get da k') \/ is_Some (kv_get db k') -> xxh3 k = xxh3 k' -> k = k'.

Definition meta (v : bytes) : Z * Z := (record_hlc v, xxh3 v).

Lemma entries_nodup da db : keys_parse da -> no_collision da db ->
  NoDup (fst <$> ((fun e => entry_of xxh3 e.1 e.2) <$> bucket_records da)).
Proof.
  intros Hd Hc. rewrite <- list_fmap_compose. pose proof (bucket_records_nodup da) as Hn.
  assert (Hsub : Forall (fun e => kv_get da e.1 = Some e.2 /\ scope e.1 = true) (bucket_records da)).
  { apply Forall_forall. intros [k v] Hin. apply (bucket_records_spec da k v Hd), Hin. }
  induction Hsub as [|e l [He1 He2] Hall IH]; cbn [fmap list_fmap]; [constructor|].
  cbn in Hn. apply NoDup_cons in Hn as [Hni Hn]. constructor; [|apply IH, Hn].
  intros (e' & Hh & Hin)%list_elem_of_fmap. rewrite Forall_forall in Hall. destruct (Hall e' Hin) as [H1' H2'].
  cbn in Hh. apply Hc in Hh; [|assumption|assumption|left; eauto|left; eauto]. apply Hni. rewrite Hh.
  apply list_elem_of_fmap. eauto.
Qed.

(** The entry map of one side, at a key of either side. *)
Lemma entries_lookup da db k : keys_parse da -> no_collision da db -> scope k = true ->
  is_Some (kv_get da k) \/ is_Some (kv_get db k) ->
  entry_map ((fun e => entry_of xxh3 e.1 e.2) <$> bucket_records da) !! xxh3 k = meta <$> kv_get da k.
Proof.
  intros Hd Hc Hk Hs. apply option_eq. intros x. rewrite entry_map_spec by (eapply entries_nodup; eassumption). split.
  - intros ([k' v] & E & Hin)%list_elem_of_fmap. apply (bucket_records_spec da k' v Hd) in Hin as [Hg Hk'].
    unfold entry_of in E. cbn [fst snd] in E. injection E as Eh ->.
    apply Hc in Eh as ->; [|assumption|assumption|assumption|left; eauto]. rewrite Hg. reflexivity.
  - destruct (kv_get da k) as [v|] eqn:Hg; [|discriminate]. intros [= <-]. apply list_elem_of_fmap.
    exists (k, v). split; [reflexivity|]. apply (bucket_records_spec da k v Hd). auto.
Qed.

(** ** An exchange, key by key *)

(** Does the holder of [x] offer it to the holder of [y]? *)
Definition offers (x y : option bytes) : bool :=
  match x, y with
  | Some x, Some y => ahead (meta x) (meta y)
  | Some _, None => true
  | None, _ => false
  end.

(** What is stored when the offered [y] is merged into [x]. *)
Definition accept (k : bytes) (x y : option bytes) : rust (option bytes) :=
  match y with Some y => let! z := deliver_with (merged_at k) x y in Ret (Some z) | None => Ret x end.

(** The states of the two sides of a key after an exchange. *)
Definition exchange_key (k : bytes) (a b : option bytes) : rust (option bytes * option bytes) :=
  let! a' := (if offers b a then accept k a b else Ret a) in
  let! b' := (if offers a b then accept k b a' else Ret b) in
  Ret (a', b').

Lemma records_for_none k l : k ∉ fst <$> l -> records_for k l = [].
Proof.
  induction l as [|e l IH]; intros Hk; [reflexivity|]. cbn in Hk. apply not_elem_of_cons in Hk as [Hne Hk].
  unfold records_for in *. cbn. unfold bytes_eqb at 1. rewrite bool_decide_eq_false_2 by congruence. auto.
Qed.

Lemma records_for_some k v l : NoDup (fst <$> l) -> (k, v) ∈ l -> records_for k l = [v].
Proof.
  induction l as [|e l IH]; intros Hn Hin; [set_solver|]. cbn in Hn. apply NoDup_cons in Hn as [Hni Hn].
  apply elem_of_cons in Hin as [<-|Hin].
  - pose proof (records_for_none k l Hni) as Hl. unfold records_for in *. cbn. unfold bytes_eqb at 1.
    rewrite bool_decide_eq_true_2 by reflexivity. cbn. rewrite Hl. reflexivity.
  - specialize (IH Hn Hin). unfold records_for in *. cbn. unfold bytes_eqb at 1. rewrite bool_decide_eq_false_2; [exact IH|].
    intros E. apply Hni. rewrite E. apply list_elem_of_fmap. exists (k, v). auto.
Qed.

(** The record a filtered bucket holds for a key. *)
Lemma records_for_bucket d P k : keys_parse d ->
  records_for k (List.filter P (bucket_records d)) =
  match kv_get d k with Some v => if scope k && P (k, v) then [v] else [] | None => [] end.
Proof.
  intros Hd.
  assert (Hn : NoDup (fst <$> List.filter P (bucket_records d))).
  { pose proof (bucket_records_nodup d) as Hn. induction (bucket_records d) as [|e l IH]; cbn; [constructor|].
    cbn in Hn. apply NoDup_cons in Hn as [Hni Hn]. destruct (P e); [|auto]. cbn. constructor; [|auto].
    intros (x & Ex & Hx)%list_elem_of_fmap. apply Hni. apply list_elem_of_fmap. exists x. split; [exact Ex|].
    apply list_elem_of_In, filter_In in Hx as [Hx _]. apply list_elem_of_In, Hx. }
  assert (Hiff : forall v, (k, v) ∈ List.filter P (bucket_records d) <-> kv_get d k = Some v /\ scope k = true /\ P (k, v) = true).
  { intros v. rewrite list_elem_of_In, filter_In, <- list_elem_of_In, (bucket_records_spec d k v Hd). tauto. }
  destruct (kv_get d k) as [v|] eqn:Hg.
  - destruct (scope k && P (k, v)) eqn:E.
    + apply andb_true_iff in E as [E1 E2]. apply records_for_some; [exact Hn|]. apply Hiff. auto.
    + apply records_for_none. intros ([k' v'] & -> & Hin)%list_elem_of_fmap. apply Hiff in Hin as (Hv & H1 & H2).
      cbn [fst] in *. injection Hv as <-. rewrite H1, H2 in E. discriminate.
  - apply records_for_none. intros ([k' v'] & -> & Hin)%list_elem_of_fmap. apply Hiff in Hin as (Hv & _). discriminate.
Qed.

Lemma parse_pid k p : u16 pid -> starts_with k (partition_prefix pid) = true -> parse k = Ret (Some p) -> pk_pid p = pid.
Proof.
  intros Hpid (sfx & ->)%starts_with_spec Hp.
  assert (E : of_be (slice 0 2 (partition_prefix pid ++ sfx)) = pid).
  { change (of_be (be_bytes 2 pid) = pid). apply of_be_u16, Hpid. }
  unfold parse in Hp. rewrite E in Hp. revert Hp. repeat case_match; intros Hp; try discriminate; injection Hp as <-; reflexivity.
Qed.

(** What a replica sends out of a bucket is sendable. *)
Lemma bucket_sendable d P : u16 pid -> shard_ok d -> Forall (sendable pid) (List.filter P (bucket_records d)).
Proof.
  intros Hpid Hd. pose proof (shard_keys_parse d Hd) as Hp. apply Forall_forall. intros [k v] Hin.
  apply list_elem_of_In, filter_In in Hin as [Hin _]. apply list_elem_of_In in Hin.
  apply (bucket_records_spec d k v Hp) in Hin as [Hg Hs]. apply andb_true_iff in Hs as [Hs Hb]. apply andb_true_iff in Hb as [Hl _].
  split; cbn [fst snd].
  - apply (so_keys d Hd). eauto.
  - intros p. apply parse_pid; assumption.
  - apply negb_true_iff, Hl.
  - intros u m Hu ->. eapply zw_member; [apply (so_zset d Hd)|exact Hu|exact Hg].
Qed.

(** Two stores ready for an exchange. *)
Record ae_ok (da db : DB) : Prop := {
  ao_left : shard_ok da;
  ao_right : shard_ok db;
  ao_hash : no_collision da db;
}.

Abbreviation entries_of d := ((fun e => entry_of xxh3 e.1 e.2) <$> bucket_records d).

Lemma sends_to_offers da d' k b : ae_ok da d' -> kv_get d' k = Some b -> scope k = true ->
  sends_to (entry_map (entries_of da)) (k, b) = offers (Some b) (kv_get da k).
Proof.
  intros [Ka%shard_keys_parse Kb%shard_keys_parse Hc] Hb Hk. unfold sends_to. cbn [fst snd]. rewrite (entries_lookup da d' k) by eauto.
  destruct (kv_get da k); reflexivity.
Qed.

Lemma requested da d' k : ae_ok da d' -> scope k = true -> is_Some (kv_get da k) \/ is_Some (kv_get d' k) ->
  bool_decide (xxh3 k ∈ fst <$> List.filter (wants (entry_map (entries_of d'))) (map_to_list (entry_map (entries_of da)))) =
  offers (kv_get da k) (kv_get d' k).
Proof.
  intros [Ka%shard_keys_parse Kb%shard_keys_parse Hc] Hk Hs. apply eq_bool_prop_intro. rewrite bool_decide_spec, list_elem_of_fmap.
  assert (Hmap : forall x, (xxh3 k, x) ∈ map_to_list (entry_map (entries_of da)) <-> meta <$> kv_get da k = Some x).
  { intros x. rewrite elem_of_map_to_list, (entries_lookup da d' k) by assumption. reflexivity. }
  assert (Hmine : entry_map (entries_of d') !! xxh3 k = meta <$> kv_get d' k).
  { apply (entries_lookup d' da k); [exact Kb| |exact Hk|tauto]. intros k1 k2 Hk1 Hk2 Hs1 Hs2. apply Hc; tauto. }
  split.
  - intros ([h x] & Eh & Hx). cbn [fst] in Eh. apply list_elem_of_In, filter_In in Hx as [Hx Hw]. apply list_elem_of_In in Hx.
    rewrite <- Eh in Hx, Hw. apply Hmap in Hx. destruct (kv_get da k) as [a|] eqn:Ea; [|discriminate]. injection Hx as <-.
    unfold wants in Hw. cbn [fst snd] in Hw. rewrite Hmine in Hw. destruct (kv_get d' k); cbn in Hw |- *; [rewrite Hw|]; exact I.
  - intros Ho. destruct (kv_get da k) as [a|] eqn:Ea; [|contradiction]. exists (xxh3 k, meta a). split; [reflexivity|].
    apply list_elem_of_In, filter_In. split; [apply list_elem_of_In, Hmap; reflexivity|]. unfold wants. cbn [fst snd]. rewrite Hmine.
    destruct (kv_get d' k); cbn in Ho |- *; [apply Is_true_true, Ho|reflexivity].
Qed.

(** The two halves of [exchange_key] as deliveries. *)
Lemma exchange_key_left k a b a' b' : exchange_key k a b = Ret (a', b') ->
  deliver_all_with (merged_at k) a (match b with Some b => if offers (Some b) a then [b] else [] | None => [] end) = Ret a'.
Proof.
  unfold exchange_key. intros Hx. destruct (if offers b a then accept k a b else Ret a) as [x|] eqn:Ex; [|discriminate].
  cbn [rust_bind] in Hx. assert (x = a') as ->.
  { destruct (if offers a b then _ else _); [|discriminate]. cbn in Hx. congruence. }
  destruct b as [b|]; [|exact Ex]. destruct (offers (Some b) a); [|exact Ex]. cbn [accept deliver_all_with] in *.
  destruct (deliver_with _ _ _); [exact Ex|discriminate].
Qed.

Lemma exchange_key_right k a b a' b' : exchange_key k a b = Ret (a', b') ->
  deliver_all_with (merged_at k) b (match a' with Some x => if offers a b then [x] else [] | None => [] end) = Ret b'.
Proof.
  unfold exchange_key. intros Hx. destruct (if offers b a then accept k a b else Ret a) as [x|]; [|discriminate].
  cbn [rust_bind] in Hx. destruct (offers a b).
  - destruct (accept k b x) as [y|] eqn:Ey; [|discriminate]. cbn in Hx. injection Hx as <- <-.
    destruct x as [x|]; [|exact Ey]. cbn [accept deliver_all_with] in *. destruct (deliver_with _ _ _); [exact Ey|discriminate].
  - cbn in Hx. injection Hx as <- <-. destruct x; reflexivity.
Qed.

Section exchange.
Context (sa sb : Shard DB) (fa fb : bytes -> option bytes) (Hok : ae_ok (db sa) (db sb)).
Context (Hin : forall k, scope k = true -> exchange_key k (kv_get (db sa) k) (kv_get (db sb) k) = Ret (fa k, fb k)).
Context (Hout : forall k, scope k = false -> fa k = kv_get (db sa) k /\ fb k = kv_get (db sb) k).
Context (Hpid : u16 pid).

(** Nothing appears that neither side held. *)
Lemma exchange_stored k : kv_get (db sa) k = None -> kv_get (db sb) k = None -> fa k = None /\ fb k = None.
Proof.
  intros Ea Eb. destruct (scope k) eqn:Hk; [specialize (Hin k Hk)|specialize (Hout k Hk)]; rewrite Ea, Eb in *; [|assumption].
  cbn in Hin. injection Hin as <- <-. auto.
Qed.

Lemma scope_not_local k : scope k = true -> is_local k = false.
Proof. unfold scope, in_bucket. destruct (is_local k); [rewrite andb_false_r; discriminate|reflexivity]. Qed.

Lemma exchange_ok (da' db' : DB) : shard_ok da' -> shard_ok db' -> (forall k, is_local k = false -> kv_get da' k = fa k) ->
  (forall k, is_local k = false -> kv_get db' k = fb k) -> ae_ok da' db'.
Proof.
  intros Sa Sb Hfa Hfb. destruct Hok as [_ _ Hc].
  assert (Hst : forall k, scope k = true -> is_Some (kv_get da' k) \/ is_Some (kv_get db' k) ->
    is_Some (kv_get (db sa) k) \/ is_Some (kv_get (db sb) k)).
  { intros k Hk Hs. rewrite Hfa, Hfb in Hs by (apply scope_not_local; assumption).
    destruct (kv_get (db sa) k) eqn:Ea; [left; eauto|].
    destruct (kv_get (db sb) k) eqn:Eb; [right; eauto|]. destruct (exchange_stored k Ea Eb) as [E1 E2].
    rewrite E1, E2 in Hs. destruct Hs as [[? ?]|[? ?]]; discriminate. }
  split; [exact Sa|exact Sb|]. intros k k' Hk Hk' Hs Hs'. apply Hc; auto.
Qed.

(** The exchange does to every key of the bucket what [exchange_key] says and
    leaves all other keys alone. *)
Lemma ae_exchange_spec : exists sa' sb', ae_exchange xxh3 false wa wb pid bucket sa sb = Ret (sa', sb') /\
  shard_ok (db sa') /\ shard_ok (db sb') /\
  (forall k, is_local k = false -> kv_get (db sa') k = fa k) /\ (forall k, is_local k = false -> kv_get (db sb') k = fb k).
Proof.
  pose proof Hok as [Sa Sb Hc]. pose proof (shard_keys_parse _ Sa) as Ka. pose proof (shard_keys_parse _ Sb) as Kb.
  unfold ae_exchange, offered_only. rewrite bucket_entries_eq by exact Ka. cbn [rust_bind fst snd].
  rewrite diff_bucket_eq by exact Kb. cbn [rust_bind fst snd].
  destruct (apply_batch_deliver wa pid (List.filter (sends_to (entry_map (entries_of (db sa)))) (bucket_records (db sb))) fa sa)
    as (sa' & Ha & Sa' & Hfa); [apply bucket_sendable; assumption|exact Sa| |].
  { intros k _. rewrite (records_for_bucket (db sb) _ k Kb). destruct (scope k) eqn:Hk.
    - rewrite <- (exchange_key_left k _ _ _ _ (Hin k Hk)). f_equal. destruct (kv_get (db sb) k) as [b|] eqn:Hb; [|reflexivity].
      cbn [andb]. rewrite (sends_to_offers (db sa) (db sb)) by assumption. reflexivity.
    - destruct (Hout k Hk) as [-> _]. destruct (kv_get (db sb) k); reflexivity. }
  rewrite Ha. cbn [rust_bind fst snd]. pose proof (shard_keys_parse _ Sa') as Ka'.
  rewrite records_by_hash_eq by exact Ka'. cbn [rust_bind fst snd]. set (want := fst <$> List.filter _ (map_to_list _)).
  destruct (apply_batch_deliver wb pid (List.filter (fun e => bool_decide (xxh3 e.1 ∈ want)) (bucket_records (db sa'))) fb sb)
    as (sb' & Hb & Sb' & Hfb); [apply bucket_sendable; assumption|exact Sb| |].
  { intros k Hl. rewrite (records_for_bucket (db sa') _ k Ka'), Hfa by exact Hl. destruct (scope k) eqn:Hk.
    - rewrite <- (exchange_key_right k _ _ _ _ (Hin k Hk)). f_equal. destruct (fa k) as [x|] eqn:Ex; [|reflexivity].
      cbn [andb fst]. unfold want. rewrite (requested (db sa) (db sb)); [reflexivity|exact Hok|exact Hk|].
      destruct (kv_get (db sa) k) eqn:Ea; [left; eauto|]. destruct (kv_get (db sb) k) eqn:Eb; [right; eauto|].
      destruct (exchange_stored k Ea Eb) as [E1 _]. congruence.
    - destruct (Hout k Hk) as [_ ->]. destruct (fa k); reflexivity. }
  rewrite Hb. cbn [rust_bind]. exists sa', sb'. split_and!; [reflexivity|exact Sa'|exact Sb'|exact Hfa|exact Hfb].
Qed.
End exchange.
End repair.

(** ** Convergence *)

(** Two records of a key whose merge behaves as a join and carries the newer
    version, and whose hashes tell them apart. *)
Record reconciles (xxh3 : bytes -> Z) (k a b m : bytes) : Prop := {
  rc_ab : merged_at k a b = Ret m; rc_ba : merged_at k b a = Ret m;
  rc_am : merged_at k a m = Ret m; rc_bm : merged_at k b m = Ret m;
  rc_mb : merged_at k m b = Ret m; rc_mm : merged_at k m m = Ret m;
  rc_same : a = b -> m = a;
  rc_hlc : record_hlc m = Z.max (record_hlc a) (record_hlc b);
  rc_hash : forall x y, x ∈ [a; b; m] -> y ∈ [a; b; m] -> xxh3 x = xxh3 y -> x = y;
}.

Section converge.
Context (xxh3 : bytes -> Z).

Lemma exchange_both k x y : exchange_key xxh3 k (Some x) (Some y) =
  (let! x' := (if ahead (meta xxh3 y) (meta xxh3 x) then merged_at k x y else Ret x) in
   let! y' := (if ahead (meta xxh3 x) (meta xxh3 y) then merged_at k y x' else Ret y) in
   Ret (Some x', Some y')).
Proof.
  unfold exchange_key. cbn [offers accept deliver_with]. destruct (ahead (meta xxh3 y) (meta xxh3 x)).
  - destruct (merged_at k x y); [|reflexivity]. cbn [rust_bind]. destruct (ahead _ _); [|reflexivity].
    cbn [accept deliver_with]. destruct (merged_at k y a); reflexivity.
  - cbn [rust_bind]. destruct (ahead _ _); [|reflexivity]. cbn [accept deliver_with]. destruct (merged_at k y x); reflexivity.
Qed.

Lemma ahead_self x : ahead (meta xxh3 x) (meta xxh3 x) = false.
Proof. unfold ahead. rewrite Z.ltb_irrefl, !Z.eqb_refl. reflexivity. Qed.

Lemma exchange_same k x : exchange_key xxh3 k (Some x) (Some x) = Ret (Some x, Some x).
Proof. rewrite exchange_both, !ahead_self. reflexivity. Qed.

(** Equally new records with different content are offered both ways. *)
Lemma ahead_peer x y : record_hlc x = record_hlc y -> (xxh3 x = xxh3 y -> x = y) -> x <> y ->
  ahead (meta xxh3 x) (meta xxh3 y) = true /\ ahead (meta xxh3 y) (meta xxh3 x) = true.
Proof.
  intros Hh Hi Hne. unfold ahead, meta. cbn [fst snd]. rewrite Hh, Z.ltb_irrefl, Z.eqb_refl.
  assert (xxh3 x <> xxh3 y) by auto. split; cbn; apply negb_true_iff, Z.eqb_neq; congruence.
Qed.

(** A record that absorbs both sides settles an equally new pair in one exchange. *)
Lemma exchange_settles k x y m : record_hlc x = record_hlc y -> (xxh3 x = xxh3 y -> x = y) ->
  merged_at k x y = Ret m -> merged_at k y m = Ret m -> (x = y -> x = m) ->
  exchange_key xxh3 k (Some x) (Some y) = Ret (Some m, Some m).
Proof.
  intros Hh Hi Hxy Hym Hsame. destruct (decide (x = y)) as [->|Hne]; [rewrite <- (Hsame eq_refl); apply exchange_same|].
  destruct (ahead_peer x y Hh Hi Hne) as [H1 H2]. rewrite exchange_both, H1, H2, Hxy. cbn [rust_bind]. rewrite Hym. reflexivity.
Qed.

(** Two exchanges settle any reconcilable pair. *)
Lemma two_exchanges k a b m : reconciles xxh3 k a b m -> exists a1 b1,
  exchange_key xxh3 k (Some a) (Some b) = Ret (Some a1, Some b1) /\
  exchange_key xxh3 k (Some a1) (Some b1) = Ret (Some m, Some m).
Proof.
  intros [Hab Hba Ham Hbm Hmb Hmm Hs Hh Hi]. destruct (Z.lt_trichotomy (record_hlc a) (record_hlc b)) as [Hlt|[Heq|Hgt]].
  - exists m, b. rewrite exchange_both. unfold ahead, meta. cbn [fst snd].
    rewrite (proj2 (Z.ltb_lt (record_hlc a) (record_hlc b)) Hlt), (proj2 (Z.ltb_ge (record_hlc b) (record_hlc a))) by lia.
    rewrite (proj2 (Z.eqb_neq (record_hlc a) (record_hlc b))) by lia. cbn [andb orb]. rewrite Hab. split; [reflexivity|].
    apply exchange_settles; [lia|apply Hi; set_solver|exact Hmb|exact Hbm|auto].
  - exists m, m. split; [|apply exchange_same]. apply exchange_settles; [exact Heq|apply Hi; set_solver|exact Hab|exact Hbm|].
    intros E. symmetry. auto.
  - exists a, m. rewrite exchange_both. unfold ahead, meta. cbn [fst snd].
    rewrite (proj2 (Z.ltb_lt (record_hlc b) (record_hlc a))) by lia. rewrite (proj2 (Z.ltb_ge (record_hlc a) (record_hlc b))) by lia.
    rewrite (proj2 (Z.eqb_neq (record_hlc b) (record_hlc a))) by lia. cbn [andb orb rust_bind]. rewrite Hba. split; [reflexivity|].
    apply exchange_settles; [lia|apply Hi; set_solver|exact Ham|exact Hmm|auto].
Qed.

(** The outcome for a key: the merge of both sides, or the only copy. *)
Definition settled (k : bytes) (a b r : option bytes) : Prop :=
  match a, b with
  | Some a, Some b => exists m, reconciles xxh3 k a b m /\ r = Some m
  | Some x, None | None, Some x => r = Some x
  | None, None => r = None
  end.

Lemma settle_key k a b : (forall x y, a = Some x -> b = Some y -> exists m, reconciles xxh3 k x y m) ->
  exists a1 b1 r, exchange_key xxh3 k a b = Ret (a1, b1) /\ exchange_key xxh3 k a1 b1 = Ret (r, r) /\ settled k a b r.
Proof.
  intros Hr. destruct a as [a|], b as [b|].
  - destruct (Hr a b eq_refl eq_refl) as (m & Hm). destruct (two_exchanges k a b m Hm) as (a1 & b1 & H1 & H2).
    exists (Some a1), (Some b1), (Some m). split_and!; [exact H1|exact H2|exists m; auto].
  - exists (Some a), (Some a), (Some a). split_and!; [reflexivity|apply exchange_same|reflexivity].
  - exists (Some b), (Some b), (Some b). split_and!; [reflexivity|apply exchange_same|reflexivity].
  - exists None, None, None. split_and!; reflexivity.
Qed.
End converge.

(** The states of a key after an exchange, as functions of the stores. *)
Definition after_left {DB} `{KV DB} xxh3 pid bucket (da d' : DB) (k : bytes) : option bytes :=
  if scope xxh3 pid bucket k then
    match exchange_key xxh3 k (kv_get da k) (kv_get d' k) with Ret r => r.1 | Panic => None end
  else kv_get da k.
Definition after_right {DB} `{KV DB} xxh3 pid bucket (da d' : DB) (k : bytes) : option bytes :=
  if scope xxh3 pid bucket k then
    match exchange_key xxh3 k (kv_get da k) (kv_get d' k) with Ret r => r.2 | Panic => None end
  else kv_get d' k.

Lemma ae_exchange_after {DB} `{KVLaws DB} xxh3 wa wb pid bucket (sa sb : Shard DB) :
  u16 pid -> ae_ok xxh3 pid bucket (db sa) (db sb) ->
  (forall k, scope xxh3 pid bucket k = true -> exchange_key xxh3 k (kv_get (db sa) k) (kv_get (db sb) k) <> Panic) ->
  exists sa' sb', ae_exchange xxh3 false wa wb pid bucket sa sb = Ret (sa', sb') /\ ae_ok xxh3 pid bucket (db sa') (db sb') /\
    forall k, is_local k = false -> kv_get (db sa') k = after_left xxh3 pid bucket (db sa) (db sb) k /\
                                    kv_get (db sb') k = after_right xxh3 pid bucket (db sa) (db sb) k.
Proof.
  intros Hpid Hok Hx. set (fa := after_left xxh3 pid bucket (db sa) (db sb)). set (fb := after_right xxh3 pid bucket (db sa) (db sb)).
  assert (Hin : forall k, scope xxh3 pid bucket k = true ->
    exchange_key xxh3 k (kv_get (db sa) k) (kv_get (db sb) k) = Ret (fa k, fb k)).
  { intros k Hk. specialize (Hx k Hk). unfold fa, fb, after_left, after_right. rewrite Hk.
    destruct (exchange_key _ _ _ _) as [[x y]|]; [reflexivity|congruence]. }
  assert (Hout : forall k, scope xxh3 pid bucket k = false -> fa k = kv_get (db sa) k /\ fb k = kv_get (db sb) k).
  { intros k Hk. unfold fa, fb, after_left, after_right. rewrite Hk. auto. }
  destruct (ae_exchange_spec xxh3 wa wb pid bucket sa sb fa fb Hok Hin Hout Hpid) as (sa' & sb' & H1 & S1 & S2 & H2 & H3).
  exists sa', sb'. split_and!; [exact H1| |intros k Hl; split; [apply H2, Hl|apply H3, Hl]].
  eapply exchange_ok; eassumption.
Qed.


(** Records of a lattice whose byte merge is the join are reconcilable. *)
Lemma reconciles_of_laws xxh3 k p {A} (U : A -> Prop) join enc x y :
  JoinLaws U join -> MergeWith merged_bytes U join enc ->
  parse k = Ret (Some p) -> pk_tag p <> tag_u8 TBudget -> U x -> U y ->
  record_hlc (enc (join x y)) = Z.max (record_hlc (enc x)) (record_hlc (enc y)) ->
  (forall a b, a ∈ [enc x; enc y; enc (join x y)] -> b ∈ [enc x; enc y; enc (join x y)] -> xxh3 a = xxh3 b -> a = b) ->
  reconciles xxh3 k (enc x) (enc y) (enc (join x y)).
Proof.
  intros HL HM Hp Ht Hx Hy Hh Hi. assert (Hm : forall a b, merged_at k a b = merged_bytes a b).
  { intros a b. eapply merged_at_plain; eassumption. }
  assert (Hxy : U (join x y)) by (apply jl_closed; assumption).
  assert (Hmerge : forall a b c, U a -> U b -> join a b = c -> merged_at k (enc a) (enc b) = Ret (enc c)).
  { intros a b c Ha Hb <-. rewrite Hm. apply mi_merge; assumption. }
  assert (Hidem : forall a, U a -> join a a = a) by (intros; apply jl_idem; assumption).
  assert (Hcomm : join y x = join x y) by (apply jl_comm; assumption).
  assert (Hassoc : forall a b c, U a -> U b -> U c -> join a (join b c) = join (join a b) c) by (intros; apply jl_assoc; assumption).
  split; try assumption; try (apply Hmerge; try assumption).
  - reflexivity.
  - rewrite Hassoc, Hidem by assumption. reflexivity.
  - rewrite <- Hcomm, Hassoc, Hidem by assumption. reflexivity.
  - rewrite <- Hassoc, Hidem by assumption. reflexivity.
  - apply Hidem, Hxy.
  - intros E. pose proof (Hmerge x x x Hx Hx (Hidem x Hx)) as H1. rewrite E in H1 at 2.
    rewrite (Hmerge x y (join x y) Hx Hy eq_refl) in H1. congruence.
Qed.

(** A concrete stand-in for the hash. *)
Definition ex_xxh3 (l : bytes) : Z := of_be (1 :: l).
Definition ex_counter_key : bytes := string_key [99].
Definition ex_counter (h n : Z) : bytes := crec_bytes (mkCrec (h, n) 0 (bump (on_base 0 0 0) n 1)).
Definition ex_left : Shard (gmap bytes bytes) := ex_shard {[ ex_counter_key := ex_counter 60 1 ]}.
Definition ex_right : Shard (gmap bytes bytes) := ex_shard {[ ex_counter_key := ex_counter 30 2 ]}.

(** Stores that hold the one key, not of a sorted set. *)
Lemma single_ae_ok xxh3 pid bucket k p (a b : bytes) : is_bytes k -> parse k = Ret (Some p) ->
  pk_tag p <> tag_u8 TZsetMember -> pk_tag p <> tag_u8 TZsetScore ->
  ae_ok xxh3 pid bucket ({[ k := a ]} : gmap bytes bytes) {[ k := b ]}.
Proof.
  intros Hb Hp Hz HZ. assert (Hget : forall (x : bytes) k', is_Some (kv_get ({[ k := x ]} : gmap bytes bytes) k') -> k' = k).
  { intros x k' [v Hv]. cbn in Hv. apply lookup_singleton_Some in Hv as [<- _]. reflexivity. }
  assert (Hshard : forall x, shard_ok ({[ k := x ]} : gmap bytes bytes)).
  { intros x. split.
    - intros k' ->%Hget. split; [exact Hb|]. exists p. split; [exact Hp|]. intros Et. contradiction.
    - apply (zset_wf_frame ∅ _ k p Hp Hz HZ); [|apply zset_wf_empty]. intros k' Hne. cbn.
      rewrite lookup_singleton_ne by congruence. symmetry. apply lookup_empty. }
  split; [apply Hshard..|]. intros k1 k2 _ _ Hs1 Hs2 _.
  destruct Hs1 as [->%Hget| ->%Hget], Hs2 as [->%Hget| ->%Hget]; reflexivity.
Qed.

(** A hash tells the members of a list apart. *)
Lemma hash_distinct (h : bytes -> Z) l :
  forallb (fun x => forallb (fun y => negb (h x =? h y) || bytes_eqb x y) l) l = true ->
  forall x y, x ∈ l -> y ∈ l -> h x = h y -> x = y.
Proof.
  intros Hl x y Hx Hy E. rewrite forallb_forall in Hl. specialize (Hl x (proj1 (list_elem_of_In _ _) Hx)).
  rewrite forallb_forall in Hl. specialize (Hl y (proj1 (list_elem_of_In _ _) Hy)). apply orb_true_iff in Hl as [Hl|Hl].
  - apply negb_true_iff, Z.eqb_neq in Hl. contradiction.
  - unfold bytes_eqb in Hl. apply bool_decide_eq_true in Hl. exact Hl.
Qed.

Lemma ex_reconciles : reconciles ex_xxh3 ex_counter_key (ex_counter 60 1) (ex_counter 30 2)
  (crec_bytes (crec_join (mkCrec (60, 1) 0 (bump (on_base 0 0 0) 1 1)) (mkCrec (30, 2) 0 (bump (on_base 0 0 0) 2 1)))).
Proof.
  eapply (reconciles_of_laws ex_xxh3 ex_counter_key _ (crec_ok (fun _ => 0) (fun _ => 0)) crec_join crec_bytes).
  - apply crec_laws.
  - apply crec_impl.
  - reflexivity.
  - discriminate.
  - apply bumped_crec_ok; unfold u16, u64, in_range; cbn; lia.
  - apply bumped_crec_ok; unfold u16, u64, in_range; cbn; lia.
  - vm_compute. reflexivity.
  - apply hash_distinct. vm_compute. reflexivity.
Qed.


(** ** What anti-entropy never repairs *)

Definition ex_hll_key : bytes := hll_register_key [104] 5.
(** A register of rank 9 written at HLC 3, and one of rank 2 written at HLC 5. *)
Definition ex_rank9 : bytes := encode_with (Envelope_new HllRegister 3 1) [9].
Definition ex_rank2 : bytes := encode_with (Envelope_new HllRegister 5 2) [2].

(** Anti-entropy cannot repair a HyperLogLog register whose higher rank
    carries the lower version: for every hash and every clock, whichever replica
    starts the exchange, both keep what they hold, although merging the two records gives
    rank 9 on either side.  The replica with rank 2 is offered nothing, because
    the exchange compares versions and the register merge keeps the version of
    the winning rank instead of the newer one. *)
Theorem hll_register_never_repaired xxh3 wa wb :
  let exchange := ae_exchange xxh3 false wa wb (pid_of [104]) (bucket_of xxh3 ex_hll_key) in
  let sa := ex_shard {[ ex_hll_key := ex_rank9 ]} in
  let sb := ex_shard {[ ex_hll_key := ex_rank2 ]} in
  merged_at ex_hll_key ex_rank2 ex_rank9 = Ret ex_rank9 /\ merged_at ex_hll_key ex_rank9 ex_rank2 = Ret ex_rank9 /\
  (exists sa' sb', exchange sa sb = Ret (sa', sb') /\
     kv_get (db sa') ex_hll_key = Some ex_rank9 /\ kv_get (db sb') ex_hll_key = Some ex_rank2) /\
  (exists sb' sa', exchange sb sa = Ret (sb', sa') /\
     kv_get (db sa') ex_hll_key = Some ex_rank9 /\ kv_get (db sb') ex_hll_key = Some ex_rank2).
Proof.
  intros exchange sa sb.
  assert (M1 : merged_at ex_hll_key ex_rank2 ex_rank9 = Ret ex_rank9) by (vm_compute; reflexivity).
  assert (M2 : merged_at ex_hll_key ex_rank9 ex_rank2 = Ret ex_rank9) by (vm_compute; reflexivity).
  assert (A1 : ahead (meta xxh3 ex_rank2) (meta xxh3 ex_rank9) = true) by reflexivity.
  assert (A2 : ahead (meta xxh3 ex_rank9) (meta xxh3 ex_rank2) = false) by reflexivity.
  assert (Hscope : scope xxh3 (pid_of [104]) (bucket_of xxh3 ex_hll_key) ex_hll_key = true).
  { unfold scope, in_bucket. rewrite Z.eqb_refl. vm_compute. reflexivity. }
  assert (Hbytes : is_bytes ex_hll_key) by (apply (bool_decide_unpack _); vm_compute; reflexivity).
  assert (Hparse : parse ex_hll_key = Ret (Some (mkParsedKey (pid_of [104]) (tag_u8 THllRegister) [104] [0; 5])))
    by (vm_compute; reflexivity).
  assert (Hget : forall (x k' v : bytes), kv_get ({[ ex_hll_key := x ]} : gmap bytes bytes) k' = Some v -> k' = ex_hll_key).
  { intros x k' v Hv. cbn in Hv. apply lookup_singleton_Some in Hv as [<- _]. reflexivity. }
  assert (Hself : forall x : bytes, kv_get ({[ ex_hll_key := x ]} : gmap bytes bytes) ex_hll_key = Some x).
  { intros x. apply lookup_singleton_eq. }
  assert (Hnone : forall (x k : bytes), k <> ex_hll_key -> kv_get ({[ ex_hll_key := x ]} : gmap bytes bytes) k = None).
  { intros x k Hk. destruct (kv_get _ k) eqn:E; [|reflexivity]. apply Hget in E. contradiction. }
  assert (Hrun : forall x y, exchange_key xxh3 ex_hll_key (Some x) (Some y) = Ret (Some x, Some y) ->
    exists s1 s2, exchange (ex_shard {[ ex_hll_key := x ]}) (ex_shard {[ ex_hll_key := y ]}) = Ret (s1, s2) /\
      kv_get (db s1) ex_hll_key = Some x /\ kv_get (db s2) ex_hll_key = Some y).
  { intros x y Hx. destruct (ae_exchange_after xxh3 wa wb (pid_of [104]) (bucket_of xxh3 ex_hll_key)
      (ex_shard {[ ex_hll_key := x ]}) (ex_shard {[ ex_hll_key := y ]})) as (s1 & s2 & H1 & _ & H2).
    - split; vm_compute; congruence.
    - apply (single_ae_ok _ _ _ _ _ _ _ Hbytes Hparse); discriminate.
    - intros k _. destruct (decide (k = ex_hll_key)) as [->|Hk]; cbn [db ex_shard].
      + rewrite !Hself, Hx. discriminate.
      + rewrite !Hnone by assumption. discriminate.
    - exists s1, s2. split; [exact H1|]. destruct (H2 ex_hll_key ltac:(vm_compute; reflexivity)) as [-> ->]. unfold after_left, after_right. rewrite Hscope.
      cbn [db ex_shard]. rewrite !Hself, Hx. auto. }
  split_and!; [exact M1|exact M2| |].
  - apply Hrun. rewrite exchange_both, A1, A2, M2. reflexivity.
  - destruct (Hrun ex_rank2 ex_rank9) as (s1 & s2 & H1 & H2 & H3); [rewrite exchange_both, A1, A2; cbn [rust_bind]; rewrite M2; reflexivity|].
    exists s1, s2. auto.
Qed.
