(* ===== verification/BudgetEngine.v ===== *)
(** * Distributed budgets: the escrow engine ([crates/marekvs-engine/src/cmd/budget.rs])

    The shard-local part of the [BG.*] commands: reading the head, granting a
    reservation against the node's own escrow, closing or drawing a token,
    folding expired tokens, garbage-collecting old windows, and the head
    updates of CREATE, TOPUP and RECLAIM.  Each runs on the shard thread that
    owns the budget and returns the records to write in one transaction. *)

From S2P Require Import Prelude Hlc Envelope Ikey BudgetCore Store.

Definition FOLD_BATCH : nat := 16.

Abbreviation BudgetOps := (list (bytes * bytes)).

(** The client errors; the message of [Other] with its number. *)
Inductive BudgetMsg :=
  | WrongType | CorruptHead | AmountNotPositive | AmountExceedsMax (n : Z) | TtlRange (n : Z)
  | LedgerOverflow | CorruptToken | DrawOverflows | DrawExceeds (n : Z) | SpentExceeds | SpentBelowDrawn
  | CapacityOverflow | TooManyNodes | AllocExceedsCapacity | TooManyFenced | NoUnfencedNodes.

Inductive BudgetErr :=
  | Exhausted | NoBudget | TryAgain | TokenExpired | TokenUsed | Other (m : BudgetMsg).

Abbreviation result A := (BudgetErr + A)%type.
Notation Ok := inr.
Notation Err := inl.

Record BudgetGrant := mkGrant { g_token : bytes; g_amount : Z; g_deadline_ms : Z }.

(** ** REQID dedup *)

Record ReqidLru := mkLru {
  lru_cap : nat;
  lru_map : gmap (bytes * Z) BudgetGrant;
  lru_order : list (bytes * Z);
}.

Definition ReqidLru_new (cap : nat) : ReqidLru := mkLru (Nat.max cap 1) ∅ [].
Definition ReqidLru_get (l : ReqidLru) (key : bytes) (reqid : Z) : option BudgetGrant := lru_map l !! (key, reqid).

(** [while order.len() > cap { pop_front; remove }]. *)
Fixpoint lru_evict (cap : nat) (m : gmap (bytes * Z) BudgetGrant) (order : list (bytes * Z))
    : gmap (bytes * Z) BudgetGrant * list (bytes * Z) :=
  match order with
  | old :: order' => if (cap <? length order)%nat then lru_evict cap (delete old m) order' else (m, order)
  | [] => (m, [])
  end.

Definition ReqidLru_put (l : ReqidLru) (key : bytes) (reqid : Z) (grant : BudgetGrant) : ReqidLru :=
  let k := (key, reqid) in
  let order := match lru_map l !! k with None => lru_order l ++ [k] | Some _ => lru_order l end in
  let '(m, order) := lru_evict (lru_cap l) (<[k := grant]> (lru_map l)) order in
  mkLru (lru_cap l) m order.

(** ** Shard-local reads *)

Record BudgetHead := mkBudgetHead { bh_env : Envelope; bh_del_hlc : Z; bh_state : HeadState }.

(** Parse (gen, hlc, node, epoch) from a token key suffix. *)
Definition token_suffix_fields (suffix : bytes) : option (Z * Z * Z * Z) :=
  if (length suffix <? 27)%nat || negb (byte_at suffix 0 =? BUDGET_TOKEN) then None else
  Some (of_be (slice 1 9 suffix), of_be (slice 9 17 suffix), of_be (slice 17 19 suffix), of_be (slice 19 27 suffix)).

Definition slot_default : SlotState := mkSlot 0 0.

(** The slot a stored record stands for. *)
Definition slot_of_record (v : option bytes) : SlotState :=
  match v ≫= Envelope_decode with
  | Some (env, pay) => if is_tombstone env then slot_default else default slot_default (SlotState_decode pay)
  | None => slot_default
  end.

Definition slot_key_for (key : bytes) (head : HeadState) (window node epoch : Z) : bytes :=
  if hmode head =? MODE_WINDOW then budget_window_slot_key key (hgen head) window node epoch
  else budget_slot_key key (hgen head) node epoch.

(** Pending writes of one transaction. *)
Record PendingOps := mkPending { p_slots : gmap bytes SlotState; p_other : list (bytes * bytes) }.
Definition pending_new : PendingOps := mkPending ∅ [].
Definition push_other (p : PendingOps) (k v : bytes) : PendingOps := mkPending (p_slots p) (p_other p ++ [(k, v)]).

Record GrantCfg := mkGrantCfg { cfg_default_ttl_ms : Z; cfg_max_ttl_ms : Z; cfg_grace_ms : Z }.

Inductive CloseOp :=
  | Commit (spent : option Z)
  | Release
  | Draw (n : Z).

(** A token to fold: key, generation, node, epoch, state. *)
Record Victim := mkVictim { v_key : bytes; v_gen : Z; v_node : Z; v_epoch : Z; v_st : TokenState }.

Definition node_le (a b : Z * Z) : Prop := a.1 <= b.1.
#[export] Instance node_le_dec : RelDecision node_le.
Proof. intros a b. unfold node_le. apply _. Defined.

Section engine.
Context {DB : Type} `{!KV DB}.
Context (node_id epoch : Z) (wall : nat -> Z).

Definition shows_string (v : option bytes) (now : Z) : bool :=
  match v ≫= Envelope_decode with
  | Some (env, pay) => bool_decide (is_Some (visible env pay 0 now))
  | None => false
  end.

Definition head_or_err (key : bytes) : M DB (result BudgetHead) :=
  now ← now_ms wall;
  s ← get_raw (string_key key);
  if shows_string s now then mret (Err (Other WrongType)) else
  v ← get_raw (head_key key);
  mret (match v ≫= Envelope_decode with
        | None => Err NoBudget
        | Some (env, pay) =>
            match head_decode pay with
            | None => Err NoBudget
            | Some (ctype, del) =>
                if is_tombstone env || is_expired env now then Err NoBudget
                else if negb (ctype =? CTYPE_BUDGET) then Err (Other WrongType)
                else match HeadState_decode (drop 9 pay) with
                     | None => Err (Other CorruptHead)
                     | Some st => Ok (mkBudgetHead env del st)
                     end
            end
        end).

Definition head_raw (key : bytes) : M DB (option (Envelope * Z * Z * option HeadState)) :=
  v ← get_raw (head_key key);
  mret (match v ≫= Envelope_decode with
        | None => None
        | Some (env, pay) =>
            match head_decode pay with
            | None => None
            | Some (ctype, del) =>
                Some (env, ctype, del,
                  if ctype =? CTYPE_BUDGET then HeadState_decode (drop 9 pay) else None)
            end
        end).

Definition read_slot (slot_key : bytes) : M DB SlotState := v ← get_raw slot_key; mret (slot_of_record v).

Definition current_window (head : HeadState) : M DB Z :=
  if (hmode head =? MODE_WINDOW) && (0 <? period_ms head) then
    h ← hlc_now wall; mret (hlc_phys_ms h / period_ms head)
  else mret 0.

(** ** Writing *)

Definition put_all (ops : BudgetOps) (d : DB) : DB := fold_left (fun d o => kv_put d o.1 o.2) ops d.
Definition commit_ops (ops : BudgetOps) : M DB unit := writes (put_all ops).

(** The shard part of [budget_write]. *)
Definition budget_txn {T} (f : M DB (result (BudgetOps * T))) : M DB (result T) :=
  r ← f;
  match r with
  | Err e => mret (Err e)
  | Ok (ops, out) => _ ← commit_ops ops; mret (Ok out)
  end.

(** [PendingOps::slot]: the overlay entry, read in on first use. *)
Definition pending_slot (p : PendingOps) (key : bytes) : M DB SlotState :=
  match p_slots p !! key with
  | Some s => mret s
  | None => read_slot key
  end.
Definition set_slot (p : PendingOps) (key : bytes) (s : SlotState) : PendingOps :=
  mkPending (<[key := s]> (p_slots p)) (p_other p).

Fixpoint slot_records (l : list (bytes * SlotState)) : M DB BudgetOps :=
  match l with
  | [] => mret []
  | (k, st) :: l =>
      h ← hlc_now wall;
      ops ← slot_records l;
      mret ((k, encode_slot_record (h, node_id) 0 false st) :: ops)
  end.

Definition into_ops (p : PendingOps) : M DB BudgetOps :=
  ops ← slot_records (map_to_list (p_slots p)); mret (p_other p ++ ops).

(** ** Folding *)

Definition folded (st : TokenState) (state spent credited : Z) : TokenState :=
  mkToken RANK_FOLDED state (amount st) spent credited (deadline_ms st) (window st) (reqid st).

Definition fold_token (key : bytes) (head : HeadState) (token_ikey : bytes) (node epoch : Z)
    (st : TokenState) (state spent : Z) (pending : PendingOps) : M DB (Z * PendingOps) :=
  let spent := Z.min spent (amount st) in
  let credited := amount st - spent in
  let slot_key := slot_key_for key head (window st) node epoch in
  slot ← pending_slot pending slot_key;
  let pending := set_slot pending slot_key (mkSlot (granted slot) (saturating_add 64 (returned slot) credited)) in
  h ← hlc_now wall;
  mret (credited, push_other pending token_ikey
                    (encode_token_record (h, node_id) 0 (folded st state spent credited))).

(** The scan callback of the expiry sweep. *)
Definition expiry_victim (gen now grace : Z) (limit : nat) (victims : list Victim) (k v : bytes)
    : rust (list Victim * bool) :=
  let! p := parse k in
  match p with
  | None => Ret (victims, true)
  | Some p =>
      match token_suffix_fields (pk_suffix p) with
      | None => Ret (victims, true)
      | Some (tgen, _, node, tepoch) =>
          if negb (node =? node_id) then Ret (victims, true) else
          match Envelope_decode v with
          | None => Ret (victims, true)
          | Some (env, pay) =>
              if is_tombstone env then Ret (victims, true) else
              match TokenState_decode pay with
              | None => Ret (victims, true)
              | Some st =>
                  if RANK_FOLDED <=? rank st then Ret (victims, true) else
                  let victims :=
                    if negb (tgen =? gen) || (saturating_add 64 (deadline_ms st) grace <? now)
                    then victims ++ [mkVictim k tgen node tepoch st] else victims in
                  Ret (victims, (length victims <? limit)%nat)
              end
          end
      end
  end.

Fixpoint fold_victims (key : bytes) (head : HeadState) (l : list Victim) (pending : PendingOps) : M DB PendingOps :=
  match l with
  | [] => mret pending
  | v :: l =>
      pending ←
        (if v_gen v =? hgen head then
           r ← fold_token key head (v_key v) (v_node v) (v_epoch v) (v_st v) STATE_EXPIRED (spent (v_st v)) pending;
           mret r.2
         else
           h ← hlc_now wall;
           mret (push_other pending (v_key v)
                   (encode_token_record (h, node_id) 0 (folded (v_st v) STATE_EXPIRED (spent (v_st v)) 0))));
      fold_victims key head l pending
  end.

Definition fold_expired_own (key : bytes) (head : HeadState) (grace : Z) (limit : nat) (pending : PendingOps)
    : M DB PendingOps :=
  now ← now_ms wall;
  victims ← scan_prefix (prefixed TBudget key [BUDGET_TOKEN]) (expiry_victim (hgen head) now grace limit) [];
  fold_victims key head victims pending.

(** ** Window garbage collection *)

Definition window_victim (cutoff : Z) (limit : nat) (victims : list bytes) (k v : bytes) : rust (list bytes * bool) :=
  let! p := parse k in
  match p with
  | None => Ret (victims, true)
  | Some p =>
      let suffix := pk_suffix p in
      if (length suffix <? 27)%nat then Ret (victims, true) else
      if cutoff <=? of_be (slice 9 17 suffix) then Ret (victims, false) else
      if negb (of_be (slice 17 19 suffix) =? node_id) then Ret (victims, true) else
      let victims := match Envelope_decode v with
        | Some (e, _) => if is_tombstone e then victims else victims ++ [k]
        | None => victims
        end in
      Ret (victims, (length victims <? limit)%nat)
  end.

Fixpoint tomb_windows (l : list bytes) (pending : PendingOps) : M DB PendingOps :=
  match l with
  | [] => mret pending
  | k :: l =>
      h ← hlc_now wall;
      tomb_windows l (push_other pending k (encode_slot_record (h, node_id) 0 true slot_default))
  end.

Definition gc_old_windows (key : bytes) (head : HeadState) (max_ttl grace current : Z) (limit : nat)
    (pending : PendingOps) : M DB PendingOps :=
  if negb (hmode head =? MODE_WINDOW) || (period_ms head =? 0) then mret pending else
  let retention :=
    wrap 64 (saturating_add 64 max_ttl (Z.min (grace * 2) (2 ^ 64 - 1)) / period_ms head + 2) in
  if current <? retention then mret pending else
  let cutoff := current - retention in
  victims ← scan_prefix (prefixed TBudget key ([BUDGET_WINDOW_SLOT] ++ be_bytes 8 (hgen head)))
              (window_victim cutoff limit) [];
  tomb_windows victims pending.

(** ** Granting *)

Definition slots_prefix (key : bytes) (head : HeadState) (window : Z) : bytes :=
  if hmode head =? MODE_WINDOW
  then prefixed TBudget key ([BUDGET_WINDOW_SLOT] ++ be_bytes 8 (hgen head) ++ be_bytes 8 window)
  else prefixed TBudget key ([BUDGET_SLOT] ++ be_bytes 8 (hgen head)).
Definition node_off (head : HeadState) : nat := if hmode head =? MODE_WINDOW then 17 else 9.

(** Is [k] a slot of this node? *)
Definition own_slot (off : nat) (k : bytes) : rust bool :=
  let! p := parse k in
  Ret (match p with
       | None => false
       | Some p =>
           negb (length (pk_suffix p) <? off + 10)%nat && (of_be (slice off (off + 2) (pk_suffix p)) =? node_id)
       end).

Definition stored_outstanding (off : nat) (pending : PendingOps) (total : Z) (k v : bytes) : rust (Z * bool) :=
  let! own := own_slot off k in
  if negb own then Ret (total, true) else
  if bool_decide (is_Some (p_slots pending !! k)) then Ret (total, true) else
  Ret (match Envelope_decode v with
       | Some (env, pay) =>
           if is_tombstone env then total
           else match SlotState_decode pay with Some st => total + outstanding st | None => total end
       | None => total
       end, true).

Fixpoint overlay_outstanding (off : nat) (prefix : bytes) (l : list (bytes * SlotState)) (total : Z) : rust Z :=
  match l with
  | [] => Ret total
  | (k, st) :: l =>
      if starts_with k prefix then
        let! own := own_slot off k in
        overlay_outstanding off prefix l (if own && (10 <=? length k)%nat then total + outstanding st else total)
      else overlay_outstanding off prefix l total
  end.

Definition own_outstanding (key : bytes) (head : HeadState) (window : Z) (pending : PendingOps) : M DB Z :=
  let prefix := slots_prefix key head window in
  total ← scan_prefix prefix (stored_outstanding (node_off head) pending) 0;
  lift (overlay_outstanding (node_off head) prefix (map_to_list (p_slots pending)) total).

Definition per_token_max (hs : HeadState) : Z :=
  if 0 <? max_amount hs then Z.min (max_amount hs) (capacity hs) else capacity hs.
Definition grant_ttl (cfg : GrantCfg) (hs : HeadState) (ttl_ms : option Z) : Z :=
  match ttl_ms with
  | Some t => t
  | None => if 0 <? default_ttl_ms hs then default_ttl_ms hs else cfg_default_ttl_ms cfg
  end.
Definition grant_max_ttl (cfg : GrantCfg) (hs : HeadState) : Z :=
  if 0 <? max_ttl_ms hs then max_ttl_ms hs else cfg_max_ttl_ms cfg.

Definition pending_empty (p : PendingOps) : bool := bool_decide (p_other p = []) && bool_decide (p_slots p = ∅).

(** The grant itself, once the headroom check has passed. *)
Definition issue_token (key : bytes) (hs : HeadState) (window amount ttl reqid : Z) (pending : PendingOps)
    : M DB (result (BudgetOps * BudgetGrant)) :=
  let slot_key := slot_key_for key hs window node_id epoch in
  slot ← pending_slot pending slot_key;
  match checked_add 64 (granted slot) amount with
  | None => mret (Err (Other LedgerOverflow))
  | Some granted' =>
      let pending := set_slot pending slot_key (mkSlot granted' (returned slot)) in
      token_hlc ← hlc_now wall;
      now ← now_ms wall;
      let deadline := wrap 64 (now + ttl) in
      let tid := mkTokenId (hgen hs) token_hlc node_id epoch in
      let token_key := budget_token_key key (tk_gen tid) (tk_hlc tid) (tk_node tid) (tk_epoch tid) in
      let st := mkToken RANK_OPEN STATE_OPEN amount 0 0 deadline window reqid in
      let pending := push_other pending token_key (encode_token_record (token_hlc, node_id) 0 st) in
      ops ← into_ops pending;
      mret (Ok (ops, mkGrant (TokenId_format tid) amount deadline))
  end.

Definition grant_local (cfg : GrantCfg) (key : bytes) (amount : Z) (ttl_ms : option Z) (reqid : Z)
    : M DB (result (BudgetOps * BudgetGrant)) :=
  bh ← head_or_err key;
  match bh with
  | Err e => mret (Err e)
  | Ok bhead =>
      let hs := bh_state bhead in
      if is_fenced hs node_id then mret (Err Exhausted) else
      if amount =? 0 then mret (Err (Other AmountNotPositive)) else
      if per_token_max hs <? amount then mret (Err (Other (AmountExceedsMax (per_token_max hs)))) else
      let ttl := grant_ttl cfg hs ttl_ms in
      let max_ttl := grant_max_ttl cfg hs in
      if (ttl =? 0) || (max_ttl <? ttl) then mret (Err (Other (TtlRange max_ttl))) else
      pending ← fold_expired_own key hs (cfg_grace_ms cfg) FOLD_BATCH pending_new;
      window ← current_window hs;
      pending ← gc_old_windows key hs max_ttl (cfg_grace_ms cfg) window FOLD_BATCH pending;
      let alloc := alloc_for hs node_id in
      outstanding ← own_outstanding key hs window pending;
      if alloc <? outstanding + amount then
        if pending_empty pending then mret (Err Exhausted)
        else ops ← into_ops pending; _ ← commit_ops ops; mret (Err Exhausted)
      else issue_token key hs window amount ttl reqid pending
  end.

(** ** Closing *)

Definition fold_and_return (key : bytes) (hs : HeadState) (token_key : bytes) (tid : TokenId) (st : TokenState)
    (state spent : Z) (out : Z -> result Z) : M DB (result (BudgetOps * result Z)) :=
  r ← fold_token key hs token_key (tk_node tid) (tk_epoch tid) st state spent pending_new;
  ops ← into_ops r.2;
  mret (Ok (ops, out r.1)).

Definition close_local (key : bytes) (tid : TokenId) (op : CloseOp) : M DB (result (BudgetOps * result Z)) :=
  bh ← head_or_err key;
  match bh with
  | Err e => mret (Err e)
  | Ok bhead =>
      let hs := bh_state bhead in
      if negb (hgen hs =? tk_gen tid) then mret (Err TokenExpired) else
      let token_key := budget_token_key key (tk_gen tid) (tk_hlc tid) (tk_node tid) (tk_epoch tid) in
      v ← get_raw token_key;
      match v ≫= Envelope_decode with
      | None => mret (Err TokenExpired)
      | Some (_, pay) =>
          match TokenState_decode pay with
          | None => mret (Err (Other CorruptToken))
          | Some st =>
              if RANK_FOLDED <=? rank st then
                mret (Err (if tstate st =? STATE_EXPIRED then TokenExpired else TokenUsed)) else
              now ← now_ms wall;
              if deadline_ms st <? now then
                fold_and_return key hs token_key tid st STATE_EXPIRED (spent st) (fun _ => Err TokenExpired)
              else
                match op with
                | Draw n =>
                    if n =? 0 then mret (Err (Other AmountNotPositive)) else
                    match checked_add 64 (spent st) n with
                    | None => mret (Err (Other DrawOverflows))
                    | Some spent' =>
                        if amount st <? spent' then mret (Err (Other (DrawExceeds (amount st - spent st)))) else
                        let updated := mkToken (rank st) (tstate st) (amount st) spent' (credited st)
                                         (deadline_ms st) (window st) (reqid st) in
                        h ← hlc_now wall;
                        ops ← into_ops (push_other pending_new token_key
                                          (encode_token_record (h, node_id) 0 updated));
                        mret (Ok (ops, Ok (amount st - spent')))
                    end
                | Commit explicit =>
                    let spent' := default (spent st) explicit in
                    if amount st <? spent' then mret (Err (Other SpentExceeds)) else
                    if spent' <? spent st then mret (Err (Other SpentBelowDrawn)) else
                    fold_and_return key hs token_key tid st STATE_COMMITTED spent' Ok
                | Release => fold_and_return key hs token_key tid st STATE_RELEASED (spent st) Ok
                end
          end
      end
  end.

(** ** Head updates *)

(** [n] equal shares of [total]; the remainder goes one unit each to the
    first ones. *)
Definition share (total : Z) (n i : nat) : Z :=
  total / Z.of_nat n + (if (Z.of_nat i <? total mod Z.of_nat n) then 1 else 0).

Definition head_record (key : bytes) (h del : Z) (hs : HeadState) : bytes * bytes :=
  (head_key key,
   encode_with (mkEnvelope COLLECTION_HEAD h node_id 0) (head_encode CTYPE_BUDGET del ++ HeadState_encode hs)).

(** Arguments of BG.CREATE after parsing; [nodes] is sorted and duplicate-free. *)
Record CreateArgs := mkCreateArgs {
  ca_capacity : Z; ca_mode : Z; ca_period : Z; ca_default_ttl : Z; ca_max_ttl : Z; ca_max_amount : Z;
  ca_nodes : list Z; ca_seq : option Z;
}.

Definition create_state (a : CreateArgs) (gen prev_seq : Z) : HeadState :=
  mkHead (default (wrap 64 (prev_seq + 1)) (ca_seq a)) gen (ca_mode a) (ca_period a) (ca_capacity a) (ca_max_amount a)
    (ca_default_ttl a) (ca_max_ttl a)
    (imap (fun i n => (n, share (ca_capacity a) (length (ca_nodes a)) i)) (ca_nodes a)) [].

Definition create_shard (key : bytes) (a : CreateArgs) : M DB (result (BudgetOps * unit)) :=
  now ← now_ms wall;
  s ← get_raw (string_key key);
  if shows_string s now then mret (Err (Other WrongType)) else
  prev ← head_raw key;
  let live := match prev with
    | Some (env, _, _, _) => negb (is_tombstone env) && negb (is_expired env now) | None => false end in
  let wrong := match prev with Some (_, ctype, _, _) => live && negb (ctype =? CTYPE_BUDGET) | None => false end in
  if wrong then mret (Err (Other WrongType)) else
  let prev_state := match prev with Some (_, _, _, st) => if live then st else None | None => None end in
  let noop := match ca_seq a, prev_state with Some seq, Some ps => seq <=? op_seq ps | _, _ => false end in
  if noop then mret (Ok ([], tt)) else
  let prev_del := match prev with Some (env, _, del, _) => carried_del env del now | None => 0 end in
  t ← hlc_now wall;
  let h := Z.max (match prev with Some (env, _, _, _) => wrap 64 (hlc env + 1) | None => 0 end) t in
  let hs := create_state a h (match prev_state with Some ps => op_seq ps | None => 0 end) in
  mret (Ok ([head_record key h prev_del hs], tt)).

(** TOPUP's new allocation: all to one node, or an even spread. *)
Fixpoint add_to (node amount : Z) (l : list (Z * Z)) : list (Z * Z) :=
  match l with
  | [] => []
  | (n, a) :: l => if n =? node then (n, saturating_add 64 a amount) :: l else (n, a) :: add_to node amount l
  end.
(** [push], then [sort_unstable_by_key] on the node id. *)
Definition insert_node (e : Z * Z) (l : list (Z * Z)) : list (Z * Z) := merge_sort node_le (l ++ [e]).
Definition spread (amount : Z) (l : list (Z * Z)) : list (Z * Z) :=
  imap (fun i e => (e.1, saturating_add 64 e.2 (share amount (length l) i))) l.

Definition topup_alloc (amount : Z) (node : option Z) (l : list (Z * Z)) : result (list (Z * Z)) :=
  match node with
  | Some n =>
      if existsb (fun e => e.1 =? n) l then Ok (add_to n amount l)
      else if (255 <=? length l)%nat then Err (Other TooManyNodes)
      else Ok (insert_node (n, amount) l)
  | None => match l with [] => Ok [(node_id, amount)] | _ => Ok (spread amount l) end
  end.

Definition with_alloc (hs : HeadState) (seq cap : Z) (alloc fence : list (Z * Z)) : HeadState :=
  mkHead seq (hgen hs) (hmode hs) (period_ms hs) cap (max_amount hs) (default_ttl_ms hs) (max_ttl_ms hs) alloc fence.

Definition topup_state (hs : HeadState) (amount : Z) (node seq : option Z) : result HeadState :=
  match checked_add 64 (capacity hs) amount with
  | None => Err (Other CapacityOverflow)
  | Some cap =>
      match topup_alloc amount node (alloc hs) with
      | Err e => Err e
      | Ok alloc =>
          let hs' := with_alloc hs (default (wrap 64 (op_seq hs + 1)) seq) cap alloc (fence hs) in
          if cap <? alloc_total hs' then Err (Other AllocExceedsCapacity) else Ok hs'
      end
  end.

Definition seq_noop (seq : option Z) (hs : HeadState) : bool :=
  match seq with Some s => s <=? op_seq hs | None => false end.

Definition topup_shard (key : bytes) (amount : Z) (node seq : option Z) : M DB (result (BudgetOps * Z)) :=
  bh ← head_or_err key;
  match bh with
  | Err e => mret (Err e)
  | Ok bhead =>
      let hs := bh_state bhead in
      if seq_noop seq hs then mret (Ok ([], to_signed 64 (capacity hs))) else
      match topup_state hs amount node seq with
      | Err e => mret (Err e)
      | Ok hs' =>
          t ← hlc_now wall;
          let h := Z.max (wrap 64 (hlc (bh_env bhead) + 1)) t in
          mret (Ok ([head_record key h (bh_del_hlc bhead) hs'], to_signed 64 (capacity hs')))
      end
  end.

(** RECLAIM: what the target consumed, from its tokens and from its slots. *)
Definition token_consumed (target total : Z) (k v : bytes) : rust (Z * bool) :=
  let! p := parse k in
  Ret (match p ≫= fun p => token_suffix_fields (pk_suffix p) with
       | Some (_, _, node, _) =>
           if negb (node =? target) then total else
           match Envelope_decode v with
           | Some (_, pay) =>
               match TokenState_decode pay with
               | Some st => total + (if RANK_FOLDED <=? rank st then spent st else amount st)
               | None => total
               end
           | None => total
           end
       | None => total
       end, true).

Definition slot_consumed (target : Z) (off : nat) (total : Z) (k v : bytes) : rust (Z * bool) :=
  let! p := parse k in
  Ret (match p with
       | Some p =>
           if (length (pk_suffix p) <? off + 10)%nat || negb (of_be (slice off (off + 2) (pk_suffix p)) =? target)
           then total else
           match Envelope_decode v with
           | Some (env, pay) =>
               if is_tombstone env then total
               else match SlotState_decode pay with Some st => total + outstanding st | None => total end
           | None => total
           end
       | None => total
       end, true).

Definition fence_node (target now : Z) (l : list (Z * Z)) : list (Z * Z) := insert_node (target, now) l.

Definition recipients (hs : HeadState) (target : Z) (fenced : list (Z * Z)) : list Z :=
  List.filter (fun n => negb (n =? target) && negb (existsb (fun f => f.1 =? n) fenced)) (fst <$> alloc hs).

(** Spread [freed] over [rs]; [i] counts the recipients done. *)
Fixpoint redistribute (freed : Z) (total i : nat) (rs : list Z) (l : list (Z * Z)) : list (Z * Z) :=
  match rs with
  | [] => l
  | r :: rs => redistribute freed total (S i) rs (add_to r (share freed total i) l)
  end.

Definition reclaim_state (hs : HeadState) (target consumed now : Z) (seq : option Z) : result (HeadState * Z) :=
  let alloc_target := alloc_for hs target in
  let consumed := Z.min consumed alloc_target in
  let freed := alloc_target - consumed in
  let shrunk := (fun e => if e.1 =? target then (e.1, consumed) else e) <$> alloc hs in
  if negb (is_fenced hs target) && (255 <=? length (fence hs))%nat then Err (Other TooManyFenced) else
  let fence := if is_fenced hs target then fence hs else fence_node target now (fence hs) in
  let rs := recipients hs target fence in
  let seq := default (wrap 64 (op_seq hs + 1)) seq in
  if 0 <? freed then
    match rs with
    | [] => Err (Other NoUnfencedNodes)
    | _ => Ok (with_alloc hs seq (capacity hs) (redistribute freed (length rs) 0 rs shrunk) fence, freed)
    end
  else Ok (with_alloc hs seq (capacity hs) shrunk fence, freed).

Definition reclaim_shard (key : bytes) (target : Z) (seq : option Z) : M DB (result (BudgetOps * Z)) :=
  bh ← head_or_err key;
  match bh with
  | Err e => mret (Err e)
  | Ok bhead =>
      let hs := bh_state bhead in
      if seq_noop seq hs then mret (Ok ([], 0)) else
      if (alloc_for hs target =? 0) && is_fenced hs target then mret (Ok ([], 0)) else
      tc ← scan_prefix (budget_kind_prefix key BUDGET_TOKEN (hgen hs)) (token_consumed target) 0;
      let kind := if hmode hs =? MODE_WINDOW then BUDGET_WINDOW_SLOT else BUDGET_SLOT in
      sc ← scan_prefix (budget_kind_prefix key kind (hgen hs)) (slot_consumed target (node_off hs)) 0;
      now ← (if is_fenced hs target then mret 0 else now_ms wall);
      match reclaim_state hs target (Z.max tc sc) now seq with
      | Err e => mret (Err e)
      | Ok (hs', freed) =>
          t ← hlc_now wall;
          let h := Z.max (wrap 64 (hlc (bh_env bhead) + 1)) t in
          mret (Ok ([head_record key h (bh_del_hlc bhead) hs'], to_signed 64 freed))
      end
  end.
End engine.

(** ** Allocation is conserved *)

Definition sum2 (l : list (Z * Z)) : Z := fold_right (fun e acc => e.2 + acc) 0 l.

Lemma alloc_total_sum st : alloc_total st = sum2 (alloc st).
Proof. reflexivity. Qed.
Lemma sum2_app l m : sum2 (l ++ m) = sum2 l + sum2 m.
Proof. induction l as [|e l IH]; simpl; [reflexivity|]. rewrite IH. lia. Qed.
#[export] Instance sum2_perm : Proper (Permutation ==> eq) sum2.
Proof. induction 1; simpl; lia. Qed.
Lemma sum2_insert_node e l : sum2 (insert_node e l) = sum2 l + e.2.
Proof. unfold insert_node. rewrite merge_sort_Permutation, sum2_app. simpl. lia. Qed.
Lemma sum2_nonneg l : Forall entry_ok l -> 0 <= sum2 l.
Proof.
  induction 1 as [|e l [_ He] _ IH]; simpl; [lia|]. unfold u64, in_range in He. lia.
Qed.
Lemma sum2_elem e l : Forall entry_ok l -> e ∈ l -> e.2 <= sum2 l.
Proof.
  intros Hl. induction Hl as [|x l Hx Hl IH]; intros Hin; [set_solver|]. simpl.
  pose proof (sum2_nonneg l Hl). destruct Hx as [_ Hx]. unfold u64, in_range in Hx.
  apply elem_of_cons in Hin as [->|Hin]; [lia|]. specialize (IH Hin). lia.
Qed.

(** The first [k] of [n] shares. *)
Fixpoint shares (total : Z) (n k i : nat) : Z :=
  match k with O => 0 | S k => share total n i + shares total n k (S i) end.

Lemma shares_sum total n k i : (0 < n)%nat ->
  shares total n k i = Z.of_nat k * (total / Z.of_nat n) +
    (Z.min (Z.of_nat (i + k)) (total mod Z.of_nat n) - Z.min (Z.of_nat i) (total mod Z.of_nat n)).
Proof.
  intros Hn. revert i. induction k as [|k IH]; intros i; cbn [shares]; [rewrite Nat.add_0_r; lia|].
  rewrite IH. unfold share. destruct (Z.ltb_spec (Z.of_nat i) (total mod Z.of_nat n)); lia.
Qed.

(** Even shares add up to the whole. *)
Lemma shares_total total n : (0 < n)%nat -> shares total n n 0 = total.
Proof.
  intros Hn. rewrite shares_sum by assumption.
  pose proof (Z.mod_pos_bound total (Z.of_nat n) ltac:(lia)). pose proof (Z.div_mod total (Z.of_nat n) ltac:(lia)).
  simpl Nat.add. lia.
Qed.

Lemma share_bound total n i : 0 <= total -> (0 < n)%nat -> (i < n)%nat -> 0 <= share total n i <= total.
Proof.
  intros Ht Hn Hi. unfold share. pose proof (Z.div_pos total (Z.of_nat n) ltac:(lia) ltac:(lia)).
  pose proof (Z.mod_pos_bound total (Z.of_nat n) ltac:(lia)). pose proof (Z.div_mod total (Z.of_nat n) ltac:(lia)).
  destruct (Z.ltb_spec (Z.of_nat i) (total mod Z.of_nat n)); nia.
Qed.

Lemma imap_shares_sum {A} (f : nat -> A -> Z * Z) (g : A -> Z) total n l i :
  (forall j a, a ∈ l -> (f j a).2 = g a + share total n (i + j)) ->
  sum2 (imap f l) = fold_right (fun a acc => g a + acc) 0 l + shares total n (length l) i.
Proof.
  revert f i. induction l as [|a l IH]; intros f i Hf; [reflexivity|].
  rewrite imap_cons. cbn [sum2 fold_right length shares]. rewrite (Hf O a) by left. rewrite Nat.add_0_r.
  change (fold_right (fun e acc => e.2 + acc) 0 (imap (f ∘ S) l)) with (sum2 (imap (f ∘ S) l)).
  rewrite (IH (f ∘ S) (S i)); [lia|]. intros j b Hb. cbn. rewrite (Hf (S j) b) by (right; assumption).
  do 2 f_equal. lia.
Qed.

Record alloc_inv (hs : HeadState) : Prop := {
  ai_entries : Forall entry_ok (alloc hs);
  ai_nodup : NoDup (fst <$> alloc hs);
  ai_capacity : u64 (capacity hs);
  ai_total : alloc_total hs <= capacity hs;
}.

Lemma saturating_add_small a b : 0 <= a + b < 2 ^ 64 -> saturating_add 64 a b = a + b.
Proof. intros H. unfold saturating_add. lia. Qed.

(** Adding to one listed node. *)
Lemma add_to_spec n d l : 0 <= d -> Forall entry_ok l -> sum2 l + d < 2 ^ 64 -> n ∈ fst <$> l ->
  sum2 (add_to n d l) = sum2 l + d /\ Forall entry_ok (add_to n d l) /\ fst <$> add_to n d l = fst <$> l.
Proof.
  intros Hd Hl. induction Hl as [|[m a] l Hx Hl IH]; intros Hs Hin; [set_solver|].
  pose proof (sum2_nonneg l Hl). destruct Hx as [Hx1 Hx2]. cbn in Hx1, Hx2.
  cbn [sum2 fold_right snd add_to] in *. fold (sum2 l) in *.
  destruct (Z.eqb_spec m n) as [->|Hne].
  - unfold u64, in_range in Hx2. rewrite saturating_add_small by lia. cbn [sum2 fold_right snd fst fmap list_fmap].
    fold (sum2 l). split_and!; [lia| |reflexivity]. constructor; [split; cbn; unfold u64, in_range; [assumption|lia]|assumption].
  - destruct IH as (I1 & I2 & I3); [unfold u64, in_range in Hx2; lia|cbn in Hin; set_solver|].
    cbn [sum2 fold_right snd fst fmap list_fmap]. fold (sum2 (add_to n d l)). rewrite I1.
    split_and!; [lia|constructor; [split; assumption|assumption]|]. f_equal. exact I3.
Qed.

Lemma existsb_node n l : existsb (fun e : Z * Z => e.1 =? n) l = true <-> n ∈ fst <$> l.
Proof.
  rewrite existsb_exists. setoid_rewrite Z.eqb_eq. rewrite list_elem_of_fmap. setoid_rewrite list_elem_of_In.
  naive_solver.
Qed.

Lemma insert_node_spec e l : entry_ok e -> Forall entry_ok l -> NoDup (fst <$> l) -> e.1 ∉ fst <$> l ->
  Forall entry_ok (insert_node e l) /\ NoDup (fst <$> insert_node e l).
Proof.
  intros He Hl Hn Hni. unfold insert_node. split.
  - rewrite merge_sort_Permutation. apply Forall_app. auto.
  - rewrite merge_sort_Permutation, fmap_app. cbn. apply NoDup_app. split_and!; [assumption| |apply NoDup_singleton].
    intros x Hx ->%list_elem_of_singleton. auto.
Qed.

Lemma fst_imap {A} (f : nat -> A -> Z * Z) (g : A -> Z) l :
  (forall i a, (f i a).1 = g a) -> fst <$> imap f l = g <$> l.
Proof.
  revert f. induction l as [|a l IH]; intros f Hf; [reflexivity|]. rewrite imap_cons. cbn. rewrite Hf. f_equal.
  apply IH. intros. apply Hf.
Qed.

Lemma spread_fst amount l : fst <$> spread amount l = fst <$> l.
Proof. apply fst_imap. reflexivity. Qed.

Lemma Forall_imap {A B} (P : B -> Prop) (f : nat -> A -> B) l :
  (forall i a, l !! i = Some a -> P (f i a)) -> Forall P (imap f l).
Proof.
  intros H. apply Forall_lookup. intros i b Hb. rewrite list_lookup_imap in Hb.
  destruct (l !! i) as [a|] eqn:E; [|discriminate]. injection Hb as <-. auto.
Qed.

Lemma spread_spec amount l : l <> [] -> 0 <= amount -> Forall entry_ok l -> sum2 l + amount < 2 ^ 64 ->
  sum2 (spread amount l) = sum2 l + amount /\ Forall entry_ok (spread amount l).
Proof.
  intros Hne Ha Hl Hs. assert (Hlen : (0 < length l)%nat) by (destruct l; [contradiction|simpl; lia]).
  assert (Hsat : forall i e, l !! i = Some e ->
    saturating_add 64 e.2 (share amount (length l) i) = e.2 + share amount (length l) i /\ entry_ok e /\
    0 <= e.2 + share amount (length l) i < 2 ^ 64).
  { intros i e He. pose proof (lookup_lt_Some _ _ _ He). apply list_elem_of_lookup_2 in He.
    pose proof (sum2_elem e l Hl He). rewrite Forall_forall in Hl. destruct (Hl e He) as [H1 H2].
    pose proof (share_bound amount (length l) i Ha Hlen ltac:(lia)). unfold u64, in_range in H2.
    rewrite saturating_add_small by lia. split_and!; [reflexivity|split; assumption|lia|lia]. }
  unfold spread. split.
  - rewrite (imap_ext _ (fun i e => (e.1, e.2 + share amount (length l) i))).
    + rewrite (imap_shares_sum _ snd amount (length l) l 0) by reflexivity.
      rewrite shares_total by assumption. reflexivity.
    + intros i e He. f_equal. apply Hsat, He.
  - apply Forall_imap. intros i e He. destruct (Hsat i e He) as (-> & [H1 _] & H3). split; [exact H1|exact H3].
Qed.

Lemma topup_alloc_spec node_id amount node l l' : u16 node_id -> (forall n, node = Some n -> u16 n) ->
  0 < amount -> Forall entry_ok l -> NoDup (fst <$> l) -> sum2 l + amount < 2 ^ 64 ->
  topup_alloc node_id amount node l = Ok l' ->
  sum2 l' = sum2 l + amount /\ Forall entry_ok l' /\ NoDup (fst <$> l').
Proof.
  intros Hid Hn Ha Hl Hnd Hs. unfold topup_alloc. pose proof (sum2_nonneg l Hl).
  assert (u64 amount) by (unfold u64, in_range; lia).
  destruct node as [n|].
  - destruct (existsb _ l) eqn:E.
    + intros [= <-]. apply existsb_node in E. destruct (add_to_spec n amount l) as (-> & ? & ->); auto with lia.
    + destruct (_ <=? _)%nat; [discriminate|]. intros [= <-].
      assert (n ∉ fst <$> l) by (rewrite <- existsb_node, E; discriminate).
      destruct (insert_node_spec (n, amount) l) as [? ?]; try assumption; [split; auto|].
      rewrite sum2_insert_node. auto.
  - destruct l as [|e l]; intros [= <-].
    + cbn. split_and!; [lia|apply Forall_singleton; split; assumption|apply NoDup_singleton].
    + destruct (spread_spec amount (e :: l)) as [-> ?]; auto with lia. rewrite spread_fst. auto.
Qed.

(** Shrinking one node of a duplicate-free allocation. *)
Definition shrink (target c : Z) (l : list (Z * Z)) : list (Z * Z) :=
  (fun e => if e.1 =? target then (e.1, c) else e) <$> l.

Definition alloc_in (l : list (Z * Z)) (n : Z) : Z :=
  match find (fun e => e.1 =? n) l with Some e => e.2 | None => 0 end.

Lemma shrink_fst t c l : fst <$> shrink t c l = fst <$> l.
Proof.
  unfold shrink. rewrite <- list_fmap_compose. apply list_fmap_ext. intros i e _. cbn. destruct (e.1 =? t); reflexivity.
Qed.

Lemma shrink_absent t c l : t ∉ fst <$> l -> shrink t c l = l /\ alloc_in l t = 0.
Proof.
  induction l as [|e l IH]; intros Hn; [split; reflexivity|]. cbn in Hn. destruct IH as [I1 I2]; [set_solver|].
  unfold shrink, alloc_in in *. cbn. destruct (Z.eqb_spec e.1 t); [set_solver|]. rewrite I1. auto.
Qed.

Lemma shrink_spec t c l : 0 <= c <= alloc_in l t -> Forall entry_ok l -> NoDup (fst <$> l) ->
  sum2 (shrink t c l) = sum2 l - (alloc_in l t - c) /\ Forall entry_ok (shrink t c l) /\
  (alloc_in l t <> 0 -> t ∈ fst <$> l) /\ 0 <= alloc_in l t <= sum2 l.
Proof.
  intros Hc Hl. induction Hl as [|[n a] l [Hn Ha] Hl IH]; intros Hnd.
  { cbn in *. split_and!; [lia|constructor|lia|lia|lia]. }
  cbn in Hnd. apply NoDup_cons in Hnd as [Hni Hnd]. pose proof (sum2_nonneg l Hl). cbn in Hn, Ha.
  unfold u64, in_range in Ha. unfold alloc_in in Hc |- *. cbn [find fst snd] in *.
  destruct (Z.eqb_spec n t) as [->|Hne].
  - destruct (shrink_absent t c l Hni) as [Hs _].
    assert (shrink t c ((t, a) :: l) = (t, c) :: l) as ->.
    { unfold shrink in *. cbn. rewrite Z.eqb_refl, Hs. reflexivity. }
    cbn [sum2 fold_right snd] in *. fold (sum2 l). split_and!; [lia| |intros _; cbn; left|lia|lia].
    constructor; [split; cbn; [assumption|unfold u64, in_range; lia]|assumption].
  - fold (alloc_in l t) in *. destruct (IH Hc Hnd) as (I1 & I2 & I3 & I4).
    assert (shrink t c ((n, a) :: l) = (n, a) :: shrink t c l) as ->.
    { unfold shrink. cbn. destruct (Z.eqb_spec n t); [contradiction|reflexivity]. }
    cbn [sum2 fold_right snd]. fold (sum2 l). fold (sum2 (shrink t c l)). rewrite I1.
    split_and!; [lia|constructor; [split; assumption|assumption]| |lia|lia].
    intros Hnz. cbn. right. auto.
Qed.

Lemma redistribute_spec freed n i rs l : 0 <= freed -> (0 < n)%nat -> (i + length rs <= n)%nat ->
  Forall entry_ok l -> Forall (fun r => r ∈ fst <$> l) rs -> sum2 l + shares freed n (length rs) i < 2 ^ 64 ->
  sum2 (redistribute freed n i rs l) = sum2 l + shares freed n (length rs) i /\
  Forall entry_ok (redistribute freed n i rs l) /\ fst <$> redistribute freed n i rs l = fst <$> l.
Proof.
  intros Hf Hn Hi Hl Hrs. revert i l Hi Hl Hrs. induction rs as [|r rs IH]; intros i l Hi Hl Hrs Hs.
  { cbn [redistribute length shares]. split_and!; [lia|assumption|reflexivity]. }
  invert Hrs. cbn [redistribute length shares] in *.
  pose proof (share_bound freed n i Hf Hn ltac:(lia)) as Hsh.
  assert (0 <= shares freed n (length rs) (S i)).
  { rewrite shares_sum by assumption. pose proof (Z.div_pos freed (Z.of_nat n) Hf ltac:(lia)). nia. }
  destruct (add_to_spec r (share freed n i) l) as (A1 & A2 & A3); try assumption; try lia.
  destruct (IH (S i) (add_to r (share freed n i) l)) as (I1 & I2 & I3); try assumption; try lia.
  { rewrite A3. assumption. }
  split_and!; [lia|assumption|congruence].
Qed.

Lemma recipients_listed hs t fenced : Forall (fun r => r ∈ fst <$> alloc hs) (recipients hs t fenced).
Proof.
  apply Forall_forall. intros r Hr. unfold recipients in Hr.
  apply list_elem_of_In, filter_In in Hr as [Hr _]. apply list_elem_of_In, Hr.
Qed.

Lemma create_state_spec a gen seq :
  ca_nodes a <> [] -> NoDup (ca_nodes a) -> Forall u16 (ca_nodes a) -> u64 (ca_capacity a) ->
  alloc_total (create_state a gen seq) = ca_capacity a /\ alloc_inv (create_state a gen seq).
Proof.
  intros Hne Hnd Hids Hcap. assert (Hlen : (0 < length (ca_nodes a))%nat) by (destruct (ca_nodes a); [contradiction|simpl; lia]).
  assert (alloc_total (create_state a gen seq) = ca_capacity a) as Htot.
  { rewrite alloc_total_sum. cbn [alloc create_state].
    rewrite (imap_shares_sum _ (fun _ => 0) (ca_capacity a) (length (ca_nodes a)) (ca_nodes a) 0) by reflexivity.
    rewrite shares_total by assumption. clear. induction (ca_nodes a); simpl; [reflexivity|assumption]. }
  split; [exact Htot|]. split; cbn [alloc capacity create_state]; [| |assumption|rewrite Htot; reflexivity].
  - apply Forall_imap. intros i n Hn. pose proof (lookup_lt_Some _ _ _ Hn). eapply Forall_lookup_1 in Hids; [|eassumption].
    split; [assumption|]. unfold u64, in_range in *.
    pose proof (share_bound (ca_capacity a) (length (ca_nodes a)) i ltac:(lia) Hlen ltac:(lia)). cbn. lia.
  - rewrite (fst_imap _ id) by reflexivity. rewrite list_fmap_id. assumption.
Qed.

Section topup.
Context (node_id : Z) (hs : HeadState) (amount : Z) (node seq : option Z).
Context (Hid : u16 node_id) (Hi : alloc_inv hs) (Ha : 0 < amount) (Hn : forall n, node = Some n -> u16 n).

Lemma topup_state_spec hs' : topup_state node_id hs amount node seq = Ok hs' ->
  alloc_total hs' = alloc_total hs + amount /\ capacity hs' = capacity hs + amount /\ alloc_inv hs'.
Proof.
  unfold topup_state, checked_add. destruct Hi as [He Hnd Hc Ht]. unfold u64, in_range in Hc. rewrite ?alloc_total_sum in *.
  destruct (Z.ltb_spec (capacity hs + amount) (2 ^ 64)); [|discriminate].
  destruct (topup_alloc _ _ _ _) as [e|l] eqn:E; [discriminate|].
  destruct (topup_alloc_spec node_id amount node (alloc hs) l) as (S1 & S2 & S3); try assumption; [lia|].
  destruct (_ <? _) eqn:Eb; [discriminate|]. intros [= <-]. cbn [capacity with_alloc].
  split_and!; [change (sum2 l = sum2 (alloc hs) + amount); lia|lia|]. split; cbn [alloc capacity with_alloc]; try assumption; [unfold u64, in_range; lia|].
  change (sum2 l <= capacity hs + amount). lia.
Qed.

Lemma topup_state_no_overflow : topup_state node_id hs amount node seq <> Err (Other AllocExceedsCapacity).
Proof.
  unfold topup_state, checked_add. destruct Hi as [He Hnd Hc Ht]. unfold u64, in_range in Hc. rewrite ?alloc_total_sum in *.
  destruct (Z.ltb_spec (capacity hs + amount) (2 ^ 64)); [|discriminate].
  destruct (topup_alloc _ _ _ _) as [e|l] eqn:E.
  - unfold topup_alloc in E. destruct node; [|destruct (alloc hs); discriminate].
    destruct (existsb _ _); [discriminate|]. destruct (_ <=? _)%nat; [|discriminate]. injection E as <-. discriminate.
  - destruct (topup_alloc_spec node_id amount node (alloc hs) l) as (S1 & S2 & S3); try assumption; [lia|].
    change (alloc_total (with_alloc hs (default (wrap 64 (op_seq hs + 1)) seq) (capacity hs + amount) l (fence hs))) with (sum2 l).
    destruct (Z.ltb_spec (capacity hs + amount) (sum2 l)); [lia|discriminate].
Qed.
End topup.

Lemma reclaim_state_spec hs target consumed now seq hs' freed : alloc_inv hs -> 0 <= consumed ->
  reclaim_state hs target consumed now seq = Ok (hs', freed) ->
  alloc_total hs' = alloc_total hs /\ capacity hs' = capacity hs /\
  freed = alloc_for hs target - Z.min consumed (alloc_for hs target) /\ alloc_inv hs'.
Proof.
  intros [He Hnd Hc Ht] Hcon. unfold reclaim_state. rewrite ?alloc_total_sum in *.
  change (alloc_for hs target) with (alloc_in (alloc hs) target).
  set (c := Z.min consumed (alloc_in (alloc hs) target)). set (f := alloc_in (alloc hs) target - c).
  change ((fun e => if e.1 =? target then (e.1, c) else e) <$> alloc hs) with (shrink target c (alloc hs)).
  assert (0 <= alloc_in (alloc hs) target) as Hnn.
  { unfold alloc_in. destruct (find _ _) as [e|] eqn:E; [|lia]. apply find_some in E as [E _].
    rewrite Forall_forall in He. apply list_elem_of_In, He in E as [_ E]. unfold u64, in_range in E. lia. }
  destruct (shrink_spec target c (alloc hs)) as (S1 & S2 & _ & S4); try assumption; [lia|].
  unfold u64, in_range in Hc. destruct (_ && _); [discriminate|].
  set (fs := if is_fenced hs target then fence hs else _). set (rs := recipients hs target fs).
  destruct (Z.ltb_spec 0 f) as [Hf|Hf].
  - destruct rs as [|r rs'] eqn:Ers; [discriminate|]. rewrite <- Ers. intros [= <- <-].
    assert (0 < length rs)%nat by (rewrite Ers; simpl; lia).
    destruct (redistribute_spec f (length rs) 0 rs (shrink target c (alloc hs))) as (R1 & R2 & R3); try assumption; try lia.
    { rewrite shrink_fst. apply recipients_listed. }
    { rewrite shares_total by assumption. lia. }
    rewrite shares_total in R1 by assumption.
    assert (Hsum : sum2 (redistribute f (length rs) 0 rs (shrink target c (alloc hs))) = sum2 (alloc hs)) by lia.
    split_and!; [exact Hsum|reflexivity|reflexivity|]. split; cbn [alloc capacity with_alloc]; try assumption.
    + rewrite R3, shrink_fst. assumption.
    + change (sum2 (redistribute f (length rs) 0 rs (shrink target c (alloc hs))) <= capacity hs). lia.
  - intros [= <- <-]. assert (Hsum : sum2 (shrink target c (alloc hs)) = sum2 (alloc hs)) by lia.
    split_and!; [exact Hsum|reflexivity|reflexivity|]. split; cbn [alloc capacity with_alloc]; try assumption.
    + rewrite shrink_fst. assumption.
    + change (sum2 (shrink target c (alloc hs)) <= capacity hs). lia.
Qed.

(** Admin operations never over-allocate: CREATE splits exactly the
    capacity, TOPUP raises capacity and total allocation by exactly the amount
    (and never trips its own over-allocation check), RECLAIM moves escrow
    without creating or losing any.  All three keep the allocation invariant:
    one entry per node, every entry a u64, the sum within capacity. *)
Theorem admin_alloc_conserved node_id :
  u16 node_id ->
  (forall a gen seq, ca_nodes a <> [] -> NoDup (ca_nodes a) -> Forall u16 (ca_nodes a) -> u64 (ca_capacity a) ->
     alloc_total (create_state a gen seq) = ca_capacity a /\ alloc_inv (create_state a gen seq)) /\
  (forall hs amount node seq hs', alloc_inv hs -> 0 < amount -> (forall n, node = Some n -> u16 n) ->
     topup_state node_id hs amount node seq = Ok hs' ->
     alloc_total hs' = alloc_total hs + amount /\ capacity hs' = capacity hs + amount /\ alloc_inv hs') /\
  (forall hs amount node seq, alloc_inv hs -> 0 < amount -> (forall n, node = Some n -> u16 n) ->
     topup_state node_id hs amount node seq <> Err (Other AllocExceedsCapacity)) /\
  (forall hs target consumed now seq hs' freed, alloc_inv hs -> 0 <= consumed ->
     reclaim_state hs target consumed now seq = Ok (hs', freed) ->
     alloc_total hs' = alloc_total hs /\ capacity hs' = capacity hs /\
     freed = alloc_for hs target - Z.min consumed (alloc_for hs target) /\ alloc_inv hs').
Proof.
  intros Hid. split_and!.
  - intros a gen seq. apply create_state_spec.
  - intros hs amount node seq hs' Hi Ha Hn. apply topup_state_spec; assumption.
  - intros hs amount node seq Hi Ha Hn. apply topup_state_no_overflow; assumption.
  - intros hs target consumed now seq hs' freed. apply reclaim_state_spec.
Qed.

Lemma admin_alloc_conserved_witness :
  let hs := create_state (mkCreateArgs 10 MODE_POOL 0 0 0 0 [1; 2; 3] None) 7 0 in
  alloc hs = [(1, 4); (2, 3); (3, 3)] /\ alloc_total hs = 10 /\
  exists hs2 hs3, topup_state 1 hs 5 (Some 2) None = Ok hs2 /\ alloc_total hs2 = 15 /\
    reclaim_state hs2 2 6 1000 None = Ok (hs3, 2) /\ alloc_total hs3 = 15.
Proof.
  intros hs. destruct (admin_alloc_conserved 1) as (Hc & Ht & _ & Hr); [split; vm_compute; congruence|].
  destruct (Hc (mkCreateArgs 10 MODE_POOL 0 0 0 0 [1; 2; 3] None) 7 0) as [C1 C2];
    [discriminate|apply (bool_decide_unpack _); vm_compute; reflexivity..|split; vm_compute; congruence|].
  split; [reflexivity|]. split; [exact C1|].
  destruct (topup_state 1 hs 5 (Some 2) None) as [e|hs2] eqn:E2; [discriminate|].
  destruct (Ht hs 5 (Some 2) None hs2) as (T1 & _ & T3); [exact C2|lia|intros n [= <-]; split; vm_compute; congruence|exact E2|].
  destruct (reclaim_state hs2 2 6 1000 None) as [e|[hs3 f]] eqn:E3; [injection E2 as <-; discriminate|].
  destruct (Hr hs2 2 6 1000 None hs3 f) as (R1 & _ & R3 & _); [exact T3|lia|exact E3|].
  exists hs2, hs3. split; [reflexivity|]. split; [rewrite T1; reflexivity|].
  split; [|rewrite R1, T1; reflexivity]. rewrite E3, R3. injection E2 as <-. reflexivity.
Defined.
