(* ===== verification/MapSum.v ===== *)
(** * Sums over finite maps

    [msum f m] adds [f k x] over the entries of [m]; the ledger invariants of
    the budget engine are statements about such sums. *)

From S2P Require Import Prelude.

Section msum.
Context {K : Type} `{Countable K} {A : Type}.

Definition msum (f : K -> A -> Z) (m : gmap K A) : Z := map_fold (fun k x acc => f k x + acc) 0 m.
(** The contribution of an optional entry. *)
Definition contrib (f : K -> A -> Z) (k : K) (o : option A) : Z := match o with Some x => f k x | None => 0 end.

Lemma msum_empty f : msum f ∅ = 0.
Proof. reflexivity. Qed.

Lemma msum_insert_new f m k x : m !! k = None -> msum f (<[k := x]> m) = f k x + msum f m.
Proof. intros Hk. unfold msum. rewrite map_fold_insert_L; [reflexivity| |assumption]. intros. lia. Qed.

Lemma msum_delete f m k : msum f m = contrib f k (m !! k) + msum f (delete k m).
Proof.
  destruct (m !! k) as [x|] eqn:E; cbn [contrib].
  - rewrite <- (insert_delete_id m k x E) at 1. apply msum_insert_new, lookup_delete_eq.
  - rewrite delete_id by assumption. lia.
Qed.

Lemma msum_insert f m k x : msum f (<[k := x]> m) = msum f m - contrib f k (m !! k) + f k x.
Proof.
  rewrite <- (insert_delete_eq m k x), msum_insert_new by apply lookup_delete_eq.
  rewrite (msum_delete f m k). lia.
Qed.

Lemma msum_ext f g m : (forall k x, m !! k = Some x -> f k x = g k x) -> msum f m = msum g m.
Proof.
  induction m as [|k x m Hk IH] using map_ind; intros Hfg; [reflexivity|].
  rewrite !msum_insert_new by assumption. rewrite (Hfg k x) by apply lookup_insert_eq. f_equal.
  apply IH. intros k' x' Hx. apply Hfg. rewrite lookup_insert_ne; [assumption|congruence].
Qed.

Lemma msum_le f g m : (forall k x, m !! k = Some x -> f k x <= g k x) -> msum f m <= msum g m.
Proof.
  induction m as [|k x m Hk IH] using map_ind; intros Hfg; [reflexivity|].
  rewrite !msum_insert_new by assumption. specialize (Hfg k x) as Hkx. rewrite lookup_insert_eq in Hkx.
  specialize (Hkx eq_refl). enough (msum f m <= msum g m) by lia.
  apply IH. intros k' x' Hx. apply Hfg. rewrite lookup_insert_ne; [assumption|congruence].
Qed.

(** Two maps with the same contributions have the same sum. *)
Lemma msum_contrib f m n : (forall k, contrib f k (m !! k) = contrib f k (n !! k)) -> msum f m = msum f n.
Proof.
  revert n. induction m as [|k x m Hk IH] using map_ind; intros n Hc.
  - induction n as [|k x n Hk IH] using map_ind; [reflexivity|]. rewrite msum_insert_new by assumption.
    pose proof (Hc k) as Hck. rewrite lookup_empty, lookup_insert_eq in Hck. cbn in Hck. rewrite <- Hck.
    rewrite <- IH; [lia|]. intros k'. specialize (Hc k'). rewrite lookup_empty in *.
    destruct (decide (k' = k)) as [->|Hne]; [rewrite Hk; reflexivity|]. rewrite lookup_insert_ne in Hc by congruence. exact Hc.
  - rewrite msum_insert_new by assumption. rewrite (msum_delete f n k).
    pose proof (Hc k) as Hck. rewrite lookup_insert_eq in Hck. cbn in Hck. rewrite <- Hck. f_equal.
    apply IH. intros k'. specialize (Hc k'). destruct (decide (k' = k)) as [->|Hne].
    + rewrite Hk, lookup_delete_eq. reflexivity.
    + rewrite lookup_delete_ne, lookup_insert_ne in * by congruence. exact Hc.
Qed.

(** An overlay: its own entries, plus the entries below it does not hide. *)
Lemma msum_union f (p m : gmap K A) :
  msum f (p ∪ m) = msum f p + msum (fun k x => if decide (is_Some (p !! k)) then 0 else f k x) m.
Proof.
  induction p as [|k x p Hk IH] using map_ind.
  - rewrite (left_id_L ∅ (∪)), msum_empty. apply msum_ext. intros k x _. rewrite lookup_empty.
    destruct (decide _) as [[? ?]|]; [discriminate|reflexivity].
  - rewrite <- insert_union_l, msum_insert, msum_insert_new by assumption. rewrite IH.
    rewrite lookup_union_r by assumption.
    set (g (q : gmap K A) k' y := if decide (is_Some (q !! k')) then 0 else f k' y).
    change (fun k0 x0 => if decide (is_Some (<[k:=x]> p !! k0)) then 0 else f k0 x0) with (g (<[k:=x]> p)).
    change (fun k0 x0 => if decide (is_Some (p !! k0)) then 0 else f k0 x0) with (g p).
    rewrite (msum_delete (g p) m k), (msum_delete (g (<[k:=x]> p)) m k).
    assert (msum (g (<[k:=x]> p)) (delete k m) = msum (g p) (delete k m)) as ->.
    { apply msum_ext. intros k' y Hy. unfold g. destruct (decide (k' = k)) as [->|Hne].
      - rewrite lookup_delete_eq in Hy. discriminate.
      - rewrite lookup_insert_ne by congruence. reflexivity. }
    assert (contrib (g p) k (m !! k) = contrib f k (m !! k)) as ->.
    { unfold g. destruct (m !! k); cbn; [|reflexivity]. rewrite Hk. destruct (decide _) as [[? ?]|]; [discriminate|reflexivity]. }
    assert (contrib (g (<[k:=x]> p)) k (m !! k) = 0) as ->.
    { unfold g. destruct (m !! k); cbn; [|reflexivity]. rewrite lookup_insert_eq.
      destruct (decide _) as [|Hn]; [reflexivity|]. destruct Hn; eauto. }
    lia.
Qed.

Lemma msum_nonneg f m : (forall k x, m !! k = Some x -> 0 <= f k x) -> 0 <= msum f m.
Proof.
  intros Hf. transitivity (msum (fun _ _ => 0) m).
  - induction m as [|k x m Hk IH] using map_ind; [reflexivity|]. rewrite msum_insert_new by assumption. cbn.
    apply IH. intros k' x' Hx. apply (Hf k'). rewrite lookup_insert_ne; [assumption|congruence].
  - apply msum_le. exact Hf.
Qed.

(** The sum as a fold over any listing of the map. *)
Lemma msum_list f m : msum f m = fold_right (fun e acc => f e.1 e.2 + acc) 0 (map_to_list m).
Proof.
  unfold msum. rewrite map_fold_foldr. induction (map_to_list m) as [|[k x] l IH]; [reflexivity|].
  cbn. rewrite IH. reflexivity.
Qed.
End msum.

Definition lsum {K A : Type} (f : K -> A -> Z) (l : list (K * A)) : Z := fold_right (fun e acc => f e.1 e.2 + acc) 0 l.

#[export] Instance lsum_perm {K A : Type} (f : K -> A -> Z) : Proper (Permutation ==> eq) (lsum f).
Proof. unfold lsum. induction 1; simpl; lia. Qed.

Lemma lsum_fold_left {K A : Type} (f : K -> A -> Z) l acc :
  fold_left (fun a e => a + f e.1 e.2) l acc = acc + lsum f l.
Proof. revert acc. induction l as [|e l IH]; intros acc; cbn; [lia|]. rewrite IH. unfold lsum. lia. Qed.

Lemma msum_fmap {K : Type} `{Countable K} {A B : Type} (g : A -> B) (f : K -> B -> Z) (m : gmap K A) :
  msum f (g <$> m) = msum (fun k x => f k (g x)) m.
Proof.
  induction m as [|k x m Hk IH] using map_ind; [rewrite fmap_empty; reflexivity|].
  rewrite fmap_insert, !msum_insert_new, IH; [reflexivity|assumption|].
  rewrite lookup_fmap, Hk. reflexivity.
Qed.
