(* ===== verification/BudgetClock.v ===== *)
(** * The clock inside a budget transaction

    Every budget operation reads time only through [now_ms] and [hlc_now], so
    the shard's HLC never goes back.  Windows are cut from the HLC, hence the
    window a grant runs in is never behind the window of an earlier one. *)

From S2P Require Import Prelude Partition Hlc Envelope Ikey Counter Lattice Merge BudgetCore Store BudgetEngine.

Create HintDb clocked.

Section clock.
Context {DB : Type} `{!KV DB}.
Context (node_id epoch : Z) (wall : nat -> Z).
(** Milliseconds since 1970, up to the year 6429. *)
Context (Hwall : forall n, 0 <= wall n < 2 ^ 47).

(** The clock word leads the wall clock by at most one tick per reading. *)
Definition clock_ok (s : Shard DB) : Prop := 0 <= hlc_word s < 2 ^ 63 + Z.of_nat (ticks s).
Definition few_ticks (s : Shard DB) : Prop := Z.of_nat (ticks s) < 2 ^ 62.

(** [m] reads the clock only forwards. *)
Definition clocked {A} (m : M DB A) : Prop := forall s a s', m s = Ret (a, s') ->
  (ticks s <= ticks s')%nat /\ (clock_ok s -> few_ticks s' -> clock_ok s' /\ hlc_word s <= hlc_word s').

Lemma clocked_ret {A} (a : A) : clocked (mret a).
Proof. intros s b s' [= <- <-]. auto with lia. Qed.

Lemma clocked_bind {A B} (m : M DB A) (f : A -> M DB B) : clocked m -> (forall a, clocked (f a)) -> clocked (m ≫= f).
Proof.
  intros Hm Hf s b s'. unfold mbind, M_bind. destruct (m s) as [[a s1]|] eqn:E; cbn [rust_bind fst snd]; [|discriminate].
  intros Hb. destruct (Hm s a s1 E) as [T1 C1]. destruct (Hf a s1 b s' Hb) as [T2 C2]. split; [lia|].
  intros Hc Hn. destruct C1 as [C1 L1]; [exact Hc|unfold few_ticks in *; lia|]. destruct (C2 C1 Hn) as [C3 L2]. auto with lia.
Qed.

Lemma clocked_reads {A} (f : DB -> A) : clocked (reads f).
Proof. intros s b s' [= <- <-]. auto with lia. Qed.
Lemma clocked_writes f : clocked (writes f).
Proof. intros s b s' [= <- <-]. cbn. auto with lia. Qed.
Lemma clocked_lift {A} (r : rust A) : clocked (lift r).
Proof. intros s b s'. unfold lift. destruct r; [|discriminate]. intros [= <- <-]. auto with lia. Qed.
Lemma clocked_now_ms : clocked (now_ms wall).
Proof. intros s b s' [= <- <-]. unfold clock_ok, few_ticks. cbn [ticks hlc_word]. lia. Qed.

Lemma clocked_hlc_now : clocked (hlc_now wall).
Proof.
  intros s b s'. unfold hlc_now. destruct (Hlc_now _ _) as [hw h] eqn:E. intros [= <- <-].
  unfold clock_ok, few_ticks. cbn [ticks hlc_word]. split; [lia|]. intros Hc Hn.
  pose proof (Hwall (ticks s)). unfold Hlc_now in E. rewrite hlc_pack_0 in E by lia. unfold wrap in E.
  rewrite Z.mod_small in E by lia. injection E as <- _. lia.
Qed.

Lemma clocked_scan {S} pre (f : S -> bytes -> bytes -> rust (S * bool)) acc : clocked (scan_prefix pre f acc).
Proof.
  intros s b s'. unfold scan_prefix, scan_from. destruct (scan_loop _ _ _ _); [|discriminate].
  intros [= <- <-]. auto with lia.
Qed.
Hint Resolve clocked_ret clocked_bind clocked_reads clocked_writes clocked_lift clocked_now_ms clocked_hlc_now
  clocked_scan : clocked.

(** Walk through an operation: binds, branches, primitive steps. *)
Ltac clocked_step :=
  lazymatch goal with
  | |- clocked (mbind _ _) => apply clocked_bind; [|intros ?]
  | |- clocked (match ?x with _ => _ end) => destruct x
  | |- clocked (let _ := _ in _) => cbv zeta
  | |- clocked _ => first [solve [auto with clocked] | progress cbv beta zeta]
  end.
Ltac clocked := repeat clocked_step.

Lemma clocked_get_raw k : clocked (get_raw (DB := DB) k).
Proof. unfold get_raw. auto with clocked. Qed.
Hint Resolve clocked_get_raw : clocked.
Lemma clocked_head key : clocked (head_or_err (DB := DB) wall key).
Proof. unfold head_or_err. clocked. Qed.
Lemma clocked_pending_slot p k : clocked (pending_slot (DB := DB) p k).
Proof. unfold pending_slot, read_slot. clocked. Qed.
Lemma clocked_slot_records l : clocked (slot_records (DB := DB) node_id wall l).
Proof. induction l as [|[k st] l IH]; cbn [slot_records]; clocked. Qed.
Hint Resolve clocked_head clocked_pending_slot clocked_slot_records : clocked.
Lemma clocked_into_ops p : clocked (into_ops (DB := DB) node_id wall p).
Proof. unfold into_ops. clocked. Qed.
Lemma clocked_fold_token key hs tk n e st state sp p : clocked (fold_token (DB := DB) node_id wall key hs tk n e st state sp p).
Proof. unfold fold_token. clocked. Qed.
Hint Resolve clocked_into_ops clocked_fold_token : clocked.
Lemma clocked_fold_victims key hs l : forall p, clocked (fold_victims (DB := DB) node_id wall key hs l p).
Proof. induction l as [|x l IH]; intros p; cbn [fold_victims]; clocked. Qed.
Hint Resolve clocked_fold_victims : clocked.
Lemma clocked_fold_expired key hs g n p : clocked (fold_expired_own (DB := DB) node_id wall key hs g n p).
Proof. unfold fold_expired_own. clocked. Qed.
Lemma clocked_window hs : clocked (current_window (DB := DB) wall hs).
Proof. unfold current_window. clocked. Qed.
Lemma clocked_tomb l : forall p, clocked (tomb_windows (DB := DB) node_id wall l p).
Proof. induction l as [|x l IH]; intros p; cbn [tomb_windows]; clocked. Qed.
Hint Resolve clocked_tomb : clocked.
Lemma clocked_gc key hs m g c n p : clocked (gc_old_windows (DB := DB) node_id wall key hs m g c n p).
Proof. unfold gc_old_windows. clocked. Qed.
Lemma clocked_outstanding key hs w p : clocked (own_outstanding (DB := DB) node_id key hs w p).
Proof. unfold own_outstanding. clocked. Qed.
Lemma clocked_issue key hs w a t r p : clocked (issue_token (DB := DB) node_id epoch wall key hs w a t r p).
Proof. unfold issue_token. clocked. Qed.
Lemma clocked_commit ops : clocked (commit_ops (DB := DB) ops).
Proof. unfold commit_ops. clocked. Qed.
Hint Resolve clocked_fold_expired clocked_window clocked_gc clocked_outstanding clocked_issue clocked_commit : clocked.
Lemma clocked_txn {T} (f : M DB (result (BudgetOps * T))) : clocked f -> clocked (budget_txn f).
Proof. intros Hf. unfold budget_txn. clocked. Qed.
Lemma clocked_grant cfg key a t r : clocked (grant_local (DB := DB) node_id epoch wall cfg key a t r).
Proof. unfold grant_local. clocked. Qed.
Lemma clocked_close key tid op : clocked (close_local (DB := DB) node_id wall key tid op).
Proof. unfold close_local, fold_and_return. clocked. Qed.

(** The window the clock stands in; 0 for a pool. *)
Definition window_floor (hs : HeadState) (s : Shard DB) : Z :=
  if (hmode hs =? MODE_WINDOW) && (0 <? period_ms hs) then hlc_phys_ms (hlc_word s) / period_ms hs else 0.

Lemma window_floor_mono hs s s' : 0 <= hlc_word s -> hlc_word s <= hlc_word s' -> window_floor hs s <= window_floor hs s'.
Proof.
  intros H0 H1. unfold window_floor. destruct (_ && _) eqn:E; [|lia]. apply andb_true_iff in E as [_ E]. apply Z.ltb_lt in E.
  rewrite !hlc_phys_div. apply Z.div_le_mono; [assumption|]. apply Z.div_le_mono; lia.
Qed.

Lemma current_window_floor hs s win s' : current_window wall hs s = Ret (win, s') -> win = window_floor hs s'.
Proof.
  unfold current_window, window_floor. destruct (_ && _); [|intros [= <- <-]; reflexivity].
  unfold mbind, M_bind, hlc_now. unfold Hlc_now. cbn [rust_bind fst snd]. intros [= <- <-]. reflexivity.
Qed.
End clock.

#[export] Hint Resolve clocked_head clocked_fold_expired clocked_window clocked_gc clocked_outstanding clocked_issue clocked_commit
  clocked_into_ops clocked_txn clocked_grant clocked_close clocked_ret clocked_bind : clocked.
