(* ===== verification/BudgetSafety.v ===== *)
(** * Budgets never oversell

    The escrow ledger of one budget and one generation.  On a node, over any
    sequence of grants, closes, restarts and replicated records, the open
    reservations plus the accepted spend of its tokens stay within its slots,
    and a grant keeps the total within its allocation.  Summed over the nodes,
    whose allocations add up to at most the capacity, the cluster never
    overspends. *)

From S2P Require Import Prelude Partition Varint Hlc Envelope Ikey BudgetCore Store BudgetEngine MapSum BudgetClock.

#[local] Arguments prefixed : simpl never.
#[local] Arguments put_varint : simpl never.
#[local] Arguments be_bytes : simpl never.

(** ** The store as a map *)

Section kvmap.
Context {DB : Type} `{KVLaws DB}.

Definition kvmap (d : DB) : gmap bytes bytes := list_to_map (kv_range d [] None).

Lemma sorted_nodup_keys l : StronglySorted key_lt l -> NoDup (fst <$> l).
Proof.
  induction 1 as [|e l Hs IH Hf]; [constructor|]. cbn. apply NoDup_cons. split; [|assumption].
  intros (x & Hx & Hin)%list_elem_of_fmap. rewrite Forall_forall in Hf. specialize (Hf x Hin).
  unfold key_lt in Hf. rewrite Hx, bytes_cmp_refl in Hf. discriminate.
Qed.

Lemma kvmap_lookup d k : kvmap d !! k = kv_get d k.
Proof.
  apply option_eq. intros v. unfold kvmap. rewrite <- elem_of_list_to_map by apply sorted_nodup_keys, kv_range_sorted.
  rewrite kv_range_spec. cbn [below]. split; [tauto|]. intros Hg. split_and!; [assumption| |exact I].
  destruct k; discriminate.
Qed.

Lemma kvmap_put d k v : kvmap (kv_put d k v) = <[k := v]> (kvmap d).
Proof.
  apply map_eq. intros k'. rewrite kvmap_lookup, kv_get_put. unfold bytes_eqb.
  case_bool_decide as E; [subst; rewrite lookup_insert_eq; reflexivity|].
  rewrite lookup_insert_ne, kvmap_lookup by assumption. reflexivity.
Qed.

Lemma put_all_app a b (d : DB) : put_all (a ++ b) d = put_all b (put_all a d).
Proof. apply fold_left_app. Qed.

Lemma put_all_not_in ops (d : DB) k : k ∉ fst <$> ops -> kv_get (put_all ops d) k = kv_get d k.
Proof.
  revert d. induction ops as [|[k' v] ops IH]; intros d Hn; [reflexivity|]. cbn in Hn.
  cbn [put_all fold_left fst snd]. change (fold_left _ ops ?x) with (put_all ops x).
  rewrite IH by set_solver. rewrite kv_get_put. unfold bytes_eqb. rewrite bool_decide_eq_false_2 by set_solver. reflexivity.
Qed.

Lemma put_all_in ops (d : DB) k v : NoDup (fst <$> ops) -> (k, v) ∈ ops -> kv_get (put_all ops d) k = Some v.
Proof.
  revert d. induction ops as [|[k' w] ops IH]; intros d Hnd Hin; [set_solver|].
  cbn in Hnd. apply NoDup_cons in Hnd as [Hn Hnd]. change (put_all ((k', w) :: ops) d) with (put_all ops (kv_put d k' w)).
  apply elem_of_cons in Hin as [[= <- <-]|Hin]; [|auto].
  rewrite put_all_not_in by assumption. apply kv_put_get_eq.
Qed.

(** Sums over the records below a prefix, as the scan sees them. *)
Lemma msum_with_prefix f d p : keys_are_bytes d ->
  lsum f (with_prefix d p) = msum (fun k v => if starts_with k p then f k v else 0) (kvmap d).
Proof.
  intros Hb. rewrite msum_list. fold (lsum (fun k v => if starts_with k p then f k v else 0) (map_to_list (kvmap d))).
  assert (Hperm : Permutation (with_prefix d p) (List.filter (fun e => starts_with e.1 p) (map_to_list (kvmap d)))).
  { apply NoDup_Permutation.
    - eapply NoDup_fmap_1, sorted_nodup_keys, kv_range_sorted.
    - apply NoDup_ListNoDup, List.NoDup_filter, NoDup_ListNoDup, NoDup_map_to_list.
    - intros [k v]. rewrite with_prefix_spec, list_elem_of_In, filter_In, <- list_elem_of_In by assumption.
      rewrite elem_of_map_to_list, kvmap_lookup. reflexivity. }
  rewrite Hperm. clear Hperm. induction (map_to_list (kvmap d)) as [|[k v] l IH]; [reflexivity|].
  unfold lsum in *. cbn [List.filter fold_right fst snd]. destruct (starts_with k p); cbn [fold_right fst snd]; lia.
Qed.
End kvmap.

(** ** The ledger of one node *)

Section ledger.
Context (node_id : Z) (key : bytes) (hs : HeadState).
Context (Hkey : slice_len_ok key).

(** Is [k] one of the node's slots that a grant in window [w] consults? *)
Definition own_in (w : Z) (k : bytes) : bool :=
  starts_with k (slots_prefix key hs w) &&
  match own_slot node_id (node_off hs) k with Ret b => b | Panic => false end.

(** The epoch of an own token of this budget and generation. *)
Definition own_token (k : bytes) : option Z :=
  match parse k with
  | Ret (Some p) =>
      if bytes_eqb (pk_userkey p) key && (pk_tag p =? tag_u8 TBudget) then
        match token_suffix_fields (pk_suffix p) with
        | Some (g, _, n, e) => if (g =? hgen hs) && (n =? node_id) then Some e else None
        | None => None
        end
      else None
  | _ => None
  end.

Definition token_of_record (v : bytes) : option TokenState :=
  match Envelope_decode v with Some (_, pay) => TokenState_decode pay | None => None end.

(** What a token holds: its amount while open, its accepted spend once folded. *)
Definition charge (st : TokenState) : Z := if RANK_FOLDED <=? rank st then spent st else amount st.

Definition token_charge (w : Z) (k v : bytes) : Z :=
  match own_token k, token_of_record v with
  | Some e, Some st => if own_in w (slot_key_for key hs (window st) node_id e) then charge st else 0
  | _, _ => 0
  end.

Definition slot_net (w : Z) (k : bytes) (s : SlotState) : Z :=
  if own_in w k then granted s - returned s else 0.
Definition slot_out (w : Z) (k : bytes) (s : SlotState) : Z :=
  if own_in w k then outstanding s else 0.

Definition slot_kind_byte : Z := if hmode hs =? MODE_WINDOW then BUDGET_WINDOW_SLOT else BUDGET_SLOT.

Lemma slots_prefix_shape w : exists r,
  slots_prefix key hs w = prefixed TBudget key (slot_kind_byte :: be_bytes 8 (hgen hs) ++ r) /\
  (hmode hs =? MODE_WINDOW = true -> r = be_bytes 8 w).
Proof.
  unfold slots_prefix, slot_kind_byte. destruct (hmode hs =? MODE_WINDOW).
  - exists (be_bytes 8 w). split; reflexivity.
  - exists []. rewrite app_nil_r. split; [reflexivity|discriminate].
Qed.

Lemma prefixed_app t u s r : prefixed t u s ++ r = prefixed t u (s ++ r).
Proof. unfold prefixed. rewrite <- !app_assoc. reflexivity. Qed.

Lemma parse_budget s : parse (prefixed TBudget key s) = Ret (Some (mkParsedKey (pid_of key) (tag_u8 TBudget) key s)).
Proof. apply parse_prefixed; [reflexivity|assumption]. Qed.

(** A key under the slot prefix parses to a slot suffix. *)
Lemma own_in_shape w k : own_in w k = true -> exists r,
  k = prefixed TBudget key (slot_kind_byte :: be_bytes 8 (hgen hs) ++ r).
Proof.
  unfold own_in. intros [Hp _]%andb_true_iff. apply starts_with_spec in Hp as [r ->].
  destruct (slots_prefix_shape w) as (r0 & -> & _). exists (r0 ++ r).
  rewrite prefixed_app. cbn [app]. rewrite <- !app_assoc. reflexivity.
Qed.

Lemma own_token_slot r : own_token (prefixed TBudget key (slot_kind_byte :: r)) = None.
Proof.
  unfold own_token. rewrite parse_budget. cbn [pk_userkey pk_tag pk_suffix].
  destruct (_ && _); [|reflexivity]. unfold token_suffix_fields.
  assert (byte_at (slot_kind_byte :: r) 0 =? BUDGET_TOKEN = false) as ->.
  { unfold slot_kind_byte, byte_at. cbn. destruct (hmode hs =? MODE_WINDOW); reflexivity. }
  rewrite orb_true_r. reflexivity.
Qed.

Lemma own_in_not_token w k : own_in w k = true -> own_token k = None.
Proof. intros (r & ->)%own_in_shape. apply own_token_slot. Qed.
Lemma own_token_not_in w k e : own_token k = Some e -> own_in w k = false.
Proof. intros Ht. destruct (own_in w k) eqn:E; [|reflexivity]. apply own_in_not_token in E. congruence. Qed.

Lemma slot_key_for_shape win n e : exists r, slot_key_for key hs win n e = prefixed TBudget key (slot_kind_byte :: r).
Proof.
  unfold slot_key_for, slot_kind_byte, budget_window_slot_key, budget_slot_key.
  destruct (hmode hs =? MODE_WINDOW); eexists; reflexivity.
Qed.
Lemma own_token_slot_key win n e : own_token (slot_key_for key hs win n e) = None.
Proof. destruct (slot_key_for_shape win n e) as (r & ->). apply own_token_slot. Qed.

Lemma own_slot_shape off s : own_slot node_id off (prefixed TBudget key s) =
  Ret (negb (length s <? off + 10)%nat && (of_be (slice off (off + 2) s) =? node_id)).
Proof. unfold own_slot. rewrite parse_budget. reflexivity. Qed.

(** The slot a grant in window [w] charges is one the grant consults. *)
Lemma own_in_current w e : u16 node_id -> own_in w (slot_key_for key hs w node_id e) = true.
Proof.
  intros Hn. unfold own_in, slot_key_for, slots_prefix, node_off.
  destruct (hmode hs =? MODE_WINDOW) eqn:E.
  - unfold budget_window_slot_key. rewrite own_slot_shape.
    assert (prefixed TBudget key ([BUDGET_WINDOW_SLOT] ++ be_bytes 8 (hgen hs) ++ be_bytes 8 w ++ be_bytes 2 node_id ++ be_bytes 8 e)
      = prefixed TBudget key ([BUDGET_WINDOW_SLOT] ++ be_bytes 8 (hgen hs) ++ be_bytes 8 w) ++ be_bytes 2 node_id ++ be_bytes 8 e) as ->
      by (rewrite prefixed_app, <- !app_assoc; reflexivity).
    rewrite starts_with_app.
    change (slice 17 (17 + 2) _) with (be_bytes 2 node_id). rewrite of_be_u16 by assumption. rewrite Z.eqb_refl. reflexivity.
  - unfold budget_slot_key. rewrite own_slot_shape.
    assert (prefixed TBudget key ([BUDGET_SLOT] ++ be_bytes 8 (hgen hs) ++ be_bytes 2 node_id ++ be_bytes 8 e)
      = prefixed TBudget key ([BUDGET_SLOT] ++ be_bytes 8 (hgen hs)) ++ be_bytes 2 node_id ++ be_bytes 8 e) as ->
      by (rewrite prefixed_app, <- !app_assoc; reflexivity).
    rewrite starts_with_app.
    change (slice 9 (9 + 2) _) with (be_bytes 2 node_id). rewrite of_be_u16 by assumption. rewrite Z.eqb_refl. reflexivity.
Qed.

Lemma own_token_key h e : u64 (hgen hs) -> u16 node_id -> u64 e ->
  own_token (budget_token_key key (hgen hs) h node_id e) = Some e.
Proof.
  intros Hg Hn He. unfold own_token, budget_token_key. rewrite parse_budget. cbn [pk_userkey pk_tag pk_suffix].
  unfold bytes_eqb. rewrite bool_decide_eq_true_2, Z.eqb_refl by reflexivity. cbn [andb].
  unfold token_suffix_fields.
  change (length ([BUDGET_TOKEN] ++ _) <? 27)%nat with false. change (byte_at ([BUDGET_TOKEN] ++ _) 0) with BUDGET_TOKEN.
  change (slice 1 9 ([BUDGET_TOKEN] ++ _)) with (be_bytes 8 (hgen hs)).
  change (slice 9 17 ([BUDGET_TOKEN] ++ _)) with (be_bytes 8 h).
  change (slice 17 19 ([BUDGET_TOKEN] ++ _)) with (be_bytes 2 node_id).
  change (slice 19 27 ([BUDGET_TOKEN] ++ _)) with (be_bytes 8 e).
  rewrite Z.eqb_refl. cbn [orb negb]. rewrite !of_be_u64 by assumption.
  rewrite of_be_u16 by assumption. rewrite !Z.eqb_refl. reflexivity.
Qed.
End ledger.

(** ** Records as the engine writes them *)


Lemma u64_0 : u64 0.
Proof. unfold u64, in_range. lia. Qed.
#[export] Hint Resolve u64_0 Hlc_now_u64 : marekvs.

Lemma slot_of_encoded h n st : u64 h -> u16 n -> slot_state_ok st ->
  slot_of_record (Some (encode_slot_record (h, n) 0 false st)) = st.
Proof.
  intros Hh Hn Hst. unfold slot_of_record. cbn [mbind option_bind].
  change (encode_slot_record (h, n) 0 false st) with (encode_with (budget_env false (h, n) 0) (SlotState_encode st)).
  destruct (budget_env_decode false (h, n) 0 (SlotState_encode st)) as (-> & -> & _); auto with marekvs.
  rewrite <- (app_nil_r (SlotState_encode st)), SlotState_decode_encode by assumption. reflexivity.
Qed.

Lemma token_of_encoded h n st : u64 h -> u16 n -> token_state_ok st ->
  token_of_record (encode_token_record (h, n) 0 st) = Some st.
Proof.
  intros Hh Hn Hst. unfold token_of_record.
  change (encode_token_record (h, n) 0 st) with
    (encode_with (budget_env (rank st =? RANK_FOLDED) (h, n) 0) (TokenState_encode st)).
  destruct (budget_env_decode (rank st =? RANK_FOLDED) (h, n) 0 (TokenState_encode st)) as (-> & _); auto with marekvs.
  apply TokenState_decode_encode. assumption.
Qed.

Lemma of_be_slice_u64' a l : is_bytes l -> u64 (of_be (slice a (a + 8) l)).
Proof.
  intros Hl. pose proof (of_be_bound (slice a (a + 8) l) ltac:(auto with marekvs)) as Hb.
  assert (length (slice a (a + 8) l) <= 8)%nat by (unfold slice; rewrite length_take; lia).
  unfold u64, in_range. split; [lia|]. eapply Z.lt_le_trans; [apply Hb|].
  change (2 ^ 64) with (256 ^ Z.of_nat 8). apply Z.pow_le_mono_r; lia.
Qed.

(** Decoding stored bytes gives fields in range. *)
Lemma slot_of_record_ok v : (forall b, v = Some b -> is_bytes b) -> slot_state_ok (slot_of_record v).
Proof.
  intros Hv. assert (slot_state_ok slot_default) by (split; cbn; auto with marekvs).
  unfold slot_of_record. destruct v as [b|]; [|assumption]. cbn [mbind option_bind].
  destruct (Envelope_decode b) as [[e pay]|] eqn:E; [|assumption].
  apply Envelope_decode_ok in E as (_ & Hp & _); [|auto]. destruct (is_tombstone e); [assumption|].
  unfold SlotState_decode. destruct (_ <? _)%nat; [assumption|]. cbn.
  split; cbn; [apply (of_be_slice_u64' 0)|apply (of_be_slice_u64' 8)]; assumption.
Qed.

Lemma token_of_record_ok v st : is_bytes v -> token_of_record v = Some st -> token_state_ok st.
Proof.
  intros Hv. unfold token_of_record. destruct (Envelope_decode v) as [[e pay]|] eqn:E; [|discriminate].
  apply Envelope_decode_ok in E as (_ & Hp & _); [|assumption]. unfold TokenState_decode.
  destruct (_ || _); [discriminate|]. intros [= <-].
  split; cbn [rank tstate amount spent credited deadline_ms window reqid];
    try (apply byte_at_u8; assumption); apply of_be_slice_u64'; assumption.
Qed.

Lemma folded_ok st state sp c : token_state_ok st -> u8 state -> u64 sp -> u64 c -> token_state_ok (folded st state sp c).
Proof. intros [] Hs Hsp Hc. split; cbn; try assumption. unfold u8, in_range, RANK_FOLDED. lia. Qed.

(** A byte-string key with the budget tag. *)
Definition budget_key (k : bytes) : Prop := is_bytes k /\ byte_at k 2 = tag_u8 TBudget.

Lemma budget_key_prefixed u s : is_bytes u -> is_bytes s -> budget_key (prefixed TBudget u s).
Proof. intros Hu Hs. split; [apply prefixed_is_bytes; assumption|reflexivity]. Qed.

Lemma slot_key_bytes key hs win n e : is_bytes key -> budget_key (slot_key_for key hs win n e).
Proof.
  intros Hk. unfold slot_key_for, budget_window_slot_key, budget_slot_key.
  destruct (hmode hs =? MODE_WINDOW); apply budget_key_prefixed; try assumption;
    (constructor; [unfold u8, in_range, BUDGET_SLOT, BUDGET_WINDOW_SLOT; lia|]); repeat (apply is_bytes_app; split); auto with marekvs.
Qed.

Lemma token_key_bytes key g h n e : is_bytes key -> budget_key (budget_token_key key g h n e).
Proof.
  intros Hk. apply budget_key_prefixed; [assumption|].
  constructor; [unfold u8, in_range, BUDGET_TOKEN; lia|]. repeat (apply is_bytes_app; split); auto with marekvs.
Qed.

Lemma budget_record_bytes f v ttl pay : is_bytes pay -> is_bytes (encode_with (budget_env f v ttl) pay).
Proof.
  intros Hp. unfold encode_with, encode_to. apply is_bytes_app; split; [|assumption].
  constructor; [apply element_flags_u8|]. repeat (apply is_bytes_app; split); auto with marekvs.
Qed.

Lemma token_record_bytes v ttl st : token_state_ok st -> is_bytes (encode_token_record v ttl st).
Proof.
  intros [H1 H2 _ _ _ _ _ _]. change (encode_token_record v ttl st) with
    (encode_with (budget_env (rank st =? RANK_FOLDED) v ttl) (TokenState_encode st)).
  apply budget_record_bytes. unfold TokenState_encode. apply is_bytes_app; split.
  - repeat (apply Forall_cons_2; [assumption || (unfold u8, in_range, TOKEN_VER; lia)|]). constructor.
  - repeat (apply is_bytes_app; split); auto with marekvs.
Qed.

Lemma slot_record_bytes v ttl t st : is_bytes (encode_slot_record v ttl t st).
Proof.
  change (encode_slot_record v ttl t st) with (encode_with (budget_env t v ttl) (SlotState_encode st)).
  apply budget_record_bytes. unfold SlotState_encode. apply is_bytes_app; split; auto with marekvs.
Qed.

(** ** The effect of a transaction on the ledger *)

Section effect.
Context {DB : Type} `{KVLaws DB}.
Context (node_id epoch : Z) (wall : nat -> Z) (key : bytes) (hs : HeadState).
Context (Hnode : u16 node_id) (Hepoch : u64 epoch) (Hkey : slice_len_ok key) (Hkb : is_bytes key) (Hgen : u64 (hgen hs)).

Notation own_in := (own_in node_id key hs).
Notation own_token := (own_token node_id key hs).

(** Open reservations plus accepted spend of the node's tokens in window [w]. *)
Definition charged (w : Z) (d : DB) : Z := msum (token_charge node_id key hs w) (kvmap d).
(** Granted minus returned over the node's slots of window [w]. *)
Definition escrowed (w : Z) (d : DB) : Z :=
  msum (fun k v => slot_net node_id key hs w k (slot_of_record (Some v))) (kvmap d).

Definition values_are_bytes (d : DB) : Prop := forall k v, kv_get d k = Some v -> is_bytes v.

Definition record_bytes (o : bytes * bytes) : Prop := budget_key o.1 /\ is_bytes o.2.

(** The slots as the transaction sees them. *)
Definition slot_view (d : DB) (p : PendingOps) : gmap bytes SlotState :=
  p_slots p ∪ ((fun v => slot_of_record (Some v)) <$> kvmap d).
Definition pending_escrowed (w : Z) (d : DB) (p : PendingOps) : Z := msum (slot_net node_id key hs w) (slot_view d p).
Definition pending_charged (w : Z) (d : DB) (p : PendingOps) : Z := charged w (put_all (p_other p) d).

Record pending_ok (w : Z) (d : DB) (p : PendingOps) : Prop := {
  po_other : Forall (fun o => own_in w o.1 = false) (p_other p);
  po_bytes : Forall record_bytes (p_other p);
  po_slots : forall k s, p_slots p !! k = Some s -> slot_state_ok s /\ own_token k = None /\ budget_key k;
  po_ledger : pending_charged w d p <= pending_escrowed w d p;
}.

Lemma pending_new_ok w d : charged w d <= escrowed w d -> pending_ok w d pending_new.
Proof.
  intros Hle. split; cbn [p_other p_slots pending_new]; [constructor|constructor|intros k s; rewrite lookup_empty; discriminate|].
  unfold pending_charged, pending_escrowed, slot_view. cbn [p_other p_slots pending_new put_all fold_left].
  rewrite (left_id_L ∅ (∪)), msum_fmap. exact Hle.
Qed.

Lemma charged_put w d k v :
  charged w (kv_put d k v) = charged w d - contrib (token_charge node_id key hs w) k (kv_get d k) + token_charge node_id key hs w k v.
Proof. unfold charged. rewrite kvmap_put, msum_insert, kvmap_lookup. reflexivity. Qed.

Lemma put_all_snoc ops k v (d : DB) : put_all (ops ++ [(k, v)]) d = kv_put (put_all ops d) k v.
Proof. rewrite put_all_app. reflexivity. Qed.

Lemma pending_charged_push w d p k v :
  pending_charged w d (push_other p k v) =
  pending_charged w d p - contrib (token_charge node_id key hs w) k (kv_get (put_all (p_other p) d) k) +
  token_charge node_id key hs w k v.
Proof. unfold pending_charged. cbn [p_other push_other]. rewrite put_all_snoc, charged_put. reflexivity. Qed.

Lemma pending_escrowed_set w d p k s :
  pending_escrowed w d (set_slot p k s) =
  pending_escrowed w d p - contrib (slot_net node_id key hs w) k (slot_view d p !! k) + slot_net node_id key hs w k s.
Proof.
  unfold pending_escrowed, slot_view. cbn [p_slots set_slot]. rewrite <- insert_union_l, msum_insert. reflexivity.
Qed.

(** Reading a slot through the overlay. *)
Lemma pending_slot_view p k (s : Shard DB) :
  exists sl, pending_slot p k s = Ret (sl, s) /\ sl = default slot_default (slot_view (db s) p !! k).
Proof.
  unfold pending_slot, slot_view. rewrite lookup_union, lookup_fmap, kvmap_lookup.
  destruct (p_slots p !! k) as [sl|]; [eexists; split; [reflexivity|]; destruct (kv_get (db s) k); reflexivity|].
  eexists. split; [reflexivity|]. cbn. destruct (kv_get (db s) k); reflexivity.
Qed.

Lemma contrib_net w d p k :
  contrib (slot_net node_id key hs w) k (slot_view d p !! k) =
  slot_net node_id key hs w k (default slot_default (slot_view d p !! k)).
Proof. destruct (slot_view d p !! k); cbn; [reflexivity|]. unfold slot_net. destruct (own_in w k); reflexivity. Qed.

Lemma slot_view_ok w d p k : values_are_bytes d -> pending_ok w d p ->
  slot_state_ok (default slot_default (slot_view d p !! k)).
Proof.
  intros Hb [_ _ Hs _]. unfold slot_view. rewrite lookup_union, lookup_fmap, kvmap_lookup.
  destruct (p_slots p !! k) as [sl|] eqn:E; [destruct (kv_get d k); cbn; eapply Hs; eassumption|].
  pose proof (slot_of_record_ok (kv_get d k) (fun b Hb' => Hb k b Hb')) as Hr.
  destruct (kv_get d k); cbn in *; exact Hr.
Qed.

Lemma token_charge_put w tk e st v : own_token tk = Some e -> token_of_record v = Some st ->
  token_charge node_id key hs w tk v =
  if own_in w (slot_key_for key hs (window st) node_id e) then charge st else 0.
Proof. intros Ht Hv. unfold token_charge. rewrite Ht, Hv. reflexivity. Qed.

(** Folding one open token keeps the ledger sound and only lowers the charge. *)
Lemma fold_token_ok w (s : Shard DB) p tk e st state sp v :
  values_are_bytes (db s) -> pending_ok w (db s) p -> own_token tk = Some e -> budget_key tk ->
  kv_get (put_all (p_other p) (db s)) tk = Some v -> token_of_record v = Some st -> rank st < RANK_FOLDED ->
  token_state_ok st -> u64 sp -> u8 state ->
  exists p' r s', fold_token node_id wall key hs tk node_id e st state sp p s =
      Ret ((amount st - Z.min sp (amount st), p'), s') /\ db s' = db s /\
    pending_ok w (db s) p' /\ p_other p' = p_other p ++ [(tk, r)] /\
    pending_charged w (db s) p' <= pending_charged w (db s) p.
Proof.
  intros Hb Hp Ht Htk Hg Hv Hr Hst Hsp Hstate.
  set (sk := slot_key_for key hs (window st) node_id e).
  destruct (pending_slot_view p sk s) as (sl & Hsl & Hview).
  pose proof (slot_view_ok w (db s) p sk Hb Hp) as Hok. rewrite <- Hview in Hok.
  unfold fold_token. fold sk. unfold mbind, M_bind. rewrite Hsl. cbn [rust_bind fst snd].
  set (c := amount st - Z.min sp (amount st)).
  set (new := mkSlot (granted sl) (saturating_add 64 (returned sl) c)).
  unfold hlc_now. destruct (Hlc_now (hlc_word s) (wall (ticks s))) as [hw h] eqn:Eh.
  assert (u64 h) by (replace h with (Hlc_now (hlc_word s) (wall (ticks s))).2 by (rewrite Eh; reflexivity); auto with marekvs).
  cbn [rust_bind fst snd mret]. unfold mret, M_ret.
  set (nst := folded st state (Z.min sp (amount st)) c).
  pose proof (amount_u64 _ Hst) as Ham. unfold u64, in_range in Ham, Hsp.
  assert (Hnst : token_state_ok nst) by (apply folded_ok; unfold u64, in_range, c; lia || assumption).
  assert (Hc : 0 <= c) by (unfold c; lia).
  set (rec := encode_token_record (h, node_id) 0 nst).
  assert (Hch : pending_charged w (db s) (push_other (set_slot p sk new) tk rec) =
    pending_charged w (db s) p - if own_in w sk then c else 0).
  { rewrite pending_charged_push. change (p_other (set_slot p sk new)) with (p_other p). rewrite Hg. cbn [contrib].
    rewrite (token_charge_put w tk e st v), (token_charge_put w tk e nst rec) by
      (assumption || apply token_of_encoded; assumption).
    change (window nst) with (window st). fold sk. change (pending_charged w (db s) (set_slot p sk new)) with (pending_charged w (db s) p).
    assert (charge st = amount st) as -> by (unfold charge; destruct (Z.leb_spec RANK_FOLDED (rank st)); [lia|reflexivity]).
    change (charge nst) with (Z.min sp (amount st)). unfold c. destruct (own_in w sk); lia. }
  assert (Hes : pending_escrowed w (db s) p - (if own_in w sk then c else 0) <=
    pending_escrowed w (db s) (push_other (set_slot p sk new) tk rec)).
  { change (pending_escrowed w (db s) (push_other (set_slot p sk new) tk rec)) with (pending_escrowed w (db s) (set_slot p sk new)).
    rewrite pending_escrowed_set, contrib_net, <- Hview. unfold slot_net. destruct (own_in w sk); [|lia].
    cbn [granted returned new]. unfold saturating_add. lia. }
  exists (push_other (set_slot p sk new) tk rec), rec. eexists. split_and!; [reflexivity|reflexivity| |reflexivity|].
  - destruct Hp as [P1 Pb P2 P3]. split.
    + cbn. apply Forall_app. split; [assumption|]. apply Forall_singleton. cbn. eapply own_token_not_in; eassumption.
    + cbn [p_other push_other set_slot]. apply Forall_app. split; [assumption|]. apply Forall_singleton. split; [assumption|].
      apply token_record_bytes; assumption.
    + cbn. intros k s0. destruct (decide (k = sk)) as [->|Hne]; [|rewrite lookup_insert_ne by congruence; apply P2].
      rewrite lookup_insert_eq. intros [= <-]. split_and!; [|apply own_token_slot_key; assumption|apply slot_key_bytes; assumption].
      destruct Hok as [O1 O2]. split; cbn; [assumption|]. unfold u64, in_range, saturating_add in *. lia.
    + lia.
  - rewrite Hch. destruct (own_in w sk); lia.
Qed.

(** ** Folding expired tokens *)

Definition victim_ok (w : Z) (d : DB) (x : Victim) : Prop :=
  exists b, kv_get d (v_key x) = Some b /\ token_of_record b = Some (v_st x) /\ rank (v_st x) < RANK_FOLDED /\
    v_node x = node_id /\ own_in w (v_key x) = false /\ budget_key (v_key x) /\
    own_token (v_key x) = if v_gen x =? hgen hs then Some (v_epoch x) else None.

Lemma fold_victims_ok w l : forall p (s : Shard DB), values_are_bytes (db s) -> pending_ok w (db s) p ->
  Forall (victim_ok w (db s)) l -> NoDup (v_key <$> l) -> (forall x, x ∈ l -> v_key x ∉ fst <$> p_other p) ->
  exists p' s', fold_victims node_id wall key hs l p s = Ret (p', s') /\ db s' = db s /\
    pending_ok w (db s) p' /\ pending_charged w (db s) p' <= pending_charged w (db s) p.
Proof.
  induction l as [|x l IH]; intros p s Hb Hp Hl Hnd Hfresh.
  { exists p, s. split_and!; [reflexivity|reflexivity|assumption|reflexivity]. }
  apply Forall_cons in Hl as [(b & Hg & Hv & Hr & Hn & Hin & Hkx & Ht) Hl]. cbn in Hnd. apply NoDup_cons in Hnd as [Hx Hnd].
  assert (Hst : token_state_ok (v_st x)) by (eapply token_of_record_ok; [eapply Hb|]; eassumption).
  assert (Hg' : kv_get (put_all (p_other p) (db s)) (v_key x) = Some b).
  { rewrite put_all_not_in; [assumption|]. apply Hfresh. left. }
  assert (Hstep : exists p1 r s1,
    (if v_gen x =? hgen hs then
       r ← fold_token node_id wall key hs (v_key x) (v_node x) (v_epoch x) (v_st x) STATE_EXPIRED (spent (v_st x)) p; mret r.2
     else h ← hlc_now wall; mret (push_other p (v_key x)
       (encode_token_record (h, node_id) 0 (folded (v_st x) STATE_EXPIRED (spent (v_st x)) 0)))) s = Ret (p1, s1) /\
    db s1 = db s /\ pending_ok w (db s) p1 /\ p_other p1 = p_other p ++ [(v_key x, r)] /\
    pending_charged w (db s) p1 <= pending_charged w (db s) p).
  { destruct (v_gen x =? hgen hs).
    - destruct (fold_token_ok w s p (v_key x) (v_epoch x) (v_st x) STATE_EXPIRED (spent (v_st x)) b)
        as (p1 & r & s1 & H1 & H2 & H3 & H4 & H5); try assumption; [apply Hst|unfold u8, in_range, STATE_EXPIRED; lia|].
      exists p1, r, s1. unfold mbind, M_bind. rewrite Hn, H1. split_and!; try assumption; reflexivity.
    - unfold mbind, M_bind, hlc_now. destruct (Hlc_now (hlc_word s) (wall (ticks s))) as [hw h].
      cbn [rust_bind fst snd]. unfold mret, M_ret. do 3 eexists. split; [reflexivity|].
      set (rec := encode_token_record _ _ _).
      assert (Hch : pending_charged w (db s) (push_other p (v_key x) rec) = pending_charged w (db s) p).
      { rewrite pending_charged_push, Hg'. cbn [contrib]. unfold token_charge. rewrite Ht. lia. }
      split_and!; [reflexivity| |reflexivity|lia]. destruct Hp as [P1 Pb P2 P3]. split; [| |exact P2|].
      + cbn. apply Forall_app. split; [assumption|]. apply Forall_singleton. exact Hin.
      + cbn [p_other push_other]. apply Forall_app. split; [assumption|]. apply Forall_singleton. split; [exact Hkx|].
        apply token_record_bytes, folded_ok; auto with marekvs; [unfold u8, in_range, STATE_EXPIRED; lia|apply Hst].
      + rewrite Hch. exact P3. }
  destruct Hstep as (p1 & r & s1 & H1 & H2 & H3 & H4 & H5).
  destruct (IH p1 s1) as (p' & s' & I1 & I2 & I3 & I4); rewrite ?H2; try assumption.
  { intros y Hy. rewrite H4, fmap_app, not_elem_of_app. split; [apply Hfresh; right; assumption|].
    cbn. rewrite list_elem_of_singleton. intros Heq. apply Hx. rewrite <- Heq. apply list_elem_of_fmap. eauto. }
  exists p', s'. rewrite H2 in I2, I3, I4. split_and!; [|assumption|assumption|lia].
  cbn [fold_victims]. unfold mbind, M_bind in *. rewrite H1. exact I1.
Qed.

Lemma expiry_victim_ok w d now grace limit acc k v : keys_are_bytes d ->
  kv_get d k = Some v -> starts_with k (prefixed TBudget key [BUDGET_TOKEN]) = true ->
  exists acc' go, expiry_victim node_id (hgen hs) now grace limit acc k v = Ret (acc', go) /\
    (acc' = acc \/ exists x, acc' = acc ++ [x] /\ v_key x = k /\ victim_ok w d x).
Proof.
  intros Hb Hg Hp. apply starts_with_spec in Hp as (r & ->). rewrite prefixed_app in *. cbn [app] in *.
  unfold expiry_victim. rewrite parse_budget by assumption. cbn [rust_bind pk_suffix].
  destruct (token_suffix_fields (BUDGET_TOKEN :: r)) as [[[[tg th] tn] te]|] eqn:Ef; [|eauto].
  destruct (Z.eqb_spec tn node_id) as [->|]; cbn [negb]; [|eauto].
  destruct (Envelope_decode v) as [[env pay]|] eqn:Ev; [|eauto]. destruct (is_tombstone env); [eauto|].
  destruct (TokenState_decode pay) as [st|] eqn:Et; [|eauto].
  destruct (Z.leb_spec RANK_FOLDED (rank st)); [eauto|].
  do 2 eexists. split; [reflexivity|]. destruct (_ || _); [|eauto]. right. eexists. split_and!; [reflexivity|reflexivity|].
  exists v. cbn [v_key v_st v_node v_gen v_epoch]. split_and!; try assumption; try reflexivity.
  - unfold token_of_record. rewrite Ev. exact Et.
  - destruct (own_in w _) eqn:E; [|reflexivity]. exfalso. apply own_in_shape in E as (r' & E).
    rewrite !prefixed_split in E. apply app_inv_head in E. injection E as E _. revert E.
    unfold slot_kind_byte. destruct (_ =? _); discriminate.
  - split; [eapply Hb; exact Hg|reflexivity].
  - unfold own_token. rewrite parse_budget by assumption. cbn [pk_userkey pk_tag pk_suffix].
    unfold bytes_eqb. rewrite bool_decide_eq_true_2, Z.eqb_refl by reflexivity. cbn [andb].
    rewrite Ef, Z.eqb_refl, andb_true_r. destruct (tg =? hgen hs); reflexivity.
Qed.

(** Entries of a scan: stored, below the prefix, in strict key order. *)
Definition scanned (d : DB) (pre : bytes) (l : list (bytes * bytes)) : Prop :=
  StronglySorted key_lt l /\ Forall (fun e => kv_get d e.1 = Some e.2 /\ starts_with e.1 pre = true) l.

Lemma with_prefix_scanned d pre : keys_are_bytes d -> scanned d pre (with_prefix d pre).
Proof.
  intros Hb. split; [apply kv_range_sorted|]. apply Forall_forall. intros [k v] Hin. apply with_prefix_spec in Hin; auto.
Qed.

Lemma scan_victims_ok w d now grace limit l : keys_are_bytes d ->
  scanned d (prefixed TBudget key [BUDGET_TOKEN]) l -> forall acc,
  Forall (victim_ok w d) acc -> NoDup (v_key <$> acc) -> (forall k, k ∈ v_key <$> acc -> k ∉ fst <$> l) ->
  exists r, scan_loop (prefixed TBudget key [BUDGET_TOKEN]) (expiry_victim node_id (hgen hs) now grace limit) acc l = Ret r /\
    Forall (victim_ok w d) r /\ NoDup (v_key <$> r).
Proof.
  intros Hb [Hs Hl]. induction Hs as [|[k v] l Hs IH Hk]; intros acc Hacc Hnd Hdis; [exists acc; auto|].
  apply Forall_cons in Hl as [[Hg Hp] Hl]. cbn [scan_loop]. cbn [fst snd] in Hg, Hp. rewrite Hp. cbn [negb].
  destruct (expiry_victim_ok w d now grace limit acc k v Hb Hg Hp) as (acc' & go & -> & Hacc'). cbn [rust_bind fst snd].
  assert (Hn : k ∉ v_key <$> acc) by (intros Hk'; apply (Hdis k Hk'); cbn; left).
  assert (Forall (victim_ok w d) acc' /\ NoDup (v_key <$> acc') /\ forall k', k' ∈ v_key <$> acc' -> k' ∉ fst <$> l) as (A1 & A2 & A3).
  { destruct Hacc' as [->|(x & -> & Hx & Hok)].
    - split_and!; [assumption|assumption|]. intros k' Hk' Hin. apply (Hdis k' Hk'). cbn. right. exact Hin.
    - rewrite fmap_app. cbn. rewrite Hx. split_and!.
      + apply Forall_app. auto.
      + apply NoDup_app. split_and!; [assumption| |apply NoDup_singleton]. set_solver.
      + intros k' [Hk'|Hk']%elem_of_app Hin; [apply (Hdis k' Hk'); cbn; right; exact Hin|].
        apply list_elem_of_singleton in Hk' as ->. rewrite Forall_forall in Hk.
        apply list_elem_of_fmap in Hin as (e & He & Hin). specialize (Hk e Hin). unfold key_lt in Hk. cbn in Hk.
        rewrite <- He, bytes_cmp_refl in Hk. discriminate. }
  destruct go; [apply IH; assumption|exists acc'; auto].
Qed.

Lemma fold_expired_own_ok w (s : Shard DB) grace limit : keys_are_bytes (db s) -> values_are_bytes (db s) ->
  charged w (db s) <= escrowed w (db s) ->
  exists p s', fold_expired_own node_id wall key hs grace limit pending_new s = Ret (p, s') /\ db s' = db s /\
    pending_ok w (db s) p /\ pending_charged w (db s) p <= charged w (db s).
Proof.
  intros Hb Hvb Hle. unfold fold_expired_own, mbind, M_bind, now_ms, scan_prefix, scan_from.
  cbn [rust_bind fst snd db]. fold (with_prefix (db s) (prefixed TBudget key [BUDGET_TOKEN])).
  destruct (scan_victims_ok w (db s) (wall (ticks s)) grace limit (with_prefix (db s) (prefixed TBudget key [BUDGET_TOKEN]))
    Hb (with_prefix_scanned _ _ Hb) []) as (r & -> & Hr & Hnd); [constructor|constructor|set_solver|].
  cbn [rust_bind fst snd].
  match goal with |- context [fold_victims _ _ _ _ _ _ ?x] => set (s1 := x) end.
  destruct (fold_victims_ok w r pending_new s1) as (p & s' & H1 & H2 & H3 & H4); try assumption.
  - apply pending_new_ok. exact Hle.
  - intros x _. cbn. apply not_elem_of_nil.
  - exists p, s'. split_and!; try assumption.
Qed.

(** ** Window garbage collection *)

Lemma window_victim_ok w cutoff limit acc k v : u64 w -> cutoff <= w ->
  starts_with k (prefixed TBudget key ([BUDGET_WINDOW_SLOT] ++ be_bytes 8 (hgen hs))) = true ->
  hmode hs =? MODE_WINDOW = true ->
  exists acc' go, window_victim node_id cutoff limit acc k v = Ret (acc', go) /\
    (acc' = acc \/ acc' = acc ++ [k] /\ own_in w k = false /\ own_token k = None).
Proof.
  intros Hw Hcut Hp Hmode. apply starts_with_spec in Hp as (r & ->). rewrite prefixed_app. cbn [app].
  set (suffix := BUDGET_WINDOW_SLOT :: be_bytes 8 (hgen hs) ++ r).
  unfold window_victim. rewrite parse_budget by assumption. cbn [rust_bind pk_suffix].
  destruct (length suffix <? 27)%nat; [eauto|]. destruct (Z.leb_spec cutoff (of_be (slice 9 17 suffix))) as [|Hlt]; [eauto|].
  destruct (_ =? node_id); cbn [negb]; [|eauto]. do 2 eexists. split; [reflexivity|].
  destruct (Envelope_decode v) as [[e pay]|]; [|eauto]. destruct (is_tombstone e); [eauto|]. right.
  split_and!; [reflexivity| |].
  - destruct (own_in w _) eqn:E; [|reflexivity]. exfalso. unfold BudgetSafety.own_in in E.
    apply andb_true_iff in E as [E _]. unfold slots_prefix in E. rewrite Hmode in E.
    apply starts_with_spec in E as (r' & E). rewrite prefixed_app in E.
    assert (suffix = BUDGET_WINDOW_SLOT :: be_bytes 8 (hgen hs) ++ be_bytes 8 w ++ r') as E'.
    { rewrite !prefixed_split in E. apply app_inv_head in E. rewrite E. cbn [app]. rewrite <- app_assoc. reflexivity. }
    rewrite E' in Hlt. change (slice 9 17 _) with (be_bytes 8 w) in Hlt. rewrite of_be_u64 in Hlt by assumption. lia.
  - pose proof (own_token_slot node_id key hs Hkey (be_bytes 8 (hgen hs) ++ r)) as Ht. unfold slot_kind_byte in Ht.
    rewrite Hmode in Ht. exact Ht.
Qed.

Definition neutral (w : Z) (k : bytes) : Prop := own_in w k = false /\ own_token k = None /\ budget_key k.

Lemma token_charge_none w k v : own_token k = None -> token_charge node_id key hs w k v = 0.
Proof. intros Ht. unfold token_charge. rewrite Ht. reflexivity. Qed.
Lemma contrib_not_token w k o : own_token k = None -> contrib (token_charge node_id key hs w) k o = 0.
Proof. intros Ht. destruct o; [|reflexivity]. apply token_charge_none, Ht. Qed.

Lemma push_neutral w d p k v : neutral w k -> is_bytes v -> pending_ok w d p ->
  pending_ok w d (push_other p k v) /\ pending_charged w d (push_other p k v) = pending_charged w d p.
Proof.
  intros (Hin & Ht & Hk) Hv [P1 Pb P2 P3].
  assert (Hch : pending_charged w d (push_other p k v) = pending_charged w d p).
  { rewrite pending_charged_push, contrib_not_token, token_charge_none by assumption. lia. }
  split; [|exact Hch]. split; [| |exact P2|rewrite Hch; exact P3].
  - cbn. apply Forall_app. split; [assumption|]. apply Forall_singleton. exact Hin.
  - cbn [p_other push_other]. apply Forall_app. split; [assumption|]. apply Forall_singleton. split; assumption.
Qed.

Lemma scan_windows_ok w d cutoff limit l : keys_are_bytes d -> u64 w -> cutoff <= w -> hmode hs =? MODE_WINDOW = true ->
  scanned d (prefixed TBudget key ([BUDGET_WINDOW_SLOT] ++ be_bytes 8 (hgen hs))) l -> forall acc,
  Forall (neutral w) acc ->
  exists r, scan_loop (prefixed TBudget key ([BUDGET_WINDOW_SLOT] ++ be_bytes 8 (hgen hs)))
    (window_victim node_id cutoff limit) acc l = Ret r /\ Forall (neutral w) r.
Proof.
  intros Hb Hw Hcut Hmode [_ Hl]. induction Hl as [|[k v] l [Hg Hp] Hl IH]; intros acc Hacc; [exists acc; auto|].
  cbn [scan_loop]. cbn [fst snd] in Hg, Hp. rewrite Hp. cbn [negb].
  destruct (window_victim_ok w cutoff limit acc k v Hw Hcut Hp Hmode) as (acc' & go & -> & Hacc'). cbn [rust_bind fst snd].
  assert (budget_key k).
  { split; [eapply Hb; exact Hg|]. apply starts_with_spec in Hp as (r & ->). rewrite prefixed_app. reflexivity. }
  assert (Forall (neutral w) acc').
  { destruct Hacc' as [->|(-> & Hi1 & Hi2)]; [assumption|]. apply Forall_app. split; [assumption|].
    apply Forall_singleton. split_and!; assumption. }
  destruct go; [apply IH; assumption|exists acc'; auto].
Qed.

Lemma tomb_windows_ok w l : Forall (neutral w) l -> forall p (s : Shard DB), pending_ok w (db s) p ->
  exists p' s', tomb_windows node_id wall l p s = Ret (p', s') /\ db s' = db s /\ pending_ok w (db s) p' /\
    pending_charged w (db s) p' = pending_charged w (db s) p.
Proof.
  induction 1 as [|k l Hk Hl IH]; intros p s Hp; [exists p, s; auto|].
  cbn [tomb_windows]. unfold mbind, M_bind, hlc_now. destruct (Hlc_now (hlc_word s) (wall (ticks s))) as [hw h].
  cbn [rust_bind fst snd]. set (s1 := mkShard _ _ _ _).
  destruct (push_neutral w (db s) p k (encode_slot_record (h, node_id) 0 true slot_default) Hk (slot_record_bytes _ _ _ _) Hp) as [P1 P2].
  destruct (IH (push_other p k (encode_slot_record (h, node_id) 0 true slot_default)) s1) as (p' & s' & I1 & I2 & I3 & I4);
    [exact P1|]. exists p', s'. split_and!; [exact I1|exact I2|exact I3|]. etrans; [exact I4|exact P2].
Qed.

Lemma gc_old_windows_ok w win max_ttl grace limit p (s : Shard DB) : u64 w -> win <= w -> keys_are_bytes (db s) ->
  pending_ok w (db s) p ->
  exists p' s', gc_old_windows node_id wall key hs max_ttl grace win limit p s = Ret (p', s') /\ db s' = db s /\
    pending_ok w (db s) p' /\ pending_charged w (db s) p' = pending_charged w (db s) p.
Proof.
  intros Hw Hwin Hb Hp. unfold gc_old_windows.
  destruct (hmode hs =? MODE_WINDOW) eqn:Hmode; cbn [negb orb]; [|exists p, s; auto].
  destruct (period_ms hs =? 0); [exists p, s; auto|].
  set (ret := wrap 64 _). assert (0 <= ret) by (apply wrap_range; lia).
  destruct (win <? ret); [exists p, s; auto|].
  unfold mbind, M_bind, scan_prefix, scan_from.
  destruct (scan_windows_ok w (db s) (win - ret) limit (with_prefix (db s) (prefixed TBudget key ([BUDGET_WINDOW_SLOT] ++ be_bytes 8 (hgen hs)))))
    with (acc := @nil bytes) as (r & Hr & Hn); try assumption; [lia|apply with_prefix_scanned, Hb|constructor|].
  unfold with_prefix in Hr. rewrite Hr. cbn [rust_bind fst snd]. apply tomb_windows_ok; assumption.
Qed.

(** ** Committing *)

Lemma slot_records_ok l : forall s : Shard DB, exists ops s', slot_records node_id wall l s = Ret (ops, s') /\ db s' = db s /\
  fst <$> ops = fst <$> l /\ Forall (fun o => is_bytes o.2) ops /\
  forall k st, (k, st) ∈ l -> slot_state_ok st -> exists v, (k, v) ∈ ops /\ slot_of_record (Some v) = st.
Proof.
  induction l as [|[k st] l IH]; intros s; [exists [], s; split_and!; [reflexivity|reflexivity|reflexivity|constructor|set_solver]|].
  cbn [slot_records]. unfold mbind, M_bind, hlc_now.
  destruct (Hlc_now (hlc_word s) (wall (ticks s))) as [hw h] eqn:Eh.
  assert (u64 h) by (replace h with (Hlc_now (hlc_word s) (wall (ticks s))).2 by (rewrite Eh; reflexivity); auto with marekvs).
  cbn [rust_bind fst snd]. set (s1 := mkShard _ _ _ _). destruct (IH s1) as (ops & s' & I1 & I2 & I3 & Ib & I4).
  unfold mbind, M_bind in I1. rewrite I1. cbn [rust_bind fst snd]. unfold mret, M_ret.
  do 2 eexists. split_and!; [reflexivity|exact I2|cbn; f_equal; exact I3|apply Forall_cons_2; [apply slot_record_bytes|exact Ib]|].
  intros k' st' [[= -> ->]|Hin]%elem_of_cons Hok.
  - eexists. split; [left|]. apply slot_of_encoded; assumption.
  - destruct (I4 k' st' Hin Hok) as (v & Hv & Hs). exists v. split; [right; exact Hv|exact Hs].
Qed.

Lemma into_ops_ok w p (s : Shard DB) : pending_ok w (db s) p ->
  exists ops s', into_ops node_id wall p s = Ret (ops, s') /\ db s' = db s /\ Forall record_bytes ops /\
    charged w (put_all ops (db s)) = pending_charged w (db s) p /\
    escrowed w (put_all ops (db s)) = pending_escrowed w (db s) p.
Proof.
  intros [P1 Pb P2 P3]. unfold into_ops, mbind, M_bind.
  destruct (slot_records_ok (map_to_list (p_slots p)) s) as (ops & s' & -> & Hdb & Hfst & Hob & Hops).
  cbn [rust_bind fst snd]. unfold mret, M_ret. do 2 eexists. split_and!; [reflexivity|exact Hdb| | |].
  - apply Forall_app. split; [assumption|]. rewrite Forall_forall in Hob |- *. intros [k v] Hin. split; [|apply Hob, Hin].
    assert (Hk : k ∈ fst <$> ops) by (apply list_elem_of_fmap; exists (k, v); auto).
    rewrite Hfst in Hk. apply list_elem_of_fmap in Hk as ([k' st] & -> & Hk). apply elem_of_map_to_list in Hk.
    eapply P2. exact Hk.
  - rewrite put_all_app. unfold pending_charged, charged. apply msum_contrib. intros k. rewrite !kvmap_lookup.
    destruct (decide (k ∈ fst <$> ops)) as [Hin|Hn]; [|rewrite put_all_not_in by assumption; reflexivity].
    rewrite Hfst in Hin. apply list_elem_of_fmap in Hin as ([k' st] & -> & Hin). cbn [fst].
    apply elem_of_map_to_list in Hin. destruct (P2 k' st Hin) as (_ & Ht & _).
    rewrite !contrib_not_token by assumption. reflexivity.
  - unfold escrowed, pending_escrowed. rewrite <- (msum_fmap (fun v => slot_of_record (Some v))). apply msum_contrib.
    intros k. destruct (own_in w k) eqn:Hin.
    2:{ assert (Hz : forall o, contrib (slot_net node_id key hs w) k o = 0).
        { intros [x|]; [|reflexivity]. cbn. unfold slot_net. rewrite Hin. reflexivity. }
        rewrite !Hz. reflexivity. }
    f_equal. unfold slot_view. rewrite lookup_union, !lookup_fmap, !kvmap_lookup, put_all_app.
    assert (Hko : k ∉ fst <$> p_other p).
    { intros (o & -> & Ho)%list_elem_of_fmap. rewrite Forall_forall in P1. specialize (P1 o Ho). congruence. }
    destruct (p_slots p !! k) as [st|] eqn:E.
    + destruct (P2 k st E) as (Hok & _).
      destruct (Hops k st) as (v & Hv & Hs); [apply elem_of_map_to_list, E|assumption|].
      rewrite (put_all_in ops _ k v); [|rewrite Hfst; apply NoDup_fst_map_to_list|assumption].
      cbn. rewrite Hs. destruct (kv_get (db s) k); reflexivity.
    + rewrite !put_all_not_in; [destruct (kv_get (db s) k); reflexivity|assumption|].
      rewrite Hfst. intros ([k' st] & -> & Hk)%list_elem_of_fmap. apply elem_of_map_to_list in Hk. cbn in E. congruence.
Qed.

(** ** The headroom check *)

Lemma own_in_prefix w k : starts_with k (slots_prefix key hs w) = true ->
  own_slot node_id (node_off hs) k = Ret (own_in w k) /\ (own_in w k = true -> (10 <= length k)%nat).
Proof.
  intros Hp. unfold BudgetSafety.own_in. rewrite Hp. cbn [andb].
  destruct (slots_prefix_shape key hs w) as (r0 & E & _). apply starts_with_spec in Hp as (r & ->). rewrite E, prefixed_app.
  rewrite own_slot_shape by assumption. split; [reflexivity|].
  intros [Hlen _]%andb_true_iff. apply negb_true_iff, Nat.ltb_ge in Hlen. rewrite prefixed_split, length_app. lia.
Qed.

Definition stored_out (w : Z) (p : PendingOps) (k v : bytes) : Z :=
  if decide (is_Some (p_slots p !! k)) then 0 else slot_out node_id key hs w k (slot_of_record (Some v)).

Lemma stored_outstanding_eq w p total k v : starts_with k (slots_prefix key hs w) = true ->
  stored_outstanding node_id (node_off hs) p total k v = Ret (total + stored_out w p k v, true).
Proof.
  intros Hp. destruct (own_in_prefix w k Hp) as [Hown _]. unfold stored_outstanding. rewrite Hown. cbn [rust_bind].
  unfold stored_out, slot_out, slot_of_record. cbn [mbind option_bind].
  destruct (own_in w k); cbn [negb]; [|destruct (decide _); rewrite Z.add_0_r; reflexivity].
  rewrite bool_decide_decide. destruct (decide (is_Some (p_slots p !! k))); [rewrite Z.add_0_r; reflexivity|].
  destruct (Envelope_decode v) as [[e pay]|]; [|rewrite Z.add_0_r; reflexivity].
  destruct (is_tombstone e); [rewrite Z.add_0_r; reflexivity|].
  destruct (SlotState_decode pay); cbn [default]; [reflexivity|]. rewrite Z.add_0_r. reflexivity.
Qed.

Lemma scan_stored w p d l total : scanned d (slots_prefix key hs w) l ->
  scan_loop (slots_prefix key hs w) (stored_outstanding node_id (node_off hs) p) total l =
  Ret (total + lsum (stored_out w p) l).
Proof.
  intros [_ Hl]. revert total. induction Hl as [|[k v] l [_ Hp] Hl IH]; intros total.
  { cbn. rewrite Z.add_0_r. reflexivity. }
  cbn [fst snd] in Hp. cbn [scan_loop]. rewrite Hp, (stored_outstanding_eq w) by assumption. cbn [negb rust_bind fst snd].
  rewrite IH. f_equal. unfold lsum. cbn [fold_right fst snd]. lia.
Qed.

Lemma overlay_outstanding_eq w l total :
  overlay_outstanding node_id (node_off hs) (slots_prefix key hs w) l total =
  Ret (total + lsum (slot_out node_id key hs w) l).
Proof.
  revert total. induction l as [|[k st] l IH]; intros total; cbn [overlay_outstanding].
  { cbn. rewrite Z.add_0_r. reflexivity. }
  unfold lsum. cbn [fold_right fst snd]. fold (lsum (slot_out node_id key hs w) l). unfold slot_out at 1.
  destruct (starts_with k (slots_prefix key hs w)) eqn:Hp.
  - destruct (own_in_prefix w k Hp) as [-> Hlen]. cbn [rust_bind]. rewrite IH. f_equal.
    destruct (own_in w k); cbn [andb]; [|lia]. destruct (Nat.leb_spec 10 (length k)); [lia|]. specialize (Hlen eq_refl). lia.
  - rewrite IH. f_equal. unfold BudgetSafety.own_in. rewrite Hp. cbn [andb]. lia.
Qed.

Lemma own_outstanding_eq w p (s : Shard DB) : keys_are_bytes (db s) ->
  own_outstanding node_id key hs w p s = Ret (msum (slot_out node_id key hs w) (slot_view (db s) p), s).
Proof.
  intros Hb. unfold own_outstanding, mbind, M_bind, scan_prefix, scan_from, lift.
  fold (with_prefix (db s) (slots_prefix key hs w)).
  rewrite (scan_stored w p (db s)) by (apply with_prefix_scanned, Hb). cbn [rust_bind fst snd].
  rewrite overlay_outstanding_eq. cbn [rust_bind]. do 2 f_equal. rewrite msum_with_prefix by assumption.
  unfold slot_view. rewrite msum_union, msum_fmap, (msum_list _ (p_slots p)).
  fold (lsum (slot_out node_id key hs w) (map_to_list (p_slots p))).
  rewrite Z.add_0_l, Z.add_comm. f_equal. apply msum_ext. intros k v _. unfold stored_out, slot_out, BudgetSafety.own_in.
  destruct (starts_with k _), (decide _); reflexivity.
Qed.

(** What the headroom check counts is at least what is escrowed. *)
Lemma escrowed_le_outstanding w d p :
  pending_escrowed w d p <= msum (slot_out node_id key hs w) (slot_view d p).
Proof.
  apply msum_le. intros k x _. unfold slot_net, slot_out, outstanding, saturating_sub. destruct (own_in w k); lia.
Qed.

(** ** Issuing a token *)

Definition bytes_ok (d : DB) : Prop := keys_are_bytes d /\ values_are_bytes d.

Lemma put_all_bytes ops (d : DB) : Forall record_bytes ops -> bytes_ok d -> bytes_ok (put_all ops d).
Proof.
  intros Hops. revert d. induction Hops as [|[k v] ops [[Hk _] Hv] _ IH]; intros d [H1 H2]; [split; assumption|].
  apply (IH (kv_put d k v)). cbn [fst snd] in Hk, Hv.
  split; intros k' v'; rewrite kv_get_put; unfold bytes_eqb; case_bool_decide as E; intros Hg; subst; eauto; congruence.
Qed.

Lemma charge_nonneg st : token_state_ok st -> 0 <= charge st.
Proof.
  intros Hst. pose proof (amount_u64 _ Hst). pose proof (spent_u64 _ Hst). unfold charge, u64, in_range in *.
  destruct (_ <=? _); lia.
Qed.

Lemma contrib_nonneg w k (d : DB) : values_are_bytes d -> 0 <= contrib (token_charge node_id key hs w) k (kv_get d k).
Proof.
  intros Hb. destruct (kv_get d k) as [v|] eqn:E; cbn [contrib]; [|lia]. unfold token_charge.
  destruct (own_token k); [|lia]. destruct (token_of_record v) as [st|] eqn:Et; [|lia].
  apply token_of_record_ok in Et; [|eapply Hb; exact E]. destruct (own_in w _); [apply charge_nonneg, Et|lia].
Qed.

Lemma issue_token_ok w win amount ttl reqid p (s : Shard DB) ops g s' :
  bytes_ok (db s) -> pending_ok w (db s) p -> u64 amount -> u64 win -> u64 reqid ->
  issue_token node_id epoch wall key hs win amount ttl reqid p s = Ret (Ok (ops, g), s') ->
  db s' = db s /\ Forall record_bytes ops /\
  charged w (put_all ops (db s)) <= escrowed w (put_all ops (db s)) /\
  (own_in w (slot_key_for key hs win node_id epoch) = true ->
   escrowed w (put_all ops (db s)) = pending_escrowed w (db s) p + amount) /\
  (own_in w (slot_key_for key hs win node_id epoch) = false ->
   charged w (put_all ops (db s)) <= pending_charged w (db s) p) /\ g_amount g = amount.
Proof.
  intros [Hkb' Hb] Hp Ha Hw Hrq. unfold issue_token, mbind, M_bind.
  set (sk := slot_key_for key hs win node_id epoch).
  destruct (pending_slot_view p sk s) as (sl & Hsl & Hview). rewrite Hsl. cbn [rust_bind fst snd].
  pose proof (slot_view_ok w (db s) p sk Hb Hp) as Hok. rewrite <- Hview in Hok.
  unfold checked_add. destruct (Z.ltb_spec (granted sl + amount) (2 ^ 64)) as [Hfit|]; [|discriminate].
  unfold hlc_now, now_ms. destruct (Hlc_now (hlc_word s) (wall (ticks s))) as [hw h] eqn:Eh.
  assert (Hh : u64 h) by (replace h with (Hlc_now (hlc_word s) (wall (ticks s))).2 by (rewrite Eh; reflexivity); auto with marekvs).
  cbn [rust_bind fst snd tk_gen tk_hlc tk_node tk_epoch].
  set (tk := budget_token_key key (hgen hs) h node_id epoch).
  set (st := mkToken RANK_OPEN STATE_OPEN amount 0 0 _ win reqid). set (new := mkSlot (granted sl + amount) (returned sl)).
  set (rec := encode_token_record (h, node_id) 0 st). set (p1 := push_other (set_slot p sk new) tk rec).
  set (s1 := mkShard _ _ _ _).
  assert (Ht : own_token tk = Some epoch) by (apply own_token_key; assumption).
  assert (Hst : token_state_ok st).
  { split; cbn; auto with marekvs; try (unfold u8, in_range, RANK_OPEN, STATE_OPEN; lia). apply wrap_range; lia. }
  assert (Hes : pending_escrowed w (db s) p1 = pending_escrowed w (db s) p + if own_in w sk then amount else 0).
  { change (pending_escrowed w (db s) p1) with (pending_escrowed w (db s) (set_slot p sk new)).
    rewrite pending_escrowed_set, contrib_net, <- Hview. unfold slot_net. destruct (own_in w sk); cbn; lia. }
  assert (Hch : pending_charged w (db s) p1 <= pending_charged w (db s) p + if own_in w sk then amount else 0).
  { unfold p1. rewrite pending_charged_push. rewrite (token_charge_put w tk epoch st rec) by
      (assumption || apply token_of_encoded; assumption). change (window st) with win. fold sk.
    change (charge st) with amount.
    change (pending_charged w (db s) (set_slot p sk new)) with (pending_charged w (db s) p).
    pose proof (contrib_nonneg w tk (put_all (p_other p) (db s)) (proj2 (put_all_bytes _ _ (po_bytes _ _ _ Hp) (conj Hkb' Hb)))).
    change (p_other (set_slot p sk new)) with (p_other p). lia. }
  assert (Hp1 : pending_ok w (db s1) p1).
  { destruct Hp as [P1 Pb P2 P3]. destruct Hok as [O1 O2]. unfold u64, in_range in O1, Ha. split.
    - apply Forall_app. split; [assumption|]. apply Forall_singleton. cbn [fst]. eapply own_token_not_in; eassumption.
    - apply Forall_app. split; [assumption|]. apply Forall_singleton.
      split; [apply token_key_bytes; assumption|apply token_record_bytes; assumption].
    - cbn [p_slots p1 push_other set_slot]. intros k s0.
      destruct (decide (k = sk)) as [->|Hne]; [|rewrite lookup_insert_ne by congruence; apply P2].
      rewrite lookup_insert_eq. intros [= <-].
      split_and!; [split; cbn; [unfold u64, in_range; lia|assumption]|apply own_token_slot_key; assumption|apply slot_key_bytes; assumption].
    - change (db s1) with (db s). lia. }
  destruct (into_ops_ok w p1 s1 Hp1) as (ops1 & s2 & Hio & Hdb & Hob & Hc & He). rewrite Hio.
  cbn [rust_bind fst snd]. unfold mret, M_ret. intros [= <- <- <-]. change (db s1) with (db s) in *.
  split_and!; [exact Hdb|exact Hob| |intros Hin; rewrite He, Hes, Hin; reflexivity|
    intros Hin; rewrite Hin in Hch; lia|reflexivity].
  rewrite Hc, He, Hes. pose proof (po_ledger _ _ _ Hp). lia.
Qed.

(** ** One operation *)

(** The ledger of window [w] is sound: charges are covered by the slots, and
    stay within the node's allocation. *)
Definition sound (w : Z) (d : DB) : Prop :=
  charged w d <= escrowed w d /\ charged w d <= alloc_for hs node_id.

Definition head_at (d : DB) : option HeadState :=
  match kv_get d (head_key key) ≫= Envelope_decode with
  | Some (_, pay) => HeadState_decode (drop 9 pay)
  | None => None
  end.

(** The store holds byte strings and this head. *)
Definition store_ok (d : DB) : Prop := bytes_ok d /\ head_at d = Some hs.

Lemma store_ok_put_all ops d : Forall record_bytes ops -> store_ok d -> store_ok (put_all ops d).
Proof.
  intros Hops [Hb Hh]. split; [apply put_all_bytes; assumption|]. unfold head_at in *. rewrite put_all_not_in; [exact Hh|].
  intros (o & Ho & Hin)%list_elem_of_fmap. rewrite Forall_forall in Hops. destruct (Hops o Hin) as [[_ Ht] _].
  rewrite <- Ho in Ht. discriminate.
Qed.

Lemma head_or_err_ok (s : Shard DB) : store_ok (db s) -> exists r s',
  head_or_err wall key s = Ret (r, s') /\ db s' = db s /\ forall bh, r = Ok bh -> bh_state bh = hs.
Proof.
  intros [_ Hh]. unfold head_at in Hh. unfold head_or_err, mbind, M_bind, now_ms, get_raw, reads, mret, M_ret. cbn [rust_bind fst snd db].
  destruct (shows_string _ _); [do 2 eexists; split_and!; [reflexivity|reflexivity|discriminate]|]. cbn [rust_bind fst snd db].
  do 2 eexists. split_and!; [reflexivity|reflexivity|]. intros bh.
  change (option_bind ?A ?B ?f ?x) with (x ≫= f).
  destruct (kv_get (db s) (head_key key) ≫= Envelope_decode) as [[env pay]|]; [|discriminate].
  destruct (head_decode pay) as [[ct del]|]; [|discriminate]. destruct (_ || _); [discriminate|].
  destruct (negb _); [discriminate|]. rewrite Hh. intros [= <-]. reflexivity.
Qed.

Lemma commit_ops_db ops (s : Shard DB) : exists s', commit_ops ops s = Ret (tt, s') /\ db s' = put_all ops (db s).
Proof. eexists. split; reflexivity. Qed.

(** The state after a transaction body that returned [ops]. *)
Lemma budget_txn_ok {T} (f : M DB (result (BudgetOps * T))) (s s1 : Shard DB) ops out :
  f s = Ret (Ok (ops, out), s1) ->
  exists s', budget_txn f s = Ret (Ok out, s') /\ db s' = put_all ops (db s1).
Proof.
  intros Hf. unfold budget_txn, mbind, M_bind. rewrite Hf. cbn [rust_bind fst snd].
  eexists. split; reflexivity.
Qed.
Lemma budget_txn_err {T} (f : M DB (result (BudgetOps * T))) (s s1 : Shard DB) e :
  f s = Ret (Err e, s1) -> budget_txn f s = Ret (Err e, s1).
Proof. intros Hf. unfold budget_txn, mbind, M_bind. rewrite Hf. reflexivity. Qed.

(** A sound ledger stays sound when charges only go down and stay covered. *)
Lemma sound_lower w d d' : sound w d -> charged w d' <= charged w d -> charged w d' <= escrowed w d' -> sound w d'.
Proof. intros [_ H2] H3 H4. split; lia. Qed.

Lemma commit_pending w p (s : Shard DB) : sound w (db s) -> pending_ok w (db s) p ->
  pending_charged w (db s) p <= charged w (db s) ->
  exists ops s', into_ops node_id wall p s = Ret (ops, s') /\ db s' = db s /\ Forall record_bytes ops /\
    sound w (put_all ops (db s)).
Proof.
  intros Hs Hp Hle. destruct (into_ops_ok w p s Hp) as (ops & s' & H1 & H2 & H3 & H4 & H5).
  exists ops, s'. split_and!; try assumption. pose proof (po_ledger _ _ _ Hp). apply (sound_lower w (db s)); [assumption|lia|lia].
Qed.

(** Scopes that share a slot are equal. *)
Lemma own_in_same_scope w win e : own_in w (slot_key_for key hs win node_id e) = true ->
  forall k, own_in w k = own_in win k.
Proof.
  intros Hin. assert (slots_prefix key hs w = slots_prefix key hs win) as E.
  { unfold BudgetSafety.own_in in Hin. apply andb_true_iff in Hin as [Hp _]. unfold slots_prefix, slot_key_for in *.
    destruct (hmode hs =? MODE_WINDOW); [|reflexivity]. unfold budget_window_slot_key in Hp.
    apply starts_with_spec in Hp as (r & Hp). rewrite prefixed_app, !prefixed_split in Hp. apply app_inv_head in Hp.
    cbn [app] in Hp. apply (f_equal tail) in Hp. cbn [tail] in Hp. rewrite <- app_assoc in Hp. apply app_inv_head in Hp.
    apply app_inj_1 in Hp as [-> _]; [reflexivity|]. rewrite !length_be_bytes. reflexivity. }
  intros k. unfold BudgetSafety.own_in. rewrite E. reflexivity.
Qed.

Lemma current_window_ok (s : Shard DB) : exists win s', current_window wall hs s = Ret (win, s') /\ db s' = db s /\
  u64 win /\ (hmode hs =? MODE_WINDOW = false -> win = 0).
Proof.
  unfold current_window. destruct (hmode hs =? MODE_WINDOW); cbn [andb]; [|exists 0, s; auto with marekvs].
  destruct (Z.ltb_spec 0 (period_ms hs)) as [Hp|]; [|exists 0, s; split_and!; auto with marekvs; discriminate].
  unfold mbind, M_bind, hlc_now. destruct (Hlc_now (hlc_word s) (wall (ticks s))) as [hw h] eqn:Eh.
  assert (Hh : u64 h) by (replace h with (Hlc_now (hlc_word s) (wall (ticks s))).2 by (rewrite Eh; reflexivity); auto with marekvs).
  cbn [rust_bind fst snd]. unfold mret, M_ret. do 2 eexists. split_and!; [reflexivity|reflexivity| |discriminate].
  unfold u64, in_range in *. rewrite hlc_phys_div.
  assert (0 <= h / 65536 <= h) by (split; [apply Z.div_pos; lia|apply Z.div_le_upper_bound; lia]).
  split; [apply Z.div_pos; lia|]. apply Z.le_lt_trans with (h / 65536); [|lia].
  apply Z.div_le_upper_bound; [lia|]. nia.
Qed.

Lemma issue_token_total win amount ttl reqid p (s : Shard DB) : exists r s',
  issue_token node_id epoch wall key hs win amount ttl reqid p s = Ret (r, s') /\ (forall e, r = Err e -> db s' = db s).
Proof.
  unfold issue_token, mbind, M_bind. destruct (pending_slot_view p (slot_key_for key hs win node_id epoch) s) as (sl & -> & _).
  cbn [rust_bind fst snd]. unfold checked_add. destruct (_ <? _); [|do 2 eexists; split; [reflexivity|]; reflexivity].
  unfold hlc_now, now_ms. destruct (Hlc_now _ _) as [hw h]. cbn [rust_bind fst snd].
  unfold into_ops, mbind, M_bind.
  match goal with |- context [slot_records _ _ ?l ?s1] => destruct (slot_records_ok l s1) as (ops & s' & -> & _) end.
  cbn [rust_bind fst snd]. do 2 eexists. split; [reflexivity|discriminate].
Qed.

(** What an operation guarantees: it returns, keeps the store well formed,
    and keeps every window from [lo] and its own window [win] on sound. *)
Definition keeps_sound {T} (lo win : Z) (m : rust (T * Shard DB)) : Prop :=
  exists r s', m = Ret (r, s') /\ store_ok (db s') /\ forall w, lo <= w -> win <= w -> u64 w -> sound w (db s').

Lemma keeps_sound_same {T} lo win (m : rust (T * Shard DB)) r (s s' : Shard DB) :
  m = Ret (r, s') -> db s' = db s -> store_ok (db s) -> (forall w, lo <= w -> u64 w -> sound w (db s)) -> keeps_sound lo win m.
Proof.
  intros -> Hdb Hst Hs. exists r, s'. rewrite Hdb. auto.
Qed.

(** The end of a grant: headroom check, then issue or give up. *)
Definition grant_tail (win amount ttl reqid : Z) (p : PendingOps) : M DB (result (BudgetOps * BudgetGrant)) :=
  outstanding ← own_outstanding node_id key hs win p;
  if alloc_for hs node_id <? outstanding + amount then
    if pending_empty p then mret (Err Exhausted)
    else ops ← into_ops node_id wall p; _ ← commit_ops ops; mret (Err Exhausted)
  else issue_token node_id epoch wall key hs win amount ttl reqid p.

Lemma issue_sound w win amount ttl reqid p (s s' : Shard DB) ops g :
  store_ok (db s) -> sound w (db s) -> pending_ok w (db s) p -> pending_charged w (db s) p <= charged w (db s) ->
  u64 amount -> u64 win -> u64 reqid ->
  msum (slot_out node_id key hs win) (slot_view (db s) p) + amount <= alloc_for hs node_id ->
  issue_token node_id epoch wall key hs win amount ttl reqid p s = Ret (Ok (ops, g), s') ->
  db s' = db s /\ Forall record_bytes ops /\ sound w (put_all ops (db s)).
Proof.
  intros [Hb _] [S1 S2] Hp Hle Ha Hw Hr Hroom Hi.
  destruct (issue_token_ok w win amount ttl reqid p s ops g s') as (I1 & I2 & I3 & I4 & I5 & _); try assumption.
  split_and!; [assumption|assumption|]. split; [assumption|].
  destruct (own_in w (slot_key_for key hs win node_id epoch)) eqn:E.
  - rewrite (I4 eq_refl) in I3. pose proof (escrowed_le_outstanding w (db s) p) as Hout.
    assert (msum (slot_out node_id key hs w) (slot_view (db s) p) = msum (slot_out node_id key hs win) (slot_view (db s) p)) as Heq.
    { apply msum_ext. intros k x _. unfold slot_out. rewrite (own_in_same_scope w win epoch E). reflexivity. }
    lia.
  - specialize (I5 eq_refl). lia.
Qed.

Lemma grant_tail_ok lo win amount ttl reqid p (s : Shard DB) :
  store_ok (db s) -> u64 lo -> u64 win -> u64 amount -> u64 reqid ->
  (forall w, lo <= w -> win <= w -> u64 w ->
     sound w (db s) /\ pending_ok w (db s) p /\ pending_charged w (db s) p <= charged w (db s)) ->
  keeps_sound lo win (budget_txn (grant_tail win amount ttl reqid p) s).
Proof.
  intros Hst Hlo Hwin Ha Hr Hall.
  assert (Hunch : forall s', db s' = db s -> store_ok (db s') /\ forall w, lo <= w -> win <= w -> u64 w -> sound w (db s')).
  { intros s' ->. split; [assumption|]. intros w Hw1 Hw2 Hw3. apply (Hall w Hw1 Hw2 Hw3). }
  destruct (Hall (Z.max lo win)) as (S0 & P0 & L0); [lia|lia|unfold u64, in_range in *; lia|].
  assert (Htail : grant_tail win amount ttl reqid p s =
    (if alloc_for hs node_id <? msum (slot_out node_id key hs win) (slot_view (db s) p) + amount then
       if pending_empty p then mret (Err Exhausted)
       else ops ← into_ops node_id wall p; _ ← commit_ops ops; mret (Err Exhausted)
     else issue_token node_id epoch wall key hs win amount ttl reqid p) s).
  { unfold grant_tail. unfold mbind at 1, M_bind at 1. rewrite own_outstanding_eq by apply Hst. reflexivity. }
  destruct (Z.ltb_spec (alloc_for hs node_id) (msum (slot_out node_id key hs win) (slot_view (db s) p) + amount)) as [|Hroom].
  - destruct (pending_empty p).
    { do 2 eexists. split; [apply budget_txn_err; rewrite Htail; reflexivity|].
      destruct (Hunch s eq_refl) as [U1 U2]. split; assumption. }
    destruct (commit_pending (Z.max lo win) p s S0 P0 L0) as (ops & s1 & Hio & Hdb & Hob & _).
    do 2 eexists. split.
    { apply budget_txn_err. rewrite Htail. unfold mbind, M_bind. rewrite Hio. cbn [rust_bind fst snd]. reflexivity. }
    cbn [db]. rewrite Hdb. split; [apply store_ok_put_all; assumption|].
    intros w Hw1 Hw2 Hw3. destruct (Hall w Hw1 Hw2 Hw3) as (Sw & Pw & Lw).
    destruct (commit_pending w p s Sw Pw Lw) as (ops' & s1' & Hio' & _ & _ & Hsound). rewrite Hio in Hio'. injection Hio' as <- <-. exact Hsound.
  - destruct (issue_token_total win amount ttl reqid p s) as (r & s1 & Hi & Herr). rewrite <- Htail in Hi.
    destruct r as [e|[ops g]].
    + do 2 eexists. split; [apply budget_txn_err; exact Hi|].
      destruct (Hunch s1 (Herr e eq_refl)) as [U1 U2]. split; assumption.
    + rewrite Htail in Hi.
      destruct (budget_txn_ok (grant_tail win amount ttl reqid p) s s1 ops g) as (s2 & Ht & Hdb2); [rewrite Htail; exact Hi|].
      do 2 eexists. split; [exact Ht|]. rewrite Hdb2.
      destruct (issue_sound (Z.max lo win) win amount ttl reqid p s s1 ops g) as (I1 & I2 & _); try assumption.
      rewrite I1. split; [apply store_ok_put_all; assumption|].
      intros w Hw1 Hw2 Hw3. destruct (Hall w Hw1 Hw2 Hw3) as (Sw & Pw & Lw).
      destruct (issue_sound w win amount ttl reqid p s s1 ops g) as (_ & _ & Hsw); assumption.
Qed.

Lemma keeps_sound_eq {T} lo win (m m' : rust (T * Shard DB)) : m = m' -> keeps_sound lo win m' -> keeps_sound lo win m.
Proof. intros ->. exact id. Qed.

Lemma run_bind {A B} (m : M DB A) (f : A -> M DB B) (s s' : Shard DB) a : m s = Ret (a, s') -> (m ≫= f) s = f a s'.
Proof. intros E. unfold mbind, M_bind. rewrite E. reflexivity. Qed.

Lemma budget_txn_ext {T} (f g : M DB (result (BudgetOps * T))) (s s' : Shard DB) :
  f s = g s' -> budget_txn f s = budget_txn g s'.
Proof. intros E. unfold budget_txn, mbind, M_bind. rewrite E. reflexivity. Qed.

(** A grant either stops at a guard or reclaims, collects old windows and
    goes on to the headroom check. *)
Lemma grant_local_cases cfg amount ttl_ms reqid (s : Shard DB) : store_ok (db s) ->
  exists s0, db s0 = db s /\
    ((exists e, grant_local node_id epoch wall cfg key amount ttl_ms reqid s = Ret (Err e, s0)) \/
     (exists r, head_or_err wall key s = Ret (r, s0)) /\
     grant_local node_id epoch wall cfg key amount ttl_ms reqid s =
      (pending ← fold_expired_own node_id wall key hs (cfg_grace_ms cfg) FOLD_BATCH pending_new;
       win ← current_window wall hs;
       pending ← gc_old_windows node_id wall key hs (grant_max_ttl cfg hs) (cfg_grace_ms cfg) win FOLD_BATCH pending;
       grant_tail win amount (grant_ttl cfg hs ttl_ms) reqid pending) s0).
Proof.
  intros Hst. destruct (head_or_err_ok s Hst) as (r & s0 & Hh & Hdb0 & Hbh). exists s0. split; [exact Hdb0|].
  unfold grant_local. rewrite (run_bind _ _ _ _ _ Hh).
  destruct r as [e|bh]; [left; eexists; reflexivity|]. rewrite (Hbh bh eq_refl).
  destruct (is_fenced hs node_id); [left; eexists; reflexivity|].
  destruct (amount =? 0); [left; eexists; reflexivity|].
  destruct (_ <? _); [left; eexists; reflexivity|].
  destruct (_ || _); [left; eexists; reflexivity|]. right. split; [eexists; exact Hh|reflexivity].
Qed.

(** Reclaiming and window collection, at every window at once. *)
Lemma prepare_ok lo mt grace (s0 : Shard DB) : store_ok (db s0) -> u64 lo -> (forall w, lo <= w -> u64 w -> sound w (db s0)) ->
  exists p s1 win s2 p' s3,
    fold_expired_own node_id wall key hs grace FOLD_BATCH pending_new s0 = Ret (p, s1) /\
    current_window wall hs s1 = Ret (win, s2) /\ u64 win /\
    gc_old_windows node_id wall key hs mt grace win FOLD_BATCH p s2 = Ret (p', s3) /\ db s3 = db s0 /\
    forall w, lo <= w -> win <= w -> u64 w ->
      pending_ok w (db s0) p' /\ pending_charged w (db s0) p' <= charged w (db s0).
Proof.
  intros Hst Hlo Hall.
  destruct (fold_expired_own_ok lo s0 grace FOLD_BATCH) as (p & s1 & Hf & Hdb1 & _);
    [apply Hst|apply Hst|apply Hall; [lia|assumption]|].
  destruct (current_window_ok s1) as (win & s2 & Hw & Hdb2 & Hwin & Hpool).
  assert (Hone : forall w, lo <= w -> win <= w -> u64 w -> exists p' s3,
    gc_old_windows node_id wall key hs mt grace win FOLD_BATCH p s2 = Ret (p', s3) /\ db s3 = db s0 /\
    pending_ok w (db s0) p' /\ pending_charged w (db s0) p' <= charged w (db s0)).
  { intros w Hl Hww Hw64. destruct (fold_expired_own_ok w s0 grace FOLD_BATCH) as (pw & sw & Hfw & _ & Pw & Cw);
      [apply Hst|apply Hst|apply Hall; assumption|]. rewrite Hf in Hfw. injection Hfw as <- <-.
    assert (db s2 = db s0) as E2 by congruence. rewrite <- E2 in *.
    destruct (gc_old_windows_ok w win mt grace FOLD_BATCH p s2) as (p' & s3 & G1 & G2 & G3 & G4); try assumption; [apply Hst|].
    exists p', s3. split_and!; try assumption. lia. }
  destruct (Hone (Z.max lo win)) as (p' & s3 & Hg & Hdb3 & _); [lia|lia|unfold u64, in_range in *; lia|].
  exists p, s1, win, s2, p', s3. split_and!; try assumption. intros w Hl Hww Hw64.
  destruct (Hone w Hl Hww Hw64) as (p'' & s3' & G1' & _ & G3 & G4). rewrite Hg in G1'. injection G1' as <- <-. auto.
Qed.

Lemma clocked_grant_tail win amount ttl reqid p : (forall n, 0 <= wall n < 2 ^ 47) ->
  clocked (grant_tail win amount ttl reqid p).
Proof.
  intros Hwall. unfold grant_tail. apply clocked_bind; [auto with clocked|]. intros o.
  destruct (_ <? _); [destruct (pending_empty p)|]; auto 8 with clocked.
Qed.

(** A grant keeps the ledger sound. *)
Lemma grant_ok cfg lo amount ttl_ms reqid (s : Shard DB) : (forall n, 0 <= wall n < 2 ^ 47) ->
  store_ok (db s) -> u64 lo -> u64 amount -> u64 reqid -> (forall w, lo <= w -> u64 w -> sound w (db s)) ->
  exists win, keeps_sound lo win (budget_txn (grant_local node_id epoch wall cfg key amount ttl_ms reqid) s) /\ u64 win /\
    forall r s', budget_txn (grant_local node_id epoch wall cfg key amount ttl_ms reqid) s = Ret (r, s') ->
      clock_ok s -> few_ticks s' -> win = 0 \/ win <= window_floor hs s'.
Proof.
  intros Hwall Hst Hlo Ha Hr Hall. destruct (grant_local_cases cfg amount ttl_ms reqid s Hst) as (s0 & Hdb0 & [[e He]|[Hh Hrun]]).
  { exists 0. split_and!; [|auto with marekvs|auto].
    eapply keeps_sound_same; [apply budget_txn_err, He|exact Hdb0|exact Hst|exact Hall]. }
  rewrite <- Hdb0 in Hst, Hall.
  destruct (prepare_ok lo (grant_max_ttl cfg hs) (cfg_grace_ms cfg) s0 Hst Hlo Hall)
    as (p & s1 & win & s2 & p' & s3 & Hf & Hw & Hwin & Hg & Hdb3 & Hp).
  rewrite (run_bind _ _ _ _ _ Hf), (run_bind _ _ _ _ _ Hw), (run_bind _ _ _ _ _ Hg) in Hrun.
  exists win. rewrite (budget_txn_ext _ _ s s3 Hrun). split_and!; [|assumption|].
  - apply grant_tail_ok; try assumption; rewrite Hdb3; [exact Hst|]. intros w Hl Hww Hw64.
    destruct (Hp w Hl Hww Hw64) as [P1 P2]. split_and!; auto.
  - intros r s' Hend Hc Hn. right. rewrite (current_window_floor _ _ _ _ _ Hw).
    destruct Hh as (rh & Hh). destruct (clocked_head wall key s _ _ Hh) as [T0 C0].
    destruct (clocked_fold_expired node_id wall Hwall key hs _ _ _ s0 _ _ Hf) as [T1 C1].
    destruct (clocked_window wall Hwall hs s1 _ _ Hw) as [T2 C2].
    destruct (clocked_gc node_id wall Hwall key hs _ _ _ _ _ s2 _ _ Hg) as [T3 C3].
    pose proof (clocked_txn _ (clocked_grant_tail win amount (grant_ttl cfg hs ttl_ms) reqid p' Hwall)) as Ht.
    destruct (Ht s3 _ _ Hend) as [T4 C4]. unfold few_ticks in *.
    destruct (C0 Hc) as [D0 _]; [lia|]. destruct (C1 D0) as [D1 _]; [lia|]. destruct (C2 D1) as [D2 _]; [lia|].
    destruct (C3 D2) as [D3 L3]; [lia|]. destruct (C4 D3) as [D4 L4]; [lia|].
    apply window_floor_mono; [apply D2|lia].
Qed.

(** ** Closing *)

(** An open own token in the store. *)
Record open_token (d : DB) (tid : TokenId) (st : TokenState) (v : bytes) : Prop := {
  ot_gen : tk_gen tid = hgen hs;
  ot_node : tk_node tid = node_id;
  ot_epoch : u64 (tk_epoch tid);
  ot_get : kv_get d (budget_token_key key (tk_gen tid) (tk_hlc tid) (tk_node tid) (tk_epoch tid)) = Some v;
  ot_record : token_of_record v = Some st;
  ot_open : rank st < RANK_FOLDED;
}.

Lemma open_own_token d tid st v : open_token d tid st v ->
  own_token (budget_token_key key (tk_gen tid) (tk_hlc tid) (tk_node tid) (tk_epoch tid)) = Some (tk_epoch tid).
Proof. intros [-> -> He _ _ _]. apply own_token_key; assumption. Qed.

(** A pending change, the same at every window, committed as one transaction. *)
Lemma commit_keeps_sound {T} lo (f : M DB (result (BudgetOps * T))) p (out : T) (s s1 : Shard DB) :
  store_ok (db s) -> u64 lo -> (forall w, lo <= w -> u64 w -> sound w (db s)) -> db s1 = db s ->
  f s = (ops ← into_ops node_id wall p; mret (Ok (ops, out))) s1 ->
  (forall w, lo <= w -> u64 w -> pending_ok w (db s) p /\ pending_charged w (db s) p <= charged w (db s)) ->
  keeps_sound lo 0 (budget_txn f s).
Proof.
  intros Hst Hlo Hall Hdb Hf Hp. rewrite <- Hdb in *.
  destruct (Hp lo ltac:(lia) Hlo) as [P0 L0].
  destruct (commit_pending lo p s1 (Hall lo ltac:(lia) Hlo) P0 L0) as (ops & s2 & Hio & Hdb2 & Hob & _).
  rewrite (run_bind _ _ _ _ _ Hio) in Hf. apply budget_txn_ok in Hf as (s3 & Ht & Hdb3).
  do 2 eexists. split; [exact Ht|]. rewrite Hdb3, Hdb2.
  split; [apply store_ok_put_all; assumption|].
  intros w Hl _ Hw. destruct (Hp w Hl Hw) as [Pw Lw].
  destruct (commit_pending w p s1 (Hall w Hl Hw) Pw Lw) as (ops' & s2' & Hio' & _ & _ & Hs).
  rewrite Hio in Hio'. injection Hio' as <- <-. exact Hs.
Qed.

Lemma fold_and_return_ok lo tid st v state sp out (s : Shard DB) :
  store_ok (db s) -> u64 lo -> (forall w, lo <= w -> u64 w -> sound w (db s)) ->
  open_token (db s) tid st v -> u64 sp -> u8 state ->
  keeps_sound lo 0 (budget_txn (fold_and_return node_id wall key hs
    (budget_token_key key (tk_gen tid) (tk_hlc tid) (tk_node tid) (tk_epoch tid)) tid st state sp out) s).
Proof.
  intros Hst Hlo Hall Ho Hsp Hstate. pose proof (open_own_token _ _ _ _ Ho) as Hown.
  destruct Ho as [Eg En He Hg Hr Hopen]. destruct Hst as [[Hkk Hvb] Hh].
  set (tk := budget_token_key key (tk_gen tid) (tk_hlc tid) (tk_node tid) (tk_epoch tid)) in *.
  assert (Hone : forall w, lo <= w -> u64 w -> exists p r s',
    fold_token node_id wall key hs tk node_id (tk_epoch tid) st state sp pending_new s =
      Ret ((amount st - Z.min sp (amount st), p), s') /\ db s' = db s /\ pending_ok w (db s) p /\
    p_other p = p_other pending_new ++ [(tk, r)] /\ pending_charged w (db s) p <= pending_charged w (db s) pending_new).
  { intros w Hl Hw. eapply (fold_token_ok w s pending_new tk (tk_epoch tid) st state sp v); try assumption.
    - apply pending_new_ok, Hall; assumption.
    - unfold tk. apply token_key_bytes. assumption.
    - eapply token_of_record_ok; [eapply Hvb; exact Hg|exact Hr]. }
  destruct (Hone lo ltac:(lia) Hlo) as (p & r & s1 & Hf & Hdb & _).
  eapply (commit_keeps_sound lo _ p (out (amount st - Z.min sp (amount st))) s s1); try assumption; [split; [split|]; assumption| |].
  - unfold fold_and_return. rewrite En, (run_bind _ _ _ _ _ Hf). reflexivity.
  - intros w Hl Hw. destruct (Hone w Hl Hw) as (p' & r' & s1' & Hf' & _ & P1 & _ & P2). rewrite Hf in Hf'.
    injection Hf' as <- <-. split; assumption.
Qed.

(** Drawing changes the spend of an open token, not its charge. *)
Lemma draw_ok lo tid st v sp h (out : result Z) f (s s1 : Shard DB) :
  store_ok (db s) -> u64 lo -> (forall w, lo <= w -> u64 w -> sound w (db s)) -> db s1 = db s ->
  open_token (db s) tid st v -> u64 sp -> u64 h ->
  let st' := mkToken (rank st) (tstate st) (amount st) sp (credited st) (deadline_ms st) (window st) (reqid st) in
  f s = (ops ← into_ops node_id wall (push_other pending_new
           (budget_token_key key (tk_gen tid) (tk_hlc tid) (tk_node tid) (tk_epoch tid)) (encode_token_record (h, node_id) 0 st'));
         mret (Ok (ops, out))) s1 ->
  keeps_sound lo 0 (budget_txn f s).
Proof.
  intros Hst Hlo Hall Hdb Ho Hsp Hh st' Hf. pose proof (open_own_token _ _ _ _ Ho) as Hown.
  eapply commit_keeps_sound; try eassumption. destruct Ho as [Eg En He Hg Hr Hopen].
  set (tk := budget_token_key key (tk_gen tid) (tk_hlc tid) (tk_node tid) (tk_epoch tid)) in *.
  assert (Hst' : token_state_ok st').
  { destruct (token_of_record_ok v st) as []; [eapply Hst; exact Hg|exact Hr|]. split; assumption. }
  intros w Hl Hw. destruct (Hall w Hl Hw) as [S1 S2].
  assert (Hch : pending_charged w (db s) (push_other pending_new tk (encode_token_record (h, node_id) 0 st')) = charged w (db s)).
  { rewrite pending_charged_push. cbn [p_other pending_new put_all fold_left]. rewrite Hg. cbn [contrib].
    rewrite (token_charge_put w tk _ st v Hown Hr), (token_charge_put w tk _ st' _ Hown) by (apply token_of_encoded; assumption).
    assert (charge st' = charge st) as ->.
    { unfold charge. cbn [rank amount st']. destruct (Z.leb_spec RANK_FOLDED (rank st)); [lia|reflexivity]. }
    change (pending_charged w (db s) pending_new) with (charged w (db s)). change (window st') with (window st). lia. }
  split; [|lia]. destruct (pending_new_ok w (db s) S1) as [P1 P2 P3 P4]. split.
  - apply Forall_singleton. eapply own_token_not_in; eassumption.
  - apply Forall_singleton. split; [apply token_key_bytes; assumption|apply token_record_bytes; assumption].
  - exact P3.
  - rewrite Hch. exact P4.
Qed.

Definition close_op_ok (op : CloseOp) : Prop :=
  match op with Draw n => u64 n | Commit (Some n) => u64 n | _ => True end.

(** What a close does: refuse, fold its open token, or record a draw. *)
Inductive close_case (f : M DB (result (BudgetOps * result Z))) (tid : TokenId) (s : Shard DB) : Prop :=
  | close_refuse e s1 : f s = Ret (Err e, s1) -> db s1 = db s -> close_case f tid s
  | close_fold st v state sp out s1 : db s1 = db s -> open_token (db s1) tid st v -> u64 sp -> u8 state ->
      f s = fold_and_return node_id wall key hs
              (budget_token_key key (tk_gen tid) (tk_hlc tid) (tk_node tid) (tk_epoch tid)) tid st state sp out s1 ->
      close_case f tid s
  | close_draw st v sp h out s1 : db s1 = db s -> open_token (db s1) tid st v -> u64 sp -> u64 h ->
      f s = (ops ← into_ops node_id wall (push_other pending_new
               (budget_token_key key (tk_gen tid) (tk_hlc tid) (tk_node tid) (tk_epoch tid))
               (encode_token_record (h, node_id) 0
                 (mkToken (rank st) (tstate st) (amount st) sp (credited st) (deadline_ms st) (window st) (reqid st))));
             mret (Ok (ops, out))) s1 ->
      close_case f tid s.

Lemma close_states_u8 : u8 STATE_EXPIRED /\ u8 STATE_COMMITTED /\ u8 STATE_RELEASED.
Proof. unfold u8, in_range, STATE_EXPIRED, STATE_COMMITTED, STATE_RELEASED. lia. Qed.

Lemma close_local_cases tid op (s : Shard DB) :
  store_ok (db s) -> tk_node tid = node_id -> u64 (tk_epoch tid) -> close_op_ok op ->
  close_case (close_local node_id wall key tid op) tid s.
Proof.
  intros Hst En He Hop. destruct (head_or_err_ok s Hst) as (r & s0 & Hh & Hdb0 & Hbh).
  set (f := close_local node_id wall key tid op).
  assert (Hf : f s = close_local node_id wall key tid op s) by reflexivity.
  unfold close_local in Hf. rewrite (run_bind _ _ _ _ _ Hh) in Hf.
  destruct r as [e|bh]; [eapply close_refuse; [exact Hf|exact Hdb0]|]. cbv zeta in Hf. rewrite (Hbh bh eq_refl) in Hf.
  destruct (Z.eqb_spec (hgen hs) (tk_gen tid)) as [Eg|]; cbn [negb] in Hf; [|eapply close_refuse; [exact Hf|exact Hdb0]].
  set (tk := budget_token_key key (tk_gen tid) (tk_hlc tid) (tk_node tid) (tk_epoch tid)) in *.
  unfold get_raw at 1, reads at 1 in Hf. unfold mbind at 1, M_bind at 1 in Hf. cbn [rust_bind fst snd] in Hf.
  destruct (kv_get (db s0) tk) as [v|] eqn:Hg; [|eapply close_refuse; [exact Hf|exact Hdb0]].
  change (Some v ≫= Envelope_decode) with (Envelope_decode v) in Hf.
  destruct (Envelope_decode v) as [[env pay]|] eqn:Ed; [|eapply close_refuse; [exact Hf|exact Hdb0]].
  destruct (TokenState_decode pay) as [st|] eqn:Et; [|eapply close_refuse; [exact Hf|exact Hdb0]].
  destruct (Z.leb_spec RANK_FOLDED (rank st)) as [|Hopen]; [eapply close_refuse; [exact Hf|exact Hdb0]|].
  assert (Hrec : token_of_record v = Some st) by (unfold token_of_record; rewrite Ed; exact Et).
  assert (Htok : open_token (db s0) tid st v) by (split; auto).
  destruct (token_of_record_ok v st) as [_ _ _ T4 _ _ _ _]; [rewrite Hdb0 in Hg; eapply Hst; exact Hg|exact Hrec|].
  destruct close_states_u8 as (U1 & U2 & U3).
  unfold now_ms at 1 in Hf. unfold mbind at 1, M_bind at 1 in Hf. cbn [rust_bind fst snd] in Hf.
  destruct (_ <? _); [eapply close_fold; [..|exact Hf]; [exact Hdb0|exact Htok|exact T4|exact U1]|].
  destruct op as [[sp|]| |n]; [| |eapply close_fold; [..|exact Hf]; [exact Hdb0|exact Htok|exact T4|exact U3]|].
  1,2: cbn [default] in Hf; do 2 (destruct (_ <? _); [eapply close_refuse; [exact Hf|exact Hdb0]|]);
    eapply close_fold; [..|exact Hf]; [exact Hdb0|exact Htok|assumption|exact U2].
  destruct (n =? 0); [eapply close_refuse; [exact Hf|exact Hdb0]|]. unfold checked_add in Hf.
  destruct (Z.ltb_spec (spent st + n) (2 ^ 64)) as [Hfit|]; [|eapply close_refuse; [exact Hf|exact Hdb0]].
  destruct (_ <? _); [eapply close_refuse; [exact Hf|exact Hdb0]|].
  unfold hlc_now in Hf. unfold mbind at 1, M_bind at 1 in Hf.
  match type of Hf with context [Hlc_now ?a ?b] => pose proof (Hlc_now_u64 a b) as Hh64; destruct (Hlc_now a b) as [hw h] end.
  cbn [rust_bind fst snd] in Hf.
  eapply close_draw; [..|exact Hf]; [exact Hdb0|exact Htok| |exact Hh64]. unfold close_op_ok, u64, in_range in *. lia.
Qed.

Lemma close_ok lo tid op (s : Shard DB) :
  store_ok (db s) -> u64 lo -> (forall w, lo <= w -> u64 w -> sound w (db s)) ->
  tk_node tid = node_id -> u64 (tk_epoch tid) -> close_op_ok op ->
  keeps_sound lo 0 (budget_txn (close_local node_id wall key tid op) s).
Proof.
  intros Hst Hlo Hall En He Hop.
  destruct (close_local_cases tid op s Hst En He Hop) as [e s1 Hf Hdb|st v state sp out s1 Hdb Ht Hsp Hs Hf|st v sp h out s1 Hdb Ht Hsp Hh Hf].
  - eapply keeps_sound_same; [apply budget_txn_err, Hf|exact Hdb|exact Hst|exact Hall].
  - rewrite (budget_txn_ext _ _ s s1 Hf). rewrite <- Hdb in Hst, Hall. eapply fold_and_return_ok; eassumption.
  - rewrite Hdb in Ht. apply (draw_ok lo tid st v sp h out _ s s1); assumption.
Qed.
End effect.

(** ** Runs of one node *)

Inductive BudgetOp :=
  (** BG.RESERVE in the process incarnation [epoch]; epochs change over restarts. *)
  | OpReserve (epoch : Z) (cfg : GrantCfg) (amount : Z) (ttl_ms : option Z) (reqid : Z)
  (** BG.COMMIT, BG.RELEASE or BG.DRAW of a token of this node. *)
  | OpClose (tid : TokenId) (op : CloseOp)
  (** A record of another node or another key, stored by replication. *)
  | OpReplicated (k v : bytes).

Section runs.
Context {DB : Type} `{KVLaws DB}.
Context (node_id : Z) (wall : nat -> Z) (key : bytes) (hs : HeadState).

Definition run_budget_op (o : BudgetOp) : M DB unit :=
  match o with
  | OpReserve epoch cfg amount ttl_ms reqid =>
      _ ← budget_txn (grant_local node_id epoch wall cfg key amount ttl_ms reqid); mret tt
  | OpClose tid op => _ ← budget_txn (close_local node_id wall key tid op); mret tt
  | OpReplicated k v => put_raw k v
  end.

Fixpoint run_budget (ops : list BudgetOp) : M DB unit :=
  match ops with
  | [] => mret tt
  | o :: ops => _ ← run_budget_op o; run_budget ops
  end.

(** A record that is neither the head nor an own slot or token of the budget. *)
Definition foreign_key (k : bytes) : Prop :=
  (forall w, own_in node_id key hs w k = false) /\ own_token node_id key hs k = None /\ is_bytes k /\ k <> head_key key.

Definition budget_op_ok (o : BudgetOp) : Prop :=
  match o with
  | OpReserve epoch _ amount _ reqid => u64 epoch /\ u64 amount /\ u64 reqid
  | OpClose tid op => tk_node tid = node_id /\ u64 (tk_epoch tid) /\ close_op_ok op
  | OpReplicated k v => foreign_key k /\ is_bytes v
  end.

Context (Hnode : u16 node_id) (Hkey : slice_len_ok key) (Hkb : is_bytes key) (Hgen : u64 (hgen hs)).
Context (Hwall : forall n, 0 <= wall n < 2 ^ 47).

Lemma replicated_ok w k v (d : DB) : foreign_key k -> sound node_id key hs w d -> sound node_id key hs w (kv_put d k v).
Proof.
  intros (Hin & Ht & _) [S1 S2]. specialize (Hin w).
  assert (E1 : charged node_id key hs w (kv_put d k v) = charged node_id key hs w d).
  { unfold charged. rewrite kvmap_put, msum_insert. rewrite contrib_not_token by assumption.
    rewrite token_charge_none by assumption. lia. }
  assert (E2 : escrowed node_id key hs w (kv_put d k v) = escrowed node_id key hs w d).
  { unfold escrowed. rewrite kvmap_put, msum_insert, kvmap_lookup.
    destruct (kv_get d k); cbn [contrib]; unfold slot_net; rewrite ?Hin; lia. }
  unfold sound. rewrite E1, E2. auto.
Qed.

(** The state of a run: sound from a window the clock has not passed on. *)
Definition run_inv (lo : Z) (s : Shard DB) : Prop :=
  store_ok key hs (db s) /\ u64 lo /\ (forall w, lo <= w -> u64 w -> sound node_id key hs w (db s)) /\
  (few_ticks s -> clock_ok s /\ (lo = 0 \/ lo <= window_floor hs s)).

Lemma replicated_store_ok k v (d : DB) : foreign_key k -> is_bytes v -> store_ok key hs d -> store_ok key hs (kv_put d k v).
Proof.
  intros (_ & _ & Hk & Hne) Hv [[K1 K2] Hh]. split.
  - split; intros k' v'; rewrite kv_get_put; unfold bytes_eqb; case_bool_decide as E; intros Hg; subst; eauto; congruence.
  - unfold head_at in *. rewrite kv_get_put. unfold bytes_eqb. rewrite bool_decide_eq_false_2 by assumption. exact Hh.
Qed.

Lemma clocked_op o : clocked (run_budget_op o).
Proof.
  destruct o as [epoch cfg a t r|tid op|k v]; cbn [run_budget_op]; [| |apply clocked_writes];
    (apply clocked_bind; [auto with clocked|intros ?; apply clocked_ret]).
Qed.

Lemma run_budget_op_ok lo o (s : Shard DB) : budget_op_ok o -> run_inv lo s ->
  exists s' lo', run_budget_op o s = Ret (tt, s') /\ run_inv lo' s'.
Proof.
  intros Ho (Hst & Hlo & Hall & Hclk).
  assert (Hstep : exists s' win, run_budget_op o s = Ret (tt, s') /\ u64 win /\ store_ok key hs (db s') /\
    (forall w, lo <= w -> win <= w -> u64 w -> sound node_id key hs w (db s')) /\
    (clock_ok s -> few_ticks s' -> win = 0 \/ win <= window_floor hs s')).
  { destruct o as [epoch cfg a t r|tid op|k v]; cbn [run_budget_op].
    - destruct Ho as (He & Ha & Hr).
      destruct (grant_ok node_id epoch wall key hs Hnode He Hkey Hkb Hgen cfg lo a t r s) as (win & (o & s' & Hg & Hst' & Hs) & Hw & Hfl);
        try assumption.
      exists s', win. rewrite (run_bind _ _ _ _ _ Hg). split_and!; try assumption; [reflexivity|]. apply (Hfl _ _ Hg).
    - destruct Ho as (He & Ha & Hop).
      destruct (close_ok node_id 0 wall key hs Hnode u64_0 Hkey Hkb Hgen lo tid op s) as (o & s' & Hg & Hst' & Hs); try assumption.
      exists s', 0. rewrite (run_bind _ _ _ _ _ Hg). split_and!; try assumption; auto with marekvs.
    - destruct Ho as (Hf & Hv). do 2 eexists. split; [reflexivity|]. cbn [db].
      split_and!; [apply u64_0|apply replicated_store_ok; assumption| |auto].
      intros w Hl _ Hw. apply replicated_ok; auto. }
  destruct Hstep as (s' & win & Hr & Hw & Hst' & Hs & Hfl). exists s', (Z.max lo win). split; [exact Hr|].
  destruct (clocked_op o s tt s' Hr) as [Ht Hcl].
  split_and!; [assumption|unfold u64, in_range in *; lia|intros w Hl; apply Hs; lia|].
  intros Hn. destruct Hclk as [Hc Hfloor]; [unfold few_ticks in *; lia|]. destruct (Hcl Hc Hn) as [Hc' Hle]. split; [exact Hc'|].
  pose proof (window_floor_mono hs s s' (proj1 Hc) Hle). specialize (Hfl Hc Hn). unfold u64, in_range in *. lia.
Qed.

Lemma run_budget_ok ops : forall lo (s : Shard DB), Forall budget_op_ok ops -> run_inv lo s ->
  exists s' lo', run_budget ops s = Ret (tt, s') /\ run_inv lo' s'.
Proof.
  induction ops as [|o ops IH]; intros lo s Hops Hi; [exists s, lo; split; [reflexivity|exact Hi]|].
  invert Hops. destruct (run_budget_op_ok lo o s) as (s1 & lo1 & Hr & Hi1); try assumption.
  destruct (IH lo1 s1) as (s' & lo' & Hr' & Hi'); try assumption. exists s', lo'. split; [|exact Hi'].
  cbn [run_budget]. rewrite (run_bind _ _ _ _ _ Hr). exact Hr'.
Qed.

(** The node is ready to serve: a well-formed store with the head, a clock
    word not ahead of its readings, and a sound ledger. *)
Definition budget_ready (s : Shard DB) : Prop :=
  store_ok key hs (db s) /\ clock_ok s /\ forall w, u64 w -> sound node_id key hs w (db s).

Lemma run_sound ops (s : Shard DB) : budget_ready s -> Forall budget_op_ok ops ->
  exists s', run_budget ops s = Ret (tt, s') /\
    (few_ticks s' -> forall w, u64 w -> window_floor hs s' <= w -> sound node_id key hs w (db s')).
Proof.
  intros (Hst & Hc & Hs) Hops. destruct (run_budget_ok ops 0 s) as (s' & lo & Hr & _ & _ & Hall & Hcl); [assumption| |].
  { split_and!; auto with marekvs. }
  exists s'. split; [exact Hr|]. intros Hn w Hw Hfl. destruct (Hcl Hn) as [_ Hlo]. apply Hall; [|assumption].
  unfold u64, in_range in *. lia.
Qed.
End runs.

(** ** No overspend *)

(** A store without records of the budget has an empty, sound ledger. *)
Lemma fresh_sound {DB} `{KVLaws DB} node_id key hs (d : DB) w : Forall entry_ok (alloc hs) ->
  (forall k v, kv_get d k = Some v -> own_token node_id key hs k = None /\ forall w, own_in node_id key hs w k = false) ->
  sound node_id key hs w d.
Proof.
  intros Ha Hd.
  assert (Hz : forall f, (forall k v, kv_get d k = Some v -> f k v = 0) -> msum f (kvmap d) = 0).
  { intros f Hf. rewrite (msum_contrib f (kvmap d) ∅); [reflexivity|]. intros k. rewrite kvmap_lookup, lookup_empty.
    destruct (kv_get d k) as [v|] eqn:E; [apply Hf, E|reflexivity]. }
  unfold sound, charged, escrowed. rewrite !Hz; [|intros k v Hk; destruct (Hd k v Hk) as [H1 H2]..].
  - split; [lia|]. unfold alloc_for. destruct (find _ _) as [e|] eqn:E; [|lia]. apply find_some in E as [E _].
    rewrite Forall_forall in Ha. apply list_elem_of_In, Ha in E as [_ E]. unfold u64, in_range in E. lia.
  - unfold slot_net. rewrite H2. reflexivity.
  - apply token_charge_none. exact H1.
Qed.


Definition ex_head : HeadState := mkHead 1 7 MODE_POOL 0 10 0 0 0 [(1, 6); (2, 4)] [].
Definition ex_budget_key : bytes := [98].
Definition ex_head_bytes : bytes := (head_record 1 ex_budget_key 7 0 ex_head).2.
Definition ex_ready_shard : Shard (gmap bytes bytes) := mkShard {[ head_key ex_budget_key := ex_head_bytes ]} 0 ∅ 0.
Definition ex_cfg : GrantCfg := mkGrantCfg 1000 60000 100.
(** Two reservations, the second beyond the allocation, a partial commit, and a
    reservation of the returned part. *)
Definition ex_ops : list BudgetOp :=
  [ OpReserve 3 ex_cfg 5 None 0; OpReserve 3 ex_cfg 2 None 0;
    OpClose (mkTokenId 7 65536000 1 3) (Commit (Some 2)); OpReserve 3 ex_cfg 4 None 0 ].

Lemma ex_ready node_id : budget_ready node_id ex_budget_key ex_head ex_ready_shard.
Proof.
  assert (Hget : forall k v, kv_get (db ex_ready_shard) k = Some v -> k = head_key ex_budget_key /\ v = ex_head_bytes).
  { intros k v Hk. cbn in Hk. apply lookup_singleton_Some in Hk as [<- <-]. auto. }
  split_and!.
  - split; [split; intros k v [-> ->]%Hget; apply (bool_decide_unpack _); vm_compute; reflexivity|vm_compute; reflexivity].
  - unfold clock_ok. cbn. lia.
  - intros w _. apply fresh_sound.
    + apply (bool_decide_unpack _). vm_compute. reflexivity.
    + intros k v [-> ->]%Hget. split; [reflexivity|intros w'; reflexivity].
Qed.

Lemma few_ticks_run {DB} (r : rust (unit * Shard DB)) s : r = Ret (tt, s) ->
  match r with Ret (_, s) => Z.of_nat (ticks s) <? 2 ^ 62 | Panic => false end = true -> few_ticks s.
Proof. intros ->. apply Z.ltb_lt. Qed.


(** Allocations of distinct nodes add up to at most the total. *)
Definition zsum (f : Z -> Z) (l : list Z) : Z := fold_right (fun n acc => f n + acc) 0 l.

Lemma zsum_le f g l : (forall n, n ∈ l -> f n <= g n) -> zsum f l <= zsum g l.
Proof.
  induction l as [|n l IH]; intros Hfg; cbn; [lia|]. pose proof (Hfg n ltac:(left)).
  assert (zsum f l <= zsum g l) by (apply IH; intros; apply Hfg; right; assumption). unfold zsum in *. lia.
Qed.

Lemma zsum_override f m a l : NoDup l -> 0 <= a -> (forall n, 0 <= f n) ->
  zsum (fun n => if m =? n then a else f n) l <= a + zsum f l.
Proof.
  intros Hnd Ha Hf. induction Hnd as [|n l Hni Hnd IH]; cbn; [lia|]. pose proof (Hf n). destruct (Z.eqb_spec m n) as [->|]; [|unfold zsum in *; lia].
  assert (zsum (fun k => if n =? k then a else f k) l <= zsum f l); [|unfold zsum in *; lia].
  apply zsum_le. intros k Hk. destruct (Z.eqb_spec n k) as [->|]; [contradiction|lia].
Qed.

Lemma alloc_in_nonneg l n : Forall entry_ok l -> 0 <= alloc_in l n.
Proof.
  intros Hl. unfold alloc_in. destruct (find _ _) as [e|] eqn:E; [|lia]. apply find_some in E as [E _].
  rewrite Forall_forall in Hl. apply list_elem_of_In, Hl in E as [_ E]. unfold u64, in_range in E. lia.
Qed.

Lemma alloc_for_sum hs nodes : Forall entry_ok (alloc hs) -> NoDup nodes -> zsum (alloc_for hs) nodes <= alloc_total hs.
Proof.
  intros Ha Hnd. rewrite alloc_total_sum. change (alloc_for hs) with (alloc_in (alloc hs)).
  induction Ha as [|[m a] l [_ Hm] Hl IH].
  - clear. induction nodes; cbn; [lia|]. exact IHnodes.
  - cbn [sum2 fold_right snd]. fold (sum2 l). unfold u64, in_range in Hm. cbn in Hm.
    etrans; [|apply Z.add_le_mono_l, IH]. etrans; [|apply (zsum_override (alloc_in l) m a nodes); try assumption; [lia|]].
    + apply zsum_le. intros n _. unfold alloc_in. cbn. destruct (m =? n); reflexivity || lia.
    + intros n. apply alloc_in_nonneg, Hl.
Qed.


