(* ===== verification/Resp.v ===== *)
(** * The RESP wire protocol

    Models [crates/marekvs-resp/src/lib.rs]: the incremental request parser
    ([RespParser]: [feed], [next_command], compaction) with the framing
    functions it calls, and the integer and header writers of [ReplyBuf].
    Indices into a buffer are [nat]; lengths read from the wire are [i64]
    values, checked against the limits before they are used as lengths.

    The parser re-scans from its head at every call, so its correctness is a
    statement about chunking: whatever the sizes of the socket reads, the
    commands and the error are those of the whole byte stream. *)

From S2P Require Import Prelude.

(** ** Data *)

(** The messages of [RespError::Protocol]. *)
Inductive protocol_msg :=
  | InvalidMultibulkLength
  | ExpectedDollar (got : Z)
  | InvalidBulkLength
  | ExpectedCrlfAfterBulk
  | ExpectedCrlf
  | InvalidInteger
  | IntegerOverflow.

Inductive RespError :=
  | Protocol (m : protocol_msg)
  | TooLarge.

(** [Result<A, RespError>] and its [?] operator. *)
Inductive resp_result (A : Type) :=
  | Ok (a : A)
  | Err (e : RespError).
Arguments Ok {A} a.
Arguments Err {A} e.

Definition resp_bind {A B} (m : resp_result A) (f : A -> resp_result B) : resp_result B :=
  match m with Ok a => f a | Err e => Err e end.
Declare Scope resp_scope.
Delimit Scope resp_scope with resp.
Notation "'let?' x := m 'in' k" := (resp_bind m (fun x => k))
  (at level 10, x pattern, m at level 100, k at level 200) : resp_scope.
Open Scope resp_scope.

Definition MAX_BULK : Z := 512 * 1024 * 1024.
Definition MAX_ARGS : Z := 1024 * 1024.
Definition COMPACT_THRESHOLD : nat := 8192.

Record RespParser := mkParser { rp_buf : bytes; rp_head : nat }.
Abbreviation ParseStep := (resp_result (option (nat * list bytes))).

(** ** Framing *)

Definition checked_i64 (z : Z) : option Z :=
  if (- 2 ^ 63 <=? z) && (z <? 2 ^ 63) then Some z else None.

(** The digit loop of [parse_int]. *)
Fixpoint parse_digits (val : Z) (digits : bytes) : resp_result Z :=
  match digits with
  | [] => Ok val
  | b :: digits =>
      if negb ((48 <=? b) && (b <=? 57)) then Err (Protocol InvalidInteger) else
      match v ← checked_i64 (val * 10); checked_i64 (v + (b - 48)) with
      | None => Err (Protocol IntegerOverflow)
      | Some val => parse_digits val digits
      end
  end.

Definition parse_int (s : bytes) : resp_result Z :=
  let '(neg, digits) := match s with 45 :: s' => (true, s') | _ => (false, s) end in
  match digits with
  | [] => Err (Protocol InvalidInteger)
  | _ => let? val := parse_digits 0 digits in Ok (if neg then - val else val)
  end.

Definition read_crlf_line (data : bytes) (start : nat) : resp_result (option (nat * nat)) :=
  match position 10 (drop start data) with
  | None => Ok None
  | Some rel =>
      let nl := (start + rel)%nat in
      if (nl =? start)%nat || negb (byte_at data (nl - 1) =? 13)
      then Err (Protocol ExpectedCrlf)
      else Ok (Some (nl - 1, nl + 1)%nat)
  end.

(** The argument loop of [parse_multibulk]: [count] arguments are left. *)
Fixpoint bulk_loop (data : bytes) (count : nat) (pos : nat) (args : list bytes) : ParseStep :=
  match count with
  | O => Ok (Some (pos, args))
  | S count =>
      if (length data <=? pos)%nat then Ok None else
      if negb (byte_at data pos =? 36) then Err (Protocol (ExpectedDollar (byte_at data pos))) else
      let? line := read_crlf_line data (pos + 1) in
      match line with
      | None => Ok None
      | Some (len_end, len_next) =>
          let? blen := parse_int (slice (pos + 1) len_end data) in
          if blen <? 0 then Err (Protocol InvalidBulkLength) else
          if MAX_BULK <? blen then Err TooLarge else
          let data_end := (len_next + Z.to_nat blen)%nat in
          if (length data <? data_end + 2)%nat then Ok None else
          if negb (byte_at data data_end =? 13) || negb (byte_at data (data_end + 1) =? 10)
          then Err (Protocol ExpectedCrlfAfterBulk)
          else bulk_loop data count (data_end + 2) (args ++ [slice len_next data_end data])
      end
  end.

Definition parse_multibulk (data : bytes) : ParseStep :=
  let? line := read_crlf_line data 1 in
  match line with
  | None => Ok None
  | Some (num_end, pos) =>
      let? count := parse_int (slice 1 num_end data) in
      if count <? 0 then Err (Protocol InvalidMultibulkLength) else
      if MAX_ARGS <? count then Err TooLarge else
      bulk_loop data (Z.to_nat count) pos []
  end.

(** [u8::is_ascii_whitespace]: space, tab, line feed, form feed, carriage
    return. *)
Definition is_ascii_whitespace (b : Z) : bool :=
  (b =? 32) || (b =? 9) || (b =? 10) || (b =? 12) || (b =? 13).

(** [slice::split]: the pieces between separators, empty ones included. *)
Fixpoint split_on (sep : Z -> bool) (l : bytes) : list bytes :=
  match l with
  | [] => [[]]
  | b :: l' =>
      if sep b then [] :: split_on sep l' else
      match split_on sep l' with
      | [] => [[b]]
      | tok :: toks => (b :: tok) :: toks
      end
  end.

Definition parse_inline (data : bytes) : ParseStep :=
  match position 10 data with
  | None => Ok None
  | Some rel_nl =>
      let line_end :=
        if (0 <? rel_nl)%nat && (byte_at data (rel_nl - 1) =? 13) then (rel_nl - 1)%nat else rel_nl in
      let line := take line_end data in
      Ok (Some ((rel_nl + 1)%nat,
                List.filter (fun tok => negb (bool_decide (tok = []))) (split_on is_ascii_whitespace line)))
  end.

Definition parse_command (data : bytes) : ParseStep :=
  match data with
  | [] => Ok None
  | b :: _ => if b =? 42 then parse_multibulk data else parse_inline data
  end.

(** ** The parser *)

Definition RespParser_new : RespParser := mkParser [] 0.
Definition feed (p : RespParser) (data : bytes) : RespParser :=
  mkParser (rp_buf p ++ data) (rp_head p).
Definition buffered (p : RespParser) : nat := (length (rp_buf p) - rp_head p)%nat.
Definition maybe_compact (p : RespParser) : RespParser :=
  if (rp_head p =? length (rp_buf p))%nat then mkParser [] 0
  else if (COMPACT_THRESHOLD <=? rp_head p)%nat then mkParser (drop (rp_head p) (rp_buf p)) 0
  else p.

(** The [loop] of [next_command]; [None] when the fuel runs out. *)
Fixpoint next_command_loop (fuel : nat) (p : RespParser)
    : option (resp_result (option (list bytes)) * RespParser) :=
  match fuel with
  | O => None
  | S fuel =>
      match parse_command (drop (rp_head p) (rp_buf p)) with
      | Err e => Some (Err e, p)
      | Ok None => Some (Ok None, p)
      | Ok (Some (consumed, args)) =>
          let p := maybe_compact (mkParser (rp_buf p) (rp_head p + consumed)) in
          if bool_decide (args = []) then next_command_loop fuel p else Some (Ok (Some args), p)
      end
  end.
(** Every round consumes at least one byte. *)
Definition next_command (p : RespParser) := next_command_loop (S (buffered p)) p.

(** ** Reply primitives ([ReplyBuf]) *)

(** The digit loop of [fmt_i64], filling its 20-byte buffer from the right;
    a write below index 0 panics. *)
Fixpoint fmt_loop (idx : nat) (mag : Z) (out : bytes) : rust (nat * bytes) :=
  match idx with
  | O => Panic
  | S idx =>
      let out := (48 + mag mod 10) :: out in
      if mag / 10 =? 0 then Ret (idx, out) else fmt_loop idx (mag / 10) out
  end.
Definition fmt_i64 (i : Z) : rust bytes :=
  let neg := i <? 0 in
  let! (idx, out) := fmt_loop 20 (if neg then wrap 64 (- i) else wrap 64 i) [] in
  if neg then match idx with O => Panic | S _ => Ret (45 :: out) end else Ret out.

Record ReplyBuf := mkReplyBuf { rb_resp3 : bool; rb_buf : bytes }.
Definition ReplyBuf_new (resp3 : bool) : ReplyBuf := mkReplyBuf resp3 [].
Definition extend (out : ReplyBuf) (b : bytes) : ReplyBuf := mkReplyBuf (rb_resp3 out) (rb_buf out ++ b).
Definition crlf (out : ReplyBuf) : ReplyBuf := extend out [13; 10].
Definition write_i64 (out : ReplyBuf) (i : Z) : rust ReplyBuf := let! t := fmt_i64 i in Ret (extend out t).
(** [n as i64] of a [usize]. *)
Definition write_usize (out : ReplyBuf) (n : Z) : rust ReplyBuf := write_i64 out (to_signed 64 n).
Definition header (out : ReplyBuf) (prefix : Z) (n : Z) : rust ReplyBuf :=
  let! out := write_usize (extend out [prefix]) n in Ret (crlf out).
Definition simple (out : ReplyBuf) (s : bytes) : rust ReplyBuf := Ret (crlf (extend (extend out [43]) s)).
Definition error (out : ReplyBuf) (msg : bytes) : rust ReplyBuf := Ret (crlf (extend (extend out [45]) msg)).
Definition int (out : ReplyBuf) (i : Z) : rust ReplyBuf :=
  let! out := write_i64 (extend out [58]) i in Ret (crlf out).
Definition bulk (out : ReplyBuf) (b : bytes) : rust ReplyBuf :=
  let! out := header out 36 (Z.of_nat (length b)) in Ret (crlf (extend out b)).
Definition null (out : ReplyBuf) : rust ReplyBuf :=
  Ret (extend out (if rb_resp3 out then [95; 13; 10] else [36; 45; 49; 13; 10])).
Definition null_array (out : ReplyBuf) : rust ReplyBuf :=
  Ret (extend out (if rb_resp3 out then [95; 13; 10] else [42; 45; 49; 13; 10])).
Definition array (out : ReplyBuf) (len : Z) : rust ReplyBuf := header out 42 len.
Definition map_ (out : ReplyBuf) (pairs : Z) : rust ReplyBuf :=
  if rb_resp3 out then header out 37 pairs else header out 42 (pairs * 2).
Definition set_ (out : ReplyBuf) (len : Z) : rust ReplyBuf :=
  if rb_resp3 out then header out 126 len else header out 42 len.
Definition push_ (out : ReplyBuf) (len : Z) : rust ReplyBuf :=
  if rb_resp3 out then header out 62 len else header out 42 len.
Definition boolean (out : ReplyBuf) (b : bool) : rust ReplyBuf :=
  Ret (extend out (if rb_resp3 out then (if b then [35; 116; 13; 10] else [35; 102; 13; 10])
                   else (if b then [58; 49; 13; 10] else [58; 48; 13; 10]))).
Definition verbatim (out : ReplyBuf) (s : bytes) : rust ReplyBuf :=
  if rb_resp3 out then
    let! out := header out 61 (Z.of_nat (length s) + 4) in
    Ret (crlf (extend (extend out [116; 120; 116; 58]) s))
  else bulk out s.
Definition take_ (out : ReplyBuf) : bytes * ReplyBuf := (rb_buf out, mkReplyBuf (rb_resp3 out) []).

(** ** A result never changes when more bytes arrive *)

(** What a parse attempt on a prefix of the stream says about the whole. *)
Definition decided {A} (r : resp_result (option A)) : bool :=
  match r with Ok None => false | _ => true end.

Lemma position_app_Some c l s n : position c l = Some n -> position c (l ++ s) = Some n.
Proof.
  revert n. induction l as [|b l IH]; intros n E; simpl in *; [discriminate|].
  destruct (b =? c); [done|]. destruct (position c l) as [m|]; [|discriminate].
  by rewrite (IH m eq_refl).
Qed.

Lemma position_lt c l n : position c l = Some n -> (n < length l)%nat.
Proof.
  revert n. induction l as [|b l IH]; intros n E; simpl in *; [discriminate|].
  destruct (b =? c); [invert E; lia|]. destruct (position c l) as [m|]; [|discriminate].
  invert E. specialize (IH m eq_refl). lia.
Qed.

Lemma byte_at_app l s i : (i < length l)%nat -> byte_at (l ++ s) i = byte_at l i.
Proof. intros H. unfold byte_at. by rewrite lookup_app_l. Qed.

Lemma slice_app l s i j : (j <= length l)%nat -> slice i j (l ++ s) = slice i j l.
Proof.
  intros H. unfold slice. destruct (decide (i <= length l)%nat).
  - rewrite drop_app_le by lia. apply take_app_le. rewrite length_drop. lia.
  - by replace (j - i)%nat with 0%nat by lia.
Qed.

Lemma read_crlf_line_bounds data start e n :
  (start <= length data)%nat -> read_crlf_line data start = Ok (Some (e, n)) ->
  (start <= e)%nat /\ n = (e + 2)%nat /\ (n <= length data)%nat.
Proof.
  unfold read_crlf_line. intros Hs. destruct (position 10 (drop start data)) as [rel|] eqn:P; [|discriminate].
  apply position_lt in P. rewrite length_drop in P.
  destruct ((start + rel =? start)%nat) eqn:Z; [discriminate|]. apply Nat.eqb_neq in Z. simpl.
  destruct (byte_at _ _ =? 13); [|discriminate]. intros E. invert E. lia.
Qed.

Lemma read_crlf_line_app data s start : (start <= length data)%nat ->
  decided (read_crlf_line data start) = true ->
  read_crlf_line (data ++ s) start = read_crlf_line data start.
Proof.
  unfold read_crlf_line. intros Hs. rewrite (drop_app_le data s start Hs).
  destruct (position 10 (drop start data)) as [rel|] eqn:P; [|done]. intros _.
  rewrite (position_app_Some _ _ s _ P). apply position_lt in P. rewrite length_drop in P.
  by rewrite byte_at_app by lia.
Qed.

(** One round of the argument loop, once its [pos] is inside the buffer. *)
Lemma bulk_loop_app data s count : forall pos args, (pos <= length data)%nat ->
  decided (bulk_loop data count pos args) = true ->
  bulk_loop (data ++ s) count pos args = bulk_loop data count pos args.
Proof.
  induction count as [|count IH]; intros pos args Hp; [done|]. simpl.
  destruct (length data <=? pos)%nat eqn:L; [done|]. apply Nat.leb_gt in L.
  rewrite (proj2 (Nat.leb_gt (length (data ++ s)) pos)) by (rewrite length_app; lia).
  rewrite (byte_at_app data s pos L). destruct (negb _); [done|].
  destruct (read_crlf_line data (pos + 1)) as [[[e n]|]|err] eqn:R; simpl; try done;
    rewrite (read_crlf_line_app data s (pos + 1)), R by (rewrite ?R; done || lia); simpl; try done.
  apply read_crlf_line_bounds in R as (R1 & -> & R2); [|lia].
  rewrite (slice_app data s) by lia. destruct (parse_int _) as [blen|err]; simpl; [|done].
  destruct (blen <? 0); [done|]. destruct (MAX_BULK <? blen); [done|].
  destruct (length data <? _)%nat eqn:L2; [done|]. apply Nat.ltb_ge in L2.
  rewrite (proj2 (Nat.ltb_ge (length (data ++ s)) _)) by (rewrite length_app; lia).
  rewrite !byte_at_app, (slice_app data s) by lia. destruct (_ || _); [done|]. apply IH. lia.
Qed.

Lemma bulk_loop_bounds data count : forall pos args c l, (pos <= length data)%nat ->
  bulk_loop data count pos args = Ok (Some (c, l)) -> (pos <= c <= length data)%nat.
Proof.
  induction count as [|count IH]; intros pos args c l Hp; simpl; [intros E; invert E; lia|].
  destruct (length data <=? pos)%nat eqn:L; [discriminate|]. apply Nat.leb_gt in L.
  destruct (negb _); [discriminate|].
  destruct (read_crlf_line data (pos + 1)) as [[[e n]|]|err] eqn:R; simpl; try discriminate.
  apply read_crlf_line_bounds in R as (R1 & -> & R2); [|lia].
  destruct (parse_int _) as [blen|err]; simpl; [|discriminate].
  destruct (blen <? 0); [discriminate|]. destruct (MAX_BULK <? blen); [discriminate|].
  destruct (length data <? _)%nat eqn:L2; [discriminate|]. apply Nat.ltb_ge in L2.
  destruct (_ || _); [discriminate|]. intros E. apply IH in E; lia.
Qed.

Lemma parse_command_app data s : decided (parse_command data) = true ->
  parse_command (data ++ s) = parse_command data.
Proof.
  destruct data as [|b data]; [done|]. cbn [parse_command app].
  destruct (b =? 42).
  - change (b :: data ++ s) with ((b :: data) ++ s). set (d := b :: data).
    assert (Hd : (1 <= length d)%nat) by (subst d; simpl; lia). clearbody d. unfold parse_multibulk.
    destruct (read_crlf_line d 1) as [[[e n]|]|err] eqn:R; simpl; try done; intros D;
      rewrite (read_crlf_line_app d s 1), R by (rewrite ?R; done || lia); simpl; try done.
    apply read_crlf_line_bounds in R as (R1 & -> & R2); [|done].
    rewrite (slice_app d s) by lia. destruct (parse_int _) as [count|err]; simpl in *; [|done].
    destruct (count <? 0); [done|]. destruct (MAX_ARGS <? count); [done|]. by apply bulk_loop_app.
  - change (b :: data ++ s) with ((b :: data) ++ s). set (d := b :: data). unfold parse_inline.
    destruct (position 10 d) as [rel|] eqn:P; [|done]. intros _. rewrite (position_app_Some _ _ s _ P).
    apply position_lt in P. rewrite byte_at_app by lia. rewrite take_app_le; [done|].
    destruct (_ && _); lia.
Qed.

(** A complete frame takes at least one byte and no more than there are. *)
Lemma parse_command_bounds data c args :
  parse_command data = Ok (Some (c, args)) -> (1 <= c <= length data)%nat.
Proof.
  destruct data as [|b data]; [discriminate|]. cbn [parse_command].
  set (d := b :: data). assert (Hd : (1 <= length d)%nat) by (subst d; simpl; lia). clearbody d.
  destruct (b =? 42).
  - unfold parse_multibulk. destruct (read_crlf_line d 1) as [[[e n]|]|err] eqn:R; simpl; try discriminate.
    apply read_crlf_line_bounds in R as (R1 & -> & R2); [|done].
    destruct (parse_int _) as [count|err]; simpl in *; [|discriminate].
    destruct (count <? 0); [discriminate|]. destruct (MAX_ARGS <? count); [discriminate|].
    intros E. apply bulk_loop_bounds in E; lia.
  - unfold parse_inline. destruct (position 10 d) as [rel|] eqn:P; [|discriminate].
    intros E. invert E. apply position_lt in P. lia.
Qed.

(** ** The stream a connection means

    [split_stream v] cuts the whole byte stream [v] into frames: the
    commands in order (empty frames carry none), then the incomplete rest or
    the error that ends the connection. *)
Inductive stream_end :=
  | Pending (rest : bytes)
  | Failed (e : RespError).

Fixpoint split_loop (fuel : nat) (v : bytes) : list (list bytes) * stream_end :=
  match fuel with
  | O => ([], Pending v)
  | S fuel =>
      match parse_command v with
      | Err e => ([], Failed e)
      | Ok None => ([], Pending v)
      | Ok (Some (c, args)) =>
          let '(cs, e) := split_loop fuel (drop c v) in
          (if bool_decide (args = []) then cs else args :: cs, e)
      end
  end.
Definition split_stream (v : bytes) : list (list bytes) * stream_end := split_loop (S (length v)) v.

(** The loop both readers run after a [feed] ([serve_client], [stream_loop]):
    pull commands until the parser wants more bytes or fails. *)
Fixpoint drain_loop (fuel : nat) (p : RespParser)
    : option (list (list bytes) * option RespError * RespParser) :=
  match fuel with
  | O => None
  | S fuel =>
      match next_command p with
      | None => None
      | Some (Ok None, p) => Some ([], None, p)
      | Some (Err e, p) => Some ([], Some e, p)
      | Some (Ok (Some args), p) =>
          match drain_loop fuel p with
          | None => None
          | Some (cs, e, p) => Some (args :: cs, e, p)
          end
      end
  end.
Definition drain (p : RespParser) := drain_loop (S (buffered p)) p.

(** Reads of the socket, one after the other; an error ends the connection. *)
Fixpoint read_chunks (p : RespParser) (chunks : list bytes) : option (list (list bytes) * stream_end) :=
  match chunks with
  | [] => Some ([], Pending (drop (rp_head p) (rp_buf p)))
  | data :: chunks =>
      match drain (feed p data) with
      | None => None
      | Some (cs, Some e, _) => Some (cs, Failed e)
      | Some (cs, None, p) =>
          match read_chunks p chunks with
          | None => None
          | Some (cs', e) => Some (cs ++ cs', e)
          end
      end
  end.

(** The parser's invariant: the head is inside the buffer. *)
Definition parser_wf (p : RespParser) : Prop := (rp_head p <= length (rp_buf p))%nat.
Definition view (p : RespParser) : bytes := drop (rp_head p) (rp_buf p).

Lemma buffered_view p : buffered p = length (view p).
Proof. unfold buffered, view. by rewrite length_drop. Qed.

Lemma view_feed p data : parser_wf p -> view (feed p data) = view p ++ data /\ parser_wf (feed p data).
Proof.
  unfold parser_wf, view, feed. simpl. intros H. rewrite drop_app_le, length_app by done. split; [done|lia].
Qed.

(** Compaction drops consumed bytes only. *)
Lemma maybe_compact_spec p : parser_wf p -> view (maybe_compact p) = view p /\ parser_wf (maybe_compact p).
Proof.
  unfold parser_wf, view, maybe_compact. intros H.
  destruct (rp_head p =? length (rp_buf p))%nat eqn:E.
  - apply Nat.eqb_eq in E. rewrite E, drop_all. simpl. auto.
  - destruct (COMPACT_THRESHOLD <=? rp_head p)%nat; simpl; rewrite ?drop_0; split; auto; lia.
Qed.

Lemma advance_spec p c : parser_wf p -> (c <= length (view p))%nat ->
  let p' := maybe_compact (mkParser (rp_buf p) (rp_head p + c)) in
  view p' = drop c (view p) /\ parser_wf p'.
Proof.
  intros W Hc. pose proof (maybe_compact_spec (mkParser (rp_buf p) (rp_head p + c))) as [V W'].
  { unfold parser_wf, view in *. simpl. rewrite length_drop in Hc. lia. }
  split; [|done]. rewrite V. unfold view. simpl. by rewrite drop_drop.
Qed.

Lemma split_loop_fuel f : forall g v, (length v < f)%nat -> (length v < g)%nat -> split_loop f v = split_loop g v.
Proof.
  induction f as [|f IH]; intros g v Hf Hg; [lia|]. destruct g as [|g]; [lia|]. simpl.
  destruct (parse_command v) as [[[c args]|]|e] eqn:P; try done. apply parse_command_bounds in P.
  by rewrite (IH g (drop c v)) by (rewrite length_drop; lia).
Qed.

Lemma split_stream_unfold v : split_stream v =
  match parse_command v with
  | Err e => ([], Failed e)
  | Ok None => ([], Pending v)
  | Ok (Some (c, args)) =>
      let '(cs, e) := split_stream (drop c v) in
      (if bool_decide (args = []) then cs else args :: cs, e)
  end.
Proof.
  unfold split_stream at 1. cbn [split_loop].
  destruct (parse_command v) as [[[c args]|]|e] eqn:P; try done. apply parse_command_bounds in P.
  unfold split_stream. by rewrite (split_loop_fuel _ (S (length (drop c v)))) by (rewrite ?length_drop; lia).
Qed.

(** Cutting a prefix first loses nothing. *)
Lemma split_stream_app n : forall v s, (length v <= n)%nat ->
  split_stream (v ++ s) =
  match split_stream v with
  | (cs, Failed e) => (cs, Failed e)
  | (cs, Pending rest) => let '(cs', e) := split_stream (rest ++ s) in (cs ++ cs', e)
  end.
Proof.
  induction n as [|n IH]; intros v s Hn; rewrite (split_stream_unfold v);
    destruct (parse_command v) as [[[c args]|]|err] eqn:P;
    try (by simpl; destruct (split_stream (v ++ s)));
    try (by rewrite split_stream_unfold, parse_command_app, P by (by rewrite P)).
  all: pose proof (parse_command_bounds _ _ _ P) as B.
  { lia. }
  rewrite split_stream_unfold, parse_command_app, P by (by rewrite P).
  rewrite drop_app_le by lia. rewrite (IH (drop c v) s) by (rewrite length_drop; lia).
  destruct (split_stream (drop c v)) as [cs [rest|e]]; [|done].
  destruct (split_stream (rest ++ s)) as [cs' e]. by destruct (bool_decide (args = [])).
Qed.

(** [next_command] returns within its fuel, and gives the next command of
    the stream in front of the parser. *)
Lemma next_command_spec fuel : forall p, parser_wf p -> (length (view p) < fuel)%nat ->
  exists r p', next_command_loop fuel p = Some (r, p') /\ parser_wf p' /\
  split_stream (view p) =
    match r with
    | Err e => ([], Failed e)
    | Ok None => ([], Pending (view p'))
    | Ok (Some args) => let '(cs, e) := split_stream (view p') in (args :: cs, e)
    end /\
  (length (view p') <= length (view p))%nat /\
  (forall args, r = Ok (Some args) -> args <> [] /\ (length (view p') < length (view p))%nat).
Proof.
  induction fuel as [|fuel IH]; intros p W Hf; [lia|]. cbn [next_command_loop].
  change (drop (rp_head p) (rp_buf p)) with (view p). rewrite split_stream_unfold.
  destruct (parse_command (view p)) as [[[c args]|]|e] eqn:P; [|by eexists _, p; repeat split..].
  pose proof (parse_command_bounds _ _ _ P) as B. destruct (advance_spec p c W ltac:(lia)) as [V W'].
  set (p1 := maybe_compact _) in *. rewrite <- V.
  assert (L : length (view p1) = (length (view p) - c)%nat) by (by rewrite V, length_drop).
  destruct (bool_decide_reflect (args = [])) as [|Ne].
  - destruct (IH p1 W' ltac:(lia)) as (r & p' & E & W2 & S & L' & D). exists r, p'.
    split; [done|]. split; [done|]. rewrite S. split; [|split; [lia|]].
    + by destruct r as [[?|]|?]; [destruct (split_stream (view p'))|..].
    + intros a Ha. destruct (D a Ha). split; [done|lia].
  - eexists _, p1. split; [done|]. split; [done|]. split; [done|]. split; [lia|].
    intros a Ha. invert Ha. split; [done|lia].
Qed.

Lemma drain_spec fuel : forall p, parser_wf p -> (length (view p) < fuel)%nat ->
  exists cs e p', drain_loop fuel p = Some (cs, e, p') /\ parser_wf p' /\
  split_stream (view p) = (cs, match e with Some e => Failed e | None => Pending (view p') end).
Proof.
  induction fuel as [|fuel IH]; intros p W Hf; [lia|]. cbn [drain_loop].
  destruct (next_command_spec (S (buffered p)) p W) as (r & p1 & E & W1 & S & _ & D);
    [rewrite buffered_view; lia|].
  unfold next_command. rewrite E. destruct r as [[args|]|e].
  - destruct (IH p1 W1) as (cs & e & p' & E' & W' & S'); [destruct (D args eq_refl); lia|].
    rewrite E'. eexists _, _, _. split; [done|]. split; [done|]. by rewrite S, S'.
  - eexists _, _, _. by repeat split.
  - eexists _, _, _. by repeat split.
Qed.

Lemma split_stream_rest n : forall v cs rest, (length v <= n)%nat ->
  split_stream v = (cs, Pending rest) -> split_stream rest = ([], Pending rest).
Proof.
  induction n as [|n IH]; intros v cs rest Hn; rewrite (split_stream_unfold v);
    destruct (parse_command v) as [[[c args]|]|err] eqn:P; try discriminate;
    try (intros E; invert E; by rewrite split_stream_unfold, P).
  all: pose proof (parse_command_bounds _ _ _ P) as B.
  { lia. }
  destruct (split_stream (drop c v)) as [cs' e] eqn:E'. intros E. invert E.
  apply (IH (drop c v) cs' rest); [rewrite length_drop; lia|done].
Qed.

Lemma read_chunks_spec chunks : forall p, parser_wf p ->
  split_stream (view p) = ([], Pending (view p)) ->
  read_chunks p chunks = Some (split_stream (view p ++ concat chunks)).
Proof.
  induction chunks as [|data chunks IH]; intros p W I; simpl.
  - by rewrite app_nil_r, I.
  - destruct (view_feed p data W) as [V W1].
    destruct (drain_spec (S (buffered (feed p data))) (feed p data) W1) as (cs & e & p' & E & W' & S);
      [rewrite buffered_view; lia|].
    unfold drain. rewrite E, app_assoc, <- V, (split_stream_app (length (view (feed p data)))), S by done.
    destruct e as [e|]; [done|]. rewrite (IH p' W') by (by eapply split_stream_rest).
    by destruct (split_stream (view p' ++ concat chunks)).
Qed.

(** [C18] Incremental parsing is parsing: for any cutting of the byte stream
    into socket reads, feeding the reads one after the other and draining the
    parser after each terminates, and gives the commands, the incomplete rest
    or the protocol error of the whole stream. *)
Theorem chunking_invariant (chunks : list bytes) :
  read_chunks RespParser_new chunks = Some (split_stream (concat chunks)).
Proof. apply (read_chunks_spec chunks RespParser_new); [unfold parser_wf; simpl; lia|reflexivity]. Qed.

(** [next_command] terminates on every parser the operations can
    produce: each frame it skips takes at least one byte, so the loop ends
    within one round per buffered byte; a returned command shortens the
    buffer by its frame, and running out of input or failing consumes
    nothing but the empty frames. *)
Theorem next_command_terminates (p : RespParser) : parser_wf p ->
  exists r p', next_command p = Some (r, p') /\ parser_wf p' /\
    (buffered p' <= buffered p)%nat /\
    (forall args, r = Ok (Some args) -> args <> [] /\ (buffered p' < buffered p)%nat).
Proof.
  intros W. destruct (next_command_spec (S (buffered p)) p W) as (r & p' & E & W' & _ & L & D);
    [rewrite buffered_view; lia|].
  exists r, p'. rewrite !buffered_view. auto.
Qed.

(** A blank line and an empty array are skipped before [PING]. *)
Lemma next_command_terminates_witness :
  let p := feed RespParser_new [13; 10; 42; 48; 13; 10; 80; 73; 78; 71; 10] in
  parser_wf p /\ next_command p = Some (Ok (Some [[80; 73; 78; 71]]), RespParser_new) /\
  exists r p', next_command p = Some (r, p') /\ parser_wf p' /\
    (buffered p' <= buffered p)%nat /\
    (forall args, r = Ok (Some args) -> args <> [] /\ (buffered p' < buffered p)%nat).
Proof.
  split; [apply (bool_decide_unpack _); vm_compute; reflexivity|]. split; [vm_compute; reflexivity|].
  apply next_command_terminates. apply (bool_decide_unpack _); vm_compute; reflexivity.
Defined.

(** ** Integers on the wire *)

(** Decimal value of a digit string, from an accumulator. *)
Definition dec_from (acc : Z) (l : bytes) : Z := fold_left (fun acc b => acc * 10 + (b - 48)) l acc.
Definition digit (b : Z) : Prop := 48 <= b <= 57.

Lemma dec_from_ge l : forall acc, Forall digit l -> 0 <= acc -> acc <= dec_from acc l.
Proof.
  induction l as [|b l IH]; intros acc F Ha; [done|]. invert F. unfold digit in *.
  change (dec_from acc (b :: l)) with (dec_from (acc * 10 + (b - 48)) l).
  etransitivity; [|apply IH; auto; lia]. lia.
Qed.

(** The digit loop of [parse_int] reads a value that fits an [i64]. *)
Lemma parse_digits_ok l : forall acc, Forall digit l -> 0 <= acc -> dec_from acc l < 2 ^ 63 ->
  parse_digits acc l = Ok (dec_from acc l).
Proof.
  induction l as [|b l IH]; intros acc F Ha Hb; [done|]. invert F. unfold digit in *. simpl.
  change (dec_from acc (b :: l)) with (dec_from (acc * 10 + (b - 48)) l) in *.
  pose proof (dec_from_ge l (acc * 10 + (b - 48))) as G. specialize (G ltac:(done) ltac:(lia)).
  rewrite (proj2 (Z.leb_le 48 b)), (proj2 (Z.leb_le b 57)) by lia. simpl. unfold checked_i64.
  rewrite (proj2 (Z.leb_le _ (acc * 10))), (proj2 (Z.ltb_lt (acc * 10) _)) by lia. simpl.
  rewrite (proj2 (Z.leb_le _ (acc * 10 + (b - 48)))), (proj2 (Z.ltb_lt (acc * 10 + (b - 48)) _)) by lia.
  simpl. apply IH; auto; lia.
Qed.

(** The loop of [fmt_i64] writes the decimal digits of a magnitude below
    [10 ^ idx], without leading zeros. *)
Lemma fmt_loop_spec idx : forall mag out, (0 < idx)%nat -> 0 <= mag < 10 ^ Z.of_nat idx ->
  exists idx' ds, fmt_loop idx mag out = Ret (idx', ds ++ out) /\ ds <> [] /\
    Forall digit ds /\ dec_from 0 ds = mag /\ (idx' + length ds)%nat = idx /\
    10 ^ (Z.of_nat (length ds) - 1) <= Z.max mag 1.
Proof.
  induction idx as [|idx IH]; intros mag out Hi Hm; [lia|]. simpl.
  assert (D : digit (48 + mag mod 10)) by (unfold digit; pose proof (Z.mod_pos_bound mag 10); lia).
  pose proof (Z.div_mod mag 10 ltac:(lia)) as DM. destruct (mag / 10 =? 0) eqn:E.
  - apply Z.eqb_eq in E. exists idx, [48 + mag mod 10]. repeat split; auto; unfold dec_from; simpl; lia.
  - apply Z.eqb_neq in E. rewrite Nat2Z.inj_succ, Z.pow_succ_r in Hm by lia.
    assert (Hq : 0 <= mag / 10 < 10 ^ Z.of_nat idx)
      by (split; [apply Z.div_pos; lia|apply Z.div_lt_upper_bound; lia]).
    destruct idx as [|idx]; [simpl in Hq; lia|].
    destruct (IH (mag / 10) ((48 + mag mod 10) :: out)) as (i & ds & R & N & F & V & L & T); [lia|done|].
    exists i, (ds ++ [48 + mag mod 10]). rewrite R, <- app_assoc. rewrite length_app. simpl length.
    repeat split.
    + by destruct ds.
    + apply Forall_app. auto.
    + unfold dec_from in *. rewrite fold_left_app, V. simpl. lia.
    + lia.
    + replace (Z.of_nat (length ds + 1) - 1) with (Z.succ (Z.of_nat (length ds) - 1)) by lia.
      assert (length ds <> 0)%nat by (by destruct ds). rewrite Z.pow_succ_r by lia.
      pose proof (Z.mod_pos_bound mag 10). lia.
Qed.

Lemma fmt_loop_dec idx : forall mag out i o, fmt_loop idx mag out = Ret (i, o) -> dec_loop idx mag out = o.
Proof.
  induction idx as [|idx IH]; intros mag out i o; [discriminate|]. cbn [fmt_loop dec_loop].
  destruct (mag / 10 =? 0); [by intros E; invert E|apply IH].
Qed.

(** [fmt_i64] fits its 20-byte buffer, sign included, so it never panics,
    and writes what [to_string] does. *)
Lemma fmt_i64_to_string i : i64 i -> fmt_i64 i = Ret (Z_to_string i).
Proof.
  unfold i64, fmt_i64, Z_to_string. intros Hi.
  assert (W : (if i <? 0 then wrap 64 (- i) else wrap 64 i) = Z.abs i).
  { unfold wrap. destruct (i <? 0) eqn:E; [apply Z.ltb_lt in E|apply Z.ltb_ge in E];
      rewrite Z.mod_small by lia; lia. }
  rewrite W. assert (B : Z.abs i < 10 ^ 19) by lia.
  destruct (fmt_loop_spec 20 (Z.abs i) []) as (idx & ds & R & N & F & V & L & T);
    [lia|change (Z.of_nat 20) with 20; lia|].
  pose proof (fmt_loop_dec _ _ _ _ _ R) as D. rewrite R. cbn [rust_bind]. destruct (i <? 0) eqn:E.
  - apply Z.ltb_lt in E. replace (Z.abs i) with (- i) in D by lia. rewrite D.
    destruct idx; [|done]. replace (length ds) with 20%nat in T by lia.
    change (10 ^ (Z.of_nat 20 - 1)) with (10 ^ 19) in T. lia.
  - apply Z.ltb_ge in E. replace (Z.abs i) with i in D by lia. by rewrite D.
Qed.

Lemma parse_int_digits ds : Forall digit ds -> ds <> [] -> dec_from 0 ds < 2 ^ 63 ->
  parse_int ds = Ok (dec_from 0 ds).
Proof.
  intros F N B. destruct ds as [|b ds]; [done|]. unfold parse_int.
  assert (Hb : digit b) by (by invert F). unfold digit in Hb.
  destruct (decide (b = 45)); [lia|].
  replace (match b with 45 => (true, ds) | _ => (false, b :: ds) end) with (false, b :: ds)
    by (repeat (destruct b as [|b|b]; try done; try lia)).
  by rewrite parse_digits_ok by done.
Qed.

(** The text of a length: decimal digits whose value [parse_int] reads. *)
Lemma length_text n : 0 <= n < 2 ^ 63 ->
  Z_to_string n <> [] /\ Forall digit (Z_to_string n) /\ parse_int (Z_to_string n) = Ok n.
Proof.
  intros Hn. unfold Z_to_string. rewrite (proj2 (Z.ltb_ge n 0)) by lia.
  destruct (fmt_loop_spec 20 n []) as (idx & ds & R & N & F & V & _);
    [lia|change (Z.of_nat 20) with 20; lia|].
  rewrite (fmt_loop_dec _ _ _ _ _ R), app_nil_r. split; [done|]. split; [done|].
  rewrite parse_int_digits by (done || lia). by rewrite V.
Qed.

(** ** Commands written by the client side parse back *)

(** [encode] of [redisrepl.rs]: an array header and one bulk string per
    part. *)
Definition bulk_text (b : bytes) : bytes :=
  36 :: Z_to_string (Z.of_nat (length b)) ++ [13; 10] ++ b ++ [13; 10].
Definition encode (args : list bytes) : bytes :=
  42 :: Z_to_string (Z.of_nat (length args)) ++ [13; 10] ++ concat (map bulk_text args).

(** Equations between concatenations. *)
Ltac app_solve := repeat (progress (rewrite <- ?app_assoc; cbn [app])); reflexivity.

Lemma header_spec out prefix n : 0 <= n < 2 ^ 63 ->
  header out prefix n = Ret (extend out (prefix :: Z_to_string n ++ [13; 10])).
Proof.
  intros Hn. unfold header, write_usize, write_i64, to_signed.
  rewrite (proj2 (Z.ltb_lt n _)) by (simpl; lia).
  rewrite fmt_i64_to_string by (unfold i64; lia). unfold crlf, extend. cbn [rust_bind rb_buf rb_resp3].
  app_solve.
Qed.

Lemma bulk_spec out b : Z.of_nat (length b) < 2 ^ 63 -> bulk out b = Ret (extend out (bulk_text b)).
Proof.
  intros Hn. unfold bulk. rewrite header_spec by lia. unfold crlf, extend, bulk_text.
  cbn [rust_bind rb_buf rb_resp3]. app_solve.
Qed.

(** The line reader on a header: it stops at the CRLF after the digits. *)
Lemma read_header pre prefix ds s : ds <> [] -> Forall digit ds ->
  let data := pre ++ prefix :: ds ++ [13; 10] ++ s in
  let start := (length pre + 1)%nat in
  read_crlf_line data start = Ok (Some (start + length ds, start + length ds + 2)%nat) /\
  slice start (start + length ds) data = ds.
Proof.
  intros N F data start.
  assert (D : drop start data = (ds ++ [13]) ++ 10 :: s).
  { unfold data, start. rewrite drop_app_add. simpl. by rewrite drop_0, <- app_assoc. }
  assert (P : position 10 (drop start data) = Some (length ds + 1)%nat).
  { rewrite D, position_app; [by rewrite length_app|]. rewrite elem_of_app. intros [I|I].
    - rewrite Forall_forall in F. specialize (F _ I). unfold digit in F. lia.
    - by apply list_elem_of_singleton in I. }
  split.
  - unfold read_crlf_line. rewrite P. assert (length ds <> 0)%nat by (by destruct ds).
    rewrite (proj2 (Nat.eqb_neq _ _)) by lia.
    assert (B : byte_at data (start + (length ds + 1) - 1) = 13).
    { unfold byte_at. replace (start + (length ds + 1) - 1)%nat with (start + length ds)%nat by lia.
      rewrite <- lookup_drop, D, <- app_assoc, lookup_app_r, Nat.sub_diag by lia. done. }
    rewrite B. cbn. do 3 f_equal; lia.
  - unfold slice. rewrite D, <- app_assoc. replace (start + length ds - start)%nat with (length ds) by lia.
    by rewrite take_app_length.
Qed.

(** One bulk string of an encoded command takes one round. *)
Lemma bulk_loop_step pre a rest count acc : Z.of_nat (length a) <= MAX_BULK ->
  bulk_loop (pre ++ bulk_text a ++ rest) (S count) (length pre) acc =
  bulk_loop (pre ++ bulk_text a ++ rest) count (length (pre ++ bulk_text a)) (acc ++ [a]).
Proof.
  intros Hb. assert (Ha : 0 <= Z.of_nat (length a) < 2 ^ 63) by (unfold MAX_BULK in *; lia).
  destruct (length_text _ Ha) as (N & D & V). set (ds := Z_to_string (Z.of_nat (length a))) in *.
  set (data := pre ++ bulk_text a ++ rest).
  assert (E : data = pre ++ 36 :: ds ++ [13; 10] ++ (a ++ [13; 10] ++ rest))
    by (unfold data, bulk_text; fold ds; app_solve).
  assert (L : length (bulk_text a) = (1 + length ds + 2 + length a + 2)%nat)
    by (unfold bulk_text; fold ds; cbn [length]; rewrite !length_app; simpl; lia).
  assert (LD : length data = (length pre + length (bulk_text a) + length rest)%nat)
    by (unfold data; rewrite !length_app; lia).
  destruct (read_header pre 36 ds (a ++ [13; 10] ++ rest) N D) as [R S]. rewrite <- E in R, S.
  set (q := (length pre + 1 + length ds + 2)%nat).
  assert (DQ : drop q data = a ++ 13 :: 10 :: rest).
  { replace q with (length (pre ++ [36] ++ ds ++ [13; 10])) by (rewrite !length_app; simpl; lia).
    replace data with ((pre ++ [36] ++ ds ++ [13; 10]) ++ a ++ 13 :: 10 :: rest) by (rewrite E; app_solve).
    apply drop_app_length. }
  assert (BQ : forall k, byte_at data (q + length a + k) = default 0 ((13 :: 10 :: rest) !! k)).
  { intros k. unfold byte_at. rewrite <- Nat.add_assoc, <- lookup_drop, DQ, lookup_app_r by lia.
    by replace (length a + k - length a)%nat with k by lia. }
  assert (B : byte_at data (length pre) = 36)
    by (unfold byte_at; by rewrite E, lookup_app_r, Nat.sub_diag by lia).
  cbn [bulk_loop]. rewrite (proj2 (Nat.leb_gt _ _)), B by lia. simpl negb. cbv iota.
  rewrite R. cbn [resp_bind]. rewrite S, V. cbn [resp_bind].
  rewrite (proj2 (Z.ltb_ge _ _)), (proj2 (Z.ltb_ge _ _)), Nat2Z.id by lia. fold q.
  rewrite (proj2 (Nat.ltb_ge _ _)) by lia.
  pose proof (BQ 0%nat) as B0. rewrite Nat.add_0_r in B0. rewrite B0, (BQ 1%nat). simpl negb. cbv iota.
  f_equal; [rewrite length_app; lia|]. do 2 f_equal. unfold slice. rewrite DQ.
  replace (q + length a - q)%nat with (length a) by lia. apply take_app_length.
Qed.

Lemma bulk_loop_encoded args : forall pre acc s,
  Forall (fun a => Z.of_nat (length a) <= MAX_BULK) args ->
  bulk_loop (pre ++ concat (map bulk_text args) ++ s) (length args) (length pre) acc =
  Ok (Some (length (pre ++ concat (map bulk_text args)), acc ++ args)).
Proof.
  induction args as [|a args IH]; intros pre acc s F; cbn [length map concat].
  - simpl. by rewrite !app_nil_r.
  - invert F. rewrite <- app_assoc, bulk_loop_step by done.
    rewrite (app_assoc pre (bulk_text a)). rewrite IH by done. by rewrite <- !app_assoc.
Qed.

(** An encoded command is read back whole, whatever follows it. *)
Lemma parse_encoded (args : list bytes) (rest : bytes) :
  Z.of_nat (length args) <= MAX_ARGS -> Forall (fun a => Z.of_nat (length a) <= MAX_BULK) args ->
  parse_command (encode args ++ rest) = Ok (Some (length (encode args), args)).
Proof.
  intros Hc F. assert (Hn : 0 <= Z.of_nat (length args) < 2 ^ 63) by (unfold MAX_ARGS in *; lia).
  destruct (length_text _ Hn) as (N & D & V).
  destruct (read_header [] 42 _ (concat (map bulk_text args) ++ rest) N D) as [R S].
  set (ds := Z_to_string (Z.of_nat (length args))) in *.
  assert (E : encode args ++ rest = [] ++ 42 :: ds ++ [13; 10] ++ concat (map bulk_text args) ++ rest)
    by (unfold encode; fold ds; app_solve).
  rewrite <- E in R, S.
  assert (P : encode args ++ rest = (42 :: ds ++ [13; 10]) ++ concat (map bulk_text args) ++ rest)
    by (rewrite E; app_solve).
  transitivity (parse_multibulk (encode args ++ rest)); [by rewrite E|].
  unfold parse_multibulk. change (length [] + 1)%nat with 1%nat in R, S. rewrite R. cbn [resp_bind]. rewrite S, V. cbn [resp_bind].
  rewrite (proj2 (Z.ltb_ge _ _)), (proj2 (Z.ltb_ge _ _)), Nat2Z.id by lia. rewrite P.
  replace (1 + length ds + 2)%nat with (length (42 :: ds ++ [13; 10]))
    by (cbn [length]; rewrite length_app; simpl; lia).
  rewrite bulk_loop_encoded by done. unfold encode. fold ds. do 3 f_equal.
  f_equal. app_solve.
Qed.

(** Within the parser's limits, and not empty. *)
Definition command_ok (args : list bytes) : Prop :=
  args <> [] /\ Z.of_nat (length args) <= MAX_ARGS /\ Forall (fun a => Z.of_nat (length a) <= MAX_BULK) args.

Lemma split_encoded cmds s : Forall command_ok cmds ->
  split_stream (concat (map encode cmds) ++ s) = let '(cs, e) := split_stream s in (cmds ++ cs, e).
Proof.
  induction cmds as [|args cmds IH]; intros F; cbn [map concat];
    [by simpl; destruct (split_stream s)|].
  apply Forall_cons in F as [(N & C & B) F]. rewrite <- app_assoc, split_stream_unfold, parse_encoded by done.
  rewrite drop_app_length, (IH F). destruct (split_stream s). by rewrite bool_decide_eq_false_2.
Qed.

(** [C30] Round trip: a pipeline of commands written as arrays of bulk strings
    reaches the other side as the same commands in the same order, with
    nothing left over, however the network cuts the bytes and whatever bytes
    the arguments hold (CR, LF and NUL included), up to the limits on
    argument count and size. *)
Theorem pipeline_roundtrip (cmds : list (list bytes)) (chunks : list bytes) :
  Forall command_ok cmds -> concat chunks = concat (map encode cmds) ->
  read_chunks RespParser_new chunks = Some (cmds, Pending []).
Proof.
  intros F E. rewrite read_chunks_spec by (done || (unfold parser_wf; simpl; lia)).
  change (view RespParser_new) with (@nil Z). rewrite app_nil_l, E.
  rewrite <- (app_nil_r (concat (map encode cmds))), split_encoded by done.
  simpl. by rewrite app_nil_r.
Qed.

(** [GET x] and [SET x "\r\n"], one byte per read. *)
Lemma pipeline_roundtrip_witness :
  let cmds := [[[71; 69; 84]; [120]]; [[83; 69; 84]; [120]; [13; 10]]] in
  let chunks := map (fun b => [b]) (concat (map encode cmds)) in
  Forall command_ok cmds /\ read_chunks RespParser_new chunks = Some (cmds, Pending []).
Proof.
  intros cmds chunks.
  assert (F : Forall command_ok cmds).
  { repeat constructor; try discriminate; apply (bool_decide_unpack _); vm_compute; reflexivity. }
  split; [exact F|]. apply (pipeline_roundtrip cmds chunks F). vm_compute. reflexivity.
Defined.
