(* ===== verification/Reply.v ===== *)
(** * Replies

    Models [crates/marekvs-engine/src/reply.rs] ([Reply] and [Reply::write])
    over the writers of [Resp], for both protocol versions, and relates it to
    the grammar of the protocol: what a reply must be for the client to read
    exactly one answer per command. The text of a finite double ([format!] of
    an [f64]) is a parameter. *)

From Stdlib Require Import Ascii String.
From S2P Require Import Prelude F64 Resp.

(** Byte strings written as string literals. *)
Fixpoint str (s : string) : bytes :=
  match s with
  | EmptyString => []
  | String a s => Z.of_N (N_of_ascii a) :: str s
  end.

Inductive Reply :=
  | RSimple (s : bytes)
  | RSimpleOwned (s : bytes)
  | RErr (e : bytes)
  | RInt (i : Z)
  | RBulk (b : bytes)
  | RNull
  | RNullArray
  | RArray (items : list Reply)
  | RMap (pairs : list (Reply * Reply))
  | RSet (items : list Reply)
  | RDouble (f : Z)
  | RBool (b : bool)
  | RVerbatim (s : bytes)
  | RNone.

(** [for item in items { .. }] over a reply buffer. *)
Definition each {A} (w : A -> ReplyBuf -> rust ReplyBuf) : list A -> ReplyBuf -> rust ReplyBuf :=
  fix each items out :=
    match items with
    | [] => Ret out
    | item :: items => let! out := w item out in each items out
    end.

(** The error constructors of [Reply]. *)
Definition wrongtype : Reply := RErr (str "WRONGTYPE Operation against a key holding the wrong kind of value").
Definition wrong_args (cmd : string) : Reply :=
  RErr (str "ERR wrong number of arguments for '" ++ str cmd ++ str "' command").
Definition syntax : Reply := RErr (str "ERR syntax error").
Definition ok : Reply := RSimple (str "OK").
(** [v.map_or(Reply::Null, Reply::Bulk)]. *)
Definition bulk_or_null (o : option bytes) : Reply := match o with Some v => RBulk v | None => RNull end.

Section Reply.
  (** [format!("{}", f)] of a finite double, given by its bits. *)
  Context (display_f64 : Z -> bytes).

(** [is_infinite]; the sign decides between [inf] and [-inf]. *)
Definition fmt_double (f : Z) : bytes :=
  if is_nan f then [110; 97; 110]
  else if wrap 63 f =? 0x7FF0000000000000 then
    if f64_ltb 0 f then [105; 110; 102] else [45; 105; 110; 102]
  else display_f64 f.

Definition double (out : ReplyBuf) (f : Z) : rust ReplyBuf :=
  let s := fmt_double f in
  if rb_resp3 out then Ret (crlf (extend (extend out [44]) s)) else bulk out s.

Fixpoint write (r : Reply) (out : ReplyBuf) : rust ReplyBuf :=
  match r with
  | RSimple s => simple out s
  | RSimpleOwned s => simple out s
  | RErr e => error out e
  | RInt i => int out i
  | RBulk b => bulk out b
  | RNull => null out
  | RNullArray => null_array out
  | RArray items =>
      let! out := array out (Z.of_nat (length items)) in
      each write items out
  | RMap pairs =>
      let! out := map_ out (Z.of_nat (length pairs)) in
      each (fun kv out => let! out := write kv.1 out in write kv.2 out) pairs out
  | RSet items =>
      let! out := set_ out (Z.of_nat (length items)) in
      each write items out
  | RDouble f => double out f
  | RBool b => boolean out b
  | RVerbatim s => verbatim out s
  | RNone => Ret out
  end.
End Reply.

(** ** The grammar *)

Definition text_line (prefix : Z) (s : bytes) : bytes := prefix :: s ++ [13; 10].
(** Text that stays on its line. *)
Definition on_line (s : bytes) : Prop := 13 ∉ s /\ 10 ∉ s.
(** A header announcing [n] of something, then its parts. *)
Definition announced (prefix n : Z) (parts : bytes) : bytes := prefix :: Z_to_string n ++ [13; 10] ++ parts.

(** One frame of RESP2, or of RESP3 when [resp3]. *)
Inductive frame (resp3 : bool) : bytes -> Prop :=
  | fr_line prefix s : prefix ∈ [43; 45; 58] -> on_line s -> frame resp3 (text_line prefix s)
  | fr_bulk b : Z.of_nat (length b) < 2 ^ 63 -> frame resp3 (announced 36 (Z.of_nat (length b)) (b ++ [13; 10]))
  | fr_null2 prefix : resp3 = false -> prefix ∈ [36; 42] -> frame resp3 (text_line prefix [45; 49])
  | fr_line3 prefix s : resp3 = true -> prefix ∈ [95; 35; 44] -> on_line s -> frame resp3 (text_line prefix s)
  | fr_verbatim b : resp3 = true -> Z.of_nat (length b) < 2 ^ 63 ->
      frame resp3 (announced 61 (Z.of_nat (length b)) (b ++ [13; 10]))
  | fr_array fs : Z.of_nat (length fs) < 2 ^ 63 -> Forall (frame resp3) fs ->
      frame resp3 (announced 42 (Z.of_nat (length fs)) (concat fs))
  | fr_agg3 prefix fs : resp3 = true -> prefix ∈ [126; 62] -> Z.of_nat (length fs) < 2 ^ 63 ->
      Forall (frame resp3) fs -> frame resp3 (announced prefix (Z.of_nat (length fs)) (concat fs))
  | fr_map3 (n : nat) fs : resp3 = true -> length fs = (2 * n)%nat -> Z.of_nat (length fs) < 2 ^ 63 ->
      Forall (frame resp3) fs -> frame resp3 (announced 37 (Z.of_nat n) (concat fs)).

(** Replies that can be written as one frame: texts on one line, integers of
    64 bits, lengths below 2{^62}, no [None] inside. *)
Definition all_of {A} (P : A -> Prop) : list A -> Prop :=
  fix all_of l := match l with [] => True | x :: l => P x /\ all_of l end.
Fixpoint reply_ok (r : Reply) : Prop :=
  match r with
  | RSimple s | RSimpleOwned s | RErr s => on_line s
  | RInt i => i64 i
  | RBulk s | RVerbatim s => Z.of_nat (length s) < 2 ^ 62
  | RNull | RNullArray | RDouble _ | RBool _ => True
  | RArray items | RSet items =>
      Z.of_nat (length items) < 2 ^ 62 /\
      all_of reply_ok items
  | RMap pairs =>
      Z.of_nat (length pairs) < 2 ^ 62 /\
      all_of (fun kv => reply_ok kv.1 /\ reply_ok kv.2) pairs
  | RNone => False
  end.


(** ** Writing only appends *)

(** [w] appends a text that the protocol version alone decides, or panics. *)
Definition appends (w : ReplyBuf -> rust ReplyBuf) : Prop :=
  forall r3, (exists t, forall out, rb_resp3 out = r3 -> w out = Ret (extend out t)) \/
             (forall out, rb_resp3 out = r3 -> w out = Panic).

Lemma extend_app out a b : extend (extend out a) b = extend out (a ++ b).
Proof. unfold extend. simpl. by rewrite app_assoc. Qed.
Lemma extend_nil out : extend out [] = out.
Proof. unfold extend. rewrite app_nil_r. by destruct out. Qed.

Lemma appends_ret (t : bool -> bytes) : appends (fun out => Ret (extend out (t (rb_resp3 out)))).
Proof. intros r3. left. exists (t r3). by intros out <-. Qed.

Lemma appends_bind w1 w2 : appends w1 -> appends w2 -> appends (fun out => let! out := w1 out in w2 out).
Proof.
  intros H1 H2 r3. destruct (H1 r3) as [[t1 E1]|E1]; [|right; intros out V; by rewrite E1].
  destruct (H2 r3) as [[t2 E2]|E2].
  - left. exists (t1 ++ t2). intros out V. rewrite E1 by done. simpl. by rewrite E2, extend_app by done.
  - right. intros out V. rewrite E1 by done. simpl. by rewrite E2.
Qed.

Lemma appends_each {A} (w : A -> ReplyBuf -> rust ReplyBuf) l : Forall (fun x => appends (w x)) l -> appends (each w l).
Proof.
  induction 1 as [|x l Hx _ IH].
  - intros r3. left. exists []. intros out _. simpl. by rewrite extend_nil.
  - exact (appends_bind _ _ Hx IH).
Qed.

Lemma appends_i64 i : appends (fun out => write_i64 out i).
Proof.
  intros r3. unfold write_i64. destruct (fmt_i64 i) as [t|]; [left; exists t|right]; done.
Qed.

Lemma appends_header p n : appends (fun out => header out p n).
Proof.
  unfold header, write_usize. intros r3.
  pose proof (appends_bind _ _ (appends_ret (fun _ => [p])) (appends_bind _ _ (appends_i64 (to_signed 64 n)) (appends_ret (fun _ => [13; 10]))) r3) as H.
  exact H.
Qed.

Lemma appends_text (t : bytes) : appends (fun out => Ret (extend out t)).
Proof. exact (appends_ret (fun _ => t)). Qed.

Lemma appends_frame_bulk b : appends (fun out => bulk out b).
Proof. exact (appends_bind _ _ (appends_header 36 _) (appends_bind _ _ (appends_text b) (appends_text [13; 10]))). Qed.

Lemma appends_if (c : bool -> bool) w1 w2 : appends w1 -> appends w2 ->
  appends (fun out => if c (rb_resp3 out) then w1 out else w2 out).
Proof.
  intros H1 H2 r3. destruct (c r3) eqn:E; [destruct (H1 r3) as [[t F]|F]|destruct (H2 r3) as [[t F]|F]];
    [left; exists t|right|left; exists t|right]; intros out V; rewrite V, E; by apply F.
Qed.

Lemma appends_line_text p t : appends (fun out => Ret (crlf (extend (extend out [p]) t))).
Proof. exact (appends_bind _ _ (appends_text [p]) (appends_bind _ _ (appends_text t) (appends_text [13; 10]))). Qed.

Lemma appends_agg p3 p2 n3 n2 w : appends w -> appends (fun out =>
  let! out := (if rb_resp3 out then header out p3 n3 else header out p2 n2) in w out).
Proof.
  intros H. exact (appends_bind _ _ (appends_if (fun r3 => r3) _ _ (appends_header p3 n3) (appends_header p2 n2)) H).
Qed.

Lemma appends_write display_f64 : forall r, appends (write display_f64 r).
Proof.
  fix IH 1. intros r. destruct r as [s|s|e|i|b| | |items|pairs|items|f|b|s|].
  1-3: apply appends_line_text.
  - exact (appends_bind _ _ (appends_text [58]) (appends_bind _ _ (appends_i64 i) (appends_text [13; 10]))).
  - apply appends_frame_bulk.
  - exact (appends_ret (fun r3 : bool => if r3 then _ else _)).
  - exact (appends_ret (fun r3 : bool => if r3 then _ else _)).
  - refine (appends_bind _ _ (appends_header 42 _) (appends_each _ _ _)). induction items; constructor; auto.
  - refine (appends_agg 37 42 _ _ _ (appends_each _ _ _)). induction pairs as [|[k v] pairs IHp]; constructor; [|done].
    exact (appends_bind _ _ (IH k) (IH v)).
  - refine (appends_agg 126 42 _ _ _ (appends_each _ _ _)). induction items; constructor; auto.
  - exact (appends_if (fun r3 => r3) _ _ (appends_line_text 44 _) (appends_frame_bulk _)).
  - exact (appends_ret (fun r3 : bool => if r3 then _ else _)).
  - refine (appends_if (fun r3 => r3) _ _ _ (appends_frame_bulk s)).
    exact (appends_bind _ _ (appends_header 61 _) (appends_bind _ _ (appends_text [116; 120; 116; 58])
      (appends_bind _ _ (appends_text s) (appends_text [13; 10])))).
  - intros r3. left. exists []. intros out _. simpl. by rewrite extend_nil.
Qed.

(** ** Every reply is one frame *)

(** Closed decidable facts. *)
Ltac computed := apply (bool_decide_unpack _); vm_compute; reflexivity.

(** [w] appends one frame of the buffer's protocol. *)
Definition appends_frame (w : ReplyBuf -> rust ReplyBuf) : Prop :=
  forall out, exists f, w out = Ret (extend out f) /\ frame (rb_resp3 out) f.

Lemma each_frames (w : Reply -> ReplyBuf -> rust ReplyBuf) items :
  Forall (fun r => appends_frame (w r)) items -> forall out, exists fs,
  each w items out = Ret (extend out (concat fs)) /\ length fs = length items /\ Forall (frame (rb_resp3 out)) fs.
Proof.
  induction 1 as [|r items Hr _ IH]; intros out.
  - exists []. simpl. rewrite extend_nil. auto.
  - destruct (Hr out) as (f & E & F). destruct (IH (extend out f)) as (fs & E' & L & Fs).
    exists (f :: fs). cbn [each rust_bind]. rewrite E. cbn [rust_bind]. rewrite E', extend_app.
    simpl. auto.
Qed.

Lemma each_pairs_at (w : Reply -> ReplyBuf -> rust ReplyBuf) pairs : forall out,
  each (fun kv out => let! out := w kv.1 out in w kv.2 out) pairs out =
  each w (concat (map (fun kv => [kv.1; kv.2]) pairs)) out.
Proof.
  induction pairs as [|[k v] pairs IH]; intros out; [done|]. simpl.
  destruct (w k out) as [out1|]; simpl; [|done]. destruct (w v out1) as [out2|]; simpl; [apply IH|done].
Qed.

Lemma all_of_Forall {A} (P : A -> Prop) l : all_of P l <-> Forall P l.
Proof. induction l as [|x l IH]; simpl; [by split|]. by rewrite Forall_cons, IH. Qed.

Lemma aggregate_frames (w : Reply -> ReplyBuf -> rust ReplyBuf) (prefix : bool -> Z) (n : bool -> Z) items :
  (forall resp3 fs, length fs = length items -> Forall (frame resp3) fs ->
     frame resp3 (announced (prefix resp3) (n resp3) (concat fs))) ->
  (forall resp3, 0 <= n resp3 < 2 ^ 63) -> Forall (fun r => appends_frame (w r)) items ->
  appends_frame (fun out =>
    let! out := header out (prefix (rb_resp3 out)) (n (rb_resp3 out)) in each w items out).
Proof.
  intros Hf Hn F out. rewrite header_spec by apply Hn. cbn [rust_bind].
  destruct (each_frames w items F (extend out (prefix (rb_resp3 out) :: Z_to_string (n (rb_resp3 out)) ++ [13; 10])))
    as (fs & E & L & Fs).
  eexists. rewrite E, extend_app. split; [reflexivity|].
  specialize (Hf (rb_resp3 out) fs L Fs). unfold announced in Hf.
  replace ((_ :: _ ++ [13; 10]) ++ concat fs)
    with (prefix (rb_resp3 out) :: Z_to_string (n (rb_resp3 out)) ++ [13; 10] ++ concat fs) by app_solve.
  exact Hf.
Qed.

Lemma digits_on_line l : Forall digit l -> on_line l.
Proof.
  intros F. split; intros I; pose proof (proj1 (Forall_forall _ _) F _ I) as D; unfold digit in D; lia.
Qed.

Lemma Z_to_string_on_line i : i64 i -> on_line (Z_to_string i).
Proof.
  intros Hi. unfold i64 in Hi.
  assert (A : forall m, 0 <= m <= 2 ^ 63 -> Forall digit (dec_loop 20 m [])).
  { intros m Hm. destruct (fmt_loop_spec 20 m []) as (idx & ds & R & N & F & _);
      [lia|change (Z.of_nat 20) with 20; lia|].
    by rewrite (fmt_loop_dec _ _ _ _ _ R), app_nil_r. }
  unfold Z_to_string. destruct (i <? 0) eqn:E; [apply Z.ltb_lt in E|apply Z.ltb_ge in E].
  - pose proof (digits_on_line _ (A (- i) ltac:(lia))) as [H1 H2].
    split; rewrite not_elem_of_cons; split; auto; lia.
  - apply digits_on_line, A. lia.
Qed.

Lemma appends_line prefix s : prefix ∈ [43; 45; 58] -> on_line s ->
  appends_frame (fun out => Ret (crlf (extend (extend out [prefix]) s))).
Proof.
  intros Hp Hs out. eexists. split; [|apply (fr_line _ prefix s Hp Hs)].
  unfold crlf, text_line. by rewrite !extend_app.
Qed.

Lemma appends_bulk b : Z.of_nat (length b) < 2 ^ 63 -> appends_frame (fun out => bulk out b).
Proof. intros Hb out. exists (bulk_text b). rewrite bulk_spec by done. split; [done|]. by apply fr_bulk. Qed.

Lemma appends_null prefix2 : prefix2 ∈ [36; 42] ->
  appends_frame (fun out => Ret (extend out (if rb_resp3 out then [95; 13; 10] else [prefix2; 45; 49; 13; 10]))).
Proof.
  intros Hp out. eexists. split; [reflexivity|]. destruct (rb_resp3 out) eqn:V.
  - apply (fr_line3 _ 95 []); [done|computed|by split; apply not_elem_of_nil].
  - by apply (fr_null2 _ prefix2).
Qed.

Lemma appends_bool b : appends_frame (fun out => boolean out b).
Proof.
  intros out. eexists. split; [reflexivity|]. destruct (rb_resp3 out) eqn:V, b.
  - by apply (fr_line3 _ 35 [116]); [done|computed|split; computed].
  - by apply (fr_line3 _ 35 [102]); [done|computed|split; computed].
  - by apply (fr_line _ 58 [49]); [computed|split; computed].
  - by apply (fr_line _ 58 [48]); [computed|split; computed].
Qed.

Lemma appends_verbatim s : Z.of_nat (length s) < 2 ^ 62 -> appends_frame (fun out => verbatim out s).
Proof.
  intros Hs out. unfold verbatim. destruct (rb_resp3 out) eqn:V.
  - rewrite header_spec by lia. unfold crlf. cbn [rust_bind]. rewrite !extend_app. eexists. split; [reflexivity|].
    pose proof (fr_verbatim (rb_resp3 out) ([116; 120; 116; 58] ++ s) V) as F.
    unfold announced in F. rewrite length_app in F. specialize (F ltac:(simpl; lia)).
    replace (Z.of_nat (length [116; 120; 116; 58] + length s))
      with (Z.of_nat (length s) + 4) in F by (simpl; lia). rewrite <- V.
    revert F. generalize (Z_to_string (Z.of_nat (length s) + 4)). intros ds F.
    eapply eq_ind; [exact F|]. app_solve.
  - destruct (appends_bulk s) with out as (f & E & F); [lia|]. rewrite V in F. eauto.
Qed.

Section Writes.
  Context (display_f64 : Z -> bytes).
  (** A displayed double is digits, a point and a sign, a few hundred at
      most. *)
  Hypothesis display_text : forall f, on_line (display_f64 f) /\ Z.of_nat (length (display_f64 f)) < 2 ^ 63.

Lemma fmt_double_text f :
  on_line (fmt_double display_f64 f) /\ Z.of_nat (length (fmt_double display_f64 f)) < 2 ^ 63.
Proof.
  unfold fmt_double. destruct (is_nan f); [|destruct (_ =? _); [destruct (f64_ltb 0 f)|apply display_text]];
    (split; computed).
Qed.

Lemma appends_double f : appends_frame (fun out => double display_f64 out f).
Proof.
  intros out. unfold double. destruct (fmt_double_text f) as [L B]. destruct (rb_resp3 out) eqn:V.
  - eexists. split; [unfold crlf; by rewrite !extend_app|]. apply (fr_line3 _ 44); [done|computed|done].
  - destruct (appends_bulk (fmt_double display_f64 f) B out) as (g & E & F). rewrite V in F. eauto.
Qed.

Lemma write_frame : forall r, reply_ok r -> appends_frame (write display_f64 r).
Proof.
  fix IH 1. intros r. destruct r as [s|s|e|i|b| | |items|pairs|items|f|b|s|]; cbn [reply_ok]; intros H.
  1-3: apply appends_line; [computed|done].
  - intros out. cbn [write]. unfold int, write_i64. rewrite fmt_i64_to_string by done. cbn [rust_bind].
    apply (appends_line 58 (Z_to_string i)); [computed|by apply Z_to_string_on_line].
  - apply appends_bulk. lia.
  - apply (appends_null 36). computed.
  - apply (appends_null 42). computed.
  - destruct H as [L A].
    apply (aggregate_frames (write display_f64) (fun _ => 42) (fun _ => Z.of_nat (length items)) items).
    + intros r3 fs E F. rewrite <- E. apply fr_array; [lia|done].
    + lia.
    + clear L. induction items as [|r items IHi]; constructor; [apply IH, A|apply IHi, A].
  - destruct H as [L A]. intros out. cbn [write].
    set (flat := concat (map (fun kv : Reply * Reply => [kv.1; kv.2]) pairs)).
    assert (LF : length flat = (2 * length pairs)%nat).
    { unfold flat. clear. induction pairs; simpl in *; lia. }
    pose proof (aggregate_frames (write display_f64) (fun r3 : bool => if r3 then 37 else 42)
      (fun r3 : bool => if r3 then Z.of_nat (length pairs) else Z.of_nat (length pairs) * 2) flat) as G.
    destruct (G) with out as (f & E & F); clear G.
    + intros [] fs E F; rewrite LF in E; [by apply fr_map3; [done| |lia|]|].
      replace (Z.of_nat (length pairs) * 2) with (Z.of_nat (length fs)) by lia. apply fr_array; [lia|done].
    + intros []; lia.
    + clear L LF. unfold flat. clear flat. induction pairs as [|[k v] pairs IHi]; [constructor|].
      destruct A as [[Ak Av] A]. constructor; [apply IH, Ak|]. constructor; [apply IH, Av|apply IHi, A].
    + exists f. split; [|done]. rewrite <- E. unfold map_.
      destruct (rb_resp3 out); destruct (header _ _ _); simpl; [apply each_pairs_at|done|apply each_pairs_at|done].
  - destruct H as [L A]. intros out. cbn [write].
    destruct (aggregate_frames (write display_f64) (fun r3 : bool => if r3 then 126 else 42)
      (fun _ => Z.of_nat (length items)) items) with out as (f & E & F).
    + intros [] fs E F; rewrite <- E; [apply fr_agg3; [done|computed|lia|done]|apply fr_array; [lia|done]].
    + lia.
    + clear L. induction items as [|r items IHi]; constructor; [apply IH, A|apply IHi, A].
    + exists f. split; [|done]. rewrite <- E. unfold set_. by destruct (rb_resp3 out).
  - apply appends_double.
  - apply appends_bool.
  - by apply appends_verbatim.
  - done.
Qed.
End Writes.

(** ** Frames delimit themselves *)

(** A frame is a prefix, a line and a body the first two determine. *)
Inductive framed (resp3 : bool) : Z -> bytes -> bytes -> Prop :=
  | fd_line p s : p ∈ [43; 45; 58; 95; 35; 44] -> 13 ∉ s -> framed resp3 p s []
  | fd_null p : p ∈ [36; 42] -> framed resp3 p [45; 49] []
  | fd_blob p b : p ∈ [36; 61] -> Z.of_nat (length b) < 2 ^ 63 ->
      framed resp3 p (Z_to_string (Z.of_nat (length b))) (b ++ [13; 10])
  | fd_agg p (n : nat) fs : p ∈ [42; 126; 62; 37] -> length fs = ((if (p =? 37)%Z then 2 else 1) * n)%nat ->
      Z.of_nat n < 2 ^ 63 -> Forall (frame resp3) fs -> framed resp3 p (Z_to_string (Z.of_nat n)) (concat fs).

Lemma frame_framed resp3 f : frame resp3 f ->
  exists p line body, f = p :: line ++ 13 :: 10 :: body /\ framed resp3 p line body.
Proof.
  intros F. destruct F as [p s Hp [H _]|b H|p V Hp|p s V Hp [H _]|b V H|fs H F|p fs V Hp H F|n fs V L H F].
  - exists p, s, []. split; [done|]. apply fd_line; [|done]. set_solver.
  - eexists _, _, _. split; [reflexivity|]. apply fd_blob; [computed|done].
  - eexists p, _, []. split; [reflexivity|]. by apply fd_null.
  - exists p, s, []. split; [done|]. apply fd_line; [|done]. set_solver.
  - eexists _, _, _. split; [reflexivity|]. apply fd_blob; [computed|done].
  - eexists _, _, _. split; [reflexivity|]. apply fd_agg; [computed|simpl; lia|done|done].
  - eexists _, _, _. split; [reflexivity|]. apply fd_agg; [set_solver| |done|done].
    rewrite (proj2 (Z.eqb_neq p 37)); [lia|set_solver].
  - eexists _, _, _. split; [reflexivity|]. apply fd_agg; [computed|simpl; lia|lia|done].
Qed.

Lemma framed_line resp3 p line body : framed resp3 p line body -> 13 ∉ line.
Proof.
  intros F. destruct F as [|p Hp|p b Hp H|p n fs Hp L H F]; [done|computed|..].
  - apply (Z_to_string_on_line (Z.of_nat (length b))). unfold i64. lia.
  - apply (Z_to_string_on_line (Z.of_nat n)). unfold i64. lia.
Qed.

Lemma line_cut (a b x y : bytes) : 13 ∉ a -> 13 ∉ b -> a ++ 13 :: x = b ++ 13 :: y -> a = b /\ x = y.
Proof.
  revert b. induction a as [|c a IH]; intros [|d b] Ha Hb E; cbn [app] in E.
  - by injection E.
  - injection E as <- _. set_solver.
  - injection E as -> _. set_solver.
  - injection E as -> E. apply not_elem_of_cons in Ha as [_ Ha], Hb as [_ Hb]. destruct (IH b Ha Hb E). by subst.
Qed.

Lemma length_text_inj m n : 0 <= m < 2 ^ 63 -> 0 <= n < 2 ^ 63 -> Z_to_string m = Z_to_string n -> m = n.
Proof.
  intros Hm Hn E. destruct (length_text m Hm) as (_ & _ & Pm), (length_text n Hn) as (_ & _ & Pn).
  rewrite E in Pm. congruence.
Qed.

Lemma length_text_null n : 0 <= n < 2 ^ 63 -> Z_to_string n <> [45; 49].
Proof. intros Hn E. destruct (length_text n Hn) as (_ & _ & P). rewrite E in P. vm_compute in P. invert P. lia. Qed.

Lemma length_concat_elem (l : list bytes) x : x ∈ l -> (length x <= length (concat l))%nat.
Proof.
  induction l as [|y l IH]; intros H; [by apply not_elem_of_nil in H|]. simpl. rewrite length_app.
  apply elem_of_cons in H as [->|H]; [lia|]. specialize (IH H). lia.
Qed.

(** Two cuttings of the same bytes into as many frames agree. *)
Lemma concat_cut (P : bytes -> Prop) fs : 
  Forall (fun f => forall g x y, P g -> f ++ x = g ++ y -> f = g) fs ->
  forall gs x y, Forall P gs -> length fs = length gs -> concat fs ++ x = concat gs ++ y -> fs = gs.
Proof.
  induction 1 as [|f fs Hf _ IH]; intros [|g gs] x y G L E; simpl in *; try done.
  apply Forall_cons in G as [Gg G]. rewrite <- !app_assoc in E.
  assert (f = g) as -> by (eapply Hf; eauto). apply app_inv_head in E. f_equal. eapply IH; eauto.
Qed.

Lemma frame_prefix_free resp3 n : forall f g x y, (length f <= n)%nat ->
  frame resp3 f -> frame resp3 g -> f ++ x = g ++ y -> f = g.
Proof.
  induction n as [|n IH]; intros f g x y Hn Ff Fg E;
    destruct (frame_framed _ _ Ff) as (p & l & b & -> & Bf), (frame_framed _ _ Fg) as (q & m & c & -> & Bg).
  { simpl in Hn. lia. }
  simpl in E. rewrite <- !app_assoc in E. injection E as <- E. cbn [app] in E.
  apply line_cut in E as [<- E]; [|by eapply framed_line..]. injection E as E. do 4 f_equal.
  assert (Hb : (length b <= n)%nat) by (simpl in Hn; rewrite length_app in Hn; simpl in Hn; lia).
  destruct Bf as [p s Hp _|p Hp|p b Hp H|p k fs Hp L H F]; inversion Bg as [? ? Hq|? Hq|? b' Hq H'|? k' gs Hq L' H' G]; subst; try done.
  all: try (exfalso; set_solver).
  all: try (exfalso; eapply length_text_null; [|by eauto]; lia).
  - match goal with El : Z_to_string _ = _ |- _ => apply length_text_inj in El; [|lia..] end. rewrite <- !app_assoc in E.
    apply app_inj_1 in E as [-> _]; [done|lia].
  - match goal with El : Z_to_string _ = _ |- _ => apply length_text_inj in El; [|lia..] end. f_equal.
    apply (concat_cut (frame resp3) fs) with x y; [|done|lia|done].
    apply Forall_forall. intros f If g x' y' Fg' E'. eapply IH; eauto.
    + etransitivity; [|exact Hb]. by apply length_concat_elem.
    + by apply (proj1 (Forall_forall _ _) F).
Qed.

(** Every cutting of the bytes of some frames into frames is that one. *)
Lemma frames_unique resp3 fs : Forall (frame resp3) fs -> forall gs,
  Forall (frame resp3) gs -> concat gs = concat fs -> gs = fs.
Proof.
  assert (NE : forall f s, frame resp3 f -> f ++ s <> []).
  { intros f s F E. destruct (frame_framed _ _ F) as (p & l & b & -> & _). discriminate. }
  induction 1 as [|f fs Hf _ IH]; intros [|g gs] G E; simpl in E; try done;
    try (apply Forall_cons in G as [Gg G]).
  - by apply NE in E.
  - symmetry in E. by apply NE in E.
  - assert (g = f) as -> by (eapply frame_prefix_free; [reflexivity|eauto..]).
    apply app_inv_head in E. f_equal. by apply IH.
Qed.

(** [C31] Replies stay in step with commands, under RESP2 and RESP3: the bytes
    written for a batch of replies are one frame per reply, in order, and
    there is no other way to read them as frames, so a client that reads
    frames assigns each answer to its command. (Texts of simple strings and
    errors must stay on one line, and nothing inside an array may be
    [None].) *)
Theorem replies_stay_in_step (display_f64 : Z -> bytes) (resp3 : bool) (rs : list Reply) :
  (forall f, on_line (display_f64 f) /\ Z.of_nat (length (display_f64 f)) < 2 ^ 63) ->
  Forall reply_ok rs ->
  exists out fs, each (write display_f64) rs (ReplyBuf_new resp3) = Ret out /\
    rb_buf out = concat fs /\ length fs = length rs /\ Forall (frame resp3) fs /\
    forall gs, Forall (frame resp3) gs -> concat gs = rb_buf out -> gs = fs.
Proof.
  intros D F. destruct (each_frames (write display_f64) rs) with (ReplyBuf_new resp3) as (fs & E & L & Fs).
  { eapply Forall_impl; [exact F|]. intros r Hr. by apply write_frame. }
  exists (extend (ReplyBuf_new resp3) (concat fs)), fs. repeat split; try done.
  intros gs G Eg. by apply (frames_unique resp3).
Qed.

(** An array holding a null, a double and a map; then an error. *)
Lemma replies_stay_in_step_witness :
  let rs := [RArray [RNull; RDouble 0x7FF0000000000000; RMap [(RBulk [97], RBool true)]]; RErr [69; 82; 82]] in
  let display (_ : Z) := [49] in
  each (write display) rs (ReplyBuf_new false) = Ret (mkReplyBuf false
    ([42; 51; 13; 10] ++ [36; 45; 49; 13; 10] ++ [36; 51; 13; 10; 105; 110; 102; 13; 10] ++
     [42; 50; 13; 10; 36; 49; 13; 10; 97; 13; 10; 58; 49; 13; 10] ++ [45; 69; 82; 82; 13; 10])) /\
  exists out fs, each (write display) rs (ReplyBuf_new false) = Ret out /\
    rb_buf out = concat fs /\ length fs = length rs /\ Forall (frame false) fs /\
    forall gs, Forall (frame false) gs -> concat gs = rb_buf out -> gs = fs.
Proof.
  intros rs display. split; [vm_compute; reflexivity|]. apply replies_stay_in_step.
  - intros f. split; [split|]; computed.
  - repeat constructor; computed.
Defined.

(** ** An error text is not kept on its line *)

(** The reply of [dispatch] to a name it does not know: the name as the
    client sent it, decoded (bytes below 128 are left alone), in quotes. *)
Definition unknown_command (name : bytes) : Reply :=
  RErr ([69; 82; 82; 32; 117; 110; 107; 110; 111; 119; 110; 32; 99; 111; 109; 109; 97; 110; 100; 32; 39] ++ name ++ [39]).

(** The writer does not keep an error text on its line, and [dispatch]
    echoes an unknown command name into one: for every text [evil] the client
    chooses, a command named [x CR LF + evil] is answered by two frames, the
    second of which the client cannot tell from the answer to its next
    command. *)
Theorem unknown_command_splits_reply (display_f64 : Z -> bytes) (resp3 : bool) (evil : bytes) : on_line evil ->
  exists out f g, write display_f64 (unknown_command ([120; 13; 10; 43] ++ evil)) (ReplyBuf_new resp3) = Ret out /\
    rb_buf out = f ++ g /\ frame resp3 f /\ frame resp3 g /\ g = text_line 43 (evil ++ [39]).
Proof.
  intros [H1 H2]. eexists _, (text_line 45 _), (text_line 43 (evil ++ [39])). split; [reflexivity|].
  split; [|split; [|split; [|reflexivity]]].
  - cbn -[app]. rewrite <- !app_assoc. instantiate (1 := [69; 82; 82; 32; 117; 110; 107; 110; 111; 119; 110; 32; 99; 111; 109; 109; 97; 110; 100; 32; 39; 120]).
    unfold text_line. app_solve.
  - apply fr_line; [computed|split; computed].
  - apply fr_line; [computed|]. split; set_solver.
Qed.

Lemma unknown_command_splits_reply_witness :
  exists out f g, write (fun _ => []) (unknown_command ([120; 13; 10; 43] ++ [79; 75])) (ReplyBuf_new false) = Ret out /\
    rb_buf out = f ++ g /\ frame false f /\ frame false g /\ g = text_line 43 ([79; 75] ++ [39]).
Proof. apply unknown_command_splits_reply. split; computed. Defined.
