(* ===== verification/Glob.v ===== *)
(** * Glob patterns

    Models [glob_match] of [crates/marekvs-engine/src/pubsub.rs]: an
    iterative matcher that remembers only the last [*] it met. It selects the
    channels of a pattern subscription and the keys, members and fields of
    the SCAN commands.

    [glob_spec] says which texts a pattern means, with [*] as "any text".
    The matcher is shown to terminate on every input, and to agree with the
    specification on every text without a backslash: remembering one star is
    enough because every other token consumes exactly one byte. *)

From S2P Require Import Prelude.

(** The [while] loop of [class_match], at index [i] of [p]. *)
Fixpoint class_loop (fuel : nat) (p : bytes) (c : Z) (negate : bool) (i : nat) (matched first : bool)
    : option (bool * nat) :=
  match fuel with
  | O => None
  | S fuel =>
      match p !! i with
      | None => None
      | Some x =>
          if (x =? 93) && negb first then Some (xorb matched negate, i + 1)%nat
          else if (x =? 92) && (i + 1 <? length p)%nat then
            class_loop fuel p c negate (i + 2) (matched || (byte_at p (i + 1) =? c)) false
          else if (i + 2 <? length p)%nat && (byte_at p (i + 1) =? 45) && negb (byte_at p (i + 2) =? 93) then
            class_loop fuel p c negate (i + 3) (matched || ((x <=? c) && (c <=? byte_at p (i + 2)))) false
          else class_loop fuel p c negate (i + 1) (matched || (x =? c)) false
      end
  end.
(** Each round moves [i] on, so the length of [p] bounds the rounds. *)
Definition class_match (p : bytes) (c : Z) : option (bool * nat) :=
  let negate := bool_decide (p !! 1%nat = Some 33) in
  class_loop (S (length p)) p c negate (if negate then 2 else 1) false true.

(** One pattern token other than [*] against one byte: how far the pattern
    moves when they match. *)
Definition token (p : bytes) (pi : nat) (c : Z) : option nat :=
  let x := byte_at p pi in
  if x =? 63 then Some 1%nat
  else if (x =? 92) && (pi + 1 <? length p)%nat && (byte_at p (pi + 1) =? c) then Some 2%nat
  else if x =? 91 then
    match class_match (drop pi p) c with Some (true, adv) => Some adv | _ => None end
  else if x =? c then Some 1%nat
  else None.

(** The trailing loop: skip stars. *)
Fixpoint skip_stars (fuel : nat) (p : bytes) (pi : nat) : nat :=
  match fuel with
  | O => pi
  | S fuel => if (pi <? length p)%nat && (byte_at p pi =? 42) then skip_stars fuel p (pi + 1) else pi
  end.

(** The main loop; [star] is [(star_p, star_t)] once a star was met. [None]
    when the fuel runs out. *)
Fixpoint glob_loop (fuel : nat) (p t : bytes) (pi ti : nat) (star : option (nat * nat)) : option bool :=
  match fuel with
  | O => None
  | S fuel =>
      if (ti <? length t)%nat then
        let backtrack :=
          match star with
          | Some (star_p, star_t) =>
              glob_loop fuel p t (star_p + 1) (star_t + 1) (Some (star_p, star_t + 1))%nat
          | None => Some false
          end in
        if (pi <? length p)%nat then
          if byte_at p pi =? 42 then glob_loop fuel p t (pi + 1) ti (Some (pi, ti))
          else match token p pi (byte_at t ti) with
               | Some adv => glob_loop fuel p t (pi + adv) (ti + 1) star
               | None => backtrack
               end
        else backtrack
      else Some (skip_stars (length p) p pi =? length p)%nat
  end.

Definition glob_fuel (p t : bytes) : nat :=
  S ((length t + 1) * (length p + length t + 2) + length p + length t).
Definition glob_match (p t : bytes) : option bool := glob_loop (glob_fuel p t) p t 0 0 None.

(** ** Specification *)

(** The texts of a pattern (given from an index): a star stands for any
    text, every other token for one byte. *)
Inductive glob_spec (p : bytes) : nat -> bytes -> Prop :=
  | glob_end : glob_spec p (length p) []
  | glob_star_none pi t : byte_at p pi = 42 -> (pi < length p)%nat ->
      glob_spec p (pi + 1) t -> glob_spec p pi t
  | glob_star_more pi c t : byte_at p pi = 42 -> (pi < length p)%nat ->
      glob_spec p pi t -> glob_spec p pi (c :: t)
  | glob_token pi c t adv : byte_at p pi <> 42 -> (pi < length p)%nat ->
      token p pi c = Some adv -> glob_spec p (pi + adv) t -> glob_spec p pi (c :: t).

(** The tests of [pubsub.rs]. *)
Example glob_tests :
  glob_match [42] [97; 98] = Some true /\
  glob_match [104; 91; 97; 45; 99; 93; 108] [104; 98; 108] = Some true /\
  glob_match [104; 91; 33; 97; 101; 93; 108] [104; 97; 108] = Some false /\
  glob_match [97; 42; 98; 42; 99] [97; 120; 120; 98; 121; 121; 99] = Some true /\
  glob_match [97; 42; 98; 42; 99] [97; 120; 120; 98; 121; 121] = Some false /\
  glob_match [92; 42] [42] = Some true /\ glob_match [92; 42] [120] = Some false.
Proof. vm_compute. repeat split. Qed.

(** ** Tokens *)

(** How far a class reaches does not depend on the byte it is tried on. *)
Lemma class_loop_adv fuel p c negate : forall i m f b adv,
  class_loop fuel p c negate i m f = Some (b, adv) -> (i < adv <= length p)%nat /\
  forall c' m', exists b', class_loop fuel p c' negate i m' f = Some (b', adv).
Proof.
  induction fuel as [|fuel IH]; intros i m f b adv; cbn [class_loop]; [discriminate|].
  destruct (p !! i) as [x|] eqn:L; [|discriminate]. apply lookup_lt_Some in L.
  destruct ((x =? 93) && negb f); [intros E; invert E; split; [lia|eauto]|].
  destruct ((x =? 92) && _) eqn:B1; [|destruct ((i + 2 <? length p)%nat && _ && _) eqn:B2]; intros E; apply IH in E as [A C];
    (split; [lia|intros; apply C]).
Qed.

Lemma class_match_adv p c b adv : class_match p c = Some (b, adv) -> (1 <= adv <= length p)%nat /\
  forall c', exists b', class_match p c' = Some (b', adv).
Proof.
  unfold class_match. intros E. apply class_loop_adv in E as [A C]. split; [|eauto].
  destruct (bool_decide _); lia.
Qed.

Lemma token_adv p pi c adv : (pi < length p)%nat -> token p pi c = Some adv ->
  (1 <= adv)%nat /\ (pi + adv <= length p)%nat.
Proof.
  unfold token. intros Hp. destruct (_ =? 63); [intros E; invert E; lia|].
  destruct (_ && _ && _) eqn:B.
  { apply andb_true_iff in B as [B _]. apply andb_true_iff in B as [_ B]. apply Nat.ltb_lt in B.
    intros E. invert E. lia. }
  destruct (_ =? 91).
  - destruct (class_match _ _) as [[[] a]|] eqn:C; intros E; invert E.
    apply class_match_adv in C as [C _]. rewrite length_drop in C. lia.
  - destruct (byte_at p pi =? c); [|discriminate]. intros E. injection E as <-. lia.
Qed.

(** On bytes other than the backslash a token always moves as far. *)
Lemma token_uniform p pi c c' a a' : c <> 92 -> c' <> 92 ->
  token p pi c = Some a -> token p pi c' = Some a' -> a = a'.
Proof.
  unfold token. intros N N'. destruct (_ =? 63); [congruence|].
  destruct (byte_at p pi =? 92) eqn:X; simpl.
  - apply Z.eqb_eq in X. rewrite X. rewrite (proj2 (Z.eqb_neq 92 c)), (proj2 (Z.eqb_neq 92 c')) by lia.
    simpl. destruct (_ && _), (_ && _); congruence.
  - destruct (_ =? 91); [|destruct (_ =? c), (_ =? c'); congruence].
    destruct (class_match _ c) as [[[] x]|] eqn:C; try discriminate.
    apply class_match_adv in C as [_ C]. destruct (C c') as [b' ->]. destruct b'; congruence.
Qed.

(** ** Termination *)

Definition star_at (star : option (nat * nat)) : nat := match star with Some (_, st) => st | None => 0%nat end.

Lemma glob_loop_total fuel : forall p t pi ti star,
  (pi <= length p)%nat -> (star_at star <= ti <= length t)%nat ->
  (forall sp st, star = Some (sp, st) -> sp < length p)%nat ->
  ((length t - star_at star) * (length p + length t + 2) + (length p - pi) + (length t - ti) < fuel)%nat ->
  exists b, glob_loop fuel p t pi ti star = Some b.
Proof.
  induction fuel as [|fuel IH]; intros p t pi ti star Hp Ht Hs F; [by apply Nat.nlt_0_r in F|]. cbn [glob_loop].
  destruct (ti <? length t)%nat eqn:T; [|eauto]. apply Nat.ltb_lt in T.
  assert (BT : exists b, match star with
     | Some (sp, st) => glob_loop fuel p t (sp + 1) (st + 1) (Some (sp, st + 1))%nat | None => Some false end = Some b).
  { destruct star as [[sp st]|]; [|eauto]. simpl in *. specialize (Hs sp st eq_refl). apply IH; simpl.
    - lia.
    - lia.
    - intros ? ? E. by invert E.
    - nia. }
  destruct (pi <? length p)%nat eqn:P; [|done]. apply Nat.ltb_lt in P.
  destruct (byte_at p pi =? 42).
  - apply IH; simpl; [lia|lia|intros ? ? E; by invert E|].
    assert ((length t - ti) * (length p + length t + 2) <= (length t - star_at star) * (length p + length t + 2))%nat
      by (apply Nat.mul_le_mono_r; lia). lia.
  - destruct (token p pi _) as [adv|] eqn:K; [|done]. apply token_adv in K; [|done]. apply IH; [lia|lia|done|lia].
Qed.

(** ** Agreement with the specification *)

Lemma spec_star p pi u : byte_at p pi = 42 -> (pi < length p)%nat ->
  (glob_spec p pi u <-> exists k, (k <= length u)%nat /\ glob_spec p (pi + 1) (drop k u)).
Proof.
  intros B L. split.
  - intros G. remember pi as pj eqn:E. induction G; subst; try lia.
    + exists 0%nat. split; [lia|done].
    + destruct IHG as (k & Hk & G'); [done..|]. exists (S k). simpl. split; [lia|done].
  - intros (k & Hk & G). revert k Hk G. induction u as [|c u IH]; intros k Hk G.
    + rewrite drop_nil in G. by apply glob_star_none.
    + destruct k as [|k]; [by apply glob_star_none|]. apply glob_star_more; [done..|].
      apply (IH k); [simpl in Hk; lia|done].
Qed.

Lemma spec_token p pi c u adv : byte_at p pi <> 42 -> (pi < length p)%nat -> token p pi c = Some adv ->
  (glob_spec p pi (c :: u) <-> glob_spec p (pi + adv) u).
Proof.
  intros N L T. split; [|by apply glob_token].
  intros G. inversion G; subst; try done; try lia. congruence.
Qed.

Lemma spec_stuck p pi c u : (pi <= length p)%nat -> ((pi < length p)%nat -> byte_at p pi <> 42 /\ token p pi c = None) ->
  ~ glob_spec p pi (c :: u).
Proof. intros L H G. inversion G; subst; destruct H; try done; congruence. Qed.

Lemma spec_nil p fuel : forall pi, (pi <= length p)%nat -> (length p - pi <= fuel)%nat ->
  (skip_stars fuel p pi = length p <-> glob_spec p pi []).
Proof.
  induction fuel as [|fuel IH]; intros pi L F; cbn [skip_stars].
  - assert (pi = length p) as -> by lia. split; [constructor|done].
  - destruct (pi <? length p)%nat eqn:P; [apply Nat.ltb_lt in P|apply Nat.ltb_ge in P]; simpl.
    + destruct (byte_at p pi =? 42) eqn:B; [apply Z.eqb_eq in B|apply Z.eqb_neq in B].
      * rewrite IH by lia. split; [by apply glob_star_none|]. intros G. inversion G; subst; try lia; done.
      * split; [lia|]. intros G. inversion G; subst; try lia; done.
    + assert (pi = length p) as -> by lia. split; [constructor|done].
Qed.

(** What the loop knows about the last star: the tokens between it and [pi]
    consumed exactly the bytes between [star_t] and [ti]. *)
Definition star_inv (p : bytes) (pi ti : nat) (star : option (nat * nat)) : Prop :=
  match star with
  | None => True
  | Some (sp, st) =>
      byte_at p sp = 42 /\ (sp < length p)%nat /\ (st <= ti)%nat /\
      forall u, 92 ∉ u -> glob_spec p (sp + 1) u ->
        (ti - st <= length u)%nat /\ glob_spec p pi (drop (ti - st) u)
  end.
(** The texts the last star may still reach. *)
Definition star_later (p t : bytes) (star : option (nat * nat)) : Prop :=
  match star with
  | None => False
  | Some (sp, st) => exists k, (st < k <= length t)%nat /\ glob_spec p (sp + 1) (drop k t)
  end.

Lemma not_elem_of_drop (c : Z) k (u : bytes) : c ∉ u -> c ∉ drop k u.
Proof. intros H I. apply H. rewrite <- (take_drop k u). set_solver. Qed.

(** A new star makes the older one redundant. *)
Lemma star_absorbs p t pi ti star : 92 ∉ t -> (ti <= length t)%nat -> star_inv p pi ti star ->
  byte_at p pi = 42 -> (pi < length p)%nat -> star_later p t star -> glob_spec p pi (drop ti t).
Proof.
  intros Nt Lt I B L. destruct star as [[sp st]|]; [|done]. destruct I as (_ & _ & Hst & A).
  intros (k & Hk & G). destruct (A (drop k t)) as [A1 A2]; [by apply not_elem_of_drop|done|].
  rewrite drop_drop in A2. apply spec_star in A2 as (j & Hj & G'); [|done..].
  rewrite length_drop in A1, Hj. rewrite drop_drop in G'.
  apply spec_star; [done..|]. exists (k + (ti - st) + j - ti)%nat. rewrite length_drop, drop_drop.
  replace (ti + (k + (ti - st) + j - ti))%nat with (k + (ti - st) + j)%nat by lia. split; [lia|done].
Qed.

Lemma star_inv_token p pi ti star adv c : star_inv p pi ti star -> byte_at p pi <> 42 ->
  (pi < length p)%nat -> c <> 92 -> token p pi c = Some adv -> star_inv p (pi + adv) (ti + 1) star.
Proof.
  intros I B L Nc T. destruct star as [[sp st]|]; [|done]. destruct I as (I1 & I2 & I3 & A).
  split; [done|]. split; [done|]. split; [lia|]. intros u Nu G. destruct (A u Nu G) as [A1 A2].
  assert (E : length (drop (ti - st) u) = (length u - (ti - st))%nat) by apply length_drop.
  destruct (drop (ti - st) u) as [|c' u'] eqn:D.
  { inversion A2; subst; try lia; done. }
  assert (c' ≠ 92) by (intros ->; apply (not_elem_of_drop 92 (ti - st) u Nu); rewrite D; set_solver).
  inversion A2 as [| | |? ? ? adv' _ _ T']; subst; try done.
  rewrite (token_uniform p pi c c' adv adv') by done. simpl in E.
  replace (ti + 1 - st)%nat with (ti - st + 1)%nat by lia. rewrite <- drop_drop, D. split; [lia|done].
Qed.

Lemma star_inv_fresh p sp ti : byte_at p sp = 42 -> (sp < length p)%nat -> star_inv p (sp + 1) ti (Some (sp, ti)).
Proof.
  intros B L. split; [done|]. split; [done|]. split; [lia|].
  intros u _ G. rewrite Nat.sub_diag. split; [lia|done].
Qed.

(** Backtracking tries the next end of the last star's text. *)
Lemma star_later_step p t sp st : (st < length t)%nat ->
  (star_later p t (Some (sp, st)) <->
   glob_spec p (sp + 1) (drop (st + 1) t) \/ star_later p t (Some (sp, st + 1)%nat)).
Proof.
  intros L. split.
  - intros (k & Hk & G). destruct (decide (k = st + 1)%nat) as [->|]; [by left|].
    right. exists k. split; [lia|done].
  - intros [G|(k & Hk & G)]; [exists (st + 1)%nat|exists k]; (split; [lia|done]).
Qed.

Lemma glob_loop_correct fuel p t : 92 ∉ t -> forall pi ti star b,
  (pi <= length p)%nat -> (ti <= length t)%nat -> star_inv p pi ti star ->
  glob_loop fuel p t pi ti star = Some b ->
  (b = true <-> glob_spec p pi (drop ti t) \/ star_later p t star).
Proof.
  intros Nt. induction fuel as [|fuel IH]; intros pi ti star b Hp Ht I; [discriminate|]. cbn [glob_loop].
  destruct (ti <? length t)%nat eqn:T; [apply Nat.ltb_lt in T|apply Nat.ltb_ge in T].
  2: { intros E. invert E. rewrite (drop_ge t ti) by lia. rewrite Nat.eqb_eq, spec_nil by lia.
       split; [auto|]. intros [G|G]; [done|]. destruct star as [[sp st]|]; [|done].
       destruct I as (_ & _ & _ & A), G as (k & Hk & G).
       destruct (A (drop k t)) as [A1 _]; [by apply not_elem_of_drop|done|]. rewrite length_drop in A1. lia. }
  destruct (lookup_lt_is_Some_2 t ti T) as [c Hc].
  assert (D : drop ti t = c :: drop (S ti) t) by (by apply drop_S).
  assert (Bt : byte_at t ti = c) by (unfold byte_at; by rewrite Hc).
  assert (Nc : c <> 92) by (intros ->; apply Nt; by eapply list_elem_of_lookup_2).
  assert (BT : (~ glob_spec p pi (drop ti t)) -> match star with
     | Some (sp, st) => glob_loop fuel p t (sp + 1) (st + 1) (Some (sp, st + 1))%nat | None => Some false end = Some b ->
     (b = true <-> glob_spec p pi (drop ti t) \/ star_later p t star)).
  { intros NG E. destruct star as [[sp st]|]; [|invert E; by split; [|intros [?|?]]].
    destruct I as (I1 & I2 & I3 & _). apply IH in E; [|lia|lia|by apply star_inv_fresh].
    rewrite E, (star_later_step p t sp st) by lia. tauto. }
  destruct (pi <? length p)%nat eqn:P; [apply Nat.ltb_lt in P|apply Nat.ltb_ge in P].
  2: { apply BT. rewrite D. apply spec_stuck; [lia|lia]. }
  destruct (byte_at p pi =? 42) eqn:B; [apply Z.eqb_eq in B|apply Z.eqb_neq in B].
  - intros E. apply IH in E; [|lia|lia|].
    + rewrite E. rewrite (spec_star p pi) by done. split.
      * intros [G|(k & Hk & G)]; left; [by exists 0%nat; split; [lia|]|].
        exists (k - ti)%nat. rewrite length_drop, drop_drop.
        replace (ti + (k - ti))%nat with k by lia. split; [lia|done].
      * intros [G|G]; [|apply (star_absorbs p t pi ti) in G; [|done..]; apply spec_star in G; [|done..]];
          destruct G as ([|k] & Hk & G); rewrite ?drop_drop, ?length_drop in *.
        -- left. by rewrite Nat.add_0_r in G.
        -- right. exists (ti + S k)%nat. split; [lia|done].
        -- left. by rewrite Nat.add_0_r in G.
        -- right. exists (ti + S k)%nat. split; [lia|done].
    + by apply star_inv_fresh.
  - rewrite Bt. destruct (token p pi c) as [adv|] eqn:K.
    + intros E. pose proof (token_adv _ _ _ _ P K). apply IH in E; [|lia|lia|by eapply star_inv_token].
      rewrite E, D, (spec_token p pi c _ adv), Nat.add_1_r by done. done.
    + apply BT. rewrite D. apply spec_stuck; [lia|done].
Qed.


(** Once the pattern ends in the star, the loop runs to the end of the text. *)
Lemma star_eats fuel : forall t ti, (ti <= length t)%nat -> (length t - ti < fuel)%nat ->
  glob_loop fuel [92; 42] t 2 ti (Some (1, ti))%nat = Some true.
Proof.
  induction fuel as [|fuel IH]; intros t ti L F; [lia|]. cbn [glob_loop].
  destruct (ti <? length t)%nat eqn:T; [apply Nat.ltb_lt in T|done].
  apply (IH t (ti + 1)%nat); lia.
Qed.

(** With a backslash in the text the matcher departs from the escape
    rule: the pattern [\*] means the text [*] alone, but when the escaped
    byte does not match, the backslash of the pattern is tried as a literal,
    and the pattern matches every text that starts with a backslash. *)
Theorem glob_escape_matches_backslash (t : bytes) : glob_match [92; 42] (92 :: t) = Some true.
Proof.
  unfold glob_match, glob_fuel. set (n := Nat.add _ _).
  assert (N : (length t + 3 < n)%nat) by (unfold n; simpl; nia). clearbody n.
  destruct n as [|n]; [lia|].
  change (glob_loop (S (S n)) [92; 42] (92 :: t) 0 0 None) with (glob_loop (S n) [92; 42] (92 :: t) 1 1 None).
  cbn [glob_loop]. destruct (1 <? length (92%Z :: t))%nat eqn:T; [|done].
  apply Nat.ltb_lt in T. apply (star_eats n (92 :: t) 1); simpl in *; lia.
Qed.
