(* ===== verification/PubSub.v ===== *)
(** * Publish and subscribe

    Models [crates/marekvs-engine/src/pubsub.rs] (the registry), the commands
    of [cmd/pubsub.rs] over a session, [RESET], and the ends of a connection
    in [serve_client]. A sender is the session whose push channel it feeds;
    [send] succeeds while that connection still holds its receiver. The
    order in which a [HashMap] is walked is the order of [map_to_list]; no
    theorem depends on it. *)

From S2P Require Import Prelude Resp Reply Glob.

Record PubMessage := mkPubMessage { pm_pattern : option bytes; pm_channel : bytes; pm_payload : bytes }.
(** Session id to sender. *)
Abbreviation Subscribers := (gmap Z Z).
Record PubSub := mkPubSub { channels : gmap bytes Subscribers; patterns : gmap bytes Subscribers }.
Definition PubSub_new : PubSub := mkPubSub ∅ ∅.

(** [entry(key).or_default().insert(id, tx)]. *)
Definition add_sub (m : gmap bytes Subscribers) (id : Z) (key : bytes) (tx : Z) : gmap bytes Subscribers :=
  <[key := <[id := tx]> (default ∅ (m !! key))]> m.
(** Remove one subscriber, and the entry with its last one. *)
Definition remove_sub (m : gmap bytes Subscribers) (id : Z) (key : bytes) : gmap bytes Subscribers :=
  match m !! key with
  | None => m
  | Some subs =>
      let subs := delete id subs in
      if bool_decide (subs = ∅) then delete key m else <[key := subs]> m
  end.

Definition PubSub_subscribe (ps : PubSub) (id : Z) (channel : bytes) (tx : Z) : PubSub :=
  mkPubSub (add_sub (channels ps) id channel tx) (patterns ps).
Definition PubSub_unsubscribe (ps : PubSub) (id : Z) (channel : bytes) : PubSub :=
  mkPubSub (remove_sub (channels ps) id channel) (patterns ps).
Definition PubSub_psubscribe (ps : PubSub) (id : Z) (pattern : bytes) (tx : Z) : PubSub :=
  mkPubSub (channels ps) (add_sub (patterns ps) id pattern tx).
Definition PubSub_punsubscribe (ps : PubSub) (id : Z) (pattern : bytes) : PubSub :=
  mkPubSub (channels ps) (remove_sub (patterns ps) id pattern).

Definition drop_session (ps : PubSub) (id : Z) (chans pats : list bytes) : PubSub :=
  let ps := fold_left (fun ps c => PubSub_unsubscribe ps id c) chans ps in
  fold_left (fun ps p => PubSub_punsubscribe ps id p) pats ps.

Definition glob_matches (pat text : bytes) : bool := bool_decide (glob_match pat text = Some true).

Definition channels_matching (ps : PubSub) (pattern : option bytes) : list bytes :=
  List.filter (fun c => match pattern with None => true | Some p => glob_matches p c end)
    (map fst (map_to_list (channels ps))).
Definition numsub (ps : PubSub) (channel : bytes) : Z :=
  match channels ps !! channel with Some s => Z.of_nat (size s) | None => 0 end.
Definition numpat (ps : PubSub) : Z := Z.of_nat (size (patterns ps)).

(** The receivers that still exist, with what was sent to them. *)
Abbreviation Mail := (gmap Z (list PubMessage)).
Definition send (mail : Mail) (tx : Z) (m : PubMessage) : bool * Mail :=
  match mail !! tx with
  | Some box => (true, <[tx := box ++ [m]]> mail)
  | None => (false, mail)
  end.
(** [for tx in subs.values() { if tx.send(..).is_ok() { delivered += 1 } }]. *)
Fixpoint send_all (txs : list Z) (m : PubMessage) (st : Z * Mail) : Z * Mail :=
  match txs with
  | [] => st
  | tx :: txs =>
      let '(ok, mail) := send st.2 tx m in
      send_all txs m (if ok then st.1 + 1 else st.1, mail)
  end.
Definition values (subs : Subscribers) : list Z := map snd (map_to_list subs).

Definition publish_local (ps : PubSub) (mail : Mail) (channel payload : bytes) : Z * Mail :=
  let st :=
    match channels ps !! channel with
    | Some subs => send_all (values subs) (mkPubMessage None channel payload) (0, mail)
    | None => (0, mail)
    end in
  fold_left (fun st ps =>
    if glob_matches ps.1 channel
    then send_all (values ps.2) (mkPubMessage (Some ps.1) channel payload) st else st)
    (map_to_list (patterns ps)) st.

(** ** Commands *)

Record Session := mkSession { s_id : Z; subs : list bytes; psubs : list bytes }.
Definition sub_count (s : Session) : Z := Z.of_nat (length (subs s)) + Z.of_nat (length (psubs s)).

(** A confirmation frame, [confirm] of [cmd/pubsub.rs]. *)
Inductive confirm_kind := KSubscribe | KUnsubscribe | KPsubscribe | KPunsubscribe.
Definition kind_text (k : confirm_kind) : bytes :=
  let sub := [115; 117; 98; 115; 99; 114; 105; 98; 101] in
  match k with
  | KSubscribe => sub
  | KUnsubscribe => [117; 110] ++ sub
  | KPsubscribe => 112 :: sub
  | KPunsubscribe => [112; 117; 110] ++ sub
  end.
Record confirmation := mkConfirm { cf_kind : confirm_kind; cf_target : bytes; cf_count : Z }.
Definition confirm (c : confirmation) (out : ReplyBuf) : rust ReplyBuf :=
  let! out := push_ out 3 in
  let! out := bulk out (kind_text (cf_kind c)) in
  let! out := bulk out (cf_target c) in
  int out (cf_count c).

(** A handler's outcome: an error reply, or confirmations in order. *)
Inductive outcome :=
  | WrongArgs
  | Confirmed (cs : list confirmation).

Definition retain_ne (x : bytes) (l : list bytes) : list bytes := List.filter (fun y => negb (bool_decide (y = x))) l.

Fixpoint subscribe_loop (ps : PubSub) (s : Session) (chs : list bytes) : PubSub * Session * list confirmation :=
  match chs with
  | [] => (ps, s, [])
  | ch :: chs =>
      let '(ps, s) :=
        if bool_decide (ch ∈ subs s) then (ps, s)
        else (PubSub_subscribe ps (s_id s) ch (s_id s), mkSession (s_id s) (subs s ++ [ch]) (psubs s)) in
      let c := mkConfirm KSubscribe ch (sub_count s) in
      let '(ps, s, cs) := subscribe_loop ps s chs in (ps, s, c :: cs)
  end.
Definition subscribe (ps : PubSub) (s : Session) (args : list bytes) : PubSub * Session * outcome :=
  if (length args <? 2)%nat then (ps, s, WrongArgs)
  else let '(ps, s, cs) := subscribe_loop ps s (drop 1 args) in (ps, s, Confirmed cs).

Fixpoint unsubscribe_loop (ps : PubSub) (s : Session) (chs : list bytes) : PubSub * Session * list confirmation :=
  match chs with
  | [] => (ps, s, [])
  | ch :: chs =>
      let ps := PubSub_unsubscribe ps (s_id s) ch in
      let s := mkSession (s_id s) (retain_ne ch (subs s)) (psubs s) in
      let c := mkConfirm KUnsubscribe ch (sub_count s) in
      let '(ps, s, cs) := unsubscribe_loop ps s chs in (ps, s, c :: cs)
  end.
Definition unsubscribe (ps : PubSub) (s : Session) (args : list bytes) : PubSub * Session * outcome :=
  let targets := if (1 <? length args)%nat then drop 1 args else subs s in
  if bool_decide (targets = []) then (ps, s, Confirmed [mkConfirm KUnsubscribe [] 0])
  else let '(ps, s, cs) := unsubscribe_loop ps s targets in (ps, s, Confirmed cs).

Fixpoint psubscribe_loop (ps : PubSub) (s : Session) (pats : list bytes) : PubSub * Session * list confirmation :=
  match pats with
  | [] => (ps, s, [])
  | pat :: pats =>
      let '(ps, s) :=
        if bool_decide (pat ∈ psubs s) then (ps, s)
        else (PubSub_psubscribe ps (s_id s) pat (s_id s), mkSession (s_id s) (subs s) (psubs s ++ [pat])) in
      let c := mkConfirm KPsubscribe pat (sub_count s) in
      let '(ps, s, cs) := psubscribe_loop ps s pats in (ps, s, c :: cs)
  end.
Definition psubscribe (ps : PubSub) (s : Session) (args : list bytes) : PubSub * Session * outcome :=
  if (length args <? 2)%nat then (ps, s, WrongArgs)
  else let '(ps, s, cs) := psubscribe_loop ps s (drop 1 args) in (ps, s, Confirmed cs).

Fixpoint punsubscribe_loop (ps : PubSub) (s : Session) (pats : list bytes) : PubSub * Session * list confirmation :=
  match pats with
  | [] => (ps, s, [])
  | pat :: pats =>
      let ps := PubSub_punsubscribe ps (s_id s) pat in
      let s := mkSession (s_id s) (subs s) (retain_ne pat (psubs s)) in
      let c := mkConfirm KPunsubscribe pat (sub_count s) in
      let '(ps, s, cs) := punsubscribe_loop ps s pats in (ps, s, c :: cs)
  end.
Definition punsubscribe (ps : PubSub) (s : Session) (args : list bytes) : PubSub * Session * outcome :=
  let targets := if (1 <? length args)%nat then drop 1 args else psubs s in
  if bool_decide (targets = []) then (ps, s, Confirmed [mkConfirm KPunsubscribe [] 0])
  else let '(ps, s, cs) := punsubscribe_loop ps s targets in (ps, s, Confirmed cs).

(** The part of [RESET] that concerns subscriptions. *)
Definition reset_subs (ps : PubSub) (s : Session) : PubSub * Session :=
  (drop_session ps (s_id s) (subs s) (psubs s), mkSession (s_id s) [] []).

(** ** Connections *)

(** A node: the registry, the live connections with their sessions and
    receivers, and the next session id ([session_ids.fetch_add]). *)
Record Node := mkNode {
  reg : PubSub;
  sessions : gmap Z Session;
  mail : Mail;
  next_session : Z;
}.
Definition Node_new : Node := mkNode PubSub_new ∅ ∅ 1.

Inductive event :=
  | Accept
  | Subscribe (id : Z) (args : list bytes)
  | Unsubscribe (id : Z) (args : list bytes)
  | Psubscribe (id : Z) (args : list bytes)
  | Punsubscribe (id : Z) (args : list bytes)
  | ResetCmd (id : Z)
  | Publish (channel payload : bytes)
  (** The peer closed: [serve_client] breaks out of its loop. *)
  | Eof (id : Z)
  (** QUIT, a protocol error or a socket error: [serve_client] returns. *)
  | Returned (id : Z).

Definition on_session (n : Node) (id : Z) (f : PubSub -> Session -> PubSub * Session) : Node :=
  match sessions n !! id with
  | None => n
  | Some s => let '(ps, s) := f (reg n) s in mkNode ps (<[id := s]> (sessions n)) (mail n) (next_session n)
  end.

Definition node_step (n : Node) (e : event) : Node :=
  match e with
  | Accept =>
      let id := next_session n in
      mkNode (reg n) (<[id := mkSession id [] []]> (sessions n)) (<[id := []]> (mail n)) (id + 1)
  | Subscribe id args => on_session n id (fun ps s => (subscribe ps s args).1)
  | Unsubscribe id args => on_session n id (fun ps s => (unsubscribe ps s args).1)
  | Psubscribe id args => on_session n id (fun ps s => (psubscribe ps s args).1)
  | Punsubscribe id args => on_session n id (fun ps s => (punsubscribe ps s args).1)
  | ResetCmd id => on_session n id reset_subs
  | Publish channel payload =>
      mkNode (reg n) (sessions n) (publish_local (reg n) (mail n) channel payload).2 (next_session n)
  | Eof id =>
      match sessions n !! id with
      | None => n
      | Some s =>
          mkNode (drop_session (reg n) (s_id s) (subs s) (psubs s))
            (delete id (sessions n)) (delete id (mail n)) (next_session n)
      end
  | Returned id => mkNode (reg n) (delete id (sessions n)) (delete id (mail n)) (next_session n)
  end.
Definition node_run (n : Node) (es : list event) : Node := fold_left node_step es n.

(** ** The registry mirrors the sessions *)

(** The sender registered for a subscription. *)
Definition entry (m : gmap bytes Subscribers) (key : bytes) (id : Z) : option Z := s ← m !! key; s !! id.
(** [m] holds exactly the subscriptions [f] gives each id, each with the
    id's own sender, and no empty entry. *)
Definition mirrors (m : gmap bytes Subscribers) (f : Z -> list bytes) : Prop :=
  (forall key s, m !! key = Some s -> s <> ∅) /\
  forall key id, entry m key id = if bool_decide (key ∈ f id) then Some id else None.
Definition upd (f : Z -> list bytes) (id : Z) (l : list bytes) : Z -> list bytes :=
  fun i => if bool_decide (i = id) then l else f i.

Lemma entry_add m id key tx k i :
  entry (add_sub m id key tx) k i = if bool_decide (k = key /\ i = id) then Some tx else entry m k i.
Proof.
  unfold entry, add_sub. destruct (decide (k = key)) as [->|N].
  - rewrite lookup_insert_eq. simpl. destruct (decide (i = id)) as [->|N].
    + by rewrite lookup_insert_eq, bool_decide_eq_true_2.
    + rewrite lookup_insert_ne, bool_decide_eq_false_2 by naive_solver. by destruct (m !! key).
  - by rewrite lookup_insert_ne, bool_decide_eq_false_2 by naive_solver.
Qed.

Lemma entry_remove m id key k i :
  entry (remove_sub m id key) k i = if bool_decide (k = key /\ i = id) then None else entry m k i.
Proof.
  unfold entry, remove_sub. destruct (m !! key) as [s|] eqn:L.
  - destruct (decide (k = key)) as [->|N].
    + assert (E : (if bool_decide (delete id s = ∅) then delete key m else <[key:=delete id s]> m) !! key
        ≫= (fun s => s !! i) = delete id s !! i).
      { destruct (bool_decide_reflect (delete id s = ∅)) as [Z|Z].
        - by rewrite lookup_delete_eq, Z, lookup_empty.
        - by rewrite lookup_insert_eq. }
      rewrite E, L. simpl. destruct (decide (i = id)) as [->|N].
      * by rewrite lookup_delete_eq, bool_decide_eq_true_2.
      * by rewrite lookup_delete_ne, bool_decide_eq_false_2 by naive_solver.
    + rewrite (bool_decide_eq_false_2 (k = key /\ i = id)) by naive_solver.
      destruct (bool_decide _); by rewrite ?lookup_delete_ne, ?lookup_insert_ne by done.
  - destruct (bool_decide_reflect (k = key /\ i = id)) as [[-> ->]|]; [by rewrite L|done].
Qed.

Lemma mirrors_ext m f g : (forall i, f i = g i) -> mirrors m f -> mirrors m g.
Proof. intros E [N A]. split; [done|]. intros k i. by rewrite <- E. Qed.

Lemma mirrors_add m f id key : mirrors m f -> key ∉ f id -> mirrors (add_sub m id key id) (upd f id (f id ++ [key])).
Proof.
  intros [N A] NI. split.
  - intros k s. unfold add_sub. destruct (decide (k = key)) as [->|Nk].
    + rewrite lookup_insert_eq. intros E. invert E. apply insert_non_empty.
    + rewrite lookup_insert_ne by done. apply N.
  - intros k i. rewrite entry_add, A. unfold upd.
    repeat case_bool_decide; destruct_and?; subst; try done; set_solver.
Qed.

Lemma elem_of_retain x y l : x ∈ retain_ne y l <-> x ∈ l /\ x <> y.
Proof.
  unfold retain_ne. rewrite list_elem_of_In, filter_In, <- list_elem_of_In.
  destruct (bool_decide_reflect (x = y)); simpl; naive_solver.
Qed.
Lemma NoDup_retain y l : NoDup l -> NoDup (retain_ne y l).
Proof. intros H. apply NoDup_ListNoDup, List.NoDup_filter, NoDup_ListNoDup, H. Qed.

Lemma mirrors_remove m f id key : mirrors m f -> mirrors (remove_sub m id key) (upd f id (retain_ne key (f id))).
Proof.
  intros [N A]. split.
  - intros k s. unfold remove_sub. destruct (m !! key) as [t|] eqn:L; [|apply N].
    destruct (bool_decide_reflect (delete id t = ∅)) as [Z|Z].
    + intros E. apply lookup_delete_Some in E as [_ E]. eapply N, E.
    + destruct (decide (k = key)) as [->|Nk]; [rewrite lookup_insert_eq; congruence|].
      rewrite lookup_insert_ne by done. apply N.
  - intros k i. rewrite entry_remove, A. unfold upd.
    repeat case_bool_decide; destruct_and?; subst; try done; rewrite ?elem_of_retain in *; naive_solver.
Qed.

(** A registry and one of its sessions. *)
Definition tracked (ps : PubSub) (fc fp : Z -> list bytes) (s : Session) : Prop :=
  mirrors (channels ps) fc /\ mirrors (patterns ps) fp /\
  fc (s_id s) = subs s /\ fp (s_id s) = psubs s /\ NoDup (subs s) /\ NoDup (psubs s).
(** A handler keeps its session tracked and touches no other. *)
Definition handled (ps : PubSub) (s : Session) (ps' : PubSub) (s' : Session) : Prop :=
  s_id s' = s_id s /\
  forall fc fp, tracked ps fc fp s -> tracked ps' (upd fc (s_id s) (subs s')) (upd fp (s_id s) (psubs s')) s'.

Lemma upd_same f id i : upd f id (f id) i = f i.
Proof. unfold upd. case_bool_decide; by subst. Qed.
Lemma upd_upd f id l l' i : upd (upd f id l) id l' i = upd f id l' i.
Proof. unfold upd. by case_bool_decide. Qed.
Lemma upd_eq f id l : upd f id l id = l.
Proof. unfold upd. by rewrite bool_decide_eq_true_2. Qed.

Lemma handled_refl ps s : handled ps s ps s.
Proof.
  split; [done|]. intros fc fp (C & P & E1 & E2 & N1 & N2). rewrite <- E1 at 1. rewrite <- E2 at 1.
  repeat split; rewrite ?upd_same; try done.
  - apply C.
  - intros k i. rewrite upd_same. apply C.
  - apply P.
  - intros k i. rewrite upd_same. apply P.
Qed.

Lemma tracked_ext ps fc fp gc gp s : (forall i, fc i = gc i) -> (forall i, fp i = gp i) ->
  tracked ps fc fp s -> tracked ps gc gp s.
Proof.
  intros Ec Ep (C & P & E1 & E2 & N). rewrite Ec in E1. rewrite Ep in E2.
  split; [by eapply mirrors_ext|]. split; [by eapply mirrors_ext|]. auto.
Qed.

Lemma handled_trans ps s ps1 s1 ps2 s2 : handled ps s ps1 s1 -> handled ps1 s1 ps2 s2 -> handled ps s ps2 s2.
Proof.
  intros [I1 H1] [I2 H2]. split; [congruence|]. intros fc fp T. apply H1, H2 in T. rewrite I1 in T.
  eapply tracked_ext; [..|exact T]; intros i; apply upd_upd.
Qed.

Lemma handled_subscribe ps s ch : ch ∉ subs s ->
  handled ps s (PubSub_subscribe ps (s_id s) ch (s_id s)) (mkSession (s_id s) (subs s ++ [ch]) (psubs s)).
Proof.
  intros NI. split; [done|]. intros fc fp (C & P & E1 & E2 & N1 & N2). unfold tracked. simpl.
  rewrite !upd_eq. split; [|split; [|split; [done|split; [done|split; [|done]]]]].
  - rewrite <- E1. apply mirrors_add; [done|by rewrite E1].
  - rewrite <- E2. eapply mirrors_ext; [|exact P]. intros i. by rewrite upd_same.
  - apply NoDup_app. split; [done|]. split; [set_solver|apply NoDup_singleton].
Qed.

Lemma handled_unsubscribe ps s ch :
  handled ps s (PubSub_unsubscribe ps (s_id s) ch) (mkSession (s_id s) (retain_ne ch (subs s)) (psubs s)).
Proof.
  split; [done|]. intros fc fp (C & P & E1 & E2 & N1 & N2). unfold tracked. simpl. rewrite !upd_eq.
  split; [|split; [|split; [done|split; [done|split; [by apply NoDup_retain|done]]]]].
  - rewrite <- E1. by apply mirrors_remove.
  - rewrite <- E2. eapply mirrors_ext; [|exact P]. intros i. by rewrite upd_same.
Qed.

Lemma handled_psubscribe ps s pat : pat ∉ psubs s ->
  handled ps s (PubSub_psubscribe ps (s_id s) pat (s_id s)) (mkSession (s_id s) (subs s) (psubs s ++ [pat])).
Proof.
  intros NI. split; [done|]. intros fc fp (C & P & E1 & E2 & N1 & N2). unfold tracked. simpl.
  rewrite !upd_eq. split; [|split; [|split; [done|split; [done|split; [done|]]]]].
  - rewrite <- E1. eapply mirrors_ext; [|exact C]. intros i. by rewrite upd_same.
  - rewrite <- E2. apply mirrors_add; [done|by rewrite E2].
  - apply NoDup_app. split; [done|]. split; [set_solver|apply NoDup_singleton].
Qed.

Lemma handled_punsubscribe ps s pat :
  handled ps s (PubSub_punsubscribe ps (s_id s) pat) (mkSession (s_id s) (subs s) (retain_ne pat (psubs s))).
Proof.
  split; [done|]. intros fc fp (C & P & E1 & E2 & N1 & N2). unfold tracked. simpl. rewrite !upd_eq.
  split; [|split; [|split; [done|split; [done|split; [done|by apply NoDup_retain]]]]].
  - rewrite <- E1. eapply mirrors_ext; [|exact C]. intros i. by rewrite upd_same.
  - rewrite <- E2. by apply mirrors_remove.
Qed.
#[local] Hint Resolve handled_refl handled_unsubscribe handled_punsubscribe : marekvs.

Lemma subscribe_loop_handled chs : forall ps s,
  let '(ps', s', _) := subscribe_loop ps s chs in handled ps s ps' s'.
Proof.
  induction chs as [|ch chs IH]; intros ps s; cbn [subscribe_loop]; [auto with marekvs|].
  case_bool_decide as B; [specialize (IH ps s)|
    specialize (IH (PubSub_subscribe ps (s_id s) ch (s_id s)) (mkSession (s_id s) (subs s ++ [ch]) (psubs s)))];
    destruct (subscribe_loop _ _ _) as [[ps' s'] cs]; [done|].
  eapply handled_trans; [by apply handled_subscribe|done].
Qed.
Lemma psubscribe_loop_handled pats : forall ps s,
  let '(ps', s', _) := psubscribe_loop ps s pats in handled ps s ps' s'.
Proof.
  induction pats as [|pat pats IH]; intros ps s; cbn [psubscribe_loop]; [auto with marekvs|].
  case_bool_decide as B; [specialize (IH ps s)|
    specialize (IH (PubSub_psubscribe ps (s_id s) pat (s_id s)) (mkSession (s_id s) (subs s) (psubs s ++ [pat])))];
    destruct (psubscribe_loop _ _ _) as [[ps' s'] cs]; [done|].
  eapply handled_trans; [by apply handled_psubscribe|done].
Qed.
Lemma unsubscribe_loop_handled chs : forall ps s,
  let '(ps', s', _) := unsubscribe_loop ps s chs in handled ps s ps' s'.
Proof.
  induction chs as [|ch chs IH]; intros ps s; cbn [unsubscribe_loop]; [auto with marekvs|].
  specialize (IH (PubSub_unsubscribe ps (s_id s) ch) (mkSession (s_id s) (retain_ne ch (subs s)) (psubs s))).
  destruct (unsubscribe_loop _ _ _) as [[ps' s'] cs]. eapply handled_trans; [apply handled_unsubscribe|done].
Qed.
Lemma punsubscribe_loop_handled pats : forall ps s,
  let '(ps', s', _) := punsubscribe_loop ps s pats in handled ps s ps' s'.
Proof.
  induction pats as [|pat pats IH]; intros ps s; cbn [punsubscribe_loop]; [auto with marekvs|].
  specialize (IH (PubSub_punsubscribe ps (s_id s) pat) (mkSession (s_id s) (subs s) (retain_ne pat (psubs s)))).
  destruct (punsubscribe_loop _ _ _) as [[ps' s'] cs]. eapply handled_trans; [apply handled_punsubscribe|done].
Qed.

Lemma fold_unsubscribe_handled l : forall ps s,
  handled ps s (fold_left (fun ps c => PubSub_unsubscribe ps (s_id s) c) l ps)
    (mkSession (s_id s) (fold_left (fun acc c => retain_ne c acc) l (subs s)) (psubs s)).
Proof.
  induction l as [|c l IH]; intros ps s; simpl; [destruct s; auto with marekvs|].
  eapply handled_trans; [apply (handled_unsubscribe ps s c)|].
  apply (IH (PubSub_unsubscribe ps (s_id s) c) (mkSession (s_id s) (retain_ne c (subs s)) (psubs s))).
Qed.
Lemma fold_punsubscribe_handled l : forall ps s,
  handled ps s (fold_left (fun ps c => PubSub_punsubscribe ps (s_id s) c) l ps)
    (mkSession (s_id s) (subs s) (fold_left (fun acc c => retain_ne c acc) l (psubs s))).
Proof.
  induction l as [|c l IH]; intros ps s; simpl; [destruct s; auto with marekvs|].
  eapply handled_trans; [apply (handled_punsubscribe ps s c)|].
  apply (IH (PubSub_punsubscribe ps (s_id s) c) (mkSession (s_id s) (subs s) (retain_ne c (psubs s)))).
Qed.

Lemma fold_retain_elem l : forall acc x, x ∈ fold_left (fun acc c => retain_ne c acc) l acc <-> x ∈ acc /\ x ∉ l.
Proof.
  induction l as [|c l IH]; intros acc x; simpl; [set_solver|].
  rewrite IH, elem_of_retain, not_elem_of_cons. naive_solver.
Qed.
Lemma fold_retain_self l : fold_left (fun acc c => retain_ne c acc) l l = [].
Proof. apply elem_of_nil_inv. intros x H. apply fold_retain_elem in H as [? ?]. done. Qed.

Lemma drop_session_handled ps s : handled ps s (drop_session ps (s_id s) (subs s) (psubs s)) (mkSession (s_id s) [] []).
Proof.
  pose proof (fold_unsubscribe_handled (subs s) ps s) as H1. rewrite fold_retain_self in H1.
  set (ps1 := fold_left _ (subs s) ps) in *.
  pose proof (fold_punsubscribe_handled (psubs s) ps1 (mkSession (s_id s) [] (psubs s))) as H2. simpl in H2.
  rewrite fold_retain_self in H2. by eapply handled_trans.
Qed.

Lemma subscribe_handled ps s args : handled ps s (subscribe ps s args).1.1 (subscribe ps s args).1.2.
Proof.
  unfold subscribe. destruct (_ <? _)%nat; [auto with marekvs|].
  pose proof (subscribe_loop_handled (drop 1 args) ps s) as H. by destruct (subscribe_loop _ _ _) as [[? ?] ?].
Qed.
Lemma psubscribe_handled ps s args : handled ps s (psubscribe ps s args).1.1 (psubscribe ps s args).1.2.
Proof.
  unfold psubscribe. destruct (_ <? _)%nat; [auto with marekvs|].
  pose proof (psubscribe_loop_handled (drop 1 args) ps s) as H. by destruct (psubscribe_loop _ _ _) as [[? ?] ?].
Qed.
Lemma unsubscribe_handled ps s args : handled ps s (unsubscribe ps s args).1.1 (unsubscribe ps s args).1.2.
Proof.
  unfold unsubscribe. generalize (if (1 <? length args)%nat then drop 1 args else subs s). intros targets.
  case_bool_decide; [auto with marekvs|].
  pose proof (unsubscribe_loop_handled targets ps s) as G. by destruct (unsubscribe_loop _ _ _) as [[? ?] ?].
Qed.
Lemma punsubscribe_handled ps s args : handled ps s (punsubscribe ps s args).1.1 (punsubscribe ps s args).1.2.
Proof.
  unfold punsubscribe. generalize (if (1 <? length args)%nat then drop 1 args else psubs s). intros targets.
  case_bool_decide; [auto with marekvs|].
  pose proof (punsubscribe_loop_handled targets ps s) as G. by destruct (punsubscribe_loop _ _ _) as [[? ?] ?].
Qed.

(** ** The node's invariant *)

Definition keys_of (get : Session -> list bytes) (n : Node) (id : Z) : list bytes := from_option get [] (sessions n !! id).
Record node_ok (n : Node) : Prop := {
  ok_channels : mirrors (channels (reg n)) (keys_of subs n);
  ok_patterns : mirrors (patterns (reg n)) (keys_of psubs n);
  ok_sessions : forall id s, sessions n !! id = Some s -> s_id s = id /\ NoDup (subs s) /\ NoDup (psubs s);
  ok_mail : forall id, is_Some (mail n !! id) <-> is_Some (sessions n !! id);
  ok_fresh : forall id, is_Some (sessions n !! id) -> id < next_session n;
}.

Lemma on_session_ok n id f :
  (forall s, sessions n !! id = Some s -> handled (reg n) s (f (reg n) s).1 (f (reg n) s).2) ->
  node_ok n -> node_ok (on_session n id f).
Proof.
  intros H O. unfold on_session. destruct (sessions n !! id) as [s|] eqn:L; [|done].
  specialize (H s eq_refl). destruct (f (reg n) s) as [ps' s'] eqn:F. simpl in H.
  destruct (ok_sessions n O id s L) as (I & N1 & N2). destruct H as [I' H].
  destruct (H (keys_of subs n) (keys_of psubs n)) as (C & P & _ & _ & N1' & N2').
  { split; [apply O|]. split; [apply O|]. unfold keys_of. rewrite I, L. done. }
  assert (U : forall get i, upd (keys_of get n) (s_id s) (get s') i =
                keys_of get (mkNode ps' (<[id:=s']> (sessions n)) (mail n) (next_session n)) i).
  { intros get i. unfold upd, keys_of. simpl. rewrite I. case_bool_decide as B; subst.
    - by rewrite lookup_insert_eq.
    - by rewrite lookup_insert_ne. }
  constructor; simpl.
  - eapply mirrors_ext; [apply (U subs)|done].
  - eapply mirrors_ext; [apply (U psubs)|done].
  - intros i t. destruct (decide (i = id)) as [->|Ne].
    + rewrite lookup_insert_eq. intros E. invert E. split; [congruence|done].
    + rewrite lookup_insert_ne by done. apply O.
  - intros i. rewrite (ok_mail n O). destruct (decide (i = id)) as [->|Ne].
    + rewrite lookup_insert_eq, L. by split.
    + by rewrite lookup_insert_ne by done.
  - intros i Hi. apply (ok_fresh n O). destruct (decide (i = id)) as [->|Ne]; [by rewrite L|].
    by rewrite lookup_insert_ne in Hi by done.
Qed.

(** ** Delivery *)

(** Sending a list of messages, one after the other. *)
Definition send_list (l : list (Z * PubMessage)) (st : Z * Mail) : Z * Mail :=
  fold_left (fun st p => let '(ok, mail) := send st.2 p.1 p.2 in (if ok then st.1 + 1 else st.1, mail)) l st.

Lemma send_all_list txs m : forall st, send_all txs m st = send_list (map (fun tx => (tx, m)) txs) st.
Proof. induction txs as [|tx txs IH]; intros st; [done|]. cbn. destruct (send _ _ _). apply IH. Qed.
Lemma send_list_app a b st : send_list (a ++ b) st = send_list b (send_list a st).
Proof. apply fold_left_app. Qed.

(** All the sends of one publish: channel subscribers, then each matching
    pattern's. *)
Definition sends (ps : PubSub) (channel payload : bytes) : list (Z * PubMessage) :=
  map (fun tx => (tx, mkPubMessage None channel payload)) (values (default ∅ (channels ps !! channel))) ++
  concat (map (fun e : bytes * Subscribers =>
    if glob_matches e.1 channel
    then map (fun tx => (tx, mkPubMessage (Some e.1) channel payload)) (values e.2) else [])
    (map_to_list (patterns ps))).

Lemma publish_local_sends ps mail channel payload :
  publish_local ps mail channel payload = send_list (sends ps channel payload) (0, mail).
Proof.
  unfold publish_local, sends. rewrite send_list_app.
  assert (E : match channels ps !! channel with
    | Some subs => send_all (values subs) (mkPubMessage None channel payload) (0, mail)
    | None => (0, mail) end =
    send_list (map (fun tx => (tx, mkPubMessage None channel payload)) (values (default ∅ (channels ps !! channel)))) (0, mail)).
  { destruct (channels ps !! channel); [apply send_all_list|done]. }
  rewrite E. generalize (send_list (map (fun tx => (tx, mkPubMessage None channel payload))
    (values (default ∅ (channels ps !! channel)))) (0, mail)). clear E.
  induction (map_to_list (patterns ps)) as [|[pat subs] l IH]; intros st; [done|].
  cbn [map concat fold_left]. rewrite send_list_app, <- IH. f_equal. cbn [fst snd].
  destruct (glob_matches pat channel); [apply send_all_list|done].
Qed.

(** A mailbox grows by what was sent to it, in order; no mailbox appears. *)
Lemma send_list_mail l : forall st id, (send_list l st).2 !! id =
  (fun box => box ++ map snd (List.filter (fun p => p.1 =? id) l)) <$> st.2 !! id.
Proof.
  induction l as [|[tx m] l IH]; intros [c mail] id.
  - cbn. destruct (mail !! id); simpl; [by rewrite app_nil_r|done].
  - cbn [send_list fold_left]. unfold send. cbn [fst snd]. fold (send_list l).
    destruct (mail !! tx) as [box|] eqn:L; change (fold_left _ l ?s) with (send_list l s); rewrite IH; cbn [List.filter fst snd];
      destruct (tx =? id) eqn:E; [apply Z.eqb_eq in E|apply Z.eqb_neq in E|apply Z.eqb_eq in E|done]; subst.
    + rewrite lookup_insert_eq, L. simpl. by rewrite <- app_assoc.
    + by rewrite lookup_insert_ne by done.
    + by rewrite L.
Qed.

Lemma filter_eq_NoDup id (l : list Z) : NoDup l ->
  List.filter (fun x => x =? id) l = if bool_decide (id ∈ l) then [id] else [].
Proof.
  induction 1 as [|x l NI ND IH]; [by rewrite bool_decide_eq_false_2 by set_solver|]. simpl. rewrite IH.
  destruct (x =? id) eqn:E; [apply Z.eqb_eq in E|apply Z.eqb_neq in E].
  - subst. rewrite (bool_decide_eq_false_2 (id ∈ l)), bool_decide_eq_true_2 by set_solver. done.
  - by rewrite (bool_decide_ext (id ∈ x :: l) (id ∈ l)) by set_solver.
Qed.

(** When every id is registered with its own sender, a session is found once
    or not at all. *)
Lemma values_for (s : Subscribers) id : (forall i tx, s !! i = Some tx -> tx = i) ->
  List.filter (fun x => x =? id) (values s) = if bool_decide (is_Some (s !! id)) then [id] else [].
Proof.
  intros T. assert (E : values s = map fst (map_to_list s)).
  { unfold values. apply map_ext_in. intros [i tx] I. apply list_elem_of_In, elem_of_map_to_list in I. by apply T. }
  rewrite E, filter_eq_NoDup by apply NoDup_fst_map_to_list.
  rewrite (bool_decide_ext (id ∈ map fst (map_to_list s)) (is_Some (s !! id))); [done|].
  rewrite list_elem_of_fmap. split.
  - intros ([i tx] & -> & I). apply elem_of_map_to_list in I. eauto.
  - intros [tx I]. exists (id, tx). by rewrite elem_of_map_to_list.
Qed.

Lemma filter_map {A B} (g : A -> B) (test : B -> bool) l :
  List.filter test (map g l) = map g (List.filter (fun x => test (g x)) l).
Proof. induction l as [|x l IH]; [done|]. simpl. rewrite IH. by destruct (test (g x)). Qed.

Lemma filter_concat {A} (test : A -> bool) ls : List.filter test (concat ls) = concat (map (List.filter test) ls).
Proof. induction ls as [|l ls IH]; [done|]. simpl. by rewrite List.filter_app, IH. Qed.

Lemma mirrors_own m f key s : mirrors m f -> m !! key = Some s ->
  (forall i tx, s !! i = Some tx -> tx = i) /\ forall i, is_Some (s !! i) <-> key ∈ f i.
Proof.
  intros [_ A] L. assert (E : forall i, s !! i = if bool_decide (key ∈ f i) then Some i else None).
  { intros i. rewrite <- A. unfold entry. by rewrite L. }
  split.
  - intros i tx. rewrite E. case_bool_decide; congruence.
  - intros i. rewrite E. case_bool_decide; split; try done; by intros [].
Qed.

Lemma sends_channel m f channel (msg : PubMessage) id : mirrors m f ->
  map snd (List.filter (fun p => p.1 =? id) (map (fun tx => (tx, msg)) (values (default ∅ (m !! channel))))) =
  if bool_decide (channel ∈ f id) then [msg] else [].
Proof.
  intros C. rewrite filter_map. cbn [fst]. rewrite map_map. cbn [snd].
  destruct (m !! channel) as [s|] eqn:L; simpl.
  - destruct (mirrors_own _ _ _ _ C L) as [T D]. rewrite values_for by done.
    rewrite (bool_decide_ext (is_Some (s !! id)) (channel ∈ f id)) by apply D. by case_bool_decide.
  - destruct C as [_ A]. specialize (A channel id). unfold entry in A. rewrite L in A. simpl in A.
    unfold values. rewrite map_to_list_empty. simpl. by case_bool_decide.
Qed.

Lemma sends_patterns m f (test : bytes -> bool) (msg : bytes -> PubMessage) id : mirrors m f -> NoDup (f id) ->
  map snd (List.filter (fun p => p.1 =? id) (concat (map (fun e : bytes * Subscribers =>
    if test e.1 then map (fun tx => (tx, msg e.1)) (values e.2) else []) (map_to_list m)))) ≡ₚ
  map msg (List.filter test (f id)).
Proof.
  intros P ND. rewrite filter_concat, map_map.
  assert (E : forall e, e ∈ map_to_list m ->
    List.filter (fun p : Z * PubMessage => p.1 =? id)
      (if test e.1 then map (fun tx => (tx, msg e.1)) (values e.2) else []) =
    if test e.1 && bool_decide (e.1 ∈ f id) then [(id, msg e.1)] else []).
  { intros [pat s] I. apply elem_of_map_to_list in I. cbn [fst snd].
    destruct (test pat); [|done]. rewrite filter_map. cbn [fst].
    destruct (mirrors_own _ _ _ _ P I) as [T D]. rewrite values_for by done.
    rewrite (bool_decide_ext (is_Some (s !! id)) (pat ∈ f id)) by apply D. by case_bool_decide. }
  rewrite (map_ext_in _ _ _ (fun e I => E e (proj2 (list_elem_of_In _ _) I))). clear E.
  transitivity (map msg (List.filter (fun pat => test pat && bool_decide (pat ∈ f id)) (map fst (map_to_list m)))).
  { apply Permutation_refl'. induction (map_to_list m) as [|[pat s] l IH]; [done|]. simpl.
    destruct (test pat && bool_decide (pat ∈ f id)); simpl; by rewrite IH. }
  apply Permutation_map, NoDup_Permutation.
  - apply NoDup_ListNoDup, List.NoDup_filter, NoDup_ListNoDup, NoDup_fst_map_to_list.
  - by apply NoDup_ListNoDup, List.NoDup_filter, NoDup_ListNoDup.
  - intros pat. rewrite !list_elem_of_In, !filter_In, <- !list_elem_of_In, andb_true_iff, bool_decide_eq_true.
    split; [naive_solver|]. intros [I M]. split; [|done]. destruct P as [_ A]. specialize (A pat id).
    rewrite bool_decide_eq_true_2 in A by done. unfold entry in A.
    destruct (m !! pat) as [s|] eqn:L; [|done]. apply list_elem_of_fmap. exists (pat, s).
    by rewrite elem_of_map_to_list.
Qed.

Lemma publish_keeps_ok n channel payload : node_ok n -> node_ok (node_step n (Publish channel payload)).
Proof.
  intros O. constructor; simpl; try apply O. intros id.
  rewrite publish_local_sends, send_list_mail, fmap_is_Some. apply O.
Qed.

Lemma accept_ok n : node_ok n -> node_ok (node_step n Accept).
Proof.
  intros O. set (id := next_session n).
  assert (F : sessions n !! id = None).
  { apply eq_None_not_Some. intros H. apply (ok_fresh n O) in H. unfold id in H. lia. }
  assert (K : forall get i, get (mkSession id [] []) = [] ->
    keys_of get n i = keys_of get (node_step n Accept) i).
  { intros get i G. unfold keys_of. simpl. fold id. destruct (decide (i = id)) as [->|Ne].
    - by rewrite lookup_insert_eq, F.
    - by rewrite lookup_insert_ne. }
  constructor.
  - eapply mirrors_ext; [intros i; by apply K|apply O].
  - eapply mirrors_ext; [intros i; by apply K|apply O].
  - simpl. fold id. intros i s. rewrite lookup_insert_Some. intros [[<- <-]|[_ L]]; [|by eapply O].
    simpl. repeat split; constructor.
  - simpl. fold id. intros i. rewrite !lookup_insert_is_Some. pose proof (ok_mail n O i). naive_solver.
  - simpl. fold id. intros i. rewrite lookup_insert_is_Some. intros [<-|[_ H]]; [lia|].
    apply (ok_fresh n O) in H. unfold id. lia.
Qed.

Lemma eof_ok n id : node_ok n -> node_ok (node_step n (Eof id)).
Proof.
  intros O. simpl. destruct (sessions n !! id) as [s|] eqn:L; [|done].
  destruct (ok_sessions n O id s L) as (I & N1 & N2).
  pose proof (on_session_ok n id reset_subs) as R. unfold on_session in R. rewrite L in R. simpl in R.
  specialize (R (fun s _ => drop_session_handled (reg n) s) O).
  assert (K : forall get ps i, get (mkSession (s_id s) [] []) = [] ->
    keys_of get (mkNode ps (<[id := mkSession (s_id s) [] []]> (sessions n)) (mail n) (next_session n)) i =
    keys_of get (mkNode ps (delete id (sessions n)) (delete id (mail n)) (next_session n)) i).
  { intros get ps i G. unfold keys_of. simpl. destruct (decide (i = id)) as [->|Ne].
    - by rewrite lookup_insert_eq, lookup_delete_eq.
    - by rewrite lookup_insert_ne, lookup_delete_ne. }
  constructor; simpl.
  - eapply mirrors_ext; [|apply (ok_channels _ R)]. intros i. by apply K.
  - eapply mirrors_ext; [|apply (ok_patterns _ R)]. intros i. by apply K.
  - intros i t. rewrite lookup_delete_Some. intros [_ H]. by eapply O.
  - intros i. rewrite !lookup_delete_is_Some. pose proof (ok_mail n O i). naive_solver.
  - intros i. rewrite lookup_delete_is_Some. intros [_ H]. by apply O.
Qed.

Definition returns (e : event) : bool := match e with Returned _ => true | _ => false end.

Lemma node_step_ok n e : returns e = false -> node_ok n -> node_ok (node_step n e).
Proof.
  intros H O. destruct e as [|id args|id args|id args|id args|id|ch pl|id|id]; [by apply accept_ok|..|discriminate].
  - apply on_session_ok; [|done]. intros s _. apply subscribe_handled.
  - apply on_session_ok; [|done]. intros s _. apply unsubscribe_handled.
  - apply on_session_ok; [|done]. intros s _. apply psubscribe_handled.
  - apply on_session_ok; [|done]. intros s _. apply punsubscribe_handled.
  - apply on_session_ok; [|done]. intros s _. apply drop_session_handled.
  - by apply publish_keeps_ok.
  - by apply eof_ok.
Qed.

Lemma mirrors_empty f : (forall i, f i = []) -> mirrors ∅ f.
Proof.
  intros H. split; [by intros key s E; rewrite lookup_empty in E|].
  intros key i. unfold entry. by rewrite lookup_empty, H, bool_decide_eq_false_2 by set_solver.
Qed.

Lemma node_new_ok : node_ok Node_new.
Proof.
  constructor; simpl.
  - apply mirrors_empty. intros i. unfold keys_of. simpl. by rewrite lookup_empty.
  - apply mirrors_empty. intros i. unfold keys_of. simpl. by rewrite lookup_empty.
  - intros id s E. by rewrite lookup_empty in E.
  - intros id. by rewrite !lookup_empty.
  - intros id. rewrite lookup_empty. by intros [].
Qed.

Lemma node_run_ok es : Forall (fun e => returns e = false) es -> forall n, node_ok n -> node_ok (node_run n es).
Proof. induction 1 as [|e es He _ IH]; intros n O; [done|]. apply IH. by apply node_step_ok. Qed.

(** The count is the number of sends whose receiver is alive. *)
Lemma send_list_count l : forall st,
  (send_list l st).1 = st.1 + Z.of_nat (length (List.filter (fun p => bool_decide (is_Some (st.2 !! p.1))) l)).
Proof.
  induction l as [|[tx m] l IH]; intros [c mail]; [simpl; lia|].
  cbn [send_list fold_left]. unfold send. cbn [fst snd].
  assert (K : forall mail' : Mail, (forall i, is_Some (mail' !! i) <-> is_Some (mail !! i)) ->
    List.filter (fun p : Z * PubMessage => bool_decide (is_Some (mail' !! p.1))) l =
    List.filter (fun p => bool_decide (is_Some (mail !! p.1))) l).
  { intros mail' H. apply List.filter_ext. intros p. by apply bool_decide_ext. }
  destruct (mail !! tx) as [box|] eqn:L; change (fold_left _ l ?s) with (send_list l s); rewrite IH; cbn [fst snd List.filter].
  - rewrite L, (bool_decide_eq_true_2 (is_Some (Some box))) by done. rewrite K; [simpl length; lia|].
    intros i. rewrite lookup_insert_is_Some. destruct (decide (tx = i)) as [->|]; [rewrite L|]; naive_solver.
  - rewrite L, bool_decide_eq_false_2 by (by intros []). done.
Qed.

(** Registered senders belong to live sessions. *)
Lemma values_live m get n key s tx : mirrors m (keys_of get n) -> m !! key = Some s ->
  tx ∈ values s -> is_Some (sessions n !! tx).
Proof.
  intros M L I. destruct (mirrors_own _ _ _ _ M L) as [T D].
  apply list_elem_of_fmap in I as ([i tx'] & -> & I). apply elem_of_map_to_list in I. simpl.
  pose proof (T _ _ I) as ->. assert (K : key ∈ keys_of get n i) by (apply D; eauto).
  unfold keys_of in K. destruct (sessions n !! i); [done|set_solver].
Qed.

Lemma sends_live n channel payload p : node_ok n -> p ∈ sends (reg n) channel payload -> is_Some (mail n !! p.1).
Proof.
  intros O I. apply (ok_mail n O). unfold sends in I. apply elem_of_app in I as [I|I].
  - apply list_elem_of_fmap in I as (tx & -> & I). simpl. destruct (channels (reg n) !! channel) as [s|] eqn:L.
    + eapply values_live; [apply (ok_channels n O)|done|done].
    + unfold values in I. simpl in I. rewrite map_to_list_empty in I. set_solver.
  - apply list_elem_of_In, in_concat in I as (l & J & I).
    apply list_elem_of_In in I, J. apply list_elem_of_fmap in J as ([pat s] & -> & J).
    apply elem_of_map_to_list in J. simpl in I. destruct (glob_matches pat channel); [|set_solver].
    apply list_elem_of_fmap in I as (tx & -> & I). simpl.
    eapply values_live; [apply (ok_patterns n O)|done|done].
Qed.

Lemma filter_all {A} (test : A -> bool) l : (forall x, x ∈ l -> test x = true) -> List.filter test l = l.
Proof.
  induction l as [|x l IH]; intros H; [done|]. simpl. rewrite H by set_solver. f_equal. apply IH. set_solver.
Qed.

(** [C28] Publishing delivers exactly once per matching subscription: on a node
    that any sequence of connections, subscription commands, resets,
    publishes and client disconnects can produce, a publish appends to each
    live connection's mailbox one plain message if it subscribed to the
    channel and one pattern message per subscribed pattern that matches, and
    nothing else; the registry holds no empty entry, and the count returned
    to the publisher is the number of messages sent. *)
Theorem publish_delivers_once (es : list event) (channel payload : bytes) :
  Forall (fun e => returns e = false) es ->
  let n := node_run Node_new es in
  let r := publish_local (reg n) (mail n) channel payload in
  r.1 = Z.of_nat (length (sends (reg n) channel payload)) /\
  (forall id, sessions n !! id = None -> r.2 !! id = None) /\
  (forall id s, sessions n !! id = Some s -> exists old new,
     mail n !! id = Some old /\ r.2 !! id = Some (old ++ new) /\
     new ≡ₚ (if bool_decide (channel ∈ subs s) then [mkPubMessage None channel payload] else []) ++
            map (fun pat => mkPubMessage (Some pat) channel payload)
              (List.filter (fun pat => glob_matches pat channel) (psubs s))).
Proof.
  intros H n r. pose proof (node_run_ok es H Node_new node_new_ok) as O. fold n in O. unfold r. clear r.
  rewrite publish_local_sends. split; [|split].
  - rewrite send_list_count. cbn [fst snd]. rewrite Z.add_0_l. do 2 f_equal.
    apply filter_all. intros p I. apply bool_decide_eq_true. by eapply sends_live.
  - intros id L. rewrite send_list_mail. cbn [snd].
    destruct (mail n !! id) as [box|] eqn:M; [|done]. exfalso.
    assert (S : is_Some (sessions n !! id)) by (apply (ok_mail n O); by rewrite M). rewrite L in S. by destruct S.
  - intros id s L. destruct (proj2 (ok_mail n O id) ltac:(by rewrite L)) as [box M].
    exists box. eexists. split; [done|]. rewrite send_list_mail. cbn [snd]. rewrite M. split; [reflexivity|].
    unfold sends. rewrite List.filter_app, map_app.
    rewrite (sends_channel _ _ channel _ id (ok_channels n O)).
    assert (Es : keys_of subs n id = subs s /\ keys_of psubs n id = psubs s) by (unfold keys_of; by rewrite L).
    destruct Es as [<- <-]. f_equiv. 
    apply (sends_patterns (patterns (reg n)) (keys_of psubs n) (fun pat => glob_matches pat channel)
      (fun pat => mkPubMessage (Some pat) channel payload) id); [apply O|].
    unfold keys_of. rewrite L. by apply (ok_sessions n O id s L).
Qed.

(** Two connections, one subscribed twice over by channel and pattern, one
    gone. *)
Lemma publish_delivers_once_witness :
  let es := [Accept; Accept; Subscribe 1 [[]; [97; 98]; [97; 98]]; Psubscribe 1 [[]; [97; 42]];
             Subscribe 2 [[]; [97; 98]]; Eof 2] in
  let n := node_run Node_new es in
  let r := publish_local (reg n) (mail n) [97; 98] [33] in
  r.1 = Z.of_nat (length (sends (reg n) [97; 98] [33])) /\ r.1 = 2 /\
  (forall id, sessions n !! id = None -> r.2 !! id = None) /\
  r.2 !! 1 = Some [mkPubMessage None [97; 98] [33]; mkPubMessage (Some [97; 42]) [97; 98] [33]].
Proof.
  intros es n r.
  destruct (publish_delivers_once es [97; 98] [33]) as (C & D & _); [repeat constructor|].
  split; [exact C|]. split; [vm_compute; reflexivity|]. split; [exact D|vm_compute; reflexivity].
Defined.

(** ** Connections that end by returning *)

(** The subscription of a session that is not live. *)
Definition dangling (n : Node) (id : Z) (channel : bytes) : Prop :=
  is_Some (entry (channels (reg n)) channel id) /\ sessions n !! id = None /\ id < next_session n.

(** Sessions are filed under their own ids. *)
Definition named (n : Node) : Prop := forall id s, sessions n !! id = Some s -> s_id s = id.

(** A handler of session [id] leaves the others' channel entries alone. *)
Definition others_kept (id : Z) (ps ps' : PubSub) : Prop :=
  forall key i, i <> id -> entry (channels ps') key i = entry (channels ps) key i.

#[local] Instance others_kept_preorder id : PreOrder (others_kept id).
Proof. split; [by intros ps key i|]. intros a b c H1 H2 key i N. by rewrite H2, H1. Qed.

Lemma kept_subscribe ps id ch tx : others_kept id ps (PubSub_subscribe ps id ch tx).
Proof. intros key i N. simpl. rewrite entry_add, bool_decide_eq_false_2 by naive_solver. done. Qed.
Lemma kept_unsubscribe ps id ch : others_kept id ps (PubSub_unsubscribe ps id ch).
Proof. intros key i N. simpl. rewrite entry_remove, bool_decide_eq_false_2 by naive_solver. done. Qed.
Lemma kept_patterns ps id m : others_kept id ps (mkPubSub (channels ps) m).
Proof. by intros key i N. Qed.
#[local] Hint Resolve kept_subscribe kept_unsubscribe kept_patterns : marekvs.

Lemma subscribe_loop_kept chs : forall ps s, others_kept (s_id s) ps (subscribe_loop ps s chs).1.1.
Proof.
  induction chs as [|ch chs IH]; intros ps s; cbn [subscribe_loop]; [reflexivity|].
  case_bool_decide; [specialize (IH ps s)|
    specialize (IH (PubSub_subscribe ps (s_id s) ch (s_id s)) (mkSession (s_id s) (subs s ++ [ch]) (psubs s)))];
    destruct (subscribe_loop _ _ _) as [[ps' s'] cs]; [done|]. etransitivity; [|apply IH]. auto with marekvs.
Qed.
Lemma psubscribe_loop_kept pats : forall ps s, others_kept (s_id s) ps (psubscribe_loop ps s pats).1.1.
Proof.
  induction pats as [|pat pats IH]; intros ps s; cbn [psubscribe_loop]; [reflexivity|].
  case_bool_decide; [specialize (IH ps s)|
    specialize (IH (PubSub_psubscribe ps (s_id s) pat (s_id s)) (mkSession (s_id s) (subs s) (psubs s ++ [pat])))];
    destruct (psubscribe_loop _ _ _) as [[ps' s'] cs]; [done|]. etransitivity; [|apply IH]. apply kept_patterns.
Qed.
Lemma unsubscribe_loop_kept chs : forall ps s, others_kept (s_id s) ps (unsubscribe_loop ps s chs).1.1.
Proof.
  induction chs as [|ch chs IH]; intros ps s; cbn [unsubscribe_loop]; [reflexivity|].
  specialize (IH (PubSub_unsubscribe ps (s_id s) ch) (mkSession (s_id s) (retain_ne ch (subs s)) (psubs s))).
  destruct (unsubscribe_loop _ _ _) as [[ps' s'] cs]. etransitivity; [|apply IH]. auto with marekvs.
Qed.
Lemma punsubscribe_loop_kept pats : forall ps s, others_kept (s_id s) ps (punsubscribe_loop ps s pats).1.1.
Proof.
  induction pats as [|pat pats IH]; intros ps s; cbn [punsubscribe_loop]; [reflexivity|].
  specialize (IH (PubSub_punsubscribe ps (s_id s) pat) (mkSession (s_id s) (subs s) (retain_ne pat (psubs s)))).
  destruct (punsubscribe_loop _ _ _) as [[ps' s'] cs]. etransitivity; [|apply IH]. apply kept_patterns.
Qed.
Lemma drop_session_kept ps id chans pats : others_kept id ps (drop_session ps id chans pats).
Proof.
  unfold drop_session. transitivity (fold_left (fun ps c => PubSub_unsubscribe ps id c) chans ps).
  - revert ps. induction chans as [|c chans IH]; intros ps; [reflexivity|]. simpl. etransitivity; [|apply IH].
    auto with marekvs.
  - generalize (fold_left (fun ps c => PubSub_unsubscribe ps id c) chans ps). clear ps.
    induction pats as [|c pats IH]; intros ps; [reflexivity|]. simpl. etransitivity; [|apply IH]. apply kept_patterns.
Qed.

Lemma subscribe_kept ps s args : others_kept (s_id s) ps (subscribe ps s args).1.1.
Proof.
  unfold subscribe. destruct (_ <? _)%nat; [reflexivity|].
  pose proof (subscribe_loop_kept (drop 1 args) ps s). by destruct (subscribe_loop _ _ _) as [[? ?] ?].
Qed.
Lemma psubscribe_kept ps s args : others_kept (s_id s) ps (psubscribe ps s args).1.1.
Proof.
  unfold psubscribe. destruct (_ <? _)%nat; [reflexivity|].
  pose proof (psubscribe_loop_kept (drop 1 args) ps s). by destruct (psubscribe_loop _ _ _) as [[? ?] ?].
Qed.
Lemma unsubscribe_kept ps s args : others_kept (s_id s) ps (unsubscribe ps s args).1.1.
Proof.
  unfold unsubscribe. generalize (if (1 <? length args)%nat then drop 1 args else subs s). intros l.
  case_bool_decide; [reflexivity|]. pose proof (unsubscribe_loop_kept l ps s).
  by destruct (unsubscribe_loop _ _ _) as [[? ?] ?].
Qed.
Lemma punsubscribe_kept ps s args : others_kept (s_id s) ps (punsubscribe ps s args).1.1.
Proof.
  unfold punsubscribe. generalize (if (1 <? length args)%nat then drop 1 args else psubs s). intros l.
  case_bool_decide; [reflexivity|]. pose proof (punsubscribe_loop_kept l ps s).
  by destruct (punsubscribe_loop _ _ _) as [[? ?] ?].
Qed.

Lemma on_session_dangling n id channel i f : named n -> dangling n id channel ->
  (forall s, s_id (f (reg n) s).2 = s_id s /\ others_kept (s_id s) (reg n) (f (reg n) s).1) ->
  named (on_session n i f) /\ dangling (on_session n i f) id channel.
Proof.
  intros N (E & S & F) H. unfold on_session. destruct (sessions n !! i) as [s|] eqn:L; [|done].
  assert (Ne : i <> id) by congruence. destruct (H s) as [I K]. pose proof (N i s L) as Is.
  destruct (f (reg n) s) as [ps' s'] eqn:Ef. simpl in *. split.
  - intros j t. simpl. rewrite lookup_insert_Some. intros [[<- <-]|[_ Lt]]; [congruence|by apply N].
  - split; [|split]; simpl; [by rewrite K by congruence|by rewrite lookup_insert_ne|done].
Qed.

Lemma step_dangling n e id channel : named n -> dangling n id channel ->
  named (node_step n e) /\ dangling (node_step n e) id channel.
Proof.
  intros N D. pose proof D as (E & S & F).
  destruct e as [|i args|i args|i args|i args|i|ch pl|i|i]; simpl.
  - split.
    + intros j t. simpl. rewrite lookup_insert_Some. intros [[<- <-]|[_ Lt]]; [done|by apply N].
    + split; [done|]. simpl. rewrite lookup_insert_ne by lia. split; [done|lia].
  - apply on_session_dangling; [done..|]. intros s. split; [apply subscribe_handled|apply subscribe_kept].
  - apply on_session_dangling; [done..|]. intros s. split; [apply unsubscribe_handled|apply unsubscribe_kept].
  - apply on_session_dangling; [done..|]. intros s. split; [apply psubscribe_handled|apply psubscribe_kept].
  - apply on_session_dangling; [done..|]. intros s. split; [apply punsubscribe_handled|apply punsubscribe_kept].
  - apply on_session_dangling; [done..|]. intros s. split; [done|apply drop_session_kept].
  - done.
  - destruct (sessions n !! i) as [s|] eqn:L; [|done]. pose proof (N i s L) as Is. split.
    + intros j t. simpl. rewrite lookup_delete_Some. intros [_ Lt]. by apply N.
    + split; simpl; [|rewrite lookup_delete_None; auto].
      rewrite drop_session_kept by congruence. done.
  - split.
    + intros j t. simpl. rewrite lookup_delete_Some. intros [_ Lt]. by apply N.
    + split; simpl; [done|rewrite lookup_delete_None; auto].
Qed.

Lemma run_dangling es : forall n id channel, named n -> dangling n id channel ->
  dangling (node_run n es) id channel.
Proof.
  induction es as [|e es IH]; intros n id channel N D; [done|].
  destruct (step_dangling n e id channel N D). by apply IH.
Qed.

(** A subscription outlives its connection when [serve_client] returns
    early (QUIT, a protocol error, a socket error) instead of leaving its
    loop: [drop_session] is skipped, and the registry entry then stays for
    the life of the process, whatever any connection does afterwards. *)
Theorem returned_session_leaks (es es' : list event) (id : Z) (s : Session) (channel : bytes) :
  Forall (fun e => returns e = false) es ->
  sessions (node_run Node_new es) !! id = Some s -> channel ∈ subs s ->
  let n := node_run Node_new (es ++ Returned id :: es') in
  sessions n !! id = None /\ 1 <= numsub (reg n) channel.
Proof.
  intros H L I n. pose proof (node_run_ok es H Node_new node_new_ok) as O.
  assert (D : dangling n id channel).
  { unfold n, node_run. rewrite fold_left_app. simpl. apply run_dangling.
    - intros j t. simpl. rewrite lookup_delete_Some. intros [_ Lt]. by apply (ok_sessions _ O).
    - split; [|split].
      + simpl. destruct (ok_channels _ O) as [_ A]. fold (node_run Node_new es). rewrite A.
        rewrite bool_decide_eq_true_2; [by eexists|]. unfold keys_of. by rewrite L.
      + simpl. by rewrite lookup_delete_eq.
      + simpl. apply (ok_fresh _ O). by rewrite L. }
  destruct D as (E & S & _). split; [done|]. unfold numsub. unfold entry in E.
  destruct (channels (reg n) !! channel) as [m|]; [|by destruct E]. simpl in E.
  assert (size m <> 0%nat); [|lia]. intros Z. apply map_size_empty_inv in Z. subst m. rewrite lookup_empty in E. by destruct E.
Qed.

Lemma returned_session_leaks_witness :
  let n := node_run Node_new ([Accept; Subscribe 1 [[]; [97]]] ++ Returned 1 :: [Accept; Publish [97] []]) in
  sessions n !! 1 = None /\ 1 <= numsub (reg n) [97].
Proof.
  apply (returned_session_leaks [Accept; Subscribe 1 [[]; [97]]] [Accept; Publish [97] []] 1 (mkSession 1 [[97]] [])).
  - repeat constructor.
  - vm_compute. reflexivity.
  - computed.
Defined.
