(* ===== verification/Server.v ===== *)
(** * Connections

    Models how a connection turns parsed commands into replies:
    [Engine::dispatch] of [crates/marekvs-engine/src/lib.rs] (the
    authentication gate, MULTI/EXEC queueing), [AUTH], [HELLO], [RESET] and
    [QUIT] of [cmd/server.rs] and [cmd/mod.rs], and the pipeline loop of
    [serve_client] in [crates/marekvs-server/src/main.rs], which fans
    consecutive independent commands out to concurrent tasks.

    The command table behind [cmd::dispatch] is a parameter: [exec] runs one
    command on the engine ([World]). Commands are taken as atomic, as the
    per-key shard threads make them. *)

From Stdlib Require Import Ascii String.
From S2P Require Import Prelude Resp Reply.

(** ** Command classes *)

Definition parallel_safe_names : list string := [
    "GET"; "SET"; "SETNX"; "SETEX"; "PSETEX"; "GETSET"; "GETDEL"; "GETEX"; "APPEND"; "STRLEN"; "INCR"; "DECR";
    "INCRBY"; "DECRBY"; "INCRBYFLOAT"; "MGET"; "MSET"; "MSETNX"; "SETRANGE"; "GETRANGE"; "SUBSTR"; "DEL";
    "UNLINK"; "EXISTS"; "TYPE"; "TTL"; "PTTL"; "EXPIRE"; "PEXPIRE"; "EXPIREAT"; "PEXPIREAT"; "EXPIRETIME";
    "PEXPIRETIME"; "EXPIREMEMBER"; "EXPIREMEMBERAT"; "PEXPIREMEMBERAT"; "PFADD"; "PFCOUNT"; "PFMERGE";
    "PERSIST"; "COPY"; "TOUCH"; "SADD"; "SREM"; "SCARD"; "SISMEMBER"; "SMISMEMBER"; "SMEMBERS"; "SPOP";
    "SRANDMEMBER"; "SSCAN"; "SMOVE"; "SUNION"; "SINTER"; "SDIFF"; "SUNIONSTORE"; "SINTERSTORE"; "SDIFFSTORE";
    "SINTERCARD"; "HSET"; "HMSET"; "HSETNX"; "HGET"; "HMGET"; "HGETALL"; "HDEL"; "HGETDEL"; "HEXPIRE";
    "HPEXPIRE"; "HEXPIREAT"; "HPEXPIREAT"; "HTTL"; "HPTTL"; "HEXPIRETIME"; "HPEXPIRETIME"; "HPERSIST";
    "HGETEX"; "HSETEX"; "HEXISTS"; "HLEN"; "HKEYS"; "HVALS"; "HSTRLEN"; "HINCRBY"; "HINCRBYFLOAT";
    "HRANDFIELD"; "HSCAN"; "ZADD"; "ZSCORE"; "ZMSCORE"; "ZCARD"; "ZINCRBY"; "ZREM"; "ZRANGE"; "ZRANGEBYSCORE";
    "ZREVRANGEBYSCORE"; "ZREVRANGE"; "ZRANK"; "ZREVRANK"; "ZCOUNT"; "ZLEXCOUNT"; "ZPOPMIN"; "ZPOPMAX";
    "ZMPOP"; "ZRANDMEMBER"; "ZRANGESTORE"; "ZRANGEBYLEX"; "ZREVRANGEBYLEX"; "ZREMRANGEBYSCORE";
    "ZREMRANGEBYRANK"; "ZREMRANGEBYLEX"; "ZUNION"; "ZINTER"; "ZDIFF"; "ZUNIONSTORE"; "ZINTERSTORE";
    "ZDIFFSTORE"; "ZINTERCARD"; "ZSCAN"; "LPUSH"; "RPUSH"; "LPUSHX"; "RPUSHX"; "LPOP"; "RPOP"; "LLEN";
    "LRANGE"; "LINDEX"; "LSET"; "LREM"; "LTRIM"; "LINSERT"; "LPOS"; "LMOVE"; "RPOPLPUSH"; "LMPOP"; "XADD";
    "XLEN"; "XRANGE"; "XREVRANGE"; "XREAD"; "XDEL"; "XTRIM"; "XSETID"; "XINFO"; "BG.RESERVE"; "BG.COMMIT";
    "BG.RELEASE"; "BG.DRAW"; "BG.INFO"; "JSON.SET"; "JSON.GET"; "JSON.MGET"; "JSON.MSET"; "JSON.DEL";
    "JSON.FORGET"; "JSON.TYPE"; "JSON.NUMINCRBY"; "JSON.NUMMULTBY"; "JSON.STRAPPEND"; "JSON.STRLEN";
    "JSON.ARRAPPEND"; "JSON.ARRINDEX"; "JSON.ARRINSERT"; "JSON.ARRLEN"; "JSON.ARRPOP"; "JSON.ARRTRIM";
    "JSON.OBJKEYS"; "JSON.OBJLEN"; "JSON.TOGGLE"; "JSON.CLEAR"; "JSON.MERGE"; "JSON.RESP"; "PROTO.BIND";
    "PROTO.UNBIND"; "PROTO.SET"; "PROTO.SETFIELD"; "PROTO.CLEARFIELD"; "PROTO.SETJSON"; "PROTO.HSET";
    "PROTO.SADD"; "PING"; "ECHO"]%string.
Definition parallel_safe (name : bytes) : bool := bool_decide (name ∈ map str parallel_safe_names).

Definition is_write_command_names : list string := [
    "DIFF.SNAPSHOT"; "DIFF.FORK"; "DIFF.COMPARE"; "DIFF.IMPORT"; "DIFF.DECIDE"; "DIFF.APPLY"; "DIFF.MERGE3";
    "SET"; "SETNX"; "SETEX"; "PSETEX"; "GETSET"; "GETDEL"; "GETEX"; "APPEND"; "INCR"; "DECR"; "INCRBY";
    "DECRBY"; "INCRBYFLOAT"; "MSET"; "MSETNX"; "SETRANGE"; "DEL"; "UNLINK"; "FLUSHALL"; "FLUSHDB"; "EXPIRE";
    "PEXPIRE"; "EXPIREAT"; "PEXPIREAT"; "EXPIREMEMBER"; "EXPIREMEMBERAT"; "PEXPIREMEMBERAT"; "PERSIST";
    "RENAME"; "RENAMENX"; "COPY"; "HSET"; "HSETNX"; "HMSET"; "HDEL"; "HGETDEL"; "HEXPIRE"; "HPEXPIRE";
    "HEXPIREAT"; "HPEXPIREAT"; "HPERSIST"; "HGETEX"; "HSETEX"; "HINCRBY"; "HINCRBYFLOAT"; "SADD"; "SREM";
    "SPOP"; "SMOVE"; "SUNIONSTORE"; "SINTERSTORE"; "SDIFFSTORE"; "ZADD"; "ZINCRBY"; "ZREM"; "ZPOPMIN";
    "ZPOPMAX"; "BZPOPMIN"; "BZPOPMAX"; "ZMPOP"; "BZMPOP"; "ZRANGESTORE"; "ZREMRANGEBYSCORE";
    "ZREMRANGEBYRANK"; "ZREMRANGEBYLEX"; "ZUNIONSTORE"; "ZINTERSTORE"; "ZDIFFSTORE"; "LPUSH"; "RPUSH";
    "LPUSHX"; "RPUSHX"; "LPOP"; "RPOP"; "LSET"; "LREM"; "LTRIM"; "LINSERT"; "LMOVE"; "RPOPLPUSH"; "LMPOP";
    "BLPOP"; "BRPOP"; "BLMOVE"; "BRPOPLPUSH"; "BLMPOP"; "XADD"; "XDEL"; "XTRIM"; "XSETID"; "PFADD"; "PFMERGE";
    "EVAL"; "EVALSHA"; "BG.CREATE"; "BG.TOPUP"; "BG.RESERVE"; "BG.COMMIT"; "BG.RELEASE"; "BG.DRAW";
    "BG.RECLAIM"; "JSON.SET"; "JSON.MSET"; "JSON.DEL"; "JSON.FORGET"; "JSON.NUMINCRBY"; "JSON.NUMMULTBY";
    "JSON.STRAPPEND"; "JSON.ARRAPPEND"; "JSON.ARRINSERT"; "JSON.ARRPOP"; "JSON.ARRTRIM"; "JSON.TOGGLE";
    "JSON.CLEAR"; "JSON.MERGE"; "PROTO.BIND"; "PROTO.UNBIND"; "PROTO.SET"; "PROTO.SETFIELD";
    "PROTO.CLEARFIELD"; "PROTO.SETJSON"; "PROTO.HSET"; "PROTO.SADD"]%string.
Definition is_write_command (name : bytes) : bool := bool_decide (name ∈ map str is_write_command_names).

Definition to_ascii_uppercase (b : Z) : Z := if (97 <=? b) && (b <=? 122) then b - 32 else b.

(** A name that is not valid UTF-8 is in no table, so the check for it in the
    source never decides. *)
Definition is_batchable (args : list bytes) : bool :=
  match args with
  | [] => false
  | name :: _ => if (16 <? length name)%nat then false else parallel_safe (map to_ascii_uppercase name)
  end.

(** ** Sessions *)

Record Conn := mkConn {
  c_id : Z;
  authenticated : bool;
  should_close : bool;
  c_resp3 : bool;
  c_name : bytes;
  multi : option (list (list bytes) * bool);
  c_subs : Z;
}.
Definition set_auth (b : bool) (s : Conn) : Conn :=
  mkConn (c_id s) b (should_close s) (c_resp3 s) (c_name s) (multi s) (c_subs s).
Definition set_close (b : bool) (s : Conn) : Conn :=
  mkConn (c_id s) (authenticated s) b (c_resp3 s) (c_name s) (multi s) (c_subs s).
Definition set_resp3 (b : bool) (s : Conn) : Conn :=
  mkConn (c_id s) (authenticated s) (should_close s) b (c_name s) (multi s) (c_subs s).
Definition set_name (n : bytes) (s : Conn) : Conn :=
  mkConn (c_id s) (authenticated s) (should_close s) (c_resp3 s) n (multi s) (c_subs s).
Definition set_multi (m : option (list (list bytes) * bool)) (s : Conn) : Conn :=
  mkConn (c_id s) (authenticated s) (should_close s) (c_resp3 s) (c_name s) m (c_subs s).
Definition with_resp3 (out : ReplyBuf) (b : bool) : ReplyBuf := mkReplyBuf b (rb_buf out).

(** [u64::from_str]: an optional plus sign, at least one digit, in range. *)
Definition parse_u64 (b : bytes) : option Z :=
  let digits := match b with 43 :: b' => b' | _ => b end in
  if bool_decide (digits = []) then None
  else if forallb (fun c => (48 <=? c) && (c <=? 57)) digits
  then let v := dec_from 0 digits in if v <? 2 ^ 64 then Some v else None
  else None.

Definition not_int : Reply := RErr (str "ERR value is not an integer or out of range").

(** [i64::from_str]: an optional sign, at least one digit, in range. *)
Definition parse_i64 (b : bytes) : option Z :=
  let '(neg, digits) := match b with 45 :: b' => (true, b') | 43 :: b' => (false, b') | _ => (false, b) end in
  if bool_decide (digits = []) then None
  else if forallb (fun c => (48 <=? c) && (c <=? 57)) digits
  then let v := if neg then - dec_from 0 digits else dec_from 0 digits in
       if (- 2 ^ 63 <=? v) && (v <? 2 ^ 63) then Some v else None
  else None.

Definition eq_ignore_case (b : bytes) (s : string) : bool :=
  bool_decide (map to_ascii_uppercase b = map to_ascii_uppercase (str s)).

Definition WRONGPASS : Reply := RErr (str "WRONGPASS invalid username-password pair or user is disabled.").

(** [AUTH [user] pass]; [rp] is the engine's password. *)
Definition auth (rp : bytes) (s : Conn) (args : list bytes) : Conn * Reply :=
  let pass := match args with [_; p] => Some p | [_; _; p] => Some p | _ => None end in
  match pass with
  | None => (s, wrong_args "auth")
  | Some pass =>
      if bool_decide (rp = []) then (s, RErr (str "ERR Client sent AUTH, but no password is set."))
      else if bool_decide (pass = rp) then (set_auth true s, RSimple (str "OK"))
      else (s, WRONGPASS)
  end.

(** The option loop of [HELLO]; an error reply ends it. *)
Fixpoint hello_loop (fuel : nat) (rp : bytes) (s : Conn) (args : list bytes) (lossy : bytes -> bytes)
    : Conn * option Reply :=
  match fuel, args with
  | S fuel, a :: rest =>
      if eq_ignore_case a "AUTH" then
        match rest with
        | _ :: pass :: rest =>
            if negb (bool_decide (rp = [])) && negb (bool_decide (pass = rp)) then (s, Some WRONGPASS)
            else hello_loop fuel rp (set_auth true s) rest lossy
        | _ => (s, Some syntax)
        end
      else if eq_ignore_case a "SETNAME" then
        hello_loop fuel rp (match rest with n :: _ => set_name (lossy n) s | [] => s end) (drop 1 rest) lossy
      else (s, Some syntax)
  | _, _ => (s, None)
  end.

(** [HELLO] after its protocol version: options, then the greeting. *)
Definition hello_opts (rp version : bytes) (lossy : bytes -> bytes) (s : Conn) (opts : list bytes) (out : ReplyBuf)
    : Conn * ReplyBuf * Reply :=
  match hello_loop (length opts) rp s opts lossy with
  | (s, Some err) => (s, out, err)
  | (s, None) =>
      if negb (bool_decide (rp = [])) && negb (authenticated s)
      then (s, out, RErr (str "NOAUTH HELLO must be called with the client already authenticated"))
      else (s, with_resp3 out (c_resp3 s),
            RMap [(RBulk (str "server"), RBulk (str "marekvs"));
                  (RBulk (str "version"), RBulk version);
                  (RBulk (str "proto"), RInt (if c_resp3 s then 3 else 2));
                  (RBulk (str "id"), RInt (to_signed 64 (c_id s)));
                  (RBulk (str "mode"), RBulk (str "cluster"));
                  (RBulk (str "role"), RBulk (str "master"));
                  (RBulk (str "modules"), RArray [])])
  end.
Definition hello (rp version : bytes) (lossy : bytes -> bytes) (s : Conn) (args : list bytes) (out : ReplyBuf)
    : Conn * ReplyBuf * Reply :=
  match args with
  | _ :: v :: opts =>
      let noproto := (s, out, RErr (str "NOPROTO unsupported protocol version")) in
      match parse_u64 v with
      | Some z =>
          if z =? 2 then hello_opts rp version lossy (set_resp3 false s) opts out
          else if z =? 3 then hello_opts rp version lossy (set_resp3 true s) opts out
          else noproto
      | None => noproto
      end
  | _ => hello_opts rp version lossy s [] out
  end.

Definition reset (rp : bytes) (s : Conn) : Conn * Reply :=
  (mkConn (c_id s) (bool_decide (rp = [])) (should_close s) false (c_name s) (multi s) 0, RSimple (str "RESET")).

(** ** Dispatch *)

(** Evaluate the tests on literal command names. *)
Ltac name_tests :=
  repeat match goal with
  | |- context [bool_decide ?P] =>
      let b := eval vm_compute in (bool_decide P) in
      lazymatch b with true => idtac | false => idtac end; change (bool_decide P) with b
  end; cbv iota.

Section Dispatch.
  Context {World : Type}.
  (** The engine's password, and every command other than the four below. *)
  Context (requirepass : World -> bytes).
  Context (exec : World -> Conn -> bytes -> list bytes -> ReplyBuf -> World * Conn * ReplyBuf * Reply).
  (** [String::from_utf8_lossy] with and without [to_uppercase]; the crate's
      version; the text of a double. *)
  Context (lossy upper : bytes -> bytes) (version : bytes) (display_f64 : Z -> bytes).

(** [reply.write(out)]; a reply of 64-bit integers does not panic. *)
Definition emit (r : Reply) (out : ReplyBuf) : ReplyBuf :=
  match write display_f64 r out with Ret out => out | Panic => out end.

Definition cmd_dispatch (w : World) (s : Conn) (name : bytes) (args : list bytes) (out : ReplyBuf)
    : World * Conn * ReplyBuf * Reply :=
  if bool_decide (name = str "AUTH") then let '(s, r) := auth (requirepass w) s args in (w, s, out, r)
  else if bool_decide (name = str "HELLO") then
    let '(s, out, r) := hello (requirepass w) version lossy s args out in (w, s, out, r)
  else if bool_decide (name = str "QUIT") then (w, set_close true s, out, RSimple (str "OK"))
  else if bool_decide (name = str "RESET") then let '(s, r) := reset (requirepass w) s in (w, s, out, r)
  else exec w s name args out.

(** The loop of [EXEC]. *)
Fixpoint exec_queued (w : World) (s : Conn) (queued : list (list bytes)) (out : ReplyBuf) : World * Conn * ReplyBuf :=
  match queued with
  | [] => (w, s, out)
  | cmd_args :: queued =>
      let '(w, s, out, r) := cmd_dispatch w s (upper (default [] (head cmd_args))) cmd_args out in
      exec_queued w s queued (emit r out)
  end.

Definition not_in_multi : list bytes :=
  map str ["SUBSCRIBE"; "UNSUBSCRIBE"; "PSUBSCRIBE"; "PUNSUBSCRIBE"; "RESET"]%string.

Definition dispatch (w : World) (s : Conn) (args : list bytes) (out : ReplyBuf) : World * Conn * ReplyBuf :=
  match args with
  | [] => (w, s, out)
  | arg0 :: _ =>
      let name := upper arg0 in
      if negb (authenticated s) && negb (bool_decide (name ∈ map str ["AUTH"; "HELLO"; "QUIT"; "RESET"]%string))
      then (w, s, emit (RErr (str "NOAUTH Authentication required.")) out)
      else if bool_decide (name = str "MULTI") then
        match multi s with
        | Some _ => (w, s, emit (RErr (str "ERR MULTI calls can not be nested")) out)
        | None => (w, set_multi (Some ([], false)) s, emit (RSimple (str "OK")) out)
        end
      else if bool_decide (name = str "DISCARD") then
        match multi s with
        | Some _ => (w, set_multi None s, emit (RSimple (str "OK")) out)
        | None => (w, s, emit (RErr (str "ERR DISCARD without MULTI")) out)
        end
      else if bool_decide (name ∈ map str ["WATCH"; "UNWATCH"]%string) then
        (w, s, emit (RErr (str "ERR WATCH is not supported (marekvs is AP; no transactional CAS)")) out)
      else if bool_decide (name = str "EXEC") then
        match multi s with
        | None => (w, s, emit (RErr (str "ERR EXEC without MULTI")) out)
        | Some (_, true) =>
            (w, set_multi None s, emit (RErr (str "EXECABORT Transaction discarded because of previous errors.")) out)
        | Some (queued, false) =>
            let out := match array out (Z.of_nat (length queued)) with Ret out => out | Panic => out end in
            exec_queued w (set_multi None s) queued out
        end
      else match multi s with
      | Some (queued, aborted) =>
          if bool_decide (name ∈ not_in_multi)
          then (w, set_multi (Some (queued, true)) s,
                emit (RErr (str "ERR " ++ name ++ str " is not allowed in transactions")) out)
          else (w, set_multi (Some (queued ++ [args], aborted)) s, emit (RSimple (str "QUEUED")) out)
      | None =>
          let '(w, s, out, r) := cmd_dispatch w s name args out in (w, s, emit r out)
      end
  end.

(** [dispatch_data]: one command on a throwaway session. *)
Definition dispatch_data (w : World) (resp3 : bool) (args : list bytes) : World * bytes :=
  let s := mkConn (2 ^ 64 - 1) true false resp3 [] None 0 in
  let '(w, _, out) := dispatch w s args (ReplyBuf_new resp3) in (w, rb_buf out).

(** ** The authentication gate *)

Definition run_commands (w : World) (s : Conn) (cmds : list (list bytes)) (out : ReplyBuf) : World * Conn * ReplyBuf :=
  fold_left (fun st args => let '(w, s, out) := st in dispatch w s args out) cmds (w, s, out).

Lemma run_commands_cons w s args cmds out : run_commands w s (args :: cmds) out =
  let '(w, s, out) := dispatch w s args out in run_commands w s cmds out.
Proof. unfold run_commands. cbn [fold_left]. by destruct (dispatch w s args out) as [[? ?] ?]. Qed.

(** An unauthenticated session outside a transaction. *)
Definition locked (s : Conn) : Prop := authenticated s = false /\ multi s = None.

Lemma auth_locked rp s args : rp ∉ args -> locked s -> locked (auth rp s args).1.
Proof.
  intros N L. unfold auth.
  destruct args as [|a [|b [|c [|d args]]]]; try done; repeat case_bool_decide; subst; try done; set_solver.
Qed.

Lemma hello_loop_locked fuel : forall rp s args, rp <> [] -> rp ∉ args -> locked s ->
  locked (hello_loop fuel rp s args lossy).1.
Proof.
  induction fuel as [|fuel IH]; intros rp s args R N L; [done|]. simpl. destruct args as [|a rest]; [done|].
  destruct (eq_ignore_case a "AUTH").
  - destruct rest as [|u [|pass rest]]; [done..|]. rewrite (bool_decide_eq_false_2 (rp = [])) by done.
    rewrite bool_decide_eq_false_2; [done|]. set_solver.
  - destruct (eq_ignore_case a "SETNAME"); [|done]. apply IH; [done| |by destruct rest].
    destruct rest; set_solver.
Qed.

Lemma hello_locked rp s args out : rp <> [] -> rp ∉ args -> locked s ->
  locked (hello rp version lossy s args out).1.1.
Proof.
  intros R N L.
  assert (H : forall s opts, rp ∉ opts -> locked s -> locked (hello_opts rp version lossy s opts out).1.1).
  { intros s0 opts No L0. pose proof (hello_loop_locked (length opts) rp s0 opts R No L0) as G. unfold hello_opts.
    destruct (hello_loop _ _ _ _ _) as [s1 [err|]]; [done|]. by destruct (_ && _). }
  unfold hello. destruct args as [|a [|v args]]; [apply H; [set_solver|done]..|].
  destruct (parse_u64 v) as [z|]; [|done]. destruct (z =? 2); [apply H; [set_solver|by destruct L]|].
  destruct (z =? 3); [apply H; [set_solver|by destruct L]|done].
Qed.

Lemma dispatch_locked w s args out : requirepass w <> [] -> requirepass w ∉ args -> locked s ->
  exists s' out', dispatch w s args out = (w, s', out') /\ locked s'.
Proof.
  intros R N L. pose proof L as [A M]. unfold dispatch. destruct args as [|arg0 rest]; [eauto|].
  set (args := arg0 :: rest) in *. set (name := upper arg0). rewrite A, M. change (negb false) with true. rewrite andb_true_l.
  destruct (bool_decide_reflect (name ∈ map str ["AUTH"; "HELLO"; "QUIT"; "RESET"]%string)) as [I|I]; [|eauto].
  change (negb true) with false. cbv iota. clearbody name.
  assert (C : name = str "AUTH" \/ name = str "HELLO" \/ name = str "QUIT" \/ name = str "RESET") by set_solver.
  destruct C as [->|[->|[->| ->]]]; unfold cmd_dispatch; name_tests.
  - pose proof (auth_locked (requirepass w) s args N L). destruct (auth _ _ _). eauto.
  - pose proof (hello_locked (requirepass w) s args out R N L). destruct (hello _ _ _ _ _ _) as [[s1 o1] r]. eauto.
  - eauto.
  - eexists _, _. split; [reflexivity|]. unfold locked. simpl. by rewrite bool_decide_eq_false_2.
Qed.

(** [C21] Authentication cannot be bypassed: with a password set, an
    unauthenticated connection that never sends the password changes nothing
    in the engine and never becomes authenticated, whatever commands it
    sends, in whatever order, and whatever the command table does. *)
Theorem unauthenticated_changes_nothing (w : World) (s : Conn) (cmds : list (list bytes)) (out : ReplyBuf) :
  requirepass w <> [] -> authenticated s = false -> multi s = None ->
  Forall (fun args => requirepass w ∉ args) cmds ->
  exists s' out', run_commands w s cmds out = (w, s', out') /\ authenticated s' = false.
Proof.
  intros R A M F. assert (L : locked s) by done. clear A M. revert s out L.
  induction F as [|args cmds Hn F IH]; intros s out L; [exists s, out; split; [done|apply L]|].
  destruct (dispatch_locked w s args out R Hn L) as (s1 & out1 & E & L1).
  rewrite run_commands_cons, E. by apply IH.
Qed.

(** ** Transactions *)

(** Commands a transaction queues. *)
Definition queueable (args : list bytes) : Prop :=
  exists arg0 rest, args = arg0 :: rest /\
    upper arg0 ∉ map str ["MULTI"; "DISCARD"; "WATCH"; "UNWATCH"; "EXEC"]%string ++ not_in_multi.

Lemma dispatch_queues w s args out queued : queueable args -> authenticated s = true ->
  multi s = Some (queued, false) ->
  dispatch w s args out =
    (w, set_multi (Some (queued ++ [args], false)) s, emit (RSimple (str "QUEUED")) out).
Proof.
  intros (arg0 & rest & -> & N) A M. unfold dispatch. rewrite A, M. change (negb true) with false.
  rewrite andb_false_l. cbv iota. rewrite !bool_decide_eq_false_2; [done|..]; intros E; apply N; rewrite ?E;
    try (apply elem_of_app; left; rewrite ?E; set_solver); apply elem_of_app; auto.
Qed.

Lemma emit_simple t out : emit (RSimple t) out = extend out (43 :: t ++ [13; 10]).
Proof. unfold emit. cbn [write]. unfold simple, crlf. by rewrite !extend_app. Qed.

Lemma run_commands_queue cmds : forall w s out queued, Forall queueable cmds -> authenticated s = true ->
  multi s = Some (queued, false) ->
  run_commands w s cmds out = (w, set_multi (Some (queued ++ cmds, false)) s,
    extend out (concat (map (fun _ => str "+QUEUED" ++ [13; 10]) cmds))).
Proof.
  induction cmds as [|args cmds IH]; intros w s out queued F A M.
  - simpl. rewrite app_nil_r, extend_nil, <- M. by destruct s.
  - apply Forall_cons in F as [Q F]. rewrite run_commands_cons, (dispatch_queues w s args out queued Q A M).
    rewrite (IH w (set_multi (Some (queued ++ [args], false)) s) _ (queued ++ [args]) F A eq_refl).
    by rewrite emit_simple, extend_app, <- app_assoc.
Qed.

(** [C22] MULTI/EXEC runs the queue and nothing else: between MULTI and EXEC no
    command touches the engine and each is answered [QUEUED]; EXEC then
    announces one reply per queued command and runs them in order, exactly
    once, on the engine as it is at that moment, outside the transaction. *)
Theorem transaction_runs_at_exec (w w' : World) (s : Conn) (cmds : list (list bytes)) (out : ReplyBuf)
    (m_args e_args : list bytes) :
  authenticated s = true -> multi s = None -> Forall queueable cmds -> Z.of_nat (length cmds) < 2 ^ 63 ->
  upper <$> head m_args = Some (str "MULTI") -> upper <$> head e_args = Some (str "EXEC") ->
  exists s1 out1,
    run_commands w s (m_args :: cmds) out = (w, s1, out1) /\
    rb_buf out1 = rb_buf out ++ (str "+OK" ++ [13; 10]) ++ concat (map (fun _ => str "+QUEUED" ++ [13; 10]) cmds) /\
    multi s1 = Some (cmds, false) /\
    dispatch w' s1 e_args out1 =
      exec_queued w' s cmds (extend out1 (42 :: Z_to_string (Z.of_nat (length cmds)) ++ [13; 10])).
Proof.
  intros A M F B Em Ee. destruct m_args as [|m0 mr]; [done|]. destruct e_args as [|e0 er]; [done|].
  injection Em as Em. injection Ee as Ee.
  eexists _, _. split; [|split; [|split]].
  - assert (D : dispatch w s (m0 :: mr) out = (w, set_multi (Some ([], false)) s, extend out (str "+OK" ++ [13; 10]))).
    { unfold dispatch. rewrite Em, A, M. name_tests. simpl. by rewrite emit_simple. }
    rewrite run_commands_cons, D. apply (run_commands_queue cmds w (set_multi (Some ([], false)) s) _ []); done.
  - rewrite !extend_app. done.
  - done.
  - unfold dispatch. rewrite Ee. name_tests. simpl authenticated. rewrite A. simpl multi. simpl negb. cbv iota.
    unfold array. rewrite header_spec by lia. rewrite app_nil_l. f_equal. destruct s; simpl in *; by subst.
Qed.

(** ** Pipelines ([serve_client]) *)

(** The greedy loop: take the next commands while they are batchable and
    share no argument with the batch. *)
Fixpoint grow (seen : list bytes) (batch pending : list (list bytes)) : list (list bytes) * list (list bytes) :=
  match pending with
  | [] => (batch, [])
  | next :: rest =>
      if negb (is_batchable next) || existsb (fun a => bool_decide (a ∈ seen)) (drop 1 next)
      then (batch, pending)
      else grow (seen ++ drop 1 next) (batch ++ [next]) rest
  end.

(** [replies.resize(i + 1, None); replies[i] = Some(bytes)]. *)
Definition set_reply (i : nat) (b : bytes) (replies : list (option bytes)) : list (option bytes) :=
  <[i := Some b]> (replies ++ replicate (i + 1 - length replies) None).

(** The tasks of a batch in the order [order] gives them. *)
Definition run_task (resp3 : bool) (task : nat * list bytes) (st : World * list (option bytes)) :=
  let '(w, b) := dispatch_data st.1 resp3 task.2 in (w, set_reply task.1 b st.2).
Definition run_batch (w : World) (resp3 : bool) (batch : list (list bytes)) (order : list nat) : World * bytes :=
  let tasks := omap (fun i => pair i <$> batch !! i) order in
  let '(w, replies) := fold_left (fun st task => run_task resp3 task st) tasks (w, []) in
  (w, concat (omap id replies)).

Section Pipeline.
  (** The order in which the runtime finishes the tasks of a batch. *)
  Context (order : World -> list (list bytes) -> list nat).

(** The commands of one read; [true] when the connection is to be closed. *)
Fixpoint serve_pending (fuel : nat) (w : World) (s : Conn) (pending : list (list bytes)) (out : ReplyBuf)
    : World * Conn * ReplyBuf * bool :=
  match fuel, pending with
  | S fuel, args :: pending =>
      let out := with_resp3 out (c_resp3 s) in
      let batchable := authenticated s && bool_decide (multi s = None) && (c_subs s =? 0) &&
                       negb (bool_decide (pending = [])) && is_batchable args in
      if negb batchable then
        let '(w, s, out) := dispatch w s args out in
        if should_close s then (w, s, out, true) else serve_pending fuel w s pending out
      else
        let '(batch, pending) := grow (drop 1 args) [args] pending in
        match batch with
        | [one] => let '(w, s, out) := dispatch w s one out in serve_pending fuel w s pending out
        | _ =>
            let '(w, b) := run_batch w (c_resp3 s) batch (order w batch) in
            serve_pending fuel w s pending (extend out b)
        end
  | _, _ => (w, s, out, false)
  end.

(** One command after the other. *)
Fixpoint serve_sequential (w : World) (s : Conn) (pending : list (list bytes)) (out : ReplyBuf)
    : World * Conn * ReplyBuf * bool :=
  match pending with
  | [] => (w, s, out, false)
  | args :: pending =>
      let '(w, s, out) := dispatch w s args (with_resp3 out (c_resp3 s)) in
      if should_close s then (w, s, out, true) else serve_sequential w s pending out
  end.
End Pipeline.

(** What the handlers of the parallel-safe commands promise the batcher:
    they neither read nor change the session, write nothing themselves, and
    two of them that share no argument commute. *)
Class ParallelSafe (data : World -> bytes -> list bytes -> World * Reply) : Prop := {
  ps_local : forall w s name args out, parallel_safe name = true ->
    exec w s name args out = let '(w', r) := data w name args in (w', s, out, r);
  ps_commute : forall w n1 a1 n2 a2, parallel_safe n1 = true -> parallel_safe n2 = true ->
    drop 1 a1 ## drop 1 a2 ->
    let '(w1, r1) := data w n1 a1 in let '(w12, r2) := data w1 n2 a2 in
    let '(w2, r2') := data w n2 a2 in let '(w21, r1') := data w2 n1 a1 in
    w12 = w21 /\ r1 = r1' /\ r2 = r2';
}.

(** Every table entry is plain ASCII and none is a session command. *)
Lemma parallel_safe_table name : parallel_safe name = true ->
  Forall (fun b => 0 <= b < 128) name /\
  name ∉ map str ["MULTI"; "DISCARD"; "WATCH"; "UNWATCH"; "EXEC"; "AUTH"; "HELLO"; "QUIT"; "RESET"]%string.
Proof.
  unfold parallel_safe. rewrite bool_decide_eq_true. intros I.
  assert (T : Forall (fun n => Forall (fun b => 0 <= b < 128) n /\
    n ∉ map str ["MULTI"; "DISCARD"; "WATCH"; "UNWATCH"; "EXEC"; "AUTH"; "HELLO"; "QUIT"; "RESET"]%string)
    (map str parallel_safe_names)) by computed.
  exact (proj1 (Forall_forall _ _) T name I).
Qed.

Lemma upper_ascii n : Forall (fun b => 0 <= b < 128) (map to_ascii_uppercase n) -> Forall (fun b => 0 <= b < 128) n.
Proof.
  induction n as [|b n IH]; simpl; intros F; [done|]. apply Forall_cons in F as [Hb F].
  constructor; [|auto]. unfold to_ascii_uppercase in Hb.
  destruct ((97 <=? b) && (b <=? 122)) eqn:E; [|done]. lia.
Qed.

(** Two texts of the same reply. *)
Lemma emit_extend r out : emit r out = extend out (rb_buf (emit r (ReplyBuf_new (rb_resp3 out)))).
Proof.
  unfold emit. destruct (appends_write display_f64 r (rb_resp3 out)) as [[t E]|E].
  - by rewrite !E by done.
  - rewrite !E by done. simpl. by rewrite extend_nil.
Qed.

Section Sequential.
  Context (order : World -> list (list bytes) -> list nat).
  Context (data : World -> bytes -> list bytes -> World * Reply) `{PS : !ParallelSafe data}.
  (** The runtime finishes every task of a batch once. *)
  Hypothesis order_perm : forall w batch, order w batch ≡ₚ seq 0 (length batch).
  (** [to_uppercase] on ASCII text. *)
  Hypothesis upper_on_ascii : forall n, Forall (fun b => 0 <= b < 128) n -> upper n = map to_ascii_uppercase n.

(** A batchable command through its handler. *)
Definition handler (w : World) (args : list bytes) : World * Reply :=
  data w (map to_ascii_uppercase (match args with n :: _ => n | [] => [] end)) args.
(** A session on which commands may be batched. *)
Definition plain (s : Conn) : Prop := authenticated s = true /\ multi s = None /\ should_close s = false.

Lemma dispatch_batchable w s args out : is_batchable args = true -> authenticated s = true -> multi s = None ->
  dispatch w s args out = let '(w', r) := handler w args in (w', s, emit r out).
Proof.
  intros B A M. destruct args as [|n rest]; [done|]. cbn [is_batchable] in B.
  destruct (16 <? length n)%nat; [done|]. destruct (parallel_safe_table _ B) as [F T].
  unfold dispatch. rewrite A, M. change (negb true) with false. rewrite andb_false_l. cbv iota.
  rewrite (upper_on_ascii n (upper_ascii n F)). unfold cmd_dispatch, handler.
  set (name := map to_ascii_uppercase n) in *. clearbody name.
  rewrite !bool_decide_eq_false_2 by set_solver. rewrite ps_local by done.
  by destruct (data w name (n :: rest)).
Qed.

Lemma dispatch_data_batchable w r3 args : is_batchable args = true ->
  dispatch_data w r3 args = let '(w', r) := handler w args in (w', rb_buf (emit r (ReplyBuf_new r3))).
Proof.
  intros B. unfold dispatch_data. rewrite dispatch_batchable by done. by destruct (handler w args).
Qed.

(** Pairwise distinct arguments. *)
Definition independent (batch : list (list bytes)) : Prop :=
  forall i j a b, i <> j -> batch !! i = Some a -> batch !! j = Some b -> drop 1 a ## drop 1 b.

Lemma grow_spec pending : forall seen batch batch' rest,
  grow seen batch pending = (batch', rest) -> independent batch -> (forall a, a ∈ batch -> drop 1 a ⊆ seen) ->
  Forall (fun a => is_batchable a = true) batch ->
  independent batch' /\ Forall (fun a => is_batchable a = true) batch' /\
  exists more, batch' = batch ++ more /\ pending = more ++ rest.
Proof.
  induction pending as [|next pending IH]; intros seen batch batch' rest; simpl.
  - intros E I _ F. invert E. split; [done|]. split; [done|]. exists []. by rewrite app_nil_r.
  - destruct (negb (is_batchable next) || _) eqn:C.
    + intros E I _ F. invert E. split; [done|]. split; [done|]. exists []. by rewrite app_nil_r.
    + apply orb_false_iff in C as [C1 C2]. apply negb_false_iff in C1. intros E I Sn F.
      assert (D : drop 1 next ## seen).
      { intros x Hx Hs. assert (existsb (fun a => bool_decide (a ∈ seen)) (drop 1 next) = true); [|congruence].
        apply existsb_exists. exists x. rewrite <- list_elem_of_In, bool_decide_eq_true. done. }
      destruct (IH _ _ _ _ E) as (I' & F' & more & -> & ->).
      * intros i j a b Ne Hi Hj. rewrite lookup_app_Some in Hi, Hj.
        assert (L : forall k x, batch !! k = Some x -> drop 1 x ## drop 1 next).
        { intros k x Hk. apply list_elem_of_lookup_2 in Hk. specialize (Sn x Hk). set_solver. }
        destruct Hi as [Hi|[Gi Hi]], Hj as [Hj|[Gj Hj]].
        -- by eapply I.
        -- apply list_lookup_singleton_Some in Hj as [_ <-]. by eapply L.
        -- apply list_lookup_singleton_Some in Hi as [_ <-]. assert (drop 1 b ## drop 1 next) by (by eapply L). set_solver.
        -- apply list_lookup_singleton_Some in Hi as [Zi _]. apply list_lookup_singleton_Some in Hj as [Zj _]. lia.
      * intros a. rewrite elem_of_app, list_elem_of_singleton. intros [Ha| ->]; [|set_solver].
        specialize (Sn a Ha). set_solver.
      * apply Forall_app. auto.
      * split; [done|]. split; [done|]. exists (next :: more). by rewrite <- app_assoc.
Qed.

(** The replies land in command order. *)
Lemma set_reply_lookup i a l k : set_reply i a l !! k =
  if (k =? i)%nat then Some (Some a) else if (k <? length l)%nat then l !! k
  else if (k <=? i)%nat then Some None else None.
Proof.
  unfold set_reply. set (l' := l ++ _).
  assert (L : length l' = (length l `max` (i + 1))%nat) by (unfold l'; rewrite length_app, length_replicate; lia).
  destruct (k =? i)%nat eqn:E; [apply Nat.eqb_eq in E|apply Nat.eqb_neq in E].
  - subst k. apply list_lookup_insert_eq. lia.
  - rewrite list_lookup_insert_ne by done. unfold l'.
    destruct (k <? length l)%nat eqn:K; [apply Nat.ltb_lt in K|apply Nat.ltb_ge in K].
    + by rewrite lookup_app_l.
    + rewrite lookup_app_r by done. destruct (k <=? i)%nat eqn:J; [apply Nat.leb_le in J|apply Nat.leb_gt in J].
      * apply lookup_replicate_2. lia.
      * apply lookup_ge_None_2. rewrite length_replicate. lia.
Qed.
Lemma set_reply_length i a l : length (set_reply i a l) = (length l `max` (i + 1))%nat.
Proof. unfold set_reply. rewrite length_insert, length_app, length_replicate. lia. Qed.

Lemma set_reply_commute i j a b l : i <> j -> set_reply i a (set_reply j b l) = set_reply j b (set_reply i a l).
Proof.
  intros N. apply list_eq. intros k. rewrite !set_reply_lookup, !set_reply_length.
  repeat match goal with
  | |- context [(?x =? ?y)%nat] => destruct (Nat.eqb_spec x y)
  | |- context [(?x <? ?y)%nat] => destruct (Nat.ltb_spec x y)
  | |- context [(?x <=? ?y)%nat] => destruct (Nat.leb_spec x y)
  end; try done; try lia.
Qed.

Lemma set_reply_last b l : set_reply (length l) b l = l ++ [Some b].
Proof.
  unfold set_reply. replace (length l + 1 - length l)%nat with 1%nat by lia. simpl.
  by rewrite insert_app_r_alt, Nat.sub_diag by lia.
Qed.

(** Steps that commute give the same result in any order. *)
Lemma fold_left_permutation {A B} `{EqDecision A} (f : B -> A -> B) (l l' : list A) b :
  (forall x y s, x ∈ l -> y ∈ l -> x <> y -> f (f s x) y = f (f s y) x) -> l ≡ₚ l' ->
  fold_left f l b = fold_left f l' b.
Proof.
  intros H P. revert b H. induction P as [|x l l' P IH|x y l|l1 l2 l3 P1 IH1 P2 IH2]; intros b H; simpl.
  - done.
  - apply IH. intros. apply H; set_solver.
  - f_equal. destruct (decide (x = y)) as [->|]; [done|]. apply H; [set_solver..|congruence].
  - rewrite IH1 by done. apply IH2. intros x y s Hx Hy. apply H; by rewrite P1.
Qed.

Lemma tasks_commute w r3 i a j b replies : is_batchable a = true -> is_batchable b = true ->
  i <> j -> drop 1 a ## drop 1 b ->
  run_task r3 (j, b) (run_task r3 (i, a) (w, replies)) = run_task r3 (i, a) (run_task r3 (j, b) (w, replies)).
Proof.
  intros Ba Bb N D. unfold run_task. cbn [fst snd]. rewrite !dispatch_data_batchable by done. unfold handler.
  destruct a as [|na a]; [done|]. destruct b as [|nb b]; [done|].
  assert (Sa : parallel_safe (map to_ascii_uppercase na) = true) by (simpl in Ba; by destruct (16 <? length na)%nat).
  assert (Sb : parallel_safe (map to_ascii_uppercase nb) = true) by (simpl in Bb; by destruct (16 <? length nb)%nat).
  pose proof (ps_commute w _ (na :: a) _ (nb :: b) Sa Sb D) as C.
  destruct (data w _ (na :: a)) as [w1 r1] eqn:E1. destruct (data w1 _ (nb :: b)) as [w12 r2] eqn:E12.
  destruct (data w _ (nb :: b)) as [w2 r2'] eqn:E2. destruct (data w2 _ (na :: a)) as [w21 r1'] eqn:E21.
  destruct C as (-> & -> & ->). cbn [fst snd]. rewrite E12, E21. f_equal. by apply set_reply_commute.
Qed.

(** The batch one command after the other. *)
Fixpoint seq_run (w : World) (r3 : bool) (batch : list (list bytes)) : World * list bytes :=
  match batch with
  | [] => (w, [])
  | a :: batch =>
      let '(w, b) := dispatch_data w r3 a in
      let '(w, bs) := seq_run w r3 batch in (w, b :: bs)
  end.

Definition tasks_of (batch : list (list bytes)) (l : list nat) : list (nat * list bytes) :=
  omap (fun i => pair i <$> batch !! i) l.

Lemma elem_of_tasks batch l t : t ∈ tasks_of batch l -> batch !! t.1 = Some t.2.
Proof.
  unfold tasks_of. rewrite list_elem_of_omap. intros (i & _ & E).
  destruct (batch !! i) as [a|] eqn:B; simpl in E; [|done]. by invert E.
Qed.

Lemma fold_tasks_seq r3 suf : forall pre w replies, length replies = length pre ->
  fold_left (fun st task => run_task r3 task st) (tasks_of (pre ++ suf) (seq (length pre) (length suf))) (w, replies) =
  let '(w', bs) := seq_run w r3 suf in (w', replies ++ map Some bs).
Proof.
  induction suf as [|a suf IH]; intros pre w replies L; [simpl; by rewrite app_nil_r|].
  cbn [length seq tasks_of omap list_omap]. unfold tasks_of. simpl.
  rewrite lookup_app_r, Nat.sub_diag by lia. simpl. unfold run_task at 2. cbn [fst snd].
  destruct (dispatch_data w r3 a) as [w1 b]. rewrite <- L, set_reply_last, L.
  specialize (IH (pre ++ [a]) w1 (replies ++ [Some b])).
  replace (length (pre ++ [a])) with (S (length pre)) in IH by (rewrite length_app; simpl; lia).
  rewrite <- app_assoc in IH. cbn [app] in IH. unfold tasks_of in IH. rewrite IH by (rewrite length_app; simpl; lia).
  destruct (seq_run w1 r3 suf) as [w' bs]. simpl. by rewrite <- app_assoc.
Qed.

Lemma run_batch_sequential w r3 batch l : independent batch -> Forall (fun a => is_batchable a = true) batch ->
  l ≡ₚ seq 0 (length batch) ->
  run_batch w r3 batch l = let '(w', bs) := seq_run w r3 batch in (w', concat bs).
Proof.
  intros I F P. unfold run_batch. fold (tasks_of batch l).
  rewrite (fold_left_permutation _ (tasks_of batch l) (tasks_of batch (seq 0 (length batch)))).
  - pose proof (fold_tasks_seq r3 batch [] w [] eq_refl) as E. cbn [app length] in E. rewrite E. destruct (seq_run w r3 batch) as [w' bs].
    assert (O : omap id (map Some bs) = bs) by (clear; induction bs as [|b bs IH]; [done|]; cbn; f_equal; exact IH).
    cbn [app]. by rewrite O.
  - intros [i a] [j b] [w0 rs] Hx Hy N. apply elem_of_tasks in Hx, Hy. simpl in *.
    assert (Ne : i <> j) by (intros ->; congruence).
    pose proof (proj1 (Forall_lookup _ _) F i a Hx). pose proof (proj1 (Forall_lookup _ _) F j b Hy).
    apply tasks_commute; try done. by eapply I.
  - unfold tasks_of. by rewrite P.
Qed.

Lemma with_resp3_same out : with_resp3 out (rb_resp3 out) = out.
Proof. by destruct out. Qed.

Lemma sequential_batch batch : forall w s rest out, plain s -> rb_resp3 out = c_resp3 s ->
  Forall (fun a => is_batchable a = true) batch ->
  serve_sequential w s (batch ++ rest) out =
  let '(w', bs) := seq_run w (c_resp3 s) batch in serve_sequential w' s rest (extend out (concat bs)).
Proof.
  induction batch as [|a batch IH]; intros w s rest out (A & M & C) R F; simpl.
  - by rewrite extend_nil.
  - apply Forall_cons in F as [B F]. rewrite <- R, with_resp3_same, R.
    rewrite dispatch_batchable, dispatch_data_batchable by done.
    destruct (handler w a) as [w1 r]. rewrite C, emit_extend, R, IH by done.
    destruct (seq_run w1 (c_resp3 s) batch) as [w' bs]. simpl. by rewrite extend_app.
Qed.

Lemma serve_pending_sequential fuel : forall w s pending out, (length pending <= fuel)%nat ->
  should_close s = false ->
  serve_pending order fuel w s pending out = serve_sequential w s pending out.
Proof.
  induction fuel as [|fuel IH]; intros w s pending out L C.
  { destruct pending; [done|]. simpl in L. lia. }
  destruct pending as [|args pending]; [done|]. cbn [serve_pending].
  set (out' := with_resp3 out (c_resp3 s)).
  destruct (_ && is_batchable args) eqn:B; simpl negb; cbv iota.
  2: { cbn [serve_sequential]. fold out'. destruct (dispatch w s args out') as [[w1 s1] out1].
       destruct (should_close s1) eqn:C1; [done|]. apply IH; [simpl in L; lia|done]. }
  apply andb_true_iff in B as [B Ba]. apply andb_true_iff in B as [B _]. apply andb_true_iff in B as [B _].
  apply andb_true_iff in B as [A M]. apply bool_decide_eq_true in M.
  destruct (grow (drop 1 args) [args] pending) as [batch rest] eqn:G.
  destruct (grow_spec _ _ _ _ _ G) as (I & F & more & -> & ->).
  { intros i j a b N Hi Hj. apply list_lookup_singleton_Some in Hi as [-> _], Hj as [-> _]. done. }
  { intros a. rewrite list_elem_of_singleton. by intros ->. }
  { by constructor. }
  assert (P : plain s) by done.
  assert (S : serve_sequential w s (args :: more ++ rest) out =
    let '(w', bs) := seq_run w (c_resp3 s) (args :: more) in serve_sequential w' s rest (extend out' (concat bs))).
  { rewrite <- (sequential_batch (args :: more) w s rest out' P eq_refl F). done. }
  rewrite S. clear S. simpl in L. rewrite length_app in L.
  assert (R : (let '(w', b) := run_batch w (c_resp3 s) (args :: more) (order w (args :: more)) in
     serve_pending order fuel w' s rest (extend out' b)) =
    let '(w', bs) := seq_run w (c_resp3 s) (args :: more) in serve_sequential w' s rest (extend out' (concat bs))).
  { rewrite run_batch_sequential by auto. destruct (seq_run _ _ _) as [w' bs]. apply IH; [lia|done]. }
  destruct more as [|m more]; [|exact R]. clear R. cbn [app].
  cbn [seq_run]. rewrite dispatch_data_batchable, dispatch_batchable by done. destruct (handler w args) as [w1 r].
  rewrite IH by (done || lia). rewrite emit_extend. simpl. by rewrite app_nil_r.
Qed.

End Sequential.

(** ** Reads of the socket *)

Section Reads.
  Context (order : World -> list (list bytes) -> list nat).
  (** [format!("{e:?}")] of a protocol error. *)
  Context (debug_error : RespError -> bytes).

(** One read of the select loop: feed, drain, then serve. On a protocol
    error the drained commands are not served. *)
Definition serve_read (p : RespParser) (w : World) (s : Conn) (data : bytes) (out : ReplyBuf)
    : option (RespParser * World * Conn * ReplyBuf * bool) :=
  match drain (feed p data) with
  | None => None
  | Some (_, Some e, p) => Some (p, w, s, emit (RErr (str "ERR Protocol error: " ++ debug_error e)) out, true)
  | Some (pending, None, p) =>
      let '(w, s, out, closed) := serve_pending order (length pending) w s pending out in
      Some (p, w, s, out, closed)
  end.
Fixpoint serve_reads (p : RespParser) (w : World) (s : Conn) (reads : list bytes) (out : ReplyBuf)
    : option (World * Conn * ReplyBuf * bool) :=
  match reads with
  | [] => Some (w, s, out, false)
  | data :: reads =>
      match serve_read p w s data out with
      | None => None
      | Some (_, w, s, out, true) => Some (w, s, out, true)
      | Some (p, w, s, out, false) => serve_reads p w s reads out
      end
  end.

Lemma drain_new chunk cs e p : parser_wf p -> view p = [] -> split_stream chunk = (cs, e) ->
  exists p', drain (feed p chunk) = Some (cs, match e with Failed e => Some e | Pending _ => None end, p') /\
    parser_wf p' /\ forall rest, e = Pending rest -> view p' = rest.
Proof.
  intros W V E. destruct (view_feed p chunk W) as [V' W']. rewrite V in V'. simpl in V'.
  destruct (drain_spec (S (buffered (feed p chunk))) (feed p chunk) W') as (cs' & e' & p' & D & W2 & S);
    [rewrite buffered_view; lia|].
  rewrite V', E in S. injection S as <- ->. exists p'. unfold drain. rewrite D. destruct e' as [e'|].
  - split; [done|]. split; [done|]. intros rest. discriminate.
  - split; [done|]. split; [done|]. intros rest Er. by injection Er.
Qed.

(** What a connection executes depends on how the network cuts its
    bytes: commands that arrive in the same read as a later protocol error
    are parsed and thrown away without a reply, while the same bytes in two
    reads execute them. *)
Theorem protocol_error_discards_pipeline (w : World) (s : Conn) (cmds : list (list bytes)) (bad : bytes)
    (e : RespError) (out : ReplyBuf) (w1 : World) (s1 : Conn) (out1 : ReplyBuf) :
  Forall command_ok cmds -> split_stream bad = ([], Failed e) ->
  serve_pending order (length cmds) w s cmds out = (w1, s1, out1, false) ->
  let good := concat (map encode cmds) in
  (exists o, serve_reads RespParser_new w s [good ++ bad] out = Some (w, s, o, true)) /\
  (exists o, serve_reads RespParser_new w s [good; bad] out = Some (w1, s1, o, true)).
Proof.
  intros F B S good.
  assert (W : parser_wf RespParser_new) by (unfold parser_wf; simpl; lia).
  assert (G1 : split_stream (good ++ bad) = (cmds, Failed e)).
  { unfold good. rewrite split_encoded, B by done. by rewrite app_nil_r. }
  assert (G2 : split_stream good = (cmds, Pending [])).
  { unfold good. rewrite <- (app_nil_r (concat _)), split_encoded by done. simpl. by rewrite app_nil_r. }
  split.
  - destruct (drain_new _ _ _ RespParser_new W eq_refl G1) as (p' & D & _).
    simpl. unfold serve_read. rewrite D. eauto.
  - destruct (drain_new _ _ _ RespParser_new W eq_refl G2) as (p' & D & W' & V).
    destruct (drain_new _ _ _ p' W' (V [] eq_refl) B) as (p'' & D' & _).
    simpl. unfold serve_read. rewrite D, S, D'. eauto.
Qed.
End Reads.
End Dispatch.

(** ** A concrete command table: SET and GET on a map *)

Definition kv_data (w : gmap bytes bytes) (name : bytes) (args : list bytes) : gmap bytes bytes * Reply :=
  if bool_decide (name = str "SET") then
    match args with [_; k; v] => (<[k := v]> w, RSimple (str "OK")) | _ => (w, wrong_args "set") end
  else if bool_decide (name = str "GET") then
    match args with [_; k] => (w, match w !! k with Some v => RBulk v | None => RNull end) | _ => (w, wrong_args "get") end
  else (w, RNone).
Definition kv_exec (w : gmap bytes bytes) (s : Conn) (name : bytes) (args : list bytes) (out : ReplyBuf) :=
  let '(w', r) := kv_data w name args in (w', s, out, r).

(** What one command reads and writes: nothing, a key, or a key to set. *)
Lemma kv_data_cases name args : 
  (exists r, forall w, kv_data w name args = (w, r)) \/
  (exists k f, k ∈ drop 1 args /\ forall w : gmap bytes bytes, kv_data w name args = (w, f (w !! k))) \/
  (exists k v r, k ∈ drop 1 args /\ forall w, kv_data w name args = (<[k := v]> w, r)).
Proof.
  unfold kv_data. case_bool_decide; [|case_bool_decide; [|eauto]].
  - destruct args as [|a [|k [|v [|? ?]]]]; eauto. right. right. exists k, v, (RSimple (str "OK")).
    split; [set_solver|done].
  - destruct args as [|a [|k [|? ?]]]; eauto. right. left.
    exists k, (fun o => match o with Some v => RBulk v | None => RNull end). split; [set_solver|done].
Qed.

#[export] Instance kv_parallel_safe : ParallelSafe kv_exec kv_data.
Proof.
  split; [done|]. intros w n1 a1 n2 a2 _ _ D.
  destruct (kv_data_cases n1 a1) as [(r1 & E1)|[(k1 & f1 & K1 & E1)|(k1 & v1 & r1 & K1 & E1)]];
  destruct (kv_data_cases n2 a2) as [(r2 & E2)|[(k2 & f2 & K2 & E2)|(k2 & v2 & r2 & K2 & E2)]];
  rewrite ?E1, ?E2, ?E1, ?E2; try done; assert (k1 <> k2) by (intros ->; by apply (D k2));
  rewrite ?lookup_insert_ne by done; try done. split; [by apply insert_insert_ne|done].
Qed.


Lemma unauthenticated_changes_nothing_witness :
  let s := mkConn 1 false false false [] None 0 in
  let cmds := [[str "SET"; [97]; [49]]; [str "AUTH"; str "guess"]; [str "HELLO"; [51]; str "AUTH"; [120]; str "guess"]; [str "RESET"]] in
  exists s' out', run_commands (fun _ => str "secret") kv_exec id (map to_ascii_uppercase) [] (fun _ => []) ∅ s cmds (ReplyBuf_new false)
    = (∅, s', out') /\ authenticated s' = false.
Proof.
  intros s cmds. apply unauthenticated_changes_nothing; [discriminate|done|done|].
  unfold cmds. repeat constructor; computed.
Defined.

Lemma transaction_runs_at_exec_witness :
  let s := mkConn 1 true false false [] None 0 in
  let cmds := [[str "SET"; [97]; [49]]; [str "GET"; [97]]] in
  exists s1 out1,
    run_commands (fun _ => []) kv_exec id (map to_ascii_uppercase) [] (fun _ => []) ∅ s ([str "multi"] :: cmds) (ReplyBuf_new false)
      = (∅, s1, out1) /\
    rb_buf out1 = [] ++ (str "+OK" ++ [13; 10]) ++ concat (map (fun _ => str "+QUEUED" ++ [13; 10]) cmds) /\
    multi s1 = Some (cmds, false) /\
    dispatch (fun _ => []) kv_exec id (map to_ascii_uppercase) [] (fun _ => []) ∅ s1 [str "exec"] out1 =
      exec_queued (fun _ => []) kv_exec id (map to_ascii_uppercase) [] (fun _ => []) ∅ s cmds
        (extend out1 (42 :: Z_to_string (Z.of_nat (length cmds)) ++ [13; 10])).
Proof.
  intros s cmds. apply transaction_runs_at_exec; try done.
  unfold cmds. repeat constructor; eexists _, _; (split; [reflexivity|computed]).
Defined.

Lemma protocol_error_discards_pipeline_witness :
  let s := mkConn 1 true false false [] None 0 in
  let order (_ : gmap bytes bytes) (b : list (list bytes)) := seq 0 (length b) in
  let good := concat (map encode [[str "SET"; [97]; [49]]]) in
  let run := serve_reads (fun _ => []) kv_exec id (map to_ascii_uppercase) [] (fun _ => []) order (fun _ => []) RespParser_new ∅ s in
  (exists o, run [good ++ str "*x" ++ [13; 10]] (ReplyBuf_new false) = Some (∅, s, o, true)) /\
  (exists o, run [good; str "*x" ++ [13; 10]] (ReplyBuf_new false) = Some (<[[97] := [49]]> ∅, s, o, true)).
Proof.
  intros s order good run.
  assert (F : Forall command_ok [[str "SET"; [97]; [49]]]) by (repeat constructor; try discriminate; computed).
  assert (B : split_stream (str "*x" ++ [13; 10]) = ([], Failed (Protocol InvalidInteger))) by (vm_compute; reflexivity).
  assert (S : serve_pending (fun _ => []) kv_exec id (map to_ascii_uppercase) [] (fun _ => []) order 1 ∅ s
    [[str "SET"; [97]; [49]]] (ReplyBuf_new false) =
    (<[[97] := [49]]> ∅, s, mkReplyBuf false (str "+OK" ++ [13; 10]), false)) by (vm_compute; reflexivity).
  exact (protocol_error_discards_pipeline (fun _ => []) kv_exec id (map to_ascii_uppercase) [] (fun _ => []) order (fun _ => [])
    ∅ s _ _ _ _ _ _ _ F B S).
Defined.
