(* ===== verification/ListCmd.v ===== *)
(** * Lists ([crates/marekvs-engine/src/cmd/list.rs])

    A list is a collection of position-keyed last-writer-wins records; pushes
    take the stride slot outside the current range, pops write tombstones,
    and interior edits rewrite the list from the centre. A per-key hint
    caches the live range.

    Handlers are programs of the shard monad [Store.M] on parsed arguments;
    the asynchronous wrappers (argument parsing, fetching remote keys, the
    polling of the blocking forms) are not part of them. Replies are those of
    [Reply]. *)

From Stdlib Require Import String.
From S2P Require Import Prelude Partition Hlc Envelope Ikey Counter Lattice Merge MergeLaws Store Resp Reply.

Inductive Hint :=
  | HEmpty
  | HKnown (h t : Z)
  | HUnknown.

Definition hint_key (key : bytes) : bytes := collection_prefix TListElem key.

(** [Vec::with_capacity]: the size in bytes must not exceed [isize::MAX]. *)
Definition with_capacity {DB} (elem_size n : Z) : M DB unit :=
  lift (if 2 ^ 63 <=? elem_size * n then Panic else Ret tt).

Section commands.
Context {DB : Type} `{!KV DB}.
Context (node_id : Z) (wall : nat -> Z).
(** [size_of::<Reply>()], a choice of the compiler. *)
Context (reply_size : Z).

Definition get_hint (key : bytes) : M DB Hint := fun s =>
  Ret (match pop_hints s !! hint_key key with
       | None => HUnknown
       | Some [] => HEmpty
       | Some v => if (16 <=? length v)%nat then HKnown (of_be (slice 0 8 v)) (of_be (slice 8 16 v)) else HUnknown
       end, s).
Definition set_known (key : bytes) (head_pos tail_pos : Z) : M DB unit :=
  hint_update (insert (hint_key key) (be_bytes 8 head_pos ++ be_bytes 8 tail_pos)).
Definition set_empty (key : bytes) : M DB unit := hint_update (insert (hint_key key) []).

Definition read_elem (key : bytes) (pos del : Z) : M DB (option bytes) :=
  v ← get_raw (list_elem_key key pos);
  match v ≫= Envelope_decode with
  | None => mret None
  | Some (env, pay) => now ← now_ms wall; mret (visible env pay del now)
  end.
Definition write_elem (key : bytes) (pos : Z) (val : bytes) : M DB unit :=
  rec ← new_lww node_id wall RList val 0; _ ← write_merged (list_elem_key key pos) rec; mret tt.
Definition tombstone_elem (key : bytes) (pos : Z) : M DB unit :=
  t ← new_tombstone node_id wall RList; _ ← write_merged (list_elem_key key pos) t; mret tt.

(** The live position and value of a scanned record. *)
Definition live_pair (del now : Z) (k v : bytes) : rust (option (Z * bytes)) :=
  let! p := parse k in
  Ret (match p, Envelope_decode v with
       | Some p, Some (env, pay) =>
           match visible env pay del now with
           | Some _ => (fun pos => (pos, pay)) <$> list_pos (pk_suffix p)
           | None => None
           end
       | _, _ => None
       end).
Definition live_value (del now : Z) (v : bytes) : option bytes :=
  match Envelope_decode v with
  | Some (env, pay) => visible env pay del now
  | None => None
  end.

Definition scan_minmax (key : bytes) (del : Z) : M DB (option (Z * Z)) :=
  now ← now_ms wall;
  r ← scan_prefix (hint_key key) (fun (acc : option Z * Z) k v =>
        let! x := live_pair del now k v in
        Ret (match x with
             | Some (pos, _) => (match acc.1 with None => Some pos | lo => lo end, pos)
             | None => acc
             end, true)) (None, 0);
  mret ((fun lo => (lo, r.2)) <$> r.1).

Definition recover (key : bytes) (del : Z) : M DB (option (Z * Z)) :=
  r ← scan_minmax key del;
  match r with
  | Some (h, t) => _ ← set_known key h t; mret (Some (h, t))
  | None => _ ← set_empty key; mret None
  end.

Definition list_range (key : bytes) (del : Z) : M DB (option (Z * Z)) :=
  hint ← get_hint key;
  match hint with
  | HEmpty => mret None
  | HKnown h t =>
      v ← read_elem key h del;
      match v with Some _ => mret (Some (h, t)) | None => recover key del end
  | HUnknown => recover key del
  end.

Definition find_front (key : bytes) (from del : Z) : M DB (option (Z * bytes)) :=
  v ← read_elem key from del;
  match v with
  | Some val => mret (Some (from, val))
  | None =>
      now ← now_ms wall;
      scan_from (list_elem_key key from) (hint_key key) (fun acc k v =>
        let! x := live_pair del now k v in
        Ret (match x with Some _ => (x, false) | None => (acc, true) end)) None
  end.

Definition find_back (key : bytes) (tail del : Z) : M DB (option (Z * bytes)) :=
  v ← read_elem key tail del;
  match v with
  | Some val => mret (Some (tail, val))
  | None =>
      now ← now_ms wall;
      scan_prefix (hint_key key) (fun acc k v =>
        let! x := live_pair del now k v in
        Ret (match x with Some _ => x | None => acc end, true)) None
  end.

Definition live_items (key : bytes) (del : Z) : M DB (list bytes) :=
  now ← now_ms wall;
  scan_prefix (hint_key key) (fun out _ v =>
    Ret (match live_value del now v with Some pay => out ++ [pay] | None => out end, true)) [].

Definition live_pairs (key : bytes) (del : Z) : M DB (list (Z * bytes)) :=
  now ← now_ms wall;
  scan_prefix (hint_key key) (fun out k v =>
    let! x := live_pair del now k v in
    Ret (match x with Some pv => out ++ [pv] | None => out end, true)) [].

Definition live_items_bounded (key : bytes) (del stop_incl : Z) : M DB (list bytes) :=
  now ← now_ms wall;
  scan_prefix (hint_key key) (fun out _ v =>
    Ret (match live_value del now v with
         | Some pay => (out ++ [pay], Z.of_nat (length (out ++ [pay])) <=? stop_incl)
         | None => (out, true)
         end)) [].

Definition live_count (key : bytes) (del : Z) : M DB Z :=
  now ← now_ms wall;
  scan_prefix (hint_key key) (fun n _ v =>
    Ret (match live_value del now v with Some _ => n + 1 | None => n end, true)) 0.

Fixpoint tombstone_all (key : bytes) (pairs : list (Z * bytes)) : M DB unit :=
  match pairs with
  | [] => mret tt
  | (pos, _) :: pairs => _ ← tombstone_elem key pos; tombstone_all key pairs
  end.
Fixpoint write_nth (key : bytes) (i : Z) (values : list bytes) : M DB unit :=
  match values with
  | [] => mret tt
  | v :: values => _ ← write_elem key (list_pos_nth i node_id) v; write_nth key (i + 1) values
  end.
Definition rebuild (key : bytes) (del : Z) (replacement : option (list bytes)) : M DB unit :=
  pairs ← live_pairs key del;
  let new_values := default (map snd pairs) replacement in
  _ ← tombstone_all key pairs;
  match new_values with
  | [] => set_empty key
  | _ =>
      _ ← write_nth key 0 new_values;
      set_known key (list_pos_nth 0 node_id) (list_pos_nth (Z.of_nat (length new_values) - 1) node_id)
  end.

(** The loop of [do_push]. *)
Fixpoint push_loop (key : bytes) (left : bool) (range : option (Z * Z)) (values : list bytes) : M DB (option (Z * Z)) :=
  match values with
  | [] => mret range
  | v :: values =>
      let pos := match range with
        | None => list_pos_in_slot LIST_CENTER node_id
        | Some (h, t) => if left then list_pos_before h node_id else list_pos_after t node_id
        end in
      _ ← write_elem key pos v;
      push_loop key left (Some (match range with
        | None => (pos, pos)
        | Some (h, t) => if left then (pos, t) else (h, pos)
        end)) values
  end.

Definition do_push (key : bytes) (values : list bytes) (left : bool) (del : Z) : M DB Z :=
  r ← list_range key del;
  _ ← match r with
      | Some (h, t) =>
          let margin := wrap 64 (Z.of_nat (length values) * LIST_POS_STRIDE + LIST_POS_STRIDE) in
          if (left && (h <? margin)) || (negb left && (2 ^ 64 - 1 - margin <? t))
          then rebuild key del None else mret tt
      | None => mret tt
      end;
  r ← list_range key del;
  r ← push_loop key left r values;
  match r with
  | None => mret 0
  | Some (h, t) =>
      _ ← set_known key h t;
      mret (to_signed 64 (wrap 64 (wrap 64 (list_slot_base t - list_slot_base h) / LIST_POS_STRIDE + 1)))
  end.

Definition do_pop (key : bytes) (left : bool) (del : Z) : M DB (option bytes) :=
  r ← list_range key del;
  match r with
  | None => mret None
  | Some (h, t) =>
      if left then
        x ← find_front key h del;
        match x with
        | None => mret None
        | Some (pos, val) =>
            _ ← tombstone_elem key pos;
            _ ← (if t <=? pos then set_empty key else set_known key (pos + 1) t);
            mret (Some val)
        end
      else
        x ← find_back key t del;
        match x with
        | None => mret None
        | Some (pos, val) =>
            _ ← tombstone_elem key pos;
            _ ← (if pos <=? h then set_empty key else set_known key h (pos - 1));
            mret (Some val)
        end
  end.

Definition norm_index (idx len : Z) : Z := if idx <? 0 then idx + len else idx.
Definition clamp_range (start stop len : Z) : option (Z * Z) :=
  if len =? 0 then None else
  let s := Z.max (norm_index start len) 0 in
  let e := Z.min (norm_index stop len) (len - 1) in
  if (e <? s) || (len <=? s) then None else Some (s, e + 1).
(** [items[s..e]]. *)
Definition sub {A} (s e : Z) (l : list A) : list A := take (Z.to_nat (e - s)) (drop (Z.to_nat s) l).

(** ** Handlers *)

(** [check_type], or the WRONGTYPE error. *)
Definition on_list (key : bytes) (f : Z -> M DB Reply) : M DB Reply :=
  d ← check_type wall key CTYPE_LIST;
  match d with None => mret wrongtype | Some del => f del end.

Definition push (key : bytes) (values : list bytes) (left xx : bool) : M DB Reply :=
  on_list key (fun del =>
    r ← (if xx then r ← list_range key del; mret (bool_decide (r = None)) else mret false);
    if (r : bool) then mret (RInt 0)
    else
      _ ← ensure_head node_id wall key CTYPE_LIST;
      n ← do_push key values left del; mret (RInt n)).

Fixpoint pop_loop (key : bytes) (left : bool) (del : Z) (n : nat) (popped : list bytes) : M DB (list bytes) :=
  match n with
  | O => mret popped
  | S n =>
      v ← do_pop key left del;
      match v with Some v => pop_loop key left del n (popped ++ [v]) | None => mret popped end
  end.

Definition pop (key : bytes) (count : option Z) (left : bool) : M DB Reply :=
  on_list key (fun del =>
    match count with
    | None => v ← do_pop key left del; mret (match v with Some v => RBulk v | None => RNull end)
    | Some n =>
        r ← list_range key del;
        match r with
        | None => mret RNullArray
        | Some _ =>
            _ ← with_capacity reply_size n;
            popped ← pop_loop key left del (Z.to_nat n) [];
            mret (RArray (map RBulk popped))
        end
    end).

Definition llen (key : bytes) : M DB Reply :=
  on_list key (fun del => n ← live_count key del; mret (RInt n)).

Definition lrange (key : bytes) (start stop : Z) : M DB Reply :=
  on_list key (fun del =>
    items ← (if (0 <=? start) && (0 <=? stop) then
               if stop <? start then mret []
               else
                 bounded ← live_items_bounded key del stop;
                 let len := Z.of_nat (length bounded) in
                 let s := Z.min start len in
                 let e := Z.min (stop + 1) len in
                 mret (if e <=? s then [] else sub s e bounded)
             else
               all ← live_items key del;
               mret (match clamp_range start stop (Z.of_nat (length all)) with
                     | None => []
                     | Some (s, e) => sub s e all
                     end));
    mret (RArray (map RBulk items))).

Definition lindex (key : bytes) (index : Z) : M DB Reply :=
  on_list key (fun del =>
    val ← (if 0 <=? index then
             items ← live_items_bounded key del index; mret (items !! Z.to_nat index)
           else
             all ← live_items key del;
             let idx := norm_index index (Z.of_nat (length all)) in
             mret (if idx <? 0 then None else all !! Z.to_nat idx));
    mret (match val with Some v => RBulk v | None => RNull end)).

Definition lset (key : bytes) (index : Z) (value : bytes) : M DB Reply :=
  on_list key (fun del =>
    pairs ← live_pairs key del;
    if bool_decide (pairs = []) then mret (RErr (str "ERR no such key")) else
    let idx := norm_index index (Z.of_nat (length pairs)) in
    if (idx <? 0) || (Z.of_nat (length pairs) <=? idx) then mret (RErr (str "ERR index out of range"))
    else match pairs !! Z.to_nat idx with
         | Some (pos, _) => _ ← write_elem key pos value; mret ok
         | None => lift Panic
         end).

(** The counting loop of [LREM]: drop the first [limit] occurrences. *)
Fixpoint lrem_loop (value : bytes) (limit removed : Z) (items : list bytes) : Z * list bytes :=
  match items with
  | [] => (removed, [])
  | it :: items =>
      if (removed <? limit) && bytes_eqb it value then lrem_loop value limit (removed + 1) items
      else let '(n, out) := lrem_loop value limit removed items in (n, it :: out)
  end.
Definition lrem (key : bytes) (count : Z) (value : bytes) : M DB Reply :=
  on_list key (fun del =>
    items ← live_items key del;
    if bool_decide (items = []) then mret (RInt 0) else
    let '(removed, kept) :=
      if 0 <=? count then lrem_loop value (if count =? 0 then 2 ^ 64 - 1 else count) 0 items
      else let '(n, out) := lrem_loop value (- count) 0 (rev items) in (n, rev out) in
    _ ← (if 0 <? removed then rebuild key del (Some kept) else mret tt);
    mret (RInt removed)).

Definition ltrim (key : bytes) (start stop : Z) : M DB Reply :=
  on_list key (fun del =>
    items ← live_items key del;
    if bool_decide (items = []) then mret (ok) else
    let kept := match clamp_range start stop (Z.of_nat (length items)) with
      | None => []
      | Some (s, e) => sub s e items
      end in
    _ ← rebuild key del (Some kept);
    mret (ok)).

Fixpoint position_of (pivot : bytes) (items : list bytes) : option nat :=
  match items with
  | [] => None
  | it :: items => if bytes_eqb it pivot then Some O else S <$> position_of pivot items
  end.
Definition linsert (key : bytes) (before : bool) (pivot value : bytes) : M DB Reply :=
  on_list key (fun del =>
    items ← live_items key del;
    if bool_decide (items = []) then mret (RInt 0) else
    match position_of pivot items with
    | None => mret (RInt (-1))
    | Some pos =>
        let at_ := if before then pos else S pos in
        let items := take at_ items ++ value :: drop at_ items in
        _ ← rebuild key del (Some items);
        mret (RInt (Z.of_nat (length items)))
    end).

(** [LMOVE] of one key onto itself. *)
Definition rotate (key : bytes) (from_left to_left : bool) : M DB Reply :=
  on_list key (fun del =>
    v ← do_pop key from_left del;
    match v with
    | None => mret RNull
    | Some v =>
        _ ← ensure_head node_id wall key CTYPE_LIST;
        _ ← do_push key [v] to_left del;
        mret (RBulk v)
    end).
(** [LMOVE] between two keys (here of one shard): pop, then push. *)
Definition do_move (src dst : bytes) (from_left to_left : bool) : M DB Reply :=
  if bytes_eqb src dst then rotate src from_left to_left else
  d ← check_type wall src CTYPE_LIST;
  match d with
  | None => mret wrongtype
  | Some del =>
      v ← do_pop src from_left del;
      match v with
      | None => mret RNull
      | Some v =>
          on_list dst (fun del =>
            _ ← ensure_head node_id wall dst CTYPE_LIST;
            _ ← do_push dst [v] to_left del;
            mret (RBulk v))
      end
  end.
End commands.
