(* ===== verification/ListLaws.v ===== *)
(** * Lists are double-ended queues

    The commands of [ListCmd] on one node, against the abstract list: the
    values of the live records in position order. A push adds at its end, a
    pop removes at its end, a rebuild installs a sequence, and the cached
    range never hides or invents an element - as long as every change goes
    through these operations. *)

From Stdlib Require Import String.
From S2P Require Import Prelude Partition Hlc Envelope Ikey Counter Lattice Merge MergeLaws Store Resp Reply ListCmd.

Section laws.
Context {DB : Type} `{KVLaws DB}.
Context (key : bytes) (key_len : slice_len_ok key) (key_bytes : is_bytes key).

(** ** The records of one list *)

(** A list record: a register without a deadline, live or tombstone. *)
Definition elem_ok (w : Z) (r : reg) : Prop :=
  envelope_ok r.1 /\ rtype r.1 = RList /\ ttl_deadline_ms r.1 = 0 /\ hlc r.1 <= w.

(** What the store holds for the list, up to clock [w]: every key under the
    list's prefix is an element key, every element key holds a list record
    written before [w]. *)
Record list_wf (d : DB) (w : Z) : Prop := {
  lw_bytes : keys_are_bytes d;
  lw_keys : forall k v, kv_get d k = Some v -> starts_with k (hint_key key) = true ->
    exists pos, u64 pos /\ k = list_elem_key key pos;
  lw_elem : forall pos v, u64 pos -> kv_get d (list_elem_key key pos) = Some v ->
    exists r, elem_ok w r /\ v = reg_bytes r;
}.

(** The value a record shows. *)
Definition shown_value (del : Z) (v : bytes) : option bytes :=
  match Envelope_decode v with
  | Some (env, pay) => if is_tombstone env || (hlc env <=? del) then None else Some pay
  | None => None
  end.
Definition elem_at (d : DB) (del pos : Z) : option bytes :=
  kv_get d (list_elem_key key pos) ≫= shown_value del.

(** The live positions and values, in order. *)
Definition pair_of (del : Z) (e : bytes * bytes) : option (Z * bytes) :=
  v ← shown_value del e.2; Some (of_be (drop (length (hint_key key)) e.1), v).
Definition contents (d : DB) (del : Z) : list (Z * bytes) := omap (pair_of del) (with_prefix d (hint_key key)).

Definition pos_lt (a b : Z * bytes) : Prop := a.1 < b.1.

Lemma elem_key_split pos : list_elem_key key pos = hint_key key ++ be_bytes 8 pos.
Proof. apply prefixed_split. Qed.

Lemma elem_key_pos pos : u64 pos -> of_be (drop (length (hint_key key)) (list_elem_key key pos)) = pos.
Proof. intros Hp. rewrite elem_key_split, drop_app_length. by apply of_be_u64. Qed.

Lemma elem_key_inj p q : u64 p -> u64 q -> list_elem_key key p = list_elem_key key q -> p = q.
Proof. intros Hp Hq E. rewrite <- (elem_key_pos p Hp), <- (elem_key_pos q Hq). by rewrite E. Qed.

Lemma elem_key_starts pos : starts_with (list_elem_key key pos) (hint_key key) = true.
Proof. rewrite elem_key_split. apply starts_with_app. Qed.

Lemma parse_elem_key pos :
  parse (list_elem_key key pos) = Ret (Some (mkParsedKey (pid_of key) (tag_u8 TListElem) key (be_bytes 8 pos))).
Proof. by apply parse_prefixed. Qed.

Lemma shown_reg del w r : elem_ok w r ->
  shown_value del (reg_bytes r) = if is_tombstone r.1 || (hlc r.1 <=? del) then None else Some r.2.
Proof. intros (O & _). unfold shown_value, reg_bytes. by rewrite Envelope_decode_encode_with by done. Qed.

(** The clock does not matter: list records carry no deadline. *)
Lemma visible_elem w r del now : elem_ok w r -> visible r.1 r.2 del now = shown_value del (reg_bytes r).
Proof.
  intros O. rewrite (shown_reg del w r O). destruct O as (_ & _ & T & _). unfold visible, is_expired. rewrite T.
  simpl. by rewrite orb_false_r.
Qed.

Lemma pair_of_elem del pos b : u64 pos -> pair_of del (list_elem_key key pos, b) = pair pos <$> shown_value del b.
Proof.
  intros Hp. unfold pair_of. cbn [fst snd]. rewrite elem_key_pos by done. by destruct (shown_value del b).
Qed.

Lemma contents_spec d w del pos v : list_wf d w ->
  ((pos, v) ∈ contents d del <-> u64 pos /\ elem_at d del pos = Some v).
Proof.
  intros W. unfold contents. rewrite list_elem_of_omap. split.
  - intros ([k b] & I & E). apply with_prefix_spec in I as [G P]; [|apply W].
    destruct (lw_keys d w W k b G P) as (q & Hq & ->). rewrite pair_of_elem in E by done.
    destruct (shown_value del b) as [x|] eqn:X; [|discriminate]. injection E as <- <-.
    split; [done|]. unfold elem_at. by rewrite G.
  - intros [Hp E]. unfold elem_at in E. destruct (kv_get d (list_elem_key key pos)) as [b|] eqn:G; [|discriminate].
    exists (list_elem_key key pos, b). split.
    + apply with_prefix_spec; [apply W|]. split; [done|apply elem_key_starts].
    + rewrite pair_of_elem by done. cbn [mbind option_bind] in E. by rewrite E.
Qed.

Lemma contents_sorted d w del : list_wf d w -> StronglySorted pos_lt (contents d del).
Proof.
  intros W. unfold contents. pose proof (kv_range_sorted d (hint_key key) (prefix_upper_bound (hint_key key))) as S.
  assert (F : Forall (fun e => exists pos, u64 pos /\ e.1 = list_elem_key key pos) (with_prefix d (hint_key key))).
  { apply Forall_forall. intros [k v] I. apply with_prefix_spec in I as [G P]; [|apply W]. by eapply (lw_keys d w W). }
  fold (with_prefix d (hint_key key)) in S. induction S as [|[k v] l S IH L]; [constructor|].
  apply Forall_cons in F as [(p & Hp & Ek) F]. cbn [fst] in Ek. subst k. cbn [omap list_omap].
  assert (R : StronglySorted pos_lt (omap (pair_of del) l)) by auto.
  destruct (pair_of del (list_elem_key key p, v)) as [[p' x]|] eqn:E; [|exact R]. constructor; [exact R|].
  rewrite pair_of_elem in E by done. destruct (shown_value del v); [|discriminate]. injection E as <- <-.
  apply Forall_forall. intros [q y] I. apply list_elem_of_omap in I as ([k b] & I & E).
  pose proof (proj1 (Forall_forall _ _) L _ I) as Lt. destruct (proj1 (Forall_forall _ _) F _ I) as (q' & Hq & Ek).
  cbn [fst] in Ek. subst k. rewrite pair_of_elem in E by done. destruct (shown_value del b); [|discriminate].
  injection E as <- <-. unfold pos_lt, key_lt in *. cbn [fst] in *.
  rewrite !elem_key_split, bytes_cmp_app_same, be8_cmp in Lt by done. by apply Z.compare_lt_iff.
Qed.

(** A sorted list is determined by its elements. *)
Lemma sorted_unique (l l' : list (Z * bytes)) : StronglySorted pos_lt l -> StronglySorted pos_lt l' ->
  (forall x, x ∈ l <-> x ∈ l') -> l = l'.
Proof.
  intros S. revert l'. induction S as [|x l S IH L]; intros l' S' E.
  - destruct l' as [|y l']; [done|]. exfalso. apply (not_elem_of_nil y), E. set_solver.
  - destruct S' as [|y l' S' L']; [exfalso; apply (not_elem_of_nil x), E; set_solver|].
    assert (x = y) as ->.
    { assert (Hx : x ∈ y :: l') by (apply E; set_solver). assert (Hy : y ∈ x :: l) by (apply E; set_solver).
      apply elem_of_cons in Hx as [->|Hx]; [done|]. apply elem_of_cons in Hy as [->|Hy]; [done|].
      pose proof (proj1 (Forall_forall _ _) L _ Hy). pose proof (proj1 (Forall_forall _ _) L' _ Hx).
      unfold pos_lt in *. lia. }
    f_equal. apply IH; [done|]. intros z. split; intros Hz.
    + assert (I : z ∈ y :: l') by (apply E; set_solver). apply elem_of_cons in I as [->|I]; [|done].
      pose proof (proj1 (Forall_forall _ _) L _ Hz). unfold pos_lt in *. lia.
    + assert (I : z ∈ y :: l) by (apply E; set_solver). apply elem_of_cons in I as [->|I]; [|done].
      pose proof (proj1 (Forall_forall _ _) L' _ Hz). unfold pos_lt in *. lia.
Qed.

Lemma contents_eq d w del l : list_wf d w -> StronglySorted pos_lt l ->
  (forall pos v, (pos, v) ∈ l <-> u64 pos /\ elem_at d del pos = Some v) -> contents d del = l.
Proof.
  intros W S E. apply sorted_unique; [by eapply contents_sorted|done|].
  intros [pos v]. rewrite (contents_spec d w) by done. by rewrite E.
Qed.

(** ** Reading *)

Context (node_id : Z) (wall : nat -> Z).

(** Only time has passed. *)
Definition quiet (s s' : Shard DB) : Prop := db s' = db s /\ pop_hints s' = pop_hints s /\ hlc_word s' = hlc_word s.
#[export] Instance quiet_preorder : PreOrder quiet.
Proof. split; [by intros s|]. intros a b c (? & ? & ?) (? & ? & ?). repeat split; congruence. Qed.
Definition tick (s : Shard DB) : Shard DB := mkShard (db s) (hlc_word s) (pop_hints s) (S (ticks s)).
Lemma quiet_tick s : quiet s (tick s).
Proof. done. Qed.

Lemma scanned_record d w k v : list_wf d w -> (k, v) ∈ with_prefix d (hint_key key) ->
  exists pos r, u64 pos /\ k = list_elem_key key pos /\ elem_ok w r /\ v = reg_bytes r.
Proof.
  intros W I. apply with_prefix_spec in I as [G P]; [|apply W].
  destruct (lw_keys d w W k v G P) as (pos & Hp & ->). destruct (lw_elem d w W pos v Hp G) as (r & O & ->).
  exists pos, r. auto.
Qed.

Lemma live_pair_eq d w del now k v : list_wf d w -> (k, v) ∈ with_prefix d (hint_key key) ->
  live_pair del now k v = Ret (pair_of del (k, v)) /\ live_value del now v = shown_value del v.
Proof.
  intros W I. destruct (scanned_record d w k v W I) as (pos & r & Hp & -> & O & ->).
  assert (D : Envelope_decode (reg_bytes r) = Some (r.1, r.2)) by (apply Envelope_decode_encode_with, O).
  unfold live_pair, live_value. rewrite parse_elem_key, D, (visible_elem w r del now O), pair_of_elem by done.
  cbn [rust_bind pk_suffix]. split; [|done]. f_equal.
  assert (L : list_pos (be_bytes 8 pos) = Some pos).
  { unfold list_pos, slice. rewrite length_be_bytes, drop_0, take_ge by (rewrite length_be_bytes; lia).
    by rewrite of_be_u64. }
  rewrite (shown_reg del w r O). destruct (_ || _); [done|]. by rewrite L.
Qed.

(** A scan that never stops folds over the live contents. *)
Lemma scan_contents {S} s w del (f : S -> bytes -> bytes -> rust (S * bool)) (g : S -> Z * bytes -> S) acc :
  list_wf (db s) w ->
  (forall a k v, (k, v) ∈ with_prefix (db s) (hint_key key) ->
     f a k v = Ret (match pair_of del (k, v) with Some pv => g a pv | None => a end, true)) ->
  scan_prefix (hint_key key) f acc s = Ret (fold_left g (contents (db s) del) acc, s).
Proof.
  intros W E. unfold scan_prefix, scan_from. fold (with_prefix (db s) (hint_key key)). unfold contents.
  assert (P : Forall (fun e => starts_with e.1 (hint_key key) = true) (with_prefix (db s) (hint_key key)))
    by apply with_prefix_starts, W.
  revert acc P E. induction (with_prefix (db s) (hint_key key)) as [|[k v] l IH]; intros acc P E; [done|].
  apply Forall_cons in P as [Pk P]. cbn [fst] in Pk. cbn [scan_loop]. rewrite Pk. cbn [negb].
  rewrite E by set_solver. cbn [rust_bind fst snd omap list_omap].
  rewrite IH; [|done|intros; apply E; set_solver]. by destruct (pair_of del (k, v)).
Qed.

Lemma fold_snoc {A B} (f : A -> B) l : forall acc, fold_left (fun out x => out ++ [f x]) l acc = acc ++ map f l.
Proof. induction l as [|x l IH]; intros acc; simpl; [by rewrite app_nil_r|]. by rewrite IH, <- app_assoc. Qed.

Lemma read_elem_eq s w pos del : list_wf (db s) w -> u64 pos ->
  exists s', read_elem wall key pos del s = Ret (elem_at (db s) del pos, s') /\ quiet s s'.
Proof.
  intros W Hp. unfold read_elem, elem_at, mbind, M_bind, get_raw, reads. cbn [rust_bind fst snd].
  destruct (kv_get (db s) (list_elem_key key pos)) as [b|] eqn:G; [|by exists s].
  destruct (lw_elem _ w W pos b Hp G) as (r & O & ->). cbn [option_bind].
  rewrite (Envelope_decode_encode_with r.1 r.2 (proj1 O) : Envelope_decode (reg_bytes r) = _).
  exists (tick s). unfold now_ms. cbn [rust_bind fst snd]. rewrite (visible_elem w r del _ O). done.
Qed.

Lemma live_pairs_eq s w del : list_wf (db s) w ->
  live_pairs wall key del s = Ret (contents (db s) del, tick s).
Proof.
  intros W. unfold live_pairs, mbind, M_bind, now_ms. cbn [rust_bind fst snd].
  rewrite (scan_contents (tick s) w del _ (fun out pv => out ++ [pv])); [|done|].
  - by rewrite (fold_snoc id), map_id.
  - intros a k v I. destruct (live_pair_eq (db s) w del (wall (ticks s)) k v W I) as [-> _]. done.
Qed.

Lemma live_items_eq s w del : list_wf (db s) w ->
  live_items wall key del s = Ret (map snd (contents (db s) del), tick s).
Proof.
  intros W. unfold live_items, mbind, M_bind, now_ms. cbn [rust_bind fst snd].
  rewrite (scan_contents (tick s) w del _ (fun out pv => out ++ [pv.2])); [|done|].
  - by rewrite (fold_snoc snd).
  - intros a k v I. destruct (live_pair_eq (db s) w del (wall (ticks s)) k v W I) as [_ ->]. unfold pair_of.
    cbn [fst snd]. by destruct (shown_value del v).
Qed.

Lemma live_count_eq s w del : list_wf (db s) w ->
  live_count wall key del s = Ret (Z.of_nat (length (contents (db s) del)), tick s).
Proof.
  intros W. unfold live_count, mbind, M_bind, now_ms. cbn [rust_bind fst snd].
  rewrite (scan_contents (tick s) w del _ (fun n _ => n + 1)); [|done|].
  - cbn [db tick]. assert (F : forall l n, fold_left (fun n (_ : Z * bytes) => n + 1) l n = n + Z.of_nat (length l)).
    { induction l as [|x l IH]; intros n; simpl; [lia|]. rewrite IH. lia. }
    by rewrite F.
  - intros a k v I. destruct (live_pair_eq (db s) w del (wall (ticks s)) k v W I) as [_ ->]. unfold pair_of.
    cbn [fst snd]. by destruct (shown_value del v).
Qed.

(** First and last live positions. *)
Definition range_of (l : list (Z * bytes)) : option (Z * Z) :=
  match l, last l with (h, _) :: _, Some (t, _) => Some (h, t) | _, _ => None end.

Lemma scan_minmax_eq s w del : list_wf (db s) w ->
  scan_minmax wall key del s = Ret (range_of (contents (db s) del), tick s).
Proof.
  intros W. unfold scan_minmax, mbind, M_bind, now_ms. cbn [rust_bind fst snd].
  rewrite (scan_contents (tick s) w del _
    (fun acc pv => (match acc.1 with None => Some pv.1 | lo => lo end, pv.1))); [|done|].
  - cbn [rust_bind fst snd db tick mret M_ret].
    assert (F : forall l lo hi, fold_left (fun (acc : option Z * Z) (pv : Z * bytes) =>
        (match acc.1 with None => Some pv.1 | lo => lo end, pv.1)) l (Some lo, hi) =
        (Some lo, match last l with Some (t, _) => t | None => hi end)).
    { induction l as [|[p v] l IH]; intros lo hi; [done|]. simpl. rewrite IH. f_equal.
      destruct l as [|x l]; [done|]. destruct (last (x :: l)) as [[t ?]|] eqn:El; [|by apply last_None in El].
      change (last ((p, v) :: x :: l)) with (last (x :: l)). by rewrite El. }
    unfold range_of. destruct (contents (db s) del) as [|[h v] l]; [done|]. cbn [fold_left fst snd]. rewrite F.
    cbn [fmap option_fmap option_map fst snd]. destruct l as [|x l]; [done|].
    change (last ((h, v) :: x :: l)) with (last (x :: l)).
    destruct (last (x :: l)) as [[t ?]|] eqn:El; [done|by apply last_None in El].
  - intros a k v I. destruct (live_pair_eq (db s) w del (wall (ticks s)) k v W I) as [-> _].
    cbn [rust_bind]. by destruct (pair_of del (k, v)) as [[pos x]|].
Qed.

(** ** Writing *)

Context (node_range : node_ok node_id) (walls : forall n, 0 <= wall n < 2 ^ 47).

(** The clock can still tick [n] times within its 64 bits. *)
Definition room (n : nat) (s : Shard DB) : Prop :=
  0 <= hlc_word s /\ hlc_word s + Z.of_nat n < 2 ^ 64 /\ Z.of_nat n < 2 ^ 62.

Lemma node_u16 : u16 node_id.
Proof. unfold node_ok, LIST_NODE_ID_MAX, LIST_POS_STRIDE, u16, in_range in *. lia. Qed.

Lemma hlc_now_eq s n : room (S n) s -> exists t s', hlc_now wall s = Ret (t, s') /\
  hlc_word s < t /\ u64 t /\ hlc_word s' = t /\ db s' = db s /\ pop_hints s' = pop_hints s /\ room n s'.
Proof.
  intros (R0 & R1 & R2). unfold hlc_now. pose proof (walls (ticks s)) as Hw.
  destruct (Hlc_now_spec (hlc_word s) (wall (ticks s))) as (t & E & L); [lia|lia|lia|].
  assert (B : t <= Z.max (hlc_word s + 1) (2 ^ 63)).
  { unfold Hlc_now in E. rewrite hlc_pack_0 in E by lia. unfold wrap in E. rewrite Z.mod_small in E by lia.
    injection E as <- _. lia. }
  rewrite E. eexists t, _. split; [reflexivity|]. cbn [db hlc_word pop_hints]. unfold room, u64, in_range. cbn [hlc_word].
  repeat split; lia.
Qed.

Lemma room_quiet n s s' : quiet s s' -> room n s -> room n s'.
Proof. intros (_ & _ & E). unfold room. by rewrite E. Qed.

(** A newer list record replaces what its key holds. *)
Lemma write_reg_eq s w pos r : list_wf (db s) w -> u64 pos -> elem_ok (hlc r.1) r -> w < hlc r.1 ->
  exists b d', write_merged (list_elem_key key pos) (reg_bytes r) s = Ret (b, with_db s d') /\
    kv_get d' (list_elem_key key pos) = Some (reg_bytes r) /\ Store.frame (list_elem_key key pos) (db s) d'.
Proof.
  intros W Hp (O & T & D & _) L. eapply write_merged_plain; [by apply parse_elem_key|cbn; lia|].
  destruct (kv_get (db s) (list_elem_key key pos)) as [v|] eqn:G; [|done]. cbn [deliver_with].
  destruct (lw_elem _ w W pos v Hp G) as (r0 & (O0 & T0 & _ & L0) & ->).
  rewrite (merged_at_plain _ _ _ _ (parse_elem_key pos)) by (cbn; lia).
  rewrite merged_bytes_lww by (rewrite ?T, ?T0; done). unfold pick, reg_ltb, ver_ltb, ver_cmp, env_version. cbn [fst].
  by rewrite (proj2 (Z.compare_lt_iff (hlc r0.1) (hlc r.1))) by lia.
Qed.

Lemma wf_write d d' w w' pos r : list_wf d w -> w <= w' -> u64 pos -> elem_ok w' r ->
  kv_get d' (list_elem_key key pos) = Some (reg_bytes r) -> Store.frame (list_elem_key key pos) d d' -> list_wf d' w'.
Proof.
  intros W Le Hp O G F. constructor.
  - intros k v Gk. destruct (decide (k = list_elem_key key pos)) as [->|Ne].
    + apply prefixed_is_bytes; [done|apply be_bytes_is_bytes].
    + rewrite F in Gk by done. by eapply (lw_bytes d w W).
  - intros k v Gk P. destruct (decide (k = list_elem_key key pos)) as [->|Ne]; [eauto|].
    rewrite F in Gk by done. by eapply (lw_keys d w W).
  - intros q v Hq Gq. destruct (decide (q = pos)) as [->|Ne].
    + rewrite G in Gq. injection Gq as <-. eauto.
    + rewrite F in Gq by (intros E; by apply elem_key_inj in E).
      destruct (lw_elem d w W q v Hq Gq) as (r0 & (O1 & O2 & O3 & O4) & ->). exists r0. split; [|done].
      unfold elem_ok. auto with lia.
Qed.

Lemma elem_at_write d d' w' pos r del q : u64 pos -> u64 q -> elem_ok w' r -> del < hlc r.1 ->
  kv_get d' (list_elem_key key pos) = Some (reg_bytes r) -> Store.frame (list_elem_key key pos) d d' ->
  elem_at d' del q = if q =? pos then (if is_tombstone r.1 then None else Some r.2) else elem_at d del q.
Proof.
  intros Hp Hq O L G F. unfold elem_at. destruct (q =? pos) eqn:E; [apply Z.eqb_eq in E|apply Z.eqb_neq in E].
  - subst q. rewrite G. cbn [mbind option_bind]. rewrite (shown_reg del w' r O).
    rewrite (proj2 (Z.leb_gt (hlc r.1) del)) by lia. by rewrite orb_false_r.
  - rewrite F; [done|]. intros Ek. by apply elem_key_inj in Ek.
Qed.

(** The state of a list and its clock: records written before the clock, the
    delete clock passed. *)
Record list_state (n : nat) (del : Z) (s : Shard DB) : Prop := {
  ls_wf : list_wf (db s) (hlc_word s);
  ls_room : room n s;
  ls_del : del <= hlc_word s;
}.

Lemma quiet_state n del s s' : quiet s s' -> list_state n del s -> list_state n del s'.
Proof.
  intros Q [W R D]. pose proof Q as (Ed & _ & Ew). constructor; [by rewrite Ed, Ew|by eapply room_quiet|lia].
Qed.

(** One record written at [pos], showing [o] afterwards. *)
Definition wrote (pos : Z) (o : option bytes) (del : Z) (s s' : Shard DB) : Prop :=
  pop_hints s' = pop_hints s /\ hlc_word s < hlc_word s' /\ Store.frame (list_elem_key key pos) (db s) (db s') /\
  forall q, u64 q -> elem_at (db s') del q = if q =? pos then o else elem_at (db s) del q.

Lemma write_record_eq n del s pos flags_ pay : list_state (S n) del s -> u64 pos ->
  (forall h, envelope_ok (mkEnvelope flags_ h node_id 0) \/ ~ u64 h) ->
  rtype (mkEnvelope flags_ 0 0 0) = RList ->
  exists t s1 b s', hlc_now wall s = Ret (t, s1) /\
    write_merged (list_elem_key key pos) (encode_with (mkEnvelope flags_ t node_id 0) pay) s1 = Ret (b, s') /\
    list_state n del s' /\
    wrote pos (if is_tombstone (mkEnvelope flags_ 0 0 0) then None else Some pay) del s s'.
Proof.
  intros [W R D] Hp Hok Hr. destruct (hlc_now_eq s n R) as (t & s1 & E & L & U & Ew & Ed & Eh & R1).
  set (r := (mkEnvelope flags_ t node_id 0, pay) : reg).
  assert (O : elem_ok t r).
  { destruct (Hok t) as [Ot|]; [|done]. split; [exact Ot|]. split; [exact Hr|]. split; [done|]. cbn. lia. }
  rewrite <- Ed in W. destruct (write_reg_eq s1 (hlc_word s) pos r W Hp O L) as (b & d' & Wr & G & F).
  exists t, s1, b, (with_db s1 d'). split; [done|]. split; [exact Wr|].
  assert (Wf : list_wf d' t) by (eapply (wf_write (db s1) d' (hlc_word s) t pos r); eauto; lia).
  split.
  - constructor; cbn [db hlc_word with_db]; [by rewrite Ew|done|lia].
  - rewrite Ed in F. unfold wrote. cbn [db hlc_word pop_hints with_db]. rewrite Ew. split; [done|]. split; [done|].
    split; [done|]. intros q Hq. by rewrite (elem_at_write (db s) d' t pos r del q) by (done || cbn; lia).
Qed.

Lemma write_elem_eq n del s pos val : list_state (S n) del s -> u64 pos ->
  exists s', write_elem node_id wall key pos val s = Ret (tt, s') /\ list_state n del s' /\ wrote pos (Some val) del s s'.
Proof.
  intros S Hp. destruct (write_record_eq n del s pos 16 val S Hp) as (t & s1 & b & s' & E & Wr & S' & Wo).
  - intros h. destruct (decide (0 <= h < 2 ^ 64)) as [Hh|Hh]; [left|right; exact Hh].
    pose proof node_u16. constructor; cbn; try done; unfold u8, u64, in_range; lia.
  - reflexivity.
  - exists s'. split; [|by split]. unfold write_elem, new_lww, mbind, M_bind. rewrite E. cbn [rust_bind fst snd mret M_ret].
    change (with_ttl (Envelope_new RList t node_id) 0) with (mkEnvelope 16 t node_id 0). by rewrite Wr.
Qed.

Lemma tombstone_elem_eq n del s pos : list_state (S n) del s -> u64 pos ->
  exists s', tombstone_elem node_id wall key pos s = Ret (tt, s') /\ list_state n del s' /\ wrote pos None del s s'.
Proof.
  intros S Hp. destruct (write_record_eq n del s pos 17 [] S Hp) as (t & s1 & b & s' & E & Wr & S' & Wo).
  - intros h. destruct (decide (0 <= h < 2 ^ 64)) as [Hh|Hh]; [left|right; exact Hh].
    pose proof node_u16. constructor; cbn; try done; unfold u8, u64, in_range; lia.
  - reflexivity.
  - exists s'. split; [|by split]. unfold tombstone_elem, new_tombstone, mbind, M_bind. rewrite E.
    cbn [rust_bind fst snd mret M_ret].
    change (Envelope_tombstone RList t node_id) with (mkEnvelope 17 t node_id 0). by rewrite Wr.
Qed.

Lemma state_weaken n m del s : (n <= m)%nat -> list_state m del s -> list_state n del s.
Proof. intros L [W (R0 & R1 & R2) D]. constructor; [done| |done]. unfold room. lia. Qed.

(** ** The contents after a write *)

Lemma sorted_snoc (l : list (Z * bytes)) p v : StronglySorted pos_lt l -> (forall q x, (q, x) ∈ l -> q < p) ->
  StronglySorted pos_lt (l ++ [(p, v)]).
Proof.
  induction 1 as [|y l S IH F]; intros L; simpl; [repeat constructor|]. constructor; [apply IH; set_solver|].
  apply Forall_app. split; [done|]. constructor; [|constructor]. destruct y as [q x]. unfold pos_lt. simpl.
  eapply L. left.
Qed.

Lemma contents_append n n' del s s' pos v : list_state n del s -> list_state n' del s' -> u64 pos ->
  wrote pos (Some v) del s s' -> (forall q x, (q, x) ∈ contents (db s) del -> q < pos) ->
  contents (db s') del = contents (db s) del ++ [(pos, v)].
Proof.
  intros [W _ _] [W' _ _] Hp (_ & _ & _ & E) L. apply (contents_eq _ (hlc_word s')); [done| |].
  - apply sorted_snoc; [by eapply contents_sorted|done].
  - intros q x. rewrite elem_of_app, list_elem_of_singleton, (contents_spec _ _ _ _ _ W). split.
    + intros [[Hq Eq]|Eq].
      * split; [done|]. rewrite E by done. rewrite (proj2 (Z.eqb_neq q pos)); [done|].
        assert (q < pos); [|lia]. eapply L. apply (contents_spec _ _ _ _ _ W). eauto.
      * injection Eq as -> ->. split; [done|]. by rewrite E, Z.eqb_refl.
    + intros [Hq Eq]. rewrite E in Eq by done. destruct (q =? pos) eqn:K; [|by left].
      apply Z.eqb_eq in K. right. congruence.
Qed.

Lemma contents_prepend n n' del s s' pos v : list_state n del s -> list_state n' del s' -> u64 pos ->
  wrote pos (Some v) del s s' -> (forall q x, (q, x) ∈ contents (db s) del -> pos < q) ->
  contents (db s') del = (pos, v) :: contents (db s) del.
Proof.
  intros [W _ _] [W' _ _] Hp (_ & _ & _ & E) L. apply (contents_eq _ (hlc_word s')); [done| |].
  - constructor; [by eapply contents_sorted|]. apply Forall_forall. intros [q x] I. unfold pos_lt. simpl. by eapply L.
  - intros q x. rewrite elem_of_cons, (contents_spec _ _ _ _ _ W). split.
    + intros [Eq|[Hq Eq]].
      * injection Eq as -> ->. split; [done|]. by rewrite E, Z.eqb_refl.
      * split; [done|]. rewrite E by done. rewrite (proj2 (Z.eqb_neq q pos)); [done|].
        assert (pos < q); [|lia]. eapply L. apply (contents_spec _ _ _ _ _ W). eauto.
    + intros [Hq Eq]. rewrite E in Eq by done. destruct (q =? pos) eqn:K; [|by right].
      apply Z.eqb_eq in K. left. congruence.
Qed.

Lemma sorted_mid (l1 l2 : list (Z * bytes)) p v : StronglySorted pos_lt (l1 ++ (p, v) :: l2) ->
  StronglySorted pos_lt (l1 ++ l2) /\ (forall q x, (q, x) ∈ l1 -> q < p) /\ (forall q x, (q, x) ∈ l2 -> p < q).
Proof.
  induction l1 as [|[q0 x0] l1 IH]; simpl; intros S; apply StronglySorted_inv in S as [S F].
  - split; [done|]. split; [set_solver|]. intros q x I. exact (proj1 (Forall_forall _ _) F _ I).
  - destruct (IH S) as (S' & L1 & L2). apply Forall_app in F as [F1 F2]. apply Forall_cons in F2 as [F0 F2].
    split; [constructor; [done|by apply Forall_app]|]. split; [|done].
    intros q x I. apply elem_of_cons in I as [[= -> ->]|I]; [exact F0|by eapply L1].
Qed.

(** A tombstone takes one element out. *)
Lemma contents_remove n n' del s s' pos v l1 l2 : list_state n del s -> list_state n' del s' ->
  wrote pos None del s s' -> contents (db s) del = l1 ++ (pos, v) :: l2 -> contents (db s') del = l1 ++ l2.
Proof.
  intros [W _ _] [W' _ _] (_ & _ & _ & E) C. pose proof (contents_sorted _ _ del W) as S. rewrite C in S.
  apply sorted_mid in S as (S & L1 & L2). apply (contents_eq _ (hlc_word s')); [done|done|].
  intros q x. pose proof (contents_spec _ _ del q x W) as M. rewrite C in M. split.
  - intros I. assert (I' : (q, x) ∈ l1 ++ (pos, v) :: l2) by set_solver. apply M in I' as [Hq Eq]. split; [done|].
    rewrite E by done. rewrite (proj2 (Z.eqb_neq q pos)); [done|].
    apply elem_of_app in I as [I|I]; [apply L1 in I|apply L2 in I]; lia.
  - intros [Hq Eq]. rewrite E in Eq by done. destruct (q =? pos) eqn:K; [done|]. apply Z.eqb_neq in K.
    assert (I : (q, x) ∈ l1 ++ (pos, v) :: l2) by (by apply M). set_solver.
Qed.

(** ** The cached range *)

Definition hint_of (s : Shard DB) : Hint :=
  match pop_hints s !! hint_key key with
  | None => HUnknown
  | Some [] => HEmpty
  | Some v => if (16 <=? length v)%nat then HKnown (of_be (slice 0 8 v)) (of_be (slice 8 16 v)) else HUnknown
  end.

(** The hint encloses the live positions. *)
Definition hint_ok (del : Z) (s : Shard DB) : Prop :=
  match hint_of s with
  | HUnknown => True
  | HEmpty => contents (db s) del = []
  | HKnown h t => u64 h /\ u64 t /\ forall p v, (p, v) ∈ contents (db s) del -> h <= p <= t
  end.

Definition with_hint (s : Shard DB) (v : bytes) : Shard DB :=
  mkShard (db s) (hlc_word s) (<[hint_key key := v]> (pop_hints s)) (ticks s).

Lemma set_known_eq s h t : set_known key h t s = Ret (tt, with_hint s (be_bytes 8 h ++ be_bytes 8 t)).
Proof. done. Qed.
Lemma set_empty_eq s : set_empty key s = Ret (tt, with_hint s []).
Proof. done. Qed.

Lemma hint_of_known s h t : u64 h -> u64 t -> hint_of (with_hint s (be_bytes 8 h ++ be_bytes 8 t)) = HKnown h t.
Proof.
  intros Hh Ht. unfold hint_of, with_hint. cbn [pop_hints]. rewrite lookup_insert_eq.
  assert (L : length (be_bytes 8 h ++ be_bytes 8 t) = 16%nat) by (by rewrite length_app, !length_be_bytes).
  assert (E1 : slice 0 8 (be_bytes 8 h ++ be_bytes 8 t) = be_bytes 8 h).
  { unfold slice. rewrite drop_0. apply take_app_length'. by rewrite length_be_bytes. }
  assert (E2 : slice 8 16 (be_bytes 8 h ++ be_bytes 8 t) = be_bytes 8 t).
  { unfold slice. rewrite drop_app_length' by (by rewrite length_be_bytes). apply take_ge. by rewrite length_be_bytes. }
  destruct (be_bytes 8 h ++ be_bytes 8 t) as [|x l] eqn:E; [discriminate|].
  rewrite L, E1, E2, !of_be_u64 by done. done.
Qed.
Lemma hint_of_empty s : hint_of (with_hint s []) = HEmpty.
Proof. unfold hint_of, with_hint. cbn [pop_hints]. by rewrite lookup_insert_eq. Qed.

Definition list_inv (n : nat) (del : Z) (s : Shard DB) : Prop := list_state n del s /\ hint_ok del s.

Lemma state_hint n del s v : list_state n del s -> list_state n del (with_hint s v).
Proof. intros [W R D]. by constructor. Qed.

Lemma head_first h v l : (h, v) ∈ l -> StronglySorted pos_lt l -> (forall p x, (p, x) ∈ l -> h <= p) ->
  exists v' rest, l = (h, v') :: rest.
Proof.
  intros I S L. destruct S as [|[q x] l S F]; [set_solver|].
  assert (h <= q) by (eapply L; left). apply elem_of_cons in I as [[= -> ->]|I]; [eauto|].
  pose proof (proj1 (Forall_forall _ _) F _ I) as K. unfold pos_lt in K. simpl in K. lia.
Qed.

Lemma last_le (l : list (Z * bytes)) t v : StronglySorted pos_lt l -> last l = Some (t, v) -> forall p x, (p, x) ∈ l -> p <= t.
Proof.
  intros S E p x I. apply last_Some in E as [l' ->]. apply sorted_mid in S as (_ & L & _).
  apply elem_of_app in I as [I|I]; [apply L in I; lia|]. apply list_elem_of_singleton in I. injection I as -> ->. lia.
Qed.

(** A range [list_range] may return for the contents [l]: the first live
    position, and a bound on the last. *)
Definition range_ok (l : list (Z * bytes)) (h t : Z) : Prop :=
  u64 h /\ u64 t /\ (exists v rest, l = (h, v) :: rest) /\ forall p x, (p, x) ∈ l -> h <= p <= t.

Lemma contents_u64 n del s p x : list_state n del s -> (p, x) ∈ contents (db s) del -> u64 p.
Proof. intros [W _ _] I. by apply (contents_spec _ _ _ _ _ W) in I as [? _]. Qed.

Lemma range_of_ok n del s : list_state n del s ->
  match range_of (contents (db s) del) with
  | None => contents (db s) del = []
  | Some (h, t) => range_ok (contents (db s) del) h t
  end.
Proof.
  intros S. pose proof (contents_sorted _ _ del (ls_wf _ _ _ S)) as So. unfold range_of.
  destruct (contents (db s) del) as [|[h v] l] eqn:C; [done|].
  destruct (last ((h, v) :: l)) as [[t y]|] eqn:El; [|by apply last_None in El].
  assert (It : (t, y) ∈ (h, v) :: l) by (apply last_Some in El as [l' ->]; set_solver).
  split; [|split; [|split]].
  - apply (contents_u64 n del s h v S). rewrite C. left.
  - apply (contents_u64 n del s t y S). by rewrite C.
  - eauto.
  - intros p x I. split; [|by eapply last_le].
    apply StronglySorted_inv in So as [_ F]. apply elem_of_cons in I as [[= -> ->]|I]; [lia|].
    pose proof (proj1 (Forall_forall _ _) F _ I) as K. unfold pos_lt in K. simpl in K. lia.
Qed.

Lemma range_hint n del s h t : list_state n del s -> range_ok (contents (db s) del) h t ->
  let s' := with_hint s (be_bytes 8 h ++ be_bytes 8 t) in list_inv n del s' /\ hint_of s' = HKnown h t.
Proof.
  intros S (Hh & Ht & _ & B). cbn zeta. pose proof (hint_of_known s h t Hh Ht) as E. split; [|done].
  split; [by apply state_hint|]. unfold hint_ok. rewrite E. done.
Qed.

Lemma recover_eq n del s : list_state n del s -> exists r s', recover wall key del s = Ret (r, s') /\
  db s' = db s /\ list_inv n del s' /\
  match r with
  | None => contents (db s) del = []
  | Some (h, t) => range_ok (contents (db s) del) h t /\ hint_of s' = HKnown h t
  end.
Proof.
  intros S. unfold recover, mbind, M_bind. rewrite (scan_minmax_eq s (hlc_word s) del (ls_wf _ _ _ S)).
  cbn [rust_bind fst snd]. assert (S1 : list_state n del (tick s)) by (by eapply quiet_state; [apply quiet_tick|]).
  pose proof (range_of_ok n del s S) as R. destruct (range_of (contents (db s) del)) as [[h t]|].
  - rewrite set_known_eq. exists (Some (h, t)), (with_hint (tick s) (be_bytes 8 h ++ be_bytes 8 t)). split; [reflexivity|]. split; [done|].
    destruct (range_hint n del (tick s) h t S1 R) as [I E]. split; [exact I|]. split; [exact R|exact E].
  - rewrite set_empty_eq. exists None, (with_hint (tick s) []). split; [reflexivity|]. split; [done|]. split; [|done].
    split; [by apply state_hint|]. unfold hint_ok. by rewrite hint_of_empty.
Qed.

Lemma list_range_eq n del s : list_inv n del s -> exists r s', list_range wall key del s = Ret (r, s') /\
  db s' = db s /\ list_inv n del s' /\
  match r with
  | None => contents (db s) del = []
  | Some (h, t) => range_ok (contents (db s) del) h t /\ hint_of s' = HKnown h t
  end /\
  (forall h t v rest, hint_of s = HKnown h t -> contents (db s) del = (h, v) :: rest -> r = Some (h, t)).
Proof.
  intros [S Ho]. unfold list_range, mbind, M_bind, get_hint. fold (hint_of s). cbn [rust_bind fst snd].
  unfold hint_ok in Ho. destruct (hint_of s) as [|h t|] eqn:Eh.
  - exists None, s. split; [done|]. split; [done|]. split; [split; [done|]; unfold hint_ok; by rewrite Eh|].
    split; [done|congruence].
  - destruct Ho as (Hh & Ht & B). destruct (read_elem_eq s (hlc_word s) h del (ls_wf _ _ _ S) Hh) as (s1 & E & Q).
    pose proof Q as (Qd & Qh & _). assert (S1 : list_state n del s1) by (by eapply quiet_state).
    rewrite E. cbn [rust_bind fst snd]. pose proof (contents_sorted _ _ del (ls_wf _ _ _ S)) as So.
    destruct (elem_at (db s) del h) as [v|] eqn:Ev.
    + assert (I : (h, v) ∈ contents (db s) del) by (by apply (contents_spec _ _ _ _ _ (ls_wf _ _ _ S))).
      exists (Some (h, t)), s1. assert (K : hint_of s1 = HKnown h t) by (unfold hint_of; by rewrite Qh, <- Eh).
      split; [done|]. split; [done|]. split; [split; [done|]; unfold hint_ok; by rewrite K, Qd|].
      split; [|congruence]. split; [|done]. split; [done|]. split; [done|]. split; [|done].
      eapply head_first; [exact I|exact So|]. intros p x Ip. by apply B in Ip as [? _].
    + destruct (recover_eq n del s1 S1) as (r & s' & Er & Ed & Iv & R). rewrite Qd in R, Ed.
      exists r, s'. split; [done|]. split; [done|]. split; [done|]. split; [done|].
      intros h' t' v rest [= <- <-] C. exfalso.
      assert (I : (h, v) ∈ contents (db s) del) by (rewrite C; left).
      apply (contents_spec _ _ _ _ _ (ls_wf _ _ _ S)) in I as [_ I]. congruence.
  - destruct (recover_eq n del s S) as (r & s' & Er & Ed & Iv & R). exists r, s'.
    split; [done|]. split; [done|]. split; [done|]. split; [done|congruence].
Qed.

(** ** Popping *)

Lemma fold_last (l : list (Z * bytes)) : forall acc,
  fold_left (fun (_ : option (Z * bytes)) pv => Some pv) l acc = match last l with Some x => Some x | None => acc end.
Proof.
  induction l as [|x l IH]; intros acc; [done|]. simpl. rewrite IH. destruct l as [|y l]; [done|].
  destruct (last (y :: l)) eqn:E; [|by apply last_None in E]. change (last (x :: y :: l)) with (last (y :: l)). by rewrite E.
Qed.

Lemma find_front_eq n del s h v rest : list_state n del s -> contents (db s) del = (h, v) :: rest ->
  exists s', find_front wall key h del s = Ret (Some (h, v), s') /\ quiet s s'.
Proof.
  intros S C. assert (I : (h, v) ∈ contents (db s) del) by (rewrite C; left).
  apply (contents_spec _ _ _ _ _ (ls_wf _ _ _ S)) in I as [Hh Ev].
  destruct (read_elem_eq s (hlc_word s) h del (ls_wf _ _ _ S) Hh) as (s1 & E & Q). rewrite Ev in E.
  exists s1. unfold find_front, mbind, M_bind. by rewrite E.
Qed.

Lemma find_back_eq n del s t l p v : list_state n del s -> u64 t -> contents (db s) del = l ++ [(p, v)] ->
  p <= t -> exists s', find_back wall key t del s = Ret (Some (p, v), s') /\ quiet s s'.
Proof.
  intros S Ht C Le. destruct (read_elem_eq s (hlc_word s) t del (ls_wf _ _ _ S) Ht) as (s1 & E & Q).
  unfold find_back, mbind, M_bind. rewrite E. cbn [rust_bind fst snd].
  pose proof (contents_sorted _ _ del (ls_wf _ _ _ S)) as So. rewrite C in So.
  destruct (elem_at (db s) del t) as [x|] eqn:Ev.
  - exists s1. split; [|done]. assert (I : (t, x) ∈ contents (db s) del)
      by (apply (contents_spec _ _ _ _ _ (ls_wf _ _ _ S)); auto).
    rewrite C in I. apply elem_of_app in I as [I|I].
    + apply sorted_mid in So as (_ & L & _). apply L in I. lia.
    + apply list_elem_of_singleton in I. by injection I as -> ->.
  - exists (tick s1). split; [|etransitivity; [exact Q|apply quiet_tick]].
    pose proof (ls_wf _ _ _ (quiet_state n del s s1 Q S)) as W1. pose proof Q as (Qd & _).
    unfold now_ms. cbn [rust_bind fst snd]. fold (tick s1).
    rewrite (scan_contents (tick s1) (hlc_word s1) del _ (fun _ pv => Some pv)); [|done|].
    + rewrite fold_last. cbn [db tick]. rewrite Qd, C, last_snoc. done.
    + intros a k b I. destruct (live_pair_eq (db s1) _ del (wall (ticks s1)) k b W1 I) as [-> _].
      cbn [rust_bind]. by destruct (pair_of del (k, b)).
Qed.

Definition values (del : Z) (s : Shard DB) : list bytes := map snd (contents (db s) del).

Lemma hint_wrote s s' : pop_hints s' = pop_hints s -> hint_of s' = hint_of s.
Proof. intros E. unfold hint_of. by rewrite E. Qed.

(** Only this list's element records change. *)
Definition list_only (d d' : DB) : Prop :=
  forall k, (forall pos, k <> list_elem_key key pos) -> kv_get d' k = kv_get d k.
#[local] Instance list_only_preorder : PreOrder list_only.
Proof. split; [by intros d k|]. intros a b c H1 H2 k N. by rewrite H2, H1. Qed.
Lemma wrote_only pos o del s s' : wrote pos o del s s' -> list_only (db s) (db s').
Proof. intros (_ & _ & F & _) k N. apply F, N. Qed.

Lemma empty_hint n del s : list_state n del s -> contents (db s) del = [] -> list_inv n del (with_hint s []).
Proof. intros S C. split; [by apply state_hint|]. unfold hint_ok. by rewrite hint_of_empty. Qed.
Lemma known_hint n del s h t : list_state n del s -> u64 h -> u64 t ->
  (forall p v, (p, v) ∈ contents (db s) del -> h <= p <= t) ->
  list_inv n del (with_hint s (be_bytes 8 h ++ be_bytes 8 t)).
Proof. intros S Hh Ht B. split; [by apply state_hint|]. unfold hint_ok. by rewrite hint_of_known. Qed.

Lemma do_pop_left n del s : list_inv (S n) del s -> exists s', 
  do_pop node_id wall key true del s = Ret (head (values del s), s') /\ list_inv n del s' /\
  contents (db s') del = tail (contents (db s) del) /\ list_only (db s) (db s').
Proof.
  intros I. destruct (list_range_eq (S n) del s I) as (r & s1 & E & Ed & I1 & R & _).
  unfold do_pop, mbind, M_bind, values. rewrite E. cbn [rust_bind fst snd]. destruct r as [[h t]|].
  2: { exists s1. split; [by rewrite R|]. rewrite Ed. split; [|by rewrite R].
       destruct I1 as [S1 H1]. split; [apply (state_weaken n (S n)); [lia|done]|done]. }
  destruct R as [(Hh & Ht & (v & rest & C) & B) _]. rewrite <- Ed in C, B.
  destruct (find_front_eq (S n) del s1 h v rest (proj1 I1) C) as (s2 & Ef & Q). rewrite Ef. cbn [rust_bind fst snd].
  assert (S2 : list_state (S n) del s2) by (eapply quiet_state; [exact Q|apply I1]). pose proof Q as (Qd & _).
  destruct (tombstone_elem_eq n del s2 h S2 Hh) as (s3 & Et & S3 & Wo). rewrite Et. cbn [rust_bind fst snd].
  assert (C3 : contents (db s3) del = rest).
  { apply (contents_remove (S n) n del s2 s3 h v [] rest); [done..|by rewrite Qd]. }
  assert (O : list_only (db s) (db s3)) by (rewrite <- Ed, <- Qd; by eapply wrote_only).
  pose proof (contents_sorted _ _ del (ls_wf _ _ _ (proj1 I1))) as So. rewrite C in So.
  apply (sorted_mid []) in So as (_ & _ & Gt). rewrite Ed in C. rewrite C. cbn [map head snd tail].
  destruct (t <=? h) eqn:Le; [apply Z.leb_le in Le|apply Z.leb_gt in Le].
  - rewrite set_empty_eq. exists (with_hint s3 []). split; [done|]. split; [|done]. apply empty_hint; [done|].
    rewrite C3. destruct rest as [|[q x] rest]; [done|]. exfalso.
    assert (h < q) by (eapply Gt; left). destruct (B q x); [rewrite Ed, C; set_solver|lia].
  - rewrite set_known_eq. eexists. split; [reflexivity|]. split; [|done].
    apply known_hint; [done| |done|]; [unfold u64, in_range in *; lia|]. rewrite C3. intros p x Ip.
    assert (h < p) by (by eapply Gt). destruct (B p x); [rewrite Ed, C; set_solver|lia].
Qed.

Lemma do_pop_right n del s : list_inv (S n) del s -> exists s', 
  do_pop node_id wall key false del s = Ret (last (values del s), s') /\ list_inv n del s' /\
  contents (db s') del = take (length (contents (db s) del) - 1) (contents (db s) del) /\ list_only (db s) (db s').
Proof.
  intros I. destruct (list_range_eq (S n) del s I) as (r & s1 & E & Ed & I1 & R & _).
  unfold do_pop, mbind, M_bind, values. rewrite E. cbn [rust_bind fst snd]. destruct r as [[h t]|].
  2: { exists s1. split; [by rewrite R|]. rewrite Ed. split; [|by rewrite R].
       destruct I1 as [S1 H1]. split; [apply (state_weaken n (S n)); [lia|done]|done]. }
  destruct R as [(Hh & Ht & (v & rest & C) & B) _].
  destruct (exists_last (l := contents (db s) del)) as (l & [p x] & Cl); [by rewrite C|].
  assert (Bp : h <= p <= t) by (apply (B p x); rewrite Cl; set_solver).
  destruct (find_back_eq (S n) del s1 t l p x (proj1 I1) Ht) as (s2 & Ef & Q); [by rewrite Ed|lia|].
  rewrite Ef. cbn [rust_bind fst snd].
  assert (S2 : list_state (S n) del s2) by (eapply quiet_state; [exact Q|apply I1]). pose proof Q as (Qd & _).
  assert (Hp : u64 p) by (apply (contents_u64 (S n) del s p x); [apply I|rewrite Cl; set_solver]).
  destruct (tombstone_elem_eq n del s2 p S2 Hp) as (s3 & Et & S3 & Wo). rewrite Et. cbn [rust_bind fst snd].
  assert (C3 : contents (db s3) del = l).
  { rewrite <- (app_nil_r l). apply (contents_remove (S n) n del s2 s3 p x l []); [done..|by rewrite Qd, Ed]. }
  assert (O : list_only (db s) (db s3)) by (rewrite <- Ed, <- Qd; by eapply wrote_only).
  pose proof (contents_sorted _ _ del (ls_wf _ _ _ (proj1 I))) as So. rewrite Cl in So.
  apply sorted_mid in So as (_ & Lt & _).
  assert (T : take (length (contents (db s) del) - 1) (contents (db s) del) = l).
  { rewrite Cl, length_app. replace (length l + length [(p, x)] - 1)%nat with (length l) by (simpl; lia).
    apply take_app_length. }
  assert (V : last (map snd (contents (db s) del)) = Some x) by (rewrite Cl, map_app; apply last_snoc).
  rewrite V, T. destruct (p <=? h) eqn:Le; [apply Z.leb_le in Le|apply Z.leb_gt in Le].
  - rewrite set_empty_eq. exists (with_hint s3 []). split; [done|]. split; [|done]. apply empty_hint; [done|].
    rewrite C3. destruct l as [|[q y] l]; [done|]. exfalso.
    assert (q < p) by (eapply Lt; left). destruct (B q y); [rewrite Cl; set_solver|lia].
  - rewrite set_known_eq. eexists. split; [reflexivity|]. split; [|done].
    apply known_hint; [done|done| |]; [unfold u64, in_range in *; lia|]. rewrite C3. intros q y Iq.
    assert (q < p) by (by eapply Lt). destruct (B q y); [rewrite Cl; set_solver|lia].
Qed.

(** ** Rebuilding *)

Lemma list_pos_nth_spec i : 0 <= i < 2 ^ 50 -> list_pos_nth i node_id = 2 ^ 63 + i * 1024 + node_id.
Proof.
  intros Hi. unfold list_pos_nth, LIST_CENTER, LIST_POS_STRIDE, wrap. change (Z.shiftl 1 63) with (2 ^ 63).
  rewrite (Z.mod_small (i * 1024)) by lia. rewrite Z.mod_small by lia.
  rewrite list_pos_in_slot_spec by (done || unfold u64, in_range; lia).
  replace ((2 ^ 63 + i * 1024) mod 1024) with 0; [lia|].
  replace (2 ^ 63 + i * 1024) with (0 + (2 ^ 53 + i) * 1024) by lia. by rewrite Z_mod_plus_full.
Qed.

Lemma nth_u64 i : 0 <= i < 2 ^ 50 -> u64 (list_pos_nth i node_id).
Proof.
  intros Hi. rewrite list_pos_nth_spec by done.
  unfold u64, in_range, node_ok, LIST_NODE_ID_MAX, LIST_POS_STRIDE in *. lia.
Qed.

(** A sequence written from the centre. *)
Fixpoint placed (i : Z) (vs : list bytes) : list (Z * bytes) :=
  match vs with
  | [] => []
  | v :: vs => (list_pos_nth i node_id, v) :: placed (i + 1) vs
  end.
Lemma placed_values vs : forall i, map snd (placed i vs) = vs.
Proof. induction vs as [|v vs IH]; intros i; [done|]. simpl. by rewrite IH. Qed.
Lemma placed_bounds vs : forall i p x, 0 <= i -> i + Z.of_nat (length vs) < 2 ^ 50 -> (p, x) ∈ placed i vs ->
  list_pos_nth i node_id <= p <= list_pos_nth (i + Z.of_nat (length vs) - 1) node_id.
Proof.
  induction vs as [|v vs IH]; intros i p x Hi0 Hi1 I; simpl in I; [by apply not_elem_of_nil in I|]. simpl length in *.
  rewrite !list_pos_nth_spec by lia. apply elem_of_cons in I as [[= -> ->]|I].
  - rewrite list_pos_nth_spec by lia. lia.
  - apply IH in I; [|lia..]. rewrite !list_pos_nth_spec in I; [lia| |lia].
    destruct vs; simpl in *; [lia|lia].
Qed.

Lemma tombstone_all_eq l : forall n del s, list_state (length l + n) del s -> contents (db s) del = l ->
  exists s', tombstone_all node_id wall key l s = Ret (tt, s') /\ list_state n del s' /\
    contents (db s') del = [] /\ pop_hints s' = pop_hints s /\ list_only (db s) (db s').
Proof.
  induction l as [|[p v] l IH]; intros n del s S C; [by exists s|].
  cbn [tombstone_all]. unfold mbind, M_bind.
  assert (Hp : u64 p) by (apply (contents_u64 _ del s p v S); rewrite C; left).
  destruct (tombstone_elem_eq (length l + n) del s p S Hp) as (s1 & E & S1 & Wo). rewrite E. cbn [rust_bind fst snd].
  destruct (IH n del s1 S1) as (s' & E' & S' & C' & Eh & O).
  { exact (contents_remove _ _ del s s1 p v [] l S S1 Wo C). }
  exists s'. split; [done|]. split; [done|]. split; [done|].
  split; [rewrite Eh; apply Wo|]. etransitivity; [by eapply wrote_only|done].
Qed.

Lemma write_nth_eq vs : forall n del s i, list_state (length vs + n) del s -> 0 <= i -> i + Z.of_nat (length vs) < 2 ^ 50 ->
  (forall p x, (p, x) ∈ contents (db s) del -> p < list_pos_nth i node_id) ->
  exists s', write_nth node_id wall key i vs s = Ret (tt, s') /\ list_state n del s' /\
    contents (db s') del = contents (db s) del ++ placed i vs /\ pop_hints s' = pop_hints s /\ list_only (db s) (db s').
Proof.
  induction vs as [|v vs IH]; intros n del s i S Hi0 Hi1 L; [exists s; simpl; by rewrite app_nil_r|].
  cbn [write_nth placed]. unfold mbind, M_bind. simpl length in Hi1.
  assert (Hp : u64 (list_pos_nth i node_id)) by (apply nth_u64; lia).
  destruct (write_elem_eq (length vs + n) del s _ v S Hp) as (s1 & E & S1 & Wo). rewrite E. cbn [rust_bind fst snd].
  pose proof (contents_append _ _ del s s1 _ v S S1 Hp Wo L) as C1.
  destruct (IH n del s1 (i + 1) S1) as (s' & E' & S' & C' & Eh & O); [lia|lia| |].
  { rewrite C1. intros p x I. apply elem_of_app in I as [I|I].
    - apply L in I. rewrite list_pos_nth_spec in * by lia. lia.
    - apply list_elem_of_singleton in I. injection I as -> ->. rewrite !list_pos_nth_spec by lia. lia. }
  exists s'. split; [done|]. split; [done|]. split; [by rewrite C', C1, <- app_assoc|].
  split; [rewrite Eh; apply Wo|]. etransitivity; [by eapply wrote_only|done].
Qed.

Lemma rebuild_eq n del s repl : let new := default (values del s) repl in
  list_state (length (contents (db s) del) + (length new + n)) del s -> Z.of_nat (length new) < 2 ^ 50 ->
  exists s', rebuild node_id wall key del repl s = Ret (tt, s') /\ list_inv n del s' /\
    contents (db s') del = placed 0 new /\ list_only (db s) (db s') /\
    (new <> [] -> hint_of s' = HKnown (list_pos_nth 0 node_id) (list_pos_nth (Z.of_nat (length new) - 1) node_id)).
Proof.
  intros new S B. unfold rebuild, mbind, M_bind. rewrite (live_pairs_eq s (hlc_word s) del (ls_wf _ _ _ S)).
  cbn [rust_bind fst snd]. fold (values del s). fold new.
  destruct (tombstone_all_eq (contents (db s) del) (length new + n) del (tick s)) as (s1 & E1 & S1 & C1 & Eh1 & O1);
    [by eapply quiet_state; [apply quiet_tick|]|done|].
  rewrite E1. cbn [rust_bind fst snd].
  destruct new as [|v0 vs] eqn:En.
  - rewrite set_empty_eq. eexists. split; [reflexivity|]. split; [by apply empty_hint|]. split; [done|]. split; [done|done].
  - destruct (write_nth_eq (v0 :: vs) n del s1 0 S1) as (s2 & E2 & S2 & C2 & Eh2 & O2); [lia|lia|rewrite C1; set_solver|].
    rewrite E2. cbn [rust_bind fst snd]. rewrite set_known_eq. rewrite C1 in C2. cbn [app] in C2.
    eexists. split; [reflexivity|].
    assert (U0 : u64 (list_pos_nth 0 node_id)) by (apply nth_u64; lia).
    assert (U1 : u64 (list_pos_nth (Z.of_nat (length (v0 :: vs)) - 1) node_id)) by (apply nth_u64; simpl in *; lia).
    split; [|split; [exact C2|split; [etransitivity; [exact O1|exact O2]|intros _; by apply hint_of_known]]].
    apply known_hint; [done..|]. rewrite C2. intros p x I. apply (placed_bounds (v0 :: vs) 0 p x) in I; [|lia..].
    by rewrite Z.add_0_l in I.
Qed.

(** ** Pushing *)

(** There are slots for [k] more pushes on that side. *)
Definition fits (left : bool) (k : Z) (r : option (Z * Z)) : Prop :=
  match r with
  | None => True
  | Some (h, t) =>
      if left then 1024 * (k + 1) <= h - h mod 1024 else t - t mod 1024 + 1024 * (k + 1) <= 2 ^ 64 - 1024
  end.
Definition tracks (l : list (Z * bytes)) (r : option (Z * Z)) : Prop :=
  match r with None => l = [] | Some (h, t) => range_ok l h t end.
(** The abstract push. *)
Definition pushed (left : bool) (vs l : list bytes) : list bytes := if left then rev vs ++ l else l ++ vs.

Lemma node_mod a : (a * 1024 + node_id) mod 1024 = node_id.
Proof.
  rewrite Z.add_comm, Z_mod_plus_full. apply Z.mod_small.
  unfold node_ok, LIST_NODE_ID_MAX, LIST_POS_STRIDE in *. lia.
Qed.

(** One element pushed outside the range. *)
Lemma push_one n del s v left k r : list_state (S n) del s -> tracks (contents (db s) del) r -> fits left k r ->
  1 <= k < 2 ^ 50 ->
  let pos := match r with
    | None => list_pos_in_slot LIST_CENTER node_id
    | Some (h, t) => if left then list_pos_before h node_id else list_pos_after t node_id
    end in
  let r' := Some (match r with None => (pos, pos) | Some (h, t) => if left then (pos, t) else (h, pos) end) in
  exists s', write_elem node_id wall key pos v s = Ret (tt, s') /\ list_state n del s' /\
    pop_hints s' = pop_hints s /\ list_only (db s) (db s') /\
    tracks (contents (db s') del) r' /\ fits left (k - 1) r' /\ values del s' = pushed left [v] (values del s).
Proof.
  intros S T Fi Hk pos r'. pose proof node_range as Nr. unfold node_ok, LIST_NODE_ID_MAX, LIST_POS_STRIDE in Nr.
  destruct r as [[h t]|]; cbn [tracks fits] in *.
  - destruct T as (Hh & Ht & (v0 & rest & C) & B). destruct left.
    + pose proof (Z.div_mod h 1024 ltac:(lia)) as Dh. pose proof (Z.mod_pos_bound h 1024 ltac:(lia)) as Mh.
      assert (Ep : pos = (h / 1024 - 1) * 1024 + node_id).
      { unfold pos. rewrite list_pos_before_spec by (done || lia). lia. }
      assert (Hp : u64 pos) by (unfold u64, in_range in *; lia).
      destruct (write_elem_eq n del s pos v S Hp) as (s1 & E & S1 & Wo). exists s1.
      assert (C1 : contents (db s1) del = (pos, v) :: contents (db s) del).
      { apply (contents_prepend _ _ del s s1 pos v S S1 Hp Wo). intros q x I. apply B in I. lia. }
      split; [done|]. split; [done|]. split; [apply Wo|]. split; [by eapply wrote_only|]. split; [|split].
      * split; [done|]. split; [done|]. split; [eauto|]. rewrite C1. intros q x I.
        assert (h <= t) by (destruct (B h v0); [rewrite C; left|lia]).
        apply elem_of_cons in I as [[= -> ->]|I]; [lia|]. apply B in I. lia.
      * cbn [fits r']. rewrite Ep at 2. rewrite node_mod. lia.
      * unfold values. by rewrite C1.
    + pose proof (Z.div_mod t 1024 ltac:(lia)) as Dt. pose proof (Z.mod_pos_bound t 1024 ltac:(lia)) as Mt.
      assert (Ep : pos = (t / 1024 + 1) * 1024 + node_id).
      { unfold pos. rewrite list_pos_after_spec by (done || lia). lia. }
      assert (Hp : u64 pos) by (unfold u64, in_range in *; lia).
      destruct (write_elem_eq n del s pos v S Hp) as (s1 & E & S1 & Wo). exists s1.
      assert (C1 : contents (db s1) del = contents (db s) del ++ [(pos, v)]).
      { apply (contents_append _ _ del s s1 pos v S S1 Hp Wo). intros q x I. apply B in I. lia. }
      split; [done|]. split; [done|]. split; [apply Wo|]. split; [by eapply wrote_only|]. split; [|split].
      * split; [done|]. split; [done|]. split; [rewrite C1, C; simpl; eauto|]. rewrite C1. intros q x I.
        assert (h <= t) by (destruct (B h v0); [rewrite C; left|lia]).
        apply elem_of_app in I as [I|I]; [apply B in I; lia|]. apply list_elem_of_singleton in I. injection I as -> ->. lia.
      * cbn [fits r']. rewrite Ep at 2. rewrite node_mod. lia.
      * unfold values, pushed. by rewrite C1, map_app.
  - assert (Ep : pos = 2 ^ 53 * 1024 + node_id).
    { unfold pos. rewrite list_pos_in_slot_spec by (done || (unfold u64, in_range, LIST_CENTER; simpl; lia)). reflexivity. }
    assert (Hp : u64 pos) by (unfold u64, in_range; lia).
    destruct (write_elem_eq n del s pos v S Hp) as (s1 & E & S1 & Wo). exists s1.
    assert (C1 : contents (db s1) del = [(pos, v)]).
    { rewrite (contents_append _ _ del s s1 pos v S S1 Hp Wo); rewrite T; [done|set_solver]. }
    split; [done|]. split; [done|]. split; [apply Wo|]. split; [by eapply wrote_only|]. split; [|split].
    + split; [done|]. split; [done|]. rewrite C1. split; [eauto|]. intros q x I. apply list_elem_of_singleton in I.
      injection I as -> ->. lia.
    + unfold fits, r'. rewrite Ep, node_mod. destruct left; lia.
    + unfold values, pushed. rewrite C1, T. by destruct left.
Qed.

Lemma push_loop_eq left vs : forall n del s r, list_state (length vs + n) del s ->
  tracks (contents (db s) del) r -> fits left (Z.of_nat (length vs)) r -> Z.of_nat (length vs) < 2 ^ 50 ->
  exists r' s', push_loop node_id wall key left r vs s = Ret (r', s') /\ list_state n del s' /\
    pop_hints s' = pop_hints s /\ list_only (db s) (db s') /\
    tracks (contents (db s') del) r' /\ values del s' = pushed left vs (values del s).
Proof.
  induction vs as [|v vs IH]; intros n del s r St T Fi B.
  - exists r, s. repeat split; try done; try apply St. unfold pushed. destruct left; [done|by rewrite app_nil_r].
  - cbn [push_loop]. unfold mbind, M_bind. simpl length in *.
    destruct (push_one (length vs + n) del s v left (Z.of_nat (S (length vs))) r) as (s1 & E & S1 & Eh & O & T1 & F1 & V1);
      [done..|lia|].
    rewrite E. cbn [rust_bind fst snd].
    destruct (IH n del s1 _ S1 T1) as (r' & s' & E' & S' & Eh' & O' & T' & V'); [|lia|].
    { by replace (Z.of_nat (length vs)) with (Z.of_nat (S (length vs)) - 1) by lia. }
    exists r', s'. split; [done|]. split; [done|]. split; [congruence|]. split; [by etransitivity|]. split; [done|].
    rewrite V', V1. unfold pushed. destruct left; simpl; by rewrite <- app_assoc.
Qed.

(** The part of a push after the renumbering check. *)
Definition push_from (left : bool) (vs : list bytes) (r : option (Z * Z)) : M DB Z :=
  r ← push_loop node_id wall key left r vs;
  match r with
  | None => mret 0
  | Some (h, t) =>
      _ ← set_known key h t;
      mret (to_signed 64 (wrap 64 (wrap 64 (list_slot_base t - list_slot_base h) / LIST_POS_STRIDE + 1)))
  end.
Definition push_rest (left : bool) (vs : list bytes) (del : Z) : M DB Z :=
  r ← list_range wall key del; push_from left vs r.

Lemma push_from_eq n del s r left vs : list_state (length vs + n) del s -> hint_ok del s ->
  tracks (contents (db s) del) r -> fits left (Z.of_nat (length vs)) r -> Z.of_nat (length vs) < 2 ^ 50 ->
  exists k s', push_from left vs r s = Ret (k, s') /\ list_inv n del s' /\ list_only (db s) (db s') /\
    values del s' = pushed left vs (values del s).
Proof.
  intros St Ho T Fi B. destruct (push_loop_eq left vs n del s r St T Fi B) as (r' & s1 & E & S1 & Eh & O & T1 & V).
  unfold push_from, mbind, M_bind. rewrite E. cbn [rust_bind fst snd]. destruct r' as [[h t]|].
  - rewrite set_known_eq. eexists _, _. split; [reflexivity|].
    split; [|by split]. by apply (range_hint n del s1 h t S1).
  - exists 0, s1. split; [done|]. split; [|by split]. split; [done|].
    unfold hint_ok in *. rewrite (hint_wrote s s1 Eh). simpl in T1. destruct (hint_of s) as [|h t|]; [done| |done].
    destruct Ho as (Hh & Ht & _). rewrite T1. split; [done|]. split; [done|]. set_solver.
Qed.

Lemma push_rest_eq n del s left vs : list_inv (length vs + n) del s -> Z.of_nat (length vs) < 2 ^ 50 ->
  (forall r s', list_range wall key del s = Ret (r, s') -> tracks (contents (db s) del) r ->
     fits left (Z.of_nat (length vs)) r) ->
  exists k s', push_rest left vs del s = Ret (k, s') /\ list_inv n del s' /\ list_only (db s) (db s') /\
    values del s' = pushed left vs (values del s).
Proof.
  intros I B F. destruct (list_range_eq _ del s I) as (r & s1 & E & Ed & I1 & R & _).
  assert (T : tracks (contents (db s) del) r) by (destruct r as [[h t]|]; [apply R|exact R]).
  destruct (push_from_eq n del s1 r left vs) as (k & s' & E' & I' & O' & V');
    [apply I1..|by rewrite Ed|by eapply F|done|].
  exists k, s'. unfold push_rest, mbind, M_bind. rewrite E. cbn [rust_bind fst snd]. split; [exact E'|].
  split; [done|]. rewrite <- Ed. split; [done|]. rewrite V'. unfold values. by rewrite Ed.
Qed.

Lemma fits_margin left (vs : list bytes) h t : u64 h -> u64 t -> Z.of_nat (length vs) < 2 ^ 50 ->
  let margin := wrap 64 (Z.of_nat (length vs) * LIST_POS_STRIDE + LIST_POS_STRIDE) in
  (left && (h <? margin)) || (negb left && (2 ^ 64 - 1 - margin <? t)) = false ->
  fits left (Z.of_nat (length vs)) (Some (h, t)).
Proof.
  intros Hh Ht B margin E. unfold u64, in_range in *.
  assert (Em : margin = (Z.of_nat (length vs) + 1) * 1024).
  { unfold margin, wrap, LIST_POS_STRIDE. rewrite Z.mod_small by lia. lia. }
  rewrite Em in E. clear margin Em. cbn [fits].
  pose proof (Z.div_mod h 1024 ltac:(lia)). pose proof (Z.div_mod t 1024 ltac:(lia)).
  pose proof (Z.mod_pos_bound h 1024 ltac:(lia)). pose proof (Z.mod_pos_bound t 1024 ltac:(lia)).
  destruct left; cbn [andb orb negb] in E; rewrite ?orb_false_r in E; apply Z.ltb_ge in E; lia.
Qed.

Lemma fits_rebuilt left (vs l : list bytes) : l <> [] -> Z.of_nat (length l + length vs) < 2 ^ 50 ->
  fits left (Z.of_nat (length vs)) (Some (list_pos_nth 0 node_id, list_pos_nth (Z.of_nat (length l) - 1) node_id)).
Proof.
  intros N B. assert (0 < length l)%nat by (destruct l; [done|simpl; lia]).
  pose proof node_range as Nr. unfold node_ok, LIST_NODE_ID_MAX, LIST_POS_STRIDE in Nr.
  cbn [fits]. rewrite !list_pos_nth_spec by lia.
  replace (2 ^ 63 + 0 * 1024 + node_id) with (2 ^ 53 * 1024 + node_id) by lia.
  replace (2 ^ 63 + (Z.of_nat (length l) - 1) * 1024 + node_id)
    with ((2 ^ 53 + (Z.of_nat (length l) - 1)) * 1024 + node_id) by lia.
  rewrite !node_mod. destruct left; lia.
Qed.

Lemma inv_weaken n m del s : (n <= m)%nat -> list_inv m del s -> list_inv n del s.
Proof. intros L [St O]. split; [by eapply state_weaken|done]. Qed.

Lemma do_push_eq n del s vs left : let l := values del s in
  list_inv (length l + (length l + (length vs + n))) del s -> Z.of_nat (length l + length vs) < 2 ^ 50 ->
  exists k s', do_push node_id wall key vs left del s = Ret (k, s') /\ list_inv n del s' /\
    list_only (db s) (db s') /\ values del s' = pushed left vs l.
Proof.
  intros l I B. destruct (list_range_eq _ del s I) as (r & s1 & E & Ed & I1 & R & _).
  assert (V1 : values del s1 = l) by (unfold l, values; by rewrite Ed).
  assert (Ll : length (contents (db s) del) = length l) by (unfold l, values; by rewrite length_map).
  unfold do_push, mbind, M_bind. rewrite E. cbn [rust_bind fst snd].
  change (exists k s', rust_bind (match r with
      | Some (h, t) =>
          let margin := wrap 64 (Z.of_nat (length vs) * LIST_POS_STRIDE + LIST_POS_STRIDE) in
          if (left && (h <? margin)) || (negb left && (2 ^ 64 - 1 - margin <? t))
          then rebuild node_id wall key del None else mret tt
      | None => mret tt
      end s1) (fun xs => push_rest left vs del xs.2) = Ret (k, s') /\ list_inv n del s' /\
    list_only (db s) (db s') /\ values del s' = pushed left vs l).
  rewrite <- Ed, <- V1.
  assert (I1' : list_inv (length vs + n) del s1) by (eapply inv_weaken; [|exact I1]; lia).
  destruct r as [[h t]|].
  - destruct R as [(Hh & Ht & (v & rest & C) & Bd) Eh]. cbv zeta. rewrite <- Ed in C.
    destruct ((left && _) || _) eqn:Em.
    + destruct (rebuild_eq (length vs + n) del s1 None) as (s2 & E2 & I2 & C2 & O2 & H2);
        [cbn [default]; rewrite V1, Ed, Ll; apply I1|cbn [default]; rewrite V1; lia|].
      cbn [default] in C2, H2. rewrite E2. cbn [rust_bind fst snd].
      assert (V2 : values del s2 = values del s1) by (unfold values at 1; by rewrite C2, placed_values).
      destruct (push_rest_eq n del s2 left vs I2) as (k & s' & E' & I' & O' & V'); [lia| |].
      2: { exists k, s'. split; [done|]. split; [done|]. split; [by etransitivity|]. by rewrite V', V2. }
      intros r s3 E3 T3. destruct (list_range_eq _ del s2 I2) as (r2 & s3' & E3' & _ & _ & _ & K).
      rewrite E3 in E3'. injection E3' as <- <-.
      assert (N : values del s1 <> []) by (unfold values; by rewrite C).
      destruct (values del s1) as [|l0 l'] eqn:El; [done|].
      rewrite (K _ _ l0 (placed 1 l') (H2 N) C2). apply fits_rebuilt; [done|]. by rewrite V1.
    + apply push_rest_eq; [exact I1'|lia|]. intros r s3 E3 T3.
      destruct (list_range_eq _ del s1 I1) as (r2 & s3' & E3' & _ & _ & _ & K).
      rewrite E3 in E3'. injection E3' as <- <-. rewrite (K h t v rest Eh C).
      apply fits_margin; [done|done|lia|exact Em].
  - apply push_rest_eq; [exact I1'|lia|]. intros [[h t]|] s3 E3 T3; [|done]. exfalso.
    rewrite Ed, R in T3. by destruct T3 as (_ & _ & (v & rest & [=]) & _).
Qed.
End laws.
