(* ===== verification/ListRefine.v ===== *)
(** * List commands refine a sequence

    [lstep] is the abstract specification of the list commands on one key: a
    relation between the sequence of values before, the reply and the sequence
    after. The handlers of [ListCmd] implement it, whatever the ranges cached,
    the renumberings made and the tombstones left behind. *)

From Stdlib Require Import String.
From S2P Require Import Prelude Partition Hlc Envelope Ikey Counter Lattice Merge MergeLaws Store Resp Reply ListCmd ListLaws.

(** ** The abstract list *)

Inductive lop :=
  | OPush (left xx : bool) (vs : list bytes)
  | OPop (left : bool) (count : option Z)
  | OLen
  | ORange (start stop : Z)
  | OIndex (index : Z)
  | OSet (index : Z) (value : bytes)
  | ORem (count : Z) (value : bytes)
  | OTrim (start stop : Z)
  | OInsert (before : bool) (pivot value : bytes)
  | ORotate (from_left to_left : bool).

(** A signed index, from either end. *)
Definition at_index {A} (i : Z) (l : list A) : Z := if i <? 0 then i + Z.of_nat (length l) else i.
Definition range_ref {A} (start stop : Z) (l : list A) : list A :=
  let s := Z.max 0 (at_index start l) in
  take (Z.to_nat (at_index stop l + 1 - s)) (drop (Z.to_nat s) l).
Definition index_ref (i : Z) (l : list bytes) : option bytes :=
  if at_index i l <? 0 then None else l !! Z.to_nat (at_index i l).
(** The list without its first [k] occurrences of [v]. *)
Fixpoint remove_occ (k : nat) (v : bytes) (l : list bytes) : list bytes :=
  match l with
  | [] => []
  | x :: l =>
      match k with
      | O => x :: l
      | S k' => if bytes_eqb x v then remove_occ k' v l else x :: remove_occ k v l
      end
  end.
Definition rem_ref (count : Z) (v : bytes) (l : list bytes) : list bytes :=
  if count =? 0 then List.filter (fun x => negb (bytes_eqb x v)) l
  else if 0 <? count then remove_occ (Z.to_nat count) v l
  else rev (remove_occ (Z.to_nat (- count)) v (rev l)).
Definition popped_ref (left : bool) (n : nat) (l : list bytes) : list bytes := take n (if left then l else rev l).
Definition left_ref (left : bool) (n : nat) (l : list bytes) : list bytes :=
  if left then drop n l else take (length l - n) l.

Definition lstep (o : lop) (l : list bytes) (r : Reply) (l' : list bytes) : Prop :=
  match o with
  | OPush lf xx vs =>
      if xx && bool_decide (l = []) then r = RInt 0 /\ l' = l
      else (exists k, r = RInt k) /\ l' = if lf then rev vs ++ l else l ++ vs
  | OPop lf None => r = bulk_or_null (popped_ref lf 1 l !! O) /\ l' = left_ref lf 1 l
  | OPop lf (Some n) =>
      if bool_decide (l = []) then r = RNullArray /\ l' = []
      else r = RArray (map RBulk (popped_ref lf (Z.to_nat n) l)) /\ l' = left_ref lf (Z.to_nat n) l
  | OLen => r = RInt (Z.of_nat (length l)) /\ l' = l
  | ORange start stop => r = RArray (map RBulk (range_ref start stop l)) /\ l' = l
  | OIndex i => r = bulk_or_null (index_ref i l) /\ l' = l
  | OSet i v =>
      if bool_decide (l = []) then r = RErr (str "ERR no such key") /\ l' = l
      else match index_ref i l with
           | None => r = RErr (str "ERR index out of range") /\ l' = l
           | Some _ => r = ok /\ l' = <[Z.to_nat (at_index i l) := v]> l
           end
  | ORem c v => r = RInt (Z.of_nat (length l - length (rem_ref c v l))) /\ l' = rem_ref c v l
  | OTrim start stop => r = ok /\ l' = range_ref start stop l
  | OInsert before pivot v =>
      (l = [] /\ r = RInt 0 /\ l' = []) \/
      (l <> [] /\ pivot ∉ l /\ r = RInt (-1) /\ l' = l) \/
      (exists a b, l = a ++ pivot :: b /\ pivot ∉ a /\ r = RInt (Z.of_nat (length l) + 1) /\
         l' = a ++ (if before then [v; pivot] else [pivot; v]) ++ b)
  | ORotate from_left to_left =>
      match popped_ref from_left 1 l !! O with
      | None => r = RNull /\ l' = []
      | Some v => r = RBulk v /\ l' = let m := left_ref from_left 1 l in if to_left then v :: m else m ++ [v]
      end
  end.

(** The elements an operation may add. *)
Definition adds (o : lop) : nat :=
  match o with OPush _ _ vs => length vs | OInsert _ _ _ => 1 | _ => 0 end.

Section handlers.
Context {DB : Type} `{!KV DB} (key : bytes) (node_id : Z) (wall : nat -> Z) (reply_size : Z).

(** The handler of each operation. *)
Definition run_lop (o : lop) : M DB Reply :=
  match o with
  | OPush lf xx vs => push node_id wall key vs lf xx
  | OPop lf count => pop node_id wall reply_size key count lf
  | OLen => llen wall key
  | ORange start stop => lrange wall key start stop
  | OIndex i => lindex wall key i
  | OSet i v => lset node_id wall key i v
  | ORem c v => lrem node_id wall key c v
  | OTrim start stop => ltrim node_id wall key start stop
  | OInsert before pivot v => linsert node_id wall key before pivot v
  | ORotate from_left to_left => rotate node_id wall key from_left to_left
  end.
Fixpoint run_lops (os : list lop) : M DB (list Reply) :=
  match os with
  | [] => mret []
  | o :: os => r ← run_lop o; rs ← run_lops os; mret (r :: rs)
  end.
End handlers.

(** ** Pure parts *)

Lemma range_ref_clamp start stop (l : list bytes) :
  match clamp_range start stop (Z.of_nat (length l)) with None => [] | Some (s, e) => sub s e l end = range_ref start stop l.
Proof.
  unfold clamp_range, range_ref, sub, at_index, norm_index. destruct (Z.of_nat (length l) =? 0) eqn:E0.
  - apply Z.eqb_eq in E0. destruct l; [|discriminate]. by rewrite drop_nil, take_nil.
  - apply Z.eqb_neq in E0. set (n := Z.of_nat (length l)) in *.
    set (a := if start <? 0 then start + n else start). set (b := if stop <? 0 then stop + n else stop).
    destruct ((_ <? _) || _) eqn:E.
    + destruct (decide (n <= Z.max 0 a)) as [Ge|Lt].
      * rewrite drop_ge by lia. by rewrite take_nil.
      * replace (Z.to_nat (b + 1 - Z.max 0 a)) with O by lia. done.
    + apply orb_false_iff in E as [E1 E2]. apply Z.ltb_ge in E1. apply Z.leb_gt in E2.
      rewrite (Z.max_comm a 0) in *. destruct (decide (b <= n - 1)).
      * by replace (Z.min b (n - 1) + 1 - Z.max 0 a) with (b + 1 - Z.max 0 a) by lia.
      * rewrite !take_ge; [done| |]; rewrite length_drop; lia.
Qed.

(** The bounded walk of [LRANGE] and [LINDEX] sees enough. *)
Lemma range_ref_bounded start stop (l : list bytes) : 0 <= start <= stop ->
  let bounded := take (Z.to_nat (stop + 1)) l in
  let len := Z.of_nat (length bounded) in
  (if Z.min (stop + 1) len <=? Z.min start len then [] else sub (Z.min start len) (Z.min (stop + 1) len) bounded) =
  range_ref start stop l.
Proof.
  intros B. cbn zeta. unfold range_ref, at_index, sub. rewrite !(proj2 (Z.ltb_ge _ 0)) by lia.
  rewrite length_take. destruct (_ <=? _) eqn:E; [apply Z.leb_le in E|apply Z.leb_gt in E].
  - rewrite drop_ge by lia. by rewrite take_nil.
  - rewrite (Z.max_r 0 start) by lia. rewrite (Z.min_l start) by lia.
    destruct (decide (Z.to_nat (stop + 1) <= length l)%nat).
    + rewrite Z.min_l by lia. rewrite skipn_firstn_comm, take_take. f_equal. lia.
    + rewrite Z.min_r by lia. rewrite (take_ge l) by lia. rewrite !take_ge; [done| |]; rewrite length_drop; lia.
Qed.

Lemma index_ref_bounded i (l : list bytes) : 0 <= i -> take (Z.to_nat (i + 1)) l !! Z.to_nat i = index_ref i l.
Proof.
  intros Hi. unfold index_ref, at_index. rewrite (proj2 (Z.ltb_ge i 0)) by lia.
  rewrite (proj2 (Z.ltb_ge i 0)) by lia. apply lookup_take_lt. lia.
Qed.

Lemma lrem_loop_occ v limit l : forall removed, 0 <= removed <= limit ->
  let kept := remove_occ (Z.to_nat (limit - removed)) v l in
  lrem_loop v limit removed l = (removed + Z.of_nat (length l - length kept), kept) /\ (length kept <= length l)%nat.
Proof.
  induction l as [|x l IH]; intros removed B; cbn zeta; [simpl; split; [f_equal; lia|lia]|].
  cbn [lrem_loop remove_occ]. destruct (removed <? limit) eqn:E; [apply Z.ltb_lt in E|apply Z.ltb_ge in E].
  - replace (Z.to_nat (limit - removed)) with (S (Z.to_nat (limit - (removed + 1)))) by lia. cbn [andb].
    destruct (bytes_eqb x v).
    + destruct (IH (removed + 1)) as [-> L]; [lia|]. simpl length. split; [f_equal; lia|lia].
    + destruct (IH removed) as [E' L]; [lia|].
      replace (Z.to_nat (limit - removed)) with (S (Z.to_nat (limit - (removed + 1)))) in * by lia.
      rewrite E'. simpl length. split; [f_equal; lia|lia].
  - replace (Z.to_nat (limit - removed)) with O in * by lia. cbn [andb].
    destruct (IH removed) as [E' L]; [lia|]. replace (Z.to_nat (limit - removed)) with O in * by lia.
    assert (E0 : remove_occ 0 v l = l) by (by destruct l). rewrite E0 in *. rewrite E'. simpl length.
    split; [f_equal; lia|lia].
Qed.

Lemma remove_occ_all k v l : (length l <= k)%nat -> remove_occ k v l = List.filter (fun x => negb (bytes_eqb x v)) l.
Proof.
  revert k. induction l as [|x l IH]; intros k L; [done|]. simpl in L. destruct k as [|k]; [lia|].
  cbn [remove_occ List.filter]. destruct (bytes_eqb x v); cbn [negb]; [apply IH; lia|]. f_equal. apply IH. lia.
Qed.

(** The counting loops of [LREM]. *)
Lemma lrem_ref count v (l : list bytes) : Z.of_nat (length l) < 2 ^ 64 ->
  (if 0 <=? count then lrem_loop v (if count =? 0 then 2 ^ 64 - 1 else count) 0 l
   else let '(n, out) := lrem_loop v (- count) 0 (rev l) in (n, rev out)) =
  (Z.of_nat (length l - length (rem_ref count v l)), rem_ref count v l) /\ (length (rem_ref count v l) <= length l)%nat.
Proof.
  intros B. unfold rem_ref. destruct (0 <=? count) eqn:E; [apply Z.leb_le in E|apply Z.leb_gt in E].
  - destruct (count =? 0) eqn:E0; [|apply Z.eqb_neq in E0; rewrite (proj2 (Z.ltb_lt 0 count)) by lia].
    + destruct (lrem_loop_occ v (2 ^ 64 - 1) l 0) as [-> L]; [lia|]. rewrite remove_occ_all in * by lia. done.
    + destruct (lrem_loop_occ v count l 0) as [-> L]; [lia|]. rewrite Z.sub_0_r in *. done.
  - rewrite (proj2 (Z.eqb_neq count 0)), (proj2 (Z.ltb_ge 0 count)) by lia.
    destruct (lrem_loop_occ v (- count) (rev l) 0) as [-> L]; [lia|]. rewrite Z.sub_0_r in *.
    rewrite !length_rev in *. done.
Qed.

Lemma rem_ref_length count v (l : list bytes) : (length (rem_ref count v l) <= length l)%nat /\
  (length (rem_ref count v l) = length l -> rem_ref count v l = l).
Proof.
  assert (F : forall l, (length (List.filter (fun x => negb (bytes_eqb x v)) l) <= length l)%nat /\
    (length (List.filter (fun x => negb (bytes_eqb x v)) l) = length l -> List.filter (fun x => negb (bytes_eqb x v)) l = l)).
  { clear l. induction l as [|x l [L IH]]; [done|]. simpl. destruct (negb _); simpl; [|lia]. split; [lia|].
    intros E. f_equal. apply IH. lia. }
  assert (R : forall l k, (length (remove_occ k v l) <= length l)%nat /\
    (length (remove_occ k v l) = length l -> remove_occ k v l = l)).
  { clear l. induction l as [|x l IH]; intros k; [done|]. destruct k as [|k]; [done|]. simpl.
    destruct (IH k) as [L1 _], (IH (S k)) as [L2 E2]. destruct (bytes_eqb x v); simpl; [lia|]. split; [lia|].
    intros E. f_equal. apply E2. lia. }
  unfold rem_ref. destruct (count =? 0); [apply F|]. destruct (0 <? count); [apply R|].
  destruct (R (rev l) (Z.to_nat (- count))) as [Le Eq]. rewrite length_rev in *. split; [done|].
  intros E. by rewrite Eq, rev_involutive.
Qed.

Lemma position_of_spec pivot (l : list bytes) :
  match position_of pivot l with
  | None => pivot ∉ l
  | Some p => exists a b, l = a ++ pivot :: b /\ length a = p /\ pivot ∉ a
  end.
Proof.
  induction l as [|x l IH]; cbn [position_of]; [set_solver|]. destruct (bytes_eqb x pivot) eqn:E.
  - apply bool_decide_eq_true_1 in E as ->. exists [], l. set_solver.
  - apply bool_decide_eq_false_1 in E.
    destruct (position_of pivot l) as [p|]; cbn [fmap option_fmap option_map].
    + destruct IH as (a & b & -> & <- & Na). exists (x :: a), b. set_solver.
    + set_solver.
Qed.

(** ** Heads *)

Section refine.
Context {DB : Type} `{KVLaws DB}.
Context (key : bytes) (key_len : slice_len_ok key) (key_bytes : is_bytes key).
Context (node_id : Z) (wall : nat -> Z) (node_range : node_ok node_id) (walls : forall n, 0 <= wall n < 2 ^ 47).
Context (reply_size : Z).

(** No value of another type in the way. *)
Definition dead_at (d : DB) (k : bytes) : Prop := forall now,
  match kv_get d k ≫= Envelope_decode with
  | Some (e, _) => negb (is_tombstone e) && negb (is_expired e now)
  | None => false
  end = false.
(** The key is free, or a list with delete clock [del] and no deadline. *)
Definition typed (del : Z) (d : DB) : Prop :=
  dead_at d (string_key key) /\ dead_at d (list_key key) /\
  match kv_get d (head_key key) with
  | None => del = 0
  | Some v => exists env pay, Envelope_decode v = Some (env, pay) /\ head_decode pay = Some (CTYPE_LIST, del) /\
      is_tombstone env = false /\ ttl_deadline_ms env = 0
  end.

Lemma check_type_list del s : typed del (db s) -> exists s', check_type wall key CTYPE_LIST s = Ret (Some del, s') /\ quiet s s'.
Proof.
  intros (D1 & D2 & T). exists (tick s). split; [|apply quiet_tick].
  unfold check_type, record_live, get_head, get_raw, reads, now_ms, mbind, M_bind, mret, M_ret.
  change ((CTYPE_LIST =? 115) || (CTYPE_LIST =? 108)) with false. cbn [rust_bind fst snd db tick].
  pose proof (D1 (wall (ticks s))) as E1. pose proof (D2 (wall (ticks s))) as E2. unfold mbind in E1, E2.
  rewrite E1. cbn [rust_bind fst snd db]. rewrite E2. cbn [rust_bind fst snd db].
  destruct (kv_get (db s) (head_key key)) as [v|]; [|by rewrite T]. destruct T as (env & pay & E & Eh & Et & Ed).
  cbn [option_bind]. rewrite E, Eh. cbn [rust_bind]. unfold carried_del, is_expired. rewrite Et, Ed. simpl.
  by rewrite andb_false_r.
Qed.

Lemma typed_only del d d' : list_only key d d' -> typed del d -> typed del d'.
Proof.
  intros O (D1 & D2 & T).
  assert (N : forall k, k !! 2%nat <> Some (tag_u8 TListElem) -> kv_get d' k = kv_get d k).
  { intros k Ne. apply O. intros pos ->. by apply Ne. }
  split; [|split].
  - intros now. rewrite N by done. apply D1.
  - intros now. rewrite N by done. apply D2.
  - by rewrite N.
Qed.

(** Records of other kinds do not matter to the list. *)
Lemma wf_frame d d' w k : list_wf key d w -> is_bytes k -> starts_with k (hint_key key) = false ->
  Store.frame k d d' -> list_wf key d' w /\ (forall del, contents key d' del = contents key d del).
Proof.
  intros W Kb Ns F.
  assert (G : forall q, kv_get d' (list_elem_key key q) = kv_get d (list_elem_key key q)).
  { intros q. apply F. intros <-. by rewrite elem_key_starts in Ns. }
  assert (W' : list_wf key d' w).
  { constructor.
    - intros q v Gq. destruct (decide (q = k)) as [->|Ne]; [done|]. rewrite F in Gq by done. by eapply (lw_bytes _ _ _ W).
    - intros q v Gq P. destruct (decide (q = k)) as [->|Ne]; [congruence|]. rewrite F in Gq by done.
      by eapply (lw_keys _ _ _ W).
    - intros pos v Hp Gp. rewrite G in Gp. by eapply (lw_elem _ _ _ W). }
  split; [done|]. intros del. eapply contents_eq; [done..|by eapply contents_sorted|].
  intros pos v. rewrite (contents_spec key d w) by done. unfold elem_at. by rewrite G.
Qed.

Lemma head_not_elem : starts_with (head_key key) (hint_key key) = false.
Proof.
  apply not_true_iff_false. intros (s & E)%starts_with_spec. apply (f_equal (.!! 2%nat)) in E. discriminate.
Qed.

Lemma ensure_head_list n del s : typed del (db s) -> list_inv key (S n) del s -> exists d s',
  ensure_head node_id wall key CTYPE_LIST s = Ret (d, s') /\ typed del (db s') /\ list_inv key n del s' /\
  values key del s' = values key del s.
Proof.
  intros T I. pose proof T as (D1 & D2 & Th). unfold ensure_head, get_head, get_raw, reads, mbind, M_bind.
  cbn [rust_bind fst snd mret M_ret].
  destruct (kv_get (db s) (head_key key)) as [v|] eqn:G.
  - destruct Th as (env & pay & E & Eh & Et & Ed). cbn [option_bind]. rewrite E, Eh, Et. cbn [negb andb Z.eqb].
    change (CTYPE_LIST =? CTYPE_LIST) with true. cbn [andb now_ms rust_bind fst snd].
    unfold is_expired. rewrite Ed. cbn [Z.eqb Z.ltb Z.compare andb negb mret M_ret]. exists del, (tick s).
    split; [done|]. split; [done|]. split; [|done].
    apply (inv_weaken key n (S n)); [lia|]. destruct I as [St Ho]. split; [by eapply quiet_state; [apply quiet_tick|]|done].
  - cbn [option_bind now_ms rust_bind fst snd]. destruct I as [St Ho].
    assert (S1 : list_state key (S n) del (tick s)) by (by eapply quiet_state; [apply quiet_tick|]).
    destruct (hlc_now_eq wall walls (tick s) n (ls_room _ _ _ _ S1)) as (t & s1 & Eh & L & U & Ew & Edb & Ehi & R1).
    change (db s1 = db s) in Edb. fold (tick s). rewrite Eh. cbn [rust_bind fst snd].
    destruct (write_merged_plain s1 (head_key key) (mkParsedKey (pid_of key) (tag_u8 THead) key [])
      (encode_with (Envelope_head t node_id) (head_encode CTYPE_LIST 0))
      (encode_with (Envelope_head t node_id) (head_encode CTYPE_LIST 0))) as (b & d' & Ewr & G' & F).
    { by apply parse_head_key. } { done. } { by rewrite Edb, G. }
    rewrite Ewr. cbn [rust_bind fst snd mret M_ret]. eexists 0, _. split; [reflexivity|]. cbn [db with_db].
    rewrite Edb in F. destruct (wf_frame (db s) d' (hlc_word s) (head_key key)) as [W' C']; [apply St| | |done|].
    { apply prefixed_is_bytes; [done|constructor]. } { apply head_not_elem. }
    split; [|split; [split|]].
    + split; [|split].
      * intros now. rewrite F by done. apply D1.
      * intros now. rewrite F by done. apply D2.
      * rewrite G'. exists (Envelope_head t node_id), (head_encode CTYPE_LIST 0).
        rewrite Envelope_decode_encode_with by (apply head_env_ok; [done|by apply node_u16]).
        rewrite Th. done.
    + constructor; cbn [db hlc_word with_db]; [|done|].
      * rewrite Ew. destruct W' as [A B C]. constructor; [done|done|]. intros pos v Hp Gp.
        destruct (C pos v Hp Gp) as (r & (O1 & O2 & O3 & O4) & ->). exists r. split; [|done]. cbn [hlc_word tick] in L.
        unfold elem_ok. auto with lia.
      * rewrite Ew. pose proof (ls_del _ _ _ _ St). cbn [hlc_word tick] in L. lia.
    + unfold hint_ok, hint_of in *. cbn [pop_hints with_db db]. rewrite Ehi, C'. exact Ho.
    + unfold values. cbn [db with_db]. by rewrite C'.
Qed.

(** ** Reading commands *)

(** The early stop of the bounded walk. *)
Lemma bounded_loop del now stop d w l : list_wf key d w -> (forall k v, (k, v) ∈ l -> (k, v) ∈ with_prefix d (hint_key key)) ->
  forall out, Z.of_nat (length out) <= stop ->
  scan_loop (hint_key key) (fun out _ v =>
    Ret (match live_value del now v with
         | Some pay => (out ++ [pay], Z.of_nat (length (out ++ [pay])) <=? stop)
         | None => (out, true)
         end)) out l = Ret (out ++ take (Z.to_nat (stop + 1) - length out) (map snd (omap (pair_of key del) l))).
Proof.
  intros W. induction l as [|[k v] l IH]; intros Sub out L; [simpl; by rewrite take_nil, app_nil_r|].
  assert (I : (k, v) ∈ with_prefix d (hint_key key)) by (apply Sub; left).
  pose proof I as [_ P]%with_prefix_spec; [|apply W]. cbn [scan_loop]. rewrite P. cbn [negb].
  destruct (live_pair_eq key key_len d w del now k v W I) as [_ ->].
  assert (Sub' : forall k v, (k, v) ∈ l -> (k, v) ∈ with_prefix d (hint_key key)) by (intros; apply Sub; by right).
  cbn [omap list_omap]. unfold pair_of at 1. cbn [fst snd]. destruct (shown_value del v) as [pay|] eqn:E;
    cbn [rust_bind fst snd mbind option_bind]; [|by apply IH].
  cbn [map snd]. rewrite length_app. simpl length.
  replace (Z.to_nat (stop + 1) - length out)%nat with (S (Z.to_nat (stop + 1) - length (out ++ [pay])))
    by (rewrite length_app; simpl; lia).
  cbn [take firstn]. destruct (_ <=? stop) eqn:Le; [apply Z.leb_le in Le|apply Z.leb_gt in Le].
  - rewrite (IH Sub') by (rewrite length_app; simpl; lia). by rewrite <- app_assoc.
  - replace (Z.to_nat (stop + 1) - length (out ++ [pay]))%nat with O by (rewrite length_app; simpl; lia). done.
Qed.

Lemma live_items_bounded_eq n del s stop : list_state key n del s -> 0 <= stop ->
  live_items_bounded wall key del stop s = Ret (take (Z.to_nat (stop + 1)) (values key del s), tick s).
Proof.
  intros St Hs. unfold live_items_bounded, mbind, M_bind, now_ms. cbn [rust_bind fst snd].
  unfold scan_prefix, scan_from. cbn [db]. fold (with_prefix (db s) (hint_key key)).
  rewrite (bounded_loop del (wall (ticks s)) stop (db s) (hlc_word s)); [|apply St|done|simpl; lia].
  cbn [rust_bind app length]. rewrite Nat.sub_0_r. done.
Qed.

(** The state the commands work in. *)
Definition ready (n : nat) (del : Z) (s : Shard DB) : Prop := typed del (db s) /\ list_inv key n del s.

Lemma ready_quiet n del s s' : quiet s s' -> ready n del s -> ready n del s' /\ values key del s' = values key del s.
Proof.
  intros Q [T [St Ho]]. pose proof Q as (Ed & Eh & _). split; [|unfold values; by rewrite Ed].
  split; [by rewrite Ed|]. split; [by eapply quiet_state|]. unfold hint_ok, hint_of in *. by rewrite Eh, Ed.
Qed.
Lemma ready_tick n del s : ready n del s -> ready n del (tick s).
Proof. intros R. by eapply (ready_quiet n del s (tick s)); [apply quiet_tick|]. Qed.
Lemma ready_weaken n m del s : (n <= m)%nat -> ready m del s -> ready n del s.
Proof. intros L [T I]. split; [done|by eapply inv_weaken]. Qed.
Lemma ready_only n del s s' : typed del (db s) -> list_only key (db s) (db s') -> list_inv key n del s' -> ready n del s'.
Proof. intros T O I. split; [by eapply typed_only|done]. Qed.

Lemma on_list_eq n del s f : ready n del s -> exists s1, on_list wall key f s = f del s1 /\ ready n del s1 /\
  values key del s1 = values key del s.
Proof.
  intros R. destruct (check_type_list del s (proj1 R)) as (s1 & E & Q). exists s1.
  unfold on_list, mbind, M_bind. rewrite E. cbn [rust_bind fst snd]. split; [done|]. by apply (ready_quiet n del s s1).
Qed.

(** The count of a pop: not negative, and small enough to allocate. *)
Definition op_ok (o : lop) : Prop :=
  match o with OPop _ (Some c) => 0 <= c /\ reply_size * c < 2 ^ 63 | _ => True end.

(** A handler implements its operation. *)
Definition implements (o : lop) : Prop := op_ok o -> forall n m del s,
  ready (2 * m + 4 + n) del s -> (length (values key del s) + adds o <= m)%nat -> Z.of_nat m < 2 ^ 50 ->
  exists r s', run_lop key node_id wall reply_size o s = Ret (r, s') /\ ready n del s' /\
    lstep o (values key del s) r (values key del s').

(** A command that only reads: it goes on with the shard's clock. *)
Ltac reads_list R s1 R1 V1 :=
  match type of R with ready ?n ?del ?s =>
    match goal with |- context [on_list _ _ ?f s] =>
      let E := fresh "E" in destruct (on_list_eq n del s f R) as (s1 & E & R1 & V1); rewrite E, <- V1; clear E end
  end.

Lemma llen_implements : implements OLen.
Proof.
  intros _ n m del s R _ _. cbn [run_lop]. unfold llen. reads_list R s1 R1 V1.
  unfold mbind, M_bind. rewrite (live_count_eq key key_len key_bytes wall s1 (hlc_word s1) del) by apply R1.
  eexists _, _. split; [reflexivity|]. split; [eapply ready_weaken; [|by apply ready_tick]; lia|].
  cbn [lstep fst]. unfold values. by rewrite length_map.
Qed.

Lemma lrange_implements start stop : implements (ORange start stop).
Proof.
  intros _ n m del s R _ _. cbn [run_lop]. unfold lrange. reads_list R s1 R1 V1.
  assert (R2 : ready n del (tick s1)) by (eapply ready_weaken; [|by apply ready_tick]; lia).
  assert (R3 : ready n del s1) by (eapply ready_weaken; [|done]; lia).
  cbn [lstep]. unfold mbind, M_bind. destruct ((0 <=? start) && (0 <=? stop)) eqn:E.
  - apply andb_true_iff in E as [E1 E2]. apply Z.leb_le in E1, E2.
    destruct (stop <? start) eqn:Lt; [apply Z.ltb_lt in Lt|apply Z.ltb_ge in Lt].
    + eexists _, _. split; [reflexivity|]. split; [done|]. split; [|done]. unfold range_ref, at_index.
      rewrite !(proj2 (Z.ltb_ge _ 0)) by lia. by replace (Z.to_nat _) with O by lia.
    + erewrite live_items_bounded_eq by (apply R1 || lia). cbn [rust_bind fst snd].
      rewrite (range_ref_bounded start stop (values key del s1)) by lia. eexists _, _. by split.
  - rewrite (live_items_eq key key_len key_bytes wall s1 (hlc_word s1) del) by apply R1. cbn [rust_bind fst snd].
    fold (values key del s1). rewrite (range_ref_clamp start stop). eexists _, _. by split.
Qed.

Lemma lindex_implements i : implements (OIndex i).
Proof.
  intros _ n m del s R _ _. cbn [run_lop]. unfold lindex. reads_list R s1 R1 V1.
  assert (R2 : ready n del (tick s1)) by (eapply ready_weaken; [|by apply ready_tick]; lia).
  cbn [lstep]. unfold mbind, M_bind. destruct (0 <=? i) eqn:E; [apply Z.leb_le in E|apply Z.leb_gt in E].
  - erewrite live_items_bounded_eq by (apply R1 || lia). cbn [rust_bind fst snd]. rewrite index_ref_bounded by lia.
    eexists _, _. by split.
  - rewrite (live_items_eq key key_len key_bytes wall s1 (hlc_word s1) del) by apply R1. cbn [rust_bind fst snd].
    eexists _, _. by split.
Qed.

(** ** Writing commands *)

Lemma sorted_swap (a b : list (Z * bytes)) p x y : StronglySorted pos_lt (a ++ (p, x) :: b) ->
  StronglySorted pos_lt (a ++ (p, y) :: b).
Proof.
  induction a as [|z a IH]; cbn [app]; intros [So F]%StronglySorted_inv; constructor; [done|done|by apply IH|].
  apply Forall_app in F as [F1 F2]. apply Forall_cons in F2 as [F0 F2]. apply Forall_app. split; [done|]. by constructor.
Qed.

(** Overwriting a live position keeps the order. *)
Lemma contents_replace n n' del s s' pos x v a b : list_state key n del s -> list_state key n' del s' ->
  wrote key pos (Some v) del s s' -> contents key (db s) del = a ++ (pos, x) :: b ->
  contents key (db s') del = a ++ (pos, v) :: b.
Proof.
  intros St S' (_ & _ & _ & E) C. pose proof (contents_sorted key _ _ del (ls_wf _ _ _ _ St)) as So. rewrite C in So.
  assert (Hp : u64 pos) by (eapply (contents_u64 key n del s pos x); [exact St|]; rewrite C; set_solver).
  eapply contents_eq; [done..|apply S'|by eapply sorted_swap|]. eapply sorted_mid in So as (_ & L1 & L2); [|done..].
  intros q y. pose proof (contents_spec key (db s) _ del q y (ls_wf _ _ _ _ St)) as M. rewrite C in M. split.
  - intros I. destruct (decide (q = pos)) as [->|Ne].
    + split; [done|]. rewrite E, Z.eqb_refl by done. apply elem_of_app in I as [I|I]; [apply L1 in I; lia|].
      apply elem_of_cons in I as [[= ->]|I]; [done|apply L2 in I; lia].
    + assert (I' : (q, y) ∈ a ++ (pos, x) :: b) by set_solver. apply M in I' as [Hq Eq]. split; [done|].
      rewrite E by done. by rewrite (proj2 (Z.eqb_neq q pos)).
  - intros [Hq Eq]. rewrite E in Eq by done. destruct (q =? pos) eqn:K.
    + apply Z.eqb_eq in K. injection Eq as ->. subst q. set_solver.
    + apply Z.eqb_neq in K. assert (I : (q, y) ∈ a ++ (pos, x) :: b) by (by apply M). set_solver.
Qed.

(** A hint stays right when the same positions are live. *)
Lemma hint_same del s s' : pop_hints s' = pop_hints s -> map fst (contents key (db s') del) = map fst (contents key (db s) del) ->
  hint_ok key del s -> hint_ok key del s'.
Proof.
  intros Eh Ef Ho. unfold hint_ok in *. rewrite (hint_wrote key s s' Eh). destruct (hint_of key s) as [|h t|]; [| |done].
  - rewrite Ho in Ef. by destruct (contents key (db s') del).
  - destruct Ho as (U1 & U2 & B). split; [done|]. split; [done|]. intros p v I.
    assert (I' : p ∈ map fst (contents key (db s) del)).
    { rewrite <- Ef. apply list_elem_of_fmap. by exists (p, v). }
    apply list_elem_of_fmap in I' as ([p' y] & -> & I'). by eapply B.
Qed.

Lemma lset_implements i v : implements (OSet i v).
Proof.
  intros _ n m del s R _ _. cbn [run_lop]. unfold lset. reads_list R s1 R1 V1.
  assert (R2 : ready (S n) del (tick s1)) by (eapply ready_weaken; [|by apply ready_tick]; lia).
  assert (R3 : ready n del (tick s1)) by (eapply ready_weaken; [|done]; lia).
  cbn [lstep]. unfold mbind, M_bind. rewrite (live_pairs_eq key key_len key_bytes wall s1 (hlc_word s1) del) by apply R1.
  cbn [rust_bind fst snd]. set (l := contents key (db s1) del).
  assert (El : values key del s1 = map snd l) by done. rewrite El.
  rewrite (bool_decide_ext (l = []) (map snd l = [])) by (by destruct l).
  case_bool_decide as E0; [eexists _, _; by split|].
  unfold index_ref. replace (at_index i (map snd l)) with (norm_index i (Z.of_nat (length l)))
    by (unfold at_index; by rewrite length_map).
  set (idx := norm_index i (Z.of_nat (length l))).
  destruct (idx <? 0) eqn:E1; [eexists _, _; by split|]. apply Z.ltb_ge in E1. cbn [orb].
  destruct (Z.of_nat (length l) <=? idx) eqn:E2; [apply Z.leb_le in E2|apply Z.leb_gt in E2].
  { rewrite lookup_ge_None_2 by (rewrite length_map; lia). eexists _, _. by split. }
  destruct (lookup_lt_is_Some_2 l (Z.to_nat idx)) as [[pos x] Ex]; [lia|].
  assert (Ey : map snd l !! Z.to_nat idx = Some x).
  { change (map snd l) with (snd <$> l). by rewrite list_lookup_fmap, Ex. }
  rewrite Ex, Ey.
  assert (Hp : u64 pos).
  { apply (contents_u64 key (S n) del (tick s1) pos x); [apply R2|]. by eapply list_elem_of_lookup_2. }
  destruct (write_elem_eq key key_len key_bytes node_id wall node_range walls n del (tick s1) pos v) as (s2 & E & S2 & Wo);
    [apply R2|done|].
  rewrite E. cbn [rust_bind fst snd]. eexists _, s2. split; [reflexivity|].
  pose proof (take_drop_middle l (Z.to_nat idx) (pos, x) Ex) as Em.
  assert (C2 : contents key (db s2) del = <[Z.to_nat idx := (pos, v)]> l).
  { rewrite (contents_replace _ _ del (tick s1) s2 pos x v _ _ (proj1 (proj2 R2)) S2 Wo (eq_sym Em)).
    rewrite <- Em at 3. rewrite insert_app_r_alt; rewrite length_take_le by lia; [|lia]. by rewrite Nat.sub_diag. }
  split; [apply (ready_only n del (tick s1) s2); [apply R2|by eapply wrote_only|split; [done|]]|].
  - eapply hint_same; [apply Wo| |apply R2]. rewrite C2. change (fst <$> <[Z.to_nat idx := (pos, v)]> l = fst <$> l).
    rewrite list_fmap_insert. apply list_insert_id. by rewrite list_lookup_fmap, Ex.
  - split; [done|]. unfold values. rewrite C2. apply (list_fmap_insert snd).
Qed.

(** A rebuild installs its sequence. *)
Lemma rebuild_ready n k del s new : ready k del s -> (length (values key del s) + (length new + n) <= k)%nat ->
  Z.of_nat (length new) < 2 ^ 50 ->
  exists s', rebuild node_id wall key del (Some new) s = Ret (tt, s') /\ ready n del s' /\ values key del s' = new.
Proof.
  intros R L B.
  destruct (rebuild_eq key key_len key_bytes node_id wall node_range walls n del s (Some new)) as (s' & E & I & C & O & _);
    cbn [default from_option id] in *; [|done|].
  - eapply state_weaken; [|apply R]. unfold values in L. rewrite length_map in L. lia.
  - exists s'. split; [done|]. split; [by eapply ready_only; [apply R|..]|]. unfold values. by rewrite C, placed_values.
Qed.

Lemma lrem_implements c v : implements (ORem c v).
Proof.
  intros _ n m del s R L B. cbn [run_lop]. unfold lrem. reads_list R s1 R1 V1. cbn [lstep adds] in *. rewrite <- V1 in L.
  unfold mbind, M_bind. rewrite (live_items_eq key key_len key_bytes wall s1 (hlc_word s1) del) by apply R1.
  cbn [rust_bind fst snd]. fold (values key del s1). set (l := values key del s1) in *.
  case_bool_decide as E0.
  { rewrite E0. eexists _, _. split; [reflexivity|]. split; [eapply ready_weaken; [|by apply ready_tick]; lia|].
    change (values key del (tick s1)) with l. rewrite E0. unfold rem_ref. by destruct (c =? 0), (0 <? c). }
  destruct (lrem_ref c v l) as [-> Lr]; [lia|].
  destruct (0 <? _) eqn:Er; [apply Z.ltb_lt in Er|apply Z.ltb_ge in Er].
  - destruct (rebuild_ready n (2 * m + 4 + n) del (tick s1) (rem_ref c v l)) as (s2 & E2 & R2 & V2);
      [by apply ready_tick|change (values key del (tick s1)) with l; lia|lia|].
    rewrite E2. cbn [rust_bind fst snd]. eexists _, _. by split.
  - eexists _, _. split; [reflexivity|]. split; [eapply ready_weaken; [|by apply ready_tick]; lia|].
    split; [done|]. symmetry. apply (rem_ref_length c v l). lia.
Qed.

Lemma ltrim_implements start stop : implements (OTrim start stop).
Proof.
  intros _ n m del s R L B. cbn [run_lop]. unfold ltrim. reads_list R s1 R1 V1. cbn [lstep adds] in *. rewrite <- V1 in L.
  unfold mbind, M_bind. rewrite (live_items_eq key key_len key_bytes wall s1 (hlc_word s1) del) by apply R1.
  cbn [rust_bind fst snd]. fold (values key del s1). set (l := values key del s1) in *.
  case_bool_decide as E0.
  { eexists _, _. split; [reflexivity|]. split; [eapply ready_weaken; [|by apply ready_tick]; lia|].
    change (values key del (tick s1)) with l. rewrite E0. unfold range_ref. by rewrite drop_nil, take_nil. }
  rewrite (range_ref_clamp start stop l).
  assert (Lr : (length (range_ref start stop l) <= length l)%nat) by (unfold range_ref; rewrite length_take, length_drop; lia).
  destruct (rebuild_ready n (2 * m + 4 + n) del (tick s1) (range_ref start stop l)) as (s2 & E2 & R2 & V2);
    [by apply ready_tick|change (values key del (tick s1)) with l; lia|lia|].
  rewrite E2. cbn [rust_bind fst snd]. eexists _, _. by split.
Qed.

Lemma linsert_implements before pivot v : implements (OInsert before pivot v).
Proof.
  intros _ n m del s R L B. cbn [run_lop]. unfold linsert. reads_list R s1 R1 V1. cbn [lstep adds] in *. rewrite <- V1 in L.
  unfold mbind, M_bind. rewrite (live_items_eq key key_len key_bytes wall s1 (hlc_word s1) del) by apply R1.
  cbn [rust_bind fst snd]. fold (values key del s1). set (l := values key del s1) in *.
  assert (R2 : ready n del (tick s1)) by (eapply ready_weaken; [|by apply ready_tick]; lia).
  case_bool_decide as E0.
  { eexists _, _. split; [reflexivity|]. split; [done|]. by left. }
  pose proof (position_of_spec pivot l) as P. destruct (position_of pivot l) as [p|].
  2: { eexists _, _. split; [reflexivity|]. split; [done|]. right. left. done. }
  destruct P as (a & b & El & <- & Na). set (at_ := if before then length a else S (length a)).
  assert (En : take at_ l ++ v :: drop at_ l = a ++ (if before then [v; pivot] else [pivot; v]) ++ b).
  { rewrite El. unfold at_. destruct before.
    - by rewrite take_app_length, drop_app_length.
    - change (pivot :: b) with ([pivot] ++ b). rewrite (app_assoc a [pivot] b). replace (S (length a)) with (length (a ++ [pivot])) by (rewrite length_app; simpl; lia).
      rewrite take_app_length, drop_app_length. by rewrite <- !app_assoc. }
  rewrite En. assert (Ln : length (a ++ (if before then [v; pivot] else [pivot; v]) ++ b) = (length l + 1)%nat)
    by (rewrite El, !length_app; destruct before; simpl; lia).
  destruct (rebuild_ready n (2 * m + 4 + n) del (tick s1) (a ++ (if before then [v; pivot] else [pivot; v]) ++ b))
    as (s2 & E2 & R3 & V2); [by apply ready_tick|change (values key del (tick s1)) with l; lia|lia|].
  rewrite E2. cbn [rust_bind fst snd]. eexists _, _. split; [reflexivity|]. split; [done|]. right. right.
  exists a, b. split; [done|]. split; [done|]. split; [|done]. rewrite Ln. f_equal. lia.
Qed.

Lemma popped_first lf l : popped_ref lf 1 l !! O = if lf then head l else last l.
Proof.
  unfold popped_ref. destruct lf; [by destruct l|]. destruct l as [|x l _] using rev_ind; [done|].
  by rewrite rev_unit, last_snoc.
Qed.
Lemma popped_cons lf c l v : popped_ref lf 1 l !! O = Some v ->
  popped_ref lf (S c) l = v :: popped_ref lf c (left_ref lf 1 l) /\
  left_ref lf (S c) l = left_ref lf c (left_ref lf 1 l) /\ length l = S (length (left_ref lf 1 l)).
Proof.
  rewrite popped_first. unfold popped_ref, left_ref. destruct lf.
  - destruct l as [|x l]; [done|]. intros [= ->]. by rewrite skipn_O || simpl.
  - destruct l as [|x l _] using rev_ind; [done|]. rewrite last_snoc. intros [= ->].
    rewrite rev_unit, length_app. simpl length. rewrite Nat.add_sub, take_app_length.
    split; [done|]. split; [|lia]. replace (length l + 1 - S c)%nat with (length l - c)%nat by lia.
    rewrite take_app_le by lia. done.
Qed.
Lemma popped_none lf c l : popped_ref lf 1 l !! O = None -> l = [] /\ popped_ref lf c l = [] /\ left_ref lf c l = [].
Proof.
  rewrite popped_first. intros E. assert (l = []) as ->.
  { destruct lf; [by destruct l|by apply last_None]. }
  unfold popped_ref, left_ref. destruct lf; simpl; by rewrite ?take_nil, ?drop_nil.
Qed.

Lemma do_pop_ready lf n del s : ready (S n) del s -> exists s',
  do_pop node_id wall key lf del s = Ret (popped_ref lf 1 (values key del s) !! O, s') /\ ready n del s' /\
  values key del s' = left_ref lf 1 (values key del s).
Proof.
  intros [T I]. rewrite popped_first. destruct lf.
  - destruct (do_pop_left key key_len key_bytes node_id wall node_range walls n del s I) as (s' & E & I' & C & O).
    exists s'. split; [done|]. split; [by eapply ready_only|]. unfold values, left_ref. rewrite C.
    by destruct (contents key (db s) del).
  - destruct (do_pop_right key key_len key_bytes node_id wall node_range walls n del s I) as (s' & E & I' & C & O).
    exists s'. split; [done|]. split; [by eapply ready_only|]. unfold values, left_ref. rewrite C, length_map.
    symmetry. apply firstn_map.
Qed.

Lemma pop_loop_ready lf del cnt : forall n s acc, ready (S (length (values key del s)) + n) del s -> exists s',
  pop_loop node_id wall key lf del cnt acc s = Ret (acc ++ popped_ref lf cnt (values key del s), s') /\ ready n del s' /\
  values key del s' = left_ref lf cnt (values key del s).
Proof.
  induction cnt as [|cnt IH]; intros n s acc R.
  - exists s. split; [unfold popped_ref; by rewrite app_nil_r|]. split; [eapply ready_weaken; [|done]; lia|].
    unfold left_ref. destruct lf; [done|]. by rewrite Nat.sub_0_r, firstn_all.
  - cbn [pop_loop]. unfold mbind, M_bind. destruct (do_pop_ready lf (length (values key del s) + n) del s R) as (s1 & E & R1 & V1).
    rewrite E. cbn [rust_bind fst snd]. destruct (popped_ref lf 1 (values key del s) !! O) as [v|] eqn:Ep.
    + destruct (popped_cons lf cnt _ v Ep) as (-> & -> & Ll). rewrite Ll, <- V1 in R1.
      destruct (IH n s1 (acc ++ [v]) R1) as (s' & E' & R' & V'). exists s'.
      rewrite E', V', V1, <- app_assoc. by split.
    + destruct (popped_none lf (S cnt) _ Ep) as (E0 & -> & ->). exists s1. split; [by rewrite app_nil_r|].
      split; [eapply ready_weaken; [|done]; lia|]. rewrite V1. by destruct (popped_none lf 1 _ Ep) as (_ & _ & ->).
Qed.

Lemma list_range_ready n del s : ready n del s -> exists r s', list_range wall key del s = Ret (r, s') /\ ready n del s' /\
  values key del s' = values key del s /\ (r = None <-> values key del s = []).
Proof.
  intros [T I]. destruct (list_range_eq key key_len key_bytes node_id wall node_range walls n del s I)
    as (r & s' & E & Ed & I' & R & _). exists r, s'. split; [done|]. split; [split; [by rewrite Ed|done]|].
  unfold values. rewrite Ed. split; [done|]. destruct r as [[h t]|]; [|by rewrite R].
  destruct R as [(_ & _ & (v & rest & ->) & _) _]. by split.
Qed.

Lemma pop_implements lf count : implements (OPop lf count).
Proof.
  intros Ok n m del s R L B. cbn [run_lop]. unfold pop. reads_list R s1 R1 V1. cbn [lstep adds op_ok] in *. rewrite <- V1 in L.
  unfold mbind, M_bind. destruct count as [c|].
  - destruct Ok as [C0 C1]. destruct (list_range_ready _ del s1 R1) as (r & s2 & E2 & R2 & V2 & Rn).
    rewrite E2. cbn [rust_bind fst snd]. destruct r as [p|].
    + rewrite bool_decide_false by (intros E; by apply Rn in E). unfold with_capacity, lift.
      rewrite (proj2 (Z.leb_gt _ _) C1). cbn [rust_bind fst snd].
      destruct (pop_loop_ready lf del (Z.to_nat c) n s2 []) as (s3 & E3 & R3 & V3).
      { eapply ready_weaken; [|exact R2]. rewrite V2. lia. }
      rewrite E3. cbn [rust_bind fst snd app]. rewrite V2 in *. eexists _, _. by split.
    + rewrite bool_decide_true by (by apply Rn). eexists _, _. split; [reflexivity|].
      split; [eapply ready_weaken; [|done]; lia|]. split; [done|]. rewrite V2. by apply Rn.
  - destruct (do_pop_ready lf n del s1) as (s2 & E2 & R2 & V2); [eapply ready_weaken; [|done]; lia|].
    rewrite E2. cbn [rust_bind fst snd]. eexists _, _. by split.
Qed.

Lemma do_push_ready lf n k del s vs : ready k del s ->
  (length (values key del s) + (length (values key del s) + (length vs + n)) <= k)%nat ->
  Z.of_nat (length (values key del s) + length vs) < 2 ^ 50 ->
  exists c s', do_push node_id wall key vs lf del s = Ret (c, s') /\ ready n del s' /\
    values key del s' = if lf then rev vs ++ values key del s else values key del s ++ vs.
Proof.
  intros [T I] L B.
  destruct (do_push_eq key key_len key_bytes node_id wall node_range walls n del s vs lf) as (c & s' & E & I' & O & V);
    [eapply inv_weaken; [exact L|done]|done|].
  exists c, s'. split; [done|]. split; [by eapply ready_only|done].
Qed.

(** The head is created or kept, then the values are pushed. *)
Lemma head_push lf n m del s vs : ready (2 * m + 3 + n) del s -> (length (values key del s) + length vs <= m)%nat ->
  Z.of_nat m < 2 ^ 50 -> exists c s',
  (_ ← ensure_head node_id wall key CTYPE_LIST; do_push node_id wall key vs lf del) s = Ret (c, s') /\ ready n del s' /\
  values key del s' = if lf then rev vs ++ values key del s else values key del s ++ vs.
Proof.
  intros [T I] L B. destruct (ensure_head_list (2 * m + 2 + n) del s T) as (d & s1 & E & T1 & I1 & V1).
  { eapply inv_weaken; [|exact I]. lia. }
  unfold mbind, M_bind. rewrite E. cbn [rust_bind fst snd]. rewrite <- V1 in *.
  apply (do_push_ready lf n (2 * m + 2 + n)); [by split|lia|lia].
Qed.

Lemma push_implements lf xx vs : implements (OPush lf xx vs).
Proof.
  intros _ n m del s R L B. cbn [run_lop]. unfold push. reads_list R s1 R1 V1. cbn [lstep adds] in *. rewrite <- V1 in L.
  assert (X : exists b s2, (if xx then r ← list_range wall key del; mret (bool_decide (r = None)) else mret false) s1 = Ret (b, s2) /\
    ready (2 * m + 4 + n) del s2 /\ values key del s2 = values key del s1 /\ b = xx && bool_decide (values key del s1 = [])).
  { destruct xx; [|by exists false, s1]. unfold mbind, M_bind. destruct (list_range_ready _ del s1 R1) as (r & s2 & E2 & R2 & V2 & Rn).
    rewrite E2. cbn [rust_bind fst snd]. eexists _, _. split; [reflexivity|]. split; [done|]. split; [done|].
    cbn [andb]. by apply bool_decide_ext. }
  destruct X as (b & s2 & E2 & R2 & V2 & ->). unfold mbind, M_bind in E2 |- *. rewrite E2. cbn [rust_bind fst snd].
  rewrite <- V2. destruct (xx && bool_decide (values key del s2 = [])).
  { eexists _, _. split; [reflexivity|]. split; [eapply ready_weaken; [|done]; lia|]. by split. }
  destruct (head_push lf n m del s2 vs) as (c & s3 & E3 & R3 & V3);
    [eapply ready_weaken; [|exact R2]; lia|by rewrite V2|done|].
  exists (RInt c), s3. split; [|by eauto]. unfold mbind, M_bind in E3.
  destruct (ensure_head node_id wall key CTYPE_LIST s2) as [[d s4]|]; [|done]. cbn [rust_bind fst snd] in E3 |- *.
  rewrite E3. done.
Qed.

Lemma rotate_implements from_left to_left : implements (ORotate from_left to_left).
Proof.
  intros _ n m del s R L B. cbn [run_lop]. unfold rotate. reads_list R s1 R1 V1. cbn [lstep adds] in *. rewrite <- V1 in L.
  unfold mbind, M_bind. set (l := values key del s1) in *.
  destruct (popped_ref from_left 1 l !! O) as [v|] eqn:Ep.
  - destruct (popped_cons from_left 0 l v Ep) as (_ & _ & Ll).
    destruct (do_pop_ready from_left (2 * m + 3 + n) del s1) as (s2 & E2 & R2 & V2); [eapply ready_weaken; [|done]; lia|].
    fold l in E2, V2. rewrite E2, Ep. cbn [rust_bind fst snd].
    destruct (head_push to_left n m del s2 [v] R2) as (c & s3 & E3 & R3 & V3); [rewrite V2; simpl; lia|done|].
    unfold mbind, M_bind in E3. rewrite V2 in V3.
    destruct (ensure_head node_id wall key CTYPE_LIST s2) as [[d s4]|]; [|done]. cbn [rust_bind fst snd] in E3 |- *.
    rewrite E3. exists (RBulk v), s3. by split.
  - destruct (do_pop_ready from_left n del s1) as (s2 & E2 & R2 & V2); [eapply ready_weaken; [|done]; lia|].
    fold l in E2, V2. rewrite E2, Ep. cbn [rust_bind fst snd]. eexists _, _. split; [reflexivity|]. split; [done|].
    split; [done|]. rewrite V2. by destruct (popped_none from_left 1 l Ep) as (_ & _ & ->).
Qed.

Lemma every_implements o : implements o.
Proof.
  destruct o; auto using push_implements, pop_implements, llen_implements, lrange_implements, lindex_implements,
    lset_implements, lrem_implements, ltrim_implements, linsert_implements, rotate_implements.
Qed.
End refine.

(** A run of the abstract list. *)
Inductive lsteps : list bytes -> list lop -> list Reply -> list bytes -> Prop :=
  | lsteps_nil l : lsteps l [] [] l
  | lsteps_cons l o r l1 os rs l2 : lstep o l r l1 -> lsteps l1 os rs l2 -> lsteps l (o :: os) (r :: rs) l2.
Definition all_adds (os : list lop) : nat := fold_right (fun o n => (adds o + n)%nat) 0%nat os.

Lemma lstep_size o l r l' : lstep o l r l' -> (length l' <= length l + adds o)%nat.
Proof.
  destruct o as [lf xx vs|lf [c|]| | | | | | |before p v|fl tl]; cbn [lstep adds].
  - destruct (xx && _); intros [_ ->]; [lia|]. destruct lf; rewrite length_app, ?length_rev; lia.
  - case_bool_decide; intros [_ ->]; [simpl; lia|]. unfold left_ref. destruct lf; rewrite ?length_drop, ?length_take; lia.
  - intros [_ ->]. unfold left_ref. destruct lf; rewrite ?length_drop, ?length_take; lia.
  - intros [_ ->]. lia.
  - intros [_ ->]. lia.
  - intros [_ ->]. lia.
  - case_bool_decide; [intros [_ ->]; lia|]. destruct (index_ref _ _); intros [_ ->]; rewrite ?length_insert; lia.
  - intros [_ ->]. pose proof (rem_ref_length count value l). lia.
  - intros [_ ->]. unfold range_ref. rewrite length_take, length_drop. lia.
  - intros [(_ & _ & ->)|[(_ & _ & _ & ->)|(a & b & -> & _ & _ & ->)]]; rewrite ?length_app; destruct before; simpl; lia.
  - destruct (popped_ref fl 1 l !! O) as [v|] eqn:E; intros [_ ->]; [|simpl; lia].
    destruct (popped_cons fl 0 l v E) as (_ & _ & L). destruct tl; simpl; rewrite ?length_app; simpl; lia.
Qed.

Lemma run_lops_refine {DB} `{KVLaws DB} key node_id wall reply_size m :
  slice_len_ok key -> is_bytes key -> node_ok node_id -> (forall n, 0 <= wall n < 2 ^ 47) -> Z.of_nat m < 2 ^ 50 ->
  forall os n del (s : Shard DB), Forall (op_ok reply_size) os -> (length (values key del s) + all_adds os <= m)%nat ->
  ready key (length os * (2 * m + 4) + n) del s ->
  exists rs s', run_lops key node_id wall reply_size os s = Ret (rs, s') /\ ready key n del s' /\
    lsteps (values key del s) os rs (values key del s').
Proof.
  intros Kl Kb Nr Wa B os. induction os as [|o os IH]; intros n del s Ok L R.
  { exists [], s. split; [done|]. split; [done|constructor]. }
  apply Forall_cons in Ok as [Oo Ok]. cbn [all_adds fold_right length] in *. fold (all_adds os) in L.
  destruct (every_implements key Kl Kb node_id wall Nr Wa reply_size o Oo (length os * (2 * m + 4) + n)%nat m del s)
    as (r & s1 & E & R1 & St); [eapply ready_weaken; [|done]; lia|lia|done|].
  pose proof (lstep_size _ _ _ _ St) as Sz.
  destruct (IH n del s1 Ok) as (rs & s2 & E2 & R2 & St2); [lia|done|].
  exists (r :: rs), s2. cbn [run_lops]. unfold mbind, M_bind. rewrite E. cbn [rust_bind fst snd]. rewrite E2.
  split; [done|]. split; [done|]. by econstructor.
Qed.


Lemma empty_ready key n : (n < 1000)%nat -> ready key n 0 (ex_shard ∅).
Proof.
  intros Ln. assert (E : forall k, kv_get (∅ : gmap bytes bytes) k = None) by (intros k; apply lookup_empty).
  split; [|split].
  - split; [|split]; cbn [db ex_shard]; [intros now; by rewrite E..|]. by rewrite E.
  - constructor; cbn [db hlc_word ex_shard]; [|unfold room; cbn [hlc_word ex_shard]; lia|lia].
    constructor; [intros k v|intros k v|intros pos v _]; rewrite E; discriminate.
  - done.
Qed.

Definition ex_lops : list lop :=
  [OPush false false [[97]; [98]; [99]]; OPush true true [[122]]; OInsert false [97] [100]; OSet (-1) [101];
   OPop true (Some 2); OPop false None; ORotate true false; ORem 0 [97]; ORange 0 (-1); OLen].

(** ** What the commands do beyond the abstract list *)

(** A count crashes the server: LPOP/RPOP with a count on a non-empty
    list allocates room for [count] replies before it pops any; a count whose
    bytes exceed [isize::MAX] ([9223372036854775807] is accepted) panics, and the
    release profile aborts on a panic. *)
Theorem huge_pop_count_panics {DB} `{KVLaws DB} key node_id wall reply_size count lf n del (s : Shard DB) :
  slice_len_ok key -> is_bytes key -> node_ok node_id -> (forall n, 0 <= wall n < 2 ^ 47) -> ready key n del s ->
  values key del s <> [] -> 2 ^ 63 <= reply_size * count -> pop node_id wall reply_size key (Some count) lf s = Panic.
Proof.
  intros Kl Kb Nr Wa R Ne Big. unfold pop.
  match goal with |- on_list _ _ ?f s = _ => destruct (on_list_eq key wall n del s f R) as (s1 & -> & R1 & V1) end.
  unfold mbind, M_bind. destruct (list_range_ready key Kl Kb node_id wall Nr Wa n del s1 R1) as (r & s2 & -> & _ & _ & Rn).
  cbn [rust_bind fst snd]. destruct r as [p|]; [|rewrite <- V1 in Ne; by destruct Ne; apply Rn].
  unfold with_capacity, lift. by rewrite (proj2 (Z.leb_le _ _) Big).
Qed.

(** The shard after [ops] on a fresh one. *)
Definition after_lops (node_id : Z) (os : list lop) : Shard (gmap bytes bytes) :=
  match run_lops [107] node_id (fun n => Z.of_nat n mod 1000) 32 os (ex_shard ∅) with Ret (_, s) => s | _ => ex_shard ∅ end.

Lemma run_ready os : Forall (op_ok 32) os -> Z.of_nat (all_adds os) < 2 ^ 50 -> (length os * (2 * all_adds os + 4) < 900)%nat ->
  ready [107] 10 0 (after_lops 3 os).
Proof.
  intros Ok B L. unfold after_lops.
  destruct (run_lops_refine (DB := gmap bytes bytes) [107] 3 (fun n => Z.of_nat n mod 1000) 32 (all_adds os)) with
    (os := os) (n := 10%nat) (del := 0) (s := ex_shard ∅) as (rs & s' & E & R & _).
  - vm_compute. reflexivity.
  - repeat constructor; vm_compute; congruence.
  - unfold node_ok, LIST_NODE_ID_MAX, LIST_POS_STRIDE. lia.
  - intros n. pose proof (Z.mod_pos_bound (Z.of_nat n) 1000 ltac:(lia)). lia.
  - done.
  - done.
  - change (values [107] 0 (ex_shard ∅)) with (@nil bytes). simpl. lia.
  - apply empty_ready. lia.
  - by rewrite E.
Qed.

Lemma huge_pop_count_panics_witness :
  pop 3 (fun n => Z.of_nat n mod 1000) 32 [107] (Some 9223372036854775807) true (after_lops 3 [OPush false false [[97]]]) = Panic.
Proof.
  apply (huge_pop_count_panics [107] 3 _ 32 _ true 10 0).
  - vm_compute. reflexivity.
  - repeat constructor; vm_compute; congruence.
  - unfold node_ok, LIST_NODE_ID_MAX, LIST_POS_STRIDE. lia.
  - intros n. pose proof (Z.mod_pos_bound (Z.of_nat n) 1000 ltac:(lia)). lia.
  - apply run_ready; [repeat constructor|vm_compute; reflexivity|vm_compute; lia].
  - vm_compute. congruence.
  - lia.
Defined.

(** A live string without a deadline. *)
Definition holds_string {DB} `{KV DB} (d : DB) (k : bytes) : Prop := exists v env pay,
  kv_get d (string_key k) = Some v /\ Envelope_decode v = Some (env, pay) /\ is_tombstone env = false /\ ttl_deadline_ms env = 0.

Lemma check_type_string {DB} `{KV DB} wall (s : Shard DB) k : holds_string (db s) k ->
  check_type wall k CTYPE_LIST s = Ret (None, tick s).
Proof.
  intros (v & env & pay & G & E & T & D). unfold check_type, record_live, get_raw, reads, now_ms, mbind, M_bind, mret, M_ret.
  change ((CTYPE_LIST =? 115) || (CTYPE_LIST =? 108)) with false. cbn [rust_bind fst snd db]. rewrite G. cbn [option_bind].
  rewrite E, T. unfold is_expired. rewrite D. done.
Qed.

(** LMOVE is not atomic: with a destination that holds a string, it pops
    the element from the source, then finds the destination's type wrong, and
    replies with the error - the element is in neither key. *)
Theorem move_to_wrong_type_loses_element {DB} `{KVLaws DB} src dst node_id wall fl tl n del v (s : Shard DB) :
  slice_len_ok src -> is_bytes src -> node_ok node_id -> (forall n, 0 <= wall n < 2 ^ 47) -> src <> dst ->
  ready src (S n) del s -> popped_ref fl 1 (values src del s) !! O = Some v -> holds_string (db s) dst ->
  exists s', do_move node_id wall src dst fl tl s = Ret (wrongtype, s') /\
    values src del s' = left_ref fl 1 (values src del s) /\ holds_string (db s') dst.
Proof.
  intros Kl Kb Nr Wa Ne R P Hs. unfold do_move, bytes_eqb. rewrite bool_decide_false by done.
  destruct (check_type_list src wall del s (proj1 R)) as (s1 & E1 & Q). unfold mbind, M_bind. rewrite E1.
  cbn [rust_bind fst snd]. destruct (ready_quiet src (S n) del s s1 Q R) as [R1 V1].
  assert (Hs1 : holds_string (db s1) dst) by (by rewrite (proj1 Q)).
  destruct R1 as [T1 I1].
  assert (D : exists s2, do_pop node_id wall src fl del s1 = Ret (popped_ref fl 1 (values src del s1) !! O, s2) /\
    list_only src (db s1) (db s2) /\ values src del s2 = left_ref fl 1 (values src del s1)).
  { destruct (do_pop_ready src Kl Kb node_id wall Nr Wa fl n del s1 (conj T1 I1)) as (s2 & E2 & R2 & V2).
    exists s2. split; [done|]. split; [|done]. destruct fl.
    - destruct (do_pop_left src Kl Kb node_id wall Nr Wa n del s1 I1) as (s2' & E' & _ & _ & O).
      rewrite E2 in E'. by injection E' as _ <-.
    - destruct (do_pop_right src Kl Kb node_id wall Nr Wa n del s1 I1) as (s2' & E' & _ & _ & O).
      rewrite E2 in E'. by injection E' as _ <-. }
  destruct D as (s2 & E2 & O & V2). rewrite V1 in E2, V2. rewrite E2, P. cbn [rust_bind fst snd].
  assert (Hs2 : holds_string (db s2) dst).
  { destruct Hs1 as (w & env & pay & G & Hr). exists w, env, pay. split; [|done]. rewrite O; [done|].
    intros pos E. apply (f_equal (.!! 2%nat)) in E. discriminate. }
  unfold on_list, mbind, M_bind. rewrite (check_type_string wall s2 dst Hs2). cbn [rust_bind fst snd].
  exists (tick s2). split; [done|]. by split.
Qed.

(** The list [ex_lops] builds, beside a string. *)
Definition ex_beside : Shard (gmap bytes bytes) :=
  let s := after_lops 3 [OPush false false [[97]; [98]]] in
  mkShard (<[string_key [115] := encode_with (Envelope_new RString 5 1) [120]]> (db s)) (hlc_word s) (pop_hints s) (ticks s).

Lemma beside_ready : ready [107] 10 0 ex_beside.
Proof.
  assert (R : ready [107] 10 0 (after_lops 3 [OPush false false [[97]; [98]]]))
    by (apply run_ready; [repeat constructor|vm_compute; reflexivity|vm_compute; lia]).
  destruct R as [T [St Ho]]. unfold ex_beside. set (s := after_lops 3 _) in *.
  set (k := string_key [115]). set (d' := <[k := _]> (db s)).
  assert (F : Store.frame k (db s) d') by (intros q Nq; by apply lookup_insert_ne).
  destruct (wf_frame [107] ltac:(vm_compute; reflexivity) ltac:(repeat constructor; vm_compute; congruence) (db s) d' (hlc_word s) k) as [W C];
    [apply St|repeat constructor; vm_compute; congruence|reflexivity|exact F|].
  split; [|split].
  - destruct T as (D1 & D2 & Th). cbn [db]. split; [|split].
    + intros now. rewrite F by (vm_compute; congruence). apply D1.
    + intros now. rewrite F by (vm_compute; congruence). apply D2.
    + rewrite F by (vm_compute; congruence). exact Th.
  - destruct St as [_ Ro De]. by constructor.
  - unfold hint_ok, hint_of in *. cbn [pop_hints db]. rewrite C. exact Ho.
Qed.

Lemma move_to_wrong_type_loses_element_witness :
  exists s', do_move 3 (fun n => Z.of_nat n mod 1000) [107] [115] true true ex_beside = Ret (wrongtype, s') /\
    values [107] 0 s' = [[98]].
Proof.
  destruct (move_to_wrong_type_loses_element [107] [115] 3 (fun n => Z.of_nat n mod 1000) true true 9 0 [97] ex_beside)
    as (s' & E & V & _).
  - vm_compute. reflexivity.
  - repeat constructor; vm_compute; congruence.
  - unfold node_ok, LIST_NODE_ID_MAX, LIST_POS_STRIDE. lia.
  - intros n. pose proof (Z.mod_pos_bound (Z.of_nat n) 1000 ltac:(lia)). lia.
  - congruence.
  - apply beside_ready.
  - vm_compute. reflexivity.
  - eexists _, _, _. split; [vm_compute; reflexivity|]. split; [vm_compute; reflexivity|]. by vm_compute.
  - exists s'. split; [exact E|]. rewrite V. vm_compute. reflexivity.
Defined.

(** The length a push returns can be wrong on a single node: after RPUSH a
    b, RPOP, RPUSH c on a node with a non-zero id, the reply is 3 and LLEN is
    2 - a right pop keeps the slot of the element it removed in the cached
    range. *)
Theorem push_overcounts_after_pop :
  match run_lops [107] 3 (fun _ => 0) 32 [OPush false false [[97]; [98]]; OPop false None; OPush false false [[99]]; OLen]
    (ex_shard ∅ : Shard (gmap bytes bytes)) with
  | Ret (rs, _) => rs = [RInt 2; RBulk [98]; RInt 3; RInt 2]
  | _ => False
  end.
Proof. vm_compute. reflexivity. Qed.
