(* ===== verification/ListArgs.v ===== *)
(** * The argument layer of the list commands ([cmd/list.rs])

    How LPUSH ... BLMPOP read their arguments, LPOS, LMPOP and the blocking
    forms, over the handlers of [ListCmd]. A blocking command polls: its
    deadline is the number of polls left after the first. *)

From Stdlib Require Import String.
From S2P Require Import Prelude Partition Hlc Envelope Ikey Counter Lattice Merge MergeLaws Store Resp Reply Server.
From S2P Require Import ListCmd ListLaws ListRefine.

(** LEFT or RIGHT. *)
Definition side (b : bytes) : option bool :=
  if eq_ignore_case b "LEFT" then Some true else if eq_ignore_case b "RIGHT" then Some false else None.

(** ** LPOS *)

(** The options: rank, count, maximal number of comparisons. *)
Fixpoint lpos_opts (args : list bytes) (rank : Z) (count : option Z) (maxlen : Z) : Reply + (Z * option Z * Z) :=
  match args with
  | [] => inr (rank, count, maxlen)
  | a :: rest =>
      if eq_ignore_case a "RANK" then
        match rest with
        | [] => inl not_int
        | v :: rest =>
            match parse_i64 v with
            | Some r => if r =? 0 then inl (RErr (str "ERR RANK can't be zero")) else lpos_opts rest r count maxlen
            | None => inl not_int
            end
        end
      else if eq_ignore_case a "COUNT" then
        match rest with
        | [] => inl not_int
        | v :: rest =>
            match parse_i64 v with
            | Some c => if 0 <=? c then lpos_opts rest rank (Some c) maxlen else inl (RErr (str "ERR COUNT can't be negative"))
            | None => inl not_int
            end
        end
      else if eq_ignore_case a "MAXLEN" then
        match rest with
        | [] => inl not_int
        | v :: rest =>
            match parse_i64 v with
            | Some m => if 0 <=? m then lpos_opts rest rank count m else inl (RErr (str "ERR MAXLEN can't be negative"))
            | None => inl not_int
            end
        end
      else inl syntax
  end.

(** The walk over [(index, item)], in the direction of the rank. *)
Fixpoint lpos_loop (element : bytes) (want : option Z) (skip maxlen seen compared : Z) (out : list Z)
    (walk : list (Z * bytes)) : list Z :=
  match walk with
  | [] => out
  | (idx, item) :: walk =>
      let compared := compared + 1 in
      if negb (maxlen =? 0) && (maxlen <? compared) then out
      else if bytes_eqb item element then
        if skip <=? seen then
          let out := out ++ [idx] in
          match want with
          | Some w => if w <=? Z.of_nat (length out) then out
                      else lpos_loop element want skip maxlen (seen + 1) compared out walk
          | None => out
          end
        else lpos_loop element want skip maxlen (seen + 1) compared out walk
      else lpos_loop element want skip maxlen seen compared out walk
  end.
Definition indexed (items : list bytes) : list (Z * bytes) := imap (fun i x => (Z.of_nat i, x)) items.
Definition lpos_matches (element : bytes) (rank : Z) (count : option Z) (maxlen : Z) (items : list bytes) : list Z :=
  lpos_loop element ((fun c => if c =? 0 then 2 ^ 64 - 1 else c) <$> count) (Z.abs rank - 1) maxlen 0 0 []
    (if 0 <? rank then indexed items else rev (indexed items)).

Section args.
Context {DB : Type} `{!KV DB}.
Context (node_id : Z) (wall : nat -> Z) (reply_size : Z) (bytes_size : Z).

Definition lpos (args : list bytes) : M DB Reply :=
  match args with
  | _ :: key :: element :: opts =>
      match lpos_opts opts 1 None 0 with
      | inl r => mret r
      | inr (rank, count, maxlen) =>
          on_list wall key (fun del =>
            items ← live_items wall key del;
            let ms := lpos_matches element rank count maxlen items in
            mret (match count with
                  | None => match ms with i :: _ => RInt i | [] => RNull end
                  | Some _ => RArray (map RInt ms)
                  end))
      end
  | _ => mret (wrong_args "lpos")
  end.

(** ** LMPOP *)

(** [Err(())] is [None]. *)
Definition try_pop_many (key : bytes) (left : bool) (count : Z) : M DB (option (list bytes)) :=
  d ← check_type wall key CTYPE_LIST;
  match d with
  | None => mret None
  | Some del =>
      r ← list_range wall key del;
      match r with
      | None => mret (Some [])
      | Some _ =>
          _ ← with_capacity bytes_size count;
          popped ← pop_loop node_id wall key left del (Z.to_nat count) [];
          mret (Some popped)
      end
  end.
Fixpoint lmpop_inner (keys : list bytes) (left : bool) (count : Z) : M DB Reply :=
  match keys with
  | [] => mret RNullArray
  | key :: keys =>
      r ← try_pop_many key left count;
      match r with
      | None => mret wrongtype
      | Some [] => lmpop_inner keys left count
      | Some values => mret (RArray [RBulk key; RArray (map RBulk values)])
      end
  end.

Fixpoint lmpop_count (args : list bytes) (count : Z) : Reply + Z :=
  match args with
  | [] => inr count
  | a :: rest =>
      if eq_ignore_case a "COUNT" then
        match rest with
        | [] => inl not_int
        | v :: rest =>
            match parse_i64 v with
            | Some n => if n <=? 0 then inl (RErr (str "ERR count should be greater than 0")) else lmpop_count rest n
            | None => inl not_int
            end
        end
      else inl syntax
  end.
(** The arguments from [numkeys] on. *)
Definition parse_lmpop_tail (args : list bytes) : Reply + (list bytes * bool * Z) :=
  match args with
  | [] => inl not_int
  | n :: rest =>
      match parse_i64 n with
      | None => inl not_int
      | Some numkeys =>
          if numkeys <=? 0 then inl syntax
          else if Z.of_nat (length rest) <=? numkeys then inl syntax
          else match drop (Z.to_nat numkeys) rest with
          | [] => inl syntax
          | dir :: rest' =>
              match side dir with
              | None => inl syntax
              | Some lf =>
                  match lmpop_count rest' 1 with
                  | inl r => inl r
                  | inr count => inr (take (Z.to_nat numkeys) rest, lf, count)
                  end
              end
          end
      end
  end.
Definition lmpop (args : list bytes) : M DB Reply :=
  if (length args <? 4)%nat then mret (wrong_args "lmpop") else
  match parse_lmpop_tail (drop 1 args) with
  | inl r => mret r
  | inr (keys, lf, count) => lmpop_inner keys lf count
  end.

(** ** The other commands *)

Definition push_args (left xx : bool) (args : list bytes) : M DB Reply :=
  match args with
  | _ :: key :: v :: vs => push node_id wall key (v :: vs) left xx
  | _ => mret (wrong_args "lpush")
  end.
Definition pop_args (left : bool) (args : list bytes) : M DB Reply :=
  match args with
  | [_; key] => pop node_id wall reply_size key None left
  | [_; key; b] =>
      match parse_i64 b with
      | Some n => if 0 <=? n then pop node_id wall reply_size key (Some n) left else mret not_int
      | None => mret not_int
      end
  | _ => mret (wrong_args "lpop")
  end.
Definition llen_args (args : list bytes) : M DB Reply :=
  match args with [_; key] => llen wall key | _ => mret (wrong_args "llen") end.
(** Two integers after the key. *)
Definition two_ints (name : string) (f : bytes -> Z -> Z -> M DB Reply) (args : list bytes) : M DB Reply :=
  match args with
  | [_; key; a; b] =>
      match parse_i64 a, parse_i64 b with Some a, Some b => f key a b | _, _ => mret not_int end
  | _ => mret (wrong_args name)
  end.
Definition lrange_args : list bytes -> M DB Reply := two_ints "lrange" (lrange wall).
Definition ltrim_args : list bytes -> M DB Reply := two_ints "ltrim" (ltrim node_id wall).
Definition lindex_args (args : list bytes) : M DB Reply :=
  match args with
  | [_; key; i] => match parse_i64 i with Some i => lindex wall key i | None => mret not_int end
  | _ => mret (wrong_args "lindex")
  end.
(** An integer and a value after the key. *)
Definition int_value (name : string) (f : bytes -> Z -> bytes -> M DB Reply) (args : list bytes) : M DB Reply :=
  match args with
  | [_; key; i; value] => match parse_i64 i with Some i => f key i value | None => mret not_int end
  | _ => mret (wrong_args name)
  end.
Definition lset_args : list bytes -> M DB Reply := int_value "lset" (lset node_id wall).
Definition lrem_args : list bytes -> M DB Reply := int_value "lrem" (lrem node_id wall).
Definition linsert_args (args : list bytes) : M DB Reply :=
  match args with
  | [_; key; where_; pivot; value] =>
      if eq_ignore_case where_ "BEFORE" then linsert node_id wall key true pivot value
      else if eq_ignore_case where_ "AFTER" then linsert node_id wall key false pivot value
      else mret syntax
  | _ => mret (wrong_args "linsert")
  end.
Definition lmove (args : list bytes) : M DB Reply :=
  match args with
  | [_; src; dst; a; b] =>
      match side a, side b with
      | Some from_left, Some to_left => do_move node_id wall src dst from_left to_left
      | _, _ => mret syntax
      end
  | _ => mret (wrong_args "lmove")
  end.
Definition rpoplpush (args : list bytes) : M DB Reply :=
  match args with
  | [_; src; dst] => do_move node_id wall src dst false true
  | _ => mret (wrong_args "rpoplpush")
  end.

(** ** Blocking forms: [polls] more rounds after the first. *)

Definition try_pop_one (key : bytes) (left : bool) : M DB (option (option bytes)) :=
  d ← check_type wall key CTYPE_LIST;
  match d with
  | None => mret None
  | Some del => v ← do_pop node_id wall key left del; mret (Some v)
  end.
Fixpoint bpop_round (keys : list bytes) (left : bool) : M DB (option Reply) :=
  match keys with
  | [] => mret None
  | key :: keys =>
      r ← try_pop_one key left;
      match r with
      | None => mret (Some wrongtype)
      | Some (Some v) => mret (Some (RArray [RBulk key; RBulk v]))
      | Some None => bpop_round keys left
      end
  end.
Fixpoint bpop (polls : nat) (keys : list bytes) (left : bool) : M DB Reply :=
  r ← bpop_round keys left;
  match r, polls with
  | Some r, _ => mret r
  | None, O => mret RNullArray
  | None, S polls => bpop polls keys left
  end.
Fixpoint blmpop (polls : nat) (keys : list bytes) (left : bool) (count : Z) : M DB Reply :=
  r ← lmpop_inner keys left count;
  match r, polls with
  | RNullArray, O => mret RNullArray
  | RNullArray, S polls => blmpop polls keys left count
  | r, _ => mret r
  end.
Fixpoint poll_move (polls : nat) (lmove_args : list bytes) : M DB Reply :=
  r ← lmove lmove_args;
  match r, polls with
  | (RNull | RNullArray), O => mret RNull
  | (RNull | RNullArray), S polls => poll_move polls lmove_args
  | r, _ => mret r
  end.
End args.

(** ** LPOS against its definition *)

Definition hits (element : bytes) (walk : list (Z * bytes)) : list Z :=
  map fst (List.filter (fun e => bytes_eqb e.2 element) walk).
(** The positions of the matches among the first [maxlen] items of the walk,
    without the first [|rank| - 1] of them, up to [count] (0: all, none given:
    one). *)
Definition lpos_ref (element : bytes) (rank : Z) (count : option Z) (maxlen : Z) (items : list bytes) : list Z :=
  let walk := if 0 <? rank then indexed items else rev (indexed items) in
  let walk := if maxlen =? 0 then walk else take (Z.to_nat maxlen) walk in
  let found := drop (Z.to_nat (Z.abs rank - 1)) (hits element walk) in
  match count with
  | None => take 1 found
  | Some c => if c =? 0 then found else take (Z.to_nat c) found
  end.

Definition wanted (want : option Z) : Z := default 1 want.

Lemma lpos_loop_eq element want skip maxlen walk : forall seen compared out,
  0 <= seen -> 0 <= compared -> 0 <= maxlen -> Z.of_nat (length out) < wanted want ->
  (want = None -> out = []) ->
  lpos_loop element want skip maxlen seen compared out walk =
  out ++ take (Z.to_nat (wanted want) - length out) (drop (Z.to_nat (skip - seen))
    (hits element (if maxlen =? 0 then walk else take (Z.to_nat (maxlen - compared)) walk))).
Proof.
  induction walk as [|[idx item] walk IH]; intros seen compared out H1 H2 H3 H4 H5.
  { rewrite take_nil. replace (if maxlen =? 0 then [] else []) with (@nil (Z * bytes)) by (by destruct (maxlen =? 0)).
    cbn [hits List.filter map]. rewrite drop_nil, take_nil. by rewrite app_nil_r. }
  cbn [lpos_loop]. destruct (negb (maxlen =? 0) && (maxlen <? compared + 1)) eqn:E.
  { apply andb_true_iff in E as [E1 E2]. apply negb_true_iff in E1. apply Z.ltb_lt in E2. rewrite E1.
    replace (Z.to_nat (maxlen - compared)) with O by lia. cbn [take firstn hits List.filter map]. rewrite drop_nil, take_nil.
    by rewrite app_nil_r. }
  set (rest := if maxlen =? 0 then walk else take (Z.to_nat (maxlen - (compared + 1))) walk).
  replace (if maxlen =? 0 then (idx, item) :: walk else take (Z.to_nat (maxlen - compared)) ((idx, item) :: walk))
    with ((idx, item) :: rest).
  2: { unfold rest. destruct (maxlen =? 0) eqn:E0; [done|]. cbn [negb andb] in E. apply Z.ltb_ge in E.
       by replace (Z.to_nat (maxlen - compared)) with (S (Z.to_nat (maxlen - (compared + 1)))) by lia. }
  unfold hits. cbn [List.filter snd]. fold (hits element rest).
  destruct (bytes_eqb item element); [|rewrite IH by (done || lia); done]. cbn [map fst]. fold (hits element rest).
  destruct (skip <=? seen) eqn:Es; [apply Z.leb_le in Es|apply Z.leb_gt in Es].
  - replace (Z.to_nat (skip - seen)) with O by lia. cbn [drop skipn].
    destruct want as [w|]; cbn [wanted default from_option id] in H4 |- *.
    + rewrite length_app. simpl length. replace (Z.to_nat w - length out)%nat with (S (Z.to_nat w - length (out ++ [idx])))
        by (rewrite length_app; simpl; lia). cbn [take firstn]. destruct (w <=? _) eqn:Ew; [apply Z.leb_le in Ew|apply Z.leb_gt in Ew].
      * replace (Z.to_nat w - length (out ++ [idx]))%nat with O by (rewrite length_app; simpl; lia). done.
      * rewrite IH; [|lia|lia|lia|cbn [wanted default from_option id]; rewrite length_app; simpl; lia|done].
        cbn [wanted default from_option id]. replace (Z.to_nat (skip - (seen + 1))) with O by lia. by rewrite <- app_assoc.
    + rewrite (H5 eq_refl). done.
  - rewrite IH by (done || lia). by replace (Z.to_nat (skip - seen)) with (S (Z.to_nat (skip - (seen + 1)))) by lia.
Qed.

Lemma hits_length element walk : (length (hits element walk) <= length walk)%nat.
Proof. unfold hits. rewrite length_map. apply filter_length_le. Qed.

(** LPOS is exact: its walk with the counters for skipped matches,
    comparisons and results finds the matches the options name - among the
    first MAXLEN items from the end the sign of RANK names, from the |RANK|-th
    match on, COUNT of them (all for 0, one if not given). *)
Theorem lpos_exact element rank count maxlen items :
  rank <> 0 -> 0 <= maxlen -> (forall c, count = Some c -> 0 <= c) -> Z.of_nat (length items) < 2 ^ 64 - 1 ->
  lpos_matches element rank count maxlen items = lpos_ref element rank count maxlen items.
Proof.
  intros Hr Hm Hc Hl. unfold lpos_matches, lpos_ref. set (walk := if 0 <? rank then _ else _).
  assert (Lw : length walk = length items) by (unfold walk; destruct (0 <? rank); rewrite ?length_rev; apply length_imap).
  rewrite lpos_loop_eq; [|lia|lia|lia| |by destruct count].
  2: { destruct count as [c|]; cbn [wanted default from_option id fmap option_fmap option_map length]; [|lia].
       pose proof (Hc c eq_refl). destruct (c =? 0) eqn:E; [lia|apply Z.eqb_neq in E; lia]. }
  rewrite !Z.sub_0_r. cbn [app length]. rewrite Nat.sub_0_r.
  destruct count as [c|]; cbn [wanted default from_option id fmap option_fmap option_map]; [|done].
  destruct (c =? 0); [|done]. apply take_ge. rewrite length_drop.
  pose proof (hits_length element (if maxlen =? 0 then walk else take (Z.to_nat maxlen) walk)) as Lh.
  destruct (maxlen =? 0); rewrite ?length_take in Lh; lia.
Qed.

Lemma lpos_exact_witness :
  lpos_matches [97] (-2) (Some 0) 5 [[97]; [98]; [97]; [97]; [98]; [97]] = [3; 2].
Proof.
  rewrite (lpos_exact [97] (-2) (Some 0) 5 [[97]; [98]; [97]; [97]; [98]; [97]]).
  - vm_compute. reflexivity.
  - lia.
  - lia.
  - intros c [= <-]. lia.
  - vm_compute. reflexivity.
Defined.
