(* ===== verification/Generic.v ===== *)
(** * Keyspace commands ([crates/marekvs-engine/src/cmd/generic.rs])

    DEL, EXISTS, TYPE, the expiry family, SCAN/KEYS/RANDOMKEY, RENAME and COPY,
    as programs of the shard monad on parsed arguments. Both keys of a rename or
    copy are taken to live on one shard; fetching remote keys is not modelled.
    Machine arithmetic wraps, as the release profile compiles it. *)

From Stdlib Require Import String.
From S2P Require Import Prelude Partition Hlc Envelope Ikey Counter Lattice Merge MergeLaws Store Resp Reply Glob Server.

(** One portable record: tag, element suffix, stored value. *)
Definition KeyRecord : Type := Z * bytes * bytes.

(** ** Cursors *)

Definition hex_digit (d : Z) : Z := if d <? 10 then 48 + d else 87 + d.
Definition hex_encode (b : bytes) : bytes := flat_map (fun x => [hex_digit (x / 16); hex_digit (x mod 16)]) b.

(** [str::from_utf8(s).is_ok()]. *)
Definition cont (b : Z) : bool := (128 <=? b) && (b <? 192).
Fixpoint utf8_ok (l : bytes) : bool :=
  match l with
  | [] => true
  | b0 :: l1 =>
      if b0 <? 128 then utf8_ok l1 else
      match l1 with
      | [] => false
      | b1 :: l2 =>
          if (194 <=? b0) && (b0 <? 224) then cont b1 && utf8_ok l2 else
          match l2 with
          | [] => false
          | b2 :: l3 =>
              if (224 <=? b0) && (b0 <? 240) then
                (if b0 =? 224 then (160 <=? b1) && (b1 <? 192)
                 else if b0 =? 237 then (128 <=? b1) && (b1 <? 160) else cont b1) && cont b2 && utf8_ok l3
              else match l3 with
              | [] => false
              | b3 :: l4 =>
                  (240 <=? b0) && (b0 <? 245) &&
                  (if b0 =? 240 then (144 <=? b1) && (b1 <? 192)
                   else if b0 =? 244 then (128 <=? b1) && (b1 <? 144) else cont b1) &&
                  cont b2 && cont b3 && utf8_ok l4
              end
          end
      end
  end.

(** [u8::from_str_radix(_, 16)] of two bytes. *)
Definition hex_val (c : Z) : option Z :=
  if (48 <=? c) && (c <=? 57) then Some (c - 48)
  else if (97 <=? c) && (c <=? 102) then Some (c - 87)
  else if (65 <=? c) && (c <=? 70) then Some (c - 55)
  else None.
Definition from_str_radix16 (a b : Z) : option Z :=
  if a =? 43 then hex_val b
  else match hex_val a, hex_val b with Some x, Some y => Some (16 * x + y) | _, _ => None end.
(** The pairs of [s]: [&s[i..i + 2]] panics off a character boundary. *)
Fixpoint hex_pairs (s : bytes) : rust (option bytes) :=
  match s with
  | a :: b :: s' =>
      if cont a || (match s' with c :: _ => cont c | [] => false end) then Panic else
      match from_str_radix16 a b with
      | None => Ret None
      | Some x => let! r := hex_pairs s' in Ret (cons x <$> r)
      end
  | _ => Ret (Some [])
  end.
Definition hex_decode (s : bytes) : rust (option bytes) :=
  if negb (Nat.even (length s)) then Ret None
  else if negb (utf8_ok s) then Ret None
  else hex_pairs s.

(** ** Keys commands may not change ([is_immutable_key], [guard] of
    [cmd/diff/keys.rs]) *)

(** What follows the first [}:]. *)
Fixpoint after_close (l : bytes) : option bytes :=
  match l with
  | a :: (b :: l'') as l' => if (a =? 125) && (b =? 58) then Some l'' else after_close l'
  | _ => None
  end.
Definition strip_prefix (p l : bytes) : option bytes := if starts_with l p then Some (drop (length p) l) else None.
Definition is_immutable_key (key : bytes) : bool :=
  match strip_prefix (str "doc:{") key, strip_prefix (str "diff:{") key with
  | Some t, _ => match after_close t with Some x => starts_with x (str "s:") | None => false end
  | None, Some t => match after_close t with Some x => starts_with x (str "g:") || starts_with x (str "r:") | None => false end
  | None, None => false
  end.
Definition guarded (ks : list bytes) : bool := existsb is_immutable_key ks.
Definition IMMUTABLE : Reply := RErr (str "DIFFIMMUTABLE immutable snapshot, graph or result key").

Section generic.
Context {DB : Type} `{!KV DB}.
Context (node_id : Z) (wall : nat -> Z).
(** The records of a JSON document, and of a protobuf document from its head
    payload, under fresh element ids. *)
Context (json_records : bytes -> Z -> M DB (option (list KeyRecord))).
Context (proto_records : bytes -> Z -> bytes -> M DB (option (list KeyRecord))).

(** ** Deleting and asking *)

Fixpoint del_loop (keys : list bytes) (n : Z) : M DB Z :=
  match keys with
  | [] => mret n
  | key :: keys => b ← del_key node_id wall key; del_loop keys (if (b : bool) then n + 1 else n)
  end.
Definition del (keys : list bytes) : M DB Reply := n ← del_loop keys 0; mret (RInt n).

Fixpoint exists_loop (keys : list bytes) (n : Z) : M DB Z :=
  match keys with
  | [] => mret n
  | key :: keys => t ← key_type wall key; exists_loop keys (match t with Some _ => n + 1 | None => n end)
  end.
Definition exists_cmd (keys : list bytes) : M DB Reply := n ← exists_loop keys 0; mret (RInt n).

Definition type_name (t : option Z) : bytes :=
  match t with
  | None => str "none"
  | Some t =>
      if t =? 115 then str "string"
      else if t =? CTYPE_LIST then str "list"
      else if t =? CTYPE_HASH then str "hash"
      else if t =? CTYPE_SET then str "set"
      else if t =? CTYPE_ZSET then str "zset"
      else if t =? CTYPE_STREAM then str "stream"
      else if t =? CTYPE_HLL then str "string"
      else if t =? CTYPE_BUDGET then str "budget"
      else if t =? CTYPE_JSON then str "ReJSON-RL"
      else if t =? CTYPE_PROTO then str "proto"
      else str "none"
  end.
Definition type_cmd (key : bytes) : M DB Reply := t ← key_type wall key; mret (RSimple (type_name t)).

(** ** Expiry *)

Definition ttl_envelope (key : bytes) : M DB (option Envelope) :=
  t ← key_type wall key;
  match t with
  | None => mret None
  | Some t =>
      if t =? 115 then r ← read_lww wall (string_key key) 0; mret (fst <$> r)
      else if t =? 108 then r ← read_lww wall (list_key key) 0; mret (fst <$> r)
      else h ← get_head key; mret ((fun h => h.1.1) <$> h)
  end.

Definition get_head_del (userkey : bytes) : M DB Z :=
  h ← get_head userkey;
  match h with
  | None => mret 0
  | Some (env, _, del) => now ← now_ms wall; mret (carried_del env del now)
  end.

Definition member_element_key (key member : bytes) : M DB (option bytes) :=
  h ← get_head key;
  match h with
  | None => mret None
  | Some (env, ctype, _) =>
      if is_tombstone env then mret None else
      now ← now_ms wall;
      if is_expired env now then mret None else
      mret (if ctype =? CTYPE_HASH then Some (hash_field_key key member)
            else if ctype =? CTYPE_SET then Some (set_member_key key member)
            else if ctype =? CTYPE_ZSET then Some (zset_member_key key member)
            else None)
  end.

(** The live element record of [member], its key and envelope. *)
Definition live_member (elem_key : bytes) (del : Z) : M DB (option (Envelope * bytes)) :=
  raw ← get_raw elem_key;
  match raw ≫= Envelope_decode with
  | None => mret None
  | Some (env, payload) =>
      now ← now_ms wall;
      match visible env payload del now with
      | None => mret None
      | Some _ => v ← lift (element_value payload); mret (match v with None => None | Some _ => Some (env, payload) end)
      end
  end.

Definition set_member_deadline (key member : bytes) (deadline_ms : Z) : M DB bool :=
  k ← member_element_key key member;
  match k with
  | None => mret false
  | Some elem_key =>
      del ← get_head_del key;
      r ← live_member elem_key del;
      match r with
      | None => mret false
      | Some (env, payload) =>
          past ← (if deadline_ms =? 0 then mret false else now ← now_ms wall; mret (deadline_ms <=? now));
          if (past : bool) then
            dots ← lift (element_dots payload);
            h ← hlc_now wall;
            _ ← write_merged elem_key (element_remove (rtype env) h node_id dots); mret true
          else
            h ← hlc_now wall;
            _ ← write_merged elem_key (encode_with (mkEnvelope (flags env) h node_id deadline_ms) payload); mret true
      end
  end.

(** The deadline of the EXPIRE family: [mult] milliseconds a unit. *)
Definition deadline_of (n mult : Z) (absolute : bool) : M DB Z :=
  if absolute then mret (wrap 64 (Z.max n 0 * mult))
  else if n <=? 0 then mret 1
  else now ← now_ms wall; mret (wrap 64 (now + wrap 64 (n * mult))).

Definition expiremember (key member : bytes) (n mult : Z) (absolute : bool) : M DB Reply :=
  deadline ← deadline_of n mult absolute;
  b ← set_member_deadline key member deadline; mret (RInt (if (b : bool) then 1 else 0)).

(** The reply for a deadline. *)
Definition remaining (millis : bool) (deadline now : Z) : Z :=
  let remain := Z.max 0 (deadline - now) in
  to_signed 64 (if millis then remain else remain / 1000).
Definition member_ttl (key member : bytes) (millis : bool) : M DB Reply :=
  k ← member_element_key key member;
  match k with
  | None => mret (RInt (-2))
  | Some elem_key =>
      del ← get_head_del key;
      now ← now_ms wall;
      raw ← get_raw elem_key;
      match raw ≫= Envelope_decode with
      | None => mret (RInt (-2))
      | Some (env, pay) =>
          match visible env pay del now with
          | None => mret (RInt (-2))
          | Some _ =>
              v ← lift (element_value pay);
              mret (RInt (match v with
                    | None => -2
                    | Some _ => if ttl_deadline_ms env =? 0 then -1 else remaining millis (ttl_deadline_ms env) now
                    end))
          end
      end
  end.

Definition ttl (key : bytes) (millis : bool) : M DB Reply :=
  e ← ttl_envelope key;
  match e with
  | None => mret (RInt (-2))
  | Some env =>
      if ttl_deadline_ms env =? 0 then mret (RInt (-1))
      else now ← now_ms wall; mret (RInt (remaining millis (ttl_deadline_ms env) now))
  end.
Definition expiretime (key : bytes) (millis : bool) : M DB Reply :=
  e ← ttl_envelope key;
  mret (RInt (match e with
        | None => -2
        | Some env =>
            if ttl_deadline_ms env =? 0 then -1
            else to_signed 64 (if millis then ttl_deadline_ms env else ttl_deadline_ms env / 1000)
        end)).

Definition set_deadline (key : bytes) (deadline : Z) : M DB bool :=
  t ← key_type wall key;
  match t with
  | None => mret false
  | Some t =>
      if t =? 115 then
        r ← read_lww wall (string_key key) 0;
        match r with
        | None => mret false
        | Some (env, payload) =>
            rec ← new_lww node_id wall (if bool_decide (rtype env = Counter) then Counter else RString) payload deadline;
            _ ← write_merged (string_key key) rec; mret true
        end
      else
        h ← get_head key;
        match h with
        | Some (_, t', _) =>
            if t' =? t then
              raw ← get_raw (head_key key);
              match raw ≫= Envelope_decode with
              | None => mret false
              | Some (_, pay) =>
                  h ← hlc_now wall;
                  _ ← write_merged (head_key key) (encode_with (with_ttl (Envelope_head h node_id) deadline) pay); mret true
              end
            else mret false
        | None => mret false
        end
  end.

Definition expire (key : bytes) (n mult : Z) (absolute : bool) : M DB Reply :=
  deadline ← deadline_of n mult absolute;
  t ← key_type wall key;
  if bool_decide (t = Some CTYPE_BUDGET) then mret (RErr (str "ERR EXPIRE is not supported for budget keys (use DEL)")) else
  now ← now_ms wall;
  if deadline <=? now then b ← del_key node_id wall key; mret (RInt (if (b : bool) then 1 else 0))
  else b ← set_deadline key deadline; mret (RInt (if (b : bool) then 1 else 0)).

Definition persist (key : bytes) : M DB Reply :=
  e ← ttl_envelope key;
  match e with
  | Some env =>
      if ttl_deadline_ms env =? 0 then mret (RInt 0)
      else b ← set_deadline key 0; mret (RInt (if (b : bool) then 1 else 0))
  | None => mret (RInt 0)
  end.

(** ** Enumerating *)

Record Walk := mkWalk { wk_seen : list bytes; wk_out : list bytes; wk_next : bytes; wk_count : Z }.

(** Whether a record makes its user key visible. *)
Definition shows_key (tag : Z) (v : bytes) (now : Z) : rust bool :=
  match Envelope_decode v with
  | None => Ret false
  | Some (env, pay) =>
      if tag =? tag_u8 THead then Ret (negb (is_tombstone env) && negb (is_expired env now))
      else match visible env pay 0 now with
           | None => Ret false
           | Some _ =>
               if is_or_element (rtype env) then let! x := element_value pay in Ret (bool_decide (is_Some x))
               else Ret true
           end
  end.
Definition matches (pattern : option bytes) (key : bytes) : bool :=
  match pattern with None => true | Some pat => bool_decide (glob_match pat key = Some true) end.

Definition scan_step (start_after : bytes) (limit : Z) (pattern : option bytes) (now : Z)
    (w : Walk) (k v : bytes) : rust (Walk * bool) :=
  let count := wk_count w + 1 in
  let w := mkWalk (wk_seen w) (wk_out w) (wk_next w) count in
  if wrap 64 (limit * 64) <? count then Ret (mkWalk (wk_seen w) (wk_out w) k count, false) else
  if negb (bool_decide (start_after = [])) && bool_decide (bytes_cmp k start_after <> Gt) then Ret (w, true) else
  let! p := parse k in
  match p with
  | None => Ret (w, true)
  | Some p =>
      if pk_tag p =? tag_u8 TZsetScore then Ret (w, true)
      else if bool_decide (head (pk_userkey p) = Some 0) then Ret (w, true)
      else if bool_decide (pk_userkey p ∈ wk_seen w) then Ret (w, true)
      else
        let! vis := shows_key (pk_tag p) v now in
        if vis && matches pattern (pk_userkey p) then
          let out := wk_out w ++ [pk_userkey p] in
          let full := limit <=? Z.of_nat (length out) in
          Ret (mkWalk (pk_userkey p :: wk_seen w) out (if full then k else wk_next w) count, negb full)
        else Ret (w, true)
  end.
Definition scan_userkeys (start_after : bytes) (limit : Z) (pattern : option bytes) : M DB (list bytes * bytes) :=
  now ← now_ms wall;
  w ← scan_prefix [] (scan_step start_after limit pattern now) (mkWalk [] [] [] 0);
  mret (wk_out w, wk_next w).

Definition keys (pattern : bytes) : M DB Reply :=
  r ← scan_userkeys [] ((2 ^ 64 - 1) / 128) (Some pattern); mret (RArray (map RBulk r.1)).
Definition randomkey : M DB Reply :=
  r ← scan_userkeys [] 1 None; mret (match r.1 with k :: _ => RBulk k | [] => RNull end).

(** The options of SCAN; [None] is a syntax error. *)
Fixpoint scan_opts (args : list bytes) (pattern : option bytes) (count : Z) : option (option bytes * Z) :=
  match args with
  | [] => Some (pattern, count)
  | a :: rest =>
      if eq_ignore_case a "MATCH" then
        match rest with [] => Some (None, count) | v :: rest => scan_opts rest (Some v) count end
      else if eq_ignore_case a "COUNT" then
        match rest with [] => Some (pattern, 10) | v :: rest => scan_opts rest pattern (default 10 (parse_u64 v)) end
      else if eq_ignore_case a "TYPE" then
        match rest with [] => Some (pattern, count) | _ :: rest => scan_opts rest pattern count end
      else None
  end.
Definition scan (cursor_arg : bytes) (args : list bytes) : M DB Reply :=
  match scan_opts args None 10 with
  | None => mret syntax
  | Some (pattern, count) =>
      start ← (if bool_decide (cursor_arg = str "0") then mret (Some []) else lift (hex_decode cursor_arg));
      match start with
      | None => mret (RErr (str "ERR invalid cursor"))
      | Some start_after =>
          r ← scan_userkeys start_after (Z.max count 1) pattern;
          let cursor := if bool_decide (r.2 = []) then str "0" else hex_encode r.2 in
          mret (RArray [RBulk cursor; RArray (map RBulk r.1)])
      end
  end.

(** ** Renaming and copying *)

Fixpoint budget_move_fence (what : string) (ks : list bytes) : M DB (option Reply) :=
  match ks with
  | [] => mret None
  | key :: ks =>
      t ← key_type wall key;
      if bool_decide (t = Some CTYPE_BUDGET)
      then mret (Some (RErr (str "ERR " ++ str what ++ str " is not supported for budget keys")))
      else budget_move_fence what ks
  end.

(** The element tags a collection copies by scanning. *)
Definition copied_tag (ctype : Z) : option Tag :=
  if ctype =? CTYPE_HASH then Some THashField
  else if ctype =? CTYPE_SET then Some TSetMember
  else if ctype =? CTYPE_ZSET then Some TZsetMember
  else if ctype =? CTYPE_STREAM then Some TStreamEntry
  else if ctype =? CTYPE_HLL then Some THllRegister
  else if ctype =? CTYPE_LIST then Some TListElem
  else None.

(** One element record under a fresh clock. *)
Definition fresh_record (env : Envelope) (pay : bytes) : M DB (option bytes) :=
  if is_or_element (rtype env) then
    v ← lift (element_value pay);
    match v with
    | None => mret None
    | Some val =>
        h ← hlc_now wall;
        mret (Some (element_add_ttl (rtype env) h node_id val (ttl_deadline_ms env)))
    end
  else r ← new_lww node_id wall (rtype env) pay (ttl_deadline_ms env); mret (Some r).
Definition collect_step (tag : Tag) (del now : Z) (out : list KeyRecord) (k v : bytes) : M DB (list KeyRecord * bool) :=
  p ← lift (parse k);
  match p, Envelope_decode v with
  | Some p, Some (env, pay) =>
      match visible env pay del now with
      | None => mret (out, true)
      | Some _ =>
          r ← fresh_record env pay;
          mret (match r with Some r => (out ++ [(tag_u8 tag, pk_suffix p, r)], true) | None => (out, true) end)
      end
  | _, _ => mret (out, true)
  end.
Definition collect_key_records (key : bytes) : M DB (option (list KeyRecord)) :=
  t ← key_type wall key;
  match t with
  | None => mret None
  | Some t =>
      now ← now_ms wall;
      if t =? 115 then
        r ← read_lww wall (string_key key) 0;
        match r with
        | None => mret None
        | Some (env, pay) =>
            match (if bool_decide (rtype env = Counter)
                   then c ← CounterState_decode pay; v ← value c; Some (Z_to_string v) else Some pay) with
            | None => mret None
            | Some pay =>
                rec ← new_lww node_id wall RString pay (ttl_deadline_ms env);
                mret (Some [(tag_u8 TString, [], rec)])
            end
        end
      else
        h ← get_head key;
        match h with
        | None => mret None
        | Some (head_env, _, del) =>
            if t =? CTYPE_JSON then
              h ← hlc_now wall;
              let rec := encode_with (with_ttl (Envelope_head h node_id) (ttl_deadline_ms head_env)) (head_encode CTYPE_JSON 0) in
              rs ← json_records key del;
              mret (cons (tag_u8 THead, [], rec) <$> rs)
            else
              head_raw ← get_raw (head_key key);
              match head_raw ≫= Envelope_decode with
              | None => mret None
              | Some (_, head_payload) =>
                  h ← hlc_now wall;
                  let rec := encode_with (with_ttl (Envelope_head h node_id) (ttl_deadline_ms head_env)) head_payload in
                  if t =? CTYPE_PROTO then
                    rs ← proto_records key del head_payload;
                    mret (cons (tag_u8 THead, [], rec) <$> rs)
                  else match copied_tag t with
                  | None => mret None
                  | Some tag =>
                      rs ← scan_prefix_cmd (collection_prefix tag key) (collect_step tag del now)
                             [(tag_u8 THead, [], rec)];
                      mret (Some rs)
                  end
              end
        end
  end.

Definition shadow_head_del_hlc (payload : bytes) (min : Z) : bytes :=
  if (9 <=? length payload)%nat then
    if of_be (slice 1 9 payload) <? min then take 1 payload ++ be_bytes 8 min ++ drop 9 payload else payload
  else payload.

Definition rebuild_ikey (tag : Z) (userkey suffix : bytes) : rust bytes :=
  if tag =? tag_u8 TString then Ret (string_key userkey)
  else if tag =? tag_u8 TList then Ret (list_key userkey)
  else if tag =? tag_u8 THead then Ret (head_key userkey)
  else if tag =? tag_u8 THashField then Ret (hash_field_key userkey suffix)
  else if tag =? tag_u8 TSetMember then Ret (set_member_key userkey suffix)
  else if tag =? tag_u8 TZsetMember then Ret (zset_member_key userkey suffix)
  else if tag =? tag_u8 TListElem then Ret (prefixed TListElem userkey suffix)
  else if tag =? tag_u8 TStreamEntry then Ret (prefixed TStreamEntry userkey suffix)
  else if tag =? tag_u8 THllRegister then Ret (prefixed THllRegister userkey suffix)
  else if tag =? tag_u8 TJson then Ret (json_node_key userkey suffix)
  else if tag =? tag_u8 TProtoField then Ret (proto_field_key userkey suffix)
  else Panic.

Definition restamp_record (value : bytes) (min_head_del_hlc : Z) : M DB (option bytes) :=
  match Envelope_decode value with
  | None => mret None
  | Some (env, payload) =>
      if is_head env then
        h ← hlc_now wall;
        mret (Some (encode_with (with_ttl (Envelope_head h node_id) (ttl_deadline_ms env))
                      (shadow_head_del_hlc payload min_head_del_hlc)))
      else fresh_record env payload
  end.

Fixpoint write_records (dst : bytes) (clobber : Z) (records : list KeyRecord) : M DB unit :=
  match records with
  | [] => mret tt
  | (tag, suffix, value) :: records =>
      ik ← lift (rebuild_ikey tag dst suffix);
      r ← restamp_record value clobber;
      _ ← match r with Some r => _ ← write_merged ik r; mret tt | None => mret tt end;
      write_records dst clobber records
  end.

Definition rename (src dst : bytes) (nx : bool) : M DB Reply :=
  fence ← budget_move_fence "RENAME" [src; dst];
  match fence with
  | Some r => mret r
  | None =>
      taken ← (if nx then t ← key_type wall dst; mret (bool_decide (is_Some t)) else mret false);
      if (taken : bool) then mret (RInt 0) else
      records ← collect_key_records src;
      match records with
      | None => mret (RErr (str "ERR no such key"))
      | Some records =>
          clobber ← del_key_hlc node_id wall dst;
          _ ← write_records dst (default 0 clobber) records;
          _ ← del_key node_id wall src;
          mret (if nx then RInt 1 else ok)
      end
  end.

Definition copy (src dst : bytes) (replace : bool) : M DB Reply :=
  fence ← budget_move_fence "COPY" [src; dst];
  match fence with
  | Some r => mret r
  | None =>
      taken ← (if replace then mret false else t ← key_type wall dst; mret (bool_decide (is_Some t)));
      if (taken : bool) then mret (RInt 0) else
      records ← collect_key_records src;
      match records with
      | None => mret (RInt 0)
      | Some records =>
          clobber ← (if replace then h ← del_key_hlc node_id wall dst; mret (default 0 h) else mret 0);
          _ ← write_records dst clobber records;
          mret (RInt 1)
      end
  end.

(** ** The argument layer *)

Definition del_args (args : list bytes) : M DB Reply :=
  if guarded (drop 1 args) then mret IMMUTABLE
  else match args with _ :: (_ :: _ as ks) => del ks | _ => mret (wrong_args "del") end.
Definition exists_args (args : list bytes) : M DB Reply :=
  match args with _ :: (_ :: _ as ks) => exists_cmd ks | _ => mret (wrong_args "exists") end.
Definition type_args (args : list bytes) : M DB Reply :=
  match args with [_; key] => type_cmd key | _ => mret (wrong_args "type") end.
Definition ttl_args (millis : bool) (args : list bytes) : M DB Reply :=
  match args with [_; key] => ttl key millis | _ => mret (wrong_args "ttl") end.
Definition expiretime_args (millis : bool) (args : list bytes) : M DB Reply :=
  match args with [_; key] => expiretime key millis | _ => mret (wrong_args "expiretime") end.

Definition expire_args (mult : Z) (absolute : bool) (args : list bytes) : M DB Reply :=
  if guarded (take 1 (drop 1 args)) then mret IMMUTABLE
  else match args with
  | _ :: key :: n :: _ => match parse_i64 n with Some n => expire key n mult absolute | None => mret not_int end
  | _ => mret (wrong_args "expire")
  end.
Definition persist_args (args : list bytes) : M DB Reply :=
  if guarded (take 1 (drop 1 args)) then mret IMMUTABLE
  else match args with [_; key] => persist key | _ => mret (wrong_args "persist") end.
Definition expiremember_args (mult : Z) (absolute : bool) (args : list bytes) : M DB Reply :=
  if guarded (take 1 (drop 1 args)) then mret IMMUTABLE
  else match args with
  | _ :: key :: member :: n :: unit_ =>
      if (absolute && negb (bool_decide (unit_ = []))) || (1 <? length unit_)%nat then mret (wrong_args "expiremember")
      else match parse_i64 n with
      | None => mret not_int
      | Some n =>
          match unit_ with
          | [] => expiremember key member n mult absolute
          | u :: _ =>
              if eq_ignore_case u "s" then expiremember key member n 1000 absolute
              else if eq_ignore_case u "ms" then expiremember key member n 1 absolute
              else mret syntax
          end
      end
  | _ => mret (wrong_args "expiremember")
  end.

Definition keys_args (args : list bytes) : M DB Reply :=
  match args with [_; pattern] => keys pattern | _ => mret (wrong_args "keys") end.
Definition scan_args (args : list bytes) : M DB Reply :=
  match args with _ :: cursor :: opts => scan cursor opts | _ => mret (wrong_args "scan") end.
Definition rename_args (nx : bool) (args : list bytes) : M DB Reply :=
  if guarded (take 2 (drop 1 args)) then mret IMMUTABLE
  else match args with [_; src; dst] => rename src dst nx | _ => mret (wrong_args "rename") end.
Fixpoint copy_opts (args : list bytes) (replace : bool) : Reply + bool :=
  match args with
  | [] => inr replace
  | a :: rest =>
      if eq_ignore_case a "REPLACE" then copy_opts rest true
      else if eq_ignore_case a "DB" then
        match rest with
        | [] => inl not_int
        | v :: rest =>
            match parse_u64 v with
            | None => inl not_int
            | Some d => if d =? 0 then copy_opts rest replace else inl (RErr (str "ERR DB index is out of range"))
            end
        end
      else inl syntax
  end.
Definition copy_args (args : list bytes) : M DB Reply :=
  if guarded (take 1 (drop 2 args)) then mret IMMUTABLE
  else match args with
  | _ :: src :: dst :: opts => match copy_opts opts false with inl r => mret r | inr replace => copy src dst replace end
  | _ => mret (wrong_args "copy")
  end.
End generic.
