(* ===== verification/GenericLaws.v ===== *)
(** * Laws of the keyspace commands

    What DEL, RENAME, COPY, EXPIRE, KEYS and SCAN of [Generic] guarantee, and
    where they depart from what they mean to do. *)

From Stdlib Require Import String.
From S2P Require Import Prelude Partition Hlc Envelope Ikey Counter Lattice Merge MergeLaws Store Resp Reply Glob Server.
From S2P Require Import ListCmd ListLaws ListRefine Generic.

(** ** Deadlines *)

(** The clock never passes the deadline. *)
Definition in_time (wall : nat -> Z) (ttl : Z) : Prop := u64 ttl /\ forall n, is_expired (mkEnvelope 0 0 0 ttl) (wall n) = false.
Lemma in_time_env wall env ttl n : ttl_deadline_ms env = ttl -> in_time wall ttl -> is_expired env (wall n) = false.
Proof. intros E [_ X]. specialize (X n). unfold is_expired in *. by rewrite E. Qed.
Lemma no_deadline wall : in_time wall 0.
Proof. split; [by vm_compute|]. intros n. by vm_compute. Qed.

(** ** Registers and their types *)

Section keys.
Context {DB : Type} `{KVLaws DB}.
Context (node_id : Z) (wall : nat -> Z) (node_range : u16 node_id) (walls : forall n, 0 <= wall n < 2 ^ 47).

(** The record at [ik], if any, is a register written before [w]. *)
Definition reg_upto (w : Z) (d : DB) (ik : bytes) : Prop := forall v, kv_get d ik = Some v ->
  exists r, envelope_ok r.1 /\ lww_type (rtype r.1) = true /\ hlc r.1 <= w /\ v = reg_bytes r.

Lemma write_newer s w ik p r : parse ik = Ret (Some p) -> pk_tag p <> tag_u8 TSetMember -> pk_tag p <> tag_u8 TBudget ->
  reg_upto w (db s) ik -> envelope_ok r.1 -> lww_type (rtype r.1) = true -> w < hlc r.1 ->
  exists b d', write_merged ik (reg_bytes r) s = Ret (b, with_db s d') /\ kv_get d' ik = Some (reg_bytes r) /\
    Store.frame ik (db s) d'.
Proof.
  intros Hp T1 T2 U O L W. eapply write_merged_plain; [exact Hp|done|].
  destruct (kv_get (db s) ik) as [v|] eqn:G; [|done]. cbn [deliver_with].
  destruct (U v G) as (r0 & O0 & L0 & W0 & ->). rewrite (merged_at_plain _ _ _ _ Hp) by done.
  rewrite merged_bytes_lww by done. unfold pick, reg_ltb, ver_ltb, ver_cmp, env_version. cbn [fst].
  by rewrite (proj2 (Z.compare_lt_iff (hlc r0.1) (hlc r.1))) by lia.
Qed.

(** A string is shown. *)
Definition string_shown (d : DB) (k : bytes) (now : Z) : bool :=
  match kv_get d (string_key k) ≫= Envelope_decode with
  | Some (env, pay) => bool_decide (is_Some (visible env pay 0 now))
  | None => false
  end.
(** The head of a key, as stored. *)
Definition head_of (d : DB) (k : bytes) : option (Envelope * Z * Z) :=
  match kv_get d (head_key k) ≫= Envelope_decode with
  | Some (env, pay) => match head_decode pay with Some (t, del) => Some (env, t, del) | None => None end
  | None => None
  end.

Lemma get_head_eq k s : get_head k s = Ret (head_of (db s) k, s).
Proof. done. Qed.

Lemma collection_nonempty_total ctype k del s : exists b s', collection_nonempty wall ctype k del s = Ret (b, s') /\ quiet s s' /\ (ticks s <= ticks s')%nat.
Proof.
  unfold collection_nonempty. destruct (_ || _); [by exists true, s|]. destruct (ctype_tag ctype) as [tag|]; [|by exists false, s].
  unfold mbind, M_bind, now_ms. cbn [rust_bind fst snd]. unfold scan_prefix, scan_from.
  match goal with |- context [scan_loop _ ?f _ _] =>
    assert (T : forall l' acc, exists b, scan_loop (collection_prefix tag k) f acc l' = Ret b) end.
  { induction l' as [|[q v] l' IH]; intros acc; cbn [scan_loop]; [eauto|]. destruct (negb _); [eauto|].
    cbn [rust_bind]. destruct (Envelope_decode v) as [[env pay]|]; cbn [fst snd]; [|eauto].
    destruct (visible _ _ _ _); cbn [fst snd]; eauto. }
  destruct (T (kv_range (db s) (collection_prefix tag k) (prefix_upper_bound (collection_prefix tag k))) false) as [b E].
  cbn [db]. rewrite E. exists b, (tick s). split; [done|]. split; [done|]. cbn [ticks tick]. lia.
Qed.

(** The type of a key: its string, else its head if live and not empty. *)
Lemma key_type_eq k s : kv_get (db s) (list_key k) = None -> exists o s', key_type wall k s = Ret (o, s') /\ quiet s s' /\
  (ticks s <= ticks s')%nat /\ (if string_shown (db s) k (wall (ticks s)) then o = Some 115
   else if head_live (head_of (db s) k) (wall (ticks s)) then o = None \/ exists env t del, head_of (db s) k = Some (env, t, del) /\ o = Some t
   else o = None).
Proof.
  intros Nl. unfold key_type, mbind at 1, M_bind at 1, now_ms. cbn [rust_bind fst snd]. fold (tick s).
  unfold mbind at 1, M_bind at 1, get_raw at 1, reads at 1. cbn [rust_bind fst snd].
  change (match kv_get (db (tick s)) (string_key k) ≫= Envelope_decode with Some _ => _ | None => _ end)
    with (string_shown (db s) k (wall (ticks s))).
  destruct (string_shown (db s) k (wall (ticks s))); [exists (Some 115), (tick s); repeat split; cbn [ticks tick]; lia|].
  unfold mbind at 1, M_bind at 1. rewrite get_head_eq. cbn [rust_bind fst snd]. change (db (tick s)) with (db s).
  assert (Rest : forall s1 : Shard DB, db s1 = db s -> forall f : option bytes -> option Z, f None = None ->
    (l ← get_raw (list_key k); mret (f l)) s1 = Ret (None, s1)).
  { intros s1 Ed f Ef. unfold mbind, M_bind, get_raw, reads. cbn [rust_bind fst snd]. by rewrite Ed, Nl, Ef. }
  unfold mbind at 1, M_bind at 1. unfold head_live. destruct (head_of (db s) k) as [[[env t] del]|].
  - destruct (negb (is_tombstone env) && negb (is_expired env (wall (ticks s)))).
    + destruct (collection_nonempty_total t k del (tick s)) as (b & s1 & -> & Q & Lt). cbn [ticks tick] in Lt. cbn [rust_bind fst snd].
      destruct b; [exists (Some t), s1; split; [done|]; split; [by transitivity (tick s)|]; split; [lia|eauto 6]|].
      exists None, s1. split; [apply (Rest s1); [apply Q|done]|]. split; [by transitivity (tick s)|]. split; [lia|auto].
    + cbn [rust_bind fst snd mret M_ret]. exists None, (tick s). split; [by apply (Rest (tick s))|].
      split; [done|]. split; [cbn [ticks tick]; lia|done].
  - cbn [rust_bind fst snd mret M_ret]. exists None, (tick s). split; [by apply (Rest (tick s))|].
    split; [done|]. split; [cbn [ticks tick]; lia|done].
Qed.

(** ** Deleting *)

(** The records that decide a key's type were written before [w], the head is
    of a collection type, and there is no list record of the old
    single-record format. *)
Definition key_upto (w : Z) (d : DB) (k : bytes) : Prop :=
  reg_upto w d (string_key k) /\ reg_upto w d (head_key k) /\ kv_get d (list_key k) = None /\
  forall env t del, head_of d k = Some (env, t, del) -> t <> 115.

Definition string_tomb (h : Z) : reg := (Envelope_tombstone RString h node_id, []).
Definition head_tomb (t h : Z) : reg := (mkEnvelope (Z.lor COLLECTION_HEAD TOMBSTONE) h node_id 0, head_encode t h).

Lemma reg_env_ok fl h ttl : u8 fl -> u64 h -> u64 ttl -> envelope_ok (mkEnvelope fl h node_id ttl).
Proof. by constructor. Qed.

(** What a delete writes: a string tombstone, or a head tombstone with the
    delete clock. *)
Lemma del_key_hlc_eq n k s : slice_len_ok k -> room (S n) s -> key_upto (hlc_word s) (db s) k ->
  exists o s', del_key_hlc node_id wall k s = Ret (o, s') /\ room n s' /\ pop_hints s' = pop_hints s /\
    match o with
    | None => db s' = db s /\ hlc_word s' = hlc_word s /\ string_shown (db s) k (wall (ticks s)) = false
    | Some h => hlc_word s < h /\ hlc_word s' = h /\ u64 h /\
        if string_shown (db s) k (wall (ticks s))
        then kv_get (db s') (string_key k) = Some (reg_bytes (string_tomb h)) /\ Store.frame (string_key k) (db s) (db s')
        else (exists t, kv_get (db s') (head_key k) = Some (reg_bytes (head_tomb t h))) /\ Store.frame (head_key k) (db s) (db s') /\
          head_live (head_of (db s) k) (wall (ticks s)) = true
    end.
Proof.
  intros Kl R (U1 & U2 & Nl & Ht). destruct (key_type_eq k s Nl) as (o & s1 & E & Q & _ & K). unfold del_key_hlc, mbind, M_bind.
  rewrite E. cbn [rust_bind fst snd]. pose proof Q as (Qd & Qh & Qw).
  assert (R1 : room (S n) s1) by (by eapply room_quiet).
  destruct o as [t|].
  2: { exists None, s1. split; [done|]. split; [destruct R1 as (? & ? & ?); unfold room; lia|]. split; [done|].
       split; [done|]. split; [done|]. by destruct (string_shown _ _ _). }
  destruct (hlc_now_eq wall walls s1 n R1) as (h & s2 & Eh & L & U & Ew & Ed & Ehi & R2).
  rewrite Qd in Ed. rewrite Qh in Ehi. rewrite Qw in L.
  destruct (string_shown (db s) k (wall (ticks s))) eqn:Sh.
  - injection K as ->. cbn [Z.eqb Pos.eqb]. rewrite Eh. cbn [rust_bind fst snd].
    destruct (write_newer s2 (hlc_word s) (string_key k) (mkParsedKey (pid_of k) (tag_u8 TString) k []) (string_tomb h))
      as (b & d' & Ewr & G & F); [by apply parse_simple|done|done|by rewrite Ed| |done|done|].
    { apply reg_env_ok; [by vm_compute|done|by vm_compute]. }
    unfold reg_bytes at 1 in Ewr. cbn [fst snd string_tomb] in Ewr. rewrite Ewr. cbn [rust_bind fst snd mret M_ret].
    exists (Some h), (with_db s2 d'). rewrite Ed in F. done.
  - assert (Hl : head_live (head_of (db s) k) (wall (ticks s)) = true /\ exists env del, head_of (db s) k = Some (env, t, del)).
    { destruct (head_live _ _); [|done]. split; [done|]. destruct K as [|(env & t' & del & E1 & [= ->])]; [done|eauto]. }
    destruct Hl as [Hl (env & del & Eho)].
    rewrite (proj2 (Z.eqb_neq t 115)) by (by eapply Ht). rewrite Eh. cbn [rust_bind fst snd].
    destruct (write_newer s2 (hlc_word s) (head_key k) (mkParsedKey (pid_of k) (tag_u8 THead) k []) (head_tomb t h))
      as (b & d' & Ewr & G & F); [by apply parse_head_key|done|done|by rewrite Ed| |done|done|].
    { apply reg_env_ok; [by vm_compute|done|by vm_compute]. }
    unfold reg_bytes at 1 in Ewr. cbn [fst snd head_tomb] in Ewr. rewrite Ewr. cbn [rust_bind fst snd mret M_ret].
    exists (Some h), (with_db s2 d'). rewrite Ed in F. split; [done|]. split; [done|]. split; [done|]. eauto 8.
Qed.


Lemma tomb_not_shown d k h now : u64 h -> kv_get d (string_key k) = Some (reg_bytes (string_tomb h)) -> string_shown d k now = false.
Proof.
  intros U G. unfold string_shown. rewrite G. cbn [mbind option_bind]. unfold reg_bytes, string_tomb.
  rewrite Envelope_decode_encode_with by (apply reg_env_ok; [by vm_compute|done|by vm_compute]). done.
Qed.
Lemma head_tomb_of d k t h : u64 h -> kv_get d (head_key k) = Some (reg_bytes (head_tomb t h)) ->
  head_of d k = Some (mkEnvelope 3 h node_id 0, t, h).
Proof.
  intros U G. unfold head_of. rewrite G. cbn [mbind option_bind]. unfold reg_bytes, head_tomb.
  rewrite Envelope_decode_encode_with by (apply reg_env_ok; [by vm_compute|done|by vm_compute]). cbn [fst snd].
  rewrite <- (app_nil_r (head_encode t h)), head_decode_encode by done. done.
Qed.

Lemma string_shown_frame d d' k now : kv_get d' (string_key k) = kv_get d (string_key k) -> string_shown d' k now = string_shown d k now.
Proof. intros E. unfold string_shown. by rewrite E. Qed.
Lemma head_of_frame d d' k : kv_get d' (head_key k) = kv_get d (head_key k) -> head_of d' k = head_of d k.
Proof. intros E. unfold head_of. by rewrite E. Qed.

(** A key is a string or a collection, not both. *)
Definition one_type (d : DB) (k : bytes) : Prop :=
  (forall n, string_shown d k (wall n) = false) \/ (forall n, head_live (head_of d k) (wall n) = false).
(** The key shows nothing, at any time. *)
Definition absent (d : DB) (k : bytes) : Prop :=
  kv_get d (list_key k) = None /\ (forall n, string_shown d k (wall n) = false) /\
  (forall n, head_live (head_of d k) (wall n) = false).

Lemma absent_type d k s : absent d k -> db s = d -> exists s', key_type wall k s = Ret (None, s') /\ quiet s s'.
Proof.
  intros (Nl & Ns & Nh) <-. destruct (key_type_eq k s Nl) as (o & s' & E & Q & _ & K). rewrite Ns, Nh in K. subst o. eauto.
Qed.

Lemma string_head_ne k k' : string_key k <> head_key k'.
Proof. intros E. apply (f_equal (.!! 2%nat)) in E. discriminate. Qed.
Lemma string_list_ne k k' : string_key k <> list_key k'.
Proof. intros E. apply (f_equal (.!! 2%nat)) in E. discriminate. Qed.
Lemma list_head_ne k k' : list_key k <> head_key k'.
Proof. intros E. apply (f_equal (.!! 2%nat)) in E. discriminate. Qed.

(** A delete that deletes leaves the key absent; a collection's delete clock
    passes every record written so far. *)
Lemma del_key_hlc_absent n k s : slice_len_ok k -> room (S n) s -> key_upto (hlc_word s) (db s) k -> one_type (db s) k ->
  exists o s', del_key_hlc node_id wall k s = Ret (o, s') /\ room n s' /\
    match o with
    | None => db s' = db s
    | Some h => absent (db s') k /\ (string_shown (db s) k (wall (ticks s)) = false ->
        exists t, head_of (db s') k = Some (mkEnvelope 3 h node_id 0, t, h) /\ hlc_word s < h)
    end.
Proof.
  intros Kl R U O. destruct (del_key_hlc_eq n k s Kl R U) as (o & s' & E & R' & _ & D). exists o, s'.
  split; [done|]. split; [done|]. destruct o as [h|]; [|apply D]. destruct U as (_ & _ & Nl & _).
  destruct D as (L & Ew & Uh & D). destruct (string_shown (db s) k (wall (ticks s))) eqn:Sh.
  - destruct D as [G F]. split; [|done]. split; [by rewrite F by apply not_eq_sym, string_list_ne|].
    split; [intros m; by eapply tomb_not_shown|]. intros m. rewrite (head_of_frame (db s)) by apply F, not_eq_sym, string_head_ne.
    destruct O as [O|O]; [by rewrite O in Sh|apply O].
  - destruct D as ((t & G) & F & Hl). pose proof (head_tomb_of _ _ _ _ Uh G) as Eh. split; [|eauto].
    split; [by rewrite F by apply list_head_ne|]. split; [|intros m; by rewrite Eh].
    intros m. rewrite (string_shown_frame (db s)) by apply F, string_head_ne.
    destruct O as [O|O]; [apply O|by rewrite O in Hl].
Qed.

(** ** Renaming a string *)

Lemma reg_upto_mono w w' d ik : w <= w' -> reg_upto w d ik -> reg_upto w' d ik.
Proof. intros Le U v G. destruct (U v G) as (r & ? & ? & ? & ?). exists r. split_and!; [done|done|lia|done]. Qed.
Lemma reg_upto_frame w d d' ik : kv_get d' ik = kv_get d ik -> reg_upto w d ik -> reg_upto w d' ik.
Proof. intros E U v G. rewrite E in G. by apply U. Qed.
Lemma reg_upto_write w d ik r : kv_get d ik = Some (reg_bytes r) -> envelope_ok r.1 -> lww_type (rtype r.1) = true -> hlc r.1 <= w ->
  reg_upto w d ik.
Proof. intros G O L Le v Gv. rewrite G in Gv. injection Gv as <-. eauto. Qed.

(** A visible string, its deadline not passed by the clock. *)
Definition live_string (d : DB) (k : bytes) (env : Envelope) (pay : bytes) : Prop :=
  kv_get d (string_key k) = Some (reg_bytes (env, pay)) /\ envelope_ok env /\ rtype env = RString /\ is_head env = false /\
  is_tombstone env = false /\ 0 < hlc env /\ forall n, is_expired env (wall n) = false.

Lemma live_string_shown d k env pay n : live_string d k env pay -> string_shown d k (wall n) = true.
Proof.
  intros (G & O & _ & _ & T & P & X). unfold string_shown. rewrite G. cbn [mbind option_bind].
  rewrite (Envelope_decode_encode_with env pay O : Envelope_decode (reg_bytes (env, pay)) = _). unfold visible.
  rewrite T, X, (proj2 (Z.leb_gt (hlc env) 0)) by lia. done.
Qed.

Lemma read_string s k env pay : live_string (db s) k env pay -> read_lww wall (string_key k) 0 s = Ret (Some (env, pay), tick s).
Proof.
  intros (G & O & _ & _ & T & P & X). unfold read_lww, mbind, M_bind, get_raw, reads. cbn [rust_bind fst snd]. rewrite G.
  cbn [option_bind]. rewrite (Envelope_decode_encode_with env pay O : Envelope_decode (reg_bytes (env, pay)) = _).
  unfold now_ms. cbn [rust_bind fst snd]. unfold visible. by rewrite T, X, (proj2 (Z.leb_gt (hlc env) 0)) by lia.
Qed.

(** The record of a string under a fresh clock. *)
Definition string_rec (h ttl : Z) (pay : bytes) : reg := (mkEnvelope 0 h node_id ttl, pay).

Lemma new_string_eq n (s : Shard DB) pay ttl : room (S n) s -> u64 ttl -> exists h s',
  new_lww node_id wall RString pay ttl s = Ret (reg_bytes (string_rec h ttl pay), s') /\ hlc_word s < h /\ hlc_word s' = h /\
  u64 h /\ db s' = db s /\ pop_hints s' = pop_hints s /\ room n s'.
Proof.
  intros R U. destruct (hlc_now_eq wall walls s n R) as (h & s' & E & L & Uh & Ew & Ed & Ehi & R').
  exists h, s'. unfold new_lww, mbind, M_bind. rewrite E. done.
Qed.

Lemma string_rec_ok h ttl pay : u64 h -> u64 ttl -> envelope_ok (string_rec h ttl pay).1.
Proof. intros Uh Ut. apply reg_env_ok; [by vm_compute|exact Uh|exact Ut]. Qed.

Context (json_records : bytes -> Z -> M DB (option (list KeyRecord))).
Context (proto_records : bytes -> Z -> bytes -> M DB (option (list KeyRecord))).

Lemma collect_string n s k env pay : room (S n) s -> kv_get (db s) (list_key k) = None -> live_string (db s) k env pay ->
  exists h s', collect_key_records node_id wall json_records proto_records k s =
      Ret (Some [(tag_u8 TString, [], reg_bytes (string_rec h (ttl_deadline_ms env) pay))], s') /\
    u64 h /\ hlc_word s <= hlc_word s' /\ db s' = db s /\ pop_hints s' = pop_hints s /\ room n s'.
Proof.
  intros R Nl Ls. destruct (key_type_eq k s Nl) as (o & s1 & E & Q & _ & K). rewrite (live_string_shown _ _ _ _ _ Ls) in K. subst o.
  pose proof Q as (Qd & Qh & Qw). unfold collect_key_records, mbind at 1, M_bind at 1. rewrite E. cbn [rust_bind fst snd].
  unfold mbind at 1, M_bind at 1, now_ms. cbn [rust_bind fst snd]. fold (tick s1). change (115 =? 115) with true. cbv iota.
  unfold mbind at 1, M_bind at 1. rewrite (read_string (tick s1) k env pay) by (cbn [db tick]; by rewrite Qd).
  cbn [rust_bind fst snd]. destruct Ls as (_ & O & T & _). rewrite T. rewrite (bool_decide_false (RString = Counter)) by done.
  unfold mbind at 1, M_bind at 1.
  destruct (new_string_eq n (tick (tick s1)) pay (ttl_deadline_ms env)) as (h & s2 & E2 & L & Ew & Uh & Ed & Ehi & R2);
    [by eapply room_quiet; [|exact R]; transitivity s1|apply O|].
  rewrite E2. exists h, s2. split; [done|]. cbn [hlc_word tick] in L. split; [done|]. split; [rewrite Ew; lia|].
  rewrite Ed, Ehi. by split.
Qed.

Lemma write_string_record n s k c h0 ttl pay : room (S n) s -> u64 h0 -> u64 ttl -> reg_upto (hlc_word s) (db s) (string_key k) ->
  exists h s', write_records node_id wall k c [(tag_u8 TString, [], reg_bytes (string_rec h0 ttl pay))] s = Ret (tt, s') /\
    kv_get (db s') (string_key k) = Some (reg_bytes (string_rec h ttl pay)) /\ Store.frame (string_key k) (db s) (db s') /\
    hlc_word s < h /\ hlc_word s' = h /\ u64 h /\ room n s'.
Proof.
  intros R U0 Ut Up. cbn [write_records]. unfold mbind at 1, M_bind at 1, lift.
  change (rebuild_ikey (tag_u8 TString) k []) with (Ret (string_key k)). cbn [rust_bind fst snd]. unfold mbind at 1, M_bind at 1, restamp_record.
  unfold reg_bytes at 1. rewrite Envelope_decode_encode_with by (by apply string_rec_ok).
  change (is_head (string_rec h0 ttl pay).1) with false. cbv iota. unfold fresh_record.
  change (is_or_element (rtype (string_rec h0 ttl pay).1)) with false. cbv iota. unfold mbind at 1, M_bind at 1.
  change (rtype (string_rec h0 ttl pay).1) with RString. cbn [string_rec fst snd ttl_deadline_ms].
  destruct (new_string_eq n s pay ttl R Ut) as (h & s1 & E & L & Ew & Uh & Ed & _ & R1). rewrite E. cbn [rust_bind fst snd mret M_ret].
  destruct (write_newer s1 (hlc_word s) (string_key k) (mkParsedKey (pid_of k) (tag_u8 TString) k []) (string_rec h ttl pay))
    as (b & d' & Ewr & G & F); [by apply parse_simple|done|done|by rewrite Ed|by apply string_rec_ok|done|done|].
  unfold mbind, M_bind. rewrite Ewr. cbn [rust_bind fst snd mret M_ret]. exists h, (with_db s1 d'). rewrite Ed in F. done.
Qed.

Lemma string_rec_live d k h ttl pay : u64 h -> 0 < h -> u64 ttl -> (forall n, is_expired (mkEnvelope 0 0 0 ttl) (wall n) = false) ->
  kv_get d (string_key k) = Some (reg_bytes (string_rec h ttl pay)) -> live_string d k (string_rec h ttl pay).1 pay.
Proof. intros Uh P Ut X G. by repeat split; try done; apply string_rec_ok. Qed.

Lemma string_key_inj k k' : string_key k = string_key k' -> k = k'.
Proof.
  intros E. pose proof (parse_simple TString k eq_refl) as P. pose proof (parse_simple TString k' eq_refl) as P'.
  unfold string_key in E. rewrite E, P' in P. by injection P.
Qed.
Lemma head_key_inj k k' : slice_len_ok k -> slice_len_ok k' -> head_key k = head_key k' -> k = k'.
Proof.
  intros Kl Kl' E. pose proof (parse_head_key k Kl) as P. rewrite E, (parse_head_key k' Kl') in P. by injection P.
Qed.

Definition not_budget (d : DB) (k : bytes) : Prop :=
  kv_get d (list_key k) = None /\ forall env t del, head_of d k = Some (env, t, del) -> t <> CTYPE_BUDGET.

Lemma fence_passes what ks : forall s, Forall (not_budget (db s)) ks -> exists s',
  budget_move_fence wall what ks s = Ret (None, s') /\ quiet s s'.
Proof.
  induction ks as [|k ks IH]; intros s F; [by exists s|]. apply Forall_cons in F as [[Nl Nb] F]. cbn [budget_move_fence].
  destruct (key_type_eq k s Nl) as (o & s1 & E & Q & _ & K). unfold mbind, M_bind. rewrite E. cbn [rust_bind fst snd].
  rewrite bool_decide_false.
  - destruct (IH s1) as (s' & E' & Q'); [by rewrite (proj1 Q)|]. exists s'. split; [done|by transitivity s1].
  - intros ->. destruct (string_shown _ _ _); [done|]. destruct (head_live _ _); [|done].
    destruct K as [|(env & t & del & Eh & [= <-])]; [done|]. by eapply Nb.
Qed.

(** After the source was read and the destination cleared, a string is written
    at the destination. What the source is then: still the string it was (or,
    when it is the destination, the string written), its other records as
    before. *)
Lemma rename_middle n src dst env pay h0 s : slice_len_ok src -> slice_len_ok dst -> room (S (S n)) s -> u64 h0 ->
  key_upto (hlc_word s) (db s) src -> key_upto (hlc_word s) (db s) dst -> live_string (db s) src env pay ->
  exists h e s', (clobber ← del_key_hlc node_id wall dst;
     write_records node_id wall dst (default 0 clobber) [(tag_u8 TString, [], reg_bytes (string_rec h0 (ttl_deadline_ms env) pay))]) s
     = Ret (tt, s') /\ room n s' /\ u64 h /\ 0 < h /\
    kv_get (db s') (string_key dst) = Some (reg_bytes (string_rec h (ttl_deadline_ms env) pay)) /\
    live_string (db s') src e pay /\ hlc e <= hlc_word s' /\ hlc_word s <= hlc_word s' /\
    kv_get (db s') (head_key src) = kv_get (db s) (head_key src) /\ kv_get (db s') (list_key src) = None.
Proof.
  intros Kl Kl' R U0 Us Ud Ls. pose proof Ls as (Gs & Os & _ & _ & _ & Ps & Xs). pose proof Us as (Us1 & _ & Nl & _).
  destruct (del_key_hlc_eq (S n) dst s Kl' R Ud) as (o & s1 & E1 & R1 & _ & D). destruct Ud as (Ud1 & _).
  assert (F1 : reg_upto (hlc_word s1) (db s1) (string_key dst) /\ hlc_word s <= hlc_word s1 /\
    (src <> dst -> kv_get (db s1) (string_key src) = kv_get (db s) (string_key src)) /\
    kv_get (db s1) (head_key src) = kv_get (db s) (head_key src) /\ kv_get (db s1) (list_key src) = None).
  { destruct o as [h|]; [|destruct D as (-> & -> & _); done]. destruct D as (L & -> & Uh & D).
    destruct (string_shown (db s) dst (wall (ticks s))) eqn:Sh.
    - destruct D as [G F]. split; [eapply reg_upto_write; [exact G|apply reg_env_ok; [by vm_compute|exact Uh|by vm_compute]|reflexivity|apply Z.le_refl]|].
      split; [lia|]. split; [intros Ne; apply F; intros E; by apply Ne, string_key_inj|].
      split; [apply F, not_eq_sym, string_head_ne|]. by rewrite F by apply not_eq_sym, string_list_ne.
    - destruct D as (_ & F & _). split; [eapply reg_upto_mono, reg_upto_frame; [|apply F, string_head_ne|done]; lia|].
      split; [lia|]. split; [intros _; apply F, string_head_ne|].
      split; [|by rewrite F by apply list_head_ne]. apply F. intros E. apply head_key_inj in E as <-; [|done..].
      by rewrite (live_string_shown _ _ _ _ _ Ls) in Sh. }
  destruct F1 as (Up & Le & Fs & Fh & Nl1).
  destruct (write_string_record n s1 dst (default 0 o) h0 (ttl_deadline_ms env) pay R1 U0) as (h & s2 & E2 & G2 & F2 & L2 & Ew & Uh & R2);
    [apply Os|done|].
  assert (P : 0 < h) by (destruct R as (? & _); lia).
  unfold mbind, M_bind. rewrite E1. cbn [rust_bind fst snd]. rewrite E2.
  assert (Ls2 : exists e, live_string (db s2) src e pay /\ hlc e <= hlc_word s2).
  { destruct (decide (src = dst)) as [->|Ne].
    - exists (string_rec h (ttl_deadline_ms env) pay).1. rewrite Ew. split; [|done]. by apply string_rec_live; try apply Os.
    - exists env. destruct (Us1 _ Gs) as ([env' pay'] & O' & _ & Le' & Eb).
      assert (D1 : Envelope_decode (reg_bytes (env, pay)) = Some (env, pay)) by (by apply Envelope_decode_encode_with).
      rewrite Eb in D1. unfold reg_bytes in D1. rewrite Envelope_decode_encode_with in D1 by done. injection D1 as -> ->.
      split; [|cbn [fst] in Le'; lia]. destruct Ls as [_ Ls]. split; [|done].
      rewrite F2 by (intros E; by apply Ne, string_key_inj). by rewrite Fs. }
  destruct Ls2 as (e & Ls2 & Lee). exists h, e, s2. split_and!; try done; [lia|..].
  - rewrite F2 by apply not_eq_sym, string_head_ne. done.
  - rewrite F2 by apply not_eq_sym, string_list_ne. done.
Qed.

Lemma rename_string_eq src dst env pay s : slice_len_ok src -> slice_len_ok dst -> room 4 s ->
  key_upto (hlc_word s) (db s) src -> key_upto (hlc_word s) (db s) dst -> not_budget (db s) src -> not_budget (db s) dst ->
  live_string (db s) src env pay -> (forall n, head_live (head_of (db s) src) (wall n) = false) ->
  exists s', rename node_id wall json_records proto_records src dst false s = Ret (ok, s') /\ absent (db s') src /\
    (src <> dst -> exists env', live_string (db s') dst env' pay /\ ttl_deadline_ms env' = ttl_deadline_ms env).
Proof.
  intros Kl Kl' R Us Ud Bs Bd Ls Hd. destruct (fence_passes "RENAME" [src; dst] s) as (s1 & E1 & Q1); [repeat (apply Forall_cons; split; [done|]); constructor|].
  pose proof Q1 as (Qd & _ & Qw).
  destruct (collect_string 3 s1 src env pay) as (h0 & s2 & E2 & U0 & L2 & Ed2 & _ & R2);
    [by eapply room_quiet|rewrite Qd; apply Us|by rewrite Qd|].
  rewrite Qd in Ed2. rewrite Qw in L2.
  assert (Up : forall k, key_upto (hlc_word s) (db s) k -> key_upto (hlc_word s2) (db s2) k).
  { intros k (A & B & C). rewrite Ed2. split; [by eapply reg_upto_mono|]. by split; [eapply reg_upto_mono|]. }
  destruct (rename_middle 1 src dst env pay h0 s2 Kl Kl' R2 U0) as (h & e & s4 & E4 & R4 & Uh & P & G4 & Ls4 & Le & L4 & Fh & Nl4);
    [by apply Up..|by rewrite Ed2|].
  rewrite Ed2 in Fh.
  assert (U4 : key_upto (hlc_word s4) (db s4) src).
  { pose proof Ls4 as (G & O & T & _). split; [|split; [|split; [done|]]].
    - eapply reg_upto_write; [exact G|done|cbn [fst]; by rewrite T|done].
    - eapply reg_upto_mono, reg_upto_frame; [|exact Fh|apply Us]. lia.
    - intros env0 t del0. rewrite (head_of_frame (db s)) by done. apply Us. }
  assert (O4 : one_type (db s4) src) by (right; intros m; rewrite (head_of_frame (db s)) by done; apply Hd).
  destruct (del_key_hlc_absent 0 src s4 Kl R4 U4 O4) as (o & s5 & E5 & _ & A).
  destruct (del_key_hlc_eq 0 src s4 Kl R4 U4) as (o' & s5' & E5' & _ & _ & D). rewrite E5 in E5'. injection E5' as <- <-.
  rewrite (live_string_shown _ _ _ _ _ Ls4) in D. destruct o as [h5|]; [|by destruct D as (_ & _ & ?)].
  unfold rename, mbind at 1, M_bind at 1. rewrite E1. cbn [rust_bind fst snd]. unfold mbind at 1, M_bind at 1.
  cbn [rust_bind fst snd mret M_ret]. unfold mbind at 1, M_bind at 1. rewrite E2. cbn [rust_bind fst snd].
  unfold mbind, M_bind in E4 |- *. destruct (del_key_hlc node_id wall dst s2) as [[o3 s3]|]; [|done].
  cbn [rust_bind fst snd] in E4 |- *. rewrite E4. cbn [rust_bind fst snd]. unfold del_key, mbind, M_bind. rewrite E5.
  exists s5. split; [done|]. split; [apply A|]. intros Ne. destruct D as (_ & _ & _ & _ & F).
  exists (string_rec h (ttl_deadline_ms env) pay).1. split; [|done]. destruct Ls as (_ & O & _ & _ & _ & _ & X).
  apply string_rec_live; try done; [apply O|]. rewrite F; [done|]. intros E. by apply Ne, string_key_inj.
Qed.
End keys.

(** DEL deletes: on a key that is a string or a collection (not both), a
    DEL that reports a deletion leaves the key absent - TYPE is none, EXISTS is
    0, whenever asked - and the head it leaves for a collection carries a delete
    clock above every record written before, so no element of the old
    collection is visible under it again. *)
Theorem del_makes_absent {DB} `{KVLaws DB} node_id wall n k (s : Shard DB) :
  u16 node_id -> (forall n, 0 <= wall n < 2 ^ 47) -> slice_len_ok k -> room (S n) s ->
  key_upto (hlc_word s) (db s) k -> one_type wall (db s) k ->
  exists b s', del_key node_id wall k s = Ret (b, s') /\
    (b = false -> db s' = db s) /\
    (b = true -> (exists s2, exists_cmd wall [k] s' = Ret (RInt 0, s2)) /\ (exists s2, type_cmd wall k s' = Ret (RSimple (str "none"), s2)) /\
      (string_shown (db s) k (wall (ticks s)) = false -> exists env t del, head_of (db s') k = Some (env, t, del) /\
         forall e p now, hlc e <= hlc_word s -> visible e p del now = None)).
Proof.
  intros Nr Wa Kl R U O. destruct (del_key_hlc_absent node_id wall Nr Wa n k s Kl R U O) as (o & s' & E & _ & D).
  unfold del_key, mbind, M_bind. rewrite E. cbn [rust_bind fst snd mret M_ret]. eexists _, s'. split; [reflexivity|].
  destruct o as [h|]; [|by split]. destruct D as [A D]. split; [done|]. intros _.
  destruct (absent_type wall (db s') k s' A eq_refl) as (s2 & E2 & _). split; [|split].
  - exists s2. unfold exists_cmd, mbind, M_bind. cbn [exists_loop]. unfold mbind, M_bind. by rewrite E2.
  - exists s2. unfold type_cmd, mbind, M_bind. by rewrite E2.
  - intros Sh. destruct (D Sh) as (t & Eh & L). eexists _, t, h. split; [exact Eh|]. intros e p now Le.
    unfold visible. rewrite (proj2 (Z.leb_le (hlc e) h)) by lia. by rewrite orb_true_r.
Qed.

(** RENAME moves a string: the destination then holds the payload with the
    same deadline, whatever it held before (a string, a collection, nothing), and
    the source is absent. *)
Theorem rename_moves_string {DB} `{KVLaws DB} node_id wall json_records proto_records src dst env pay (s : Shard DB) :
  u16 node_id -> (forall n, 0 <= wall n < 2 ^ 47) -> slice_len_ok src -> slice_len_ok dst -> room 4 s -> src <> dst ->
  key_upto (hlc_word s) (db s) src -> key_upto (hlc_word s) (db s) dst -> not_budget (db s) src -> not_budget (db s) dst ->
  live_string wall (db s) src env pay -> (forall n, head_live (head_of (db s) src) (wall n) = false) ->
  exists s', rename node_id wall json_records proto_records src dst false s = Ret (ok, s') /\ absent wall (db s') src /\
    exists env', live_string wall (db s') dst env' pay /\ ttl_deadline_ms env' = ttl_deadline_ms env.
Proof.
  intros Nr Wa Kl Kl' R Ne Us Ud Bs Bd Ls Hd.
  destruct (rename_string_eq node_id wall Nr Wa json_records proto_records src dst env pay s) as (s' & E & A & D); try done.
  exists s'. auto.
Qed.

(** RENAME of a key to itself destroys it: the reply is OK and the string
    is gone - the source is deleted after the destination was written. *)
Theorem rename_onto_itself_deletes {DB} `{KVLaws DB} node_id wall json_records proto_records k env pay (s : Shard DB) :
  u16 node_id -> (forall n, 0 <= wall n < 2 ^ 47) -> slice_len_ok k -> room 4 s ->
  key_upto (hlc_word s) (db s) k -> not_budget (db s) k ->
  live_string wall (db s) k env pay -> (forall n, head_live (head_of (db s) k) (wall n) = false) ->
  exists s', rename node_id wall json_records proto_records k k false s = Ret (ok, s') /\ absent wall (db s') k.
Proof.
  intros Nr Wa Kl R U B Ls Hd.
  destruct (rename_string_eq node_id wall Nr Wa json_records proto_records k k env pay s) as (s' & E & A & _); try done.
  exists s'. auto.
Qed.

(** ** Concrete stores *)

(** [envelope_ok], decided. *)
Definition envelope_okb (e : Envelope) : bool :=
  (0 <=? flags e) && (flags e <? 2 ^ 8) && (0 <=? hlc e) && (hlc e <? 2 ^ 64) && (0 <=? origin e) && (origin e <? 2 ^ 16) &&
  (0 <=? ttl_deadline_ms e) && (ttl_deadline_ms e <? 2 ^ 64).
Definition reg_uptob {DB} `{KV DB} (w : Z) (d : DB) (ik : bytes) : bool :=
  match kv_get d ik with
  | None => true
  | Some v =>
      match Envelope_decode v with
      | Some (e, p) => bytes_eqb (encode_with e p) v && envelope_okb e && lww_type (rtype e) && (hlc e <=? w)
      | None => false
      end
  end.
Lemma reg_upto_dec {DB} `{KV DB} w (d : DB) ik : reg_uptob w d ik = true -> reg_upto w d ik.
Proof.
  unfold reg_uptob, reg_upto. intros E v G. rewrite G in E. destruct (Envelope_decode v) as [[e p]|]; [|done].
  unfold envelope_okb in E. rewrite !andb_true_iff, !Z.leb_le, !Z.ltb_lt in E. destruct E as (((E & O) & L) & W).
  exists (e, p). cbn [fst]. split_and!; [|done|done|symmetry; exact (bool_decide_eq_true_1 _ E)].
  constructor; unfold u8, u64, u16, in_range; lia.
Qed.
Definition key_uptob {DB} `{KV DB} (w : Z) (d : DB) (k : bytes) : bool :=
  reg_uptob w d (string_key k) && reg_uptob w d (head_key k) && bool_decide (kv_get d (list_key k) = None) &&
  match head_of d k with Some (_, t, _) => negb (t =? 115) && negb (t =? CTYPE_BUDGET) | None => true end.
Lemma key_upto_dec {DB} `{KV DB} w (d : DB) k : key_uptob w d k = true -> key_upto w d k /\ not_budget d k.
Proof.
  unfold key_uptob, key_upto, not_budget. rewrite !andb_true_iff. intros (((U1 & U2) & Nl) & T).
  apply bool_decide_eq_true_1 in Nl. split.
  - split_and!; [by apply reg_upto_dec..|done|]. intros env t del E. rewrite E in T. apply andb_true_iff in T as [T _].
    by apply negb_true_iff, Z.eqb_neq in T.
  - split; [done|]. intros env t del E. rewrite E in T. apply andb_true_iff in T as [_ T].
    by apply negb_true_iff, Z.eqb_neq in T.
Qed.

(** A clock that stands still. *)
Definition ex_wall : nat -> Z := fun _ => 1700000000000.
Lemma ex_walls n : 0 <= ex_wall n < 2 ^ 47.
Proof. unfold ex_wall. lia. Qed.
Definition no_json : bytes -> Z -> M (gmap bytes bytes) (option (list KeyRecord)) := fun _ _ => mret None.
Definition no_proto : bytes -> Z -> bytes -> M (gmap bytes bytes) (option (list KeyRecord)) := fun _ _ _ => mret None.
(** The string [x] at the key [a], and a list at the key [k]. *)
Definition ex_db : gmap bytes bytes :=
  <[string_key (str "a") := encode_with (mkEnvelope 0 5 1 1900000000000) (str "x")]>
    (db (after_lops 3 [OPush false false [str "y"]])).
Definition ex_keys : Shard (gmap bytes bytes) := mkShard ex_db (2 ^ 40) ∅ 0.
Lemma ex_room : room 4 ex_keys.
Proof. unfold room, ex_keys. cbn [hlc_word]. lia. Qed.
Lemma ex_upto k : key_uptob (2 ^ 40) ex_db k = true -> key_upto (2 ^ 40) ex_db k /\ not_budget ex_db k.
Proof. apply key_upto_dec. Qed.
Lemma ex_string : live_string ex_wall ex_db (str "a") (mkEnvelope 0 5 1 1900000000000) (str "x").
Proof. split_and!; [vm_compute; reflexivity|constructor; by vm_compute|done..]. Qed.

Lemma del_makes_absent_witness : exists b s', del_key 3 ex_wall (str "k") ex_keys = Ret (b, s') /\ b = true /\
  exists s2, exists_cmd ex_wall [str "k"] s' = Ret (RInt 0, s2).
Proof.
  destruct (del_makes_absent 3 ex_wall 3 (str "k") ex_keys) as (b & s' & E & _ & D).
  - by vm_compute.
  - apply ex_walls.
  - by vm_compute.
  - apply ex_room.
  - apply ex_upto. vm_compute. reflexivity.
  - left. intros n. vm_compute. reflexivity.
  - exists b, s'. split; [exact E|]. assert (B : b = true).
    { assert (X : exists s2, del_key 3 ex_wall (str "k") ex_keys = Ret (true, s2)) by (eexists; vm_compute; reflexivity).
      destruct X as (s2 & X). rewrite X in E. congruence. }
    split; [exact B|]. apply D, B.
Defined.

Lemma rename_moves_string_witness :
  exists s', rename 3 ex_wall no_json no_proto (str "a") (str "k") false ex_keys = Ret (ok, s') /\
    exists env, live_string ex_wall (db s') (str "k") env (str "x") /\ ttl_deadline_ms env = 1900000000000.
Proof.
  destruct (rename_moves_string 3 ex_wall no_json no_proto (str "a") (str "k") (mkEnvelope 0 5 1 1900000000000) (str "x")
    ex_keys) as (s' & E & _ & D).
  - by vm_compute.
  - apply ex_walls.
  - by vm_compute.
  - by vm_compute.
  - apply ex_room.
  - done.
  - apply ex_upto. vm_compute. reflexivity.
  - apply ex_upto. vm_compute. reflexivity.
  - apply ex_upto. vm_compute. reflexivity.
  - apply ex_upto. vm_compute. reflexivity.
  - apply ex_string.
  - intros n. vm_compute. reflexivity.
  - exists s'. split; [exact E|exact D].
Defined.

Lemma rename_onto_itself_deletes_witness :
  exists s', rename 3 ex_wall no_json no_proto (str "a") (str "a") false ex_keys = Ret (ok, s') /\ absent ex_wall (db s') (str "a").
Proof.
  apply (rename_onto_itself_deletes 3 ex_wall no_json no_proto (str "a") (mkEnvelope 0 5 1 1900000000000) (str "x") ex_keys).
  - by vm_compute.
  - apply ex_walls.
  - by vm_compute.
  - apply ex_room.
  - apply ex_upto. vm_compute. reflexivity.
  - apply ex_upto. vm_compute. reflexivity.
  - apply ex_string.
  - intros n. vm_compute. reflexivity.
Defined.

(** ** EXPIRE *)

(** EXPIRE with the largest accepted time deletes the key: the number of
    milliseconds wraps around 64 bits to one second before now, so EXPIRE key
    9223372036854775807 on a live string replies 1 and the key is gone. *)
Theorem far_deadline_deletes {DB} `{KVLaws DB} node_id wall k env pay (s : Shard DB) :
  u16 node_id -> (forall n, 1000 <= wall n < 2 ^ 47) -> (forall m n, (m <= n)%nat -> wall m <= wall n) ->
  slice_len_ok k -> room 1 s -> key_upto (hlc_word s) (db s) k -> not_budget (db s) k ->
  live_string wall (db s) k env pay -> (forall n, head_live (head_of (db s) k) (wall n) = false) ->
  exists s', expire node_id wall k (2 ^ 63 - 1) 1000 false s = Ret (RInt 1, s') /\ absent wall (db s') k.
Proof.
  intros Nr Wa Mo Kl R U [_ Nb] Ls Hd. assert (Wa' : forall n, 0 <= wall n < 2 ^ 47) by (intros n; specialize (Wa n); lia).
  unfold expire, deadline_of. change (2 ^ 63 - 1 <=? 0) with false. cbv iota. unfold mbind at 1, M_bind at 1.
  unfold mbind at 1, M_bind at 1, now_ms at 1. cbn [rust_bind fst snd mret M_ret]. fold (tick s).
  assert (Ed : wrap 64 (wall (ticks s) + wrap 64 ((2 ^ 63 - 1) * 1000)) = wall (ticks s) - 1000).
  { change (wrap 64 ((2 ^ 63 - 1) * 1000)) with (2 ^ 64 - 1000). unfold wrap. specialize (Wa (ticks s)).
    replace (wall (ticks s) + (2 ^ 64 - 1000)) with (wall (ticks s) - 1000 + 1 * 2 ^ 64) by lia.
    rewrite Z_mod_plus_full. apply Z.mod_small. lia. }
  rewrite Ed. unfold mbind at 1, M_bind at 1. pose proof U as (_ & _ & Nl & _).
  destruct (key_type_eq wall k (tick s) Nl) as (o & s1 & E1 & Q & Lt & K). rewrite E1. cbn [rust_bind fst snd].
  change (db (tick s)) with (db s) in K. rewrite (live_string_shown wall (db s) k env pay _ Ls) in K. subst o.
  rewrite bool_decide_false by done. unfold mbind at 1, M_bind at 1, now_ms. cbn [rust_bind fst snd]. fold (tick s1).
  cbn [ticks tick] in Lt. rewrite (proj2 (Z.leb_le _ _)) by (pose proof (Mo (ticks s) (ticks s1) ltac:(lia)); lia).
  assert (Q2 : quiet s (tick s1)) by (transitivity (tick s); [apply quiet_tick|transitivity s1; [done|apply quiet_tick]]).
  pose proof Q2 as (Qd & _ & Qw).
  destruct (del_key_hlc_absent node_id wall Nr Wa' 0 k (tick s1)) as (o & s2 & E2 & _ & A);
    [done|by eapply room_quiet|by rewrite Qw, Qd|right; by rewrite Qd|].
  destruct (del_key_hlc_eq node_id wall Nr Wa' 0 k (tick s1)) as (o' & s2' & E2' & _ & _ & D); [done|by eapply room_quiet|by rewrite Qw, Qd|].
  rewrite E2 in E2'. injection E2' as <- <-. unfold del_key, mbind, M_bind. rewrite E2. cbn [rust_bind fst snd mret M_ret].
  rewrite Qd, (live_string_shown wall (db s) k env pay _ Ls) in D. destruct o as [h|]; [|by destruct D as (_ & _ & ?)].
  exists s2. split; [done|apply A].
Qed.

Lemma far_deadline_deletes_witness :
  exists s', expire 3 ex_wall (str "a") 9223372036854775807 1000 false ex_keys = Ret (RInt 1, s') /\ absent ex_wall (db s') (str "a").
Proof.
  apply (far_deadline_deletes 3 ex_wall (str "a") (mkEnvelope 0 5 1 1900000000000) (str "x") ex_keys).
  - by vm_compute.
  - intros n. unfold ex_wall. lia.
  - intros m n _. reflexivity.
  - by vm_compute.
  - unfold room, ex_keys. cbn [hlc_word]. lia.
  - apply ex_upto. vm_compute. reflexivity.
  - apply ex_upto. vm_compute. reflexivity.
  - apply ex_string.
  - intros n. vm_compute. reflexivity.
Defined.
