(* ===== verification/Scan.v ===== *)
(** * Enumeration and expiry

    KEYS and SCAN of [Generic]: what they list, the cursor, and the budget that
    keeps SCAN from finishing. The deadline arithmetic of EXPIRE. *)

From Stdlib Require Import String.
From S2P Require Import Prelude Partition Hlc Envelope Ikey Counter Lattice Merge MergeLaws Store Resp Reply Glob Server.
From S2P Require Import ListCmd ListLaws ListRefine Generic GenericLaws.

(** ** Cursors *)

Lemma hex_val_digit d : 0 <= d < 16 -> hex_val (hex_digit d) = Some d /\ 48 <= hex_digit d < 128.
Proof.
  intros B. unfold hex_digit. destruct (d <? 10) eqn:E; [apply Z.ltb_lt in E|apply Z.ltb_ge in E]; unfold hex_val; (split; [|lia]).
  - rewrite (proj2 (Z.leb_le 48 (48 + d))), (proj2 (Z.leb_le (48 + d) 57)) by lia. cbn [andb]. f_equal. lia.
  - rewrite (proj2 (Z.leb_gt (87 + d) 57)), andb_false_r by lia.
    rewrite (proj2 (Z.leb_le 97 (87 + d))), (proj2 (Z.leb_le (87 + d) 102)) by lia. cbn [andb]. f_equal. lia.
Qed.

Lemma hex_ascii b : is_bytes b -> Forall (fun c => 48 <= c < 128) (hex_encode b).
Proof.
  induction 1 as [|x b Hx Hb IH]; [constructor|]. unfold u8, in_range in Hx. cbn [hex_encode flat_map app].
  pose proof (Z.div_mod x 16 ltac:(lia)). pose proof (Z.mod_pos_bound x 16 ltac:(lia)).
  constructor; [apply hex_val_digit; lia|]. constructor; [apply hex_val_digit; lia|exact IH].
Qed.
Lemma utf8_ascii l : Forall (fun c => 48 <= c < 128) l -> utf8_ok l = true.
Proof. induction 1 as [|c l B F IH]; [done|]. cbn [utf8_ok]. by rewrite (proj2 (Z.ltb_lt c 128)) by lia. Qed.
Lemma cont_ascii c : 48 <= c < 128 -> cont c = false.
Proof. intros B. unfold cont. by rewrite (proj2 (Z.leb_gt 128 c)) by lia. Qed.

Lemma hex_pairs_encode b : is_bytes b -> hex_pairs (hex_encode b) = Ret (Some b).
Proof.
  induction 1 as [|x b Hx Hb IH]; [done|]. unfold u8, in_range in Hx. pose proof (hex_ascii b Hb) as A.
  cbn [hex_encode flat_map app hex_pairs]. fold (hex_encode b).
  pose proof (Z.div_mod x 16 ltac:(lia)) as D. pose proof (Z.mod_pos_bound x 16 ltac:(lia)) as M.
  destruct (hex_val_digit (x / 16)) as [V1 B1]; [lia|]. destruct (hex_val_digit (x mod 16)) as [V2 B2]; [lia|].
  rewrite (cont_ascii _ B1). cbn [orb].
  replace (match hex_encode b with c :: _ => cont c | [] => false end) with false.
  2: { symmetry. destruct A as [|c l B _]; [done|by apply cont_ascii]. }
  unfold from_str_radix16. rewrite (proj2 (Z.eqb_neq (hex_digit (x / 16)) 43)) by lia. rewrite V1, V2, IH. cbn [rust_bind fmap option_fmap option_map].
  do 3 f_equal. lia.
Qed.

Lemma hex_encode_even b : Nat.even (length (hex_encode b)) = true.
Proof. induction b as [|x b IH]; [done|]. exact IH. Qed.

Lemma hex_decode_encode b : is_bytes b -> hex_decode (hex_encode b) = Ret (Some b).
Proof.
  intros Hb. unfold hex_decode. rewrite hex_encode_even, utf8_ascii by (by apply hex_ascii). by apply hex_pairs_encode.
Qed.

(** A cursor can crash the server: SCAN with the cursor [a€] (four bytes,
    valid UTF-8) slices inside a character when it is decoded two bytes at a
    time, whatever the store holds - a panic, which the release profile turns
    into an abort. Every cursor SCAN itself returns decodes to the key it was
    made from. *)
Theorem scan_cursor_panics {DB} `{KV DB} wall (s : Shard DB) :
  scan wall [97; 226; 130; 172] [] s = Panic /\ (forall k, is_bytes k -> hex_decode (hex_encode k) = Ret (Some k)).
Proof. split; [reflexivity|exact hex_decode_encode]. Qed.

(** ** KEYS *)

Section walk.
Context {DB : Type} `{KVLaws DB}.

(** The record [k], [v] lists the user key [u]. *)
Definition listed (now : Z) (pattern : option bytes) (k v u : bytes) : Prop := exists p,
  parse k = Ret (Some p) /\ pk_userkey p = u /\ pk_tag p <> tag_u8 TZsetScore /\ head u <> Some 0 /\
  shows_key (pk_tag p) v now = Ret true /\ matches pattern u = true.
(** No record makes the walk panic. *)
Definition readable (now : Z) (k v : bytes) : Prop := exists o, parse k = Ret o /\
  forall p, o = Some p -> exists b, shows_key (pk_tag p) v now = Ret b.

Lemma listed_functional now pattern k v u u' : listed now pattern k v u -> listed now pattern k v u' -> u = u'.
Proof. intros (p & E & <- & _) (p' & E' & <- & _). congruence. Qed.

(** One step within the budget: nothing new, or one new key. *)
Lemma scan_step_eq limit pattern now w k v : readable now k v -> wk_count w + 1 <= wrap 64 (limit * 64) ->
  (scan_step [] limit pattern now w k v = Ret (mkWalk (wk_seen w) (wk_out w) (wk_next w) (wk_count w + 1), true) /\
   forall u, listed now pattern k v u -> u ∈ wk_seen w) \/
  exists u, listed now pattern k v u /\ u ∉ wk_seen w /\
    let full := limit <=? Z.of_nat (length (wk_out w ++ [u])) in
    scan_step [] limit pattern now w k v =
      Ret (mkWalk (u :: wk_seen w) (wk_out w ++ [u]) (if full then k else wk_next w) (wk_count w + 1), negb full).
Proof.
  intros (o & Ep & Sh) B. unfold scan_step. cbv zeta. cbn [wk_seen wk_out wk_next].
  rewrite (proj2 (Z.ltb_ge _ (wk_count w + 1))) by lia. rewrite (bool_decide_true ([] = [] :> bytes)) by done. cbn [negb andb].
  rewrite Ep. cbn [rust_bind]. destruct o as [p|]; [|left; split; [done|]; intros u (p & Ep' & _); congruence].
  assert (Same : forall u, listed now pattern k v u -> u = pk_userkey p /\ pk_tag p <> tag_u8 TZsetScore /\
    head (pk_userkey p) <> Some 0 /\ shows_key (pk_tag p) v now = Ret true /\ matches pattern (pk_userkey p) = true).
  { intros u (p' & Ep' & <- & Hr). rewrite Ep in Ep'. injection Ep' as <-. done. }
  destruct (pk_tag p =? tag_u8 TZsetScore) eqn:Et.
  { left. split; [done|]. intros u (_ & Nt & _)%Same. by apply Z.eqb_eq in Et. }
  apply Z.eqb_neq in Et. case_bool_decide as Eh; [left; split; [done|]; by intros u (_ & _ & Nh & _)%Same|].
  case_bool_decide as Es; [left; split; [done|]; by intros u (-> & _)%Same|].
  destruct (Sh p eq_refl) as [b Eb]. rewrite Eb. cbn [rust_bind].
  destruct (b && matches pattern (pk_userkey p)) eqn:E2.
  - apply andb_true_iff in E2 as [-> Ma]. right. exists (pk_userkey p). split; [exists p; done|]. by split.
  - left. split; [done|]. intros u (_ & _ & _ & Sp & Ma)%Same. rewrite Eb in Sp. injection Sp as ->. by rewrite Ma in E2.
Qed.

Lemma walk_all limit pattern now l : forall w, 0 <= wk_count w ->
  wk_count w + Z.of_nat (length l) <= wrap 64 (limit * 64) -> Z.of_nat (length (wk_out w) + length l) < limit ->
  wk_seen w ≡ₚ wk_out w -> NoDup (wk_out w) -> (forall k v, (k, v) ∈ l -> readable now k v) ->
  exists w', scan_loop [] (scan_step [] limit pattern now) w l = Ret w' /\ NoDup (wk_out w') /\
    forall u, u ∈ wk_out w' <-> u ∈ wk_out w \/ exists k v, (k, v) ∈ l /\ listed now pattern k v u.
Proof.
  induction l as [|[k v] l IH]; intros w C0 C1 C2 Se Nd Rd.
  { exists w. split; [done|]. split; [done|]. set_solver. }
  simpl length in *. cbn [scan_loop]. rewrite (starts_with_app [] k : starts_with k [] = true). cbn [negb].
  assert (Rd' : forall k v, (k, v) ∈ l -> readable now k v) by (intros; apply Rd; by right).
  destruct (scan_step_eq limit pattern now w k v) as [[-> No]|(u & Lu & Nu & Es)]; [apply Rd; left|lia| |].
  - cbn [rust_bind fst snd]. edestruct IH as (w' & E & Nd' & S'); [..|exists w'; split; [exact E|]];
      cbn [wk_count wk_out wk_seen]; try done; [lia|lia|lia|].
    split; [done|]. intros u. rewrite S'. cbn [wk_out]. split.
    + intros [I|(k' & v' & I & L)]; [by left|]. right. exists k', v'. split; [by right|done].
    + intros [I|(k' & v' & I & L)]; [by left|]. apply elem_of_cons in I as [[= -> ->]|I]; [|eauto 6].
      left. rewrite <- Se. by apply No.
  - cbv zeta in Es. rewrite (proj2 (Z.leb_gt limit _)) in Es by (rewrite length_app; simpl; lia). rewrite Es.
    cbn [negb rust_bind fst snd]. edestruct IH as (w' & E & Nd' & S'); [..|exists w'; split; [exact E|]];
      cbn [wk_count wk_out wk_seen]; try done; [lia|lia|rewrite length_app; simpl; lia|by rewrite Se, Permutation_app_comm| |].
    + apply NoDup_app. split; [done|]. split; [|apply NoDup_singleton]. intros x I1 I2.
      apply list_elem_of_singleton in I2 as ->. apply Nu. by rewrite Se.
    + split; [done|]. intros x. rewrite S'. cbn [wk_out]. rewrite elem_of_app, list_elem_of_singleton. split.
      * intros [[I| ->]|(k' & v' & I & L)]; [by left|right; exists k, v; split; [left|done]|].
        right. exists k', v'. split; [by right|done].
      * intros [I|(k' & v' & I & L)]; [by left; left|]. apply elem_of_cons in I as [[= -> ->]|I]; [|eauto 6].
        left. right. by eapply listed_functional.
Qed.

(** ** SCAN *)

(** With more records than the budget, the walk never runs to the end. *)
Lemma walk_stops start limit pattern now l : forall w r, 0 <= wk_count w <= wrap 64 (limit * 64) ->
  wrap 64 (limit * 64) < wk_count w + Z.of_nat (length l) -> (forall k v, (k, v) ∈ l -> k <> []) ->
  scan_loop [] (scan_step start limit pattern now) w l = Ret r -> wk_next r <> [] /\
  forall u, u ∈ wk_out r -> u ∈ wk_out w \/
    exists k v p, (k, v) ∈ take (Z.to_nat (wrap 64 (limit * 64) - wk_count w)) l /\ parse k = Ret (Some p) /\ pk_userkey p = u.
Proof.
  induction l as [|[k v] l IH]; intros w r C0 C1 Ne; [simpl length in C1; lia|]. simpl length in C1.
  cbn [scan_loop]. rewrite (starts_with_app [] k : starts_with k [] = true). cbn [negb].
  assert (Ne' : forall k v, (k, v) ∈ l -> k <> []) by (intros; eapply Ne; by right).
  assert (Nk : k <> []) by (eapply Ne; left).
  unfold scan_step at 1. cbv zeta. cbn [wk_seen wk_out wk_next].
  destruct (_ <? wk_count w + 1) eqn:Eb; [apply Z.ltb_lt in Eb|apply Z.ltb_ge in Eb].
  { cbn [rust_bind fst snd]. intros [= <-]. cbn [wk_next wk_out]. split; [done|]. by left. }
  replace (Z.to_nat (wrap 64 (limit * 64) - wk_count w)) with (S (Z.to_nat (wrap 64 (limit * 64) - (wk_count w + 1)))) by lia.
  assert (Go : forall w1, wk_count w1 = wk_count w + 1 ->
    (forall u, u ∈ wk_out w1 -> u ∈ wk_out w \/ exists p, parse k = Ret (Some p) /\ pk_userkey p = u) ->
    scan_loop [] (scan_step start limit pattern now) w1 l = Ret r -> wk_next r <> [] /\
    forall u, u ∈ wk_out r -> u ∈ wk_out w \/ exists k' v' p,
      (k', v') ∈ take (S (Z.to_nat (wrap 64 (limit * 64) - (wk_count w + 1)))) ((k, v) :: l) /\
      parse k' = Ret (Some p) /\ pk_userkey p = u).
  { intros w1 Ec Eo E. destruct (IH w1 r) as [N O]; [rewrite Ec; lia|rewrite Ec; lia|done|done|]. split; [done|].
    intros u [I|(k' & v' & p & I & Hr)]%O.
    - destruct (Eo u I) as [|(p & Ep & Eu)]; [by left|]. right. exists k, v, p. split; [left|done].
    - rewrite Ec in I. right. exists k', v', p. split; [by right|done]. }
  destruct (negb _ && _); [cbn [rust_bind fst snd]; apply Go; [done|by left]|].
  destruct (parse k) as [[p|]|] eqn:Ep; cbn [rust_bind fst snd]; [|apply Go; [done|by left]|done].
  destruct (pk_tag p =? _); [cbn [rust_bind fst snd]; apply Go; [done|by left]|].
  case_bool_decide; [cbn [rust_bind fst snd]; apply Go; [done|by left]|].
  case_bool_decide; [cbn [rust_bind fst snd]; apply Go; [done|by left]|].
  destruct (shows_key (pk_tag p) v now) as [b|]; [|done]. cbn [rust_bind].
  assert (New : forall u, u ∈ wk_out w ++ [pk_userkey p] -> u ∈ wk_out w \/ exists p, Ret (Some p) = parse k /\ pk_userkey p = u).
  { intros u [I|I]%elem_of_app; [by left|]. apply list_elem_of_singleton in I as ->. eauto. }
  destruct (b && _); [|cbn [rust_bind fst snd]; apply Go; [done|by left]]. cbn [rust_bind fst snd].
  destruct (limit <=? _); cbn [negb].
  - intros [= <-]. cbn [wk_next wk_out]. split; [done|]. intros u [I|(p' & Ep' & Eu)]%New; [by left|].
    right. exists k, v, p'. rewrite <- Ep'. split; [left|done].
  - apply Go; [done|]. cbn [wk_out]. intros u [I|(p' & Ep' & Eu)]%New; [by left|]. right. rewrite Ep in Ep'. eauto.
Qed.
End walk.

(** KEYS is exact over the records: every user key listed once, and listed
    iff one of its records (not a score index, not of a hidden key) is visible
    and the key matches the pattern. *)
Theorem keys_exact {DB} `{KVLaws DB} wall pattern (s : Shard DB) :
  keys_are_bytes (db s) -> Z.of_nat (length (with_prefix (db s) [])) < 2 ^ 57 - 1 ->
  (forall k v, kv_get (db s) k = Some v -> readable (wall (ticks s)) k v) ->
  exists ks, keys wall pattern s = Ret (RArray (map RBulk ks), tick s) /\ NoDup ks /\
    forall u, u ∈ ks <-> exists k v, kv_get (db s) k = Some v /\ listed (wall (ticks s)) (Some pattern) k v u.
Proof.
  intros Kb L Rd. unfold keys, scan_userkeys, mbind, M_bind, now_ms. cbn [rust_bind fst snd]. unfold scan_prefix, scan_from. cbn [db].
  fold (with_prefix (db s) []).
  destruct (walk_all ((2 ^ 64 - 1) / 128) (Some pattern) (wall (ticks s)) (with_prefix (db s) []) (mkWalk [] [] [] 0))
    as (w & E & Nd & S'); cbn [wk_count wk_out wk_seen length].
  - lia.
  - change (wrap 64 ((2 ^ 64 - 1) / 128 * 64)) with (2 ^ 63 - 64). lia.
  - change ((2 ^ 64 - 1) / 128) with (2 ^ 57 - 1). lia.
  - done.
  - constructor.
  - intros k v I. apply with_prefix_spec in I as [G _]; [|done]. by apply Rd.
  - rewrite E. cbn [rust_bind fst snd mret M_ret]. exists (wk_out w). split; [done|]. split; [done|]. intros u. rewrite S'.
    cbn [wk_out]. split.
    + intros [I|(k & v & I & Li)]; [by apply not_elem_of_nil in I|]. apply with_prefix_spec in I as [G _]; [eauto|done].
    + intros (k & v & G & Li). right. exists k, v. split; [|done]. apply with_prefix_spec; [done|]. split; [done|].
      exact (starts_with_app [] k).
Qed.

(** The records of a shard, decoded. *)
Definition readableb (now : Z) (e : bytes * bytes) : bool :=
  match parse e.1 with
  | Ret (Some p) => match shows_key (pk_tag p) e.2 now with Ret _ => true | _ => false end
  | Ret None => true
  | _ => false
  end.
Lemma readable_dec (d : gmap bytes bytes) now : forallb (readableb now) (map_to_list d) = true ->
  forall k v, kv_get d k = Some v -> readable now k v.
Proof.
  intros F k v G. rewrite forallb_forall in F. specialize (F (k, v)). unfold readableb in F. cbn [fst snd] in F.
  assert (I : In (k, v) (map_to_list d)) by (apply list_elem_of_In, elem_of_map_to_list; exact G). specialize (F I).
  unfold readable. destruct (parse k) as [[p|]|]; [|by eexists; split|done]. eexists. split; [done|]. intros p' [= <-].
  destruct (shows_key (pk_tag p) v now); [eauto|done].
Qed.
Lemma bytes_keys_dec (d : gmap bytes bytes) : forallb (fun e => forallb (fun x => (0 <=? x) && (x <? 256)) e.1) (map_to_list d) = true ->
  keys_are_bytes d.
Proof.
  intros F k v G. rewrite forallb_forall in F. specialize (F (k, v)).
  assert (I : In (k, v) (map_to_list d)) by (apply list_elem_of_In, elem_of_map_to_list; exact G). specialize (F I).
  cbn [fst] in F. rewrite forallb_forall in F. apply Forall_forall. intros x Ix. apply list_elem_of_In in Ix.
  specialize (F x Ix). unfold u8, in_range. lia.
Qed.

Lemma keys_exact_witness : exists ks, keys ex_wall (str "*") ex_keys = Ret (RArray (map RBulk ks), tick ex_keys) /\ NoDup ks /\
  str "a" ∈ ks.
Proof.
  destruct (keys_exact ex_wall (str "*") ex_keys) as (ks & E & Nd & S').
  - apply bytes_keys_dec. vm_compute. reflexivity.
  - vm_compute. reflexivity.
  - apply readable_dec. vm_compute. reflexivity.
  - exists ks. split; [exact E|]. split; [exact Nd|]. apply S'.
    exists (string_key (str "a")), (encode_with (mkEnvelope 0 5 1 1900000000000) (str "x")).
    split; [vm_compute; reflexivity|]. eexists. split; [vm_compute; reflexivity|].
    split; [reflexivity|]. split; [vm_compute; congruence|]. split; [vm_compute; congruence|]. split; vm_compute; reflexivity.
Defined.

(** The records one call of SCAN may look at: the first 64 for each key asked for. *)
Definition visited {DB} `{KV DB} (count : Z) (d : DB) : list (bytes * bytes) :=
  take (Z.to_nat (Z.max count 1 * 64)) (with_prefix d []).

(** SCAN does not finish: once the store holds more than [64 * COUNT]
    records, no SCAN with that count ever replies with the cursor [0] - each
    call counts its budget from the first record of the store - and no call
    ever returns a key past the first [64 * COUNT] records. *)
Theorem scan_never_finishes {DB} `{KV DB} wall cursor args pattern count reply (s s' : Shard DB) :
  scan_opts args None 10 = Some (pattern, count) -> Z.max count 1 * 64 < 2 ^ 64 ->
  Z.max count 1 * 64 < Z.of_nat (length (with_prefix (db s) [])) -> (forall k v, (k, v) ∈ with_prefix (db s) [] -> k <> []) ->
  scan wall cursor args s = Ret (reply, s') ->
  reply = RErr (str "ERR invalid cursor") \/
  exists c ks, reply = RArray [RBulk c; RArray (map RBulk ks)] /\ c <> str "0" /\
    forall u, u ∈ ks -> exists k v p, (k, v) ∈ visited count (db s) /\
      parse k = Ret (Some p) /\ pk_userkey p = u.
Proof.
  intros Eo B Lg Ne. unfold scan. rewrite Eo. unfold mbind at 1, M_bind at 1.
  assert (St : exists o, (if bool_decide (cursor = str "0") then mret (Some []) else lift (hex_decode cursor)) s = o) by eauto.
  destruct St as [o Es]. rewrite Es.
  assert (Os : forall st s1, o = Ret (st, s1) -> s1 = s).
  { intros st s1 ->. destruct (bool_decide _); [by injection Es|]. unfold lift in Es. destruct (hex_decode cursor); [|done].
    by injection Es. }
  destruct o as [[[start|] s1]|]; cbn [rust_bind fst snd]; [|intros [= <- _]; by left|done].
  rewrite (Os _ _ eq_refl). unfold scan_userkeys, mbind, M_bind, now_ms. cbn [rust_bind fst snd]. unfold scan_prefix, scan_from.
  cbn [db]. fold (with_prefix (db s) []).
  assert (Ew : wrap 64 (Z.max count 1 * 64) = Z.max count 1 * 64) by (apply Z.mod_small; lia).
  destruct (scan_loop [] _ _ (with_prefix (db s) [])) as [w|] eqn:El; [|done]. cbn [rust_bind fst snd mret M_ret].
  apply walk_stops in El as [N O]; cbn [wk_count]; rewrite ?Ew; [|lia|lia|exact Ne]. cbn [wk_count wk_out] in O. rewrite Ew, Z.sub_0_r in O.
  intros [= <- _]. right. exists (hex_encode (wk_next w)), (wk_out w). rewrite bool_decide_false by done. split; [done|]. split.
  - intros E. pose proof (hex_encode_even (wk_next w)) as Ev. by rewrite E in Ev.
  - intros u [I|]%O; [by apply not_elem_of_nil in I|done].
Qed.

(** Sixty-five one-byte strings. *)
Definition ex_many : Shard (gmap bytes bytes) :=
  mkShard (list_to_map (map (fun i => (string_key [Z.of_nat i + 1], encode_with (mkEnvelope 0 5 1 0) [120])) (seq 0 65))) 0 ∅ 0.
Lemma scan_never_finishes_witness :
  exists c ks s', scan ex_wall (str "0") [str "COUNT"; str "1"] ex_many = Ret (RArray [RBulk c; RArray (map RBulk ks)], s') /\
    c <> str "0".
Proof.
  assert (X : exists r s', scan ex_wall (str "0") [str "COUNT"; str "1"] ex_many = Ret (r, s') /\ r <> RErr (str "ERR invalid cursor")).
  { eexists _, _. split; [vm_compute; reflexivity|congruence]. }
  destruct X as (r & s' & E & Nr).
  destruct (scan_never_finishes ex_wall (str "0") [str "COUNT"; str "1"] None 1 r ex_many s') as [|(c & ks & Er & Nc & _)].
  - vm_compute. reflexivity.
  - lia.
  - vm_compute. reflexivity.
  - assert (F : forallb (fun e : bytes * bytes => negb (bool_decide (e.1 = []))) (with_prefix (db ex_many) []) = true) by (vm_compute; reflexivity).
    intros k v I ->. rewrite forallb_forall in F. apply list_elem_of_In in I. pose proof (F _ I) as K. clear I F E. rewrite bool_decide_true in K by reflexivity. discriminate K.
  - exact E.
  - contradiction.
  - exists c, ks, s'. rewrite <- Er. split; [exact E|exact Nc].
Defined.

(** ** Runs on a fresh shard *)

Definition outcome {A} (m : M (gmap bytes bytes) A) (s : Shard (gmap bytes bytes)) : option A :=
  match m s with Ret (a, _) => Some a | _ => None end.
Definition rpush (key : bytes) (vs : list bytes) : M (gmap bytes bytes) Reply := push 3 ex_wall key vs false false.
Definition lpop (key : bytes) : M (gmap bytes bytes) Reply := pop 3 ex_wall 32 key None true.
Definition all_of (key : bytes) : M (gmap bytes bytes) Reply := lrange ex_wall key 0 (-1).
Definition move (src dst : bytes) : M (gmap bytes bytes) Reply := rename 3 ex_wall no_json no_proto src dst false.
Definition duplicate (src dst : bytes) : M (gmap bytes bytes) Reply := copy 3 ex_wall no_json no_proto src dst false.
Definition bulks (l : list string) : Reply := RArray (map (fun x => RBulk (str x)) l).

(** RENAME onto a deleted key brings its elements back: after RPUSH d x y,
    DEL d, EXISTS d = 0, RPUSH s z, RENAME s d, the list d is z y - the
    destination is absent, so its delete clock is not carried into the head
    written there, and the old records become visible again. *)
Theorem rename_resurrects_deleted :
  outcome (_ ← rpush (str "d") [str "x"; str "y"]; a ← del 3 ex_wall [str "d"]; e ← exists_cmd ex_wall [str "d"];
           _ ← rpush (str "s") [str "z"]; r ← move (str "s") (str "d"); l ← all_of (str "d"); mret [a; e; r; l]) (ex_shard ∅)
  = Some [RInt 1; RInt 0; ok; bulks ["z"; "y"]%string].
Proof. vm_compute. reflexivity. Qed.

(** COPY onto a drained list makes its cached range wrong, and a wrong
    range loses data: after RPUSH s a b, RPUSH d x, LPOP d, COPY s d, the list d
    reads a b, but LPOP d is nil and RPUSH d c overwrites a: the list is then
    c b. *)
Theorem copy_onto_drained_list_loses :
  outcome (_ ← rpush (str "s") [str "a"; str "b"]; _ ← rpush (str "d") [str "x"]; _ ← lpop (str "d");
           r ← duplicate (str "s") (str "d"); l ← all_of (str "d"); p ← lpop (str "d"); n ← rpush (str "d") [str "c"];
           l' ← all_of (str "d"); mret [r; l; p; n; l']) (ex_shard ∅)
  = Some [RInt 1; bulks ["a"; "b"]%string; RNull; RInt 1; bulks ["c"; "b"]%string].
Proof. vm_compute. reflexivity. Qed.

(** KEYS lists deleted collections: after RPUSH d x, DEL d, EXISTS d is 0
    and KEYS * is d - the walk takes element records as visible without their
    collection's delete clock. *)
Theorem keys_lists_deleted_collection :
  outcome (_ ← rpush (str "d") [str "x"]; a ← del 3 ex_wall [str "d"]; e ← exists_cmd ex_wall [str "d"];
           l ← keys ex_wall (str "*"); mret [a; e; l]) (ex_shard ∅)
  = Some [RInt 1; RInt 0; bulks ["d"]%string].
Proof. vm_compute. reflexivity. Qed.

(** A hash field two nodes have incremented, by 5 and by 3. *)
Definition two_increments : bytes :=
  let one n d := CounterState_encode (bump (mkCounter 0 0 0 []) n d) in
  match counter_field_set 10 1 None (one 1 5) with
  | Ret a => match Envelope_decode a with
      | Some (_, p) => match counter_field_set 11 2 (Some p) (one 2 3) with Ret b => b | _ => [] end
      | None => [] end
  | _ => []
  end.
Definition ex_hash : Shard (gmap bytes bytes) :=
  mkShard (<[hash_field_key (str "h") (str "f") := two_increments]>
    {[ head_key (str "h") := encode_with (Envelope_head 9 1) (head_encode CTYPE_HASH 0) ]}) 100 ∅ 0.

(** RENAME drops increments: a hash field incremented by 5 on one node and
    by 3 on another reads 8; after RENAME h g the field of g reads 3 - only the
    contribution of the latest writer is copied. *)
Theorem rename_drops_increments :
  outcome (a ← read_element ex_wall (hash_field_key (str "h") (str "f")) 0; r ← move (str "h") (str "g");
           b ← read_element ex_wall (hash_field_key (str "g") (str "f")) 0; mret (a, r, b)) ex_hash
  = Some (Some (str "8"), ok, Some (str "3")).
Proof. vm_compute. reflexivity. Qed.
