(* ===== verification/StringCmd.v ===== *)
(** * Strings ([crates/marekvs-engine/src/cmd/string.rs])

    A string is a last-writer-wins register; INCR turns it into a positive-
    negative counter record, which every read renders as its decimal value.
    Handlers are programs of the shard monad; fetching remote keys is not part
    of them, and the keys of MGET, MSET and MSETNX are taken to live on one
    shard.  Machine arithmetic wraps, as the release profile compiles it.  The
    decimal text of a double and its parser are parameters. *)

From Stdlib Require Import String.
From S2P Require Import Prelude Partition Hlc Envelope Ikey Counter Lattice Merge F64 Store Resp Reply Server Generic.

(** ** [str::trim] on UTF-8 *)

(** White space at the front, or (reversed) at the back. *)
Definition ascii_space (b : Z) : bool := ((9 <=? b) && (b <=? 13)) || (b =? 32).
Definition wide_space (a b c : Z) : bool :=
  ((a =? 0xE1) && (b =? 0x9A) && (c =? 0x80)) ||
  ((a =? 0xE2) && (b =? 0x80) && (((0x80 <=? c) && (c <=? 0x8A)) || (c =? 0xA8) || (c =? 0xA9) || (c =? 0xAF))) ||
  ((a =? 0xE2) && (b =? 0x81) && (c =? 0x9F)) || ((a =? 0xE3) && (b =? 0x80) && (c =? 0x80)).
Definition narrow_space (a b : Z) : bool := (a =? 0xC2) && ((b =? 0x85) || (b =? 0xA0)).
Fixpoint trim_start (l : bytes) : bytes :=
  match l with
  | [] => []
  | a :: l1 =>
      if ascii_space a then trim_start l1 else
      match l1 with
      | [] => l
      | b :: l2 =>
          if narrow_space a b then trim_start l2 else
          match l2 with
          | [] => l
          | c :: l3 => if wide_space a b c then trim_start l3 else l
          end
      end
  end.
Fixpoint trim_rev (l : bytes) : bytes :=
  match l with
  | [] => []
  | a :: l1 =>
      if ascii_space a then trim_rev l1 else
      match l1 with
      | [] => l
      | b :: l2 =>
          if narrow_space b a then trim_rev l2 else
          match l2 with
          | [] => l
          | c :: l3 => if wide_space c b a then trim_rev l3 else l
          end
      end
  end.
Definition trim (l : bytes) : bytes := rev (trim_rev (rev (trim_start l))).
(** [from_utf8(b).ok().and_then(|s| s.trim().parse::<i64>().ok())]. *)
Definition parse_trimmed (b : bytes) : option Z := if utf8_ok b then parse_i64 (trim b) else None.

Definition not_float : Reply := RErr (str "ERR value is not a valid float").
Definition overflow_err : Reply := RErr (str "ERR increment or decrement would overflow").

Section strings.
Context {DB : Type} `{!KV DB}.
Context (node_id : Z) (wall : nat -> Z).
(** [from_utf8] and [str::parse::<f64>], [parse_f64] of [cmd/mod.rs] and
    [fmt_f64], on the bits of a double. *)
Context (parse_double parse_f64 : bytes -> option Z) (fmt_f64 : Z -> bytes).

(** ** Reading and writing *)

Definition materialize_string (rtype : RecordType) (payload : bytes) : option bytes :=
  if bool_decide (rtype = Counter)
  then c ← CounterState_decode payload; v ← value c; Some (Z_to_string v)
  else Some payload.

(** [Err(())] is [None]. *)
Definition read_string (key : bytes) : M DB (option (option bytes)) :=
  r ← read_lww wall (string_key key) 0;
  match r with
  | Some (env, payload) => mret (Some (materialize_string (rtype env) payload))
  | None =>
      t ← check_type wall key 115;
      mret (match t with Some _ => Some None | None => None end)
  end.

Definition read_lww_batch (ikeys : list bytes) (del_hlc : Z) : M DB (list (option (Envelope * bytes))) :=
  if bool_decide (ikeys = []) then mret [] else
  now ← now_ms wall;
  reads (fun d => map (fun ik =>
    match kv_get d ik ≫= Envelope_decode with
    | Some (env, pay) => match visible env pay del_hlc now with Some _ => Some (env, pay) | None => None end
    | None => None
    end) ikeys).
Definition read_strings_batch (keys : list bytes) : M DB (list (option bytes)) :=
  slots ← read_lww_batch (map string_key keys) 0;
  mret (map (fun (slot : option (Envelope * bytes)) => x ← slot; materialize_string (rtype x.1) x.2) slots).

Definition write_string (key value : bytes) (ttl : Z) : M DB unit :=
  rec ← new_lww node_id wall RString value ttl; put_raw (string_key key) rec.

Definition current_ttl_deadline (key : bytes) : M DB Z :=
  r ← read_lww wall (string_key key) 0;
  mret (match r with Some (env, _) => ttl_deadline_ms env | None => 0 end).

(** ** Handlers *)

(** A command that reads the string first. *)
Definition on_string (key : bytes) (f : option bytes -> M DB Reply) : M DB Reply :=
  r ← read_string key; match r with None => mret wrongtype | Some old => f old end.

Definition get (key : bytes) : M DB Reply := on_string key (fun v => mret (bulk_or_null v)).

Record SetFlags := mkSetFlags { sf_nx : bool; sf_xx : bool; sf_keepttl : bool; sf_get : bool; sf_ttl : option Z }.

Definition set (f : SetFlags) (key value : bytes) : M DB Reply :=
  blocked ← (if sf_get f then t ← check_type wall key 115; mret (bool_decide (t = None)) else mret false);
  if (blocked : bool) then mret wrongtype else
  let need_old := sf_nx f || sf_xx f || sf_keepttl f || sf_get f in
  old ← (if need_old then read_lww wall (string_key key) 0 else mret None);
  let old_reply := match old with Some (_, v) => RBulk v | None => RNull end in
  let exists_ := bool_decide (is_Some old) in
  if need_old && ((sf_nx f && exists_) || (sf_xx f && negb exists_)) then
    mret (if sf_get f then old_reply else RNull)
  else
    let deadline := if sf_keepttl f then match old with Some (env, _) => ttl_deadline_ms env | None => 0 end
                    else default 0 (sf_ttl f) in
    _ ← write_string key value deadline;
    mret (if sf_get f then old_reply else ok).

Definition setnx (key value : bytes) : M DB Reply :=
  t ← check_type wall key 115;
  match t with
  | None => mret (RInt 0)
  | Some _ =>
      r ← read_lww wall (string_key key) 0;
      match r with
      | Some _ => mret (RInt 0)
      | None => _ ← write_string key value 0; mret (RInt 1)
      end
  end.

Definition setex (key : bytes) (secs mult : Z) (value : bytes) : M DB Reply :=
  now ← now_ms wall;
  _ ← write_string key value (wrap 64 (now + wrap 64 (secs * mult))); mret ok.

Definition getset (key value : bytes) : M DB Reply :=
  on_string key (fun old => _ ← write_string key value 0; mret (bulk_or_null old)).

Definition getdel (key : bytes) : M DB Reply :=
  on_string key (fun old =>
    match old with
    | Some v =>
        tomb ← new_tombstone node_id wall RString;
        _ ← write_merged (string_key key) tomb; mret (RBulk v)
    | None => mret RNull
    end).

(** [None] leaves the deadline, [Some 0] removes it. *)
Definition getex (key : bytes) (new_deadline : option Z) : M DB Reply :=
  on_string key (fun old =>
    match old with
    | Some v =>
        _ ← match new_deadline with Some d => write_string key v d | None => mret tt end;
        mret (RBulk v)
    | None => mret RNull
    end).

Definition append (key suffix : bytes) : M DB Reply :=
  on_string key (fun old =>
    keep_ttl ← current_ttl_deadline key;
    let v := default [] old ++ suffix in
    _ ← write_string key v keep_ttl; mret (RInt (Z.of_nat (length v)))).

Definition strlen (key : bytes) : M DB Reply :=
  on_string key (fun v => mret (RInt (Z.of_nat (length (default [] v))))).

(** The counter an increment starts from; [None] is "not an integer". *)
Definition counter_of (existing : option (Envelope * bytes)) : option CounterState :=
  match existing with
  | None => Some (on_base 0 0 0)
  | Some (env, payload) =>
      if bool_decide (rtype env = Counter) then CounterState_decode payload
      else n ← parse_trimmed payload; Some (on_base (hlc env) (origin env) n)
  end.
Definition incrby (key : bytes) (delta : Z) : M DB Reply :=
  existing ← read_lww wall (string_key key) 0;
  blocked ← match existing with
            | None => t ← check_type wall key 115; mret (bool_decide (t = None))
            | Some _ => mret false
            end;
  if (blocked : bool) then mret wrongtype else
  match counter_of existing with
  | None => mret not_int
  | Some state =>
      let state := bump state node_id delta in
      match value state with
      | None => mret overflow_err
      | Some new =>
          let keep_ttl := match existing with Some (env, _) => ttl_deadline_ms env | None => 0 end in
          h ← hlc_now wall;
          _ ← write_merged (string_key key)
                (encode_with (with_ttl (Envelope_new Counter h node_id) keep_ttl) (CounterState_encode state));
          mret (RInt new)
      end
  end.

Definition is_infinite (f : Z) : bool := wrap 63 f =? 0x7FF0000000000000.
Definition incrbyfloat (key : bytes) (delta : Z) : M DB Reply :=
  on_string key (fun old =>
    match (match old with None => Some 0 | Some v => parse_double v end) with
    | None => mret not_float
    | Some cur =>
        let new := f64_add cur delta in
        if is_nan new || is_infinite new then mret (RErr (str "ERR increment would produce NaN or Infinity")) else
        let s := fmt_f64 new in
        keep_ttl ← current_ttl_deadline key;
        _ ← write_string key s keep_ttl; mret (RBulk s)
    end).

Definition mget (keys : list bytes) : M DB Reply :=
  vs ← read_strings_batch keys; mret (RArray (map bulk_or_null vs)).

Fixpoint new_records (pairs : list (bytes * bytes)) : M DB (list (bytes * bytes)) :=
  match pairs with
  | [] => mret []
  | (k, v) :: pairs =>
      rec ← new_lww node_id wall RString v 0;
      rest ← new_records pairs; mret ((string_key k, rec) :: rest)
  end.
Definition mset (pairs : list (bytes * bytes)) : M DB Reply :=
  items ← new_records pairs; _ ← put_many_lww items; mret ok.

Fixpoint any_string (pairs : list (bytes * bytes)) : M DB bool :=
  match pairs with
  | [] => mret false
  | (k, _) :: pairs =>
      r ← read_lww wall (string_key k) 0;
      match r with Some _ => mret true | None => any_string pairs end
  end.
Fixpoint write_strings (pairs : list (bytes * bytes)) : M DB unit :=
  match pairs with
  | [] => mret tt
  | (k, v) :: pairs => _ ← write_string k v 0; write_strings pairs
  end.
Definition msetnx (pairs : list (bytes * bytes)) : M DB Reply :=
  taken ← any_string pairs;
  if (taken : bool) then mret (RInt 0) else _ ← write_strings pairs; mret (RInt 1).

(** [Vec::resize] beyond [isize::MAX] bytes panics. *)
Definition patch_at (offset : Z) (patch v : bytes) : rust bytes :=
  let stop := offset + Z.of_nat (length patch) in
  if (Z.of_nat (length v) <? stop) && (2 ^ 63 <=? stop) then Panic else
  let v := v ++ repeat 0 (Z.to_nat stop - length v) in
  Ret (take (Z.to_nat offset) v ++ patch ++ drop (Z.to_nat stop) v).
Definition setrange (key : bytes) (offset : Z) (patch : bytes) : M DB Reply :=
  on_string key (fun old =>
    let v := default [] old in
    if bool_decide (patch = []) then mret (RInt (Z.of_nat (length v))) else
    v ← lift (patch_at offset patch v);
    keep_ttl ← current_ttl_deadline key;
    _ ← write_string key v keep_ttl; mret (RInt (Z.of_nat (length v)))).

Definition range_of_string (start end_ : Z) (v : bytes) : bytes :=
  let len := Z.of_nat (length v) in
  let s := if start <? 0 then Z.max (len + start) 0 else Z.min start len in
  let e := if end_ <? 0 then len + end_ else end_ in
  let e := Z.min e (len - 1) in
  if (e <? s) || (len =? 0) then [] else
  let s := Z.max s 0 in
  take (Z.to_nat (e - s + 1)) (drop (Z.to_nat s) v).
Definition getrange (key : bytes) (start end_ : Z) : M DB Reply :=
  on_string key (fun old =>
    mret (RBulk (match old with None => [] | Some v => range_of_string start end_ v end))).

(** ** The argument layer *)

Definition guarded_key (args : list bytes) : bool := guarded (take 1 (drop 1 args)).

Definition get_args (args : list bytes) : M DB Reply :=
  match args with [_; key] => get key | _ => mret (wrong_args "get") end.

(** The options of SET, [now] the time of parsing. *)
Fixpoint set_opts (now : Z) (args : list bytes) (f : SetFlags) : Reply + SetFlags :=
  match args with
  | [] => inr f
  | a :: rest =>
      if eq_ignore_case a "NX" then set_opts now rest (mkSetFlags true (sf_xx f) (sf_keepttl f) (sf_get f) (sf_ttl f))
      else if eq_ignore_case a "XX" then set_opts now rest (mkSetFlags (sf_nx f) true (sf_keepttl f) (sf_get f) (sf_ttl f))
      else if eq_ignore_case a "KEEPTTL" then set_opts now rest (mkSetFlags (sf_nx f) (sf_xx f) true (sf_get f) (sf_ttl f))
      else if eq_ignore_case a "GET" then set_opts now rest (mkSetFlags (sf_nx f) (sf_xx f) (sf_keepttl f) true (sf_ttl f))
      else
        let ex := eq_ignore_case a "EX" in
        let exat := eq_ignore_case a "EXAT" in
        let with_deadline d rest :=
          set_opts now rest (mkSetFlags (sf_nx f) (sf_xx f) (sf_keepttl f) (sf_get f) (Some d)) in
        if ex || eq_ignore_case a "PX" then
          match rest with
          | [] => inl not_int
          | b :: rest =>
              match parse_u64 b with
              | None => inl not_int
              | Some n =>
                  if n =? 0 then inl (RErr (str "ERR invalid expire time in 'set' command"))
                  else with_deadline (wrap 64 (now + wrap 64 (n * (if ex then 1000 else 1)))) rest
              end
          end
        else if exat || eq_ignore_case a "PXAT" then
          match rest with
          | [] => inl not_int
          | b :: rest =>
              match parse_u64 b with
              | None => inl not_int
              | Some n => with_deadline (wrap 64 (n * (if exat then 1000 else 1))) rest
              end
          end
        else inl syntax
  end.
Definition set_args (args : list bytes) : M DB Reply :=
  if guarded_key args then mret IMMUTABLE else
  match args with
  | _ :: key :: value :: opts =>
      now ← now_ms wall;
      match set_opts now opts (mkSetFlags false false false false None) with
      | inl r => mret r
      | inr f => if sf_nx f && sf_xx f then mret syntax else set f key value
      end
  | _ => mret (wrong_args "set")
  end.
Definition setnx_args (args : list bytes) : M DB Reply :=
  if guarded_key args then mret IMMUTABLE
  else match args with [_; key; value] => setnx key value | _ => mret (wrong_args "setnx") end.
Definition setex_args (mult : Z) (args : list bytes) : M DB Reply :=
  if guarded_key args then mret IMMUTABLE
  else match args with
  | [_; key; secs; value] =>
      match parse_u64 secs with
      | None => mret not_int
      | Some n =>
          if n =? 0 then mret (RErr (str "ERR invalid expire time in 'setex' command"))
          else setex key n mult value
      end
  | _ => mret (wrong_args "setex")
  end.
Definition getset_args (args : list bytes) : M DB Reply :=
  if guarded_key args then mret IMMUTABLE
  else match args with [_; key; value] => getset key value | _ => mret (wrong_args "getset") end.
Definition getdel_args (args : list bytes) : M DB Reply :=
  if guarded_key args then mret IMMUTABLE
  else match args with [_; key] => getdel key | _ => mret (wrong_args "getdel") end.

Fixpoint getex_opts (now : Z) (args : list bytes) (d : option Z) : Reply + option Z :=
  match args with
  | [] => inr d
  | a :: rest =>
      if eq_ignore_case a "PERSIST" then getex_opts now rest (Some 0)
      else
        let ex := eq_ignore_case a "EX" in
        let exat := eq_ignore_case a "EXAT" in
        if ex || eq_ignore_case a "PX" || exat || eq_ignore_case a "PXAT" then
          match rest with
          | [] => inl not_int
          | b :: rest =>
              match parse_u64 b with
              | None => inl not_int
              | Some n =>
                  getex_opts now rest
                    (Some (if ex || eq_ignore_case a "PX" then wrap 64 (now + wrap 64 (n * (if ex then 1000 else 1)))
                           else wrap 64 (n * (if exat then 1000 else 1))))
              end
          end
        else inl syntax
  end.
Definition getex_args (args : list bytes) : M DB Reply :=
  if guarded_key args then mret IMMUTABLE else
  match args with
  | _ :: key :: opts =>
      now ← now_ms wall;
      match getex_opts now opts None with inl r => mret r | inr d => getex key d end
  | _ => mret (wrong_args "getex")
  end.
Definition append_args (args : list bytes) : M DB Reply :=
  if guarded_key args then mret IMMUTABLE
  else match args with [_; key; suffix] => append key suffix | _ => mret (wrong_args "append") end.
Definition strlen_args (args : list bytes) : M DB Reply :=
  match args with [_; key] => strlen key | _ => mret (wrong_args "strlen") end.
(** [sign] is 1 for INCR, -1 for DECR; the product wraps. *)
Definition incrby_cmd (sign : Z) (takes_arg : bool) (args : list bytes) : M DB Reply :=
  if guarded_key args then mret IMMUTABLE
  else match takes_arg, args with
  | true, [_; key; d] =>
      match parse_i64 d with
      | Some d => incrby key (to_signed 64 (wrap 64 (d * sign)))
      | None => mret not_int
      end
  | false, [_; key] => incrby key sign
  | _, _ => mret (wrong_args "incr")
  end.
Definition incrbyfloat_args (args : list bytes) : M DB Reply :=
  if guarded_key args then mret IMMUTABLE
  else match args with
  | [_; key; d] => match parse_f64 d with Some d => incrbyfloat key d | None => mret not_float end
  | _ => mret (wrong_args "incrbyfloat")
  end.
Definition mget_args (args : list bytes) : M DB Reply :=
  match args with _ :: (_ :: _ as ks) => mget ks | _ => mret (wrong_args "mget") end.

(** [args[1..].chunks(2)] of an even number of arguments. *)
Fixpoint chunks2 (l : list bytes) : list (bytes * bytes) :=
  match l with k :: v :: l => (k, v) :: chunks2 l | _ => [] end.
(** [step_by(2)]. *)
Fixpoint evens (l : list bytes) : list bytes :=
  match l with [] => [] | [k] => [k] | k :: _ :: l => k :: evens l end.
Definition mset_args (nx : bool) (args : list bytes) : M DB Reply :=
  if guarded (evens (drop 1 args)) then mret IMMUTABLE
  else if (length args <? 3)%nat || Nat.even (length args) then mret (wrong_args (if nx then "msetnx" else "mset"))
  else if nx then msetnx (chunks2 (drop 1 args)) else mset (chunks2 (drop 1 args)).
Definition setrange_args (args : list bytes) : M DB Reply :=
  if guarded_key args then mret IMMUTABLE
  else match args with
  | [_; key; offset; patch] =>
      match parse_i64 offset with
      | None => mret not_int
      | Some n => if n <? 0 then mret (RErr (str "ERR offset is out of range")) else setrange key n patch
      end
  | _ => mret (wrong_args "setrange")
  end.
Definition getrange_args (args : list bytes) : M DB Reply :=
  match args with
  | [_; key; s; e] =>
      match parse_i64 s, parse_i64 e with Some s, Some e => getrange key s e | _, _ => mret not_int end
  | _ => mret (wrong_args "getrange")
  end.
End strings.
