(* ===== verification/StringLaws.v ===== *)
(** * String commands refine a register

    The abstract specification of the string family - one optional value with a
    deadline - and the proof that the handlers of [StringCmd] implement it,
    whether the value is stored as a plain register or as a counter. *)

From Stdlib Require Import String.
From S2P Require Import Prelude Partition Hlc Envelope Ikey Counter Lattice Merge MergeLaws F64 Store Resp Reply Server.
From S2P Require Import ListCmd ListLaws ListRefine Generic GenericLaws StringCmd.

(** ** Decimal text *)

Definition plain (b : Z) : Prop := 33 <= b < 128.

Lemma trim_start_plain l : Forall plain l -> trim_start l = l.
Proof.
  intros F. destruct F as [|a l1 Ha F]; [done|]. unfold plain in *. simpl. unfold ascii_space, narrow_space, wide_space.
  rewrite (proj2 (Z.leb_gt a 13)), (proj2 (Z.eqb_neq a 32)) by lia. rewrite andb_false_r. cbn [orb].
  destruct l1 as [|b l2]; [done|]. rewrite !(proj2 (Z.eqb_neq a _)) by lia. cbn [andb orb]. by destruct l2.
Qed.
Lemma trim_rev_plain l : Forall plain l -> trim_rev l = l.
Proof.
  intros F. destruct F as [|a l1 Ha F]; [done|]. unfold plain in *. simpl. unfold ascii_space, narrow_space, wide_space.
  rewrite (proj2 (Z.leb_gt a 13)), (proj2 (Z.eqb_neq a 32)) by lia. rewrite andb_false_r. cbn [orb].
  destruct F as [|b l2 Hb F]; [done|]. rewrite !(proj2 (Z.eqb_neq b _)) by lia. cbn [andb orb].
  destruct F as [|c l3 Hc F]; [done|]. by rewrite !(proj2 (Z.eqb_neq c _)) by lia.
Qed.
Lemma trim_plain l : Forall plain l -> trim l = l.
Proof.
  intros F. unfold trim. rewrite trim_start_plain by done. rewrite trim_rev_plain by (by apply Forall_rev).
  apply rev_involutive.
Qed.
Lemma utf8_plain l : Forall plain l -> utf8_ok l = true.
Proof. induction 1 as [|a l Ha _ IH]; [done|]. unfold plain in Ha. simpl. by rewrite (proj2 (Z.ltb_lt a 128)) by lia. Qed.

Lemma decimal_digits n : 0 <= n < 10 ^ 19 -> exists ds, dec_loop 20 n [] = ds /\ ds <> [] /\ Forall digit ds /\ dec_from 0 ds = n.
Proof.
  intros Hn. destruct (fmt_loop_spec 20 n []) as (idx & ds & R & N & F & V & _); [lia|change (Z.of_nat 20) with 20; lia|].
  exists ds. by rewrite (fmt_loop_dec _ _ _ _ _ R), app_nil_r.
Qed.
Lemma digit_plain l : Forall digit l -> Forall plain l.
Proof. intros F. eapply Forall_impl; [exact F|]. unfold digit, plain. lia. Qed.
Lemma digit_test l : Forall digit l -> forallb (fun c => (48 <=? c) && (c <=? 57)) l = true.
Proof. intros F. apply forallb_forall. intros x I. rewrite List.Forall_forall in F. specialize (F x I). unfold digit in F. lia. Qed.

(** The text of a counter is read back as its value. *)
Lemma parse_trimmed_text n : i64 n -> parse_trimmed (Z_to_string n) = Some n.
Proof.
  unfold i64. intros Hn. unfold parse_trimmed, Z_to_string. destruct (Z.ltb_spec n 0).
  - destruct (decimal_digits (- n)) as (ds & -> & N & F & V); [lia|].
    assert (P : Forall plain (45 :: ds)) by (constructor; [unfold plain; lia|by apply digit_plain]).
    rewrite utf8_plain, trim_plain by done. unfold parse_i64. rewrite bool_decide_false by done.
    rewrite digit_test, V by done. rewrite (proj2 (Z.leb_le _ _)), (proj2 (Z.ltb_lt _ _)) by lia. cbn [andb]. f_equal. lia.
  - destruct (decimal_digits n) as (ds & -> & N & F & V); [lia|].
    rewrite utf8_plain, trim_plain by (by apply digit_plain). unfold parse_i64.
    destruct F as [|b ds Hb F]; [done|]. assert (E : match b with 45 => (true, ds) | 43 => (false, ds) | _ => (false, b :: ds) end = (false, b :: ds)).
    { unfold digit in Hb. repeat (destruct b as [|b|b]; try done; try lia). }
    cbn [bool_decide] in *. rewrite E. rewrite bool_decide_false by done. rewrite digit_test by (by constructor).
    rewrite V, (proj2 (Z.leb_le _ _)), (proj2 (Z.ltb_lt _ _)) by lia. done.
Qed.

(** ** The abstract register *)

(** A value and its deadline (0 when it has none). *)
Abbreviation sval := (option (bytes * Z)).
Definition text (st : sval) : bytes := default [] (fst <$> st).
Definition deadline (st : sval) : Z := default 0 (snd <$> st).

Inductive sop :=
  | SGet
  | SSet (nx xx keepttl : bool) (ttl : Z) (v : bytes)
  | SSetNx (v : bytes)
  | SGetSet (v : bytes)
  | SGetDel
  | SGetEx (d : option Z)
  | SAppend (v : bytes)
  | SStrlen
  | SIncrBy (delta : Z)
  | SSetRange (offset : Z) (patch : bytes)
  | SGetRange (start stop : Z).

(** The bytes of [v] with [patch] written at [offset], zero in between. *)
Definition overwritten (offset : nat) (patch v : bytes) : bytes :=
  map (fun i => if (offset <=? i)%nat && (i <? offset + length patch)%nat then nth (i - offset) patch 0 else nth i v 0)
    (seq 0 (Nat.max (length v) (offset + length patch))).

Definition sspec (o : sop) (st : sval) : Reply * sval :=
  match o with
  | SGet => (bulk_or_null (fst <$> st), st)
  | SSet nx xx keepttl ttl v =>
      if (nx && bool_decide (is_Some st)) || (xx && bool_decide (st = None)) then (RNull, st)
      else (ok, Some (v, if keepttl then deadline st else ttl))
  | SSetNx v => match st with Some _ => (RInt 0, st) | None => (RInt 1, Some (v, 0)) end
  | SGetSet v => (bulk_or_null (fst <$> st), Some (v, 0))
  | SGetDel => (bulk_or_null (fst <$> st), None)
  | SGetEx d => match st with Some (v, t) => (RBulk v, Some (v, default t d)) | None => (RNull, None) end
  | SAppend v => (RInt (Z.of_nat (length (text st ++ v))), Some (text st ++ v, deadline st))
  | SStrlen => (RInt (Z.of_nat (length (text st))), st)
  | SIncrBy delta =>
      match (match st with None => Some 0 | Some (v, _) => parse_trimmed v end) with
      | None => (not_int, st)
      | Some n =>
          if (- 2 ^ 63 <=? n + delta) && (n + delta <? 2 ^ 63)
          then (RInt (n + delta), Some (Z_to_string (n + delta), deadline st)) else (overflow_err, st)
      end
  | SSetRange offset patch =>
      if bool_decide (patch = []) then (RInt (Z.of_nat (length (text st))), st)
      else let v := overwritten (Z.to_nat offset) patch (text st) in (RInt (Z.of_nat (length v)), Some (v, deadline st))
  | SGetRange start stop => (RBulk (range_ref start stop (text st)), st)
  end.

(** The sum of the increments of a run. *)
Definition weight (o : sop) : Z := match o with SIncrBy delta => Z.abs delta | _ => 0 end.
Definition total_weight (os : list sop) : Z := fold_right (fun o n => weight o + n) 0 os.

Section handlers.
Context {DB : Type} `{!KV DB} (key : bytes) (node_id : Z) (wall : nat -> Z).
Definition run_sop (o : sop) : M DB Reply :=
  match o with
  | SGet => get wall key
  | SSet nx xx keepttl ttl v => set node_id wall (mkSetFlags nx xx keepttl false (Some ttl)) key v
  | SSetNx v => setnx node_id wall key v
  | SGetSet v => getset node_id wall key v
  | SGetDel => getdel node_id wall key
  | SGetEx d => getex node_id wall key d
  | SAppend v => append node_id wall key v
  | SStrlen => strlen wall key
  | SIncrBy delta => incrby node_id wall key delta
  | SSetRange offset patch => setrange node_id wall key offset patch
  | SGetRange start stop => getrange wall key start stop
  end.
Fixpoint run_sops (os : list sop) : M DB (list Reply) :=
  match os with
  | [] => mret []
  | o :: os => r ← run_sop o; rs ← run_sops os; mret (r :: rs)
  end.
End handlers.

Fixpoint sspecs (os : list sop) (st : sval) : list Reply * sval :=
  match os with
  | [] => ([], st)
  | o :: os => let '(r, st1) := sspec o st in let '(rs, st2) := sspecs os st1 in (r :: rs, st2)
  end.

(** ** Patches *)

Lemma nth_repeat0 i n : nth i (repeat 0 n) 0 = 0.
Proof. destruct (decide (i < n)%nat); [by apply nth_repeat_lt|]. apply nth_overflow. rewrite repeat_length. lia. Qed.

Lemma nth_map_seq (f : nat -> Z) n i : (i < n)%nat -> nth i (map f (seq 0 n)) 0 = f i.
Proof.
  intros Hi. rewrite (nth_indep _ 0 (f O)) by (by rewrite length_map, length_seq). rewrite map_nth. by rewrite seq_nth.
Qed.

Lemma patch_at_overwritten offset patch (v : bytes) : 0 <= offset -> offset + Z.of_nat (length patch) < 2 ^ 63 ->
  patch_at offset patch v = Ret (overwritten (Z.to_nat offset) patch v).
Proof.
  intros H0 H1. unfold patch_at. rewrite (proj2 (Z.leb_gt (2 ^ 63) _)) by lia. rewrite andb_false_r. f_equal.
  replace (Z.to_nat (offset + Z.of_nat (length patch))) with (Z.to_nat offset + length patch)%nat by lia.
  set (o := Z.to_nat offset). set (m := length patch).
  assert (L : length (v ++ repeat 0 (o + m - length v)) = Nat.max (length v) (o + m)) by (rewrite length_app, repeat_length; lia).
  apply (nth_ext _ _ 0 0).
  - unfold overwritten. rewrite length_map, length_seq, !length_app, length_take, length_drop, L. fold m. lia.
  - intros i Hi. rewrite !length_app, length_take, length_drop, L in Hi. fold m in Hi.
    unfold overwritten. rewrite nth_map_seq by (fold m; lia). fold m.
    assert (V : nth i (v ++ repeat 0 (o + m - length v)) 0 = nth i v 0).
    { destruct (decide (i < length v)%nat); [by apply app_nth1|]. rewrite app_nth2 by lia. rewrite nth_repeat0. symmetry. apply nth_overflow. lia. }
    destruct (Nat.leb_spec o i).
    + rewrite app_nth2 by (rewrite length_take; lia). rewrite length_take, L, Nat.min_l by lia. cbn [andb].
      destruct (Nat.ltb_spec i (o + m)); [apply app_nth1; fold m; lia|].
      rewrite app_nth2 by (fold m; lia). fold m. rewrite nth_skipn. rewrite <- V. f_equal. lia.
    + rewrite app_nth1 by (rewrite length_take; lia). cbn [andb]. rewrite nth_firstn, (proj2 (Nat.ltb_lt i o)) by lia. done.
Qed.

Lemma range_of_string_ref start stop (v : bytes) : range_of_string start stop v = range_ref start stop v.
Proof.
  unfold range_of_string, range_ref, at_index. set (len := Z.of_nat (length v)).
  assert (D : forall n, len <= n -> drop (Z.to_nat n) v = []) by (intros n Hn; apply drop_ge; unfold len in Hn; lia).
  destruct (Z.eqb_spec len 0) as [E|E].
  { rewrite orb_true_r. destruct v; [by rewrite drop_nil, take_nil|unfold len in E; simpl in E; lia]. }
  assert (0 < len) by (unfold len in *; lia). rewrite orb_false_r.
  set (s := if start <? 0 then Z.max (len + start) 0 else Z.min start len).
  set (s' := Z.max 0 (if start <? 0 then start + len else start)).
  set (e := if stop <? 0 then len + stop else stop). replace (if stop <? 0 then stop + len else stop) with e by (unfold e; destruct (stop <? 0); lia).
  assert (S : s = s' \/ (s = len /\ len <= s')) by (unfold s, s'; destruct (Z.ltb_spec start 0); lia).
  assert (0 <= s') by (unfold s'; lia).
  destruct (Z.ltb_spec (Z.min e (len - 1)) s).
  - destruct S as [->|[-> ?]]; [|by rewrite (D s'), take_nil by lia].
    destruct (decide (len <= s')); [by rewrite D, take_nil by lia|]. by replace (Z.to_nat (e + 1 - s')) with 0%nat by lia.
  - destruct S as [->|[-> ?]]; [|lia]. rewrite Z.max_l by lia.
    destruct (decide (e <= len - 1)); [do 2 f_equal; lia|]. rewrite !take_ge; [done|rewrite length_drop; unfold len in *; lia..].
Qed.

(** ** Counters *)

(** A node can still add [w] to its own slot of the counter. *)
Record counter_fit (node_id w : Z) (c : CounterState) : Prop := {
  cf_fields : counter_fields_ok c;
  cf_wf : counter_wf c;
  cf_cap : is_Some (slots_get (cslots c) node_id) \/ (length (cslots c) < MAX_SLOTS)%nat;
  cf_room : bump_fits c node_id w;
}.

Lemma slot_update_length node f l : slots_sorted l ->
  length (slot_update node f l) = if bool_decide (is_Some (slots_get l node)) then length l else S (length l).
Proof.
  intros Hs. induction Hs as [|[m v] l Hs IH Hf]; [done|]. simpl. destruct (Z.ltb_spec node m).
  - rewrite (proj2 (Z.eqb_neq node m)) by lia. by rewrite (slots_get_below l node (m, v)) by (assumption || (simpl; lia)).
  - destruct (Z.eqb_spec node m) as [->|]; simpl; [done|]. rewrite IH. by case_bool_decide.
Qed.

Lemma bump_fit node_id w c delta : u16 node_id -> Z.abs delta <= w -> counter_fit node_id w c ->
  counter_fit node_id (w - Z.abs delta) (bump c node_id delta).
Proof.
  intros Un Le [F W C R]. pose proof (wf_sorted c W) as So. split.
  - destruct F as [F1 F2 F3 F4]. split; try done. cbn [bump cslots]. unfold bump_fits in R.
    apply slot_update_Forall; [done|split; cbn [fst snd]; [done|..]|]; unfold bump_slot.
    1-2: cbn [default from_option]; unfold saturating_add; destruct (Z.leb_spec 0 delta); cbn [fst snd]; unfold u64, in_range; lia.
    intros v Hv. rewrite List.Forall_forall in F4. destruct (F4 (node_id, v)) as [_ Vp Vn]; [by apply list_elem_of_In|].
    cbn [fst snd] in *. destruct v as [p q]. split; cbn [fst snd default from_option id] in *; [done|..];
      unfold saturating_add, u64, in_range in *; destruct (Z.leb_spec 0 delta); cbn [fst snd]; lia.
  - split; cbn [bump cslots]; [by apply slot_update_sorted|]. rewrite slot_update_length by done.
    pose proof (wf_cap c W). case_bool_decide as B; [done|]. destruct C; [done|lia].
  - left. cbn [bump cslots]. rewrite slot_update_get by done. rewrite Z.eqb_refl. by eexists.
  - unfold bump_fits in *. cbn [bump cslots]. rewrite slot_update_get, Z.eqb_refl by done. cbn [default from_option id].
    unfold bump_slot. destruct (default (0, 0) (slots_get (cslots c) node_id)) as [p q].
    unfold saturating_add. destruct (Z.leb_spec 0 delta); lia.
Qed.

Lemma bump_fits_le c node_id w w' : 0 <= w' <= w -> bump_fits c node_id w -> bump_fits c node_id w'.
Proof. intros Le. unfold bump_fits. destruct (default _ _). lia. Qed.
Lemma counter_fit_le node_id w w' c : 0 <= w' <= w -> counter_fit node_id w c -> counter_fit node_id w' c.
Proof. intros Le [F W C R]. split; try done. by eapply bump_fits_le. Qed.
Lemma bump_fits_abs c node_id delta : bump_fits c node_id (Z.abs delta) <-> bump_fits c node_id delta.
Proof. unfold bump_fits. destruct (default _ _). by rewrite Z.abs_involutive. Qed.

(** The join with the bumped counter is the bumped counter. *)
Lemma merge_bump node_id w c delta : u16 node_id -> Z.abs delta <= w -> counter_fit node_id w c ->
  CounterState_merge c (bump c node_id delta) = bump c node_id delta.
Proof.
  intros Un Le Fi. pose proof (bump_fit node_id w c delta Un Le Fi) as [_ W' _ _]. destruct Fi as [F W C R].
  pose proof (wf_sorted c W) as So. unfold CounterState_merge. rewrite (proj2 (ver_cmp_eq _ _)) by reflexivity. unfold bump in *.
  cbn [cslots base_hlc base_origin cbase] in *. f_equal. rewrite join_slots_merge by (done || by apply slot_update_sorted).
  assert (slots_merge (cslots c) (slot_update node_id (bump_slot delta) (cslots c)) = slot_update node_id (bump_slot delta) (cslots c)) as ->;
    [|by apply take_ge, W'].
  apply slots_ext; [by apply slots_merge_sorted, slot_update_sorted|by apply slot_update_sorted|].
  intros k. rewrite slots_merge_get, slot_update_get by (done || by apply slot_update_sorted).
  destruct (Z.eqb_spec k node_id) as [->|]; [|apply opt_max_idem]. unfold bump_fits in R.
  apply bump_slot_grows; destruct (default (0, 0) (slots_get (cslots c) node_id)); simpl; lia.
Qed.

Lemma on_base_fit node_id w h o b : u64 h -> u16 o -> i64 b -> 0 <= w < 2 ^ 64 -> counter_fit node_id w (on_base h o b).
Proof.
  intros Uh Uo Ib Hw. split; [split; [done..|constructor]|split; [constructor|unfold MAX_SLOTS; simpl; lia]|right; unfold MAX_SLOTS; simpl; lia|].
  unfold bump_fits. simpl. lia.
Qed.

(** ** Merging into a string key *)

Lemma reg_bytes_inj (a b : reg) : envelope_ok a.1 -> envelope_ok b.1 -> reg_bytes a = reg_bytes b -> a = b.
Proof.
  intros Oa Ob E. apply (f_equal Envelope_decode) in E. unfold reg_bytes in E. rewrite !Envelope_decode_encode_with in E by done.
  destruct a, b. by injection E as -> ->.
Qed.

Definition string_like (t : RecordType) : Prop := t = RString \/ t = Counter.

Lemma merged_newer a b : envelope_ok a.1 -> envelope_ok b.1 -> string_like (rtype a.1) -> string_like (rtype b.1) ->
  ~ (rtype a.1 = Counter /\ rtype b.1 = Counter /\ is_tombstone a.1 = false /\ is_tombstone b.1 = false) ->
  hlc a.1 < hlc b.1 -> merged_bytes (reg_bytes a) (reg_bytes b) = Ret (reg_bytes b).
Proof.
  intros Oa Ob Ta Tb N Lt. unfold merged_bytes, merge_values, reg_bytes. rewrite !Envelope_decode_encode_with by assumption.
  assert (is_or_element (rtype b.1) = false) as -> by (destruct Tb as [-> | ->]; done).
  rewrite (bool_decide_false (rtype a.1 = HllRegister)) by (destruct Ta as [-> | ->]; done). cbn [andb]. rewrite orb_true_r.
  assert (bool_decide (rtype a.1 = Counter) && bool_decide (rtype b.1 = Counter) && negb (is_tombstone a.1) && negb (is_tombstone b.1) = false) as ->.
  { apply not_true_iff_false. rewrite !andb_true_iff, !bool_decide_eq_true, !negb_true_iff. tauto. }
  cbn [rust_bind]. unfold merge_lww, ver_ltb, ver_cmp, env_version. cbn [fst].
  rewrite (proj2 (Z.compare_lt_iff (hlc a.1) (hlc b.1))) by lia. done.
Qed.

Definition counter_rec (node_id h ttl : Z) (c : CounterState) : reg :=
  (with_ttl (Envelope_new Counter h node_id) ttl, CounterState_encode c).

Lemma counter_rec_ok node_id h ttl c : u16 node_id -> u64 h -> u64 ttl -> envelope_ok (counter_rec node_id h ttl c).1.
Proof. intros. by constructor. Qed.

Lemma merged_bump node_id w env c delta h ttl : u16 node_id -> u64 h -> u64 ttl -> envelope_ok env -> rtype env = Counter ->
  is_tombstone env = false -> hlc env < h -> ttl_deadline_ms env = ttl -> Z.abs delta <= w -> counter_fit node_id w c ->
  merged_bytes (reg_bytes (env, CounterState_encode c)) (reg_bytes (counter_rec node_id h ttl (bump c node_id delta))) =
  Ret (reg_bytes (counter_rec node_id h ttl (bump c node_id delta))).
Proof.
  intros Un Uh Ut Oe Te Tt Lt Ed Le Fi. pose proof (bump_fit _ _ _ delta Un Le Fi) as Fi'.
  unfold merged_bytes, merge_values, reg_bytes.
  rewrite (Envelope_decode_encode_with env _ Oe), (Envelope_decode_encode_with _ _ (counter_rec_ok _ _ _ _ Un Uh Ut)).
  rewrite (bool_decide_true (rtype env = Counter)) by done. change (rtype (counter_rec node_id h ttl (bump c node_id delta)).1) with Counter.
  rewrite (bool_decide_true (Counter = Counter)) by done. cbn [fst]. rewrite Tt.
  change (is_tombstone (counter_rec node_id h ttl (bump c node_id delta)).1) with false. cbn [andb negb rust_bind].
  unfold merge_counters, counter_rec. cbn [fst snd].
  rewrite (counter_decode_encode c) by apply Fi. rewrite (counter_decode_encode (bump c node_id delta)) by apply Fi'.
  rewrite (merge_bump node_id w) by done. rewrite resolve_outcome_of. do 2 f_equal.
  unfold winner_ttl, ver_max, ver_ltb, ver_cmp, env_version. cbn [fst snd with_ttl Envelope_new hlc origin ttl_deadline_ms].
  rewrite (proj2 (Z.compare_lt_iff (hlc env) h)) by lia. done.
Qed.

(** ** The refinement *)

Section refine.
Context {DB : Type} `{KVLaws DB}.
Context (key : bytes).
Context (node_id : Z) (wall : nat -> Z) (node_range : u16 node_id) (walls : forall n, 0 <= wall n < 2 ^ 47).

(** The record [env], [pay] shows [v]; a counter has room for [w] more. *)
Definition shows (w : Z) (env : Envelope) (pay v : bytes) : Prop :=
  rtype env = RString /\ pay = v \/
  rtype env = Counter /\ exists c n, counter_fit node_id w c /\ pay = CounterState_encode c /\ value c = Some n /\ v = Z_to_string n.

(** What is stored at the string key for an abstract state. *)
Definition stored_as (clock w : Z) (o : option bytes) (st : sval) : Prop :=
  match o with
  | None => st = None
  | Some b => exists env pay, b = reg_bytes (env, pay) /\ envelope_ok env /\ 0 < hlc env <= clock /\ string_like (rtype env) /\
      match st with
      | None => is_tombstone env = true
      | Some (v, ttl) => is_tombstone env = false /\ ttl_deadline_ms env = ttl /\ in_time wall ttl /\ shows w env pay v
      end
  end.

(** No collection holds the key. *)
Definition untyped (d : DB) : Prop :=
  (forall n, head_live (head_of d key) (wall n) = false) /\ dead_at d (list_key key).

Record str_inv (n : nat) (w : Z) (st : sval) (s : Shard DB) : Prop := {
  si_room : room n s;
  si_stored : stored_as (hlc_word s) w (kv_get (db s) (string_key key)) st;
  si_untyped : untyped (db s);
}.

Lemma inv_quiet n w st s s' : quiet s s' -> str_inv n w st s -> str_inv n w st s'.
Proof.
  intros Q [R S U]. pose proof Q as (Ed & Eh & Ew). split; [by eapply room_quiet|by rewrite Ed, Ew|by rewrite Ed].
Qed.
Lemma shows_le w w' env pay v : 0 <= w' <= w -> shows w env pay v -> shows w' env pay v.
Proof.
  intros Le [?|(T & c & n & F & ?)]; [by left|right]. split; [done|]. exists c, n. split; [by eapply counter_fit_le|done].
Qed.
Lemma str_inv_weaken n m w w' st s : (n <= m)%nat -> 0 <= w' <= w -> str_inv m w st s -> str_inv n w' st s.
Proof.
  intros Ln Lw [R S U]. split; [destruct R as (? & ? & ?); unfold room; lia| |done].
  unfold stored_as in *. destruct (kv_get _ _) as [b|]; [|done]. destruct S as (env & pay & E & O & Hh & T & S).
  exists env, pay. do 4 (split; [done|]). destruct st as [[v ttl]|]; [|done]. destruct S as (? & ? & ? & Sh).
  do 3 (split; [done|]). by eapply shows_le.
Qed.

(** Reading: the record of a value, or nothing. *)
Lemma read_lww_eq n w st s : str_inv n w st s -> exists r s', read_lww wall (string_key key) 0 s = Ret (r, s') /\ quiet s s' /\
  match r with
  | None => st = None
  | Some (env, pay) => exists v ttl, st = Some (v, ttl) /\ ttl_deadline_ms env = ttl /\ shows w env pay v /\ envelope_ok env /\
      is_tombstone env = false /\ kv_get (db s) (string_key key) = Some (reg_bytes (env, pay)) /\ hlc env <= hlc_word s
  end.
Proof.
  intros [R S U]. unfold read_lww, mbind, M_bind, get_raw, reads. cbn [rust_bind fst snd].
  destruct (kv_get (db s) (string_key key)) as [b|] eqn:G; [|by exists None, s].
  destruct S as (env & pay & -> & O & [Hp Hw] & T & S). cbn [option_bind].
  rewrite (Envelope_decode_encode_with env pay O : Envelope_decode (reg_bytes (env, pay)) = _).
  unfold now_ms. cbn [rust_bind fst snd]. fold (tick s). unfold visible. destruct st as [[v ttl]|].
  - destruct S as (Tt & Et & X & Sh). rewrite Tt, (in_time_env wall env ttl) by done. rewrite (proj2 (Z.leb_gt (hlc env) 0)) by lia.
    exists (Some (env, pay)), (tick s). split; [done|]. split; [done|]. exists v, ttl. by rewrite <- G.
  - rewrite S. by exists None, (tick s).
Qed.

Lemma check_string_eq s : untyped (db s) -> check_type wall key 115 s = Ret (Some 0, tick s).
Proof.
  intros [Uh Ul]. unfold check_type, mbind, M_bind, now_ms. cbn [rust_bind fst snd]. fold (tick s).
  change ((115 =? 115) || (115 =? 108)) with true. cbv beta iota. rewrite get_head_eq. cbn [rust_bind fst snd].
  change (db (tick s)) with (db s). rewrite Uh. change (115 =? 115) with true. cbv beta iota.
  unfold record_live, mbind, M_bind, get_raw, reads. cbn [rust_bind fst snd mret M_ret]. change (db (tick s)) with (db s).
  specialize (Ul (wall (ticks s))). unfold mbind in Ul. by rewrite Ul.
Qed.

Lemma value_i64 c n : value c = Some n -> i64 n /\ raw_value c = n.
Proof. unfold value, i64. destruct (_ && _) eqn:E; [|done]. intros [= <-]. apply andb_true_iff in E as [?%Z.leb_le ?%Z.ltb_lt]. lia. Qed.

Lemma materialize_shows w env pay v : shows w env pay v -> materialize_string (rtype env) pay = Some v.
Proof.
  intros [[T ->]|(T & c & n & F & -> & V & ->)]; unfold materialize_string; rewrite T; [done|].
  rewrite bool_decide_true by done. rewrite counter_decode_encode by apply F. cbn [mbind option_bind]. by rewrite V.
Qed.

Lemma on_string_eq n w st s f : str_inv n w st s -> exists s1,
  on_string wall key f s = f (fst <$> st) s1 /\ str_inv n w st s1.
Proof.
  intros I. destruct (read_lww_eq n w st s I) as (r & s1 & E & Q & Hr). pose proof (inv_quiet _ _ _ _ _ Q I) as I1.
  unfold on_string, read_string, mbind, M_bind. rewrite E. cbn [rust_bind fst snd]. destruct r as [[env pay]|].
  - destruct Hr as (v & ttl & -> & _ & Sh & _). exists s1. by rewrite (materialize_shows w env pay v).
  - subst st. rewrite (check_string_eq s1) by apply I1. exists (tick s1). split; [done|]. by eapply inv_quiet; [|exact I1].
Qed.

Lemma current_ttl_eq n w st s : str_inv n w st s -> exists s1, current_ttl_deadline wall key s = Ret (deadline st, s1) /\ str_inv n w st s1.
Proof.
  intros I. destruct (read_lww_eq n w st s I) as (r & s1 & E & Q & Hr). exists s1.
  unfold current_ttl_deadline, mbind, M_bind. rewrite E. cbn [rust_bind fst snd]. split; [|by eapply inv_quiet].
  destruct r as [[env pay]|]; [|by subst st]. destruct Hr as (v & ttl & -> & <- & _). done.
Qed.

Lemma untyped_frame d d' : Store.frame (string_key key) d d' -> untyped d -> untyped d'.
Proof.
  intros F [Uh Ul]. split.
  - intros n. rewrite (head_of_frame d) by apply F, not_eq_sym, string_head_ne. apply Uh.
  - intros now. rewrite F by apply not_eq_sym, string_list_ne. apply Ul.
Qed.

Lemma write_string_eq n w st s v ttl : str_inv (S n) w st s -> in_time wall ttl -> exists s',
  write_string node_id wall key v ttl s = Ret (tt, s') /\ str_inv n w (Some (v, ttl)) s'.
Proof.
  intros [R S U] T. destruct (new_string_eq node_id wall walls n s v ttl R (proj1 T)) as (h & s1 & E & L & Ew & Uh & Ed & _ & R1).
  unfold write_string, mbind, M_bind. rewrite E. cbn [rust_bind fst snd]. unfold put_raw, writes.
  eexists. split; [reflexivity|]. split; cbn [db hlc_word].
  - destruct R1 as (? & ? & ?). done.
  - rewrite kv_put_get_eq. exists (string_rec node_id h ttl v).1, v. split; [done|].
    split; [by apply string_rec_ok, T|]. split; [destruct R as (? & _); cbn [string_rec fst hlc]; lia|].
    split; [by left|]. split; [done|]. split; [done|]. split; [done|]. by left.
  - eapply untyped_frame; [apply kv_put_frame|]. by rewrite Ed.
Qed.

(** ** Operations *)

Definition sop_ok (o : sop) : Prop :=
  match o with
  | SSet _ _ _ ttl _ => in_time wall ttl
  | SGetEx (Some d) => in_time wall d
  | SIncrBy delta => i64 delta
  | SSetRange offset patch => 0 <= offset /\ offset + Z.of_nat (length patch) < 2 ^ 63
  | _ => True
  end.

Definition implements (o : sop) : Prop := sop_ok o -> forall n w st s,
  str_inv (S n) (weight o + w) st s -> 0 <= w -> weight o + w < 2 ^ 64 ->
  exists s', run_sop key node_id wall o s = Ret ((sspec o st).1, s') /\ str_inv n w (sspec o st).2 s'.

Lemma deadline_in_time n w st s : str_inv n w st s -> in_time wall (deadline st).
Proof.
  intros [_ S _]. destruct st as [[v ttl]|]; [|apply no_deadline]. unfold stored_as in S. destruct (kv_get _ _); [|done].
  destruct S as (env & pay & _ & _ & _ & _ & _ & _ & X & _). exact X.
Qed.

(** Open a handler that reads the string first. *)
Ltac reads_string I s1 I1 :=
  match type of I with str_inv ?n ?w ?st ?s =>
    match goal with |- context [on_string _ _ ?f s] =>
      let E := fresh "E" in destruct (on_string_eq n w st s f I) as (s1 & E & I1); rewrite E; clear E end
  end.
Ltac no_change I1 := eexists; split; [reflexivity|]; eapply str_inv_weaken; [..|exact I1]; lia.

Lemma get_implements : implements SGet.
Proof. intros _ n w st s I W0 W1. cbn [run_sop]. unfold get. reads_string I s1 I1. cbn [weight] in *. no_change I1. Qed.
Lemma strlen_implements : implements SStrlen.
Proof. intros _ n w st s I W0 W1. cbn [run_sop]. unfold strlen. reads_string I s1 I1. cbn [weight] in *. no_change I1. Qed.
Lemma getrange_implements start stop : implements (SGetRange start stop).
Proof.
  intros _ n w st s I W0 W1. cbn [run_sop]. unfold getrange. reads_string I s1 I1. cbn [weight] in *.
  destruct st as [[v ttl]|]; cbn [fmap option_fmap option_map fst].
  - rewrite range_of_string_ref. no_change I1.
  - eexists. split; [|eapply str_inv_weaken; [..|exact I1]; lia]. unfold sspec, text, range_ref. cbn [fst fmap option_fmap option_map default].
    by rewrite drop_nil, take_nil.
Qed.
Lemma getset_implements v : implements (SGetSet v).
Proof.
  intros _ n w st s I W0 W1. cbn [run_sop]. unfold getset. reads_string I s1 I1. cbn [weight] in *.
  destruct (write_string_eq n w st s1 v 0 I1 (no_deadline wall)) as (s2 & E & I2). unfold mbind, M_bind. rewrite E.
  cbn [rust_bind fst snd]. by exists s2.
Qed.
Lemma getex_implements d : implements (SGetEx d).
Proof.
  intros Ok n w st s I W0 W1. cbn [run_sop]. unfold getex. reads_string I s1 I1. cbn [weight] in *.
  destruct st as [[v ttl]|]; cbn [fmap option_fmap option_map fst]; [|no_change I1]. unfold mbind, M_bind. destruct d as [d|].
  - destruct (write_string_eq n w _ s1 v d I1 Ok) as (s2 & E & I2). rewrite E. cbn [rust_bind fst snd]. by exists s2.
  - cbn [rust_bind fst snd mret M_ret]. no_change I1.
Qed.
Lemma append_implements v : implements (SAppend v).
Proof.
  intros _ n w st s I W0 W1. cbn [run_sop]. unfold append. reads_string I s1 I1. cbn [weight] in *.
  destruct (current_ttl_eq _ _ _ _ I1) as (s2 & E2 & I2). unfold mbind, M_bind. rewrite E2. cbn [rust_bind fst snd].
  destruct (write_string_eq n w st s2 (text st ++ v) (deadline st) I2 (deadline_in_time _ _ _ _ I2)) as (s3 & E3 & I3).
  change (default [] (fst <$> st)) with (text st). rewrite E3. cbn [rust_bind fst snd]. by exists s3.
Qed.
Lemma setrange_implements offset patch : implements (SSetRange offset patch).
Proof.
  intros [O0 O1] n w st s I W0 W1. cbn [run_sop]. unfold setrange. reads_string I s1 I1. cbn [weight sspec] in *.
  change (default [] (fst <$> st)) with (text st). case_bool_decide; [no_change I1|].
  rewrite patch_at_overwritten by done. unfold mbind, M_bind, lift. cbn [rust_bind fst snd].
  destruct (current_ttl_eq _ _ _ _ I1) as (s2 & E2 & I2). rewrite E2. cbn [rust_bind fst snd].
  destruct (write_string_eq n w st s2 (overwritten (Z.to_nat offset) patch (text st)) (deadline st) I2 (deadline_in_time _ _ _ _ I2)) as (s3 & E3 & I3).
  rewrite E3. cbn [rust_bind fst snd]. by exists s3.
Qed.

Lemma set_implements nx xx keepttl ttl v : implements (SSet nx xx keepttl ttl v).
Proof.
  intros Ok n w st s I W0 W1. cbn [run_sop weight] in *. unfold set. cbn [sf_get sf_nx sf_xx sf_keepttl sf_ttl].
  unfold mbind at 1, M_bind at 1. cbn [rust_bind fst snd mret M_ret]. rewrite orb_false_r.
  assert (X : exists r s1, (if nx || xx || keepttl then read_lww wall (string_key key) 0 else mret None) s = Ret (r, s1) /\
    str_inv (S n) w st s1 /\ (nx || xx || keepttl = true -> bool_decide (is_Some r) = bool_decide (is_Some st) /\
      match r with Some (env, _) => ttl_deadline_ms env | None => 0 end = deadline st)).
  { destruct (nx || xx || keepttl); [|by exists None, s]. destruct (read_lww_eq _ _ _ _ I) as (r & s1 & E & Q & Hr).
    exists r, s1. split; [done|]. split; [by eapply inv_quiet|]. intros _. destruct r as [[env pay]|]; [|by subst st].
    destruct Hr as (x & t & -> & <- & _). done. }
  destruct X as (r & s1 & E & I1 & Hr). unfold mbind at 1, M_bind at 1. rewrite E. cbn [rust_bind fst snd]. cbn [sspec].
  assert (C : (nx || xx || keepttl) && (nx && bool_decide (is_Some r) || xx && negb (bool_decide (is_Some r))) =
              nx && bool_decide (is_Some st) || xx && bool_decide (st = None)).
  { assert (Ns : bool_decide (st = None) = negb (bool_decide (is_Some st))) by (by destruct st).
    rewrite Ns. destruct nx, xx, keepttl; cbn [orb andb] in *; try (destruct (Hr eq_refl) as [-> _]); done. }
  rewrite C. clear C. destruct (nx && bool_decide (is_Some st) || _); [no_change I1|].
  assert (D : in_time wall (if keepttl then deadline st else ttl) /\
    (if keepttl then match r with Some (env, _) => ttl_deadline_ms env | None => 0 end else ttl) = if keepttl then deadline st else ttl).
  { destruct keepttl; [|done]. split; [by eapply deadline_in_time|]. apply Hr. by rewrite orb_true_r. }
  destruct D as [D1 D2]. cbn [default from_option id]. rewrite D2.
  destruct (write_string_eq n w st s1 v _ I1 D1) as (s2 & E2 & I2). unfold mbind, M_bind. rewrite E2.
  cbn [rust_bind fst snd]. by exists s2.
Qed.
Lemma setnx_implements v : implements (SSetNx v).
Proof.
  intros _ n w st s I W0 W1. cbn [run_sop weight] in *. unfold setnx, mbind, M_bind. rewrite (check_string_eq s) by apply I.
  cbn [rust_bind fst snd]. assert (I0 : str_inv (S n) w st (tick s)) by (by eapply inv_quiet; [|exact I]).
  destruct (read_lww_eq _ _ _ _ I0) as (r & s1 & E & Q & Hr). pose proof (inv_quiet _ _ _ _ _ Q I0) as I1. rewrite E.
  cbn [rust_bind fst snd]. destruct r as [[env pay]|].
  - destruct Hr as (x & t & -> & _). no_change I1.
  - subst st. destruct (write_string_eq n w None s1 v 0 I1 (no_deadline wall)) as (s2 & E2 & I2). rewrite E2.
    cbn [rust_bind fst snd]. by exists s2.
Qed.

Lemma parse_string_key : parse (string_key key) = Ret (Some (mkParsedKey (pid_of key) (tag_u8 TString) key [])).
Proof. by apply parse_simple. Qed.

(** Delivering a record that wins the merge. *)
Lemma deliver_string s r : (forall b, kv_get (db s) (string_key key) = Some b -> merged_bytes b (reg_bytes r) = Ret (reg_bytes r)) ->
  exists b d', write_merged (string_key key) (reg_bytes r) s = Ret (b, with_db s d') /\
    kv_get d' (string_key key) = Some (reg_bytes r) /\ Store.frame (string_key key) (db s) d'.
Proof.
  intros Wn. eapply write_merged_plain; [apply parse_string_key|done|].
  destruct (kv_get (db s) (string_key key)) as [b|] eqn:G; [|done]. cbn [deliver_with].
  rewrite (merged_at_plain _ _ _ _ parse_string_key) by done. by apply Wn.
Qed.

Lemma getdel_implements : implements SGetDel.
Proof.
  intros _ n w st s I W0 W1. cbn [run_sop]. unfold getdel. reads_string I s1 I1. cbn [weight] in *.
  destruct st as [[v ttl]|]; cbn [fmap option_fmap option_map fst]; [|no_change I1].
  destruct I1 as [R S U]. destruct (hlc_now_eq wall walls s1 n R) as (h & s2 & Eh & L & Uh & Ew & Ed & _ & R2).
  unfold new_tombstone, mbind, M_bind. rewrite Eh. cbn [rust_bind fst snd mret M_ret].
  assert (Ot : envelope_ok (string_tomb node_id h).1) by (apply reg_env_ok; [done|by vm_compute|done|by vm_compute]).
  destruct (deliver_string s2 (string_tomb node_id h)) as (b & d' & E & G & F).
  { intros b Gb. rewrite Ed in Gb. rewrite Gb in S. destruct S as (env & pay & -> & O & [_ Hw] & T & _).
    apply merged_newer; try done; [by left| |cbn [fst string_tomb Envelope_tombstone hlc]; lia].
    intros (_ & ? & _). done. }
  unfold reg_bytes at 1 in E. cbn [fst snd string_tomb] in E. rewrite E. cbn [rust_bind fst snd].
  exists (with_db s2 d'). split; [done|]. destruct R as (R0 & _). split; cbn [with_db db hlc_word sspec snd].
  - destruct R2 as (? & ? & ?). done.
  - unfold stored_as. rewrite G. exists (string_tomb node_id h).1, []. split; [done|]. split; [done|].
    cbn [fst string_tomb Envelope_tombstone hlc]. split; [lia|]. split; [by left|done].
  - eapply untyped_frame; [exact F|]. by rewrite Ed.
Qed.

Lemma parse_trimmed_i64 v m : parse_trimmed v = Some m -> i64 m.
Proof.
  unfold parse_trimmed. destruct (utf8_ok v); [|done]. unfold parse_i64, i64. destruct (match trim v with 45 :: _ => _ | _ => _ end) as [neg ds].
  case_bool_decide; [done|]. destruct (forallb _ _); [|done]. destruct (_ && _) eqn:E; [|done].
  intros [= <-]. apply andb_true_iff in E as [?%Z.leb_le ?%Z.ltb_lt]. lia.
Qed.

(** The integer of a state, and the counter an increment starts from. *)
Definition int_of (st : sval) : option Z := match st with None => Some 0 | Some (v, _) => parse_trimmed v end.

Lemma counter_of_eq W st r : 0 <= W < 2 ^ 64 ->
  match r with
  | None => st = None
  | Some (env, pay) => exists v ttl, st = Some (v, ttl) /\ shows W env pay v /\ envelope_ok env
  end ->
  match int_of st with
  | None => counter_of r = None
  | Some m => exists c, counter_of r = Some c /\ counter_fit node_id W c /\ raw_value c = m /\
      forall env pay, r = Some (env, pay) -> rtype env = Counter -> pay = CounterState_encode c
  end.
Proof.
  intros HW Hr. destruct r as [[env pay]|].
  - destruct Hr as (v & ttl & -> & Sh & O). cbn [int_of counter_of]. destruct Sh as [[T ->]|(T & c & m & F & -> & V & ->)].
    + rewrite (bool_decide_false (rtype env = Counter)) by congruence. destruct (parse_trimmed v) as [m|] eqn:Ep; [|done].
      exists (on_base (hlc env) (origin env) m). split; [done|]. split; [|split; [unfold raw_value; simpl; lia|intros ? ? [= <- <-]; congruence]].
      apply on_base_fit; [apply O|apply O|by eapply parse_trimmed_i64|done].
    + rewrite bool_decide_true by done. destruct (value_i64 c m V) as [Im Er]. rewrite parse_trimmed_text by done.
      exists c. split; [by apply counter_decode_encode; apply F|]. split; [done|]. split; [done|]. by intros ? ? [= <- <-].
  - subst st. exists (on_base 0 0 0). split; [done|]. split; [apply on_base_fit; [by vm_compute|by vm_compute|unfold i64; lia|done]|]. split; [done|]. done.
Qed.

Lemma write_counter_eq n w st s c delta new : str_inv (S n) (Z.abs delta + w) st s -> 0 <= w ->
  counter_fit node_id (Z.abs delta + w) c -> value (bump c node_id delta) = Some new ->
  (forall env pay, kv_get (db s) (string_key key) = Some (reg_bytes (env, pay)) -> envelope_ok env -> is_tombstone env = false ->
     rtype env = Counter -> pay = CounterState_encode c) ->
  exists s', (h ← hlc_now wall;
     _ ← write_merged (string_key key) (encode_with (with_ttl (Envelope_new Counter h node_id) (deadline st)) (CounterState_encode (bump c node_id delta)));
     mret (RInt new)) s = Ret (RInt new, s') /\ str_inv n w (Some (Z_to_string new, deadline st)) s'.
Proof.
  intros I W0 Fc V Hc. pose proof (deadline_in_time _ _ _ _ I) as Dt. destruct I as [R S U].
  destruct (hlc_now_eq wall walls s n R) as (h & s2 & Eh & L & Uh & Ew & Ed & _ & R2).
  pose proof (counter_rec_ok node_id h (deadline st) (bump c node_id delta) node_range Uh (proj1 Dt)) as Oc.
  unfold mbind, M_bind. rewrite Eh. cbn [rust_bind fst snd].
  destruct (deliver_string s2 (counter_rec node_id h (deadline st) (bump c node_id delta))) as (b & d' & E & G & F).
  { intros b Gb. rewrite Ed in Gb. pose proof Gb as Gb'. rewrite Gb in S. destruct S as (env & pay & -> & O & [_ Hw] & T & S).
    destruct (is_tombstone env) eqn:Tt; [apply merged_newer; try done; [by right|cbn [fst]; rewrite Tt; by intros (_ & _ & ? & _)|simpl; lia]|].
    destruct T as [T|T]; [apply merged_newer; try done; [by left|by right|cbn [fst]; rewrite T; by intros (? & _)|simpl; lia]|].
    rewrite (Hc env pay Gb' O Tt T). destruct st as [[v ttl]|]; [|congruence]. destruct S as (_ & Et & _).
    apply (merged_bump node_id (Z.abs delta + w)); try done; [apply Dt|lia..]. }
  unfold reg_bytes at 1 in E. cbn [fst snd counter_rec] in E. rewrite E. cbn [rust_bind fst snd mret M_ret].
  exists (with_db s2 d'). split; [done|]. destruct R as (R0 & _). split; cbn [with_db db hlc_word].
  - destruct R2 as (? & ? & ?). done.
  - unfold stored_as. rewrite G. exists (counter_rec node_id h (deadline st) (bump c node_id delta)).1, (CounterState_encode (bump c node_id delta)).
    split; [done|]. split; [done|]. cbn [fst counter_rec with_ttl Envelope_new hlc ttl_deadline_ms]. split; [lia|]. split; [by right|].
    split; [done|]. split; [done|]. split; [done|]. right. split; [done|]. exists (bump c node_id delta), new.
    split; [|done]. replace w with (Z.abs delta + w - Z.abs delta) by lia. apply bump_fit; [done|lia|done].
  - eapply untyped_frame; [exact F|]. by rewrite Ed.
Qed.

Lemma incrby_implements delta : implements (SIncrBy delta).
Proof.
  intros Ok n w st s I W0 W1. cbn [run_sop weight] in *. unfold incrby.
  destruct (read_lww_eq _ _ _ _ I) as (r & s1 & E & Q & Hr). pose proof (inv_quiet _ _ _ _ _ Q I) as I1.
  unfold mbind at 1, M_bind at 1. rewrite E. cbn [rust_bind fst snd].
  assert (X : exists s2, (match r with None => t ← check_type wall key 115; mret (bool_decide (t = None)) | Some _ => mret false end) s1
     = Ret (false, s2) /\ quiet s1 s2).
  { destruct r as [[env pay]|]; [by exists s1|]. unfold mbind, M_bind. rewrite (check_string_eq s1) by apply I1. by exists (tick s1). }
  destruct X as (s2 & E2 & Q2). pose proof (inv_quiet _ _ _ _ _ Q2 I1) as I2. unfold mbind at 1, M_bind at 1. rewrite E2.
  cbn [rust_bind fst snd]. pose proof (counter_of_eq (Z.abs delta + w) st r) as C. cbn [sspec].
  change (match st with None => Some 0 | Some (v, _) => parse_trimmed v end) with (int_of st).
  destruct (int_of st) as [m|] eqn:Ei.
  2: { rewrite C; [no_change I2|lia|]. destruct r as [[env pay]|]; [|done]. destruct Hr as (v & ttl & -> & _ & Sh & O & _). eauto. }
  destruct C as (c & Ec & Fc & Rc & Hc); [lia|destruct r as [[env pay]|]; [|done]; destruct Hr as (v & ttl & -> & _ & Sh & O & _); eauto|].
  rewrite Ec. assert (V : value (bump c node_id delta) = if (- 2 ^ 63 <=? m + delta) && (m + delta <? 2 ^ 63) then Some (m + delta) else None).
  { unfold value. rewrite bump_raw_value, Rc; [done|apply Fc|]. apply bump_fits_abs. eapply bump_fits_le; [|apply Fc]. lia. }
  rewrite V. destruct ((- 2 ^ 63 <=? m + delta) && _) eqn:Er; [|no_change I2].
  assert (Et : match r with Some (env, _) => ttl_deadline_ms env | None => 0 end = deadline st).
  { destruct r as [[env pay]|]; [|by subst st]. destruct Hr as (v & ttl & -> & <- & _). done. }
  rewrite Et. apply (write_counter_eq n w st s2 c delta); try done.
  intros env pay G O Tt T. rewrite (proj1 Q2), (proj1 Q) in G. destruct r as [[env0 pay0]|].
  - destruct Hr as (v & ttl & _ & _ & _ & O0 & _ & G0 & _). rewrite G in G0.
    assert (E0 : (env, pay) = (env0, pay0)) by (apply reg_bytes_inj; [done..|congruence]). injection E0 as -> ->. by apply (Hc env0 pay0).
  - subst st. destruct I as [_ S _]. rewrite G in S. destruct S as (env1 & pay1 & E1 & O1 & _ & _ & Tt1).
    assert (E0 : (env, pay) = (env1, pay1)) by (by apply reg_bytes_inj). injection E0 as -> ->. congruence.
Qed.

Lemma string_op_implements o : implements o.
Proof.
  destruct o; auto using get_implements, set_implements, setnx_implements, getset_implements, getdel_implements, getex_implements,
    append_implements, strlen_implements, incrby_implements, setrange_implements, getrange_implements.
Qed.

Lemma total_weight_nonneg os : 0 <= total_weight os.
Proof. induction os as [|o os IH]; simpl; [lia|]. destruct o; simpl; lia. Qed.

Lemma run_sops_eq os : forall n w st s, Forall sop_ok os -> str_inv (length os + n) (total_weight os + w) st s -> 0 <= w ->
  total_weight os + w < 2 ^ 64 -> exists s', run_sops key node_id wall os s = Ret ((sspecs os st).1, s') /\ str_inv n w (sspecs os st).2 s'.
Proof.
  induction os as [|o os IH]; intros n w st s F I W0 W1; cbn [run_sops sspecs].
  - exists s. cbn [total_weight fold_right length] in *. split; [done|]. by rewrite !Z.add_0_l in I.
  - apply Forall_cons in F as [Fo F]. change (total_weight (o :: os)) with (weight o + total_weight os) in *. cbn [length] in I.
    pose proof (total_weight_nonneg os). rewrite <- Z.add_assoc in I.
    destruct (string_op_implements o Fo (length os + n)%nat (total_weight os + w) st s I) as (s1 & E1 & I1); [lia..|].
    destruct (sspec o st) as [r st1]. cbn [fst snd] in *. unfold mbind, M_bind. rewrite E1. cbn [rust_bind fst snd].
    assert (0 <= weight o) by (destruct o; simpl; lia).
    destruct (IH n w st1 s1) as (s2 & E2 & I2); [done|done|lia|lia|]. rewrite E2. cbn [rust_bind fst snd].
    destruct (sspecs os st1) as [rs st2]. cbn [fst snd] in *. by exists s2.
Qed.
End refine.


Lemma empty_string key node_id wall n w : (n < 1000)%nat -> str_inv key node_id wall n w None (ex_shard ∅ : Shard (gmap bytes bytes)).
Proof.
  intros Ln. assert (E : forall k, kv_get (∅ : gmap bytes bytes) k = None) by (intros k; apply lookup_empty). split.
  - unfold room. cbn [hlc_word ex_shard]. lia.
  - cbn [db ex_shard]. by rewrite E.
  - split; [intros m; unfold head_of; cbn [db ex_shard]; by rewrite E|]. intros now. cbn [db ex_shard]. by rewrite E.
Qed.

Definition ex_sops : list sop :=
  [SSet true false false 0 (str "41"); SIncrBy 1; SGet; SAppend (str "0"); SIncrBy (-20); SIncrBy (2 ^ 63 - 1); SGetSet (str "hello");
   SSetRange 7 (str "you"); SGetRange (-3) (-1); SIncrBy 1; SSet false true true 0 (str " 7 "); SIncrBy 2; SGetDel; SSetNx (str "x"); SStrlen].


(** ** Where the commands depart from a register *)

(** SET with GET answers with the stored bytes, which for a counter are its
    record and not its value: after INCR, [SET key v GET] replies the binary
    counter state where GET replies the decimal number. *)
Theorem set_get_exposes_counter {DB} `{KVLaws DB} key node_id wall n w v ttl new env pay (s : Shard DB) :
  u16 node_id -> (forall n, 0 <= wall n < 2 ^ 47) -> str_inv key node_id wall (S n) w (Some (v, ttl)) s ->
  kv_get (db s) (string_key key) = Some (reg_bytes (env, pay)) -> envelope_ok env -> rtype env = Counter ->
  exists s' s'', get wall key s = Ret (RBulk v, s') /\
    set node_id wall (mkSetFlags false false false true None) key new s = Ret (RBulk pay, s'') /\
    str_inv key node_id wall n w (Some (new, 0)) s''.
Proof.
  intros Un Wa I G O T. destruct (on_string_eq key node_id wall _ _ _ s (fun v => mret (bulk_or_null v)) I) as (s1 & E1 & _).
  exists s1. unfold get. rewrite E1. unfold set. cbn [sf_get sf_nx sf_xx sf_keepttl sf_ttl orb andb].
  unfold mbind at 1, M_bind at 1, mbind at 1, M_bind at 1. rewrite (check_string_eq key wall s) by apply I. cbn [rust_bind fst snd mret M_ret].
  rewrite bool_decide_false by done. assert (I0 : str_inv key node_id wall (S n) w (Some (v, ttl)) (tick s)) by (by eapply inv_quiet; [|exact I]).
  destruct (read_lww_eq key node_id wall _ _ _ _ I0) as (r & s2 & E2 & Q & Hr). unfold mbind at 1, M_bind at 1. rewrite E2. cbn [rust_bind fst snd].
  destruct r as [[env1 pay1]|]; [|done]. destruct Hr as (_ & _ & _ & _ & _ & O1 & _ & G1 & _). cbn [db tick] in G1.
  assert (E0 : (env, pay) = (env1, pay1)) by (apply reg_bytes_inj; [done..|congruence]). injection E0 as -> ->. cbn [andb orb default from_option].
  destruct (write_string_eq key node_id wall Un Wa n w (Some (v, ttl)) s2 new 0) as (s3 & E3 & I3);
    [by eapply inv_quiet|by apply no_deadline|]. unfold mbind, M_bind. rewrite E3. by exists s3.
Qed.

Definition after_sops (os : list sop) : Shard (gmap bytes bytes) :=
  match run_sops [107] 3 (fun n => Z.of_nat n mod 1000) os (ex_shard ∅) with Ret (_, s) => s | _ => ex_shard ∅ end.

Lemma set_get_exposes_counter_witness : exists s' s'',
  get (fun n => Z.of_nat n mod 1000) [107] (after_sops [SIncrBy 5]) = Ret (RBulk (str "5"), s') /\
  set 3 (fun n => Z.of_nat n mod 1000) (mkSetFlags false false false true None) [107] (str "x") (after_sops [SIncrBy 5]) =
    Ret (RBulk (CounterState_encode (bump (on_base 0 0 0) 3 5)), s'').
Proof.
  destruct (run_sops_eq (DB := gmap bytes bytes) [107] 3 (fun n => Z.of_nat n mod 1000)) with (os := [SIncrBy 5]) (n := 1%nat) (w := 0)
    (st := @None (bytes * Z)) (s := ex_shard (∅ : gmap bytes bytes)) as (s' & E & I).
  - by vm_compute.
  - intros n. pose proof (Z.mod_pos_bound (Z.of_nat n) 1000). lia.
  - repeat constructor; cbn [sop_ok]; unfold i64; lia.
  - apply empty_string. simpl. lia.
  - lia.
  - vm_compute. reflexivity.
  - assert (Es : after_sops [SIncrBy 5] = s') by (unfold after_sops; by rewrite E). rewrite Es.
    assert (G : exists h, 0 <= h < 2 ^ 40 /\ kv_get (db s') (string_key [107]) = Some (reg_bytes (counter_rec 3 h 0 (bump (on_base 0 0 0) 3 5)))).
    { exists (hlc_word s'). rewrite <- Es. vm_compute. split; [split; [discriminate|reflexivity]|reflexivity]. }
    destruct G as (h & Hh & G).
    destruct (set_get_exposes_counter [107] 3 (fun n => Z.of_nat n mod 1000) 0 0 (str "5") 0 (str "x")
      (counter_rec 3 h 0 (bump (on_base 0 0 0) 3 5)).1 (CounterState_encode (bump (on_base 0 0 0) 3 5)) s') as (s1 & s2 & E1 & E2 & _).
    + by vm_compute.
    + intros n. pose proof (Z.mod_pos_bound (Z.of_nat n) 1000). lia.
    + exact I.
    + exact G.
    + apply counter_rec_ok; [by vm_compute|unfold u64, in_range; lia|by vm_compute].
    + reflexivity.
    + by exists s1, s2.
Defined.

(** A counter that only this node has incremented. *)
Lemma fresh_counter node_id x : 0 <= x < 2 ^ 63 ->
  bump (on_base 0 0 0) node_id x = mkCounter 0 0 0 [(node_id, (x, 0))] /\ value (bump (on_base 0 0 0) node_id x) = Some x.
Proof.
  intros Hx. assert (E : bump (on_base 0 0 0) node_id x = mkCounter 0 0 0 [(node_id, (x, 0))]).
  { unfold bump, on_base. cbn [cslots base_hlc base_origin cbase slot_update]. unfold bump_slot. cbn [default from_option].
    rewrite (proj2 (Z.leb_le 0 x)) by lia. unfold saturating_add. rewrite Z.min_l by lia. done. }
  split; [done|]. rewrite E. unfold value, raw_value. cbn [cbase cslots slots_sum fold_right fst snd].
  rewrite (proj2 (Z.leb_le _ _)), (proj2 (Z.ltb_lt _ _)) by lia. cbn [andb]. f_equal. lia.
Qed.

Lemma fresh_fit node_id w x : u16 node_id -> 0 <= x < 2 ^ 63 -> 0 <= w < 2 ^ 63 -> counter_fit node_id w (bump (on_base 0 0 0) node_id x).
Proof.
  intros Un Hx Hw. replace w with (x + w - Z.abs x) by lia. apply bump_fit; [done|lia|].
  apply on_base_fit; [by vm_compute|by vm_compute|unfold i64; lia|lia].
Qed.

(** Two counters of one node over no base: the larger count wins. *)
Lemma merged_fresh node_id h ttl h' v delta : u16 node_id -> u64 h -> u64 h' -> u64 ttl -> h < h' -> 0 <= delta <= v -> v < 2 ^ 63 ->
  merged_bytes (reg_bytes (counter_rec node_id h ttl (bump (on_base 0 0 0) node_id v)))
    (reg_bytes (counter_rec node_id h' 0 (bump (on_base 0 0 0) node_id delta))) =
  Ret (reg_bytes (counter_rec node_id h' 0 (bump (on_base 0 0 0) node_id v))).
Proof.
  intros Un Uh Uh' Ut Lt Hd Hv. assert (U0 : u64 0) by (by vm_compute).
  pose proof (fresh_fit node_id 0 v Un ltac:(lia) ltac:(lia)) as Fv. pose proof (fresh_fit node_id 0 delta Un ltac:(lia) ltac:(lia)) as Fd.
  unfold merged_bytes, merge_values. unfold reg_bytes at 1 2.
  rewrite !Envelope_decode_encode_with by (by apply counter_rec_ok). cbn [fst snd counter_rec].
  change (bool_decide (rtype (with_ttl (Envelope_new Counter h node_id) ttl) = Counter) &&
    bool_decide (rtype (with_ttl (Envelope_new Counter h' node_id) 0) = Counter) &&
    negb (is_tombstone (with_ttl (Envelope_new Counter h node_id) ttl)) && negb (is_tombstone (with_ttl (Envelope_new Counter h' node_id) 0))) with true.
  cbv iota. unfold merge_counters. rewrite (counter_decode_encode (bump _ _ v)) by apply Fv.
  rewrite (counter_decode_encode (bump _ _ delta)) by apply Fd. cbn [rust_bind]. rewrite resolve_outcome_of. unfold reg_bytes, counter_rec. cbn [fst snd].
  do 2 f_equal.
  - unfold winner_ttl, ver_max, ver_ltb, ver_cmp, env_version. cbn [fst snd with_ttl Envelope_new hlc origin ttl_deadline_ms].
    rewrite (proj2 (Z.compare_lt_iff h h')) by lia. done.
  - rewrite (proj1 (fresh_counter node_id v ltac:(lia))), (proj1 (fresh_counter node_id delta ltac:(lia))).
    unfold CounterState_merge. rewrite (proj2 (ver_cmp_eq _ _)) by reflexivity. cbn [cslots base_hlc base_origin cbase]. do 2 f_equal.
    unfold join_slots. cbn [fold_left slot_update fst snd]. rewrite Z.ltb_irrefl, Z.eqb_refl. cbn [take MAX_SLOTS join_slot].
    unfold slot_max. cbn [fst snd]. rewrite Z.max_l, Z.max_l by lia. done.
Qed.

(** An expired string reads as none. *)
Lemma read_expired {DB} `{KVLaws DB} key wall (s : Shard DB) r : kv_get (db s) (string_key key) = Some (reg_bytes r) -> envelope_ok r.1 ->
  (forall n, is_expired r.1 (wall n) = true) -> read_lww wall (string_key key) 0 s = Ret (None, tick s).
Proof.
  intros G O X. unfold read_lww, mbind, M_bind, get_raw, reads. cbn [rust_bind fst snd]. rewrite G. cbn [option_bind].
  unfold reg_bytes. rewrite Envelope_decode_encode_with by done. unfold now_ms. cbn [rust_bind fst snd]. unfold visible.
  by rewrite X, orb_true_r.
Qed.

(** An increment of an expired counter brings the old value back: INCRBY
    finds no value and starts from nothing, replying the increment alone, but
    its record merges with the expired one, which is still stored, and the
    larger of the two slot counts wins - the next GET shows the count from
    before the deadline. *)
Theorem incr_revives_expired_counter {DB} `{KVLaws DB} key node_id wall h ttl v delta n (s : Shard DB) :
  u16 node_id -> (forall n, 0 <= wall n < 2 ^ 47) -> room (S n) s -> untyped key wall (db s) ->
  kv_get (db s) (string_key key) = Some (reg_bytes (counter_rec node_id h ttl (bump (on_base 0 0 0) node_id v))) ->
  0 < h <= hlc_word s -> u64 h -> u64 ttl -> 0 < ttl -> (forall n, ttl <= wall n) -> 0 <= delta <= v -> v < 2 ^ 63 ->
  exists s' s'', incrby node_id wall key delta s = Ret (RInt delta, s') /\ get wall key s' = Ret (RBulk (Z_to_string v), s'').
Proof.
  intros Un Wa R U G Hh Uh Ut Pt X Hd Hv. assert (U0 : u64 0) by (by vm_compute).
  assert (Hx : forall n, is_expired (counter_rec node_id h ttl (bump (on_base 0 0 0) node_id v)).1 (wall n) = true).
  { intros m. unfold is_expired. cbn [counter_rec fst with_ttl Envelope_new ttl_deadline_ms]. specialize (X m).
    rewrite (proj2 (Z.eqb_neq ttl 0)), (proj2 (Z.leb_le ttl (wall m))) by lia. done. }
  unfold incrby, mbind at 1, M_bind at 1. rewrite (read_expired key wall s _ G) by (done || by apply counter_rec_ok). cbn [rust_bind fst snd].
  unfold mbind at 1, M_bind at 1, mbind at 1, M_bind at 1. rewrite (check_string_eq key wall (tick s)) by exact U.
  cbn [rust_bind fst snd mret M_ret]. rewrite bool_decide_false by done. cbn [counter_of].
  rewrite (proj2 (fresh_counter node_id delta ltac:(lia))).
  destruct (hlc_now_eq wall Wa (tick (tick s)) n R) as (h' & s2 & Eh & L & Uh' & Ew & Ed & _ & R2). cbn [hlc_word tick db] in L, Ed.
  unfold mbind, M_bind. rewrite Eh. cbn [rust_bind fst snd].
  destruct (write_merged_plain s2 (string_key key) (mkParsedKey (pid_of key) (tag_u8 TString) key [])
    (reg_bytes (counter_rec node_id h' 0 (bump (on_base 0 0 0) node_id delta)))
    (reg_bytes (counter_rec node_id h' 0 (bump (on_base 0 0 0) node_id v)))) as (b & d' & E & G' & F); [by apply parse_simple|done| |].
  { rewrite Ed, G. cbn [deliver_with]. rewrite (merged_at_plain _ _ _ _ (parse_string_key key)) by done. apply merged_fresh; try done. lia. }
  unfold reg_bytes at 1 in E. cbn [fst snd counter_rec] in E. rewrite E. cbn [rust_bind fst snd mret M_ret].
  assert (I' : str_inv key node_id wall n 0 (Some (Z_to_string v, 0)) (with_db s2 d')).
  { split; cbn [with_db db hlc_word]; [destruct R2 as (? & ? & ?); done| |eapply untyped_frame; [exact F|]; by rewrite Ed].
    unfold stored_as. rewrite G'. eexists _, _. split; [reflexivity|]. split; [by apply (counter_rec_ok node_id h' 0 (on_base 0 0 0))|]. destruct R as (R0 & _).
    cbn [fst counter_rec with_ttl Envelope_new hlc ttl_deadline_ms]. split; [lia|]. split; [by right|]. split; [done|].
    split; [done|]. split; [by apply no_deadline|]. right. split; [done|]. exists (bump (on_base 0 0 0) node_id v), v.
    split; [apply fresh_fit; [done|lia|lia]|]. split; [done|]. split; [apply (fresh_counter node_id v); lia|done]. }
  destruct (on_string_eq key node_id wall _ _ _ _ (fun v => mret (bulk_or_null v)) I') as (s1 & E1 & _).
  exists (with_db s2 d'), s1. split; [done|]. exact E1.
Qed.

Definition ex_expired : Shard (gmap bytes bytes) :=
  mkShard {[string_key [107] := reg_bytes (counter_rec 3 50 100 (bump (on_base 0 0 0) 3 5))]} 60 ∅ 0.

Lemma incr_revives_expired_counter_witness : exists s' s'',
  incrby 3 (fun n => 200 + Z.of_nat n mod 1000) [107] 1 ex_expired = Ret (RInt 1, s') /\
  get (fun n => 200 + Z.of_nat n mod 1000) [107] s' = Ret (RBulk (str "5"), s'').
Proof.
  apply (incr_revives_expired_counter [107] 3 (fun n => 200 + Z.of_nat n mod 1000) 50 100 5 1 0 ex_expired).
  - by vm_compute.
  - intros n. pose proof (Z.mod_pos_bound (Z.of_nat n) 1000). lia.
  - unfold room. cbn [hlc_word ex_expired]. lia.
  - split; intros n; vm_compute; reflexivity.
  - vm_compute. reflexivity.
  - cbn [hlc_word ex_expired]. lia.
  - by vm_compute.
  - by vm_compute.
  - lia.
  - intros n. pose proof (Z.mod_pos_bound (Z.of_nat n) 1000). lia.
  - lia.
  - lia.
Defined.

(** SETRANGE bounds the offset only from below: an offset at the end of the
    64-bit range makes the buffer larger than an allocation can be, and the
    shard thread panics - the server is built to abort on a panic. *)
Theorem setrange_far_offset_panics {DB} `{KVLaws DB} key node_id wall n w st offset patch (s : Shard DB) :
  u16 node_id -> (forall n, 0 <= wall n < 2 ^ 47) -> str_inv key node_id wall n w st s -> slice_len_ok (text st) ->
  patch <> [] -> 2 ^ 63 <= offset + Z.of_nat (length patch) -> setrange node_id wall key offset patch s = Panic.
Proof.
  intros Un Wa I L Np Big. unfold setrange.
  match goal with |- on_string _ _ ?f _ = _ => destruct (on_string_eq key node_id wall n w st s f I) as (s1 & E & _) end.
  rewrite E. cbn zeta. change (default [] (fst <$> st)) with (text st). rewrite bool_decide_false by done.
  unfold mbind, M_bind, lift, patch_at. unfold slice_len_ok in L.
  rewrite (proj2 (Z.ltb_lt _ _)), (proj2 (Z.leb_le _ _)) by lia. done.
Qed.

Lemma setrange_far_offset_panics_witness :
  setrange 3 (fun n => Z.of_nat n mod 1000) [107] 9223372036854775807 [120] (ex_shard ∅ : Shard (gmap bytes bytes)) = Panic.
Proof.
  apply (setrange_far_offset_panics [107] 3 (fun n => Z.of_nat n mod 1000) 0 0 None).
  - by vm_compute.
  - intros n. pose proof (Z.mod_pos_bound (Z.of_nat n) 1000). lia.
  - apply empty_string. lia.
  - by vm_compute.
  - discriminate.
  - simpl length. lia.
Defined.

(** Five increments whose sum is in range: the positive half of the node's
    slot saturates at 64 bits, and the last INCRBY answers 1. *)
Theorem incrby_saturates :
  match run_sops [107] 3 (fun _ => 0) [SIncrBy (2 ^ 63 - 1); SIncrBy (- (2 ^ 63 - 1)); SIncrBy (2 ^ 63 - 1); SIncrBy (- (2 ^ 63 - 1)); SIncrBy (2 ^ 63 - 1)]
          (ex_shard ∅ : Shard (gmap bytes bytes)) with
  | Ret (rs, _) => rs = [RInt (2 ^ 63 - 1); RInt 0; RInt (2 ^ 63 - 1); RInt 0; RInt 1]
  | Panic => False
  end.
Proof. vm_compute. reflexivity. Qed.

(** DECRBY by the smallest integer: the negated amount wraps to itself, and
    the counter goes down where it should go up. *)
Theorem decrby_min_goes_down :
  match incrby_cmd 3 (fun _ => 0) (-1) true [str "DECRBY"; [107]; str "-9223372036854775808"] (ex_shard ∅ : Shard (gmap bytes bytes)) with
  | Ret (r, _) => r = RInt (- 2 ^ 63)
  | Panic => False
  end.
Proof. vm_compute. reflexivity. Qed.

(** SET over a list hides it: deleting the string brings the list back. *)
Definition ex_shadow : M (gmap bytes bytes) (list Reply) :=
  r1 ← ListCmd.push 3 (fun _ => 0) [107] [[97]] false false;
  r2 ← set 3 (fun _ => 0) (mkSetFlags false false false false None) [107] [120];
  r3 ← Generic.type_cmd (fun _ => 0) [107];
  r4 ← Generic.del 3 (fun _ => 0) [[107]];
  r5 ← Generic.type_cmd (fun _ => 0) [107];
  r6 ← ListCmd.llen (fun _ => 0) [107];
  mret [r1; r2; r3; r4; r5; r6].
Theorem set_only_shadows_collection :
  match ex_shadow (ex_shard ∅) with
  | Ret (rs, _) => rs = [RInt 1; ok; RSimple (str "string"); RInt 1; RSimple (str "list"); RInt 1]
  | Panic => False
  end.
Proof. vm_compute. reflexivity. Qed.
