(* ===== verification/ElemLaws.v ===== *)
(** * Element collections on their own node

    What one node's adds and removes do to the element records of a set or a
    hash: a record whose covered dots are all older than its live ones - which
    is what a node's own writes leave - shows the value added last, and shows
    nothing after a remove of its dots. Over these records, a collection is a
    finite map from member to value and deadline. *)

From S2P Require Import Prelude Partition Hlc Envelope Varint Ikey Counter Lattice Merge MergeLaws Store ListLaws ListRefine GenericLaws.

(** ** States *)

Lemma normalize_add st d v : element_wf st -> Forall (fun e => ver_ltb (dot_ver e.1) (dot_ver d) = true) (live st) -> d ∉ covered st ->
  normalize (mkElement (live st ++ [(d, v)]) (covered st ++ [])) = mkElement (take MAX_LIVE_DOTS ((d, v) :: live st)) (covered st).
Proof.
  intros W N C. rewrite normalize_unfold. cbn [covered live]. rewrite app_nil_r, all_covered_id by done.
  rewrite (take_ge (covered st)) by apply W. cbv zeta. do 2 f_equal.
  assert (So : StronglySorted (key_gt live_key) ((d, v) :: live st)) by (constructor; [apply W|exact N]).
  assert (O : one_value (live st ++ [(d, v)])).
  { pose proof (sorted_live_one_value _ So) as O. intros x a b Ha Hb. apply (O x); set_solver. }
  apply (sorted_ext (key_gt live_key)); [apply survivors_sorted|done|].
  intros e. rewrite survivors_elem by done. pose proof (ew_disj _ W) as D. rewrite Forall_forall in D.
  rewrite elem_of_app, list_elem_of_singleton, elem_of_cons. split; [tauto|]. intros [->|I]; [auto|]. split; [auto|]. by apply D.
Qed.

(** The covered dots are older than the live ones. *)
Definition settled (st : ElementState) : Prop :=
  forall c e, c ∈ covered st -> e ∈ live st -> ver_ltb (dot_ver c) (dot_ver e.1) = true.

Lemma dots_sorted st : element_wf st -> StronglySorted (key_gt dot_ver) (dots st).
Proof.
  intros W. unfold dots. pose proof (ew_live _ W) as S. induction S as [|e l S IH F]; [constructor|].
  rewrite fmap_cons. constructor; [done|]. rewrite Forall_forall in F. apply Forall_forall. intros d (e' & -> & I)%list_elem_of_fmap. by apply (F e').
Qed.

Lemma covers_all st : element_wf st -> settled st ->
  all_covered (covered st ++ dots st) = dots st ++ covered st.
Proof.
  intros W S. apply (sorted_ext (key_gt dot_ver)); [apply all_covered_sorted| |intros d; rewrite all_covered_elem; set_solver].
  apply StronglySorted_app_2; [|by apply dots_sorted|apply W].
  intros d c (e & -> & I)%list_elem_of_fmap Hc. by apply S.
Qed.

Lemma normalize_remove st : element_wf st -> settled st ->
  live (normalize (mkElement (live st ++ []) (covered st ++ all_covered (dots st)))) = [] /\
  forall c, c ∈ covered (normalize (mkElement (live st ++ []) (covered st ++ all_covered (dots st)))) -> c ∈ covered st \/ c ∈ dots st.
Proof.
  intros W S. assert (Ed : all_covered (dots st) = dots st).
  { apply (sorted_ext (key_gt dot_ver)); [apply all_covered_sorted|by apply dots_sorted|intros d; apply all_covered_elem]. }
  rewrite Ed, app_nil_r. split.
  - rewrite normalize_unfold. cbn [live covered]. rewrite covers_all by done. apply elem_of_nil_inv. intros e I.
    apply elem_of_take in I as (i & I & _). apply list_elem_of_lookup_2 in I. apply list_elem_of_filter in I as [N I%distinct_adds_incl].
    apply N. rewrite take_app_ge.
    + apply elem_of_app. left. apply list_elem_of_fmap. eauto.
    + unfold dots. rewrite length_fmap. pose proof (ew_nlive _ W). unfold MAX_LIVE_DOTS, MAX_TOMB_DOTS in *. lia.
  - intros c I%normalize_cov_incl. cbn [covered] in I. by apply elem_of_app in I.
Qed.

Lemma normalize_twice st : element_wf st -> normalize (mkElement (live st ++ live st) (covered st ++ covered st)) = st.
Proof.
  intros W. rewrite normalize_unfold. cbn [live covered].
  assert (Ec : all_covered (covered st ++ covered st) = covered st).
  { apply (sorted_ext (key_gt dot_ver)); [apply all_covered_sorted|apply W|]. intros d. rewrite all_covered_elem. set_solver. }
  rewrite Ec, (take_ge (covered st)) by apply W. cbv zeta.
  assert (El : survivors (live st ++ live st) (covered st) = live st).
  { apply (sorted_ext (key_gt live_key)); [apply survivors_sorted|apply W|].
    assert (O : one_value (live st ++ live st)).
    { pose proof (sorted_live_one_value _ (ew_live _ W)) as O. intros x a b Ha Hb. apply (O x); set_solver. }
    intros e. rewrite survivors_elem by done. pose proof (ew_disj _ W) as D. rewrite Forall_forall in D. rewrite elem_of_app.
    split; [tauto|]. intros I. split; [auto|]. by apply D. }
  rewrite El, take_ge by apply W. by destruct st.
Qed.

(** ** Records *)

Section records.
Context (rt : RecordType) (rt_or : is_or_element rt = true) (rt_plain : rt <> CounterField).

(** A record written on this node up to clock [w]. *)
Record own_ok (w : Z) (r : erec) : Prop := {
  oo_rec : erec_ok r;
  oo_type : er_type r = rt;
  oo_clock : (er_ver r).1 <= w;
  oo_live : Forall (fun e => dot_hlc e.1 <= w) (live (er_st r));
  oo_cov : Forall (fun d => dot_hlc d <= w) (covered (er_st r));
  oo_settled : settled (er_st r);
}.

Lemma own_ok_mono w w' r : w <= w' -> own_ok w r -> own_ok w' r.
Proof.
  intros Le [R T C L V S]. split; [done|done|lia| | |done]; (eapply Forall_impl; [eassumption|]; intros x Hx; cbn in Hx; lia).
Qed.

Definition add_rec (h n : Z) (v : bytes) (ttl : Z) : erec := mkErec rt (h, n) ttl (mkElement [(mkDot h n, v)] []).
Definition rm_rec (h n : Z) (r : erec) : erec := mkErec rt (h, n) 0 (normalize (mkElement [] (dots (er_st r)))).

Definition value_len_ok (v : bytes) : Prop := Z.of_nat (length v) < 2 ^ 56.

Lemma add_rec_bytes h n v ttl : element_add_ttl rt h n v ttl = erec_bytes (add_rec h n v ttl).
Proof. done. Qed.
Lemma rm_rec_bytes h n r : element_remove rt h n (dots (er_st r)) = erec_bytes (rm_rec h n r).
Proof.
  unfold element_remove, erec_bytes, encode_element, rm_rec. cbn [er_type er_ver er_ttl er_st].
  by rewrite (normalize_id (normalize _)) by apply normalize_wf.
Qed.

Lemma add_rec_ok h n v ttl : u64 h -> u16 n -> u64 ttl -> value_len_ok v -> own_ok h (add_rec h n v ttl).
Proof.
  intros Uh Un Ut L. split; cbn [er_type er_ver er_ttl er_st add_rec fst snd live covered]; [|done|lia| |constructor|].
  - split; cbn [er_type er_ver er_ttl er_st add_rec fst snd live covered]; try done.
    + split; cbn [live covered]; try (repeat constructor; set_solver); cbn; unfold MAX_LIVE_DOTS; lia.
    + constructor; [|constructor]. split; [by split|done].
  - constructor; [cbn; lia|constructor].
  - intros c e Hc. cbn [covered] in Hc. set_solver.
Qed.

Lemma join_type w r : own_ok w r -> rtype_max (er_type r) rt = rt.
Proof. intros O. rewrite (oo_type w r O). by destruct rt. Qed.

Lemma newer_ver (a b : version) : a.1 < b.1 -> ver_ltb a b = true /\ ver_max a b = b.
Proof.
  intros L. unfold ver_max, ver_ltb, ver_cmp. rewrite (proj2 (Z.compare_lt_iff a.1 b.1)) by lia. done.
Qed.

Lemma join_add w r h n v ttl : own_ok w r -> w < h -> u64 h -> u16 n -> u64 ttl -> value_len_ok v ->
  let j := erec_join r (add_rec h n v ttl) in
  own_ok h j /\ er_ver j = (h, n) /\ er_ttl j = ttl /\ st_value (er_st j) = Some v.
Proof.
  intros O Lt Uh Un Ut L. pose proof (add_rec_ok h n v ttl Uh Un Ut L) as Oa. pose proof O as [R T C Li V S]. cbn zeta.
  destruct (newer_ver (er_ver r) (h, n)) as [N1 N2]; [cbn; lia|].
  assert (Es : er_st (erec_join r (add_rec h n v ttl)) = mkElement (take MAX_LIVE_DOTS ((mkDot h n, v) :: live (er_st r))) (covered (er_st r))).
  { unfold erec_join, join_elements. cbn [er_st er_type add_rec live covered]. rewrite (join_type w r O), bool_decide_false by done.
    apply normalize_add; [apply R| |].
    - eapply Forall_impl; [exact Li|]. intros e He. cbn in He. apply (newer_ver (dot_ver e.1) (dot_ver (mkDot h n))). cbn. lia.
    - intros I. rewrite Forall_forall in V. apply V in I. cbn in I. lia. }
  split; [|split; [exact N2|split; [by unfold erec_join; cbn [er_ttl er_ver add_rec]; rewrite N1|by rewrite Es]]].
  split; rewrite ?Es; cbn [live covered].
  - by apply erec_join_ok; [|apply Oa].
  - unfold erec_join. cbn [er_type add_rec]. by eapply join_type.
  - change (er_ver (erec_join r (add_rec h n v ttl))) with (ver_max (er_ver r) (h, n)). rewrite N2. cbn. lia.
  - apply Forall_take. constructor; [cbn; lia|]. eapply Forall_impl; [exact Li|]. intros e He. cbn in He. lia.
  - eapply Forall_impl; [exact V|]. intros e He. cbn in He. lia.
  - intros c e Hc He. cbn [live covered] in *. apply elem_of_take in He as (i & He & _). apply list_elem_of_lookup_2 in He.
    apply elem_of_cons in He as [->|He]; [|by apply S]. rewrite Forall_forall in V. apply V in Hc. cbn in Hc.
    apply (newer_ver (dot_ver c) (dot_ver (mkDot h n))). cbn. lia.
Qed.

Lemma rm_rec_ok w h n r : u64 h -> u16 n -> own_ok w r -> erec_ok (rm_rec h n r).
Proof.
  intros Uh Un O. pose proof O as [[] _ _ _ _ _]. split; cbn [er_type er_ver er_ttl er_st rm_rec fst snd]; try done.
  - apply normalize_wf.
  - rewrite Forall_forall. intros d Hd%normalize_cov_incl. cbn in Hd. unfold dots in Hd.
    apply list_elem_of_fmap in Hd as (e & -> & He). rewrite Forall_forall in eo_live. apply eo_live, He.
Qed.

Lemma join_remove w r h n : own_ok w r -> w < h -> u64 h -> u16 n ->
  let j := erec_join r (rm_rec h n r) in own_ok h j /\ live (er_st j) = [] /\ er_ver j = (h, n) /\ er_ttl j = 0.
Proof.
  intros O Lt Uh Un. pose proof (rm_rec_ok w h n r Uh Un O) as Or. pose proof O as [R T C Li V S]. cbn zeta.
  destruct (newer_ver (er_ver r) (h, n)) as [N1 N2]; [cbn; lia|]. pose proof (eo_wf _ R) as W.
  assert (Es : er_st (erec_join r (rm_rec h n r)) = normalize (mkElement (live (er_st r) ++ []) (covered (er_st r) ++ all_covered (dots (er_st r))))).
  { unfold erec_join, join_elements. cbn [er_st er_type rm_rec]. rewrite (join_type w r O), bool_decide_false by done. f_equal. f_equal; f_equal.
    rewrite normalize_unfold. cbn [covered live]. apply take_ge.
      assert (Ed : all_covered (dots (er_st r)) = dots (er_st r)).
      { apply (sorted_ext (key_gt dot_ver)); [apply all_covered_sorted|by apply dots_sorted|intros d; apply all_covered_elem]. }
      rewrite Ed. unfold dots. rewrite length_fmap. pose proof (ew_nlive _ W). unfold MAX_LIVE_DOTS, MAX_TOMB_DOTS in *. lia. }
  destruct (normalize_remove (er_st r) W S) as [El Ec]. rewrite <- Es in El, Ec.
  split; [|split; [done|split; [exact N2|by unfold erec_join; cbn [er_ttl er_ver rm_rec]; rewrite N1]]].
  split; [by apply erec_join_ok| | | | |].
  - unfold erec_join. cbn [er_type rm_rec]. by eapply join_type.
  - change (er_ver (erec_join r (rm_rec h n r))) with (ver_max (er_ver r) (h, n)). rewrite N2. cbn. lia.
  - rewrite El. constructor.
  - rewrite Forall_forall. intros c [I|I]%Ec; [rewrite Forall_forall in V; apply V in I; cbn in I; lia|].
    unfold dots in I. apply list_elem_of_fmap in I as (e & -> & I). rewrite Forall_forall in Li. apply Li in I. cbn in I. lia.
  - intros c e _ He. rewrite El in He. set_solver.
Qed.

(** A new deadline on the same dots. *)
Definition stamp_rec (h n : Z) (r : erec) (ttl : Z) : erec := mkErec rt (h, n) ttl (er_st r).

Lemma stamp_rec_bytes w h n r ttl : own_ok w r ->
  encode_with (mkEnvelope (flags (erec_env r)) h n ttl) (ElementState_encode (er_st r)) = erec_bytes (stamp_rec h n r ttl).
Proof.
  intros O. rewrite erec_bytes_eq by apply (oo_rec w r O). unfold erec_env, stamp_rec. cbn [er_type er_ver er_ttl er_st flags fst snd].
  by rewrite (oo_type w r O).
Qed.

Lemma join_stamp w r h n ttl : own_ok w r -> w < h -> u64 h -> u16 n -> u64 ttl ->
  let j := erec_join r (stamp_rec h n r ttl) in
  erec_ok (stamp_rec h n r ttl) /\ own_ok h j /\ er_ver j = (h, n) /\ er_ttl j = ttl /\ er_st j = er_st r.
Proof.
  intros O Lt Uh Un Ut. pose proof O as [R T C Li V S]. cbn zeta.
  assert (Os : erec_ok (stamp_rec h n r ttl)) by (destruct R; by split).
  destruct (newer_ver (er_ver r) (h, n)) as [N1 N2]; [cbn; lia|].
  assert (Es : er_st (erec_join r (stamp_rec h n r ttl)) = er_st r).
  { unfold erec_join, join_elements. cbn [er_st er_type stamp_rec]. rewrite (join_type w r O), bool_decide_false by done. apply normalize_twice, R. }
  split; [done|]. split; [|split; [exact N2|split; [by unfold erec_join; cbn [er_ttl er_ver stamp_rec]; rewrite N1|done]]].
  apply (own_ok_mono w h) in O; [|lia]. destruct O as [_ _ _ Li' V' S']. split; rewrite ?Es; try done.
  - by apply erec_join_ok.
  - unfold erec_join. cbn [er_type stamp_rec]. rewrite T. by destruct rt.
  - change (er_ver (erec_join r (stamp_rec h n r ttl))) with (ver_max (er_ver r) (h, n)). rewrite N2. cbn. lia.
Qed.
End records.

(** ** Writes *)

Definition incoming_live (i : bytes) : bool :=
  match Envelope_decode i with Some (e, _) => negb (is_tombstone e) | None => false end.
Definition hint_on_insert (prefix ek : bytes) (hints : gmap bytes bytes) : gmap bytes bytes :=
  match hints !! prefix with
  | Some hint => if bytes_eqb hint [] || bytes_ltb ek hint then <[prefix := ek]> hints else hints
  | None => hints
  end.

(** A merged write that changes its record also moves the pop position of a
    set. *)
Lemma write_merged_elem {DB} `{KVLaws DB} (s : Shard DB) k p i x : parse k = Ret (Some p) ->
  deliver_with (merged_at k) (kv_get (db s) k) i = Ret x -> (forall l, kv_get (db s) k = Some l -> l <> x) ->
  exists d', write_merged k i s = Ret (true, mkShard d' (hlc_word s)
      (if (pk_tag p =? tag_u8 TSetMember) && incoming_live i
       then hint_on_insert (collection_prefix TSetMember (pk_userkey p)) k (pop_hints s) else pop_hints s) (ticks s)) /\
    kv_get d' k = Some x /\ Store.frame k (db s) d'.
Proof.
  intros Hp Hx Hne. destruct s as [d w hints n].
  unfold write_merged, write_merged_checked, mbind, M_bind, get_raw, reads, put_raw, writes, mret, M_ret, lift.
  cbn [rust_bind fst snd db hlc_word pop_hints ticks] in *.
  assert (Fin : forall d' : DB, exists d'', (if pk_tag p =? tag_u8 TSetMember then
      if incoming_live i then fun s : Shard DB => let! r := pop_hint_on_insert (collection_prefix TSetMember (pk_userkey p)) k s in Ret (true, r.2)
      else fun s : Shard DB => Ret (true, s) else fun s : Shard DB => Ret (true, s)) (mkShard d' w hints n) =
      Ret (true, mkShard d'' w (if (pk_tag p =? tag_u8 TSetMember) && incoming_live i
        then hint_on_insert (collection_prefix TSetMember (pk_userkey p)) k hints else hints) n) /\ d'' = d').
  { intros d'. exists d'. split; [|done]. destruct (pk_tag p =? tag_u8 TSetMember); [|done]. by destruct (incoming_live i). }
  destruct (kv_get d k) as [l|] eqn:Hg; cbn [deliver_with] in Hx.
  - unfold merged_at in Hx. destruct (merge_at k l i) as [o|]; [|discriminate]. cbn in Hx. injection Hx as <-.
    cbn [rust_bind fst snd]. destruct o; cbn [rust_bind fst snd db hlc_word pop_hints ticks resolve] in *; [by destruct (Hne l)|..];
      rewrite Hp; cbn [rust_bind fst snd]; match goal with |- context [mkShard ?d' w hints n] => destruct (Fin d') as (d'' & E & ->) end;
      (eexists; split_and!; [exact E|apply kv_put_get_eq|apply kv_put_frame]).
  - injection Hx as <-. cbn [rust_bind fst snd db hlc_word pop_hints ticks]. rewrite Hp. cbn [rust_bind fst snd].
    destruct (Fin (kv_put d k i)) as (d'' & E & ->). eexists; split_and!; [exact E|apply kv_put_get_eq|apply kv_put_frame].
Qed.

(** ** Heads *)

Section heads.
Context {DB : Type} `{KVLaws DB}.
Context (key : bytes) (key_len : slice_len_ok key) (ctype : Z) (ctype_coll : (ctype =? 115) || (ctype =? 108) = false).
Context (node_id : Z) (wall : nat -> Z) (node_range : u16 node_id) (walls : forall n, 0 <= wall n < 2 ^ 47).

(** The head the key holds, up to clock [w]: none, a live one of this type
    without deadline, or a tombstone of any type. *)
Definition head_is (del w : Z) (v : bytes) : Prop :=
  exists env pay t d0, Envelope_decode v = Some (env, pay) /\ head_decode pay = Some (t, d0) /\
    ttl_deadline_ms env = 0 /\ hlc env <= w /\
    ((is_tombstone env = false /\ t = ctype /\ d0 = del) \/ (is_tombstone env = true /\ Z.max d0 (hlc env) = del)).
(** The key is free for, or holds, a collection with delete clock [del]. *)
Definition coll_typed (del : Z) (d : DB) (w : Z) : Prop :=
  u64 del /\ dead_at d (string_key key) /\ dead_at d (list_key key) /\
  match kv_get d (head_key key) with None => del = 0 | Some v => head_is del w v end.

Lemma check_type_coll del s w : coll_typed del (db s) w -> check_type wall key ctype s = Ret (Some del, tick s).
Proof.
  intros (_ & D1 & D2 & T).
  unfold check_type, record_live, get_head, get_raw, reads, now_ms, mbind, M_bind, mret, M_ret.
  rewrite ctype_coll. cbn [rust_bind fst snd db tick].
  pose proof (D1 (wall (ticks s))) as E1. pose proof (D2 (wall (ticks s))) as E2. unfold mbind in E1, E2.
  rewrite E1. cbn [rust_bind fst snd db]. rewrite E2. cbn [rust_bind fst snd db].
  destruct (kv_get (db s) (head_key key)) as [v|]; [|by rewrite T]. destruct T as (env & pay & t & d0 & E & Eh & Et & _ & T).
  cbn [option_bind]. rewrite E, Eh. cbn [rust_bind]. unfold carried_del, head_live, is_expired. rewrite Et.
  destruct T as [(-> & -> & ->)|(-> & <-)]; [|done]. by rewrite (Z.eqb_refl ctype).
Qed.

Lemma typed_quiet del s s' : quiet s s' -> coll_typed del (db s) (hlc_word s) -> coll_typed del (db s') (hlc_word s').
Proof. intros (E & _ & Ew). by rewrite E, Ew. Qed.

(** Writes to other keys leave the type alone. *)
Lemma typed_frame del d d' w w' : w <= w' ->
  (forall k, k = string_key key \/ k = list_key key \/ k = head_key key -> kv_get d' k = kv_get d k) ->
  coll_typed del d w -> coll_typed del d' w'.
Proof.
  intros L F (U & D1 & D2 & T). split; [done|]. split; [|split].
  - intros now. rewrite F by auto. apply D1.
  - intros now. rewrite F by auto. apply D2.
  - rewrite F by auto. destruct (kv_get d (head_key key)) as [v|]; [|done].
    destruct T as (env & pay & t & d0 & T1 & T2 & T3 & T4 & T5). exists env, pay, t, d0. split_and!; (done || lia).
Qed.

(** [ensure_head] writes a head that carries the delete clock, or leaves the
    live one. *)
(** The key holds a live head of this type. *)
Definition holds_coll (del : Z) (d : DB) : Prop := exists v env pay, kv_get d (head_key key) = Some v /\ Envelope_decode v = Some (env, pay) /\
  head_decode pay = Some (ctype, del) /\ ttl_deadline_ms env = 0 /\ is_tombstone env = false.
Lemma ensure_head_holds n del s : coll_typed del (db s) (hlc_word s) -> room (S n) s -> exists s',
  ensure_head node_id wall key ctype s = Ret (del, s') /\ coll_typed del (db s') (hlc_word s') /\ room n s' /\
  hlc_word s <= hlc_word s' /\ pop_hints s' = pop_hints s /\ Store.frame (head_key key) (db s) (db s') /\ holds_coll del (db s').
Proof.
  intros (U & D1 & D2 & T) R.
  assert (Cr : forall s0 (prev : option (Envelope * Z * Z)), quiet s s0 -> (forall now, match prev with None => 0 | Some (env, _, d0) => carried_del env d0 now end = del) ->
    exists s', (now ← now_ms wall;
      let prev_del := match prev with None => 0 | Some (env, _, d0) => carried_del env d0 now end in
      h ← hlc_now wall;
      _ ← write_merged (head_key key) (encode_with (Envelope_head h node_id) (head_encode ctype prev_del));
      mret prev_del) s0 = Ret (del, s') /\ coll_typed del (db s') (hlc_word s') /\ room n s' /\
    hlc_word s <= hlc_word s' /\ pop_hints s' = pop_hints s /\ Store.frame (head_key key) (db s) (db s') /\ holds_coll del (db s')).
  { intros s0 prev Q P. pose proof Q as (Ed & Ep & Ew). unfold mbind, M_bind, now_ms. cbn [rust_bind fst snd]. rewrite P.
    fold (tick s0). destruct (hlc_now_eq wall walls (tick s0) n) as (h & s1 & Eh & L & Uh & Ew1 & Ed1 & Eh1 & R1).
    { by eapply room_quiet; [|exact R]; transitivity s0; [|apply quiet_tick]. }
    rewrite Eh. cbn [rust_bind fst snd]. change (hlc_word (tick s0)) with (hlc_word s0) in L. change (db (tick s0)) with (db s0) in Ed1.
    change (pop_hints (tick s0)) with (pop_hints s0) in Eh1.
    destruct (write_merged_plain s1 (head_key key) (mkParsedKey (pid_of key) (tag_u8 THead) key [])
      (encode_with (Envelope_head h node_id) (head_encode ctype del))
      (encode_with (Envelope_head h node_id) (head_encode ctype del))) as (b & d' & E' & G' & F').
    { by apply parse_head_key. } { done. }
    { rewrite Ed1, Ed. destruct (kv_get (db s) (head_key key)) as [v|]; [|done]. cbn [deliver_with].
      destruct T as (env & pay & t & d0 & T1 & _ & _ & T4 & _). unfold merged_at, merge_at. rewrite parse_head_key by done.
      cbn [rust_bind pk_suffix]. rewrite (merge_head v env pay) by done. cbn [rust_bind]. unfold merge_lww, ver_ltb, ver_cmp, env_version.
      cbn [fst snd hlc Envelope_head]. rewrite (proj2 (Z.compare_lt_iff (hlc env) h)) by lia. done. }
    rewrite E'. cbn [rust_bind fst snd mret M_ret]. eexists. split; [reflexivity|]. cbn [db hlc_word pop_hints with_db].
    rewrite Ed1, Ed in F'.
    assert (Hd : head_decode (head_encode ctype del) = Some (ctype, del)) by (rewrite <- (app_nil_r (head_encode _ _)); by apply head_decode_encode).
    split; [|split; [done|split; [lia|split; [congruence|split; [done|]]]]].
    2:{ eexists _, (Envelope_head h node_id), _. split; [exact G'|]. split_and!; try done. by rewrite Envelope_decode_encode_with by by apply head_env_ok. }
    split; [done|]. split; [|split].
    - intros now. rewrite F' by done. apply D1.
    - intros now. rewrite F' by done. apply D2.
    - rewrite G'. exists (Envelope_head h node_id), (head_encode ctype del), ctype, del.
      rewrite Envelope_decode_encode_with by by apply head_env_ok. split_and!; try done; [cbn; lia|by left]. }
  unfold ensure_head. unfold mbind at 1, M_bind at 1, get_head, get_raw, reads. unfold mbind at 1, M_bind at 1. cbn [rust_bind fst snd mret M_ret].
  destruct (kv_get (db s) (head_key key)) as [v|] eqn:G; cbn [option_bind]; [|apply (Cr s None); [done|by rewrite T]].
  destruct T as (env & pay & t & d0 & T1 & T2 & T3 & T4 & T5). change (Some v ≫= Envelope_decode) with (Envelope_decode v). rewrite T1, T2.
  destruct T5 as [(Et & -> & ->)|(Et & <-)]; rewrite Et.
  - rewrite Z.eqb_refl. cbn [negb andb]. unfold mbind at 1, M_bind at 1, now_ms at 1. cbn [rust_bind fst snd].
    unfold is_expired. rewrite T3. cbn [Z.ltb Z.eqb andb negb Z.compare]. eexists. split; [reflexivity|].
    cbn [db hlc_word pop_hints]. split; [|split; [|split; [lia|split; [done|split; [done|by exists v, env, pay]]]]].
    + split; [done|]. split; [done|]. split; [done|]. rewrite G. exists env, pay, ctype, del. split_and!; try done. by left.
    + destruct R as (R0 & R1 & R2). unfold room. cbn [hlc_word]. lia.
  - rewrite andb_false_r. apply (Cr s (Some (env, t, d0))); [done|]. intros now. unfold carried_del, is_expired.
    by rewrite Et, T3.
Qed.
Lemma ensure_head_coll n del s : coll_typed del (db s) (hlc_word s) -> room (S n) s -> exists s',
  ensure_head node_id wall key ctype s = Ret (del, s') /\ coll_typed del (db s') (hlc_word s') /\ room n s' /\
  hlc_word s <= hlc_word s' /\ pop_hints s' = pop_hints s /\ Store.frame (head_key key) (db s) (db s').
Proof. intros T R. destruct (ensure_head_holds n del s T R) as (s' & H1 & H2 & H3 & H4 & H5 & H6 & _). exists s'. by split_and!. Qed.
End heads.

(** ** Members in byte order *)

Definition member_lt (a b : bytes) : Prop := bytes_cmp a b = Lt.
Definition member_le (a b : bytes) : Prop := bytes_cmp a b <> Gt.
#[export] Instance member_le_dec : RelDecision member_le.
Proof. intros a b. unfold member_le. destruct (bytes_cmp a b); [left|left|right]; congruence. Defined.
#[export] Instance member_le_total : Total member_le.
Proof.
  intros a b. unfold member_le. rewrite (bytes_cmp_antisym a b). destruct (bytes_cmp a b); cbn; auto.
Qed.
#[export] Instance member_le_anti : AntiSymm (=) member_le.
Proof.
  intros a b. unfold member_le. rewrite (bytes_cmp_antisym a b). destruct (bytes_cmp a b) eqn:E; cbn; try congruence.
  intros _ _. by apply bytes_cmp_eq.
Qed.
#[export] Instance member_le_trans : Transitive member_le.
Proof.
  intros a b c. unfold member_le. destruct (bytes_cmp a b) eqn:E1; [|intros _|congruence].
  - apply bytes_cmp_eq in E1 as ->. done.
  - destruct (bytes_cmp b c) eqn:E2; [|intros _|congruence]; [apply bytes_cmp_eq in E2 as ->; by rewrite E1|].
    by rewrite (bytes_cmp_trans a b c).
Qed.

(** The members in byte order. *)
Definition sorted (X : gset bytes) : list bytes := merge_sort member_le (elements X).

Lemma sorted_perm X : sorted X ≡ₚ elements X.
Proof. apply merge_sort_Permutation. Qed.
Lemma sorted_elem X m : m ∈ sorted X <-> m ∈ X.
Proof. by rewrite sorted_perm, elem_of_elements. Qed.
Lemma sorted_nodup X : NoDup (sorted X).
Proof. rewrite sorted_perm. apply NoDup_elements. Qed.
Lemma sorted_length X : length (sorted X) = size X.
Proof. by rewrite sorted_perm. Qed.
Lemma sorted_nil X : sorted X = [] <-> X = ∅.
Proof.
  split; [|by intros ->]. intros E. apply set_eq. intros m. rewrite <- sorted_elem, E. set_solver.
Qed.

(** A strictly sorted list of the members is [sorted]. *)
Lemma sorted_eq X l : StronglySorted member_lt l -> (forall m, m ∈ l <-> m ∈ X) -> l = sorted X.
Proof.
  intros S E. apply (StronglySorted_unique member_le).
  - clear E. induction S as [|x l S IH F]; [constructor|]. constructor; [done|]. eapply Forall_impl; [exact F|].
    intros z. unfold member_lt, member_le. congruence.
  - apply StronglySorted_merge_sort; apply _.
  - apply NoDup_Permutation; [|apply sorted_nodup|intros m; by rewrite sorted_elem].
    clear E. induction S as [|x l S IH F]; [constructor|]. constructor; [|done]. intros I. rewrite Forall_forall in F.
    apply F in I. unfold member_lt in I. by rewrite bytes_cmp_refl in I.
Qed.

(** ** Collections *)

Section coll.
Context {DB : Type} `{KVLaws DB}.
Context (tag : Tag) (tag_elem : simple_tag tag = false) (tag_plain : tag_u8 tag <> tag_u8 TBudget).
Context (rt : RecordType) (rt_or : is_or_element rt = true) (rt_plain : rt <> CounterField).
Context (key : bytes) (key_len : slice_len_ok key) (key_bytes : is_bytes key).
Context (node_id : Z) (wall : nat -> Z) (node_range : u16 node_id) (walls : forall n, 0 <= wall n < 2 ^ 47).

Definition elem_prefix : bytes := collection_prefix tag key.
Definition elem_key (m : bytes) : bytes := prefixed tag key m.

(** Every record of the collection was written here before [w], and no
    deadline passes. *)
Record coll_wf (d : DB) (w : Z) : Prop := {
  cw_bytes : keys_are_bytes d;
  cw_elem : forall m v, kv_get d (elem_key m) = Some v -> exists r, own_ok rt w r /\ in_time wall (er_ttl r) /\ v = erec_bytes r;
}.

(** The value and deadline a record shows. *)
Definition shown_elem (del : Z) (b : bytes) : option (bytes * Z) :=
  match Envelope_decode b with
  | Some (env, pay) =>
      if hlc env <=? del then None
      else match element_value pay with Ret (Some v) => Some (v, ttl_deadline_ms env) | _ => None end
  | None => None
  end.
Definition at_elem (d : DB) (del : Z) (m : bytes) : option (bytes * Z) := kv_get d (elem_key m) ≫= shown_elem del.

Definition shown_rec (del : Z) (r : erec) : option (bytes * Z) :=
  if (er_ver r).1 <=? del then None else (fun v => (v, er_ttl r)) <$> st_value (er_st r).

Lemma coll_key_inj m m' : elem_key m = elem_key m' -> m = m'.
Proof. unfold elem_key. rewrite !prefixed_split. intros E. by apply app_inv_head in E. Qed.
Lemma parse_elem m : parse (elem_key m) = Ret (Some (mkParsedKey (pid_of key) (tag_u8 tag) key m)).
Proof. by apply parse_prefixed. Qed.

Lemma own_reads w r : own_ok rt w r -> Envelope_decode (erec_bytes r) = Some (erec_env r, ElementState_encode (er_st r)) /\
  element_value (ElementState_encode (er_st r)) = Ret (st_value (er_st r)) /\
  element_dots (ElementState_encode (er_st r)) = Ret (dots (er_st r)).
Proof.
  intros [R _ _ _ _ _]. destruct (erec_decode r R) as [D1 D2]. unfold element_value, element_dots. by rewrite D1, D2.
Qed.

Lemma shown_own w r del : own_ok rt w r -> shown_elem del (erec_bytes r) = shown_rec del r.
Proof.
  intros O. destruct (own_reads w r O) as (D & V & _). unfold shown_elem, shown_rec. rewrite D, V.
  change (hlc (erec_env r)) with (er_ver r).1. by destruct (_ <=? _), (st_value (er_st r)).
Qed.

(** What the readers of one element meet: nothing, a record that shows
    nothing, or one that shows its value. *)
Variant elem_read (d : DB) (w del : Z) (m : bytes) : Prop :=
  | read_none (_ : kv_get d (elem_key m) = None) (_ : at_elem d del m = None)
  | read_hidden r (_ : own_ok rt w r) (_ : in_time wall (er_ttl r)) (_ : kv_get d (elem_key m) = Some (erec_bytes r))
      (_ : at_elem d del m = None) (_ : forall p n, visible (erec_env r) p del (wall n) = None)
  | read_shown r v (_ : own_ok rt w r) (_ : in_time wall (er_ttl r)) (_ : kv_get d (elem_key m) = Some (erec_bytes r))
      (_ : at_elem d del m = Some (v, er_ttl r)) (_ : st_value (er_st r) = Some v)
      (_ : forall p n, visible (erec_env r) p del (wall n) = Some p).

Lemma elem_cases d w del m : coll_wf d w -> elem_read d w del m.
Proof.
  intros W. destruct (kv_get d (elem_key m)) as [b|] eqn:G; [|apply read_none; [done|unfold at_elem; by rewrite G]].
  destruct (cw_elem d w W m b G) as (r & O & T & ->).
  assert (A : at_elem d del m = shown_rec del r) by (unfold at_elem; rewrite G; by apply (shown_own w)).
  assert (V : forall p n, visible (erec_env r) p del (wall n) = if is_dead (er_st r) || ((er_ver r).1 <=? del) then None else Some p).
  { intros p n. unfold visible. rewrite erec_env_tombstone, (in_time_env wall _ (er_ttl r)) by done.
    by rewrite orb_false_r. }
  unfold shown_rec, st_value in A. unfold is_dead in V. destruct (_ <=? del); [eapply read_hidden; eauto; intros; by rewrite V, orb_true_r|].
  destruct (live (er_st r)) as [|[dt v] l] eqn:El; [by eapply read_hidden|]. eapply (read_shown d w del m r v); eauto. unfold st_value. by rewrite El.
Qed.

(** *** The contents *)

Definition entry_of (del : Z) (e : bytes * bytes) : option (bytes * (bytes * Z)) :=
  pair (drop (length elem_prefix) e.1) <$> shown_elem del e.2.
Definition entries (d : DB) (del : Z) : list (bytes * (bytes * Z)) := omap (entry_of del) (with_prefix d elem_prefix).

Lemma under_prefix k : starts_with k elem_prefix = true <-> exists m, k = elem_key m.
Proof.
  rewrite starts_with_spec. unfold elem_key, elem_prefix. split; intros (m & ->); exists m; by rewrite prefixed_split.
Qed.
Lemma elem_suffix m : drop (length elem_prefix) (elem_key m) = m.
Proof. unfold elem_key, elem_prefix. by rewrite prefixed_split, drop_app_length. Qed.

Lemma entries_spec d del m x : keys_are_bytes d -> (m, x) ∈ entries d del <-> at_elem d del m = Some x.
Proof.
  intros W. unfold entries, at_elem. rewrite list_elem_of_omap. split.
  - intros ([k b] & I & E). apply with_prefix_spec in I as [G (q & ->)%under_prefix]; [|done].
    unfold entry_of in E. cbn [fst snd] in E. rewrite elem_suffix in E. apply fmap_Some in E as (y & E & [= -> ->]). by rewrite G.
  - destruct (kv_get d (elem_key m)) as [b|] eqn:G; [|done]. cbn [mbind option_bind]. intros E. exists (elem_key m, b). split.
    + apply with_prefix_spec; [done|]. split; [done|]. apply under_prefix. eauto.
    + unfold entry_of. cbn [fst snd]. by rewrite elem_suffix, E.
Qed.

Lemma omap_sorted (l : list (bytes * bytes)) del : Forall (fun e => exists m, e.1 = elem_key m) l -> StronglySorted key_lt l ->
  StronglySorted member_lt (fst <$> omap (entry_of del) l).
Proof.
  intros F S. induction S as [|[k b] l S IH L]; [constructor|]. apply Forall_cons in F as [(m & Em) F]. cbn [fst] in Em. subst k.
  specialize (IH F). cbn [omap list_omap]. destruct (entry_of del (elem_key m, b)) as [[m' x]|] eqn:E; [|done].
  unfold entry_of in E. cbn [fst snd] in E. rewrite elem_suffix in E. apply fmap_Some in E as (y & _ & [= -> ->]).
  cbn [fmap list_fmap fst]. constructor; [done|]. apply Forall_forall. intros q I. apply list_elem_of_fmap in I as ([q' y'] & -> & I).
  apply list_elem_of_omap in I as ([k c] & I & E). rewrite Forall_forall in L, F. pose proof (L _ I) as Lt. destruct (F _ I) as (q'' & Eq).
  cbn [fst] in Eq. subst k. unfold entry_of in E. cbn [fst snd] in E. rewrite elem_suffix in E. apply fmap_Some in E as (z & _ & [= -> ->]).
  unfold key_lt, member_lt, elem_key in *. cbn [fst] in *. by rewrite !prefixed_split, bytes_cmp_app_same in Lt.
Qed.
Lemma entries_sorted d del : keys_are_bytes d -> StronglySorted member_lt (fst <$> entries d del).
Proof.
  intros W. apply omap_sorted; [|apply kv_range_sorted]. apply Forall_forall. intros [k b] I.
  apply with_prefix_spec in I as [_ P]; [|done]. by apply under_prefix.
Qed.

(** *** Writes *)

Record coll_state (n : nat) (del : Z) (s : Shard DB) : Prop := {
  cs_wf : coll_wf (db s) (hlc_word s);
  cs_room : room n s;
  cs_del : del <= hlc_word s;
}.

Lemma coll_quiet n del s s' : quiet s s' -> coll_state n del s -> coll_state n del s'.
Proof. intros Q [W R D]. pose proof Q as (Ed & _ & Ew). split; [by rewrite Ed, Ew|by eapply room_quiet|lia]. Qed.
Lemma coll_weaken n m del s : (n <= m)%nat -> coll_state m del s -> coll_state n del s.
Proof. intros L [W (R0 & R1 & R2) D]. split; [done| |done]. unfold room. lia. Qed.

(** One record written for [m], showing [o] afterwards. *)
Definition wrote_elem (m : bytes) (o : option (bytes * Z)) (del : Z) (s s' : Shard DB) : Prop :=
  hlc_word s < hlc_word s' /\ Store.frame (elem_key m) (db s) (db s') /\
  forall q, at_elem (db s') del q = if decide (q = m) then o else at_elem (db s) del q.

Lemma shown_at d' w r del m : own_ok rt w r -> kv_get d' (elem_key m) = Some (erec_bytes r) -> at_elem d' del m = shown_rec del r.
Proof. intros O G. unfold at_elem. rewrite G. by apply (shown_own w). Qed.

(** Writing a record whose join with the stored one is [r]. *)
Lemma write_elem_rec n del s m i r s1 h : coll_state (S n) del s -> is_bytes m ->
  hlc_now wall s = Ret (h, s1) ->
  match kv_get (db s) (elem_key m) with
  | None => i = r
  | Some b => exists r0, b = erec_bytes r0 /\ erec_ok r0 /\ erec_ok i /\ erec_join r0 i = r /\ (er_ver r0).1 < h
  end -> own_ok rt h r -> er_ver r = (h, node_id) -> in_time wall (er_ttl r) ->
  exists s', write_merged (elem_key m) (erec_bytes i) s1 = Ret (true, s') /\ coll_state n del s' /\
    wrote_elem m (shown_rec del r) del s s' /\
    pop_hints s' = if (tag_u8 tag =? tag_u8 TSetMember) && incoming_live (erec_bytes i)
                   then hint_on_insert (collection_prefix TSetMember key) (elem_key m) (pop_hints s) else pop_hints s.
Proof.
  intros [W R D] Mb E J O V T. destruct (hlc_now_eq wall walls s n R) as (h' & s1' & E' & L & U & Ew & Ed & Eh & R1).
  rewrite E in E'. injection E' as <- <-.
  destruct (write_merged_elem s1 (elem_key m) _ (erec_bytes i) (erec_bytes r) (parse_elem m)) as (d' & Wr & G & F).
  { rewrite Ed. destruct (kv_get (db s) (elem_key m)) as [b|]; [|by subst]. destruct J as (r0 & -> & O0 & Oi & <- & _).
    cbn [deliver_with]. rewrite (merged_at_plain _ _ _ _ (parse_elem m)) by done. by apply merged_bytes_erec. }
  { intros l. rewrite Ed. destruct (kv_get (db s) (elem_key m)) as [b|]; [|done]. destruct J as (r0 & -> & O0 & _ & _ & Lt).
    intros [= <-] Eq. apply (f_equal Envelope_decode) in Eq.
    rewrite (proj1 (erec_decode r0 O0)), (proj1 (erec_decode r (oo_rec _ _ _ O))) in Eq.
    apply (f_equal (fmap (fun x => hlc x.1))) in Eq. cbn in Eq. injection Eq as Eq. rewrite V in Eq. cbn in Eq. lia. }
  cbn [pk_tag pk_userkey] in Wr. eexists. split; [exact Wr|]. rewrite Ed in F. cbn [db hlc_word pop_hints].
  assert (Wf : coll_wf d' (hlc_word s1)).
  { split.
    - intros k v Gk. destruct (decide (k = elem_key m)) as [->|Ne]; [by apply prefixed_is_bytes|]. rewrite F in Gk by done. by eapply (cw_bytes _ _ W).
    - intros q v Gq. destruct (decide (q = m)) as [->|Ne].
      + rewrite G in Gq. injection Gq as <-. exists r. by rewrite Ew.
      + rewrite F in Gq by (intros Eq; by apply coll_key_inj in Eq). destruct (cw_elem _ _ W q v Gq) as (r0 & O0 & T0 & ->).
        exists r0. split; [|done]. eapply own_ok_mono; [|done]. lia. }
  split; [|split; [|by rewrite Eh]].
  - split; [done|done|]. cbn [hlc_word]. lia.
  - split; [cbn [hlc_word]; lia|]. split; [done|]. intros q. destruct (decide (q = m)) as [->|Ne]; [by apply (shown_at d' h r)|].
    unfold at_elem. cbn [db]. rewrite F; [done|]. intros Eq. by apply coll_key_inj in Eq.
Qed.

Lemma incoming_add h v ttl : u64 h -> u64 ttl -> value_len_ok v -> incoming_live (erec_bytes (add_rec rt h node_id v ttl)) = true.
Proof.
  intros Uh Ut L. unfold incoming_live.
  rewrite (proj1 (erec_decode _ (oo_rec rt _ _ (add_rec_ok rt rt_or rt_plain h node_id v ttl Uh node_range Ut L)))).
  by rewrite erec_env_tombstone.
Qed.

(** An add shows its value, whatever was stored. *)
Lemma elem_add_eq n del s m v ttl : coll_state (S n) del s -> is_bytes m -> value_len_ok v -> in_time wall ttl ->
  exists h s1 s', hlc_now wall s = Ret (h, s1) /\
    write_merged (elem_key m) (element_add_ttl rt h node_id v ttl) s1 = Ret (true, s') /\ coll_state n del s' /\
    wrote_elem m (Some (v, ttl)) del s s' /\
    pop_hints s' = if tag_u8 tag =? tag_u8 TSetMember
                   then hint_on_insert (collection_prefix TSetMember key) (elem_key m) (pop_hints s) else pop_hints s.
Proof.
  intros S Mb Vl T. destruct (hlc_now_eq wall walls s n (cs_room _ _ _ S)) as (h & s1 & E & L & U & _).
  pose proof (add_rec_ok rt rt_or rt_plain h node_id v ttl U node_range (proj1 T) Vl) as Oa.
  assert (X : exists r, match kv_get (db s) (elem_key m) with
    | None => add_rec rt h node_id v ttl = r
    | Some b => exists r0, b = erec_bytes r0 /\ erec_ok r0 /\ erec_ok (add_rec rt h node_id v ttl) /\
        erec_join r0 (add_rec rt h node_id v ttl) = r /\ (er_ver r0).1 < h
    end /\ own_ok rt h r /\ er_ver r = (h, node_id) /\ er_ttl r = ttl /\ st_value (er_st r) = Some v).
  { destruct (kv_get (db s) (elem_key m)) as [b|] eqn:G.
    - destruct (cw_elem _ _ (cs_wf _ _ _ S) m b G) as (r0 & O0 & _ & ->).
      destruct (join_add rt rt_or rt_plain (hlc_word s) r0 h node_id v ttl O0 L U node_range (proj1 T) Vl) as (J1 & J2 & J3 & J4).
      eexists. split; [|by split_and!; eauto]. exists r0. split_and!; try done; [apply O0|apply Oa|].
      pose proof (oo_clock _ _ _ O0). lia.
    - exists (add_rec rt h node_id v ttl). split; [done|]. split; [exact Oa|done]. }
  destruct X as (r & X & Or & Vr & Tr & Sr). rewrite <- Tr in T.
  destruct (write_elem_rec n del s m _ r s1 h S Mb E X Or Vr T) as (s' & Wr & S' & Wo & Hp).
  exists h, s1, s'. split; [done|]. split; [exact Wr|]. split; [done|]. rewrite incoming_add, andb_true_r in Hp; [|done|by rewrite Tr in T; apply T|done].
  split; [|done]. replace (shown_rec del r) with (Some (v, ttl)) in Wo; [done|]. unfold shown_rec. rewrite Vr, Sr, Tr. cbn [fst].
  rewrite (proj2 (Z.leb_gt h del)); [done|]. pose proof (cs_del _ _ _ S). lia.
Qed.

(** A remove of the stored dots shows nothing. *)
Lemma elem_remove_eq n del s m r : coll_state (S n) del s -> is_bytes m ->
  kv_get (db s) (elem_key m) = Some (erec_bytes r) -> own_ok rt (hlc_word s) r ->
  exists h s1 s', hlc_now wall s = Ret (h, s1) /\
    write_merged (elem_key m) (element_remove rt h node_id (dots (er_st r))) s1 = Ret (true, s') /\ coll_state n del s' /\
    wrote_elem m None del s s' /\ pop_hints s' = pop_hints s.
Proof.
  intros S Mb G O. destruct (hlc_now_eq wall walls s n (cs_room _ _ _ S)) as (h & s1 & E & L & U & _).
  destruct (join_remove rt rt_or rt_plain (hlc_word s) r h node_id O L U node_range) as (J1 & J2 & J3 & J4).
  destruct (write_elem_rec n del s m (rm_rec rt h node_id r) (erec_join r (rm_rec rt h node_id r)) s1 h S Mb E) as (s' & Wr & S' & Wo & Hp).
  - rewrite G. exists r. split_and!; try done; [apply O|by eapply rm_rec_ok|]. pose proof (oo_clock _ _ _ O). lia.
  - done.
  - done.
  - rewrite J4. apply no_deadline.
  - exists h, s1, s'. split; [done|]. split; [by rewrite rm_rec_bytes|]. split; [done|]. split.
    + replace (shown_rec del _) with (@None (bytes * Z)) in Wo; [done|]. unfold shown_rec, st_value. rewrite J2. by destruct (_ <=? _).
    + rewrite Hp. replace (incoming_live (erec_bytes (rm_rec rt h node_id r))) with false; [by rewrite andb_false_r|].
      unfold incoming_live. rewrite (proj1 (erec_decode _ (rm_rec_ok rt rt_or _ h node_id r U node_range O))).
      rewrite erec_env_tombstone. unfold is_dead, rm_rec. cbn [er_st]. rewrite normalize_unfold. cbn [live]. done.
Qed.

(** A new deadline keeps the value. *)
Lemma elem_stamp_eq n del s m r v ttl : coll_state (S n) del s -> is_bytes m ->
  kv_get (db s) (elem_key m) = Some (erec_bytes r) -> own_ok rt (hlc_word s) r -> st_value (er_st r) = Some v -> in_time wall ttl ->
  tag_u8 tag <> tag_u8 TSetMember ->
  exists h s1 s', hlc_now wall s = Ret (h, s1) /\
    write_merged (elem_key m) (encode_with (mkEnvelope (flags (erec_env r)) h node_id ttl) (ElementState_encode (er_st r))) s1 = Ret (true, s') /\
    coll_state n del s' /\ wrote_elem m (Some (v, ttl)) del s s' /\ pop_hints s' = pop_hints s.
Proof.
  intros S Mb G O Sv T Nt. destruct (hlc_now_eq wall walls s n (cs_room _ _ _ S)) as (h & s1 & E & L & U & _).
  destruct (join_stamp rt rt_or rt_plain (hlc_word s) r h node_id ttl O L U node_range (proj1 T)) as (Os & J1 & J2 & J3 & J4).
  destruct (write_elem_rec n del s m (stamp_rec rt h node_id r ttl) (erec_join r (stamp_rec rt h node_id r ttl)) s1 h S Mb E) as (s' & Wr & S' & Wo & Hp).
  - rewrite G. exists r. split_and!; try done; [apply O|]. pose proof (oo_clock _ _ _ O). lia.
  - done.
  - done.
  - by rewrite J3.
  - exists h, s1, s'. split; [done|]. split; [by rewrite (stamp_rec_bytes rt (hlc_word s))|]. split; [done|].
    apply Z.eqb_neq in Nt. rewrite Nt in Hp. split; [|done].
    replace (shown_rec del _) with (Some (v, ttl)) in Wo; [done|]. unfold shown_rec. rewrite J2, J3, J4, Sv. cbn [fst].
    rewrite (proj2 (Z.leb_gt h del)); [done|]. pose proof (cs_del _ _ _ S). lia.
Qed.
End coll.
