(* ===== verification/SetCmd.v ===== *)
(** * Sets ([crates/marekvs-engine/src/cmd/set.rs])

    The members of a set are element records with empty values.  Handlers are
    programs of the shard monad; fetching remote keys is not part of them, and
    the keys of the commands on several sets are taken to live on one shard.
    The iteration order of a [HashSet] is a parameter. *)

From Stdlib Require Import String.
From S2P Require Import Prelude Partition Hlc Envelope Ikey Counter Lattice Merge Store Resp Reply Glob Server ListCmd Generic.

Definition SET_USIZE_MAX : Z := 2 ^ 64 - 1.

Inductive SetOp :=
  | Union
  | Inter
  | Diff.
#[export] Instance SetOp_eq_dec : EqDecision SetOp.
Proof. solve_decision. Defined.

Section sets.
Context {DB : Type} `{!KV DB}.
Context (node_id : Z) (wall : nat -> Z).
(** [size_of::<Reply>()] and the order in which a [HashSet] yields its
    members. *)
Context (reply_size : Z) (hash_order : list bytes -> list bytes).

Definition set_del_hlc (key : bytes) : M DB (option Z) := check_type wall key CTYPE_SET.

(** The member a scanned record shows. *)
Definition shown_member (del now : Z) (k v : bytes) : rust (option bytes) :=
  let! p := parse k in
  match p, Envelope_decode v with
  | Some p, Some (env, pay) =>
      match visible env pay del now with
      | None => Ret None
      | Some _ => let! x := element_value pay in Ret (match x with Some _ => Some (pk_suffix p) | None => None end)
      end
  | _, _ => Ret None
  end.

Definition set_members_limited (key : bytes) (del limit : Z) : M DB (list bytes) :=
  now ← now_ms wall;
  if limit =? 0 then mret [] else
  scan_prefix (collection_prefix TSetMember key) (fun out k v =>
    let! m := shown_member del now k v in
    Ret (match m with
         | Some m => (out ++ [m], Z.of_nat (length (out ++ [m])) <? limit)
         | None => (out, true)
         end)) [].
Definition set_members (key : bytes) (del : Z) : M DB (list bytes) := set_members_limited key del SET_USIZE_MAX.

(** The closure [collect]: the members found and the last key visited. *)
Definition collect_member (del now limit : Z) (acc : list bytes * option bytes) (k v : bytes)
    : rust ((list bytes * option bytes) * bool) :=
  let! m := shown_member del now k v in
  let out := match m with Some m => acc.1 ++ [m] | None => acc.1 end in
  Ret ((out, Some k), Z.of_nat (length out) <? limit).

Definition pop_candidates (key : bytes) (del limit : Z) : M DB (list bytes) :=
  let prefix := collection_prefix TSetMember key in
  now ← now_ms wall;
  hint ← get_pop_hint prefix;
  match hint with
  | Some Empty => mret []
  | _ =>
      r ← match hint with
          | Some (At h) =>
              r ← scan_from h prefix (collect_member del now limit) ([], None);
              if bool_decide (r.1 = []) then
                _ ← clear_pop_hint prefix;
                scan_prefix prefix (collect_member del now limit) r
              else mret r
          | _ => scan_prefix prefix (collect_member del now limit) ([], None)
          end;
      _ ← (if bool_decide (r.1 = []) then set_pop_hint_empty prefix
           else match r.2 with Some lk => set_pop_hint prefix lk | None => mret tt end);
      mret r.1
  end.

Definition member_exists (key member : bytes) (del : Z) : M DB bool :=
  v ← get_raw (set_member_key key member);
  match v ≫= Envelope_decode with
  | None => mret false
  | Some (env, pay) =>
      now ← now_ms wall;
      match visible env pay del now with
      | None => mret false
      | Some _ => x ← lift (element_value pay); mret (bool_decide (is_Some x))
      end
  end.

Definition add_member (key member : bytes) : M DB unit :=
  h ← hlc_now wall;
  _ ← write_merged (set_member_key key member) (element_add SetMember h node_id []); mret tt.

Definition set_remove_member (key member : bytes) (del : Z) : M DB bool :=
  let ik := set_member_key key member in
  v ← get_raw ik;
  match v ≫= Envelope_decode with
  | None => mret false
  | Some (env, pay) =>
      now ← now_ms wall;
      match visible env pay del now with
      | None => mret false
      | Some _ =>
          x ← lift (element_value pay);
          match x with
          | None => mret false
          | Some _ =>
              ds ← lift (element_dots pay);
              h ← hlc_now wall;
              _ ← write_merged ik (element_remove SetMember h node_id ds); mret true
          end
      end
  end.

(** ** Handlers *)

Definition on_set (key : bytes) (f : Z -> M DB Reply) : M DB Reply :=
  d ← set_del_hlc key; match d with None => mret wrongtype | Some del => f del end.

Fixpoint sadd_loop (key : bytes) (del : Z) (members : list bytes) (added : Z) : M DB Z :=
  match members with
  | [] => mret added
  | m :: members =>
      b ← member_exists key m del;
      _ ← add_member key m;
      sadd_loop key del members (if (b : bool) then added else added + 1)
  end.
Definition sadd (key : bytes) (members : list bytes) : M DB Reply :=
  on_set key (fun del =>
    _ ← ensure_head node_id wall key CTYPE_SET;
    n ← sadd_loop key del members 0; mret (RInt n)).

Fixpoint srem_loop (key : bytes) (del : Z) (members : list bytes) (n : Z) : M DB Z :=
  match members with
  | [] => mret n
  | m :: members => b ← set_remove_member key m del; srem_loop key del members (if (b : bool) then n + 1 else n)
  end.
Definition srem (key : bytes) (members : list bytes) : M DB Reply :=
  on_set key (fun del => n ← srem_loop key del members 0; mret (RInt n)).

Definition scard (key : bytes) : M DB Reply :=
  on_set key (fun del => ms ← set_members key del; mret (RInt (Z.of_nat (length ms)))).

Definition as_int (b : bool) : Reply := RInt (if b then 1 else 0).
Definition sismember (key member : bytes) : M DB Reply :=
  on_set key (fun del => b ← member_exists key member del; mret (as_int b)).
Fixpoint exists_each (key : bytes) (del : Z) (members : list bytes) : M DB (list bool) :=
  match members with
  | [] => mret []
  | m :: members => b ← member_exists key m del; bs ← exists_each key del members; mret (b :: bs)
  end.
Definition smismember (key : bytes) (members : list bytes) : M DB Reply :=
  on_set key (fun del => bs ← exists_each key del members; mret (RArray (map as_int bs))).

Definition smembers (key : bytes) : M DB Reply :=
  on_set key (fun del => ms ← set_members key del; mret (RSet (map RBulk ms))).

Fixpoint spop_loop (key : bytes) (del : Z) (victims popped : list bytes) : M DB (list bytes) :=
  match victims with
  | [] => mret popped
  | m :: victims =>
      b ← set_remove_member key m del;
      spop_loop key del victims (if (b : bool) then popped ++ [m] else popped)
  end.
Definition spop (key : bytes) (count : option Z) : M DB Reply :=
  on_set key (fun del =>
    victims ← pop_candidates key del (default 1 count);
    if bool_decide (victims = []) then mret (match count with None => RNull | Some _ => RSet [] end) else
    popped ← spop_loop key del victims [];
    mret (match count with None => bulk_or_null (last popped) | Some _ => RSet (map RBulk popped) end)).

Definition srandmember (key : bytes) (count : option Z) : M DB Reply :=
  on_set key (fun del =>
    let want := match count with None => 1 | Some n => Z.abs n end in
    members ← set_members_limited key del (Z.max want 1);
    match members with
    | [] => mret (match count with None => RNull | Some _ => RArray [] end)
    | m0 :: _ =>
        match count with
        | None => mret (RBulk m0)
        | Some n =>
            let take_ := if n <? 0 then want else Z.min want (Z.of_nat (length members)) in
            _ ← with_capacity reply_size take_;
            mret (RArray (map (fun i => RBulk (default [] (members !! (i mod length members)%nat))) (seq 0 (Z.to_nat take_))))
        end
    end).

Definition sscan (key : bytes) (pattern : option bytes) : M DB Reply :=
  on_set key (fun del =>
    ms ← set_members key del;
    mret (RArray [RBulk (str "0"); RArray (map RBulk (List.filter (matches pattern) ms))])).

Definition smove (src dst member : bytes) : M DB Reply :=
  d ← set_del_hlc src;
  match d with
  | None => mret wrongtype
  | Some del =>
      removed ← set_remove_member src member del;
      if (removed : bool) then
        d ← set_del_hlc dst;
        match d with
        | None => mret wrongtype
        | Some _ =>
            _ ← ensure_head node_id wall dst CTYPE_SET;
            _ ← add_member dst member; mret (RInt 1)
        end
      else mret (RInt 0)
  end.

(** [Err(())] is [None]. *)
Definition members_of (key : bytes) : M DB (option (list bytes)) :=
  d ← set_del_hlc key;
  match d with None => mret None | Some del => ms ← set_members key del; mret (Some ms) end.

Definition combine (op : SetOp) (cur members : list bytes) : list bytes :=
  match op with
  | Union => fold_left (fun cur m => if bool_decide (m ∈ cur) then cur else cur ++ [m]) (hash_order members) cur
  | Inter => List.filter (fun m => bool_decide (m ∈ members)) cur
  | Diff => List.filter (fun m => negb (bool_decide (m ∈ members))) cur
  end.
Fixpoint setop_loop (op : SetOp) (keys : list bytes) (acc : option (list bytes)) : M DB (option (list bytes)) :=
  match keys with
  | [] => mret (Some (default [] acc))
  | k :: keys =>
      ms ← members_of k;
      match ms with
      | None => mret None
      | Some ms => setop_loop op keys (Some (match acc with None => ms | Some cur => combine op cur ms end))
      end
  end.
Definition setop (op : SetOp) (keys : list bytes) : M DB Reply :=
  r ← setop_loop op keys None;
  mret (match r with None => wrongtype | Some ms => RSet (map RBulk ms) end).

Fixpoint remove_all (key : bytes) (del : Z) (members : list bytes) : M DB unit :=
  match members with
  | [] => mret tt
  | m :: members => _ ← set_remove_member key m del; remove_all key del members
  end.
Fixpoint add_all (key : bytes) (members : list bytes) : M DB unit :=
  match members with
  | [] => mret tt
  | m :: members => _ ← add_member key m; add_all key members
  end.
Definition setop_store (op : SetOp) (dst : bytes) (keys : list bytes) : M DB Reply :=
  r ← setop_loop op keys None;
  match r with
  | None => mret wrongtype
  | Some res =>
      on_set dst (fun del =>
        old ← set_members dst del;
        _ ← remove_all dst del old;
        _ ← (if bool_decide (res = []) then mret tt else _ ← ensure_head node_id wall dst CTYPE_SET; mret tt);
        _ ← add_all dst res;
        mret (RInt (Z.of_nat (length res))))
  end.

Fixpoint sintercard_loop (keys : list bytes) (acc : option (gset bytes)) : M DB (option (option (gset bytes))) :=
  match keys with
  | [] => mret (Some acc)
  | k :: keys =>
      ms ← members_of k;
      match ms with
      | None => mret None
      | Some ms =>
          sintercard_loop keys (Some (match acc with None => list_to_set ms | Some cur => cur ∩ list_to_set ms end))
      end
  end.
Definition sintercard (keys : list bytes) (limit : Z) : M DB Reply :=
  r ← sintercard_loop keys None;
  mret (match r with
        | None => wrongtype
        | Some acc => RInt (match acc with None => 0 | Some s => Z.min (Z.of_nat (size s)) limit end)
        end).

(** ** The argument layer *)

Definition sadd_args (args : list bytes) : M DB Reply :=
  match args with _ :: key :: (_ :: _ as ms) => sadd key ms | _ => mret (wrong_args "sadd") end.
Definition srem_args (args : list bytes) : M DB Reply :=
  match args with _ :: key :: (_ :: _ as ms) => srem key ms | _ => mret (wrong_args "srem") end.
Definition scard_args (args : list bytes) : M DB Reply :=
  match args with [_; key] => scard key | _ => mret (wrong_args "scard") end.
Definition sismember_args (args : list bytes) : M DB Reply :=
  match args with [_; key; m] => sismember key m | _ => mret (wrong_args "sismember") end.
Definition smismember_args (args : list bytes) : M DB Reply :=
  match args with _ :: key :: (_ :: _ as ms) => smismember key ms | _ => mret (wrong_args "smismember") end.
Definition smembers_args (args : list bytes) : M DB Reply :=
  match args with [_; key] => smembers key | _ => mret (wrong_args "smembers") end.
Definition spop_args (args : list bytes) : M DB Reply :=
  match args with
  | [_; key] => spop key None
  | [_; key; n] => match parse_u64 n with Some n => spop key (Some n) | None => mret not_int end
  | _ => mret (wrong_args "spop")
  end.
Definition srandmember_args (args : list bytes) : M DB Reply :=
  match args with
  | [_; key] => srandmember key None
  | [_; key; n] => srandmember key (parse_i64 n)
  | _ => mret (wrong_args "srandmember")
  end.
(** [None] is a syntax error. *)
Fixpoint sscan_opts (args : list bytes) (pattern : option bytes) : option (option bytes) :=
  match args with
  | [] => Some pattern
  | a :: rest =>
      if eq_ignore_case a "MATCH" then match rest with [] => Some None | p :: rest => sscan_opts rest (Some p) end
      else if eq_ignore_case a "COUNT" then match rest with [] => Some pattern | _ :: rest => sscan_opts rest pattern end
      else None
  end.
Definition sscan_args (args : list bytes) : M DB Reply :=
  match args with
  | _ :: key :: _ :: opts => match sscan_opts opts None with Some p => sscan key p | None => mret syntax end
  | _ => mret (wrong_args "sscan")
  end.
Definition smove_args (args : list bytes) : M DB Reply :=
  match args with [_; src; dst; m] => smove src dst m | _ => mret (wrong_args "smove") end.
Definition setop_args (op : SetOp) (store_dst : bool) (args : list bytes) : M DB Reply :=
  match store_dst, args with
  | true, _ :: dst :: (_ :: _ as keys) => setop_store op dst keys
  | false, _ :: (_ :: _ as keys) => setop op keys
  | _, _ => mret (wrong_args "sunion")
  end.
Definition sintercard_args (args : list bytes) : M DB Reply :=
  match args with
  | _ :: n :: (_ :: _ as rest) =>
      match parse_u64 n with
      | None => mret not_int
      | Some numkeys =>
          if (numkeys =? 0) || (Z.of_nat (length rest) <? numkeys) then mret syntax else
          let keys := take (Z.to_nat numkeys) rest in
          match drop (Z.to_nat numkeys) rest with
          | [] => sintercard keys SET_USIZE_MAX
          | a :: opts =>
              if negb (eq_ignore_case a "LIMIT") then mret syntax else
              match (match opts with [] => None | l :: _ => parse_u64 l end) with
              | None => mret not_int
              | Some l => sintercard keys (if l =? 0 then SET_USIZE_MAX else l)
              end
          end
      end
  | _ => mret (wrong_args "sintercard")
  end.
End sets.
