(* ===== verification/SetLaws.v ===== *)
(** * Set commands refine a finite set

    [mstep] is the abstract specification of the set commands on one key: the
    reply and the set after, from the set before. The handlers of [SetCmd]
    implement it over any run on one node, whatever pop position is cached and
    whatever removed members have left behind. *)

From Stdlib Require Import String.
From S2P Require Import Prelude Partition Hlc Envelope Ikey Counter Lattice Merge MergeLaws Store Resp Reply Glob Server.
From S2P Require Import ListCmd ListLaws ListRefine Generic GenericLaws ElemLaws SetCmd.

(** ** The abstract set *)

Inductive mop :=
  | OAdd (ms : list bytes)
  | ORemove (ms : list bytes)
  | OCard
  | OIsMember (m : bytes)
  | OAreMembers (ms : list bytes)
  | OMembers
  | OPopMember (count : option Z)
  | ORandom (count : option Z)
  | OScan (pattern : option bytes).

(** A window of members read round and round. *)
Definition cycle (l : list bytes) (n : nat) : list bytes := map (fun i => default [] (l !! (i mod length l)%nat)) (seq 0 n).

Definition mstep (o : mop) (X : gset bytes) : Reply * gset bytes :=
  match o with
  | OAdd ms => (RInt (Z.of_nat (size (list_to_set ms ∖ X))), X ∪ list_to_set ms)
  | ORemove ms => (RInt (Z.of_nat (size (X ∩ list_to_set ms))), X ∖ list_to_set ms)
  | OCard => (RInt (Z.of_nat (size X)), X)
  | OIsMember m => (as_int (bool_decide (m ∈ X)), X)
  | OAreMembers ms => (RArray (map (fun m => as_int (bool_decide (m ∈ X))) ms), X)
  | OMembers => (RSet (map RBulk (sorted X)), X)
  | OPopMember None => (bulk_or_null (head (sorted X)), X ∖ list_to_set (take 1 (sorted X)))
  | OPopMember (Some n) =>
      let popped := take (Z.to_nat n) (sorted X) in (RSet (map RBulk popped), X ∖ list_to_set popped)
  | ORandom None => (bulk_or_null (head (sorted X)), X)
  | ORandom (Some n) =>
      let window := take (Z.to_nat (Z.abs n)) (sorted X) in
      (RArray (map RBulk (if n <? 0 then if bool_decide (X = ∅) then [] else cycle window (Z.to_nat (- n)) else window)), X)
  | OScan pattern => (RArray [RBulk (str "0"); RArray (map RBulk (List.filter (matches pattern) (sorted X)))], X)
  end.

Fixpoint mrun (os : list mop) (X : gset bytes) : list Reply * gset bytes :=
  match os with
  | [] => ([], X)
  | o :: os => let (r, X1) := mstep o X in let (rs, X2) := mrun os X1 in (r :: rs, X2)
  end.

(** Clock ticks an operation takes: one per record written. *)
Definition mcost (o : mop) (X : gset bytes) : nat :=
  match o with
  | OAdd ms => S (length ms)
  | ORemove ms => length ms
  | OPopMember count => length (take (Z.to_nat (default 1 count)) (sorted X))
  | _ => 0
  end.
Fixpoint mrun_cost (os : list mop) (X : gset bytes) : nat :=
  match os with
  | [] => 0
  | o :: os => mcost o X + mrun_cost os (mstep o X).2
  end.

Section handlers.
Context {DB : Type} `{!KV DB} (key : bytes) (node_id : Z) (wall : nat -> Z) (reply_size : Z).

Definition run_mop (o : mop) : M DB Reply :=
  match o with
  | OAdd ms => sadd node_id wall key ms
  | ORemove ms => srem node_id wall key ms
  | OCard => scard wall key
  | OIsMember m => sismember wall key m
  | OAreMembers ms => smismember wall key ms
  | OMembers => smembers wall key
  | OPopMember count => spop node_id wall key count
  | ORandom count => srandmember wall reply_size key count
  | OScan pattern => sscan wall key pattern
  end.
Fixpoint run_mops (os : list mop) : M DB (list Reply) :=
  match os with
  | [] => mret []
  | o :: os => r ← run_mop o; rs ← run_mops os; mret (r :: rs)
  end.
End handlers.

Section refine.
Context {DB : Type} `{KVLaws DB}.
Context (key : bytes) (key_len : slice_len_ok key) (key_bytes : is_bytes key).
Context (node_id : Z) (wall : nat -> Z) (node_range : u16 node_id) (walls : forall n, 0 <= wall n < 2 ^ 47).

Abbreviation member_key := (elem_key TSetMember key).
Abbreviation member_prefix := (elem_prefix TSetMember key).
Abbreviation coll_wf := (coll_wf TSetMember SetMember key wall).
Abbreviation coll_state := (coll_state TSetMember SetMember key wall).
Abbreviation at_elem := (at_elem TSetMember key).
Abbreviation entries := (entries TSetMember key).
Abbreviation entry_of := (entry_of TSetMember key).

Definition set_is (X : gset bytes) (d : DB) (del : Z) : Prop := forall m, m ∈ X <-> is_Some (at_elem d del m).

(** The cached pop position: no member lies before it, and a set known to be
    drained is empty. *)
Definition hint_sound (X : gset bytes) (hints : gmap bytes bytes) : Prop :=
  match hints !! member_prefix with
  | None => True
  | Some [] => X = ∅
  | Some h => (exists m, h = member_key m) /\ forall m, m ∈ X -> bytes_cmp h (member_key m) <> Gt
  end.

(** The state the commands work in: [n] clock ticks are left. *)
Record set_core (n : nat) (X : gset bytes) (del : Z) (s : Shard DB) : Prop := {
  vc_typed : coll_typed key CTYPE_SET del (db s) (hlc_word s);
  vc_state : coll_state n del s;
  vc_is : set_is X (db s) del;
  vc_fits : Z.of_nat (size X + n) < 2 ^ 63;
}.
Definition set_inv (n : nat) (X : gset bytes) (del : Z) (s : Shard DB) : Prop := set_core n X del s /\ hint_sound X (pop_hints s).

Lemma core_same n X del s s' : db s' = db s -> hlc_word s' = hlc_word s -> set_core n X del s -> set_core n X del s'.
Proof.
  intros Ed Ew [T [W R D] I F]. split; [by rewrite Ed, Ew| |by rewrite Ed|done]. split; [by rewrite Ed, Ew| |lia]. unfold room. by rewrite Ew.
Qed.
Lemma set_quiet n X del s s' : quiet s s' -> set_inv n X del s -> set_inv n X del s'.
Proof. intros (Ed & Eh & Ew) [C Hi]. split; [by eapply core_same|by rewrite Eh]. Qed.
Lemma set_tick n X del s : set_inv n X del s -> set_inv n X del (tick s).
Proof. apply set_quiet, quiet_tick. Qed.
Lemma core_weaken n m X del s : (n <= m)%nat -> set_core m X del s -> set_core n X del s.
Proof. intros L [T S I F]. split; [done|by eapply coll_weaken|done|lia]. Qed.
Lemma set_weaken n m X del s : (n <= m)%nat -> set_inv m X del s -> set_inv n X del s.
Proof. intros L [C Hi]. split; [by eapply core_weaken|done]. Qed.

Lemma on_set_eq n X del s f : set_inv n X del s -> on_set wall key f s = f del (tick s).
Proof.
  intros [[T _ _ _] _]. unfold on_set, set_del_hlc, mbind, M_bind. by rewrite (check_type_coll key CTYPE_SET eq_refl wall del s _ T).
Qed.

Lemma members_sorted n X del s : set_core n X del s -> fst <$> entries (db s) del = sorted X.
Proof.
  intros [_ [[B _] _ _] I _]. unfold set_is in I. apply sorted_eq; [by apply entries_sorted|]. intros m. rewrite (I m), list_elem_of_fmap. split.
  - intros ([m' x] & -> & J). apply entries_spec in J; [|done]. eauto.
  - intros [x E]. exists (m, x). split; [done|]. by apply entries_spec.
Qed.

(** ** Reading *)

Lemma member_exists_eq n X del s m : set_core n X del s -> exists s',
  member_exists wall key m del s = Ret (bool_decide (m ∈ X), s') /\ quiet s s'.
Proof.
  intros [_ [W _ _] I _]. unfold member_exists, mbind, M_bind, get_raw, reads. cbn [rust_bind fst snd].
  change (set_member_key key m) with (member_key m). pose proof (I m) as Im.
  destruct (elem_cases TSetMember SetMember key wall (db s) (hlc_word s) del m W) as [G A|r O T G A V|r v O T G A Sv V]; rewrite G, A in *;
    cbn [option_bind].
  - exists s. split; [|done]. rewrite bool_decide_eq_false_2; [done|]. rewrite Im. by intros [? ?].
  - destruct (own_reads SetMember _ r O) as (-> & _). unfold now_ms. cbn [rust_bind fst snd]. rewrite V. eexists. split; [|apply quiet_tick].
    rewrite bool_decide_eq_false_2; [done|]. rewrite Im. by intros [? ?].
  - destruct (own_reads SetMember _ r O) as (-> & Ev & _). unfold now_ms, lift. cbn [rust_bind fst snd]. rewrite V, Ev. cbn [rust_bind fst snd].
    eexists. split; [|apply quiet_tick]. rewrite Sv, !bool_decide_eq_true_2; [done|rewrite Im; eauto|eauto].
Qed.

(** A record the scan meets. *)
Definition good_entry (w : Z) (e : bytes * bytes) : Prop :=
  exists m r, e.1 = member_key m /\ own_ok SetMember w r /\ in_time wall (er_ttl r) /\ e.2 = erec_bytes r.

Lemma shown_member_eq w del n e : good_entry w e -> shown_member del (wall n) e.1 e.2 = Ret (fst <$> entry_of del e).
Proof.
  destruct e as [k b]. intros (m & r & Ek & O & T & Eb). cbn [fst snd] in *. subst k b. unfold shown_member. rewrite (parse_elem TSetMember eq_refl key key_len m). cbn [rust_bind].
  destruct (own_reads SetMember _ r O) as (-> & Ev & _). unfold ElemLaws.entry_of. cbn [fst snd].
  rewrite elem_suffix, (shown_own SetMember w r del O). unfold shown_rec, visible.
  rewrite erec_env_tombstone, (in_time_env wall _ (er_ttl r)) by done. change (hlc (erec_env r)) with (er_ver r).1.
  rewrite orb_false_r. unfold is_dead, st_value in *. destruct (_ <=? del); [by rewrite orb_true_r|]. rewrite orb_false_r.
  destruct (live (er_st r)); [done|]. by rewrite Ev.
Qed.
(** The records from a position at or before every member. *)
Definition from (d : DB) (lower : bytes) : list (bytes * bytes) := kv_range d lower (prefix_upper_bound member_prefix).

Lemma prefix_le m : bytes_cmp member_prefix (member_key m) <> Gt.
Proof.
  unfold elem_key, elem_prefix. rewrite prefixed_split. rewrite <- (app_nil_r (collection_prefix _ _)) at 1.
  rewrite bytes_cmp_app_same. by destruct m.
Qed.

Lemma from_good n X del s m0 e : set_core n X del s -> e ∈ from (db s) (member_key m0) ->
  starts_with e.1 member_prefix = true /\ good_entry (hlc_word s) e.
Proof.
  destruct e as [k b]. intros [_ [W _ _] _ _] (G & L & B)%kv_range_spec. pose proof W as [Wb We].
  assert (P : starts_with k member_prefix = true).
  { apply prefix_interval; [by eapply Wb|]. split; [|done]. apply (member_le_trans _ (member_key m0)); [apply prefix_le|done]. }
  split; [done|]. apply under_prefix in P as (m & ->). destruct (We m b G) as (r & O & T & ->). by exists m, r.
Qed.

Lemma from_members n X del s m0 : set_core n X del s -> (forall m, m ∈ X -> bytes_cmp (member_key m0) (member_key m) <> Gt) ->
  fst <$> omap (entry_of del) (from (db s) (member_key m0)) = sorted X.
Proof.
  intros I Lo. apply sorted_eq.
  - apply omap_sorted; [|apply kv_range_sorted]. apply Forall_forall. intros e J. destruct (from_good n X del s m0 e I J) as (_ & m & r & -> & _). eauto.
  - intros m. pose proof I as [_ [[B _] _ _] Is _]. rewrite (Is m), list_elem_of_fmap. split.
    + intros ([m' x] & -> & J). apply list_elem_of_omap in J as ([k b] & J & E). pose proof (from_good n X del s m0 _ I J) as (_ & q & r & Ek & _).
      cbn [fst] in Ek. subst k. apply kv_range_spec in J as (G & _). unfold ElemLaws.entry_of in E. cbn [fst snd] in E. rewrite elem_suffix in E.
      apply fmap_Some in E as (y & E & [= -> ->]). exists y. cbn [fst]. unfold ElemLaws.at_elem. by rewrite G.
    + intros [x E]. unfold ElemLaws.at_elem in E. destruct (kv_get (db s) (member_key m)) as [b|] eqn:G; [|done]. cbn [mbind option_bind] in E.
      exists (m, x). split; [done|]. apply list_elem_of_omap. exists (member_key m, b). split.
      * apply kv_range_spec. split; [done|]. split; [apply Lo, Is; exists x; unfold ElemLaws.at_elem; by rewrite G|].
        apply prefix_interval; [by eapply B|]. apply under_prefix. eauto.
      * unfold ElemLaws.entry_of. cbn [fst snd]. by rewrite elem_suffix, E.
Qed.

Definition scannable (w : Z) (l : list (bytes * bytes)) : Prop :=
  Forall (fun e => starts_with e.1 member_prefix = true /\ good_entry w e) l.

(** The bounded walk of the readers. *)
Lemma members_loop w del n limit l : scannable w l -> forall out, Z.of_nat (length out) < limit ->
  scan_loop member_prefix (fun out k v =>
    let! m := shown_member del (wall n) k v in
    Ret (match m with
         | Some m => (out ++ [m], Z.of_nat (length (out ++ [m])) <? limit)
         | None => (out, true)
         end)) out l = Ret (out ++ take (Z.to_nat limit - length out) (fst <$> omap (entry_of del) l)).
Proof.
  induction 1 as [|[k v] l [P Gd] F IH]; intros out L; [simpl; by rewrite take_nil, app_nil_r|]. cbn [fst] in P.
  cbn [scan_loop]. rewrite P. cbn [negb]. pose proof (shown_member_eq w del n (k, v) Gd) as E. cbn [fst snd] in E. rewrite E. cbn [rust_bind].
  cbn [omap list_omap]. destruct (entry_of del (k, v)) as [[m x]|]; cbn [fmap option_fmap option_map fst]; [|cbn [rust_bind fst snd]; by apply IH].
  cbn [rust_bind fst snd list_fmap]. rewrite length_app. simpl length.
  replace (Z.to_nat limit - length out)%nat with (S (Z.to_nat limit - length (out ++ [m]))) by (rewrite length_app; simpl; lia).
  cbn [take firstn]. destruct (_ <? limit) eqn:Le; [apply Z.ltb_lt in Le|apply Z.ltb_ge in Le].
  - rewrite IH by (rewrite length_app; simpl; lia). by rewrite <- app_assoc.
  - replace (Z.to_nat limit - length (out ++ [m]))%nat with O by (rewrite length_app; simpl; lia). done.
Qed.

(** The walk of a pop: what it takes, and a position before what it leaves. *)
Lemma collect_member_loop w del n limit l : scannable w l -> StronglySorted key_lt l -> forall out last, Z.of_nat (length out) < limit ->
  let ms : list bytes := fst <$> omap (entry_of del) l in
  exists last' : option bytes, scan_loop member_prefix (collect_member del (wall n) limit) (out, last) l =
      Ret (out ++ take (Z.to_nat limit - length out) ms, last') /\
    match last' with
    | None => l = []
    | Some lk => (last' = last /\ l = []) \/ (exists m, lk = member_key m) /\
        forall m, m ∈ drop (Z.to_nat limit - length out) ms -> bytes_cmp lk (member_key m) <> Gt
    end.
Proof.
  intros F So. revert F. induction So as [|[k v] l So IH Lt]; intros F out last L ms.
  { exists last. unfold ms. cbn [omap list_omap fmap list_fmap scan_loop]. rewrite take_nil, app_nil_r. split; [done|]. destruct last; auto. }
  apply Forall_cons in F as [[P Gd] F]. cbn [fst] in P. specialize (IH F).
  cbn [scan_loop]. rewrite P. cbn [negb]. unfold collect_member at 1. pose proof (shown_member_eq w del n (k, v) Gd) as E. cbn [fst snd] in E.
  rewrite E. cbn [rust_bind fst snd].
  pose proof Gd as (mk & r & Ek & _). cbn [fst] in Ek.
  (** Members of the rest lie after [k]. *)
  assert (After : forall m, m ∈ fst <$> omap (entry_of del) l -> bytes_cmp k (member_key m) <> Gt).
  { intros m ([m' x] & -> & J)%list_elem_of_fmap. apply list_elem_of_omap in J as ([k' b] & J & Eq).
    pose proof (proj1 (Forall_forall _ _) Lt _ J) as K. destruct (proj1 (Forall_forall _ _) F _ J) as (_ & q & r' & Ek' & _).
    cbn [fst] in Ek'. subst k'. unfold ElemLaws.entry_of in Eq. cbn [fst snd] in Eq. rewrite elem_suffix in Eq. apply fmap_Some in Eq as (y & _ & [= -> _]).
    unfold key_lt in K. cbn [fst] in K |- *. by rewrite K. }
  unfold ms. cbn [omap list_omap]. destruct (entry_of del (k, v)) as [[m x]|] eqn:Em; cbn [fmap option_fmap option_map fst list_fmap].
  - rewrite length_app. simpl length.
    replace (Z.to_nat limit - length out)%nat with (S (Z.to_nat limit - length (out ++ [m]))) by (rewrite length_app; simpl; lia).
    cbn [take firstn drop skipn]. destruct (_ <? limit) eqn:Le; [apply Z.ltb_lt in Le|apply Z.ltb_ge in Le].
    + destruct (IH (out ++ [m]) (Some k)) as (last' & E' & K); [rewrite length_app; simpl; lia|]. exists last'.
      cbn zeta in E'. split; [rewrite E'; by rewrite <- app_assoc|].
      destruct last' as [lk|]; [|by subst]. destruct K as [[[= ->] ->]|K]; [|by right]. right. split; [eauto|]. simpl. rewrite drop_nil. set_solver.
    + replace (Z.to_nat limit - length (out ++ [m]))%nat with O by (rewrite length_app; simpl; lia). exists (Some k). split; [done|].
      right. split; [eauto|]. rewrite drop_0. exact After.
  - destruct (_ <? limit) eqn:Le; [|apply Z.ltb_ge in Le; lia].
    destruct (IH out (Some k) L) as (last' & E' & K). exists last'. split; [exact E'|].
    destruct last' as [lk|]; [|by subst]. destruct K as [[[= ->] ->]|K]; [|by right]. right. split; [eauto|]. simpl. rewrite drop_nil. set_solver.
Qed.

Lemma from_scannable n X del s m0 : set_core n X del s -> scannable (hlc_word s) (from (db s) (member_key m0)).
Proof. intros I. apply Forall_forall. intros e J. by eapply from_good. Qed.

Lemma members_limited_eq n X del s limit : set_core n X del s -> 1 <= limit ->
  set_members_limited wall key del limit s = Ret (take (Z.to_nat limit) (sorted X), tick s).
Proof.
  intros I L. unfold set_members_limited, mbind, M_bind, now_ms. cbn [rust_bind fst snd]. rewrite (proj2 (Z.eqb_neq limit 0)) by lia.
  unfold scan_prefix, scan_from. cbn [db].
  change (kv_range (db s) _ _) with (from (db s) (member_key [])).
  rewrite (members_loop (hlc_word s) del (ticks s) limit) by (by eapply from_scannable || (simpl; lia)).
  cbn [rust_bind app length]. rewrite Nat.sub_0_r, (from_members n X del s []) by (done || (intros m _; apply (prefix_le m))). done.
Qed.

Lemma set_members_eq n X del s : set_core n X del s -> set_members wall key del s = Ret (sorted X, tick s).
Proof.
  intros I. unfold set_members. rewrite (members_limited_eq n X) by (done || unfold SET_USIZE_MAX; lia).
  rewrite take_ge; [done|]. rewrite sorted_length. pose proof (vc_fits _ _ _ _ I). unfold SET_USIZE_MAX. lia.
Qed.

(** ** Writing *)

Lemma tag_frame del d d' w w' m : w <= w' -> Store.frame (member_key m) d d' -> coll_typed key CTYPE_SET del d w -> coll_typed key CTYPE_SET del d' w'.
Proof.
  intros L F. apply (typed_frame key CTYPE_SET eq_refl) with (w := w); [done..|]. intros k [->|[->| ->]]; apply F; intros E; apply (f_equal (.!! 2%nat)) in E; discriminate.
Qed.

Lemma add_member_eq n X del s m : set_core (S n) X del s -> is_bytes m -> exists s',
  add_member node_id wall key m s = Ret (tt, s') /\ set_core n (X ∪ {[m]}) del s' /\
  pop_hints s' = hint_on_insert member_prefix (member_key m) (pop_hints s).
Proof.
  intros [T S I F] Mb.
  destruct (elem_add_eq TSetMember eq_refl ltac:(done) SetMember eq_refl ltac:(done) key key_len key_bytes node_id wall node_range walls
    n del s m [] 0 S Mb ltac:(unfold value_len_ok; simpl; lia) (no_deadline wall)) as (h & s1 & s' & E & Wr & S' & (L & Fr & A) & Hp).
  exists s'. unfold add_member, mbind, M_bind. rewrite E. cbn [rust_bind fst snd].
  change (element_add SetMember h node_id []) with (element_add_ttl SetMember h node_id [] 0). change (set_member_key key m) with (member_key m). rewrite Wr.
  split; [done|]. split; [|exact Hp]. split; [eapply tag_frame; [|done|done]; lia|done| |].
  - intros q. rewrite A, elem_of_union, elem_of_singleton, (I q). destruct (decide (q = m)) as [->|Ne]; [split; eauto|]. tauto.
  - pose proof (size_union_alt X {[m]}) as Z1. assert (size ({[m]} ∖ X : gset bytes) <= 1)%nat; [|lia].
    transitivity (size ({[m]} : gset bytes)); [apply subseteq_size; set_solver|by rewrite size_singleton].
Qed.

Lemma remove_member_eq n X del s m : set_core (S n) X del s -> exists s',
  set_remove_member node_id wall key m del s = Ret (bool_decide (m ∈ X), s') /\ set_core n (X ∖ {[m]}) del s' /\ pop_hints s' = pop_hints s.
Proof.
  intros C. pose proof C as [T S I F]. unfold set_remove_member, mbind, M_bind, get_raw, reads. cbn [rust_bind fst snd].
  change (set_member_key key m) with (member_key m). pose proof (I m) as Im.
  assert (Out : m ∉ X -> forall s', db s' = db s -> hlc_word s' = hlc_word s -> set_core n (X ∖ {[m]}) del s').
  { intros N s' Ed Ew. replace (X ∖ {[m]}) with X by set_solver. apply (core_weaken n (Datatypes.S n)); [lia|]. by apply (core_same (Datatypes.S n) X del s). }
  destruct (elem_cases TSetMember SetMember key wall (db s) (hlc_word s) del m (cs_wf _ _ _ _ _ _ _ S)) as [G A|r O Tm G A V|r v O Tm G A Sv V];
    rewrite G, A in *; cbn [option_bind].
  - assert (N : m ∉ X) by (rewrite Im; by intros [? ?]). rewrite bool_decide_eq_false_2 by done. exists s. auto.
  - assert (N : m ∉ X) by (rewrite Im; by intros [? ?]). rewrite bool_decide_eq_false_2 by done.
    destruct (own_reads SetMember _ r O) as (-> & _). unfold now_ms. cbn [rust_bind fst snd]. rewrite V. eexists. split; [done|]. split; [by apply Out|done].
  - rewrite bool_decide_eq_true_2 by (rewrite Im; eauto).
    destruct (own_reads SetMember _ r O) as (-> & Ev & Ed). unfold now_ms, lift. cbn [rust_bind fst snd]. rewrite V, Ev. cbn [rust_bind fst snd].
    rewrite Sv, Ed. cbn [rust_bind fst snd]. fold (tick s).
    assert (St : coll_state (Datatypes.S n) del (tick s)) by (by eapply coll_quiet; [apply quiet_tick|]).
    assert (Mb : is_bytes m).
    { pose proof (cw_bytes _ _ _ _ _ _ (cs_wf _ _ _ _ _ _ _ S) _ _ G) as Kb. unfold elem_key in Kb. rewrite prefixed_split in Kb. apply is_bytes_app in Kb. apply Kb. }
    destruct (elem_remove_eq TSetMember eq_refl ltac:(done) SetMember eq_refl ltac:(done) key key_len key_bytes node_id wall node_range walls
      n del (tick s) m r St Mb G O) as (h & s1 & s' & E & Wr & S' & (L & Fr & A') & Hp).
    rewrite E. cbn [rust_bind fst snd]. rewrite Wr. cbn [rust_bind fst snd]. exists s'. split; [done|]. split; [|exact Hp].
    cbn [hlc_word tick] in L. split; [eapply tag_frame; [|done|done]; lia|done| |].
    + intros q. rewrite A', elem_of_difference, elem_of_singleton, (I q). destruct (decide (q = m)) as [->|Ne]; [split; [tauto|by intros [? ?]]|].
      change (db (tick s)) with (db s). tauto.
    + assert (size (X ∖ {[m]}) <= size X)%nat by (apply subseteq_size; set_solver). lia.
Qed.

Lemma member_key_cons m : exists b k, member_key m = b :: k.
Proof. unfold elem_key, prefixed, base. simpl. eauto. Qed.
Lemma hint_at X hints m : hints !! member_prefix = Some (member_key m) ->
  hint_sound X hints <-> forall q, q ∈ X -> bytes_cmp (member_key m) (member_key q) <> Gt.
Proof.
  intros E. unfold hint_sound. rewrite E. destruct (member_key_cons m) as (b & k & Em). rewrite Em. split; [tauto|]. rewrite <- Em. eauto.
Qed.

Lemma hint_insert X hints m : hint_sound X hints -> hint_sound (X ∪ {[m]}) (hint_on_insert member_prefix (member_key m) hints).
Proof.
  assert (Ins : (forall q, q ∈ X -> bytes_cmp (member_key m) (member_key q) <> Gt) -> hint_sound (X ∪ {[m]}) (<[member_prefix := member_key m]> hints)).
  { intros A. apply (hint_at _ _ m); [by rewrite lookup_insert_eq|]. intros q [Q|Q%elem_of_singleton]%elem_of_union; [by apply A|]. subst q. by rewrite bytes_cmp_refl. }
  unfold hint_on_insert. destruct (hints !! member_prefix) as [h|] eqn:E; [|intros _; unfold hint_sound; by rewrite E].
  intros S. pose proof S as S0. unfold hint_sound in S0. rewrite E in S0. destruct h as [|b h]; [subst X; cbn; apply Ins; set_solver|].
  destruct S0 as [(m0 & Em) A]. change (bytes_eqb (b :: h) []) with false. cbn [orb]. rewrite Em in *. unfold bytes_ltb.
  destruct (bytes_cmp (member_key m) (member_key m0)) eqn:C.
  2: { apply Ins. intros q Q. apply (member_le_trans _ (member_key m0)); [unfold member_le; by rewrite C|by apply A]. }
  all: apply (hint_at _ _ m0); [done|]; intros q [Q|Q%elem_of_singleton]%elem_of_union; [by apply A|]; subst q; by rewrite bytes_cmp_antisym, C.
Qed.
Lemma hint_subset X Y hints : Y ⊆ X -> hint_sound X hints -> hint_sound Y hints.
Proof.
  intros L. unfold hint_sound. destruct (hints !! member_prefix) as [[|b h]|]; [set_solver|intros [E A]; split; [done|]; set_solver|done].
Qed.

(** ** Popping *)

Lemma take_sorted_empty X limit : 1 <= limit -> take (Z.to_nat limit) (sorted X) = [] <-> X = ∅.
Proof.
  intros L. rewrite <- sorted_nil. split; [|by intros ->; rewrite take_nil]. destruct (sorted X); [done|]. by replace (Z.to_nat limit) with (S (Z.to_nat (limit - 1))) by lia.
Qed.

Lemma pop_scan n X del s now m0 limit last : set_core n X del s -> 1 <= limit ->
  (forall m, m ∈ X -> bytes_cmp (member_key m0) (member_key m) <> Gt) ->
  exists last', scan_from (member_key m0) member_prefix (collect_member del (wall now) limit) ([], last) s =
      Ret ((take (Z.to_nat limit) (sorted X), last'), s) /\
    (X <> ∅ -> exists lk, last' = Some lk /\ (exists m, lk = member_key m) /\
       forall m, m ∈ X ∖ list_to_set (take (Z.to_nat limit) (sorted X)) -> bytes_cmp lk (member_key m) <> Gt).
Proof.
  intros I L Lo. destruct (collect_member_loop (hlc_word s) del now limit (from (db s) (member_key m0)) (from_scannable n X del s m0 I)
    (kv_range_sorted _ _ _) [] last) as (last' & E & K); [simpl; lia|]. cbn zeta in E. exists last'. unfold scan_from. fold (from (db s) (member_key m0)).
  rewrite E. cbn [rust_bind app length]. rewrite Nat.sub_0_r. rewrite Nat.sub_0_r, (from_members n X del s m0) in K by done.
  rewrite (from_members n X del s m0) by done. split; [done|]. intros Ne.
  assert (Nl : from (db s) (member_key m0) <> []).
  { intros El. pose proof (from_members n X del s m0 I Lo) as Es. rewrite El in Es. by symmetry in Es; apply sorted_nil in Es. }
  destruct last' as [lk|]; [|done]. destruct K as [[_ El]|[Ek K]]; [done|]. exists lk. split; [done|]. split; [done|]. intros m [Im Nm]%elem_of_difference. apply K.
  apply sorted_elem in Im. rewrite <- (take_drop (Z.to_nat limit)) in Im. apply elem_of_app in Im as [Im|Im]; [|done]. destruct Nm. by apply elem_of_list_to_set.
Qed.

Lemma pop_candidates_eq n X del s limit : set_inv n X del s -> 1 <= limit ->
  let popped := take (Z.to_nat limit) (sorted X) in
  exists s', pop_candidates wall key del limit s = Ret (popped, s') /\ set_core n X del s' /\
    hint_sound (X ∖ list_to_set popped) (pop_hints s').
Proof.
  intros [C Hi] L popped. unfold pop_candidates. change (collection_prefix TSetMember key) with member_prefix.
  assert (Fin : forall s0 last, db s0 = db s -> hlc_word s0 = hlc_word s ->
    (X <> ∅ -> exists lk, last = Some lk /\ (exists m, lk = member_key m) /\ forall m, m ∈ X ∖ list_to_set popped -> bytes_cmp lk (member_key m) <> Gt) ->
    exists s', (_ ← (if bool_decide (popped = []) then set_pop_hint_empty member_prefix
                     else match last with Some lk => set_pop_hint member_prefix lk | None => mret tt end); mret popped) s0 = Ret (popped, s') /\
      set_core n X del s' /\ hint_sound (X ∖ list_to_set popped) (pop_hints s')).
  { intros s0 last Ed Ew K. case_bool_decide as Ep.
    - apply take_sorted_empty in Ep; [|done]. exists (mkShard (db s0) (hlc_word s0) (<[member_prefix := []]> (pop_hints s0)) (ticks s0)).
      split; [done|]. split; [by apply (core_same n X del s)|]. unfold hint_sound. cbn [pop_hints]. rewrite lookup_insert_eq. set_solver.
    - destruct K as (lk & -> & (m & ->) & K); [intros ->; apply Ep, (take_sorted_empty ∅ limit L); done|]. exists (mkShard (db s0) (hlc_word s0) (<[member_prefix := member_key m]> (pop_hints s0)) (ticks s0)).
      split; [done|]. split; [by apply (core_same n X del s)|]. apply (hint_at _ _ m); [by cbn [pop_hints]; rewrite lookup_insert_eq|done]. }
  assert (Low : forall m : bytes, m ∈ X -> bytes_cmp (member_key []) (member_key m) <> Gt) by (intros m _; apply (prefix_le m)).
  assert (Ct : set_core n X del (tick s)) by (by apply (core_same n X del s)).
  unfold mbind at 1, M_bind at 1, now_ms at 1. cbn [rust_bind fst snd]. fold (tick s). unfold mbind at 1, M_bind at 1, get_pop_hint. cbn [rust_bind fst snd].
  unfold hint_sound in Hi. change (pop_hints (tick s)) with (pop_hints s).
  destruct (pop_hints s !! member_prefix) as [[|b h]|] eqn:Eh; cbn [fmap option_fmap option_map].
  - subst X. exists (tick s). split; [unfold popped; by rewrite (proj2 (take_sorted_empty ∅ limit L) eq_refl)|]. split; [done|]. unfold hint_sound. change (pop_hints (tick s)) with (pop_hints s). rewrite Eh. set_solver.
  - destruct Hi as [(m0 & Em) Lo]. rewrite Em in *.
    destruct (pop_scan n X del (tick s) (ticks s) m0 limit None Ct L Lo) as (last' & E & K). unfold mbind at 1, M_bind at 1. unfold mbind at 1, M_bind at 1.
    rewrite E. cbn [rust_bind fst snd]. fold popped. fold popped in K. destruct (decide (popped = [])) as [Ep'|Ep'];
      [rewrite bool_decide_eq_true_2 by done|rewrite bool_decide_eq_false_2 by done; exact (Fin (tick s) last' eq_refl eq_refl K)].
    unfold mbind at 1, M_bind at 1, clear_pop_hint, hint_update. cbn [rust_bind fst snd].
    match goal with |- context [scan_prefix _ _ _ ?s0] => set (s2 := s0) end.
    destruct (pop_scan n X del s2 (ticks s) [] limit last') as (last2 & E2 & K2); [by apply (core_same n X del s)|done|done|].
    fold popped in E2, K2. unfold scan_prefix. replace (popped, last') with (@nil bytes, last') by (by rewrite Ep'). 
    rewrite (E2 : scan_from member_prefix member_prefix _ _ _ = _). cbn [rust_bind fst snd]. exact (Fin s2 last2 eq_refl eq_refl K2).
  - destruct (pop_scan n X del (tick s) (ticks s) [] limit None Ct L Low) as (last' & E & K). unfold mbind at 1, M_bind at 1. unfold scan_prefix.
    rewrite (E : scan_from member_prefix member_prefix _ _ _ = _). cbn [rust_bind fst snd]. by apply (Fin (tick s) last').
Qed.

(** ** The commands *)

Context (reply_size : Z) (reply_nonneg : 0 <= reply_size).

Definition mop_ok (o : mop) : Prop :=
  match o with
  | OAdd ms => Forall is_bytes ms
  | OPopMember (Some n) => 1 <= n
  | ORandom (Some n) => reply_size * Z.abs n < 2 ^ 63
  | _ => True
  end.
Definition implements (o : mop) : Prop := mop_ok o -> forall n X del s, set_inv (mcost o X + n) X del s ->
  exists s', run_mop key node_id wall reply_size o s = Ret ((mstep o X).1, s') /\ set_inv n (mstep o X).2 del s'.

Lemma ensure_head_set n X del s : set_inv (S n) X del s -> exists s',
  ensure_head node_id wall key CTYPE_SET s = Ret (del, s') /\ set_inv n X del s'.
Proof.
  intros [[T [[Wb We] R D] I F] Hi].
  destruct (ensure_head_coll key key_len CTYPE_SET eq_refl node_id wall node_range walls n del s T R) as (s' & E & T' & R' & L & Ep & Fr).
  assert (G : forall m, kv_get (db s') (member_key m) = kv_get (db s) (member_key m)).
  { intros m. apply Fr. intros Eq. apply (f_equal (.!! 2%nat)) in Eq. discriminate. }
  exists s'. split; [done|]. split; [|by rewrite Ep]. split; [done| |intros m; unfold ElemLaws.at_elem; rewrite G; apply I|lia]. split; [|done|lia]. split.
  - intros k v Gk. destruct (decide (k = head_key key)) as [->|Ne]; [apply prefixed_is_bytes; [done|constructor]|]. rewrite Fr in Gk by done. by eapply Wb.
  - intros m v Gm. rewrite G in Gm. destruct (We m v Gm) as (r & O & Tm & ->). exists r. split; [|done]. by eapply own_ok_mono.
Qed.

Lemma size_insert (m : bytes) (Y : gset bytes) : m ∉ Y -> size ({[m]} ∪ Y) = S (size Y).
Proof. intros N. rewrite size_union by set_solver. by rewrite size_singleton. Qed.

Lemma sadd_loop_eq ms : Forall is_bytes ms -> forall n X del s added, set_inv (length ms + n) X del s -> exists s',
  sadd_loop node_id wall key del ms added s = Ret (added + Z.of_nat (size (list_to_set ms ∖ X)), s') /\ set_inv n (X ∪ list_to_set ms) del s'.
Proof.
  induction 1 as [|m ms Mb _ IH]; intros n X del s added I; cbn [sadd_loop length plus]; rewrite ?list_to_set_nil, ?list_to_set_cons.
  - exists s. replace (∅ ∖ X) with (∅ : gset bytes) by set_solver. rewrite size_empty, Z.add_0_r. replace (X ∪ ∅) with X by set_solver. done.
  - unfold mbind, M_bind. destruct (member_exists_eq _ X del s m (proj1 I)) as (s1 & E1 & Q). rewrite E1. cbn [rust_bind fst snd].
    destruct (set_quiet _ _ _ _ _ Q I) as [C1 H1]. destruct (add_member_eq _ X del s1 m C1 Mb) as (s2 & E2 & C2 & H2). rewrite E2. cbn [rust_bind fst snd].
    destruct (IH n (X ∪ {[m]}) del s2 (if bool_decide (m ∈ X) then added else added + 1)) as (s' & E' & I').
    { split; [done|]. rewrite H2. by apply hint_insert. }
    exists s'. rewrite E'. split; [|by replace (X ∪ ({[m]} ∪ list_to_set ms)) with (X ∪ {[m]} ∪ list_to_set ms) by set_solver]. do 2 f_equal.
    case_bool_decide as Im.
    + do 3 f_equal. set_solver.
    + replace (({[m]} ∪ list_to_set ms) ∖ X) with ({[m]} ∪ (list_to_set ms ∖ (X ∪ {[m]})) : gset bytes).
      * rewrite size_insert by set_solver. lia.
      * apply set_eq. intros q. destruct (decide (q = m)); set_solver.
Qed.
Lemma sadd_implements ms : implements (OAdd ms).
Proof.
  intros Ok n X del s I. cbn [run_mop mcost mop_ok plus] in *. unfold sadd. rewrite (on_set_eq _ X del s _ I). unfold mbind, M_bind.
  destruct (ensure_head_set (length ms + n) X del (tick s)) as (s1 & E1 & I1); [by apply set_tick|]. rewrite E1. cbn [rust_bind fst snd].
  destruct (sadd_loop_eq ms Ok n X del s1 0 I1) as (s' & E' & I'). rewrite E'. exists s'. by split.
Qed.

Lemma srem_loop_eq ms : forall n X del s k, set_core (length ms + n) X del s -> exists s',
  srem_loop node_id wall key del ms k s = Ret (k + Z.of_nat (size (X ∩ list_to_set ms)), s') /\ set_core n (X ∖ list_to_set ms) del s' /\
  pop_hints s' = pop_hints s.
Proof.
  induction ms as [|m ms IH]; intros n X del s k I; cbn [srem_loop length plus]; rewrite ?list_to_set_nil, ?list_to_set_cons.
  - exists s. replace (X ∩ ∅) with (∅ : gset bytes) by set_solver. rewrite size_empty, Z.add_0_r. replace (X ∖ ∅) with X by set_solver. done.
  - unfold mbind, M_bind. destruct (remove_member_eq _ X del s m I) as (s1 & E1 & C1 & H1). rewrite E1. cbn [rust_bind fst snd].
    destruct (IH n (X ∖ {[m]}) del s1 (if bool_decide (m ∈ X) then k + 1 else k) C1) as (s' & E' & C' & H').
    exists s'. rewrite E'. split; [|split; [|congruence]].
    + do 2 f_equal. case_bool_decide as Im.
      * replace (X ∩ ({[m]} ∪ list_to_set ms)) with ({[m]} ∪ (X ∖ {[m]}) ∩ list_to_set ms).
        -- rewrite size_insert by set_solver. lia.
        -- apply set_eq. intros q. destruct (decide (q = m)); set_solver.
      * do 3 f_equal. set_solver.
    + by replace (X ∖ ({[m]} ∪ list_to_set ms)) with (X ∖ {[m]} ∖ list_to_set ms) by set_solver.
Qed.
Lemma srem_implements ms : implements (ORemove ms).
Proof.
  intros _ n X del s I. cbn [run_mop mcost] in *. unfold srem. rewrite (on_set_eq _ X del s _ I). unfold mbind, M_bind.
  apply set_tick in I as [C Hi]. destruct (srem_loop_eq ms n X del (tick s) 0 C) as (s' & E' & C' & H'). rewrite E'. exists s'. split; [done|].
  split; [done|]. rewrite H'. eapply hint_subset; [|done]. cbn [mstep snd]. set_solver.
Qed.

Lemma scard_implements : implements OCard.
Proof.
  intros _ n X del s I. cbn [run_mop mcost plus] in *. unfold scard. rewrite (on_set_eq _ X del s _ I). unfold mbind, M_bind. apply set_tick in I.
  rewrite (set_members_eq n X del (tick s)) by apply I. eexists. split; [cbn; by rewrite sorted_length|]. by apply set_tick.
Qed.
Lemma smembers_implements : implements OMembers.
Proof.
  intros _ n X del s I. cbn [run_mop mcost plus] in *. unfold smembers. rewrite (on_set_eq _ X del s _ I). unfold mbind, M_bind. apply set_tick in I.
  rewrite (set_members_eq n X del (tick s)) by apply I. eexists. split; [done|]. by apply set_tick.
Qed.
Lemma sscan_implements pattern : implements (OScan pattern).
Proof.
  intros _ n X del s I. cbn [run_mop mcost plus] in *. unfold sscan. rewrite (on_set_eq _ X del s _ I). unfold mbind, M_bind. apply set_tick in I.
  rewrite (set_members_eq n X del (tick s)) by apply I. eexists. split; [done|]. by apply set_tick.
Qed.
Lemma sismember_implements m : implements (OIsMember m).
Proof.
  intros _ n X del s I. cbn [run_mop mcost plus] in *. unfold sismember. rewrite (on_set_eq _ X del s _ I). unfold mbind, M_bind. apply set_tick in I.
  destruct (member_exists_eq _ X del (tick s) m (proj1 I)) as (s1 & E1 & Q). rewrite E1. exists s1. split; [done|]. by eapply set_quiet.
Qed.
Lemma exists_each_eq ms : forall n X del s, set_inv n X del s -> exists s',
  exists_each wall key del ms s = Ret (map (fun m => bool_decide (m ∈ X)) ms, s') /\ set_inv n X del s'.
Proof.
  induction ms as [|m ms IH]; intros n X del s I; cbn [exists_each map]; [by exists s|]. unfold mbind, M_bind.
  destruct (member_exists_eq _ X del s m (proj1 I)) as (s1 & E1 & Q). rewrite E1. cbn [rust_bind fst snd].
  destruct (IH n X del s1) as (s' & E' & I'); [by eapply set_quiet|]. rewrite E'. by exists s'.
Qed.
Lemma smismember_implements ms : implements (OAreMembers ms).
Proof.
  intros _ n X del s I. cbn [run_mop mcost plus] in *. unfold smismember. rewrite (on_set_eq _ X del s _ I). unfold mbind, M_bind. apply set_tick in I.
  destruct (exists_each_eq ms n X del (tick s) I) as (s1 & E1 & I1). rewrite E1. exists s1. split; [|done]. cbn. by rewrite map_map.
Qed.

Lemma spop_loop_eq victims : NoDup victims -> forall n X del s popped, (forall m, m ∈ victims -> m ∈ X) -> set_core (length victims + n) X del s ->
  exists s', spop_loop node_id wall key del victims popped s = Ret (popped ++ victims, s') /\ set_core n (X ∖ list_to_set victims) del s' /\
    pop_hints s' = pop_hints s.
Proof.
  induction 1 as [|m ms Nm _ IH]; intros n X del s popped Sub I; cbn [spop_loop length plus]; rewrite ?list_to_set_nil, ?list_to_set_cons.
  - exists s. rewrite app_nil_r. by replace (X ∖ ∅) with X by set_solver.
  - unfold mbind, M_bind. destruct (remove_member_eq _ X del s m I) as (s1 & E1 & C1 & H1). rewrite E1. cbn [rust_bind fst snd].
    rewrite bool_decide_eq_true_2 by (apply Sub; left). destruct (IH n (X ∖ {[m]}) del s1 (popped ++ [m])) as (s' & E' & C' & H'); [set_solver|done|].
    exists s'. rewrite E', <- app_assoc. split; [done|]. split; [|congruence].
    by replace (X ∖ ({[m]} ∪ list_to_set ms)) with (X ∖ {[m]} ∖ list_to_set ms) by set_solver.
Qed.

Lemma last_take_1 (l : list bytes) : last (take 1 l) = head l.
Proof. by destruct l. Qed.

Lemma spop_implements count : implements (OPopMember count).
Proof.
  intros Ok n X del s I. cbn [run_mop mcost] in *. unfold spop. rewrite (on_set_eq _ X del s _ I). apply set_tick in I.
  assert (L : 1 <= default 1 count) by (destruct count; [exact Ok|simpl; lia]). unfold mbind at 1, M_bind at 1.
  destruct (pop_candidates_eq _ X del (tick s) (default 1 count) I L) as (s1 & E1 & C1 & H1). rewrite E1. cbn [rust_bind fst snd].
  set (popped := take (Z.to_nat (default 1 count)) (sorted X)) in *.
  assert (Post : forall s', set_core n (X ∖ list_to_set popped) del s' -> pop_hints s' = pop_hints s1 -> set_inv n (mstep (OPopMember count) X).2 del s').
  { intros s' C' Hp. assert (Em : (mstep (OPopMember count) X).2 = X ∖ list_to_set popped) by (unfold popped; by destruct count). rewrite Em.
    split; [done|]. by rewrite Hp. }
  destruct (decide (popped = [])) as [Ep|Ep].
  - rewrite bool_decide_eq_true_2 by done. exists s1. split.
    + cbn [mret M_ret]. unfold popped in Ep. destruct count as [c|]; cbn [mstep fst default id from_option] in *; [by rewrite Ep|].
      destruct (sorted X); [done|discriminate].
    + apply Post; [|done]. rewrite Ep in *. replace (X ∖ list_to_set []) with X by set_solver. by eapply core_weaken; [|exact C1]; lia.
  - rewrite bool_decide_eq_false_2 by done. unfold mbind, M_bind.
    destruct (spop_loop_eq popped) with (n := n) (X := X) (del := del) (s := s1) (popped := @nil bytes) as (s' & E' & C' & H').
    { eapply sublist_NoDup; [apply sorted_nodup|apply sublist_take]. }
    { intros m J. apply elem_of_take in J as (i & J & _). apply sorted_elem. by eapply list_elem_of_lookup_2. }
    { exact C1. }
    rewrite E'. cbn [rust_bind fst snd app]. exists s'. split; [|by apply Post]. unfold popped. destruct count as [c|]; [done|]. cbn [default mstep fst].
    by rewrite last_take_1.
Qed.

Lemma map_lookup {A B} (f : A -> B) l i : map f l !! i = f <$> l !! i.
Proof. apply list_lookup_fmap. Qed.
Lemma nth_cycle (l : list bytes) k : (k <= length l)%nat -> map (fun i => RBulk (default [] (l !! (i mod length l)%nat))) (seq 0 k) = map RBulk (take k l).
Proof.
  intros L. apply list_eq. intros i. rewrite !map_lookup. destruct (decide (i < k)%nat) as [Lt|Ge].
  - rewrite lookup_seq_lt by done. rewrite lookup_take_lt by done. simpl. rewrite Nat.mod_small by lia.
    destruct (lookup_lt_is_Some_2 l i) as [x ->]; [lia|done].
  - rewrite lookup_seq_ge by lia. rewrite (lookup_take_ge l) by lia. done.
Qed.

Lemma srandmember_implements count : implements (ORandom count).
Proof.
  intros Ok n X del s I. cbn [run_mop mcost plus] in *. unfold srandmember. rewrite (on_set_eq _ X del s _ I). apply set_tick in I. unfold mbind at 1, M_bind at 1.
  set (want := match count with Some n => Z.abs n | None => 1 end).
  rewrite (members_limited_eq n X del (tick s)) by (apply I || lia). cbn [rust_bind fst snd]. apply set_tick in I.
  assert (I' : forall c, set_inv n (mstep (ORandom c) X).2 del (tick (tick s))) by (by intros []).
  destruct (take (Z.to_nat (Z.max want 1)) (sorted X)) as [|m0 ms] eqn:Em.
  { exists (tick (tick s)). split; [|apply I']. apply take_sorted_empty in Em as ->; [|lia]. destruct count as [c|]; cbn [mstep fst]; [|done].
    change (sorted ∅) with (@nil bytes). rewrite take_nil. by destruct (c <? 0). }
  destruct count as [c|].
  - cbn [mop_ok] in Ok. set (take_ := if c <? 0 then want else _). assert (Tb : 0 <= take_ <= want) by (unfold take_, want; destruct (c <? 0); lia).
    unfold mbind, M_bind, with_capacity, lift. rewrite (proj2 (Z.leb_gt (2 ^ 63) _)) by (unfold want in Tb; nia). cbn [rust_bind fst snd].
    exists (tick (tick s)). split; [|apply I']. cbn [mstep fst]. unfold mret, M_ret. do 3 f_equal. clear Tb. subst take_ want. cbv beta iota in Em. rewrite <- Em. clear I'.
    assert (Ne : X <> ∅) by (intros ->; change (sorted ∅) with (@nil bytes) in Em; rewrite take_nil in Em; done).
    destruct (c <? 0) eqn:Lt; [apply Z.ltb_lt in Lt|apply Z.ltb_ge in Lt].
    + rewrite bool_decide_eq_false_2 by done. unfold cycle. rewrite map_map. rewrite (Z.max_l (Z.abs c) 1) by lia. by replace (Z.abs c) with (- c) by lia.
    + rewrite (nth_cycle (take _ _)) by lia. f_equal. rewrite take_take. rewrite length_take, sorted_length.
      destruct (decide (c = 0)) as [->|N0]; [by rewrite Z.min_l by lia|]. rewrite (Z.max_l (Z.abs c) 1) by lia.
      destruct (decide (Z.to_nat (Z.abs c) <= size X)%nat).
      * f_equal. lia.
      * rewrite !take_ge; [done| |]; rewrite sorted_length; lia.
  - exists (tick (tick s)). split; [|apply I']. cbn [mret M_ret mstep fst]. change (Z.to_nat (Z.max want 1)) with 1%nat in Em.
    destruct (sorted X) as [|x l]; [done|]. simpl in Em. by injection Em as -> _.
Qed.

Lemma mop_implements o : implements o.
Proof.
  destruct o; auto using sadd_implements, srem_implements, scard_implements, sismember_implements, smismember_implements, smembers_implements,
    spop_implements, srandmember_implements, sscan_implements.
Qed.

Lemma run_mops_eq os : Forall mop_ok os -> forall n X del s, set_inv (mrun_cost os X + n) X del s -> exists s',
  run_mops key node_id wall reply_size os s = Ret ((mrun os X).1, s') /\ set_inv n (mrun os X).2 del s'.
Proof.
  induction 1 as [|o os Ok _ IH]; intros n X del s I; cbn [run_mops mrun_cost] in *; [by exists s|]. rewrite <- Nat.add_assoc in I.
  destruct (mop_implements o Ok _ X del s I) as (s1 & E1 & I1). unfold mbind, M_bind. rewrite E1. cbn [rust_bind fst snd].
  destruct (IH n _ del s1 I1) as (s' & E' & I'). rewrite E'. cbn [rust_bind fst snd mret M_ret mrun]. destruct (mstep o X) as [r X1]. cbn [fst snd] in *.
  destruct (mrun os X1) as [rs X2]. by exists s'.
Qed.
End refine.


(** A set that was deleted, with a member at the end of the key space. *)
Definition ex_mops : list mop :=
  [OAdd [[98]; [97]; [98]]; OPopMember None; OAdd [[]; [99]]; OPopMember (Some 2); OMembers; ORandom (Some (-3)); ORemove [[99]; [100]]; OCard;
   OPopMember None; OAdd [[97]]; OIsMember [97]; OScan (Some (str "*"))].

Lemma empty_set_inv key wall n : Z.of_nat n < 2 ^ 40 -> set_inv key wall n ∅ 0 (mkShard (∅ : gmap bytes bytes) 0 ∅ 0).
Proof.
  intros L. split; [|done]. split.
  - split; [by vm_compute|]. split; [intros now; done|]. split; [intros now; done|done].
  - split; [split; [by intros k v|by intros m v]| |done]. unfold room. cbn [hlc_word]. lia.
  - intros m. split; [intros E; by apply not_elem_of_empty in E|]. intros [x E]. unfold at_elem in E. cbn [kv_get gmap_kv db] in E. by rewrite lookup_empty in E.
  - rewrite size_empty. lia.
Qed.


(** ** Set algebra *)

Definition op_on (op : SetOp) : gset bytes -> gset bytes -> gset bytes :=
  match op with SetCmd.Union => (∪) | Inter => (∩) | Diff => (∖) end.
(** The result of SUNION, SINTER and SDIFF: the first set combined with the
    others from left to right. *)
Definition op_ref (op : SetOp) (Xs : list (gset bytes)) : gset bytes :=
  match Xs with [] => ∅ | X :: Xs => fold_left (op_on op) Xs X end.

Section algebra.
Context {DB : Type} `{KVLaws DB}.
Context (wall : nat -> Z) (hash_order : list bytes -> list bytes) (hash_perm : forall l, hash_order l ≡ₚ l).

(** The key holds the set. *)
Definition holds (s : Shard DB) (k : bytes) (X : gset bytes) : Prop :=
  slice_len_ok k /\ is_bytes k /\ exists n del, set_core k wall n X del s.

Lemma holds_quiet s s' k X : quiet s s' -> holds s k X -> holds s' k X.
Proof. intros (Ed & _ & Ew) (Kl & Kb & n & del & C). split; [done|]. split; [done|]. exists n, del. by eapply core_same. Qed.

Lemma members_of_eq s k X : holds s k X -> members_of wall k s = Ret (Some (sorted X), tick (tick s)).
Proof.
  intros (Kl & Kb & n & del & C). unfold members_of, set_del_hlc, mbind, M_bind. pose proof C as [T _ _ _].
  rewrite (check_type_coll k CTYPE_SET eq_refl wall del s _ T). cbn [rust_bind fst snd].
  by rewrite (set_members_eq k Kl wall n X del (tick s)) by (by apply (core_same k wall n X del s)).
Qed.

Lemma union_fold (l cur : list bytes) : NoDup cur ->
  let r := fold_left (fun cur m => if bool_decide (m ∈ cur) then cur else cur ++ [m]) l cur in
  NoDup r /\ forall m, m ∈ r <-> m ∈ cur \/ m ∈ l.
Proof.
  revert cur. induction l as [|x l IH]; intros cur Nd; cbn [fold_left]; [split; [done|set_solver]|]. case_bool_decide as I.
  - destruct (IH cur Nd) as [N E]. split; [done|]. intros m. rewrite E. set_solver.
  - destruct (IH (cur ++ [x])) as [N E]; [apply NoDup_app; split; [done|]; split; [set_solver|apply NoDup_singleton]|].
    split; [done|]. intros m. rewrite E. set_solver.
Qed.

Lemma filter_elem (f : bytes -> bool) l m : m ∈ List.filter f l <-> m ∈ l /\ f m = true.
Proof. by rewrite !list_elem_of_In, filter_In. Qed.
Lemma filter_nodup (f : bytes -> bool) l : NoDup l -> NoDup (List.filter f l).
Proof.
  induction 1 as [|x l N Nd IH]; cbn [List.filter]; [constructor|]. destruct (f x); [|done]. constructor; [|done]. rewrite filter_elem. tauto.
Qed.

Lemma combine_eq op cur X : NoDup cur ->
  NoDup (combine hash_order op cur (sorted X)) /\ forall m, m ∈ combine hash_order op cur (sorted X) <-> m ∈ op_on op (list_to_set cur) X.
Proof.
  intros Nd. destruct op; cbn [combine op_on].
  - destruct (union_fold (hash_order (sorted X)) cur Nd) as [N E]. split; [done|]. intros m. rewrite E, hash_perm, sorted_elem. set_solver.
  - split; [by apply filter_nodup|]. intros m. rewrite filter_elem, bool_decide_eq_true, sorted_elem. set_solver.
  - split; [by apply filter_nodup|]. intros m. rewrite filter_elem, negb_true_iff, bool_decide_eq_false, sorted_elem. set_solver.
Qed.

Lemma setop_loop_eq op keys Xs : forall s acc, Forall2 (holds s) keys Xs -> match acc with None => True | Some l => NoDup l end ->
  exists l s', setop_loop wall hash_order op keys acc s = Ret (Some l, s') /\ quiet s s' /\ NoDup l /\
    forall m, m ∈ l <-> m ∈ match acc with None => op_ref op Xs | Some l0 => fold_left (op_on op) Xs (list_to_set l0) end.
Proof.
  intros s acc F. remember keys as ks. revert s acc keys Heqks F. revert Xs. induction ks as [|k ks IH]; intros Xs s acc keys _ F Nd.
  - apply Forall2_nil_inv_l in F as ->. exists (default [] acc), s. split; [done|]. split; [done|]. destruct acc as [l|]; cbn [default]; [|split; [constructor|set_solver]].
    split; [done|]. intros m. cbn [fold_left]. set_solver.
  - apply Forall2_cons_inv_l in F as (X & Xs' & Hk & F & ->). cbn [setop_loop]. unfold mbind, M_bind. rewrite (members_of_eq s k X Hk). cbn [rust_bind fst snd].
    assert (Q : quiet s (tick (tick s))) by done.
    assert (F' : Forall2 (holds (tick (tick s))) ks Xs') by (eapply Forall2_impl; [exact F|]; intros; by eapply holds_quiet).
    destruct acc as [l0|].
    + destruct (combine_eq op l0 X Nd) as [Nc Ec]. destruct (IH Xs' (tick (tick s)) (Some (combine hash_order op l0 (sorted X))) ks eq_refl F' Nc) as (l & s' & E & Q' & N & M).
      exists l, s'. split; [done|]. split; [by transitivity (tick (tick s))|]. split; [done|]. intros m. rewrite M. cbn [fold_left].
      by replace (list_to_set (combine hash_order op l0 (sorted X))) with (op_on op (list_to_set l0) X) by set_solver.
    + destruct (IH Xs' (tick (tick s)) (Some (sorted X)) ks eq_refl F' (sorted_nodup X)) as (l & s' & E & Q' & N & M).
      exists l, s'. split; [done|]. split; [by transitivity (tick (tick s))|]. split; [done|]. intros m. rewrite M. cbn [op_ref].
      replace (list_to_set (sorted X)) with X; [done|]. apply set_eq. intros q. by rewrite elem_of_list_to_set, sorted_elem.
Qed.

Lemma holds_bytes s k X m : holds s k X -> m ∈ X -> is_bytes m.
Proof.
  intros (_ & _ & n & del & [_ [[Wb _] _ _] I _]) Im. apply I in Im as [x E]. unfold at_elem in E.
  destruct (kv_get (db s) (elem_key TSetMember k m)) as [b|] eqn:G; [|done]. apply Wb in G. unfold elem_key in G. rewrite prefixed_split in G.
  apply is_bytes_app in G. apply G.
Qed.
Lemma op_ref_sub op Xs m : m ∈ op_ref op Xs -> exists X, X ∈ Xs /\ m ∈ X.
Proof.
  destruct Xs as [|X Xs]; cbn [op_ref]; [set_solver|].
  assert (G : forall Y, m ∈ fold_left (op_on op) Xs Y -> m ∈ Y \/ exists X, X ∈ Xs /\ m ∈ X).
  { induction Xs as [|Z Xs IH]; intros Y; cbn [fold_left]; [auto|]. intros [J|(Z' & J & K)]%IH; [|right; exists Z'; set_solver].
    destruct op; cbn [op_on] in J; set_solver. }
  intros [J|(Z & J & K)]%G; [exists X; set_solver|exists Z; set_solver].
Qed.

(** Writing the result. *)
Context (node_id : Z) (node_range : u16 node_id) (walls : forall n, 0 <= wall n < 2 ^ 47).
Context (dst : bytes) (dst_len : slice_len_ok dst) (dst_bytes : is_bytes dst).

Lemma remove_all_eq ms : forall n X del s, set_inv dst wall (length ms + n) X del s -> exists s',
  remove_all node_id wall dst del ms s = Ret (tt, s') /\ set_inv dst wall n (X ∖ list_to_set ms) del s'.
Proof.
  induction ms as [|m ms IH]; intros n X del s I; cbn [remove_all length plus] in *; rewrite ?list_to_set_nil, ?list_to_set_cons.
  - exists s. split; [done|]. by replace (X ∖ ∅) with X by set_solver.
  - unfold mbind, M_bind. destruct I as [C Hi].
    destruct (remove_member_eq dst dst_len dst_bytes node_id wall node_range walls _ X del s m C) as (s1 & E1 & C1 & H1). rewrite E1. cbn [rust_bind fst snd].
    destruct (IH n (X ∖ {[m]}) del s1) as (s' & E' & I').
    { split; [done|]. rewrite H1. eapply hint_subset; [done..| |exact Hi]. set_solver. }
    exists s'. split; [done|]. by replace (X ∖ ({[m]} ∪ list_to_set ms)) with (X ∖ {[m]} ∖ list_to_set ms) by set_solver.
Qed.
Lemma add_all_eq ms : (forall m, m ∈ ms -> is_bytes m) -> forall n X del s, set_inv dst wall (length ms + n) X del s -> exists s',
  add_all node_id wall dst ms s = Ret (tt, s') /\ set_inv dst wall n (X ∪ list_to_set ms) del s'.
Proof.
  induction ms as [|m ms IH]; intros Mb n X del s I; cbn [add_all length plus] in *; rewrite ?list_to_set_nil, ?list_to_set_cons.
  - exists s. split; [done|]. by replace (X ∪ ∅) with X by set_solver.
  - unfold mbind, M_bind. destruct I as [C Hi].
    destruct (add_member_eq dst dst_len dst_bytes node_id wall node_range walls _ X del s m C) as (s1 & E1 & C1 & H1); [apply Mb; left|]. rewrite E1.
    cbn [rust_bind fst snd]. destruct (IH ltac:(set_solver) n (X ∪ {[m]}) del s1) as (s' & E' & I').
    { split; [done|]. rewrite H1. by eapply hint_insert. }
    exists s'. split; [done|]. by replace (X ∪ ({[m]} ∪ list_to_set ms)) with (X ∪ {[m]} ∪ list_to_set ms) by set_solver.
Qed.

Lemma size_list (l : list bytes) (X : gset bytes) : NoDup l -> (forall m, m ∈ l <-> m ∈ X) -> length l = size X.
Proof.
  intros Nd E. rewrite <- (size_list_to_set (C := gset bytes) l Nd). f_equal. apply set_eq. intros m. by rewrite elem_of_list_to_set.
Qed.

Lemma setop_store_eq op keys Xs n X del s : Forall2 (holds s) keys Xs -> set_inv dst wall (size X + S (size (op_ref op Xs)) + n) X del s ->
  exists s', setop_store node_id wall hash_order op dst keys s = Ret (RInt (Z.of_nat (size (op_ref op Xs))), s') /\ set_inv dst wall n (op_ref op Xs) del s'.
Proof.
  intros F I. destruct (setop_loop_eq op keys Xs s None F Logic.I) as (l & s1 & E & Q & Nd & M).
  assert (El : length l = size (op_ref op Xs)) by (by apply size_list).
  assert (Mb : forall m, m ∈ l -> is_bytes m).
  { intros m J. apply M, op_ref_sub in J as (Y & J & K). apply list_elem_of_lookup in J as [i J]. destruct (Forall2_lookup_r _ _ _ _ _ F J) as (k & _ & Hk).
    by eapply holds_bytes. }
  unfold setop_store, mbind, M_bind. rewrite E. cbn [rust_bind fst snd]. apply (set_quiet dst wall _ _ _ _ _ Q) in I.
  rewrite (on_set_eq dst wall _ X del s1 _ I). apply set_tick in I. rewrite (set_members_eq dst dst_len wall _ X del (tick s1) (proj1 I)). cbn [rust_bind fst snd].
  apply set_tick in I. rewrite <- Nat.add_assoc, <- sorted_length in I. destruct (remove_all_eq (sorted X) _ X del _ I) as (s2 & E2 & I2). rewrite E2. cbn [rust_bind fst snd].
  replace (X ∖ list_to_set (sorted X)) with (∅ : gset bytes) in I2 by (apply set_eq; intros m; pose proof (sorted_elem X m); set_solver).
  assert (Z : exists s3, (if bool_decide (l = []) then mret tt else _ ← ensure_head node_id wall dst CTYPE_SET; mret tt) s2 = Ret (tt, s3) /\
    set_inv dst wall (length l + n) ∅ del s3).
  { case_bool_decide as Z; [exists s2; split; [done|]; eapply set_weaken; [|exact I2]; lia|].
    destruct (ensure_head_set dst dst_len dst_bytes node_id wall node_range walls _ ∅ del s2 I2) as (s3 & E3 & I3). exists s3. split; [unfold mbind, M_bind; by rewrite E3|].
    by rewrite El. }
  destruct Z as (s3 & E3 & I3). unfold mbind, M_bind in E3. rewrite E3. cbn [rust_bind fst snd].
  destruct (add_all_eq l Mb n ∅ del s3 I3) as (s4 & E4 & I4). rewrite E4. cbn [rust_bind fst snd]. exists s4. rewrite El. split; [done|].
  replace (op_ref op Xs) with (∅ ∪ list_to_set l : gset bytes); [done|]. apply set_eq. intros m. rewrite <- M. set_solver.
Qed.
End algebra.

(** [C39] Set algebra is exact. SUNION, SINTER and SDIFF over keys that hold sets
    reply each member of the union, intersection or difference once and change
    nothing, whatever order the hash sets iterate in; the storing forms reply
    the size of that set and leave the destination holding exactly it - also
    when the destination is one of the operands. *)
Theorem set_algebra_exact {DB} `{KVLaws DB} wall hash_order node_id op keys Xs dst n X del (s : Shard DB) :
  (forall l, hash_order l ≡ₚ l) -> u16 node_id -> (forall n, 0 <= wall n < 2 ^ 47) -> slice_len_ok dst -> is_bytes dst ->
  Forall2 (holds wall s) keys Xs -> set_inv dst wall (size X + S (size (op_ref op Xs)) + n) X del s ->
  (exists l s', setop wall hash_order op keys s = Ret (RSet (map RBulk l), s') /\ quiet s s' /\ NoDup l /\ forall m, m ∈ l <-> m ∈ op_ref op Xs) /\
  exists s', setop_store node_id wall hash_order op dst keys s = Ret (RInt (Z.of_nat (size (op_ref op Xs))), s') /\
    set_inv dst wall n (op_ref op Xs) del s'.
Proof.
  intros Hp Nr Wa Dl Db F I. split; [|by apply (setop_store_eq wall hash_order Hp node_id Nr Wa dst Dl Db op keys Xs n X)].
  destruct (setop_loop_eq wall hash_order Hp op keys Xs s None F Logic.I) as (l & s' & E & Q & Nd & M).
  exists l, s'. split; [|done]. unfold setop, mbind, M_bind. by rewrite E.
Qed.

(** A run from the empty store, and the state it leaves. *)
Definition ex_walls_mod (n : nat) : Z := Z.of_nat n mod 1000.
Definition ex_run (os : list mop) : Shard (gmap bytes bytes) :=
  match run_mops [107] 3 ex_walls_mod 32 os (mkShard ∅ 0 ∅ 0) with Ret (_, s) => s | Panic => mkShard ∅ 0 ∅ 0 end.
Lemma ex_run_inv os n : Forall (mop_ok 32) os -> Z.of_nat (mrun_cost os ∅ + n) < 2 ^ 40 -> set_inv [107] ex_walls_mod n (mrun os ∅).2 0 (ex_run os).
Proof.
  intros Ok L. destruct (run_mops_eq (DB := gmap bytes bytes) [107] ltac:(by vm_compute) ltac:(by vm_compute; repeat constructor) 3 ex_walls_mod ltac:(by vm_compute)
    ltac:(intros k; unfold ex_walls_mod; pose proof (Z.mod_pos_bound (Z.of_nat k) 1000); lia) 32 ltac:(lia) os Ok n ∅ 0 (mkShard ∅ 0 ∅ 0)) as (s' & E & I).
  - by apply empty_set_inv.
  - unfold ex_run. by rewrite E.
Qed.

(** SINTERSTORE k k k over the set of a and b. *)
Lemma set_algebra_exact_witness :
  exists s', setop_store 3 ex_walls_mod (@rev bytes) Inter [107] [[107]; [107]] (ex_run [OAdd [[97]; [98]]]) = Ret (RInt 2, s') /\
    set_inv [107] ex_walls_mod 0 {[ [97]; [98] ]} 0 s'.
Proof.
  assert (I : set_inv [107] ex_walls_mod 5 {[ [97]; [98] ]} 0 (ex_run [OAdd [[97]; [98]]])).
  { replace ({[ [97]; [98] ]} : gset bytes) with (mrun [OAdd [[97]; [98]]] ∅).2 by (vm_compute; reflexivity).
    apply ex_run_inv; [|vm_compute; reflexivity]. repeat constructor; cbn [mop_ok]; try lia; by vm_compute. }
  destruct (set_algebra_exact ex_walls_mod (@rev bytes) 3 Inter [[107]; [107]] [{[ [97]; [98] ]}; {[ [97]; [98] ]}] [107] 0 {[ [97]; [98] ]} 0
    (ex_run [OAdd [[97]; [98]]])) as (_ & s' & E & I').
  - intros l. symmetry. apply Permutation_rev.
  - by vm_compute.
  - intros n. unfold ex_walls_mod. pose proof (Z.mod_pos_bound (Z.of_nat n) 1000). lia.
  - by vm_compute.
  - by vm_compute; repeat constructor.
  - assert (Hd : holds ex_walls_mod (ex_run [OAdd [[97]; [98]]]) [107] {[ [97]; [98] ]}).
    { split; [by vm_compute|]. split; [by vm_compute; repeat constructor|]. exists 5%nat, 0. exact (proj1 I). }
    constructor; [exact Hd|constructor; [exact Hd|constructor]].
  - exact I.
  - exists s'. split; [exact E|exact I'].
Defined.

(** ** Where the commands depart from a set *)

(** SPOP with count zero hides the set from SPOP. The walk for candidates
    tests its limit only after the first record: when this record shows nothing
    (a member removed before), SPOP key 0 finds no candidate and marks the set
    as drained; from then on SPOP replies nil although the members are still
    there. *)
Theorem spop_zero_hides_members {DB} `{KVLaws DB} key node_id wall n X del e l (s : Shard DB) :
  slice_len_ok key -> set_core key wall n X del s -> pop_hints s !! elem_prefix TSetMember key = None ->
  with_prefix (db s) (elem_prefix TSetMember key) = e :: l -> entry_of TSetMember key del e = None ->
  exists s1 s2, spop node_id wall key (Some 0) s = Ret (RSet [], s1) /\ spop node_id wall key None s1 = Ret (RNull, s2) /\
    set_core key wall n X del s2.
Proof.
  intros Kl C Hh El Ee. pose proof C as [T _ _ _]. unfold with_prefix in El.
  assert (Good : e ∈ from key (db s) (elem_key TSetMember key [])) by (unfold from; change (elem_key TSetMember key []) with (elem_prefix TSetMember key); rewrite El; left).
  destruct (from_good key wall n X del s [] e C Good) as [P G]. destruct e as [k v].
  pose proof (shown_member_eq key Kl wall (hlc_word s) del (ticks (tick s)) (k, v) G) as Sh. rewrite Ee in Sh. cbn [fst snd fmap option_fmap option_map] in P, Sh.
  set (s1 := mkShard (db s) (hlc_word s) (<[elem_prefix TSetMember key := []]> (pop_hints s)) (S (S (ticks s)))).
  assert (E0 : pop_candidates wall key del 0 (tick s) = Ret ([], s1)).
  { unfold pop_candidates. change (collection_prefix TSetMember key) with (elem_prefix TSetMember key). unfold mbind at 1, M_bind at 1, now_ms at 1. cbn [rust_bind fst snd].
    unfold mbind at 1, M_bind at 1, get_pop_hint. cbn [rust_bind fst snd pop_hints tick]. rewrite Hh. cbn [fmap option_fmap option_map].
    unfold mbind at 1, M_bind at 1, scan_prefix, scan_from. cbn [db tick]. rewrite El. cbn [scan_loop]. rewrite P. cbn [negb]. unfold collect_member.
    cbn [fst snd]. cbn [ticks tick] in *. rewrite Sh. cbn [rust_bind fst snd length]. reflexivity. }
  assert (T1 : coll_typed key CTYPE_SET del (db s1) (hlc_word s)) by exact T.
  exists s1, (tick (tick s1)). split; [|split; [|by apply (core_same key wall n X del s)]].
  - unfold spop, on_set, set_del_hlc, mbind, M_bind. rewrite (check_type_coll key CTYPE_SET eq_refl wall del s _ T). cbn [rust_bind fst snd default id]. rewrite E0. done.
  - unfold spop, on_set, set_del_hlc, mbind, M_bind. rewrite (check_type_coll key CTYPE_SET eq_refl wall del s1 _ T1). cbn [rust_bind fst snd default id].
    unfold pop_candidates. change (collection_prefix TSetMember key) with (elem_prefix TSetMember key). unfold mbind at 1, M_bind at 1, now_ms at 1. cbn [rust_bind fst snd].
    unfold mbind at 1, M_bind at 1, get_pop_hint. cbn [rust_bind fst snd pop_hints tick s1]. rewrite lookup_insert_eq. cbn. done.
Qed.

(** After SADD k a b and SREM k a. *)
Lemma spop_zero_hides_members_witness :
  exists s1 s2, spop 3 ex_walls_mod [107] (Some 0) (ex_run [OAdd [[97]; [98]]; ORemove [[97]]]) = Ret (RSet [], s1) /\
    spop 3 ex_walls_mod [107] None s1 = Ret (RNull, s2) /\ set_core [107] ex_walls_mod 0 {[ [98] ]} 0 s2.
Proof.
  assert (I : set_inv [107] ex_walls_mod 0 {[ [98] ]} 0 (ex_run [OAdd [[97]; [98]]; ORemove [[97]]])).
  { replace ({[ [98] ]} : gset bytes) with (mrun [OAdd [[97]; [98]]; ORemove [[97]]] ∅).2 by (vm_compute; reflexivity).
    apply ex_run_inv; [|vm_compute; reflexivity]. repeat constructor; cbn [mop_ok]; try lia; by vm_compute. }
  eapply (spop_zero_hides_members [107] 3 ex_walls_mod 0 {[ [98] ]} 0).
  - by vm_compute.
  - exact (proj1 I).
  - by vm_compute.
  - vm_compute. reflexivity.
  - vm_compute. reflexivity.
Defined.

(** SMOVE onto a key of another type loses the member: the source is
    changed before the destination is looked at. *)
Theorem smove_to_wrong_type_loses_member :
  match (r1 ← sadd 3 ex_walls_mod [115] [[97]]; r2 ← ListCmd.push 3 ex_walls_mod [108] [[120]] false false;
         r3 ← smove 3 ex_walls_mod [115] [108] [97]; r4 ← scard ex_walls_mod [115]; mret [r1; r2; r3; r4]) (ex_shard ∅) with
  | Ret (rs, _) => rs = [RInt 1; RInt 1; wrongtype; RInt 0]
  | Panic => False
  end.
Proof. vm_compute. reflexivity. Qed.

(** SRANDMEMBER with a large negative count reserves the reply in advance
    and panics. *)
Theorem srandmember_huge_count_panics :
  match (_ ← sadd 3 ex_walls_mod [115] [[97]]; srandmember ex_walls_mod 32 [115] (Some (- 2 ^ 63))) (ex_shard ∅) with
  | Ret _ => False
  | Panic => True
  end.
Proof. vm_compute. exact Logic.I. Qed.
