(* ===== verification/HashCmd.v ===== *)
(** * Hashes ([crates/marekvs-engine/src/cmd/hash.rs])

    The fields of a hash are element records: the value with its own deadline,
    or - after HINCRBY - the counters of the nodes that increment it.  Handlers
    are programs of the shard monad; fetching remote keys is not part of them.
    Machine arithmetic wraps, as the release profile compiles it. *)

From Stdlib Require Import String.
From S2P Require Import Prelude Partition Hlc Envelope Ikey Counter Lattice Merge F64 Store Resp Reply Glob Server ListCmd Generic StringCmd.

Inductive ExpireCond :=
  | CondNone
  | CondNx
  | CondXx
  | CondGt
  | CondLt.
Inductive HashExpireMode :=
  | Deadline (d : Z)
  | Persist
  | KeepTtl
  | NoMode.

Definition ttl_condition_passes (current new_deadline : Z) (cond : ExpireCond) : bool :=
  match cond with
  | CondNone => true
  | CondNx => current =? 0
  | CondXx => negb (current =? 0)
  | CondGt => negb (current =? 0) && (current <? new_deadline)
  | CondLt => (current =? 0) || (new_deadline <? current)
  end.

Definition hash_not_int : Reply := RErr (str "ERR hash value is not an integer").

Section hashes.
Context {DB : Type} `{!KV DB}.
Context (node_id : Z) (wall : nat -> Z).
(** [from_utf8] and [str::parse::<f64>], [parse_f64] of [cmd/mod.rs] and
    [fmt_f64], on the bits of a double. *)
Context (parse_double parse_f64 : bytes -> option Z) (fmt_f64 : Z -> bytes).

Definition hash_del_hlc (key : bytes) : M DB (option Z) := check_type wall key CTYPE_HASH.

(** The field and value a scanned record shows. *)
Definition shown_field (del now : Z) (k v : bytes) : rust (option (bytes * bytes)) :=
  let! p := parse k in
  match p, Envelope_decode v with
  | Some p, Some (env, pay) =>
      match visible env pay del now with
      | None => Ret None
      | Some _ => let! x := element_display_value (rtype env) pay in Ret (pair (pk_suffix p) <$> x)
      end
  | _, _ => Ret None
  end.
Definition hash_entries (key : bytes) (del : Z) : M DB (list (bytes * bytes)) :=
  now ← now_ms wall;
  scan_prefix (collection_prefix THashField key) (fun out k v =>
    let! e := shown_field del now k v in Ret (match e with Some e => out ++ [e] | None => out end, true)) [].

Definition read_element_checked (key field : bytes) (del : Z) : M DB (option bytes) :=
  read_element wall (hash_field_key key field) del.
Definition field_exists (key field : bytes) (del : Z) : M DB bool :=
  v ← read_element_checked key field del; mret (bool_decide (is_Some v)).

(** ** Counter fields *)

(** The payload an increment observes. *)
Definition visible_payload (key field : bytes) (del : Z) : M DB (option bytes) :=
  raw ← get_raw (hash_field_key key field);
  match raw ≫= Envelope_decode with
  | None => mret None
  | Some (env, pay) => now ← now_ms wall; mret (visible env pay del now)
  end.
Definition own_slot (c : CounterState) : Z * Z :=
  match List.find (fun s => s.1 =? node_id) (cslots c) with Some (_, pn) => pn | None => (0, 0) end.

(** [Err] is the reply. *)
Definition folded_state (prior : option bytes) : M DB (option CounterState) :=
  match prior with
  | None => mret (Some (mkCounter 0 0 0 []))
  | Some pay =>
      c ← lift (counter_field_state pay);
      match c with
      | Some c => mret (Some c)
      | None =>
          v ← lift (element_value pay);
          match v ≫= parse_trimmed with
          | None => mret None
          | Some cur => h ← hlc_now wall; mret (Some (on_base h node_id cur))
          end
      end
  end.
Definition incr_counter_field (key field : bytes) (delta del : Z) : M DB Reply :=
  prior ← visible_payload key field del;
  folded ← folded_state prior;
  match folded with
  | None => mret hash_not_int
  | Some folded =>
      match value folded with
      | None => mret hash_not_int
      | Some cur =>
          let new := cur + delta in
          if negb ((- 2 ^ 63 <=? new) && (new <? 2 ^ 63)) then mret overflow_err else
          let '(p, n) := own_slot folded in
          let mine := bump (mkCounter (base_hlc folded) (base_origin folded) (cbase folded) [(node_id, (p, n))]) node_id delta in
          h ← hlc_now wall;
          rec ← lift (counter_field_set h node_id prior (CounterState_encode mine));
          _ ← write_merged (hash_field_key key field) rec; mret (RInt new)
      end
  end.

(** ** Writing a field *)

Definition write_field (key field value : bytes) : M DB unit :=
  h ← hlc_now wall;
  _ ← write_merged (hash_field_key key field) (element_add HashField h node_id value); mret tt.
Definition write_field_ttl (key field value : bytes) (ttl : Z) : M DB unit :=
  h ← hlc_now wall;
  _ ← write_merged (hash_field_key key field) (element_add_ttl HashField h node_id value ttl); mret tt.

Definition restamp_field_ttl (key field : bytes) (deadline : Z) : M DB bool :=
  let ik := hash_field_key key field in
  raw ← get_raw ik;
  match raw ≫= Envelope_decode with
  | None => mret false
  | Some (env, payload) =>
      h ← hlc_now wall;
      _ ← write_merged ik (encode_with (mkEnvelope (flags env) h node_id deadline) payload); mret true
  end.

Definition remove_field (key field : bytes) (del : Z) : M DB bool :=
  let ik := hash_field_key key field in
  v ← get_raw ik;
  match v ≫= Envelope_decode with
  | None => mret false
  | Some (env, pay) =>
      now ← now_ms wall;
      match visible env pay del now with
      | None => mret false
      | Some _ =>
          x ← lift (element_value pay);
          match x with
          | None => mret false
          | Some _ =>
              ds ← lift (element_dots pay);
              h ← hlc_now wall;
              _ ← write_merged ik (element_remove HashField h node_id ds); mret true
          end
      end
  end.

Definition read_field_env (key field : bytes) (del : Z) : M DB (option (Envelope * bytes)) :=
  raw ← get_raw (hash_field_key key field);
  match raw ≫= Envelope_decode with
  | None => mret None
  | Some (env, pay) =>
      now ← now_ms wall;
      match visible env pay del now with
      | None => mret None
      | Some _ => v ← lift (element_display_value (rtype env) pay); mret (pair env <$> v)
      end
  end.

(** ** Deadlines *)

Definition past (deadline : Z) : M DB bool :=
  if deadline =? 0 then mret false else now ← now_ms wall; mret (deadline <=? now).
Definition set_field_deadline (key field : bytes) (del deadline : Z) (cond : ExpireCond) : M DB Z :=
  e ← read_field_env key field del;
  match e with
  | None => mret (-2)
  | Some (env, _) =>
      if negb (ttl_condition_passes (ttl_deadline_ms env) deadline cond) then mret 0 else
      gone ← past deadline;
      if (gone : bool) then r ← remove_field key field del; mret (if (r : bool) then 2 else -2)
      else _ ← restamp_field_ttl key field deadline; mret 1
  end.
Definition field_ttl_status (key field : bytes) (del : Z) (millis : bool) : M DB Z :=
  e ← read_field_env key field del;
  match e with
  | None => mret (-2)
  | Some (env, _) =>
      if ttl_deadline_ms env =? 0 then mret (-1) else
      now ← now_ms wall;
      let remain := Z.max 0 (ttl_deadline_ms env - now) in
      mret (to_signed 64 (if millis then remain else remain / 1000))
  end.
Definition field_expiretime_status (key field : bytes) (del : Z) (millis : bool) : M DB Z :=
  e ← read_field_env key field del;
  mret (match e with
        | None => -2
        | Some (env, _) =>
            if ttl_deadline_ms env =? 0 then -1
            else to_signed 64 (if millis then ttl_deadline_ms env else ttl_deadline_ms env / 1000)
        end).
Definition deadline_from (n mult : Z) (absolute : bool) : M DB Z :=
  if absolute then mret (wrap 64 (Z.max n 0 * mult))
  else if n <=? 0 then mret 1
  else now ← now_ms wall; mret (wrap 64 (now + wrap 64 (n * mult))).

(** ** Handlers *)

Definition on_hash (key : bytes) (f : Z -> M DB Reply) : M DB Reply :=
  d ← hash_del_hlc key; match d with None => mret wrongtype | Some del => f del end.
(** [iter().map(f).collect()] *)
Fixpoint each_field {A B} (f : A -> M DB B) (l : list A) : M DB (list B) :=
  match l with [] => mret [] | x :: l => r ← f x; rs ← each_field f l; mret (r :: rs) end.

Fixpoint hset_loop (key : bytes) (del : Z) (pairs : list (bytes * bytes)) (added : Z) : M DB Z :=
  match pairs with
  | [] => mret added
  | (f, v) :: pairs =>
      b ← field_exists key f del;
      _ ← write_field key f v;
      hset_loop key del pairs (if (b : bool) then added else added + 1)
  end.
Definition hset (key : bytes) (pairs : list (bytes * bytes)) (hmset_reply : bool) : M DB Reply :=
  on_hash key (fun del =>
    _ ← ensure_head node_id wall key CTYPE_HASH;
    added ← hset_loop key del pairs 0;
    mret (if hmset_reply then ok else RInt added)).
Definition hsetnx (key field value : bytes) : M DB Reply :=
  on_hash key (fun del =>
    b ← field_exists key field del;
    if (b : bool) then mret (RInt 0) else
    _ ← ensure_head node_id wall key CTYPE_HASH;
    _ ← write_field key field value; mret (RInt 1)).
Definition hget (key field : bytes) : M DB Reply :=
  on_hash key (fun del => v ← read_element_checked key field del; mret (bulk_or_null v)).
Definition hmget (key : bytes) (fields : list bytes) : M DB Reply :=
  on_hash key (fun del =>
    vs ← each_field (fun f => read_element_checked key f del) fields; mret (RArray (map bulk_or_null vs))).
Definition hgetall (key : bytes) : M DB Reply :=
  on_hash key (fun del => es ← hash_entries key del; mret (RMap (map (fun e => (RBulk e.1, RBulk e.2)) es))).
Fixpoint hdel_loop (key : bytes) (del : Z) (fields : list bytes) (n : Z) : M DB Z :=
  match fields with
  | [] => mret n
  | f :: fields => b ← remove_field key f del; hdel_loop key del fields (if (b : bool) then n + 1 else n)
  end.
Definition hdel (key : bytes) (fields : list bytes) : M DB Reply :=
  on_hash key (fun del => n ← hdel_loop key del fields 0; mret (RInt n)).

Definition hexpire (key : bytes) (fields : list bytes) (deadline : Z) (cond : ExpireCond) : M DB Reply :=
  on_hash key (fun del =>
    rs ← each_field (fun f => set_field_deadline key f del deadline cond) fields; mret (RArray (map RInt rs))).
Definition httl (key : bytes) (fields : list bytes) (millis expiretime : bool) : M DB Reply :=
  on_hash key (fun del =>
    rs ← each_field (fun f => if expiretime then field_expiretime_status key f del millis
                              else field_ttl_status key f del millis) fields;
    mret (RArray (map RInt rs))).
Definition persist_field (key : bytes) (del : Z) (f : bytes) : M DB Z :=
  e ← read_field_env key f del;
  match e with
  | None => mret (-2)
  | Some (env, _) => if ttl_deadline_ms env =? 0 then mret (-1) else set_field_deadline key f del 0 CondNone
  end.
Definition hpersist (key : bytes) (fields : list bytes) : M DB Reply :=
  on_hash key (fun del => rs ← each_field (persist_field key del) fields; mret (RArray (map RInt rs))).
Definition getdel_field (key : bytes) (del : Z) (f : bytes) : M DB Reply :=
  v ← read_element_checked key f del; _ ← remove_field key f del; mret (bulk_or_null v).
Definition hgetdel (key : bytes) (fields : list bytes) : M DB Reply :=
  on_hash key (fun del => rs ← each_field (getdel_field key del) fields; mret (RArray rs)).
Definition getex_field (key : bytes) (del : Z) (mode : HashExpireMode) (f : bytes) : M DB Reply :=
  e ← read_field_env key f del;
  match e with
  | None => mret RNull
  | Some (env, value) =>
      _ ← match mode with
          | Deadline d => set_field_deadline key f del d CondNone
          | Persist => if ttl_deadline_ms env =? 0 then mret 0 else set_field_deadline key f del 0 CondNone
          | KeepTtl | NoMode => mret 0
          end;
      mret (RBulk value)
  end.
Definition hgetex (key : bytes) (mode : HashExpireMode) (fields : list bytes) : M DB Reply :=
  on_hash key (fun del => rs ← each_field (getex_field key del mode) fields; mret (RArray rs)).

(** Some field exists ([want]), or does not. *)
Fixpoint any_field (key : bytes) (del : Z) (want : bool) (pairs : list (bytes * bytes)) : M DB bool :=
  match pairs with
  | [] => mret false
  | (f, _) :: pairs => b ← field_exists key f del; if Bool.eqb b want then mret true else any_field key del want pairs
  end.
Definition new_ttl (key : bytes) (del : Z) (mode : HashExpireMode) (f : bytes) : M DB Z :=
  match mode with
  | Deadline d => mret d
  | KeepTtl => e ← read_field_env key f del; mret (match e with Some (env, _) => ttl_deadline_ms env | None => 0 end)
  | Persist | NoMode => mret 0
  end.
Fixpoint hsetex_loop (key : bytes) (del : Z) (mode : HashExpireMode) (pairs : list (bytes * bytes)) : M DB unit :=
  match pairs with
  | [] => mret tt
  | (f, v) :: pairs =>
      ttl ← new_ttl key del mode f;
      gone ← past ttl;
      _ ← write_field_ttl key f v ttl;
      _ ← (if (gone : bool) then remove_field key f del else mret false);
      hsetex_loop key del mode pairs
  end.
Definition hsetex (key : bytes) (fnx fxx : bool) (mode : HashExpireMode) (pairs : list (bytes * bytes)) : M DB Reply :=
  on_hash key (fun del =>
    found ← (if fnx then any_field key del true pairs else mret false);
    if (found : bool) then mret (RInt 0) else
    missing ← (if fxx then any_field key del false pairs else mret false);
    if (missing : bool) then mret (RInt 0) else
    _ ← ensure_head node_id wall key CTYPE_HASH;
    _ ← hsetex_loop key del mode pairs; mret (RInt 1)).

Definition hexists (key field : bytes) : M DB Reply :=
  on_hash key (fun del => b ← field_exists key field del; mret (RInt (if (b : bool) then 1 else 0))).
Definition hlen (key : bytes) : M DB Reply :=
  on_hash key (fun del => es ← hash_entries key del; mret (RInt (Z.of_nat (length es)))).
Definition hkeys (key : bytes) (keys : bool) : M DB Reply :=
  on_hash key (fun del => es ← hash_entries key del; mret (RArray (map (fun e => RBulk (if keys then e.1 else e.2)) es))).
Definition hstrlen (key field : bytes) : M DB Reply :=
  on_hash key (fun del => v ← read_element_checked key field del; mret (RInt (match v with Some v => Z.of_nat (length v) | None => 0 end))).

(** [as_counter] is the engine's switch for counter fields. *)
Definition hincrby (as_counter : bool) (key field : bytes) (delta : Z) : M DB Reply :=
  on_hash key (fun del =>
    _ ← ensure_head node_id wall key CTYPE_HASH;
    if as_counter then incr_counter_field key field delta del else
    v ← read_element_checked key field del;
    match (match v with None => Some 0 | Some v => if utf8_ok v then parse_i64 v else None end) with
    | None => mret hash_not_int
    | Some cur =>
        let new := cur + delta in
        if negb ((- 2 ^ 63 <=? new) && (new <? 2 ^ 63)) then mret overflow_err else
        _ ← write_field key field (Z_to_string new); mret (RInt new)
    end).
Definition hincrbyfloat (key field : bytes) (delta : Z) : M DB Reply :=
  on_hash key (fun del =>
    v ← read_element_checked key field del;
    match (match v with None => Some 0 | Some v => parse_double v end) with
    | None => mret (RErr (str "ERR hash value is not a float"))
    | Some cur =>
        let new := f64_add cur delta in
        if is_nan new || is_infinite new then mret (RErr (str "ERR increment would produce NaN or Infinity")) else
        _ ← ensure_head node_id wall key CTYPE_HASH;
        _ ← write_field key field (fmt_f64 new); mret (RBulk (fmt_f64 new))
    end).

Definition hrandfield (key : bytes) (count : option Z) (withvalues : bool) : M DB Reply :=
  on_hash key (fun del =>
    es ← hash_entries key del;
    if bool_decide (es = []) then mret (match count with None => RNull | Some _ => RArray [] end) else
    seed ← hlc_now wall;
    let pick i := default ([], []) (es !! Z.to_nat (wrap 64 (seed + i) mod Z.of_nat (length es))) in
    mret (match count with
          | None => RBulk (pick 0).1
          | Some n =>
              RArray (flat_map (fun i => let e := pick (Z.of_nat i) in
                                         RBulk e.1 :: if withvalues then [RBulk e.2] else [])
                               (seq 0 (Z.to_nat (Z.min (Z.abs n) (Z.of_nat (length es))))))
          end)).
Definition hscan (key : bytes) (pattern : option bytes) (novalues : bool) : M DB Reply :=
  on_hash key (fun del =>
    es ← hash_entries key del;
    mret (RArray [RBulk (str "0");
                  RArray (flat_map (fun e => if matches pattern e.1 then RBulk e.1 :: (if novalues then [] else [RBulk e.2]) else []) es)])).

(** ** The argument layer *)

Fixpoint pairs_of (l : list bytes) : list (bytes * bytes) :=
  match l with f :: v :: l => (f, v) :: pairs_of l | _ => [] end.

(** The block [FIELDS n f1 .. fn] at the end; an error is the reply. *)
Definition parse_fields_block (args : list bytes) : Reply + list bytes :=
  match args with
  | a :: rest =>
      if negb (eq_ignore_case a "FIELDS") then inl syntax else
      match rest with
      | [] => inl not_int
      | n :: fields =>
          match parse_u64 n with
          | None => inl not_int
          | Some n => if (n =? 0) || negb (Z.of_nat (length fields) =? n) then inl syntax else inr fields
          end
      end
  | [] => inl syntax
  end.
(** The mode and the rest of the arguments. *)
Definition parse_hash_expiration (args : list bytes) (allow_persist allow_keepttl : bool)
    : M DB (Reply + HashExpireMode * list bytes) :=
  match args with
  | [] => mret (inr (NoMode, []))
  | a :: rest =>
      if allow_persist && eq_ignore_case a "PERSIST" then mret (inr (Persist, rest))
      else if allow_keepttl && eq_ignore_case a "KEEPTTL" then mret (inr (KeepTtl, rest))
      else
        let unit_ := if eq_ignore_case a "EX" then Some (1000, false)
                     else if eq_ignore_case a "PX" then Some (1, false)
                     else if eq_ignore_case a "EXAT" then Some (1000, true)
                     else if eq_ignore_case a "PXAT" then Some (1, true) else None in
        match unit_ with
        | None => mret (inr (NoMode, args))
        | Some (mult, absolute) =>
            match rest with
            | [] => mret (inl not_int)
            | n :: rest =>
                match parse_i64 n with
                | None => mret (inl not_int)
                | Some n => d ← deadline_from n mult absolute; mret (inr (Deadline d, rest))
                end
            end
        end
  end.

Definition hset_args (args : list bytes) (hmset_reply : bool) : M DB Reply :=
  match args with
  | _ :: key :: (_ :: _ :: _ as rest) =>
      if Nat.even (length rest) then hset key (pairs_of rest) hmset_reply else mret (wrong_args "hset")
  | _ => mret (wrong_args "hset")
  end.
Definition hsetnx_args (args : list bytes) : M DB Reply :=
  match args with [_; key; f; v] => hsetnx key f v | _ => mret (wrong_args "hsetnx") end.
Definition hget_args (args : list bytes) : M DB Reply :=
  match args with [_; key; f] => hget key f | _ => mret (wrong_args "hget") end.
Definition hmget_args (args : list bytes) : M DB Reply :=
  match args with _ :: key :: (_ :: _ as fs) => hmget key fs | _ => mret (wrong_args "hmget") end.
Definition hgetall_args (args : list bytes) : M DB Reply :=
  match args with [_; key] => hgetall key | _ => mret (wrong_args "hgetall") end.
Definition hdel_args (args : list bytes) : M DB Reply :=
  match args with _ :: key :: (_ :: _ as fs) => hdel key fs | _ => mret (wrong_args "hdel") end.
Definition cond_of (a : bytes) : option ExpireCond :=
  if eq_ignore_case a "NX" then Some CondNx else if eq_ignore_case a "XX" then Some CondXx
  else if eq_ignore_case a "GT" then Some CondGt else if eq_ignore_case a "LT" then Some CondLt else None.
Definition hexpire_args (args : list bytes) (mult : Z) (absolute : bool) : M DB Reply :=
  match args with
  | _ :: key :: n :: (a :: _ :: _ as rest) =>
      match parse_i64 n with
      | None => mret not_int
      | Some n =>
          let '(cond, rest) := match cond_of a with Some c => (c, drop 1 rest) | None => (CondNone, rest) end in
          match parse_fields_block rest with
          | inl r => mret r
          | inr fields => d ← deadline_from n mult absolute; hexpire key fields d cond
          end
      end
  | _ => mret (wrong_args "hexpire")
  end.
Definition fields_args (name : string) (f : bytes -> list bytes -> M DB Reply) (args : list bytes) : M DB Reply :=
  match args with
  | _ :: key :: (_ :: _ :: _ as rest) =>
      match parse_fields_block rest with inl r => mret r | inr fields => f key fields end
  | _ => mret (wrong_args name)
  end.
Definition httl_args (args : list bytes) (millis expiretime : bool) : M DB Reply :=
  fields_args "httl" (fun key fields => httl key fields millis expiretime) args.
Definition hpersist_args : list bytes -> M DB Reply := fields_args "hpersist" hpersist.
Definition hgetdel_args : list bytes -> M DB Reply := fields_args "hgetdel" hgetdel.
Definition hgetex_args (args : list bytes) : M DB Reply :=
  match args with
  | _ :: key :: (_ :: _ :: _ as rest) =>
      m ← parse_hash_expiration rest true false;
      match m with
      | inl r => mret r
      | inr (mode, rest) =>
          match parse_fields_block rest with inl r => mret r | inr fields => hgetex key mode fields end
      end
  | _ => mret (wrong_args "hgetex")
  end.
(** [n * 2] wraps. *)
Definition parse_fvs (args : list bytes) : Reply + list (bytes * bytes) :=
  match args with
  | a :: rest =>
      if negb (eq_ignore_case a "FVS") then inl syntax else
      match rest with
      | [] => inl not_int
      | n :: rest =>
          match parse_u64 n with
          | None => inl not_int
          | Some n => if (n =? 0) || negb (Z.of_nat (length rest) =? wrap 64 (n * 2)) then inl syntax else inr (pairs_of rest)
          end
      end
  | [] => inl syntax
  end.
Definition hsetex_args (args : list bytes) : M DB Reply :=
  match args with
  | _ :: key :: (a :: _ :: _ :: _ as rest) =>
      let fnx := eq_ignore_case a "FNX" in
      let fxx := eq_ignore_case a "FXX" in
      m ← parse_hash_expiration (if fnx || fxx then drop 1 rest else rest) false true;
      match m with
      | inl r => mret r
      | inr (mode, rest) => match parse_fvs rest with inl r => mret r | inr pairs => hsetex key fnx fxx mode pairs end
      end
  | _ => mret (wrong_args "hsetex")
  end.
Definition hexists_args (args : list bytes) : M DB Reply :=
  match args with [_; key; f] => hexists key f | _ => mret (wrong_args "hexists") end.
Definition hlen_args (args : list bytes) : M DB Reply :=
  match args with [_; key] => hlen key | _ => mret (wrong_args "hlen") end.
Definition hkeys_args (args : list bytes) (keys : bool) : M DB Reply :=
  match args with [_; key] => hkeys key keys | _ => mret (wrong_args "hkeys") end.
Definition hstrlen_args (args : list bytes) : M DB Reply :=
  match args with [_; key; f] => hstrlen key f | _ => mret (wrong_args "hstrlen") end.
Definition hincrby_args (as_counter : bool) (args : list bytes) : M DB Reply :=
  match args with
  | [_; key; f; d] => match parse_i64 d with Some d => hincrby as_counter key f d | None => mret not_int end
  | _ => mret (wrong_args "hincrby")
  end.
Definition hincrbyfloat_args (args : list bytes) : M DB Reply :=
  match args with
  | [_; key; f; d] => match parse_f64 d with Some d => hincrbyfloat key f d | None => mret not_float end
  | _ => mret (wrong_args "hincrbyfloat")
  end.
Definition hrandfield_args (args : list bytes) : M DB Reply :=
  match args with
  | [_; key] => hrandfield key None false
  | [_; key; n] => hrandfield key (parse_i64 n) false
  | [_; key; n; w] => hrandfield key (parse_i64 n) (eq_ignore_case w "WITHVALUES")
  | _ => mret (wrong_args "hrandfield")
  end.
(** [None] is a syntax error. *)
Fixpoint hscan_opts (args : list bytes) (pattern : option bytes) (novalues : bool) : option (option bytes * bool) :=
  match args with
  | [] => Some (pattern, novalues)
  | a :: rest =>
      if eq_ignore_case a "MATCH" then match rest with [] => Some (None, novalues) | p :: rest => hscan_opts rest (Some p) novalues end
      else if eq_ignore_case a "COUNT" then match rest with [] => Some (pattern, novalues) | _ :: rest => hscan_opts rest pattern novalues end
      else if eq_ignore_case a "NOVALUES" then hscan_opts rest pattern true
      else None
  end.
Definition hscan_args (args : list bytes) : M DB Reply :=
  match args with
  | _ :: key :: _ :: opts => match hscan_opts opts None false with Some (p, nv) => hscan key p nv | None => mret syntax end
  | _ => mret (wrong_args "hscan")
  end.
End hashes.
