(* ===== verification/HashLaws.v ===== *)
(** * Hash commands refine a finite map

    [hstep] is the abstract specification of the hash commands on one key: a
    finite map from field to value and deadline. The handlers of [HashCmd]
    implement it over any run on one node in which no deadline passes
    unnoticed, whatever removed and overwritten fields have left behind. *)

From Stdlib Require Import String.
From S2P Require Import Prelude Partition Hlc Envelope Ikey Counter Lattice Merge MergeLaws F64 Store Resp Reply Glob Server.
From S2P Require Import ListCmd ListLaws ListRefine Generic GenericLaws StringCmd ElemLaws HashCmd.

(** ** The abstract hash *)

Abbreviation hash := (gmap bytes (bytes * Z)).

Inductive hop :=
  | HSet (pairs : list (bytes * bytes)) (hm : bool)
  | HSetNx (f v : bytes)
  | HGet (f : bytes)
  | HMGet (fs : list bytes)
  | HGetAll
  | HDel (fs : list bytes)
  | HExists (f : bytes)
  | HLen
  | HKeys (keys : bool)
  | HStrLen (f : bytes)
  | HScan (pattern : option bytes) (novalues : bool)
  | HExpire (fs : list bytes) (d : Z) (cond : ExpireCond)
  | HExpirePast (fs : list bytes) (d : Z) (cond : ExpireCond)
  | HPersist (fs : list bytes)
  | HExpireTime (fs : list bytes) (millis : bool)
  | HGetDel (fs : list bytes)
  | HGetEx (mode : HashExpireMode) (fs : list bytes)
  | HSetEx (fnx fxx : bool) (mode : HashExpireMode) (pairs : list (bytes * bytes))
  | HIncrBy (f : bytes) (delta : Z).

(** The fields and values in byte order of the fields. *)
Definition listing (G : hash) : list (bytes * bytes) := omap (fun f => (fun x => (f, x.1)) <$> G !! f) (sorted (dom G)).
Definition field_value (G : hash) (f : bytes) : option bytes := fst <$> G !! f.

(** A step per argument, the replies collected. *)
Fixpoint each_ref {A B} (g : A -> hash -> B * hash) (l : list A) (G : hash) : list B * hash :=
  match l with
  | [] => ([], G)
  | x :: l => let (r, G1) := g x G in let (rs, G2) := each_ref g l G1 in (r :: rs, G2)
  end.

Definition set_ref (e : bytes * bytes) (G : hash) : Z * hash :=
  (if G !! e.1 then 0 else 1, <[e.1 := (e.2, 0)]> G).
Definition del_ref (f : bytes) (G : hash) : Z * hash := (if G !! f then 1 else 0, delete f G).
(** A field without deadline lives for ever: NX is for such fields, XX for the
    others, GT never shortens and LT never extends a life. *)
Definition cond_ref (ttl d : Z) (cond : ExpireCond) : bool :=
  match cond, (if ttl =? 0 then None else Some ttl) with
  | CondNone, _ | CondNx, None | CondXx, Some _ | CondLt, None => true
  | CondNx, Some _ | CondXx, None | CondGt, None => false
  | CondGt, Some t => t <? d
  | CondLt, Some t => d <? t
  end.
Definition expire_ref (gone : bool) (d : Z) (cond : ExpireCond) (f : bytes) (G : hash) : Z * hash :=
  match G !! f with
  | None => (-2, G)
  | Some (v, ttl) =>
      if negb (cond_ref ttl d cond) then (0, G)
      else if gone then (2, delete f G) else (1, <[f := (v, d)]> G)
  end.
Definition persist_ref (f : bytes) (G : hash) : Z * hash :=
  match G !! f with
  | None => (-2, G)
  | Some (v, ttl) => if ttl =? 0 then (-1, G) else (1, <[f := (v, 0)]> G)
  end.
Definition expiretime_ref (millis : bool) (f : bytes) (G : hash) : Z * hash :=
  (match G !! f with
   | None => -2
   | Some (_, ttl) => if ttl =? 0 then -1 else to_signed 64 (if millis then ttl else ttl / 1000)
   end, G).
Definition getdel_ref (f : bytes) (G : hash) : Reply * hash := (bulk_or_null (field_value G f), delete f G).
Definition getex_ref (mode : HashExpireMode) (f : bytes) (G : hash) : Reply * hash :=
  match G !! f with
  | None => (RNull, G)
  | Some (v, ttl) =>
      (RBulk v, match mode with
                | Deadline d => <[f := (v, d)]> G
                | Persist => <[f := (v, 0)]> G
                | KeepTtl | NoMode => G
                end)
  end.
Definition setex_ref (mode : HashExpireMode) (e : bytes * bytes) (G : hash) : unit * hash :=
  (tt, <[e.1 := (e.2, match mode with
                      | Deadline d => d
                      | KeepTtl => match G !! e.1 with Some (_, ttl) => ttl | None => 0 end
                      | Persist | NoMode => 0
                      end)]> G).
Definition present (G : hash) (e : bytes * bytes) : bool := if G !! e.1 then true else false.

Definition hstep (o : hop) (G : hash) : Reply * hash :=
  match o with
  | HSet pairs hm => let (ns, G') := each_ref set_ref pairs G in (if hm then ok else RInt (fold_right Z.add 0 ns), G')
  | HSetNx f v => if G !! f then (RInt 0, G) else (RInt 1, <[f := (v, 0)]> G)
  | HGet f => (bulk_or_null (field_value G f), G)
  | HMGet fs => (RArray (map (fun f => bulk_or_null (field_value G f)) fs), G)
  | HGetAll => (RMap (map (fun e => (RBulk e.1, RBulk e.2)) (listing G)), G)
  | HDel fs => let (ns, G') := each_ref del_ref fs G in (RInt (fold_right Z.add 0 ns), G')
  | HExists f => (RInt (if G !! f then 1 else 0), G)
  | HLen => (RInt (Z.of_nat (size G)), G)
  | HKeys keys => (RArray (map (fun e => RBulk (if keys then e.1 else e.2)) (listing G)), G)
  | HStrLen f => (RInt (Z.of_nat (length (default [] (field_value G f)))), G)
  | HScan pattern novalues =>
      (RArray [RBulk (str "0");
               RArray (flat_map (fun e => RBulk e.1 :: if novalues then [] else [RBulk e.2]) (List.filter (fun e => matches pattern e.1) (listing G)))], G)
  | HExpire fs d cond => let (rs, G') := each_ref (expire_ref false d cond) fs G in (RArray (map RInt rs), G')
  | HExpirePast fs d cond => let (rs, G') := each_ref (expire_ref true d cond) fs G in (RArray (map RInt rs), G')
  | HPersist fs => let (rs, G') := each_ref persist_ref fs G in (RArray (map RInt rs), G')
  | HExpireTime fs millis => (RArray (map (fun f => RInt (expiretime_ref millis f G).1) fs), G)
  | HGetDel fs => let (rs, G') := each_ref getdel_ref fs G in (RArray rs, G')
  | HGetEx mode fs => let (rs, G') := each_ref (getex_ref mode) fs G in (RArray rs, G')
  | HSetEx fnx fxx mode pairs =>
      if fnx && existsb (present G) pairs then (RInt 0, G)
      else if fxx && existsb (fun e => negb (present G e)) pairs then (RInt 0, G)
      else (RInt 1, (each_ref (setex_ref mode) pairs G).2)
  | HIncrBy f delta =>
      match (match field_value G f with None => Some 0 | Some v => if utf8_ok v then parse_i64 v else None end) with
      | None => (hash_not_int, G)
      | Some cur =>
          let new := cur + delta in
          if negb ((- 2 ^ 63 <=? new) && (new <? 2 ^ 63)) then (overflow_err, G)
          else (RInt new, <[f := (Z_to_string new, 0)]> G)
      end
  end.

Fixpoint hrun (os : list hop) (G : hash) : list Reply * hash :=
  match os with
  | [] => ([], G)
  | o :: os => let (r, G1) := hstep o G in let (rs, G2) := hrun os G1 in (r :: rs, G2)
  end.

(** Clock ticks an operation takes at most: one per record written. *)
Definition hcost (o : hop) : nat :=
  match o with
  | HSet pairs _ | HSetEx _ _ _ pairs => S (length pairs)
  | HSetNx _ _ | HIncrBy _ _ => 2
  | HDel fs | HExpire fs _ _ | HExpirePast fs _ _ | HPersist fs | HGetDel fs | HGetEx _ fs => length fs
  | _ => 0
  end.

Section handlers.
Context {DB : Type} `{!KV DB} (key : bytes) (node_id : Z) (wall : nat -> Z).

Definition run_hop (o : hop) : M DB Reply :=
  match o with
  | HSet pairs hm => hset node_id wall key pairs hm
  | HSetNx f v => hsetnx node_id wall key f v
  | HGet f => hget wall key f
  | HMGet fs => hmget wall key fs
  | HGetAll => hgetall wall key
  | HDel fs => hdel node_id wall key fs
  | HExists f => hexists wall key f
  | HLen => hlen wall key
  | HKeys keys => hkeys wall key keys
  | HStrLen f => hstrlen wall key f
  | HScan pattern novalues => hscan wall key pattern novalues
  | HExpire fs d cond | HExpirePast fs d cond => hexpire node_id wall key fs d cond
  | HPersist fs => hpersist node_id wall key fs
  | HExpireTime fs millis => httl wall key fs millis true
  | HGetDel fs => hgetdel node_id wall key fs
  | HGetEx mode fs => hgetex node_id wall key mode fs
  | HSetEx fnx fxx mode pairs => hsetex node_id wall key fnx fxx mode pairs
  | HIncrBy f delta => hincrby node_id wall false key f delta
  end.
Fixpoint run_hops (os : list hop) : M DB (list Reply) :=
  match os with
  | [] => mret []
  | o :: os => r ← run_hop o; rs ← run_hops os; mret (r :: rs)
  end.
End handlers.

(** ** Pure parts *)

Lemma dec_loop_length n : forall v acc, (length (dec_loop n v acc) <= n + length acc)%nat.
Proof. induction n as [|n IH]; intros v acc; cbn [dec_loop]; [lia|]. destruct (_ =? 0); [simpl; lia|]. etransitivity; [apply IH|]. simpl. lia. Qed.
Lemma Z_to_string_fits z : value_len_ok (Z_to_string z).
Proof.
  assert (L : forall v, (length (dec_loop 20 v []) <= 20)%nat) by (intros v; etransitivity; [apply dec_loop_length|done]).
  unfold value_len_ok, Z_to_string. destruct (z <? 0); [specialize (L (- z))|specialize (L z)]; revert L; generalize (dec_loop 20 (- z) []) (dec_loop 20 z []);
    intros l l' L; cbn [length]; lia.
Qed.

Section refine.
Context {DB : Type} `{KVLaws DB}.
Context (key : bytes) (key_len : slice_len_ok key) (key_bytes : is_bytes key).
Context (node_id : Z) (wall : nat -> Z) (node_range : u16 node_id) (walls : forall n, 0 <= wall n < 2 ^ 47).

Abbreviation field_key := (elem_key THashField key).
Abbreviation field_prefix := (elem_prefix THashField key).
Abbreviation coll_state := (coll_state THashField HashField key wall).
Abbreviation at_elem := (at_elem THashField key).
Abbreviation entries := (entries THashField key).
Abbreviation entry_of := (entry_of THashField key).

(** The state the commands work in: [n] clock ticks are left. *)
Record hash_inv (n : nat) (G : hash) (del : Z) (s : Shard DB) : Prop := {
  hi_typed : coll_typed key CTYPE_HASH del (db s) (hlc_word s);
  hi_state : coll_state n del s;
  hi_is : forall f, at_elem (db s) del f = G !! f;
}.

Lemma hash_quiet n G del s s' : quiet s s' -> hash_inv n G del s -> hash_inv n G del s'.
Proof. intros Q [T S I]. pose proof Q as (Ed & _ & Ew). split; [by rewrite Ed, Ew|by eapply coll_quiet|by rewrite Ed]. Qed.
Lemma hash_tick n G del s : hash_inv n G del s -> hash_inv n G del (tick s).
Proof. apply hash_quiet, quiet_tick. Qed.
Lemma hash_weaken n m G del s : (n <= m)%nat -> hash_inv m G del s -> hash_inv n G del s.
Proof. intros L [T S I]. split; [done|by eapply coll_weaken|done]. Qed.

Lemma on_hash_eq n G del s f : hash_inv n G del s -> on_hash wall key f s = f del (tick s).
Proof.
  intros [T _ _]. unfold on_hash, hash_del_hlc, mbind, M_bind. by rewrite (check_type_coll key CTYPE_HASH eq_refl wall del s _ T).
Qed.

(** ** Reading *)

Lemma display_own w r : own_ok HashField w r -> rtype (erec_env r) = HashField /\
  element_display_value HashField (ElementState_encode (er_st r)) = Ret (st_value (er_st r)).
Proof.
  intros O. pose proof (element_flags_spec (er_type r) (is_dead (er_st r)) (er_ver r).1 (er_ver r).2 (er_ttl r)) as (Tr & _).
  split; [unfold erec_env; by rewrite Tr, (oo_type _ _ _ O)|]. unfold element_display_value. cbn [rust_bind bool_decide decide_rel]. apply (own_reads HashField w r O).
Qed.

Lemma read_env_eq n G del s f : hash_inv n G del s -> exists s' env, read_field_env wall key f del s =
  Ret ((fun x => (env, x.1)) <$> G !! f, s') /\ quiet s s' /\ (forall v ttl, G !! f = Some (v, ttl) -> ttl_deadline_ms env = ttl).
Proof.
  intros [_ [W _ _] I]. unfold read_field_env, mbind, M_bind, get_raw, reads. cbn [rust_bind fst snd].
  change (hash_field_key key f) with (field_key f). rewrite <- (I f).
  destruct (elem_cases THashField HashField key wall (db s) (hlc_word s) del f W) as [Gt A|r O T Gt A V|r v O T Gt A Sv V]; rewrite Gt, A; cbn [option_bind].
  - exists s, (mkEnvelope 0 0 0 0). done.
  - destruct (own_reads HashField _ r O) as (-> & _). unfold now_ms. cbn [rust_bind fst snd]. rewrite V. by exists (tick s), (mkEnvelope 0 0 0 0).
  - destruct (own_reads HashField _ r O) as (-> & _). destruct (display_own _ r O) as [Er Ev]. unfold now_ms, lift. cbn [rust_bind fst snd]. rewrite V, Er, Ev.
    cbn [rust_bind fst snd]. rewrite Sv. exists (tick s), (erec_env r). split; [done|]. split; [apply quiet_tick|]. by intros v' ttl' [= _ <-].
Qed.

Lemma read_value_eq n G del s f : hash_inv n G del s -> exists s',
  read_element_checked wall key f del s = Ret (field_value G f, s') /\ quiet s s'.
Proof.
  intros [_ [W _ _] I]. unfold read_element_checked, read_element, mbind, M_bind, get_raw, reads. cbn [rust_bind fst snd].
  change (hash_field_key key f) with (field_key f). unfold field_value. rewrite <- (I f).
  destruct (elem_cases THashField HashField key wall (db s) (hlc_word s) del f W) as [Gt A|r O T Gt A V|r v O T Gt A Sv V]; rewrite Gt, A; cbn [option_bind].
  - by exists s.
  - destruct (own_reads HashField _ r O) as (-> & _). unfold now_ms. cbn [rust_bind fst snd]. rewrite V. by exists (tick s).
  - destruct (own_reads HashField _ r O) as (-> & _). destruct (display_own _ r O) as [Er Ev]. unfold now_ms, lift. cbn [rust_bind fst snd]. rewrite V, Er, Ev.
    cbn [rust_bind fst snd]. rewrite Sv. by exists (tick s).
Qed.

Lemma field_exists_eq n G del s f : hash_inv n G del s -> exists s',
  field_exists wall key f del s = Ret (if G !! f then true else false, s') /\ hash_inv n G del s'.
Proof.
  intros I. destruct (read_value_eq n G del s f I) as (s' & E & Q). exists s'. unfold field_exists, mbind, M_bind. rewrite E. cbn [rust_bind fst snd].
  split; [|by eapply hash_quiet]. unfold field_value. destruct (G !! f); done.
Qed.

Lemma entries_listing d del G : keys_are_bytes d -> (forall f, at_elem d del f = G !! f) ->
  (fun e => (e.1, e.2.1)) <$> entries d del = listing G.
Proof.
  intros B I. unfold listing. assert (Es : fst <$> entries d del = sorted (dom G)).
  { apply sorted_eq; [by apply entries_sorted|]. intros f. rewrite list_elem_of_fmap, elem_of_dom, <- I. split.
    - intros ([f' x] & -> & J). apply entries_spec in J; [|done]. cbn [fst]. eauto.
    - intros [x E]. exists (f, x). split; [done|]. by apply entries_spec. }
  rewrite <- Es. assert (F : Forall (fun e => G !! e.1 = Some e.2) (entries d del)).
  { apply Forall_forall. intros [f x] J. apply entries_spec in J; [|done]. by rewrite <- I. }
  clear Es. induction F as [|[f x] l E F IH]; [done|]. cbn [fmap list_fmap omap list_omap fst snd] in *. rewrite E. cbn. by f_equal.
Qed.

Lemma shown_field_eq w del n k v : (exists m r, k = field_key m /\ own_ok HashField w r /\ in_time wall (er_ttl r) /\ v = erec_bytes r) ->
  shown_field del (wall n) k v = Ret ((fun e => (e.1, e.2.1)) <$> entry_of del (k, v)).
Proof.
  intros (m & r & -> & O & T & ->). unfold shown_field. rewrite (parse_elem THashField eq_refl key key_len m). cbn [rust_bind].
  destruct (own_reads HashField _ r O) as (-> & _). destruct (display_own _ r O) as [Er Ev]. unfold ElemLaws.entry_of. cbn [fst snd].
  rewrite elem_suffix, (shown_own HashField w r del O), Er. unfold shown_rec, visible.
  rewrite erec_env_tombstone, (in_time_env wall _ (er_ttl r)) by done. change (hlc (erec_env r)) with (er_ver r).1.
  rewrite orb_false_r. unfold is_dead, st_value in *. destruct (_ <=? del); [by rewrite orb_true_r|]. rewrite orb_false_r.
  destruct (live (er_st r)); [done|]. by rewrite Ev.
Qed.

Lemma hash_entries_eq n G del s : hash_inv n G del s -> hash_entries wall key del s = Ret (listing G, tick s).
Proof.
  intros [_ [[B We] _ _] I]. rewrite <- (entries_listing (db s) del G) by done. unfold hash_entries, mbind, M_bind, now_ms. cbn [rust_bind fst snd].
  unfold scan_prefix, scan_from. cbn [db]. change (collection_prefix THashField key) with field_prefix. fold (with_prefix (db s) field_prefix). unfold ElemLaws.entries.
  assert (F : Forall (fun e => starts_with e.1 field_prefix = true /\
    exists m r, e.1 = field_key m /\ own_ok HashField (hlc_word s) r /\ in_time wall (er_ttl r) /\ e.2 = erec_bytes r) (with_prefix (db s) field_prefix)).
  { apply Forall_forall. intros [k b] J. apply with_prefix_spec in J as [Gk P]; [|done]. split; [done|]. apply under_prefix in P as (m & ->).
    destruct (We m b Gk) as (r & O & T & ->). by exists m, r. }
  assert (L : forall l out, Forall (fun e => starts_with e.1 field_prefix = true /\
      exists m r, e.1 = field_key m /\ own_ok HashField (hlc_word s) r /\ in_time wall (er_ttl r) /\ e.2 = erec_bytes r) l ->
    scan_loop field_prefix (fun out k v => let! e := shown_field del (wall (ticks s)) k v in
      Ret (match e with Some e => out ++ [e] | None => out end, true)) out l =
    Ret (out ++ ((fun e => (e.1, e.2.1)) <$> omap (entry_of del) l))).
  { clear F. induction l as [|[k v] l IH]; intros out F; [simpl; by rewrite app_nil_r|]. apply Forall_cons in F as [[P Gd] F]. cbn [fst snd] in P, Gd.
    cbn [scan_loop]. rewrite P. cbn [negb]. rewrite (shown_field_eq _ del (ticks s) k v Gd). cbn [rust_bind fst snd omap list_omap].
    destruct (entry_of del (k, v)) as [e|]; cbn [fmap option_fmap option_map list_fmap]; rewrite IH by done; [by rewrite <- app_assoc|done]. }
  by rewrite (L _ [] F).
Qed.

Lemma listing_length G : length (listing G) = size G.
Proof.
  unfold listing. rewrite <- size_dom, <- sorted_length.
  assert (F : Forall (fun f => is_Some (G !! f)) (sorted (dom G))).
  { apply Forall_forall. intros f J. apply sorted_elem, elem_of_dom in J. done. }
  induction F as [|f l [x E] F IH]; [done|]. cbn [omap list_omap]. rewrite E. simpl. by f_equal.
Qed.

(** ** Writing *)

Lemma field_frame del d d' w w' f : w <= w' -> Store.frame (field_key f) d d' -> coll_typed key CTYPE_HASH del d w -> coll_typed key CTYPE_HASH del d' w'.
Proof.
  intros L F. apply (typed_frame key CTYPE_HASH eq_refl) with (w := w); [done..|]. intros k [->|[->| ->]]; apply F; intros E; apply (f_equal (.!! 2%nat)) in E; discriminate.
Qed.

(** A write that shows [o] for [f]. *)
Lemma inv_wrote n G del s s' f o : hash_inv (S n) G del s -> coll_state n del s' -> wrote_elem THashField key f o del s s' ->
  hash_inv n (match o with Some x => <[f := x]> G | None => delete f G end) del s'.
Proof.
  intros [T S I] S' (L & Fr & A). split; [eapply field_frame; [|done|done]; lia|done|]. intros q. rewrite A.
  destruct (decide (q = f)) as [->|Ne]; [destruct o; by simplify_map_eq|]. rewrite I. destruct o; by simplify_map_eq.
Qed.

Lemma write_ttl_eq n G del s f v ttl : hash_inv (S n) G del s -> is_bytes f -> value_len_ok v -> in_time wall ttl -> exists s',
  write_field_ttl node_id wall key f v ttl s = Ret (tt, s') /\ hash_inv n (<[f := (v, ttl)]> G) del s'.
Proof.
  intros I Fb Vl T.
  destruct (elem_add_eq THashField eq_refl ltac:(done) HashField eq_refl ltac:(done) key key_len key_bytes node_id wall node_range walls
    n del s f v ttl (hi_state _ _ _ _ I) Fb Vl T) as (h & s1 & s' & E & Wr & S' & Wo & _).
  exists s'. unfold write_field_ttl, mbind, M_bind. rewrite E. cbn [rust_bind fst snd]. change (hash_field_key key f) with (field_key f). rewrite Wr.
  split; [done|]. by eapply (inv_wrote n G del s s' f (Some (v, ttl))).
Qed.
Lemma write_field_eq n G del s f v : hash_inv (S n) G del s -> is_bytes f -> value_len_ok v -> exists s',
  write_field node_id wall key f v s = Ret (tt, s') /\ hash_inv n (<[f := (v, 0)]> G) del s'.
Proof. intros I Fb Vl. apply (write_ttl_eq n G del s f v 0 I Fb Vl (no_deadline wall)). Qed.

Lemma shown_bytes n G del s f : hash_inv n G del s -> is_Some (G !! f) -> is_bytes f.
Proof.
  intros [_ [[B _] _ _] I] [x E]. rewrite <- (I f) in E. unfold ElemLaws.at_elem in E. destruct (kv_get (db s) (field_key f)) as [b|] eqn:Gk; [|done].
  apply B in Gk. unfold elem_key in Gk. rewrite prefixed_split in Gk. apply is_bytes_app in Gk. apply Gk.
Qed.

Lemma remove_field_eq n G del s f : hash_inv (S n) G del s -> exists s',
  remove_field node_id wall key f del s = Ret (if G !! f then true else false, s') /\ hash_inv n (delete f G) del s'.
Proof.
  intros I. pose proof I as [_ S Is]. pose proof (shown_bytes _ _ _ _ f I) as Fb. unfold remove_field, mbind, M_bind, get_raw, reads. cbn [rust_bind fst snd].
  change (hash_field_key key f) with (field_key f).
  assert (Out : G !! f = None -> forall s', quiet s s' -> hash_inv n (delete f G) del s').
  { intros N s' Q. rewrite delete_id by done. apply (hash_weaken n (Datatypes.S n)); [lia|]. by eapply hash_quiet. }
  destruct (elem_cases THashField HashField key wall (db s) (hlc_word s) del f (cs_wf _ _ _ _ _ _ _ S)) as [Gt A|r O T Gt A V|r v O T Gt A Sv V];
    rewrite Gt; cbn [option_bind]; rewrite Is in A; rewrite A in *.
  - exists s. split; [done|by apply Out].
  - destruct (own_reads HashField _ r O) as (-> & _). unfold now_ms. cbn [rust_bind fst snd]. rewrite V. exists (tick s). split; [done|]. by apply Out.
  - destruct (own_reads HashField _ r O) as (-> & Ev & Ed). unfold now_ms, lift. cbn [rust_bind fst snd]. rewrite V, Ev. cbn [rust_bind fst snd].
    rewrite Sv, Ed. cbn [rust_bind fst snd]. fold (tick s). apply hash_tick in I.
    destruct (elem_remove_eq THashField eq_refl ltac:(done) HashField eq_refl ltac:(done) key key_len key_bytes node_id wall node_range walls
      n del (tick s) f r (hi_state _ _ _ _ I) ltac:(eauto) Gt O) as (h & s1 & s' & E & Wr & S' & Wo & _).
    rewrite E. cbn [rust_bind fst snd]. rewrite Wr. cbn [rust_bind fst snd]. exists s'. split; [done|]. by eapply (inv_wrote n G del (tick s) s' f None).
Qed.

Lemma restamp_eq n G del s f v ttl0 ttl : hash_inv (S n) G del s -> G !! f = Some (v, ttl0) -> in_time wall ttl -> exists s',
  restamp_field_ttl node_id wall key f ttl s = Ret (true, s') /\ hash_inv n (<[f := (v, ttl)]> G) del s'.
Proof.
  intros I Gf T. pose proof I as [_ S Is]. pose proof (shown_bytes _ _ _ _ f I ltac:(eauto)) as Fb. unfold restamp_field_ttl, mbind, M_bind, get_raw, reads.
  cbn [rust_bind fst snd]. change (hash_field_key key f) with (field_key f).
  destruct (elem_cases THashField HashField key wall (db s) (hlc_word s) del f (cs_wf _ _ _ _ _ _ _ S)) as [Gt A|r O T' Gt A V|r v' O T' Gt A Sv V];
    rewrite Is, Gf in A; try discriminate. injection A as <- _. rewrite Gt. cbn [option_bind]. destruct (own_reads HashField _ r O) as (-> & _). cbn [rust_bind fst snd].
  destruct (elem_stamp_eq THashField eq_refl ltac:(done) HashField eq_refl ltac:(done) key key_len key_bytes node_id wall node_range walls
    n del s f r v ttl S Fb Gt O Sv T ltac:(done)) as (h & s1 & s' & E & Wr & S' & Wo & _).
  rewrite E. cbn [rust_bind fst snd]. rewrite Wr. cbn [rust_bind fst snd]. exists s'. split; [done|]. by eapply (inv_wrote n G del s s' f (Some (v, ttl))).
Qed.

(** ** Deadlines *)

(** The deadline lies before every reading of the clock, or the clock never
    passes it. *)
Definition passed (d : Z) : Prop := d <> 0 /\ forall n, d <= wall n.

Lemma past_eq (gone : bool) d (s : Shard DB) : (if gone then passed d else in_time wall d) -> exists s', past wall d s = Ret (gone, s') /\ quiet s s'.
Proof.
  unfold past. destruct gone.
  - intros [Nz L]. rewrite (proj2 (Z.eqb_neq d 0)) by done. unfold mbind, M_bind, now_ms. cbn [rust_bind fst snd]. exists (tick s).
    by rewrite (proj2 (Z.leb_le d (wall (ticks s)))) by apply L.
  - intros [_ T]. destruct (d =? 0) eqn:E; [by exists s|]. unfold mbind, M_bind, now_ms. cbn [rust_bind fst snd]. exists (tick s).
    specialize (T (ticks s)). unfold is_expired in T. cbn [ttl_deadline_ms] in T. rewrite E in T. cbn [negb andb] in T. by rewrite T.
Qed.

Lemma condition_eq ttl d cond : ttl_condition_passes ttl d cond = cond_ref ttl d cond.
Proof. unfold ttl_condition_passes, cond_ref. by destruct cond, (ttl =? 0). Qed.

Lemma set_deadline_eq (gone : bool) n G del s d cond f : hash_inv (S n) G del s -> (if gone then passed d else in_time wall d) -> exists s',
  set_field_deadline node_id wall key f del d cond s = Ret ((expire_ref gone d cond f G).1, s') /\ hash_inv n (expire_ref gone d cond f G).2 del s'.
Proof.
  intros I Hd. destruct (read_env_eq _ G del s f I) as (s1 & env & E1 & Q & Et). unfold set_field_deadline, mbind, M_bind, expire_ref. rewrite E1.
  cbn [rust_bind fst snd]. apply (hash_quiet _ _ _ _ _ Q) in I. assert (I1 : hash_inv n G del s1) by (eapply hash_weaken; [|exact I]; lia).
  destruct (G !! f) as [[v ttl]|] eqn:Gf; cbn [fmap option_fmap option_map fst]; [|by exists s1]. rewrite (Et v ttl eq_refl), condition_eq.
  destruct (negb _); [by exists s1|]. destruct (past_eq gone d s1 Hd) as (s2 & E2 & Q2). rewrite E2. cbn [rust_bind fst snd].
  apply (hash_quiet _ _ _ _ _ Q2) in I. destruct gone.
  - destruct (remove_field_eq n G del s2 f I) as (s3 & E3 & I3). rewrite E3, Gf. by exists s3.
  - destruct (restamp_eq n G del s2 f v ttl d I Gf Hd) as (s3 & E3 & I3). rewrite E3. by exists s3.
Qed.

(** ** One step per argument *)

Lemma each_eq {A B} (f : A -> M DB B) (g : A -> hash -> B * hash) (c : nat) del l :
  (forall x n G s, x ∈ l -> hash_inv (c + n) G del s -> exists s', f x s = Ret ((g x G).1, s') /\ hash_inv n (g x G).2 del s') ->
  forall n G s, hash_inv (length l * c + n) G del s -> exists s', each_field f l s = Ret ((each_ref g l G).1, s') /\ hash_inv n (each_ref g l G).2 del s'.
Proof.
  induction l as [|x l IH]; intros Hf n G s I; cbn [each_field each_ref length Nat.mul plus] in *; [by exists s|]. unfold mbind, M_bind.
  rewrite <- Nat.add_assoc in I. destruct (Hf x _ G s ltac:(left) I) as (s1 & E1 & I1). rewrite E1. cbn [rust_bind fst snd].
  destruct (IH ltac:(intros; apply Hf; [by right|done]) n (g x G).2 s1 I1) as (s2 & E2 & I2). rewrite E2. cbn [rust_bind fst snd mret M_ret].
  destruct (g x G) as [r G1]. cbn [fst snd] in *. destruct (each_ref g l G1) as [rs G2]. by exists s2.
Qed.

Lemma each_ref_cons {A B} (g : A -> hash -> B * hash) x l G :
  (each_ref g (x :: l) G).1 = (g x G).1 :: (each_ref g l (g x G).2).1 /\ (each_ref g (x :: l) G).2 = (each_ref g l (g x G).2).2.
Proof. cbn [each_ref]. destruct (g x G) as [r G1]. cbn [fst snd]. by destruct (each_ref g l G1). Qed.

(** ** The commands *)

Definition pair_ok (e : bytes * bytes) : Prop := is_bytes e.1 /\ value_len_ok e.2.
Definition mode_ok (mode : HashExpireMode) : Prop := match mode with Deadline d => in_time wall d | _ => True end.
Definition hop_ok (o : hop) : Prop :=
  match o with
  | HSet pairs _ => Forall pair_ok pairs
  | HSetNx f v => pair_ok (f, v)
  | HIncrBy f _ => is_bytes f
  | HExpire _ d _ => in_time wall d
  | HExpirePast _ d _ => passed d
  | HGetEx mode _ => mode_ok mode
  | HSetEx _ _ mode pairs => Forall pair_ok pairs /\ mode_ok mode
  | _ => True
  end.
Definition implements (o : hop) : Prop := hop_ok o -> forall n G del s, hash_inv (hcost o + n) G del s ->
  exists s', run_hop key node_id wall o s = Ret ((hstep o G).1, s') /\ hash_inv n (hstep o G).2 del s'.

(** Every handler starts with the type check. *)
Ltac on_hash I := cbn [run_hop hcost plus] in *; erewrite on_hash_eq by exact I; apply hash_tick in I; unfold mbind, M_bind.

Lemma hget_implements f : implements (HGet f).
Proof.
  intros _ n G del s I. unfold run_hop, hget. on_hash I. destruct (read_value_eq n G del _ f I) as (s' & E & Q). rewrite E. exists s'. split; [done|]. by eapply hash_quiet.
Qed.
Lemma hexists_implements f : implements (HExists f).
Proof.
  intros _ n G del s I. unfold run_hop, hexists. on_hash I. destruct (field_exists_eq n G del _ f I) as (s' & E & I'). rewrite E. exists s'. split; [|done].
  cbn. by destruct (G !! f).
Qed.
Lemma hstrlen_implements f : implements (HStrLen f).
Proof.
  intros _ n G del s I. unfold run_hop, hstrlen. on_hash I. destruct (read_value_eq n G del _ f I) as (s' & E & Q). rewrite E. exists s'. split; [|by eapply hash_quiet].
  cbn. by destruct (field_value G f).
Qed.
Lemma hmget_implements fs : implements (HMGet fs).
Proof.
  intros _ n G del s I. unfold run_hop, hmget. on_hash I.
  destruct (each_eq (fun f => read_element_checked wall key f del) (fun f G => (field_value G f, G)) 0 del fs) with (n := n) (G := G) (s := tick s) as (s' & E & I').
  - intros x m G' s0 _ I0. destruct (read_value_eq m G' del s0 x I0) as (s1 & E1 & Q). exists s1. split; [done|]. by eapply hash_quiet.
  - by rewrite Nat.mul_0_r.
  - assert (R : each_ref (fun f G => (field_value G f, G)) fs G = (map (field_value G) fs, G)).
    { clear. induction fs as [|f fs IH]; [done|]. cbn [each_ref]. by rewrite IH. }
    rewrite E. rewrite R in I' |- *. exists s'. split; [|done]. cbn. by rewrite map_map.
Qed.
Lemma hgetall_implements : implements HGetAll.
Proof.
  intros _ n G del s I. unfold run_hop, hgetall. on_hash I. rewrite (hash_entries_eq n G) by done. eexists. split; [done|]. by apply hash_tick.
Qed.
Lemma hlen_implements : implements HLen.
Proof.
  intros _ n G del s I. unfold run_hop, hlen. on_hash I. rewrite (hash_entries_eq n G) by done. eexists. split; [cbn; by rewrite listing_length|]. by apply hash_tick.
Qed.
Lemma hkeys_implements keys : implements (HKeys keys).
Proof.
  intros _ n G del s I. unfold run_hop, hkeys. on_hash I. rewrite (hash_entries_eq n G) by done. eexists. split; [done|]. by apply hash_tick.
Qed.
Lemma flat_map_filter {A B} (p : A -> bool) (f : A -> list B) l :
  flat_map (fun e => if p e then f e else []) l = flat_map f (List.filter p l).
Proof. induction l as [|e l IH]; [done|]. cbn [flat_map List.filter]. destruct (p e); cbn [flat_map]; by rewrite IH. Qed.
Lemma hscan_implements pattern novalues : implements (HScan pattern novalues).
Proof.
  intros _ n G del s I. unfold run_hop, hscan. on_hash I. rewrite (hash_entries_eq n G) by done. eexists. split; [|by apply hash_tick]. cbn [rust_bind fst snd hstep].
  by rewrite (flat_map_filter (fun e : bytes * bytes => matches pattern e.1)).
Qed.

(** Commands that take a list of fields. *)
Lemma each_implements {B} (f : Z -> bytes -> M DB B) (g : bytes -> hash -> B * hash) (out : list B -> Reply) fs n G del s :
  (forall x n G s, hash_inv (1 + n) G del s -> exists s', f del x s = Ret ((g x G).1, s') /\ hash_inv n (g x G).2 del s') ->
  hash_inv (length fs + n) G del s ->
  exists s', on_hash wall key (fun del => rs ← each_field (f del) fs; mret (out rs)) s = Ret ((let (rs, G') := each_ref g fs G in (out rs, G')).1, s') /\
    hash_inv n (let (rs, G') := each_ref g fs G in (out rs, G')).2 del s'.
Proof.
  intros Hf I. rewrite (on_hash_eq _ G del s _ I). apply hash_tick in I. unfold mbind, M_bind. rewrite <- (Nat.mul_1_r (length fs)) in I.
  destruct (each_eq (f del) g 1 del fs (fun x n G s _ => Hf x n G s) n G _ I) as (s' & E & I'). rewrite E. destruct (each_ref g fs G). by exists s'.
Qed.

Lemma hexpire_implements fs d cond : implements (HExpire fs d cond).
Proof.
  intros Ok n G del s I. apply (each_implements (fun del f => set_field_deadline node_id wall key f del d cond) (expire_ref false d cond) (fun rs => RArray (map RInt rs))); [|done].
  intros x m G' s' I'. by apply (set_deadline_eq false).
Qed.
Lemma hexpire_past_implements fs d cond : implements (HExpirePast fs d cond).
Proof.
  intros Ok n G del s I. apply (each_implements (fun del f => set_field_deadline node_id wall key f del d cond) (expire_ref true d cond) (fun rs => RArray (map RInt rs))); [|done].
  intros x m G' s' I'. by apply (set_deadline_eq true).
Qed.
Lemma hpersist_implements fs : implements (HPersist fs).
Proof.
  intros Ok n G del s I. apply (each_implements (persist_field node_id wall key) persist_ref (fun rs => RArray (map RInt rs))); [|done].
  intros x m G' s' I'. destruct (read_env_eq _ G' del s' x I') as (s1 & env & E1 & Q & Et). unfold persist_field, mbind, M_bind, persist_ref. rewrite E1. cbn [rust_bind fst snd].
  apply (hash_quiet _ _ _ _ _ Q) in I'. assert (I1 : hash_inv m G' del s1) by (eapply hash_weaken; [|exact I']; lia).
  destruct (G' !! x) as [[v ttl]|] eqn:Gx; cbn [fmap option_fmap option_map fst]; [|by exists s1]. rewrite (Et v ttl eq_refl). destruct (ttl =? 0); [by exists s1|].
  destruct (set_deadline_eq false m G' del s1 0 CondNone x I' (no_deadline wall)) as (s2 & E2 & I2). unfold expire_ref in E2, I2. rewrite Gx in E2, I2. cbn in E2, I2.
  by exists s2.
Qed.
Lemma hgetdel_implements fs : implements (HGetDel fs).
Proof.
  intros Ok n G del s I. apply (each_implements (getdel_field node_id wall key) getdel_ref RArray); [|done].
  intros x m G' s' I'. unfold getdel_field, mbind, M_bind, getdel_ref. destruct (read_value_eq _ G' del s' x I') as (s1 & E1 & Q). rewrite E1. cbn [rust_bind fst snd].
  apply (hash_quiet _ _ _ _ _ Q) in I'. destruct (remove_field_eq m G' del s1 x I') as (s2 & E2 & I2). rewrite E2. by exists s2.
Qed.
Lemma hgetex_implements mode fs : implements (HGetEx mode fs).
Proof.
  intros Ok n G del s I. apply (each_implements (fun del f => getex_field node_id wall key del mode f) (getex_ref mode) RArray); [|done].
  intros x m G' s' I'. destruct (read_env_eq _ G' del s' x I') as (s1 & env & E1 & Q & Et). unfold getex_field, mbind, M_bind, getex_ref. rewrite E1. cbn [rust_bind fst snd].
  apply (hash_quiet _ _ _ _ _ Q) in I'. assert (I1 : hash_inv m G' del s1) by (eapply hash_weaken; [|exact I']; lia).
  destruct (G' !! x) as [[v ttl]|] eqn:Gx; cbn [fmap option_fmap option_map fst]; [|by exists s1].
  assert (St : forall d, in_time wall d -> exists s2, set_field_deadline node_id wall key x del d CondNone s1 = Ret (1, s2) /\ hash_inv m (<[x := (v, d)]> G') del s2).
  { intros d Td. destruct (set_deadline_eq false m G' del s1 d CondNone x I' Td) as (s2 & E2 & I2). unfold expire_ref in E2, I2. rewrite Gx in E2, I2. cbn in E2, I2. by exists s2. }
  destruct mode as [d| | |]; cbn [rust_bind mret M_ret fst snd]; try by exists s1.
  - destruct (St d Ok) as (s2 & E2 & I2). rewrite E2. by exists s2.
  - rewrite (Et v ttl eq_refl). destruct (ttl =? 0) eqn:Ez.
    + apply Z.eqb_eq in Ez. subst ttl. exists s1. split; [done|]. cbn [snd]. by rewrite insert_id.
    + destruct (St 0 (no_deadline wall)) as (s2 & E2 & I2). rewrite E2. by exists s2.
Qed.

Lemma hexpiretime_implements fs millis : implements (HExpireTime fs millis).
Proof.
  intros Ok n G del s I. unfold run_hop, httl. on_hash I.
  destruct (each_eq (fun f => field_expiretime_status wall key f del millis) (expiretime_ref millis) 0 del fs) with (n := n) (G := G) (s := tick s) as (s' & E & I').
  - intros x m G' s0 _ I0. destruct (read_env_eq m G' del s0 x I0) as (s1 & env & E1 & Q & Et). unfold field_expiretime_status, mbind, M_bind. rewrite E1. cbn [rust_bind fst snd].
    exists s1. split; [|by eapply hash_quiet]. unfold expiretime_ref. destruct (G' !! x) as [[v ttl]|] eqn:Gx; [|done]. cbn. by rewrite (Et v ttl eq_refl).
  - by rewrite Nat.mul_0_r.
  - assert (R : each_ref (expiretime_ref millis) fs G = (map (fun f => (expiretime_ref millis f G).1) fs, G)).
    { clear. induction fs as [|f fs IH]; [done|]. cbn [each_ref]. unfold expiretime_ref at 1. by rewrite IH. }
    cbv iota. rewrite E. rewrite R in I' |- *. exists s'. split; [|done]. cbn [rust_bind fst snd hstep]. by rewrite map_map.
Qed.

Lemma hdel_loop_eq fs : forall n G del s k, hash_inv (length fs + n) G del s -> exists s',
  hdel_loop node_id wall key del fs k s = Ret (k + fold_right Z.add 0 (each_ref del_ref fs G).1, s') /\ hash_inv n (each_ref del_ref fs G).2 del s'.
Proof.
  induction fs as [|f fs IH]; intros n G del s k I; cbn [hdel_loop length plus] in *; [exists s; cbn; by rewrite Z.add_0_r|].
  unfold mbind, M_bind. destruct (remove_field_eq _ G del s f I) as (s1 & E1 & I1). rewrite E1. cbn [rust_bind fst snd]. destruct (each_ref_cons del_ref f fs G) as [-> ->].
  destruct (IH n (delete f G) del s1 (if (if G !! f then true else false) then k + 1 else k) I1) as (s' & E' & I'). exists s'. rewrite E'.
  split; [|done]. do 2 f_equal. cbn [fold_right del_ref fst snd]. destruct (G !! f); lia.
Qed.
Lemma hdel_implements fs : implements (HDel fs).
Proof.
  intros _ n G del s I. unfold run_hop, hdel. on_hash I. destruct (hdel_loop_eq fs n G del _ 0 I) as (s' & E & I'). rewrite E. cbn [hstep].
  destruct (each_ref del_ref fs G). by exists s'.
Qed.

Lemma ensure_head_hash n G del s : hash_inv (S n) G del s -> exists s',
  ensure_head node_id wall key CTYPE_HASH s = Ret (del, s') /\ hash_inv n G del s'.
Proof.
  intros [T [[Wb We] R D] I].
  destruct (ensure_head_coll key key_len CTYPE_HASH eq_refl node_id wall node_range walls n del s T R) as (s' & E & T' & R' & L & Ep & Fr).
  assert (Gf : forall m, kv_get (db s') (field_key m) = kv_get (db s) (field_key m)).
  { intros m. apply Fr. intros Eq. apply (f_equal (.!! 2%nat)) in Eq. discriminate. }
  exists s'. split; [done|]. split; [done| |intros m; unfold ElemLaws.at_elem; rewrite Gf; apply I]. split; [|done|lia]. split.
  - intros k v Gk. destruct (decide (k = head_key key)) as [->|Ne]; [apply prefixed_is_bytes; [done|constructor]|]. rewrite Fr in Gk by done. by eapply Wb.
  - intros m v Gm. rewrite Gf in Gm. destruct (We m v Gm) as (r & O & Tm & ->). exists r. split; [|done]. by eapply own_ok_mono.
Qed.

Lemma hset_loop_eq pairs : Forall pair_ok pairs -> forall n G del s k, hash_inv (length pairs + n) G del s -> exists s',
  hset_loop node_id wall key del pairs k s = Ret (k + fold_right Z.add 0 (each_ref set_ref pairs G).1, s') /\ hash_inv n (each_ref set_ref pairs G).2 del s'.
Proof.
  induction 1 as [|[f v] pairs [Fb Vl] _ IH]; intros n G del s k I; cbn [hset_loop length plus] in *; [exists s; cbn; by rewrite Z.add_0_r|].
  unfold mbind, M_bind. destruct (field_exists_eq _ G del s f I) as (s1 & E1 & I1). rewrite E1. cbn [rust_bind fst snd].
  destruct (write_field_eq _ G del s1 f v I1 Fb Vl) as (s2 & E2 & I2). rewrite E2. cbn [rust_bind fst snd]. destruct (each_ref_cons set_ref (f, v) pairs G) as [-> ->].
  destruct (IH n (<[f := (v, 0)]> G) del s2 (if (if G !! f then true else false) then k else k + 1) I2) as (s' & E' & I'). exists s'. rewrite E'.
  split; [|done]. do 2 f_equal. cbn [fold_right set_ref fst snd]. destruct (G !! f); lia.
Qed.
Lemma hset_implements pairs hm : implements (HSet pairs hm).
Proof.
  intros Ok n G del s I. unfold run_hop, hset. on_hash I. destruct (ensure_head_hash _ G del _ I) as (s1 & E1 & I1). rewrite E1. cbn [rust_bind fst snd].
  destruct (hset_loop_eq pairs Ok n G del s1 0 I1) as (s' & E & I'). rewrite E. cbn [hstep]. destruct (each_ref set_ref pairs G). exists s'. by destruct hm.
Qed.
Lemma hsetnx_implements f v : implements (HSetNx f v).
Proof.
  intros [Fb Vl] n G del s I. unfold run_hop, hsetnx. on_hash I. destruct (field_exists_eq _ G del _ f I) as (s1 & E1 & I1). rewrite E1. cbn [rust_bind fst snd hstep].
  destruct (G !! f); cbn [fst snd]; [exists s1; split; [done|]; eapply hash_weaken; [|exact I1]; lia|].
  destruct (ensure_head_hash _ G del _ I1) as (s2 & E2 & I2). rewrite E2. cbn [rust_bind fst snd].
  destruct (write_field_eq _ G del s2 f v I2 Fb Vl) as (s3 & E3 & I3). rewrite E3. by exists s3.
Qed.
Lemma hincrby_implements f delta : implements (HIncrBy f delta).
Proof.
  intros Fb n G del s I. unfold run_hop, hincrby. on_hash I. destruct (ensure_head_hash _ G del _ I) as (s1 & E1 & I1). rewrite E1. cbn [rust_bind fst snd].
  destruct (read_value_eq _ G del s1 f I1) as (s2 & E2 & Q). rewrite E2. cbn [rust_bind fst snd hstep]. apply (hash_quiet _ _ _ _ _ Q) in I1.
  assert (I2 : hash_inv n G del s2) by (eapply hash_weaken; [|exact I1]; lia).
  destruct (match field_value G f with None => Some 0 | Some v => if utf8_ok v then parse_i64 v else None end) as [cur|]; [|by exists s2].
  cbn zeta. destruct (negb _); [by exists s2|]. destruct (write_field_eq _ G del s2 f (Z_to_string (cur + delta)) I1 Fb (Z_to_string_fits _)) as (s3 & E3 & I3).
  rewrite E3. by exists s3.
Qed.

Lemma any_field_eq want pairs : forall n G del s, hash_inv n G del s -> exists s',
  any_field wall key del want pairs s = Ret (existsb (fun e => Bool.eqb (present G e) want) pairs, s') /\ hash_inv n G del s'.
Proof.
  induction pairs as [|[f v] pairs IH]; intros n G del s I; cbn [any_field existsb]; [by exists s|]. unfold mbind, M_bind.
  destruct (field_exists_eq _ G del s f I) as (s1 & E1 & I1). rewrite E1. cbn [rust_bind fst snd]. unfold present at 1. cbn [fst].
  destruct (Bool.eqb _ want); [by exists s1|]. by apply IH.
Qed.
Lemma shown_in_time n G del s f v ttl : hash_inv n G del s -> G !! f = Some (v, ttl) -> in_time wall ttl.
Proof.
  intros [_ [W _ _] I] E. rewrite <- (I f) in E.
  destruct (elem_cases THashField HashField key wall (db s) (hlc_word s) del f W) as [Gt A|r O T Gt A V|r v' O T Gt A Sv V]; rewrite A in E; try discriminate.
  by injection E as _ <-.
Qed.
Lemma hsetex_loop_eq mode pairs : Forall pair_ok pairs -> mode_ok mode -> forall n G del s, hash_inv (length pairs + n) G del s -> exists s',
  hsetex_loop node_id wall key del mode pairs s = Ret (tt, s') /\ hash_inv n (each_ref (setex_ref mode) pairs G).2 del s'.
Proof.
  intros F Mo. induction F as [|[f v] pairs [Fb Vl] _ IH]; intros n G del s I; cbn [hsetex_loop length plus] in *; [by exists s|].
  unfold mbind, M_bind. set (ttl := match mode with Deadline d => d | KeepTtl => match G !! f with Some (_, ttl) => ttl | None => 0 end | _ => 0 end).
  assert (N : exists s1, new_ttl wall key del mode f s = Ret (ttl, s1) /\ quiet s s1 /\ in_time wall ttl).
  { unfold new_ttl, ttl. destruct mode as [d| | |]; try (by exists s; split; [|split; [|apply no_deadline]]).
    - by exists s.
    - unfold mbind, M_bind. destruct (read_env_eq _ G del s f I) as (s1 & env & E1 & Q & Et). rewrite E1. cbn [rust_bind fst snd]. exists s1.
      destruct (G !! f) as [[v0 t0]|] eqn:Gf; cbn [fmap option_fmap option_map]; [|split; [done|]; split; [done|apply no_deadline]].
      rewrite (Et v0 t0 eq_refl). split; [done|]. split; [done|]. by eapply shown_in_time. }
  destruct N as (s1 & E1 & Q1 & T). rewrite E1. cbn [rust_bind fst snd]. apply (hash_quiet _ _ _ _ _ Q1) in I.
  destruct (past_eq false ttl s1 T) as (s2 & E2 & Q2). rewrite E2. cbn [rust_bind fst snd]. apply (hash_quiet _ _ _ _ _ Q2) in I.
  destruct (write_ttl_eq _ G del s2 f v ttl I Fb Vl T) as (s3 & E3 & I3). rewrite E3. cbn [rust_bind fst snd mret M_ret].
  destruct (IH n (<[f := (v, ttl)]> G) del s3 I3) as (s' & E' & I'). exists s'. split; [exact E'|]. by destruct (each_ref_cons (setex_ref mode) (f, v) pairs G) as [_ ->].
Qed.
Lemma hsetex_implements fnx fxx mode pairs : implements (HSetEx fnx fxx mode pairs).
Proof.
  intros [Ok Mo] n G del s I. unfold run_hop, hsetex. on_hash I.
  assert (C : forall (b want : bool) s0, hash_inv (S (length pairs + n)) G del s0 -> exists s1,
    (if b then any_field wall key del want pairs else mret false) s0 = Ret (b && existsb (fun e => Bool.eqb (present G e) want) pairs, s1) /\
    hash_inv (S (length pairs + n)) G del s1).
  { intros b want s0 I0. destruct b; [by apply any_field_eq|by exists s0]. }
  destruct (C fnx true _ I) as (s1 & E1 & I1). rewrite E1. cbn [rust_bind fst snd hstep].
  assert (P : existsb (fun e => Bool.eqb (present G e) true) pairs = existsb (present G) pairs /\
    existsb (fun e => Bool.eqb (present G e) false) pairs = existsb (fun e => negb (present G e)) pairs).
  { clear. induction pairs as [|e l [IH1 IH2]]; [done|]. cbn [existsb]. rewrite IH1, IH2. by destruct (present G e). }
  destruct P as [P1 P2]. rewrite P1. assert (W : forall s', hash_inv (S (length pairs + n)) G del s' -> hash_inv n G del s') by (intros; eapply hash_weaken; [|eassumption]; lia).
  destruct (fnx && existsb (present G) pairs); [exists s1; split; [done|by apply W]|]. destruct (C fxx false _ I1) as (s2 & E2 & I2). rewrite E2. cbn [rust_bind fst snd]. rewrite P2.
  destruct (fxx && existsb (fun e => negb (present G e)) pairs); [exists s2; split; [done|by apply W]|]. destruct (ensure_head_hash _ G del _ I2) as (s3 & E3 & I3). rewrite E3. cbn [rust_bind fst snd].
  destruct (hsetex_loop_eq mode pairs Ok Mo n G del s3 I3) as (s' & E' & I'). rewrite E'. by exists s'.
Qed.

Lemma hop_implements o : implements o.
Proof.
  destruct o; auto using hset_implements, hsetnx_implements, hget_implements, hmget_implements, hgetall_implements, hdel_implements, hexists_implements,
    hlen_implements, hkeys_implements, hstrlen_implements, hscan_implements, hexpire_implements, hexpire_past_implements, hpersist_implements,
    hexpiretime_implements, hgetdel_implements, hgetex_implements, hsetex_implements, hincrby_implements.
Qed.

Lemma run_hops_eq os : Forall hop_ok os -> forall n G del s, hash_inv (sum_list_with hcost os + n) G del s -> exists s',
  run_hops key node_id wall os s = Ret ((hrun os G).1, s') /\ hash_inv n (hrun os G).2 del s'.
Proof.
  induction 1 as [|o os Ok _ IH]; intros n G del s I; cbn [run_hops sum_list_with] in *; [by exists s|]. rewrite <- Nat.add_assoc in I.
  destruct (hop_implements o Ok _ G del s I) as (s1 & E1 & I1). unfold mbind, M_bind. rewrite E1. cbn [rust_bind fst snd].
  destruct (IH n _ del s1 I1) as (s' & E' & I'). rewrite E'. cbn [rust_bind fst snd mret M_ret hrun]. destruct (hstep o G) as [r G1]. cbn [fst snd] in *.
  destruct (hrun os G1) as [rs G2]. by exists s'.
Qed.
End refine.


(** The clock of the examples: 1 to 1.999 seconds. *)
Definition hash_wall (n : nat) : Z := Z.of_nat n mod 1000 + 1000.
Definition ex_hops : list hop :=
  [HSet [([98], [49]); ([97], [120]); ([98], [55])] false; HGet [98]; HIncrBy [98] 5; HGetAll; HSetNx [97] [121];
   HExpire [[97]; [99]] 5000 CondNx; HExpire [[97]] 4000 CondGt; HExpireTime [[97]; [98]] true; HExpirePast [[98]] 3 CondNone; HLen;
   HSetEx false true KeepTtl [([97], [122])]; HExpireTime [[97]] false; HPersist [[97]; [98]]; HGetDel [[97]; [98]]; HKeys true].

Lemma empty_hash_inv key wall n : Z.of_nat n < 2 ^ 40 -> hash_inv key wall n ∅ 0 (mkShard (∅ : gmap bytes bytes) 0 ∅ 0).
Proof.
  intros L. split.
  - split; [by vm_compute|]. split; [intros now; done|]. split; [intros now; done|done].
  - split; [split; [by intros k v|by intros m v]| |done]. unfold room. cbn [hlc_word]. lia.
  - intros f. unfold at_elem. cbn [kv_get gmap_kv db]. by rewrite !lookup_empty.
Qed.

Lemma hash_walls_ok n : 0 <= hash_wall n < 2 ^ 47.
Proof. unfold hash_wall. pose proof (Z.mod_pos_bound (Z.of_nat n) 1000). lia. Qed.
Lemma hash_later d : 2000 <= d < 2 ^ 47 -> in_time hash_wall d.
Proof.
  intros B. split; [unfold u64, in_range; lia|]. intros n. unfold is_expired. cbn [ttl_deadline_ms]. apply andb_false_iff. right. apply Z.leb_gt.
  unfold hash_wall. pose proof (Z.mod_pos_bound (Z.of_nat n) 1000). lia.
Qed.
Lemma hash_earlier d : 0 < d <= 1000 -> passed hash_wall d.
Proof. intros B. split; [lia|]. intros n. unfold hash_wall. pose proof (Z.mod_pos_bound (Z.of_nat n) 1000). lia. Qed.

Lemma ex_hops_ok : Forall (hop_ok hash_wall) ex_hops.
Proof.
  assert (P : forall f v, is_bytes f -> Z.of_nat (length v) < 100 -> pair_ok (f, v)) by (intros f v B L; split; [done|unfold value_len_ok; cbn [snd]; lia]).
  assert (B : forall x, u8 x -> is_bytes [x]) by (intros x U; by constructor).
  unfold ex_hops. repeat constructor; cbn [hop_ok mode_ok]; try (apply hash_later; lia); try (apply hash_earlier; lia); try (by unfold u8, in_range); try (unfold value_len_ok; simpl; lia).
Qed.


(** ** Where the commands depart from a map *)

(** [C40] HEXPIREAT with a time of zero or before - a deadline in the past, which
    HEXPIRE answers by deleting the field - makes the field permanent: the
    deadline computed is 0, which means none. *)
Theorem hexpireat_past_persists {DB} `{KVLaws DB} key node_id wall t mult f v ttl n G del (s : Shard DB) :
  slice_len_ok key -> is_bytes key -> u16 node_id -> (forall n, 0 <= wall n < 2 ^ 47) -> t <= 0 ->
  hash_inv key wall (S n) G del s -> G !! f = Some (v, ttl) ->
  exists s', (d ← deadline_from wall t mult true; hexpire node_id wall key [f] d CondNone) s = Ret (RArray [RInt 1], s') /\
    hash_inv key wall n (<[f := (v, 0)]> G) del s'.
Proof.
  intros Kl Kb Nr Wa Ht I Gf. unfold deadline_from, mbind, M_bind. cbn [mret M_ret rust_bind fst snd].
  replace (Z.max t 0 * mult) with 0 by (by rewrite Z.max_r by lia). change (wrap 64 0) with 0.
  destruct (hexpire_implements key Kl Kb node_id wall Nr Wa [f] 0 CondNone (no_deadline wall) n G del s I) as (s' & E & I').
  cbn [run_hop] in E. unfold hstep, each_ref, expire_ref in E, I'. rewrite Gf in E, I'. cbn in E, I'. rewrite E. by exists s'.
Qed.

(** A field without deadline after a run with HEXPIREAT 0. *)
Lemma hexpireat_past_persists_witness :
  exists s', (d ← deadline_from hash_wall 0 1000 true; hexpire 3 hash_wall [104] [[102]] d CondNone)
      match run_hops [104] 3 hash_wall [HSetEx false false (Deadline 5000) [([102], [120])]] (mkShard (∅ : gmap bytes bytes) 0 ∅ 0) with
      | Ret (_, s) => s | Panic => mkShard ∅ 0 ∅ 0 end = Ret (RArray [RInt 1], s') /\
    hash_inv [104] hash_wall 0 {[ [102] := ([120], 0) ]} 0 s'.
Proof.
  destruct (run_hops_eq (DB := gmap bytes bytes) [104] ltac:(by vm_compute) ltac:(by vm_compute; repeat constructor) 3 hash_wall ltac:(by vm_compute) hash_walls_ok
    [HSetEx false false (Deadline 5000) [([102], [120])]]) with (n := 1%nat) (G := ∅ : hash) (del := 0) (s := mkShard (∅ : gmap bytes bytes) 0 ∅ 0) as (s0 & E & I).
  - constructor; [|constructor]. split; [constructor; [|constructor]; split; [by constructor|unfold value_len_ok; simpl; lia]|apply hash_later; lia].
  - apply empty_hash_inv. vm_compute. reflexivity.
  - rewrite E. destruct (hexpireat_past_persists [104] 3 hash_wall 0 1000 [102] [120] 5000 0 (hrun [HSetEx false false (Deadline 5000) [([102], [120])]] ∅).2 0 s0) as (s' & E' & I').
    + clear. by vm_compute.
    + clear. by vm_compute; repeat constructor.
    + clear. by vm_compute.
    + exact hash_walls_ok.
    + lia.
    + exact I.
    + vm_compute. reflexivity.
    + exists s'. split; [exact E'|]. replace ({[ [102] := ([120], 0) ]} : hash) with
        (<[ [102] := ([120], 0) ]> (hrun [HSetEx false false (Deadline 5000) [([102], [120])]] ∅).2) by (vm_compute; reflexivity). exact I'.
Defined.

(** A field node 1 has incremented to 5. *)
Definition peer_counter : Shard (gmap bytes bytes) :=
  match counter_field_set 10 1 None (CounterState_encode (bump (mkCounter 0 0 0 []) 1 5)) with
  | Ret b => mkShard (<[hash_field_key [104] [102] := b]> {[ head_key [104] := encode_with (Envelope_head 9 1) (head_encode CTYPE_HASH 0) ]}) 100 ∅ 0
  | Panic => mkShard ∅ 0 ∅ 0
  end.

(** HSET does not overwrite a counter another node has incremented: HSET
    adds its dot without covering the ones it saw, and a reader folds the
    counters it finds - after HSET h f 100 on node 3, HGET h f is still 5. *)
Theorem hset_hidden_by_peer_counter :
  match (r1 ← hget hash_wall [104] [102]; r2 ← hset 3 hash_wall [104] [([102], str "100")] false; r3 ← hget hash_wall [104] [102]; mret [r1; r2; r3]) peer_counter with
  | Ret (rs, _) => rs = [RBulk (str "5"); RInt 0; RBulk (str "5")]
  | Panic => False
  end.
Proof. vm_compute. reflexivity. Qed.
