(* ===== verification/DiffBase.v ===== *)
(** * The diff crate's budget, cancellation and errors

    Crate [marekvs-diff], [budget.rs] and the [Level] of [lib.rs].  A diff
    stops early when its [CancelToken] is raised or its deadline passes; what
    the n-th [check] of a run sees is given by the token, so a run is a state
    passing function over the number of checks made, which fails with a
    [DiffError] or panics. *)

From Stdlib Require Import String.
From S2P Require Import Prelude.

(** ** Budget ([budget.rs]) *)

Record Budget := mkBudget {
  max_candidates : Z; max_nd : Z; max_changes : Z; max_nodes : Z;
  max_depth : Z; max_bytes : Z; max_leaf_tokens : Z }.

Definition default_budget : Budget :=
  mkBudget 50000 2000000 100000 50000 64 (16 * 1024 * 1024) 8192.

(** ** Levels ([lib.rs]) *)

Inductive Level := Sen | Word | Char.

#[export] Instance Level_eq_dec : EqDecision Level.
Proof. solve_decision. Defined.

(** ** Errors ([model.rs], [budget.rs]) *)

Inductive ModelError :=
  | Limit (bound : string) (limit : Z)
  | UnknownKind (path tag : list Z)
  | NotNormalized (path : list Z) (why : string)
  | BadRun (path : list Z)
  | Shape (path : list Z) (why : string).

Inductive DiffError :=
  | ModelErr (e : ModelError)
  | Cancelled
  | Timeout (stage : string)
  | TooBig (bound : string) (n limit : Z)
  | BudgetErr (limit : string)
  | InvalidGraph (why : list Z).

(** ** Cancellation

    [cancelled i] is the flag the i-th check of the run loads and [now i] the
    instant it reads; both may change between two checks. *)

Record CancelToken := mkCancel { cancelled : nat -> bool; now : nat -> Z; deadline : option Z }.

(** [CancelToken::none]. *)
Definition cancel_none : CancelToken := mkCancel (fun _ => false) (fun _ => 0) None.

(** [CancelToken::check], the i-th of a run. *)
Definition check (c : CancelToken) (i : nat) : unit + DiffError :=
  if cancelled c i then inr Cancelled
  else match deadline c with
       | Some d => if d <=? now c i then inr (Timeout "diff") else inl tt
       | None => inl tt
       end.

(** ** Runs

    [Result<A, DiffError>] computed with [n] checks behind it. *)

Definition diffm (A : Type) : Type := nat -> rust ((A + DiffError) * nat).

Definition d_ret {A} (a : A) : diffm A := fun n => Ret (inl a, n).
Definition d_err {A} (e : DiffError) : diffm A := fun n => Ret (inr e, n).
Definition d_bind {A B} (m : diffm A) (f : A -> diffm B) : diffm B := fun n =>
  match m n with
  | Ret (inl a, n') => f a n'
  | Ret (inr e, n') => Ret (inr e, n')
  | Panic => Panic
  end.
(** A computation without checks that may panic. *)
Definition d_lift {A} (r : rust A) : diffm A := fun n =>
  match r with Ret a => Ret (inl a, n) | Panic => Panic end.
(** [cancel.check()?]. *)
Definition d_check (c : CancelToken) : diffm unit := fun n => Ret (check c n, S n).

Declare Scope diff_scope.
Delimit Scope diff_scope with diff.
Notation "'let?' x := m 'in' k" := (d_bind m (fun x => k))
  (at level 10, x pattern, m at level 100, k at level 200) : diff_scope.
#[global] Open Scope diff_scope.

(** A loop body either goes on with the next state or returns from the function. *)
Inductive flow (A B : Type) := Next (a : A) | Return (b : B).
Arguments Next {A B} a.
Arguments Return {A B} b.

(** [for i in l { body }] with the possibility to return from the body. *)
Fixpoint for_each {I A B} (l : list I) (body : I -> A -> diffm (flow A B)) (a : A) : diffm (flow A B) :=
  match l with
  | [] => d_ret (Next a)
  | i :: l' =>
      let? r := body i a in
      match r with
      | Next a' => for_each l' body a'
      | Return b => d_ret (Return b)
      end
  end.

(** [v[i]] for an index of type [usize] computed from an [isize]: negative
    values become huge and panic like every index past the end. *)
Definition at_idx {A} (v : list A) (i : Z) : rust A :=
  if i <? 0 then Panic else match v !! Z.to_nat i with Some a => Ret a | None => Panic end.
(** [v[i] = a]. *)
Definition set_idx {A} (v : list A) (i : Z) (a : A) : rust (list A) :=
  if i <? 0 then Panic else if (Z.to_nat i <? length v)%nat then Ret (<[Z.to_nat i := a]> v) else Panic.

(** ** Runs that are not stopped *)

(** [safe Q m]: from every number of checks the run does not panic; it stops
    with the token's error or returns a value in [Q]. *)
Definition stops (c : CancelToken) (e : DiffError) : Prop := exists i, check c i = inr e.
Definition safe {A} (c : CancelToken) (Q : A -> Prop) (m : diffm A) : Prop :=
  forall n, exists r n', m n = Ret (r, n') /\ match r with inl a => Q a | inr e => stops c e end.

Lemma stops_kind c e : stops c e -> e = Cancelled \/ e = Timeout "diff".
Proof.
  intros [i E]. unfold check in E. destruct (cancelled c i); [left; congruence|].
  destruct (deadline c) as [d|]; [|done]. destruct (d <=? now c i); [right; congruence|done].
Qed.

Lemma safe_ret {A} c (Q : A -> Prop) a : Q a -> safe c Q (d_ret a).
Proof. intros H n. by exists (inl a), n. Qed.

Lemma safe_bind {A B} c (P : A -> Prop) (Q : B -> Prop) m f :
  safe c P m -> (forall a, P a -> safe c Q (f a)) -> safe c Q (let? x := m in f x).
Proof.
  intros Hm Hf n. unfold d_bind. destruct (Hm n) as ([a|e] & n' & -> & Ha).
  - by apply Hf.
  - by exists (inr e), n'.
Qed.

Lemma safe_check c (Q : unit -> Prop) : Q tt -> safe c Q (d_check c).
Proof.
  intros HQ n. exists (check c n), (S n). split; [done|].
  destruct (check c n) as [[]|e] eqn:E; [done|by exists n].
Qed.

Lemma safe_lift {A} c (Q : A -> Prop) r a : r = Ret a -> Q a -> safe c Q (d_lift r).
Proof. intros -> H n. by exists (inl a), n. Qed.

Lemma safe_weaken {A} c (P Q : A -> Prop) m : safe c P m -> (forall a, P a -> Q a) -> safe c Q m.
Proof.
  intros Hm HPQ n. destruct (Hm n) as ([a|e] & n' & E & H); eexists _, n'; (split; [exact E|]); simpl; auto.
Qed.

(** A loop keeps an invariant indexed by the iterations behind it. *)
Lemma safe_for_each {I A B} c (Inv : list I -> A -> Prop) (Q : B -> Prop) (body : I -> A -> diffm (flow A B)) :
  forall l pre a, Inv pre a ->
  (forall p i s a, pre ++ l = p ++ i :: s -> Inv p a ->
     safe c (fun r => match r with Next a' => Inv (p ++ [i]) a' | Return b => Q b end) (body i a)) ->
  safe c (fun r => match r with Next a' => Inv (pre ++ l) a' | Return b => Q b end) (for_each l body a).
Proof.
  induction l as [|i l IH]; intros pre a Ha Hb; simpl.
  - apply safe_ret. by rewrite app_nil_r.
  - eapply safe_bind; [by apply (Hb pre i l a)|].
    intros [a'|b] Hr; [|by apply safe_ret].
    rewrite (cons_middle i pre l), app_assoc. apply IH; [done|].
    intros p j s x E. apply (Hb p j s x). by rewrite (cons_middle i pre l), app_assoc.
Qed.

(** A token that is never raised stops no run. *)
Definition never (c : CancelToken) : Prop := forall i, check c i = inl tt.

Lemma never_stops c e : never c -> ~ stops c e.
Proof. intros H [i E]. by rewrite H in E. Qed.

Lemma never_none : never cancel_none.
Proof. done. Qed.

Lemma at_idx_eq {A} (v : list A) i a : 0 <= i -> v !! Z.to_nat i = Some a -> at_idx v i = Ret a.
Proof. intros Hi E. unfold at_idx. rewrite E. by destruct (Z.ltb_spec i 0); [lia|]. Qed.

Lemma set_idx_eq {A} (v : list A) i a : 0 <= i < Z.of_nat (length v) ->
  set_idx v i a = Ret (<[Z.to_nat i := a]> v).
Proof.
  intros Hi. unfold set_idx. destruct (Z.ltb_spec i 0); [lia|].
  destruct (Nat.ltb_spec (Z.to_nat i) (length v)); [done|lia].
Qed.

Create HintDb diff.
#[export] Hint Resolve safe_ret safe_check : diff.
