(* ===== verification/Myers.v ===== *)
(** * The furthest reaching frontier of Myers' algorithm

    The grid of two sequences of lengths [N] and [M]: a diagonal step pairs two
    equal elements, a right step drops an element of the first sequence, a down
    step inserts one of the second.  [frontier d k] is the furthest [x] the
    greedy rule of the source reaches on diagonal [k] with [d] right and down
    steps.  It bounds every path ([path_frontier]), it is reached by a path
    ([frontier_path]), and it leaves the grid only after the corner was reached
    one round earlier ([corner_on_diagonal]). *)

From S2P Require Import Prelude.

(** Diagonals of round [d]: [-d, -d + 2, ..., d]. *)
Definition diagonals (d : nat) : list Z := (fun i => - Z.of_nat d + 2 * Z.of_nat i) <$> seq 0 (S d).
Definition on_round (d : nat) (k : Z) : Prop := exists i, 0 <= i <= Z.of_nat d /\ k = 2 * i - Z.of_nat d.

Section grid.
Context (N M : Z) (eqb : Z -> Z -> bool).

(** The diagonal run from [(x, y)], with room for [fuel] steps. *)
Definition free (x y : Z) : bool := (x <? N) && (y <? M) && eqb x y.
Fixpoint run (fuel : nat) (x y : Z) : Z :=
  match fuel with
  | O => x
  | S f => if free x y then run f (x + 1) (y + 1) else x
  end.
Definition slide (x y : Z) : Z := run (Z.to_nat (N - x)) x y.

(** The first [x] of round [d] on diagonal [k], from the previous round's values. *)
Definition start (d : nat) (prev : Z -> Z) (k : Z) : Z :=
  if (k =? - Z.of_nat d) || (negb (k =? Z.of_nat d) && (prev (k - 1) <? prev (k + 1)))
  then prev (k + 1) else prev (k - 1) + 1.

Fixpoint frontier (d : nat) (k : Z) : Z :=
  let x := match d with O => 0 | S d' => start d (frontier d') k end in
  slide x (x - k).

(** Paths, with the pairs of their diagonal steps, the last one first. *)
Inductive path : nat -> Z -> Z -> list (Z * Z) -> Prop :=
  | path_origin : path 0 0 0 []
  | path_diag d x y l : path d x y l -> free x y = true -> path d (x + 1) (y + 1) ((x, y) :: l)
  | path_right d x y l : path d x y l -> x < N -> path (S d) (x + 1) y l
  | path_down d x y l : path d x y l -> y < M -> path (S d) x (y + 1) l.

(** ** Diagonal runs *)

Lemma free_spec x y : free x y = true <-> x < N /\ y < M /\ eqb x y = true.
Proof. unfold free. rewrite !andb_true_iff, !Z.ltb_lt. tauto. Qed.

Lemma run_spec f x y : exists t, 0 <= t <= Z.of_nat f /\ run f x y = x + t /\
  (forall i, 0 <= i < t -> free (x + i) (y + i) = true) /\
  (t < Z.of_nat f -> free (x + t) (y + t) = false).
Proof.
  revert x y. induction f as [|f IH]; intros x y; simpl.
  - exists 0. repeat split; intros; lia.
  - destruct (free x y) eqn:E.
    + destruct (IH (x + 1) (y + 1)) as (t & Ht & -> & Hf & Hs). exists (t + 1).
      split; [lia|]. split; [lia|]. split.
      * intros i Hi. destruct (decide (i = 0)) as [->|]; [by rewrite !Z.add_0_r|].
        specialize (Hf (i - 1)). replace (x + 1 + (i - 1)) with (x + i) in Hf by lia.
        replace (y + 1 + (i - 1)) with (y + i) in Hf by lia. apply Hf. lia.
      * intros Hlt. replace (x + (t + 1)) with (x + 1 + t) by lia.
        replace (y + (t + 1)) with (y + 1 + t) by lia. apply Hs. lia.
    + exists 0. split; [lia|]. split; [lia|]. split; [intros; lia|].
      intros _. by rewrite !Z.add_0_r.
Qed.

Lemma slide_spec x y : exists t, 0 <= t /\ slide x y = x + t /\
  (forall i, 0 <= i < t -> free (x + i) (y + i) = true) /\ free (x + t) (y + t) = false.
Proof.
  destruct (run_spec (Z.to_nat (N - x)) x y) as (t & Ht & E & Hf & Hs).
  exists t. split; [lia|]. split; [done|]. split; [done|].
  destruct (decide (t < Z.of_nat (Z.to_nat (N - x)))) as [Hlt|Hge]; [by apply Hs|].
  apply not_true_is_false. rewrite free_spec. lia.
Qed.

Lemma slide_ge x y : x <= slide x y.
Proof. destruct (slide_spec x y) as (t & ? & -> & _). lia. Qed.

(** A run that moved stays inside the grid. *)
Lemma slide_moved x y : slide x y = x \/ (slide x y <= N /\ y + (slide x y - x) <= M).
Proof.
  destruct (slide_spec x y) as (t & Ht & -> & Hf & _).
  destruct (decide (t = 0)) as [->|]; [left; lia|right].
  specialize (Hf (t - 1)). rewrite free_spec in Hf. lia.
Qed.

(** ** Rounds *)

Lemma on_round_0 k : on_round 0 k <-> k = 0.
Proof. split; [intros (i & ? & ->); simpl in *; lia|intros ->; exists 0; simpl; lia]. Qed.

Lemma on_round_right d k : on_round (S d) k -> k <> - Z.of_nat (S d) -> on_round d (k - 1).
Proof. intros (i & ? & ->) Hk. exists (i - 1). lia. Qed.

Lemma on_round_down d k : on_round (S d) k -> k <> Z.of_nat (S d) -> on_round d (k + 1).
Proof. intros (i & ? & ->) Hk. exists i. lia. Qed.

Lemma on_round_S_right d k : on_round d k -> on_round (S d) (k + 1).
Proof. intros (i & ? & ->). exists (i + 1). lia. Qed.

Lemma on_round_S_down d k : on_round d k -> on_round (S d) (k - 1).
Proof. intros (i & ? & ->). exists i. lia. Qed.

Lemma on_round_bound d k : on_round d k -> - Z.of_nat d <= k <= Z.of_nat d.
Proof. intros (i & ? & ->). lia. Qed.

Lemma elem_diagonals d k : k ∈ diagonals d <-> on_round d k.
Proof.
  unfold diagonals. rewrite list_elem_of_fmap. split.
  - intros (i & -> & Hi%elem_of_seq). exists (Z.of_nat i). lia.
  - intros (i & Hi & ->). exists (Z.to_nat i). rewrite elem_of_seq. lia.
Qed.

(** The start is one of the two moves, and at least both. *)
Lemma start_cases d k prev : on_round (S d) k ->
  (start (S d) prev k = prev (k + 1) /\ on_round d (k + 1)) \/
  (start (S d) prev k = prev (k - 1) + 1 /\ on_round d (k - 1)).
Proof.
  intros Hk. unfold start.
  destruct (Z.eqb_spec k (- Z.of_nat (S d))) as [E|Hl]; cbn [orb].
  - left. split; [done|]. apply on_round_down; [done|lia].
  - destruct (Z.eqb_spec k (Z.of_nat (S d))) as [E|Hr]; cbn [negb andb].
    + right. split; [done|]. by apply on_round_right.
    + destruct (_ <? _); [left|right]; (split; [done|]); [by apply on_round_down|by apply on_round_right].
Qed.

Lemma start_ge_down d k prev : on_round (S d) k -> k <> Z.of_nat (S d) -> prev (k + 1) <= start (S d) prev k.
Proof.
  intros Hk Hr. unfold start. destruct (Z.eqb_spec k (- Z.of_nat (S d))); cbn [orb]; [lia|].
  destruct (Z.eqb_spec k (Z.of_nat (S d))); cbn [negb andb]; [lia|].
  destruct (Z.ltb_spec (prev (k - 1)) (prev (k + 1))); lia.
Qed.

Lemma start_ge_right d k prev : on_round (S d) k -> k <> - Z.of_nat (S d) -> prev (k - 1) + 1 <= start (S d) prev k.
Proof.
  intros Hk Hr. unfold start. destruct (Z.eqb_spec k (- Z.of_nat (S d))); cbn [orb]; [lia|].
  destruct (Z.eqb_spec k (Z.of_nat (S d))); cbn [negb andb]; [lia|].
  destruct (Z.ltb_spec (prev (k - 1)) (prev (k + 1))); lia.
Qed.

Lemma frontier_S d k :
  frontier (S d) k = slide (start (S d) (frontier d) k) (start (S d) (frontier d) k - k).
Proof. done. Qed.

Lemma frontier_0 : frontier 0 0 = slide 0 0.
Proof. done. Qed.

Lemma frontier_down d k : on_round d k -> frontier d k <= frontier (S d) (k - 1).
Proof.
  intros Hk. rewrite frontier_S.
  pose proof (start_ge_down d (k - 1) (frontier d) (on_round_S_down _ _ Hk)) as H.
  replace (k - 1 + 1) with k in H by lia. pose proof (on_round_bound _ _ Hk).
  pose proof (slide_ge (start (S d) (frontier d) (k - 1)) (start (S d) (frontier d) (k - 1) - (k - 1))).
  specialize (H ltac:(lia)). lia.
Qed.

Lemma frontier_right d k : on_round d k -> frontier d k + 1 <= frontier (S d) (k + 1).
Proof.
  intros Hk. rewrite frontier_S.
  pose proof (start_ge_right d (k + 1) (frontier d) (on_round_S_right _ _ Hk)) as H.
  replace (k + 1 - 1) with k in H by lia. pose proof (on_round_bound _ _ Hk).
  pose proof (slide_ge (start (S d) (frontier d) (k + 1)) (start (S d) (frontier d) (k + 1) - (k + 1))).
  specialize (H ltac:(lia)). lia.
Qed.

(** Starts and frontiers lie in the quadrant. *)
Lemma frontier_range d k : on_round d k -> 0 <= frontier d k /\ k <= frontier d k.
Proof.
  revert k. induction d as [|d IH]; intros k Hk.
  - apply on_round_0 in Hk as ->. rewrite frontier_0. pose proof (slide_ge 0 0). lia.
  - rewrite frontier_S.
    pose proof (slide_ge (start (S d) (frontier d) k) (start (S d) (frontier d) k - k)).
    destruct (start_cases d k (frontier d) Hk) as [[E Hk']|[E Hk']];
      destruct (IH _ Hk'); rewrite E in *; lia.
Qed.

Lemma start_range d k : on_round (S d) k ->
  0 <= start (S d) (frontier d) k /\ k <= start (S d) (frontier d) k.
Proof.
  intros Hk. destruct (start_cases d k (frontier d) Hk) as [[E Hk']|[E Hk']];
    destruct (frontier_range _ _ Hk'); rewrite E in *; lia.
Qed.

(** ** Paths *)

(** No path gets further than the frontier. *)
Lemma path_frontier d x y l : path d x y l -> on_round d (x - y) /\ x <= frontier d (x - y).
Proof.
  induction 1 as [|d x y l _ [Hk IH] Hf|d x y l _ [Hk IH] Hx|d x y l _ [Hk IH] Hy].
  - split; [by apply on_round_0|]. destruct (frontier_range 0 0) as [H _]; [by apply on_round_0|exact H].
  - replace (x + 1 - (y + 1)) with (x - y) by lia. split; [done|].
    destruct (decide (x = frontier d (x - y))) as [E|]; [|lia]. exfalso.
    assert (Hs : forall z, frontier d (x - y) = slide z (z - (x - y)) -> False).
    { intros z Ez. destruct (slide_spec z (z - (x - y))) as (t & _ & Et & _ & Hs).
      rewrite <- Ez, <- E in Et. replace (z + t) with x in Hs by lia.
      replace (z - (x - y) + t) with y in Hs by lia. congruence. }
    destruct d; simpl in Hs; [by apply (Hs 0)|]. by eapply Hs.
  - replace (x + 1 - y) with (x - y + 1) by lia. split; [by apply on_round_S_right|].
    pose proof (frontier_right _ _ Hk). lia.
  - replace (x - (y + 1)) with (x - y - 1) by lia. split; [by apply on_round_S_down|].
    pose proof (frontier_down _ _ Hk). lia.
Qed.

Lemma path_count d x y l : path d x y l -> x + y = Z.of_nat d + 2 * Z.of_nat (length l).
Proof. induction 1; simpl; lia. Qed.

(** The pairs of a diagonal run, last one first. *)
Definition run_pairs (t : nat) (x y : Z) : list (Z * Z) :=
  (fun i => (x + Z.of_nat i, y + Z.of_nat i)) <$> rev (seq 0 t).

Lemma path_run d x y l t : path d x y l ->
  (forall i, 0 <= i < Z.of_nat t -> free (x + i) (y + i) = true) ->
  path d (x + Z.of_nat t) (y + Z.of_nat t) (run_pairs t x y ++ l).
Proof.
  intros Hp. induction t as [|t IH]; intros Hf.
  - by rewrite !Z.add_0_r.
  - unfold run_pairs. rewrite seq_S, rev_app_distr. simpl.
    replace (x + Z.of_nat (S t)) with (x + Z.of_nat t + 1) by lia.
    replace (y + Z.of_nat (S t)) with (y + Z.of_nat t + 1) by lia.
    apply path_diag; [|apply Hf; lia]. apply IH. intros i Hi. apply Hf. lia.
Qed.

(** A frontier point inside the grid is reached, from the frontier point of
    the previous round its start came from. *)
Lemma frontier_path d k : on_round d k -> frontier d k <= N -> frontier d k - k <= M ->
  exists l, path d (frontier d k) (frontier d k - k) l.
Proof.
  assert (Hslide : forall d x y l, path d x y l -> exists l', path d (slide x y) (slide x y + (y - x)) l').
  { intros e x y l Hp. destruct (slide_spec x y) as (t & Ht & E & Hf & _).
    exists (run_pairs (Z.to_nat t) x y ++ l). rewrite E.
    replace (x + t + (y - x)) with (y + Z.of_nat (Z.to_nat t)) by lia.
    replace (x + t) with (x + Z.of_nat (Z.to_nat t)) by lia.
    apply path_run; [done|]. intros i Hi. apply Hf. lia. }
  revert k. induction d as [|d IH]; intros k Hk HN HM.
  - apply on_round_0 in Hk as ->. destruct (Hslide 0%nat 0 0 [] path_origin) as [l Hl].
    exists l. rewrite frontier_0. by replace (slide 0 0 - 0) with (slide 0 0 + (0 - 0)) by lia.
  - rewrite frontier_S in *. set (x := start (S d) (frontier d) k) in *.
    assert (Hx : exists l, path (S d) x (x - k) l).
    { pose proof (slide_ge x (x - k)).
      destruct (start_cases d k (frontier d) Hk) as [[E Hk']|[E Hk']]; fold x in E.
      - destruct (IH _ Hk') as [l Hl]; [lia|lia|]. exists l.
        replace (x - k) with (frontier d (k + 1) - (k + 1) + 1) by lia. rewrite E.
        apply path_down; [done|lia].
      - destruct (IH _ Hk') as [l Hl]; [lia|lia|]. exists l.
        replace (x - k) with (frontier d (k - 1) - (k - 1)) by lia. rewrite E.
        apply path_right; [done|lia]. }
    destruct Hx as [l Hl]. destruct (Hslide _ _ _ _ Hl) as [l' Hl']. exists l'.
    by replace (slide x (x - k) - k) with (slide x (x - k) + (x - k - x)) by lia.
Qed.

(** ** Overrun

    A frontier point below the grid was already below its last row one round
    earlier, and one right of the grid was at its last column. *)

Hypothesis N_nonneg : 0 <= N.
Hypothesis M_nonneg : 0 <= M.

Lemma frontier_below d k : on_round d k -> M < frontier d k - k ->
  exists d', d = S d' /\ on_round d' (k + 1) /\ frontier d k <= frontier d' (k + 1).
Proof.
  revert k. induction d as [|d IH]; intros k Hk HM.
  - apply on_round_0 in Hk as ->. rewrite frontier_0 in HM. destruct (slide_moved 0 0); lia.
  - rewrite frontier_S in *. set (x := start (S d) (frontier d) k) in *.
    destruct (slide_moved x (x - k)) as [E|]; [rewrite E in *|lia].
    exists d. split; [done|].
    destruct (start_cases d k (frontier d) Hk) as [[Ex Hk']|[Ex Hk']]; fold x in Ex; [split; [done|lia]|].
    destruct (IH _ Hk') as (d' & -> & Hr & Hle); [lia|]. replace (k - 1 + 1) with k in * by lia.
    pose proof (on_round_S_right _ _ Hr). split; [done|]. pose proof (frontier_right _ _ Hr). lia.
Qed.

Lemma frontier_beyond d k : on_round d k -> N < frontier d k ->
  exists d', d = S d' /\ on_round d' (k - 1) /\ frontier d k - 1 <= frontier d' (k - 1).
Proof.
  revert k. induction d as [|d IH]; intros k Hk HN.
  - apply on_round_0 in Hk as ->. rewrite frontier_0 in HN. destruct (slide_moved 0 0); lia.
  - rewrite frontier_S in *. set (x := start (S d) (frontier d) k) in *.
    destruct (slide_moved x (x - k)) as [E|]; [rewrite E in *|lia].
    exists d. split; [done|].
    destruct (start_cases d k (frontier d) Hk) as [[Ex Hk']|[Ex Hk']]; fold x in Ex; [|split; [done|lia]].
    destruct (IH _ Hk') as (d' & -> & Hr & Hle); [lia|]. replace (k + 1 - 1) with k in * by lia.
    pose proof (on_round_S_down _ _ Hr). split; [done|]. pose proof (frontier_down _ _ Hr). lia.
Qed.

(** The corner was not reached or passed in round [d]. *)
Definition open_round (d : nat) : Prop := forall k, on_round d k -> ~ (N <= frontier d k /\ M <= frontier d k - k).

(** The first round that reaches or passes the corner reaches it. *)
Lemma corner_on_diagonal d k : on_round d k -> (forall d', (d' < d)%nat -> open_round d') ->
  N <= frontier d k -> M <= frontier d k - k -> frontier d k = N /\ frontier d k - k = M.
Proof.
  intros Hk Hopen HN HM.
  destruct (decide (frontier d k - k = M)) as [EM|].
  - split; [|done]. destruct (decide (frontier d k = N)) as [|]; [done|exfalso].
    destruct (frontier_beyond d k Hk) as (d' & -> & Hr & Hle); [lia|].
    apply (Hopen d' ltac:(lia) _ Hr). lia.
  - exfalso. destruct (frontier_below d k Hk) as (d' & -> & Hr & Hle); [lia|].
    apply (Hopen d' ltac:(lia) _ Hr). lia.
Qed.

(** The path without a diagonal step reaches the corner, so round [N + M] does. *)
Lemma path_edges x y : 0 <= x <= N -> 0 <= y <= M -> path (Z.to_nat (x + y)) x y [].
Proof.
  intros Hx Hy. assert (H0 : path (Z.to_nat x) x 0 []).
  { assert (Hx' : exists n, x = Z.of_nat n) by (exists (Z.to_nat x); lia). destruct Hx' as [n ->].
    rewrite Nat2Z.id. clear Hy. induction n as [|n IH]; [apply path_origin|].
    replace (Z.of_nat (S n)) with (Z.of_nat n + 1) by lia. apply path_right; [apply IH|]; lia. }
  assert (Hy' : exists n, y = Z.of_nat n) by (exists (Z.to_nat y); lia). destruct Hy' as [n ->].
  induction n as [|n IH].
  - by rewrite Z.add_0_r.
  - replace (Z.to_nat (x + Z.of_nat (S n))) with (S (Z.to_nat (x + Z.of_nat n))) by lia.
    replace (Z.of_nat (S n)) with (Z.of_nat n + 1) by lia. apply path_down; [apply IH|]; lia.
Qed.

Lemma last_round_closed : ~ open_round (Z.to_nat (N + M)).
Proof.
  intros Ho. destruct (path_frontier _ _ _ _ (path_edges N M ltac:(lia) ltac:(lia))) as [Hr Hle].
  apply (Ho _ Hr). lia.
Qed.

(** ** Common subsequences *)

(** Pairs of equal elements, increasing on both sides, in order of position. *)
Inductive common : Z -> Z -> list (Z * Z) -> Prop :=
  | common_nil x y : common x y []
  | common_cons x y x' y' l : x <= x' -> y <= y' -> free x' y' = true ->
      common (x' + 1) (y' + 1) l -> common x y ((x', y') :: l).

Lemma path_extend d x y l dx dy : path d x y l -> 0 <= dx -> 0 <= dy -> x + dx <= N -> y + dy <= M ->
  path (d + Z.to_nat dx + Z.to_nat dy) (x + dx) (y + dy) l.
Proof.
  intros Hp Hdx Hdy HN HM.
  assert (H1 : path (d + Z.to_nat dx) (x + dx) y l).
  { assert (E : exists n, dx = Z.of_nat n) by (exists (Z.to_nat dx); lia). destruct E as [n ->].
    rewrite Nat2Z.id. clear Hdx. induction n as [|n IH]; [by rewrite Z.add_0_r, Nat.add_0_r|].
    replace (x + Z.of_nat (S n)) with (x + Z.of_nat n + 1) by lia. rewrite Nat.add_succ_r.
    apply path_right; [apply IH|]; lia. }
  assert (E : exists n, dy = Z.of_nat n) by (exists (Z.to_nat dy); lia). destruct E as [n ->].
  rewrite Nat2Z.id. clear Hdy. induction n as [|n IH]; [by rewrite Z.add_0_r, Nat.add_0_r|].
  replace (y + Z.of_nat (S n)) with (y + Z.of_nat n + 1) by lia. rewrite Nat.add_succ_r.
  apply path_down; [apply IH|]; lia.
Qed.

(** Every common subsequence is the diagonal part of a path to the corner. *)
Lemma common_path d x y l p : path d x y p -> x <= N -> y <= M -> common x y l ->
  exists d', path d' N M (rev l ++ p).
Proof.
  intros Hp HN HM Hc. revert d p Hp HN HM. induction Hc as [x y|x y x' y' l Hx Hy Hf _ IH]; intros d p Hp HN HM.
  - exists (d + Z.to_nat (N - x) + Z.to_nat (M - y))%nat.
    pose proof (path_extend d x y p (N - x) (M - y) Hp) as H.
    replace (x + (N - x)) with N in H by lia. replace (y + (M - y)) with M in H by lia.
    apply H; lia.
  - pose proof (proj1 (free_spec _ _) Hf) as (HxN & HyM & _).
    pose proof (path_extend d x y p (x' - x) (y' - y) Hp) as H.
    replace (x + (x' - x)) with x' in H by lia. replace (y + (y' - y)) with y' in H by lia.
    specialize (H ltac:(lia) ltac:(lia) ltac:(lia) ltac:(lia)).
    destruct (IH _ ((x', y') :: p) (path_diag _ _ _ _ H Hf) ltac:(lia) ltac:(lia)) as [d' Hd'].
    exists d'. simpl. by rewrite <- app_assoc.
Qed.

(** The pairs of a path are a common subsequence. *)
Lemma path_common d x y l : path d x y l -> forall l', common x y l' -> common 0 0 (rev l ++ l').
Proof.
  assert (Hweak : forall x y l', common x y l' -> forall x0 y0, x0 <= x -> y0 <= y -> common x0 y0 l').
  { intros ? ? ? [|] ? ? ? ?; econstructor; eauto; lia. }
  induction 1 as [|d x y l _ IH Hf|d x y l _ IH ?|d x y l _ IH ?]; intros l' Hc; simpl.
  - done.
  - rewrite <- app_assoc. apply IH. simpl. constructor; [lia|lia|done|done].
  - apply IH. eapply Hweak; [done|lia|lia].
  - apply IH. eapply Hweak; [done|lia|lia].
Qed.

(** The pairs of a path to the corner found in the first closed round are a
    longest common subsequence. *)
Lemma first_round_longest d l : (forall d', (d' < d)%nat -> open_round d') -> path d N M l ->
  common 0 0 (rev l) /\ forall l', common 0 0 l' -> (length l' <= length l)%nat.
Proof.
  intros Hopen Hp. split.
  - rewrite <- (app_nil_r (rev l)). eapply path_common; [done|constructor].
  - intros l' Hc. destruct (common_path 0 0 0 l' [] path_origin N_nonneg M_nonneg Hc) as [d' Hd'].
    pose proof (path_count _ _ _ _ Hp). pose proof (path_count _ _ _ _ Hd') as H'.
    rewrite app_nil_r, length_rev in H'.
    destruct (decide (d' < d)%nat) as [Hlt|]; [exfalso|lia].
    destruct (path_frontier _ _ _ _ Hd') as [Hr Hle]. apply (Hopen _ Hlt _ Hr). lia.
Qed.

End grid.
