(* ===== verification/MyersRun.v ===== *)
(** * The array form of the frontier search

    What [textdiff.rs] and [align.rs] of the diff crate share: the frontier is
    kept in one array [v] at index [offset + k], a copy of which is pushed to
    [trace] at the start of every round, and the matching is read off the trace
    from the corner back to the origin.  The lemmas relate the array, the trace
    and the walk back to [Myers.frontier]. *)

From S2P Require Import Prelude DiffBase Myers.

(** [k == -d || (k != d && v[idx - 1] < v[idx + 1])]: the step into diagonal
    [k] comes from above. *)
Definition goes_down (v : list Z) (offset d k : Z) : rust bool :=
  if k =? - d then Ret true
  else if k =? d then Ret false
  else let! p := at_idx v (offset + k - 1) in
       let! q := at_idx v (offset + k + 1) in
       Ret (p <? q).

(** The [x] a diagonal of the round starts from. *)
Definition start_x (v : list Z) (offset d k : Z) : rust Z :=
  let! down := goes_down v offset d k in
  if down : bool then at_idx v (offset + k + 1)
  else let! p := at_idx v (offset + k - 1) in Ret (p + 1).

(** [while x > prev_x && y > prev_y { x -= 1; y -= 1; pairs.push((x as usize, y as usize)) }]. *)
Fixpoint walk_back (fuel : nat) (x y prev_x prev_y : Z) (pairs : list (Z * Z)) : Z * Z * list (Z * Z) :=
  match fuel with
  | O => (x, y, pairs)
  | S f =>
      if (prev_x <? x) && (prev_y <? y)
      then walk_back f (x - 1) (y - 1) prev_x prev_y (pairs ++ [(wrap 64 (x - 1), wrap 64 (y - 1))])
      else (x, y, pairs)
  end.

(** One round of the walk back: [tick] is what the loop does first. *)
Definition unwind_round (tick : diffm unit) (trace : list (list Z)) (offset : Z)
    (depth : nat) (st : Z * Z * list (Z * Z)) : diffm (flow (Z * Z * list (Z * Z)) unit) :=
  let '(x, y, pairs) := st in
  let? _ := tick in
  let? old := d_lift (at_idx trace (Z.of_nat depth)) in
  let k := x - y in
  let? down := d_lift (goes_down old offset (Z.of_nat depth) k) in
  let prev_k := if down : bool then k + 1 else k - 1 in
  let? prev_x := d_lift (at_idx old (offset + prev_k)) in
  let prev_y := prev_x - prev_k in
  let '(x', y', pairs') := walk_back (Z.to_nat (x - prev_x)) x y prev_x prev_y pairs in
  if (0 <? depth)%nat then d_ret (Next (prev_x, prev_y, pairs')) else d_ret (Next (x', y', pairs')).

(** The walk from [(x, y)] at round [d] to the origin; the pairs in order of position. *)
Definition unwind (tick : diffm unit) (trace : list (list Z)) (offset : Z) (d : nat) (x y : Z) :
    diffm (list (Z * Z)) :=
  let? r := for_each (rev (seq 0 (S d))) (unwind_round tick trace offset) (x, y, []) in
  match r with
  | Next (_, _, pairs) => d_ret (rev pairs)
  | Return _ => d_ret []
  end.

(** [(-d..=d).step_by(2)] is [Myers.diagonals]. *)

Section array.
Context (N M : Z) (eqb : Z -> Z -> bool) (cancel : CancelToken).
Hypothesis N_nonneg : 0 <= N.
Hypothesis M_nonneg : 0 <= M.
Hypothesis size : N + M < 2 ^ 62.

Abbreviation frontier := (frontier N M eqb).
Abbreviation open_round := (open_round N M eqb).
Abbreviation path := (path N M eqb).
Definition offset : Z := N + M + 1.

Definition cell (v : list Z) (k x : Z) : Prop := 0 <= offset + k /\ v !! Z.to_nat (offset + k) = Some x.

(** [v] at the start of round [d]. *)
Definition holds_round (d : nat) (v : list Z) : Prop :=
  match d with
  | O => cell v 1 0
  | S d' => forall k, on_round d' k -> cell v k (frontier d' k)
  end.

(** What the round's start is computed from, and the start itself. *)
Definition previous (d : nat) (k : Z) : Z := match d with O => 0 | S d' => frontier d' k end.
Definition start_at (d : nat) (k : Z) : Z := match d with O => 0 | S d' => start d (frontier d') k end.

Lemma frontier_start d k : frontier d k = slide N M eqb (start_at d k) (start_at d k - k).
Proof. by destruct d. Qed.

Lemma start_at_range d k : on_round d k -> 0 <= start_at d k /\ k <= start_at d k.
Proof. destruct d; [intros ->%on_round_0; simpl; lia|apply start_range]. Qed.

Lemma cell_at v k x : cell v k x -> at_idx v (offset + k) = Ret x.
Proof. intros [H E]. by apply at_idx_eq. Qed.

Lemma cell_at_eq v k x i : cell v k x -> i = offset + k -> at_idx v i = Ret x.
Proof. intros H ->. by apply cell_at. Qed.

(** The step into diagonal [k] of round [d] and the point it leaves from. *)
Lemma goes_down_eq d k v : on_round d k -> holds_round d v ->
  exists b, goes_down v offset (Z.of_nat d) k = Ret b /\
    let pk := if b : bool then k + 1 else k - 1 in
    cell v pk (previous d pk) /\ (d <> 0%nat -> on_round (pred d) pk) /\ (d = 0%nat -> b = true) /\
    start_at d k = if b then previous d pk else previous d pk + 1.
Proof.
  intros Hk Hv. unfold goes_down. destruct d as [|d].
  - apply on_round_0 in Hk as ->. simpl. exists true. simpl. done.
  - simpl pred. unfold start_at, start, previous. simpl holds_round in Hv.
    destruct (Z.eqb_spec k (- Z.of_nat (S d))) as [El|Hl]; cbn [orb].
    { exists true. pose proof (on_round_down _ _ Hk ltac:(lia)). split_and!; auto; done. }
    destruct (Z.eqb_spec k (Z.of_nat (S d))) as [Er|Hr]; cbn [negb andb].
    { exists false. pose proof (on_round_right _ _ Hk Hl). split_and!; auto; done. }
    pose proof (on_round_right _ _ Hk Hl) as Ho1. pose proof (on_round_down _ _ Hk Hr) as Ho2.
    rewrite (cell_at_eq _ (k - 1) _ _ (Hv _ Ho1)) by lia. cbn [rust_bind].
    rewrite (cell_at_eq _ (k + 1) _ _ (Hv _ Ho2)) by lia. cbn [rust_bind].
    eexists. split; [done|]. destruct (_ <? _); split_and!; auto; done.
Qed.

Lemma start_x_eq d k v : on_round d k -> holds_round d v ->
  start_x v offset (Z.of_nat d) k = Ret (start_at d k).
Proof.
  intros Hk Hv. unfold start_x. destruct (goes_down_eq d k v Hk Hv) as (b & -> & Hc & _ & _ & ->).
  cbn [rust_bind]. destruct b.
  - by rewrite (cell_at_eq _ (k + 1) _ _ Hc) by lia.
  - by rewrite (cell_at_eq _ (k - 1) _ _ Hc) by lia.
Qed.

(** *** A round *)

(** [v] during round [d], the diagonals [pre] being done and short of the corner. *)
Definition in_round (d : nat) (pre : list Z) (v : list Z) : Prop :=
  length v = Z.to_nat (2 * (N + M) + 3) /\ holds_round d v /\
  forall k, k ∈ pre -> cell v k (frontier d k) /\ ~ (N <= frontier d k /\ M <= frontier d k - k).

Lemma on_round_offset d k : Z.of_nat d <= N + M -> on_round d k -> 0 < offset + k <= 2 * (N + M) + 1.
Proof. intros Hd Hk%on_round_bound. unfold offset. lia. Qed.

(** Diagonals of two rounds in a row have different parities. *)
Lemma on_round_parity d k k' : on_round d k -> on_round (S d) k' -> k <> k'.
Proof. intros (i & _ & ->) (j & _ & ->). lia. Qed.

Lemma cell_insert v k x k' x' : cell v k' x' -> k <> k' -> 0 <= offset + k ->
  cell (<[Z.to_nat (offset + k) := x]> v) k' x'.
Proof. intros [H E] Hne Hk. split; [done|]. rewrite list_lookup_insert_ne; [done|lia]. Qed.

Lemma store_round d pre k v : Z.of_nat d <= N + M -> on_round d k -> in_round d pre v ->
  ~ (N <= frontier d k /\ M <= frontier d k - k) ->
  exists v', set_idx v (offset + k) (frontier d k) = Ret v' /\ in_round d (pre ++ [k]) v'.
Proof.
  intros Hd Hk (Hlen & Hv & Hpre) Hopen. pose proof (on_round_offset _ _ Hd Hk) as Hr.
  eexists. split; [apply set_idx_eq; lia|].
  assert (Hc : cell (<[Z.to_nat (offset + k) := frontier d k]> v) k (frontier d k)).
  { split; [lia|]. rewrite list_lookup_insert_eq; [done|]. lia. }
  split; [by rewrite length_insert|]. split.
  - destruct d as [|d].
    + apply on_round_0 in Hk as ->. apply cell_insert; [done|lia|lia].
    + intros k' Hk'. apply cell_insert; [by apply Hv|by apply not_eq_sym, (on_round_parity d)|lia].
  - intros k' [Hk'|Hk'%list_elem_of_singleton]%elem_of_app; [|by subst k'].
    destruct (Hpre k' Hk') as [Hc' Ho']. split; [|done].
    destruct (decide (k = k')) as [<-|]; [done|]. apply cell_insert; [done|done|lia].
Qed.

Lemma end_round d v : in_round d (diagonals d) v -> in_round (S d) [] v /\ open_round d.
Proof.
  intros (Hlen & _ & H). split.
  - split; [done|]. split; [|by intros k ?%not_elem_of_nil]. intros k Hk. apply H. by apply elem_diagonals.
  - intros k Hk. by apply H, elem_diagonals.
Qed.

Lemma first_round : in_round 0 [] (replicate (Z.to_nat (2 * (N + M) + 3)) 0).
Proof.
  split; [by rewrite length_replicate|]. split; [|by intros k ?%not_elem_of_nil].
  split; [unfold offset; lia|]. apply lookup_replicate_2. unfold offset. lia.
Qed.

(** *** The walk back *)

Lemma run_pairs_S t x y : run_pairs (S t) x y = (x + Z.of_nat t, y + Z.of_nat t) :: run_pairs t x y.
Proof. unfold run_pairs. rewrite seq_S, rev_app_distr. done. Qed.

(** From [t] steps along a diagonal the walk returns to its start. *)
Lemma walk_back_eq px py sx sy : 0 <= sx -> 0 <= sy ->
  (px = sx /\ py <= sy) \/ (py = sy /\ px <= sx) ->
  forall t fuel pairs, (t <= fuel)%nat -> sx + Z.of_nat t <= 2 ^ 63 -> sy + Z.of_nat t <= 2 ^ 63 ->
  walk_back fuel (sx + Z.of_nat t) (sy + Z.of_nat t) px py pairs = (sx, sy, pairs ++ run_pairs t sx sy).
Proof using Type.
  intros Hsx Hsy Hp. induction t as [|t IH]; intros fuel pairs Hf Hx Hy.
  - rewrite !Z.add_0_r. unfold run_pairs. simpl. rewrite app_nil_r.
    destruct fuel; simpl; [done|].
    destruct (Z.ltb_spec px sx), (Z.ltb_spec py sy); simpl; try done; lia.
  - destruct fuel as [|fuel]; [lia|]. cbn [walk_back].
    destruct (Z.ltb_spec px (sx + Z.of_nat (S t))); [|lia].
    destruct (Z.ltb_spec py (sy + Z.of_nat (S t))); [|lia]. cbn [andb].
    replace (sx + Z.of_nat (S t) - 1) with (sx + Z.of_nat t) by lia.
    replace (sy + Z.of_nat (S t) - 1) with (sy + Z.of_nat t) by lia.
    unfold wrap. rewrite !Z.mod_small by lia. rewrite IH by lia.
    by rewrite <- app_assoc, run_pairs_S.
Qed.

Definition trace_ok (d : nat) (trace : list (list Z)) : Prop :=
  forall depth, (depth <= d)%nat -> exists old, trace !! depth = Some old /\ holds_round depth old.

(** [v] and [trace] after the rounds below [d], none of which reached the corner. *)
Definition searched (d : nat) (v : list Z) (trace : list (list Z)) : Prop :=
  in_round d [] v /\ length trace = d /\
  (forall depth, (depth < d)%nat -> exists old, trace !! depth = Some old /\ holds_round depth old) /\
  (forall d', (d' < d)%nat -> open_round d').

Lemma searched_start : searched 0 (replicate (Z.to_nat (2 * (N + M) + 3)) 0) [].
Proof. split_and!; [apply first_round|done|lia|lia]. Qed.

Lemma searched_trace d v trace : searched d v trace -> trace_ok d (trace ++ [v]).
Proof using Type.
  intros (Hv & Hlen & Htr & _) depth Hdep. destruct (decide (depth = d)) as [->|].
  - exists v. rewrite <- Hlen, lookup_app_r, Nat.sub_diag by lia. split; [done|]. rewrite Hlen. apply Hv.
  - destruct (Htr depth) as (old & E & Ho); [lia|]. exists old. by rewrite lookup_app_l by lia.
Qed.

Lemma searched_next d v trace v' : searched d v trace -> in_round d (diagonals d) v' -> searched (S d) v' (trace ++ [v]).
Proof using Type.
  intros Hs Hv'. pose proof (searched_trace _ _ _ Hs) as Htr. destruct Hs as (_ & Hlen & _ & Hopen).
  apply end_round in Hv' as [Hv' Ho]. split_and!; [done|rewrite length_app; simpl; lia| |].
  - intros depth Hdep. apply Htr. lia.
  - intros d' Hd'. destruct (decide (d' = d)) as [->|]; [done|apply Hopen; lia].
Qed.

(** The rounds cannot all stay short of the corner. *)
Lemma searched_ends v trace : searched (S (Z.to_nat (N + M))) v trace -> False.
Proof using N_nonneg M_nonneg.
  intros (_ & _ & _ & Hopen). eapply (last_round_closed N M eqb); [done|done|apply Hopen; lia].
Qed.

(** One round back from a frontier point inside the grid: the pairs of its
    diagonal run, and the frontier point of the round before. *)
Lemma unwind_round_safe tick trace d k pairs :
  safe cancel (fun _ => True) tick -> trace_ok d trace -> on_round d k ->
  frontier d k <= N -> frontier d k - k <= M ->
  let s := start_at d k in
  exists pk, safe cancel (fun r => exists x y,
      r = Next (x, y, pairs ++ run_pairs (Z.to_nat (frontier d k - s)) s (s - k)) /\
      (d <> 0%nat -> x = previous d pk /\ y = previous d pk - pk))
    (unwind_round tick trace offset d (frontier d k, frontier d k - k, pairs)) /\
  (d <> 0%nat -> on_round (pred d) pk) /\
  (pk = k + 1 /\ s = previous d pk \/ d <> 0%nat /\ pk = k - 1 /\ s = previous d pk + 1).
Proof.
  intros Htick Htr Hk HN HM s. destruct (Htr d (le_n d)) as (old & Eold & Hold).
  destruct (goes_down_eq d k old Hk Hold) as (b & Eb & Hc & Hr & Hd0 & Es). fold s in Es.
  exists (if b then k + 1 else k - 1). set (pk := if b then k + 1 else k - 1) in *.
  split; [|split; [done|]].
  2: { destruct b; [by left|right; split; [|done]]. intros ->. by specialize (Hd0 eq_refl). }
  unfold unwind_round. eapply safe_bind; [exact Htick|]. intros _ _.
  eapply safe_bind; [eapply (safe_lift _ (eq old)); [|done]|].
  { apply at_idx_eq; [lia|]. by rewrite Nat2Z.id. }
  intros _ <-. cbv zeta. replace (frontier d k - (frontier d k - k)) with k by lia.
  eapply safe_bind; [by apply (safe_lift _ (eq b)) with (a := b)|]. intros _ <-. fold pk.
  eapply safe_bind; [by apply (safe_lift _ (eq (previous d pk))) with (a := previous d pk); [apply cell_at|]|].
  intros _ <-. pose proof (slide_ge N M eqb s (s - k)) as Hs. unfold s in Hs. rewrite <- frontier_start in Hs. fold s in Hs.
  destruct (start_at_range d k Hk) as [Hs0 Hsk]. fold s in Hs0, Hsk.
  set (t := Z.to_nat (frontier d k - s)).
  replace (walk_back _ _ _ _ _ _) with (s, s - k, pairs ++ run_pairs t s (s - k)).
  { destruct (0 <? d)%nat eqn:Ed; apply safe_ret; do 2 eexists; (split; [done|]); [done|].
    apply Nat.ltb_ge in Ed. lia. }
  symmetry. replace (frontier d k - k) with (s - k + Z.of_nat t) by lia.
  replace (frontier d k) with (s + Z.of_nat t) by lia.
  apply walk_back_eq; [lia|lia| |destruct b; lia|lia|lia].
  destruct b; [left|right]; subst pk; lia.
Qed.

(** The diagonal run of a round extends the path to its start. *)
Lemma path_round d k l : path d (start_at d k) (start_at d k - k) l ->
  path d (frontier d k) (frontier d k - k)
    (run_pairs (Z.to_nat (frontier d k - start_at d k)) (start_at d k) (start_at d k - k) ++ l).
Proof using Type.
  intros Hp. rewrite frontier_start. set (s := start_at d k) in *.
  destruct (slide_spec N M eqb s (s - k)) as (t & Ht & -> & Hf & _).
  replace (Z.to_nat (s + t - s)) with (Z.to_nat t) by lia.
  replace (s + t - k) with (s - k + Z.of_nat (Z.to_nat t)) by lia.
  replace (s + t) with (s + Z.of_nat (Z.to_nat t)) by lia.
  apply path_run; [done|]. intros i Hi. apply Hf. lia.
Qed.

Lemma unwind_from tick trace d k pairs :
  safe cancel (fun _ => True) tick -> trace_ok d trace -> on_round d k ->
  frontier d k <= N -> frontier d k - k <= M ->
  safe cancel (fun r => exists x y l, r = Next (x, y, pairs ++ l) /\ path d (frontier d k) (frontier d k - k) l)
    (for_each (rev (seq 0 (S d))) (unwind_round tick trace offset) (frontier d k, frontier d k - k, pairs)).
Proof.
  intros Htick. revert k pairs. induction d as [|d IH]; intros k pairs Htr Hk HN HM.
  - cbn [rev app for_each seq]. destruct (unwind_round_safe tick trace _ k pairs Htick Htr Hk HN HM) as (pk & Hsafe & _).
    eapply safe_bind; [exact Hsafe|]. intros ? (x & y & -> & _). apply safe_ret.
    do 3 eexists. split; [done|]. rewrite <- (app_nil_r (run_pairs _ _ _)). apply path_round.
    apply on_round_0 in Hk as ->. apply path_origin.
  - rewrite seq_S, rev_app_distr. cbn [rev app for_each Nat.add].
    destruct (unwind_round_safe tick trace _ k pairs Htick Htr Hk HN HM) as (pk & Hsafe & Hpk & Hstep).
    eapply safe_bind; [exact Hsafe|]. intros ? (x & y & -> & Hxy).
    destruct (Hxy ltac:(done)) as [-> ->]. specialize (Hpk ltac:(done)). cbn [pred previous] in *.
    pose proof (slide_ge N M eqb (start_at (S d) k) (start_at (S d) k - k)) as Hs. rewrite <- frontier_start in Hs.
    eapply safe_weaken.
    + apply IH; [intros depth Hd; apply Htr; lia|done|lia|lia].
    + intros ? (x & y & l & -> & Hl). do 3 eexists. split; [by rewrite <- app_assoc|].
      apply path_round. destruct Hstep as [[-> Es]|(_ & -> & Es)]; rewrite Es.
      * replace (frontier d (k + 1) - k) with (frontier d (k + 1) - (k + 1) + 1) by lia.
        apply path_down; [done|lia].
      * replace (frontier d (k - 1) + 1 - k) with (frontier d (k - 1) - (k - 1)) by lia.
        apply path_right; [done|lia].
Qed.

(** The walk back from the corner reached first gives a longest common subsequence. *)
Definition longest_common (l : list (Z * Z)) : Prop :=
  common N M eqb 0 0 l /\ forall l', common N M eqb 0 0 l' -> (length l' <= length l)%nat.

Lemma unwind_safe tick trace d k :
  safe cancel (fun _ => True) tick -> trace_ok d trace -> on_round d k ->
  (forall d', (d' < d)%nat -> open_round d') -> N <= frontier d k -> M <= frontier d k - k ->
  safe cancel longest_common (unwind tick trace offset d N M).
Proof.
  intros Htick Htr Hk Hopen HN HM.
  destruct (corner_on_diagonal N M eqb N_nonneg M_nonneg d k Hk Hopen HN HM) as [EN EM].
  pose proof (unwind_from tick trace d k [] Htick Htr Hk ltac:(lia) ltac:(lia)) as H.
  rewrite EM, EN in H. unfold unwind. eapply safe_bind; [exact H|].
  intros ? (x & y & l & -> & Hl). apply safe_ret. cbn [app].
  destruct (first_round_longest N M eqb N_nonneg M_nonneg d l Hopen Hl) as [Hc Hmax].
  split; [done|]. by rewrite length_rev.
Qed.

End array.
