(* ===== verification/TextDiff.v ===== *)
(** * Text diffs

    Crate [marekvs-diff], [textdiff.rs].  A text is the list of its Unicode
    scalar values ([str::chars]); edits address it by position in that list.
    [diff_text_bounded] splits both texts into units, matches the units with a
    bounded Myers search and turns the gaps into edits; [apply_edits] executes
    edits on the old text. *)

From Stdlib Require Import String.
From S2P Require Import Prelude DiffBase Myers MyersRun.

Abbreviation text := (list Z).

(** ** Characters of the standard library *)

(** [char::len_utf8] and [str::len]. *)
Definition len_utf8 (c : Z) : Z := if c <? 128 then 1 else if c <? 2048 then 2 else if c <? 65536 then 3 else 4.
Definition str_len (t : text) : Z := fold_right (fun c n => len_utf8 c + n) 0 t.

(** [char::is_whitespace]: the characters with property [White_Space]. *)
Definition is_whitespace (c : Z) : bool :=
  ((9 <=? c) && (c <=? 13)) || (c =? 32) || (c =? 133) || (c =? 160) || (c =? 5760) ||
  ((8192 <=? c) && (c <=? 8202)) || (c =? 8232) || (c =? 8233) || (c =? 8239) || (c =? 8287) || (c =? 12288).

Definition newline : Z := 10.

(** ** Tokens *)

Record Token := mkToken { tok_start : Z; tok_end : Z }.

#[export] Instance Token_eq_dec : EqDecision Token.
Proof. solve_decision. Defined.

(** The loop of [tokenize] from character [i] on. *)
Fixpoint tokenize_loop (chars : text) (i : Z) (start : option Z) (out : list Token) : option Z * list Token :=
  match chars with
  | [] => (start, out)
  | ch :: chars' =>
      let iu := wrap 32 i in
      if is_whitespace ch then
        let out := match start with Some s => out ++ [mkToken s iu] | None => out end in
        let out := if ch =? newline then out ++ [mkToken iu (wrap 32 (iu + 1))] else out in
        tokenize_loop chars' (i + 1) None out
      else tokenize_loop chars' (i + 1) (match start with None => Some iu | Some s => Some s end) out
  end.

Definition tokenize (t : text) : list Token :=
  let '(start, out) := tokenize_loop t 0 None [] in
  match start with
  | Some s => out ++ [mkToken s (wrap 32 (Z.of_nat (length t)))]
  | None => out
  end.

(** ** Units *)

(** [while i < chars.len() && chars[i] != '\n' && chars[i].is_whitespace() == ws { i += 1 }]. *)
Fixpoint unit_end (rest : text) (ws : bool) (i : nat) : nat :=
  match rest with
  | c :: rest' =>
      if negb (c =? newline) && eqb (is_whitespace c) ws then unit_end rest' ws (S i) else i
  | [] => i
  end.

(** The outer loop of [units]; every turn consumes a character. *)
Fixpoint units_loop (fuel : nat) (chars : text) (i : nat) (out : list (nat * nat)) : list (nat * nat) :=
  match fuel with
  | O => out
  | S f =>
      match chars !! i with
      | Some c =>
          let e := if c =? newline then S i else unit_end (drop (S i) chars) (is_whitespace c) (S i) in
          units_loop f chars e (out ++ [(i, e)])
      | None => out
      end
  end.

Definition units (chars : text) (level : Level) : list (nat * nat) :=
  if decide (level = Char) then (fun i => (i, S i)) <$> seq 0 (length chars)
  else units_loop (length chars) chars 0 [].

(** ** Matching units *)

(** [a[s..e]]. *)
Definition slice_idx (a : text) (s e : nat) : rust text :=
  if ((e <? s) || (length a <? e))%nat then Panic else Ret (take (e - s) (drop s a)).

(** [a[ua[x].0..ua[x].1] == b[ub[y].0..ub[y].1]]. *)
Definition unit_eq (a b : text) (ua ub : list (nat * nat)) (x y : Z) : rust bool :=
  let! u := at_idx ua x in
  let! w := at_idx ub y in
  let! s := slice_idx a u.1 u.2 in
  let! t := slice_idx b w.1 w.2 in
  Ret (bool_decide (s = t)).

Section matching.
Context (a b : text) (ua ub : list (nat * nat)) (budget : Budget) (cancel : CancelToken).

Definition n_a : Z := Z.of_nat (length ua).
Definition n_b : Z := Z.of_nat (length ub).

(** The diagonal run from [(x, y)]; [None] when the work budget is spent. *)
Fixpoint extend (fuel : nat) (x y work : Z) : diffm (option (Z * Z * Z)) :=
  match fuel with
  | O => d_ret (Some (x, y, work))
  | S f =>
      if (x <? n_a) && (y <? n_b) then
        let? same := d_lift (unit_eq a b ua ub x y) in
        if same : bool then
          let work := work + 1 in
          if max_nd budget <? work then d_ret None else
          let? _ := if work mod 1024 =? 0 then d_check cancel else d_ret tt in
          extend f (x + 1) (y + 1) work
        else d_ret (Some (x, y, work))
      else d_ret (Some (x, y, work))
  end.

(** The body of the loop over the diagonals of round [d]. *)
Definition diagonal (offset : Z) (trace : list (list Z)) (d : nat) (k : Z) (st : list Z * Z) :
    diffm (flow (list Z * Z) (option (list (Z * Z)))) :=
  let '(v, work) := st in
  let? _ := d_check cancel in
  let? x := d_lift (start_x v offset (Z.of_nat d) k) in
  let? r := extend (Z.to_nat (n_a - x) + 1) x (x - k) work in
  match r with
  | None => d_ret (Return None)
  | Some (x, y, work) =>
      let? v := d_lift (set_idx v (offset + k) x) in
      if (n_a <=? x) && (n_b <=? y) then
        let? pairs := unwind (d_check cancel) trace offset d n_a n_b in
        d_ret (Return (Some pairs))
      else d_ret (Next (v, work))
  end.

(** The body of the loop over the rounds. *)
Definition round (offset : Z) (d : nat) (st : list Z * list (list Z) * Z) :
    diffm (flow (list Z * list (list Z) * Z) (option (list (Z * Z)))) :=
  let '(v, trace, work) := st in
  let? _ := d_check cancel in
  let len := Z.of_nat (length v) in
  if max_nd budget <? saturating_add 64 work len then d_ret (Return None) else
  let trace := trace ++ [v] in
  let? r := for_each (diagonals d) (diagonal offset trace d) (v, work + len) in
  match r with
  | Next (v, work) => d_ret (Next (v, trace, work))
  | Return r => d_ret (Return r)
  end.

(** [max.saturating_mul(2).saturating_add(3)]. *)
Definition frontier_cost (max : Z) : Z := saturating_add 64 (Z.min (max * 2) (2 ^ 64 - 1)) 3.

Definition matching_units : diffm (option (list (Z * Z))) :=
  let max := n_a + n_b in
  if max =? 0 then d_ret (Some []) else
  if max_nd budget <? frontier_cost max then d_ret None else
  let v := replicate (Z.to_nat (2 * max + 3)) 0 in
  let? r := for_each (seq 0 (S (Z.to_nat max))) (round (max + 1)) (v, [], 0) in
  match r with
  | Next _ => d_ret None
  | Return r => d_ret r
  end.

End matching.

(** ** Edits *)

Record Edit := mkEdit { at_ : Z; del : Z; ins : text }.

#[export] Instance Edit_eq_dec : EqDecision Edit.
Proof. solve_decision. Defined.

(** [u.get(i).map_or(len, |u| u.0)] and [|u| u.1]. *)
Definition unit_start (u : list (nat * nat)) (i : Z) (len : nat) : nat := match u !! Z.to_nat i with Some p => p.1 | None => len end.
Definition unit_stop (u : list (nat * nat)) (i : Z) (len : nat) : nat := match u !! Z.to_nat i with Some p => p.2 | None => len end.

(** The loop of [diff_text_bounded] that turns the gaps between pairs into edits. *)
Fixpoint gap_edits (a b : text) (ua ub : list (nat * nat)) (pairs : list (Z * Z)) (pa pb : nat) (edits : list Edit) :
    rust (list Edit) :=
  match pairs with
  | [] => Ret edits
  | (ai, bi) :: pairs' =>
      let start_a := unit_start ua ai (length a) in
      let start_b := unit_start ub bi (length b) in
      let! edits :=
        if ((pa <? start_a) || (pb <? start_b))%nat then
          let! ins := slice_idx b pb start_b in
          Ret (edits ++ [mkEdit (wrap 32 (Z.of_nat pa)) (wrap 32 (wrap 64 (Z.of_nat start_a - Z.of_nat pa))) ins])
        else Ret edits in
      gap_edits a b ua ub pairs' (unit_stop ua ai (length a)) (unit_stop ub bi (length b)) edits
  end.

(** The replacement of the whole text. *)
Definition full_edit (old new : text) : list Edit := [mkEdit 0 (wrap 32 (Z.of_nat (length old))) new].

Definition diff_text_bounded (old new : text) (level : Level) (budget : Budget) (cancel : CancelToken) :
    diffm (list Edit) :=
  let? _ := d_check cancel in
  if max_bytes budget <? str_len old then d_err (TooBig "text_bytes" (str_len old) (max_bytes budget)) else
  if max_bytes budget <? str_len new then d_err (TooBig "text_bytes" (str_len new) (max_bytes budget)) else
  if decide (old = new) then d_ret [] else
  let old_chars := Z.of_nat (length old) in
  let new_chars := Z.of_nat (length new) in
  if bool_decide (level = Sen) || (max_nd budget / 8 <? saturating_add 64 old_chars new_chars)
  then d_ret (full_edit old new) else
  let? _ := d_check cancel in
  let ua := units old level in
  let ub := units new level in
  let? m := matching_units old new ua ub budget cancel in
  match m with
  | None => d_ret (full_edit old new)
  | Some pairs =>
      d_lift (gap_edits old new ua ub (pairs ++ [(Z.of_nat (length ua), Z.of_nat (length ub))]) 0 0 [])
  end.

(** [diff_text]: the default budget, never cancelled, and the whole
    replacement on an error. *)
Definition diff_text (old new : text) (level : Level) : rust (list Edit) :=
  match diff_text_bounded old new level default_budget cancel_none 0%nat with
  | Ret (inl edits, _) => Ret edits
  | Ret (inr _, _) => Ret (full_edit old new)
  | Panic => Panic
  end.

(** ** Applying edits *)

Inductive TextError := EditOverflow | OverlappingEdits | OutOfBoundsEdit.

(** [n] times [chars.next().ok_or(..)?]: the characters taken and the rest. *)
Fixpoint next_chars (n : nat) (chars : text) : option (text * text) :=
  match n with
  | O => Some ([], chars)
  | S n' =>
      match chars with
      | [] => None
      | c :: chars' => match next_chars n' chars' with Some (t, r) => Some (c :: t, r) | None => None end
      end
  end.

Fixpoint apply_loop (edits : list Edit) (chars out : text) (cursor : Z) (previous : option Z) : text + TextError :=
  match edits with
  | [] => inl (out ++ chars)
  | e :: edits' =>
      match checked_add 64 (at_ e) (del e) with
      | None => inr EditOverflow
      | Some stop =>
          if (at_ e <? cursor) || bool_decide (previous = Some (at_ e)) then inr OverlappingEdits else
          match next_chars (Z.to_nat (at_ e - cursor)) chars with
          | None => inr OutOfBoundsEdit
          | Some (kept, chars) =>
              match next_chars (Z.to_nat (stop - at_ e)) chars with
              | None => inr OutOfBoundsEdit
              | Some (_, chars) => apply_loop edits' chars (out ++ kept ++ ins e) stop (Some (at_ e))
              end
          end
      end
  end.

Definition apply_edits (old : text) (edits : list Edit) : text + TextError := apply_loop edits old [] 0 None.

(** ** Formatting spans *)

Section spans.
Context {Attrs : Type}.

Record Run := mkRun { run_start : Z; run_end : Z; run_attrs : Attrs }.
Record FmtDelta := mkFmtDelta { fmt_old : list Run; fmt_new : list Run }.
Record TokenSpan := mkSpan {
  sp_first : Z; sp_last : Z; start_offset : Z; end_offset : Z; approx : bool; sp_attrs : Attrs }.

(** [|t| t.end > r.start && t.start < r.end]. *)
Definition touches (r : Run) (t : Token) : bool := (run_start r <? tok_end t) && (tok_start t <? run_end r).

Definition position_from (p : Token -> bool) (l : list Token) : option nat := fst <$> list_find (fun t => p t = true) l.
Definition rposition_from (p : Token -> bool) (l : list Token) : option nat :=
  (fun i => length l - 1 - i)%nat <$> (fst <$> list_find (fun t => p t = true) (reverse l)).

Definition token_span (tokens : list Token) (r : Run) : option TokenSpan :=
  match position_from (touches r) tokens, rposition_from (touches r) tokens with
  | Some first, Some last =>
      match tokens !! first, tokens !! last with
      | Some tf, Some tl =>
          Some (mkSpan (wrap 32 (Z.of_nat first)) (wrap 32 (wrap 32 (Z.of_nat last) + 1))
            (saturating_sub (run_start r) (tok_start tf)) (saturating_sub (run_end r) (tok_start tl))
            ((tok_start tf <? run_start r) || (run_end r <? tok_end tl)) (run_attrs r))
      | _, _ => None
      end
  | _, _ => None
  end.

Definition token_spans (d : FmtDelta) (new_text : text) : list TokenSpan :=
  omap (token_span (tokenize new_text)) (fmt_new d).

End spans.
Arguments Run : clear implicits.
Arguments FmtDelta : clear implicits.
Arguments TokenSpan : clear implicits.
