(* ===== verification/TextLaws.v ===== *)
(** * Text diffs are lossless and minimal

    Units partition a text; the matching of units is a longest common
    subsequence of the two unit sequences unless the budget is spent; the edits
    turn the old text into the new one at every level and under every budget;
    [apply_edits] accepts exactly the ordered edits inside the text. *)

From Stdlib Require Import String.
From S2P Require Import Prelude DiffBase Myers MyersRun TextDiff.

(** ** Units partition the text *)

(** [u] cuts [from..len] into adjacent non-empty pieces. *)
Fixpoint cuts (from len : nat) (u : list (nat * nat)) : Prop :=
  match u with
  | [] => from = len
  | (s, e) :: u' => s = from /\ (s < e)%nat /\ cuts e len u'
  end.

Lemma cuts_app from mid len u w : cuts from mid u -> cuts mid len w -> cuts from len (u ++ w).
Proof.
  revert from. induction u as [|[s e] u IH]; intros from; simpl; [by intros ->|].
  intros (-> & ? & ?) ?. auto.
Qed.

Lemma unit_end_bound rest ws i : (i <= unit_end rest ws i <= i + length rest)%nat.
Proof.
  revert i. induction rest as [|c rest IH]; intros i; simpl; [lia|].
  destruct (_ && _); [specialize (IH (S i))|]; lia.
Qed.

Lemma units_loop_cuts fuel chars i out :
  (length chars <= fuel + i)%nat -> (i <= length chars)%nat -> cuts 0 i out ->
  cuts 0 (length chars) (units_loop fuel chars i out).
Proof.
  revert i out. induction fuel as [|f IH]; intros i out Hf Hi Hc; simpl.
  - by replace (length chars) with i by lia.
  - destruct (chars !! i) as [c|] eqn:E.
    + apply lookup_lt_Some in E.
      set (e := if c =? newline then S i else unit_end (drop (S i) chars) (is_whitespace c) (S i)).
      assert (He : (S i <= e <= length chars)%nat).
      { unfold e. destruct (c =? newline); [lia|].
        pose proof (unit_end_bound (drop (S i) chars) (is_whitespace c) (S i)) as H.
        rewrite length_drop in H. lia. }
      apply IH; [lia|lia|]. eapply cuts_app; [done|]. simpl. lia.
    + apply lookup_ge_None in E. by replace (length chars) with i by lia.
Qed.

Lemma units_cuts chars level : cuts 0 (length chars) (units chars level).
Proof.
  unfold units. destruct (decide _) as [_|_].
  - assert (H : forall n i, cuts i (i + n) ((fun i => (i, S i)) <$> seq i n)).
    { induction n as [|n IH]; intros i; simpl; [lia|]. split_and!; [done|lia|].
      specialize (IH (S i)). by rewrite Nat.add_succ_comm in IH. }
    apply (H (length chars) 0%nat).
  - apply units_loop_cuts; [lia|lia|done].
Qed.

(** *** Positions of units *)

Lemma cuts_lookup u : forall from len i s e, cuts from len u -> u !! i = Some (s, e) ->
  (from <= s < e)%nat /\ (e <= len)%nat /\ cuts s len (drop i u).
Proof.
  induction u as [|[s0 e0] u IH]; intros from len i s e Hc E; [done|].
  destruct Hc as (-> & Hlt & Hc). assert (Hle : forall u f, cuts f len u -> (f <= len)%nat).
  { clear. induction u as [|[s e] u IH]; intros f; simpl; [lia|]. intros (-> & ? & H%IH). lia. }
  destruct i as [|i]; simpl in E.
  - injection E as <- <-. simpl. apply Hle in Hc as ?. split_and!; [lia|lia|lia|done|done|done].
  - destruct (IH _ _ _ _ _ Hc E) as (? & ? & ?). split_and!; [lia|lia|lia|done].
Qed.

Lemma cuts_length from len u : cuts from len u -> (length u + from <= len)%nat.
Proof.
  revert from. induction u as [|[s e] u IH]; intros from; simpl; [lia|]. intros (-> & ? & H%IH). lia.
Qed.

(** [edge u len i] is where unit [i] starts, the end of the text for [i] past the last. *)
Abbreviation edge u len i := (unit_start u i len).

Lemma edge_last u len : edge u len (Z.of_nat (length u)) = len.
Proof. unfold unit_start. by rewrite Nat2Z.id, lookup_ge_None_2 by lia. Qed.

Lemma edge_first u len : cuts 0 len u -> edge u len 0 = 0%nat.
Proof. unfold unit_start. destruct u as [|[s e] u]; simpl; [done|]. by intros [-> _]. Qed.

Lemma edge_stop u len i : cuts 0 len u -> 0 <= i < Z.of_nat (length u) ->
  u !! Z.to_nat i = Some (edge u len i, edge u len (i + 1)) /\ unit_stop u i len = edge u len (i + 1) /\
  (edge u len i < edge u len (i + 1) <= len)%nat.
Proof.
  intros Hc Hi. unfold unit_start, unit_stop.
  destruct (lookup_lt_is_Some_2 u (Z.to_nat i)) as [[s e] E]; [lia|]. rewrite E. simpl.
  destruct (cuts_lookup _ _ _ _ _ _ Hc E) as (H1 & H2 & H3).
  replace (Z.to_nat (i + 1)) with (S (Z.to_nat i)) by lia.
  rewrite (drop_S _ _ _ E) in H3. destruct H3 as (_ & _ & H3).
  destruct (u !! S (Z.to_nat i)) as [[s' e']|] eqn:E'.
  - rewrite (drop_S _ _ _ E') in H3. destruct H3 as [-> _]. simpl. split_and!; [done|done|lia|lia].
  - rewrite drop_ge in H3 by by apply lookup_ge_None. simpl in H3. subst e. split_and!; [done|done|lia|lia].
Qed.

Lemma edge_mono u len i j : cuts 0 len u -> 0 <= i <= j -> j <= Z.of_nat (length u) ->
  (edge u len i <= edge u len j <= len)%nat.
Proof.
  intros Hc Hij Hj. assert (E : exists n, j = i + Z.of_nat n) by (exists (Z.to_nat (j - i)); lia).
  destruct E as [n ->]. induction n as [|n IH].
  - rewrite Z.add_0_r. split; [done|].
    destruct (decide (i = Z.of_nat (length u))) as [->|]; [by rewrite edge_last|].
    destruct (edge_stop u len i Hc) as (_ & _ & ?); lia.
  - destruct (edge_stop u len (i + Z.of_nat n) Hc) as (_ & _ & ?); [lia|].
    replace (i + Z.of_nat (S n)) with (i + Z.of_nat n + 1) by lia. specialize (IH ltac:(lia)). lia.
Qed.

(** ** Equal units *)

Definition unit_text (a : text) (u : list (nat * nat)) (i : Z) : text :=
  take (edge u (length a) (i + 1) - edge u (length a) i) (drop (edge u (length a) i) a).
Definition same_unit (a b : text) (ua ub : list (nat * nat)) (x y : Z) : bool :=
  bool_decide (unit_text a ua x = unit_text b ub y).

(** [charge_step]: a round of [d + 1] diagonals costs at most a fixed amount. *)
Lemma charge_step m d w j : 0 <= d <= m -> 0 <= j <= d + 1 -> w <= d * (2 * m + 3 + (m + 1) * m) + (2 * m + 3) ->
  w + j * m <= (d + 1) * (2 * m + 3 + (m + 1) * m).
Proof.
  intros Hd Hj Hw. assert (j * m <= (m + 1) * m) by (apply Z.mul_le_mono_nonneg_r; lia).
  rewrite Z.mul_add_distr_r. lia.
Qed.

Lemma charge_mono m d : 0 <= d <= m ->
  (d + 1) * (2 * m + 3 + (m + 1) * m) <= (m + 1) * (2 * m + 3 + (m + 1) * m).
Proof. intros Hd. apply Z.mul_le_mono_nonneg_r; [|lia]. assert (0 <= (m + 1) * m) by (apply Z.mul_nonneg_nonneg; lia). lia. Qed.

Section matching_laws.
Context (a b : text) (ua ub : list (nat * nat)) (budget : Budget) (cancel : CancelToken).
Hypothesis cuts_a : cuts 0 (length a) ua.
Hypothesis cuts_b : cuts 0 (length b) ub.
Hypothesis small : Z.of_nat (length ua) + Z.of_nat (length ub) < 2 ^ 62.

Abbreviation N := (Z.of_nat (length ua)).
Abbreviation M := (Z.of_nat (length ub)).
Abbreviation same := (same_unit a b ua ub).
Abbreviation frontier := (Myers.frontier N M same).

Lemma unit_eq_same x y : 0 <= x < N -> 0 <= y < M -> unit_eq a b ua ub x y = Ret (same x y).
Proof using cuts_a cuts_b.
  intros Hx Hy. unfold unit_eq.
  destruct (edge_stop ua (length a) x cuts_a Hx) as (Ea & _ & Ha).
  destruct (edge_stop ub (length b) y cuts_b Hy) as (Eb & _ & Hb).
  rewrite (at_idx_eq _ _ _ (proj1 Hx) Ea). cbn [rust_bind].
  rewrite (at_idx_eq _ _ _ (proj1 Hy) Eb). cbn [rust_bind fst snd].
  unfold slice_idx. replace (_ || _)%nat with false by (symmetry; apply orb_false_iff; rewrite !Nat.ltb_ge; lia).
  cbn [rust_bind]. replace (_ || _)%nat with false by (symmetry; apply orb_false_iff; rewrite !Nat.ltb_ge; lia).
  done.
Qed.

(** A diagonal run: the frontier's run and one unit of work per step. *)
Lemma extend_safe fuel x y work : 0 <= x -> 0 <= y -> (Z.to_nat (N - x) < fuel)%nat ->
  safe cancel (fun r => match r with
      | Some (x', y', w') => x' = slide N M same x y /\ y' = y + (x' - x) /\ w' = work + (x' - x)
      | None => max_nd budget < work + Z.max 0 (N - x)
      end)
    (extend a b ua ub budget cancel fuel x y work).
Proof using cuts_a cuts_b.
  unfold slide. revert x y work. induction fuel as [|f IH]; intros x y work Hx Hy Hf; [lia|]. cbn [extend].
  unfold n_a, n_b. destruct (Z.ltb_spec x N) as [HxN|HxN]; cbn [andb].
  2: { apply safe_ret. replace (Z.to_nat (N - x)) with 0%nat by lia. simpl. lia. }
  replace (Z.to_nat (N - x)) with (S (Z.to_nat (N - (x + 1)))) by lia. cbn [run]. unfold free.
  destruct (Z.ltb_spec x N); [|lia]. destruct (Z.ltb_spec y M) as [HyM|HyM]; cbn [andb].
  2: { apply safe_ret. lia. }
  rewrite unit_eq_same by lia. eapply safe_bind; [by apply (safe_lift _ (eq (same x y))) with (a := same x y)|].
  intros ? <-. destruct (same x y); [|apply safe_ret; lia].
  destruct (Z.ltb_spec (max_nd budget) (work + 1)); [apply safe_ret; lia|].
  eapply safe_bind; [destruct (_ =? 0); [by apply (safe_check _ (fun _ => True))|by apply safe_ret]|].
  intros _ _. eapply safe_weaken; [apply IH; lia|]. intros [[[x' y'] w']|]; lia.
Qed.

(** The work of [d] rounds and [j] diagonals of the next, at most. *)
Definition charge (d j : Z) : Z := d * (2 * (N + M) + 3 + (N + M + 1) * (N + M)) + j * (N + M).

Lemma diagonal_safe trace d pre k v work w : Z.of_nat d <= N + M -> on_round d k -> in_round N M same d pre v ->
  trace_ok N M same d trace -> (forall d', (d' < d)%nat -> open_round N M same d') -> work <= w ->
  safe cancel (fun r => match r with
      | Next (v', w') => in_round N M same d (pre ++ [k]) v' /\ w' <= w + (N + M)
      | Return (Some l) => longest_common N M same l
      | Return None => max_nd budget < w + (N + M)
      end)
    (diagonal a b ua ub budget cancel (offset N M) trace d k (v, work)).
Proof using cuts_a cuts_b small.
  intros Hd Hk Hv Htr Hopen Hw. unfold diagonal. eapply safe_bind; [by apply (safe_check _ (fun _ => True))|]. intros _ _.
  set (x := start_at N M same d k). destruct (start_at_range N M same d k Hk) as [Hx0 Hxk]. fold x in Hx0, Hxk.
  eapply safe_bind; [apply (safe_lift _ (eq x)) with (a := x); [by apply start_x_eq; [|apply Hv]|done]|]. intros _ <-.
  unfold n_a, n_b. eapply safe_bind; [apply extend_safe; lia|].
  intros [[[x' y'] w']|] H; [|apply safe_ret; lia]. destruct H as (-> & -> & ->).
  unfold x. rewrite <- frontier_start. fold x.
  assert (Hf : x <= frontier d k /\ frontier d k - x <= N + M).
  { rewrite frontier_start. fold x. pose proof (slide_ge N M same x (x - k)).
    destruct (slide_moved N M same x (x - k)); lia. }
  replace (x - k + (frontier d k - x)) with (frontier d k - k) by lia.
  destruct (decide (N <= frontier d k /\ M <= frontier d k - k)) as [[HN HM]|Hno].
  - pose proof (on_round_offset N M d k Hd Hk).
    eapply safe_bind; [by apply (safe_lift _ (fun _ => True)) with (1 := set_idx_eq v (offset N M + k) (frontier d k) ltac:(rewrite (proj1 Hv); lia))|].
    intros v' _. destruct (Z.leb_spec N (frontier d k)); [|lia]. destruct (Z.leb_spec M (frontier d k - k)); [|lia].
    cbn [andb]. eapply safe_bind.
    + apply (unwind_safe N M same cancel) with (k := k); try done; [lia|lia|by apply safe_check].
    + intros l Hl. by apply safe_ret.
  - destruct (store_round N M same d pre k v Hd Hk Hv Hno) as (v' & Ev & Hv').
    eapply safe_bind; [by apply (safe_lift _ (eq v')) with (a := v')|]. intros _ <-.
    replace ((N <=? frontier d k) && (M <=? frontier d k - k)) with false.
    + apply safe_ret. split; [done|lia].
    + symmetry. apply andb_false_iff. rewrite !Z.leb_gt. lia.
Qed.

(** The state after the rounds below [d]. *)
Definition search_state (d : nat) (st : list Z * list (list Z) * Z) : Prop :=
  let '(v, trace, work) := st in searched N M same d v trace /\ work <= charge (Z.of_nat d) 0.

Definition ample : Z := charge (N + M + 1) 0.

Lemma round_safe d st : Z.of_nat d <= N + M -> search_state d st ->
  safe cancel (fun r => match r with
      | Next st' => search_state (S d) st'
      | Return (Some l) => longest_common N M same l
      | Return None => max_nd budget < ample
      end)
    (round a b ua ub budget cancel (offset N M) d st).
Proof using cuts_a cuts_b small.
  destruct st as [[v trace] work]. intros Hd [Hst Hw]. unfold round, ample, charge in *.
  pose proof (searched_trace _ _ _ _ _ _ Hst) as Htr'. pose proof Hst as (Hv & _ & _ & Hopen).
  eapply safe_bind; [by apply (safe_check _ (fun _ => True))|]. intros _ _. rewrite (proj1 Hv).
  set (len := Z.of_nat (Z.to_nat (2 * (N + M) + 3))). assert (Elen : len = 2 * (N + M) + 3) by lia.
  set (w := work + len) in *.
  pose proof (charge_step (N + M) (Z.of_nat d) w) as Hstep. pose proof (charge_mono (N + M) (Z.of_nat d) ltac:(lia)) as Hmono.
  unfold saturating_add. fold w. destruct (Z.ltb_spec (max_nd budget) (Z.min w (2 ^ 64 - 1))).
  { apply safe_ret. specialize (Hstep 0 ltac:(lia) ltac:(lia) ltac:(lia)). lia. }
  eapply safe_bind.
  - apply (safe_for_each cancel (fun pre st => in_round N M same d pre st.1 /\ st.2 <= w + Z.of_nat (length pre) * (N + M))
      (fun r => match r with Some l => longest_common N M same l | None => max_nd budget < w + (Z.of_nat d + 1) * (N + M) end)
      _ (diagonals d) [] (v, w)).
    + simpl. split; [done|lia].
    + intros p k s0 [v1 w1] E [Hv1 Hw1]. simpl in Hv1, Hw1, E.
      assert (Hk : on_round d k) by (apply elem_diagonals; rewrite E; set_solver).
      assert (Hp : (length p <= d)%nat).
      { apply (f_equal length) in E. unfold diagonals in E. rewrite length_fmap, length_seq, length_app in E. simpl in E. lia. }
      eapply safe_weaken; [by apply (diagonal_safe _ d p k v1 w1 (w + Z.of_nat (length p) * (N + M)))|].
      intros [[v' w']|[l|]]; rewrite ?length_app; cbn [length fst snd]; [|done|].
      * intros [? ?]. split; [done|]. rewrite Nat2Z.inj_add, Z.mul_add_distr_r. lia.
      * assert (Z.of_nat (length p) * (N + M) <= Z.of_nat d * (N + M)) by (apply Z.mul_le_mono_nonneg_r; lia).
        rewrite Z.mul_add_distr_r. lia.
  - intros [[v' w']|[l|]]; simpl.
    + intros [Hv' Hw']. apply safe_ret. unfold diagonals in Hw'. rewrite length_fmap, length_seq in Hw'.
      split; [by eapply searched_next|]. unfold charge.
      specialize (Hstep (Z.of_nat (S d)) ltac:(lia) ltac:(lia) ltac:(lia)). lia.
    + intros Hl. by apply safe_ret.
    + intros Hn. apply safe_ret. specialize (Hstep (Z.of_nat d + 1) ltac:(lia) ltac:(lia) ltac:(lia)). lia.
Qed.

Lemma matching_units_safe :
  safe cancel (fun r => match r with
      | Some l => longest_common N M same l
      | None => max_nd budget < ample
      end)
    (matching_units a b ua ub budget cancel).
Proof using cuts_a cuts_b small.
  unfold matching_units, n_a, n_b. destruct (Z.eqb_spec (N + M) 0) as [E0|].
  { apply safe_ret. split; [constructor|]. intros l' Hc. inversion Hc as [|? ? ? ? ? ? ? Hf]; subst; [done|].
    apply free_spec in Hf. lia. }
  unfold frontier_cost, saturating_add. destruct (Z.ltb_spec (max_nd budget) (Z.min (Z.min ((N + M) * 2) (2 ^ 64 - 1) + 3) (2 ^ 64 - 1))).
  { apply safe_ret. unfold ample, charge.
    pose proof (charge_step (N + M) 0 (2 * (N + M) + 3) 0). pose proof (charge_mono (N + M) 0). lia. }
  eapply safe_bind.
  - apply (safe_for_each cancel (fun pre st => search_state (length pre) st)
      (fun r => match r with Some l => longest_common N M same l | None => max_nd budget < ample end)
      _ (seq 0 (S (Z.to_nat (N + M)))) [] _).
    + split; [apply searched_start; lia|unfold charge; simpl; lia].
    + intros p d s0 st E Hst. cbn [app] in E.
      assert (Hd : d = length p /\ (length p <= Z.to_nat (N + M))%nat).
      { pose proof (f_equal (lookup (length p)) E) as El. rewrite list_lookup_middle in El by done.
        apply lookup_seq in El. lia. }
      destruct Hd as [-> Hd]. eapply safe_weaken; [apply round_safe; [lia|done]|].
      intros [st'|r]; [|done]. by rewrite length_app, Nat.add_1_r.
  - intros [[[v tr] w]|r] Hr; [|by apply safe_ret]. exfalso. cbn [app] in Hr. rewrite length_seq in Hr.
    eapply (searched_ends N M same); [lia|lia|apply Hr].
Qed.

End matching_laws.

(** ** Applying edits *)

Lemma next_chars_eq n l : next_chars n l = if (n <=? length l)%nat then Some (take n l, drop n l) else None.
Proof.
  revert l. induction n as [|n IH]; intros [|c l]; simpl; try done. rewrite IH. by destruct (n <=? length l)%nat.
Qed.

(** One edit: the text up to it is kept, its range dropped. *)
Lemma apply_loop_step e edits old out c prev :
  0 <= at_ e -> 0 <= del e -> at_ e + del e < 2 ^ 64 -> (c <= length old)%nat ->
  apply_loop (e :: edits) (drop c old) out (Z.of_nat c) prev =
    let s := Z.to_nat (at_ e) in
    let t := Z.to_nat (at_ e + del e) in
    if (s <? c)%nat || bool_decide (prev = Some (at_ e)) then inr OverlappingEdits
    else if (length old <? t)%nat then inr OutOfBoundsEdit
    else apply_loop edits (drop t old) (out ++ take (s - c) (drop c old) ++ ins e) (Z.of_nat t) (Some (at_ e)).
Proof.
  intros Ha Hd Hov Hc. cbn [apply_loop]. unfold checked_add.
  destruct (Z.ltb_spec (at_ e + del e) (2 ^ 64)) as [_|]; [|lia].
  replace (at_ e <? Z.of_nat c) with (Z.to_nat (at_ e) <? c)%nat
    by (destruct (Nat.ltb_spec (Z.to_nat (at_ e)) c), (Z.ltb_spec (at_ e) (Z.of_nat c)); lia).
  destruct (Nat.ltb_spec (Z.to_nat (at_ e)) c) as [|Hs]; [done|]. cbn [orb].
  case_bool_decide; [done|]. rewrite next_chars_eq, length_drop.
  destruct (Nat.ltb_spec (length old) (Z.to_nat (at_ e + del e))) as [Ht|Ht].
  - destruct (Nat.leb_spec (Z.to_nat (at_ e - Z.of_nat c)) (length old - c)); [|done].
    rewrite next_chars_eq, drop_drop, length_drop.
    destruct (Nat.leb_spec (Z.to_nat (at_ e + del e - at_ e)) (length old - (c + Z.to_nat (at_ e - Z.of_nat c)))); [lia|done].
  - destruct (Nat.leb_spec (Z.to_nat (at_ e - Z.of_nat c)) (length old - c)); [|lia].
    rewrite next_chars_eq, drop_drop, length_drop.
    destruct (Nat.leb_spec (Z.to_nat (at_ e + del e - at_ e)) (length old - (c + Z.to_nat (at_ e - Z.of_nat c)))); [|lia].
    rewrite drop_drop. repeat f_equal; lia.
Qed.

(** *** The reference: edits executed one by one from the last to the first *)

Definition edit_text (e : Edit) (t : text) : text :=
  take (Z.to_nat (at_ e)) t ++ ins e ++ drop (Z.to_nat (at_ e + del e)) t.
Definition splice (edits : list Edit) (old : text) : text := fold_right edit_text old edits.

(** Edits in order inside a text of [len] characters, from [cursor] on: none
    starts before the end, or at the start, of the one before. *)
Fixpoint ordered (cursor : Z) (previous : option Z) (len : Z) (edits : list Edit) : bool :=
  match edits with
  | [] => true
  | e :: edits' =>
      (cursor <=? at_ e) && negb (bool_decide (previous = Some (at_ e))) && (at_ e + del e <=? len) &&
      ordered (at_ e + del e) (Some (at_ e)) len edits'
  end.

Definition u32_edit (e : Edit) : Prop := u32 (at_ e) /\ u32 (del e).

(** Ordered edits from [c] on are accepted, leave the text before [c] alone and
    produce the spliced text; others are refused. *)
Lemma apply_loop_ordered old edits : Forall u32_edit edits -> forall c out prev, (c <= length old)%nat ->
  ordered (Z.of_nat c) prev (Z.of_nat (length old)) edits = true ->
  take c (splice edits old) = take c old /\
  apply_loop edits (drop c old) out (Z.of_nat c) prev = inl (out ++ drop c (splice edits old)).
Proof.
  induction 1 as [|e edits [[Ha Ha'] [Hd Hd']] _ IH]; intros c out prev Hc; [done|]. cbn [ordered splice fold_right].
  rewrite !andb_true_iff, !Z.leb_le, negb_true_iff. intros (((Hs & Hp) & Ht) & Ho).
  rewrite apply_loop_step by lia. cbv zeta. rewrite Hp.
  set (s := Z.to_nat (at_ e)). set (t := Z.to_nat (at_ e + del e)).
  destruct (Nat.ltb_spec s c); [lia|]. destruct (Nat.ltb_spec (length old) t); [lia|]. cbn [orb].
  replace (at_ e + del e) with (Z.of_nat t) in Ho by lia.
  destruct (IH t (out ++ take (s - c) (drop c old) ++ ins e) (Some (at_ e)) ltac:(lia) Ho) as [Hpre ->].
  set (S' := splice edits old) in *. fold (splice edits old). fold S'.
  assert (Hs' : take s S' = take s old).
  { replace s with (s `min` t)%nat by lia. by rewrite <- !take_take, Hpre. }
  unfold edit_text. fold s t. rewrite Hs'. split.
  - rewrite take_app_le by (rewrite length_take; lia). rewrite take_take. f_equal. lia.
  - rewrite drop_app_le by (rewrite length_take; lia). rewrite <- skipn_firstn_comm.
    f_equal. rewrite <- !app_assoc. replace (c + (s - c))%nat with s by lia. done.
Qed.

Lemma apply_loop_disordered old edits : Forall u32_edit edits -> forall c out prev, (c <= length old)%nat ->
  ordered (Z.of_nat c) prev (Z.of_nat (length old)) edits = false ->
  exists err, apply_loop edits (drop c old) out (Z.of_nat c) prev = inr err /\ err <> EditOverflow.
Proof.
  induction 1 as [|e edits [[Ha Ha'] [Hd Hd']] _ IH]; intros c out prev Hc; [done|]. cbn [ordered].
  intros Ho. rewrite apply_loop_step by lia. cbv zeta.
  destruct (Nat.ltb_spec (Z.to_nat (at_ e)) c) as [|Hs]; [by exists OverlappingEdits|]. cbn [orb].
  destruct (bool_decide _) eqn:Ep; [by exists OverlappingEdits|].
  destruct (Nat.ltb_spec (length old) (Z.to_nat (at_ e + del e))); [by exists OutOfBoundsEdit|].
  destruct (Z.leb_spec (Z.of_nat c) (at_ e)); [|lia].
  destruct (Z.leb_spec (at_ e + del e) (Z.of_nat (length old))); [|lia]. cbn [andb negb] in Ho.
  apply IH; [lia|]. by replace (Z.of_nat (Z.to_nat (at_ e + del e))) with (at_ e + del e) by lia.
Qed.

Lemma apply_edits_ordered old edits : Forall u32_edit edits -> ordered 0 None (Z.of_nat (length old)) edits = true ->
  apply_edits old edits = inl (splice edits old).
Proof. intros Hu Ho. by apply (apply_loop_ordered old edits Hu 0 [] None); [lia|]. Qed.

Lemma apply_edits_accepts old edits new : Forall u32_edit edits -> apply_edits old edits = inl new ->
  ordered 0 None (Z.of_nat (length old)) edits = true /\ new = splice edits old.
Proof.
  intros Hu Ha. destruct (ordered 0 None (Z.of_nat (length old)) edits) eqn:Ho.
  - rewrite (apply_edits_ordered _ _ Hu Ho) in Ha. by injection Ha.
  - destruct (apply_loop_disordered old edits Hu 0 [] None ltac:(lia) Ho) as (err & E & _).
    rewrite drop_0 in E. change (Z.of_nat 0) with 0 in E. unfold apply_edits in Ha. congruence.
Qed.

(** [apply_edits] accepts a list of edits exactly when it is ordered
    inside the text - each edit ends within the text, starts no earlier than
    the end of the one before and not at its start - and then returns the text
    that executing the edits one by one from the last to the first gives. *)
Theorem apply_edits_exact old edits : Forall u32_edit edits ->
  if ordered 0 None (Z.of_nat (length old)) edits
  then apply_edits old edits = inl (splice edits old)
  else apply_edits old edits = inr OverlappingEdits \/ apply_edits old edits = inr OutOfBoundsEdit.
Proof.
  intros Hu. destruct (ordered _ _ _ _) eqn:Ho; [by apply apply_edits_ordered|].
  unfold apply_edits.
  - destruct (apply_loop_disordered old edits Hu 0 [] None ltac:(lia) Ho) as (err & E & Hne).
    rewrite drop_0 in E. change (Z.of_nat 0) with 0 in E. rewrite E. destruct err; [done|by left|by right].
Qed.

Lemma apply_edits_exact_witness :
  apply_edits [97; 98; 99; 100] [mkEdit 1 1 [120; 121]; mkEdit 3 0 [122]] = inl [97; 120; 121; 99; 122; 100] /\
  apply_edits [97; 98; 99] [mkEdit 0 2 []; mkEdit 1 1 []] = inr OverlappingEdits.
Proof.
  assert (H1 : Forall u32_edit [mkEdit 1 1 [120; 121]; mkEdit 3 0 [122]]) by (repeat constructor; done).
  assert (H2 : Forall u32_edit [mkEdit 0 2 []; mkEdit 1 1 []]) by (repeat constructor; done).
  split.
  - apply (apply_edits_exact [97; 98; 99; 100] _ H1).
  - destruct (apply_edits_exact [97; 98; 99] _ H2) as [H|H]; [exact H|discriminate H].
Defined.

(** ** Edits of a diff *)

Section edits.
Context (a b : text) (ua ub : list (nat * nat)).
Hypothesis cuts_a : cuts 0 (length a) ua.
Hypothesis cuts_b : cuts 0 (length b) ub.
Hypothesis short : Z.of_nat (length a) < 2 ^ 32.

Abbreviation N := (Z.of_nat (length ua)).
Abbreviation M := (Z.of_nat (length ub)).
Abbreviation ea i := (edge ua (length a) i).
Abbreviation eb i := (edge ub (length b) i).

Definition before (prev : option Z) (p : nat) : Prop := match prev with Some q => q < Z.of_nat p | None => True end.

(** The edits of the gaps from units [(x, y)] on turn what is left of [a] into
    what is left of [b]. *)
Definition turns (E : list Edit) (x y : Z) : Prop := forall c out prev, (c <= ea x)%nat -> before prev (ea x) ->
  apply_loop E (drop c a) out (Z.of_nat c) prev = inl (out ++ take (ea x - c) (drop c a) ++ drop (eb y) b).

(** One gap: the edit, if any, between [(x, y)] and the start of [(x', y')]. *)
Definition gap (x y x' y' : Z) : list Edit :=
  if ((ea x <? ea x') || (eb y <? eb y'))%nat
  then [mkEdit (Z.of_nat (ea x)) (Z.of_nat (ea x' - ea x)) (take (eb y' - eb y) (drop (eb y) b))] else [].

Lemma gap_eq l x y x' y' E : 0 <= x <= x' -> 0 <= y <= y' -> x' <= N -> y' <= M ->
  gap_edits a b ua ub ((x', y') :: l) (ea x) (eb y) E =
  gap_edits a b ua ub l (unit_stop ua x' (length a)) (unit_stop ub y' (length b)) (E ++ gap x y x' y').
Proof using cuts_a cuts_b short.
  intros Hx Hy HN HM. cbn [gap_edits]. unfold gap.
  destruct (edge_mono ua (length a) x x' cuts_a Hx HN). destruct (edge_mono ub (length b) y y' cuts_b Hy HM).
  destruct (_ || _)%nat; [|by rewrite app_nil_r]. unfold slice_idx.
  replace (_ || _)%nat with false by (symmetry; apply orb_false_iff; rewrite !Nat.ltb_ge; lia).
  cbn [rust_bind]. unfold wrap.
  rewrite (Z.mod_small (Z.of_nat (ea x))), (Z.mod_small (_ - _) (2 ^ 64)), Z.mod_small by lia.
  by rewrite Nat2Z.inj_sub by lia.
Qed.

(** The edit of a gap followed by what turns the rest. *)
Lemma gap_turns E x y x' y' : 0 <= x <= x' -> 0 <= y <= y' -> x' <= N -> y' <= M ->
  (forall c out prev, (c <= ea x')%nat -> before prev (S (ea x)) ->
     apply_loop E (drop c a) out (Z.of_nat c) prev = inl (out ++ take (ea x' - c) (drop c a) ++ drop (eb y') b)) ->
  turns (gap x y x' y' ++ E) x y.
Proof using cuts_a cuts_b short.
  intros Hx Hy HN HM HE c out prev Hc Hprev.
  destruct (edge_mono ua (length a) x x' cuts_a Hx HN). destruct (edge_mono ub (length b) y y' cuts_b Hy HM).
  unfold gap. destruct (Nat.ltb_spec (ea x) (ea x')) as [|Hax], (Nat.ltb_spec (eb y) (eb y')) as [|Hby]; cbn [orb app].
  4: { replace (ea x') with (ea x) in * by lia. replace (eb y') with (eb y) in * by lia. apply HE; [done|].
       destruct prev; simpl in *; lia. }
  all: rewrite apply_loop_step by (cbn [at_ del]; lia); cbn [at_ del ins]; cbv zeta;
    rewrite <- Nat2Z.inj_add, !Nat2Z.id;
    (replace (ea x <? c)%nat with false by (symmetry; apply Nat.ltb_ge; lia));
    (rewrite bool_decide_eq_false_2 by (intros ->; simpl in Hprev; lia));
    (replace (ea x + (ea x' - ea x))%nat with (ea x') by lia);
    (replace (length a <? ea x')%nat with false by (symmetry; apply Nat.ltb_ge; lia)); cbn [orb];
    (rewrite HE by (simpl; lia)); rewrite Nat.sub_diag, take_0; cbn [app]; rewrite <- !app_assoc; do 3 f_equal;
    rewrite <- (take_drop (eb y' - eb y) (drop (eb y) b)) at 2; f_equal; rewrite drop_drop; f_equal; lia.
Qed.

(** A pair of equal units is kept. *)
Lemma pair_turns E x y x' y' : 0 <= x <= x' -> 0 <= y <= y' -> x' < N -> y' < M ->
  same_unit a b ua ub x' y' = true -> turns E (x' + 1) (y' + 1) -> turns (gap x y x' y' ++ E) x y.
Proof using cuts_a cuts_b short.
  intros Hx Hy HN HM Hs HE. apply gap_turns; [done|done|lia|lia|]. intros c out prev Hc Hprev.
  destruct (edge_mono ua (length a) x x' cuts_a Hx ltac:(lia)).
  destruct (edge_stop ua (length a) x' cuts_a ltac:(lia)) as (_ & _ & Hla).
  destruct (edge_stop ub (length b) y' cuts_b ltac:(lia)) as (_ & _ & Hlb).
  rewrite HE; [|lia|destruct prev; simpl in *; lia]. do 2 f_equal.
  apply bool_decide_eq_true in Hs. unfold unit_text in Hs.
  replace (ea (x' + 1) - c)%nat with ((ea x' - c) + (ea (x' + 1) - ea x'))%nat by lia.
  rewrite <- take_take_drop, drop_drop, <- app_assoc. f_equal. replace (c + (ea x' - c))%nat with (ea x') by lia.
  rewrite Hs.
  rewrite <- (take_drop (eb (y' + 1) - eb y') (drop (eb y') b)) at 2. f_equal.
  rewrite drop_drop. f_equal. lia.
Qed.

Lemma gap_edits_turn x y l E : common N M (same_unit a b ua ub) x y l -> 0 <= x <= N -> 0 <= y <= M ->
  exists E', gap_edits a b ua ub (l ++ [(N, M)]) (ea x) (eb y) E = Ret (E ++ E') /\ turns E' x y.
Proof using cuts_a cuts_b short.
  intros Hc. revert E. induction Hc as [x y|x y x' y' l Hx Hy Hf _ IH]; intros E HxN HyM; cbn [app].
  - rewrite gap_eq by lia. cbn [gap_edits]. exists (gap x y N M). split; [done|].
    rewrite <- (app_nil_r (gap x y N M)). apply gap_turns; [lia|lia|lia|lia|]. intros c out prev Hcc _. simpl.
    rewrite !edge_last, (take_ge (drop c a)) by (rewrite length_drop; lia). by rewrite drop_all, app_nil_r.
  - apply free_spec in Hf as (HxN' & HyM' & Hs). rewrite gap_eq by lia.
    destruct (edge_stop ua (length a) x' cuts_a ltac:(lia)) as (_ & -> & _).
    destruct (edge_stop ub (length b) y' cuts_b ltac:(lia)) as (_ & -> & _).
    destruct (IH (E ++ gap x y x' y') ltac:(lia) ltac:(lia)) as (E' & -> & HE').
    exists (gap x y x' y' ++ E'). split; [by rewrite <- app_assoc|]. apply pair_turns; [lia|lia|lia|lia|done|done].
Qed.

End edits.

Lemma apply_full old new : Z.of_nat (length old) < 2 ^ 32 -> apply_edits old (full_edit old new) = inl new.
Proof.
  intros Hl. unfold apply_edits, full_edit. rewrite <- (drop_0 old) at 2. change 0 with (Z.of_nat 0) at 2.
  rewrite apply_loop_step by (unfold wrap; cbn [at_ del]; rewrite ?Z.mod_small; lia). cbn [at_ del ins]. unfold wrap. rewrite Z.mod_small by lia. cbv zeta.
  change (Z.to_nat 0 <? 0)%nat with false. rewrite bool_decide_eq_false_2 by done. replace (Z.to_nat (0 + Z.of_nat (length old))) with (length old) by lia.
  rewrite Nat.ltb_irrefl. simpl. rewrite drop_all. by rewrite app_nil_r.
Qed.

(** Matching and edits of two texts within the search's size. *)
Lemma diff_edits_safe old new level budget cancel :
  Z.of_nat (length old) < 2 ^ 32 -> Z.of_nat (length old) + Z.of_nat (length new) < 2 ^ 62 ->
  let ua := units old level in
  let ub := units new level in
  safe cancel (fun edits => apply_edits old edits = inl new)
    (let? _ := d_check cancel in
     let? m := matching_units old new ua ub budget cancel in
     match m with
     | None => d_ret (full_edit old new)
     | Some pairs => d_lift (gap_edits old new ua ub (pairs ++ [(Z.of_nat (length ua), Z.of_nat (length ub))]) 0 0 [])
     end).
Proof.
  intros Hlen Hsize ua ub. pose proof (units_cuts old level) as Ha. pose proof (units_cuts new level) as Hb.
  fold ua in Ha. fold ub in Hb. pose proof (cuts_length _ _ _ Ha). pose proof (cuts_length _ _ _ Hb).
  eapply safe_bind; [by apply (safe_check _ (fun _ => True))|]. intros _ _.
  eapply safe_bind; [apply matching_units_safe; [done|done|lia]|].
  intros [l|] Hl; [|by apply safe_ret, apply_full].
  destruct (gap_edits_turn old new ua ub Ha Hb Hlen 0 0 l [] (proj1 Hl) ltac:(lia) ltac:(lia)) as (E & Eg & Ht).
  rewrite (edge_first _ _ Ha), (edge_first _ _ Hb) in Eg. eapply safe_lift; [exact Eg|].
  specialize (Ht 0%nat [] None). rewrite (edge_first _ _ Ha), (edge_first _ _ Hb) in Ht. by apply Ht.
Qed.

(** The outcomes of [diff_text_bounded]. *)
Definition lossless (old new : text) (budget : Budget) (cancel : CancelToken) (r : list Edit + DiffError) : Prop :=
  match r with
  | inl edits => apply_edits old edits = inl new
  | inr (TooBig _ len limit) => limit = max_bytes budget /\ limit < len /\ (len = str_len old \/ len = str_len new)
  | inr e => stops cancel e
  end.

Lemma diff_text_bounded_lossless old new level budget cancel n :
  u64 (max_nd budget) -> Z.of_nat (length old) < 2 ^ 32 ->
  exists r n', diff_text_bounded old new level budget cancel n = Ret (r, n') /\ lossless old new budget cancel r.
Proof.
  intros Hnd Hlen. unfold diff_text_bounded, d_bind at 1, d_check at 1.
  destruct (check cancel n) as [[]|e] eqn:Eck.
  2: { do 2 eexists. split; [done|]. assert (Hs : stops cancel e) by (by exists n).
       by destruct (stops_kind _ _ Hs); subst e. }
  destruct (Z.ltb_spec (max_bytes budget) (str_len old)); [do 2 eexists; split; [done|]; split_and!; [done|lia|by left]|].
  destruct (Z.ltb_spec (max_bytes budget) (str_len new)); [do 2 eexists; split; [done|]; split_and!; [done|lia|by right]|].
  destruct (decide (old = new)) as [<-|Hne]; [do 2 eexists; split; done|].
  destruct (bool_decide (level = Sen)) eqn:Elev; cbn [orb]; [do 2 eexists; split; [done|]; by apply apply_full|].
  destruct (Z.ltb_spec (max_nd budget / 8) (saturating_add 64 (Z.of_nat (length old)) (Z.of_nat (length new)))) as [Hbig|Hbig].
  { do 2 eexists; split; [done|]; by apply apply_full. }
  assert (Hsize : Z.of_nat (length old) + Z.of_nat (length new) < 2 ^ 62).
  { unfold saturating_add in Hbig. destruct Hnd. assert (max_nd budget / 8 < 2 ^ 61) by (apply Z.div_lt_upper_bound; lia). lia. }
  destruct (diff_edits_safe old new level budget cancel Hlen Hsize (S n)) as (r & n' & E & Hr).
  exists r, n'. split; [exact E|]. destruct r as [edits|e]; [done|]. by destruct (stops_kind _ _ Hr); subst e.
Qed.

(** [C11] A text diff is lossless at every level, under every budget and
    however the comparison is interrupted: [diff_text_bounded] never panics; it
    fails only when the token was raised or a text is longer than [max_bytes],
    and edits it returns turn the old text into the new one.  [diff_text] always
    returns such edits. *)
Theorem diff_text_lossless old new level budget cancel n :
  u64 (max_nd budget) -> Z.of_nat (length old) < 2 ^ 32 ->
  (exists r n', diff_text_bounded old new level budget cancel n = Ret (r, n') /\
    match r with
    | inl edits => apply_edits old edits = inl new
    | inr (TooBig _ len limit) => limit = max_bytes budget /\ limit < len /\ (len = str_len old \/ len = str_len new)
    | inr e => stops cancel e
    end) /\
  (exists edits, diff_text old new level = Ret edits /\ apply_edits old edits = inl new).
Proof.
  intros Hnd Hlen. split; [by apply diff_text_bounded_lossless|].
  destruct (diff_text_bounded_lossless old new level default_budget cancel_none 0%nat ltac:(done) Hlen) as (r & n' & E & Hr).
  unfold diff_text. rewrite E. destruct r as [edits|e]; [by exists edits|].
  exists (full_edit old new). split; [done|by apply apply_full].
Qed.

(** A complete diff, and one whose deadline passes after the second check. *)
Lemma diff_text_lossless_witness :
  (exists edits n', diff_text_bounded [97; 32; 98; 32; 99] [120; 32; 98; 32; 122] Word default_budget cancel_none 0%nat
     = Ret (inl edits, n') /\ apply_edits [97; 32; 98; 32; 99] edits = inl [120; 32; 98; 32; 122]) /\
  (exists n', diff_text_bounded [97] [98] Char default_budget (mkCancel (fun _ => false) Z.of_nat (Some 2)) 0%nat
     = Ret (inr (Timeout "diff"), n') /\
     stops (mkCancel (fun _ => false) Z.of_nat (Some 2)) (Timeout "diff")).
Proof.
  assert (Hb : u64 (max_nd default_budget)) by done. split.
  - destruct (diff_text_lossless [97; 32; 98; 32; 99] [120; 32; 98; 32; 122] Word default_budget cancel_none 0%nat Hb ltac:(done))
      as [(r & n' & E & H) _]. vm_compute in E. injection E as <- <-. do 2 eexists. split; [vm_compute; reflexivity|exact H].
  - destruct (diff_text_lossless [97] [98] Char default_budget (mkCancel (fun _ => false) Z.of_nat (Some 2)) 0%nat Hb ltac:(done))
      as [(r & n' & E & H) _]. vm_compute in E. injection E as <- <-. eexists. split; [vm_compute; reflexivity|exact H].
Defined.

(** ** Minimality *)

(** [C23] The matching of two texts' units is a longest common subsequence of the
    unit sequences, for any token: [matching_units] never panics, pairs equal
    units in order, no longer such pairing exists, and it gives up with [None]
    only if the budget is below a bound cubic in the number of units. *)
Theorem matching_units_longest a b level budget cancel n :
  let ua := units a level in
  let ub := units b level in
  Z.of_nat (length a) + Z.of_nat (length b) < 2 ^ 62 ->
  exists r n', matching_units a b ua ub budget cancel n = Ret (r, n') /\
    match r with
    | inl (Some l) => longest_common (Z.of_nat (length ua)) (Z.of_nat (length ub)) (same_unit a b ua ub) l
    | inl None => max_nd budget < ample ua ub
    | inr e => stops cancel e
    end.
Proof.
  intros ua ub Hsize. pose proof (units_cuts a level) as Ha. pose proof (units_cuts b level) as Hb.
  fold ua in Ha. fold ub in Hb. pose proof (cuts_length _ _ _ Ha). pose proof (cuts_length _ _ _ Hb).
  destruct (matching_units_safe a b ua ub budget cancel Ha Hb ltac:(lia) n) as (r & n' & E & Hr).
  exists r, n'. split; [exact E|]. by destruct r as [[l|]|e].
Qed.

Lemma matching_units_longest_witness :
  let a := [97; 98; 99; 97; 98; 98; 97] in
  let b := [99; 98; 97; 98; 97; 99] in
  exists l, longest_common 7 6 (same_unit a b (units a Char) (units b Char)) l /\ length l = 4%nat.
Proof.
  intros a b. destruct (matching_units_longest a b Char default_budget cancel_none 0%nat ltac:(done)) as (r & n' & E & H).
  vm_compute in E. injection E as <- <-. eexists. split; [exact H|reflexivity].
Defined.
