(* ===== verification/BTree.v ===== *)
(** * Ordered maps

    [std::collections::BTreeMap] as an association list sorted by key, with the
    entry update and lookup the diff crate uses and their laws. *)

From S2P Require Import Prelude.

Section btree.
Context {K V : Type} (cmp : K -> K -> comparison).

(** [m.entry(k)] updated: [f] gets the value of an occupied entry. *)
Fixpoint bt_update (k : K) (f : option V -> V) (m : list (K * V)) : list (K * V) :=
  match m with
  | [] => [(k, f None)]
  | (k', v) :: m' =>
      match cmp k k' with
      | Lt => (k, f None) :: m
      | Eq => (k', f (Some v)) :: m'
      | Gt => (k', v) :: bt_update k f m'
      end
  end.

Fixpoint bt_get (k : K) (m : list (K * V)) : option V :=
  match m with
  | [] => None
  | (k', v) :: m' => match cmp k k' with Lt => None | Eq => Some v | Gt => bt_get k m' end
  end.

(** Every value satisfies [P]. *)
Lemma bt_update_all (P : V -> Prop) k f m : Forall (fun e => P e.2) m -> P (f None) -> (forall v, P v -> P (f (Some v))) ->
  Forall (fun e => P e.2) (bt_update k f m).
Proof.
  intros Hm Hn Hs. induction Hm as [|[k' v] m Hv Hm IH]; simpl; [by repeat constructor|].
  destruct (cmp k k'); repeat (constructor; simpl; auto).
Qed.

Lemma bt_get_all (P : V -> Prop) k v m : Forall (fun e => P e.2) m -> bt_get k m = Some v -> P v.
Proof.
  induction 1 as [|[k' v'] m Hv Hm IH]; simpl; [done|]. destruct (cmp k k'); [|done|done]. by intros [= <-].
Qed.

(** ** Laws over a total order *)

Class TotalOrder : Prop := {
  cmp_eq : forall x y, cmp x y = Eq <-> x = y;
  cmp_flip : forall x y, cmp y x = CompOpp (cmp x y);
  cmp_trans : forall x y z, cmp x y = Lt -> cmp y z = Lt -> cmp x z = Lt }.
Context `{!TotalOrder}.

Definition bt_sorted (m : list (K * V)) : Prop := StronglySorted (fun e e' => cmp e.1 e'.1 = Lt) m.

Lemma bt_update_keys k f m e : e ∈ bt_update k f m -> e.1 = k \/ e ∈ m.
Proof.
  induction m as [|[k' v] m IH]; simpl; [intros ->%list_elem_of_singleton; by left|].
  destruct (cmp k k') eqn:E; rewrite !elem_of_cons.
  - apply cmp_eq in E as <-. intros [->|]; auto.
  - intros [->|[->|]]; auto.
  - intros [->|[]%IH]; auto.
Qed.

Lemma bt_update_sorted k f m : bt_sorted m -> bt_sorted (bt_update k f m).
Proof.
  unfold bt_sorted. induction 1 as [|[k' v] m Hs IH Hf]; simpl; [by repeat constructor|].
  destruct (cmp k k') eqn:E.
  - by constructor.
  - constructor; [by constructor|]. constructor; [done|]. eapply Forall_impl; [exact Hf|].
    intros e He. simpl in *. by eapply cmp_trans.
  - constructor; [done|]. apply Forall_forall. intros e He. simpl. apply bt_update_keys in He as [->|He].
    + rewrite cmp_flip, E. done.
    + rewrite Forall_forall in Hf. by apply (Hf e).
Qed.

Lemma bt_get_low k m : Forall (fun e => cmp k e.1 = Lt) m -> bt_get k m = None.
Proof. induction 1 as [|[k' v] m Hk _ _]; simpl; [done|]. simpl in Hk. by rewrite Hk. Qed.

Lemma bt_get_update k f m k' : bt_sorted m ->
  bt_get k' (bt_update k f m) = match cmp k' k with Eq => Some (f (bt_get k m)) | _ => bt_get k' m end.
Proof.
  unfold bt_sorted. induction 1 as [|[k0 v] m Hs IH Hf]; simpl.
  - by destruct (cmp k' k).
  - destruct (cmp k k0) eqn:E; simpl.
    + apply cmp_eq in E as <-. by destruct (cmp k' k).
    + destruct (cmp k' k) eqn:E'; [done| |done]. by rewrite (cmp_trans k' k k0 E' E).
    + destruct (cmp k' k0) eqn:E'.
      * apply cmp_eq in E' as ->. rewrite cmp_flip, E. done.
      * rewrite (cmp_trans k' k0 k E'); [done|]. rewrite cmp_flip, E. done.
      * done.
Qed.

Lemma bt_get_elem k v m : bt_sorted m -> (k, v) ∈ m -> bt_get k m = Some v.
Proof.
  unfold bt_sorted. induction 1 as [|[k0 v0] m Hs IH Hf]; [by intros ?%not_elem_of_nil|]. simpl.
  intros [[= -> ->]|Hin]%elem_of_cons.
  - by rewrite (proj2 (cmp_eq k0 k0) eq_refl).
  - rewrite Forall_forall in Hf. specialize (Hf _ Hin). simpl in Hf. rewrite cmp_flip, Hf. simpl. by apply IH.
Qed.

End btree.

(** ** Key orders *)

Definition pair_cmp (a b : Z * Z) : comparison := match a.1 ?= b.1 with Eq => a.2 ?= b.2 | c => c end.

#[export] Instance nat_order : TotalOrder Nat.compare.
Proof.
  split.
  - intros x y. apply Nat.compare_eq_iff.
  - intros x y. apply Nat.compare_antisym.
  - intros x y z. rewrite !Nat.compare_lt_iff. lia.
Qed.

#[export] Instance bytes_order : TotalOrder bytes_cmp.
Proof. split; [apply bytes_cmp_eq|apply bytes_cmp_antisym|apply bytes_cmp_trans]. Qed.

#[export] Instance pair_order : TotalOrder pair_cmp.
Proof.
  split; unfold pair_cmp.
  - intros [x1 x2] [y1 y2]; simpl. destruct (Z.compare_spec x1 y1), (Z.compare_spec x2 y2); subst; split; intros E; try done; injection E; lia.
  - intros [x1 x2] [y1 y2]; simpl. rewrite (Z.compare_antisym x1 y1), (Z.compare_antisym x2 y2). by destruct (x1 ?= y1), (x2 ?= y2).
  - intros [x1 x2] [y1 y2] [z1 z2]; simpl.
    destruct (Z.compare_spec x1 y1), (Z.compare_spec y1 z1), (Z.compare_spec x1 z1); try lia; try done;
      destruct (Z.compare_spec x2 y2), (Z.compare_spec y2 z2), (Z.compare_spec x2 z2); try lia; done.
Qed.
