(* ===== verification/Lis.v ===== *)
(** * Longest increasing subsequences

    Crate [marekvs-diff]: [lis] of [align.rs] (patience piles with back
    pointers) selects the sibling anchors that stay in order, [lis] of
    [classify.rs] (suffix lengths in a Fenwick tree, greedy reconstruction)
    selects the siblings that do not move.  Both are longest. *)

From S2P Require Import Prelude DiffBase.

(** ** The specification *)

(** [l] is an increasing subsequence of [s]. *)
Definition increasing (l : list nat) : Prop := StronglySorted lt l.

Lemma increasing_snoc l x : increasing (l ++ [x]) <-> increasing l /\ Forall (fun y => y < x)%nat l.
Proof.
  unfold increasing. induction l as [|y l IH]; simpl.
  - split; intros _; repeat constructor.
  - split.
    + inversion 1 as [|? ? Hs Hf]; subst. apply IH in Hs as [Hs Hl]. apply Forall_app in Hf as [Hf Hx].
      rewrite Forall_singleton in Hx. split; constructor; auto.
    + intros [Hs Hl]. inversion Hs; subst. inversion Hl; subst. constructor; [by apply IH|].
      apply Forall_app. split; [done|]. by apply Forall_singleton.
Qed.

Lemma increasing_lookup l : increasing l -> forall i j x y, l !! i = Some x -> l !! j = Some y -> (i < j)%nat -> (x < y)%nat.
Proof.
  induction 1 as [|z l _ IH Hf]; intros [|i] [|j] x y Ei Ej Hlt; try done; try lia; simpl in Ei, Ej.
  - injection Ei as <-. rewrite Forall_lookup in Hf. by eapply Hf.
  - apply (IH i j); [done|done|lia].
Qed.

(** The elements of [L] at the positions [l]. *)
Definition pick {A} (L : list A) (l : list nat) : list A := omap (fun i => L !! i) l.

Lemma pick_S {A} (x : A) L l : pick (x :: L) (S <$> l) = pick L l.
Proof. unfold pick. induction l as [|i l IH]; simpl; [done|]. destruct (L !! i); [f_equal|]; exact IH. Qed.

Lemma increasing_S l : increasing (S <$> l) <-> increasing l.
Proof.
  unfold increasing. induction l as [|i l IH]; simpl; [split; constructor|].
  split; inversion 1 as [|? ? Hs Hf]; subst; constructor; try by apply IH.
  - rewrite Forall_fmap in Hf. eapply Forall_impl; [exact Hf|]. simpl. lia.
  - rewrite Forall_fmap. eapply Forall_impl; [exact Hf|]. simpl. lia.
Qed.

(** Positions above 0 are successors. *)
Lemma positive_positions l : Forall (fun i => 0 < i)%nat l -> exists l', l = S <$> l'.
Proof.
  induction 1 as [|[|i] l Hi _ [l' ->]]; [by exists []|lia|by exists (i :: l')].
Qed.

(** Subsequences are the elements at increasing positions. *)
Lemma sublist_pick {A} (s L : list A) : s `sublist_of` L ->
  exists l, increasing l /\ Forall (fun i => i < length L)%nat l /\ pick L l = s.
Proof.
  induction 1 as [|x s L _ (l & Hi & Hf & E)|x s L _ (l & Hi & Hf & E)].
  - exists []. split_and!; [constructor|constructor|done].
  - exists (0%nat :: (S <$> l)). split_and!.
    + constructor; [by apply increasing_S|]. rewrite Forall_fmap. apply Forall_true. simpl. lia.
    + constructor; [simpl; lia|]. rewrite Forall_fmap. eapply Forall_impl; [exact Hf|]. simpl. lia.
    + change (x :: pick (x :: L) (S <$> l) = x :: s). by rewrite pick_S, E.
  - exists (S <$> l). split_and!; [by apply increasing_S| |by rewrite pick_S].
    rewrite Forall_fmap. eapply Forall_impl; [exact Hf|]. simpl. lia.
Qed.

Lemma pick_sublist {A} (L : list A) l : increasing l -> Forall (fun i => i < length L)%nat l ->
  pick L l `sublist_of` L /\ length (pick L l) = length l.
Proof.
  revert l. induction L as [|x L IH]; intros l Hi Hf.
  - destruct l as [|i l]; [done|]. inversion Hf; subst. simpl in *. lia.
  - assert (Hpos : forall l', increasing (S <$> l') -> Forall (fun i => i < length (x :: L))%nat (S <$> l') ->
      pick L l' `sublist_of` L /\ length (pick L l') = length l').
    { intros l' H1 H2. apply IH; [by apply increasing_S|]. rewrite Forall_fmap in H2. eapply Forall_impl; [exact H2|]. simpl. lia. }
    destruct l as [|[|i] l].
    + split; [apply sublist_nil_l|done].
    + inversion Hi as [|? ? Hs Hlt]; subst. inversion Hf; subst.
      destruct (positive_positions l Hlt) as [l' ->]. destruct (Hpos l' Hs ltac:(done)) as [Hsub Hlen].
      change (pick (x :: L) (0%nat :: (S <$> l'))) with (x :: pick (x :: L) (S <$> l')). rewrite pick_S. simpl.
      rewrite length_fmap. split; [by constructor|lia].
    + assert (Hp : Forall (fun i => 0 < i)%nat (S i :: l)).
      { inversion Hi as [|? ? Hs Hlt]; subst. constructor; [lia|]. eapply Forall_impl; [exact Hlt|]. simpl. lia. }
      destruct (positive_positions _ Hp) as [l' E]. rewrite E in *. destruct (Hpos l' Hi Hf) as [H1 H2].
      rewrite pick_S, length_fmap. split; [by constructor|done].
Qed.

(** ** Patience piles ([align.rs]) *)

(** [tails.partition_point(|&j| pairs[j].1 < y)]: the piles below [y] come first. *)
Fixpoint partition_point {A} (p : A -> bool) (l : list A) : nat :=
  match l with
  | x :: l' => if p x then S (partition_point p l') else O
  | [] => O
  end.

Definition second (pairs : list (nat * nat)) (j : nat) : nat := match pairs !! j with Some p => p.2 | None => 0%nat end.

(** The loop over [pairs.iter().enumerate()]. *)
Fixpoint lis_piles (pairs : list (nat * nat)) (rest : list (nat * nat)) (i : nat) (tails : list nat) (prev : list (option nat)) :
    list nat * list (option nat) :=
  match rest with
  | [] => (tails, prev)
  | (_, y) :: rest' =>
      let k := partition_point (fun j => (second pairs j <? y)%nat) tails in
      let prev := if (0 <? k)%nat then <[i := tails !! (k - 1)%nat]> prev else prev in
      let tails := if (k =? length tails)%nat then tails ++ [i] else <[k := i]> tails in
      lis_piles pairs rest' (S i) tails prev
  end.

(** [while let Some(i) = at { out.push(pairs[i]); at = prev[i] }]. *)
Fixpoint lis_back (fuel : nat) (pairs : list (nat * nat)) (prev : list (option nat)) (at_ : option nat) (out : list (nat * nat)) :
    rust (list (nat * nat)) :=
  match fuel, at_ with
  | S f, Some i =>
      let! p := at_idx pairs (Z.of_nat i) in
      let! at_ := at_idx prev (Z.of_nat i) in
      lis_back f pairs prev at_ (out ++ [p])
  | _, _ => Ret out
  end.

Definition align_lis (pairs : list (nat * nat)) : rust (list (nat * nat)) :=
  let '(tails, prev) := lis_piles pairs pairs 0 [] (replicate (length pairs) None) in
  let! out := lis_back (length pairs) pairs prev (last tails) [] in
  Ret (rev out).

(** ** Correctness of the piles *)

Section piles.
Context (pairs : list (nat * nat)).
Abbreviation val := (second pairs).

(** The chain of back pointers from [j], in order of position. *)
Inductive linked (prev : list (option nat)) : nat -> list nat -> Prop :=
  | linked_first j : prev !! j = Some None -> linked prev j [j]
  | linked_next j j' l : prev !! j = Some (Some j') -> linked prev j' l -> linked prev j (l ++ [j]).

(** [l] lists positions below [n] in order whose values increase. *)
Definition chain (n : nat) (l : list nat) : Prop := increasing l /\ increasing (val <$> l) /\ Forall (fun j => j < n)%nat l.

Lemma chain_snoc n l j : chain n (l ++ [j]) <->
  chain j l /\ (j < n)%nat /\ Forall (fun i => val i < val j)%nat l.
Proof.
  unfold chain. rewrite fmap_app. change (val <$> [j]) with [val j].
  rewrite !increasing_snoc, Forall_app, Forall_singleton, Forall_fmap. unfold compose.
  split.
  - intros ([? ?] & [? ?] & ? & ?). split_and!; auto.
  - intros ((? & ? & Hj) & ? & ?). split_and!; auto. eapply Forall_impl; [exact Hj|]. simpl. lia.
Qed.

Record piles (i : nat) (tails : list nat) (prev : list (option nat)) : Prop := {
  p_len : length prev = length pairs;
  p_rest : forall j, (i <= j < length pairs)%nat -> prev !! j = Some None;
  (* the pile [k] ends in a chain of [k + 1] positions *)
  p_link : forall k j, tails !! k = Some j -> exists l, linked prev j l /\ chain i l /\ length l = S k /\ last l = Some j;
  p_sorted : forall k k' j j', (k < k')%nat -> tails !! k = Some j -> tails !! k' = Some j' -> (val j < val j')%nat;
  (* every chain ends no lower than its pile *)
  p_best : forall l j, chain i (l ++ [j]) -> exists j', tails !! length l = Some j' /\ (val j' <= val j)%nat }.

Lemma partition_point_spec {A} (p : A -> bool) l :
  (partition_point p l <= length l)%nat /\
  (forall k x, (k < partition_point p l)%nat -> l !! k = Some x -> p x = true) /\
  (forall x, l !! partition_point p l = Some x -> p x = false).
Proof.
  induction l as [|a l (IH1 & IH2 & IH3)]; simpl; [split_and!; [lia|lia|done]|].
  destruct (p a) eqn:E; simpl.
  - split_and!; [lia| |done]. intros [|k] x Hk Hx; simpl in Hx; [congruence|]. apply (IH2 k); [lia|done].
  - split_and!; [lia|lia|]. congruence.
Qed.

Lemma linked_insert prev j l i v : linked prev j l -> Forall (fun j => j < i)%nat l -> linked (<[i := v]> prev) j l.
Proof.
  induction 1 as [j E|j j' l E Hl IH]; intros Hf.
  - rewrite Forall_singleton in Hf. apply linked_first. rewrite list_lookup_insert_ne; [done|simpl in Hf; lia].
  - rewrite Forall_app, Forall_singleton in Hf. destruct Hf as [Hf Hj]. apply (linked_next _ _ j'); [|by apply IH].
    rewrite list_lookup_insert_ne; [done|simpl in Hj; lia].
Qed.

Lemma chain_mono n m l : (n <= m)%nat -> chain n l -> chain m l.
Proof. intros H (? & ? & Hf). split_and!; [done|done|]. eapply Forall_impl; [exact Hf|]. simpl. lia. Qed.

Lemma chain_last l j : chain j l -> forall x, last l = Some x -> Forall (fun i => val i <= val x)%nat l.
Proof.
  intros (_ & Hv & _) x Hx. apply last_Some in Hx as [l' ->]. rewrite fmap_app in Hv. change (val <$> [x]) with [val x] in Hv. rewrite increasing_snoc in Hv.
  destruct Hv as [_ Hv]. apply Forall_app. rewrite Forall_fmap in Hv. split; [|by apply Forall_singleton].
  eapply Forall_impl; [exact Hv|]. simpl. lia.
Qed.

(** One more pair. *)
Lemma piles_step i tails prev x y : pairs !! i = Some (x, y) -> piles i tails prev ->
  let k := partition_point (fun j => (val j <? y)%nat) tails in
  piles (S i) (if (k =? length tails)%nat then tails ++ [i] else <[k := i]> tails)
    (if (0 <? k)%nat then <[i := tails !! (k - 1)%nat]> prev else prev).
Proof.
  intros Ei [Hlen Hrest Hlink Hsort Hbest] k.
  assert (Hval : val i = y) by (unfold second; by rewrite Ei).
  pose proof (lookup_lt_Some _ _ _ Ei) as Hi.
  destruct (partition_point_spec (fun j => (val j <? y)%nat) tails) as (Hk & Hlow & Hhigh). fold k in Hk, Hlow, Hhigh.
  set (tails' := if (k =? length tails)%nat then tails ++ [i] else <[k := i]> tails).
  set (prev' := if (0 <? k)%nat then <[i := tails !! (k - 1)%nat]> prev else prev).
  assert (Ht : forall n, tails' !! n = if decide (n = k) then Some i else tails !! n).
  { intros n. unfold tails'. destruct (Nat.eqb_spec k (length tails)) as [E|]; destruct (decide (n = k)) as [->|].
    - rewrite E. apply list_lookup_middle. done.
    - destruct (decide (n < length tails)%nat); [by apply lookup_app_l|].
      rewrite !lookup_ge_None_2; [done|lia|rewrite length_app; simpl; lia].
    - apply list_lookup_insert_eq. lia.
    - apply list_lookup_insert_ne. lia. }
  assert (Hold : forall j l, linked prev j l -> chain i l -> linked prev' j l).
  { intros j l Hl (_ & _ & Hf). unfold prev'. destruct (0 <? k)%nat; [|done]. by apply linked_insert. }
  split.
  - unfold prev'. destruct (0 <? k)%nat; [|done]. by rewrite length_insert.
  - intros j Hj. unfold prev'. destruct (0 <? k)%nat; [rewrite list_lookup_insert_ne by lia|]; apply Hrest; lia.
  - intros n j. rewrite Ht. destruct (decide (n = k)) as [->|].
    + intros [= <-]. unfold prev'. destruct (Nat.ltb_spec 0 k) as [Hk0|Hk0].
      * destruct (lookup_lt_is_Some_2 tails (k - 1)) as [j' Ej']; [lia|]. rewrite Ej'.
        destruct (Hlink _ _ Ej') as (l & Hl & Hc & Hn & Hlast). exists (l ++ [i]). split_and!.
        -- apply (linked_next _ _ j'); [by apply list_lookup_insert_eq; lia|]. apply linked_insert; [done|apply Hc].
        -- apply chain_snoc. split_and!; [done|lia|]. eapply Forall_impl; [by eapply chain_last|]. simpl. intros a Ha.
           specialize (Hlow (k - 1)%nat j' ltac:(lia) Ej'). apply Nat.ltb_lt in Hlow. lia.
        -- rewrite length_app. simpl. lia.
        -- apply last_snoc.
      * exists [i]. split_and!; [apply linked_first, Hrest; lia| |simpl; lia|done].
        apply (chain_snoc (S i) [] i). split_and!; [by repeat constructor|lia|constructor].
    + intros E. destruct (Hlink _ _ E) as (l & Hl & Hc & Hn & Hlast). exists l.
      split_and!; [by apply Hold|eapply chain_mono; [|done]; lia|done|done].
  - intros n n' j j' Hn. rewrite !Ht. destruct (decide (n = k)) as [->|]; destruct (decide (n' = k)) as [->|].
    + lia.
    + intros [= <-] E'. rewrite Hval.
      destruct (lookup_lt_is_Some_2 tails k) as [jk Ejk]; [apply lookup_lt_Some in E'; lia|].
      pose proof (Hhigh _ Ejk) as H. apply Nat.ltb_ge in H. pose proof (Hsort _ _ _ _ Hn Ejk E'). lia.
    + intros E [= <-]. rewrite Hval. specialize (Hlow _ _ Hn E). by apply Nat.ltb_lt in Hlow.
    + apply Hsort. done.
  - intros l j Hc. apply chain_snoc in Hc as (Hc & Hj & Hf).
    destruct (decide (j = i)) as [->|].
    + assert (Hlk : (length l <= k)%nat).
      { destruct (decide (length l <= k)%nat) as [|Hgt]; [done|exfalso].
        destruct (lookup_lt_is_Some_2 l k) as [a Ea]; [lia|].
        destruct (Hbest (take k l) a) as (j' & Ej' & Hle).
        { rewrite <- take_S_r by done. destruct Hc as (H1 & H2 & H3).
          split_and!; [| |by apply Forall_take].
          - eapply StronglySorted_app_1_l. by rewrite take_drop.
          - rewrite fmap_take. eapply StronglySorted_app_1_l. by rewrite take_drop. }
        rewrite length_take, Nat.min_l in Ej' by lia. specialize (Hhigh _ Ej'). apply Nat.ltb_ge in Hhigh.
        rewrite Forall_lookup in Hf. specialize (Hf _ _ Ea). lia. }
      rewrite Ht. destruct (decide (length l = k)); [by exists i|].
      destruct (lookup_lt_is_Some_2 tails (length l)) as [j' Ej']; [lia|]. exists j'. split; [done|].
      specialize (Hlow (length l) j' ltac:(lia) Ej'). apply Nat.ltb_lt in Hlow. lia.
    + destruct (Hbest l j) as (j' & Ej' & Hle); [apply chain_snoc; split_and!; [done|lia|done]|].
      rewrite Ht. destruct (decide (length l = k)) as [E|]; [|by exists j'].
      exists i. split; [done|]. rewrite Hval. rewrite E in Ej'. specialize (Hhigh _ Ej'). apply Nat.ltb_ge in Hhigh. lia.
Qed.

Lemma piles_start : piles 0 [] (replicate (length pairs) None).
Proof.
  split.
  - apply length_replicate.
  - intros j Hj. apply lookup_replicate_2. lia.
  - done.
  - done.
  - intros l j (_ & _ & Hf). apply Forall_app in Hf as [_ Hf]. rewrite Forall_singleton in Hf. lia.
Qed.

Lemma lis_piles_spec rest : forall i tails prev, rest = drop i pairs -> (i <= length pairs)%nat -> piles i tails prev ->
  piles (length pairs) (lis_piles pairs rest i tails prev).1 (lis_piles pairs rest i tails prev).2.
Proof.
  induction rest as [|[x y] rest IH]; intros i tails prev E Hi Hp; simpl.
  - apply (f_equal length) in E. rewrite length_drop in E. simpl in E. by replace (length pairs) with i by lia.
  - assert (Ei : pairs !! i = Some (x, y)).
    { rewrite <- (Nat.add_0_r i), <- lookup_drop, <- E. done. }
    apply IH; [|apply lookup_lt_Some in Ei; lia|by apply (piles_step i tails prev x y)].
    rewrite (drop_S _ _ _ Ei) in E. by injection E.
Qed.

Lemma pick_snoc l j p : pairs !! j = Some p -> pick pairs (l ++ [j]) = pick pairs l ++ [p].
Proof. intros E. unfold pick. rewrite omap_app. simpl. by rewrite E. Qed.

Lemma lis_back_spec prev j l : linked prev j l -> Forall (fun i => i < length pairs)%nat l ->
  forall fuel out, (length l <= fuel)%nat -> lis_back fuel pairs prev (Some j) out = Ret (out ++ rev (pick pairs l)).
Proof.
  induction 1 as [j E|j j' l E Hl IH]; intros Hf fuel out Hfuel.
  - rewrite Forall_singleton in Hf. destruct (lookup_lt_is_Some_2 pairs j Hf) as [p Ep].
    destruct fuel as [|f]; [simpl in Hfuel; lia|]. cbn [lis_back].
    rewrite (at_idx_eq _ _ p), (at_idx_eq _ _ None) by (rewrite ?Nat2Z.id; done || lia). cbn [rust_bind].
    pose proof (pick_snoc [] j p Ep) as Epick. simpl app in Epick. rewrite Epick. simpl. by destruct f.
  - rewrite Forall_app, Forall_singleton in Hf. destruct Hf as [Hf Hj].
    destruct (lookup_lt_is_Some_2 pairs j Hj) as [p Ep]. rewrite length_app in Hfuel. simpl in Hfuel.
    destruct fuel as [|f]; [lia|]. cbn [lis_back].
    rewrite (at_idx_eq _ _ p), (at_idx_eq _ _ (Some j')) by (rewrite ?Nat2Z.id; done || lia). cbn [rust_bind].
    rewrite (pick_snoc l j p Ep), rev_app_distr, IH by (done || lia). by rewrite <- app_assoc.
Qed.

(** Positions of increasing subsequences are chains. *)
Lemma pick_values l : Forall (fun i => i < length pairs)%nat l -> (pick pairs l).*2 = val <$> l.
Proof.
  induction 1 as [|i l Hi _ IH]; [done|]. unfold pick, second in *. simpl.
  destruct (lookup_lt_is_Some_2 pairs i Hi) as [p ->]. simpl. f_equal. exact IH.
Qed.

Lemma align_lis_spec : exists out, align_lis pairs = Ret out /\ out `sublist_of` pairs /\ increasing out.*2 /\
  forall s, s `sublist_of` pairs -> increasing s.*2 -> (length s <= length out)%nat.
Proof.
  unfold align_lis. pose proof (lis_piles_spec pairs 0 [] (replicate (length pairs) None) eq_refl (Nat.le_0_l _) piles_start) as Hp.
  destruct (lis_piles _ _ _ _ _) as [tails prev]. destruct Hp as [Hlen _ Hlink _ Hbest]. simpl in *.
  assert (Hupper : forall s, s `sublist_of` pairs -> increasing s.*2 -> (length s <= length tails)%nat).
  { intros s Hs Hi. destruct (sublist_pick _ _ Hs) as (l & Hl & Hf & <-). rewrite (pick_values l Hf) in Hi.
    rewrite (proj2 (pick_sublist pairs l Hl Hf)). destruct l as [|j l] using rev_ind; [simpl; lia|].
    destruct (Hbest l j) as (j' & E & _); [by split_and!|]. apply lookup_lt_Some in E. rewrite length_app. simpl. lia. }
  destruct (last tails) as [j|] eqn:El.
  - rewrite last_lookup in El. destruct (Hlink _ _ El) as (l & Hl & (Hi & Hv & Hf) & Hn & _).
    destruct (pick_sublist pairs l Hi Hf) as [Hsub Hpl].
    assert (length l <= length pairs)%nat by (rewrite <- Hpl; by apply sublist_length).
    rewrite (lis_back_spec _ _ _ Hl Hf) by lia. simpl. rewrite rev_involutive. exists (pick pairs l).
    split_and!; [done|done|by rewrite pick_values|].
    intros s Hs1 Hs2. rewrite Hpl, Hn. pose proof (Hupper s Hs1 Hs2). apply lookup_lt_Some in El. lia.
  - apply last_None in El as ->. exists []. split_and!; [by destruct (length pairs)|apply sublist_nil_l|constructor|].
    intros s Hs1 Hs2. by apply Hupper.
Qed.

End piles.
