(* ===== verification/Fenwick.v ===== *)
(** * Low bits and Fenwick trees

    The number theory behind the two loops of [lis] in [classify.rs]: [q &= q - 1]
    walks from [p] down through the nodes that cover [1..p], [q += q & (!q + 1)]
    walks up through the nodes that cover [r]; the walks meet whenever [r <= p]. *)

From S2P Require Import Prelude.

(** The lowest set bit. *)
Definition low (q : Z) : Z := Z.land q (- q).

Lemma low_even a : low (2 * a) = 2 * low a.
Proof.
  unfold low. replace (- (2 * a)) with (2 * - a) by lia. apply Z.bits_inj'. intros n Hn.
  destruct (decide (n = 0)) as [->|].
  - by rewrite Z.land_spec, !Z.testbit_even_0.
  - replace n with (Z.succ (n - 1)) by lia. rewrite Z.land_spec, !Z.testbit_even_succ, Z.land_spec by lia. done.
Qed.

Lemma low_odd a : low (2 * a + 1) = 1.
Proof.
  unfold low. replace (- (2 * a + 1)) with (2 * Z.lnot a + 1) by (unfold Z.lnot; lia). apply Z.bits_inj'. intros n Hn.
  destruct (decide (n = 0)) as [->|].
  - rewrite Z.land_spec, !Z.testbit_odd_0. reflexivity.
  - replace n with (Z.succ (n - 1)) by lia.
    rewrite Z.land_spec, !Z.testbit_odd_succ, Z.lnot_spec by lia.
    pose proof (Z.testbit_odd_succ 0 (n - 1) ltac:(lia)) as E. change (2 * 0 + 1) with 1 in E. rewrite E, Z.bits_0. by destruct (Z.testbit a (n - 1)).
Qed.

(** Induction on the binary digits. *)
Lemma digits_ind (P : Z -> Prop) : (forall a, 0 <= a -> P (2 * a + 1)) -> (forall a, 0 < a -> P a -> P (2 * a)) ->
  forall q, 0 < q -> P q.
Proof.
  intros Ho He q. induction q as [q IH] using (well_founded_induction (Z.lt_wf 0)). intros Hq.
  destruct (Z.Even_or_Odd q) as [[a ->]|[a ->]]; [|apply Ho; lia].
  apply He; [lia|]. apply IH; lia.
Qed.

Lemma low_range q : 0 < q -> 0 < low q <= q.
Proof.
  revert q. apply (digits_ind (fun q => 0 < low q <= q)).
  - intros a Ha. rewrite low_odd. lia.
  - intros a Ha. rewrite low_even. lia.
Qed.

(** [q & (q - 1)]. *)
Lemma clear_low q : 0 < q -> Z.land q (q - 1) = q - low q.
Proof.
  revert q. apply (digits_ind (fun q => Z.land q (q - 1) = q - low q)).
  - intros a Ha. rewrite low_odd. replace (2 * a + 1 - 1) with (2 * a) by lia. apply Z.bits_inj'. intros n Hn.
    destruct (decide (n = 0)) as [->|].
    + by rewrite Z.land_spec, Z.testbit_odd_0, Z.testbit_even_0.
    + replace n with (Z.succ (n - 1)) by lia.
      rewrite Z.land_spec, Z.testbit_odd_succ, Z.testbit_even_succ by lia. apply andb_diag.
  - intros a Ha IH. rewrite low_even. replace (2 * a - 2 * low a) with (2 * (a - low a)) by lia. rewrite <- IH.
    replace (2 * a - 1) with (2 * (a - 1) + 1) by lia. apply Z.bits_inj'. intros n Hn.
    destruct (decide (n = 0)) as [->|].
    + by rewrite Z.land_spec, !Z.testbit_even_0.
    + replace n with (Z.succ (n - 1)) by lia.
      rewrite Z.land_spec, !Z.testbit_even_succ, Z.testbit_odd_succ, Z.land_spec by lia. done.
Qed.

(** [q & (!q + 1)] on 64-bit words. *)
Lemma low_word q : 0 < q < 2 ^ 64 -> Z.land q (wrap 64 (wrap 64 (- q - 1) + 1)) = low q.
Proof.
  intros Hq. unfold low, wrap. rewrite Z.add_mod_idemp_l by lia. replace (- q - 1 + 1) with (- q) by lia.
  rewrite <- Z.land_ones by lia. rewrite (Z.land_comm (- q)), Z.land_assoc. f_equal.
  rewrite Z.land_ones, Z.mod_small by lia. done.
Qed.

(** ** The two walks *)

Inductive up : Z -> Z -> Prop :=
  | up_here r : up r r
  | up_next r q : up (r + low r) q -> up r q.
Inductive down : Z -> Z -> Prop :=
  | down_here p : 0 < p -> down p p
  | down_next p q : 0 < p -> down (p - low p) q -> down p q.

Lemma up_covers q : 0 < q -> forall r, 0 < r -> q - low q < r <= q -> up r q.
Proof.
  assert (Hstep : forall q, 0 < q -> forall r, 0 < r < q -> q - low q < r -> r + low r <= q).
  { apply (digits_ind (fun q => forall r, 0 < r < q -> q - low q < r -> r + low r <= q)).
    - intros a Ha r Hr. rewrite low_odd. lia.
    - intros a Ha IH r Hr. rewrite low_even. destruct (Z.Even_or_Odd r) as [[b ->]|[b ->]].
      + rewrite low_even. intros Hl. specialize (IH b). lia.
      + rewrite low_odd. lia. }
  intros Hq r. assert (E : exists n, q - r <= Z.of_nat n) by (exists (Z.to_nat (q - r)); lia). destruct E as [n Hn].
  revert r Hn. induction n as [|n IH]; intros r Hn Hr Hrange.
  - replace r with q by lia. constructor.
  - destruct (decide (r = q)) as [->|]; [constructor|]. pose proof (low_range r Hr).
    pose proof (Hstep q Hq r ltac:(lia) ltac:(lia)). apply up_next, IH; lia.
Qed.

(** The walks meet. *)
Lemma walks_meet r p : 0 < r <= p -> exists q, down p q /\ up r q /\ r <= q <= p.
Proof.
  intros Hr. assert (E : exists n, p <= Z.of_nat n) by (exists (Z.to_nat p); lia). destruct E as [n Hn].
  revert p Hn Hr. induction n as [|n IH]; intros p Hn Hr; [lia|]. pose proof (low_range p ltac:(lia)).
  destruct (decide (r <= p - low p)) as [Hle|Hgt].
  - destruct (IH (p - low p)) as (q & Hd & Hu & Hq); [lia|lia|]. exists q. split_and!; [constructor; [lia|done]|done|lia|lia].
  - exists p. split_and!; [constructor; lia|apply up_covers; lia|lia|lia].
Qed.

Lemma up_le r q : 0 < r -> up r q -> r <= q.
Proof. intros Hr H. revert Hr. induction H as [|r q _ IH]; intros Hr; [lia|]. pose proof (low_range r Hr). lia. Qed.
