(* ===== verification/LisSuffix.v ===== *)
(** * The siblings that stay in place

    [lis] of [classify.rs]: the length of the longest increasing subsequence
    that starts at each position, computed from the right with a Fenwick tree
    over ranks, and a greedy reconstruction that prefers early positions. *)

From S2P Require Import Prelude DiffBase Lis Fenwick.

(** ** The code *)

(** [xs.to_vec(); sort_unstable(); dedup()]. *)
Definition sorted_values (xs : list nat) : list nat := dedup_by Nat.eqb (merge_sort Nat.le xs).

(** [sorted.len() - sorted.binary_search(&x).unwrap()]. *)
Definition rank_of (sorted : list nat) (x : nat) : rust Z :=
  match list_find (fun y => y = x) sorted with
  | Some (i, _) => Ret (Z.of_nat (length sorted) - Z.of_nat i)
  | None => Panic
  end.

(** [while q > 0 { best = best.max(bit[q]); q &= q - 1 }]. *)
Fixpoint query (fuel : nat) (bit : list nat) (q : Z) (best : nat) : rust nat :=
  match fuel with
  | O => Ret best
  | S f =>
      if 0 <? q then
        let! b := at_idx bit q in
        query f bit (Z.land q (q - 1)) (Nat.max best b)
      else Ret best
  end.

(** [while q < bit.len() { bit[q] = bit[q].max(v); q += q & (!q + 1) }]. *)
Fixpoint update (fuel : nat) (bit : list nat) (q : Z) (v : nat) : rust (list nat) :=
  match fuel with
  | O => Ret bit
  | S f =>
      if q <? Z.of_nat (length bit) then
        let! b := at_idx bit q in
        let! bit := set_idx bit q (Nat.max b v) in
        update f bit (q + Z.land q (wrap 64 (wrap 64 (- q - 1) + 1))) v
      else Ret bit
  end.

(** The loop over [xs] from the right: [suffix] and [bit]. *)
Fixpoint suffix_loop (sorted : list nat) (xs : list nat) : rust (list nat * list nat) :=
  match xs with
  | [] => Ret ([], replicate (S (length sorted)) 0%nat)
  | x :: xs' =>
      let! (suffix, bit) := suffix_loop sorted xs' in
      let! rank := rank_of sorted x in
      let! best := query (Z.to_nat rank) bit (rank - 1) 0 in
      let! bit := update (length bit) bit rank (S best) in
      Ret (S best :: suffix, bit)
  end.

(** The greedy loop; [n] is the position of the head of [xs]. *)
Fixpoint stays_loop (xs suffix : list nat) (n remaining : nat) (last : option nat) (out : list nat) : list nat :=
  match xs, suffix with
  | x :: xs', s :: suffix' =>
      if (0 <? remaining)%nat && (match last with None => true | Some v => v <? x end)%nat && (remaining <=? s)%nat
      then stays_loop xs' suffix' (S n) (remaining - 1) (Some x) (out ++ [n])
      else stays_loop xs' suffix' (S n) remaining last out
  | _, _ => out
  end.

Definition classify_lis (xs : list nat) : rust (list nat) :=
  let sorted := sorted_values xs in
  let! (suffix, _) := suffix_loop sorted xs in
  Ret (stays_loop xs suffix 0 (foldr Nat.max 0%nat suffix) None []).

(** ** The tree holds the lengths by rank *)

(** [entries]: the ranks and lengths stored so far. *)
Definition tree_ok (n : nat) (entries : list (Z * nat)) (bit : list nat) : Prop :=
  length bit = S n /\
  (forall q b, bit !! q = Some b -> b = 0%nat \/ exists r, (r, b) ∈ entries /\ r <= Z.of_nat q) /\
  (forall r s q, (r, s) ∈ entries -> up r q -> q <= Z.of_nat n -> exists b, bit !! Z.to_nat q = Some b /\ (s <= b)%nat).

(** The largest length of rank at most [p]. *)
Definition best_upto (entries : list (Z * nat)) (p : Z) (m : nat) : Prop :=
  (m = 0%nat \/ exists r, (r, m) ∈ entries /\ r <= p) /\ forall r s, (r, s) ∈ entries -> r <= p -> (s <= m)%nat.

Section tree.
Context (n : nat) (size : Z.of_nat n < 2 ^ 63).

Lemma query_spec entries bit : tree_ok n entries bit -> forall fuel q best, 0 <= q <= Z.of_nat n -> (Z.to_nat q <= fuel)%nat ->
  exists m, query fuel bit q best = Ret m /\ (best <= m)%nat /\
    (m = best \/ exists q' , bit !! q' = Some m /\ Z.of_nat q' <= q) /\
    (forall q' b, down q q' -> bit !! Z.to_nat q' = Some b -> (b <= m)%nat).
Proof using Type.
  intros (Hlen & _ & _). induction fuel as [|f IH]; intros q best Hq Hf; cbn [query].
  - replace q with 0 by lia. exists best. split_and!; [done|done|by left|]. intros q' b Hd. inversion Hd; subst; lia.
  - destruct (Z.ltb_spec 0 q) as [Hpos|].
    2: { exists best. split_and!; [done|done|by left|]. intros q' b Hd. inversion Hd; subst; lia. }
    destruct (lookup_lt_is_Some_2 bit (Z.to_nat q)) as [b Eb]; [lia|].
    rewrite (at_idx_eq _ _ b) by (done || lia). cbn [rust_bind]. rewrite clear_low by lia.
    pose proof (low_range q Hpos). destruct (IH (q - low q) (Nat.max best b)) as (m & -> & Hb & Hm & Hd); [lia|lia|].
    exists m. split_and!; [done|lia| |].
    + destruct Hm as [->|(q' & E & Hle)]; [|right; exists q'; split; [done|lia]].
      destruct (Nat.max_spec best b) as [[_ ->]|[_ ->]]; [right; exists (Z.to_nat q); split; [done|lia]|by left].
    + intros q' b' Hdown Eb'. inversion Hdown; subst; [|by eapply Hd]. rewrite Eb in Eb'. injection Eb' as <-. lia.
Qed.

Lemma query_best entries bit p : tree_ok n entries bit -> (forall r s, (r, s) ∈ entries -> 0 < r) -> 0 <= p <= Z.of_nat n ->
  forall fuel, (Z.to_nat p <= fuel)%nat -> exists m, query fuel bit p 0 = Ret m /\ best_upto entries p m.
Proof using Type.
  intros Hok Hpos Hp fuel Hf. destruct (query_spec entries bit Hok fuel p 0 Hp Hf) as (m & E & _ & Hm & Hd).
  exists m. split; [done|]. destruct Hok as (Hlen & Hsound & Hcomp). split.
  - destruct Hm as [->|(q & Eq & Hq)]; [by left|]. destruct (Hsound _ _ Eq) as [->|(r & Hr & Hle)]; [by left|].
    right. exists r. split; [done|lia].
  - intros r s Hin Hle. destruct (walks_meet r p) as (q & Hdn & Hup & Hq); [specialize (Hpos _ _ Hin); lia|].
    destruct (Hcomp r s q Hin Hup ltac:(lia)) as (b & Eb & Hb). specialize (Hd _ _ Hdn Eb). lia.
Qed.

(** What an update has stored so far. *)
Lemma update_spec v : forall fuel bit q, length bit = S n -> 0 < q -> (Z.of_nat (S n) <= q + Z.of_nat fuel) ->
  exists bit', update fuel bit q v = Ret bit' /\ length bit' = S n /\
    (forall i b, bit' !! i = Some b -> bit !! i = Some b \/ (b = v /\ q <= Z.of_nat i) ) /\
    (forall i b, bit !! i = Some b -> exists b', bit' !! i = Some b' /\ (b <= b')%nat) /\
    (forall i, up q i -> i <= Z.of_nat n -> exists b', bit' !! Z.to_nat i = Some b' /\ (v <= b')%nat).
Proof using size.
  induction fuel as [|f IH]; intros bit q Hlen Hq Hf; cbn [update].
  - exists bit. split_and!; [done|done|by left|eauto|]. intros i Hu Hi. pose proof (up_le q i Hq Hu). lia.
  - destruct (Z.ltb_spec q (Z.of_nat (length bit))) as [Hlt|].
    2: { exists bit. split_and!; [done|done|by left|eauto|]. intros i Hu Hi. pose proof (up_le q i Hq Hu). lia. }
    destruct (lookup_lt_is_Some_2 bit (Z.to_nat q)) as [b Eb]; [lia|].
    rewrite (at_idx_eq _ _ b) by (done || lia). cbn [rust_bind]. rewrite set_idx_eq by lia. cbn [rust_bind].
    rewrite low_word by lia. pose proof (low_range q Hq).
    destruct (IH (<[Z.to_nat q := Nat.max b v]> bit) (q + low q)) as (bit' & -> & Hl' & Hback & Hgrow & Hup).
    { by rewrite length_insert. } { lia. } { lia. }
    exists bit'. split_and!; [done|done| | |].
    + intros i c Ec. destruct (Hback i c Ec) as [E|[-> Hi]]; [|right; split; [done|lia]].
      destruct (decide (i = Z.to_nat q)) as [->|]; [|left; rewrite list_lookup_insert_ne in E by lia; done].
      rewrite list_lookup_insert_eq in E by lia. injection E as <-.
      destruct (Nat.max_spec b v) as [[_ ->]|[_ ->]]; [right; split; [done|lia]|by left].
    + intros i c Ec. destruct (decide (i = Z.to_nat q)) as [->|].
      * rewrite Eb in Ec. injection Ec as <-. destruct (Hgrow (Z.to_nat q) (Nat.max b v)) as (b' & E & Hle).
        { rewrite list_lookup_insert_eq by lia. done. } exists b'. split; [done|lia].
      * apply Hgrow. by rewrite list_lookup_insert_ne by lia.
    + intros i Hu Hi. inversion Hu as [|? ? Hu']; subst.
      * destruct (Hgrow (Z.to_nat i) (Nat.max b v)) as (b' & E & Hle).
        { rewrite list_lookup_insert_eq by lia. done. } exists b'. split; [done|lia].
      * by apply Hup.
Qed.

Lemma update_ok entries bit r v : tree_ok n entries bit -> 0 < r -> forall fuel, (S n <= fuel)%nat ->
  exists bit', update fuel bit r v = Ret bit' /\ tree_ok n ((r, v) :: entries) bit'.
Proof using size.
  intros (Hlen & Hsound & Hcomp) Hr fuel Hf.
  destruct (update_spec v fuel bit r Hlen Hr ltac:(lia)) as (bit' & E & Hl' & Hback & Hgrow & Hup).
  exists bit'. split; [done|]. split; [done|]. split.
  - intros q b Eq. destruct (Hback q b Eq) as [Eo|[-> Hq]].
    + destruct (Hsound _ _ Eo) as [->|(r' & Hin & Hle)]; [by left|]. right. exists r'. split; [by right|done].
    + right. exists r. split; [by left|done].
  - intros r' s q [[= -> ->]|Hin]%elem_of_cons Hu Hq; [by apply Hup|].
    destruct (Hcomp r' s q Hin Hu Hq) as (b & Eb & Hb). destruct (Hgrow _ _ Eb) as (b' & E' & Hle).
    exists b'. split; [done|lia].
Qed.

Lemma tree_start : tree_ok n [] (replicate (S n) 0%nat).
Proof using Type.
  split; [apply length_replicate|]. split.
  - intros q b Eq%lookup_replicate. left. by destruct Eq.
  - by intros r s q ?%not_elem_of_nil.
Qed.

End tree.

(** ** Suffix lengths *)

(** [s] is one more than the best length to the right among larger values. *)
Inductive lengths : list nat -> list nat -> Prop :=
  | lengths_nil : lengths [] []
  | lengths_cons x xs suffix m : lengths xs suffix ->
      (m = 0%nat \/ exists y, (y, m) ∈ zip xs suffix /\ (x < y)%nat) ->
      (forall y s, (y, s) ∈ zip xs suffix -> (x < y)%nat -> (s <= m)%nat) ->
      lengths (x :: xs) (S m :: suffix).

Lemma lengths_upper xs suffix : lengths xs suffix -> forall x s, (x :: s) `sublist_of` xs -> increasing (x :: s) ->
  exists m, (x, m) ∈ zip xs suffix /\ (S (length s) <= m)%nat.
Proof.
  induction 1 as [|z xs suffix m Hl IH _ Hbest]; intros x s Hs Hi; [by inversion Hs|].
  inversion Hs as [|? ? ? Hsub|? ? ? Hsub]; subst.
  - exists (S m). split; [by left|]. destruct s as [|y s]; [simpl; lia|].
    inversion Hi as [|? ? Hi' Hf]; subst. inversion Hf; subst.
    destruct (IH y s Hsub Hi') as (m' & Hin & Hm'). specialize (Hbest y m' Hin). simpl. lia.
  - destruct (IH x s Hsub Hi) as (m' & Hin & Hm'). exists m'. split; [by right|done].
Qed.

(** The greedy loop picks [remaining] positions with increasing values. *)
Definition above (last : option nat) (x : nat) : Prop := match last with None => True | Some v => (v < x)%nat end.

Lemma above_dec last x : (match last with None => true | Some v => v <? x end)%nat = true <-> above last x.
Proof. destruct last; simpl; [apply Nat.ltb_lt|done]. Qed.

Lemma stays_spec xs suffix : lengths xs suffix -> forall n r last out,
  (r = 0%nat \/ exists x m, (x, m) ∈ zip xs suffix /\ above last x /\ (r <= m)%nat) ->
  exists l, stays_loop xs suffix n r last out = out ++ (Nat.add n <$> l) /\ length l = r /\
    increasing l /\ Forall (fun i => i < length xs)%nat l /\ increasing (pick xs l) /\ Forall (above last) (pick xs l).
Proof.
  induction 1 as [|x xs suffix m Hl IH Hm _]; intros n r last out Hr; cbn [stays_loop].
  - exists []. simpl. rewrite app_nil_r. destruct Hr as [->|(? & ? & Hin & _)]; [by repeat constructor|].
    by apply not_elem_of_nil in Hin.
  - destruct (_ && _) eqn:E.
    + apply andb_true_iff in E as [[Hpos%Nat.ltb_lt Hab%above_dec]%andb_true_iff Hle%Nat.leb_le].
      destruct (IH (S n) (r - 1)%nat (Some x) (out ++ [n])) as (l & -> & Hlen & Hi & Hf & Hp & Ha).
      { destruct (decide (r - 1 = 0)%nat) as [|Hne]; [by left|right].
        destruct Hm as [->|(y & Hin & Hxy)]; [lia|]. exists y, m. split_and!; [done|done|lia]. }
      exists (0%nat :: (S <$> l)). split_and!.
      * rewrite <- app_assoc. f_equal. simpl. rewrite Nat.add_0_r. f_equal. rewrite <- list_fmap_compose.
        apply list_fmap_ext. intros ? i _. simpl. lia.
      * simpl. rewrite length_fmap. lia.
      * constructor; [by apply increasing_S|]. rewrite Forall_fmap. apply Forall_true. simpl. lia.
      * constructor; [simpl; lia|]. rewrite Forall_fmap. eapply Forall_impl; [exact Hf|]. simpl. lia.
      * change (increasing (x :: pick (x :: xs) (S <$> l))). rewrite pick_S. by constructor.
      * change (Forall (above last) (x :: pick (x :: xs) (S <$> l))). rewrite pick_S. constructor; [done|].
        eapply Forall_impl; [exact Ha|]. intros y. unfold above in *. destruct last; [|done]. simpl. lia.
    + destruct (IH (S n) r last out) as (l & -> & Hlen & Hi & Hf & Hp & Ha).
      { destruct (decide (r = 0)%nat) as [|Hne]; [by left|]. destruct Hr as [|(y & s & Hin & Hab & Hle)]; [by left|right].
        cbn [zip zip_with] in Hin. apply elem_of_cons in Hin as [[= -> ->]|Hin]; [exfalso|by exists y, s].
        apply not_true_iff_false in E. apply E. rewrite !andb_true_iff, above_dec, Nat.ltb_lt, Nat.leb_le. split_and!; [lia|done|done]. }
      exists (S <$> l). split_and!.
      * f_equal. rewrite <- list_fmap_compose. apply list_fmap_ext. intros ? i _. simpl. lia.
      * by rewrite length_fmap.
      * by apply increasing_S.
      * rewrite Forall_fmap. eapply Forall_impl; [exact Hf|]. simpl. lia.
      * by rewrite pick_S.
      * by rewrite pick_S.
Qed.

(** ** Ranks *)

Lemma dedup_after_sorted prev l : StronglySorted le (prev :: l) ->
  increasing (prev :: dedup_after Nat.eqb prev l) /\ forall x, x ∈ prev :: dedup_after Nat.eqb prev l <-> x ∈ prev :: l.
Proof.
  revert prev. induction l as [|y l IH]; intros prev Hs; cbn [dedup_after]; [split; [by repeat constructor|done]|].
  inversion Hs as [|? ? Hs' Hf]; subst. inversion Hf as [|? ? Hle Hf']; subst.
  destruct (Nat.eqb_spec y prev) as [->|Hne].
  - destruct (IH prev Hs') as [Hi Hm]. split; [done|]. intros x. rewrite Hm. set_solver.
  - destruct (IH y Hs') as [Hi Hm]. split; [|intros x; rewrite elem_of_cons, Hm; set_solver].
    constructor; [done|]. apply Forall_forall. intros x Hx. apply Hm in Hx.
    rewrite Forall_forall in Hf'. inversion Hs' as [|? ? _ Hy]; subst. rewrite Forall_forall in Hy.
    apply elem_of_cons in Hx as [->|Hx]; [lia|]. specialize (Hy x Hx). lia.
Qed.

Lemma sorted_values_spec xs : increasing (sorted_values xs) /\ forall x, x ∈ xs -> x ∈ sorted_values xs.
Proof.
  unfold sorted_values. pose proof (StronglySorted_merge_sort Nat.le xs) as Hs.
  pose proof (merge_sort_Permutation Nat.le xs) as Hp. destruct (merge_sort Nat.le xs) as [|y l].
  - split; [constructor|]. intros x Hx. rewrite <- Hp in Hx. by apply not_elem_of_nil in Hx.
  - cbn [dedup_by]. destruct (dedup_after_sorted y l Hs) as [Hi Hm]. split; [done|].
    intros x Hx. apply Hm. by rewrite Hp.
Qed.

Lemma sorted_values_length xs : (length (sorted_values xs) <= length xs)%nat.
Proof.
  assert (H : forall l prev, (length (dedup_after Nat.eqb prev l) <= length l)%nat).
  { induction l as [|y l IH]; intros prev; cbn [dedup_after]; [done|].
    destruct (Nat.eqb y prev); cbn [length]; [specialize (IH prev)|specialize (IH y)]; lia. }
  unfold sorted_values. rewrite <- (Permutation_length (merge_sort_Permutation Nat.le xs)).
  destruct (merge_sort Nat.le xs) as [|y l]; cbn [dedup_by length]; [done|]. specialize (H l y). lia.
Qed.

Section ranks.
Context (sorted : list nat) (sorted_inc : increasing sorted).

Definition rank (x : nat) : Z := Z.of_nat (length sorted) -
  match list_find (fun y => y = x) sorted with Some (i, _) => Z.of_nat i | None => 0 end.

Lemma rank_spec x : x ∈ sorted -> exists i, sorted !! i = Some x /\ rank_of sorted x = Ret (rank x) /\ rank x = Z.of_nat (length sorted) - Z.of_nat i.
Proof using Type.
  intros Hx. unfold rank_of, rank. destruct (list_find_elem_of (fun y => y = x) sorted x Hx eq_refl) as [[i y] E].
  rewrite E. apply list_find_Some in E as (Ei & -> & _). by exists i.
Qed.

Lemma rank_range x : x ∈ sorted -> 0 < rank x <= Z.of_nat (length sorted).
Proof using Type. intros Hx. destruct (rank_spec x Hx) as (i & Ei%lookup_lt_Some & _ & ->). lia. Qed.

Lemma rank_lt x y : x ∈ sorted -> y ∈ sorted -> (x < y)%nat <-> rank y <= rank x - 1.
Proof using sorted_inc.
  intros Hx Hy. destruct (rank_spec x Hx) as (i & Ei & _ & ->). destruct (rank_spec y Hy) as (j & Ej & _ & ->).
  assert (Hmono : forall i j x y, sorted !! i = Some x -> sorted !! j = Some y -> (i < j)%nat -> (x < y)%nat).
  { intros i' j' x' y' E1 E2 Hlt. by eapply (increasing_lookup sorted). }
  destruct (lt_eq_lt_dec i j) as [[H| ->]|H].
  - pose proof (Hmono _ _ _ _ Ei Ej H). lia.
  - rewrite Ei in Ej. injection Ej as ->. lia.
  - pose proof (Hmono _ _ _ _ Ej Ei H). lia.
Qed.

Lemma suffix_loop_spec xs : Z.of_nat (length sorted) < 2 ^ 63 -> (forall x, x ∈ xs -> x ∈ sorted) ->
  exists suffix bit, suffix_loop sorted xs = Ret (suffix, bit) /\ lengths xs suffix /\ length suffix = length xs /\
    tree_ok (length sorted) (zip (rank <$> xs) suffix) bit.
Proof using sorted_inc.
  intros Hsize. induction xs as [|x xs IH]; intros Hin; cbn [suffix_loop].
  - do 2 eexists. split_and!; [done|constructor|done|apply tree_start].
  - destruct IH as (suffix & bit & -> & Hl & Hlen & Hok); [set_solver|]. cbn [rust_bind].
    assert (Hx : x ∈ sorted) by set_solver. destruct (rank_spec x Hx) as (i & _ & -> & _). cbn [rust_bind].
    pose proof (rank_range x Hx) as Hr.
    assert (Hzip : forall r s, (r, s) ∈ zip (rank <$> xs) suffix <-> exists y, (y, s) ∈ zip xs suffix /\ r = rank y).
    { clear. intros r s. revert suffix. induction xs as [|z xs IH]; intros [|t suffix]; cbn [fmap list_fmap zip zip_with];
        try (split; [by intros ?%not_elem_of_nil|by intros (? & ?%not_elem_of_nil & _)]).
      rewrite elem_of_cons, IH. setoid_rewrite elem_of_cons. naive_solver. }
    assert (Hmem : forall y s, (y, s) ∈ zip xs suffix -> y ∈ sorted).
    { intros y s H%elem_of_zip_l. apply Hin. by right. }
    destruct (query_best (length sorted) _ bit (rank x - 1) Hok) with (fuel := Z.to_nat (rank x)) as (m & -> & Hm1 & Hm2).
    { intros r s (y & Hy & ->)%Hzip. by apply rank_range, (Hmem y s). } { lia. } { lia. }
    cbn [rust_bind]. destruct (update_ok (length sorted) Hsize _ bit (rank x) (S m) Hok ltac:(lia) (length bit)) as (bit' & -> & Hok').
    { by rewrite (proj1 Hok). }
    cbn [rust_bind]. do 2 eexists. split_and!; [done| |simpl; lia|done].
    constructor; [done| |].
    + destruct Hm1 as [->|(r & Hr1 & Hr2)]; [by left|right]. apply Hzip in Hr1 as (y & Hy & ->).
      exists y. split; [done|]. apply rank_lt; [done|by eapply Hmem|done].
    + intros y s Hy Hxy. apply (Hm2 (rank y) s); [apply Hzip; by exists y|]. apply rank_lt; [done|by eapply Hmem|done].
Qed.

End ranks.

Lemma max_lengths suffix : foldr Nat.max 0%nat suffix = 0%nat \/ foldr Nat.max 0%nat suffix ∈ suffix.
Proof.
  induction suffix as [|s l IH]; cbn [foldr]; [by left|].
  destruct (Nat.max_spec s (foldr Nat.max 0%nat l)) as [[_ ->]|[_ ->]]; [|right; by left].
  destruct IH; [by left|right; by right].
Qed.

Lemma max_ge suffix s : s ∈ suffix -> (s <= foldr Nat.max 0 suffix)%nat.
Proof. induction 1; cbn [foldr]; lia. Qed.

Lemma classify_lis_spec xs : Z.of_nat (length xs) < 2 ^ 63 ->
  exists l, classify_lis xs = Ret l /\ increasing l /\ Forall (fun i => i < length xs)%nat l /\ increasing (pick xs l) /\
    forall s, s `sublist_of` xs -> increasing s -> (length s <= length l)%nat.
Proof.
  intros Hsize. unfold classify_lis. destruct (sorted_values_spec xs) as [Hinc Hin].
  pose proof (sorted_values_length xs).
  destruct (suffix_loop_spec _ Hinc xs ltac:(lia) Hin) as (suffix & bit & -> & Hl & Hlen & _). cbn [rust_bind].
  destruct (stays_spec xs suffix Hl 0%nat (foldr Nat.max 0%nat suffix) None []) as (l & -> & Hn & Hi & Hf & Hp & _).
  { destruct (max_lengths suffix) as [->|Hmax]; [by left|right].
    apply list_elem_of_lookup in Hmax as [i Ei]. destruct (lookup_lt_is_Some_2 xs i) as [x Ex]; [apply lookup_lt_Some in Ei; lia|].
    exists x, (foldr Nat.max 0%nat suffix). split_and!; [|done|done].
    apply list_elem_of_lookup. exists i. rewrite lookup_zip_with, Ex, Ei. done. }
  exists l. simpl app. replace (Nat.add 0 <$> l) with l by (rewrite list_fmap_id; done).
  split_and!; [done|done|done|done|]. intros s Hs Hsi. destruct s as [|x s]; [simpl; lia|].
  destruct (lengths_upper xs suffix Hl x s Hs Hsi) as (m & Hm%elem_of_zip_r & Hle).
  pose proof (max_ge suffix m Hm). simpl. lia.
Qed.

Lemma pick_seconds (pairs : list (nat * nat)) l : Forall (fun i => i < length pairs)%nat l ->
  pick pairs.*2 l = (pick pairs l).*2.
Proof.
  induction 1 as [|i l Hi _ IH]; [done|]. unfold pick in *. simpl. rewrite list_lookup_fmap.
  destruct (lookup_lt_is_Some_2 pairs i Hi) as [p ->]. simpl. f_equal. exact IH.
Qed.

(** [C25] The two routines that select siblings in order never panic and are
    longest: [lis] of [align.rs] returns a subsequence of the anchors and [lis]
    of [classify.rs] positions in order, both with increasing values and both of
    the length of the longest increasing subsequence.  The patience piles, the
    Fenwick tree with its bit tricks and the greedy reconstruction never show. *)
Theorem lis_routines_longest pairs : Z.of_nat (length pairs) < 2 ^ 63 ->
  exists out l, align_lis pairs = Ret out /\ classify_lis pairs.*2 = Ret l /\
    out `sublist_of` pairs /\ increasing out.*2 /\
    increasing l /\ Forall (fun i => i < length pairs)%nat l /\ increasing (pick pairs.*2 l) /\
    length out = length l /\
    forall s, s `sublist_of` pairs.*2 -> increasing s -> (length s <= length l)%nat.
Proof.
  intros Hsize. destruct (align_lis_spec pairs) as (out & Eo & Hsub & Hinc & Hmax).
  destruct (classify_lis_spec pairs.*2) as (l & El & Hl & Hf & Hp & Hbest); [by rewrite length_fmap|].
  rewrite length_fmap in Hf. exists out, l. split_and!; try done. apply Nat.le_antisymm.
  - rewrite <- (length_fmap snd out). apply Hbest; [by apply fmap_sublist|done].
  - destruct (pick_sublist pairs l Hl Hf) as [Hs <-]. apply Hmax; [done|]. by rewrite <- pick_seconds.
Qed.

Lemma lis_routines_longest_witness :
  exists out l, align_lis [(0, 5); (1, 1); (2, 6); (3, 2); (4, 7); (5, 3)]%nat = Ret out /\
    classify_lis [5; 1; 6; 2; 7; 3]%nat = Ret l /\ length out = 3%nat /\ l = [0; 2; 4]%nat /\ increasing out.*2.
Proof.
  destruct (lis_routines_longest [(0, 5); (1, 1); (2, 6); (3, 2); (4, 7); (5, 3)]%nat ltac:(done))
    as (out & l & E1 & E2 & _ & H & _).
  vm_compute in E1, E2. injection E1 as <-. injection E2 as <-. do 2 eexists.
  split; [vm_compute; reflexivity|]. split; [vm_compute; reflexivity|]. split_and!; [reflexivity|reflexivity|exact H].
Defined.
