(* ===== verification/DiffTree.v ===== *)
(** * Document trees and their correspondence

    Crate [marekvs-diff]: the arena tree of [model.rs], the one-to-one
    [Matching] of [matching.rs], the identity and exact-subtree layer of
    [exact.rs] and the sibling alignment of [align.rs].  A [NodeId] is the
    position of a node in the arena (trees hold at most [max_nodes] nodes, far
    below 2^32), a hash is the number [hash.rs] stored in the node. *)

From S2P Require Import Prelude BTree DiffBase Myers MyersRun TextDiff Lis.

(** ** Trees ([model.rs]) *)

Inductive Kind := Doc | Sec | Par | KSen | KList | Li | Tbl | Row | Cell | Code.

#[export] Instance Kind_eq_dec : EqDecision Kind.
Proof. solve_decision. Defined.

(** [kind as u8]. *)
Definition kind_u8 (k : Kind) : Z :=
  match k with
  | Doc => 0 | Sec => 1 | Par => 2 | KSen => 3 | KList => 4 | Li => 5 | Tbl => 6 | Row => 7 | Cell => 8 | Code => 9
  end.

Definition is_leaf (k : Kind) : bool := match k with KSen | Code => true | _ => false end.

Section tree.
(** [serde_json::Value]. *)
Context {Value : Type}.

(** [Attrs]: a map from attribute names to scalar values. *)
Definition Attrs : Type := gmap (list Z) Value.
Record Text := mkText { tx : text; tf : list (@Run Attrs) }.

Record Node := mkNode {
  kind : Kind; lid : Z; eid : option (list Z); attrs : Attrs; ntext : option Text;
  children : list nat; parent : option nat; ordinal : Z; weight : Z; h_content : Z; h_exact : Z }.

Record Tree := mkTree { nodes : list Node; root : nat; sid : Z }.

(** [Tree::node]: indexing panics past the arena. *)
Definition node (t : Tree) (x : nat) : rust Node := at_idx (nodes t) (Z.of_nat x).

(** ** Matching ([matching.rs]) *)

Inductive Layer := I0 | I1Exact | I1Content | I2 | I3.
Definition layer_u8 (l : Layer) : Z := match l with I0 => 0 | I1Exact => 1 | I1Content => 2 | I2 => 3 | I3 => 4 end.

Record Matching := mkMatching {
  a2b_ : list (option nat); b2a_ : list (option nat); layer_ : list (option Layer); format_changed : list nat }.

Definition Matching_new (a b : Tree) : Matching :=
  mkMatching (replicate (length (nodes a)) None) (replicate (length (nodes b)) None)
    (replicate (length (nodes a)) None) [].

Definition a2b (m : Matching) (x : nat) : option nat := mjoin (a2b_ m !! x).
Definition b2a (m : Matching) (y : nat) : option nat := mjoin (b2a_ m !! y).
Definition layer (m : Matching) (x : nat) : option Layer := mjoin (layer_ m !! x).

(** [Matching::set]. *)
Definition set_pair (m : Matching) (x y : nat) (l : Layer) : Matching * bool :=
  if ((length (a2b_ m) <=? x) || (length (b2a_ m) <=? y))%nat then (m, false) else
  if bool_decide (is_Some (a2b m x)) || bool_decide (is_Some (b2a m y)) then
    let same := bool_decide (a2b m x = Some y) && bool_decide (b2a m y = Some x) in
    let better := match layer m x with Some old => layer_u8 l <? layer_u8 old | None => false end in
    (if same && better
     then mkMatching (a2b_ m) (b2a_ m) (<[x := Some l]> (layer_ m)) (format_changed m) else m, same)
  else
    (mkMatching (<[x := Some y]> (a2b_ m)) (<[y := Some x]> (b2a_ m)) (<[x := Some l]> (layer_ m)) (format_changed m), true).

(** [Matching::pairs], [unmatched_a], [unmatched_b], [mark_format]. *)
Definition pairs (m : Matching) : list (nat * nat) :=
  omap (fun x => (fun y => (x, y)) <$> a2b m x) (seq 0 (length (a2b_ m))).
Definition matched_count (m : Matching) : nat := length (pairs m).
Definition unmatched_a (m : Matching) : list nat :=
  filter (fun x => a2b m x = None) (seq 0 (length (a2b_ m))).
Definition unmatched_b (m : Matching) : list nat :=
  filter (fun y => b2a m y = None) (seq 0 (length (b2a_ m))).
Definition mark_format (m : Matching) (x : nat) : Matching :=
  mkMatching (a2b_ m) (b2a_ m) (layer_ m) (format_changed m ++ [x]).

(** ** Exact correspondence ([exact.rs]) *)

Definition hash_of (exact : bool) (n : Node) : Z := if exact then h_exact n else h_content n.
Definition node_key (exact : bool) (n : Node) : Z * Z := (kind_u8 (kind n), hash_of exact n).

Definition index (t : Tree) (exact : bool) : list ((Z * Z) * list nat) :=
  fold_left (fun out '(i, n) => bt_update pair_cmp (node_key exact n) (fun o => default [] o ++ [i]) out)
    (zip (seq 0 (length (nodes t))) (nodes t)) [].

(** An id that occurs twice maps to [None]. *)
Definition eids (t : Tree) : list (list Z * option nat) :=
  fold_left (fun out '(i, n) =>
      match eid n with
      | Some e => bt_update bytes_cmp e (fun o => match o with Some _ => None | None => Some i end) out
      | None => out
      end)
    (zip (seq 0 (length (nodes t))) (nodes t)) [].

(** The loop of [bulk] that collects the pairs of two subtrees; [None] is a
    mismatch.  The top of the stack is the head of [pending]. *)
Fixpoint bulk_pairs (fuel : nat) (a b : Tree) (m : Matching) (cancel : CancelToken)
    (pending acc : list (nat * nat)) : diffm (option (list (nat * nat))) :=
  match pending with
  | [] => d_ret (Some acc)
  | (x, y) :: pending' =>
      match fuel with
      | O => d_lift Panic
      | S f =>
          let? _ := d_check cancel in
          let? n := d_lift (node a x) in
          let? k := d_lift (node b y) in
          if negb (bool_decide (kind n = kind k)) || negb (length (children n) =? length (children k))%nat ||
             (match a2b m x with Some z => negb (z =? y)%nat | None => false end) ||
             (match b2a m y with Some z => negb (z =? x)%nat | None => false end)
          then d_ret None
          else bulk_pairs f a b m cancel (rev (zip (children n) (children k)) ++ pending') (acc ++ [(x, y)])
      end
  end.

(** The loop of [bulk] that writes the pairs. *)
Fixpoint bulk_set (a b : Tree) (l : Layer) (ps : list (nat * nat)) (m : Matching) : rust Matching :=
  match ps with
  | [] => Ret m
  | (x, y) :: ps' =>
      let m := (set_pair m x y l).1 in
      let! n := node a x in
      let! k := node b y in
      bulk_set a b l ps' (if is_leaf (kind n) && negb (h_exact n =? h_exact k) then mark_format m x else m)
  end.

(** Nodes of the subtree at [x]; the bound on the loops over subtrees. *)
Fixpoint subtree (fuel : nat) (t : Tree) (x : nat) : nat :=
  match fuel with
  | O => 1%nat
  | S f =>
      match nodes t !! x with
      | Some n => S (foldr (fun c s => subtree f t c + s)%nat 0%nat (children n))
      | None => 1%nat
      end
  end.
Definition tree_size (t : Tree) (x : nat) : nat := subtree (length (nodes t)) t x.

Definition bulk (a b : Tree) (x y : nat) (m : Matching) (l : Layer) (cancel : CancelToken) : diffm (Matching * bool) :=
  let? ps := bulk_pairs (tree_size a x) a b m cancel [(x, y)] [] in
  match ps with
  | None => d_ret (m, false)
  | Some ps => let? m := d_lift (bulk_set a b l ps m) in d_ret (m, true)
  end.

(** The loop over the ids of [a]. *)
Fixpoint match_eids (a b : Tree) (eb : list (list Z * option nat)) (cancel : CancelToken)
    (ea : list (list Z * option nat)) (m : Matching) : diffm Matching :=
  match ea with
  | [] => d_ret m
  | (e, ox) :: ea' =>
      let? _ := d_check cancel in
      match ox, bt_get bytes_cmp e eb with
      | Some x, Some (Some y) =>
          let? n := d_lift (node a x) in
          let? k := d_lift (node b y) in
          match_eids a b eb cancel ea' (if decide (kind n = kind k) then (set_pair m x y I0).1 else m)
      | _, _ => match_eids a b eb cancel ea' m
      end
  end.

(** The candidate of [x] in one of the two hash layers. *)
Definition exact_candidate (b : Tree) (ia ib : list ((Z * Z) * list nat)) (m : Matching) (x : nat) (n : Node)
    (exact : bool) : rust (option nat) :=
  match a2b m x with
  | Some y =>
      let! k := node b y in
      Ret (if hash_of exact k =? hash_of exact n then Some y else None)
  | None =>
      match bt_get pair_cmp (node_key exact n) ia, bt_get pair_cmp (node_key exact n) ib with
      | Some [_], Some [y] => Ret (Some y)
      | _, _ => Ret None
      end
  end.

(** The two layers tried in turn; the flag is [done]. *)
Fixpoint try_layers (a b : Tree) (x : nat) (n : Node) (cancel : CancelToken)
    (ls : list (bool * (list ((Z * Z) * list nat) * list ((Z * Z) * list nat)) * Layer)) (m : Matching) : diffm (Matching * bool) :=
  match ls with
  | [] => d_ret (m, false)
  | (exact, (ia, ib), l) :: ls' =>
      let? c := d_lift (exact_candidate b ia ib m x n exact) in
      match c with
      | Some y =>
          let? (m, ok) := bulk a b x y m l cancel in
          if ok : bool then d_ret (m, true) else try_layers a b x n cancel ls' m
      | None => try_layers a b x n cancel ls' m
      end
  end.

(** The walk over [a]; the number is [compared_nodes]. *)
Fixpoint exact_walk (fuel : nat) (a b : Tree)
    (ls : list (bool * (list ((Z * Z) * list nat) * list ((Z * Z) * list nat)) * Layer))
    (cancel : CancelToken) (stack : list nat) (m : Matching) (compared : Z) : diffm (Matching * Z) :=
  match stack with
  | [] => d_ret (m, compared)
  | x :: stack' =>
      match fuel with
      | O => d_lift Panic
      | S f =>
          let? _ := d_check cancel in
          let? n := d_lift (node a x) in
          let? (m, fin) := try_layers a b x n cancel ls m in
          exact_walk f a b ls cancel (if fin : bool then stack' else children n ++ stack') m (compared + 1)
      end
  end.

Definition exact_run (a b : Tree) (m : Matching) (cancel : CancelToken) : diffm (Matching * Z) :=
  let? _ := d_check cancel in
  let ea := eids a in
  let eb := eids b in
  let? ra := d_lift (node a (root a)) in
  let? rb := d_lift (node b (root b)) in
  let m :=
    if decide (kind ra = kind rb) then
      let l := match eid ra with
               | Some e => if bool_decide (bt_get bytes_cmp e ea = Some (Some (root a))) &&
                              bool_decide (bt_get bytes_cmp e eb = Some (Some (root b))) then I0 else I3
               | None => I3
               end in
      (set_pair m (root a) (root b) l).1
    else m in
  let? m := match_eids a b eb cancel ea m in
  let ls := [(true, (index a true, index b true), I1Exact); (false, (index a false, index b false), I1Content)] in
  exact_walk (tree_size a (root a)) a b ls cancel [root a] m 0.

End tree.
Arguments Attrs : clear implicits.
Arguments Text : clear implicits.
Arguments Node : clear implicits.
Arguments Tree : clear implicits.
