(* ===== verification/TreeLaws.v ===== *)
(** * Correspondences stay one-to-one

    The invariant of a [Matching] between two trees: the two directions are
    inverse, matched nodes have the same kind and an evidence layer.  [set]
    keeps it and earlier pairs; the exact layer runs to its end without a panic
    and keeps it. *)

From S2P Require Import Prelude BTree DiffBase Myers MyersRun TextDiff Lis DiffTree.

Section laws.
Context {Value : Type}.
Abbreviation tree := (Tree Value).

Lemma fmap_rev {A B} (f : A -> B) l : f <$> rev l = rev (f <$> l).
Proof. induction l as [|x l IH]; [done|]. simpl. by rewrite fmap_app, IH. Qed.

(** ** Well-formed trees

    As [Tree::from_json] builds them: a parent is stored before its children,
    a child is listed once, and positions are [u32]s. *)
Record tree_wf (t : tree) : Prop := {
  wf_root : (root t < length (nodes t))%nat;
  wf_below : forall x n, nodes t !! x = Some n -> Forall (fun c => x < c < length (nodes t))%nat (children n);
  wf_nodup : forall x n, nodes t !! x = Some n -> NoDup (children n);
  wf_u32 : Z.of_nat (length (nodes t)) <= 2 ^ 32 }.

Lemma wf_children (t : tree) x n : tree_wf t -> nodes t !! x = Some n ->
  Forall (fun c => c < length (nodes t))%nat (children n) /\ (length (children n) <= length (nodes t))%nat.
Proof.
  intros [_ Hb Hn _] E. pose proof (Hb x n E) as Hf. split; [eapply Forall_impl; [exact Hf|]; simpl; lia|].
  replace (length (nodes t)) with (length (seq 0 (length (nodes t)))) by apply length_seq.
  apply submseteq_length, NoDup_submseteq; [by apply (Hn x)|]. intros c Hc. rewrite Forall_forall in Hf.
  apply elem_of_seq. specialize (Hf c Hc). lia.
Qed.

Lemma node_eq (t : tree) x n : nodes t !! x = Some n -> node t x = Ret n.
Proof. intros E. unfold node. apply at_idx_eq; [lia|]. by rewrite Nat2Z.id. Qed.

Lemma node_lookup (t : tree) x : (x < length (nodes t))%nat -> exists n, nodes t !! x = Some n.
Proof. apply lookup_lt_is_Some_2. Qed.

(** *** Subtree sizes *)

Lemma subtree_stable (t : tree) : tree_wf t -> forall f f' x, (length (nodes t) <= f + x)%nat -> (length (nodes t) <= f' + x)%nat ->
  subtree f t x = subtree f' t x.
Proof.
  intros [_ Hwf _ _]. induction f as [|f IH]; intros [|f'] x H1 H2; cbn [subtree]; [done| | |].
  - by rewrite lookup_ge_None_2 by lia.
  - by rewrite lookup_ge_None_2 by lia.
  - destruct (nodes t !! x) as [n|] eqn:E; [|done]. f_equal. specialize (Hwf x n E).
    induction Hwf as [|c l Hc _ IHl]; [done|]. simpl. rewrite (IH f' c), IHl by lia. done.
Qed.

(** The nodes below a list of roots. *)
Definition load (t : tree) (l : list nat) : nat := foldr (fun x s => tree_size t x + s)%nat 0%nat l.

Lemma load_app (t : tree) l l' : load t (l ++ l') = (load t l + load t l')%nat.
Proof. induction l as [|x l IH]; simpl; [done|]. rewrite IH. lia. Qed.

Lemma load_rev (t : tree) l : load t (rev l) = load t l.
Proof. induction l as [|x l IH]; simpl; [done|]. rewrite load_app, IH. simpl. lia. Qed.

Lemma tree_size_children (t : tree) x n : tree_wf t -> nodes t !! x = Some n -> tree_size t x = S (load t (children n)).
Proof.
  intros Hwf E. unfold tree_size at 1, load. pose proof (lookup_lt_Some _ _ _ E) as Hx.
  destruct (length (nodes t)) as [|f] eqn:El; [lia|]. cbn [subtree]. rewrite E. f_equal.
  pose proof (wf_below _ Hwf x n E) as Hc. induction Hc as [|c l Hc _ IH]; [done|]. simpl. f_equal; [|exact IH].
  unfold tree_size. apply subtree_stable; [done|lia|lia].
Qed.

Lemma tree_size_pos (t : tree) x : (0 < tree_size t x)%nat.
Proof. unfold tree_size. destruct (length _); simpl; [lia|]. destruct (_ !! _); lia. Qed.

(** ** The invariant *)

Section pair.
Context (a b : tree).

(** The nodes [x] of [a] and [y] of [b] exist and have the same kind. *)
Definition same_kind (x y : nat) : Prop :=
  exists n k, nodes a !! x = Some n /\ nodes b !! y = Some k /\ kind n = kind k.

Record matching_ok (m : Matching) : Prop := {
  m_len_a : length (a2b_ m) = length (nodes a);
  m_len_b : length (b2a_ m) = length (nodes b);
  m_len_l : length (layer_ m) = length (nodes a);
  m_inverse : forall x y, a2b m x = Some y <-> b2a m y = Some x;
  m_kind : forall x y, a2b m x = Some y -> same_kind x y;
  m_layer : forall x, is_Some (layer m x) <-> is_Some (a2b m x) }.

Definition keeps (m m' : Matching) : Prop := forall x y, a2b m x = Some y -> a2b m' x = Some y.

#[global] Instance keeps_preorder : PreOrder keeps.
Proof. split; [by intros m x y|]. intros m1 m2 m3 H1 H2 x y H. by apply H2, H1. Qed.

(** [m'] is a matching that extends [m]. *)
Definition grows (m m' : Matching) : Prop := matching_ok m' /\ keeps m m'.

Lemma grows_refl m : matching_ok m -> grows m m.
Proof. by split. Qed.

Lemma grows_trans m m' m'' : grows m m' -> grows m' m'' -> grows m m''.
Proof. intros [_ K1] [O2 K2]. split; [done|by etrans]. Qed.

Lemma lookup_join {A} (l : list (option A)) x v y : (x < length l)%nat ->
  mjoin (<[x := v]> l !! y) = if decide (y = x) then v else mjoin (l !! y).
Proof.
  intros Hx. destruct (decide (y = x)) as [->|].
  - by rewrite list_lookup_insert_eq by done.
  - by rewrite list_lookup_insert_ne by done.
Qed.

(** [Matching::set] on nodes of one kind: the pair is recorded unless one of the
    nodes is taken, and the flag says whether the pair is in the result. *)
Lemma set_pair_grows m x y l : matching_ok m -> same_kind x y ->
  let r := set_pair m x y l in
  grows m r.1 /\ (r.2 = true <-> a2b r.1 x = Some y) /\ (forall z, z <> x -> a2b r.1 z = a2b m z).
Proof.
  intros Hm (n & k & En & Ek & Hk). pose proof (lookup_lt_Some _ _ _ En) as Hx. pose proof (lookup_lt_Some _ _ _ Ek) as Hy.
  destruct Hm as [La Lb Ll Hinv Hkind Hlay]. unfold set_pair.
  replace (_ || _)%nat with false by (symmetry; apply orb_false_iff; rewrite !Nat.leb_gt; lia).
  destruct (bool_decide (is_Some (a2b m x)) || bool_decide (is_Some (b2a m y))) eqn:Etaken; simpl.
  - assert (Hsame : bool_decide (a2b m x = Some y) && bool_decide (b2a m y = Some x) = true <-> a2b m x = Some y).
    { rewrite andb_true_iff, !bool_decide_eq_true, <- Hinv. tauto. }
    destruct (_ && match _ with Some _ => _ | None => _ end) eqn:Eb.
    + split_and!; [|exact Hsame|done]. split; [|by intros z w]. split; try done.
      * simpl. by rewrite length_insert.
      * intros z. unfold layer. simpl. rewrite lookup_join by lia. destruct (decide (z = x)) as [->|]; [|by apply Hlay].
        apply andb_true_iff in Eb as [Hs _]. apply Hsame in Hs. unfold a2b in *. simpl. rewrite Hs. by split; eexists.
    + split_and!; [by apply grows_refl|exact Hsame|done].
  - apply orb_false_iff in Etaken as [Ea%bool_decide_eq_false Eb%bool_decide_eq_false].
    rewrite <- eq_None_not_Some in Ea, Eb.
    assert (Ha : forall z, a2b (mkMatching (<[x := Some y]> (a2b_ m)) (<[y := Some x]> (b2a_ m)) (<[x := Some l]> (layer_ m)) (format_changed m)) z
      = if decide (z = x) then Some y else a2b m z) by (intros z; apply lookup_join; lia).
    assert (Hb : forall z, b2a (mkMatching (<[x := Some y]> (a2b_ m)) (<[y := Some x]> (b2a_ m)) (<[x := Some l]> (layer_ m)) (format_changed m)) z
      = if decide (z = y) then Some x else b2a m z) by (intros z; apply lookup_join; lia).
    split_and!.
    + split.
      * split; simpl; rewrite ?length_insert; try done.
        -- intros z w. rewrite Ha, Hb. destruct (decide (z = x)) as [->|Hz], (decide (w = y)) as [->|Hw]; rewrite <- ?Hinv.
           ++ done.
           ++ rewrite Ea. split; [by intros [= <-]|done].
           ++ rewrite Hinv, Eb. split; [done|by intros [= <-]].
           ++ done.
        -- intros z w. rewrite Ha. destruct (decide (z = x)) as [->|]; [|apply Hkind]. intros [= <-]. by exists n, k.
        -- intros z. rewrite Ha. unfold layer. simpl. rewrite lookup_join by lia.
           destruct (decide (z = x)); [by split; eexists|apply Hlay].
      * intros z w Hz. rewrite Ha. destruct (decide (z = x)) as [->|]; [congruence|done].
    + rewrite Ha, decide_True by done. done.
    + intros z Hz. by rewrite Ha, decide_False by done.
Qed.

Lemma set_pair_grows1 m x y l : matching_ok m -> same_kind x y -> grows m (set_pair m x y l).1.
Proof. intros Hm Hk. by apply set_pair_grows. Qed.

Lemma mark_format_ok m x : matching_ok m -> grows m (mark_format m x).
Proof. intros [? ? ? ? ? ?]. split; [by split|by intros z w]. Qed.

Lemma Matching_new_ok : matching_ok (Matching_new a b).
Proof.
  assert (H : forall A n x, mjoin (replicate n (None : option A) !! x) = None).
  { intros A n x. destruct (replicate n None !! x) as [o|] eqn:E; [|done]. apply lookup_replicate in E as [-> _]. done. }
  split; unfold a2b, b2a, layer; simpl; rewrite ?length_replicate; try done; intros; rewrite !H in *; done.
Qed.

(** ** The exact layer *)

Context (wf_a : tree_wf a) (wf_b : tree_wf b) (cancel : CancelToken).

Definition in_a (x : nat) : Prop := (x < length (nodes a))%nat.
Definition in_b (y : nat) : Prop := (y < length (nodes b))%nat.

(** The pairs of two subtrees have the same kinds, or a mismatch is reported. *)
Lemma bulk_pairs_safe m : matching_ok m -> forall fuel pending acc,
  Forall (fun p => in_a p.1 /\ in_b p.2) pending -> Forall (fun p => same_kind p.1 p.2) acc ->
  (load a pending.*1 <= fuel)%nat ->
  safe cancel (fun r => match r with Some ps => Forall (fun p => same_kind p.1 p.2) ps | None => True end)
    (bulk_pairs fuel a b m cancel pending acc).
Proof using wf_a wf_b.
  intros Hm. induction fuel as [|f IH]; intros [|[x y] pending] acc Hp Hacc Hload; cbn [bulk_pairs]; try by apply safe_ret.
  - pose proof (tree_size_pos a x). simpl in Hload. lia.
  - inversion Hp as [|? ? [Hx Hy] Hp']; subst. destruct (node_lookup a x Hx) as [n En]. destruct (node_lookup b y Hy) as [k Ek].
    eapply safe_bind; [by apply (safe_check _ (fun _ => True))|]. intros _ _.
    eapply safe_bind; [by apply (safe_lift _ (eq n)) with (a := n); [apply node_eq|]|]. intros _ <-.
    eapply safe_bind; [by apply (safe_lift _ (eq k)) with (a := k); [apply node_eq|]|]. intros _ <-.
    destruct (_ || _) eqn:E; [by apply safe_ret|]. apply orb_false_iff in E as [E _]. apply orb_false_iff in E as [E _].
    apply orb_false_iff in E as [Hk%negb_false_iff%bool_decide_eq_true Hlen%negb_false_iff%Nat.eqb_eq].
    apply IH.
    + apply Forall_app. split; [|done]. apply Forall_rev. apply Forall_forall. intros [c d] Hin.
      pose proof (wf_below _ wf_a x n En) as Hca. pose proof (wf_below _ wf_b y k Ek) as Hcb. rewrite Forall_forall in Hca, Hcb.
      split; [eapply Hca, elem_of_zip_l, Hin|eapply Hcb, elem_of_zip_r, Hin].
    + apply Forall_app. split; [done|]. constructor; [|done]. by exists n, k.
    + rewrite fmap_app, fmap_rev, load_app, load_rev, fst_zip by lia.
      change (load a ((x, y) :: pending).*1) with (tree_size a x + load a pending.*1)%nat in Hload.
      rewrite (tree_size_children a x n wf_a En) in Hload. lia.
Qed.

Lemma bulk_set_ok l ps : Forall (fun p => same_kind p.1 p.2) ps -> forall m, matching_ok m ->
  exists m', bulk_set a b l ps m = Ret m' /\ grows m m'.
Proof using Type.
  induction 1 as [|[x y] ps Hk _ IH]; intros m Hm; cbn [bulk_set]; [exists m; split; [done|by apply grows_refl]|].
  pose proof (set_pair_grows1 m x y l Hm Hk) as Hg. destruct Hk as (n & k & En & Ek & _). simpl in En, Ek.
  rewrite (node_eq _ _ _ En), (node_eq _ _ _ Ek). cbn [rust_bind].
  set (m1 := if _ : bool then mark_format _ x else _).
  assert (Hg1 : grows m m1).
  { unfold m1. destruct (_ && _); [|done]. eapply grows_trans; [exact Hg|]. apply mark_format_ok, Hg. }
  destruct (IH m1 (proj1 Hg1)) as (m' & E & Hg'). exists m'. split; [done|by eapply grows_trans].
Qed.

Lemma bulk_safe x y m l : matching_ok m -> in_a x -> in_b y ->
  safe cancel (fun r => grows m r.1) (bulk a b x y m l cancel).
Proof using wf_a wf_b.
  intros Hm Hx Hy. unfold bulk. eapply safe_bind.
  - apply bulk_pairs_safe; [done|by repeat constructor|constructor|]. simpl. lia.
  - intros [ps|] Hps; [|apply safe_ret; by apply grows_refl].
    destruct (bulk_set_ok l ps Hps m Hm) as (m' & E & Hg).
    eapply safe_bind; [by apply (safe_lift _ (eq m')) with (a := m')|]. intros _ <-. by apply safe_ret.
Qed.

(** The indexes hold nodes of the tree. *)
Lemma index_range (t : tree) exact : Forall (fun e => Forall (fun x => x < length (nodes t))%nat e.2) (index t exact).
Proof using Type.
  unfold index. assert (H : forall l out, Forall (fun p => p.1 < length (nodes t))%nat l ->
    Forall (fun e => Forall (fun x => x < length (nodes t))%nat e.2) out ->
    Forall (fun e => Forall (fun x => x < length (nodes t))%nat e.2)
      (fold_left (fun out '((i, n) : nat * Node Value) => bt_update pair_cmp (node_key exact n) (fun o => default [] o ++ [i]) out) l out)).
  { induction l as [|[i n] l IH]; intros out Hl Ho; simpl; [done|]. inversion Hl; subst. apply IH; [done|].
    apply (bt_update_all pair_cmp (Forall (fun x => x < length (nodes t))%nat)); [done|by repeat constructor|].
    intros v Hv. simpl. apply Forall_app. split; [done|by repeat constructor]. }
  apply H; [|constructor]. apply Forall_forall. intros [i n] Hin%elem_of_zip_l%elem_of_seq. simpl. lia.
Qed.

Definition eid_in (t : tree) (o : option nat) : Prop := match o with Some x => (x < length (nodes t))%nat | None => True end.

Lemma eids_range (t : tree) : Forall (fun e => eid_in t e.2) (eids t).
Proof using Type.
  unfold eids. assert (H : forall l out, Forall (fun p => p.1 < length (nodes t))%nat l ->
    Forall (fun e => eid_in t e.2) out ->
    Forall (fun e => eid_in t e.2)
      (fold_left (fun out '((i, n) : nat * Node Value) => match eid n with
        | Some e => bt_update bytes_cmp e (fun o => match o with Some _ => None | None => Some i end) out
        | None => out end) l out)).
  { induction l as [|[i n] l IH]; intros out Hl Ho; simpl; [done|]. inversion Hl; subst. apply IH; [done|].
    destruct (eid n); [|done]. by apply (bt_update_all bytes_cmp (eid_in t)). }
  apply H; [|constructor]. apply Forall_forall. intros [i n] Hin%elem_of_zip_l%elem_of_seq. simpl. lia.
Qed.

Lemma match_eids_safe ea : Forall (fun e => eid_in a e.2) ea -> forall m, matching_ok m ->
  safe cancel (grows m) (match_eids a b (eids b) cancel ea m).
Proof using Type.
  induction 1 as [|[e ox] ea Hx _ IH]; intros m Hm; cbn [match_eids]; [apply safe_ret; by apply grows_refl|].
  eapply safe_bind; [by apply (safe_check _ (fun _ => True))|]. intros _ _.
  destruct ox as [x|]; [|by apply IH]. destruct (bt_get bytes_cmp e (eids b)) as [[y|]|] eqn:Ey; [|by apply IH|by apply IH].
  pose proof (bt_get_all bytes_cmp (eid_in b) _ _ _ (eids_range b) Ey) as Hy.
  destruct (node_lookup a x Hx) as [n En]. destruct (node_lookup b y Hy) as [k Ek].
  eapply safe_bind; [by apply (safe_lift _ (eq n)) with (a := n); [apply node_eq|]|]. intros _ <-.
  eapply safe_bind; [by apply (safe_lift _ (eq k)) with (a := k); [apply node_eq|]|]. intros _ <-.
  destruct (decide (kind n = kind k)) as [Hk|]; [|by apply IH].
  assert (Hg : grows m (set_pair m x y I0).1) by (apply set_pair_grows1; [done|by exists n, k]).
  eapply safe_weaken; [apply IH, Hg|]. intros m' Hg'. by eapply grows_trans.
Qed.

(** A candidate is a node of [b]. *)
Lemma exact_candidate_eq ia ib m x n exact : matching_ok m -> Forall (fun e => Forall in_b e.2) ib ->
  exists c, exact_candidate b ia ib m x n exact = Ret c /\ match c with Some y => in_b y | None => True end.
Proof using Type.
  intros Hm Hib. unfold exact_candidate. destruct (a2b m x) as [y|] eqn:E.
  - destruct (m_kind _ Hm _ _ E) as (n' & k & _ & Ek & _). rewrite (node_eq _ _ _ Ek). cbn [rust_bind].
    eexists. split; [done|]. destruct (_ =? _); [|done]. by eapply lookup_lt_Some.
  - destruct (bt_get _ _ ia) as [[|? [|]]|]; try by eexists.
    destruct (bt_get pair_cmp _ ib) as [[|y [|]]|] eqn:Eb; try by eexists.
    eexists. split; [done|]. pose proof (bt_get_all pair_cmp (Forall in_b) _ _ _ Hib Eb) as H. by inversion H.
Qed.

Definition layers_ok (ls : list (bool * (list ((Z * Z) * list nat) * list ((Z * Z) * list nat)) * Layer)) : Prop :=
  Forall (fun e => Forall (fun e => Forall in_b e.2) e.1.2.2) ls.

Lemma try_layers_safe x n ls : in_a x -> layers_ok ls -> forall m, matching_ok m ->
  safe cancel (fun r => grows m r.1) (try_layers a b x n cancel ls m).
Proof using wf_a wf_b.
  intros Hx. induction 1 as [|[[exact [ia ib]] l] ls Hib _ IH]; intros m Hm; cbn [try_layers]; [apply safe_ret; by apply grows_refl|].
  destruct (exact_candidate_eq ia ib m x n exact Hm Hib) as (c & -> & Hc).
  eapply safe_bind; [by apply (safe_lift _ (eq c)) with (a := c)|]. intros _ <-. destruct c as [y|]; [|by apply IH].
  eapply safe_bind; [by apply bulk_safe|]. intros [m' ok] Hg. destruct ok; [by apply safe_ret|].
  eapply safe_weaken; [apply IH, Hg|]. intros [m'' ?] Hg'. by eapply grows_trans.
Qed.

Lemma exact_walk_safe ls : layers_ok ls -> forall fuel stack m compared, matching_ok m -> Forall in_a stack ->
  (load a stack <= fuel)%nat -> 0 <= compared ->
  safe cancel (fun r => grows m r.1 /\ compared <= r.2 <= compared + Z.of_nat (load a stack))
    (exact_walk fuel a b ls cancel stack m compared).
Proof using wf_a wf_b.
  intros Hls. induction fuel as [|f IH]; intros [|x stack] m compared Hm Hst Hload Hc; cbn [exact_walk];
    try (apply safe_ret; split; [by apply grows_refl|simpl; lia]).
  - pose proof (tree_size_pos a x). simpl in Hload. lia.
  - inversion Hst as [|? ? Hx Hst']; subst. destruct (node_lookup a x Hx) as [n En].
    eapply safe_bind; [by apply (safe_check _ (fun _ => True))|]. intros _ _.
    eapply safe_bind; [by apply (safe_lift _ (eq n)) with (a := n); [apply node_eq|]|]. intros _ <-.
    eapply safe_bind; [by apply try_layers_safe|]. intros [m' fin] Hg. cbn [fst] in Hg.
    assert (Hsize : load a (x :: stack) = (S (load a (children n)) + load a stack)%nat).
    { simpl. by rewrite (tree_size_children a x n wf_a En). }
    rewrite Hsize in *. eapply safe_weaken.
    + apply IH; [apply Hg| |destruct fin; rewrite ?load_app; lia|lia].
      destruct fin; [done|]. apply Forall_app. split; [|done]. eapply Forall_impl; [apply (wf_below _ wf_a x n En)|]. simpl. unfold in_a. lia.
    + intros [m'' c] [Hg' Hc']. split; [by eapply grows_trans|]. destruct fin; rewrite ?load_app in Hc'; simpl in *; lia.
Qed.

(** The exact layer. *)
Lemma exact_run_safe m : matching_ok m ->
  safe cancel (fun r => grows m r.1 /\ 0 <= r.2 <= Z.of_nat (tree_size a (root a))) (exact_run a b m cancel).
Proof using wf_a wf_b.
  intros Hm. unfold exact_run. eapply safe_bind; [by apply (safe_check _ (fun _ => True))|]. intros _ _.
  destruct (node_lookup a (root a) (wf_root _ wf_a)) as [ra Ea]. destruct (node_lookup b (root b) (wf_root _ wf_b)) as [rb Eb].
  eapply safe_bind; [by apply (safe_lift _ (eq ra)) with (a := ra); [apply node_eq|]|]. intros _ <-.
  eapply safe_bind; [by apply (safe_lift _ (eq rb)) with (a := rb); [apply node_eq|]|]. intros _ <-.
  set (m1 := if decide (kind ra = kind rb) then _ else m).
  assert (Hg1 : grows m m1).
  { unfold m1. destruct (decide _); [|by apply grows_refl]. apply set_pair_grows1; [done|by exists ra, rb]. }
  eapply safe_bind; [by apply match_eids_safe; [apply eids_range|apply Hg1]|]. intros m2 Hg2.
  eapply safe_weaken.
  - apply exact_walk_safe; [|apply Hg2|by constructor; [apply wf_a|]|simpl; lia|lia].
    repeat constructor; simpl; apply index_range.
  - intros [m3 c] [Hg3 Hc]. split; [|simpl in *; lia]. eapply grows_trans; [exact Hg1|]. by eapply grows_trans.
Qed.

End pair.
End laws.
