(* ===== verification/Align.v ===== *)
(** * Sibling alignment

    Crate [marekvs-diff], [align.rs]: the children of every matched pair of
    parents are aligned.  Children already matched and hashes unique among the
    unmatched siblings are anchors; between two anchors a bounded Myers search
    pairs equal nodes, and a gap of equal length and kinds is substituted. *)

From Stdlib Require Import String.
From S2P Require Import Prelude BTree DiffBase Myers MyersRun TextDiff Lis DiffTree.

Section align.
Context {Value : Type}.
Abbreviation tree := (Tree Value).
Context (a b : tree).

Definition equal (x y : nat) : rust bool :=
  let! n := node a x in
  let! k := node b y in
  Ret (bool_decide (kind n = kind k) && (h_content n =? h_content k)).

(** ** The bounded search *)

Section myers.
Context (xs ys : list nat) (cancel : CancelToken).

Definition len_x : Z := Z.of_nat (length xs).
Definition len_y : Z := Z.of_nat (length ys).

(** [equal(a, b, xs[x as usize], ys[y as usize])]. *)
Definition equal_at (x y : Z) : rust bool :=
  let! i := at_idx xs x in
  let! j := at_idx ys y in
  equal i j.

(** The diagonal run; [inr] carries what is left of the budget when it is spent. *)
Fixpoint slide_run (fuel : nat) (x y remaining : Z) : diffm (Z * Z * Z + Z) :=
  match fuel with
  | O => d_ret (inl (x, y, remaining))
  | S f =>
      if (x <? len_x) && (y <? len_y) then
        let? same := d_lift (equal_at x y) in
        if same : bool then
          if remaining =? 0 then d_ret (inr remaining) else
          let? _ := d_check cancel in
          slide_run f (x + 1) (y + 1) (remaining - 1)
        else d_ret (inl (x, y, remaining))
      else d_ret (inl (x, y, remaining))
  end.

(** The result of [myers] and what is left of [remaining]. *)
Definition found : Type := option (list (Z * Z)) * Z.

Definition align_diagonal (offset : Z) (trace : list (list Z)) (d : nat) (k : Z) (st : list Z * Z) :
    diffm (flow (list Z * Z) found) :=
  let '(v, remaining) := st in
  let? _ := d_check cancel in
  if remaining =? 0 then d_ret (Return (None, remaining)) else
  let? x := d_lift (start_x v offset (Z.of_nat d) k) in
  let? r := slide_run (Z.to_nat (len_x - x) + 1) x (x - k) (remaining - 1) in
  match r with
  | inr remaining => d_ret (Return (None, remaining))
  | inl (x, y, remaining) =>
      let? v := d_lift (set_idx v (offset + k) x) in
      if (x =? len_x) && (y =? len_y) then
        let? l := unwind (d_ret tt) trace offset d x y in
        d_ret (Return (Some l, remaining))
      else d_ret (Next (v, remaining))
  end.

Definition align_round (offset : Z) (d : nat) (st : list Z * list (list Z) * Z) :
    diffm (flow (list Z * list (list Z) * Z) found) :=
  let '(v, trace, remaining) := st in
  let? _ := d_check cancel in
  let len := Z.of_nat (length v) in
  if remaining <? len then d_ret (Return (None, remaining)) else
  let trace := trace ++ [v] in
  let? r := for_each (diagonals d) (align_diagonal offset trace d) (v, remaining - len) in
  match r with
  | Next (v, remaining) => d_ret (Next (v, trace, remaining))
  | Return r => d_ret (Return r)
  end.

Definition myers (remaining : Z) : diffm found :=
  if (length xs =? 0)%nat || (length ys =? 0)%nat then d_ret (Some [], remaining) else
  let max := len_x + len_y in
  if remaining <? frontier_cost max then d_ret (None, remaining) else
  let v := replicate (Z.to_nat (2 * max + 3)) 0 in
  let? r := for_each (seq 0 (S (Z.to_nat max))) (align_round (max + 1)) (v, [], remaining) in
  match r with
  | Next (_, _, remaining) => d_ret (Some [], remaining)
  | Return r => d_ret r
  end.

End myers.

(** ** Substitution *)

(** The kinds of two lists of nodes agree pairwise. *)
Fixpoint kinds_agree (l : list (nat * nat)) : rust bool :=
  match l with
  | [] => Ret true
  | (x, y) :: l' =>
      let! n := node a x in
      let! k := node b y in
      if decide (kind n = kind k) then kinds_agree l' else Ret false
  end.

Definition set_all (l : list (nat * nat)) (m : Matching) : Matching :=
  fold_left (fun m '(x, y) => (set_pair m x y I3).1) l m.

Definition unmatched_of_a (m : Matching) (xs : list nat) : list nat := filter (fun x => a2b m x = None) xs.
Definition unmatched_of_b (m : Matching) (ys : list nat) : list nat := filter (fun y => b2a m y = None) ys.

Definition substitute (xs ys : list nat) (m : Matching) : rust Matching :=
  let x := unmatched_of_a m xs in
  let y := unmatched_of_b m ys in
  if (length x =? length y)%nat then
    let! ok := kinds_agree (zip x y) in
    Ret (if ok : bool then set_all (zip x y) m else m)
  else Ret m.

(** ** One pair of parents *)

(** [l[s..e]]. *)
Definition slice_ids (l : list nat) (s e : nat) : rust (list nat) :=
  if ((e <? s) || (length l <? e))%nat then Panic else Ret (take (e - s) (drop s l)).

(** The loop over the pairs of the search and the end of the gap. *)
Fixpoint fill_gap (ax by_ : list nat) (eqs : list (Z * Z)) (gx gy : nat) (m : Matching) : rust Matching :=
  match eqs with
  | [] => Ret m
  | (i, j) :: eqs' =>
      let i := Z.to_nat i in
      let j := Z.to_nat j in
      let! sx := slice_ids ax gx i in
      let! sy := slice_ids by_ gy j in
      let! m := substitute sx sy m in
      let m := match ax !! i, by_ !! j with
               | Some x, Some y => (set_pair m x y I3).1
               | _, _ => m
               end in
      fill_gap ax by_ eqs' (S i) (S j) m
  end.

(** [ys.iter().enumerate().map(|(i, &y)| (y, i)).collect()]. *)
Definition positions (ys : list nat) : list (nat * nat) :=
  fold_left (fun out '(i, y) => bt_update Nat.compare y (fun _ => i) out) (zip (seq 0 (length ys)) ys) [].

(** Children of the pair that are matched to each other. *)
Definition matched_anchors (xs ys : list nat) (m : Matching) : list (nat * nat) :=
  omap (fun '(i, x) =>
      match a2b m x with
      | Some y => (fun j => (i, j)) <$> bt_get Nat.compare y (positions ys)
      | None => None
      end)
    (zip (seq 0 (length xs)) xs).

(** Positions of the unmatched siblings by kind and content hash. *)
Fixpoint by_content (t : tree) (unmatched : nat -> bool) (l : list (nat * nat)) (out : list ((Z * Z) * list nat)) :
    rust (list ((Z * Z) * list nat)) :=
  match l with
  | [] => Ret out
  | (i, x) :: l' =>
      if unmatched x then
        let! n := node t x in
        by_content t unmatched l' (bt_update pair_cmp (node_key false n) (fun o => default [] o ++ [i]) out)
      else by_content t unmatched l' out
  end.

Definition patience_anchors (ia ib : list ((Z * Z) * list nat)) : list (nat * nat) :=
  omap (fun '(key, is_) =>
      match is_, bt_get pair_cmp key ib with
      | [i], Some [j] => Some (i, j)
      | _, _ => None
      end) ia.

Definition pair_le (p q : nat * nat) : Prop := (p.1 < q.1)%nat \/ (p.1 = q.1 /\ p.2 <= q.2)%nat.
#[export] Instance pair_le_dec : RelDecision pair_le.
Proof. intros p q. unfold pair_le. apply _. Defined.

Definition sort_anchors (l : list (nat * nat)) : list (nat * nat) := merge_sort pair_le l.

(** The state of [run]: matching, fallbacks and what is left of the budget. *)
Record astate := mkA { am : Matching; fallbacks : list string; remaining : Z }.

(** The unmatched children between two anchors. *)
Definition align_gap (ax by_ : list nat) (cancel : CancelToken) (st : astate) : diffm astate :=
  let? (r, rem) := myers ax by_ cancel (remaining st) in
  match r with
  | Some eqs =>
      let? m := d_lift (fill_gap ax by_ (eqs ++ [(Z.of_nat (length ax), Z.of_nat (length by_))]) 0 0 (am st)) in
      d_ret (mkA m (fallbacks st) rem)
  | None => d_ret (mkA (am st) (fallbacks st ++ ["candidate cap reached"%string]) rem)
  end.

(** The loop over the anchors and the end of the children. *)
Fixpoint align_gaps (xs ys : list nat) (cancel : CancelToken) (ends : list (nat * nat)) (sx sy : nat) (st : astate) :
    diffm astate :=
  match ends with
  | [] => d_ret st
  | (ex, ey) :: ends' =>
      let? gx := d_lift (slice_ids xs sx ex) in
      let? gy := d_lift (slice_ids ys sy ey) in
      let? st := align_gap (unmatched_of_a (am st) gx) (unmatched_of_b (am st) gy) cancel st in
      let m := match xs !! ex, ys !! ey with
               | Some x, Some y => (set_pair (am st) x y I3).1
               | _, _ => am st
               end in
      align_gaps xs ys cancel ends' (S ex) (S ey) (mkA m (fallbacks st) (remaining st))
  end.

(** The body of the loop over the queue, past the [visited] test. *)
Definition align_children (xs ys : list nat) (cancel : CancelToken) (st : astate) : diffm astate :=
  let m := am st in
  let? ia := d_lift (by_content a (fun x => bool_decide (a2b m x = None)) (zip (seq 0 (length xs)) xs) []) in
  let? ib := d_lift (by_content b (fun y => bool_decide (b2a m y = None)) (zip (seq 0 (length ys)) ys) []) in
  let? anchors := d_lift (align_lis (sort_anchors (matched_anchors xs ys m ++ patience_anchors ia ib))) in
  align_gaps xs ys cancel (anchors ++ [(length xs, length ys)]) 0 0 st.

(** The children to visit next. *)
Definition next_pairs (xs : list nat) (m : Matching) (visited : gset (nat * nat)) : list (nat * nat) :=
  omap (fun x =>
      match a2b m x with
      | Some y => if decide ((x, y) ∈ visited) then None else Some (x, y)
      | None => None
      end) xs.

Fixpoint align_loop (fuel : nat) (cancel : CancelToken) (queue : list (nat * nat)) (visited : gset (nat * nat)) (st : astate) :
    diffm astate :=
  match queue with
  | [] => d_ret st
  | (p, q) :: queue' =>
      match fuel with
      | O => d_lift Panic
      | S f =>
          let? _ := d_check cancel in
          if decide ((p, q) ∈ visited) then align_loop f cancel queue' visited st else
          let visited := {[ (p, q) ]} ∪ visited in
          let? np := d_lift (node a p) in
          let? nq := d_lift (node b q) in
          let xs := children np in
          let ys := children nq in
          if (length xs =? 0)%nat || (length ys =? 0)%nat then align_loop f cancel queue' visited st else
          let? st := align_children xs ys cancel st in
          align_loop f cancel (queue' ++ next_pairs xs (am st) visited) visited st
      end
  end.

(** Every pass of the loop takes an entry off the queue; an entry adds at most
    the children of its left node, once. *)
Definition child_count (x : nat) : nat := match nodes a !! x with Some n => length (children n) | None => 0%nat end.
Definition align_fuel (m : Matching) : nat := (length (pairs m) + sum_list_with child_count (seq 0 (length (nodes a))))%nat.

Definition align_run (m : Matching) (budget : Budget) (cancel : CancelToken) : diffm (Matching * list string * Z) :=
  let? _ := d_check cancel in
  let? ra := d_lift (node a (root a)) in
  let? rb := d_lift (node b (root b)) in
  let m := if decide (kind ra = kind rb) then (set_pair m (root a) (root b) I3).1 else m in
  let? st := align_loop (align_fuel m) cancel (pairs m) ∅ (mkA m [] (max_nd budget)) in
  d_ret (am st, fallbacks st, max_nd budget - remaining st).

End align.
