(* ===== verification/AlignLaws.v ===== *)
(** * Alignment keeps the correspondence

    The sibling search of [align.rs] finds a longest common subsequence of the
    children's contents; alignment runs to its end within its budget, without a
    panic, and extends the matching by pairs of the same kind. *)

From Stdlib Require Import String.
From S2P Require Import Prelude BTree DiffBase Myers MyersRun TextDiff Lis DiffTree TreeLaws Align.

Section laws.
Context {Value : Type}.
Abbreviation tree := (Tree Value).
Context (a b : tree) (cancel : CancelToken).

(** ** The search *)

Section search.
Context (xs ys : list nat).
Hypothesis xs_in : Forall (in_a a) xs.
Hypothesis ys_in : Forall (in_b b) ys.
Hypothesis small : Z.of_nat (length xs) + Z.of_nat (length ys) < 2 ^ 62.

Abbreviation N := (Z.of_nat (length xs)).
Abbreviation M := (Z.of_nat (length ys)).

(** Kind and content of the nodes at two positions agree. *)
Definition same_node (x y : Z) : bool := match equal_at a b xs ys x y with Ret r => r | Panic => false end.

Abbreviation frontier := (Myers.frontier N M same_node).

Lemma equal_at_eq x y : 0 <= x < N -> 0 <= y < M -> equal_at a b xs ys x y = Ret (same_node x y).
Proof using xs_in ys_in.
  intros Hx Hy. unfold same_node, equal_at.
  destruct (lookup_lt_is_Some_2 xs (Z.to_nat x)) as [i Ei]; [lia|]. destruct (lookup_lt_is_Some_2 ys (Z.to_nat y)) as [j Ej]; [lia|].
  rewrite (at_idx_eq _ _ i) by (done || lia). cbn [rust_bind]. rewrite (at_idx_eq _ _ j) by (done || lia). cbn [rust_bind].
  rewrite Forall_lookup in xs_in, ys_in. destruct (node_lookup a i (xs_in _ _ Ei)) as [n En].
  destruct (node_lookup b j (ys_in _ _ Ej)) as [k Ek]. unfold equal. rewrite (node_eq _ _ _ En), (node_eq _ _ _ Ek). done.
Qed.

(** Equal positions hold nodes of one kind. *)
Lemma same_node_kind x y i j : same_node (Z.of_nat x) (Z.of_nat y) = true -> xs !! x = Some i -> ys !! y = Some j -> same_kind a b i j.
Proof using xs_in ys_in.
  intros Hs Ei Ej. unfold same_node, equal_at in Hs.
  rewrite (at_idx_eq _ _ i), (at_idx_eq _ _ j) in Hs by (rewrite ?Nat2Z.id; done || lia). cbn [rust_bind] in Hs.
  rewrite Forall_lookup in xs_in, ys_in. destruct (node_lookup a i (xs_in _ _ Ei)) as [n En].
  destruct (node_lookup b j (ys_in _ _ Ej)) as [k Ek]. unfold equal in Hs. rewrite (node_eq _ _ _ En), (node_eq _ _ _ Ek) in Hs.
  cbn [rust_bind] in Hs. apply andb_true_iff in Hs as [Hk%bool_decide_eq_true _]. by exists n, k.
Qed.

Lemma slide_run_safe fuel x y rem : 0 <= x -> 0 <= y -> 0 <= rem -> (Z.to_nat (N - x) < fuel)%nat ->
  safe cancel (fun r => match r with
      | inl (x', y', rem') => x' = slide N M same_node x y /\ y' = y + (x' - x) /\ 0 <= rem' <= rem
      | inr rem' => 0 <= rem' <= rem
      end)
    (slide_run a b xs ys cancel fuel x y rem).
Proof using xs_in ys_in.
  unfold slide. revert x y rem. induction fuel as [|f IH]; intros x y rem Hx Hy Hr Hf; [lia|]. cbn [slide_run].
  unfold len_x, len_y. destruct (Z.ltb_spec x N) as [HxN|HxN]; cbn [andb].
  2: { apply safe_ret. replace (Z.to_nat (N - x)) with 0%nat by lia. simpl. lia. }
  replace (Z.to_nat (N - x)) with (S (Z.to_nat (N - (x + 1)))) by lia. cbn [run]. unfold free.
  destruct (Z.ltb_spec x N); [|lia]. destruct (Z.ltb_spec y M) as [HyM|HyM]; cbn [andb].
  2: { apply safe_ret. lia. }
  rewrite equal_at_eq by lia. eapply safe_bind; [by apply (safe_lift _ (eq (same_node x y))) with (a := same_node x y)|].
  intros ? <-. destruct (same_node x y); [|apply safe_ret; lia].
  destruct (Z.eqb_spec rem 0); [apply safe_ret; lia|].
  eapply safe_bind; [by apply (safe_check _ (fun _ => True))|].
  intros _ _. eapply safe_weaken; [apply IH; lia|]. intros [[[x' y'] r']|r']; lia.
Qed.

(** What a return of the search means. *)
Definition search_result (rem : Z) (r : found) : Prop :=
  match r.1 with Some l => longest_common N M same_node l | None => True end /\ 0 <= r.2 <= rem.

Lemma align_diagonal_safe trace d pre k v rem rem0 : Z.of_nat d <= N + M -> on_round d k -> in_round N M same_node d pre v ->
  trace_ok N M same_node d trace -> (forall d', (d' < d)%nat -> open_round N M same_node d') -> 0 <= rem <= rem0 ->
  safe cancel (fun r => match r with
      | Next (v', rem') => in_round N M same_node d (pre ++ [k]) v' /\ 0 <= rem' <= rem0
      | Return r => search_result rem0 r
      end)
    (align_diagonal a b xs ys cancel (offset N M) trace d k (v, rem)).
Proof using xs_in ys_in small.
  intros Hd Hk Hv Htr Hopen Hr. unfold align_diagonal. eapply safe_bind; [by apply (safe_check _ (fun _ => True))|]. intros _ _.
  destruct (Z.eqb_spec rem 0); [apply safe_ret; split; simpl; [done|lia]|].
  set (x := start_at N M same_node d k). destruct (start_at_range N M same_node d k Hk) as [Hx0 Hxk]. fold x in Hx0, Hxk.
  eapply safe_bind; [apply (safe_lift _ (eq x)) with (a := x); [by apply start_x_eq; [|apply Hv]|done]|]. intros _ <-.
  unfold len_x, len_y. eapply safe_bind; [apply slide_run_safe; lia|].
  intros [[[x' y'] rem']|rem'] H; [|apply safe_ret; split; simpl; [done|lia]]. destruct H as (-> & -> & Hr').
  unfold x. rewrite <- frontier_start. fold x.
  replace (x - k + (frontier d k - x)) with (frontier d k - k) by lia.
  destruct (decide (N <= frontier d k /\ M <= frontier d k - k)) as [[HN HM]|Hno].
  - pose proof (on_round_offset N M d k Hd Hk).
    destruct (corner_on_diagonal N M same_node ltac:(lia) ltac:(lia) d k Hk Hopen HN HM) as [EN EM].
    eapply safe_bind; [by apply (safe_lift _ (fun _ => True)) with (1 := set_idx_eq v (offset N M + k) (frontier d k) ltac:(rewrite (proj1 Hv); lia))|].
    intros v' _. rewrite EM, EN, !Z.eqb_refl. cbn [andb]. eapply safe_bind.
    + apply (unwind_safe N M same_node cancel) with (k := k); try done; [lia|lia|by apply safe_ret].
    + intros l Hl. apply safe_ret. split; simpl; [done|lia].
  - destruct (store_round N M same_node d pre k v Hd Hk Hv Hno) as (v' & Ev & Hv').
    eapply safe_bind; [by apply (safe_lift _ (eq v')) with (a := v')|]. intros _ <-.
    replace ((frontier d k =? N) && (frontier d k - k =? M)) with false.
    + apply safe_ret. split; [done|lia].
    + symmetry. apply andb_false_iff. rewrite !Z.eqb_neq. lia.
Qed.

Lemma align_round_safe d v trace rem rem0 : Z.of_nat d <= N + M -> searched N M same_node d v trace -> 0 <= rem <= rem0 ->
  safe cancel (fun r => match r with
      | Next (v', trace', rem') => searched N M same_node (S d) v' trace' /\ 0 <= rem' <= rem0
      | Return r => search_result rem0 r
      end)
    (align_round a b xs ys cancel (offset N M) d (v, trace, rem)).
Proof using xs_in ys_in small.
  intros Hd Hst Hr. unfold align_round. pose proof (searched_trace _ _ _ _ _ _ Hst) as Htr. pose proof Hst as (Hv & _ & _ & Hopen).
  eapply safe_bind; [by apply (safe_check _ (fun _ => True))|]. intros _ _.
  destruct (Z.ltb_spec rem (Z.of_nat (length v))); [apply safe_ret; split; simpl; [done|lia]|].
  eapply safe_bind.
  - apply (safe_for_each cancel (fun pre st => in_round N M same_node d pre st.1 /\ 0 <= st.2 <= rem0)
      (search_result rem0) _ (diagonals d) [] (v, rem - Z.of_nat (length v))).
    + simpl. split; [done|lia].
    + intros p k s0 [v1 r1] E [Hv1 Hr1]. simpl in Hv1, Hr1, E.
      assert (Hk : on_round d k) by (apply elem_diagonals; rewrite E; set_solver).
      eapply safe_weaken; [by apply (align_diagonal_safe _ d p k v1 r1 rem0)|]. by intros [[v' r']|r].
  - intros [[v' r']|r]; simpl; [|intros Hl; by apply safe_ret]. intros [Hv' Hr']. apply safe_ret.
    split; [by eapply searched_next|done].
Qed.

Lemma myers_safe rem : 0 <= rem -> safe cancel (search_result rem) (myers a b xs ys cancel rem).
Proof using xs_in ys_in small.
  intros Hr. unfold myers. destruct (_ || _)%nat eqn:E0.
  { apply safe_ret. split; [|simpl; lia]. split; [constructor|]. intros l' Hc. inversion Hc as [|? ? ? ? ? ? ? Hf]; subst; [done|].
    apply free_spec in Hf. apply orb_true_iff in E0. rewrite !Nat.eqb_eq in E0. lia. }
  unfold len_x, len_y. destruct (Z.ltb_spec rem (frontier_cost (N + M))); [apply safe_ret; split; simpl; [done|lia]|].
  eapply safe_bind.
  - apply (safe_for_each cancel (fun pre st => searched N M same_node (length pre) st.1.1 st.1.2 /\ 0 <= st.2 <= rem)
      (search_result rem) _ (seq 0 (S (Z.to_nat (N + M)))) [] _).
    + split; [apply searched_start; lia|simpl; lia].
    + intros p d s0 [[v trace] r] E [Hst Hr']. cbn [app fst snd] in *.
      assert (Hd : d = length p /\ (length p <= Z.to_nat (N + M))%nat).
      { pose proof (f_equal (lookup (length p)) E) as El. rewrite list_lookup_middle in El by done.
        apply lookup_seq in El. lia. }
      destruct Hd as [-> Hd]. eapply safe_weaken; [apply (align_round_safe _ v trace r rem); [lia|done|done]|].
      intros [[[v' tr'] r']|r']; [|done]. by rewrite length_app, Nat.add_1_r.
  - intros [[[v tr] r]|r] Hx; [|by apply safe_ret]. exfalso. cbn [app] in Hx. rewrite length_seq in Hx.
    eapply (searched_ends N M same_node); [lia|lia|apply Hx].
Qed.

End search.

(** ** Substitution *)

Lemma kinds_agree_eq l : Forall (fun p => in_a a p.1 /\ in_b b p.2) l ->
  exists r, kinds_agree a b l = Ret r /\ (r = true -> Forall (fun p => same_kind a b p.1 p.2) l).
Proof.
  induction 1 as [|[x y] l [Hx Hy] _ (r & E & Hr)]; cbn [kinds_agree]; [by exists true|].
  destruct (node_lookup a x Hx) as [n En]. destruct (node_lookup b y Hy) as [k Ek].
  rewrite (node_eq _ _ _ En), (node_eq _ _ _ Ek). cbn [rust_bind].
  destruct (decide (kind n = kind k)) as [Hk|]; [|by exists false]. exists r. split; [done|].
  intros ->. constructor; [by exists n, k|by apply Hr].
Qed.

Lemma set_all_grows l : Forall (fun p => same_kind a b p.1 p.2) l -> forall m, matching_ok a b m -> grows a b m (set_all l m).
Proof.
  induction 1 as [|[x y] l Hk _ IH]; intros m Hm; simpl; [by apply grows_refl|].
  pose proof (set_pair_grows1 a b m x y I3 Hm Hk) as Hg. eapply grows_trans; [exact Hg|]. apply IH, Hg.
Qed.

Lemma substitute_eq xs ys m : Forall (in_a a) xs -> Forall (in_b b) ys -> matching_ok a b m ->
  exists m', substitute a b xs ys m = Ret m' /\ grows a b m m'.
Proof.
  intros Hx Hy Hm. unfold substitute. destruct (_ =? _)%nat; [|exists m; split; [done|by apply grows_refl]].
  destruct (kinds_agree_eq (zip (unmatched_of_a m xs) (unmatched_of_b m ys))) as (r & -> & Hr).
  { apply Forall_forall. intros [x y] Hin. rewrite Forall_forall in Hx, Hy. split.
    - apply Hx. apply elem_of_zip_l in Hin. by apply list_elem_of_filter in Hin as [_ ?].
    - apply Hy. apply elem_of_zip_r in Hin. by apply list_elem_of_filter in Hin as [_ ?]. }
  cbn [rust_bind]. destruct r; eexists; (split; [done|]); [apply set_all_grows; [by apply Hr|done]|by apply grows_refl].
Qed.

Lemma slice_ids_eq (l : list nat) s e : (s <= e <= length l)%nat -> slice_ids l s e = Ret (take (e - s) (drop s l)).
Proof. intros H. unfold slice_ids. replace (_ || _)%nat with false; [done|]. symmetry. apply orb_false_iff. rewrite !Nat.ltb_ge. lia. Qed.

Lemma Forall_slice (P : nat -> Prop) l s e : Forall P l -> Forall P (take (e - s) (drop s l)).
Proof. intros H. by apply Forall_take, Forall_drop. Qed.

(** The pairs of the search and the gaps between them. *)
Lemma fill_gap_eq ax by_ l gx gy m : Forall (in_a a) ax -> Forall (in_b b) by_ ->
  common (Z.of_nat (length ax)) (Z.of_nat (length by_)) (same_node ax by_) (Z.of_nat gx) (Z.of_nat gy) l ->
  (gx <= length ax)%nat -> (gy <= length by_)%nat -> matching_ok a b m ->
  exists m', fill_gap a b ax by_ (l ++ [(Z.of_nat (length ax), Z.of_nat (length by_))]) gx gy m = Ret m' /\ grows a b m m'.
Proof.
  intros Hax Hby. revert gx gy m. induction l as [|[i j] l IH]; intros gx gy m Hc Hgx Hgy Hm; cbn [app fill_gap].
  - rewrite !Nat2Z.id, !slice_ids_eq by lia. cbn [rust_bind].
    destruct (substitute_eq _ _ m (Forall_slice _ _ gx (length ax) Hax) (Forall_slice _ _ gy (length by_) Hby) Hm) as (m' & -> & Hg).
    cbn [rust_bind]. rewrite (lookup_ge_None_2 ax) by lia. by exists m'.
  - inversion Hc as [|? ? i' j' l' Hi Hj Hf Hc']; subst.
    pose proof (proj1 (free_spec _ _ _ _ _) Hf) as (HiN & HjM & Hs).
    assert (Ei : exists n, i = Z.of_nat n) by (exists (Z.to_nat i); lia). destruct Ei as [n ->].
    assert (Ej : exists n, j = Z.of_nat n) by (exists (Z.to_nat j); lia). destruct Ej as [k ->].
    rewrite !Nat2Z.id, !slice_ids_eq by lia. cbn [rust_bind].
    destruct (substitute_eq _ _ m (Forall_slice _ _ gx n Hax) (Forall_slice _ _ gy k Hby) Hm) as (m1 & -> & Hg1).
    cbn [rust_bind]. destruct (lookup_lt_is_Some_2 ax n) as [x Ex]; [lia|]. destruct (lookup_lt_is_Some_2 by_ k) as [y Ey]; [lia|].
    rewrite Ex, Ey. assert (Hg2 : grows a b m1 (set_pair m1 x y I3).1).
    { apply set_pair_grows1; [apply Hg1|]. by eapply same_node_kind. }
    destruct (IH (S n) (S k) (set_pair m1 x y I3).1) as (m' & -> & Hg').
    + by replace (Z.of_nat (S n)) with (Z.of_nat n + 1) by lia; replace (Z.of_nat (S k)) with (Z.of_nat k + 1) by lia.
    + lia.
    + lia.
    + apply Hg2.
    + exists m'. split; [done|]. eapply grows_trans; [exact Hg1|]. by eapply grows_trans.
Qed.

(** ** Anchors *)

(** Positions of two children of one kind. *)
Definition good_anchor (xs ys : list nat) (p : nat * nat) : Prop :=
  exists x y, xs !! p.1 = Some x /\ ys !! p.2 = Some y /\ same_kind a b x y.

Lemma elem_of_enum {A} (l : list A) i x : (i, x) ∈ zip (seq 0 (length l)) l <-> l !! i = Some x.
Proof.
  rewrite list_elem_of_lookup. split.
  - intros [j E]. rewrite lookup_zip_with in E. destruct (seq 0 (length l) !! j) eqn:Ej; [|done]. simpl in E.
    destruct (l !! j) eqn:El; [|done]. simpl in E. injection E as <- <-. apply lookup_seq in Ej as [-> _]. done.
  - intros E. exists i. rewrite lookup_zip_with, E, lookup_seq_lt by (by eapply lookup_lt_Some). done.
Qed.

Lemma enum_nodup {A} (l : list A) : NoDup (zip (seq 0 (length l)) l).*1.
Proof. rewrite fst_zip by (rewrite length_seq; lia). apply NoDup_seq. Qed.

(** A partial map keeps first components distinct when they determine their source. *)
Lemma omap_fst_nodup {K X} (f : K * X -> option (nat * nat)) (g : nat -> option K) l :
  (forall e p, e ∈ l -> f e = Some p -> g p.1 = Some e.1) -> NoDup l.*1 -> NoDup (omap f l).*1.
Proof.
  induction l as [|e l IH]; intros Hg Hn; [constructor|]. inversion Hn as [|? ? He Hn']; subst.
  assert (IH' : NoDup (omap f l).*1) by (apply IH; [intros; apply Hg; [by right|done]|done]).
  cbn [omap list_omap]. destruct (f e) as [p|] eqn:E; [|done]. constructor; [|done].
  intros Hin. apply He. apply list_elem_of_fmap in Hin as ([i j] & Hi & Hin). apply list_elem_of_omap in Hin as (e' & He' & E').
  apply list_elem_of_fmap. exists e'. split; [|done].
  pose proof (Hg e p ltac:(by left) E) as H1. pose proof (Hg e' _ ltac:(by right) E') as H2. simpl in Hi, H2. rewrite <- Hi in H2. congruence.
Qed.

Lemma positions_spec ys y j : bt_get Nat.compare y (positions ys) = Some j -> ys !! j = Some y.
Proof.
  unfold positions. assert (H : forall l out, (forall e, e ∈ l -> ys !! e.1 = Some e.2) -> bt_sorted Nat.compare out ->
    (forall y j, bt_get Nat.compare y out = Some j -> ys !! j = Some y) ->
    forall y j, bt_get Nat.compare y (fold_left (fun out '(i, y) => bt_update Nat.compare y (fun _ => i) out) l out) = Some j -> ys !! j = Some y).
  { induction l as [|[i z] l IH]; intros out Hl Hs Ho; simpl; [done|].
    apply IH; [intros; apply Hl; by right|by apply (bt_update_sorted _)|].
    intros y' j' Hg. rewrite (bt_get_update Nat.compare) in Hg by done. destruct (Nat.compare y' z) eqn:E; [|by apply Ho|by apply Ho].
    apply Nat.compare_eq in E as ->. injection Hg as <-. apply (Hl (i, z)). by left. }
  apply H; [|constructor|done]. intros [i z] Hin. by apply elem_of_enum.
Qed.

(** The positions listed under a key are unmatched nodes with that key. *)
Definition holds_key (t : tree) (xs : list nat) (free : nat -> bool) (key : Z * Z) (i : nat) : Prop :=
  exists x n, xs !! i = Some x /\ free x = true /\ nodes t !! x = Some n /\ node_key false n = key.

Lemma by_content_spec (t : tree) xs free : Forall (fun x => x < length (nodes t))%nat xs ->
  exists out, by_content t free (zip (seq 0 (length xs)) xs) [] = Ret out /\ bt_sorted pair_cmp out /\
    forall key is_ i, bt_get pair_cmp key out = Some is_ -> i ∈ is_ -> holds_key t xs free key i.
Proof.
  intros Hxs. assert (H : forall l out, (forall e, e ∈ l -> xs !! e.1 = Some e.2) -> bt_sorted pair_cmp out ->
    (forall key is_ i, bt_get pair_cmp key out = Some is_ -> i ∈ is_ -> holds_key t xs free key i) ->
    exists out', by_content t free l out = Ret out' /\ bt_sorted pair_cmp out' /\
      forall key is_ i, bt_get pair_cmp key out' = Some is_ -> i ∈ is_ -> holds_key t xs free key i).
  { induction l as [|[i x] l IH]; intros out Hl Hs Ho; cbn [by_content]; [by exists out|].
    assert (Hx : xs !! i = Some x) by (apply (Hl (i, x)); by left).
    destruct (free x) eqn:Ef; [|apply IH; [intros; apply Hl; by right|done|done]].
    rewrite Forall_lookup in Hxs. destruct (node_lookup t x (Hxs _ _ Hx)) as [n En]. rewrite (node_eq _ _ _ En). cbn [rust_bind].
    apply IH; [intros; apply Hl; by right|by apply (bt_update_sorted _)|].
    intros key is_ j Hg Hj. rewrite (bt_get_update pair_cmp) in Hg by done.
    destruct (pair_cmp key (node_key false n)) eqn:E; [|by eapply Ho|by eapply Ho].
    apply (cmp_eq pair_cmp) in E as ->. injection Hg as <-. apply elem_of_app in Hj as [Hj|Hj%list_elem_of_singleton].
    - destruct (bt_get pair_cmp (node_key false n) out) as [old|] eqn:Eo; [|by apply not_elem_of_nil in Hj]. by eapply Ho.
    - subst j. by exists x, n. }
  apply H; [|constructor|done]. intros [i x] Hin. by apply elem_of_enum.
Qed.

Lemma kind_u8_inj k k' : kind_u8 k = kind_u8 k' -> k = k'.
Proof. by destruct k, k'. Qed.

(** Anchors pair children of one kind and use each child of [a] once. *)
Lemma anchors_good xs ys m ia ib : matching_ok a b m ->
  bt_sorted pair_cmp ia ->
  (forall key is_ i, bt_get pair_cmp key ia = Some is_ -> i ∈ is_ -> holds_key a xs (fun x => bool_decide (a2b m x = None)) key i) ->
  (forall key is_ i, bt_get pair_cmp key ib = Some is_ -> i ∈ is_ -> holds_key b ys (fun y => bool_decide (b2a m y = None)) key i) ->
  Forall (good_anchor xs ys) (matched_anchors xs ys m ++ patience_anchors ia ib) /\
  NoDup (matched_anchors xs ys m ++ patience_anchors ia ib).*1.
Proof.
  intros Hm Hs Hia Hib.
  assert (Hmatched : forall p, p ∈ matched_anchors xs ys m -> exists x y, xs !! p.1 = Some x /\ ys !! p.2 = Some y /\ a2b m x = Some y).
  { intros [i j] Hin. apply list_elem_of_omap in Hin as ([i' x] & Hin & E). apply elem_of_enum in Hin.
    destruct (a2b m x) as [y|] eqn:Ey; [|done]. destruct (bt_get Nat.compare y (positions ys)) as [j'|] eqn:Ej; [|done].
    injection E as -> ->. exists x, y. split_and!; [done|by apply positions_spec|done]. }
  assert (Hpat : forall e p, e ∈ ia -> (match e.2, bt_get pair_cmp e.1 ib with [i], Some [j] => Some (i, j) | _, _ => None end) = Some p ->
    holds_key a xs (fun x => bool_decide (a2b m x = None)) e.1 p.1 /\ holds_key b ys (fun y => bool_decide (b2a m y = None)) e.1 p.2).
  { intros [key is_] p Hin E. simpl in E. pose proof (bt_get_elem pair_cmp key is_ ia Hs Hin) as Eg.
    destruct is_ as [|i [|]]; [done| |done]. destruct (bt_get pair_cmp key ib) as [[|j [|]]|] eqn:Eb; try done.
    injection E as <-. split; [eapply Hia|eapply Hib]; try done; by left. }
  split.
  - apply Forall_app. split; apply Forall_forall.
    + intros p Hin. destruct (Hmatched p Hin) as (x & y & Ex & Ey & E). exists x, y. split_and!; [done|done|by apply (m_kind _ _ _ Hm)].
    + intros p Hin. apply list_elem_of_omap in Hin as ([key is_] & Hin & E). destruct (Hpat _ _ Hin E) as [(x & n & Ex & _ & En & Kn) (y & k & Ey & _ & Ek & Kk)].
      exists x, y. split_and!; [done|done|]. exists n, k. split_and!; [done|done|]. apply kind_u8_inj.
      rewrite <- Kk in Kn. unfold node_key in Kn. by injection Kn.
  - rewrite fmap_app. apply NoDup_app. split_and!.
    + apply (omap_fst_nodup _ Some); [|apply enum_nodup]. intros [i x] p _ E.
      destruct (a2b m x) as [y|]; [|done]. destruct (bt_get Nat.compare y (positions ys)); [|done]. by injection E as <-.
    + intros i Hi Hi'. apply list_elem_of_fmap in Hi as (p & -> & Hp). apply list_elem_of_fmap in Hi' as (p' & Ep & Hp').
      destruct (Hmatched p Hp) as (x & y & Ex & _ & E). apply list_elem_of_omap in Hp' as ([key is_] & Hin & E').
      destruct (Hpat _ _ Hin E') as [(x' & n & Ex' & Hf%bool_decide_eq_true & _) _]. rewrite <- Ep in Ex'. congruence.
    + apply (omap_fst_nodup _ (fun i => match xs !! i with Some x => node_key false <$> nodes a !! x | None => None end)).
      * intros [key is_] p Hin E. destruct (Hpat _ _ Hin E) as [(x & n & Ex & _ & En & Kn) _]. rewrite Ex, En. simpl. by f_equal.
      * assert (Hlt : forall l, bt_sorted pair_cmp l -> NoDup (l : list ((Z * Z) * list nat)).*1).
        { induction 1 as [|e l _ IH Hf]; [constructor|]. simpl. constructor; [|done]. intros Hin.
          apply list_elem_of_fmap in Hin as (e' & Ee & Hin). rewrite Forall_forall in Hf. specialize (Hf e' Hin).
          rewrite Ee, (proj2 (cmp_eq pair_cmp _ _) eq_refl) in Hf. done. }
        by apply Hlt.
Qed.

(** Anchors in order, from positions [(sx, sy)] on. *)
Inductive in_order (xs ys : list nat) : nat -> nat -> list (nat * nat) -> Prop :=
  | in_order_nil sx sy : (sx <= length xs)%nat -> (sy <= length ys)%nat -> in_order xs ys sx sy []
  | in_order_cons sx sy ex ey l : (sx <= ex)%nat -> (sy <= ey)%nat -> good_anchor xs ys (ex, ey) ->
      in_order xs ys (S ex) (S ey) l -> in_order xs ys sx sy ((ex, ey) :: l).

Lemma increasing_in_order xs ys l : Forall (good_anchor xs ys) l -> increasing l.*1 -> increasing l.*2 ->
  forall sx sy, (sx <= length xs)%nat -> (sy <= length ys)%nat ->
  Forall (fun p => sx <= p.1 /\ sy <= p.2)%nat l -> in_order xs ys sx sy l.
Proof.
  induction 1 as [|[ex ey] l Hg _ IH]; intros H1 H2 sx sy Hx Hy Hf; [by constructor|].
  inversion H1 as [|? ? H1' Hf1]; subst. inversion H2 as [|? ? H2' Hf2]; subst. inversion Hf as [|? ? [? ?] _]; subst.
  constructor; [done|done|done|]. destruct Hg as (x & y & Ex%lookup_lt_Some & Ey%lookup_lt_Some & _). simpl in Ex, Ey.
  apply IH; [done|done|done|done|]. rewrite Forall_fmap in Hf1, Hf2. apply Forall_forall. intros p Hp.
  rewrite Forall_forall in Hf1, Hf2. specialize (Hf1 p Hp). specialize (Hf2 p Hp). simpl in *. lia.
Qed.

(** Sorted anchors with distinct first components increase on the left. *)
Lemma sorted_anchors_increasing l : NoDup l.*1 -> increasing (sort_anchors l).*1.
Proof.
  intros Hn. assert (Ht : Transitive pair_le) by (intros [] [] []; unfold pair_le; simpl; lia).
  assert (Hto : Total pair_le) by (intros [] []; unfold pair_le; simpl; lia).
  pose proof (StronglySorted_merge_sort pair_le l) as Hs.
  assert (Hn' : NoDup (sort_anchors l).*1) by (unfold sort_anchors; by rewrite (merge_sort_Permutation pair_le l)).
  unfold sort_anchors in *. revert Hs Hn'. generalize (merge_sort pair_le l). intros k0 Hs Hn'.
  induction Hs as [|p k _ IH Hf]; [constructor|]. inversion Hn' as [|? ? Hp Hn'']; subst.
  simpl. constructor; [by apply IH|]. rewrite Forall_fmap. apply Forall_forall. intros q Hq. simpl.
  rewrite Forall_forall in Hf. destruct (Hf q Hq) as [|[E _]]; [done|]. exfalso. apply Hp. rewrite E. by apply list_elem_of_fmap_2.
Qed.

Lemma Forall_of_sublist {A} (P : A -> Prop) l l' : l `sublist_of` l' -> Forall P l' -> Forall P l.
Proof. induction 1; inversion 1; subst; auto. Qed.

Lemma sublist_increasing l l' : l `sublist_of` l' -> increasing l' -> increasing l.
Proof.
  induction 1 as [|x l l' Hs IH|x l l' Hs IH]; intros Hi; [done| |]; inversion Hi; subst; [|by apply IH].
  constructor; [by apply IH|]. by eapply Forall_of_sublist.
Qed.

(** ** Children of a matched pair *)

Context (wf_a : tree_wf a) (wf_b : tree_wf b).

Definition children_ok (xs ys : list nat) : Prop :=
  Forall (in_a a) xs /\ Forall (in_b b) ys /\ Z.of_nat (length xs) <= 2 ^ 32 /\ Z.of_nat (length ys) <= 2 ^ 32.

(** The state after some gaps: a larger matching, less budget. *)
Definition progress (st st' : astate) : Prop := grows a b (am st) (am st') /\ 0 <= remaining st' <= remaining st.

Lemma progress_trans st st' st'' : progress st st' -> progress st' st'' -> progress st st''.
Proof. intros [G1 R1] [G2 R2]. split; [by eapply grows_trans|lia]. Qed.

Lemma gap_safe gx gy st : children_ok gx gy -> matching_ok a b (am st) -> 0 <= remaining st ->
  let ax := unmatched_of_a (am st) gx in
  let by_ := unmatched_of_b (am st) gy in
  safe cancel (progress st) (align_gap a b ax by_ cancel st).
Proof using Type.
  intros (Hx & Hy & Lx & Ly) Hm Hr ax by_.
  assert (Hax : Forall (in_a a) ax) by (eapply Forall_of_sublist; [apply sublist_filter|done]).
  assert (Hby : Forall (in_b b) by_) by (eapply Forall_of_sublist; [apply sublist_filter|done]).
  assert (Z.of_nat (length ax) <= Z.of_nat (length gx)) by (pose proof (length_filter (fun x => a2b (am st) x = None) gx); unfold ax, unmatched_of_a; lia).
  assert (Z.of_nat (length by_) <= Z.of_nat (length gy)) by (pose proof (length_filter (fun y => b2a (am st) y = None) gy); unfold by_, unmatched_of_b; lia).
  unfold align_gap. eapply safe_bind; [apply (myers_safe ax by_ Hax Hby ltac:(lia) _ Hr)|]. intros [[l|] rem] [Hl Hrem]; simpl in Hl, Hrem.
  - destruct (fill_gap_eq ax by_ l 0 0 (am st) Hax Hby (proj1 Hl) ltac:(lia) ltac:(lia) Hm) as (m' & E & Hg).
    eapply safe_bind; [by apply (safe_lift _ (eq m')) with (a := m')|]. intros _ <-. apply safe_ret. by split.
  - apply safe_ret. split; [by apply grows_refl|done].
Qed.

Lemma align_gaps_safe xs ys l sx sy st : children_ok xs ys -> in_order xs ys sx sy l -> matching_ok a b (am st) -> 0 <= remaining st ->
  safe cancel (progress st) (align_gaps a b xs ys cancel (l ++ [(length xs, length ys)]) sx sy st).
Proof using Type.
  intros Hok Ho. revert st.
  assert (Hslice : forall sx ex sy ey, (sx <= ex <= length xs)%nat -> (sy <= ey <= length ys)%nat ->
    children_ok (take (ex - sx) (drop sx xs)) (take (ey - sy) (drop sy ys))).
  { intros s1 e1 s2 e2 H1 H2. destruct Hok as (Hx & Hy & Lx & Ly). split_and!; [by apply Forall_slice|by apply Forall_slice| |];
      rewrite length_take, length_drop; lia. }
  induction Ho as [sx sy Hsx Hsy|sx sy ex ey l Hsx Hsy Hg Ho IH]; intros st Hm Hr; cbn [app align_gaps].
  - rewrite !slice_ids_eq by lia. eapply safe_bind; [by eapply (safe_lift _ (eq _))|]. intros _ <-.
    eapply safe_bind; [by eapply (safe_lift _ (eq _))|]. intros _ <-.
    eapply safe_bind; [apply gap_safe; [apply Hslice; lia|done|done]|]. intros st' [Hg' Hr'].
    rewrite (lookup_ge_None_2 xs) by lia. apply safe_ret. by split.
  - destruct Hg as (x & y & Ex & Ey & Hk). simpl in Ex, Ey.
    pose proof (lookup_lt_Some _ _ _ Ex). pose proof (lookup_lt_Some _ _ _ Ey). rewrite !slice_ids_eq by lia.
    eapply safe_bind; [by eapply (safe_lift _ (eq _))|]. intros _ <-.
    eapply safe_bind; [by eapply (safe_lift _ (eq _))|]. intros _ <-.
    eapply safe_bind; [apply gap_safe; [apply Hslice; lia|done|done]|]. intros st' [Hg' Hr']. rewrite Ex, Ey.
    pose proof (set_pair_grows1 a b (am st') x y I3 (proj1 Hg') Hk) as Hg2.
    eapply safe_weaken; [apply IH; simpl; [apply Hg2|lia]|]. intros st'' [Hg3 Hr3]. simpl in Hg3, Hr3.
    split; [|lia]. eapply grows_trans; [exact Hg'|]. by eapply grows_trans.
Qed.

Lemma align_children_safe xs ys st : children_ok xs ys -> matching_ok a b (am st) -> 0 <= remaining st ->
  safe cancel (progress st) (align_children a b xs ys cancel st).
Proof using Type.
  intros Hok Hm Hr. pose proof Hok as (Hx & Hy & _). unfold align_children.
  destruct (by_content_spec a xs (fun x => bool_decide (a2b (am st) x = None)) Hx) as (ia & -> & Hsa & Hia).
  destruct (by_content_spec b ys (fun y => bool_decide (b2a (am st) y = None)) Hy) as (ib & -> & _ & Hib).
  eapply safe_bind; [by eapply (safe_lift _ (eq _))|]. intros _ <-. eapply safe_bind; [by eapply (safe_lift _ (eq _))|]. intros _ <-.
  destruct (anchors_good xs ys (am st) ia ib Hm Hsa Hia Hib) as [Hgood Hnd].
  set (l := matched_anchors xs ys (am st) ++ patience_anchors ia ib) in *.
  destruct (align_lis_spec (sort_anchors l)) as (out & Eo & Hsub & Hinc & _).
  eapply safe_bind; [by apply (safe_lift _ (eq out)) with (a := out)|]. intros _ <-.
  assert (Hgo : Forall (good_anchor xs ys) out).
  { eapply Forall_of_sublist; [exact Hsub|]. unfold sort_anchors. by rewrite (merge_sort_Permutation pair_le l). }
  apply align_gaps_safe; [done| |done|done]. apply increasing_in_order; [done| |done|lia|lia|apply Forall_true; lia].
  eapply sublist_increasing; [by apply fmap_sublist|]. by apply sorted_anchors_increasing.
Qed.

(** ** The queue *)

(** The children of the nodes not visited yet. *)
Definition to_visit (seen : gset nat) : nat :=
  sum_list_with (fun x => if decide (x ∈ seen) then 0%nat else child_count a x) (seq 0 (length (nodes a))).

Lemma to_visit_add p seen : p ∉ seen -> in_a a p -> (to_visit ({[ p ]} ∪ seen) + child_count a p)%nat = to_visit seen.
Proof.
  intros Hp Hin. unfold to_visit.
  assert (H : forall l, NoDup l -> (sum_list_with (fun x => if decide (x ∈ {[ p ]} ∪ seen) then 0%nat else child_count a x) l +
    (if decide (p ∈ l) then child_count a p else 0))%nat = sum_list_with (fun x => if decide (x ∈ seen) then 0%nat else child_count a x) l).
  { induction 1 as [|x l Hx _ IH]; [done|]. cbn [sum_list_with].
    destruct (decide (x = p)) as [->|Hne].
    - rewrite (decide_True (P := p ∈ {[ p ]} ∪ seen)) by set_solver. rewrite (decide_False (P := p ∈ seen)) by done.
      rewrite (decide_True (P := p ∈ p :: l)) by by left. rewrite decide_False in IH by done. lia.
    - destruct (decide (p ∈ l)) as [Hl|Hl].
      + rewrite (decide_True (P := p ∈ x :: l)) by by right. destruct (decide (x ∈ seen)), (decide (x ∈ {[ p ]} ∪ seen)); try set_solver; lia.
      + rewrite (decide_False (P := p ∈ x :: l)) by set_solver. destruct (decide (x ∈ seen)), (decide (x ∈ {[ p ]} ∪ seen)); try set_solver; lia. }
  specialize (H (seq 0 (length (nodes a))) (NoDup_seq _ _)). rewrite decide_True in H; [done|]. apply elem_of_seq. unfold in_a in Hin. lia.
Qed.

Lemma next_pairs_length xs m visited : (length (next_pairs xs m visited) <= length xs)%nat.
Proof using Type. unfold next_pairs. induction xs as [|x xs IH]; [done|]. cbn [omap list_omap]. destruct (match a2b m x with Some _ => _ | None => _ end); simpl; lia. Qed.

(** Entries of the queue and visited pairs belong to the matching. *)
Definition queued (m : Matching) (l : list (nat * nat)) : Prop := Forall (fun p => a2b m p.1 = Some p.2) l.

Lemma queued_keeps m m' l : keeps m m' -> queued m l -> queued m' l.
Proof using Type. intros Hk Hq. eapply Forall_impl; [exact Hq|]. intros p. apply Hk. Qed.

Lemma next_pairs_queued xs m visited : queued m (next_pairs xs m visited).
Proof using Type.
  apply Forall_forall. intros [x y] Hin. apply list_elem_of_omap in Hin as (x' & _ & E).
  destruct (a2b m x') as [y'|] eqn:Ey; [|done]. destruct (decide _); [done|]. by injection E as <- <-.
Qed.

Lemma align_loop_safe : forall fuel queue (visited : gset (nat * nat)) st, matching_ok a b (am st) -> 0 <= remaining st ->
  queued (am st) queue -> (forall p q, (p, q) ∈ visited -> a2b (am st) p = Some q) ->
  (length queue + to_visit (set_map fst visited) <= fuel)%nat ->
  safe cancel (progress st) (align_loop a b fuel cancel queue visited st).
Proof using wf_a wf_b.
  induction fuel as [|f IH]; intros [|[p q] queue] visited st Hm Hr Hq Hv Hf; cbn [align_loop];
    try (apply safe_ret; split; [by apply grows_refl|lia]).
  - simpl in Hf. lia.
  - inversion Hq as [|? ? Hpq Hq']; subst. simpl in Hpq. destruct (m_kind _ _ _ Hm _ _ Hpq) as (np & nq & Ep & Eq_ & _).
    eapply safe_bind; [by apply (safe_check _ (fun _ => True))|]. intros _ _.
    destruct (decide ((p, q) ∈ visited)) as [|Hnew]; [apply IH; try done; simpl in Hf; lia|].
    assert (Hp : p ∉ (set_map fst visited : gset nat)).
    { intros Hin. apply elem_of_map in Hin as ([p' q'] & E & Hin). simpl in E. subst p'. pose proof (Hv _ _ Hin). congruence. }
    assert (Hmap : set_map fst ({[(p, q)]} ∪ visited) = ({[ p ]} ∪ set_map fst visited : gset nat)) by (rewrite set_map_union_L, set_map_singleton_L; done).
    pose proof (to_visit_add p _ Hp (lookup_lt_Some _ _ _ Ep)) as Hload. unfold child_count in Hload. rewrite Ep in Hload.
    eapply safe_bind; [by apply (safe_lift _ (eq np)) with (a := np); [apply node_eq|]|]. intros _ <-.
    eapply safe_bind; [by apply (safe_lift _ (eq nq)) with (a := nq); [apply node_eq|]|]. intros _ <-.
    assert (Hv' : forall p' q', (p', q') ∈ {[(p, q)]} ∪ visited -> a2b (am st) p' = Some q') by set_solver.
    simpl in Hf. destruct (_ || _)%nat; [apply IH; try done; rewrite Hmap; lia|].
    assert (Hok : children_ok (children np) (children nq)).
    { destruct (wf_children a p np wf_a Ep), (wf_children b q nq wf_b Eq_). pose proof (wf_u32 _ wf_a). pose proof (wf_u32 _ wf_b).
      split_and!; [done|done|lia|lia]. }
    eapply safe_bind; [by apply align_children_safe|]. intros st' [Hg Hr'].
    eapply safe_weaken.
    + apply IH; [apply Hg|lia| | |].
      * apply Forall_app. split; [by eapply queued_keeps; [apply Hg|]|apply next_pairs_queued].
      * intros p' q' Hin. by apply Hg, Hv'.
      * rewrite Hmap, length_app. pose proof (next_pairs_length (children np) (am st') ({[(p, q)]} ∪ visited)). lia.
    + intros st'' Hp''. eapply progress_trans; [|exact Hp'']. by split.
Qed.

Lemma align_run_safe m budget : matching_ok a b m -> 0 <= max_nd budget ->
  safe cancel (fun r => grows a b m r.1.1 /\ 0 <= r.2 <= max_nd budget) (align_run a b m budget cancel).
Proof using wf_a wf_b.
  intros Hm Hnd. unfold align_run. eapply safe_bind; [by apply (safe_check _ (fun _ => True))|]. intros _ _.
  destruct (node_lookup a (root a) (wf_root _ wf_a)) as [ra Ea]. destruct (node_lookup b (root b) (wf_root _ wf_b)) as [rb Eb].
  eapply safe_bind; [by apply (safe_lift _ (eq ra)) with (a := ra); [apply node_eq|]|]. intros _ <-.
  eapply safe_bind; [by apply (safe_lift _ (eq rb)) with (a := rb); [apply node_eq|]|]. intros _ <-.
  set (m1 := if decide (kind ra = kind rb) then _ else m).
  assert (Hg1 : grows a b m m1).
  { unfold m1. destruct (decide _); [|by apply grows_refl]. apply set_pair_grows1; [done|by exists ra, rb]. }
  eapply safe_bind.
  - apply align_loop_safe; simpl; [apply Hg1|done| |set_solver|].
    + apply Forall_forall. intros [x y] Hin. apply list_elem_of_omap in Hin as (x' & _ & E).
      destruct (a2b m1 x') as [y'|] eqn:Ey; [|done]. by injection E as <- <-.
    + unfold align_fuel, to_visit. rewrite set_map_empty. apply Nat.add_le_mono_l, Nat.eq_le_incl.
      induction (seq 0 (length (nodes a))) as [|x l IH]; [done|]. cbn [sum_list_with]. rewrite IH, decide_False by set_solver. done.
  - intros st [Hg Hr]. simpl in Hg, Hr. apply safe_ret. simpl. split; [by eapply grows_trans|lia].
Qed.

End laws.

(** [C12] The correspondence of two documents stays one-to-one between nodes of
    the same kind: on well-formed trees and from every matching that is so (the
    empty one is), the exact layer and the sibling alignment run to their end
    without a panic, or stop with the token's error; they keep every earlier
    pair, compare at most the nodes of the first tree, and spend at most the
    budget [max_nd]. *)
Theorem correspondence_one_to_one {Value} (a b : Tree Value) m budget cancel n :
  tree_wf a -> tree_wf b -> matching_ok a b m -> 0 <= max_nd budget ->
  matching_ok a b (Matching_new a b) /\
  (exists r n', exact_run a b m cancel n = Ret (r, n') /\
    match r with
    | inl (m', compared) => matching_ok a b m' /\ keeps m m' /\ 0 <= compared <= Z.of_nat (tree_size a (root a))
    | inr e => stops cancel e
    end) /\
  (exists r n', align_run a b m budget cancel n = Ret (r, n') /\
    match r with
    | inl (m', _, nd) => matching_ok a b m' /\ keeps m m' /\ 0 <= nd <= max_nd budget
    | inr e => stops cancel e
    end).
Proof.
  intros Ha Hb Hm Hnd. split; [apply Matching_new_ok|]. split.
  - destruct (exact_run_safe a b Ha Hb cancel m Hm n) as (r & n' & E & Hr). exists r, n'. split; [done|].
    destruct r as [[m' c]|e]; [|done]. destruct Hr as [[? ?] ?]. done.
  - destruct (align_run_safe a b cancel Ha Hb m budget Hm Hnd n) as (r & n' & E & Hr). exists r, n'. split; [done|].
    destruct r as [[[m' fb] nd]|e]; [|done]. destruct Hr as [[? ?] ?]. done.
Qed.

(** Three sentences, the middle one edited and one appended. *)
Definition sentence (h : Z) : Node unit := mkNode KSen 0 None ∅ (Some (mkText [] [])) [] (Some 0%nat) 0 1 h h.
Definition document (hs : list Z) : Tree unit :=
  mkTree (mkNode Doc 0 None ∅ None (seq 1 (length hs)) None 0 1 99 99 :: (sentence <$> hs)) 0 0.

Lemma document_wf hs : Z.of_nat (length hs) < 2 ^ 32 -> tree_wf (document hs).
Proof.
  intros Hl. split; unfold document; simpl; rewrite ?length_fmap; [lia| | |lia].
  - intros [|x] n E; simpl in E.
    + injection E as <-. simpl. apply Forall_forall. intros c Hc%elem_of_seq. lia.
    + rewrite list_lookup_fmap in E. destruct (hs !! x); [|done]. injection E as <-. constructor.
  - intros [|x] n E; simpl in E.
    + injection E as <-. apply NoDup_seq.
    + rewrite list_lookup_fmap in E. destruct (hs !! x); [|done]. injection E as <-. constructor.
Qed.

Lemma correspondence_one_to_one_witness :
  let a := document [1; 2; 3] in
  let b := document [1; 8; 3; 4] in
  exists m m', exact_run a b (Matching_new a b) cancel_none 0%nat = Ret (inl (m, 4), 9%nat) /\
    a2b_ m = [Some 0%nat; Some 1%nat; None; Some 3%nat] /\
    align_run a b m default_budget cancel_none 9%nat = Ret (inl (m', [], 26), 24%nat) /\
    a2b_ m' = [Some 0%nat; Some 1%nat; Some 2%nat; Some 3%nat] /\ matching_ok a b m'.
Proof.
  intros a b.
  destruct (correspondence_one_to_one a b (Matching_new a b) default_budget cancel_none 0%nat
    (document_wf [1; 2; 3] ltac:(done)) (document_wf [1; 8; 3; 4] ltac:(done)) (Matching_new_ok a b) ltac:(done)) as (_ & (r & n & E & H) & _).
  vm_compute in E. injection E as <- <-. destruct H as (Hm & _ & _).
  destruct (correspondence_one_to_one a b _ default_budget cancel_none 9%nat
    (document_wf [1; 2; 3] ltac:(done)) (document_wf [1; 8; 3; 4] ltac:(done)) Hm ltac:(done)) as (_ & _ & (r & n & E & H)).
  vm_compute in E. injection E as <- <-. destruct H as (Hm' & _ & _). do 2 eexists.
  split; [vm_compute; reflexivity|]. split; [reflexivity|]. split; [vm_compute; reflexivity|].
  split; [reflexivity|exact Hm'].
Defined.
