(* ===== verification/Compose.v ===== *)
(** * Composing changes of one node

    Crate [marekvs-diff]: the operations of [graph.rs], the composition of the
    accepted changes of a node of [plan.rs] ([compose_shell]: text edits in base
    coordinates, formatting runs projected through them, attributes) and the
    conflict predicates of [merge3.rs].  A JSON value is a parameter; the code
    only asks which kind of scalar it is. *)

From Stdlib Require Import String.
From S2P Require Import Prelude DiffBase TextDiff DiffTree.

Section compose.
Context {Value : Type} `{!EqDecision Value}.
(** [serde_json::Value]'s tests. *)
Context (is_boolean is_string is_object is_array : Value -> bool).

Abbreviation attrs_map := (Attrs Value).
Abbreviation run := (@Run (Attrs Value)).

#[global] Instance Run_eq_dec : EqDecision run.
Proof using EqDecision0. solve_decision. Defined.
#[global] Instance Text_eq_dec : EqDecision (Text Value).
Proof using EqDecision0. solve_decision. Defined.

(** ** Operations ([graph.rs]) *)

Inductive NodeRef := RefA (l : Z) | RefB (l : Z).
#[global] Instance NodeRef_eq_dec : EqDecision NodeRef.
Proof using Type. solve_decision. Defined.

Inductive Anchor := AnchorNode (r : NodeRef) | AnchorStart.

Record Shell := mkShell { sh_kind : Kind; sh_attrs : attrs_map; sh_text : option (Text Value) }.

Inductive Op :=
  | OpMove (n p : NodeRef) (after : list Anchor)
  | OpInsert (n p : NodeRef) (after : list Anchor) (shell : Shell)
  | OpDelete (n : NodeRef)
  | OpModify (n : NodeRef) (edits : list Edit) (old new : Text Value)
  | OpFormat (n : NodeRef) (old new : list run)
  | OpAttrs (n : NodeRef) (old new : attrs_map).

Definition op_node (o : Op) : NodeRef :=
  match o with
  | OpMove n _ _ | OpInsert n _ _ _ | OpDelete n | OpModify n _ _ _ | OpFormat n _ _ | OpAttrs n _ _ => n
  end.
Definition op_placement (o : Op) : option (NodeRef * list Anchor) :=
  match o with OpMove _ p after | OpInsert _ p after _ => Some (p, after) | _ => None end.
Definition is_move (o : Op) : bool := match o with OpMove _ _ _ => true | _ => false end.

Abbreviation ChangeId := (list Z).
Record Change := mkChange { c_id : ChangeId; c_op : Op }.

(** ** Errors of planning ([plan.rs]) *)

Inductive PlanError :=
  | PBudget (e : DiffError)
  | BaseMismatch (expected actual : Z)
  | UnknownChange (id : ChangeId)
  | InvalidReference (r : NodeRef)
  | PInvalidGraph (why : string)
  | NotClosed (change requires : ChangeId)
  | Conflict (group : list ChangeId)
  | Structural (changes : list ChangeId) (why : string)
  | Unresolved (groups : list (list ChangeId))
  | InvalidText (changes : list ChangeId) (why : string).

Definition pres (A : Type) : Type := A + PlanError.
Definition p_bind {A B} (m : pres A) (f : A -> pres B) : pres B := match m with inl a => f a | inr e => inr e end.
Notation "'let^' x := m 'in' k" := (p_bind m (fun x => k)) (at level 10, x pattern, m at level 100, k at level 200).

(** ** Payload validation *)

(** The attribute keys a formatting run may carry. *)
Definition mark (s : string) : list Z := (fun c => Z.of_nat (Ascii.nat_of_ascii c)) <$> list_ascii_of_string s.
Definition valid_mark (key : list Z) (v : Value) : bool :=
  if bool_decide (key ∈ [mark "b"; mark "i"; mark "u"; mark "s"; mark "code"]) then is_boolean v
  else if bool_decide (key = mark "link") then is_string v else false.

Definition invalid_attrs (a : attrs_map) : bool :=
  bool_decide (a = ∅) || existsb (fun '(k, v) => negb (valid_mark k v)) (map_to_list a).

(** The loop of [validate_runs]; [prev] is [runs[i - 1]]. *)
Fixpoint runs_valid (len : Z) (prev : option run) (runs : list run) : bool :=
  match runs with
  | [] => true
  | r :: runs' =>
      if (run_end r <=? run_start r) || (len <? run_end r) || invalid_attrs (run_attrs r) ||
         match prev with
         | Some p => (run_start r <? run_end p) ||
                     ((run_end p =? run_start r) && bool_decide (run_attrs p = run_attrs r))
         | None => false
         end
      then false
      else runs_valid len (Some r) runs'
  end.

Definition validate_runs (runs : list run) (x : text) : pres unit :=
  if 2 ^ 32 <=? Z.of_nat (length x) then inr (PInvalidGraph "format offset overflow") else
  if runs_valid (Z.of_nat (length x)) None runs then inl tt else inr (PInvalidGraph "noncanonical formatting payload").

Definition scalar_attrs (a : attrs_map) : pres unit :=
  if existsb (fun '(_, v) => is_object v || is_array v) (map_to_list a)
  then inr (PInvalidGraph "non-scalar attribute payload") else inl tt.

Definition validate_payload (op : Op) (base : Shell) : pres unit :=
  match op with
  | OpInsert _ _ _ shell =>
      let^ _ := scalar_attrs (sh_attrs shell) in
      if negb (eqb (is_leaf (sh_kind shell)) (match sh_text shell with Some _ => true | None => false end))
      then inr (PInvalidGraph "insert shell leaf/container mismatch")
      else match sh_text shell with
           | Some t => validate_runs (tf t) (tx t)
           | None => inl tt
           end
  | OpModify _ _ old new =>
      if negb (is_leaf (sh_kind base)) then inr (PInvalidGraph "modify on container") else
      let^ _ := validate_runs (tf old) (tx old) in
      validate_runs (tf new) (tx new)
  | OpFormat _ old new =>
      match sh_text base with
      | None => inr (PInvalidGraph "format on container")
      | Some t => let^ _ := validate_runs old (tx t) in validate_runs new (tx t)
      end
  | OpAttrs _ old new => let^ _ := scalar_attrs old in scalar_attrs new
  | _ => inl tt
  end.

(** ** Projection of formatting boundaries *)

(** The loop of [project_point] with [delta] so far; [inr] is the message. *)
Fixpoint project_loop (p : Z) (start : bool) (edits : list Edit) (delta : Z) : Z + string :=
  match edits with
  | [] => inl delta
  | e :: edits' =>
      if 2 ^ 32 <=? at_ e + del e then inr "offset overflow"%string else
      if p <? at_ e then inl delta else
      if (del e =? 0) && (p =? at_ e) then
        project_loop p start edits' (if start then delta + Z.of_nat (length (ins e)) else delta)
      else if p =? at_ e then inl delta
      else if p <? at_ e + del e then inr "format boundary rewritten by text edit"%string
      else project_loop p start edits' (delta + (Z.of_nat (length (ins e)) - del e))
  end.

Definition project_point (p : Z) (start : bool) (edits : list Edit) : Z + string :=
  match project_loop p start edits 0 with
  | inl delta => if (0 <=? p + delta) && (p + delta <? 2 ^ 32) then inl (p + delta) else inr "offset overflow"%string
  | inr e => inr e
  end.

(** Append a run, extending the last one when it touches and agrees. *)
Definition push_run (out : list run) (r : run) : list run :=
  match last out with
  | Some l =>
      if (run_end l =? run_start r) && bool_decide (run_attrs l = run_attrs r)
      then take (length out - 1) out ++ [mkRun (run_start l) (run_end r) (run_attrs l)]
      else out ++ [r]
  | None => out ++ [r]
  end.

Fixpoint project_runs_loop (runs : list run) (edits : list Edit) (out : list run) : list run + string :=
  match runs with
  | [] => inl out
  | r :: runs' =>
      match project_point (run_start r) true edits with
      | inr e => inr e
      | inl s =>
          match project_point (run_end r) false edits with
          | inr e => inr e
          | inl e => project_runs_loop runs' edits (if e <=? s then out else push_run out (mkRun s e (run_attrs r)))
          end
      end
  end.
Definition project_runs (runs : list run) (edits : list Edit) : list run + string := project_runs_loop runs edits [].

(** ** Merging formatting proposals *)

(** The closure [at]: the attributes of the first run that ends after [p], if it
    started by then. *)
Definition attrs_at (runs : list run) (p : Z) : attrs_map :=
  match list_find (fun r => p < run_end r) runs with
  | Some (_, r) => if run_start r <=? p then run_attrs r else ∅
  | None => ∅
  end.

(** Changes of single keys: [Some v] sets, [None] removes. *)
Abbreviation delta_map := (gmap (list Z) (option Value)).

(** The keys in which a proposal differs from the original are added to [d];
    [None] reports two different values for one key. *)
Fixpoint add_deltas (original proposed : attrs_map) (keys : list (list Z)) (d : delta_map) : option delta_map :=
  match keys with
  | [] => Some d
  | k :: keys' =>
      if decide (original !! k = proposed !! k) then add_deltas original proposed keys' d else
      match d !! k with
      | Some prev => if decide (prev = proposed !! k) then add_deltas original proposed keys' (<[k := proposed !! k]> d) else None
      | None => add_deltas original proposed keys' (<[k := proposed !! k]> d)
      end
  end.

Definition keys_of (a b : attrs_map) : list (list Z) := (map_to_list a).*1 ++ (map_to_list b).*1.

Fixpoint collect_deltas (original : attrs_map) (proposals : list attrs_map) (d : delta_map) : option delta_map :=
  match proposals with
  | [] => Some d
  | p :: ps =>
      match add_deltas original p (keys_of original p) d with
      | Some d => collect_deltas original ps d
      | None => None
      end
  end.

(** The loop [for (k, v) in delta]. *)
Definition apply_deltas (a : attrs_map) (d : delta_map) : attrs_map :=
  fold_left (fun a '(k, v) => match v with Some v => <[k := v]> a | None => delete k a end) (map_to_list d) a.

(** [points]: the boundaries in order. *)
Definition boundaries (runs : list run) : list Z :=
  merge_sort Z.le (elements (list_to_set (flat_map (fun r => [run_start r; run_end r]) runs) : gset Z)).

Fixpoint windows (points : list Z) : list (Z * Z) :=
  match points with
  | p :: ((q :: _) as l) => (p, q) :: windows l
  | _ => []
  end.

Fixpoint merge_windows (base : list run) (proposals : list (list run)) (ws : list (Z * Z)) (out : list run) : option (list run) :=
  match ws with
  | [] => Some out
  | (s, e) :: ws' =>
      let original := attrs_at base s in
      match collect_deltas original ((fun runs => attrs_at runs s) <$> proposals) ∅ with
      | None => None
      | Some d =>
          let a := apply_deltas original d in
          merge_windows base proposals ws' (if decide (a = ∅) then out else push_run out (mkRun s e a))
      end
  end.

Definition merge_run_proposals (base : list run) (proposals : list (list run)) : option (list run) :=
  merge_windows base proposals (windows (boundaries (base ++ concat proposals))) [].

(** ** Composition of the changes of a node *)

Record cstate := mkC {
  cs_edits : list Edit;
  cs_fmt : list (list run * list Edit * bool);
  cs_attrs : delta_map }.

(** One change collected; [w] is the shell before the changes. *)
Definition collect_change (w : Shell) (cids : list ChangeId) (op : Op) (st : cstate) : pres cstate :=
  match op with
  | OpModify _ es old new =>
      if negb (bool_decide (sh_text w = Some old)) ||
         negb (bool_decide (match apply_edits (tx old) es with inl x => Some x | inr _ => None end = Some (tx new)))
      then inr (InvalidText cids "modify payload does not reproduce target from base")
      else
        let changed := match project_runs (tf old) es with inl f => negb (bool_decide (f = tf new)) | inr _ => true end in
        inl (mkC (cs_edits st ++ es) (cs_fmt st ++ [(tf new, es, changed)]) (cs_attrs st))
  | OpFormat _ old new =>
      if negb (bool_decide (tf <$> sh_text w = Some old)) then inr (InvalidText cids "format base mismatch")
      else inl (mkC (cs_edits st) (cs_fmt st ++ [(new, [], true)]) (cs_attrs st))
  | OpAttrs _ old new =>
      if negb (bool_decide (sh_attrs w = old)) then inr (PInvalidGraph "attribute base mismatch") else
      match add_deltas old new (keys_of old new) (cs_attrs st) with
      | Some d => inl (mkC (cs_edits st) (cs_fmt st) d)
      | None => inr (Conflict cids)
      end
  | _ => inl st
  end.

Fixpoint collect_changes (w : Shell) (cids : list ChangeId) (ops : list Op) (st : cstate) : pres cstate :=
  match ops with
  | [] => inl st
  | op :: ops' => let^ st := collect_change w cids op st in collect_changes w cids ops' st
  end.

(** [edits.sort_by_key(|e| (e.at, e.del, e.ins.clone())); edits.dedup()]. *)
Definition edit_le (e f : Edit) : Prop :=
  at_ e < at_ f \/ (at_ e = at_ f /\ (del e < del f \/ (del e = del f /\ bytes_cmp (ins e) (ins f) <> Gt))).
#[global] Instance edit_le_dec : RelDecision edit_le.
Proof using Type. intros e f. unfold edit_le. apply _. Defined.

Definition join_edits (edits : list Edit) : list Edit := dedup_by (fun e f => bool_decide (e = f)) (merge_sort edit_le edits).

Definition text_error (e : TextError) : string :=
  match e with EditOverflow => "edit overflow" | OverlappingEdits => "overlapping edits" | OutOfBoundsEdit => "out-of-bounds edit" end.

(** The edits of the other changes, in the coordinates after [own]. *)
Fixpoint external_edits (edits own : list Edit) (cids : list ChangeId) : pres (list Edit) :=
  match edits with
  | [] => inl []
  | e :: edits' =>
      if bool_decide (e ∈ own) then external_edits edits' own cids else
      match project_point (at_ e) true own with
      | inr why => inr (InvalidText cids why)
      | inl a =>
          match project_point (at_ e + del e) false own with
          | inr why => inr (InvalidText cids why)
          | inl stop =>
              let^ l := external_edits edits' own cids in
              inl (mkEdit a (saturating_sub stop a) (ins e) :: l)
          end
      end
  end.

Fixpoint proposals_of (fmt : list (list run * list Edit * bool)) (edits : list Edit) (cids : list ChangeId) : pres (list (list run)) :=
  match fmt with
  | [] => inl []
  | (runs, own, changed) :: fmt' =>
      if changed : bool then
        let^ ext := external_edits edits own cids in
        match project_runs runs ext with
        | inr why => inr (InvalidText cids why)
        | inl p => let^ ps := proposals_of fmt' edits cids in inl (p :: ps)
        end
      else proposals_of fmt' edits cids
  end.

Fixpoint validate_all (ops : list Op) (w : Shell) : pres unit :=
  match ops with
  | [] => inl tt
  | op :: ops' => let^ _ := validate_payload op w in validate_all ops' w
  end.

(** The text with the joined edits, then with the merged formatting. *)
Definition compose_text (original : option (Text Value)) (cids : list ChangeId) (st : cstate) : pres (option (Text Value)) :=
  let edits := join_edits (cs_edits st) in
  let^ t :=
    match edits with
    | [] => inl original
    | _ =>
        match original with
        | None => inr (InvalidText cids "modify on container")
        | Some t =>
            match apply_edits (tx t) edits with
            | inl x => inl (Some (mkText x (tf t)))
            | inr e => inr (InvalidText cids (text_error e))
            end
        end
    end in
  match cs_fmt st with
  | [] => inl t
  | _ =>
      match original with
      | None => inr (InvalidText cids "format on container")
      | Some base =>
          let^ ps := proposals_of (cs_fmt st) edits cids in
          let baseline := match project_runs (tf base) edits with inl f => f | inr _ => [] end in
          match merge_run_proposals baseline ps with
          | None => inr (Conflict cids)
          | Some runs => inl ((fun t => mkText (tx t) runs) <$> t)
          end
      end
  end.

Definition compose_shell (w : Shell) (cs : list Change) : pres Shell :=
  let cids := c_id <$> cs in
  let^ _ := validate_all (c_op <$> cs) w in
  let^ st := collect_changes w cids (c_op <$> cs) (mkC [] [] ∅) in
  let^ t := compose_text (sh_text w) cids st in
  inl (mkShell (sh_kind w) (apply_deltas (sh_attrs w) (cs_attrs st)) t).

(** ** Conflicts of two sides ([merge3.rs]) *)

Definition edits_conflict (a b : Edit) : bool :=
  if bool_decide (a = b) then false
  else if at_ a =? at_ b then true
  else if del a =? 0 then (at_ b <? at_ a) && (at_ a <? saturating_add 32 (at_ b) (del b))
  else if del b =? 0 then (at_ a <? at_ b) && (at_ b <? saturating_add 32 (at_ a) (del a))
  else (at_ a <? saturating_add 32 (at_ b) (del b)) && (at_ b <? saturating_add 32 (at_ a) (del a)).

Definition attrs_conflict (old a b : attrs_map) : bool :=
  existsb (fun k => negb (bool_decide (a !! k = old !! k)) && negb (bool_decide (b !! k = old !! k)) &&
                    negb (bool_decide (a !! k = b !! k)))
    ((map_to_list old).*1 ++ (map_to_list a).*1 ++ (map_to_list b).*1).

Definition format_text_conflict (runs : list run) (x : text) (edits : list Edit) : bool :=
  existsb (fun t =>
      existsb (fun r => ((tok_start t <? run_start r) && (run_start r <? tok_end t)) ||
                        ((tok_start t <? run_end r) && (run_end r <? tok_end t))) runs &&
      existsb (fun e => if del e =? 0 then (tok_start t <? at_ e) && (at_ e <? tok_end t)
                        else (at_ e <? tok_end t) && (tok_start t <? saturating_add 32 (at_ e) (del e))) edits)
    (tokenize x).

(** The closure [at] of [formats_conflict]: the first run around [p]. *)
Definition attrs_around (runs : list run) (p : Z) : attrs_map :=
  match list_find (fun r => run_start r <= p /\ p < run_end r) runs with Some (_, r) => run_attrs r | None => ∅ end.

Definition formats_conflict (old a b : list run) : bool :=
  existsb (fun p => attrs_conflict (attrs_around old p) (attrs_around a p) (attrs_around b p)) (boundaries (old ++ a ++ b)).

(** The loop of [base_boundary] with [shift] so far. *)
Fixpoint base_loop (point : Z) (own : list Edit) (shift : Z) : option Z :=
  match own with
  | [] => if (0 <=? point - shift) && (point - shift <? 2 ^ 32) then Some (point - shift) else None
  | e :: own' =>
      let start := at_ e + shift in
      let stop := start + Z.of_nat (length (ins e)) in
      if point <? start then if (0 <=? point - shift) && (point - shift <? 2 ^ 32) then Some (point - shift) else None
      else if point =? start then Some (at_ e)
      else if point <? stop then None
      else base_loop point own' (shift + (Z.of_nat (length (ins e)) - del e))
  end.
Definition base_boundary (point : Z) (own : list Edit) : option Z := base_loop point own 0.

(** The runs that only one of two lists has. *)
Definition differing (l l' : list run) : list run :=
  filter (fun r => ~ (r ∈ l) \/ ~ (r ∈ l')) (l ++ l').

Definition carried_format_conflict (op : Op) (other : list Edit) : bool :=
  match op with
  | OpModify _ edits old new =>
      let mapped := omap (fun r => match base_boundary (run_start r) edits, base_boundary (run_end r) edits with
                                   | Some s, Some e => Some (mkRun s e (run_attrs r))
                                   | _, _ => None
                                   end) (tf new) in
      format_text_conflict (differing mapped (tf old)) (tx old) other
  | _ => false
  end.

Definition incompatible (a b : Op) : bool :=
  match a, b with
  | OpMove _ _ _, OpMove _ _ _ => true
  | OpAttrs _ old a, OpAttrs _ _ b => attrs_conflict old a b
  | OpModify _ ae _ _, OpModify _ be _ _ =>
      existsb (fun x => existsb (edits_conflict x) be) ae || carried_format_conflict a be || carried_format_conflict b ae
  | OpFormat _ old new, OpModify _ edits t _ | OpModify _ edits t _, OpFormat _ old new =>
      format_text_conflict (differing new old) (tx t) edits
  | OpFormat _ old a, OpFormat _ _ b => formats_conflict old a b
  | _, _ => false
  end.

End compose.
