(* ===== verification/ComposeLaws.v ===== *)
(** * Independent edits join

    Edits of two sides that do not conflict join into one accepted edit list,
    the same whichever side comes first. *)

From Stdlib Require Import String.
From S2P Require Import Prelude DiffBase Myers MyersRun TextDiff TextLaws DiffTree Compose.

(** ** Joining edits *)

(** [e] ends where [f] may start. *)
Definition ends_before (e f : Edit) : Prop := at_ e < at_ f /\ at_ e + del e <= at_ f.

Lemma ordered_separated len edits : Forall u32_edit edits -> forall c prev, ordered c prev len edits = true ->
  StronglySorted ends_before edits /\ Forall (fun e => c <= at_ e /\ at_ e + del e <= len) edits /\
  Forall (fun e => prev <> Some (at_ e) \/ c < at_ e) edits.
Proof.
  induction 1 as [|e edits [[? ?] [? ?]] Hu IH]; intros c prev Ho; [by repeat constructor|]. cbn [ordered] in Ho.
  rewrite !andb_true_iff, !Z.leb_le, negb_true_iff in Ho. destruct Ho as (((Hc & Hp%bool_decide_eq_false) & Hl) & Ho).
  destruct (IH _ _ Ho) as (Hs & Hf & Hne). split_and!.
  - constructor; [done|]. rewrite Forall_forall in Hf, Hne |- *. intros f Hin.
    destruct (Hf f Hin) as [Hge Hlen]. split; [|done]. destruct (Hne f Hin) as [Hn|]; [|lia].
    destruct (decide (at_ e = at_ f)); [congruence|lia].
  - constructor; [lia|]. eapply Forall_impl; [exact Hf|]. simpl. lia.
  - constructor; [by left|]. rewrite Forall_forall in Hf |- *. intros f Hin. destruct (Hf f Hin) as [Hge Hlen].
    rewrite Forall_forall in Hne. destruct (Hne f Hin) as [Hn|]; [|right; lia].
    destruct (decide (at_ e = at_ f)); [congruence|right; lia].
Qed.

Lemma separated_ordered len edits : Forall (fun e => 0 <= at_ e /\ 0 <= del e /\ at_ e + del e <= len) edits ->
  StronglySorted ends_before edits -> forall c prev, Forall (fun e => c <= at_ e /\ prev <> Some (at_ e)) edits ->
  ordered c prev len edits = true.
Proof.
  intros Hb Hs. induction Hs as [|e edits Hs IH Hf]; intros c prev Hc; [done|]. inversion Hb as [|? ? He Hb']; subst.
  inversion Hc as [|? ? [H1 H2] _]; subst. cbn [ordered]. rewrite !andb_true_iff, !Z.leb_le, negb_true_iff, bool_decide_eq_false.
  split_and!; [done|done|lia|]. apply IH; [done|]. eapply Forall_impl; [exact Hf|]. intros f [Hlt Hle]. split; [done|].
  intros [= E]. lia.
Qed.

(** Edits in the order of [sort_by_key], strictly. *)
Definition edit_lt (e f : Edit) : Prop :=
  at_ e < at_ f \/ (at_ e = at_ f /\ (del e < del f \/ (del e = del f /\ bytes_cmp (ins e) (ins f) = Lt))).

Lemma edit_le_lt e f : edit_le e f <-> e = f \/ edit_lt e f.
Proof.
  unfold edit_le, edit_lt. destruct e as [a d i], f as [a' d' i']; cbn [at_ del ins]. split.
  - intros [|[-> [|[-> Hc]]]]; auto. destruct (bytes_cmp i i') eqn:E; [apply bytes_cmp_eq in E as ->; by left|right; auto|done].
  - intros [[= -> -> ->]|[|[-> [|[-> Hc]]]]]; auto.
    + right. split; [done|]. right. split; [done|]. by rewrite bytes_cmp_refl.
    + right. split; [done|]. right. split; [done|]. by rewrite Hc.
Qed.

#[global] Instance edit_lt_trans : Transitive edit_lt.
Proof.
  intros [a d i] [a' d' i'] [a'' d'' i'']; unfold edit_lt; cbn [at_ del ins].
  intros [|[-> [|[-> H1]]]] [|[-> [|[-> H2]]]]; try lia. right. split; [done|]. right. split; [done|].
  by eapply bytes_cmp_trans.
Qed.

#[global] Instance edit_lt_irrefl : Irreflexive edit_lt.
Proof. intros [a d i]; unfold complement, edit_lt; cbn [at_ del ins]. rewrite bytes_cmp_refl. intros [|[_ [|[_ ?]]]]; [lia|lia|done]. Qed.

#[global] Instance edit_le_trans : Transitive edit_le.
Proof. intros e f g. rewrite !edit_le_lt. intros [->|H1] [->|H2]; auto. right. by etrans. Qed.

#[global] Instance edit_le_total : Total edit_le.
Proof.
  intros [a d i] [a' d' i']. unfold edit_le; cbn [at_ del ins].
  destruct (Z.lt_total a a') as [|[->|]]; auto. destruct (Z.lt_total d d') as [|[->|]]; auto.
  rewrite (bytes_cmp_antisym i i'). destruct (bytes_cmp i i'); simpl; [left|left|right]; auto.
Qed.

Lemma dedup_after_edits e l : StronglySorted edit_le (e :: l) ->
  StronglySorted edit_lt (e :: dedup_after (fun e f => bool_decide (e = f)) e l) /\
  forall f, f ∈ e :: dedup_after (fun e f => bool_decide (e = f)) e l <-> f ∈ e :: l.
Proof.
  revert e. induction l as [|g l IH]; intros e Hs; cbn [dedup_after]; [split; [by repeat constructor|done]|].
  inversion Hs as [|? ? Hs' Hf]; subst. inversion Hf as [|? ? Hle Hf']; subst.
  case_bool_decide as E.
  - subst g. destruct (IH e Hs') as [Hi Hm]. split; [done|]. intros f. rewrite Hm. set_solver.
  - destruct (IH g Hs') as [Hi Hm]. split; [|intros f; rewrite elem_of_cons, Hm; set_solver].
    constructor; [done|]. apply Forall_forall. intros f Hx. apply Hm in Hx.
    assert (Heg : edit_lt e g) by (apply edit_le_lt in Hle as [->|]; done).
    apply elem_of_cons in Hx as [->|Hx]; [done|]. inversion Hs' as [|? ? _ Hg]; subst. rewrite Forall_forall in Hg.
    specialize (Hg f Hx). apply edit_le_lt in Hg as [->|]; [done|by etrans].
Qed.

Lemma join_edits_spec E : StronglySorted edit_lt (join_edits E) /\ forall e, e ∈ join_edits E <-> e ∈ E.
Proof.
  unfold join_edits. pose proof (StronglySorted_merge_sort edit_le E) as Hs. pose proof (merge_sort_Permutation edit_le E) as Hp.
  destruct (merge_sort edit_le E) as [|e l]; cbn [dedup_by].
  - split; [constructor|]. intros e. by rewrite <- Hp.
  - destruct (dedup_after_edits e l Hs) as [H1 H2]. split; [done|]. intros f. by rewrite H2, Hp.
Qed.

(** The joined list depends only on the set of edits. *)
Lemma join_edits_ext E E' : (forall e, e ∈ E <-> e ∈ E') -> join_edits E = join_edits E'.
Proof.
  intros H. destruct (join_edits_spec E) as [S1 M1], (join_edits_spec E') as [S2 M2].
  apply (sorted_ext edit_lt); [done|done|]. intros e. rewrite M1, M2. apply H.
Qed.

(** Edits that do not conflict are separated. *)
Lemma no_conflict_separated e f : u32_edit e -> u32_edit f -> at_ f + del f < 2 ^ 32 -> at_ e + del e < 2 ^ 32 ->
  edits_conflict e f = false -> e = f \/ ends_before e f \/ ends_before f e.
Proof.
  intros [[? ?] [? ?]] [[? ?] [? ?]] Hf He. unfold edits_conflict, saturating_add, ends_before. case_bool_decide; [by left|].
  destruct (Z.eqb_spec (at_ e) (at_ f)); [done|].
  destruct (Z.eqb_spec (del e) 0); [rewrite andb_false_iff, !Z.ltb_ge; lia|].
  destruct (Z.eqb_spec (del f) 0); rewrite andb_false_iff, !Z.ltb_ge; lia.
Qed.

Lemma sorted_pair {A} (R : A -> A -> Prop) l : StronglySorted R l -> forall i j x y, l !! i = Some x -> l !! j = Some y -> (i < j)%nat -> R x y.
Proof.
  induction 1 as [|z l _ IH Hf]; intros [|i] [|j] x y Ei Ej Hlt; try done; try lia; simpl in Ei, Ej.
  - injection Ei as <-. rewrite Forall_lookup in Hf. by eapply Hf.
  - apply (IH i j); [done|done|lia].
Qed.

(** Sorted edits that are pairwise separated are separated in order. *)
Lemma sorted_separated E : StronglySorted edit_lt E ->
  (forall e f, e ∈ E -> f ∈ E -> e = f \/ ends_before e f \/ ends_before f e) -> StronglySorted ends_before E.
Proof.
  induction 1 as [|e E Hs IH Hf]; intros Hsep; constructor; [apply IH; intros; apply Hsep; by right|].
  rewrite Forall_forall in Hf |- *. intros f Hin. specialize (Hf f Hin).
  destruct (Hsep e f ltac:(by left) ltac:(by right)) as [->|[?|[Hlt _]]]; [by destruct (irreflexivity edit_lt f Hf)|done|].
  exfalso. destruct Hf as [|[? _]]; lia.
Qed.

Lemma sorted_impl {A} (R R' : A -> A -> Prop) l : (forall x y, R x y -> R' x y) -> StronglySorted R l -> StronglySorted R' l.
Proof. intros H. induction 1 as [|x l _ IH Hf]; constructor; [done|]. eapply Forall_impl; [exact Hf|]. intros y. apply H. Qed.

(** An accepted list is already joined. *)
Lemma join_edits_id c prev len E : Forall u32_edit E -> ordered c prev len E = true -> join_edits E = E.
Proof.
  intros HU Ho. destruct (ordered_separated _ _ HU _ _ Ho) as (Hs & _). destruct (join_edits_spec E) as [S1 M1].
  apply (sorted_ext edit_lt); [done| |done]. eapply sorted_impl; [|exact Hs]. intros e f [Hlt _]. by left.
Qed.

(** [C24] The edits of two sides that do not conflict merge: joined as
    [compose_shell] joins them, two accepted edit lists without a pair in
    conflict make a list that [apply_edits] accepts, with exactly the edits of
    both sides, whichever side is taken first; joined with nothing or with
    itself a side's result is unchanged. *)
Theorem independent_edits_merge old E1 E2 new1 new2 :
  Forall u32_edit E1 -> Forall u32_edit E2 -> Z.of_nat (length old) < 2 ^ 32 ->
  apply_edits old E1 = inl new1 -> apply_edits old E2 = inl new2 ->
  (forall e f, e ∈ E1 -> f ∈ E2 -> edits_conflict e f = false) ->
  let E := join_edits (E1 ++ E2) in
  (exists merged, apply_edits old E = inl merged) /\ (forall e, e ∈ E <-> e ∈ E1 \/ e ∈ E2) /\
  join_edits (E2 ++ E1) = E /\
  apply_edits old (join_edits (E1 ++ [])) = inl new1 /\ apply_edits old (join_edits (E1 ++ E1)) = inl new1.
Proof.
  intros U1 U2 Hl A1 A2 Hnc E. apply (apply_edits_accepts old E1 new1 U1) in A1 as [O1 ->].
  apply (apply_edits_accepts old E2 new2 U2) in A2 as [O2 ->].
  destruct (join_edits_spec (E1 ++ E2)) as [Hs Hm]. fold E in Hs, Hm.
  assert (Hmem : forall e, e ∈ E <-> e ∈ E1 \/ e ∈ E2) by (intros e; by rewrite Hm, elem_of_app).
  assert (HU : Forall u32_edit E).
  { apply Forall_forall. intros e He. rewrite Forall_forall in U1, U2. destruct (proj1 (Hmem e) He); auto. }
  assert (Hself : forall E0, (forall e, e ∈ E0 <-> e ∈ E1) -> apply_edits old (join_edits E0) = inl (splice E1 old)).
  { intros E0 H0. rewrite (join_edits_ext E0 E1 H0), (join_edits_id _ _ _ _ U1 O1). by apply apply_edits_ordered. }
  split_and!; [|done|apply join_edits_ext; set_solver|apply Hself; set_solver|apply Hself; set_solver].
  exists (splice E old). apply apply_edits_ordered; [done|].
  destruct (ordered_separated _ _ U1 _ _ O1) as (S1 & B1 & _). destruct (ordered_separated _ _ U2 _ _ O2) as (S2 & B2 & _).
  rewrite Forall_forall in B1, B2. rewrite Forall_forall in HU.
  assert (HB : forall e, e ∈ E -> 0 <= at_ e /\ at_ e + del e <= Z.of_nat (length old)).
  { intros e He. destruct (proj1 (Hmem e) He) as [H|H]; [apply (B1 e H)|apply (B2 e H)]. }
  apply separated_ordered; [| |].
  - apply Forall_forall. intros e He. destruct (HU e He) as [_ [? _]]. specialize (HB e He). lia.
  - apply (sorted_separated E Hs). intros e f He Hf.
    assert (Hsep : forall E0, StronglySorted ends_before E0 -> e ∈ E0 -> f ∈ E0 -> e = f \/ ends_before e f \/ ends_before f e).
    { intros E0 H0 He0 Hf0. apply list_elem_of_lookup in He0 as [i Ei]. apply list_elem_of_lookup in Hf0 as [j Ej].
      destruct (lt_eq_lt_dec i j) as [[Hij| ->]|Hij].
      - right. left. by eapply (sorted_pair ends_before E0 H0 i j).
      - left. congruence.
      - right. right. by eapply (sorted_pair ends_before E0 H0 j i). }
    pose proof (HB e He). pose proof (HB f Hf).
    destruct (proj1 (Hmem e) He) as [He1|He2], (proj1 (Hmem f) Hf) as [Hf1|Hf2]; [exact (Hsep E1 S1 He1 Hf1)| | |exact (Hsep E2 S2 He2 Hf2)].
    + apply no_conflict_separated; auto; lia.
    + destruct (no_conflict_separated f e) as [?|[?|?]]; auto; lia.
  - apply Forall_forall. intros e He. split; [|done]. apply HB, He.
Qed.

Lemma independent_edits_merge_witness :
  let old := [97; 32; 98; 32; 99] in
  let E := join_edits ([mkEdit 0 1 [120]] ++ [mkEdit 4 1 [121; 122]; mkEdit 5 0 [33]]) in
  (exists merged, apply_edits old E = inl merged) /\ apply_edits old E = inl [120; 32; 98; 32; 121; 122; 33].
Proof.
  intros old E. split; [|vm_compute; reflexivity].
  apply (independent_edits_merge old [mkEdit 0 1 [120]] [mkEdit 4 1 [121; 122]; mkEdit 5 0 [33]]
    [120; 32; 98; 32; 99] [97; 32; 98; 32; 121; 122; 33]).
  - repeat constructor; done.
  - repeat constructor; done.
  - done.
  - vm_compute; reflexivity.
  - vm_compute; reflexivity.
  - intros e f He Hf. apply list_elem_of_singleton in He as ->.
    apply elem_of_cons in Hf as [->|Hf%list_elem_of_singleton]; [|subst f]; vm_compute; reflexivity.
Defined.
