(* ===== verification/RunLaws.v ===== *)
(** * Formatting runs as functions of position

    Canonical runs are determined by the attributes they show at each point
    ([canon_unique]); merging proposals builds the canonical runs of the merged
    attributes ([merge_run_proposals_at]).  Hence merging a single proposal, or
    none, returns it. *)

From Stdlib Require Import String.
From S2P Require Import Prelude DiffBase TextDiff DiffTree Compose.

Section runs.
Context {Value : Type} `{!EqDecision Value}.
Abbreviation run := (@Run (Attrs Value)).
Abbreviation attrs_map := (Attrs Value).

(** Runs in order from [lo] on; [a] are the attributes that end at [lo]. *)
Fixpoint canon (lo : Z) (a : attrs_map) (runs : list run) : Prop :=
  match runs with
  | [] => True
  | r :: runs' =>
      lo <= run_start r < run_end r /\ run_attrs r <> ∅ /\ ~ (run_start r = lo /\ run_attrs r = a) /\
      canon (run_end r) (run_attrs r) runs'
  end.

(** Where the runs end, and the attributes there. *)
Definition tail_of (lo : Z) (a : attrs_map) (runs : list run) : Z * attrs_map :=
  match last runs with Some r => (run_end r, run_attrs r) | None => (lo, a) end.

Lemma tail_cons lo a r runs : tail_of lo a (r :: runs) = tail_of (run_end r) (run_attrs r) runs.
Proof. unfold tail_of. destruct runs as [|r' runs]; [done|]. rewrite last_cons_cons. by destruct (last (r' :: runs)) eqn:E; [|apply last_None in E]. Qed.

Lemma canon_snoc lo a runs r : canon lo a (runs ++ [r]) <->
  canon lo a runs /\ (tail_of lo a runs).1 <= run_start r < run_end r /\ run_attrs r <> ∅ /\
  ~ (run_start r = (tail_of lo a runs).1 /\ run_attrs r = (tail_of lo a runs).2).
Proof.
  revert lo a. induction runs as [|r' runs IH]; intros lo a; cbn [app canon].
  - unfold tail_of. simpl. tauto.
  - rewrite IH, tail_cons. tauto.
Qed.

Lemma tail_ge lo a runs : canon lo a runs -> lo <= (tail_of lo a runs).1.
Proof.
  revert lo a. induction runs as [|r runs IH]; intros lo a; [unfold tail_of; simpl; lia|]. rewrite tail_cons.
  intros (? & _ & _ & H%IH). lia.
Qed.

Lemma canon_ends lo a runs : canon lo a runs ->
  Forall (fun r => lo <= run_start r /\ run_start r < run_end r <= (tail_of lo a runs).1) runs.
Proof.
  revert lo a. induction runs as [|r runs IH]; intros lo a; [by constructor|]. rewrite tail_cons.
  intros (Hr & _ & _ & H). pose proof (tail_ge _ _ _ H). constructor; [lia|].
  eapply Forall_impl; [by apply IH|]. simpl. lia.
Qed.

(** ** Attributes at a point *)

Lemma attrs_at_cons (r : run) runs p :
  attrs_at (r :: runs) p = if p <? run_end r then if run_start r <=? p then run_attrs r else ∅ else attrs_at runs p.
Proof.
  unfold attrs_at. cbn [list_find]. destruct (decide (p < run_end r)) as [H|H].
  - destruct (Z.ltb_spec p (run_end r)); [done|lia].
  - destruct (Z.ltb_spec p (run_end r)); [lia|]. destruct (list_find _ runs) as [[i r']|]; done.
Qed.

Lemma attrs_at_low lo a runs p : canon lo a runs -> p < lo -> attrs_at runs p = ∅.
Proof.
  destruct runs as [|r runs]; [done|]. intros (Hr & _) Hp. rewrite attrs_at_cons.
  destruct (Z.ltb_spec p (run_end r)); [|lia]. by destruct (Z.leb_spec (run_start r) p); [lia|].
Qed.

(** Just past a run its attributes change. *)
Lemma attrs_at_next lo a runs : canon lo a runs -> a <> ∅ -> attrs_at runs lo <> a.
Proof.
  destruct runs as [|r runs]; [done|]. intros (Hr & Hne & Hd & _) Ha. rewrite attrs_at_cons.
  destruct (Z.ltb_spec lo (run_end r)); [|lia]. destruct (Z.leb_spec (run_start r) lo); [|congruence].
  intros E. apply Hd. split; [lia|done].
Qed.

(** Canonical runs with the same attributes everywhere are the same. *)
Lemma canon_unique_from runs : forall lo a a' runs', canon lo a runs -> canon lo a' runs' ->
  (forall p, lo <= p -> attrs_at runs p = attrs_at runs' p) -> runs = runs'.
Proof.
  assert (Hhead : forall lo a (r : run) runs, canon lo a (r :: runs) -> attrs_at (r :: runs) (run_start r) = run_attrs r).
  { intros lo a r rs (Hr & _). rewrite attrs_at_cons. destruct (Z.ltb_spec (run_start r) (run_end r)); [|lia].
    by destruct (Z.leb_spec (run_start r) (run_start r)); [|lia]. }
  assert (Hbelow : forall lo a (r : run) runs p, canon lo a (r :: runs) -> p < run_start r -> attrs_at (r :: runs) p = ∅).
  { intros lo a r rs p (Hr & _) Hp. rewrite attrs_at_cons. destruct (Z.ltb_spec p (run_end r)); [|lia].
    by destruct (Z.leb_spec (run_start r) p); [lia|]. }
  induction runs as [|r runs IH]; intros lo a a' [|r' runs'] Hc Hc' Heq; [done| | |].
  - exfalso. pose proof (Hhead _ _ _ _ Hc') as H. destruct Hc' as (Hr & Hne & _). rewrite <- Heq in H by lia. done.
  - exfalso. pose proof (Hhead _ _ _ _ Hc) as H. destruct Hc as (Hr & Hne & _). rewrite Heq in H by lia. done.
  - pose proof (Hhead _ _ _ _ Hc) as H1. pose proof (Hhead _ _ _ _ Hc') as H2.
    pose proof (Hbelow _ _ _ _ (run_start r) Hc') as L1. pose proof (Hbelow _ _ _ _ (run_start r') Hc) as L2.
    destruct Hc as (Hr & Hne & _ & Hc), Hc' as (Hr' & Hne' & _ & Hc').
    assert (Es : run_start r = run_start r').
    { destruct (Z.lt_total (run_start r) (run_start r')) as [Hlt|[|Hlt]]; [exfalso|done|exfalso].
      - specialize (L1 Hlt). rewrite <- Heq, H1 in L1 by lia. done.
      - specialize (L2 Hlt). rewrite Heq, H2 in L2 by lia. done. }
    assert (Ea : run_attrs r = run_attrs r') by (rewrite <- H1, <- H2, Heq, Es by lia; done).
    pose proof (attrs_at_next _ _ _ Hc Hne) as N1. pose proof (attrs_at_next _ _ _ Hc' Hne') as N2.
    assert (Ee : run_end r = run_end r').
    { destruct (Z.lt_total (run_end r) (run_end r')) as [Hlt|[|Hlt]]; [exfalso|done|exfalso].
      - pose proof (Heq (run_end r) ltac:(lia)) as E. rewrite !attrs_at_cons, Z.ltb_irrefl in E.
        destruct (Z.ltb_spec (run_end r) (run_end r')); [|lia]. destruct (Z.leb_spec (run_start r') (run_end r)); [|lia]. congruence.
      - pose proof (Heq (run_end r') ltac:(lia)) as E. rewrite !attrs_at_cons, Z.ltb_irrefl in E.
        destruct (Z.ltb_spec (run_end r') (run_end r)); [|lia]. destruct (Z.leb_spec (run_start r) (run_end r')); [|lia]. congruence. }
    f_equal; [destruct r, r'; simpl in *; congruence|]. rewrite <- Ee in Hc'. eapply (IH (run_end r)); [exact Hc|exact Hc'|].
    intros p Hp. pose proof (Heq p ltac:(lia)) as E. rewrite !attrs_at_cons, <- Ee in E.
    by destruct (Z.ltb_spec p (run_end r)); [lia|].
Qed.

Lemma canon_unique lo runs runs' : canon lo ∅ runs -> canon lo ∅ runs' -> (forall p, attrs_at runs p = attrs_at runs' p) -> runs = runs'.
Proof. intros H1 H2 H. by eapply canon_unique_from. Qed.

(** ** Appending runs *)

Lemma attrs_at_snoc runs (r : run) p : Forall (fun r' => run_end r' <= run_start r) runs -> run_start r < run_end r ->
  attrs_at (runs ++ [r]) p = if (run_start r <=? p) && (p <? run_end r) then run_attrs r else attrs_at runs p.
Proof.
  intros Hf Hr. induction Hf as [|r' runs Hr' _ IH]; cbn [app].
  - rewrite attrs_at_cons. destruct (Z.ltb_spec p (run_end r)), (Z.leb_spec (run_start r) p); done.
  - rewrite !attrs_at_cons, IH. destruct (Z.ltb_spec p (run_end r')); [|done].
    destruct (Z.leb_spec (run_start r) p); [lia|done].
Qed.

Lemma push_run_at lo runs (r : run) : canon lo ∅ runs -> (tail_of lo ∅ runs).1 <= run_start r < run_end r -> run_attrs r <> ∅ ->
  canon lo ∅ (push_run runs r) /\ tail_of lo ∅ (push_run runs r) = (run_end r, run_attrs r) /\
  forall p, attrs_at (push_run runs r) p = if (run_start r <=? p) && (p <? run_end r) then run_attrs r else attrs_at runs p.
Proof.
  intros Hc Hr Hne. pose proof (canon_ends _ _ _ Hc) as Hends.
  assert (Hplain : run_start r <> (tail_of lo ∅ runs).1 \/ run_attrs r <> (tail_of lo ∅ runs).2 ->
    canon lo ∅ (runs ++ [r]) /\ tail_of lo ∅ (runs ++ [r]) = (run_end r, run_attrs r) /\
    forall p, attrs_at (runs ++ [r]) p = if (run_start r <=? p) && (p <? run_end r) then run_attrs r else attrs_at runs p).
  { intros Hd. split_and!.
    - apply canon_snoc. split_and!; [done|lia|lia|done|]. intros [? ?]. destruct Hd; done.
    - unfold tail_of. by rewrite last_snoc.
    - intros p. apply attrs_at_snoc; [|lia]. eapply Forall_impl; [exact Hends|]. simpl. lia. }
  unfold push_run. destruct (last runs) as [l|] eqn:El.
  - assert (Et : tail_of lo ∅ runs = (run_end l, run_attrs l)) by (unfold tail_of; by rewrite El).
    rewrite Et in *. cbn [fst snd] in *. destruct (Z.eqb_spec (run_end l) (run_start r)) as [Ee|Ee]; cbn [andb]; [|by apply Hplain; left].
    case_bool_decide as Ea; [|apply Hplain; right; congruence].
    apply last_Some in El as [init ->]. rewrite length_app, Nat.add_sub, take_app_length. cbn [length].
    apply canon_snoc in Hc as (Hi & Hl & Hnl & Hdl). pose proof (canon_ends _ _ _ Hi) as Hiends.
    assert (Hib : Forall (fun r' => run_end r' <= run_start l) init) by (eapply Forall_impl; [exact Hiends|]; simpl; lia).
    split_and!.
    + apply canon_snoc. cbn [run_start run_end run_attrs]. split_and!; [done|lia|lia|done|done].
    + unfold tail_of. rewrite last_snoc. simpl. by rewrite Ea.
    + intros p. rewrite !attrs_at_snoc by (cbn [run_start run_end]; done || lia). cbn [run_start run_end run_attrs].
      destruct (Z.leb_spec (run_start l) p), (Z.ltb_spec p (run_end r)), (Z.ltb_spec p (run_end l)), (Z.leb_spec (run_start r) p);
        cbn [andb]; try done; try lia; congruence.
  - apply last_None in El as ->. apply Hplain. right. unfold tail_of. simpl. congruence.
Qed.

(** ** Merging over windows *)

(** Adjacent windows from [lo] to [hi]. *)
Fixpoint adjacent (lo hi : Z) (ws : list (Z * Z)) : Prop :=
  match ws with
  | [] => lo = hi
  | (s, e) :: ws' => s = lo /\ s < e /\ adjacent e hi ws'
  end.

Lemma adjacent_le ws : forall lo hi, adjacent lo hi ws -> lo <= hi.
Proof. induction ws as [|[s e] ws IH]; intros lo hi; simpl; [lia|]. intros (-> & ? & ?%IH). lia. Qed.

Lemma attrs_at_high runs p : Forall (fun r : run => run_end r <= p) runs -> attrs_at runs p = ∅.
Proof. induction 1 as [|r runs Hr _ IH]; [done|]. rewrite attrs_at_cons. by destruct (Z.ltb_spec p (run_end r)); [lia|]. Qed.

(** The attributes one window gets. *)
Definition merged_at (base : list run) (proposals : list (list run)) (s : Z) : option attrs_map :=
  match collect_deltas (attrs_at base s) ((fun runs => attrs_at runs s) <$> proposals) ∅ with
  | Some d => Some (apply_deltas (attrs_at base s) d)
  | None => None
  end.

(** Merging gives canonical runs that show, in every window, the merged attributes. *)
Lemma merge_windows_at base proposals (f : Z -> attrs_map) lo0 ws : forall lo hi out, adjacent lo hi ws -> 
  (forall s e, (s, e) ∈ ws -> forall p, s <= p < e -> merged_at base proposals s = Some (f p)) ->
  canon lo0 ∅ out -> (tail_of lo0 ∅ out).1 <= lo -> 
  exists out', merge_windows base proposals ws out = Some out' /\ canon lo0 ∅ out' /\
    forall p, attrs_at out' p = if (lo <=? p) && (p <? hi) then f p else attrs_at out p.
Proof.
  induction ws as [|[s e] ws IH]; intros lo hi out Ha Hf Hc Ht; cbn [merge_windows].
  - simpl in Ha. subst hi. exists out. split_and!; [done|done|]. intros p.
    destruct (Z.leb_spec lo p), (Z.ltb_spec p lo); try done; lia.
  - destruct Ha as (-> & Hse & Ha). pose proof (Hf lo e ltac:(by left) lo ltac:(lia)) as Hm. unfold merged_at in Hm.
    destruct (collect_deltas _ _ _) as [d|]; [|done]. injection Hm as Em.
    assert (Hconst : forall p, lo <= p < e -> f p = f lo).
    { intros p Hp. pose proof (Hf lo e ltac:(by left) p Hp) as H1. pose proof (Hf lo e ltac:(by left) lo ltac:(lia)) as H2. congruence. }
    assert (Hf' : forall s0 e0, (s0, e0) ∈ ws -> forall p, s0 <= p < e0 -> merged_at base proposals s0 = Some (f p)).
    { intros s0 e0 Hin. apply (Hf s0 e0). by right. }
    pose proof (adjacent_le _ _ _ Ha) as Hehi. rewrite Em. destruct (decide (f lo = ∅)) as [E0|Hne].
    + destruct (IH e hi out Ha Hf' Hc ltac:(lia)) as (out' & -> & Hc' & Hat). exists out'. split_and!; [done|done|].
      intros p. rewrite Hat. destruct (decide (lo <= p < e)) as [Hp|].
      * replace (e <=? p) with false by lia. replace (lo <=? p) with true by lia. replace (p <? hi) with true by lia. cbn [andb].
        rewrite (Hconst p), E0 by lia. apply attrs_at_high. eapply Forall_impl; [by apply canon_ends|]. simpl. lia.
      * replace (e <=? p) with (lo <=? p) by lia. done.
    + destruct (push_run_at lo0 out (mkRun lo e (f lo)) Hc ltac:(cbn [run_start run_end]; lia) Hne) as (Hc1 & Ht1 & Hat1).
      destruct (IH e hi _ Ha Hf' Hc1 ltac:(rewrite Ht1; simpl; lia)) as (out' & -> & Hc' & Hat). exists out'. split_and!; [done|done|].
      intros p. rewrite Hat, Hat1. cbn [run_start run_end run_attrs]. destruct (decide (lo <= p < e)) as [Hp|].
      * replace (e <=? p) with false by lia. replace (lo <=? p) with true by lia. replace (p <? hi) with true by lia.
        replace (p <? e) with true by lia. cbn [andb]. symmetry. apply Hconst. lia.
      * replace ((lo <=? p) && (p <? e)) with false by lia. replace (e <=? p) with (lo <=? p) by lia. done.
Qed.

(** ** Boundaries *)

Lemma boundaries_spec (runs : list run) : StronglySorted Z.lt (boundaries runs) /\
  forall q, q ∈ boundaries runs <-> exists r, r ∈ runs /\ (q = run_start r \/ q = run_end r).
Proof.
  unfold boundaries. set (S0 := list_to_set _ : gset Z).
  pose proof (StronglySorted_merge_sort Z.le (elements S0)) as Hs. pose proof (merge_sort_Permutation Z.le (elements S0)) as Hp.
  split.
  - assert (Hn : NoDup (merge_sort Z.le (elements S0))) by (rewrite Hp; apply NoDup_elements).
    revert Hs Hn. generalize (merge_sort Z.le (elements S0)). intros l Hs Hn. induction Hs as [|x l _ IH Hf]; [constructor|].
    inversion Hn as [|? ? Hx Hn']; subst. constructor; [by apply IH|]. rewrite Forall_forall in Hf |- *. intros y Hy.
    specialize (Hf y Hy). assert (x <> y) by (intros ->; done). lia.
  - intros q. rewrite Hp, elem_of_elements. unfold S0. rewrite elem_of_list_to_set, list_elem_of_In, in_flat_map.
    setoid_rewrite <- list_elem_of_In. split.
    + intros (r & Hr & Hq). exists r. split; [done|]. set_solver.
    + intros (r & Hr & Hq). exists r. split; [done|]. set_solver.
Qed.

(** Consecutive points make adjacent windows without a point inside. *)
Lemma windows_spec points : StronglySorted Z.lt points -> forall lo, head points = Some lo ->
  exists hi, last points = Some hi /\ adjacent lo hi (windows points) /\
    forall s e, (s, e) ∈ windows points -> s < e /\ forall q, q ∈ points -> q <= s \/ e <= q.
Proof.
  induction 1 as [|p l Hs IH Hf]; intros lo Hh; [done|]. injection Hh as <-. destruct l as [|q l].
  - exists p. split_and!; [done|done|]. by intros s e ?%not_elem_of_nil.
  - destruct (IH q eq_refl) as (hi & El & Ha & Hw). exists hi. inversion Hf as [|? ? Hpq Hf']; subst.
    inversion Hs as [|? ? _ Hq]; subst. rewrite Forall_forall in Hq, Hf'. split_and!.
    + by rewrite last_cons_cons.
    + simpl. split_and!; [done|done|exact Ha].
    + intros s e [[= -> ->]|Hin]%elem_of_cons.
      * split; [done|]. intros r [->|[->|Hr]%elem_of_cons]%elem_of_cons; [lia|lia|]. specialize (Hq r Hr). lia.
      * destruct (Hw s e Hin) as [Hse Hr]. split; [done|]. intros r [->|Hin']%elem_of_cons; [|by apply Hr].
        left. assert (q <= s).
        { destruct (Hr q) as [|He]; [by left|done|]. assert (Hs' : s ∈ q :: l).
          { clear -Hin. revert q Hin. induction l as [|q' l IHl]; intros q; [by intros ?%not_elem_of_nil|].
            intros [[= -> ->]|Hin]%elem_of_cons; [by left|right; by apply (IHl q')]. }
          apply elem_of_cons in Hs' as [->|Hs']; [done|]. specialize (Hq s Hs'). lia. }
        lia.
Qed.

(** Attributes do not change inside a window. *)
Lemma attrs_at_window (runs : list run) s e p : (forall r, r ∈ runs -> (run_start r <= s \/ e <= run_start r) /\ (run_end r <= s \/ e <= run_end r)) ->
  s <= p < e -> attrs_at runs p = attrs_at runs s.
Proof.
  intros Hr Hp. induction runs as [|r runs IH]; [done|]. rewrite !attrs_at_cons, IH by (intros; apply Hr; by right).
  destruct (Hr r ltac:(by left)). replace (p <? run_end r) with (s <? run_end r) by lia.
  by replace (run_start r <=? p) with (run_start r <=? s) by lia.
Qed.

(** Outside their boundaries runs show nothing. *)
Lemma attrs_at_outside (runs : list run) lo hi p : (forall r, r ∈ runs -> lo <= run_start r /\ run_end r <= hi) ->
  ~ (lo <= p < hi) -> attrs_at runs p = ∅.
Proof.
  intros Hr Hp. induction runs as [|r runs IH]; [done|]. rewrite attrs_at_cons, IH by (intros; apply Hr; by right).
  destruct (Hr r ltac:(by left)). destruct (Z.ltb_spec p (run_end r)); [|done]. by destruct (Z.leb_spec (run_start r) p); [lia|].
Qed.

(** Proposals that keep the original change nothing. *)
Lemma add_deltas_same (a : attrs_map) keys d : add_deltas a a keys d = Some d.
Proof. induction keys as [|k keys IH]; [done|]. simpl. by rewrite decide_True by done. Qed.

Lemma collect_deltas_same (a : attrs_map) ps d : Forall (eq a) ps -> collect_deltas a ps d = Some d.
Proof. induction 1 as [|p ps <- _ IH]; [done|]. cbn [collect_deltas]. by rewrite add_deltas_same. Qed.

Lemma apply_deltas_empty (a : attrs_map) : apply_deltas a ∅ = a.
Proof. unfold apply_deltas. by rewrite map_to_list_empty. Qed.

(** Where everything shows the same, so does the merge. *)
Lemma merged_at_same base proposals p a : (forall runs, runs ∈ base :: proposals -> attrs_at runs p = a) ->
  merged_at base proposals p = Some a.
Proof.
  intros H. unfold merged_at. rewrite (H base) by (by left). rewrite collect_deltas_same, apply_deltas_empty; [done|].
  apply Forall_forall. intros x (runs & -> & Hin)%list_elem_of_fmap. symmetry. apply H. by right.
Qed.

(** The merge at a point depends on what is shown there. *)
Lemma merged_at_ext base proposals p q : (forall runs, runs ∈ base :: proposals -> attrs_at runs p = attrs_at runs q) ->
  merged_at base proposals p = merged_at base proposals q.
Proof.
  intros H. unfold merged_at. rewrite (H base) by (by left).
  replace ((fun runs => attrs_at runs p) <$> proposals) with ((fun runs => attrs_at runs q) <$> proposals); [done|].
  apply list_fmap_ext. intros i runs Hi. symmetry. apply H. right. by eapply list_elem_of_lookup_2.
Qed.

Lemma sorted_range l lo hi q : StronglySorted Z.lt l -> head l = Some lo -> last l = Some hi -> q ∈ l -> lo <= q <= hi.
Proof.
  intros Hs Eh El Hq. split.
  - destruct l as [|p0 l]; [done|]. injection Eh as ->. inversion Hs as [|? ? Hs0 Hf0]; subst.
    apply elem_of_cons in Hq as [->|Hq]; [lia|]. rewrite Forall_forall in Hf0. specialize (Hf0 q Hq). lia.
  - clear Eh. apply last_Some in El as [init ->]. apply elem_of_app in Hq as [Hq| ->%list_elem_of_singleton]; [|lia].
    induction init as [|x init IH]; [by apply not_elem_of_nil in Hq|]. inversion Hs as [|? ? Hs' Hf]; subst.
    apply elem_of_cons in Hq as [->|Hq]; [|by apply IH]. rewrite Forall_forall in Hf. specialize (Hf hi ltac:(set_solver)). lia.
Qed.

(** Merging shows at every point the merge of what base and proposals show there. *)
Lemma merge_run_proposals_at base proposals (f : Z -> attrs_map) lo0 :
  (forall p, merged_at base proposals p = Some (f p)) -> (forall r, r ∈ base ++ concat proposals -> lo0 <= run_start r < run_end r) ->
  exists out, merge_run_proposals base proposals = Some out /\ canon lo0 ∅ out /\ forall p, attrs_at out p = f p.
Proof.
  intros Hf Hlo. unfold merge_run_proposals. destruct (boundaries_spec (base ++ concat proposals)) as [Hs Hb].
  set (pts := boundaries (base ++ concat proposals)) in *.
  assert (Hsub : forall runs r, runs ∈ base :: proposals -> r ∈ runs -> run_start r ∈ pts /\ run_end r ∈ pts).
  { intros runs r Hin Hr. assert (Hr' : r ∈ base ++ concat proposals).
    { apply elem_of_app. apply elem_of_cons in Hin as [->|Hin]; [by left|right]. apply list_elem_of_In, in_concat.
      exists runs. split; by apply list_elem_of_In. }
    split; apply Hb; exists r; auto. }
  destruct (head pts) as [lo|] eqn:Eh.
  - destruct (windows_spec pts Hs lo Eh) as (hi & El & Ha & Hw). pose proof (fun q => sorted_range pts lo hi q Hs Eh El) as Hrange.
    assert (Hlo0 : lo0 <= lo).
    { destruct (proj1 (Hb lo)) as (r & Hr & Hq); [by apply head_Some_elem_of|]. specialize (Hlo r Hr). lia. }
    destruct (merge_windows_at base proposals f lo0 (windows pts) lo hi []) as (out & -> & Hc & Hat); [done| |done|done|].
    { intros s e Hin p Hp. rewrite <- Hf. apply merged_at_ext. intros runs Hruns. symmetry. apply (attrs_at_window runs s e); [|done].
      intros r Hr. destruct (Hsub runs r Hruns Hr), (Hw s e Hin) as [_ Hq]. split; by apply Hq. }
    exists out. split_and!; [done|done|]. intros p. rewrite Hat. destruct (decide (lo <= p < hi)) as [Hp|Hp].
    + by replace ((lo <=? p) && (p <? hi)) with true by lia.
    + replace ((lo <=? p) && (p <? hi)) with false by lia. apply (inj Some). rewrite <- Hf. symmetry. apply merged_at_same.
      intros runs Hruns. apply (attrs_at_outside runs lo hi); [|done]. intros r Hr.
      destruct (Hsub runs r Hruns Hr) as [?%Hrange ?%Hrange]. lia.
  - apply head_None in Eh. rewrite Eh. exists []. split_and!; [done|done|]. intros p. apply (inj Some). rewrite <- Hf.
    symmetry. apply merged_at_same. intros runs Hruns. destruct runs as [|r runs]; [done|]. exfalso.
    destruct (Hsub (r :: runs) r Hruns) as [H _]; [by left|]. rewrite Eh in H. by apply not_elem_of_nil in H.
Qed.

(** ** One proposal, none, and no edits *)

(** Changes of the listed keys are collected. *)
Lemma add_deltas_keys (o p : attrs_map) keys : forall d, (forall k v, d !! k = Some v -> v = p !! k) ->
  exists d', add_deltas o p keys d = Some d' /\
    forall k, d' !! k = if bool_decide (k ∈ keys /\ o !! k <> p !! k) then Some (p !! k) else d !! k.
Proof.
  induction keys as [|k0 keys IH]; intros d Hd; cbn [add_deltas].
  - exists d. split; [done|]. intros k. rewrite bool_decide_eq_false_2; [done|]. by intros [?%not_elem_of_nil _].
  - destruct (decide (o !! k0 = p !! k0)) as [E|E].
    + destruct (IH d Hd) as (d' & -> & Hk). exists d'. split; [done|]. intros k. rewrite Hk.
      rewrite (bool_decide_ext _ (k ∈ k0 :: keys /\ o !! k <> p !! k)); [done|]. rewrite elem_of_cons. split; [tauto|].
      intros [[->|?] ?]; [done|tauto].
    + assert (Hd' : forall k v, <[k0 := p !! k0]> d !! k = Some v -> v = p !! k).
      { intros k v. rewrite lookup_insert_Some. intros [[-> <-]|[_ H]]; [done|by apply Hd]. }
      destruct (IH _ Hd') as (d' & Ed' & Hk). exists d'. split.
      { destruct (d !! k0) as [prev|] eqn:Ek; [|exact Ed']. rewrite decide_True by (by apply Hd). exact Ed'. }
      intros k. rewrite Hk. destruct (decide (k = k0)) as [->|Hne].
      * rewrite lookup_insert_eq, (bool_decide_eq_true_2 (k0 ∈ k0 :: keys /\ _)) by (split; [by left|done]). by destruct (bool_decide _).
      * rewrite lookup_insert_ne by done. rewrite (bool_decide_ext _ (k ∈ k0 :: keys /\ o !! k <> p !! k)); [done|].
        rewrite elem_of_cons. split; [tauto|]. intros [[->|?] ?]; [done|tauto].
Qed.

Lemma keys_of_covers (o p : attrs_map) k : o !! k <> p !! k -> k ∈ keys_of o p.
Proof.
  intros H. unfold keys_of. rewrite elem_of_app, !list_elem_of_fmap. destruct (o !! k) as [v|] eqn:Eo.
  - left. exists (k, v). split; [done|]. by apply (elem_of_map_to_list (M := gmap (list Z))).

  - destruct (p !! k) as [v|] eqn:Ep; [|done]. right. exists (k, v). split; [done|]. by apply (elem_of_map_to_list (M := gmap (list Z))).

Qed.

(** Each key gets its last change. *)
Lemma apply_deltas_lookup (a : attrs_map) d k : apply_deltas a d !! k = match d !! k with Some v => v | None => a !! k end.
Proof.
  unfold apply_deltas. rewrite <- (list_to_map_to_list d) at 2. pose proof (NoDup_fst_map_to_list d) as Hn.
  revert Hn a. generalize (map_to_list d). intros l. induction l as [|[k0 v0] l IH]; intros Hn a; [done|].
  inversion Hn as [|? ? Hk0 Hn']; subst. cbn [fold_left list_to_map]. rewrite IH by done. cbn [list_to_map foldr fst snd].
  destruct (decide (k = k0)) as [->|Hne].
  - rewrite lookup_insert_eq. rewrite (not_elem_of_list_to_map_1 l k0) by done. destruct v0; [apply (lookup_insert_eq (M := gmap (list Z)))|apply (lookup_delete_eq (M := gmap (list Z)))].
  - rewrite lookup_insert_ne by done. destruct (list_to_map l !! k); [done|]. destruct v0; [by apply (lookup_insert_ne (M := gmap (list Z)))|by apply (lookup_delete_ne (M := gmap (list Z)))].
Qed.

(** The changes from [o] to [p], applied to [o], give [p]. *)
Lemma deltas_reach (o p : attrs_map) : exists d, add_deltas o p (keys_of o p) ∅ = Some d /\ apply_deltas o d = p.
Proof.
  destruct (add_deltas_keys o p (keys_of o p) ∅) as (d & E & Hk); [by intros k v; rewrite lookup_empty|].
  exists d. split; [done|]. apply (map_eq (M := gmap (list Z))). intros k. rewrite apply_deltas_lookup, Hk, lookup_empty.
  case_bool_decide as H; [done|]. destruct (decide (o !! k = p !! k)); [done|]. exfalso. apply H. split; [by apply keys_of_covers|done].
Qed.

Lemma canon_starts lo a runs : canon lo a runs -> forall r, r ∈ runs -> lo <= run_start r < run_end r.
Proof. intros H%canon_ends r Hr. rewrite Forall_forall in H. specialize (H r Hr). lia. Qed.

(** A single proposal is what merging gives. *)
Lemma merge_single base p lo : Forall (fun r => lo <= run_start r < run_end r) base -> canon lo ∅ p -> merge_run_proposals base [p] = Some p.
Proof.
  intros Hb Hp. destruct (merge_run_proposals_at base [p] (attrs_at p) lo) as (out & -> & Hc & Hat).
  - intros q. unfold merged_at. cbn [fmap list_fmap collect_deltas]. destruct (deltas_reach (attrs_at base q) (attrs_at p q)) as (d & -> & ->). done.
  - cbn [concat]. rewrite app_nil_r. rewrite Forall_forall in Hb. intros r [H|H]%elem_of_app; [by apply Hb|by apply (canon_starts lo ∅ p)].
  - f_equal. by apply (canon_unique lo).
Qed.

(** Without a proposal the base stays. *)
Lemma merge_none base lo : canon lo ∅ base -> merge_run_proposals base [] = Some base.
Proof.
  intros Hb. destruct (merge_run_proposals_at base [] (attrs_at base) lo) as (out & -> & Hc & Hat).
  - intros q. unfold merged_at. cbn [fmap list_fmap collect_deltas]. by rewrite apply_deltas_empty.
  - cbn [concat]. rewrite app_nil_r. by apply (canon_starts lo ∅).
  - f_equal. by apply (canon_unique lo).
Qed.

(** Without edits runs stay. *)
Lemma project_runs_nil runs : canon 0 ∅ runs -> Forall (fun r => run_end r < 2 ^ 32) runs -> project_runs runs [] = inl runs.
Proof.
  unfold project_runs. intros Hc Hf. change runs with ([] ++ runs) in Hc. change (inl runs) with (inl ([] ++ runs) : list run + string).
  revert Hc. generalize (@nil run) as out. induction Hf as [|r runs Hr _ IH]; intros out Hc; cbn [project_runs_loop].
  { by rewrite app_nil_r. }
  rewrite cons_middle, app_assoc in Hc.
  assert (Hcr : canon 0 ∅ (out ++ [r])).
  { clear IH. induction runs as [|r' runs IHr] using rev_ind; [by rewrite app_nil_r in Hc|]. rewrite app_assoc in Hc. by apply canon_snoc in Hc as [? _]; auto. }
  pose proof (canon_starts 0 ∅ _ Hcr r ltac:(set_solver)) as Hs. unfold project_point. cbn [project_loop]. rewrite !Z.add_0_r.
  replace ((0 <=? run_start r) && (run_start r <? 2 ^ 32)) with true by lia.
  replace ((0 <=? run_end r) && (run_end r <? 2 ^ 32)) with true by lia. replace (run_end r <=? run_start r) with false by lia.
  replace (push_run out _) with (out ++ [r]).
  { rewrite IH by done. by rewrite <- app_assoc. }
  destruct r as [s e a]; cbn [run_start run_end run_attrs] in *. unfold push_run. destruct (last out) as [l|] eqn:El; [|done].
  apply canon_snoc in Hcr as (_ & _ & _ & Hd). unfold tail_of in Hd. rewrite El in Hd. cbn [fst snd run_start run_end run_attrs] in *.
  destruct (Z.eqb_spec (run_end l) s); cbn [andb]; [|done]. case_bool_decide; [|done]. exfalso. apply Hd. split; [lia|congruence].
Qed.

(** Projected runs are not empty. *)
Lemma push_run_starts lo out r : Forall (fun r : run => lo <= run_start r < run_end r) out -> lo <= run_start r < run_end r ->
  Forall (fun r : run => lo <= run_start r < run_end r) (push_run out r).
Proof.
  intros Ho Hr. unfold push_run. destruct (last out) as [l|] eqn:El; [|apply Forall_app_2; auto].
  destruct (Z.eqb_spec (run_end l) (run_start r)); cbn [andb]; [|apply Forall_app_2; auto].
  case_bool_decide; [|apply Forall_app_2; auto]. apply last_Some in El as [init ->]. rewrite length_app, Nat.add_sub, take_app_length.
  apply Forall_app in Ho as [Hi Hl]. rewrite Forall_singleton in Hl. apply Forall_app_2; [done|]. constructor; [|done]. simpl. lia.
Qed.

Lemma project_point_nonneg p b E q : project_point p b E = inl q -> 0 <= q.
Proof. unfold project_point. destruct (project_loop _ _ _ _); [|done]. destruct ((0 <=? p + z) && _) eqn:E'; [|done]. intros [= <-]. lia. Qed.

Lemma project_runs_starts runs E out : project_runs runs E = inl out -> Forall (fun r : run => 0 <= run_start r < run_end r) out.
Proof.
  unfold project_runs. assert (H : Forall (fun r : run => 0 <= run_start r < run_end r) []) by constructor. revert H.
  generalize (@nil run) as acc. induction runs as [|r runs IH]; intros acc Ha; cbn [project_runs_loop]; [by intros [= <-]|].
  destruct (project_point (run_start r) true E) as [s|] eqn:Es; [|done]. destruct (project_point (run_end r) false E) as [e|] eqn:Ee; [|done].
  apply IH. destruct (Z.leb_spec e s); [done|]. apply push_run_starts; [done|]. simpl. apply project_point_nonneg in Es. lia.
Qed.

End runs.
