(* ===== verification/ShellLaws.v ===== *)
(** * Composing the changes of one comparison

    For a node both versions have, a comparison emits a change of the attributes
    and a change of the text or its formatting.  Composing them on the old shell
    gives the new one ([compose_target]). *)

From Stdlib Require Import String.
From S2P Require Import Prelude DiffBase Myers MyersRun TextDiff TextLaws DiffTree Compose ComposeLaws RunLaws.

(** Every edit a diff returns has [u32] fields. *)
Lemma gap_edits_u32 a b ua ub l : forall pa pb E E', Forall u32_edit E -> gap_edits a b ua ub l pa pb E = Ret E' -> Forall u32_edit E'.
Proof.
  induction l as [|[x y] l IH]; intros pa pb E E' HE; cbn [gap_edits]; [by intros [= <-]|].
  destruct (_ || _); cbn [rust_bind].
  - destruct (slice_idx b pb _) as [i|]; [|done]. cbn [rust_bind]. apply IH. apply Forall_app_2; [done|]. constructor; [|done].
    split; cbn [at_ del]; apply Z.mod_pos_bound; lia.
  - by apply IH.
Qed.

Lemma full_edit_u32 old new : Forall u32_edit (full_edit old new).
Proof. constructor; [|done]. split; cbn [at_ del]; [done|]. apply Z.mod_pos_bound. lia. Qed.

Lemma diff_text_bounded_u32 old new level budget cancel n E n' :
  diff_text_bounded old new level budget cancel n = Ret (inl E, n') -> Forall u32_edit E.
Proof.
  unfold diff_text_bounded, d_bind, d_check. destruct (check cancel n) as [[]|]; [|done].
  destruct (_ <? _); [done|]. destruct (_ <? _); [done|]. destruct (decide _); [by intros [= <- _]|].
  destruct (_ || _); [intros [= <- _]; apply full_edit_u32|]. destruct (check cancel (S n)) as [[]|]; [|done].
  destruct (matching_units _ _ _ _ _ _ _) as [[[[l|]|] n1]|]; try done; [|intros [= <- _]; apply full_edit_u32].
  unfold d_lift. destruct (gap_edits _ _ _ _ _ _ _ _) as [E'|] eqn:Eg; [|done]. intros [= <- _]. by eapply gap_edits_u32.
Qed.

Section shells.
Context {Value : Type} `{!EqDecision Value}.
Context (is_boolean is_string is_object is_array : Value -> bool).
Abbreviation run := (@Run (Attrs Value)).
Abbreviation shell := (@Shell Value).
Abbreviation op := (@Op Value).
Abbreviation validate_runs := (validate_runs is_boolean is_string).
Abbreviation validate_payload := (validate_payload is_boolean is_string is_object is_array).
Abbreviation compose_shell := (compose_shell is_boolean is_string is_object is_array).

(** ** Valid shells *)

(** Runs as [Tree::from_json] accepts them; offsets are [u32]s. *)
Definition runs_ok (x : text) (runs : list run) : Prop :=
  validate_runs runs x = inl tt /\ Forall (fun r => 0 <= run_start r) runs.

Definition shell_ok (s : shell) : Prop :=
  scalar_attrs is_object is_array (sh_attrs s) = inl tt /\ is_leaf (sh_kind s) = bool_decide (is_Some (sh_text s)) /\
  match sh_text s with Some t => runs_ok (tx t) (tf t) | None => True end.

Lemma runs_valid_canon len runs : forall p lo a, runs_valid is_boolean is_string len p runs = true ->
  match p with Some p => run_end p = lo /\ run_attrs p = a | None => lo <= 0 /\ a = ∅ end ->
  Forall (fun r => 0 <= run_start r) runs -> canon lo a runs /\ Forall (fun r => run_end r <= len) runs.
Proof.
  induction runs as [|r runs IH]; intros p lo a Hv Hp Hf; [by split|]. inversion Hf as [|? ? H0 Hf']; subst. cbn [runs_valid] in Hv.
  destruct (_ || _) eqn:Ec in Hv; [done|]. rewrite !orb_false_iff, Z.leb_gt, Z.ltb_ge in Ec. destruct Ec as (((Hse & Hle) & Hinv) & Hprev).
  destruct (IH (Some r) (run_end r) (run_attrs r) Hv ltac:(done) Hf') as [Hc He]. split; [|by constructor].
  assert (Hne : run_attrs r <> ∅).
  { intros E. unfold invalid_attrs in Hinv. by rewrite bool_decide_eq_true_2 in Hinv by done. }
  cbn [canon]. destruct p as [p|].
  - destruct Hp as [<- <-]. apply orb_false_iff in Hprev as [Hs%Z.ltb_ge Hm]. split_and!; [done|done|done| |done].
    intros [E1 E2]. rewrite E1, Z.eqb_refl, bool_decide_eq_true_2 in Hm by done. done.
  - destruct Hp as [Hlo ->]. split_and!; [lia|done|done| |done]. by intros [_ E].
Qed.

Lemma runs_ok_canon x runs : runs_ok x runs -> canon 0 ∅ runs /\ Forall (fun r => run_end r < 2 ^ 32) runs.
Proof.
  intros [Hv Hf]. unfold Compose.validate_runs in Hv. destruct (Z.leb_spec (2 ^ 32) (Z.of_nat (length x))) as [|Hl]; [done|].
  destruct (runs_valid _ _ _ _ _) eqn:E; [|done]. destruct (runs_valid_canon _ _ None 0 ∅ E ltac:(done) Hf) as [Hc He]. split; [done|].
  eapply Forall_impl; [exact He|]. simpl. lia.
Qed.

(** ** The changes of a node *)

(** The changes a comparison emits for a node both versions have: [edits] is
    the text diff. *)
Definition node_changes (n : NodeRef) (w t : shell) (edits : list Edit) : list op :=
  (if decide (sh_attrs w = sh_attrs t) then [] else [OpAttrs n (sh_attrs w) (sh_attrs t)]) ++
  match sh_text w, sh_text t with
  | Some x, Some y =>
      if decide (tx x = tx y) then if decide (tf x = tf y) then [] else [OpFormat n (tf x) (tf y)]
      else [OpModify n edits x y]
  | _, _ => []
  end.

Lemma node_changes_valid n w t edits : shell_ok w -> shell_ok t -> sh_kind w = sh_kind t ->
  forall o, o ∈ node_changes n w t edits -> validate_payload o w = inl tt.
Proof.
  intros (Aw & Kw & Tw) (At & Kt & Tt) Hk o. unfold node_changes. rewrite elem_of_app. intros [Ho|Ho].
  - destruct (decide _); [by apply not_elem_of_nil in Ho|]. apply list_elem_of_singleton in Ho as ->. simpl. rewrite Aw. simpl. by rewrite At.
  - destruct (sh_text w) as [x|] eqn:Ew, (sh_text t) as [y|] eqn:Et; try (by apply not_elem_of_nil in Ho).
    destruct Tw as [Vw _], Tt as [Vt _]. destruct (decide (tx x = tx y)) as [Ex|Ex].
    + destruct (decide _); [by apply not_elem_of_nil in Ho|]. apply list_elem_of_singleton in Ho as ->. cbn [Compose.validate_payload].
      rewrite Ew, Vw. simpl. by rewrite Ex.
    + apply list_elem_of_singleton in Ho as ->. cbn [Compose.validate_payload]. rewrite Kw, bool_decide_eq_true_2 by done. simpl. rewrite Vw. simpl. done.
Qed.

Lemma validate_all_ok (w : shell) ops : (forall o, o ∈ ops -> validate_payload o w = inl tt) ->
  validate_all is_boolean is_string is_object is_array ops w = inl tt.
Proof.
  induction ops as [|o ops IH]; intros H; [done|]. cbn [validate_all]. rewrite (H o) by (by left). simpl. apply IH. intros o' Ho'. apply H. by right.
Qed.

(** The edits a node's changes carry. *)
Definition edits_between (x y : text) (edits : list Edit) : Prop := Forall u32_edit edits /\ apply_edits x edits = inl y.

Lemma external_own edits own cids : (forall e, e ∈ edits -> e ∈ own) -> external_edits edits own cids = inl [].
Proof.
  induction edits as [|e edits IH]; intros H; [done|]. cbn [external_edits]. rewrite bool_decide_eq_true_2 by (apply H; by left).
  apply IH. intros f Hf. apply H. by right.
Qed.

Lemma collect_changes_app (w : shell) cids ops ops' st :
  collect_changes w cids (ops ++ ops') st = p_bind (collect_changes w cids ops st) (collect_changes w cids ops').
Proof. revert st. induction ops as [|o ops IH]; intros st; [done|]. cbn [app collect_changes]. destruct (collect_change _ _ _ _) as [st'|]; [apply IH|done]. Qed.

(** The attribute change is collected. *)
Lemma collect_attrs n (w t : shell) cids :
  exists d, collect_changes w cids (if decide (sh_attrs w = sh_attrs t) then [] else [OpAttrs n (sh_attrs w) (sh_attrs t)]) (mkC [] [] ∅) =
    inl (mkC [] [] d) /\ apply_deltas (sh_attrs w) d = sh_attrs t.
Proof.
  destruct (decide _) as [E|E]; [exists ∅; by rewrite apply_deltas_empty|].
  destruct (deltas_reach (sh_attrs w) (sh_attrs t)) as (d & Ed & Ha). exists d. split; [|done]. cbn [collect_changes collect_change].
  rewrite bool_decide_eq_true_2 by done. cbn [negb cs_attrs cs_edits cs_fmt]. by rewrite Ed.
Qed.

(** New formatting on an unchanged text. *)
Lemma compose_format (x : Text Value) f cids d : runs_ok (tx x) (tf x) -> runs_ok (tx x) f ->
  compose_text (Some x) cids (mkC [] [(f, [], true)] d) = inl (Some (mkText (tx x) f)).
Proof.
  intros [Cx Ex]%runs_ok_canon [Cf Ef]%runs_ok_canon. unfold compose_text. change (join_edits _) with (@nil Edit). cbn [p_bind cs_fmt proposals_of external_edits].
  rewrite (project_runs_nil f Cf Ef). cbn [p_bind]. rewrite (project_runs_nil (tf x) Cx Ex).
  rewrite (merge_single (tf x) f 0); [done| |done]. apply Forall_forall. by apply (canon_starts 0 ∅).
Qed.

(** New text: the proposal is the new formatting unless projecting the old one
    already gives it. *)
Lemma compose_modify (x y : Text Value) edits cids d : edits_between (tx x) (tx y) edits -> tx x <> tx y ->
  runs_ok (tx y) (tf y) ->
  compose_text (Some x) cids
    (mkC edits [(tf y, edits, match project_runs (tf x) edits with inl f => negb (bool_decide (f = tf y)) | inr _ => true end)] d) =
    inl (Some y).
Proof.
  intros [HU Ha] Hne [Cy Ey]%runs_ok_canon. unfold compose_text. cbn [cs_edits cs_fmt].
  destruct (apply_edits_accepts _ _ _ HU Ha) as [Ho _]. rewrite (join_edits_id _ _ _ _ HU Ho).
  destruct edits as [|e0 edits0] eqn:Ee; [by injection Ha|]. rewrite <- Ee in *. rewrite Ha. cbn [p_bind proposals_of].
  destruct (project_runs (tf x) edits) as [f|] eqn:Ep.
  - case_bool_decide as Ef; cbn [negb].
    + subst f. cbn [p_bind]. rewrite (merge_none _ 0 Cy). simpl. by destruct y.
    + rewrite external_own by done. cbn [p_bind]. rewrite (project_runs_nil (tf y) Cy Ey). cbn [p_bind].
      rewrite (merge_single f (tf y) 0); [simpl; by destruct y|by eapply project_runs_starts|done].
  - rewrite external_own by done. cbn [p_bind]. rewrite (project_runs_nil (tf y) Cy Ey). cbn [p_bind].
    rewrite (merge_single [] (tf y) 0); [simpl; by destruct y|done|done].
Qed.

(** Composing the changes of a node gives the node of the target. *)
Lemma compose_target n (w t : shell) edits cs : shell_ok w -> shell_ok t -> sh_kind w = sh_kind t ->
  (forall x y, sh_text w = Some x -> sh_text t = Some y -> tx x <> tx y -> edits_between (tx x) (tx y) edits) ->
  c_op <$> cs = node_changes n w t edits -> compose_shell w cs = inl t.
Proof.
  intros Hw Ht Hk He Ecs. unfold Compose.compose_shell. rewrite Ecs, (validate_all_ok w) by (by apply node_changes_valid).
  cbn [p_bind]. unfold node_changes. rewrite collect_changes_app. destruct (collect_attrs n w t (c_id <$> cs)) as (d & -> & Hd). cbn [p_bind].
  destruct w as [kw aw tw], t as [kt at' tt']. cbn [sh_kind sh_attrs sh_text] in *. subst kt. destruct Hw as (_ & Kw & Tw), Ht as (_ & Kt & Tt).
  cbn [sh_kind sh_attrs sh_text] in *.
  destruct tw as [x|], tt' as [y|]; [| | |by rewrite <- Hd].
  - destruct (decide (tx x = tx y)) as [Ex|Ex].
    + destruct (decide (tf x = tf y)) as [Ef|Ef].
      * cbn [collect_changes p_bind]. change (compose_text (Some x) _ _) with (inl (Some x) : pres (option (Text Value))). cbn [p_bind cs_attrs]. rewrite Hd. destruct x, y; simpl in *; congruence.
      * cbn [collect_changes collect_change sh_text]. rewrite bool_decide_eq_true_2 by done. cbn [negb p_bind cs_edits cs_fmt cs_attrs app].
        rewrite <- Ex in Tt. rewrite compose_format by done. cbn [p_bind cs_attrs]. rewrite Hd, Ex. by destruct y.
    + pose proof (He x y eq_refl eq_refl Ex) as HE. destruct HE as [HU Ha]. cbn [collect_changes collect_change sh_text].
      rewrite bool_decide_eq_true_2 by done. rewrite Ha, bool_decide_eq_true_2 by done. cbn [negb orb p_bind cs_edits cs_fmt cs_attrs app].
      rewrite compose_modify by (done || by split). cbn [p_bind cs_attrs]. by rewrite Hd.
  - exfalso. rewrite Kw in Kt. by rewrite bool_decide_eq_true_2, bool_decide_eq_false_2 in Kt by (done || by intros []).
  - exfalso. rewrite Kw in Kt. by rewrite bool_decide_eq_false_2, bool_decide_eq_true_2 in Kt by (done || by intros []).
Qed.

End shells.
