(* ===== verification/Classify.v ===== *)
(** * Classification of a correspondence

    Crate [marekvs-diff], [classify.rs]: which matched nodes moved (a longest
    increasing subsequence of each child list stays), and the raw operations
    between two trees. *)

From S2P Require Import Prelude DiffBase TextDiff DiffTree LisSuffix Compose.

Inductive Raw :=
  | RMove (a b : nat) | RDelete (a : nat) | RInsert (b : nat)
  | RModify (a b : nat) | RFormat (a b : nat) | RAttrs (a b : nat).

Section classify.
Context {Value : Type} `{!EqDecision Value}.
Abbreviation tree := (Tree Value).

(** [for (i, &c) in n.children.iter().enumerate() { ord[c] = i; }] *)
Fixpoint set_ords (cs : list nat) (i : nat) (ord : list nat) : rust (list nat) :=
  match cs with
  | [] => Ret ord
  | c :: cs' => let! ord := set_idx ord (Z.of_nat c) i in set_ords cs' (S i) ord
  end.

Fixpoint ord_loop (ns : list (Node Value)) (ord : list nat) : rust (list nat) :=
  match ns with
  | [] => Ret ord
  | n :: ns' => let! ord := set_ords (children n) 0 ord in ord_loop ns' ord
  end.

(** The position of every node among its siblings. *)
Definition ordinals (t : tree) : rust (list nat) := ord_loop (nodes t) (replicate (length (nodes t)) 0%nat).

(** [kids]: the children that stay below the image of their parent, with the
    positions of their images. *)
Fixpoint kids_of (b : tree) (m : Matching) (ord : list nat) (bi : nat) (cs : list nat) : rust (list (nat * nat)) :=
  match cs with
  | [] => Ret []
  | c :: cs' =>
      match a2b m c with
      | Some bc =>
          let! k := node b bc in
          if decide (parent k = Some bi) then
            let! o := at_idx ord (Z.of_nat bc) in
            let! l := kids_of b m ord bi cs' in
            Ret ((c, o) :: l)
          else kids_of b m ord bi cs'
      | None => kids_of b m ord bi cs'
      end
  end.

(** [for x in l { moved[x] = v; }] *)
Fixpoint set_flags (l : list nat) (v : bool) (moved : list bool) : rust (list bool) :=
  match l with
  | [] => Ret moved
  | x :: l' => let! moved := set_idx moved (Z.of_nat x) v in set_flags l' v moved
  end.

(** [kids[i].0] for the positions that stay. *)
Fixpoint stay_ids (kids : list (nat * nat)) (stays : list nat) : rust (list nat) :=
  match stays with
  | [] => Ret []
  | i :: stays' =>
      let! k := at_idx kids (Z.of_nat i) in
      let! l := stay_ids kids stays' in
      Ret (k.1 :: l)
  end.

(** The iteration of the first loop over the nodes of [a]. *)
Definition moved_step (a b : tree) (m : Matching) (ord : list nat) (ai : nat) (n : Node Value) (moved : list bool) : rust (list bool) :=
  match a2b m ai with
  | None => Ret moved
  | Some bi =>
      let! k := node b bi in
      let! moved :=
        if negb (ai =? root a)%nat && negb (bool_decide ((parent n ≫= a2b m) = parent k))
        then set_idx moved (Z.of_nat ai) true else Ret moved in
      let! kids := kids_of b m ord bi (children n) in
      let! stays := classify_lis kids.*2 in
      let! moved := set_flags kids.*1 true moved in
      let! l := stay_ids kids stays in
      set_flags l false moved
  end.

Fixpoint moved_loop (a b : tree) (m : Matching) (ord : list nat) (ai : nat) (ns : list (Node Value)) (moved : list bool) : rust (list bool) :=
  match ns with
  | [] => Ret moved
  | n :: ns' =>
      let! moved := moved_step a b m ord ai n moved in
      moved_loop a b m ord (S ai) ns' moved
  end.

(** The operations of one node of [a]. *)
Definition raw_node (a b : tree) (m : Matching) (moved : list bool) (ai : nat) (n : Node Value) : rust (list Raw) :=
  match a2b m ai with
  | Some bi =>
      let! bn := node b bi in
      let! mv := at_idx moved (Z.of_nat ai) in
      Ret ((if mv : bool then [RMove ai bi] else []) ++
           (if decide (attrs n = attrs bn) then [] else [RAttrs ai bi]) ++
           match ntext n, ntext bn with
           | Some x, Some y =>
               if decide (tx x = tx y) then if decide (tf x = tf y) then [] else [RFormat ai bi] else [RModify ai bi]
           | _, _ => []
           end)
  | None =>
      Ret (if negb (ai =? root a)%nat && match parent n with None => true | Some p => bool_decide (is_Some (a2b m p)) end
           then [RDelete ai] else [])
  end.

Fixpoint raw_loop (a b : tree) (m : Matching) (moved : list bool) (ai : nat) (ns : list (Node Value)) : rust (list Raw) :=
  match ns with
  | [] => Ret []
  | n :: ns' =>
      let! r := raw_node a b m moved ai n in
      let! l := raw_loop a b m moved (S ai) ns' in
      Ret (r ++ l)
  end.

Definition raw_inserts (b : tree) (m : Matching) : list Raw :=
  RInsert <$> filter (fun bi => bi <> root b /\ b2a m bi = None) (seq 0 (length (nodes b))).

(** [classify::run]. *)
Definition classify_run (a b : tree) (m : Matching) : rust (list Raw) :=
  let! ord := ordinals b in
  let! moved := moved_loop a b m ord 0 (nodes a) (replicate (length (nodes a)) false) in
  let! l := raw_loop a b m moved 0 (nodes a) in
  Ret (l ++ raw_inserts b m).

End classify.
