(* ===== verification/ClassifyLaws.v ===== *)
(** * What classification keeps in place

    For well-formed documents and a one-to-one correspondence [classify_run]
    never panics.  A matched node it does not move stays below the image of its
    parent, and the nodes that stay below one parent keep their order. *)

From S2P Require Import Prelude DiffBase TextDiff Lis LisSuffix DiffTree TreeLaws Compose Classify.

Section classify_laws.
Context {Value : Type} `{!EqDecision Value}.
Abbreviation tree := (Tree Value).

(** ** Documents

    As [Tree::from_json] stores them: parents and child lists agree, only the
    root has no parent, siblings are stored in order. *)
Record links_ok (t : tree) : Prop := {
  lk_wf : tree_wf t;
  lk_parent : forall x n p, nodes t !! x = Some n -> parent n = Some p -> exists pn, nodes t !! p = Some pn /\ x ∈ children pn;
  lk_child : forall p pn c, nodes t !! p = Some pn -> c ∈ children pn -> exists n, nodes t !! c = Some n /\ parent n = Some p;
  lk_root : forall x n, nodes t !! x = Some n -> parent n = None <-> x = root t;
  lk_order : forall x n, nodes t !! x = Some n -> increasing (children n) }.

(** ** Positions among siblings *)

Lemma set_idx_ret {A} (l : list A) x v : (x < length l)%nat -> set_idx l (Z.of_nat x) v = Ret (<[x := v]> l).
Proof. intros H. unfold set_idx. destruct (Z.ltb_spec (Z.of_nat x) 0); [lia|]. rewrite Nat2Z.id. by destruct (Nat.ltb_spec x (length l)); [|lia]. Qed.

Lemma set_ords_spec cs : forall i ord, NoDup cs -> Forall (fun c => c < length ord)%nat cs ->
  exists ord', set_ords cs i ord = Ret ord' /\ length ord' = length ord /\
    (forall j c, cs !! j = Some c -> ord' !! c = Some (i + j)%nat) /\ (forall c, c ∉ cs -> ord' !! c = ord !! c).
Proof.
  induction cs as [|c cs IH]; intros i ord Hn Hf; cbn [set_ords]; [by exists ord|].
  inversion Hn as [|? ? Hc Hn']; subst. inversion Hf as [|? ? Hlt Hf']; subst. rewrite set_idx_ret by done. cbn [rust_bind].
  destruct (IH (S i) (<[c := i]> ord) Hn') as (ord' & -> & Hl & Hj & Ho); [by rewrite length_insert|].
  exists ord'. rewrite length_insert in Hl. split_and!; [done|done| |].
  - intros [|j] c' E; simpl in E; [|rewrite (Hj j c' E); f_equal; lia]. injection E as <-.
    rewrite Ho by done. rewrite list_lookup_insert_eq by done. f_equal. lia.
  - intros c' [Hne Hnot]%not_elem_of_cons. rewrite Ho by done. by rewrite list_lookup_insert_ne by done.
Qed.

(** [ord] gives every child its position. *)
Definition is_ord (t : tree) (ord : list nat) : Prop :=
  length ord = length (nodes t) /\ forall p pn i c, nodes t !! p = Some pn -> children pn !! i = Some c -> ord !! c = Some i.

Lemma ordinals_spec t : links_ok t -> exists ord, ordinals t = Ret ord /\ is_ord t ord.
Proof.
  intros Ht. unfold ordinals.
  assert (Hgen : forall ns k ord, ns = drop k (nodes t) -> length ord = length (nodes t) ->
    (forall p pn i c, (p < k)%nat -> nodes t !! p = Some pn -> children pn !! i = Some c -> ord !! c = Some i) ->
    exists ord', ord_loop ns ord = Ret ord' /\ is_ord t ord').
  { induction ns as [|n ns IH]; intros k ord Ens Hl Hp; cbn [ord_loop].
    - exists ord. split; [done|]. split; [done|]. intros p pn i c Ep. apply (Hp p); [|done].
      apply lookup_lt_Some in Ep. assert (length (drop k (nodes t)) = 0)%nat by (by rewrite <- Ens). rewrite length_drop in *. lia.
    - assert (En : nodes t !! k = Some n) by (rewrite <- (Nat.add_0_r k), <- lookup_drop, <- Ens; done).
      destruct (set_ords_spec (children n) 0 ord) as (ord' & -> & Hl' & Hj & Ho).
      + by apply (wf_nodup t (lk_wf t Ht) k).
      + rewrite Hl. eapply Forall_impl; [exact (wf_below t (lk_wf t Ht) k n En)|]. simpl. lia.
      + cbn [rust_bind]. apply (IH (S k)); [|lia|].
        * rewrite <- Nat.add_1_r, <- drop_drop, <- Ens. done.
        * intros p pn i c Hpk Ep Ec. destruct (decide (p = k)) as [->|Hne]; [by rewrite En in Ep; injection Ep as <-; apply Hj|].
          rewrite Ho; [apply (Hp p pn); [lia|done|done]|]. intros Hin.
          destruct (lk_child t Ht k n c En Hin) as (cn & Ecn & Hcp).
          destruct (lk_child t Ht p pn c Ep ltac:(by eapply list_elem_of_lookup_2)) as (cn' & Ecn' & Hcp'). congruence. }
  apply (Hgen (nodes t) 0%nat); [done|by rewrite length_replicate|lia].
Qed.

(** ** Flags *)

Lemma set_flags_spec l v : forall moved, Forall (fun x => x < length moved)%nat l ->
  exists moved', set_flags l v moved = Ret moved' /\ length moved' = length moved /\
    forall x, moved' !! x = if decide (x ∈ l) then Some v else moved !! x.
Proof.
  induction l as [|x l IH]; intros moved Hf; cbn [set_flags].
  - exists moved. split_and!; [done|done|]. intros x. by rewrite decide_False by apply not_elem_of_nil.
  - inversion Hf as [|? ? Hx Hf']; subst. rewrite set_idx_ret by done. cbn [rust_bind].
    destruct (IH (<[x := v]> moved)) as (moved' & -> & Hl & Hm); [by rewrite length_insert|]. rewrite length_insert in Hl.
    exists moved'. split_and!; [done|done|]. intros y. rewrite Hm. destruct (decide (y ∈ l)) as [Hin|Hin].
    + by rewrite decide_True by (by right).
    + destruct (decide (y = x)) as [->|Hne].
      * rewrite decide_True by (by left). by rewrite list_lookup_insert_eq.
      * rewrite decide_False by (intros [->|]%elem_of_cons; done). by rewrite list_lookup_insert_ne.
Qed.

Lemma stay_ids_eq kids l : Forall (fun i => i < length kids)%nat l -> stay_ids kids l = Ret (pick kids l).*1.
Proof.
  induction 1 as [|i l Hi _ IH]; cbn [stay_ids]; [done|]. destruct (lookup_lt_is_Some_2 kids i Hi) as [k Ek].
  rewrite (at_idx_eq _ _ k) by (lia || by rewrite Nat2Z.id). cbn [rust_bind]. rewrite IH. cbn [rust_bind].
  change (pick kids (i :: l)) with (match kids !! i with Some k => k :: pick kids l | None => pick kids l end). by rewrite Ek.
Qed.

Section pair.
Context (a b : tree) (m : Matching).
Hypothesis Ha : links_ok a.
Hypothesis Hb : links_ok b.
Hypothesis Hm : matching_ok a b m.
Hypothesis Hroots : a2b m (root a) = Some (root b).
Context (ord : list nat).
Hypothesis Hord : is_ord b ord.

(** [c] stays below the image [y] of its parent. *)
Definition kid (y c bc : nat) : Prop := a2b m c = Some bc /\ exists k, nodes b !! bc = Some k /\ parent k = Some y.

Lemma kids_of_spec y cs : exists kids, kids_of b m ord y cs = Ret kids /\ kids.*1 `sublist_of` cs /\
  (forall c o, (c, o) ∈ kids <-> c ∈ cs /\ exists bc, kid y c bc /\ ord !! bc = Some o).
Proof using Hb Hm Hord.
  induction cs as [|c cs IH]; cbn [kids_of].
  { exists []. split_and!; [done|done|]. intros c o. split; [by intros ?%not_elem_of_nil|]. by intros [?%not_elem_of_nil _]. }
  destruct IH as (kids & Ek & Hsub & Hkid). rewrite Ek.
  assert (Hskip : (forall bc, ~ kid y c bc) -> exists kids', Ret kids = Ret kids' /\ kids'.*1 `sublist_of` c :: cs /\
    (forall c' o, (c', o) ∈ kids' <-> c' ∈ c :: cs /\ exists bc, kid y c' bc /\ ord !! bc = Some o)).
  { intros Hno. exists kids. split_and!; [done|by constructor|]. intros c' o. rewrite Hkid, elem_of_cons. split; [intros [? ?]; auto|].
    intros [[->|?] (bc & Hk & Ho)]; [by destruct (Hno bc)|eauto]. }
  destruct (a2b m c) as [bc|] eqn:Ec; [|by apply Hskip; intros bc [? _]; congruence].
  destruct (m_kind a b m Hm c bc Ec) as (n & k & En & Ek' & _). rewrite (node_eq b bc k Ek'). cbn [rust_bind].
  destruct (decide (parent k = Some y)) as [Ep|Ep].
  2: { apply Hskip. intros bc' (E1 & k' & E2 & E3). congruence. }
  assert (Hbc : exists o, ord !! bc = Some o) by (apply lookup_lt_is_Some_2; destruct Hord as [-> _]; by apply lookup_lt_Some in Ek').
  destruct Hbc as [o Eo]. rewrite (at_idx_eq _ _ o) by (lia || by rewrite Nat2Z.id). cbn [rust_bind].
  exists ((c, o) :: kids). split_and!; [done|by constructor|]. intros c' o'. rewrite elem_of_cons, Hkid, elem_of_cons. split.
  - intros [[= -> ->]|[? ?]]; [|tauto]. split; [by left|]. exists bc. split; [|done]. split; [done|]. by exists k.
  - intros [[->|?] (bc' & Hk' & Ho')]; [left|right; eauto]. destruct Hk' as [E _]. congruence.
Qed.

(** The image of [c] when it stays below [y]. *)
Definition kid_image (y c : nat) : option nat :=
  match a2b m c with
  | Some bc => match nodes b !! bc with Some k => if decide (parent k = Some y) then Some bc else None | None => None end
  | None => None
  end.

Lemma kid_image_spec y c bc : kid_image y c = Some bc <-> kid y c bc.
Proof using Type.
  unfold kid_image, kid. split.
  - destruct (a2b m c) as [z|]; [|done]. destruct (nodes b !! z) as [k|] eqn:E; [|done]. destruct (decide _); [|done]. intros [= <-]. eauto.
  - intros (-> & k & -> & Hp). by rewrite decide_True.
Qed.

Definition stay_image (moved : list bool) (y c : nat) : option nat :=
  if decide (moved !! c = Some false) then kid_image y c else None.

(** Node [x], not the root, is not below the image of its parent. *)
Definition mismatch (x : nat) : Prop :=
  x <> root a /\ exists n y k, nodes a !! x = Some n /\ a2b m x = Some y /\ nodes b !! y = Some k /\ parent n ≫= a2b m <> parent k.

(** The flags after the nodes below [i]. *)
Record flags_ok (i : nat) (moved : list bool) : Prop := {
  fl_len : length moved = length (nodes a);
  fl_root : moved !! root a = Some false;
  fl_mismatch : forall x, (x < i)%nat -> mismatch x -> moved !! x = Some true;
  fl_stay : forall p y pn, (p < i)%nat -> a2b m p = Some y -> nodes a !! p = Some pn ->
    increasing (omap (stay_image moved y) (children pn)) }.

Lemma omap_sublist (g : nat -> option nat) l cs : l `sublist_of` cs -> NoDup cs -> (forall c, c ∈ cs -> c ∉ l -> g c = None) ->
  omap g cs = omap g l.
Proof using Type.
  induction 1 as [|x l cs _ IH|x l cs Hs IH]; intros Hn Hg; [done| |]; inversion Hn as [|? ? Hx Hn']; subst; cbn.
  - rewrite IH; [done|done|]. intros c Hc Hl. apply Hg; [by right|]. intros [->|?]%elem_of_cons; done.
  - rewrite Hg, IH; [done|done| |by left|].
    + intros c Hc Hl. apply Hg; [by right|done].
    + intros Hin. apply Hx. by eapply elem_of_submseteq; [|apply sublist_submseteq].
Qed.

Lemma kid_position y k c bc o : nodes b !! y = Some k -> kid y c bc -> ord !! bc = Some o -> children k !! o = Some bc.
Proof using Hb Hord.
  intros Ek (_ & kb & Ekb & Hp) Ho. destruct (lk_parent b Hb bc kb y Ekb Hp) as (k' & Ek' & Hin).
  assert (k' = k) by congruence. subst k'. apply list_elem_of_lookup in Hin as [i Ei].
  destruct Hord as [_ Hi]. pose proof (Hi y k i bc Ek Ei). congruence.
Qed.

Lemma stay_increasing y k (l : list (nat * nat)) : nodes b !! y = Some k -> increasing l.*2 ->
  (forall c o, (c, o) ∈ l -> exists bc, kid y c bc /\ ord !! bc = Some o) -> increasing (omap (kid_image y) l.*1).
Proof using Hb Hord.
  intros Ek. induction l as [|[c o] l IH]; intros Hi Hl; cbn; [constructor|]. inversion Hi as [|? ? Hi' Hf]; subst.
  destruct (Hl c o ltac:(by left)) as (bc & Hk & Ho). rewrite (proj2 (kid_image_spec y c bc) Hk).
  constructor; [apply IH; [done|]; intros; apply Hl; by right|]. apply Forall_forall. intros bc' Hin.
  apply list_elem_of_omap in Hin as (c' & Hc' & Ec'). apply list_elem_of_fmap in Hc' as ([c0 o'] & -> & Hin).
  destruct (Hl c0 o' ltac:(by right)) as (bc0 & Hk0 & Ho'). apply kid_image_spec in Ec'. simpl in Ec'.
  assert (bc0 = bc') as -> by (destruct Hk0 as [E _], Ec' as [E' _]; congruence).
  assert (Hlt : (o < o')%nat) by (rewrite Forall_forall in Hf; apply Hf; apply list_elem_of_fmap; by exists (c0, o')).
  eapply (increasing_lookup (children k) (lk_order b Hb y k Ek) o o'); [by eapply kid_position|by eapply kid_position|done].
Qed.

(** What one iteration writes. *)
Lemma moved_step_spec x n moved : nodes a !! x = Some n -> length moved = length (nodes a) ->
  exists moved', moved_step a b m ord x n moved = Ret moved' /\ length moved' = length (nodes a) /\
    (forall z, ~ (z = x /\ mismatch z) -> (forall y bc, a2b m x = Some y -> z ∈ children n -> ~ kid y z bc) -> moved' !! z = moved !! z) /\
    (mismatch x -> moved' !! x = Some true) /\
    (forall y, a2b m x = Some y -> increasing (omap (stay_image moved' y) (children n))).
Proof using Ha Hb Hm Hord.
  intros En Hl. pose proof (lookup_lt_Some _ _ _ En) as Hx. unfold moved_step. destruct (a2b m x) as [y|] eqn:Ex.
  2: { exists moved. split_and!; [done|done|done| |done]. intros (_ & n' & y & k & _ & E & _). congruence. }
  destruct (m_kind a b m Hm x y Ex) as (n' & k & _ & Ek & _). rewrite (node_eq b y k Ek). cbn [rust_bind].
  set (mis := negb (x =? root a)%nat && negb (bool_decide ((parent n ≫= a2b m) = parent k))).
  assert (Hmis : mis = true <-> mismatch x).
  { unfold mis, mismatch. rewrite andb_true_iff, !negb_true_iff, Nat.eqb_neq, bool_decide_eq_false. split.
    - intros [? ?]. split; [done|]. by exists n, y, k.
    - intros [? (n0 & y0 & k0 & ? & ? & ? & ?)]. split; [done|]. congruence. }
  destruct (kids_of_spec y (children n)) as (kids & Ekids & Hsub & Hkid).
  destruct (wf_children a x n (lk_wf a Ha) En) as [Hch Hclen].
  assert (Hklen : (length kids <= length (nodes a))%nat).
  { rewrite <- (length_fmap fst kids). etrans; [by apply sublist_length|done]. }
  assert (H63 : Z.of_nat (length (nodes a)) < 2 ^ 63) by (pose proof (wf_u32 a (lk_wf a Ha)); lia).
  destruct (classify_lis_spec kids.*2) as (l & El & Hinc & Hrange & Hpick & _); [rewrite length_fmap; lia|].
  rewrite length_fmap in Hrange.
  assert (Hstep : exists moved1, (if mis then set_idx moved (Z.of_nat x) true else Ret moved) = Ret moved1 /\ length moved1 = length moved /\
     forall z, moved1 !! z = if decide (z = x /\ mis = true) then Some true else moved !! z).
  { destruct mis; [rewrite set_idx_ret by lia; exists (<[x := true]> moved)|exists moved]; (split_and!; [done|by rewrite ?length_insert|]).
    - intros z. destruct (decide (z = x)) as [->|Hne].
      + rewrite decide_True by done. by rewrite list_lookup_insert_eq by lia.
      + rewrite decide_False by tauto. by rewrite list_lookup_insert_ne.
    - intros z. by rewrite decide_False by (intros [_ ?]; done). }
  destruct Hstep as (moved1 & -> & Hl1 & Hm1). cbn [rust_bind]. rewrite Ekids. cbn [rust_bind]. rewrite El. cbn [rust_bind].
  assert (Hkr : Forall (fun c => c < length (nodes a))%nat kids.*1).
  { apply Forall_forall. intros c Hc. rewrite Forall_forall in Hch. apply Hch. by eapply elem_of_submseteq; [|apply sublist_submseteq]. }
  destruct (set_flags_spec kids.*1 true moved1) as (moved2 & -> & Hl2 & Hm2); [by rewrite Hl1, Hl|]. cbn [rust_bind].
  rewrite stay_ids_eq by done. cbn [rust_bind]. destruct (pick_sublist kids l Hinc Hrange) as [Hps _].
  assert (Hss : (pick kids l).*1 `sublist_of` kids.*1) by (by apply fmap_sublist).
  destruct (set_flags_spec (pick kids l).*1 false moved2) as (moved3 & -> & Hl3 & Hm3).
  { rewrite Hl2, Hl1, Hl. apply Forall_forall. intros c Hc. rewrite Forall_forall in Hkr. apply Hkr. by eapply elem_of_submseteq; [|apply sublist_submseteq]. }
  exists moved3. split_and!; [done|lia| | |].
  - intros z Hz Hnk. rewrite Hm3, Hm2, Hm1. assert (Hnot : z ∉ kids.*1).
    { intros Hin. apply list_elem_of_fmap in Hin as ([c o] & -> & Hin). apply Hkid in Hin as [Hc (bc & Hk & _)]. by apply (Hnk y bc). }
    rewrite decide_False by (intros Hin; apply Hnot; by eapply elem_of_submseteq; [|apply sublist_submseteq]).
    rewrite (decide_False (P := z ∈ kids.*1)) by done. rewrite decide_False; [done|]. intros [-> ?%Hmis]. by apply Hz.
  - intros Hmm. rewrite Hm3, Hm2, Hm1. assert (Hnot : x ∉ kids.*1).
    { intros Hin. apply list_elem_of_fmap in Hin as ([c o] & Ec & Hin). simpl in Ec. subst c. apply Hkid in Hin as [Hc _].
      pose proof (wf_below a (lk_wf a Ha) x n En) as Hbel. rewrite Forall_forall in Hbel. specialize (Hbel x Hc). lia. }
    rewrite decide_False by (intros Hin; apply Hnot; by eapply elem_of_submseteq; [|apply sublist_submseteq]).
    rewrite (decide_False (P := x ∈ kids.*1)) by done. rewrite decide_True; [done|]. split; [done|]. by apply Hmis.
  - intros y' [= <-]. rewrite (omap_sublist (stay_image moved3 y) (pick kids l).*1); [| |by apply (wf_nodup a (lk_wf a Ha) x)|].
    + replace (omap (stay_image moved3 y) (pick kids l).*1) with (omap (kid_image y) (pick kids l).*1).
      * eapply stay_increasing; [exact Ek|by rewrite <- pick_seconds|]. intros c o Hc. apply (Hkid c o).
        by eapply elem_of_submseteq; [|apply sublist_submseteq].
      * apply list_omap_ext, Forall_Forall2_diag, Forall_forall. intros c Hc. unfold stay_image. rewrite decide_True; [done|]. by rewrite Hm3, decide_True.
    + by etrans.
    + intros c Hc Hnot. unfold stay_image. destruct (decide _) as [Hf|]; [|done]. destruct (kid_image y c) as [bc|] eqn:Ec; [|done]. exfalso.
      apply kid_image_spec in Ec. assert (Hin : c ∈ kids.*1).
      { destruct (lookup_lt_is_Some_2 ord bc) as [o Eo]; [destruct Hord as [-> _]; destruct Ec as (_ & k0 & E0 & _); by eapply lookup_lt_Some|].
        apply list_elem_of_fmap. exists (c, o). split; [done|]. apply Hkid. split; [done|]. by exists bc. }
      rewrite Hm3, decide_False, Hm2, decide_True in Hf by done. done.
Qed.

Lemma stay_image_ext moved moved' y (l : list nat) : (forall c bc, c ∈ l -> kid y c bc -> moved' !! c = moved !! c) ->
  omap (stay_image moved' y) l = omap (stay_image moved y) l.
Proof using Type.
  intros H. apply list_omap_ext, Forall_Forall2_diag, Forall_forall. intros c Hc. unfold stay_image.
  destruct (kid_image y c) as [bc|] eqn:E; [|by destruct (decide _), (decide _)]. apply kid_image_spec in E. by rewrite (H c bc).
Qed.

(** A child belongs to one parent. *)
Lemma child_parent p pn c n : nodes a !! p = Some pn -> c ∈ children pn -> nodes a !! c = Some n -> parent n = Some p.
Proof using Ha. intros Ep Hc Ec. destruct (lk_child a Ha p pn c Ep Hc) as (n' & E & Hp). congruence. Qed.

Lemma moved_step_ok x n moved : nodes a !! x = Some n -> flags_ok x moved ->
  exists moved', moved_step a b m ord x n moved = Ret moved' /\ flags_ok (S x) moved'.
Proof using Ha Hb Hm Hord Hroots.
  intros En [Hl Hr Hmm Hst]. destruct (moved_step_spec x n moved En Hl) as (moved' & -> & Hl' & Hother & Hself & Hstay).
  exists moved'. split; [done|].
  assert (Hkeep : forall p pn c, nodes a !! p = Some pn -> p <> x -> c ∈ children pn -> ~ (c = x /\ mismatch c) -> moved' !! c = moved !! c).
  { intros p pn c Ep Hne Hc Hnm. apply Hother; [done|]. intros y bc Ey Hc' _.
    destruct (lk_child a Ha p pn c Ep Hc) as (cn & Ecn & Hcp). pose proof (child_parent x n c cn En Hc' Ecn). congruence. }
  assert (Hnokid : forall z, mismatch z -> forall y bc, a2b m x = Some y -> z ∈ children n -> ~ kid y z bc).
  { intros z (_ & nz & yz & kz & Ez & Ey & Ek & Hne) y bc Ex Hc (E & k & Ekb & Hp). pose proof (child_parent x n z nz En Hc Ez) as Hpz.
    assert (bc = yz) as -> by congruence. assert (k = kz) as -> by congruence. apply Hne. rewrite Hpz, Hp. simpl. done. }
  split; [done| | |].
  - rewrite Hother; [done|by intros [_ [? _]]|]. intros y bc _ Hc _. destruct (lk_child a Ha x n _ En Hc) as (rn & Ern & Hrp).
    apply (lk_root a Ha) in Ern. rewrite (proj2 Ern eq_refl) in Hrp. done.
  - intros z Hz Hmz. destruct (decide (z = x)) as [->|Hne]; [by apply Hself|]. rewrite Hother; [by apply Hmm; [lia|]|by intros [? _]|].
    intros y bc Ey Hc. by apply Hnokid.
  - intros p y pn Hp Ey Ep. destruct (decide (p = x)) as [->|Hne].
    + rewrite En in Ep. injection Ep as <-. by apply Hstay.
    + rewrite (stay_image_ext moved); [by apply (Hst p); [lia| |]|]. intros c bc Hc Hk. apply (Hkeep p pn); [done|done|done|].
      intros [-> (_ & nz & yz & kz & Ez & Eyz & Ek & Hne')]. destruct Hk as (E & k & Ekb & Hpk).
      pose proof (child_parent p pn x nz Ep Hc Ez) as Hpz. assert (bc = yz) as -> by congruence. assert (k = kz) as -> by congruence.
      apply Hne'. rewrite Hpz, Hpk. simpl. done.
Qed.

(** All nodes. *)
Lemma moved_loop_ok : exists moved, moved_loop a b m ord 0 (nodes a) (replicate (length (nodes a)) false) = Ret moved /\
  flags_ok (length (nodes a)) moved.
Proof using Ha Hb Hm Hord Hroots.
  assert (Hgen : forall ns k moved, ns = drop k (nodes a) -> (k <= length (nodes a))%nat -> flags_ok k moved ->
    exists moved', moved_loop a b m ord k ns moved = Ret moved' /\ flags_ok (length (nodes a)) moved').
  { induction ns as [|n ns IH]; intros k moved Ens Hk Hf; cbn [moved_loop].
    - exists moved. split; [done|]. assert (length (drop k (nodes a)) = 0)%nat by (by rewrite <- Ens). rewrite length_drop in *.
      by replace (length (nodes a)) with k by lia.
    - assert (En : nodes a !! k = Some n) by (rewrite <- (Nat.add_0_r k), <- lookup_drop, <- Ens; done).
      destruct (moved_step_ok k n moved En Hf) as (moved' & -> & Hf'). cbn [rust_bind]. apply lookup_lt_Some in En.
      apply (IH (S k)); [|lia|done]. rewrite <- Nat.add_1_r, <- drop_drop, <- Ens. done. }
  apply (Hgen (nodes a) 0%nat); [done|lia|]. split; [by rewrite length_replicate| |lia|lia].
  apply lookup_replicate. split; [done|]. apply (wf_root a (lk_wf a Ha)).
Qed.

End pair.

(** ** The operations *)

(** The image of a matched child that is not moved. *)
Definition kept_image (m : Matching) (moved : list bool) (c : nat) : option nat :=
  if decide (moved !! c = Some false) then a2b m c else None.

(** What [moved] says once all nodes are classified. *)
Record moved_ok (a b : tree) (m : Matching) (moved : list bool) : Prop := {
  mv_len : length moved = length (nodes a);
  mv_root : moved !! root a = Some false;
  mv_parent : forall x n y k, nodes a !! x = Some n -> a2b m x = Some y -> nodes b !! y = Some k -> x <> root a ->
    moved !! x = Some false -> parent n ≫= a2b m = parent k;
  mv_order : forall p y pn, a2b m p = Some y -> nodes a !! p = Some pn -> increasing (omap (kept_image m moved) (children pn)) }.

Definition raws (a b : tree) (m : Matching) (moved : list bool) (x : nat) : list Raw :=
  match nodes a !! x with
  | Some n => match raw_node a b m moved x n with Ret l => l | Panic => [] end
  | None => []
  end.

Lemma raw_loop_eq a b m moved : matching_ok a b m -> length moved = length (nodes a) -> forall ns k, ns = drop k (nodes a) -> (k <= length (nodes a))%nat ->
  raw_loop a b m moved k ns = Ret (flat_map (raws a b m moved) (seq k (length ns))).
Proof.
  intros Hm Hl. induction ns as [|n ns IH]; intros k Ens Hk; [done|]. cbn [raw_loop length seq flat_map].
  assert (En : nodes a !! k = Some n) by (rewrite <- (Nat.add_0_r k), <- lookup_drop, <- Ens; done).
  pose proof (lookup_lt_Some _ _ _ En) as Hlt.
  assert (Hr : raw_node a b m moved k n = Ret (raws a b m moved k)).
  { unfold raws. rewrite En. unfold raw_node. destruct (a2b m k) as [y|] eqn:Ey; [|done].
    destruct (m_kind a b m Hm k y Ey) as (n' & kb & _ & Ekb & _). rewrite (node_eq b y kb Ekb). cbn [rust_bind].
    destruct (lookup_lt_is_Some_2 moved k) as [mv Emv]; [lia|]. rewrite (at_idx_eq _ _ mv) by (lia || by rewrite Nat2Z.id). done. }
  rewrite Hr. cbn [rust_bind]. rewrite IH; [done| |lia]. rewrite <- Nat.add_1_r, <- drop_drop, <- Ens. done.
Qed.

(** [classify_run] returns the operations of every node under flags that keep
    parents and order. *)
Lemma classify_run_spec a b m : links_ok a -> links_ok b -> matching_ok a b m -> a2b m (root a) = Some (root b) ->
  exists moved, moved_ok a b m moved /\
    classify_run a b m = Ret (flat_map (raws a b m moved) (seq 0 (length (nodes a))) ++ raw_inserts b m).
Proof.
  intros Ha Hb Hm Hr. unfold classify_run. destruct (ordinals_spec b Hb) as (ord & -> & Hord). cbn [rust_bind].
  destruct (moved_loop_ok a b m Ha Hb Hm Hr ord Hord) as (moved & -> & [Hl Hroot Hmm Hst]). cbn [rust_bind].
  exists moved. split; [|rewrite raw_loop_eq by (done || lia); done].
  assert (Hpar : forall x n y k, nodes a !! x = Some n -> a2b m x = Some y -> nodes b !! y = Some k -> x <> root a ->
    moved !! x = Some false -> parent n ≫= a2b m = parent k).
  { intros x n y k En Ey Ek Hne Hf. destruct (decide (parent n ≫= a2b m = parent k)) as [|Hd]; [done|]. exfalso.
    rewrite (Hmm x) in Hf; [done|by apply lookup_lt_Some in En|]. split; [done|]. by exists n, y, k. }
  split; [done|done|exact Hpar|]. intros p y pn Ey Ep.
  replace (omap (kept_image m moved) (children pn)) with (omap (stay_image b m moved y) (children pn)).
  - apply (Hst p); [by apply lookup_lt_Some in Ep|done|done].
  - apply list_omap_ext, Forall_Forall2_diag, Forall_forall. intros c Hc. unfold stay_image, kept_image, kid_image.
    destruct (decide _) as [Hf|]; [|done]. destruct (a2b m c) as [bc|] eqn:Ec; [|done].
    destruct (m_kind a b m Hm c bc Ec) as (n & k & En & Ek & _). rewrite Ek. rewrite decide_True; [done|].
    destruct (lk_child a Ha p pn c Ep Hc) as (n' & En' & Hp). assert (n' = n) as -> by congruence.
    rewrite <- (Hpar c n bc k); [rewrite Hp; done|done|done|done| |done].
    intros ->. apply (lk_root a Ha) in En. rewrite (proj2 En eq_refl) in Hp. done.
Qed.

End classify_laws.
