(* ===== verification/Graph.v ===== *)
(** * The change graph

    Crate [marekvs-diff], [graph.rs]: [build] turns the raw operations of a
    correspondence into the changes of a [Graph], with their dependencies and
    conflict hints, under the byte, anchor and work budgets.  What serde_json
    writes and xxh3 hashes is given by parameters: the sizes of the pieces in
    which a value is written, the id of a change and of a graph. *)

From Stdlib Require Import String.
From S2P Require Import Prelude DiffBase TextDiff DiffTree Compose Classify.

#[export] Instance NodeRef_countable : Countable NodeRef.
Proof.
  refine (inj_countable' (fun r => match r with RefA l => inl l | RefB l => inr l end)
            (fun s => match s with inl l => RefA l | inr l => RefB l end) _). by intros [].
Defined.

(** [usize::saturating_mul]. *)
Definition saturating_mul (w a b : Z) : Z := Z.min (a * b) (2 ^ w - 1).

(** [slice::sort_by_key]: a stable sort. *)
Section stable_sort.
Context {A : Type} (le : A -> A -> bool).
Fixpoint insert_by (x : A) (l : list A) : list A :=
  match l with
  | [] => [x]
  | y :: l' => if le x y then x :: l else y :: insert_by x l'
  end.
Definition stable_sort (l : list A) : list A := foldr insert_by [] l.
End stable_sort.

Section graph.
Context {Value : Type} `{!EqDecision Value}.
Abbreviation tree := (Tree Value).
Abbreviation op := (@Op Value).
Abbreviation change := (@Change Value).
Abbreviation ChangeId := (list Z).

Record Stats := mkStats { i0 : Z; i1 : Z; i2 : Z; i3 : Z; candidates : Z; fallbacks : list (list Z) }.
Definition default_stats : Stats := mkStats 0 0 0 0 0 [].

Record Graph := mkGraph {
  g_v : Z; gid : list Z; from : Z; to : Z; algo : Z; options : list Z;
  changes : list change; deps : list (ChangeId * ChangeId); conflicts : list (list ChangeId);
  explicit_conflicts : list (list ChangeId); stats : Stats }.

Definition ALGO_VERSION : Z := 2.

(** The fields of [Options] that [build] reads; the digest is that of
    [Options::digest]. *)
Record Options := mkOptions { level : Level; budget : Budget; cancel : CancelToken; digest : list Z }.

(** ** Serialisation and hashes *)

(** The values serialised while building. *)
Inductive Payload :=
  | PAttrs (a : Attrs Value) | POptText (t : option (Text Value)) | PText (t : Text Value)
  | PEdits (e : list Edit) | PRuns (r : list (@Run (Attrs Value))) | PGraph (g : Graph).

(** The lengths of the buffers [serde_json::to_writer] hands to its writer. *)
Context (chunks : Payload -> list Z).
(** [change_id(from, to, options, op)] and the digest of a graph without its id:
    xxh3 of their JSON. *)
Context (change_id : Z -> Z -> list Z -> op -> ChangeId) (graph_digest : Graph -> list Z).

(** ** Byte budget *)

(** [Counter::write] for each buffer; the flag is false when writing failed. *)
Fixpoint write_chunks (o : Options) (cs : list Z) (n : Z) : diffm (Z * bool) :=
  match cs with
  | [] => d_ret (n, true)
  | c :: cs' => fun i =>
      match check (cancel o) i with
      | inr _ => Ret (inl (n, false), S i)
      | inl _ =>
          let n := saturating_add 64 n c in
          if max_bytes (budget o) <? n then Ret (inl (n, false), S i) else write_chunks o cs' n (S i)
      end
  end.

Definition charge (o : Options) (value : Payload) (used : Z) : diffm Z :=
  let? (n, ok) := write_chunks o (chunks value) used in
  if ok : bool then d_ret n else
  let? _ := d_check (cancel o) in
  d_err (TooBig "graph_bytes" n (max_bytes (budget o))).

Definition reserve (o : Options) (n used : Z) : diffm Z :=
  let? _ := d_check (cancel o) in
  let used := saturating_add 64 used n in
  if max_bytes (budget o) <? used then d_err (TooBig "graph_bytes" used (max_bytes (budget o))) else d_ret used.

Definition ensure_bounded (o : Options) (g : Graph) : diffm unit :=
  let? _ := charge o (PGraph g) 0 in d_ret tt.

Definition with_gid (g : Graph) (i : list Z) : Graph :=
  mkGraph (g_v g) i (from g) (to g) (algo g) (options g) (changes g) (deps g) (conflicts g) (explicit_conflicts g) (stats g).
Definition rehash (g : Graph) : Graph := with_gid g (graph_digest (with_gid g [])).

(** ** Changes *)

(** The key of [raw.sort_by_key]. *)
Definition raw_key (r : Raw) : Z * Z :=
  match r with RInsert b | RMove _ b => (0, Z.of_nat b) | _ => (1, 0) end.
Definition raw_le (r r' : Raw) : bool :=
  let k := raw_key r in let k' := raw_key r' in (k.1 <? k'.1) || ((k.1 =? k'.1) && (k.2 <=? k'.2)).

(** The closure [bref]: both sides are evaluated. *)
Definition bref (a b : tree) (m : Matching) (bi : nat) : rust NodeRef :=
  match b2a m bi with
  | Some ai => let! n := node a ai in let! _ := node b bi in Ret (RefA (lid n))
  | None => let! k := node b bi in Ret (RefB (lid k))
  end.

Fixpoint brefs (a b : tree) (m : Matching) (l : list nat) : rust (list NodeRef) :=
  match l with
  | [] => Ret []
  | x :: l' => let! r := bref a b m x in let! rs := brefs a b m l' in Ret (r :: rs)
  end.

Definition unwrap {A} (o : option A) : rust A := match o with Some x => Ret x | None => Panic end.

Record bstate := mkB { bytes_used : Z; anchors_used : Z }.

Definition shell_of (n : Node Value) : @Shell Value := mkShell (kind n) (attrs n) (ntext n).

(** The placement of node [bi] of [b]: parent, anchors and the node itself. *)
Definition build_placement (a b : tree) (m : Matching) (o : Options) (pos : list nat) (bi : nat) (insert : bool) (st : bstate) :
    diffm (NodeRef * list Anchor * Node Value * bstate) :=
  let? bn := d_lift (node b bi) in
  let? bp := d_lift (unwrap (parent bn)) in
  let? pn := d_lift (node b bp) in
  let? p := d_lift (at_idx pos (Z.of_nat bi)) in
  let count := Z.of_nat p + 1 in
  let anchors := saturating_add 64 (anchors_used st) count in
  if max_nd (budget o) <? anchors then d_err (TooBig "anchors" anchors (max_nd (budget o))) else
  let? used := reserve o (saturating_mul 64 count 40) (bytes_used st) in
  let? used :=
    if insert then
      let? used := charge o (PAttrs (attrs bn)) used in
      charge o (POptText (ntext bn)) used
    else d_ret used in
  let? before := d_lift (if (p <=? length (children pn))%nat then Ret (take p (children pn)) else Panic) in
  let? refs := d_lift (brefs a b m (rev before)) in
  let? pr := d_lift (bref a b m bp) in
  d_ret (pr, (AnchorNode <$> refs) ++ [AnchorStart], bn, mkB used anchors).

Definition build_op (a b : tree) (m : Matching) (o : Options) (pos : list nat) (r : Raw) (st : bstate) : diffm (op * bstate) :=
  match r with
  | RMove ai bi =>
      let? (pr, after, _, st) := build_placement a b m o pos bi false st in
      let? n := d_lift (node a ai) in
      d_ret (OpMove (RefA (lid n)) pr after, st)
  | RInsert bi =>
      let? (pr, after, bn, st) := build_placement a b m o pos bi true st in
      let? r := d_lift (bref a b m bi) in
      d_ret (OpInsert r pr after (shell_of bn), st)
  | RDelete ai =>
      let? n := d_lift (node a ai) in
      d_ret (OpDelete (RefA (lid n)), st)
  | RModify ai bi =>
      let? n := d_lift (node a ai) in
      let? old := d_lift (unwrap (ntext n)) in
      let? k := d_lift (node b bi) in
      let? new := d_lift (unwrap (ntext k)) in
      let? used := charge o (PText old) (bytes_used st) in
      let? used := charge o (PText new) used in
      let? edits := diff_text_bounded (tx old) (tx new) (level o) (budget o) (cancel o) in
      let? used := charge o (PEdits edits) used in
      d_ret (OpModify (RefA (lid n)) edits old new, mkB used (anchors_used st))
  | RFormat ai bi =>
      let? n := d_lift (node a ai) in
      let? old := d_lift (unwrap (ntext n)) in
      let? used := charge o (PRuns (tf old)) (bytes_used st) in
      let? k := d_lift (node b bi) in
      let? new := d_lift (unwrap (ntext k)) in
      let? used := charge o (PRuns (tf new)) used in
      d_ret (OpFormat (RefA (lid n)) (tf old) (tf new), mkB used (anchors_used st))
  | RAttrs ai bi =>
      let? n := d_lift (node a ai) in
      let? used := charge o (PAttrs (attrs n)) (bytes_used st) in
      let? k := d_lift (node b bi) in
      let? used := charge o (PAttrs (attrs k)) used in
      d_ret (OpAttrs (RefA (lid n)) (attrs n) (attrs k), mkB used (anchors_used st))
  end.

Fixpoint build_changes (a b : tree) (m : Matching) (o : Options) (pos : list nat) (raw : list Raw) (st : bstate) :
    diffm (list change * bstate) :=
  match raw with
  | [] => d_ret ([], st)
  | r :: raw' =>
      let? _ := d_check (cancel o) in
      let? used := reserve o 256 (bytes_used st) in
      let? (op, st) := build_op a b m o pos r (mkB used (anchors_used st)) in
      let? (cs, st) := build_changes a b m o pos raw' st in
      d_ret (mkChange (change_id (sid a) (sid b) (digest o) op) op :: cs, st)
  end.

(** ** Dependencies *)

Definition is_insert (o : op) : bool := match o with OpInsert _ _ _ _ => true | _ => false end.
Definition is_delete (o : op) : bool := match o with OpDelete _ => true | _ => false end.
Definition is_payload (o : op) : bool := match o with OpModify _ _ _ _ | OpFormat _ _ _ | OpAttrs _ _ _ => true | _ => false end.

(** [changes.iter().filter(p).map(|c| (c.op.node(), c.id.clone())).collect()]:
    a later entry replaces an earlier one. *)
Definition ids_by_node (p : op -> bool) (cs : list change) : gmap NodeRef ChangeId :=
  fold_left (fun g c => if p (c_op c) then <[op_node (c_op c) := c_id c]> g else g) cs ∅.

Fixpoint build_deps (o : Options) (inserts : gmap NodeRef ChangeId) (cs : list change) (used : Z) :
    diffm (list (ChangeId * ChangeId) * Z) :=
  match cs with
  | [] => d_ret ([], used)
  | c :: cs' =>
      let? _ := d_check (cancel o) in
      match op_placement (c_op c) ≫= (fun pl => inserts !! pl.1) with
      | Some id =>
          let? used := reserve o 80 used in
          let? (ds, used) := build_deps o inserts cs' used in
          d_ret ((c_id c, id) :: ds, used)
      | None => build_deps o inserts cs' used
      end
  end.

(** ** Conflict hints *)

Definition node_index (a : tree) : gmap NodeRef nat :=
  fold_left (fun g '(i, n) => <[RefA (lid n) := i]> g) (zip (seq 0 (length (nodes a))) (nodes a)) ∅.

(** The walk over the ancestors of a changed node; [work] counts the steps of
    all walks, which [max_nd] bounds. *)
Fixpoint ancestry (fuel : nat) (a : tree) (o : Options) (movable : gset NodeRef) (deletions : gmap NodeRef ChangeId)
    (id : ChangeId) (at_ : option nat) (may_escape : bool) (work used : Z) (acc : list (list ChangeId)) :
    diffm (list (list ChangeId) * Z * Z) :=
  match at_ with
  | None => d_ret (acc, work, used)
  | Some i =>
      match fuel with
      | O => d_lift Panic
      | S f =>
          let? _ := d_check (cancel o) in
          let work := saturating_add 64 work 1 in
          if max_nd (budget o) <? work then d_err (TooBig "graph_work" work (max_nd (budget o))) else
          let? n := d_lift (node a i) in
          let may_escape := may_escape || bool_decide (RefA (lid n) ∈ movable) in
          match deletions !! RefA (lid n), may_escape with
          | Some d, false =>
              let? used := reserve o 80 used in
              ancestry f a o movable deletions id (parent n) may_escape work used (acc ++ [[d; id]])
          | _, _ => ancestry f a o movable deletions id (parent n) may_escape work used acc
          end
      end
  end.

Fixpoint build_conflicts (a : tree) (o : Options) (lookup : gmap NodeRef nat) (movable : gset NodeRef)
    (deletions : gmap NodeRef ChangeId) (cs : list change) (work used : Z) (acc : list (list ChangeId)) :
    diffm (list (list ChangeId)) :=
  match cs with
  | [] => d_ret acc
  | c :: cs' =>
      let? _ := d_check (cancel o) in
      if is_payload (c_op c) then
        let? (acc, work, used) := ancestry (S (Z.to_nat (max_nd (budget o) - work))) a o movable deletions (c_id c)
                                    (lookup !! op_node (c_op c)) false work used acc in
        build_conflicts a o lookup movable deletions cs' work used acc
      else build_conflicts a o lookup movable deletions cs' work used acc
  end.

(** ** [build] *)

Definition build (a b : tree) (m : Matching) (o : Options) : diffm Graph :=
  let? _ := d_check (cancel o) in
  let? used := reserve o 512 0 in
  let? raw := d_lift (classify_run a b m) in
  let raw := stable_sort raw_le raw in
  if max_changes (budget o) <? Z.of_nat (length raw)
  then d_err (TooBig "changes" (Z.of_nat (length raw)) (max_changes (budget o))) else
  let? pos := d_lift (ordinals b) in
  let? (cs, st) := build_changes a b m o pos raw (mkB used 0) in
  let? (ds, used) := build_deps o (ids_by_node is_insert cs) cs (bytes_used st) in
  let movable := list_to_set ((fun c => op_node (c_op c)) <$> filter (fun c => is_move (c_op c) = true) cs) in
  let? cf := build_conflicts a o (node_index a) movable (ids_by_node is_delete cs) cs 0 used [] in
  let g := mkGraph 2 [] (sid a) (sid b) ALGO_VERSION (digest o) cs ds cf [] default_stats in
  let? _ := ensure_bounded o g in
  let g := rehash g in
  let? _ := ensure_bounded o g in
  d_ret g.

End graph.
