(* ===== verification/GraphLaws.v ===== *)
(** * The changes of a built graph

    For well-formed documents [build] never panics, and every graph it returns
    has one change per raw operation: first the placements of the moved and
    inserted nodes in the order of the target, then deletions and payloads. *)

From Stdlib Require Import String.
From S2P Require Import Prelude DiffBase Myers MyersRun TextDiff TextLaws Lis.
From S2P Require Import LisSuffix DiffTree TreeLaws Compose ComposeLaws RunLaws.
From S2P Require Import ShellLaws Classify ClassifyLaws Graph.

(** ** Runs without a panic *)

(** The errors of a run: the token's, or a bound that is exceeded. *)
Definition bounded_error (c : CancelToken) (e : DiffError) : Prop := stops c e \/ exists bound n limit, e = TooBig bound n limit.

(** A run that does not panic, with its results in [P]. *)
Definition total {A} (c : CancelToken) (P : A -> Prop) (m : diffm A) : Prop :=
  forall n, exists r n', m n = Ret (r, n') /\ match r with inl a => P a | inr e => bounded_error c e end.

Lemma total_ret {A} c (P : A -> Prop) a : P a -> total c P (d_ret a).
Proof. intros H n. by exists (inl a), n. Qed.

Lemma total_big {A} c (P : A -> Prop) bound n limit : total c P (d_err (TooBig bound n limit)).
Proof. intros i. exists (inr (TooBig bound n limit)), i. split; [done|]. right. by eexists _, _, _. Qed.

Lemma total_bind {A B} c (P : A -> Prop) (Q : B -> Prop) m f : total c P m -> (forall a, P a -> total c Q (f a)) -> total c Q (let? x := m in f x).
Proof.
  intros Hm Hf n. unfold d_bind. destruct (Hm n) as ([a|e] & n' & -> & Ha).
  - by apply Hf.
  - by exists (inr e), n'.
Qed.

Lemma total_check (c : CancelToken) : total c (fun _ => True) (d_check c).
Proof. intros n. exists (check c n), (S n). split; [done|]. destruct (check c n) eqn:E; [done|]. left. by exists n. Qed.

Lemma total_value {A} c r (a : A) : r = Ret a -> total c (fun x => x = a) (d_lift r).
Proof. intros -> n. by exists (inl a), n. Qed.

(** ** Stable sorting by placement *)

Definition placed_at (r : Raw) : option nat := match r with RInsert b | RMove _ b => Some b | _ => None end.

Lemma raw_le_placed r r' y y' : placed_at r = Some y -> placed_at r' = Some y' -> raw_le r r' = (y <=? y')%nat.
Proof.
  destruct r, r'; try done; intros [= <-] [= <-]; unfold raw_le, raw_key; cbn [fst snd];
    rewrite Z.ltb_irrefl, Z.eqb_refl; cbn [orb andb]; destruct (Nat.leb_spec b b0), (Z.leb_spec (Z.of_nat b) (Z.of_nat b0)); lia.
Qed.
Lemma raw_le_other r r' y' : placed_at r = None -> placed_at r' = Some y' -> raw_le r r' = false.
Proof. by destruct r, r'. Qed.
Lemma raw_le_others r r' : placed_at r' = None -> raw_le r r' = true.
Proof. by destruct r, r'. Qed.

Definition placed (r : Raw) : Prop := is_Some (placed_at r).
#[export] Instance placed_dec r : Decision (placed r).
Proof. unfold placed. apply _. Defined.

Lemma insert_placed r y l1 l2 : placed_at r = Some y -> Forall placed l1 -> Forall (fun r => ~ placed r) l2 ->
  StronglySorted (fun r r' => raw_le r r' = true) l1 ->
  exists l1', insert_by raw_le r (l1 ++ l2) = l1' ++ l2 /\ l1' ≡ₚ r :: l1 /\ Forall placed l1' /\ StronglySorted (fun r r' => raw_le r r' = true) l1'.
Proof.
  intros Er H1 H2 Hs. assert (Hr : placed r) by (by exists y). induction Hs as [|r1 l1 Hs IH Hf]; cbn [app].
  - exists [r]. split_and!; [|done|by constructor|by repeat constructor]. destruct l2 as [|r2 l2]; [done|]. cbn [insert_by].
    inversion H2 as [|? ? Hn _]; subst. rewrite raw_le_others; [done|]. destruct (placed_at r2) eqn:E; [|done]. by destruct Hn; exists n.
  - inversion H1 as [|? ? [y1 E1] H1']; subst. cbn [insert_by]. destruct (raw_le r r1) eqn:Ele.
    + exists (r :: r1 :: l1). split_and!; [done|done|by constructor; [done|]; constructor; [exists y1|]|]. constructor; [by constructor|]. constructor; [done|].
      rewrite Forall_forall in Hf, H1' |- *. intros r2 Hin. destruct (H1' r2 Hin) as [y2 E2]. specialize (Hf r2 Hin).
      rewrite (raw_le_placed r r1 y y1 Er E1) in Ele. rewrite (raw_le_placed r1 r2 y1 y2 E1 E2) in Hf. rewrite (raw_le_placed r r2 y y2 Er E2).
      apply Nat.leb_le. apply Nat.leb_le in Ele, Hf. lia.
    + destruct (IH H1') as (l1' & -> & Hp & Hpl & Hs'). exists (r1 :: l1'). split_and!; [done|by rewrite Hp; constructor| |].
      * constructor; [by exists y1|done].
      * constructor; [done|]. rewrite Hp. constructor; [|done]. rewrite (raw_le_placed r r1 y y1 Er E1) in Ele.
        rewrite (raw_le_placed r1 r y1 y E1 Er). apply Nat.leb_le. apply Nat.leb_gt in Ele. lia.
Qed.

Lemma insert_other r l1 l2 : ~ placed r -> Forall placed l1 -> Forall (fun r => ~ placed r) l2 ->
  insert_by raw_le r (l1 ++ l2) = l1 ++ r :: l2.
Proof.
  intros Hr H1 H2. assert (Er : placed_at r = None) by (destruct (placed_at r) eqn:E; [by destruct Hr; exists n|done]).
  induction H1 as [|r1 l1 [y1 E1] H1 IH]; cbn [app].
  - destruct l2 as [|r2 l2]; [done|]. cbn [insert_by]. inversion H2 as [|? ? Hn _]; subst. rewrite raw_le_others; [done|].
    destruct (placed_at r2) eqn:E; [|done]. by destruct Hn; exists n.
  - cbn [insert_by]. rewrite (raw_le_other r r1 y1 Er E1). by rewrite IH.
Qed.

(** Placements first, in the order of the target; the rest keeps its order. *)
Lemma stable_sort_raw l : exists l1, stable_sort raw_le l = l1 ++ filter (fun r => ~ placed r) l /\
  l1 ≡ₚ filter placed l /\ Forall placed l1 /\ StronglySorted (fun r r' => raw_le r r' = true) l1.
Proof.
  unfold stable_sort. induction l as [|r l IH]; cbn [foldr]; [by exists []; repeat constructor|].
  destruct IH as (l1 & -> & Hp & Hpl & Hs). assert (Hrest : Forall (fun r => ~ placed r) (filter (fun r => ~ placed r) l)).
  { apply Forall_forall. intros x Hx. by apply list_elem_of_filter in Hx as [? _]. }
  destruct (decide (placed r)) as [[y Ey]|Hn].
  - destruct (insert_placed r y l1 _ Ey Hpl Hrest Hs) as (l1' & -> & Hp' & Hpl' & Hs'). exists l1'.
    rewrite (filter_cons_False (fun r => ~ placed r)) by (intros H; apply H; by exists y). split_and!; [done| |done|done].
    rewrite filter_cons_True by (by exists y). by rewrite Hp', Hp.
  - rewrite insert_other by done. exists l1. rewrite (filter_cons_True (fun r => ~ placed r)) by done. rewrite filter_cons_False by done. done.
Qed.

Section build.
Context {Value : Type} `{!EqDecision Value}.
Context (is_boolean is_string is_object is_array : Value -> bool).
Abbreviation tree := (Tree Value).
Abbreviation op := (@Op Value).
Abbreviation change := (@Change Value).
Context (chunks : @Payload Value -> list Z).
Context (change_id : Z -> Z -> list Z -> op -> list Z) (graph_digest : @Graph Value -> list Z).
Abbreviation shell_ok := (shell_ok is_boolean is_string is_object is_array).

(** A document: links, valid shells, leaves without children, distinct ids. *)
Record doc_ok (t : tree) : Prop := {
  dk_links : links_ok t;
  dk_shell : forall x n, nodes t !! x = Some n -> shell_ok (shell_of n);
  dk_leaf : forall x n, nodes t !! x = Some n -> is_leaf (kind n) = true -> children n = [];
  dk_lids : forall x x' n n', nodes t !! x = Some n -> nodes t !! x' = Some n' -> lid n = lid n' -> x = x' }.

(** ** References *)

Definition lid_of (t : tree) (x : nat) : Z := match nodes t !! x with Some n => lid n | None => 0 end.
Definition ra (a : tree) (x : nat) : NodeRef := RefA (lid_of a x).
Definition br (a b : tree) (m : Matching) (y : nat) : NodeRef :=
  match b2a m y with Some x => ra a x | None => RefB (lid_of b y) end.

Section pair.
Context (a b : tree) (m : Matching) (o : Options).
Hypothesis Ha : doc_ok a.
Hypothesis Hb : doc_ok b.
Hypothesis Hm : matching_ok a b m.
Hypothesis Hroots : a2b m (root a) = Some (root b).
Hypothesis Hnd : 0 <= max_nd (budget o) < 2 ^ 64 - 1.

Lemma ra_inj x x' : (x < length (nodes a))%nat -> (x' < length (nodes a))%nat -> ra a x = ra a x' -> x = x'.
Proof using Ha.
  intros H H'. unfold ra, lid_of. destruct (lookup_lt_is_Some_2 _ _ H) as [n E], (lookup_lt_is_Some_2 _ _ H') as [n' E'].
  rewrite E, E'. intros [= El]. by eapply (dk_lids a Ha).
Qed.

Lemma image_in x y : a2b m x = Some y -> (x < length (nodes a))%nat /\ (y < length (nodes b))%nat.
Proof using Hm. intros E. destruct (m_kind a b m Hm x y E) as (n & k & E1 & E2 & _). split; by eapply lookup_lt_Some. Qed.

Lemma br_inj y y' : (y < length (nodes b))%nat -> (y' < length (nodes b))%nat -> br a b m y = br a b m y' -> y = y'.
Proof using Ha Hb Hm.
  intros H H'. unfold br. destruct (b2a m y) as [x|] eqn:E, (b2a m y') as [x'|] eqn:E'; [|done|done|].
  - apply (m_inverse a b m Hm) in E, E'. destruct (image_in x y E), (image_in x' y' E'). intros Eq%ra_inj; [|done|done]. congruence.
  - unfold lid_of. destruct (lookup_lt_is_Some_2 _ _ H) as [n En], (lookup_lt_is_Some_2 _ _ H') as [n' En']. rewrite En, En'.
    intros [= El]. by eapply (dk_lids b Hb).
Qed.

Lemma bref_eq y : (y < length (nodes b))%nat -> bref a b m y = Ret (br a b m y).
Proof using Hm.
  intros H. destruct (lookup_lt_is_Some_2 _ _ H) as [k Ek]. unfold bref, br, ra, lid_of. destruct (b2a m y) as [x|] eqn:E.
  - apply (m_inverse a b m Hm) in E. destruct (image_in x y E) as [Hx _]. destruct (lookup_lt_is_Some_2 _ _ Hx) as [n En].
    rewrite (node_eq a x n En), (node_eq b y k Ek), En. done.
  - rewrite (node_eq b y k Ek), Ek. done.
Qed.

Lemma brefs_eq l : Forall (fun y => y < length (nodes b))%nat l -> brefs a b m l = Ret (br a b m <$> l).
Proof using Hm. induction 1 as [|y l Hy _ IH]; [done|]. cbn [brefs]. rewrite bref_eq by done. cbn [rust_bind]. by rewrite IH. Qed.

(** ** Operations *)

(** [y] is the [i]-th child of [p] in the target. *)
Definition child_at (p : nat) (pn : Node Value) (i y : nat) : Prop := nodes b !! p = Some pn /\ children pn !! i = Some y.
Definition anchors_of (pn : Node Value) (i : nat) : list Anchor :=
  (AnchorNode <$> (br a b m <$> rev (take i (children pn)))) ++ [AnchorStart].

Definition op_for (r : Raw) (p : op) : Prop :=
  match r with
  | RMove x y => exists q pn i, child_at q pn i y /\ p = OpMove (ra a x) (br a b m q) (anchors_of pn i)
  | RInsert y => exists q pn i k, child_at q pn i y /\ nodes b !! y = Some k /\
      p = OpInsert (br a b m y) (br a b m q) (anchors_of pn i) (shell_of k)
  | RDelete x => p = OpDelete (ra a x)
  | RModify x y => exists n k old new edits, nodes a !! x = Some n /\ nodes b !! y = Some k /\ ntext n = Some old /\ ntext k = Some new /\
      edits_between (tx old) (tx new) edits /\ p = OpModify (ra a x) edits old new
  | RFormat x y => exists n k old new, nodes a !! x = Some n /\ nodes b !! y = Some k /\ ntext n = Some old /\ ntext k = Some new /\
      p = OpFormat (ra a x) (tf old) (tf new)
  | RAttrs x y => exists n k, nodes a !! x = Some n /\ nodes b !! y = Some k /\ p = OpAttrs (ra a x) (attrs n) (attrs k)
  end.

(** A raw operation names existing nodes. *)
Definition raw_ok (r : Raw) : Prop :=
  match r with
  | RMove x y => (x < length (nodes a))%nat /\ (y < length (nodes b))%nat /\ y <> root b
  | RInsert y => (y < length (nodes b))%nat /\ y <> root b
  | RDelete x => (x < length (nodes a))%nat
  | RModify x y | RFormat x y => exists n k, nodes a !! x = Some n /\ nodes b !! y = Some k /\ is_Some (ntext n) /\ is_Some (ntext k)
  | RAttrs x y => (x < length (nodes a))%nat /\ (y < length (nodes b))%nat
  end.

Lemma ra_eq x n : nodes a !! x = Some n -> ra a x = RefA (lid n).
Proof using Type. intros E. unfold ra, lid_of. by rewrite E. Qed.

(** ** Budgets *)

Lemma charge_total v used : total (cancel o) (fun _ => True) (charge chunks o v used).
Proof using Type.
  unfold charge. eapply (total_bind _ (fun _ => True)).
  - generalize (chunks v). intros cs n. revert used n. induction cs as [|c cs IH]; intros used n; cbn [write_chunks]; [by exists (inl (used, true)), n|].
    destruct (check _ _); [|by eexists _, _]. destruct (_ <? _); [by eexists _, _|]. apply IH.
  - intros [n ok] _. destruct ok; [by apply total_ret|]. eapply total_bind; [apply total_check|]. intros _ _. apply total_big.
Qed.

Lemma reserve_total n used : total (cancel o) (fun _ => True) (reserve o n used).
Proof using Type.
  unfold reserve. eapply total_bind; [apply total_check|]. intros _ _. destruct (_ <? _); [apply total_big|by apply total_ret].
Qed.

(** The anchors so far, as [build] and [plan] add them up. *)
Definition anchors_len (p : op) (w : Z) : Z :=
  match op_placement p with Some (_, after) => saturating_add 64 w (Z.of_nat (length after)) | None => w end.

Lemma placement_total y st insert pos : is_ord b pos -> (y < length (nodes b))%nat -> y <> root b ->
  total (cancel o) (fun '(pr, after, k, st') => exists q pn i, child_at q pn i y /\ nodes b !! y = Some k /\ pr = br a b m q /\ after = anchors_of pn i /\
      anchors_used st' = saturating_add 64 (anchors_used st) (Z.of_nat (length after)) /\ anchors_used st' <= max_nd (budget o))
    (build_placement chunks a b m o pos y insert st).
Proof using Ha Hb Hm.
  intros [Hl Hpos] Hy Hr. destruct (lookup_lt_is_Some_2 _ _ Hy) as [k Ek]. unfold build_placement. pose proof (dk_links b Hb) as Lb.
  destruct (parent k) as [q|] eqn:Eq; [|by apply (lk_root b Lb y k Ek) in Eq].
  destruct (lk_parent b Lb y k q Ek Eq) as (pn & Epn & Hin). apply list_elem_of_lookup in Hin as [i Ei].
  pose proof (Hpos q pn i y Epn Ei) as Ei'. pose proof (lookup_lt_Some _ _ _ Ei) as Hi.
  destruct (wf_children b q pn (lk_wf b Lb) Epn) as [Hch _].
  eapply total_bind; [eapply total_value; by apply node_eq|]. intros ? ->. rewrite Eq.
  eapply total_bind; [eapply total_value; reflexivity|]. intros ? ->.
  eapply total_bind; [eapply total_value; by apply node_eq|]. intros ? ->.
  eapply total_bind; [eapply total_value, at_idx_eq; [lia|by rewrite Nat2Z.id]|]. intros ? ->.
  destruct (Z.ltb_spec (max_nd (budget o)) (saturating_add 64 (anchors_used st) (Z.of_nat i + 1))) as [|Hfit]; [apply total_big|].
  eapply total_bind; [apply reserve_total|]. intros used _.
  eapply (total_bind _ (fun _ => True)).
  { destruct insert; [|by apply total_ret]. eapply total_bind; [apply charge_total|]. intros ? _. apply charge_total. }
  intros used' _. replace (i <=? length (children pn))%nat with true by (symmetry; apply Nat.leb_le; lia).
  eapply total_bind; [eapply total_value; reflexivity|]. intros ? ->.
  eapply total_bind; [eapply total_value, brefs_eq|].
  { apply Forall_rev. by apply Forall_take. }
  intros refs ->. eapply total_bind; [eapply total_value, bref_eq; by eapply lookup_lt_Some|].
  intros pr ->. apply total_ret. exists q, pn, i. split_and!; [by split|done|done|done| |done].
  cbn [anchors_used]. f_equal. rewrite length_app, !length_fmap, length_rev, length_take. cbn [length]. lia.
Qed.

Ltac bind_node := eapply total_bind; [eapply total_value; by (apply node_eq || reflexivity)|]; intros ? ->.
Ltac bind_charge := eapply total_bind; [apply charge_total|]; intros ? _.

Lemma text_short x n t : nodes a !! x = Some n -> ntext n = Some t -> Z.of_nat (length (tx t)) < 2 ^ 32.
Proof using Ha.
  intros En Et. destruct (dk_shell a Ha x n En) as (_ & _ & Ht). unfold shell_of in Ht. cbn [sh_text] in Ht. rewrite Et in Ht.
  destruct Ht as [Hv _]. unfold Compose.validate_runs in Hv. by destruct (Z.leb_spec (2 ^ 32) (Z.of_nat (length (tx t)))).
Qed.

Lemma build_op_total r st pos : is_ord b pos -> raw_ok r -> total (cancel o) (fun '(p, st') => op_for r p /\
    anchors_used st' = anchors_len p (anchors_used st) /\ (is_Some (op_placement p) -> anchors_used st' <= max_nd (budget o)))
  (build_op chunks a b m o pos r st).
Proof using Ha Hb Hm Hnd.
  intros Hpos Hr. destruct r as [x y|x|y|x y|x y|x y]; cbn [build_op raw_ok] in *.
  - destruct Hr as (Hx & Hy & Hne). destruct (lookup_lt_is_Some_2 _ _ Hx) as [n En].
    eapply total_bind; [by apply placement_total|]. intros [[[pr after] k] st'] (q & pn & i & Hc & Ek & -> & -> & Hu & Hle). bind_node.
    apply total_ret. split_and!; [|done|done]. exists q, pn, i. by rewrite (ra_eq x n En).
  - destruct (lookup_lt_is_Some_2 _ _ Hr) as [n En]. bind_node. apply total_ret. split_and!; [|done|by intros []]. cbn [op_for]. by rewrite (ra_eq x n En).
  - destruct Hr as (Hy & Hne). eapply total_bind; [by apply placement_total|].
    intros [[[pr after] k] st'] (q & pn & i & Hc & Ek & -> & -> & Hu & Hle). eapply total_bind; [by eapply total_value, bref_eq|]. intros ? ->.
    apply total_ret. split_and!; [|done|done]. by exists q, pn, i, k.
  - destruct Hr as (n & k & En & Ek & [old Eo] & [new Enw]). bind_node. rewrite Eo. bind_node. bind_node. rewrite Enw. bind_node.
    bind_charge. bind_charge.
    eapply (total_bind _ (edits_between (tx old) (tx new))).
    { intros i. destruct (diff_text_bounded_lossless (tx old) (tx new) (level o) (budget o) (cancel o) i) as (r & i' & E & Hr).
      - split; lia.
      - by eapply text_short.
      - exists r, i'. split; [exact E|]. destruct r as [edits|e]; [split; [by eapply diff_text_bounded_u32|exact Hr]|].
        unfold lossless in Hr. destruct e; try (by left). right. by eexists _, _, _. }
    intros edits He. bind_charge. apply total_ret. split_and!; [|done|by intros []]. rewrite <- (ra_eq x n En). by exists n, k, old, new, edits.
  - destruct Hr as (n & k & En & Ek & [old Eo] & [new Enw]). bind_node. rewrite Eo. bind_node. bind_charge. bind_node. rewrite Enw. bind_node.
    bind_charge. apply total_ret. split_and!; [|done|by intros []]. rewrite <- (ra_eq x n En). by exists n, k, old, new.
  - destruct Hr as [Hx Hy]. destruct (lookup_lt_is_Some_2 _ _ Hx) as [n En], (lookup_lt_is_Some_2 _ _ Hy) as [k Ek].
    bind_node. bind_charge. bind_node. bind_charge. apply total_ret. split_and!; [|done|by intros []]. rewrite <- (ra_eq x n En). by exists n, k.
Qed.

(** Every running total of anchors is within the budget. *)
Fixpoint anchors_fit (cs : list change) (w : Z) : Prop :=
  match cs with
  | [] => True
  | c :: cs' => (is_Some (op_placement (c_op c)) -> anchors_len (c_op c) w <= max_nd (budget o)) /\ anchors_fit cs' (anchors_len (c_op c) w)
  end.

Definition changes_for (raw : list Raw) (cs : list change) : Prop := Forall2 (fun r c => op_for r (c_op c)) raw cs.

Lemma build_changes_total raw pos : is_ord b pos -> Forall raw_ok raw -> forall st,
  total (cancel o) (fun '(cs, _) => changes_for raw cs /\ anchors_fit cs (anchors_used st)) (build_changes chunks change_id a b m o pos raw st).
Proof using Ha Hb Hm Hnd.
  intros Hpos. induction 1 as [|r raw Hr _ IH]; intros st; cbn [build_changes]; [by apply total_ret; split; [constructor|]|].
  eapply total_bind; [apply total_check|]. intros _ _. eapply total_bind; [apply reserve_total|]. intros used _.
  eapply total_bind; [by apply build_op_total|]. intros [p st'] (Hp & Hu & Hle). eapply total_bind; [apply IH|]. intros [cs st''] [Hcs Hfit].
  apply total_ret. split; [by constructor|]. cbn [anchors_used] in Hu. cbn [anchors_fit c_op]. rewrite <- Hu. done.
Qed.

Lemma build_deps_total inserts (cs : list change) : forall used, total (cancel o) (fun _ => True) (build_deps o inserts cs used).
Proof using Type.
  induction cs as [|c cs IH]; intros used; cbn [build_deps]; [by apply total_ret|]. eapply total_bind; [apply total_check|]. intros _ _.
  destruct (_ ≫= _); [|apply IH]. eapply total_bind; [apply reserve_total|]. intros used' _. eapply total_bind; [apply IH|]. intros [ds u] _. by apply total_ret.
Qed.

Lemma ancestry_total movable deletions id : forall fuel at_ esc work used acc,
  (forall i, at_ = Some i -> (i < length (nodes a))%nat) -> 0 <= work <= max_nd (budget o) -> max_nd (budget o) - work < Z.of_nat fuel ->
  total (cancel o) (fun '(_, work', _) => 0 <= work' <= max_nd (budget o)) (ancestry fuel a o movable deletions id at_ esc work used acc).
Proof using Ha Hnd.
  induction fuel as [|f IH]; intros [i|] esc work used acc Hi Hw Hf; cbn [ancestry]; try (by apply total_ret); [lia|].
  eapply total_bind; [apply total_check|]. intros _ _. unfold saturating_add. replace (Z.min (work + 1) (2 ^ 64 - 1)) with (work + 1) by lia.
  destruct (Z.ltb_spec (max_nd (budget o)) (work + 1)); [apply total_big|].
  destruct (lookup_lt_is_Some_2 _ _ (Hi i eq_refl)) as [n En]. bind_node.
  assert (Hp : forall i', parent n = Some i' -> (i' < length (nodes a))%nat).
  { intros i' E. destruct (lk_parent a (dk_links a Ha) i n i' En E) as (pn & Ep & _). by eapply lookup_lt_Some. }
  destruct (deletions !! _) as [d|]; [|apply IH; [done|lia|lia]]. destruct (esc || _); [apply IH; [done|lia|lia]|].
  eapply total_bind; [apply reserve_total|]. intros used' _. apply IH; [done|lia|lia].
Qed.

Lemma node_index_range r i : node_index a !! r = Some i -> (i < length (nodes a))%nat.
Proof using Type.
  unfold node_index. assert (H : forall (l : list (nat * Node Value)) (g : gmap NodeRef nat), (forall i n, (i, n) ∈ l -> (i < length (nodes a))%nat) ->
    (forall i, g !! r = Some i -> (i < length (nodes a))%nat) ->
    fold_left (fun g '(i, n) => <[RefA (lid n) := i]> g) l g !! r = Some i -> (i < length (nodes a))%nat).
  { induction l as [|[j n] l IH]; intros g Hl Hg; [by apply Hg|]. cbn [fold_left]. apply IH; [intros; eapply Hl; by right|].
    intros k. rewrite lookup_insert_Some. intros [[_ <-]|[_ H]]; [by apply (Hl j n); left|by apply Hg]. }
  apply H; [|done]. intros j n Hin. apply elem_of_zip_l, elem_of_seq in Hin. lia.
Qed.

Lemma build_conflicts_total movable deletions (cs : list change) : forall work used acc, 0 <= work <= max_nd (budget o) ->
  total (cancel o) (fun _ => True) (build_conflicts a o (node_index a) movable deletions cs work used acc).
Proof using Ha Hnd.
  induction cs as [|c cs IH]; intros work used acc Hw; cbn [build_conflicts]; [by apply total_ret|].
  eapply total_bind; [apply total_check|]. intros _ _. destruct (is_payload _); [|by apply IH].
  eapply total_bind; [apply ancestry_total; [intros i; apply node_index_range|done|lia]|]. intros [[acc' work'] used'] Hw'. by apply IH.
Qed.

(** ** The raw operations *)

Lemma raws_ok moved : moved_ok a b m moved -> forall x r, r ∈ raws a b m moved x -> raw_ok r.
Proof using Ha Hb Hm Hroots.
  intros Hmv x r. unfold raws. destruct (nodes a !! x) as [n|] eqn:En; [|by intros ?%not_elem_of_nil].
  pose proof (lookup_lt_Some _ _ _ En) as Hx. unfold raw_node. destruct (a2b m x) as [y|] eqn:Ey.
  - destruct (m_kind a b m Hm x y Ey) as (n' & k & En' & Ek & _). assert (n' = n) as -> by congruence.
    pose proof (lookup_lt_Some _ _ _ Ek) as Hy. rewrite (node_eq b y k Ek). cbn [rust_bind].
    destruct (lookup_lt_is_Some_2 moved x) as [mv Emv]; [rewrite (mv_len _ _ _ _ Hmv); done|].
    rewrite (at_idx_eq _ _ mv) by (lia || by rewrite Nat2Z.id). cbn [rust_bind]. rewrite !elem_of_app. intros [Hr|[Hr|Hr]].
    + destruct mv; [|by apply not_elem_of_nil in Hr]. apply list_elem_of_singleton in Hr as ->. split_and!; [done|done|].
      intros ->. assert (x = root a).
      { apply (m_inverse a b m Hm) in Ey. apply (m_inverse a b m Hm) in Hroots. congruence. }
      subst x. rewrite (mv_root _ _ _ _ Hmv) in Emv. done.
    + destruct (decide _); [by apply not_elem_of_nil in Hr|]. by apply list_elem_of_singleton in Hr as ->.
    + destruct (ntext n) as [t|] eqn:Et; [|by apply not_elem_of_nil in Hr]. destruct (ntext k) as [t'|] eqn:Et'; [|by apply not_elem_of_nil in Hr].
      assert (Hraw : raw_ok (RModify x y)) by (exists n, k; rewrite Et, Et'; by eauto).
      destruct (decide _); [destruct (decide _)|]; [by apply not_elem_of_nil in Hr| |]; by apply list_elem_of_singleton in Hr as ->.
  - cbn [from_option]. destruct (_ && _); [|by intros ?%not_elem_of_nil]. by intros ->%list_elem_of_singleton.
Qed.

Definition all_raws (moved : list bool) : list Raw := flat_map (raws a b m moved) (seq 0 (length (nodes a))) ++ raw_inserts b m.

Lemma all_raws_ok moved : moved_ok a b m moved -> Forall raw_ok (all_raws moved).
Proof using Ha Hb Hm Hroots.
  intros Hmv. apply Forall_forall. intros r [Hr|Hr]%elem_of_app.
  - apply list_elem_of_In, in_flat_map in Hr as (x & _ & Hr). apply list_elem_of_In in Hr. by eapply raws_ok.
  - apply list_elem_of_fmap in Hr as (y & -> & [[Hy _] Hin%elem_of_seq]%list_elem_of_filter). simpl. split; [lia|done].
Qed.

Lemma stable_sort_forall (P : Raw -> Prop) l : Forall P l -> Forall P (stable_sort raw_le l).
Proof using Type.
  intros H. destruct (stable_sort_raw l) as (l1 & -> & Hp & _). rewrite Forall_forall in H. apply Forall_app. split; [rewrite Hp|]; apply Forall_forall; intros r [_ Hr]%list_elem_of_filter; by apply H.
Qed.

(** [build] never panics; what it returns lists a change per operation. *)
Lemma build_total : total (cancel o) (fun g => exists moved, moved_ok a b m moved /\ g_v g = 2 /\ algo g = ALGO_VERSION /\ from g = sid a /\
    explicit_conflicts g = [] /\ Z.of_nat (length (changes g)) <= max_changes (budget o) /\
    changes_for (stable_sort raw_le (all_raws moved)) (changes g) /\ anchors_fit (changes g) 0)
  (build chunks change_id graph_digest a b m o).
Proof using Ha Hb Hm Hroots Hnd.
  unfold build. eapply total_bind; [apply total_check|]. intros _ _. eapply total_bind; [apply reserve_total|]. intros used _.
  destruct (classify_run_spec a b m (dk_links a Ha) (dk_links b Hb) Hm Hroots) as (moved & Hmv & Er).
  eapply total_bind; [by eapply total_value|]. intros raw ->. fold (all_raws moved).
  destruct (Z.ltb_spec (max_changes (budget o)) (Z.of_nat (length (stable_sort raw_le (all_raws moved))))) as [|Hlen]; [apply total_big|].
  destruct (ordinals_spec b (dk_links b Hb)) as (pos & Epos & Hpos). eapply total_bind; [by eapply total_value|]. intros ? ->.
  eapply total_bind; [apply build_changes_total; [done|apply stable_sort_forall, all_raws_ok; done]|]. intros [cs st] [Hcs Hfit].
  eapply total_bind; [apply build_deps_total|]. intros [ds used'] _.
  eapply total_bind; [apply build_conflicts_total; lia|]. intros cf _. cbv zeta. unfold ensure_bounded.
  eapply (total_bind _ (fun _ => True)); [eapply total_bind; [apply charge_total|]; intros; by apply total_ret|]. intros _ _.
  eapply (total_bind _ (fun _ => True)); [eapply total_bind; [apply charge_total|]; intros; by apply total_ret|]. intros _ _.
  apply total_ret. exists moved. split_and!; try done. cbn [changes rehash with_gid]. by rewrite <- (Forall2_length _ _ _ Hcs).
Qed.

End pair.
End build.
