(* ===== verification/Plan.v ===== *)
(** * Planning a selection of changes

    Crate [marekvs-diff], [plan.rs]: [plan_bounded] validates a graph against a
    base tree, rejects selections that are not closed or contradict each other,
    places moved and inserted nodes, composes the remaining changes of every node
    and emits the resulting document.  The model ends with the emitted document;
    [Tree::from_json] then parses it back into an arena. *)

From Stdlib Require Import String.
From S2P Require Import Prelude DiffBase TextDiff DiffTree Compose Classify Graph.

(** The derived order of [NodeRef]: base references first. *)
Definition ref_le (r r' : NodeRef) : Prop :=
  match r, r' with
  | RefA l, RefA l' | RefB l, RefB l' => l <= l'
  | RefA _, RefB _ => True
  | RefB _, RefA _ => False
  end.
#[export] Instance ref_le_dec : RelDecision ref_le.
Proof. intros [l|l] [l'|l']; simpl; apply _. Defined.

(** The keys of a [BTreeMap] or [BTreeSet] in order. *)
Definition sorted_refs (s : gset NodeRef) : list NodeRef := merge_sort ref_le (elements s).
Definition sorted_keys {A} (m : gmap NodeRef A) : list NodeRef := sorted_refs (dom m).

Definition id_le (i j : list Z) : Prop := bytes_cmp i j <> Gt.
#[export] Instance id_le_dec : RelDecision id_le.
Proof. intros i j. unfold id_le. apply _. Defined.
Definition sorted_ids (s : gset (list Z)) : list (list Z) := merge_sort id_le (elements s).

(** [Vec<ChangeId>] in its derived order. *)
Fixpoint ids_cmp (l l' : list (list Z)) : comparison :=
  match l, l' with
  | [], [] => Eq
  | [], _ => Lt
  | _, [] => Gt
  | i :: l, j :: l' => match bytes_cmp i j with Eq => ids_cmp l l' | c => c end
  end.
Definition ids_le (l l' : list (list Z)) : Prop := ids_cmp l l' <> Gt.
#[export] Instance ids_le_dec : RelDecision ids_le.
Proof. intros i j. unfold ids_le. apply _. Defined.

(** [groups] sorted and without repetitions, inside and outside. *)
Definition tidy (groups : list (list (list Z))) : list (list (list Z)) :=
  dedup_by (fun g h => bool_decide (g = h))
    (merge_sort ids_le ((fun g => dedup_by (fun i j => bool_decide (i = j)) (merge_sort id_le g)) <$> groups)).

Section plan.
Context {Value : Type} `{!EqDecision Value}.
Context (is_boolean is_string is_object is_array : Value -> bool).
Abbreviation tree := (Tree Value).
Abbreviation op := (@Op Value).
Abbreviation change := (@Change Value).
Abbreviation shell := (@Shell Value).
Abbreviation graph := (@Graph Value).
Abbreviation ChangeId := (list Z).

(** ** Runs of the planner *)

Definition planm (A : Type) : Type := nat -> rust ((A + PlanError) * nat).
Definition l_ret {A} (a : A) : planm A := fun n => Ret (inl a, n).
Definition l_err {A} (e : PlanError) : planm A := fun n => Ret (inr e, n).
Definition l_bind {A B} (m : planm A) (f : A -> planm B) : planm B := fun n =>
  match m n with
  | Ret (inl a, n') => f a n'
  | Ret (inr e, n') => Ret (inr e, n')
  | Panic => Panic
  end.
Definition l_lift {A} (r : rust A) : planm A := fun n => match r with Ret a => Ret (inl a, n) | Panic => Panic end.
Definition l_pres {A} (r : pres A) : planm A := fun n => Ret (r, n).
(** [cancel.check().map_err(PlanError::Budget)?]. *)
Definition l_check (c : CancelToken) : planm unit := fun n =>
  Ret (match check c n with inl _ => inl tt | inr e => inr (PBudget e) end, S n).
Notation "'let+' x := m 'in' k" := (l_bind m (fun x => k)) (at level 10, x pattern, m at level 100, k at level 200).

Record Work := mkWork { w_shell : shell; w_parent : option NodeRef; w_children : list NodeRef }.
Abbreviation work_map := (gmap NodeRef Work).

(** ** Nodes of the base and of the inserts *)

Definition lid_at (a : tree) (i : nat) : rust NodeRef := let! n := node a i in Ret (RefA (lid n)).
Fixpoint lids_at (a : tree) (l : list nat) : rust (list NodeRef) :=
  match l with
  | [] => Ret []
  | i :: l' => let! r := lid_at a i in let! rs := lids_at a l' in Ret (r :: rs)
  end.

Definition base_work (a : tree) (n : Node Value) : rust Work :=
  let! p := match parent n with Some p => let! r := lid_at a p in Ret (Some r) | None => Ret None end in
  let! cs := lids_at a (children n) in
  Ret (mkWork (shell_of n) p cs).

Fixpoint base_nodes (a : tree) (ns : list (Node Value)) (g : work_map) : rust work_map :=
  match ns with
  | [] => Ret g
  | n :: ns' => let! w := base_work a n in base_nodes a ns' (<[RefA (lid n) := w]> g)
  end.

(** The loop that registers the ids and the inserts of all changes. *)
Fixpoint register (cs : list change) (ids : gset ChangeId) (inserts : gmap NodeRef ChangeId) (nodes : work_map) :
    pres (gset ChangeId * gmap NodeRef ChangeId * work_map) :=
  match cs with
  | [] => inl (ids, inserts, nodes)
  | c :: cs' =>
      if decide (c_id c ∈ ids) then inr (PInvalidGraph "duplicate change id") else
      let ids := {[ c_id c ]} ∪ ids in
      match c_op c with
      | OpInsert n p _ sh =>
          if (match n with RefA _ => true | RefB _ => false end) || bool_decide (is_Some (nodes !! n)) ||
             bool_decide (is_Some (inserts !! n))
          then inr (PInvalidGraph "duplicate or invalid insert identity")
          else register cs' ids (<[n := c_id c]> inserts) (<[n := mkWork sh (Some p) []]> nodes)
      | _ => register cs' ids inserts nodes
      end
  end.

Fixpoint known (l : list ChangeId) (ids : gset ChangeId) : pres unit :=
  match l with
  | [] => inl tt
  | i :: l' => if decide (i ∈ ids) then known l' ids else inr (UnknownChange i)
  end.

(** ** Validation of every change *)

Fixpoint anchors_known (after : list Anchor) (nodes : work_map) : pres unit :=
  match after with
  | [] => inl tt
  | AnchorNode r :: after' => if decide (is_Some (nodes !! r)) then anchors_known after' nodes else inr (InvalidReference r)
  | AnchorStart :: after' => anchors_known after' nodes
  end.

Definition is_start (x : Anchor) : bool := match x with AnchorStart => true | AnchorNode _ => false end.

(** One change; the number is [anchor_work]. *)
Definition validate_change (root : NodeRef) (budget : Budget) (nodes : work_map) (o : op) (anchor_work : Z) : pres Z :=
  let nr := op_node o in
  match nodes !! nr with
  | None => inr (InvalidReference nr)
  | Some w =>
      p_bind (validate_payload is_boolean is_string is_object is_array o (w_shell w)) (fun _ =>
      if negb (is_insert o) && match nr with RefA _ => false | RefB _ => true end then inr (InvalidReference nr) else
      p_bind (match op_placement o with
              | None => inl anchor_work
              | Some (p, after) =>
                  let anchor_work := saturating_add 64 anchor_work (Z.of_nat (length after)) in
                  if max_nd budget <? anchor_work then inr (PBudget (TooBig "anchors" anchor_work (max_nd budget))) else
                  match nodes !! p with
                  | None => inr (InvalidReference p)
                  | Some pw =>
                      if is_leaf (sh_kind (w_shell pw)) then inr (PInvalidGraph "leaf destination") else
                      if negb (match last after with Some x => is_start x | None => false end)
                      then inr (PInvalidGraph "anchor chain must end at start") else
                      p_bind (anchors_known after nodes) (fun _ => inl anchor_work)
                  end
              end) (fun anchor_work =>
      if bool_decide (nr = root) && (is_delete o || is_move o || is_insert o)
      then inr (PInvalidGraph "root structural operation") else inl anchor_work))
  end.

Fixpoint validate_changes (root : NodeRef) (budget : Budget) (cancel : CancelToken) (nodes : work_map) (cs : list change) (anchor_work : Z) :
    planm unit :=
  match cs with
  | [] => l_ret tt
  | c :: cs' =>
      let+ _ := l_check cancel in
      let+ anchor_work := l_pres (validate_change root budget nodes (c_op c) anchor_work) in
      validate_changes root budget cancel nodes cs' anchor_work
  end.

(** ** Groups of changes that do not go together *)

Fixpoint first_unknown (l : list ChangeId) (ids : gset ChangeId) : option ChangeId :=
  match l with
  | [] => None
  | i :: l' => if decide (i ∈ ids) then first_unknown l' ids else Some i
  end.

Fixpoint explicit_groups (gs : list (list ChangeId)) (ids accepted : gset ChangeId) (groups : list (list ChangeId)) :
    pres (list (list ChangeId)) :=
  match gs with
  | [] => inl groups
  | g :: gs' =>
      if (size (list_to_set g : gset ChangeId) <? 2)%nat then inr (PInvalidGraph "conflict group has fewer than two changes") else
      match first_unknown g ids with
      | Some i => inr (UnknownChange i)
      | None => explicit_groups gs' ids accepted (if forallb (fun i => bool_decide (i ∈ accepted)) g then groups ++ [g] else groups)
      end
  end.

Record sstate := mkS {
  s_nodes : work_map; s_groups : list (list ChangeId);
  s_structural : gmap NodeRef (list ChangeId); s_deleted : gmap NodeRef ChangeId }.

(** The chosen changes: new parents, deletions, and groups with missing inserts. *)
Definition structure_change (inserts : gmap NodeRef ChangeId) (accepted : gset ChangeId) (c : change) (st : sstate) : rust sstate :=
  let! st :=
    match op_placement (c_op c) with
    | None => Ret st
    | Some (p, _) =>
        let groups :=
          match inserts !! p with
          | Some req => if decide (req ∈ accepted) then s_groups st else s_groups st ++ [[c_id c; req]]
          | None => s_groups st
          end in
        let n := op_node (c_op c) in
        let! w := unwrap (s_nodes st !! n) in
        Ret (mkS (<[n := mkWork (w_shell w) (Some p) (w_children w)]> (s_nodes st)) groups
               (<[n := default [] (s_structural st !! n) ++ [c_id c]]> (s_structural st)) (s_deleted st))
    end in
  Ret (match c_op c with
       | OpDelete n => mkS (s_nodes st) (s_groups st) (s_structural st) (<[n := c_id c]> (s_deleted st))
       | _ => st
       end).

Fixpoint structure_changes (inserts : gmap NodeRef ChangeId) (accepted : gset ChangeId) (cs : list change) (st : sstate) : rust sstate :=
  match cs with
  | [] => Ret st
  | c :: cs' => let! st := structure_change inserts accepted c st in structure_changes inserts accepted cs' st
  end.

Definition repeated_groups (structural : gmap NodeRef (list ChangeId)) : list (list ChangeId) :=
  filter (fun g => 1 < length g)%nat (omap (fun n => structural !! n) (sorted_keys structural)).

(** ** Live nodes *)

Inductive walk_end := Alive | Dead | Cycle (why : list ChangeId) | TooDeep.

Definition missing_insert (inserts : gmap NodeRef ChangeId) (accepted : gset ChangeId) (n : NodeRef) : bool :=
  match inserts !! n with Some i => bool_decide (i ∉ accepted) | None => false end.

(** The walk from a node to the root. *)
Fixpoint walk (fuel : nat) (inserts : gmap NodeRef ChangeId) (accepted : gset ChangeId) (st : sstate) (depth : Z)
    (at_ : option NodeRef) (path : gset NodeRef) : rust walk_end :=
  match at_ with
  | None => Ret Alive
  | Some n =>
      match fuel with
      | O => Panic
      | S f =>
          if decide (n ∈ path) then
            Ret (Cycle (flat_map (fun p => default [] (s_structural st !! p)) (sorted_refs path)))
          else
          let path := {[ n ]} ∪ path in
          if bool_decide (is_Some (s_deleted st !! n)) || missing_insert inserts accepted n then Ret Dead else
          if saturating_add 64 depth 1 <? Z.of_nat (size path) then Ret TooDeep else
          let! w := unwrap (s_nodes st !! n) in
          walk f inserts accepted st depth (w_parent w) path
      end
  end.

Fixpoint live_loop (inserts : gmap NodeRef ChangeId) (accepted : gset ChangeId) (st : sstate) (depth : Z) (cancel : CancelToken)
    (chosen : list ChangeId) (keys : list NodeRef) (live : gset NodeRef) (groups : list (list ChangeId)) :
    planm (gset NodeRef * list (list ChangeId)) :=
  match keys with
  | [] => l_ret (live, groups)
  | nr :: keys' =>
      let+ _ := l_check cancel in
      if missing_insert inserts accepted nr then live_loop inserts accepted st depth cancel chosen keys' live groups else
      let+ w := l_lift (walk (S (size (s_nodes st))) inserts accepted st depth (Some nr) ∅) in
      match w with
      | Alive => live_loop inserts accepted st depth cancel chosen keys' ({[ nr ]} ∪ live) groups
      | Dead => live_loop inserts accepted st depth cancel chosen keys' live groups
      | Cycle why => live_loop inserts accepted st depth cancel chosen keys' live (groups ++ [why])
      | TooDeep => l_err (Structural chosen "result exceeds maximum depth")
      end
  end.

(** The changes that keep a node from being live. *)
Fixpoint dead_group (fuel : nat) (inserts : gmap NodeRef ChangeId) (accepted : gset ChangeId) (st : sstate)
    (at_ : option NodeRef) (seen : gset NodeRef) (group : list ChangeId) : rust (list ChangeId) :=
  match at_ with
  | None => Ret group
  | Some n =>
      match fuel with
      | O => Panic
      | S f =>
          if decide (n ∈ seen) then Ret group else
          let group := group ++ match s_deleted st !! n with Some i => [i] | None => [] end in
          let group := group ++ match inserts !! n with Some i => if decide (i ∈ accepted) then [] else [i] | None => [] end in
          let! w := unwrap (s_nodes st !! n) in
          dead_group f inserts accepted st (w_parent w) ({[ n ]} ∪ seen) group
      end
  end.

Fixpoint dead_groups (inserts : gmap NodeRef ChangeId) (accepted : gset ChangeId) (st : sstate) (live : gset NodeRef)
    (cs : list change) (groups : list (list ChangeId)) : rust (list (list ChangeId)) :=
  match cs with
  | [] => Ret groups
  | c :: cs' =>
      if is_delete (c_op c) || bool_decide (op_node (c_op c) ∈ live) then dead_groups inserts accepted st live cs' groups
      else
        let! g := dead_group (S (size (s_nodes st))) inserts accepted st (Some (op_node (c_op c))) ∅ [c_id c] in
        dead_groups inserts accepted st live cs' (groups ++ [g])
  end.

(** ** Placement *)

(** [n.children.retain(|r| live.contains(r) && !moved.contains(r))]. *)
Definition retain (live moved : gset NodeRef) (w : Work) : Work :=
  mkWork (w_shell w) (w_parent w) (filter (fun r => r ∈ live /\ r ∉ moved) (w_children w)).

(** The first anchor that is in the list. *)
Fixpoint find_anchor (after : list Anchor) (l : list NodeRef) : option NodeRef :=
  match after with
  | [] => None
  | AnchorNode r :: after' => if decide (r ∈ l) then Some r else find_anchor after' l
  | AnchorStart :: _ => None
  end.

Abbreviation tails_map := (gmap (NodeRef * option NodeRef) NodeRef).

Definition place_idx (tails : tails_map) (p : NodeRef) (anchor : option NodeRef) (l : list NodeRef) : nat :=
  let effective :=
    match tails !! (p, anchor) with
    | Some r => if decide (r ∈ l) then Some r else anchor
    | None => anchor
    end in
  match effective with
  | Some r => match list_find (fun x => x = r) l with Some (i, _) => S i | None => 0%nat end
  | None => 0%nat
  end.

Definition place (o : op) (nodes : work_map) (tails : tails_map) : rust (work_map * tails_map) :=
  match op_placement o with
  | None => Ret (nodes, tails)
  | Some (p, after) =>
      let! w := unwrap (nodes !! p) in
      let l := w_children w in
      let anchor := find_anchor after l in
      let idx := place_idx tails p anchor l in
      Ret (<[p := mkWork (w_shell w) (w_parent w) (take idx l ++ op_node o :: drop idx l)]> nodes,
           <[(p, anchor) := op_node o]> tails)
  end.

Fixpoint place_all (cs : list change) (nodes : work_map) (tails : tails_map) : rust work_map :=
  match cs with
  | [] => Ret nodes
  | c :: cs' => let! (nodes, tails) := place (c_op c) nodes tails in place_all cs' nodes tails
  end.

(** ** Composition *)

Definition by_node (cs : list change) (n : NodeRef) : list change :=
  filter (fun c => is_payload (c_op c) = true /\ op_node (c_op c) = n) cs.

Fixpoint compose_nodes (keys : list NodeRef) (cs : list change) (nodes : work_map) : planm work_map :=
  match keys with
  | [] => l_ret nodes
  | n :: keys' =>
      let+ w := l_lift (unwrap (nodes !! n)) in
      let+ sh := l_pres (compose_shell is_boolean is_string is_object is_array (w_shell w) (by_node cs n)) in
      compose_nodes keys' cs (<[n := mkWork sh (w_parent w) (w_children w)]> nodes)
  end.

(** The keys of the map [by_node]. *)
Definition payload_nodes (cs : list change) : list NodeRef :=
  sorted_refs (list_to_set ((fun c => op_node (c_op c)) <$> filter (fun c => is_payload (c_op c) = true) cs)).

(** ** Emission *)

(** The JSON document: a node has its kind and attributes, and either its text
    and runs or its children. *)
Inductive Document := mkDoc (s : shell) (cs : list Document).

Section emit.
Context (nodes : work_map).
Fixpoint emit (fuel : nat) (n : NodeRef) (mapping : gmap NodeRef Z) : rust (Document * gmap NodeRef Z) :=
  match fuel with
  | O => Panic
  | S f =>
      let mapping := <[n := Z.of_nat (size mapping)]> mapping in
      let! w := unwrap (nodes !! n) in
      match sh_text (w_shell w) with
      | Some _ => Ret (mkDoc (w_shell w) [], mapping)
      | None =>
          let! (ds, mapping) :=
            (fix emit_all (l : list NodeRef) (mapping : gmap NodeRef Z) : rust (list Document * gmap NodeRef Z) :=
               match l with
               | [] => Ret ([], mapping)
               | c :: l' =>
                   let! (d, mapping) := emit f c mapping in
                   let! (ds, mapping) := emit_all l' mapping in
                   Ret (d :: ds, mapping)
               end) (w_children w) mapping in
          Ret (mkDoc (w_shell w) ds, mapping)
      end
  end.
End emit.

Record Plan := mkPlan { p_base : Z; p_result : Document; p_mapping : gmap NodeRef Z }.

(** ** [plan_bounded] up to the emitted document *)

Definition plan_bounded (a : tree) (g : graph) (accepted : gset ChangeId) (budget : Budget) (cancel : CancelToken) : planm Plan :=
  let+ _ := l_check cancel in
  if (max_nodes budget <? Z.of_nat (length (nodes a))) || (max_changes budget <? Z.of_nat (length (changes g)))
  then l_err (PBudget (BudgetErr "planner size")) else
  if negb (g_v g =? 2) || negb (algo g =? ALGO_VERSION) then l_err (PInvalidGraph "unsupported graph version") else
  if negb (sid a =? from g) then l_err (BaseMismatch (from g) (sid a)) else
  let+ root := l_lift (lid_at a (DiffTree.root a)) in
  let+ nodes := l_lift (base_nodes a (DiffTree.nodes a) ∅) in
  let+ (ids, inserts, nodes) := l_pres (register (changes g) ∅ ∅ nodes) in
  let+ _ := l_pres (known (sorted_ids accepted) ids) in
  let+ _ := validate_changes root budget cancel nodes (changes g) 0 in
  let chosen := filter (fun c => c_id c ∈ accepted) (changes g) in
  let+ groups := l_pres (explicit_groups (explicit_conflicts g) ids accepted []) in
  let+ st := l_lift (structure_changes inserts accepted chosen (mkS nodes groups ∅ ∅)) in
  let groups := s_groups st ++ repeated_groups (s_structural st) in
  let+ (live, groups) := live_loop inserts accepted st (max_depth budget) cancel (c_id <$> chosen) (sorted_keys (s_nodes st)) ∅ groups in
  let+ groups := l_lift (dead_groups inserts accepted st live chosen groups) in
  if negb (bool_decide (groups = [])) then l_err (Unresolved (tidy groups)) else
  let moved := list_to_set ((fun c => op_node (c_op c)) <$> filter (fun c => is_Some (op_placement (c_op c))) chosen) in
  let nodes := retain live moved <$> s_nodes st in
  let+ nodes := l_lift (place_all chosen nodes ∅) in
  let+ nodes := compose_nodes (payload_nodes chosen) chosen nodes in
  let+ (doc, mapping) := l_lift (emit nodes (size nodes) root ∅) in
  l_ret (mkPlan (sid a) doc mapping).

(** [Accepted::all]. *)
Definition accept_all (g : graph) : gset ChangeId := list_to_set (c_id <$> changes g).

(** ** The document of a tree ([model.rs])

    [to_json_at], as a document: an empty child list is not written, and read
    back as no children. *)
Fixpoint to_json_at (fuel : nat) (t : tree) (i : nat) : rust Document :=
  match fuel with
  | O => Panic
  | S f =>
      let! n := node t i in
      let! ds :=
        (fix all (l : list nat) : rust (list Document) :=
           match l with
           | [] => Ret []
           | c :: l' => let! d := to_json_at f t c in let! ds := all l' in Ret (d :: ds)
           end) (children n) in
      Ret (mkDoc (shell_of n) ds)
  end.
Definition to_json (t : tree) : rust Document := to_json_at (length (nodes t)) t (root t).

End plan.
