(* ===== verification/PlanShape.v ===== *)
(** * The shape of a built graph

    The changes [build] returns, as planning uses them: the placements in the
    order of the target, then for every node of the base its deletion or its
    payload changes. *)

From Stdlib Require Import String.
From S2P Require Import Prelude DiffBase Myers MyersRun TextDiff TextLaws Lis.
From S2P Require Import LisSuffix DiffTree TreeLaws Compose ComposeLaws RunLaws.
From S2P Require Import ShellLaws Classify ClassifyLaws Graph GraphLaws Plan.

Lemma Forall2_flat_map {A B C} (R : B -> C -> Prop) (f : A -> list B) l cs : Forall2 R (flat_map f l) cs ->
  exists blocks, cs = concat blocks /\ Forall2 (fun x blk => Forall2 R (f x) blk) l blocks.
Proof.
  revert cs. induction l as [|x l IH]; intros cs H; cbn [flat_map] in H.
  - inversion H; subst. by exists [].
  - apply Forall2_app_inv_l in H as (c1 & c2 & H1 & H2 & ->). destruct (IH c2 H2) as (bs & -> & Hb). exists (c1 :: bs). split; [done|by constructor].
Qed.

Lemma filter_flat_map {A B} (P : B -> Prop) `{!forall x, Decision (P x)} (f : A -> list B) l :
  filter P (flat_map f l) = flat_map (fun x => filter P (f x)) l.
Proof. induction l as [|x l IH]; [done|]. cbn [flat_map]. by rewrite filter_app, IH. Qed.

Section shape.
Context {Value : Type} `{!EqDecision Value}.
Context (is_boolean is_string is_object is_array : Value -> bool).
Abbreviation tree := (Tree Value).
Abbreviation op := (@Op Value).
Abbreviation change := (@Change Value).
Abbreviation doc_ok := (doc_ok is_boolean is_string is_object is_array).

Context (a b : tree) (m : Matching) (moved : list bool).
Hypothesis Ha : doc_ok a.
Hypothesis Hb : doc_ok b.
Hypothesis Hm : matching_ok a b m.
Hypothesis Hroots : a2b m (root a) = Some (root b).
Hypothesis Hmv : moved_ok a b m moved.

Abbreviation br := (br a b m).
Abbreviation ra := (ra a).

(** The nodes of the target that get a placement. *)
Definition to_place (y : nat) : Prop :=
  (y < length (nodes b))%nat /\ y <> root b /\ (b2a m y = None \/ exists x, b2a m y = Some x /\ moved !! x = Some true).

Definition placement_op (y : nat) (p : op) : Prop :=
  exists q pn i k, child_at b q pn i y /\ nodes b !! y = Some k /\
    (b2a m y = None /\ p = OpInsert (br y) (br q) (anchors_of a b m pn i) (shell_of k) \/
     is_Some (b2a m y) /\ p = OpMove (br y) (br q) (anchors_of a b m pn i)).

(** The raw operations of a node, spelled out. *)
Lemma raws_matched x y n k : a2b m x = Some y -> nodes a !! x = Some n -> nodes b !! y = Some k ->
  raws a b m moved x = (if decide (moved !! x = Some true) then [RMove x y] else []) ++
    (if decide (attrs n = attrs k) then [] else [RAttrs x y]) ++
    match ntext n, ntext k with
    | Some t, Some t' => if decide (tx t = tx t') then if decide (tf t = tf t') then [] else [RFormat x y] else [RModify x y]
    | _, _ => []
    end.
Proof using Hmv.
  intros Ey En Ek. unfold raws. rewrite En. unfold raw_node. rewrite Ey, (node_eq b y k Ek). cbn [rust_bind].
  destruct (lookup_lt_is_Some_2 moved x) as [mv Emv]; [rewrite (mv_len _ _ _ _ Hmv); by eapply lookup_lt_Some|].
  rewrite (at_idx_eq _ _ mv) by (lia || by rewrite Nat2Z.id). cbn [rust_bind]. rewrite Emv.
  destruct mv; [rewrite (decide_True (P := Some true = Some true)) by done|rewrite (decide_False (P := Some false = Some true)) by done]; done.
Qed.

Definition deleted_node (x : nat) : Prop :=
  exists n p, nodes a !! x = Some n /\ a2b m x = None /\ parent n = Some p /\ is_Some (a2b m p).

Lemma raws_unmatched x n : a2b m x = None -> nodes a !! x = Some n ->
  (raws a b m moved x = [RDelete x] /\ deleted_node x) \/ (raws a b m moved x = [] /\ ~ deleted_node x).
Proof using Ha Hroots.
  intros Ex En. unfold raws. rewrite En. unfold raw_node. rewrite Ex. destruct (Nat.eqb_spec x (root a)) as [->|Hne]; [congruence|]. cbn [negb andb].
  destruct (parent n) as [p|] eqn:Ep; [|by apply (lk_root a (dk_links _ _ _ _ a Ha) x n En) in Ep].
  case_bool_decide as Hp; [left|right]; (split; [done|]).
  - by exists n, p.
  - intros (n' & p' & En' & _ & Ep' & Hp'). apply Hp. congruence.
Qed.

Lemma raws_placed x r : r ∈ raws a b m moved x -> placed r -> exists y, r = RMove x y /\ a2b m x = Some y /\ moved !! x = Some true.
Proof using Ha Hm Hmv Hroots.
  intros Hr [z Hz]. destruct (nodes a !! x) as [n|] eqn:En; [|unfold raws in Hr; rewrite En in Hr; by apply not_elem_of_nil in Hr].
  destruct (a2b m x) as [y|] eqn:Ey.
  - destruct (m_kind a b m Hm x y Ey) as (n' & k & _ & Ek & _). rewrite (raws_matched x y n k Ey En Ek) in Hr. rewrite !elem_of_app in Hr.
    destruct Hr as [Hr|[Hr|Hr]].
    + destruct (decide _); [|by apply not_elem_of_nil in Hr]. apply list_elem_of_singleton in Hr as ->. by exists y.
    + destruct (decide _); [by apply not_elem_of_nil in Hr|]. by apply list_elem_of_singleton in Hr as ->.
    + destruct (ntext n); [|by apply not_elem_of_nil in Hr]. destruct (ntext k); [|by apply not_elem_of_nil in Hr].
      destruct (decide _); [destruct (decide _)|]; [by apply not_elem_of_nil in Hr| |]; by apply list_elem_of_singleton in Hr as ->.
  - destruct (raws_unmatched x n Ey En) as [[E _]|[E _]]; rewrite E in Hr; [|by apply not_elem_of_nil in Hr].
    by apply list_elem_of_singleton in Hr as ->.
Qed.

(** The placements among the raw operations. *)
Lemma placed_raws r : r ∈ all_raws a b m moved -> placed r ->
  exists y, placed_at r = Some y /\ to_place y /\ (r = RInsert y /\ b2a m y = None \/ exists x, r = RMove x y /\ b2a m y = Some x).
Proof using Ha Hb Hm Hmv Hroots.
  intros Hr Hp. pose proof (all_raws_ok _ _ _ _ a b m Ha Hb Hm Hroots moved Hmv) as Hok. rewrite Forall_forall in Hok. specialize (Hok r Hr).
  apply elem_of_app in Hr as [Hr|Hr].
  - apply list_elem_of_In, in_flat_map in Hr as (x & _ & Hr%list_elem_of_In). destruct (raws_placed x r Hr Hp) as (y & -> & Ey & Emv).
    pose proof (proj1 (m_inverse a b m Hm x y) Ey) as Ex. exists y. destruct Hok as (_ & Hy & Hne).
    split_and!; [done| |right; by exists x]. split_and!; [done|done|right; by exists x].
  - apply list_elem_of_fmap in Hr as (y & -> & [[Hy Hu] _]%list_elem_of_filter). exists y. destruct Hok as (Hlt & Hne).
    split_and!; [done| |by left]. split_and!; [done|done|by left].
Qed.

Lemma placed_complete y : to_place y -> exists r, r ∈ all_raws a b m moved /\ placed_at r = Some y.
Proof using Hm Hmv.
  intros (Hy & Hne & [Hu|(x & Ex & Emv)]).
  - exists (RInsert y). split; [|done]. apply elem_of_app. right. apply list_elem_of_fmap. exists y. split; [done|].
    apply list_elem_of_filter. split; [done|]. apply elem_of_seq. lia.
  - exists (RMove x y). split; [|done]. apply elem_of_app. left. apply (m_inverse a b m Hm) in Ex.
    destruct (m_kind a b m Hm x y Ex) as (n & k & En & Ek & _). apply list_elem_of_In, in_flat_map. exists x.
    split; [apply in_seq; apply lookup_lt_Some in En; lia|]. apply list_elem_of_In. rewrite (raws_matched x y n k Ex En Ek), decide_True by done.
    by left.
Qed.

Lemma raws_key x : omap placed_at (raws a b m moved x) = [] \/ exists y, omap placed_at (raws a b m moved x) = [y] /\ a2b m x = Some y.
Proof using Ha Hm Hmv Hroots.
  destruct (nodes a !! x) as [n|] eqn:En; [|unfold raws; rewrite En; by left]. destruct (a2b m x) as [y|] eqn:Ey.
  - destruct (m_kind a b m Hm x y Ey) as (n' & k & _ & Ek & _). rewrite (raws_matched x y n k Ey En Ek), !omap_app.
    replace (omap placed_at (if decide (attrs n = attrs k) then [] else [RAttrs x y])) with (@nil nat) by (by destruct (decide _)).
    assert (E : omap placed_at match ntext n, ntext k with
      | Some t, Some t' => if decide (tx t = tx t') then if decide (tf t = tf t') then [] else [RFormat x y] else [RModify x y]
      | _, _ => [] end = []) by (destruct (ntext n), (ntext k); try done; by repeat destruct (decide _)).
    rewrite E. destruct (decide _); [right; by exists y|by left].
  - left. destruct (raws_unmatched x n Ey En) as [[E _]|[E _]]; by rewrite E.
Qed.

Lemma placed_nodup : NoDup (omap placed_at (all_raws a b m moved)).
Proof using Ha Hb Hm Hmv Hroots.
  unfold all_raws. rewrite omap_app.
  assert (Hsrc : forall l y, y ∈ omap placed_at (flat_map (raws a b m moved) l) -> exists x, x ∈ l /\ a2b m x = Some y).
  { intros l y. induction l as [|x l IH]; cbn [flat_map]; [by intros ?%not_elem_of_nil|]. rewrite omap_app. intros [H|H]%elem_of_app.
    - exists x. split; [by left|]. destruct (raws_key x) as [E|(z & E & Ez)]; rewrite E in H; [by apply not_elem_of_nil in H|].
      by apply list_elem_of_singleton in H as ->.
    - destruct (IH H) as (x' & Hx & E). exists x'. split; [by right|done]. }
  apply NoDup_app. split_and!.
  - assert (Hn : NoDup (seq 0 (length (nodes a)))) by apply NoDup_seq. induction Hn as [|x l Hx _ IH]; [constructor|]. cbn [flat_map]. rewrite omap_app.
    destruct (raws_key x) as [E|(y & E & Ey)]; rewrite E; [done|]. cbn [app]. constructor; [|done].
    intros (x' & Hin & Ex')%Hsrc. apply (m_inverse a b m Hm) in Ey, Ex'. congruence.
  - intros y (x & _ & Ey)%Hsrc Hin. apply (m_inverse a b m Hm) in Ey. apply list_elem_of_omap in Hin as (r & Hr & Er).
    apply list_elem_of_fmap in Hr as (y' & -> & [[_ Hu] _]%list_elem_of_filter). injection Er as ->. congruence.
  - unfold raw_inserts. induction (filter _ (seq 0 (length (nodes b)))) as [|y l IH] eqn:E.
    + constructor.
    + assert (Hn : NoDup (y :: l)) by (rewrite <- E; apply NoDup_filter, NoDup_seq). clear -Hn.
      replace (omap placed_at (RInsert <$> y :: l)) with (y :: l); [done|]. clear Hn. induction (y :: l) as [|z l' IH]; [done|]. cbn. by f_equal.
Qed.

(** ** The changes *)

Context (cs : list change).
Hypothesis Hcs : changes_for a b m (stable_sort raw_le (all_raws a b m moved)) cs.

Lemma changes_split : exists cs1 cs2 P, cs = cs1 ++ cs2 /\ increasing P /\ (forall y, y ∈ P <-> to_place y) /\
  Forall2 (fun y c => placement_op y (c_op c)) P cs1 /\
  Forall2 (fun r c => op_for a b m r (c_op c)) (flat_map (fun x => filter (fun r => ~ placed r) (raws a b m moved x)) (seq 0 (length (nodes a)))) cs2.
Proof using Ha Hb Hm Hmv Hroots Hcs.
  destruct (stable_sort_raw (all_raws a b m moved)) as (l1 & E & Hp & Hpl & Hs). unfold changes_for in Hcs. rewrite E in Hcs.
  apply Forall2_app_inv_l in Hcs as (cs1 & cs2 & H1 & H2 & ->). exists cs1, cs2, (omap placed_at l1).
  assert (Hin : forall r, r ∈ l1 -> r ∈ all_raws a b m moved /\ placed r).
  { intros r Hr. rewrite Hp in Hr. apply list_elem_of_filter in Hr as [? ?]. done. }
  split_and!; [done| | | |].
  - assert (Hn : NoDup (omap placed_at l1)).
    { rewrite Hp. pose proof placed_nodup as Hn. clear -Hn. induction (all_raws a b m moved) as [|r l IH]; [constructor|].
      rewrite filter_cons. cbn in Hn. destruct (decide (placed r)) as [[y Ey]|Hno].
      - cbn. rewrite Ey in Hn |- *. inversion Hn as [|? ? Hy Hn']; subst. constructor; [|by apply IH].
        intros (r' & Hr' & Er')%list_elem_of_omap. apply list_elem_of_filter in Hr' as [_ Hr']. apply Hy. apply list_elem_of_omap. by exists r'.
      - destruct (placed_at r) as [y|] eqn:Ey; [by destruct Hno; exists y|by apply IH]. }
    clear -Hs Hpl Hn. induction Hs as [|r l1 _ IH Hf]; [constructor|]. inversion Hpl as [|? ? [y Ey] Hpl']; subst.
    cbn in Hn |- *. rewrite Ey in Hn |- *. inversion Hn as [|? ? Hy Hn']; subst. constructor; [by apply IH|]. apply Forall_forall. intros z Hz.
    assert (z <> y) by (by intros ->). apply list_elem_of_omap in Hz as (r' & Hr' & Ez). rewrite Forall_forall in Hf. specialize (Hf r' Hr').
    rewrite (raw_le_placed r r' y z Ey Ez) in Hf. apply Nat.leb_le in Hf. lia.
  - intros y. rewrite list_elem_of_omap. split.
    + intros (r & Hr & Er). destruct (Hin r Hr) as [Hall Hplr]. destruct (placed_raws r Hall Hplr) as (z & Ez & Hz & _). congruence.
    + intros Hy. destruct (placed_complete y Hy) as (r & Hr & Er). exists r. split; [|done]. rewrite Hp. apply list_elem_of_filter. split; [by exists y|done].
  - clear E Hp Hs. induction H1 as [|r c l1 cs1 Hop _ IH]; [constructor|]. inversion Hpl as [|? ? _ Hpl']; subst.
    destruct (Hin r ltac:(by left)) as [Hall Hplr]. destruct (placed_raws r Hall Hplr) as (y & Ey & _ & Hkind).
    cbn. rewrite Ey. constructor; [|apply IH; [done|intros; apply Hin; by right]].
    destruct Hkind as [[-> Hu]|(x & -> & Hx)].
    + destruct Hop as (q & pn & i & k & Hc & Ek & ->). exists q, pn, i, k. split_and!; [done|done|left; done].
    + destruct Hop as (q & pn & i & Hc & ->). apply (m_inverse a b m Hm) in Hx as Hx'. destruct (m_kind a b m Hm x y Hx') as (n & k & _ & Ek & _).
      exists q, pn, i, k. split_and!; [done|done|right]. split; [by exists x|]. replace (br y) with (ra x); [done|]. unfold GraphLaws.br. by rewrite Hx.
  - unfold all_raws in H2. rewrite filter_app in H2.
    assert (En : filter (fun r => ~ placed r) (raw_inserts b m) = []).
    { unfold raw_inserts. induction (filter _ (seq 0 _)) as [|y l IH]; [done|]. cbn [fmap list_fmap]. rewrite filter_cons_False; [done|]. intros H. apply H. by exists y. }
    rewrite En, app_nil_r, filter_flat_map in H2. exact H2.
Qed.

(** ** Deletions and payloads *)

Definition kept_raws (x : nat) : list Raw := filter (fun r => ~ placed r) (raws a b m moved x).

(** The text diffs of a node's payload changes. *)
Definition edits_ok (n k : Node Value) (edits : list Edit) : Prop :=
  forall t t', ntext n = Some t -> ntext k = Some t' -> tx t <> tx t' -> edits_between (tx t) (tx t') edits.

Lemma block_matched x y n k blk : a2b m x = Some y -> nodes a !! x = Some n -> nodes b !! y = Some k ->
  Forall2 (fun r c => op_for a b m r (c_op c)) (kept_raws x) blk ->
  exists edits, edits_ok n k edits /\ c_op <$> blk = node_changes (ra x) (shell_of n) (shell_of k) edits.
Proof using Hmv.
  intros Ey En Ek Hblk. unfold kept_raws in Hblk. rewrite (raws_matched x y n k Ey En Ek), !filter_app in Hblk.
  replace (filter (fun r => ~ placed r) (if decide (moved !! x = Some true) then [RMove x y] else [])) with (@nil Raw) in Hblk.
  2: { destruct (decide _); [|done]. rewrite filter_cons_False; [done|]. intros H. apply H. by exists y. }
  cbn [app] in Hblk. apply Forall2_app_inv_l in Hblk as (b1 & b2 & H1 & H2 & ->). rewrite fmap_app.
  assert (E1 : c_op <$> b1 = if decide (sh_attrs (shell_of n) = sh_attrs (shell_of k)) then [] else [OpAttrs (ra x) (sh_attrs (shell_of n)) (sh_attrs (shell_of k))]).
  { cbn [shell_of sh_attrs]. destruct (decide (attrs n = attrs k)); [by inversion H1|].
    rewrite filter_cons_True in H1 by (by intros []). inversion H1 as [|? c ? ? Hop Hnil]; subst. inversion Hnil; subst. cbn.
    destruct Hop as (n' & k' & En' & Ek' & ->). assert (n' = n) as -> by congruence. assert (k' = k) as -> by congruence. done. }
  assert (E2 : exists edits, edits_ok n k edits /\ c_op <$> b2 = match sh_text (shell_of n), sh_text (shell_of k) with
    | Some t, Some t' => if decide (tx t = tx t') then if decide (tf t = tf t') then [] else [OpFormat (ra x) (tf t) (tf t')] else [OpModify (ra x) edits t t']
    | _, _ => [] end).
  { cbn [shell_of sh_text]. destruct (ntext n) as [t|] eqn:Et.
    2: { exists []. split; [intros ? ? E; congruence|]. by inversion H2. }
    destruct (ntext k) as [t'|] eqn:Et'.
    2: { exists []. split; [intros ? ? _ E; congruence|]. by inversion H2. }
    destruct (decide (tx t = tx t')) as [Ex|Ex].
    - exists []. split; [intros t1 t2 E E'; rewrite Et in E; rewrite Et' in E'; injection E as <-; injection E' as <-; done|].
      destruct (decide (tf t = tf t')); [by inversion H2|]. rewrite filter_cons_True in H2 by (by intros []).
      inversion H2 as [|? c ? ? Hop Hnil]; subst. inversion Hnil; subst. cbn. destruct Hop as (n' & k' & o & w & En' & Ek' & Eo & Ew & ->).
      assert (n' = n) as -> by congruence. assert (k' = k) as -> by congruence. assert (o = t) as -> by congruence. assert (w = t') as -> by congruence. done.
    - rewrite filter_cons_True in H2 by (by intros []). inversion H2 as [|? c ? ? Hop Hnil]; subst. inversion Hnil; subst. cbn.
      destruct Hop as (n' & k' & o & w & edits & En' & Ek' & Eo & Ew & He & ->).
      assert (n' = n) as -> by congruence. assert (k' = k) as -> by congruence. assert (o = t) as -> by congruence. assert (w = t') as -> by congruence.
      exists edits. split; [|done]. intros t1 t2 E E' _. rewrite Et in E. rewrite Et' in E'. injection E as <-. by injection E' as <-. }
  destruct E2 as (edits & He & E2). exists edits. split; [done|]. unfold node_changes. by rewrite E1, E2.
Qed.

Lemma block_unmatched x n blk : a2b m x = None -> nodes a !! x = Some n ->
  Forall2 (fun r c => op_for a b m r (c_op c)) (kept_raws x) blk ->
  (blk = [] /\ ~ deleted_node x) \/ (deleted_node x /\ exists c, blk = [c] /\ c_op c = OpDelete (ra x)).
Proof using Ha Hroots.
  intros Ex En Hblk. unfold kept_raws in Hblk. destruct (raws_unmatched x n Ex En) as [[E Hd]|[E Hd]]; rewrite E in Hblk.
  - right. split; [done|]. rewrite filter_cons_True in Hblk by (by intros []). inversion Hblk as [|? c ? ? Hop Hnil]; subst. inversion Hnil; subst. by exists c.
  - left. split; [by inversion Hblk|done].
Qed.

Lemma node_changes_payload n (w t : @Shell Value) edits o : o ∈ node_changes n w t edits -> is_payload o = true /\ op_node o = n.
Proof using Type.
  unfold node_changes. rewrite elem_of_app. intros [H|H].
  - destruct (decide _); [by apply not_elem_of_nil in H|]. by apply list_elem_of_singleton in H as ->.
  - destruct (sh_text w), (sh_text t); try (by apply not_elem_of_nil in H).
    destruct (decide _); [destruct (decide _)|]; [by apply not_elem_of_nil in H| |]; by apply list_elem_of_singleton in H as ->.
Qed.

Section blocks.
Context (cs2 : list change).
Hypothesis Hcs2 : Forall2 (fun r c => op_for a b m r (c_op c)) (flat_map kept_raws (seq 0 (length (nodes a)))) cs2.

(** A change of the second part deletes a node or changes a matched one. *)
Lemma rest_changes c : c ∈ cs2 -> (exists x, deleted_node x /\ c_op c = OpDelete (ra x)) \/
  (exists x y n k edits, a2b m x = Some y /\ nodes a !! x = Some n /\ nodes b !! y = Some k /\ edits_ok n k edits /\
     c_op c ∈ node_changes (ra x) (shell_of n) (shell_of k) edits).
Proof using Ha Hm Hmv Hroots Hcs2.
  intros Hc. apply Forall2_flat_map in Hcs2 as (blocks & -> & Hbl). apply list_elem_of_In, in_concat in Hc as (blk & Hblk & Hc).
  apply list_elem_of_In in Hblk, Hc. apply list_elem_of_lookup in Hblk as [i Ei].
  destruct (Forall2_lookup_r _ _ _ _ _ Hbl Ei) as (x & Ex & Hb'). apply lookup_seq in Ex as [-> Hlt]. cbn [Nat.add] in *.
  destruct (lookup_lt_is_Some_2 _ _ Hlt) as [n En]. destruct (a2b m i) as [y|] eqn:Ey.
  - right. destruct (m_kind a b m Hm i y Ey) as (n' & k & _ & Ek & _).
    destruct (block_matched i y n k blk Ey En Ek Hb') as (edits & He & E). exists i, y, n, k, edits. split_and!; try done.
    rewrite <- E. apply list_elem_of_fmap. by exists c.
  - left. destruct (block_unmatched i n blk Ey En Hb') as [[-> _]|(Hd & c' & -> & Hop)]; [by apply not_elem_of_nil in Hc|].
    apply list_elem_of_singleton in Hc as ->. by exists i.
Qed.

Lemma deletions_complete x : deleted_node x -> exists c, c ∈ cs2 /\ c_op c = OpDelete (ra x).
Proof using Ha Hroots Hcs2.
  intros Hd. pose proof Hd as (n & p & En & Ex & _). apply Forall2_flat_map in Hcs2 as (blocks & -> & Hbl).
  pose proof (lookup_lt_Some _ _ _ En) as Hlt. destruct (Forall2_lookup_l _ _ _ x x Hbl) as (blk & Eb & Hb'); [apply lookup_seq; lia|].
  destruct (block_unmatched x n blk Ex En Hb') as [[_ Hn]|(_ & c & -> & Hop)]; [done|]. exists c. split; [|done].
  apply list_elem_of_In, in_concat. exists [c]. split; [|by left]. apply list_elem_of_In. by eapply list_elem_of_lookup_2.
Qed.

Lemma filter_Forall {A} (P : A -> Prop) `{!forall x, Decision (P x)} l : Forall P l -> filter P l = l.
Proof using Type. induction 1 as [|x l Hx _ IH]; [done|]. rewrite filter_cons_True by done. by f_equal. Qed.
Lemma filter_none {A} (P : A -> Prop) `{!forall x, Decision (P x)} l : Forall (fun x => ~ P x) l -> filter P l = [].
Proof using Type. induction 1 as [|x l Hx _ IH]; [done|]. by rewrite filter_cons_False. Qed.

Lemma filter_concat_none {A} (P : A -> Prop) `{!forall x, Decision (P x)} (blocks : list (list A)) :
  (forall j blk, blocks !! j = Some blk -> filter P blk = []) -> filter P (concat blocks) = [].
Proof using Type.
  induction blocks as [|blk blocks IH]; intros Hj; [done|]. cbn [concat]. rewrite filter_app, (Hj 0%nat blk eq_refl), IH; [done|].
  intros j blk' E. by apply (Hj (S j)).
Qed.

Lemma filter_concat_one {A} (P : A -> Prop) `{!forall x, Decision (P x)} (blocks : list (list A)) i blk : blocks !! i = Some blk ->
  (forall j blk', blocks !! j = Some blk' -> j <> i -> filter P blk' = []) -> filter P (concat blocks) = filter P blk.
Proof using Type.
  revert i. induction blocks as [|blk0 blocks IH]; intros [|i] E Hj; try done; cbn [concat]; rewrite filter_app; simpl in E.
  - injection E as ->. rewrite (filter_concat_none P blocks); [by rewrite app_nil_r|]. intros j blk' Ej. by apply (Hj (S j)).
  - rewrite (Hj 0%nat blk0 eq_refl ltac:(lia)). cbn [app]. apply (IH i E). intros j blk' Ej Hne. apply (Hj (S j)); [done|lia].
Qed.

(** The payload changes of a matched node. *)
Lemma by_node_matched x y n k : a2b m x = Some y -> nodes a !! x = Some n -> nodes b !! y = Some k ->
  exists edits, edits_ok n k edits /\ c_op <$> by_node cs2 (ra x) = node_changes (ra x) (shell_of n) (shell_of k) edits.
Proof using Ha Hm Hmv Hroots Hcs2.
  intros Ey En Ek. apply Forall2_flat_map in Hcs2 as (blocks & -> & Hbl). pose proof (lookup_lt_Some _ _ _ En) as Hlt.
  destruct (Forall2_lookup_l _ _ _ x x Hbl) as (blk & Eb & Hb'); [apply lookup_seq; lia|].
  destruct (block_matched x y n k blk Ey En Ek Hb') as (edits & He & E). exists edits. split; [done|]. rewrite <- E. f_equal.
  assert (Hblk : by_node blk (ra x) = blk).
  { apply filter_Forall, Forall_forall. intros c Hc. eapply node_changes_payload. rewrite <- E. apply list_elem_of_fmap. by exists c. }
  assert (Hother : forall j blk', blocks !! j = Some blk' -> j <> x -> by_node blk' (ra x) = []).
  { intros j blk' Ej Hne. apply filter_none, Forall_forall. intros c Hc [Hpay Hnode].
    destruct (Forall2_lookup_r _ _ _ _ _ Hbl Ej) as (x' & Ex' & Hb2). apply lookup_seq in Ex' as [-> Hlt']. cbn [Nat.add] in *.
    destruct (lookup_lt_is_Some_2 _ _ Hlt') as [n' En']. destruct (a2b m j) as [y'|] eqn:Ey'.
    - destruct (m_kind a b m Hm j y' Ey') as (n2 & k' & _ & Ek' & _). destruct (block_matched j y' n' k' blk' Ey' En' Ek' Hb2) as (e' & _ & E').
      assert (Hin : c_op c ∈ c_op <$> blk') by (apply list_elem_of_fmap; by exists c). rewrite E' in Hin.
      apply node_changes_payload in Hin as [_ Hn]. apply Hne. apply (ra_inj _ _ _ _ a Ha); [done|done|congruence].
    - destruct (block_unmatched j n' blk' Ey' En' Hb2) as [[-> _]|(_ & c' & -> & Hop)]; [by apply not_elem_of_nil in Hc|].
      apply list_elem_of_singleton in Hc as ->. rewrite Hop in Hpay. done. }
  unfold by_node in *. rewrite (filter_concat_one _ blocks x blk Eb Hother). exact Hblk.
Qed.

End blocks.
End shape.
