(* ===== verification/PlanNodes.v ===== *)
(** * Planning a built graph: nodes and parents

    The stages of [plan_bounded] up to the new parents, on the changes of a
    built graph, all of them accepted. *)

From Stdlib Require Import String.
From S2P Require Import Prelude DiffBase Myers MyersRun TextDiff TextLaws Lis.
From S2P Require Import LisSuffix DiffTree TreeLaws Compose ComposeLaws RunLaws.
From S2P Require Import ShellLaws Classify ClassifyLaws Graph GraphLaws Plan.
From S2P Require Import PlanShape.

Section nodes.
Context {Value : Type} `{!EqDecision Value}.
Context (is_boolean is_string is_object is_array : Value -> bool).
Abbreviation tree := (Tree Value).
Abbreviation op := (@Op Value).
Abbreviation change := (@Change Value).
Abbreviation doc_ok := (doc_ok is_boolean is_string is_object is_array).
Abbreviation work_map := (gmap NodeRef (@Work Value)).

Context (a b : tree) (m : Matching) (moved : list bool).
Hypothesis Ha : doc_ok a.
Hypothesis Hb : doc_ok b.
Hypothesis Hm : matching_ok a b m.
Hypothesis Hroots : a2b m (root a) = Some (root b).
Hypothesis Hmv : moved_ok a b m moved.
Abbreviation br := (br a b m).
Abbreviation ra := (ra a).
Abbreviation to_place := (to_place b m moved).

Context (cs1 cs2 : list change) (P : list nat).
Hypothesis HP : increasing P.
Hypothesis Hplace : forall y, y ∈ P <-> to_place y.
Hypothesis H1 : Forall2 (fun y c => placement_op a b m y (c_op c)) P cs1.
Hypothesis H2 : Forall2 (fun r c => op_for a b m r (c_op c)) (flat_map (kept_raws a b m moved) (seq 0 (length (nodes a)))) cs2.
Hypothesis Hids : NoDup (c_id <$> (cs1 ++ cs2)).

Local Notation La := (length (nodes a)).
Local Notation Lb := (length (nodes b)).

(** ** Nodes of the base *)

Definition base_of (n : Node Value) : @Work Value := mkWork (shell_of n) (ra <$> parent n) (ra <$> children n).

Lemma lid_at_eq x : (x < La)%nat -> lid_at a x = Ret (ra x).
Proof using Type. intros H. destruct (lookup_lt_is_Some_2 _ _ H) as [n En]. unfold lid_at. rewrite (node_eq a x n En). cbn [rust_bind]. by rewrite (ra_eq _ _ _ En). Qed.

Lemma base_work_eq x n : nodes a !! x = Some n -> base_work a n = Ret (base_of n).
Proof using Ha.
  intros En. pose proof (dk_links _ _ _ _ a Ha) as La'. unfold base_work, base_of.
  assert (Hc : lids_at a (children n) = Ret (ra <$> children n)).
  { destruct (wf_children a x n (lk_wf a La') En) as [Hch _]. clear -Hch. induction Hch as [|c l Hc _ IH]; [done|].
    cbn [lids_at]. rewrite lid_at_eq by done. cbn [rust_bind]. by rewrite IH. }
  destruct (parent n) as [p|] eqn:Ep.
  - destruct (lk_parent a La' x n p En Ep) as (pn & Epn & _). rewrite lid_at_eq by (by eapply lookup_lt_Some). cbn [rust_bind]. by rewrite Hc.
  - cbn [rust_bind]. by rewrite Hc.
Qed.

Lemma base_nodes_spec : exists N, base_nodes a (nodes a) ∅ = Ret N /\
  (forall x n, nodes a !! x = Some n -> N !! ra x = Some (base_of n)) /\
  (forall r, is_Some (N !! r) -> exists x, (x < La)%nat /\ r = ra x).
Proof using Ha.
  assert (Hgen : forall ns k (N : work_map), ns = drop k (nodes a) -> (k <= La)%nat ->
    (forall x n, (x < k)%nat -> nodes a !! x = Some n -> N !! ra x = Some (base_of n)) ->
    (forall r, is_Some (N !! r) -> exists x, (x < La)%nat /\ r = ra x) ->
    exists N', base_nodes a ns N = Ret N' /\ (forall x n, nodes a !! x = Some n -> N' !! ra x = Some (base_of n)) /\
      (forall r, is_Some (N' !! r) -> exists x, (x < La)%nat /\ r = ra x)).
  { induction ns as [|n ns IH]; intros k N Ens Hk Hx Hd; cbn [base_nodes].
    - exists N. split_and!; [done| |done]. intros x n En. apply Hx; [|done]. apply lookup_lt_Some in En.
      assert (length (drop k (nodes a)) = 0)%nat by (by rewrite <- Ens). rewrite length_drop in *. lia.
    - assert (En : nodes a !! k = Some n) by (rewrite <- (Nat.add_0_r k), <- lookup_drop, <- Ens; done).
      pose proof (lookup_lt_Some _ _ _ En) as Hlt. rewrite (base_work_eq k n En). cbn [rust_bind].
      rewrite <- (ra_eq _ _ _ En). apply (IH (S k)); [|lia| |].
      + rewrite <- Nat.add_1_r, <- drop_drop, <- Ens. done.
      + intros x n' Hxk En'. destruct (decide (x = k)) as [->|Hne]; [rewrite lookup_insert_eq; congruence|].
        rewrite lookup_insert_ne; [apply Hx; [lia|done]|]. intros E. apply Hne.
        apply (ra_inj _ _ _ _ a Ha) in E; [done|done|by eapply lookup_lt_Some].
      + intros r. rewrite lookup_insert_is_Some. intros [<-|[_ Hr]]; [by exists k|by apply Hd]. }
  apply (Hgen (nodes a) 0%nat); [done|lia|lia|]. intros r [w Hw]. by rewrite lookup_empty in Hw.
Qed.

(** ** Views of the nodes

    A node of the target, as the planner stores it before its changes. *)
Definition old_shell (y : nat) (k : Node Value) : @Shell Value :=
  match b2a m y with Some x => match nodes a !! x with Some n => shell_of n | None => shell_of k end | None => shell_of k end.
Definition old_children (y : nat) : list NodeRef :=
  match b2a m y with Some x => match nodes a !! x with Some n => ra <$> children n | None => [] end | None => [] end.

Record nodes_view (par : nat -> Node Value -> option NodeRef -> Prop) (N : work_map) : Prop := {
  nv_b : forall y k, nodes b !! y = Some k -> exists pr, par y k pr /\ N !! br y = Some (mkWork (old_shell y k) pr (old_children y));
  nv_a : forall x n, nodes a !! x = Some n -> a2b m x = None -> N !! ra x = Some (base_of n);
  nv_dom : forall r, is_Some (N !! r) -> (exists y, (y < Lb)%nat /\ r = br y) \/ (exists x, (x < La)%nat /\ a2b m x = None /\ r = ra x) }.

(** The parent in the target. *)
Definition new_parent (y : nat) (k : Node Value) (pr : option NodeRef) : Prop := pr = br <$> parent k.
(** Nodes to place still have some other parent. *)
Definition first_parent (y : nat) (k : Node Value) (pr : option NodeRef) : Prop := y ∉ P -> new_parent y k pr.

Lemma matched_br x y : a2b m x = Some y -> br y = ra x.
Proof using Hm. intros E. apply (m_inverse a b m Hm) in E. unfold GraphLaws.br. by rewrite E. Qed.

(** A matched node that is not placed already has its parent. *)
Lemma kept_parent x y n k : a2b m x = Some y -> nodes a !! x = Some n -> nodes b !! y = Some k -> y ∉ P -> ra <$> parent n = br <$> parent k.
Proof using Ha Hb Hm Hroots Hmv Hplace.
  intros Ey En Ek Hy. destruct (decide (x = root a)) as [->|Hne].
  - assert (y = root b) as -> by congruence. rewrite (proj2 (lk_root a (dk_links _ _ _ _ a Ha) _ n En) eq_refl).
    by rewrite (proj2 (lk_root b (dk_links _ _ _ _ b Hb) _ k Ek) eq_refl).
  - assert (Hyr : y <> root b).
    { intros ->. apply (m_inverse a b m Hm) in Ey, Hroots. congruence. }
    destruct (lookup_lt_is_Some_2 moved x) as [mv Emv]; [rewrite (mv_len _ _ _ _ Hmv); by eapply lookup_lt_Some|].
    destruct mv.
    { exfalso. apply Hy, Hplace. split_and!; [by eapply lookup_lt_Some|done|]. right. exists x. split; [|done]. by apply (m_inverse a b m Hm). }
    rewrite <- (mv_parent _ _ _ _ Hmv x n y k En Ey Ek Hne Emv). destruct (parent n) as [p|] eqn:Ep; [|done].
    pose proof (mv_parent _ _ _ _ Hmv x n y k En Ey Ek Hne Emv) as Hpk. rewrite Ep in Hpk. cbn [mbind option_bind fmap option_fmap option_map] in *.
    destruct (a2b m p) as [q|] eqn:Eq; [simpl; by rewrite (matched_br p q Eq)|]. exfalso. symmetry in Hpk.
    apply (lk_root b (dk_links _ _ _ _ b Hb) y k Ek) in Hpk. done.
Qed.

(** ** Inserts *)

Lemma old_shell_unmatched y k : b2a m y = None -> old_shell y k = shell_of k.
Proof using Type. intros E. unfold old_shell. by rewrite E. Qed.
Lemma old_children_unmatched y : b2a m y = None -> old_children y = [].
Proof using Type. intros E. unfold old_children. by rewrite E. Qed.

(** The state while the placements are registered. *)
Record reg_ok (Q : list nat) (ids : gset (list Z)) (inserts : gmap NodeRef (list Z)) (N : work_map) : Prop := {
  rg_ids : forall r i, inserts !! r = Some i -> i ∈ ids;
  rg_new : forall y, y ∈ Q -> b2a m y = None -> N !! br y = None /\ inserts !! br y = None;
  rg_old : forall y k, nodes b !! y = Some k -> y ∉ Q -> exists pr, first_parent y k pr /\ N !! br y = Some (mkWork (old_shell y k) pr (old_children y));
  rg_matched : forall y k, nodes b !! y = Some k -> is_Some (b2a m y) -> exists pr, first_parent y k pr /\ N !! br y = Some (mkWork (old_shell y k) pr (old_children y));
  rg_a : forall x n, nodes a !! x = Some n -> a2b m x = None -> N !! ra x = Some (base_of n);
  rg_dom : forall r, is_Some (N !! r) -> (exists y, (y < Lb)%nat /\ r = br y) \/ (exists x, (x < La)%nat /\ a2b m x = None /\ r = ra x) }.

Lemma br_unmatched y : b2a m y = None -> exists l, br y = RefB l.
Proof using Type. intros E. unfold GraphLaws.br. rewrite E. by eexists. Qed.

Lemma br_not_ra y x : (y < Lb)%nat -> (x < La)%nat -> a2b m x = None -> br y <> ra x.
Proof using Ha Hm.
  intros Hy Hx Ex. unfold GraphLaws.br. destruct (b2a m y) as [x'|] eqn:E; [|done]. apply (m_inverse a b m Hm) in E.
  destruct (image_in _ _ _ Hm x' y E) as [Hx' _]. intros Eq. apply (ra_inj _ _ _ _ a Ha) in Eq; [|done|done]. congruence.
Qed.

Lemma register_placements Q cs1' : Forall2 (fun y c => placement_op a b m y (c_op c)) Q cs1' -> increasing Q -> (forall y, y ∈ Q -> y ∈ P) ->
  forall rest ids inserts N, NoDup (c_id <$> cs1') -> (forall c, c ∈ cs1' -> c_id c ∉ ids) -> reg_ok Q ids inserts N ->
  exists inserts' N', register (cs1' ++ rest) ids inserts N = register rest (ids ∪ list_to_set (c_id <$> cs1')) inserts' N' /\
    reg_ok [] (ids ∪ list_to_set (c_id <$> cs1')) inserts' N'.
Proof using All.
  induction 1 as [|y c Q cs1' Hop _ IH]; intros Hinc HQ rest ids inserts N Hn Hfresh Hreg; cbn [app register].
  { exists inserts, N. cbn [fmap list_fmap list_to_set]. by rewrite union_empty_r_L. }
  inversion Hinc as [|? ? Hinc' Hlt]; subst. inversion Hn as [|? ? Hc Hn']; subst.
  rewrite decide_False by (apply Hfresh; by left).
  assert (Hfresh' : forall c', c' ∈ cs1' -> c_id c' ∉ {[c_id c]} ∪ ids).
  { intros c' Hc'. rewrite not_elem_of_union, not_elem_of_singleton. split; [|apply Hfresh; by right]. intros E. apply Hc. rewrite <- E.
    apply list_elem_of_fmap. by exists c'. }
  assert (Eids : ids ∪ list_to_set (c_id <$> c :: cs1') = ({[c_id c]} ∪ ids) ∪ list_to_set (c_id <$> cs1') :> gset (list Z)) by (cbn; set_solver).
  rewrite Eids. assert (HyQ : y ∉ Q) by (rewrite Forall_forall in Hlt; intros Hin; specialize (Hlt y Hin); lia).
  destruct Hreg as [Ri Rn Ro Rm Ra Rd]. destruct Hop as (q & pn & i & k & Hc' & Ek & [[Hu ->]|[Hu ->]]).
  - destruct (br_unmatched y Hu) as [l El]. destruct (Rn y ltac:(by left) Hu) as [EN EI].
    assert (Hyb : (y < Lb)%nat) by (by eapply lookup_lt_Some).
    rewrite El. rewrite <- El. rewrite bool_decide_eq_false_2 by (rewrite EN; by intros []). rewrite bool_decide_eq_false_2 by (rewrite EI; by intros []). cbn [orb].
    apply IH; [done|intros; apply HQ; by right|done|done|]. split.
    + intros r j. rewrite lookup_insert_Some. intros [[_ <-]|[_ Hr]]; [set_solver|]. apply Ri in Hr. set_solver.
    + intros z Hz Huz. destruct (Rn z ltac:(by right) Huz) as [E1 E2]. assert (br y <> br z).
      { intros E. rewrite Forall_forall in Hlt. specialize (Hlt z Hz). apply (br_inj _ _ _ _ a b m Ha Hb Hm) in E; [lia|done|].
        apply Hplace, HQ. by right. }
      by rewrite !lookup_insert_ne.
    + intros z kz Ez Hz. destruct (decide (z = y)) as [->|Hne].
      * assert (kz = k) as -> by congruence. exists (Some (br q)). rewrite lookup_insert_eq, old_shell_unmatched, old_children_unmatched by done.
        split; [|done]. intros Hnp. exfalso. apply Hnp, HQ. by left.
      * destruct (Ro z kz Ez) as (pr & Hpr & E); [by apply not_elem_of_cons|]. exists pr. split; [done|]. rewrite lookup_insert_ne; [done|].
        intros Eq. apply (br_inj _ _ _ _ a b m Ha Hb Hm) in Eq; [done|done|by eapply lookup_lt_Some].
    + intros z kz Ez Hz. destruct (Rm z kz Ez Hz) as (pr & Hpr & E). exists pr. split; [done|]. rewrite lookup_insert_ne; [done|].
      intros Eq. apply (br_inj _ _ _ _ a b m Ha Hb Hm) in Eq; [|done|by eapply lookup_lt_Some]. subst z. rewrite Hu in Hz. by destruct Hz.
    + intros x n En Ex. rewrite lookup_insert_ne; [by apply Ra|]. apply br_not_ra; [done|by eapply lookup_lt_Some|done].
    + intros r. rewrite lookup_insert_is_Some. intros [<-|[_ Hr]]; [left; by exists y|by apply Rd].
  - apply IH; [done|intros; apply HQ; by right|done|done|]. split.
    + intros r j Hr%Ri. set_solver.
    + intros z Hz. apply Rn. by right.
    + intros z kz Ez Hz. destruct (decide (z = y)) as [->|Hne]; [by apply Rm|]. apply Ro; [done|]. by apply not_elem_of_cons.
    + done.
    + done.
    + done.
Qed.

Lemma placed_in_b y : y ∈ P -> (y < Lb)%nat.
Proof using Hplace. intros H%Hplace. apply H. Qed.

Lemma reg_start N : base_nodes a (nodes a) ∅ = Ret N -> reg_ok P ∅ ∅ N.
Proof using All.
  destruct base_nodes_spec as (N0 & -> & Hx & Hd). intros [= <-].
  assert (Hmat : forall y k, nodes b !! y = Some k -> is_Some (b2a m y) ->
    exists pr, first_parent y k pr /\ N0 !! br y = Some (mkWork (old_shell y k) pr (old_children y))).
  { intros y k Ek [x Ex]. pose proof (proj2 (m_inverse a b m Hm x y) Ex) as Ey. destruct (m_kind a b m Hm x y Ey) as (n & k' & En & _).
    rewrite (matched_br x y Ey), (Hx x n En). exists (ra <$> parent n). split; [intros Hy; by eapply kept_parent|].
    unfold old_shell, old_children. by rewrite Ex, En. }
  split.
  - intros r i. by rewrite lookup_empty.
  - intros y Hy Hu. split; [|by rewrite lookup_empty]. destruct (N0 !! br y) eqn:E; [|done]. destruct (Hd (br y) ltac:(by eexists)) as (x & _ & Er).
    destruct (br_unmatched y Hu) as [l El]. rewrite El in Er. done.
  - intros y k Ek Hy. apply Hmat; [done|]. destruct (b2a m y) as [x|] eqn:Ex; [by eexists|]. exfalso. apply Hy, Hplace.
    split_and!; [by eapply lookup_lt_Some| |by left]. intros ->. apply (m_inverse a b m Hm) in Hroots. congruence.
  - exact Hmat.
  - intros x n En _. by apply Hx.
  - intros r (x & Hlt & ->)%Hd. destruct (a2b m x) as [y|] eqn:Ey; [left|right; by exists x]. exists y.
    destruct (image_in a b m Hm x y Ey) as [_ Hy]. split; [done|]. by rewrite (matched_br x y Ey).
Qed.

Lemma rest_not_insert c : c ∈ cs2 -> is_insert (c_op c) = false /\ op_placement (c_op c) = None.
Proof using Ha Hm Hroots Hmv H2.
  intros Hc. destruct (rest_changes _ _ _ _ a b m moved Ha Hm Hroots Hmv cs2 H2 c Hc) as [(x & _ & ->)|(x & y & n & k & e & _ & _ & _ & _ & Hin)]; [done|].
  apply node_changes_payload in Hin as [Hp _]. by destruct (c_op c).
Qed.

Lemma register_rest cs2' : (forall c, c ∈ cs2' -> is_insert (c_op c) = false) -> forall ids inserts (N : work_map),
  NoDup (c_id <$> cs2') -> (forall c, c ∈ cs2' -> c_id c ∉ ids) ->
  register cs2' ids inserts N = inl (ids ∪ list_to_set (c_id <$> cs2'), inserts, N).
Proof using All.
  induction cs2' as [|c cs2' IH]; intros Hni ids inserts N Hn Hf; cbn [register].
  { cbn [fmap list_fmap list_to_set]. by rewrite union_empty_r_L. }
  inversion Hn as [|? ? Hc Hn']; subst. rewrite decide_False by (apply Hf; by left).
  assert (E : register cs2' ({[c_id c]} ∪ ids) inserts N = inl (ids ∪ list_to_set (c_id <$> c :: cs2'), inserts, N)).
  { rewrite IH; [|intros; apply Hni; by right|done|].
    - do 3 f_equal. cbn. set_solver.
    - intros c' Hc'. rewrite not_elem_of_union, not_elem_of_singleton. split; [|apply Hf; by right]. intros E. apply Hc. rewrite <- E.
      apply list_elem_of_fmap. by exists c'. }
  specialize (Hni c ltac:(by left)). by destruct (c_op c).
Qed.

Definition all_ids : gset (list Z) := list_to_set (c_id <$> (cs1 ++ cs2)).

(** After registration every node is known. *)
Lemma register_all : exists N0 inserts N, base_nodes a (nodes a) ∅ = Ret N0 /\
  register (cs1 ++ cs2) ∅ ∅ N0 = inl (all_ids, inserts, N) /\ nodes_view first_parent N /\
  (forall r i, inserts !! r = Some i -> i ∈ all_ids).
Proof using All.
  destruct base_nodes_spec as (N0 & E0 & _). pose proof (reg_start N0 E0) as Hst.
  pose proof Hids as Hn. rewrite fmap_app in Hn. apply NoDup_app in Hn as (Hn1 & Hdis & Hn2).
  destruct (register_placements P cs1 H1 HP ltac:(done) cs2 ∅ ∅ N0 Hn1 ltac:(set_solver) Hst) as (ins & N & E & Hr).
  exists N0, ins, N. split; [done|]. rewrite E, register_rest; [|intros c Hc; by apply rest_not_insert|done|].
  2: { intros c Hc. rewrite union_empty_l_L, elem_of_list_to_set. intros Hin. apply (Hdis _ Hin). apply list_elem_of_fmap. by exists c. }
  assert (Eid : ∅ ∪ list_to_set (c_id <$> cs1) ∪ list_to_set (c_id <$> cs2) = all_ids) by (unfold all_ids; rewrite fmap_app, list_to_set_app_L; set_solver).
  rewrite Eid. split; [done|]. destruct Hr as [Ri _ Ro _ Ra Rd]. split.
  - split; [|done|done]. intros y k Ek. apply Ro; [done|by apply not_elem_of_nil].
  - intros r i Hi%Ri. rewrite <- Eid. set_solver.
Qed.

(** ** Validation *)

Section validate.
Context (o : Options).
Hypothesis Hfit : anchors_fit o (cs1 ++ cs2) 0.
Context (N : work_map).
Hypothesis HN : nodes_view first_parent N.

Lemma known_br y : (y < Lb)%nat -> exists w, N !! br y = Some w.
Proof using HN. intros H. destruct (lookup_lt_is_Some_2 _ _ H) as [k Ek]. destruct (nv_b _ _ HN y k Ek) as (pr & _ & E). eauto. Qed.

Lemma old_kind y k : nodes b !! y = Some k -> sh_kind (old_shell y k) = kind k.
Proof using Hm.
  intros Ek. unfold old_shell. destruct (b2a m y) as [x|] eqn:Ex; [|done]. apply (m_inverse a b m Hm) in Ex.
  destruct (m_kind a b m Hm x y Ex) as (n & k' & En & Ek' & Hk). rewrite En. simpl. congruence.
Qed.

Lemma anchors_known_all pn i q y : child_at b q pn i y -> anchors_known (anchors_of a b m pn i) N = inl tt.
Proof using Hb HN.
  intros [Eq _]. destruct (wf_children b q pn (lk_wf b (dk_links _ _ _ _ b Hb)) Eq) as [Hch _].
  assert (Hl : Forall (fun y => y < Lb)%nat (rev (take i (children pn)))) by (by apply Forall_rev, Forall_take).
  unfold anchors_of. revert Hl. generalize (rev (take i (children pn))). intros l. induction 1 as [|z l Hz _ IH]; [done|].
  cbn [fmap list_fmap app anchors_known]. destruct (known_br z Hz) as [w Ew]. by rewrite decide_True by (rewrite Ew; by eexists).
Qed.

Lemma validate_placement y c w : y ∈ P -> placement_op a b m y (c_op c) -> (is_Some (op_placement (c_op c)) -> anchors_len (c_op c) w <= max_nd (budget o)) ->
  validate_change is_boolean is_string is_object is_array (ra (root a)) (budget o) N (c_op c) w = inl (anchors_len (c_op c) w).
Proof using All.
  intros Hy (q & pn & i & k & Hc & Ek & Hop) Hfw. pose proof Hc as [Epn Ei].
  assert (Hnode : op_node (c_op c) = br y) by (by destruct Hop as [[_ ->]|[_ ->]]).
  assert (Hpl : op_placement (c_op c) = Some (br q, anchors_of a b m pn i)) by (by destruct Hop as [[_ ->]|[_ ->]]).
  destruct (nv_b _ _ HN y k Ek) as (pr & _ & Ew). destruct (nv_b _ _ HN q pn Epn) as (pr' & _ & Ew').
  unfold validate_change. rewrite Hnode, Ew, Hpl.
  assert (Hpay : validate_payload is_boolean is_string is_object is_array (c_op c) (old_shell y k) = inl tt).
  { destruct Hop as [[_ ->]|[_ ->]]; [|done]. destruct (dk_shell _ _ _ _ b Hb y k Ek) as (Hs & Hl & Ht). cbn [validate_payload]. rewrite Hs. cbn [p_bind].
    rewrite Hl. cbn [shell_of sh_text] in *. destruct (ntext k) as [t|]; [rewrite bool_decide_eq_true_2 by done|rewrite bool_decide_eq_false_2 by (by intros [])]; cbn.
    - apply Ht. - done. }
  cbn [w_shell]. rewrite Hpay. cbn [p_bind].
  replace (negb (is_insert (c_op c)) && match br y with RefA _ => false | RefB _ => true end) with false.
  2: { destruct Hop as [[_ ->]|[[x Ex] ->]]; [done|]. unfold GraphLaws.br. by rewrite Ex. }
  unfold anchors_len in *. rewrite Hpl in *. specialize (Hfw ltac:(by eexists)).
  destruct (Z.ltb_spec (max_nd (budget o)) (saturating_add 64 w (Z.of_nat (length (anchors_of a b m pn i))))); [lia|].
  rewrite Ew'. cbn [w_shell]. rewrite (old_kind q pn Epn). destruct (is_leaf (kind pn)) eqn:El.
  { rewrite (dk_leaf _ _ _ _ b Hb q pn Epn El) in Ei. done. }
  assert (Hlast : last (anchors_of a b m pn i) = Some AnchorStart) by (unfold anchors_of; by rewrite last_snoc). rewrite Hlast. cbn [is_start negb].
  rewrite (anchors_known_all pn i q y Hc). cbn [p_bind]. rewrite bool_decide_eq_false_2; [done|].
  rewrite <- (matched_br (root a) (root b) Hroots). intros E. apply (br_inj _ _ _ _ a b m Ha Hb Hm) in E.
  - subst y. by apply Hplace in Hy as (_ & ? & _).
  - by eapply lookup_lt_Some.
  - apply (image_in a b m Hm _ _ Hroots).
Qed.

Lemma validate_rest c w : c ∈ cs2 ->
  validate_change is_boolean is_string is_object is_array (ra (root a)) (budget o) N (c_op c) w = inl (anchors_len (c_op c) w).
Proof using All.
  intros Hc. destruct (rest_not_insert c Hc) as [_ Hpl]. unfold validate_change, anchors_len. rewrite Hpl.
  destruct (rest_changes _ _ _ _ a b m moved Ha Hm Hroots Hmv cs2 H2 c Hc) as [(x & Hd & Eop)|(x & y & n & k & e & Ey & En & Ek & He & Hin)].
  - destruct Hd as (n & p & En & Ex & _). rewrite Eop. cbn [op_node]. rewrite (nv_a _ _ HN x n En Ex). cbn.
    rewrite bool_decide_eq_false_2; [done|]. intros E. apply (ra_inj _ _ _ _ a Ha) in E; [congruence|by eapply lookup_lt_Some|].
    apply (image_in a b m Hm _ _ Hroots).
  - pose proof (node_changes_payload _ _ _ _ _ Hin) as [Hp Hn]. destruct (nv_b _ _ HN y k Ek) as (pr & _ & Ew). rewrite (matched_br x y Ey) in Ew.
    rewrite Hn, Ew. cbn [w_shell]. destruct (m_kind a b m Hm x y Ey) as (n' & k' & En' & Ek' & Hk).
    assert (Hold : old_shell y k = shell_of n).
    { unfold old_shell. apply (m_inverse a b m Hm) in Ey. by rewrite Ey, En. }
    rewrite Hold, (node_changes_valid is_boolean is_string is_object is_array (ra x) (shell_of n) (shell_of k) e);
      [|by apply (dk_shell _ _ _ _ a Ha x)|by apply (dk_shell _ _ _ _ b Hb y)| |done].
    + cbn [p_bind]. destruct (c_op c); try done; cbn; by rewrite andb_false_r.
    + cbn [shell_of sh_kind]. congruence.
Qed.

Lemma validate_all_changes cancel : never cancel -> forall n, exists n',
  validate_changes is_boolean is_string is_object is_array (ra (root a)) (budget o) cancel N (cs1 ++ cs2) 0 n = Ret (inl tt, n').
Proof using All.
  intros Hnv. assert (Hgen : forall l w, anchors_fit o l w ->
    (forall c w, c ∈ l -> (is_Some (op_placement (c_op c)) -> anchors_len (c_op c) w <= max_nd (budget o)) ->
       validate_change is_boolean is_string is_object is_array (ra (root a)) (budget o) N (c_op c) w = inl (anchors_len (c_op c) w)) ->
    forall n, exists n', validate_changes is_boolean is_string is_object is_array (ra (root a)) (budget o) cancel N l w n = Ret (inl tt, n')).
  { induction l as [|c l IH]; intros w [] Hv n || intros w Hf Hv n; cbn [validate_changes]; [by eexists|].
    unfold l_bind at 1, l_check. rewrite Hnv. unfold l_bind, l_pres. rewrite Hv; [|by left|done]. apply IH; [done|]. intros; apply Hv; [by right|done]. }
  apply Hgen; [done|]. intros c w Hc Hw. apply elem_of_app in Hc as [Hc|Hc]; [|by apply validate_rest].
  apply list_elem_of_lookup in Hc as [i Ei]. destruct (Forall2_lookup_r _ _ _ _ _ H1 Ei) as (y & Ey & Hop).
  apply (validate_placement y); [by eapply list_elem_of_lookup_2|done|done].
Qed.

End validate.
End nodes.
