(* ===== verification/PlanLive.v ===== *)
(** * Planning a built graph: what stays live

    With all changes of a built graph accepted, every node of the target gets
    its parent, nothing else stays live, and no group of changes is in conflict. *)

From Stdlib Require Import String.
From S2P Require Import Prelude DiffBase Myers MyersRun TextDiff TextLaws Lis.
From S2P Require Import LisSuffix DiffTree TreeLaws Compose ComposeLaws RunLaws.
From S2P Require Import ShellLaws Classify ClassifyLaws Graph GraphLaws Plan.
From S2P Require Import PlanShape PlanNodes.

(** [h] is the depth of every node, at most [d]. *)
Definition depth_within {Value} (t : Tree Value) (d : Z) : Prop :=
  exists h : nat -> nat, (forall x n p, nodes t !! x = Some n -> parent n = Some p -> h x = S (h p)) /\
    forall x, (x < length (nodes t))%nat -> Z.of_nat (h x) <= d.

Lemma path_add (n : NodeRef) (path : gset NodeRef) : n ∉ path -> size ({[n]} ∪ path) = S (size path).
Proof. intros H. rewrite size_union by set_solver. by rewrite size_singleton. Qed.

Section live.
Context {Value : Type} `{!EqDecision Value}.
Context (is_boolean is_string is_object is_array : Value -> bool).
Abbreviation tree := (Tree Value).
Abbreviation op := (@Op Value).
Abbreviation change := (@Change Value).
Abbreviation doc_ok := (doc_ok is_boolean is_string is_object is_array).
Abbreviation work_map := (gmap NodeRef (@Work Value)).

Context (a b : tree) (m : Matching) (moved : list bool).
Hypothesis Ha : doc_ok a.
Hypothesis Hb : doc_ok b.
Hypothesis Hm : matching_ok a b m.
Hypothesis Hroots : a2b m (root a) = Some (root b).
Hypothesis Hmv : moved_ok a b m moved.
Abbreviation br := (br a b m).
Abbreviation ra := (ra a).
Abbreviation to_place := (to_place b m moved).

Context (cs1 cs2 : list change) (P : list nat).
Hypothesis HP : increasing P.
Hypothesis Hplace : forall y, y ∈ P <-> to_place y.
Hypothesis H1 : Forall2 (fun y c => placement_op a b m y (c_op c)) P cs1.
Hypothesis H2 : Forall2 (fun r c => op_for a b m r (c_op c)) (flat_map (kept_raws a b m moved) (seq 0 (length (nodes a)))) cs2.

Local Notation La := (length (nodes a)).
Local Notation Lb := (length (nodes b)).
Abbreviation nodes_view := (nodes_view a b m).
Abbreviation first_parent := (first_parent a b m P).
Abbreviation new_parent := (new_parent a b m).
Abbreviation matched_br := (matched_br a b m Hm).
Abbreviation br_inj := (br_inj _ _ _ _ a b m Ha Hb Hm).
Abbreviation ra_inj := (ra_inj _ _ _ _ a Ha).
Abbreviation rest_changes := (rest_changes _ _ _ _ a b m moved Ha Hm Hroots Hmv cs2 H2).

Context (ids : gset (list Z)) (inserts : gmap NodeRef (list Z)).
Hypothesis Hins : forall r i, inserts !! r = Some i -> i ∈ ids.

(** ** New parents *)

(** The state while placements are taken; those in [Q] are to come. *)
Record str_ok (Q : list nat) (st : @sstate Value) : Prop := {
  st_view : nodes_view (fun y k pr => y ∉ Q -> new_parent y k pr) (s_nodes st);
  st_groups : s_groups st = [];
  st_new : forall y, y ∈ Q -> s_structural st !! br y = None;
  st_one : forall r l, s_structural st !! r = Some l -> exists i, l = [i];
  st_del : s_deleted st = ∅ }.

Lemma structure_placements Q cs1' : Forall2 (fun y c => placement_op a b m y (c_op c)) Q cs1' -> increasing Q ->
  forall st, str_ok Q st -> exists st', (forall rest, structure_changes inserts ids (cs1' ++ rest) st = structure_changes inserts ids rest st') /\ str_ok [] st'.
Proof using Ha Hb Hm Hins.
  induction 1 as [|y c Q cs1' Hop Hrest IH]; intros Hinc st Hst; [by exists st|]. inversion Hinc as [|? ? Hinc' Hlt]; subst.
  destruct Hop as (q & pn & i & k & Hc & Ek & Hop). pose proof Hc as [Epn Ei].
  assert (Hnode : op_node (c_op c) = br y) by (by destruct Hop as [[_ ->]|[_ ->]]).
  assert (Hpl : op_placement (c_op c) = Some (br q, anchors_of a b m pn i)) by (by destruct Hop as [[_ ->]|[_ ->]]).
  assert (Hnd : match c_op c with OpDelete _ => False | _ => True end) by (by destruct Hop as [[_ ->]|[_ ->]]).
  destruct Hst as [[Vb Va Vd] Sg Sn So Sd]. destruct (Vb y k Ek) as (pr & _ & Ew).
  assert (Hpar : parent k = Some q).
  { destruct (lk_child b (dk_links _ _ _ _ b Hb) q pn y Epn ltac:(by eapply list_elem_of_lookup_2)) as (k' & Ek' & E). congruence. }
  pose proof (lookup_lt_Some _ _ _ Ek) as Hy.
  set (st1 := mkS (<[br y := mkWork (old_shell a m y k) (Some (br q)) (old_children a m y)]> (s_nodes st)) (s_groups st)
                (<[br y := [c_id c]]> (s_structural st)) (s_deleted st)).
  assert (Hst1 : str_ok Q st1).
  { split; [split|..]; unfold st1; cbn [s_nodes s_groups s_structural s_deleted].
    - intros z kz Ez. destruct (decide (z = y)) as [->|Hne].
      + assert (kz = k) as -> by congruence. exists (Some (br q)). rewrite lookup_insert_eq. split; [|done]. intros _. unfold PlanNodes.new_parent. by rewrite Hpar.
      + destruct (Vb z kz Ez) as (prz & Hprz & Ewz). exists prz. rewrite lookup_insert_ne.
        * split; [|done]. intros Hz. apply Hprz. by apply not_elem_of_cons.
        * intros E. apply br_inj in E; [done|done|by eapply lookup_lt_Some].
    - intros x n En Ex. rewrite lookup_insert_ne; [by apply Va|]. eapply (br_not_ra _ _ _ _ a b m Ha Hm); [done|by eapply lookup_lt_Some|done].
    - intros r. rewrite lookup_insert_is_Some. intros [<-|[_ Hr]]; [left; by exists y|by apply Vd].
    - done.
    - intros z Hz. rewrite lookup_insert_ne; [apply Sn; by right|]. intros E. rewrite Forall_forall in Hlt. specialize (Hlt z Hz).
      apply list_elem_of_lookup in Hz as [j Ej]. destruct (Forall2_lookup_l _ _ _ _ _ Hrest Ej) as (cz & _ & Hopz).
      destruct Hopz as (_ & _ & _ & kz & _ & Ekz & _). apply br_inj in E; [lia|done|by eapply lookup_lt_Some].
    - intros r l. rewrite lookup_insert_Some. intros [[_ <-]|[_ Hr]]; [by eexists|by eapply So].
    - done. }
  destruct (IH Hinc' st1 Hst1) as (st' & E' & Hst'). exists st'. split; [|done]. intros rest. cbn [app structure_changes]. rewrite <- E'.
  replace (structure_change inserts ids c st) with (Ret st1); [done|]. unfold structure_change. rewrite Hpl, Hnode.
  replace (match inserts !! br q with Some req => if decide (req ∈ ids) then s_groups st else s_groups st ++ [[c_id c; req]] | None => s_groups st end) with (s_groups st).
  2: { destruct (inserts !! br q) as [req|] eqn:E; [|done]. by rewrite decide_True by (by eapply Hins). }
  rewrite Ew. cbn [unwrap rust_bind w_shell w_children]. rewrite (Sn y) by (by left). cbn [default app]. by destruct (c_op c).
Qed.

(** Deletions, and payloads that change nothing here. *)
Lemma structure_rest (cs2' : list change) : (forall c, c ∈ cs2' -> op_placement (c_op c) = None) -> forall st, exists D,
  structure_changes inserts ids cs2' st = Ret (mkS (s_nodes st) (s_groups st) (s_structural st) D) /\
  forall r, is_Some (D !! r) <-> is_Some (s_deleted st !! r) \/ exists c, c ∈ cs2' /\ c_op c = OpDelete r.
Proof using Type.
  induction cs2' as [|c cs2' IH]; intros Hc st; cbn [structure_changes].
  { exists (s_deleted st). split; [by destruct st|]. intros r. split; [by left|]. intros [?|(c & ?%not_elem_of_nil & _)]; done. }
  unfold structure_change. rewrite (Hc c) by (by left). cbn [rust_bind].
  assert (Hskip : (forall r, c_op c <> OpDelete r) -> exists D, structure_changes inserts ids cs2' st = Ret (mkS (s_nodes st) (s_groups st) (s_structural st) D) /\
    forall r, is_Some (D !! r) <-> is_Some (s_deleted st !! r) \/ exists c', c' ∈ c :: cs2' /\ c_op c' = OpDelete r).
  { intros Hn. destruct (IH ltac:(intros; apply Hc; by right) st) as (D & E & HD). exists D. split; [done|]. intros r. rewrite HD. split.
    - intros [?|(c' & ? & ?)]; [by left|right]. exists c'. split; [by right|done].
    - intros [?|(c' & [->|?]%elem_of_cons & ?)]; [by left|by destruct (Hn r)|right; eauto]. }
  destruct (c_op c) as [| |r0| | |] eqn:Eop; try (apply Hskip; congruence).
  destruct (IH ltac:(intros; apply Hc; by right) (mkS (s_nodes st) (s_groups st) (s_structural st) (<[r0 := c_id c]> (s_deleted st)))) as (D & E & HD).
  exists D. split; [done|]. intros r. rewrite HD. cbn [s_deleted]. rewrite lookup_insert_is_Some. split.
  - intros [[->|[_ ?]]|(c' & ? & ?)]; [right; exists c; by split; [left|]|by left|right; exists c'; by split; [right|]].
  - intros [?|(c' & [->|?]%elem_of_cons & ?)]; [destruct (decide (r0 = r)); tauto|left; left; congruence|right; eauto].
Qed.

(** The nodes and deletions after all changes. *)
Record structured (st : @sstate Value) : Prop := {
  sr_view : nodes_view new_parent (s_nodes st);
  sr_groups : s_groups st = [];
  sr_one : forall r l, s_structural st !! r = Some l -> exists i, l = [i];
  sr_del : forall r, is_Some (s_deleted st !! r) <-> exists x, deleted_node a m x /\ r = ra x }.

Lemma structure_all N : nodes_view first_parent N ->
  exists st, structure_changes inserts ids (cs1 ++ cs2) (mkS N [] ∅ ∅) = Ret st /\ structured st.
Proof using All.
  intros HN. destruct (structure_placements P cs1 H1 HP (mkS N [] ∅ ∅)) as (st & E & [Sv Sg _ So Sd]).
  { split; cbn [s_nodes s_groups s_structural s_deleted]; try done. }
  rewrite E. destruct (structure_rest cs2 ltac:(intros c Hc; by eapply (rest_not_insert _ _ _ _ a b m moved Ha Hm Hroots Hmv cs2 H2 c Hc)) st) as (D & E2 & HD). eexists. split; [exact E2|]. split; cbn [s_nodes s_groups s_structural s_deleted].
  - destruct Sv as [Vb Va Vd]. split; [|done|done]. intros y k Ek. destruct (Vb y k Ek) as (pr & Hpr & Ew). exists pr. split; [|done]. apply Hpr, not_elem_of_nil.
  - done.
  - done.
  - intros r. rewrite HD, Sd, lookup_empty. split.
    + intros [[? ?]|(c & Hc & Eop)]; [done|]. destruct (rest_changes c Hc) as [(x & Hd & E')|(x & y & n & k & e & _ & _ & _ & _ & Hin)].
      * exists x. split; [done|congruence].
      * apply node_changes_payload in Hin as [Hp _]. by rewrite Eop in Hp.
    + intros (x & Hd & ->). right. by apply (deletions_complete _ _ _ _ a b m moved Ha Hroots cs2 H2).
Qed.

(** ** Live nodes *)

Section walks.
Context (st : @sstate Value) (d : Z).
Hypothesis Hst : structured st.
Hypothesis Hd : 0 <= d < 2 ^ 64 - 1.
Hypothesis Da : depth_within a d.
Hypothesis Db : depth_within b d.

Lemma size_at_least (f : nat -> NodeRef) L (N : work_map) : (forall x x', (x < L)%nat -> (x' < L)%nat -> f x = f x' -> x = x') ->
  (forall x, (x < L)%nat -> is_Some (N !! f x)) -> (L <= size N)%nat.
Proof using Type.
  intros Hinj Hin. rewrite <- size_dom. assert (Hn : NoDup (f <$> seq 0 L)).
  { apply NoDup_fmap_2_strong; [|apply NoDup_seq]. intros x y Hx%elem_of_seq Hy%elem_of_seq. apply Hinj; lia. }
  replace L with (size (list_to_set (f <$> seq 0 L) : gset NodeRef)) by (by rewrite size_list_to_set, length_fmap, length_seq).
  apply subseteq_size. intros r Hr. apply elem_of_list_to_set, list_elem_of_fmap in Hr as (x & -> & Hx%elem_of_seq).
  apply elem_of_dom, Hin. lia.
Qed.

Lemma size_b : (Lb <= size (s_nodes st))%nat.
Proof using All.
  apply (size_at_least br); [intros; by apply br_inj|]. intros y Hy. destruct (lookup_lt_is_Some_2 _ _ Hy) as [k Ek].
  destruct (nv_b _ _ _ _ _ (sr_view _ Hst) y k Ek) as (pr & _ & ->). by eexists.
Qed.

Lemma known_ra x : (x < La)%nat -> is_Some (s_nodes st !! ra x).
Proof using All.
  intros Hx. destruct (lookup_lt_is_Some_2 _ _ Hx) as [n En]. destruct (a2b m x) as [y|] eqn:Ey.
  - destruct (m_kind a b m Hm x y Ey) as (n' & k & _ & Ek & _). rewrite <- (matched_br x y Ey).
    destruct (nv_b _ _ _ _ _ (sr_view _ Hst) y k Ek) as (pr & _ & ->). by eexists.
  - rewrite (nv_a _ _ _ _ _ (sr_view _ Hst) x n En Ey). by eexists.
Qed.

Lemma size_a : (La <= size (s_nodes st))%nat.
Proof using All. apply (size_at_least ra); [intros; by apply ra_inj|]. apply known_ra. Qed.

Lemma not_missing n : missing_insert inserts ids n = false.
Proof using Hins. unfold missing_insert. destruct (inserts !! n) as [i|] eqn:E; [|done]. apply bool_decide_eq_false_2. intros H. by apply H, (Hins n). Qed.

Lemma fits_depth (n h : nat) : Z.of_nat (n + h) <= d -> (saturating_add 64 d 1 <? Z.of_nat (S n)) = false.
Proof using Hd. intros H. unfold saturating_add. apply Z.ltb_ge. lia. Qed.

Lemma walk_alive y : forall fuel path, (y < Lb)%nat -> (y < fuel)%nat -> (forall z, (z < Lb)%nat -> br z ∈ path -> (y < z)%nat) ->
  (exists h, (forall x n p, nodes b !! x = Some n -> parent n = Some p -> h x = S (h p)) /\ Z.of_nat (size path + h y) <= d) ->
  walk fuel inserts ids st d (Some (br y)) path = Ret Alive.
Proof using All.
  induction y as [y IH] using lt_wf_ind. intros [|fuel] path Hy Hf Hpath (h & Hh & Hdepth); [lia|]. cbn [walk].
  assert (Hnew : br y ∉ path) by (intros Hin; specialize (Hpath y Hy Hin); lia). rewrite decide_False by done.
  assert (Hnd : bool_decide (is_Some (s_deleted st !! br y)) = false).
  { apply bool_decide_eq_false_2. intros (x & Hdel & E)%(sr_del _ Hst). destruct Hdel as (n & p & En & Ex & _).
    by eapply (br_not_ra _ _ _ _ a b m Ha Hm y x Hy); [by eapply lookup_lt_Some| |]. }
  rewrite Hnd, not_missing. cbn [orb]. rewrite path_add by done. rewrite (fits_depth _ (h y)) by done.
  destruct (lookup_lt_is_Some_2 _ _ Hy) as [k Ek]. destruct (nv_b _ _ _ _ _ (sr_view _ Hst) y k Ek) as (pr & -> & Ew). rewrite Ew. cbn [unwrap rust_bind w_parent].
  destruct (parent k) as [q|] eqn:Eq; [|by destruct fuel]. destruct (lk_parent b (dk_links _ _ _ _ b Hb) y k q Ek Eq) as (pn & Epn & Hin).
  pose proof (wf_below b (lk_wf b (dk_links _ _ _ _ b Hb)) q pn Epn) as Hbel. rewrite Forall_forall in Hbel. specialize (Hbel y Hin).
  apply IH; [lia|lia|lia| |].
  - intros z Hz [E%elem_of_singleton|Hz']%elem_of_union; [apply br_inj in E; [lia|done|done]|]. specialize (Hpath z Hz Hz'). lia.
  - exists h. split; [done|]. rewrite path_add by done. rewrite (Hh y k q Ek Eq) in Hdepth. lia.
Qed.

Lemma walk_dead x : forall fuel path n, nodes a !! x = Some n -> a2b m x = None -> (x < fuel)%nat ->
  (forall z, (z < La)%nat -> ra z ∈ path -> (x < z)%nat) ->
  (exists h, (forall x n p, nodes a !! x = Some n -> parent n = Some p -> h x = S (h p)) /\ Z.of_nat (size path + h x) <= d) ->
  walk fuel inserts ids st d (Some (ra x)) path = Ret Dead.
Proof using All.
  induction x as [x IH] using lt_wf_ind. intros [|fuel] path n En Ex Hf Hpath (h & Hh & Hdepth); [lia|]. cbn [walk].
  pose proof (lookup_lt_Some _ _ _ En) as Hx.
  assert (Hnew : ra x ∉ path) by (intros Hin; specialize (Hpath x Hx Hin); lia). rewrite decide_False by done. rewrite not_missing, orb_false_r.
  case_bool_decide as Hdel; [done|]. rewrite path_add by done. rewrite (fits_depth _ (h x)) by done.
  rewrite (nv_a _ _ _ _ _ (sr_view _ Hst) x n En Ex). cbn [unwrap rust_bind w_parent base_of].
  destruct (parent n) as [p|] eqn:Ep.
  2: { apply (lk_root a (dk_links _ _ _ _ a Ha) x n En) in Ep. congruence. }
  destruct (lk_parent a (dk_links _ _ _ _ a Ha) x n p En Ep) as (pn & Epn & Hin).
  pose proof (wf_below a (lk_wf a (dk_links _ _ _ _ a Ha)) p pn Epn) as Hbel. rewrite Forall_forall in Hbel. specialize (Hbel x Hin).
  assert (Epx : a2b m p = None).
  { destruct (a2b m p) as [q|] eqn:Eq; [|done]. exfalso. apply Hdel, (sr_del _ Hst). exists x. split; [|done]. exists n, p. rewrite Eq. eauto. }
  cbn [fmap option_fmap option_map]. apply (IH p ltac:(lia) fuel _ pn); [done|done|lia| |].
  - intros z Hz [E%elem_of_singleton|Hz']%elem_of_union; [apply ra_inj in E; [lia|done|done]|]. specialize (Hpath z Hz Hz'). lia.
  - exists h. split; [done|]. rewrite path_add by done. rewrite (Hh x n p En Ep) in Hdepth. lia.
Qed.

Definition in_target (r : NodeRef) : Prop := exists y, (y < Lb)%nat /\ r = br y.

Lemma live_loop_spec cancel chosen : never cancel -> forall keys live groups n, (forall r, r ∈ keys -> is_Some (s_nodes st !! r)) ->
  exists live' n', live_loop inserts ids st d cancel chosen keys live groups n = Ret (inl (live', groups), n') /\
    forall r, r ∈ live' <-> r ∈ live \/ (r ∈ keys /\ in_target r).
Proof using All.
  intros Hnv. induction keys as [|r keys IH]; intros live groups n Hk; cbn [live_loop].
  { eexists _, _. split; [done|]. intros r. split; [by left|]. by intros [?|[?%not_elem_of_nil _]]. }
  unfold l_bind at 1, l_check. rewrite Hnv, not_missing. unfold l_bind, l_lift.
  pose proof size_a. pose proof size_b. destruct Da as (ha & Hha & Hla), Db as (hb & Hhb & Hlb).
  destruct (nv_dom _ _ _ _ _ (sr_view _ Hst) r (Hk r ltac:(by left))) as [(y & Hy & ->)|(x & Hx & Ex & ->)].
  - rewrite walk_alive; [|done|lia|by intros z _ ?%not_elem_of_empty|].
    2: { exists hb. split; [done|]. rewrite size_empty. simpl. by apply Hlb. }
    destruct (IH ({[br y]} ∪ live) groups (S n) ltac:(intros; apply Hk; by right)) as (live' & n' & -> & Hl). exists live', n'. split; [done|].
    intros r. rewrite Hl, elem_of_union, elem_of_singleton, elem_of_cons. split; [|tauto].
    intros [[->|?]|?]; [right; split; [by left|by exists y]|by left|tauto].
  - destruct (lookup_lt_is_Some_2 _ _ Hx) as [n0 En]. rewrite (walk_dead x _ ∅ n0); [|done|done|lia|by intros z _ ?%not_elem_of_empty|].
    2: { exists ha. split; [done|]. rewrite size_empty. simpl. by apply Hla. }
    destruct (IH live groups (S n) ltac:(intros; apply Hk; by right)) as (live' & n' & -> & Hl). exists live', n'. split; [done|].
    intros r. rewrite Hl, elem_of_cons. split; [tauto|]. intros [?|[[->|?] Ht]]; [by left| |tauto].
    exfalso. destruct Ht as (y & Hy & E). symmetry in E. by eapply (br_not_ra _ _ _ _ a b m Ha Hm y x).
Qed.

(** No change is without a live node. *)
Lemma dead_groups_none live groups : (forall y, (y < Lb)%nat -> br y ∈ live) -> dead_groups inserts ids st live (cs1 ++ cs2) groups = Ret groups.
Proof using All.
  intros Hl. assert (Hgen : forall l, (forall c, c ∈ l -> is_delete (c_op c) = true \/ op_node (c_op c) ∈ live) ->
    dead_groups inserts ids st live l groups = Ret groups).
  { induction l as [|c l IH]; intros Hc; [done|]. cbn [dead_groups].
    replace (is_delete (c_op c) || bool_decide (op_node (c_op c) ∈ live)) with true; [apply IH; intros; apply Hc; by right|].
    destruct (Hc c ltac:(by left)) as [->|H]; [done|]. by rewrite bool_decide_eq_true_2, orb_true_r. }
  apply Hgen. intros c [Hc|Hc]%elem_of_app.
  - right. apply list_elem_of_lookup in Hc as [i Ei]. destruct (Forall2_lookup_r _ _ _ _ _ H1 Ei) as (y & Ey & q & pn & j & k & _ & Ek & Hop).
    replace (op_node (c_op c)) with (br y) by (by destruct Hop as [[_ ->]|[_ ->]]). apply Hl. by eapply lookup_lt_Some.
  - destruct (rest_changes c Hc) as [(x & _ & ->)|(x & y & n & k & e & Ey & En & Ek & _ & Hin)]; [by left|right].
    apply node_changes_payload in Hin as [_ ->]. rewrite <- (matched_br x y Ey). apply Hl. by eapply lookup_lt_Some.
Qed.

Lemma no_repeated : repeated_groups (s_structural st) = [].
Proof using Hst.
  unfold repeated_groups. apply (filter_none _), Forall_forall. intros g Hg. apply list_elem_of_omap in Hg as (r & _ & Er).
  destruct (sr_one _ Hst r g Er) as [i ->]. simpl. lia.
Qed.

End walks.
End live.
