(* ===== verification/PlanPlace.v ===== *)
(** * Planning a built graph: child lists and documents

    The children that stay, in order, with the placed ones inserted after their
    anchors are the children of the target; composing the payloads gives its
    shells, and emission its document. *)

From Stdlib Require Import String.
From S2P Require Import Prelude DiffBase Myers MyersRun TextDiff TextLaws Lis.
From S2P Require Import LisSuffix DiffTree TreeLaws Compose ComposeLaws RunLaws.
From S2P Require Import ShellLaws Classify ClassifyLaws Graph GraphLaws Plan.
From S2P Require Import PlanShape PlanNodes PlanLive.

Lemma increasing_filter (p : nat -> Prop) `{!forall x, Decision (p x)} l : increasing l -> increasing (filter p l).
Proof.
  induction 1 as [|x l _ IH Hf]; [constructor|]. rewrite filter_cons. destruct (decide (p x)); [|done]. constructor; [done|].
  apply Forall_forall. intros y Hy. apply list_elem_of_filter in Hy as [_ Hy]. rewrite Forall_forall in Hf. by apply Hf.
Qed.

Lemma increasing_ext l l' : increasing l -> increasing l' -> (forall x, x ∈ l <-> x ∈ l') -> l = l'.
Proof. intros H H' Hx. apply (sorted_ext lt); [done|done|done]. Qed.

Lemma filter_ext_in {A} (p q : A -> Prop) `{!forall x, Decision (p x)} `{!forall x, Decision (q x)} (l : list A) :
  (forall x, x ∈ l -> p x <-> q x) -> filter p l = filter q l.
Proof.
  induction l as [|x l IH]; intros Hl; [done|]. rewrite !filter_cons. rewrite IH by (intros; apply Hl; by right).
  destruct (Hl x ltac:(by left)). by destruct (decide (p x)), (decide (q x)); [| tauto | tauto |].
Qed.

Section place.
Context {Value : Type} `{!EqDecision Value}.
Context (is_boolean is_string is_object is_array : Value -> bool).
Abbreviation tree := (Tree Value).
Abbreviation op := (@Op Value).
Abbreviation change := (@Change Value).
Abbreviation doc_ok := (doc_ok is_boolean is_string is_object is_array).
Abbreviation work_map := (gmap NodeRef (@Work Value)).

Context (a b : tree) (m : Matching) (moved : list bool).
Hypothesis Ha : doc_ok a.
Hypothesis Hb : doc_ok b.
Hypothesis Hm : matching_ok a b m.
Hypothesis Hroots : a2b m (root a) = Some (root b).
Hypothesis Hmv : moved_ok a b m moved.
Abbreviation br := (br a b m).
Abbreviation ra := (ra a).
Abbreviation to_place := (to_place b m moved).

Context (P : list nat).
Hypothesis HP : increasing P.
Hypothesis Hplace : forall y, y ∈ P <-> to_place y.

Local Notation La := (length (nodes a)).
Local Notation Lb := (length (nodes b)).
Abbreviation matched_br := (matched_br a b m Hm).
Abbreviation br_inj := (br_inj _ _ _ _ a b m Ha Hb Hm).
Abbreviation ra_inj := (ra_inj _ _ _ _ a Ha).
Abbreviation links_a := (dk_links _ _ _ _ a Ha).
Abbreviation links_b := (dk_links _ _ _ _ b Hb).
Abbreviation old_shell := (old_shell a m).
Abbreviation old_children := (old_children a m).

(** ** Children that stay *)

(** A child of the target that is not placed: it is matched below the same parent. *)
Lemma kept_child y k c : nodes b !! y = Some k -> c ∈ children k -> c ∉ P ->
  exists x z n, b2a m y = Some x /\ b2a m c = Some z /\ nodes a !! x = Some n /\ z ∈ children n /\ moved !! z = Some false.
Proof using Ha Hb Hm Hroots Hmv Hplace.
  intros Ek Hc Hp. destruct (lk_child b links_b y k c Ek Hc) as (kc & Ekc & Hpar).
  assert (Hcr : c <> root b) by (intros ->; apply (lk_root b links_b) in Ekc; rewrite (proj2 Ekc eq_refl) in Hpar; done).
  pose proof (lookup_lt_Some _ _ _ Ekc) as Hcb.
  destruct (b2a m c) as [z|] eqn:Ez; [|exfalso; apply Hp, Hplace; split_and!; [done|done|by left]].
  pose proof (proj2 (m_inverse a b m Hm z c) Ez) as Ec. destruct (m_kind a b m Hm z c Ec) as (nz & kc' & Enz & _).
  destruct (lookup_lt_is_Some_2 moved z) as [mv Emv]; [rewrite (mv_len _ _ _ _ Hmv); by eapply lookup_lt_Some|].
  destruct mv; [exfalso; apply Hp, Hplace; split_and!; [done|done|right; by exists z]|].
  pose proof (kept_parent _ _ _ _ a b m moved Ha Hb Hm Hroots Hmv P Hplace z c nz kc Ec Enz Ekc Hp) as Hk.
  rewrite Hpar in Hk. destruct (parent nz) as [x|] eqn:Ex; [|done]. change (Some (ra x) = Some (br y)) in Hk. apply (inj Some) in Hk.
  destruct (lk_parent a links_a z nz x Enz Ex) as (n & En & Hz). pose proof (lookup_lt_Some _ _ _ En) as Hx.
  exists x, z, n. split_and!; [|done|done|done|done].
  unfold GraphLaws.br in Hk. destruct (b2a m y) as [x'|] eqn:Ey; [|done]. f_equal. apply (m_inverse a b m Hm) in Ey.
  destruct (image_in a b m Hm x' y Ey) as [Hx' _]. symmetry. by apply ra_inj.
Qed.

Lemma kept_images y k x n : nodes b !! y = Some k -> b2a m y = Some x -> nodes a !! x = Some n ->
  omap (kept_image m moved) (children n) = filter (fun c => c ∉ P) (children k).
Proof using Ha Hb Hm Hroots Hmv Hplace.
  intros Ek Ex En. pose proof (proj2 (m_inverse a b m Hm x y) Ex) as Ey. apply increasing_ext.
  - by apply (mv_order _ _ _ _ Hmv x y).
  - apply increasing_filter. by apply (lk_order b links_b y).
  - intros c. rewrite list_elem_of_omap, list_elem_of_filter. split.
    + intros (z & Hz & Ec). unfold kept_image in Ec. destruct (decide _) as [Hf|]; [|done].
      destruct (lk_child a links_a x n z En Hz) as (nz & Enz & Hpz). destruct (m_kind a b m Hm z c Ec) as (nz' & kc & _ & Ekc & _).
      assert (Hzr : z <> root a) by (intros ->; apply (lk_root a links_a) in Enz; rewrite (proj2 Enz eq_refl) in Hpz; done).
      pose proof (mv_parent _ _ _ _ Hmv z nz c kc Enz Ec Ekc Hzr Hf) as Hpar. rewrite Hpz in Hpar. cbn in Hpar. rewrite Ey in Hpar.
      split; [|by destruct (lk_parent b links_b c kc y Ekc (eq_sym Hpar)) as (k' & Ek' & Hin); assert (k' = k) as <- by congruence].
      intros (_ & _ & [Hu|(z' & Ez' & Ht)])%Hplace; apply (m_inverse a b m Hm) in Ec; [congruence|].
      assert (z' = z) as -> by congruence. congruence.
    + intros [Hp Hc]. destruct (kept_child y k c Ek Hc Hp) as (x' & z & n' & Ex' & Ez & En' & Hz & Hf).
      assert (x' = x) as -> by congruence. assert (n' = n) as -> by congruence. exists z. split; [done|]. unfold kept_image.
      rewrite decide_True by done. by apply (m_inverse a b m Hm).
Qed.

(** The children that [retain] keeps. *)
Lemma retained y k (live mvd : gset NodeRef) : nodes b !! y = Some k ->
  (forall y, (y < Lb)%nat -> br y ∈ live) -> (forall r, r ∈ live -> exists y, (y < Lb)%nat /\ r = br y) -> (forall r, r ∈ mvd <-> exists y, y ∈ P /\ r = br y) ->
  filter (fun r => r ∈ live /\ r ∉ mvd) (old_children y) = br <$> filter (fun c => c ∉ P) (children k).
Proof using Ha Hb Hm Hroots Hmv Hplace.
  intros Ek Hl1 Hl2 Hmvd. unfold PlanNodes.old_children. destruct (b2a m y) as [x|] eqn:Ex.
  - pose proof (proj2 (m_inverse a b m Hm x y) Ex) as Ey. destruct (m_kind a b m Hm x y Ey) as (n & _ & En & _). rewrite En.
    rewrite <- (kept_images y k x n Ek Ex En).
    assert (Hch : forall z, z ∈ children n -> (z < La)%nat /\ z <> root a).
    { intros z Hz. destruct (lk_child a links_a x n z En Hz) as (nz & Enz & Hpz). split; [by eapply lookup_lt_Some|].
      intros ->. apply (lk_root a links_a) in Enz. rewrite (proj2 Enz eq_refl) in Hpz. done. }
    induction (children n) as [|z l IH]; [done|]. cbn [fmap list_fmap]. specialize (IH ltac:(intros; apply Hch; by right)).
    destruct (Hch z ltac:(by left)) as [Hz Hzr]. cbn [omap list_omap]. unfold kept_image at 1. destruct (a2b m z) as [c|] eqn:Ec.
    + destruct (image_in a b m Hm z c Ec) as [_ Hc]. rewrite <- (matched_br z c Ec).
      destruct (lookup_lt_is_Some_2 moved z) as [mv Emv]; [by rewrite (mv_len _ _ _ _ Hmv)|]. rewrite Emv. destruct mv.
      * rewrite decide_False by done. rewrite filter_cons_False; [exact IH|]. intros [_ Hn]. apply Hn, Hmvd. exists c. split; [|done].
        apply Hplace. split_and!; [done| |].
        -- intros ->. apply (m_inverse a b m Hm) in Ec, Hroots. congruence.
        -- right. exists z. split; [by apply (m_inverse a b m Hm)|done].
      * rewrite decide_True by done. rewrite filter_cons_True; [cbn; by f_equal|]. split; [by apply Hl1|]. intros (c' & Hc' & E)%Hmvd.
        assert (Hc'b : (c' < Lb)%nat) by (apply Hplace in Hc' as [? _]; done). apply br_inj in E; [|done|done]. subst c'.
        apply Hplace in Hc' as (_ & _ & [Hu|(z' & Ez' & Ht)]); apply (m_inverse a b m Hm) in Ec; [congruence|].
        assert (z' = z) as -> by congruence. congruence.
    + destruct (decide (moved !! z = Some false)); (rewrite filter_cons_False; [exact IH|]); intros [Hin _];
        destruct (Hl2 _ Hin) as (y' & Hy' & E); symmetry in E; by eapply (br_not_ra _ _ _ _ a b m Ha Hm y' z).
  - assert (Hz : filter (fun c => c ∉ P) (children k) = []); [|by rewrite Hz].
    destruct (filter _ (children k)) as [|c l] eqn:E; [done|]. exfalso.
    assert (Hc : c ∈ filter (fun c => c ∉ P) (children k)) by (rewrite E; by left). apply list_elem_of_filter in Hc as [Hp Hc].
    destruct (kept_child y k c Ek Hc Hp) as (x & _ & _ & Ex' & _). congruence.
Qed.

(** ** Placement *)

(** The children of a node once [Q] is placed. *)
Definition partial (Q : list nat) (k : Node Value) : list nat := filter (fun c => c ∉ P \/ c ∈ Q) (children k).

Definition anchor_ref (pn : Node Value) (i : nat) : option NodeRef :=
  match i with O => None | S j => br <$> children pn !! j end.

(** The children of [q] before and after its [i]-th child [y] is placed. *)
Lemma partial_split Q Q' q pn i y : P = Q ++ y :: Q' -> child_at b q pn i y ->
  exists D, partial Q pn = take i (children pn) ++ D /\ partial (Q ++ [y]) pn = take i (children pn) ++ y :: D.
Proof using All.
  intros EP [Eq Ei]. pose proof (lk_order b links_b q pn Eq) as Hinc. exists (filter (fun c => c ∉ P \/ c ∈ Q) (drop (S i) (children pn))).
  assert (Hy : y ∈ P) by (rewrite EP; set_solver).
  assert (HyQ : y ∉ Q).
  { intros Hin. rewrite EP in HP. apply list_elem_of_lookup in Hin as [j Ej].
    pose proof (increasing_lookup _ HP j (length Q) y y) as Hlt. apply lookup_lt_Some in Ej as Hj.
    rewrite lookup_app_l in Hlt by done. rewrite lookup_app_r, Nat.sub_diag in Hlt by lia. specialize (Hlt Ej eq_refl Hj). lia. }
  assert (Hbefore : Forall (fun c => c ∉ P \/ c ∈ Q) (take i (children pn))).
  { apply Forall_forall. intros c Hc. destruct (decide (c ∈ P)) as [Hp|]; [right|by left]. apply list_elem_of_lookup in Hc as [j Ej].
    apply lookup_take_Some in Ej as [Ej Hj]. pose proof (increasing_lookup _ Hinc j i c y Ej Ei Hj) as Hlt. rewrite EP in Hp.
    apply elem_of_app in Hp as [?|Hp]; [done|]. exfalso. apply list_elem_of_lookup in Hp as [l El]. destruct l as [|l]; simpl in El; [injection El; lia|].
    rewrite EP in HP. pose proof (increasing_lookup _ HP (length Q) (length Q + S l) y c) as H.
    rewrite lookup_app_r, Nat.sub_diag in H by lia. rewrite lookup_app_r in H by lia. replace (length Q + S l - length Q)%nat with (S l) in H by lia.
    specialize (H eq_refl El ltac:(lia)). lia. }
  assert (Esplit : children pn = take i (children pn) ++ y :: drop (S i) (children pn)) by (symmetry; by apply take_drop_middle).
  unfold partial. split.
  - rewrite Esplit at 1. rewrite filter_app, filter_Forall by done. rewrite filter_cons_False; [done|]. intros [?|?]; done.
  - rewrite Esplit at 1. rewrite filter_app, filter_Forall by (eapply Forall_impl; [exact Hbefore|]; simpl; set_solver).
    rewrite filter_cons_True by set_solver. do 2 f_equal. apply filter_ext_in. intros c Hc.
    assert (Hne : c <> y).
    { intros ->. apply list_elem_of_lookup in Hc as [j Ej]. rewrite lookup_drop in Ej.
      pose proof (increasing_lookup _ Hinc i (S i + j) y y Ei Ej ltac:(lia)). lia. }
    rewrite elem_of_app, list_elem_of_singleton. tauto.
Qed.

Lemma find_anchor_eq q pn i y D : child_at b q pn i y -> find_anchor (anchors_of a b m pn i) (br <$> (take i (children pn) ++ D)) = anchor_ref pn i.
Proof using All.
  intros [Eq Ei]. unfold anchors_of, anchor_ref. destruct i as [|j]; [done|]. apply lookup_lt_Some in Ei.
  destruct (lookup_lt_is_Some_2 (children pn) j) as [c Ec]; [lia|]. rewrite (take_S_r _ _ c Ec), rev_app_distr. cbn [rev app fmap list_fmap find_anchor].
  rewrite Ec, decide_True; [done|]. apply list_elem_of_fmap. exists c. split; [done|]. set_solver.
Qed.

Lemma place_idx_eq tails q pn i y D : child_at b q pn i y -> Forall (fun c => c < Lb)%nat D -> tails !! (br q, anchor_ref pn i) = None ->
  place_idx tails (br q) (anchor_ref pn i) (br <$> (take i (children pn) ++ D)) = i.
Proof using Ha Hb Hm.
  intros [Eq Ei] HD Ht. unfold place_idx. rewrite Ht. unfold anchor_ref. destruct i as [|j]; [done|]. pose proof (lookup_lt_Some _ _ _ Ei) as Hlen.
  destruct (lookup_lt_is_Some_2 (children pn) j) as [c Ec]; [lia|]. rewrite Ec. cbn [fmap option_fmap option_map].
  destruct (wf_children b q pn (lk_wf b links_b) Eq) as [Hch _]. pose proof (wf_nodup b (lk_wf b links_b) q pn Eq) as Hnd.
  rewrite Forall_lookup in Hch.
  assert (Hl : list_find (fun x => x = br c) (br <$> (take (S j) (children pn) ++ D)) = Some (j, br c)).
  { apply list_find_Some. split_and!.
    - rewrite list_lookup_fmap, lookup_app_l by (rewrite length_take; lia). rewrite lookup_take_lt by lia. by rewrite Ec.
    - done.
    - intros l z El Hlj. rewrite list_lookup_fmap, lookup_app_l in El by (rewrite length_take; lia). rewrite lookup_take_lt in El by lia.
      destruct (children pn !! l) as [c'|] eqn:Ec'; [|done]. injection El as <-. intros E. apply br_inj in E; [|by eapply Hch|by eapply Hch].
      subst c'. pose proof (NoDup_lookup _ _ _ _ Hnd Ec' Ec). lia. }
  by rewrite Hl.
Qed.

Record placing (Q : list nat) (N : work_map) (tails : gmap (NodeRef * option NodeRef) NodeRef) : Prop := {
  pg_nodes : forall y k, nodes b !! y = Some k -> exists pr, N !! br y = Some (mkWork (old_shell y k) pr (br <$> partial Q k));
  pg_tails : forall r an z, tails !! (r, an) = Some z -> exists y q pn i, y ∈ Q /\ child_at b q pn i y /\ r = br q /\ an = anchor_ref pn i }.

Lemma anchor_ref_inj q pn i i' y y' : child_at b q pn i y -> child_at b q pn i' y' -> anchor_ref pn i = anchor_ref pn i' -> i = i'.
Proof using Ha Hb Hm.
  intros [Eq Ei] [_ Ei'] E. destruct (wf_children b q pn (lk_wf b links_b) Eq) as [Hch _]. pose proof (wf_nodup b (lk_wf b links_b) q pn Eq) as Hnd.
  rewrite Forall_lookup in Hch. apply lookup_lt_Some in Ei, Ei'. unfold anchor_ref in E. destruct i as [|j], i' as [|j']; [done| | |].
  - destruct (lookup_lt_is_Some_2 (children pn) j') as [c Ec]; [lia|]. by rewrite Ec in E.
  - destruct (lookup_lt_is_Some_2 (children pn) j) as [c Ec]; [lia|]. by rewrite Ec in E.
  - destruct (lookup_lt_is_Some_2 (children pn) j) as [c Ec]; [lia|]. destruct (lookup_lt_is_Some_2 (children pn) j') as [c' Ec']; [lia|].
    rewrite Ec, Ec' in E. change (Some (br c) = Some (br c')) in E. apply (inj Some), br_inj in E; [|by eapply Hch|by eapply Hch]. subst c'.
    f_equal. by eapply NoDup_lookup.
Qed.

(** Placing the next node. *)
Lemma place_step Q Q' y c N tails : P = Q ++ y :: Q' -> placement_op a b m y (c_op c) -> placing Q N tails ->
  exists N' tails', place (c_op c) N tails = Ret (N', tails') /\ placing (Q ++ [y]) N' tails'.
Proof using All.
  intros EP (q & pn & i & k & Hc & Ek & Hop) [Gn Gt]. pose proof Hc as [Eq Ei].
  assert (Hnode : op_node (c_op c) = br y) by (by destruct Hop as [[_ ->]|[_ ->]]).
  assert (Hpl : op_placement (c_op c) = Some (br q, anchors_of a b m pn i)) by (by destruct Hop as [[_ ->]|[_ ->]]).
  destruct (partial_split Q Q' q pn i y EP Hc) as (D & ED & ED'). destruct (Gn q pn Eq) as (pr & Ew). pose proof (lookup_lt_Some _ _ _ Eq) as Hq.
  assert (HD : Forall (fun c => c < Lb)%nat D).
  { destruct (wf_children b q pn (lk_wf b links_b) Eq) as [Hch _]. rewrite Forall_forall in Hch |- *. intros z Hz. apply Hch.
    assert (Hin : z ∈ partial Q pn) by (rewrite ED; set_solver). by apply list_elem_of_filter in Hin as [_ ?]. }
  assert (HyQ : y ∉ Q).
  { intros Hin. rewrite EP in HP. apply list_elem_of_lookup in Hin as [j Ej]. apply lookup_lt_Some in Ej as Hj.
    pose proof (increasing_lookup _ HP j (length Q) y y) as Hlt. rewrite lookup_app_l in Hlt by done. rewrite lookup_app_r, Nat.sub_diag in Hlt by lia.
    specialize (Hlt Ej eq_refl Hj). lia. }
  assert (Htn : tails !! (br q, anchor_ref pn i) = None).
  { destruct (tails !! _) as [z|] eqn:E; [|done]. exfalso. apply Gt in E as (y' & q' & pn' & i' & Hy' & Hc' & Er & Ean). pose proof Hc' as [Eq' Ei'].
    apply br_inj in Er; [|done|by eapply lookup_lt_Some]. subst q'. assert (pn' = pn) as -> by congruence.
    assert (i = i') as <- by (by eapply anchor_ref_inj). assert (y' = y) as -> by congruence. done. }
  unfold place. rewrite Hpl, Ew, Hnode. cbn [unwrap rust_bind w_children w_shell w_parent]. rewrite ED, (find_anchor_eq q pn i y D Hc), (place_idx_eq tails q pn i y D Hc HD Htn).
  eexists _, _. split; [reflexivity|]. assert (Hlen : length (br <$> take i (children pn)) = i) by (rewrite length_fmap, length_take; apply lookup_lt_Some in Ei; lia).
  rewrite fmap_app, take_app_length', drop_app_length' by done. split.
  - intros z kz Ez. destruct (decide (z = q)) as [->|Hne].
    + assert (kz = pn) as -> by congruence. exists pr. rewrite lookup_insert_eq, ED', fmap_app. done.
    + destruct (Gn z kz Ez) as (prz & Ez'). exists prz. rewrite lookup_insert_ne.
      * rewrite Ez'. do 3 f_equal. unfold partial. apply filter_ext_in. intros c' Hc'. rewrite elem_of_app, list_elem_of_singleton.
        assert (c' <> y); [|tauto]. intros ->. destruct (lk_child b links_b z kz y Ez Hc') as (k1 & Ek1 & Hp1).
        destruct (lk_child b links_b q pn y Eq ltac:(by eapply list_elem_of_lookup_2)) as (k2 & Ek2 & Hp2). congruence.
      * intros E. apply br_inj in E; [done|done|by eapply lookup_lt_Some].
  - intros r an z. rewrite lookup_insert_Some. intros [[[= <- <-] _]|[_ H]].
    + exists y, q, pn, i. split_and!; [set_solver|done|done|done].
    + destruct (Gt r an z H) as (y' & q' & pn' & i' & ? & ?). exists y', q', pn', i'. split; [set_solver|done].
Qed.

(** All placements: every child list is that of the target. *)
Lemma place_all_spec cs1 : Forall2 (fun y c => placement_op a b m y (c_op c)) P cs1 -> forall rest N, (forall c, c ∈ rest -> op_placement (c_op c) = None) ->
  placing [] N ∅ -> exists N', place_all (cs1 ++ rest) N ∅ = Ret N' /\
    forall y k, nodes b !! y = Some k -> exists pr, N' !! br y = Some (mkWork (old_shell y k) pr (br <$> children k)).
Proof using All.
  intros Hcs1 rest N Hrest Hpl.
  assert (Hend : forall l (N : work_map) tails, (forall c, c ∈ l -> op_placement (c_op c) = None) -> place_all l N tails = Ret N).
  { induction l as [|c l IH]; intros N0 tails Hl; [done|]. cbn [place_all]. unfold place. rewrite (Hl c) by (by left). apply IH. intros; apply Hl; by right. }
  assert (Hgen : forall Q' cs1', Forall2 (fun y c => placement_op a b m y (c_op c)) Q' cs1' -> forall Q N tails, P = Q ++ Q' -> placing Q N tails ->
    exists N', place_all (cs1' ++ rest) N tails = Ret N' /\ exists tails', placing P N' tails').
  { induction 1 as [|y c Q' cs1' Hop _ IH]; intros Q N0 tails EP Hp.
    - exists N0. rewrite app_nil_r in EP. subst Q. split; [by apply Hend|]. by exists tails.
    - cbn [app place_all]. destruct (place_step Q Q' y c N0 tails EP Hop Hp) as (N1 & t1 & -> & Hp1). cbn [rust_bind].
      apply (IH (Q ++ [y])); [by rewrite <- app_assoc|done]. }
  destruct (Hgen P cs1 Hcs1 [] N ∅ eq_refl Hpl) as (N' & E & tails' & [Gn _]). exists N'. split; [done|]. intros y k Ek.
  destruct (Gn y k Ek) as (pr & Ew). exists pr. rewrite Ew. do 3 f_equal. unfold partial. apply filter_Forall, Forall_forall. intros c _.
  destruct (decide (c ∈ P)); [by right|by left].
Qed.

End place.
