(* ===== verification/PlanLaws.v ===== *)
(** * Accepting a comparison reproduces the target

    The end of [plan_bounded] on a built graph, and the theorem: planning all
    changes of the comparison of two documents emits the second document. *)

From Stdlib Require Import String.
From S2P Require Import Prelude DiffBase Myers MyersRun TextDiff TextLaws Lis.
From S2P Require Import LisSuffix DiffTree TreeLaws Compose ComposeLaws RunLaws.
From S2P Require Import ShellLaws Classify ClassifyLaws Graph GraphLaws Plan.
From S2P Require Import PlanShape PlanNodes PlanLive PlanPlace.

Section finish.
Context {Value : Type} `{!EqDecision Value}.
Context (is_boolean is_string is_object is_array : Value -> bool).
Abbreviation tree := (Tree Value).
Abbreviation op := (@Op Value).
Abbreviation change := (@Change Value).
Abbreviation doc_ok := (doc_ok is_boolean is_string is_object is_array).
Abbreviation work_map := (gmap NodeRef (@Work Value)).

Context (a b : tree) (m : Matching) (moved : list bool).
Hypothesis Ha : doc_ok a.
Hypothesis Hb : doc_ok b.
Hypothesis Hm : matching_ok a b m.
Hypothesis Hroots : a2b m (root a) = Some (root b).
Hypothesis Hmv : moved_ok a b m moved.
Abbreviation br := (br a b m).
Abbreviation ra := (ra a).

Context (cs1 cs2 : list change) (P : list nat).
Hypothesis H1 : Forall2 (fun y c => placement_op a b m y (c_op c)) P cs1.
Hypothesis H2 : Forall2 (fun r c => op_for a b m r (c_op c)) (flat_map (kept_raws a b m moved) (seq 0 (length (nodes a)))) cs2.

Local Notation Lb := (length (nodes b)).
Abbreviation matched_br := (matched_br a b m Hm).
Abbreviation br_inj := (br_inj _ _ _ _ a b m Ha Hb Hm).
Abbreviation old_shell := (old_shell a m).
Abbreviation compose_shell := (compose_shell is_boolean is_string is_object is_array).

(** ** Shells *)

Lemma placements_no_payload c : c ∈ cs1 -> is_payload (c_op c) = false.
Proof using H1.
  intros Hc. apply list_elem_of_lookup in Hc as [i Ei]. destruct (Forall2_lookup_r _ _ _ _ _ H1 Ei) as (y & _ & q & pn & j & k & _ & _ & Hop).
  by destruct Hop as [[_ ->]|[_ ->]].
Qed.

Lemma by_node_all n : by_node (cs1 ++ cs2) n = by_node cs2 n.
Proof using H1.
  unfold by_node. rewrite filter_app, (filter_none _ cs1); [done|]. apply Forall_forall. intros c Hc [Hp _]. by rewrite (placements_no_payload c Hc) in Hp.
Qed.

(** Composing a node's payload changes gives its shell in the target. *)
Lemma compose_node y k : nodes b !! y = Some k -> is_Some (b2a m y) -> compose_shell (old_shell y k) (by_node (cs1 ++ cs2) (br y)) = inl (shell_of k).
Proof using All.
  intros Ek [x Ex]. pose proof (proj2 (m_inverse a b m Hm x y) Ex) as Ey. destruct (m_kind a b m Hm x y Ey) as (n & k' & En & Ek' & Hk).
  assert (k' = k) as -> by congruence. rewrite by_node_all, (matched_br x y Ey). unfold PlanNodes.old_shell. rewrite Ex, En.
  destruct (by_node_matched _ _ _ _ a b m moved Ha Hm Hroots Hmv cs2 H2 x y n k Ey En Ek) as (edits & He & Eop).
  eapply (compose_target is_boolean is_string is_object is_array (ra x) (shell_of n) (shell_of k) edits); [| | | |exact Eop].
  - by apply (dk_shell _ _ _ _ a Ha x).
  - by apply (dk_shell _ _ _ _ b Hb y).
  - done.
  - exact He.
Qed.

Lemma compose_nothing w : compose_shell w [] = inl w.
Proof using Type. destruct w as [k at' t]. unfold Compose.compose_shell, compose_text. cbn [fmap list_fmap validate_all collect_changes p_bind cs_edits cs_fmt cs_attrs sh_text sh_attrs sh_kind]. change (join_edits _) with (@nil Edit). cbn [p_bind]. by rewrite apply_deltas_empty. Qed.

(** A node without payload changes already has it. *)
Lemma no_payload y k : nodes b !! y = Some k -> by_node (cs1 ++ cs2) (br y) = [] -> old_shell y k = shell_of k.
Proof using All.
  intros Ek Hn. destruct (b2a m y) as [x|] eqn:Ex; [|unfold PlanNodes.old_shell; by rewrite Ex].
  pose proof (compose_node y k Ek ltac:(by rewrite Ex)) as Hc. rewrite Hn, compose_nothing in Hc. congruence.
Qed.

Lemma payload_nodes_spec r : r ∈ payload_nodes (cs1 ++ cs2) <-> by_node (cs1 ++ cs2) r <> [].
Proof using Type.
  unfold payload_nodes, sorted_refs. rewrite merge_sort_Permutation, elem_of_elements, elem_of_list_to_set, list_elem_of_fmap. split.
  - intros (c & -> & [Hp Hc]%list_elem_of_filter) Hnil. assert (Hin : c ∈ by_node (cs1 ++ cs2) (op_node (c_op c))) by (by apply list_elem_of_filter).
    rewrite Hnil in Hin. by apply not_elem_of_nil in Hin.
  - destruct (by_node _ r) as [|c l] eqn:E; [done|]. intros _. assert (Hin : c ∈ by_node (cs1 ++ cs2) r) by (rewrite E; by left).
    apply list_elem_of_filter in Hin as [[Hp Hn] Hc]. exists c. split; [done|]. by apply list_elem_of_filter.
Qed.

Lemma payload_nodes_matched r : r ∈ payload_nodes (cs1 ++ cs2) -> exists y k, nodes b !! y = Some k /\ is_Some (b2a m y) /\ r = br y.
Proof using All.
  rewrite payload_nodes_spec, by_node_all. destruct (by_node cs2 r) as [|c l] eqn:E; [done|]. intros _.
  assert (Hin : c ∈ by_node cs2 r) by (rewrite E; by left). apply list_elem_of_filter in Hin as [[Hp <-] Hc].
  destruct (rest_changes _ _ _ _ a b m moved Ha Hm Hroots Hmv cs2 H2 c Hc) as [(x & _ & Eop)|(x & y & n & k & e & Ey & En & Ek & _ & Hop)].
  - by rewrite Eop in Hp.
  - exists y, k. split_and!; [done|by rewrite (proj1 (m_inverse a b m Hm x y) Ey)|]. apply node_changes_payload in Hop as [_ ->]. by rewrite (matched_br x y Ey).
Qed.

Lemma payload_nodes_nodup : NoDup (payload_nodes (cs1 ++ cs2)).
Proof using Type. unfold payload_nodes, sorted_refs. rewrite merge_sort_Permutation. apply NoDup_elements. Qed.

(** The nodes while the keys in [R] are still to compose. *)
Definition composing (R : list NodeRef) (N : work_map) : Prop := forall y k, nodes b !! y = Some k ->
  exists pr, N !! br y = Some (mkWork (if decide (br y ∈ R) then old_shell y k else shell_of k) pr (br <$> children k)).

Lemma compose_nodes_spec R : NoDup R -> (forall r, r ∈ R -> r ∈ payload_nodes (cs1 ++ cs2)) -> forall N n, composing R N ->
  exists N', compose_nodes is_boolean is_string is_object is_array R (cs1 ++ cs2) N n = Ret (inl N', n) /\ composing [] N'.
Proof using All.
  induction 1 as [|r R Hr Hn IH]; intros HR N n HN; [by exists N|]. cbn [compose_nodes].
  destruct (payload_nodes_matched r (HR r ltac:(by left))) as (y & k & Ek & Hmat & ->). destruct (HN y k Ek) as (pr & Ew).
  rewrite decide_True in Ew by (by left). unfold l_bind at 1, l_lift. rewrite Ew. cbn [unwrap]. unfold l_bind at 1, l_pres. cbn [w_shell w_parent w_children].
  rewrite (compose_node y k Ek Hmat). apply IH; [intros; apply HR; by right|]. intros z kz Ez. destruct (HN z kz Ez) as (prz & Ewz).
  destruct (decide (z = y)) as [->|Hne].
  - assert (kz = k) as -> by congruence. exists pr. by rewrite lookup_insert_eq, decide_False.
  - assert (Hbr : br y <> br z) by (intros E; apply br_inj in E; [done|by eapply lookup_lt_Some|by eapply lookup_lt_Some]).
    exists prz. rewrite lookup_insert_ne by done. rewrite Ewz. destruct (decide (br z ∈ R)) as [Hin|Hin].
    + by rewrite decide_True by (by right).
    + rewrite decide_False; [done|]. intros [E|?]%elem_of_cons; [by symmetry in E|done].
Qed.

(** ** Emission *)

Section emission.
Context (N : work_map).
Hypothesis HN : composing [] N.

Lemma final_node y k : nodes b !! y = Some k -> exists pr, N !! br y = Some (mkWork (shell_of k) pr (br <$> children k)).
Proof using HN. intros Ek. destruct (HN y k Ek) as (pr & E). exists pr. by rewrite decide_False in E by apply not_elem_of_nil. Qed.

Lemma emit_spec f : forall y, (y < Lb)%nat -> (Lb - y <= f)%nat -> forall mapping, exists d mapping',
  emit N f (br y) mapping = Ret (d, mapping') /\ forall f', (Lb - y <= f')%nat -> to_json_at f' b y = Ret d.
Proof using All.
  induction f as [|f IH]; intros y Hy Hf mapping; [lia|]. cbn [emit]. destruct (lookup_lt_is_Some_2 _ _ Hy) as [k Ek].
  destruct (final_node y k Ek) as (pr & ->). cbn [unwrap rust_bind w_shell w_children]. pose proof (dk_links _ _ _ _ b Hb) as Lk.
  destruct (dk_shell _ _ _ _ b Hb y k Ek) as (_ & Hleaf & _). destruct (sh_text (shell_of k)) as [t|] eqn:Et.
  - eexists _, _. split; [reflexivity|]. intros [|f'] Hf'; [lia|]. cbn [to_json_at]. rewrite (node_eq b y k Ek). cbn [rust_bind].
    rewrite (dk_leaf _ _ _ _ b Hb y k Ek); [done|]. change (is_leaf (kind k) = bool_decide (is_Some (Some t))) in Hleaf. rewrite Hleaf. by apply bool_decide_eq_true_2.
  - pose proof (wf_below b (lk_wf b Lk) y k Ek) as Hch.
    match goal with |- context [rust_bind (?e (br <$> children k) ?mp) _] => set (emit_all := e); set (mp0 := mp) end.
    assert (Hall : forall l, Forall (fun c => y < c < Lb)%nat l -> forall mp, exists ds mp',
      emit_all (br <$> l) mp = Ret (ds, mp') /\ forall f', (Lb - y <= S f')%nat ->
        (fix all (l : list nat) : rust (list (@Document Value)) :=
           match l with [] => Ret [] | c :: l' => let! d := to_json_at f' b c in let! ds := all l' in Ret (d :: ds) end) l = Ret ds).
    { induction 1 as [|c l Hc _ IHl]; intros mp; [by exists [], mp|]. destruct (IH c ltac:(lia) ltac:(lia) mp) as (d & mp1 & Ed & Hd).
      destruct (IHl mp1) as (ds & mp2 & Eds & Hds). exists (d :: ds), mp2. split.
      - change (emit_all (br <$> c :: l) mp) with (let! (d, mp) := emit N f (br c) mp in let! (ds, mp) := emit_all (br <$> l) mp in Ret (d :: ds, mp)).
        rewrite Ed. cbn [rust_bind]. by rewrite Eds.
      - intros f' Hf'. rewrite (Hd f' ltac:(lia)). cbn [rust_bind]. by rewrite (Hds f' Hf'). }
    destruct (Hall (children k) Hch mp0) as (ds & mp' & -> & Hds). cbn [rust_bind]. eexists _, _. split; [reflexivity|].
    intros [|f'] Hf'; [lia|]. cbn [to_json_at]. rewrite (node_eq b y k Ek). cbn [rust_bind]. by rewrite (Hds f' Hf').
Qed.

End emission.
End finish.

(** ** The theorem *)

Section theorem.
Context {Value : Type} `{!EqDecision Value}.
Context (is_boolean is_string is_object is_array : Value -> bool).
Context (chunks : @Payload Value -> list Z) (change_id : Z -> Z -> list Z -> @Op Value -> list Z) (graph_digest : @Graph Value -> list Z).
Abbreviation tree := (Tree Value).
Abbreviation change := (@Change Value).
Abbreviation doc_ok := (doc_ok is_boolean is_string is_object is_array).
Abbreviation plan_bounded := (plan_bounded is_boolean is_string is_object is_array).

Lemma known_all (ids : gset (list Z)) l : (forall i, i ∈ l -> i ∈ ids) -> known l ids = inl tt.
Proof. induction l as [|i l IH]; intros H; [done|]. cbn [known]. rewrite decide_True by (apply H; by left). apply IH. intros j Hj. apply H. by right. Qed.

Lemma accepted_all (cs : list change) : filter (fun c => c_id c ∈ (list_to_set (c_id <$> cs) : gset (list Z))) cs = cs.
Proof.
  apply filter_Forall, Forall_forall. intros c Hc. apply elem_of_list_to_set, list_elem_of_fmap. by exists c.
Qed.

(** Planning the changes of a built graph. *)
Lemma plan_built (a b : tree) m o moved g cancel n : doc_ok a -> doc_ok b -> matching_ok a b m -> a2b m (root a) = Some (root b) ->
  0 <= max_depth (budget o) < 2 ^ 64 - 1 -> depth_within a (max_depth (budget o)) -> depth_within b (max_depth (budget o)) ->
  Z.of_nat (length (nodes a)) <= max_nodes (budget o) -> moved_ok a b m moved -> g_v g = 2 -> algo g = ALGO_VERSION -> from g = sid a ->
  explicit_conflicts g = [] -> Z.of_nat (length (changes g)) <= max_changes (budget o) ->
  changes_for a b m (stable_sort raw_le (all_raws a b m moved)) (changes g) -> anchors_fit o (changes g) 0 ->
  NoDup (c_id <$> changes g) -> never cancel ->
  exists p n', plan_bounded a g (accept_all g) (budget o) cancel n = Ret (inl p, n') /\ to_json b = Ret (p_result p).
Proof.
  intros Ha Hb Hm Hr Hdep Da Db Hnodes Hmv Hv Halgo Hfrom Hexp Hlen Hcs Hfit Hids Hnv.
  destruct (changes_split _ _ _ _ a b m moved Ha Hb Hm Hr Hmv _ Hcs) as (cs1 & cs2 & P & Ecs & HP & Hplace & H1 & H2).
  change (Forall2 (fun r c => op_for a b m r (c_op c)) (flat_map (kept_raws a b m moved) (seq 0 (length (nodes a)))) cs2) in H2.
  unfold Plan.plan_bounded, accept_all. rewrite Ecs in *. unfold l_bind at 1, l_check. rewrite Hnv.
  destruct (Z.ltb_spec (max_nodes (budget o)) (Z.of_nat (length (nodes a)))); [lia|].
  destruct (Z.ltb_spec (max_changes (budget o)) (Z.of_nat (length (cs1 ++ cs2)))); [lia|]. cbn [orb].
  rewrite Hv, Halgo, Hfrom, !Z.eqb_refl, Hexp. cbn [negb orb].
  pose proof (image_in a b m Hm _ _ Hr) as [Hra Hrb].
  unfold l_bind at 1, l_lift at 1. rewrite (lid_at_eq a (root a) Hra).
  destruct (register_all _ _ _ _ a b m moved Ha Hb Hm Hr Hmv cs1 cs2 P HP Hplace H1 H2 Hids) as (N0 & ins & N1 & E0 & E1 & HN1 & Hins).
  unfold l_bind at 1, l_lift at 1. rewrite E0. unfold l_bind at 1, l_pres at 1. rewrite E1. unfold all_ids.
  unfold l_bind at 1, l_pres at 1. rewrite known_all.
  2: { intros i. unfold sorted_ids. rewrite merge_sort_Permutation. by rewrite elem_of_elements. }
  destruct (validate_all_changes _ _ _ _ a b m moved Ha Hb Hm Hr Hmv cs1 cs2 P HP Hplace H1 H2 Hids o Hfit N1 HN1 cancel Hnv (S n)) as (n1 & Ev).
  unfold l_bind at 1. rewrite Ev, accepted_all. unfold l_bind at 1, l_pres at 1. cbn [explicit_groups].
  destruct (structure_all _ _ _ _ a b m moved Ha Hb Hm Hr Hmv cs1 cs2 P HP Hplace H1 H2 _ ins Hins N1 HN1) as (st & Est & Hst).
  unfold l_bind at 1, l_lift at 1. unfold all_ids in Est. rewrite Est.
  rewrite (sr_groups _ _ _ _ Hst), (no_repeated a b m st Hst). cbn [app].
  destruct (live_loop_spec _ _ _ _ a b m moved Ha Hb Hm Hr Hmv cs1 cs2 P HP Hplace H1 H2 _ ins Hins st _ Hst Hdep Da Db cancel
    (c_id <$> cs1 ++ cs2) Hnv (sorted_keys (s_nodes st)) ∅ [] n1) as (live & n2 & El & Hlive).
  { intros r. unfold sorted_keys, sorted_refs. by rewrite merge_sort_Permutation, elem_of_elements, elem_of_dom. }
  unfold all_ids in El. unfold l_bind at 1. rewrite El.
  assert (Hl1 : forall y, (y < length (nodes b))%nat -> br a b m y ∈ live).
  { intros y Hy. apply Hlive. right. split; [|by exists y]. unfold sorted_keys, sorted_refs. rewrite merge_sort_Permutation, elem_of_elements, elem_of_dom.
    destruct (lookup_lt_is_Some_2 _ _ Hy) as [k Ek]. destruct (nv_b _ _ _ _ _ (sr_view _ _ _ _ Hst) y k Ek) as (pr & _ & ->). by eexists. }
  assert (Hl2 : forall r, r ∈ live -> exists y, (y < length (nodes b))%nat /\ r = br a b m y).
  { intros r [He|[_ Ht]]%Hlive; [by apply not_elem_of_empty in He|done]. }
  unfold l_bind at 1, l_lift at 1.
  pose proof (dead_groups_none _ _ _ _ a b m moved Ha Hb Hm Hr Hmv cs1 cs2 P HP Hplace H1 H2 _ ins Hins st _ Hst Hdep Da Db live [] Hl1) as Edg.
  unfold all_ids in Edg. rewrite Edg.
  rewrite bool_decide_eq_true_2 by done. cbn [negb].
  match goal with |- context [retain live ?mv] => set (mvd := mv) end.
  assert (Hrest : forall c, c ∈ cs2 -> op_placement (c_op c) = None).
  { intros c Hc. by apply (rest_not_insert _ _ _ _ a b m moved Ha Hm Hr Hmv cs2 H2 c Hc). }
  assert (Hmvd : forall r, r ∈ mvd <-> exists y, y ∈ P /\ r = br a b m y).
  { intros r. unfold mvd. rewrite elem_of_list_to_set, list_elem_of_fmap. split.
    - intros (c & -> & [Hp [Hc|Hc]%elem_of_app]%list_elem_of_filter); [|rewrite (Hrest c Hc) in Hp; by destruct Hp].
      apply list_elem_of_lookup in Hc as [i Ei]. destruct (Forall2_lookup_r _ _ _ _ _ H1 Ei) as (y & Ey & q & pn & j & k & _ & _ & Hop).
      exists y. split; [by eapply list_elem_of_lookup_2|]. by destruct Hop as [[_ ->]|[_ ->]].
    - intros (y & Hy & ->). apply list_elem_of_lookup in Hy as [i Ei]. destruct (Forall2_lookup_l _ _ _ _ _ H1 Ei) as (c & Ec & q & pn & j & k & _ & _ & Hop).
      exists c. split; [by destruct Hop as [[_ ->]|[_ ->]]|]. apply list_elem_of_filter. split; [|apply elem_of_app; left; by eapply list_elem_of_lookup_2].
      by destruct Hop as [[_ ->]|[_ ->]]; eexists. }
  destruct (place_all_spec _ _ _ _ a b m moved Ha Hb Hm Hr Hmv P HP Hplace cs1 H1 cs2 (retain live mvd <$> s_nodes st) Hrest) as (N4 & E4 & HN4).
  { split; [|intros r an z; by rewrite lookup_empty]. intros y k Ek. destruct (nv_b _ _ _ _ _ (sr_view _ _ _ _ Hst) y k Ek) as (pr & _ & Ew).
    exists pr. rewrite lookup_fmap, Ew. cbn [fmap option_fmap option_map]. unfold retain. cbn [w_shell w_parent w_children]. do 2 f_equal.
    rewrite (retained _ _ _ _ a b m moved Ha Hb Hm Hr Hmv P Hplace y k live mvd Ek Hl1 Hl2 Hmvd). f_equal. unfold partial. apply filter_ext_in.
    intros c _. split; [by left|]. by intros [?|?%not_elem_of_nil]. }
  unfold l_bind at 1, l_lift at 1. rewrite E4.
  destruct (compose_nodes_spec _ _ _ _ a b m moved Ha Hb Hm Hr Hmv cs1 cs2 P H1 H2 (payload_nodes (cs1 ++ cs2)) (payload_nodes_nodup cs1 cs2) ltac:(done) N4 n2)
    as (N5 & E5 & HN5).
  { intros y k Ek. destruct (HN4 y k Ek) as (pr & Ew). exists pr. rewrite Ew. destruct (decide _) as [|Hno]; [done|]. do 2 f_equal.
    apply (no_payload _ _ _ _ a b m moved Ha Hb Hm Hr Hmv cs1 cs2 P H1 H2 y k Ek).
    destruct (by_node _ _) eqn:E; [done|]. exfalso. apply Hno, payload_nodes_spec. by rewrite E. }
  unfold l_bind at 1. rewrite E5.
  assert (Hsize : (length (nodes b) <= size N5)%nat).
  { apply (size_at_least (br a b m)); [intros; by apply (br_inj _ _ _ _ a b m Ha Hb Hm)|]. intros y Hy. destruct (lookup_lt_is_Some_2 _ _ Hy) as [k Ek].
    destruct (HN5 y k Ek) as (pr & ->). by eexists. }
  rewrite <- (matched_br a b m Hm (root a) (root b) Hr).
  destruct (emit_spec _ _ _ _ a b m moved Ha Hb Hm Hr Hmv cs1 cs2 P H1 H2 N5 HN5 (size N5) (root b) Hrb ltac:(lia) ∅) as (d & mp & Ee & Hd).
  unfold l_bind at 1, l_lift at 1. rewrite Ee. eexists _, _. split; [reflexivity|]. unfold to_json. apply Hd. lia.
Qed.


End theorem.

(** ** A comparison *)

(** A document of sentences; node ids are distinct positions. *)
Definition sentence_node (l : Z) (j : nat) (t : text) : Node bool :=
  mkNode KSen (l + Z.of_nat (S j)) None ∅ (Some (mkText t [])) [] (Some 0%nat) (Z.of_nat j) 1 0 0.
Definition flat (l : Z) (ts : list text) : Tree bool :=
  mkTree (mkNode Doc l None ∅ None (seq 1 (length ts)) None 0 0 0 0 :: imap (sentence_node l) ts) 0 l.

Lemma flat_lookup l ts x n : nodes (flat l ts) !! x = Some n ->
  (x = 0%nat /\ n = mkNode Doc l None ∅ None (seq 1 (length ts)) None 0 0 0 0) \/
  exists j t, x = S j /\ ts !! j = Some t /\ n = sentence_node l j t.
Proof.
  destruct x as [|j]; simpl; [intros [= <-]; by left|]. rewrite list_lookup_imap. destruct (ts !! j) as [t|] eqn:E; [|done].
  intros [= <-]. right. by exists j, t.
Qed.

Lemma flat_links l ts : Z.of_nat (length ts) < 2 ^ 31 -> links_ok (flat l ts).
Proof.
  intros Hl. assert (Hinc : forall k m, increasing (seq k m)).
  { intros k m. revert k. induction m as [|m IH]; intros k; simpl; constructor; [apply IH|]. apply Forall_forall. intros z Hz%elem_of_seq. lia. }
  split; [split|..].
  - simpl. lia.
  - intros x n [[-> ->]|(j & t & -> & _ & ->)]%flat_lookup; simpl; [|by constructor]. apply Forall_forall. intros c Hc%elem_of_seq. rewrite length_imap. lia.
  - intros x n [[-> ->]|(j & t & -> & _ & ->)]%flat_lookup; simpl; [apply NoDup_seq|constructor].
  - simpl. rewrite length_imap. lia.
  - intros x n p [[-> ->]|(j & t & -> & Et & ->)]%flat_lookup; simpl; [done|]. intros [= <-]. eexists. split; [reflexivity|]. simpl.
    apply elem_of_seq. apply lookup_lt_Some in Et. lia.
  - intros p pn c [[-> ->]|(j & t & -> & _ & ->)]%flat_lookup; simpl; [|by intros ?%not_elem_of_nil]. intros Hc%elem_of_seq. destruct c as [|j]; [lia|].
    destruct (lookup_lt_is_Some_2 ts j) as [t Et]; [lia|]. exists (sentence_node l j t). split; [|done]. simpl. by rewrite list_lookup_imap, Et.
  - intros x n [[-> ->]|(j & t & -> & _ & ->)]%flat_lookup; simpl; [done|]. by split.
  - intros x n [[-> ->]|(j & t & -> & _ & ->)]%flat_lookup; simpl; [apply Hinc|constructor].
Qed.

Abbreviation yes := (fun _ : bool => true).
Abbreviation no := (fun _ : bool => false).

Lemma flat_ok l ts : Z.of_nat (length ts) < 2 ^ 31 -> Forall (fun t => Z.of_nat (length t) < 2 ^ 32) ts -> doc_ok yes no no no (flat l ts).
Proof.
  intros Hl Ht. split; [by apply flat_links|..].
  - intros x n [[-> ->]|(j & t & -> & Et & ->)]%flat_lookup; [done|]. rewrite Forall_lookup in Ht. specialize (Ht j t Et). split_and!; [done|done|].
    simpl. split; [|constructor]. unfold Compose.validate_runs. cbn [tx length] in *. by destruct (Z.leb_spec (2 ^ 32) (Z.of_nat (length t))); [lia|].
  - intros x n [[-> ->]|(j & t & -> & Et & ->)]%flat_lookup; done.
  - intros x x' n n' [[-> ->]|(j & t & -> & Et & ->)]%flat_lookup [[-> ->]|(j' & t' & -> & Et' & ->)]%flat_lookup; simpl; lia.
Qed.

Lemma flat_depth l ts d : 1 <= d -> depth_within (flat l ts) d.
Proof.
  intros Hd. exists (fun x => match x with O => 0 | S _ => 1 end)%nat. split.
  - intros x n p [[-> ->]|(j & t & -> & Et & ->)]%flat_lookup; simpl; [done|]. by intros [= <-].
  - intros [|x] _; lia.
Qed.

(** The sentences [c], [a!] and [d] in place of [a], [b] and [c]: [c] moves, [a]
    is rewritten, [b] deleted and [d] inserted. *)
Definition old_doc : Tree bool := flat 100 [[97]; [98]; [99]].
Definition new_doc : Tree bool := flat 200 [[99]; [97; 33]; [100]].
Definition pairs_doc : Matching :=
  (set_pair (set_pair (set_pair (Matching_new old_doc new_doc) 0 0 I3).1 3 1 I1Exact).1 1 2 I2).1.
Definition op_tag (o : @Op bool) : Z :=
  match o with OpMove _ _ _ => 0 | OpInsert _ _ _ _ => 1 | OpDelete _ => 2 | OpModify _ _ _ _ => 3 | OpFormat _ _ _ => 4 | OpAttrs _ _ _ => 5 end.
Definition op_id (from to : Z) (options : list Z) (o : @Op bool) : list Z := [op_tag o; match op_node o with RefA l | RefB l => l end].
Definition one_chunk (p : @Payload bool) : list Z := [1].
Definition no_digest (g : @Graph bool) : list Z := [].
Definition word_options : Options := mkOptions Word default_budget cancel_none [].

Lemma pairs_doc_ok : matching_ok old_doc new_doc pairs_doc.
Proof.
  assert (Hk : forall x y n k, nodes old_doc !! x = Some n -> nodes new_doc !! y = Some k -> kind n = kind k -> same_kind old_doc new_doc x y)
    by (intros x y n k En Ek E; by exists n, k).
  unfold pairs_doc.
  eapply set_pair_grows1; [eapply set_pair_grows1; [eapply set_pair_grows1; [apply Matching_new_ok|]|]|]; eapply Hk; reflexivity.
Qed.

