(* ===== verification/Json.v ===== *)
(** * JSON documents as records ([crates/marekvs-core/src/json.rs])

    A document is one record per JSON path.  This file holds the path and value
    codecs, the order of array elements, the decomposition of a value into
    records and its inverse.  Byte strings stand for [String]s, which hold valid
    UTF-8; doubles are their bit patterns.

    [serde_json] is not part of the sources: its number type is the class
    [JsonNumber], its [Value] has the public constructors, and its object map
    is the ordered map of the default build ([BTree]).  [sort_unstable_by_key]
    is a merge sort: keys are distinct unless two records of one document
    decode to the same path. *)

From S2P Require Import Prelude Varint Envelope Merge BTree Generic.

(** ** Element ids and path segments *)

Definition SEG_FIELD : Z := 1.
Definition SEG_ELEM : Z := 2.

Record Eid := mkEid { eid_hlc : Z; eid_origin : Z }.
#[export] Instance Eid_eq_dec : EqDecision Eid.
Proof. solve_decision. Defined.
#[export] Program Instance Eid_countable : Countable Eid :=
  inj_countable' (fun e => (eid_hlc e, eid_origin e)) (fun p => mkEid p.1 p.2) _.
Next Obligation. by intros []. Qed.

Definition EID_HEAD : Eid := mkEid 0 0.

(** The derived order: by [hlc], then by [origin]. *)
Definition eid_ver (e : Eid) : version := (eid_hlc e, eid_origin e).

Definition eid_encode (e : Eid) : bytes := be_bytes 8 (eid_hlc e) ++ be_bytes 2 (eid_origin e).
Definition eid_decode (b : bytes) : option Eid :=
  if (length b <? 10)%nat then None
  else Some (mkEid (of_be (slice 0 8 b)) (of_be (slice 8 10 b))).

Inductive Seg := Field (f : bytes) | Elem (e : Eid).
#[export] Instance Seg_eq_dec : EqDecision Seg.
Proof. solve_decision. Defined.

(** [push_seg] appends these bytes. *)
Definition seg_bytes (s : Seg) : bytes :=
  match s with
  | Field f => SEG_FIELD :: put_varint (Z.of_nat (length f)) ++ f
  | Elem e => SEG_ELEM :: eid_encode e
  end.
Definition push_seg (path : bytes) (s : Seg) : bytes := path ++ seg_bytes s.
Definition encode_path (segs : list Seg) : bytes := foldl push_seg [] segs.

(** [1 + n + len] overflows on a crafted length: a panic with and without
    overflow checks, the slice being reversed in the latter case. *)
Definition decode_seg (buf : bytes) : rust (option (Seg * nat)) :=
  match buf with
  | [] => Ret None
  | t :: rest =>
      if t =? SEG_FIELD then
        match get_varint rest with
        | None => Ret None
        | Some (len, n) =>
            if 2 ^ 64 <=? 1 + Z.of_nat n + len then Panic
            else if Z.of_nat (length buf) <? 1 + Z.of_nat n + len then Ret None
            else let len := Z.to_nat len in
                 Ret (Some (Field (slice (1 + n) (1 + n + len) buf), (1 + n + len)%nat))
        end
      else if t =? SEG_ELEM then
        Ret (match eid_decode rest with Some e => Some (Elem e, 11%nat) | None => None end)
      else Ret None
  end.

(** The loops over a suffix; every segment takes at least one byte, so the
    number of bytes is enough fuel. *)
Fixpoint decode_path_loop (fuel : nat) (suffix : bytes) : rust (option (list Seg)) :=
  match suffix, fuel with
  | [], _ => Ret (Some [])
  | _, O => Panic
  | _, S fuel =>
      let! d := decode_seg suffix in
      match d with
      | None => Ret None
      | Some (seg, n) => let! r := decode_path_loop fuel (drop n suffix) in Ret (cons seg <$> r)
      end
  end.
Definition decode_path (suffix : bytes) : rust (option (list Seg)) := decode_path_loop (length suffix) suffix.

Fixpoint split_last_loop (fuel : nat) (path : bytes) (pos : nat) (last : option (nat * Seg)) :
    rust (option (option (nat * Seg))) :=
  match drop pos path, fuel with
  | [], _ => Ret (Some last)
  | _, O => Panic
  | rest, S fuel =>
      let! d := decode_seg rest in
      match d with
      | None => Ret None
      | Some (seg, n) => split_last_loop fuel path (pos + n) (Some (pos, seg))
      end
  end.
Definition split_last (path : bytes) : rust (option (bytes * Seg)) :=
  let! r := split_last_loop (length path) path 0 None in
  Ret (match r with Some (Some (start, seg)) => Some (take start path, seg) | _ => None end).

(** ** Values of records *)

Inductive JVal :=
  | VNull | VBool (b : bool) | VInt (i : Z) | VUInt (i : Z) | VFloat (bits : Z) | VStr (s : bytes) | VObj | VArr.
#[export] Instance JVal_eq_dec : EqDecision JVal.
Proof. solve_decision. Defined.

Definition JT_NULL : Z := 0.
Definition JT_FALSE : Z := 1.
Definition JT_TRUE : Z := 2.
Definition JT_INT : Z := 3.
Definition JT_FLT : Z := 4.
Definition JT_STR : Z := 5.
Definition JT_OBJ : Z := 6.
Definition JT_ARR : Z := 7.
Definition JT_UINT : Z := 8.

Definition jval_encode (v : JVal) : bytes :=
  match v with
  | VNull => [JT_NULL]
  | VBool false => [JT_FALSE]
  | VBool true => [JT_TRUE]
  | VInt i => JT_INT :: be_bytes 8 i
  | VUInt i => JT_UINT :: be_bytes 8 i
  | VFloat f => JT_FLT :: be_bytes 8 f
  | VStr s => JT_STR :: s
  | VObj => [JT_OBJ]
  | VArr => [JT_ARR]
  end.

Definition jval_decode (b : bytes) : option JVal :=
  match b with
  | [] => None
  | t :: rest =>
      let empty := match rest with [] => true | _ => false end in
      let eight := (length rest =? 8)%nat in
      if (t =? JT_NULL) && empty then Some VNull
      else if (t =? JT_FALSE) && empty then Some (VBool false)
      else if (t =? JT_TRUE) && empty then Some (VBool true)
      else if (t =? JT_INT) && eight then Some (VInt (to_signed 64 (of_be rest)))
      else if (t =? JT_UINT) && eight then Some (VUInt (of_be rest))
      else if (t =? JT_FLT) && eight then Some (VFloat (of_be rest))
      else if t =? JT_STR then Some (VStr rest)
      else if (t =? JT_OBJ) && empty then Some VObj
      else if (t =? JT_ARR) && empty then Some VArr
      else None
  end.

Record ArrElem := mkArrElem { ae_left : Eid; ae_val : JVal }.
#[export] Instance ArrElem_eq_dec : EqDecision ArrElem.
Proof. solve_decision. Defined.
Definition arr_encode (a : ArrElem) : bytes := eid_encode (ae_left a) ++ jval_encode (ae_val a).
Definition arr_decode (b : bytes) : option ArrElem :=
  match eid_decode b with
  | None => None
  | Some l => mkArrElem l <$> jval_decode (drop 10 b)
  end.

(** ** The order of array elements *)

Definition eid_le (a b : Eid * bool) : Prop := ver_leb (eid_ver a.1) (eid_ver b.1) = true.
#[export] Instance eid_le_dec : RelDecision eid_le.
Proof. intros a b. unfold eid_le. apply _. Defined.

Definition anchor_of (present : gset Eid) (left : Eid) : Eid :=
  if bool_decide (left <> EID_HEAD) && bool_decide (left ∉ present) then EID_HEAD else left.
Definition push_child (m : gmap Eid (list (Eid * bool))) (a : Eid) (c : Eid * bool) : gmap Eid (list (Eid * bool)) :=
  <[a := default [] (m !! a) ++ [c]]> m.
Definition present_ids (elems : list (Eid * Eid * bool)) : gset Eid := list_to_set ((fun e => e.1.1) <$> elems).
Definition group_children (present : gset Eid) (elems : list (Eid * Eid * bool)) : gmap Eid (list (Eid * bool)) :=
  foldl (fun m '(eid, lft, live) => push_child m (anchor_of present lft) (eid, live)) ∅ elems.

(** The [while let] loop; the stack is listed from its top, so extending it by
    [kids] puts the last of them first.  Each element is pushed at most once. *)
Fixpoint rga_walk (fuel : nat) (children : gmap Eid (list (Eid * bool))) (stack : list (Eid * bool)) : list (Eid * bool) :=
  match stack, fuel with
  | [], _ | _, O => []
  | (eid, live) :: stack, S fuel =>
      (eid, live) ::
      match children !! eid with
      | Some kids => rga_walk fuel (delete eid children) (rev kids ++ stack)
      | None => rga_walk fuel children stack
      end
  end.

Definition rga_order (elems : list (Eid * Eid * bool)) : list (Eid * bool) :=
  let present := present_ids elems in
  let children := merge_sort eid_le <$> group_children present elems in
  rga_walk (length elems) (delete EID_HEAD children) (rev (default [] (children !! EID_HEAD))).

(** ** [String::from_utf8_lossy]

    Ill-formed sequences become U+FFFD, one for each maximal prefix of a
    well-formed sequence. *)
Definition REPLACEMENT : bytes := [239; 191; 189].
(** Second bytes that may follow a lead byte of three or four. *)
Definition second3 (b0 b1 : Z) : bool :=
  if b0 =? 224 then (160 <=? b1) && (b1 <? 192)
  else if b0 =? 237 then (128 <=? b1) && (b1 <? 160) else cont b1.
Definition second4 (b0 b1 : Z) : bool :=
  if b0 =? 240 then (144 <=? b1) && (b1 <? 192)
  else if b0 =? 244 then (128 <=? b1) && (b1 <? 144) else cont b1.
Fixpoint from_utf8_lossy (l : bytes) : bytes :=
  match l with
  | [] => []
  | b0 :: l1 =>
      if b0 <? 128 then b0 :: from_utf8_lossy l1
      else if (194 <=? b0) && (b0 <? 224) then
        match l1 with
        | b1 :: l2 => if cont b1 then b0 :: b1 :: from_utf8_lossy l2 else REPLACEMENT ++ from_utf8_lossy l1
        | [] => REPLACEMENT
        end
      else if (224 <=? b0) && (b0 <? 240) then
        match l1 with
        | b1 :: l2 =>
            if second3 b0 b1 then
              match l2 with
              | b2 :: l3 => if cont b2 then b0 :: b1 :: b2 :: from_utf8_lossy l3 else REPLACEMENT ++ from_utf8_lossy l2
              | [] => REPLACEMENT
              end
            else REPLACEMENT ++ from_utf8_lossy l1
        | [] => REPLACEMENT
        end
      else if (240 <=? b0) && (b0 <? 245) then
        match l1 with
        | b1 :: l2 =>
            if second4 b0 b1 then
              match l2 with
              | b2 :: l3 =>
                  if cont b2 then
                    match l3 with
                    | b3 :: l4 => if cont b3 then b0 :: b1 :: b2 :: b3 :: from_utf8_lossy l4 else REPLACEMENT ++ from_utf8_lossy l3
                    | [] => REPLACEMENT
                    end
                  else REPLACEMENT ++ from_utf8_lossy l2
              | [] => REPLACEMENT
              end
            else REPLACEMENT ++ from_utf8_lossy l1
        | [] => REPLACEMENT
        end
      else REPLACEMENT ++ from_utf8_lossy l1
  end.

(** ** Documents and records *)

(** [serde_json::Number]. *)
Class JsonNumber (Number : Type) := {
  as_i64 : Number -> option Z;
  as_u64 : Number -> option Z;
  as_f64 : Number -> option Z;
  of_i64 : Z -> Number;
  of_u64 : Z -> Number;
  from_f64 : Z -> option Number }.

(** [serde_json::Value]; an object lists its entries in key order. *)
Inductive Value {Number : Type} :=
  | Null
  | Bool (b : bool)
  | Num (n : Number)
  | Str (s : bytes)
  | Array (a : list Value)
  | Object (m : list (bytes * Value)).
Arguments Value : clear implicits.

Inductive JsonRecord :=
  | JMap (path : bytes) (val : JVal)
  | JArr (path : bytes) (elem : ArrElem).
Definition rec_path (r : JsonRecord) : bytes := match r with JMap p _ | JArr p _ => p end.

Section decompose.
Context {Number : Type} `{!JsonNumber Number}.
Abbreviation value := (Value Number).

Definition jval_of (v : value) : JVal :=
  match v with
  | Null => VNull
  | Bool b => VBool b
  | Num n =>
      match as_i64 n with
      | Some i => VInt i
      | None => match as_u64 n with Some i => VUInt i | None => VFloat (default 0 (as_f64 n)) end
      end
  | Str s => VStr s
  | Object _ => VObj
  | Array _ => VArr
  end.

(** [fresh] is a closure over a state [St] of its own. *)
Context {St : Type} (fresh : St -> bytes -> nat -> Eid * St).

(** [decompose_into] is the record of the value followed by its children's. *)
Fixpoint decompose_children (path : bytes) (v : value) (st : St) {struct v} : list JsonRecord * St :=
  match v with
  | Object m =>
      (fix fields m st {struct m} :=
         match m with
         | [] => ([], st)
         | (k, child) :: m =>
             let path := push_seg path (Field k) in
             let '(rs, st) := decompose_children path child st in
             let '(rs', st) := fields m st in
             (JMap path (jval_of child) :: rs ++ rs', st)
         end) m st
  | Array a =>
      (fix items a left ordinal st {struct a} :=
         match a with
         | [] => ([], st)
         | child :: a =>
             let '(e, st) := fresh st path ordinal in
             let path := push_seg path (Elem e) in
             let '(rs, st) := decompose_children path child st in
             let '(rs', st) := items a e (S ordinal) st in
             (JArr path (mkArrElem left (jval_of child)) :: rs ++ rs', st)
         end) a EID_HEAD 0%nat st
  | _ => ([], st)
  end.
Definition decompose_into (path : bytes) (v : value) (st : St) : list JsonRecord * St :=
  let '(rs, st) := decompose_children path v st in (JMap path (jval_of v) :: rs, st).
Definition decompose_with_paths (base : list Seg) (v : value) (st : St) : list JsonRecord * St :=
  decompose_into (encode_path base) v st.
End decompose.

(** The two entry points whose closure ignores the position. *)
Definition decompose {Number St} `{!JsonNumber Number} (base : list Seg) (v : Value Number) (fresh : St -> Eid * St) (st : St) :=
  decompose_into (fun st _ _ => fresh st) (encode_path base) v st.
Definition decompose_children_at {Number St} `{!JsonNumber Number} (base_path : bytes) (v : Value Number) (fresh : St -> Eid * St) (st : St) :=
  decompose_children (fun st _ _ => fresh st) base_path v st.

(** ** Materialization *)

Inductive NodeIn :=
  | NMap (val : JVal) (dots : list Dot)
  | NArr (elem : ArrElem) (live : bool).

Record ArrInfo := mkArrInfo { ai_order : list Eid; ai_last : option Eid }.
Record DocIndex := mkDocIndex { map_dots : gmap bytes (list Dot); arrays : gmap bytes ArrInfo }.
Record Doc {Number : Type} := mkDoc { doc_value : Value Number; doc_index : DocIndex }.
Arguments Doc : clear implicits.

Abbreviation kids_map := (gmap bytes (list (Seg * NodeIn))).
Definition push_kid (m : kids_map) (parent : bytes) (c : Seg * NodeIn) : kids_map :=
  <[parent := default [] (m !! parent) ++ [c]]> m.

Section materialize.
Context {Number : Type} `{!JsonNumber Number}.
Abbreviation value := (Value Number).

Definition scalar_value (val : JVal) : rust value :=
  match val with
  | VNull => Ret Null
  | VBool b => Ret (Bool b)
  | VInt i => Ret (Num (of_i64 i))
  | VUInt i => Ret (Num (of_u64 i))
  | VFloat f => Ret (match from_f64 f with Some n => Num n | None => Null end)
  | VStr s => Ret (Str (from_utf8_lossy s))
  | VObj | VArr => Panic
  end.

Definition field_of (c : Seg * NodeIn) : option (bytes * JVal * list Dot) :=
  match c with (Field name, NMap val dots) => Some (name, val, dots) | _ => None end.
Definition elem_entry (c : Seg * NodeIn) : option (Eid * ArrElem * bool) :=
  match c with (Elem e, NArr elem live) => Some (e, elem, live) | _ => None end.
Definition name_le (a b : bytes * JVal * list Dot) : Prop := bytes_cmp a.1.1 b.1.1 <> Gt.
#[export] Instance name_le_dec : RelDecision name_le.
Proof. intros a b. unfold name_le. apply _. Defined.

(** [index.map_dots.insert] and [index.arrays.insert]. *)
Definition put_dots (p : bytes) (d : list Dot) (i : DocIndex) : DocIndex := mkDocIndex (<[p := d]> (map_dots i)) (arrays i).
Definition put_array (p : bytes) (a : ArrInfo) (i : DocIndex) : DocIndex := mkDocIndex (map_dots i) (<[p := a]> (arrays i)).

Section node.
(** [materialize] at a deeper path. *)
Context (rec : bytes -> JVal -> DocIndex -> rust (value * DocIndex)).
Context (path : bytes).

(** The fields in name order; [map.insert] replaces the value of a name that
    the lossy conversion has made equal to an earlier one. *)
Fixpoint mat_fields (fields : list (bytes * JVal * list Dot)) (map : list (bytes * value)) (index : DocIndex) :
    rust (list (bytes * value) * DocIndex) :=
  match fields with
  | [] => Ret (map, index)
  | (name, fval, dots) :: fields =>
      let p := push_seg path (Field name) in
      let! (v, index) := rec p fval (put_dots p dots index) in
      mat_fields fields (bt_update bytes_cmp (from_utf8_lossy name) (fun _ => v) map) index
  end.

Fixpoint mat_elems (by_eid : gmap Eid ArrElem) (ordered : list (Eid * bool)) (index : DocIndex) :
    rust (list value * list Eid * DocIndex) :=
  match ordered with
  | [] => Ret ([], [], index)
  | (e, false) :: ordered => mat_elems by_eid ordered index
  | (e, true) :: ordered =>
      match by_eid !! e with
      | None => Panic
      | Some elem =>
          let! (v, index) := rec (push_seg path (Elem e)) (ae_val elem) index in
          let! (vs, es, index) := mat_elems by_eid ordered index in
          Ret (v :: vs, e :: es, index)
      end
  end.
End node.

(** Every level goes to a longer path that has children, so the number of
    records bounds the depth (proved with the laws of materialization). *)
Fixpoint materialize (fuel : nat) (kids : kids_map) (path : bytes) (val : JVal) (index : DocIndex) : rust (value * DocIndex) :=
  match fuel with
  | O => Panic
  | S fuel =>
      let children := default [] (kids !! path) in
      match val with
      | VObj =>
          let fields := merge_sort name_le (omap field_of children) in
          let! (map, index) := mat_fields (materialize fuel kids) path fields [] index in
          Ret (Object map, index)
      | VArr =>
          let elems := omap elem_entry children in
          let by_eid := foldl (fun m '(e, elem, _) => <[e := elem]> m) ∅ elems in
          let ordered := rga_order ((fun '(e, elem, live) => (e, ae_left elem, live)) <$> elems) in
          let! (arr, order, index) := mat_elems (materialize fuel kids) path by_eid ordered index in
          Ret (Array arr, put_array path (mkArrInfo order (fst <$> last ordered)) index)
      | scalar => let! v := scalar_value scalar in Ret (v, index)
      end
  end.

Fixpoint collect (nodes : list (bytes * NodeIn)) (kids : kids_map) (root : option NodeIn) : rust (kids_map * option NodeIn) :=
  match nodes with
  | [] => Ret (kids, root)
  | ([], node) :: nodes => collect nodes kids (Some node)
  | (path, node) :: nodes =>
      let! s := split_last path in
      match s with
      | None => collect nodes kids root
      | Some (parent, last) => collect nodes (push_kid kids parent (last, node)) root
      end
  end.

Definition build_doc (nodes : list (bytes * NodeIn)) : rust (option (Doc Number)) :=
  let! (kids, root) := collect nodes ∅ None in
  match root with
  | Some (NMap val dots) =>
      let index := mkDocIndex {[ [] := dots ]} ∅ in
      let! (value, index) := materialize (S (length nodes)) kids [] val index in
      Ret (Some (mkDoc _ value index))
  | _ => Ret None
  end.
End materialize.
