(* ===== verification/JsonPath.v ===== *)
(** * Laws of the JSON path and value codecs

    Paths round-trip, the records below a path are exactly those whose key has
    its bytes as a prefix, and record values round-trip. *)

From S2P Require Import Prelude Varint Ikey Json.

Definition eid_ok (e : Eid) : Prop := u64 (eid_hlc e) /\ u16 (eid_origin e).
(** What a [Seg] of the program can be: names are slices, ids machine words. *)
Definition seg_ok (s : Seg) : Prop := match s with Field f => slice_len_ok f | Elem e => eid_ok e end.

Lemma eid_encode_length e : length (eid_encode e) = 10%nat.
Proof. unfold eid_encode. by rewrite length_app, !length_be_bytes. Qed.

Lemma eid_decode_encode e rest : eid_ok e -> eid_decode (eid_encode e ++ rest) = Some e.
Proof.
  intros [H O]. unfold eid_decode. rewrite length_app, eid_encode_length. cbn [Nat.ltb Nat.leb plus].
  unfold eid_encode. rewrite <- !app_assoc. f_equal.
  assert (slice 0 8 (be_bytes 8 (eid_hlc e) ++ be_bytes 2 (eid_origin e) ++ rest) = be_bytes 8 (eid_hlc e)) as ->.
  { unfold slice. by rewrite drop_0, take_app_le, take_ge by (by rewrite ?length_be_bytes). }
  assert (slice 8 10 (be_bytes 8 (eid_hlc e) ++ be_bytes 2 (eid_origin e) ++ rest) = be_bytes 2 (eid_origin e)) as ->.
  { exact (slice_app_l (be_bytes 8 (eid_hlc e)) (be_bytes 2 (eid_origin e)) rest). }
  rewrite of_be_u64, of_be_u16 by done. by destruct e.
Qed.

Lemma seg_bytes_pos s : (0 < length (seg_bytes s))%nat.
Proof. destruct s; cbn; lia. Qed.

Lemma decode_seg_bytes s rest : seg_ok s -> decode_seg (seg_bytes s ++ rest) = Ret (Some (s, length (seg_bytes s))).
Proof.
  destruct s as [f|e]; intros Hs; cbn [seg_bytes app decode_seg].
  - rewrite Z.eqb_refl, <- app_assoc, get_put_varint by (by apply slice_len_u64).
    pose proof (put_varint_length (Z.of_nat (length f))) as Hv. cbn [seg_ok] in Hs. unfold slice_len_ok in Hs.
    set (vi := put_varint (Z.of_nat (length f))) in *.
    rewrite (proj2 (Z.leb_gt _ _)) by lia. cbn [length]. rewrite !length_app, (proj2 (Z.ltb_ge _ _)) by lia.
    rewrite Nat2Z.id. do 4 f_equal.
    exact (slice_app_l (SEG_FIELD :: vi) f rest).
  - change (SEG_ELEM =? SEG_FIELD) with false. rewrite Z.eqb_refl. cbn [app]. rewrite eid_decode_encode by done.
    cbn [length]. by rewrite eid_encode_length.
Qed.

Lemma seg_prefix_free s t x y : seg_ok s -> seg_ok t -> seg_bytes s ++ x = seg_bytes t ++ y -> s = t /\ x = y.
Proof.
  intros Hs Ht E. pose proof (decode_seg_bytes s x Hs) as D. rewrite E, decode_seg_bytes in D by done.
  injection D as -> _. by apply app_inv_head in E.
Qed.

Lemma encode_path_acc segs p : foldl push_seg p segs = p ++ encode_path segs.
Proof.
  revert p. induction segs as [|s segs IH]; intros p; [cbn; by rewrite app_nil_r|]. unfold encode_path. cbn [foldl].
  rewrite IH, (IH (push_seg [] s)). unfold push_seg. by rewrite <- app_assoc.
Qed.
Lemma encode_path_cons s segs : encode_path (s :: segs) = seg_bytes s ++ encode_path segs.
Proof. unfold encode_path at 1. cbn [foldl]. by rewrite encode_path_acc. Qed.
Lemma encode_path_app a b : encode_path (a ++ b) = encode_path a ++ encode_path b.
Proof. unfold encode_path at 1. rewrite foldl_app, encode_path_acc. by unfold encode_path. Qed.
Lemma encode_path_snoc segs s : encode_path (segs ++ [s]) = push_seg (encode_path segs) s.
Proof. rewrite encode_path_app, encode_path_cons. unfold push_seg. cbn. by rewrite app_nil_r. Qed.

Lemma encode_path_length segs : (length segs <= length (encode_path segs))%nat.
Proof.
  induction segs as [|s segs IH]; [cbn; lia|]. rewrite encode_path_cons, length_app. pose proof (seg_bytes_pos s). cbn. lia.
Qed.

(** Enough fuel is the number of segments. *)
Lemma decode_path_loop_encode segs fuel : Forall seg_ok segs -> (length segs <= fuel)%nat ->
  decode_path_loop fuel (encode_path segs) = Ret (Some segs).
Proof.
  intros Hs. revert fuel. induction Hs as [|s segs Hs Hss IH]; intros fuel Hf.
  { by destruct fuel. }
  rewrite encode_path_cons. destruct fuel as [|fuel]; [cbn in Hf; lia|]. pose proof (seg_bytes_pos s).
  destruct (seg_bytes s ++ encode_path segs) as [|b l] eqn:E; [destruct (seg_bytes s); cbn in *; [lia|done]|].
  cbn [decode_path_loop]. rewrite <- E, decode_seg_bytes by done. cbn [rust_bind].
  rewrite drop_app_length, IH by (cbn in Hf; lia). done.
Qed.

Lemma decode_encode_path segs : Forall seg_ok segs -> decode_path (encode_path segs) = Ret (Some segs).
Proof. intros Hs. apply decode_path_loop_encode; [done|apply encode_path_length]. Qed.

Lemma encode_path_inj a b : Forall seg_ok a -> Forall seg_ok b -> encode_path a = encode_path b -> a = b.
Proof. intros Ha Hb E. pose proof (decode_encode_path a Ha) as D. rewrite E, decode_encode_path in D by done. by injection D. Qed.

Lemma split_last_loop_encode segs fuel p l0 : Forall seg_ok segs -> (length segs <= fuel)%nat ->
  split_last_loop fuel (p ++ encode_path segs) (length p) l0 =
  Ret (Some (match last segs with
             | Some s => Some ((length p + (length (encode_path segs) - length (seg_bytes s)))%nat, s)
             | None => l0 end)).
Proof.
  intros Hs. revert fuel p l0. induction Hs as [|s segs Hs Hss IH]; intros fuel p l Hf.
  { change (encode_path []) with (@nil Z). rewrite app_nil_r. destruct fuel; cbn [split_last_loop last]; by rewrite drop_all. }
  destruct fuel as [|fuel]; [cbn in Hf; lia|]. cbn [split_last_loop]. rewrite drop_app_length, encode_path_cons.
  pose proof (seg_bytes_pos s) as Hp.
  destruct (seg_bytes s ++ encode_path segs) as [|b r] eqn:E; [destruct (seg_bytes s); cbn in *; [lia|done]|].
  rewrite <- E, decode_seg_bytes by done. cbn [rust_bind]. rewrite app_assoc, <- length_app, IH by (cbn in Hf; lia).
  rewrite last_cons, !length_app. destruct (last segs) as [t|] eqn:El; [|do 4 f_equal; rewrite last_None in El; subst; cbn; lia].
  apply last_Some in El as [pre ->]. do 4 f_equal. rewrite encode_path_snoc. unfold push_seg. rewrite !length_app. lia.
Qed.

Lemma split_last_push segs s : Forall seg_ok segs -> seg_ok s ->
  split_last (push_seg (encode_path segs) s) = Ret (Some (encode_path segs, s)).
Proof.
  intros Hs Hk. rewrite <- encode_path_snoc. unfold split_last.
  rewrite (split_last_loop_encode (segs ++ [s]) _ [] None); [|by apply Forall_app_2; [|constructor]|apply encode_path_length].
  rewrite last_snoc. cbn [rust_bind length plus app]. rewrite encode_path_snoc. unfold push_seg. rewrite length_app.
  by rewrite Nat.add_sub, take_app_length.
Qed.

Lemma path_prefix_segs a b x : Forall seg_ok a -> Forall seg_ok b -> encode_path b = encode_path a ++ x ->
  exists c, b = a ++ c /\ x = encode_path c.
Proof.
  intros Ha. revert b. induction Ha as [|s a Hs Ha IH]; intros b Hb E; [by exists b|].
  rewrite encode_path_cons in E. destruct Hb as [|t b Ht Hb].
  { pose proof (seg_bytes_pos s). destruct (seg_bytes s); cbn in *; [lia|done]. }
  rewrite encode_path_cons, <- app_assoc in E. apply seg_prefix_free in E as [-> E]; [|done..].
  destruct (IH b Hb E) as (c & -> & ->). by exists c.
Qed.

(** Path keys: a path decodes to the segments it was built from, its last
    segment splits off the parent's bytes, and the bytes of one path are a
    prefix of another's exactly when its segments are - so the scan below a
    node's key meets the node and its descendants and nothing else. *)
Theorem json_path_roundtrip segs other s :
  Forall seg_ok segs -> Forall seg_ok other -> seg_ok s ->
  decode_path (encode_path segs) = Ret (Some segs) /\
  split_last (push_seg (encode_path segs) s) = Ret (Some (encode_path segs, s)) /\
  (starts_with (encode_path other) (encode_path segs) = true <-> segs `prefix_of` other).
Proof.
  intros Hs Ho Hk. split_and!; [by apply decode_encode_path|by apply split_last_push|].
  rewrite starts_with_spec. split.
  - intros [x E]. destruct (path_prefix_segs segs other x) as (c & -> & _); [done..|]. by exists c.
  - intros [c ->]. exists (encode_path c). apply encode_path_app.
Qed.

Lemma json_path_roundtrip_witness :
  let a := [Field [97]; Elem (mkEid 7 3)] in
  decode_path (encode_path a) = Ret (Some a) /\
  split_last (push_seg (encode_path a) (Field [98; 32; 99])) = Ret (Some (encode_path a, Field [98; 32; 99])) /\
  (starts_with (encode_path (a ++ [Field []])) (encode_path a) = true <-> a `prefix_of` a ++ [Field []]).
Proof.
  apply json_path_roundtrip; repeat constructor; cbn; unfold slice_len_ok, u64, u16, in_range; cbn; lia.
Defined.

(** A field segment whose length prefix reaches 2^64 panics instead of being
    skipped as malformed. *)
Theorem decode_seg_length_panics len rest : u64 len -> 2 ^ 64 <= 1 + Z.of_nat (length (put_varint len)) + len ->
  decode_path (SEG_FIELD :: put_varint len ++ rest) = Panic.
Proof.
  intros Hl Hb. unfold decode_path. cbn [length decode_path_loop decode_seg]. rewrite Z.eqb_refl, get_put_varint by done.
  by rewrite (proj2 (Z.leb_le _ _)) by lia.
Qed.

(** ** Values *)

Definition jval_ok (v : JVal) : Prop :=
  match v with VInt i => i64 i | VUInt i => u64 i | VFloat f => u64 f | _ => True end.

Lemma jval_decode_encode v : jval_ok v -> jval_decode (jval_encode v) = Some v.
Proof.
  destruct v as [|[]|i|i|f|s| |]; intros H; try done; cbn [jval_encode jval_decode]; rewrite ?length_be_bytes; cbn -[of_be be_bytes to_signed].
  - by rewrite to_signed_of_be.
  - by rewrite of_be_u64.
  - by rewrite of_be_u64.
Qed.

Lemma arr_decode_encode a : eid_ok (ae_left a) -> jval_ok (ae_val a) -> arr_decode (arr_encode a) = Some a.
Proof.
  intros He Hv. unfold arr_decode, arr_encode. rewrite eid_decode_encode by done.
  rewrite <- (eid_encode_length (ae_left a)) at 1. rewrite drop_app_length, jval_decode_encode by done. by destruct a.
Qed.
