(* ===== verification/RgaLaws.v ===== *)
(** * The order of array elements

    [rga_order] against the definition it stands for: replay the insertions in
    the order of their ids, each directly behind its left neighbour.  Hence
    every replica that holds the same elements shows the same array. *)

From S2P Require Import Prelude MapSum Json.

(** ** Sorting by id *)

Lemma eid_ver_inj e e' : eid_ver e = eid_ver e' -> e = e'.
Proof. destruct e, e'. unfold eid_ver. cbn. congruence. Qed.

Definition eid_lt (a b : Eid * bool) : Prop := ver_ltb (eid_ver a.1) (eid_ver b.1) = true.
#[export] Instance eid_lt_irrefl : Irreflexive eid_lt.
Proof. intros a. unfold complement, eid_lt. by rewrite ver_ltb_irrefl. Qed.
#[export] Instance eid_lt_trans : Transitive eid_lt.
Proof. intros a b c. apply ver_ltb_trans. Qed.
#[export] Instance eid_le_trans : Transitive eid_le.
Proof. intros a b c. unfold eid_le. ver_solve. Qed.
#[export] Instance eid_le_total : Total eid_le.
Proof. intros a b. unfold eid_le. destruct (eid_ver a.1), (eid_ver b.1). ver_solve; auto. Qed.

Lemma eid_le_lt a b : eid_le a b -> a.1 <> b.1 -> eid_lt a b.
Proof.
  unfold eid_le, eid_lt. intros H Hn. assert (eid_ver a.1 <> eid_ver b.1) by (intros E; by apply Hn, eid_ver_inj).
  destruct (eid_ver a.1), (eid_ver b.1). ver_solve; auto.
Qed.

Lemma strict_of_sorted l : StronglySorted eid_le l -> NoDup l.*1 -> StronglySorted eid_lt l.
Proof.
  induction 1 as [|a l Hs IH Ha]; intros Hn; constructor; apply NoDup_cons in Hn as [Hin Hn]; [by apply IH|].
  rewrite Forall_forall in Ha |- *. intros b Hb. apply eid_le_lt; [by apply Ha|]. intros E. apply Hin. rewrite E.
  by apply list_elem_of_fmap_2.
Qed.

Lemma eid_sort_strict l : NoDup l.*1 -> StronglySorted eid_lt (merge_sort eid_le l).
Proof. intros Hn. apply strict_of_sorted; [apply (StronglySorted_merge_sort eid_le)|by rewrite merge_sort_Permutation]. Qed.

Lemma eid_sort_perm l k : NoDup l.*1 -> l ≡ₚ k -> merge_sort eid_le l = merge_sort eid_le k.
Proof.
  intros Hn Hp. apply (sorted_ext eid_lt); [by apply eid_sort_strict|apply eid_sort_strict; by rewrite <- Hp|].
  intros x. by rewrite !merge_sort_Permutation, Hp.
Qed.

(** A newest element sorts last. *)
Lemma eid_sort_snoc l x : NoDup (l ++ [x]).*1 -> Forall (fun y => eid_lt y x) l ->
  merge_sort eid_le (l ++ [x]) = merge_sort eid_le l ++ [x].
Proof.
  intros Hn Hl. apply (sorted_ext eid_lt); [by apply eid_sort_strict| |].
  - apply StronglySorted_app_2; [|apply eid_sort_strict|by repeat constructor].
    + intros y z Hy Hz%list_elem_of_singleton. subst. rewrite merge_sort_Permutation in Hy. rewrite Forall_forall in Hl. by apply Hl.
    + rewrite fmap_app in Hn. by apply NoDup_app in Hn as [? _].
  - intros y. by rewrite elem_of_app, !merge_sort_Permutation, elem_of_app.
Qed.

(** ** Children of an anchor *)

Definition child_at (present : gset Eid) (a : Eid) (e : Eid * Eid * bool) : option (Eid * bool) :=
  if decide (anchor_of present e.1.2 = a) then Some (e.1.1, e.2) else None.
Definition children_at (present : gset Eid) (elems : list (Eid * Eid * bool)) (a : Eid) : list (Eid * bool) :=
  omap (child_at present a) elems.

Definition opt_list {A} (l : list A) : option (list A) := match l with [] => None | _ => Some l end.
Lemma default_opt_list {A} (l : list A) : default [] (opt_list l) = l.
Proof. by destruct l. Qed.
Lemma opt_list_snoc {A} (l : list A) x : opt_list (l ++ [x]) = Some (l ++ [x]).
Proof. by destruct l. Qed.

Lemma group_snoc present elems e : group_children present (elems ++ [e]) =
  push_child (group_children present elems) (anchor_of present e.1.2) (e.1.1, e.2).
Proof. unfold group_children. rewrite foldl_app. by destruct e as [[e l] b]. Qed.

Lemma group_lookup present elems a : group_children present elems !! a = opt_list (children_at present elems a).
Proof.
  induction elems as [|e elems IH] using rev_ind; [done|].
  rewrite group_snoc. unfold push_child, children_at. rewrite omap_app. cbn [omap list_omap].
  unfold child_at at 2. destruct (decide (anchor_of present e.1.2 = a)) as [->|Hn].
  - rewrite lookup_insert_eq, IH, default_opt_list. cbn. by rewrite opt_list_snoc.
  - rewrite lookup_insert_ne, IH by done. cbn. by rewrite app_nil_r.
Qed.

Lemma children_ids present elems a : (children_at present elems a).*1 `sublist_of` (fun e => e.1.1) <$> elems.
Proof.
  unfold children_at. induction elems as [|e elems IH]; [done|]. cbn [omap list_omap]. unfold child_at at 1.
  destruct (decide _); cbn; [by apply sublist_skip|by apply sublist_cons].
Qed.

Definition elem_ids (elems : list (Eid * Eid * bool)) : list Eid := (fun e => e.1.1) <$> elems.
Lemma children_nodup present elems a : NoDup (elem_ids elems) -> NoDup (children_at present elems a).*1.
Proof. intros Hn. eapply sublist_NoDup; [exact Hn|apply children_ids]. Qed.

Definition sorted_children (present : gset Eid) (elems : list (Eid * Eid * bool)) : gmap Eid (list (Eid * bool)) :=
  merge_sort eid_le <$> group_children present elems.
Lemma sorted_children_lookup present elems a :
  sorted_children present elems !! a = merge_sort eid_le <$> opt_list (children_at present elems a).
Proof. unfold sorted_children. by rewrite lookup_fmap, group_lookup. Qed.

Lemma children_perm elems elems' : NoDup (elem_ids elems) -> elems ≡ₚ elems' ->
  sorted_children (present_ids elems) elems = sorted_children (present_ids elems') elems'.
Proof.
  intros Hn Hp. assert (present_ids elems' = present_ids elems) as -> by (unfold present_ids; by rewrite Hp).
  apply map_eq. intros a. rewrite !sorted_children_lookup. pose proof (children_nodup (present_ids elems) elems a Hn) as Hc.
  assert (children_at (present_ids elems) elems a ≡ₚ children_at (present_ids elems) elems' a) as Ha by (by apply omap_Permutation).
  pose proof (eid_sort_perm _ _ Hc Ha) as E.
  destruct (children_at _ elems a) eqn:E1, (children_at _ elems' a) eqn:E2; cbn [opt_list fmap option_fmap option_map]; [done| | |by rewrite E].
  - by apply Permutation_nil in Ha.
  - symmetry in Ha. by apply Permutation_nil in Ha.
Qed.

Lemma rga_order_unfold elems : rga_order elems =
  rga_walk (length elems) (delete EID_HEAD (sorted_children (present_ids elems) elems))
    (rev (default [] (sorted_children (present_ids elems) elems !! EID_HEAD))).
Proof. done. Qed.

Lemma rga_order_perm elems elems' : NoDup (elem_ids elems) -> elems ≡ₚ elems' -> rga_order elems = rga_order elems'.
Proof. intros Hn Hp. rewrite !rga_order_unfold, (children_perm elems elems') by done. by rewrite Hp. Qed.

(** ** Fuel *)

Definition weight (ch : gmap Eid (list (Eid * bool))) : Z := msum (fun _ l => Z.of_nat (length l)) ch.
Lemma weight_nonneg ch : 0 <= weight ch.
Proof. apply msum_nonneg. intros. lia. Qed.
Lemma weight_delete ch a : weight ch = Z.of_nat (length (default [] (ch !! a))) + weight (delete a ch).
Proof. unfold weight. rewrite (msum_delete _ ch a). by destruct (ch !! a). Qed.

(** The walk still has [pending] elements to visit at most. *)
Definition pending (ch : gmap Eid (list (Eid * bool))) (st : list (Eid * bool)) : Z := Z.of_nat (length st) + weight ch.

(** One step, with the children of an element that has none being empty. *)
Lemma rga_walk_cons fuel ch e l st : rga_walk (S fuel) ch ((e, l) :: st) =
  (e, l) :: rga_walk fuel (delete e ch) (rev (default [] (ch !! e)) ++ st).
Proof. cbn [rga_walk]. destruct (ch !! e) as [kids|] eqn:E; [done|]. by rewrite delete_id. Qed.
Lemma rga_walk_nil fuel ch : rga_walk fuel ch [] = [].
Proof. by destruct fuel. Qed.
Lemma pending_cons ch x st : pending (delete x.1 ch) (rev (default [] (ch !! x.1)) ++ st) = pending ch (x :: st) - 1.
Proof. unfold pending. rewrite (weight_delete ch x.1). rewrite length_app, length_rev. cbn [length]. lia. Qed.

Lemma rga_walk_fuel fuel fuel' ch st : pending ch st <= Z.of_nat fuel -> pending ch st <= Z.of_nat fuel' ->
  rga_walk fuel ch st = rga_walk fuel' ch st.
Proof.
  revert fuel' ch st. induction fuel as [|fuel IH]; intros fuel' ch st H H'.
  - destruct st as [|x st]; [by rewrite !rga_walk_nil|]. pose proof (weight_nonneg ch). unfold pending in H. cbn in H. lia.
  - destruct st as [|[e l] st]; [by rewrite !rga_walk_nil|]. pose proof (pending_cons ch (e, l) st) as P. cbn [fst] in P.
    destruct fuel' as [|fuel'].
    { pose proof (weight_nonneg ch). unfold pending in H'. cbn in H'. lia. }
    rewrite !rga_walk_cons. f_equal. apply IH; lia.
Qed.

Lemma weight_group present elems : weight (sorted_children present elems) = Z.of_nat (length elems).
Proof.
  unfold weight, sorted_children. rewrite msum_fmap.
  transitivity (msum (fun _ (l : list (Eid * bool)) => Z.of_nat (length l)) (group_children present elems)).
  { apply msum_ext. intros k x _. by rewrite merge_sort_Permutation. }
  induction elems as [|e elems IH] using rev_ind; [done|]. rewrite group_snoc. unfold push_child. rewrite msum_insert, IH.
  unfold contrib. rewrite !length_app. cbn [length]. destruct (_ !! _); cbn; rewrite ?length_app; cbn; lia.
Qed.

Lemma pending_start present elems :
  pending (delete EID_HEAD (sorted_children present elems)) (rev (default [] (sorted_children present elems !! EID_HEAD))) = Z.of_nat (length elems).
Proof. unfold pending. rewrite length_rev, <- (weight_group present elems). rewrite (weight_delete (sorted_children present elems) EID_HEAD). lia. Qed.

(** ** A newest element *)

Fixpoint insert_after (a : Eid) (x : Eid * bool) (l : list (Eid * bool)) : list (Eid * bool) :=
  match l with
  | [] => []
  | y :: l => if decide (y.1 = a) then y :: x :: l else y :: insert_after a x l
  end.

Lemma rga_walk_insert fuel ch st a x : ch !! x.1 = None -> x.1 <> a -> pending ch st <= Z.of_nat fuel ->
  rga_walk (S fuel) (<[a := default [] (ch !! a) ++ [x]]> ch) st = insert_after a x (rga_walk fuel ch st).
Proof.
  revert ch st. induction fuel as [|fuel IH]; intros ch st Hx Ha Hf.
  - destruct st as [|y st]; [done|]. pose proof (weight_nonneg ch). unfold pending in Hf. cbn in Hf. lia.
  - destruct st as [|[e l] st]; [done|]. pose proof (pending_cons ch (e, l) st) as P. cbn [fst] in P.
    rewrite !rga_walk_cons. cbn [insert_after fst]. destruct (decide (e = a)) as [->|Hne].
    + rewrite lookup_insert_eq. cbn [from_option id]. rewrite rev_app_distr, delete_insert_eq. cbn [rev app].
      destruct x as [x b]. rewrite rga_walk_cons. cbn [fst] in *. rewrite lookup_delete_ne, Hx by done. cbn [from_option id rev app].
      by rewrite (delete_id (delete a ch)) by (by rewrite lookup_delete_ne).
    + rewrite lookup_insert_ne, delete_insert_ne by done. f_equal. rewrite <- (lookup_delete_ne ch e a) by done.
      apply IH; [|done|lia]. destruct (decide (e = x.1)) as [->|]; [apply lookup_delete_eq|by rewrite lookup_delete_ne].
Qed.

(** ** Replaying insertions *)

(** Insert behind the left neighbour, or in front when it is not there. *)
Definition replay_one (doc : list (Eid * bool)) (e : Eid * Eid * bool) : list (Eid * bool) :=
  if decide (e.1.2 ∈ doc.*1) then insert_after e.1.2 (e.1.1, e.2) doc else (e.1.1, e.2) :: doc.
Definition rga_replay (elems : list (Eid * Eid * bool)) : list (Eid * bool) := foldl replay_one [] elems.

Definition elem_lt (a b : Eid * Eid * bool) : Prop := ver_ltb (eid_ver a.1.1) (eid_ver b.1.1) = true.
Definition elem_le (a b : Eid * Eid * bool) : Prop := ver_leb (eid_ver a.1.1) (eid_ver b.1.1) = true.
#[export] Instance elem_le_dec : RelDecision elem_le.
Proof. intros a b. unfold elem_le. apply _. Defined.
#[export] Instance elem_le_trans : Transitive elem_le.
Proof. intros a b c. unfold elem_le. ver_solve. Qed.
#[export] Instance elem_le_total : Total elem_le.
Proof. intros a b. unfold elem_le. destruct (eid_ver a.1.1), (eid_ver b.1.1). ver_solve; auto. Qed.

(** What writers guarantee: ids are distinct and not the sentinel, and an
    element was created after the left neighbour it names, when that is here. *)
Record rga_ok (elems : list (Eid * Eid * bool)) : Prop := {
  rga_nodup : NoDup (elem_ids elems);
  rga_nohead : EID_HEAD ∉ elem_ids elems;
  rga_causal : forall e l b, (e, l, b) ∈ elems -> l ∈ elem_ids elems -> ver_ltb (eid_ver l) (eid_ver e) = true }.

Lemma rga_ok_perm elems elems' : elems ≡ₚ elems' -> rga_ok elems -> rga_ok elems'.
Proof.
  intros Hp [Hn Hh Hc]. assert (elem_ids elems ≡ₚ elem_ids elems') as Hi by (unfold elem_ids; by rewrite Hp).
  split; [by rewrite <- Hi|by rewrite <- Hi|]. intros e l b. rewrite <- Hi, <- Hp. apply Hc.
Qed.

Lemma insert_after_perm a x l : a ∈ l.*1 -> insert_after a x l ≡ₚ x :: l.
Proof.
  induction l as [|y l IH]; cbn [fmap list_fmap insert_after]; [by intros ?%not_elem_of_nil|]. intros H.
  destruct (decide _); [apply Permutation_swap|]. apply elem_of_cons in H as [->|H]; [done|]. rewrite IH by done. apply Permutation_swap.
Qed.
Lemma rga_replay_snoc elems e : rga_replay (elems ++ [e]) = replay_one (rga_replay elems) e.
Proof. unfold rga_replay. by rewrite foldl_app. Qed.
Lemma rga_replay_perm elems : rga_replay elems ≡ₚ (fun e => (e.1.1, e.2)) <$> elems.
Proof.
  induction elems as [|e elems IH] using rev_ind; [done|]. rewrite rga_replay_snoc, fmap_app, <- IH. unfold replay_one.
  rewrite (Permutation_app_comm _ ((fun e => (e.1.1, e.2)) <$> [e])). cbn. destruct (decide _); [by apply insert_after_perm|done].
Qed.
Lemma replay_ids elems : (rga_replay elems).*1 ≡ₚ elem_ids elems.
Proof. rewrite rga_replay_perm. unfold elem_ids. by rewrite <- list_fmap_compose. Qed.

(** Elements older than [e], whose neighbours are not [e], keep their anchors. *)
Lemma anchor_snoc elems e l : l <> e.1.1 -> anchor_of (present_ids (elems ++ [e])) l = anchor_of (present_ids elems) l.
Proof.
  intros Hn. unfold anchor_of.
  assert (bool_decide (l ∉ present_ids (elems ++ [e])) = bool_decide (l ∉ present_ids elems)) as ->; [|done].
  apply bool_decide_ext. unfold present_ids. rewrite fmap_app, list_to_set_app. cbn. set_solver.
Qed.

Lemma anchor_present elems l : EID_HEAD ∉ elem_ids elems -> l ∈ elem_ids elems -> anchor_of (present_ids elems) l = l.
Proof.
  intros Hh Hl. unfold anchor_of. rewrite (bool_decide_false (l ∉ _)), andb_false_r; [done|]. intros Hn. apply Hn.
  unfold present_ids. by apply elem_of_list_to_set.
Qed.
Lemma anchor_absent elems l : EID_HEAD ∉ elem_ids elems -> l ∉ elem_ids elems -> anchor_of (present_ids elems) l = EID_HEAD.
Proof.
  intros Hh Hl. unfold anchor_of. destruct (decide (l = EID_HEAD)) as [->|Hne]; [by destruct (_ && _)|].
  rewrite bool_decide_true, bool_decide_true; [done| |done]. unfold present_ids. by rewrite elem_of_list_to_set.
Qed.

Lemma children_at_ext present present' elems a :
  (forall e, e ∈ elems -> anchor_of present e.1.2 = anchor_of present' e.1.2) -> children_at present elems a = children_at present' elems a.
Proof.
  intros H. apply list_omap_ext, Forall_Forall2_diag, Forall_forall. intros e He. unfold child_at. by rewrite H.
Qed.

Section newest.
Context (elems : list (Eid * Eid * bool)) (e : Eid * Eid * bool).
Hypothesis Hok : rga_ok (elems ++ [e]).
Hypothesis Hnew : Forall (fun f => elem_lt f e) elems.

Lemma newest_fresh : e.1.1 ∉ elem_ids elems /\ e.1.1 <> EID_HEAD.
Proof.
  destruct Hok as [Hn Hh _]. unfold elem_ids in *. rewrite fmap_app in Hn, Hh. apply NoDup_app in Hn as (_ & Hd & _).
  split; [intros Hi; apply (Hd _ Hi); left|]. intros E. apply Hh. rewrite elem_of_app. right. rewrite <- E. left.
Qed.
Lemma newest_unused f : f ∈ elems ++ [e] -> f.1.2 <> e.1.1.
Proof.
  intros Hf E. destruct f as [[f l] b]. cbn in E. subst l.
  assert (e.1.1 ∈ elem_ids (elems ++ [e])) as Hi by (unfold elem_ids; rewrite fmap_app, elem_of_app; right; left).
  pose proof (rga_causal _ Hok f _ b Hf Hi) as Hlt. apply elem_of_app in Hf as [Hf|Hf].
  - rewrite Forall_forall in Hnew. specialize (Hnew _ Hf). unfold elem_lt in Hnew. cbn in Hnew.
    rewrite (ver_ltb_asym _ _ Hnew) in Hlt. done.
  - apply list_elem_of_singleton in Hf. rewrite <- Hf in Hlt. cbn in Hlt. by rewrite ver_ltb_irrefl in Hlt.
Qed.
Lemma prefix_ok : rga_ok elems.
Proof.
  destruct Hok as [Hn Hh Hc]. unfold elem_ids in *. rewrite fmap_app in Hn, Hh. split.
  - by apply NoDup_app in Hn as [? _].
  - set_solver.
  - intros f l b Hf Hl. apply (Hc f l b); [rewrite elem_of_app; by left|]. unfold elem_ids. rewrite fmap_app, elem_of_app. by left.
Qed.

Let a := anchor_of (present_ids (elems ++ [e])) e.1.2.
Let x := (e.1.1, e.2).

Lemma newest_children : sorted_children (present_ids (elems ++ [e])) (elems ++ [e]) =
  <[a := default [] (sorted_children (present_ids elems) elems !! a) ++ [x]]> (sorted_children (present_ids elems) elems).
Proof using All.
  apply map_eq. intros b. pose proof newest_fresh as [Hf _].
  assert (Hold : children_at (present_ids (elems ++ [e])) elems b = children_at (present_ids elems) elems b).
  { apply children_at_ext. intros f Hfe. apply anchor_snoc, newest_unused. rewrite elem_of_app. by left. }
  rewrite sorted_children_lookup. unfold children_at. rewrite omap_app. fold (children_at (present_ids (elems ++ [e])) elems b).
  rewrite Hold. cbn [omap list_omap]. unfold child_at. fold a x. destruct (decide (a = b)) as [<-|Hab].
  - rewrite lookup_insert_eq, opt_list_snoc. cbn [fmap option_fmap option_map]. rewrite eid_sort_snoc; cycle 1.
    + pose proof (children_nodup (present_ids elems) elems a (rga_nodup _ prefix_ok)) as Hn. rewrite fmap_app.
      apply NoDup_app. split_and!; [done| |apply NoDup_singleton]. intros i Hi Hx%list_elem_of_singleton. subst i. cbn in Hi.
      apply Hf. eapply elem_of_sublist; [exact Hi|apply children_ids].
    + rewrite Forall_forall. intros [y c] Hy. unfold children_at in Hy. apply list_elem_of_omap in Hy as (f & Hfe & Hc).
      unfold child_at in Hc. destruct (decide _); [|done]. injection Hc as <- <-. rewrite Forall_forall in Hnew. by apply Hnew.
    + rewrite sorted_children_lookup. by destruct (children_at (present_ids elems) elems a).
  - by rewrite app_nil_r, lookup_insert_ne, sorted_children_lookup.
Qed.

Lemma rga_order_newest : rga_order (elems ++ [e]) = 
  if decide (e.1.2 ∈ elem_ids elems) then insert_after e.1.2 x (rga_order elems) else x :: rga_order elems.
Proof using All.
  rewrite !rga_order_unfold, newest_children. set (ch := sorted_children (present_ids elems) elems).
  pose proof newest_fresh as [Hf Hh]. pose proof prefix_ok as [Hn Hhd Hc].
  assert (Hx : ch !! x.1 = None).
  { unfold ch. rewrite sorted_children_lookup. destruct (children_at _ elems x.1) as [|y l] eqn:E; [done|].
    assert (y ∈ children_at (present_ids elems) elems x.1) as Hy by (rewrite E; left).
    apply list_elem_of_omap in Hy as (f & Hfe & Hy). unfold child_at in Hy. destruct (decide _) as [Ha|]; [|done].
    exfalso. unfold anchor_of in Ha. destruct (_ && _); [by subst x|]. apply (newest_unused f); [rewrite elem_of_app; by left|done]. }
  assert (Ha : a = anchor_of (present_ids elems) e.1.2).
  { apply anchor_snoc, newest_unused. rewrite elem_of_app. right. left. }
  rewrite length_app. cbn [length]. replace (length elems + 1)%nat with (S (length elems)) by lia.
  pose proof (pending_start (present_ids elems) elems) as P. fold ch in P. destruct (decide _) as [Hin|Hin].
  - rewrite Ha, (anchor_present elems) by done. assert (EID_HEAD <> e.1.2) by (intros E; apply Hhd; by rewrite E).
    rewrite lookup_insert_ne, delete_insert_ne by done. rewrite <- (lookup_delete_ne ch EID_HEAD e.1.2) at 1 by done.
    apply rga_walk_insert; [rewrite lookup_delete_ne by done; done| |lia]. intros E. apply Hf. unfold x in E. cbn in E. by rewrite E.
  - rewrite Ha, (anchor_absent elems) by done. rewrite lookup_insert_eq, delete_insert_eq. cbn [from_option id]. rewrite rev_app_distr.
    cbn [rev app]. unfold x at 1. rewrite rga_walk_cons. f_equal. change (e.1.1) with x.1.
    rewrite lookup_delete_ne, Hx by done. cbn [from_option id rev app]. by rewrite (delete_id (delete EID_HEAD ch)) by (by rewrite lookup_delete_ne).
Qed.
End newest.

Lemma rga_order_replay elems : rga_ok elems -> StronglySorted elem_lt elems -> rga_order elems = rga_replay elems.
Proof.
  induction elems as [|e elems IH] using rev_ind; [done|]. intros Hok Hs. apply StronglySorted_app in Hs as (Hlt & Hs & _).
  assert (Hnew : Forall (fun f => elem_lt f e) elems) by (apply Forall_forall; intros f Hf; apply Hlt; [done|left]).
  rewrite rga_order_newest by done. rewrite rga_replay_snoc, IH by (try done; by eapply prefix_ok).
  unfold replay_one. destruct (decide _) as [Hin|Hin], (decide _) as [Hin'|Hin']; try done.
  - exfalso. apply Hin'. by rewrite replay_ids.
  - exfalso. apply Hin. by rewrite <- (replay_ids elems).
Qed.

Lemma elem_sort_strict elems : NoDup (elem_ids elems) -> StronglySorted elem_lt (merge_sort elem_le elems).
Proof.
  intros Hn. pose proof (StronglySorted_merge_sort elem_le elems) as Hs.
  assert (Hn' : NoDup (elem_ids (merge_sort elem_le elems))) by (unfold elem_ids; by rewrite merge_sort_Permutation).
  induction Hs as [|a l Hs IH Ha]; constructor; cbn in Hn'; apply NoDup_cons in Hn' as [Hin Hn']; [by apply IH|].
  rewrite Forall_forall in Ha |- *. intros b Hb. unfold elem_lt.
  apply (eid_le_lt (a.1.1, true) (b.1.1, true)); [by apply Ha|]. cbn. intros E. apply Hin. rewrite E. by apply (list_elem_of_fmap_2 (fun e => e.1.1)).
Qed.

(** [C13] Array order: a replica that holds a set of array elements, in whatever
    order it read them, shows the array that results from replaying their
    insertions by creation time, each directly behind its left neighbour (or at
    the front when the neighbour is gone); no element is lost or repeated. *)
Theorem rga_order_refines_replay elems elems' :
  rga_ok elems -> elems' ≡ₚ elems ->
  rga_order elems' = rga_replay (merge_sort elem_le elems) /\
  rga_order elems' ≡ₚ (fun e => (e.1.1, e.2)) <$> elems.
Proof.
  intros Hok Hp. pose proof (merge_sort_Permutation elem_le elems) as Hs.
  assert (rga_order elems' = rga_replay (merge_sort elem_le elems)) as E.
  { rewrite <- rga_order_replay; [|by apply (rga_ok_perm elems)|apply elem_sort_strict, Hok].
    symmetry. apply rga_order_perm; [|by rewrite Hs].
    unfold elem_ids. rewrite Hs. apply Hok. }
  split; [done|]. rewrite E, rga_replay_perm. by rewrite Hs.
Qed.

(** Two concurrent runs of insertions at the front stay together, a deleted
    element still holds its place, and an orphan goes to the front. *)
Lemma rga_order_refines_replay_witness :
  let E h o := mkEid h o in
  let elems := [(E 11 1, E 10 1, true); (E 10 1, EID_HEAD, false); (E 21 2, E 20 2, true); (E 20 2, EID_HEAD, true); (E 50 3, E 5 9, true)] in
  rga_order (rev elems) = rga_replay (merge_sort elem_le elems) /\
  rga_order (rev elems) ≡ₚ (fun e => (e.1.1, e.2)) <$> elems.
Proof.
  cbv zeta. apply rga_order_refines_replay; [|symmetry; apply Permutation_rev]. split.
  - apply (bool_decide_unpack _). vm_compute. exact I.
  - apply (bool_decide_unpack _). vm_compute. exact I.
  - intros e l b. rewrite !elem_of_cons, elem_of_nil. intros H Hl. destruct_or?; simplify_eq; try done; exfalso; revert Hl.
    all: apply (bool_decide_unpack (_ ∉ _)); vm_compute; exact I.
Defined.

Example rga_order_example :
  let E h o := mkEid h o in
  rga_order [(E 11 1, E 10 1, true); (E 10 1, EID_HEAD, false); (E 21 2, E 20 2, true); (E 20 2, EID_HEAD, true); (E 50 3, E 5 9, true)]
  = [(E 50 3, true); (E 20 2, true); (E 21 2, true); (E 10 1, false); (E 11 1, true)].
Proof. vm_compute. reflexivity. Qed.
