(* ===== verification/JsonTree.v ===== *)
(** * Documents and their records

    The records of a document as a tree whose array elements carry their ids:
    what [decompose] emits, and what [materialize] rebuilds from them. *)

From S2P Require Import Prelude MapSum Varint Ikey BTree Merge Generic Json JsonPath RgaLaws.

(** ** Numbers and well-formed values *)

(** What the documentation of [serde_json::Number] promises. *)
Class JsonNumberLaws (Number : Type) `{!JsonNumber Number} : Prop := {
  as_i64_exact : forall n i, as_i64 n = Some i -> i64 i /\ of_i64 i = n;
  as_u64_exact : forall n i, as_u64 n = Some i -> u64 i /\ (as_i64 n = None -> of_u64 i = n);
  as_f64_exact : forall n, as_i64 n = None -> as_u64 n = None -> exists f, as_f64 n = Some f /\ u64 f /\ from_f64 f = Some n }.

(** The numbers of the default build: unsigned, negative, or a finite double. *)
Inductive N64 := PosInt (n : Z) (H : bool_decide (0 <= n < 2 ^ 64) = true)
  | NegInt (n : Z) (H : bool_decide (- 2 ^ 63 <= n < 0) = true)
  | Double (f : Z) (H : bool_decide (0 <= f < 2 ^ 64 /\ wrap 63 f < 0x7FF0000000000000) = true).

Definition checked {A} (b : bool) (f : b = true -> A) (d : A) : A :=
  match b as c return (c = true -> A) -> A with true => fun f => f eq_refl | false => fun _ => d end f.
Definition N64_zero : N64 := PosInt 0 eq_refl.

#[export] Instance N64_number : JsonNumber N64 := {
  as_i64 n := match n with PosInt i _ => if i <? 2 ^ 63 then Some i else None | NegInt i _ => Some i | Double _ _ => None end;
  as_u64 n := match n with PosInt i _ => Some i | _ => None end;
  as_f64 n := match n with Double f _ => Some f | _ => Some 0 end;
  of_i64 i := if i <? 0 then checked _ (NegInt i) N64_zero else checked _ (PosInt i) N64_zero;
  of_u64 i := checked _ (PosInt i) N64_zero;
  from_f64 f := checked _ (fun H => Some (Double f H)) None }.

Lemma checked_true {A} b (f : b = true -> A) d H : checked b f d = f H.
Proof. destruct b; [|done]. cbn. f_equal. apply (proof_irrel (A := true = true)). Qed.

#[export] Instance N64_laws : JsonNumberLaws N64.
Proof.
  split.
  - intros [n H|n H|f H] i; cbn; pose proof H as H'; apply bool_decide_eq_true_1 in H'.
    + destruct (Z.ltb_spec n (2 ^ 63)); [|done]. intros [= <-]. split; [unfold i64; lia|].
      rewrite (proj2 (Z.ltb_ge n 0)) by lia. apply checked_true.
    + intros [= <-]. split; [unfold i64; lia|]. rewrite (proj2 (Z.ltb_lt n 0)) by lia. apply checked_true.
    + done.
  - intros [n H|n H|f H] i; cbn; try done. pose proof H as H'. apply bool_decide_eq_true_1 in H'.
    intros [= <-]. split; [exact H'|]. intros _. apply checked_true.
  - intros [n H|n H|f H]; cbn; try done. intros _ _. pose proof H as H'. apply bool_decide_eq_true_1 in H'.
    exists f. split_and!; [done|exact (proj1 H')|]. apply (checked_true _ (fun H => Some (Double f H))).
Qed.

Lemma lossy_utf8 n l : (length l <= n)%nat -> utf8_ok l = true -> from_utf8_lossy l = l.
Proof.
  revert l. induction n as [|n IH]; intros [|b0 l] Hn; cbn [length] in Hn; try done; [lia|]. cbn [utf8_ok from_utf8_lossy].
  destruct (b0 <? 128); [intros; rewrite IH by (done || lia); done|].
  destruct l as [|b1 l]; [done|]. destruct ((194 <=? b0) && (b0 <? 224)).
  { intros [-> H]%andb_true_iff. cbn in Hn. by rewrite IH by (done || lia). }
  destruct l as [|b2 l]; [done|]. destruct ((224 <=? b0) && (b0 <? 240)).
  { intros [[H2 H3]%andb_true_iff H]%andb_true_iff. cbn in Hn. fold (second3 b0 b1) in H2. rewrite H2, H3, IH by (done || lia). done. }
  destruct l as [|b3 l]; [done|]. intros [[[[H0 H1]%andb_true_iff H2]%andb_true_iff H3]%andb_true_iff H]%andb_true_iff.
  cbn in Hn. fold (second4 b0 b1) in H1. rewrite H0, H1, H2, H3, IH by (done || lia). done.
Qed.
Lemma from_utf8_lossy_id l : utf8_ok l = true -> from_utf8_lossy l = l.
Proof. by apply (lossy_utf8 (length l)). Qed.

Section tree.
Context {Number : Type} `{!JsonNumber Number, !JsonNumberLaws Number}.
Abbreviation value := (Value Number).

(** Strings are UTF-8, keys are slices, objects list their keys in order. *)
Definition key_ok (k : bytes) : Prop := utf8_ok k = true /\ slice_len_ok k.
Definition keys_sorted {A} (m : list (bytes * A)) : Prop := StronglySorted (fun a b => bytes_cmp a.1 b.1 = Lt) m.
Fixpoint value_ok (v : value) : Prop :=
  match v with
  | Str s => utf8_ok s = true
  | Array a => foldr (fun c P => value_ok c /\ P) True a
  | Object m => keys_sorted m /\ foldr (fun c P => key_ok c.1 /\ value_ok c.2 /\ P) True m
  | _ => True
  end.

(** ** The records of a document with its element ids *)

Inductive jtree :=
  | TScal (v : value)
  | TObj (fs : list (bytes * jtree))
  | TArr (els : list (Eid * jtree)).

Lemma jtree_ind' (P : jtree -> Prop) :
  (forall v, P (TScal v)) -> (forall fs, Forall (fun f => P f.2) fs -> P (TObj fs)) ->
  (forall els, Forall (fun e => P e.2) els -> P (TArr els)) -> forall t, P t.
Proof.
  intros H1 H2 H3. fix IH 1. intros [v|fs|els]; [apply H1|apply H2|apply H3].
  - induction fs as [|[k c] fs IHf]; constructor; [apply IH|exact IHf].
  - induction els as [|[e c] els IHe]; constructor; [apply IH|exact IHe].
Qed.

Fixpoint value_of (t : jtree) : value :=
  match t with
  | TScal v => v
  | TObj fs => Object ((fun f => (f.1, value_of f.2)) <$> fs)
  | TArr els => Array ((fun e => value_of e.2) <$> els)
  end.

Definition scalar (v : value) : Prop := match v with Array _ | Object _ => False | _ => True end.
Fixpoint tree_ok (t : jtree) : Prop :=
  match t with
  | TScal v => scalar v /\ value_ok v
  | TObj fs => keys_sorted fs /\ foldr (fun f P => key_ok f.1 /\ tree_ok f.2 /\ P) True fs
  | TArr els => NoDup els.*1 /\ EID_HEAD ∉ els.*1 /\ foldr (fun e P => eid_ok e.1 /\ tree_ok e.2 /\ P) True els
  end.

(** Every element id of the tree satisfies [P]. *)
Fixpoint tree_ids (P : Eid -> Prop) (t : jtree) : Prop :=
  match t with
  | TScal _ => True
  | TObj fs => foldr (fun f R => tree_ids P f.2 /\ R) True fs
  | TArr els => foldr (fun e R => P e.1 /\ tree_ids P e.2 /\ R) True els
  end.
Lemma tree_ids_weaken (P Q : Eid -> Prop) t : (forall e, P e -> Q e) -> tree_ids P t -> tree_ids Q t.
Proof.
  intros Ho. induction t as [v|fs IH|els IH] using jtree_ind'; cbn; [done| |].
  - induction IH as [|f fs Hf IH IHf]; cbn; [done|]. intros [H1 H2]. split; [by apply Hf|by apply IHf].
  - induction IH as [|f fs Hf IH IHf]; cbn; [done|]. intros (H0 & H1 & H2). split_and!; [by apply Ho|by apply Hf|by apply IHf].
Qed.
Definition tree_new (old : Eid -> Prop) : jtree -> Prop := tree_ids (fun e => ~ old e).

Definition tval (t : jtree) : JVal := jval_of (value_of t).

(** The array elements in order, each with its left neighbour. *)
Fixpoint with_left (left : Eid) (els : list (Eid * jtree)) : list (Eid * Eid * jtree) :=
  match els with [] => [] | (e, c) :: els => (left, e, c) :: with_left e els end.

(** Every record: the parent's path, the last segment, the content. *)
Inductive rec_body := BMap (v : JVal) | BArr (a : ArrElem).
Definition entry : Type := bytes * Seg * rec_body.
Fixpoint jrecs (p : bytes) (t : jtree) : list entry :=
  match t with
  | TScal _ => []
  | TObj fs => flat_map (fun f => (p, Field f.1, BMap (tval f.2)) :: jrecs (push_seg p (Field f.1)) f.2) fs
  | TArr els =>
      (fix go left els :=
         match els with
         | [] => []
         | (e, c) :: els => ((p, Elem e, BArr (mkArrElem left (tval c))) :: jrecs (push_seg p (Elem e)) c) ++ go e els
         end) EID_HEAD els
  end.
Definition entry_path (e : entry) : bytes := push_seg e.1.1 e.1.2.
Definition entry_rec (e : entry) : JsonRecord :=
  match e.2 with BMap v => JMap (entry_path e) v | BArr a => JArr (entry_path e) a end.

Lemma jrecs_arr p els : jrecs p (TArr els) =
  flat_map (fun x => (p, Elem x.1.2, BArr (mkArrElem x.1.1 (tval x.2))) :: jrecs (push_seg p (Elem x.1.2)) x.2) (with_left EID_HEAD els).
Proof.
  cbn [jrecs]. generalize EID_HEAD. induction els as [|[e c] els IH]; intros l; [done|]. cbn [with_left flat_map fst snd]. by rewrite IH.
Qed.

(** ** [decompose] emits them *)

Definition ver_le (a b : version) : Prop := ver_leb a b = true.

(** Ids are drawn in increasing order while the source has room: [seen] is the
    last one, [room n] says that [n] more can be drawn. *)
Context {St : Type} (fresh : St -> bytes -> nat -> Eid * St) (seen : St -> version) (room : nat -> St -> Prop).
Definition fresh_increasing : Prop := forall n st p i, room (S n) st ->
  let '(e, st') := fresh st p i in eid_ok e /\ e <> EID_HEAD /\ ver_ltb (seen st) (eid_ver e) = true /\ ver_le (eid_ver e) (seen st') /\ room n st'.
(** The array elements of a value. *)
Fixpoint slots (v : value) : nat :=
  match v with
  | Array a => foldr (fun c n => S (slots c) + n)%nat 0%nat a
  | Object m => foldr (fun c n => slots c.2 + n)%nat 0%nat m
  | _ => 0%nat
  end.

Fixpoint dec_fields (path : bytes) (m : list (bytes * value)) (st : St) : list JsonRecord * St :=
  match m with
  | [] => ([], st)
  | (k, child) :: m =>
      let path' := push_seg path (Field k) in
      let '(rs, st) := decompose_children fresh path' child st in
      let '(rs', st) := dec_fields path m st in
      (JMap path' (jval_of child) :: rs ++ rs', st)
  end.
Fixpoint dec_items (path : bytes) (a : list value) (left : Eid) (ordinal : nat) (st : St) : list JsonRecord * St :=
  match a with
  | [] => ([], st)
  | child :: a =>
      let '(e, st) := fresh st path ordinal in
      let path' := push_seg path (Elem e) in
      let '(rs, st) := decompose_children fresh path' child st in
      let '(rs', st) := dec_items path a e (S ordinal) st in
      (JArr path' (mkArrElem left (jval_of child)) :: rs ++ rs', st)
  end.
Lemma decompose_object path m st : decompose_children fresh path (Object m) st = dec_fields path m st.
Proof. revert st. induction m as [|[k c] m IH]; intros st; [done|]. cbn [dec_fields]. cbn in *. destruct (decompose_children _ _ c st). by rewrite IH. Qed.
Lemma decompose_array path a st : decompose_children fresh path (Array a) st = dec_items path a EID_HEAD 0 st.
Proof.
  cbn [decompose_children]. generalize EID_HEAD 0%nat. revert st. induction a as [|c a IH]; intros st l n; [done|]. cbn [dec_items].
  destruct (fresh st path n) as [e st']. destruct (decompose_children _ _ c st'). by rewrite IH.
Qed.

Lemma value_ind' (P : value -> Prop) :
  (forall v, scalar v -> P v) -> (forall a, Forall P a -> P (Array a)) -> (forall m, Forall (fun c => P c.2) m -> P (Object m)) -> forall v, P v.
Proof.
  intros H1 H2 H3. fix IH 1. intros [|b|n|s|a|m]; try (by apply H1).
  - apply H2. induction a as [|c a IHa]; constructor; [apply IH|exact IHa].
  - apply H3. induction m as [|[k c] m IHm]; constructor; [apply IH|exact IHm].
Qed.

Lemma ver_le_refl a : ver_le a a.
Proof. unfold ver_le. ver_solve. Qed.
Lemma ver_le_trans a b c : ver_le a b -> ver_le b c -> ver_le a c.
Proof. unfold ver_le. ver_solve. Qed.
Lemma ver_lt_le a b : ver_ltb a b = true -> ver_le a b.
Proof. unfold ver_le. ver_solve. Qed.
Lemma ver_le_lt a b c : ver_le a b -> ver_ltb b c = true -> ver_ltb a c = true.
Proof. unfold ver_le. ver_solve. Qed.
Lemma ver_lt_le_trans a b c : ver_ltb a b = true -> ver_le b c -> ver_ltb a c = true.
Proof. unfold ver_le. ver_solve. Qed.

(** Ids that were drawn before. *)
Definition drawn_by (st : St) (e : Eid) : Prop := ver_le (eid_ver e) (seen st).
Definition between (st st' : St) (e : Eid) : Prop := ver_ltb (seen st) (eid_ver e) = true /\ drawn_by st' e.
(** What is known of the records of one value. *)
Definition dec_ok (path : bytes) (v : value) (st : St) : Prop := forall n, room (slots v + n) st ->
  exists t st', decompose_children fresh path v st = (entry_rec <$> jrecs path t, st') /\ value_of t = v /\ tree_ok t /\ ver_le (seen st) (seen st') /\ room n st' /\
    tree_ids (between st st') t.

Hypothesis Hfresh : fresh_increasing.

Lemma between_wider st st1 st2 st' e : ver_le (seen st) (seen st1) -> ver_le (seen st2) (seen st') -> between st1 st2 e -> between st st' e.
Proof using All. intros L1 L2 [H1 H2]. split; [by eapply ver_le_lt|by eapply ver_le_trans]. Qed.
Lemma tree_ids_wider st st1 st2 st' t : ver_le (seen st) (seen st1) -> ver_le (seen st2) (seen st') -> tree_ids (between st1 st2) t -> tree_ids (between st st') t.
Proof using All. intros L1 L2. apply tree_ids_weaken. intros e. by apply between_wider. Qed.
Lemma fold_ids_wider st st1 st' (fs : list (bytes * jtree)) : ver_le (seen st) (seen st1) ->
  foldr (fun f R => tree_ids (between st1 st') f.2 /\ R) True fs -> foldr (fun f R => tree_ids (between st st') f.2 /\ R) True fs.
Proof using All.
  intros Hl. induction fs as [|f fs IH]; cbn; [done|]. intros [H1 H2]. split; [|by apply IH]. eapply tree_ids_wider; [exact Hl|apply ver_le_refl|exact H1].
Qed.

Lemma dec_fields_ok path m st n : Forall (fun c => forall path st, value_ok c.2 -> dec_ok path c.2 st) m ->
  foldr (fun c P => key_ok c.1 /\ value_ok c.2 /\ P) True m -> room (foldr (fun c n => slots c.2 + n) 0 m + n)%nat st ->
  exists fs st', dec_fields path m st = (entry_rec <$> jrecs path (TObj fs), st') /\ ((fun f => (f.1, value_of f.2)) <$> fs) = m /\
    foldr (fun f P => key_ok f.1 /\ tree_ok f.2 /\ P) True fs /\ ver_le (seen st) (seen st') /\ room n st' /\
    foldr (fun f R => tree_ids (between st st') f.2 /\ R) True fs.
Proof using All.
  intros Hm. revert st. induction Hm as [|[k c] m Hc Hm IH]; intros st Hok Hr.
  { exists [], st. split_and!; try done. apply ver_le_refl. }
  destruct Hok as (Hk & Hv & Hok). cbn [foldr snd] in Hr. rewrite <- Nat.add_assoc in Hr.
  destruct (Hc (push_seg path (Field k)) st Hv _ Hr) as (t & st1 & E1 & Et & Ht & Hl1 & Hr1 & Hn1).
  destruct (IH st1 Hok Hr1) as (fs & st2 & E2 & Ef & Hfs & Hl2 & Hr2 & Hn2). exists ((k, t) :: fs), st2. cbn [dec_fields]. cbn [snd] in E1, Et. rewrite E1, E2.
  split_and!; [|cbn; rewrite Et; by rewrite Ef|by cbn|by eapply ver_le_trans|done|].
  2:{ cbn. split; [eapply tree_ids_wider; [apply ver_le_refl|exact Hl2|exact Hn1]|]. by apply (fold_ids_wider st st1). }
  cbn [jrecs flat_map fst snd]. rewrite fmap_app. cbn [fmap list_fmap]. unfold tval at 1. by rewrite <- Et.
Qed.

Lemma dec_items_ok path a left k st n : Forall (fun c => forall path st, value_ok c -> dec_ok path c st) a ->
  foldr (fun c P => value_ok c /\ P) True a -> room (foldr (fun c n => S (slots c) + n) 0 a + n)%nat st ->
  exists els st', dec_items path a left k st = (entry_rec <$> flat_map (fun x => (path, Elem x.1.2, BArr (mkArrElem x.1.1 (tval x.2))) :: jrecs (push_seg path (Elem x.1.2)) x.2) (with_left left els), st') /\
    ((fun e => value_of e.2) <$> els) = a /\ foldr (fun e P => eid_ok e.1 /\ tree_ok e.2 /\ P) True els /\
    StronglySorted (fun x y => ver_ltb (eid_ver x) (eid_ver y) = true) els.*1 /\
    Forall (fun x => x <> EID_HEAD /\ between st st' x) els.*1 /\ ver_le (seen st) (seen st') /\ room n st' /\
    Forall (fun e => tree_ids (between st st') e.2) els.
Proof using All.
  intros Ha. revert left k st. induction Ha as [|c a Hc Ha IH]; intros left k st Hok Hr.
  { exists [], st. split_and!; try done; try constructor. apply ver_le_refl. }
  destruct Hok as (Hv & Hok). cbn [foldr plus] in Hr. rewrite <- Nat.add_assoc in Hr. cbn [dec_items].
  pose proof (Hfresh _ st path k Hr) as Hf. destruct (fresh st path k) as [e st1]. destruct Hf as (He & Hh & Hlt & Hs1 & Hr1).
  destruct (Hc (push_seg path (Elem e)) st1 Hv _ Hr1) as (t & st2 & E1 & Et & Ht & Hl1 & Hr2 & Hn1).
  destruct (IH e (S k) st2 Hok Hr2) as (els & st3 & E2 & Ea & Hels & Hso & Hlo & Hl2 & Hr3 & Hn2). exists ((e, t) :: els), st3. rewrite E1, E2.
  assert (Hle : ver_le (seen st) (seen st1)) by (eapply ver_le_trans; [by apply ver_lt_le|exact Hs1]).
  split_and!; [| |by cbn| | | |done|].
  - cbn [with_left flat_map fst snd]. rewrite fmap_app. cbn [fmap list_fmap]. unfold tval at 1. by rewrite <- Et.
  - cbn. by rewrite Et, Ea.
  - cbn. constructor; [done|]. eapply Forall_impl; [exact Hlo|]. cbn. intros x [_ [Hx _]]. eapply ver_le_lt; [|exact Hx]. by eapply ver_le_trans.
  - cbn. constructor; [split; [done|]; split; [done|]; eapply ver_le_trans; [exact Hs1|by eapply ver_le_trans]|].
    eapply Forall_impl; [exact Hlo|]. cbn. intros x [Hxh Hx]. split; [done|]. eapply between_wider; [by eapply ver_le_trans|apply ver_le_refl|exact Hx].
  - eapply ver_le_trans; [exact Hle|]. by eapply ver_le_trans.
  - constructor; [by eapply tree_ids_wider|]. eapply Forall_impl; [exact Hn2|]. cbn. intros x.
    apply (tree_ids_wider st st2 st3 st3); [by eapply ver_le_trans|apply ver_le_refl].
Qed.

Lemma sorted_ids_nodup ids : StronglySorted (fun x y => ver_ltb (eid_ver x) (eid_ver y) = true) ids -> NoDup ids.
Proof.
  induction 1 as [|x l Hs IH Hx]; constructor; [|done].
  rewrite Forall_forall in Hx. intros Hin. specialize (Hx _ Hin). by rewrite ver_ltb_irrefl in Hx.
Qed.

Lemma keys_sorted_fmap {A B} (f : A -> B) (m : list (bytes * A)) : keys_sorted ((fun c => (c.1, f c.2)) <$> m) -> keys_sorted m.
Proof.
  unfold keys_sorted. induction m as [|c m IH]; intros Hs; [constructor|]. cbn in Hs. apply StronglySorted_inv in Hs as [Hs Hc].
  constructor; [by apply IH|]. apply Forall_fmap in Hc. eapply Forall_impl; [exact Hc|]. done.
Qed.

Lemma decompose_tree v path st : value_ok v -> dec_ok path v st.
Proof using All.
  revert path st. induction v as [v Hv|a Ha|m Hm] using value_ind'; intros path st Hok n Hr.
  - exists (TScal v), st. assert (slots v = 0%nat) as E by (by destruct v). rewrite E in Hr.
    split_and!; try done; [by destruct v|apply ver_le_refl].
  - destruct (dec_items_ok path a EID_HEAD 0 st n Ha Hok Hr) as (els & st' & E & Ev & Hels & Hs & Hl & Hle & Hr' & Hn').
    exists (TArr els), st'. rewrite decompose_array, E, jrecs_arr. split_and!; [done|cbn; by rewrite Ev| |done|done|].
    2:{ cbn. clear -Hl Hn'. induction Hn' as [|e els He Hn' IH]; cbn; [done|]. cbn in Hl. apply Forall_cons in Hl as [[_ Hlt] Hl].
        split_and!; [done|done|by apply IH]. }
    cbn. split_and!; [by apply sorted_ids_nodup| |done]. intros Hin. rewrite Forall_forall in Hl. by apply (Hl _ Hin).
  - destruct Hok as [Hs Hok]. destruct (dec_fields_ok path m st n Hm Hok Hr) as (fs & st' & E & Ev & Hfs & Hle & Hr' & Hn').
    exists (TObj fs), st'. rewrite decompose_object, E. split_and!; [done|cbn; by rewrite Ev| |done|done|exact Hn'].
    cbn. split; [|done]. apply (keys_sorted_fmap value_of). by rewrite Ev.
Qed.

(** The ids of the value's elements are new. *)
Lemma between_new st st' t : tree_ids (between st st') t -> tree_new (drawn_by st) t.
Proof using All.
  apply tree_ids_weaken. intros e [H1 _] H2. pose proof (ver_le_lt _ _ _ H2 H1) as Hx. by rewrite ver_ltb_irrefl in Hx.
Qed.
End tree.
Arguments jtree : clear implicits.
