(* ===== verification/JsonLaws.v ===== *)
(** * Rebuilding documents from their records

    [build_doc] never panics on paths it can read, and from the records of a
    value, in any order, it rebuilds the value. *)

From S2P Require Import Prelude MapSum Varint Ikey BTree Merge Generic Json JsonPath RgaLaws JsonTree.

(** ** Totality: the depth is bounded by the number of records *)

(** Records stored at or below a path. *)
Definition recs_below (K : kids_map) (p : bytes) : Z :=
  msum (fun q (l : list (Seg * NodeIn)) => if starts_with q p then Z.of_nat (length l) else 0) K.
Lemma recs_below_nonneg K p : 0 <= recs_below K p.
Proof. apply msum_nonneg. intros. destruct (starts_with _ _); lia. Qed.

Lemma recs_below_child K p s c : (s, c) ∈ default [] (K !! p) -> recs_below K (push_seg p s) < recs_below K p.
Proof.
  intros Hin. unfold recs_below at 2. rewrite (msum_delete _ K p). destruct (K !! p) as [l|] eqn:E; [|by apply not_elem_of_nil in Hin].
  cbn [contrib]. assert (starts_with p p = true) as -> by (apply starts_with_spec; exists []; by rewrite app_nil_r). cbn in Hin.
  assert (0 < length l)%nat by (destruct l; [by apply not_elem_of_nil in Hin|cbn; lia]).
  assert (recs_below K (push_seg p s) <= msum (fun q (l : list (Seg * NodeIn)) => if starts_with q p then Z.of_nat (length l) else 0) (delete p K)); [|lia].
  unfold recs_below. rewrite (msum_delete _ K p), E. cbn [contrib].
  destruct (starts_with p (push_seg p s)) eqn:Hs.
  { apply starts_with_spec in Hs as [x Hx]. unfold push_seg in Hx. apply (f_equal length) in Hx. rewrite !length_app in Hx. pose proof (seg_bytes_pos s). lia. }
  apply (msum_le _ _ (delete p K)). intros q k Hq. destruct (starts_with q (push_seg p s)) eqn:Hs'; [|destruct (starts_with q p); lia].
  apply starts_with_spec in Hs' as [x ->]. unfold push_seg. by rewrite <- app_assoc, starts_with_app.
Qed.

Lemma rga_walk_elem fuel ch st x : x ∈ rga_walk fuel ch st -> x ∈ st \/ exists a l, ch !! a = Some l /\ x ∈ l.
Proof.
  revert ch st. induction fuel as [|fuel IH]; intros ch [|[e l] st]; try (by intros ?%not_elem_of_nil).
  rewrite rga_walk_cons. intros [->|H]%elem_of_cons; [left; left|]. apply IH in H as [H|(a & k & Ha & H)].
  - apply elem_of_app in H as [H|H]; [|left; by right]. right. destruct (ch !! e) as [k|] eqn:E; cbn in H; [|by apply not_elem_of_nil in H].
    exists e, k. split; [done|]. by apply list_elem_of_In, in_rev, list_elem_of_In.
  - right. exists a, k. split; [|done]. by apply lookup_delete_Some in Ha as [_ ?].
Qed.

Lemma sorted_children_elem present elems a l x : sorted_children present elems !! a = Some l -> x ∈ l -> exists f, f ∈ elems /\ x = (f.1.1, f.2).
Proof.
  rewrite sorted_children_lookup. destruct (children_at present elems a) as [|y k] eqn:E; [done|]. cbn [opt_list fmap option_fmap option_map].
  intros [= <-] Hx. rewrite merge_sort_Permutation, <- E in Hx. apply list_elem_of_omap in Hx as (f & Hf & Hx). exists f. split; [done|].
  unfold child_at in Hx. destruct (decide _); [|done]. by injection Hx.
Qed.

Lemma rga_order_elem elems x : x ∈ rga_order elems -> exists f, f ∈ elems /\ x = (f.1.1, f.2).
Proof.
  rewrite rga_order_unfold. intros [H|(a & l & Ha & H)]%rga_walk_elem.
  - apply list_elem_of_In, in_rev, list_elem_of_In in H. destruct (_ !! _) as [l|] eqn:E; [|by apply not_elem_of_nil in H].
    by eapply sorted_children_elem.
  - apply lookup_delete_Some in Ha as [_ Ha]. by eapply sorted_children_elem.
Qed.

(** [by_eid] holds a record of every element read. *)
Definition eid_index (elems : list (Eid * ArrElem * bool)) : gmap Eid ArrElem := foldl (fun m '(e, elem, _) => <[e := elem]> m) ∅ elems.
Lemma eid_index_snoc elems x : eid_index (elems ++ [x]) = <[x.1.1 := x.1.2]> (eid_index elems).
Proof. unfold eid_index. rewrite foldl_app. by destruct x as [[e a] b]. Qed.
Lemma eid_index_found elems e : e ∈ (fun x => x.1.1) <$> elems -> exists a, eid_index elems !! e = Some a /\ exists b, (e, a, b) ∈ elems.
Proof.
  induction elems as [|x elems IH] using rev_ind; [by intros ?%not_elem_of_nil|]. rewrite fmap_app, eid_index_snoc. intros He.
  destruct (decide (e = x.1.1)) as [->|Hne].
  - rewrite lookup_insert_eq. exists x.1.2. split; [done|]. exists x.2. rewrite elem_of_app. right. destruct x as [[? ?] ?]. left.
  - rewrite lookup_insert_ne by done. apply elem_of_app in He as [He|He%list_elem_of_singleton]; [|done].
    destruct (IH He) as (a & E & b & Hb). exists a. split; [done|]. exists b. rewrite elem_of_app. by left.
Qed.
Lemma eid_index_nodup elems e a b : NoDup ((fun x => x.1.1) <$> elems) -> (e, a, b) ∈ elems -> eid_index elems !! e = Some a.
Proof.
  intros Hn Hin. destruct (eid_index_found elems e) as (a' & E & b' & Hin').
  { apply (list_elem_of_fmap_2' (fun x => x.1.1) _ _ _ Hin). done. }
  rewrite E. f_equal. apply list_elem_of_lookup in Hin as [i Hi]. apply list_elem_of_lookup in Hin' as [j Hj].
  assert (i = j) as ->; [|congruence]. eapply (NoDup_lookup _ _ _ e Hn); by rewrite list_lookup_fmap, ?Hi, ?Hj.
Qed.

Section laws.
Context {Number : Type} `{!JsonNumber Number, !JsonNumberLaws Number}.
Abbreviation value := (Value Number).
Abbreviation jtree := (jtree Number).

Definition no_panic {A} (m : rust A) : Prop := m <> Panic.
Lemma no_panic_bind {A B} (m : rust A) (f : A -> rust B) : no_panic m -> (forall a, m = Ret a -> no_panic (f a)) -> no_panic (rust_bind m f).
Proof. destruct m as [a|]; [|done]. intros _ Hf. by apply Hf. Qed.

Lemma mat_fields_total rec p fields map idx :
  (forall f idx, f ∈ fields -> no_panic (rec (push_seg p (Field f.1.1)) f.1.2 idx)) -> no_panic (mat_fields (Number := Number) rec p fields map idx).
Proof.
  revert map idx. induction fields as [|[[name v] d] fields IH]; intros map idx H; [done|]. cbn [mat_fields].
  apply no_panic_bind; [apply (H (name, v, d)); left|]. intros [v' idx'] _. apply IH. intros f i Hf. apply H. by right.
Qed.
Lemma mat_elems_total rec p by_eid ordered idx :
  (forall e b, (e, b) ∈ ordered -> exists a, by_eid !! e = Some a /\ forall idx, no_panic (rec (push_seg p (Elem e)) (ae_val a) idx)) ->
  no_panic (mat_elems (Number := Number) rec p by_eid ordered idx).
Proof.
  revert idx. induction ordered as [|[e []] ordered IH]; intros idx H; [done| |].
  - cbn [mat_elems]. destruct (H e true) as (a & -> & Ha); [left|]. apply no_panic_bind; [apply Ha|]. intros [v' idx'] _.
    apply no_panic_bind; [|by intros [[vs es] i]]. apply IH. intros e' b Hin. eapply H. by right.
  - cbn [mat_elems]. apply IH. intros e' b Hin. eapply H. by right.
Qed.

Lemma materialize_total fuel K p v idx : recs_below K p < Z.of_nat fuel -> no_panic (materialize (Number := Number) fuel K p v idx).
Proof.
  revert p v idx. induction fuel as [|fuel IH]; intros p v idx Hf; [pose proof (recs_below_nonneg K p); lia|].
  assert (Hsub : forall s c v idx, (s, c) ∈ default [] (K !! p) -> no_panic (materialize (Number := Number) fuel K (push_seg p s) v idx)).
  { intros s c v' idx' Hin. apply IH. pose proof (recs_below_child K p s c Hin). lia. }
  cbn [materialize]. destruct v; try done.
  - apply no_panic_bind; [|by intros [m i]]. apply mat_fields_total. intros [[name v] d] i Hin.
    rewrite merge_sort_Permutation in Hin. apply list_elem_of_omap in Hin as ([s c] & Hin & Hc). cbn.
    destruct s as [f|], c as [v' d'|]; try done. injection Hc as -> -> ->. by eapply Hsub.
  - apply no_panic_bind; [|by intros [[m o] i]]. apply mat_elems_total. intros e b (f & Hf' & [= -> ->])%rga_order_elem.
    apply list_elem_of_fmap in Hf' as ([[e a] l] & -> & Hin). cbn.
    destruct (eid_index_found (omap elem_entry (default [] (K !! p))) e) as (a' & E & b' & Hin').
    { apply (list_elem_of_fmap_2' (fun x => x.1.1) _ _ _ Hin). done. }
    exists a'. split; [exact E|]. intros i. apply list_elem_of_omap in Hin' as ([s c] & Hc & Hs).
    destruct s as [|e'], c as [|a2 l2]; try done. injection Hs as -> -> ->. by eapply Hsub.
Qed.

(** [collect] groups the readable paths by parent. *)
Definition split_of (n : bytes * NodeIn) : option (bytes * (Seg * NodeIn)) :=
  match split_last n.1 with Ret (Some (q, s)) => Some (q, (s, n.2)) | _ => None end.
Definition root_of (nodes : list (bytes * NodeIn)) (r : option NodeIn) : option NodeIn :=
  foldl (fun r n => match n.1 with [] => Some n.2 | _ => r end) r nodes.
Definition kids_of (ks : list (bytes * (Seg * NodeIn))) (q : bytes) : list (Seg * NodeIn) := snd <$> filter (fun k => k.1 = q) ks.

Lemma recs_below_push K q c : recs_below (push_kid K q c) [] = recs_below K [] + 1.
Proof.
  unfold recs_below, push_kid. rewrite msum_insert. assert (forall q, starts_with q [] = true) as Hs by (by intros []). rewrite Hs.
  unfold contrib. destruct (K !! q); cbn; rewrite ?Hs, ?length_app; cbn; lia.
Qed.

Lemma collect_spec nodes K r : Forall (fun n => no_panic (split_last n.1)) nodes ->
  exists K', collect nodes K r = Ret (K', root_of nodes r) /\
    (forall q, default [] (K' !! q) = default [] (K !! q) ++ kids_of (omap split_of nodes) q) /\
    recs_below K' [] <= recs_below K [] + Z.of_nat (length nodes).
Proof.
  intros Hn. revert K r. induction Hn as [|[p n] nodes Hp Hn IH]; intros K r.
  { exists K. split_and!; [done| |cbn; lia]. intros q. cbn. by rewrite app_nil_r. }
  destruct p as [|b p].
  { destruct (IH K (Some n)) as (K' & E & H & Hb). exists K'. split_and!; [exact E| |cbn [length]; lia]. intros q. by rewrite H. }
  cbn [collect]. unfold root_of. cbn [foldl fst]. cbn [fst] in Hp. cbn [omap list_omap]. unfold split_of at 1. cbn [fst snd].
  destruct (split_last (b :: p)) as [[[parent s]|]|] eqn:E; [| |done]; cbn [rust_bind].
  - destruct (IH (push_kid K parent (s, n)) r) as (K' & E' & H & Hb). exists K'. rewrite recs_below_push in Hb. split_and!; [exact E'| |cbn [length]; lia]. intros q. rewrite H.
    unfold kids_of, push_kid. rewrite filter_cons. cbn [fst]. destruct (decide (parent = q)) as [->|Hne].
    + rewrite lookup_insert_eq. cbn. by rewrite <- app_assoc.
    + by rewrite lookup_insert_ne.
  - destruct (IH K r) as (K' & E' & H & Hb). exists K'. split_and!; [exact E'| |cbn [length]; lia]. intros q. by rewrite H.
Qed.

(** The dots recorded for the root are those it was read with. *)
Lemma mat_fields_root rec p fields : (forall q v idx v' idx', rec q v idx = Ret (v', idx') -> map_dots idx' !! [] = map_dots idx !! []) ->
  forall m idx m' idx', mat_fields (Number := Number) rec p fields m idx = Ret (m', idx') -> map_dots idx' !! [] = map_dots idx !! [].
Proof.
  intros Hr. induction fields as [|[[name v] d] fields IH]; intros m idx m' idx' E; [by injection E as _ <-|]. cbn [mat_fields] in E.
  destruct (rec _ v _) as [[v' idx1]|] eqn:E1; [|done]. cbn [rust_bind] in E. rewrite (IH _ _ _ _ E), (Hr _ _ _ _ _ E1).
  cbn [map_dots put_dots]. apply lookup_insert_ne. unfold push_seg. pose proof (seg_bytes_pos (Field name)) as Hp. intros [_ E0]%app_eq_nil. rewrite E0 in Hp. cbn in Hp. lia.
Qed.
Lemma mat_elems_root rec p by_eid ordered : (forall q v idx v' idx', rec q v idx = Ret (v', idx') -> map_dots idx' !! [] = map_dots idx !! []) ->
  forall idx vs es idx', mat_elems (Number := Number) rec p by_eid ordered idx = Ret (vs, es, idx') -> map_dots idx' !! [] = map_dots idx !! [].
Proof.
  intros Hr. induction ordered as [|[e []] ordered IH]; intros idx vs es idx' E; [by injection E as _ _ <-| |by eapply IH]. cbn [mat_elems] in E.
  destruct (by_eid !! e) as [a|]; [|done]. destruct (rec _ _ idx) as [[v' idx1]|] eqn:E1; [|done]. cbn [rust_bind] in E.
  destruct (mat_elems rec p by_eid ordered idx1) as [[[vs' es'] idx2]|] eqn:E2; [|done]. injection E as _ _ <-.
  by rewrite (IH _ _ _ _ E2), (Hr _ _ _ _ _ E1).
Qed.
Lemma materialize_root fuel K : forall p v idx v' idx', materialize (Number := Number) fuel K p v idx = Ret (v', idx') -> map_dots idx' !! [] = map_dots idx !! [].
Proof.
  induction fuel as [|fuel IH]; intros p v idx v' idx' E; [done|]. cbn [materialize] in E.
  destruct v; try (destruct (scalar_value _); [|done]; cbn [rust_bind] in E; by injection E as _ <-).
  - destruct (mat_fields _ _ _ _ _) as [[m idx1]|] eqn:E1; [|done]. cbn [rust_bind] in E. injection E as _ <-. by eapply mat_fields_root.
  - destruct (mat_elems _ _ _ _ _) as [[[vs es] idx1]|] eqn:E1; [|done]. cbn [rust_bind] in E. injection E as _ <-. cbn [map_dots put_array]. eapply mat_elems_root; [exact IH|exact E1].
Qed.

Lemma build_doc_cases nodes : Forall (fun n => no_panic (split_last n.1)) nodes ->
  (build_doc (Number := Number) nodes = Ret None /\ forall v ds, root_of nodes None <> Some (NMap v ds)) \/
  exists d v ds, build_doc nodes = Ret (Some d) /\ root_of nodes None = Some (NMap v ds) /\ map_dots (doc_index d) !! [] = Some ds.
Proof.
  intros Hn. destruct (collect_spec nodes ∅ None Hn) as (K & E & _ & Hb). unfold build_doc. rewrite E. cbn [rust_bind].
  destruct (root_of nodes None) as [[v d|a b]|]; [|left; by split..]. right.
  pose proof (materialize_total (S (length nodes)) K [] v (mkDocIndex {[ [] := d ]} ∅)) as Ht.
  destruct (materialize _ _ _ _ _) as [[val idx]|] eqn:Em; [|exfalso; apply Ht; [change (recs_below ∅ []) with 0 in Hb; lia|done]].
  eexists _, v, d. split_and!; [done|done|]. cbn [doc_index]. rewrite (materialize_root _ _ _ _ _ _ _ Em). apply lookup_insert_eq.
Qed.

(** [C26] Materialization is total: whatever records a replica holds - orphans,
    retyped parents, cycles of anchors, duplicates - a document is built or
    there is no visible root, as long as no path carries a length prefix that
    overflows; the recursion is bounded by the number of records. *)
Theorem build_doc_total nodes : Forall (fun n => split_last n.1 <> Panic) nodes -> exists d, build_doc (Number := Number) nodes = Ret d.
Proof.
  intros Hn. destruct (build_doc_cases nodes Hn) as [[E _]|(d & ? & ? & E & _)]; by eexists.
Qed.
End laws.

(** An array with an element whose left neighbour is unknown, one whose
    neighbour comes later in a cycle, and a field whose parent was never seen. *)
Lemma build_doc_total_witness : exists d, build_doc (Number := N64)
  [([], NMap VArr []); (push_seg [] (Elem (mkEid 2 1)), NArr (mkArrElem (mkEid 3 1) VNull) true);
   (push_seg [] (Elem (mkEid 3 1)), NArr (mkArrElem (mkEid 2 1) (VInt 5)) true); (push_seg [] (Elem (mkEid 9 1)), NArr (mkArrElem (mkEid 7 7) VObj) false);
   (push_seg (push_seg [] (Field [97])) (Field [98]), NMap (VBool true) [])] = Ret d.
Proof. apply build_doc_total. repeat (apply Forall_cons; split; [by vm_compute|]). apply Forall_nil. done. Defined.
