(* ===== verification/JsonRound.v ===== *)
(** * The records of a document give the document back

    The records of a tree are found below its path and nowhere else
    ([Kids]), so [materialize] rebuilds the tree from them, with an index
    that lists every map entry's dots and every array's order. *)

From S2P Require Import Prelude MapSum Varint Ikey BTree Merge Generic Json JsonPath RgaLaws JsonTree JsonLaws.

(** ** Chains of insertions *)

(** Elements inserted one behind the other. *)
Fixpoint chain (left : Eid) (es : list Eid) : list (Eid * Eid * bool) :=
  match es with [] => [] | e :: es => (e, left, true) :: chain e es end.

Lemma chain_ids l es : elem_ids (chain l es) = es.
Proof. unfold elem_ids. revert l. induction es as [|e es IH]; intros l; [done|]. cbn. f_equal. apply IH. Qed.

Lemma chain_children present l es a : l ∉ es -> NoDup es -> (forall f, f ∈ l :: es -> anchor_of present f = f) ->
  children_at present (chain l es) a =
    match es with [] => [] | e :: es' => if decide (l = a) then [(e, true)] else children_at present (chain e es') a end.
Proof.
  intros Hl Hn Hp. destruct es as [|e es]; [done|]. unfold children_at. cbn [chain omap list_omap]. unfold child_at at 1. cbn [fst snd].
  rewrite (Hp l) by left. destruct (decide (l = a)) as [<-|]; [|done]. f_equal. apply elem_of_nil_inv. intros x Hx.
  apply list_elem_of_omap in Hx as (f & Hf & Hx). unfold child_at in Hx. destruct (decide _) as [Ha|]; [|done].
  assert (f.1.2 ∈ e :: es) as Hin.
  { clear -Hf. revert e Hf. induction es as [|e' es IH]; intros e; cbn; [by intros ?%not_elem_of_nil|].
    intros [->|H]%elem_of_cons; [left|right; by apply IH]. }
  rewrite Hp in Ha by (by right). by rewrite Ha in Hin.
Qed.

(** [ch] leads from each element to the next. *)
Fixpoint leads (ch : gmap Eid (list (Eid * bool))) (e : Eid) (es : list Eid) : Prop :=
  match es with [] => ch !! e = None | e' :: es => ch !! e = Some [(e', true)] /\ leads ch e' es end.
Lemma leads_delete ch a e es : a ∉ e :: es -> leads ch e es -> leads (delete a ch) e es.
Proof.
  revert e. induction es as [|e' es IH]; intros e Ha; cbn [leads]; [intros; rewrite lookup_delete_ne; set_solver|].
  intros [H1 H2]. split; [rewrite lookup_delete_ne; set_solver|]. apply IH; [set_solver|done].
Qed.
(** A walk over one live element and dead ones below it meets the rest of its
    chain, and otherwise dead elements only. *)
Definition is_live (x : Eid * bool) : Prop := x.2 = true.
#[local] Instance is_live_dec x : Decision (is_live x).
Proof. unfold is_live. apply _. Defined.
Definition all_dead (l : list (Eid * bool)) : Prop := Forall (fun x => x.2 = false) l.
Lemma filter_dead l : all_dead l -> filter is_live l = [].
Proof. induction 1 as [|x l Hx Hl IH]; [done|]. rewrite filter_cons_False; [done|]. unfold is_live. by rewrite Hx. Qed.
Lemma all_dead_rev l : all_dead l -> all_dead (rev l).
Proof. unfold all_dead. intros H. by rewrite <- Permutation_rev. Qed.

Lemma rga_walk_dead fuel ch st : (forall a l, ch !! a = Some l -> all_dead l) -> all_dead st -> all_dead (rga_walk fuel ch st).
Proof.
  revert ch st. induction fuel as [|fuel IH]; intros ch [|[e l] st] Hc Hs; [constructor..|]. rewrite rga_walk_cons.
  apply Forall_cons in Hs as [He Hs]. constructor; [done|]. apply IH.
  - intros a k Ha. apply lookup_delete_Some in Ha as [_ Ha]. by eapply Hc.
  - apply Forall_app. split; [|done]. destruct (ch !! e) as [k|] eqn:E; [|constructor]. cbn. apply all_dead_rev. by eapply Hc.
Qed.

Lemma walk_leads fuel ch st1 e es st2 : NoDup (e :: es) -> pending ch (st1 ++ (e, true) :: st2) <= Z.of_nat fuel -> leads ch e es ->
  (forall a l, ch !! a = Some l -> a ∉ e :: es -> all_dead l) -> all_dead st1 -> all_dead st2 -> Forall (fun x => x.1 ∉ e :: es) (st1 ++ st2) ->
  (forall a l, ch !! a = Some l -> Forall (fun x => x.2 = false -> x.1 ∉ e :: es) l) ->
  filter is_live (rga_walk fuel ch (st1 ++ (e, true) :: st2)) = (fun e => (e, true)) <$> e :: es.
Proof.
  revert ch st1 e es st2. induction fuel as [|fuel IH]; intros ch st1 e es st2 Hn Hf Hl Hc H1 H2 Ho Hx.
  { pose proof (weight_nonneg ch). unfold pending in Hf. rewrite length_app in Hf. cbn in Hf. lia. }
  assert (Hx' : forall b a l, delete b ch !! a = Some l -> ch !! a = Some l) by (intros b a l Ha; by apply lookup_delete_Some in Ha as [_ ?]).
  destruct st1 as [|[d b] st1].
  - cbn [app] in *. pose proof (pending_cons ch (e, true) st2) as P. cbn [fst] in P. rewrite rga_walk_cons, filter_cons_True by done.
    cbn [fmap list_fmap]. f_equal. destruct es as [|e' es]; cbn [leads] in Hl.
    + rewrite Hl. cbn [from_option rev app]. rewrite filter_dead; [done|]. apply rga_walk_dead; [|done]. intros a l Ha.
      destruct (decide (a = e)) as [->|]; [by rewrite lookup_delete_eq in Ha|]. apply (Hc a l); [by eapply Hx'|set_solver].
    + destruct Hl as [Hl1 Hl2]. rewrite Hl1 in *. cbn [from_option id rev app] in *. apply NoDup_cons in Hn as [Hne Hn].
      apply (IH (delete e ch) [] e' es st2); [done|cbn [app]; lia|by apply leads_delete| |constructor|done| |].
      * intros a l Ha Hin. destruct (decide (a = e)) as [->|]; [by rewrite lookup_delete_eq in Ha|]. apply (Hc a l); [by eapply Hx'|set_solver].
      * eapply Forall_impl; [exact Ho|]. cbn. set_solver.
      * intros a l Ha. eapply Forall_impl; [eapply Hx, Hx', Ha|]. cbn. intros x Hxx Hd. specialize (Hxx Hd). set_solver.
  - cbn [app] in *. pose proof (pending_cons ch (d, b) (st1 ++ (e, true) :: st2)) as P. cbn [fst] in P.
    apply Forall_cons in H1 as [Hb H1]. cbn in Hb. subst b. apply Forall_cons in Ho as [Hd Ho]. cbn in Hd. rewrite rga_walk_cons.
    rewrite filter_cons_False by (unfold is_live; done). set (ks := default [] (ch !! d)) in *.
    assert (Hks : all_dead ks /\ Forall (fun x => x.1 ∉ e :: es) ks).
    { unfold ks. destruct (ch !! d) as [k|] eqn:E; [|by split; constructor]. cbn. pose proof (Hc d k E Hd) as Hdead. split; [done|].
      pose proof (Hx d k E) as Hk. unfold all_dead in Hdead. rewrite Forall_forall in Hk, Hdead |- *. auto. }
    destruct Hks as [Hk1 Hk2]. rewrite app_assoc in P |- *. apply IH; [done|lia|by apply leads_delete| | |done| |].
    + intros a l Ha. apply Hc. by eapply Hx'.
    + apply Forall_app. split; [by apply all_dead_rev|done].
    + rewrite <- app_assoc. apply Forall_app. split; [|done]. by rewrite <- Permutation_rev.
    + intros a l Ha. by eapply Hx, Hx'.
Qed.

Lemma chain_leads present l es (ch : gmap Eid (list (Eid * bool))) : NoDup (l :: es) -> (forall f, f ∈ l :: es -> anchor_of present f = f) ->
  (forall a, a ∈ l :: es -> ch !! a = merge_sort eid_le <$> opt_list (children_at present (chain l es) a)) -> leads ch l es.
Proof.
  revert l. induction es as [|e es IH]; intros l Hn Hp Hc; cbn [leads]; [rewrite Hc by left; done|].
  apply NoDup_cons in Hn as [Hl Hn]. split.
  - rewrite Hc, chain_children by (done || left). by rewrite decide_True.
  - apply IH; [done|intros; apply Hp; by right|]. intros a Ha. rewrite Hc by (by right). rewrite (chain_children present l) by done.
    by rewrite decide_False by (intros ->; done).
Qed.

Lemma children_at_app present elems elems' a : children_at present (elems ++ elems') a = children_at present elems a ++ children_at present elems' a.
Proof. apply omap_app. Qed.

(** A chain inserted at the front of an array whose other elements are dead:
    they name neighbours that are not in the chain. *)
Lemma rga_order_chain es dead : NoDup (es ++ elem_ids dead) -> EID_HEAD ∉ es ++ elem_ids dead ->
  Forall (fun d => d.2 = false /\ d.1.2 ∉ es) dead ->
  filter is_live (rga_order (chain EID_HEAD es ++ dead)) = (fun e => (e, true)) <$> es.
Proof.
  intros Hn Hh Hd. set (elems := chain EID_HEAD es ++ dead).
  assert (Hids : elem_ids elems = es ++ elem_ids dead).
  { unfold elems, elem_ids. rewrite fmap_app. f_equal. apply (chain_ids EID_HEAD es). }
  set (present := present_ids elems).
  assert (Hp : forall f, f ∈ EID_HEAD :: es -> anchor_of present f = f).
  { intros f [->|Hf]%elem_of_cons; [unfold anchor_of; by destruct (bool_decide (_ ∉ _))|]. apply anchor_present; rewrite Hids; [done|]. by rewrite elem_of_app; left. }
  assert (Hdc : forall a, a ∈ es -> children_at present dead a = []).
  { intros a Ha. apply elem_of_nil_inv. intros x Hx. apply list_elem_of_omap in Hx as (f & Hf & Hx). unfold child_at in Hx.
    destruct (decide _) as [E|]; [|done]. rewrite Forall_forall in Hd. destruct (Hd f Hf) as [_ Hne]. unfold anchor_of in E.
    destruct (_ && _); [|by rewrite E in Hne]. rewrite <- E in Ha. apply Hh. rewrite elem_of_app. by left. }
  assert (Hdd : forall a, all_dead (children_at present dead a) /\ Forall (fun x => x.1 ∉ es) (children_at present dead a)).
  { intros a. split; apply Forall_forall; intros x Hx; apply list_elem_of_omap in Hx as (f & Hf & Hx); unfold child_at in Hx;
      (destruct (decide _); [|done]); injection Hx as <-; rewrite Forall_forall in Hd; cbn; [by apply Hd|].
    apply NoDup_app in Hn as (_ & Hdis & _). intros Hin. apply (Hdis _ Hin). by apply (list_elem_of_fmap_2 (fun e => e.1.1)). }
  assert (Hnes : NoDup es) by (by apply NoDup_app in Hn as [? _]).
  assert (HeadN : EID_HEAD ∉ es) by (intros ?; apply Hh; rewrite elem_of_app; by left).
  rewrite rga_order_unfold. fold elems present. pose proof (pending_start present elems) as P.
  set (ch := sorted_children present elems) in *.
  assert (Hch : forall a, ch !! a = merge_sort eid_le <$> opt_list (children_at present (chain EID_HEAD es) a ++ children_at present dead a)).
  { intros a. unfold ch. rewrite sorted_children_lookup. unfold elems at 1. by rewrite children_at_app. }
  destruct es as [|e es].
  { rewrite filter_dead; [done|]. apply rga_walk_dead.
    - intros a l Ha. apply lookup_delete_Some in Ha as [_ Ha]. rewrite Hch in Ha. cbn [chain children_at omap list_omap app] in Ha.
      destruct (children_at present dead a) eqn:E; [done|]. cbn [opt_list fmap option_fmap option_map] in Ha. injection Ha as <-. unfold all_dead.
      rewrite merge_sort_Permutation, <- E. apply Hdd.
    - apply all_dead_rev. rewrite Hch. cbn [chain children_at omap list_omap app]. destruct (children_at present dead EID_HEAD) eqn:E; [constructor|].
      cbn [opt_list fmap option_fmap option_map from_option]. unfold id, all_dead. rewrite merge_sort_Permutation, <- E. apply Hdd. }
  assert (Hlead : leads (delete EID_HEAD ch) e es).
  { apply leads_delete; [done|].
    assert (Hl : leads ch EID_HEAD (e :: es) \/ leads ch e es) by (right; apply (chain_leads present e es);
      [done|intros; apply Hp; by right|]; intros a Ha; rewrite Hch, (chain_children present EID_HEAD), decide_False by (done || (intros <-; done));
      rewrite (Hdc a Ha), app_nil_r; done).
    by destruct Hl as [[_ ?]|?]. }
  assert (Hroot : exists st1 st2, rev (default [] (ch !! EID_HEAD)) = st1 ++ (e, true) :: st2 /\ all_dead st1 /\ all_dead st2 /\
    Forall (fun x => x.1 ∉ e :: es) (st1 ++ st2)).
  { assert (Hperm : rev (default [] (ch !! EID_HEAD)) ≡ₚ (e, true) :: children_at present dead EID_HEAD).
    { rewrite <- Permutation_rev, Hch, (chain_children present EID_HEAD), decide_True by done. cbn [app opt_list fmap option_fmap option_map from_option].
      unfold id. apply merge_sort_Permutation. }
    assert ((e, true) ∈ rev (default [] (ch !! EID_HEAD))) as Hin by (rewrite Hperm; left).
    apply list_elem_of_split in Hin as (st1 & st2 & E). exists st1, st2. rewrite E in Hperm. rewrite <- Permutation_middle in Hperm.
    apply Permutation_cons_inv in Hperm. destruct (Hdd EID_HEAD) as [D1 D2]. unfold all_dead in D1. rewrite <- Hperm in D1, D2. apply Forall_app in D1 as [? ?]. by split_and!. }
  destruct Hroot as (st1 & st2 & E & D1 & D2 & Do). rewrite E in *. rewrite (walk_leads _ _ st1 e es st2); [done|done| |done| |done|done|done|].
  - rewrite P. done.
  - intros a l Ha Hin. apply lookup_delete_Some in Ha as [Hne Ha]. rewrite Hch, (chain_children present EID_HEAD), decide_False in Ha by done.
    assert (children_at present (chain e es) a = []) as E0.
    { apply elem_of_nil_inv. intros x Hx. apply list_elem_of_omap in Hx as (f & Hf & Hx). unfold child_at in Hx. destruct (decide _) as [Ea|]; [|done].
      assert (f.1.2 ∈ e :: es) as Hfin.
      { clear -Hf. revert e Hf. induction es as [|e' es IH]; intros e; cbn.
        - by intros Hx%not_elem_of_nil.
        - intros [->|H]%elem_of_cons; [left|right; by apply IH]. }
      apply Hin. rewrite <- Ea. rewrite Hp by (by right). done. }
    rewrite E0 in Ha. cbn [app] in Ha. destruct (children_at present dead a) eqn:E1; [done|].
    cbn [opt_list fmap option_fmap option_map] in Ha. injection Ha as <-. unfold all_dead. rewrite merge_sort_Permutation, <- E1. apply Hdd.
  - intros a l Ha. apply lookup_delete_Some in Ha as [Hne Ha]. rewrite Hch in Ha.
    destruct (children_at present (chain EID_HEAD (e :: es)) a ++ children_at present dead a) as [|y k] eqn:E1; [done|]. cbn [opt_list fmap option_fmap option_map] in Ha. injection Ha as <-.
    rewrite merge_sort_Permutation, <- E1. apply Forall_app. split.
    + apply Forall_forall. intros x Hx Hdx. apply list_elem_of_omap in Hx as (f & Hf & Hx). unfold child_at in Hx. destruct (decide _); [|done].
      injection Hx as <-. cbn in Hdx. exfalso. clear -Hf Hdx. generalize dependent EID_HEAD. induction (e :: es) as [|a l IH]; cbn; [by intros ? ?%not_elem_of_nil|].
      intros h [->|Hf]%elem_of_cons; [done|by eapply IH].
    + eapply Forall_impl; [apply (Hdd a)|]. done.
Qed.

(** ** Records below a path *)

Section round.
Context {Number : Type} `{!JsonNumber Number, !JsonNumberLaws Number}.
Abbreviation value := (Value Number).
Abbreviation jtree := (jtree Number).

(** The dots each map entry was read with, and the ids the array had used. *)
Context (dots : bytes -> list Dot) (old : Eid -> Prop).
Definition entry_node (e : entry) : NodeIn := match e.2 with BMap v => NMap v (dots (entry_path e)) | BArr a => NArr a true end.
Definition entry_kid (e : entry) : Seg * NodeIn := (e.1.2, entry_node e).

(** A tree's children: last segment, record, subtree. *)
Definition items (t : jtree) : list (Seg * rec_body * jtree) :=
  match t with
  | TScal _ => []
  | TObj fs => (fun f => (Field f.1, BMap (tval f.2), f.2)) <$> fs
  | TArr els => (fun x => (Elem x.1.2, BArr (mkArrElem x.1.1 (tval x.2)), x.2)) <$> with_left EID_HEAD els
  end.
Definition blocks (p : bytes) (bs : list (Seg * rec_body * jtree)) : list entry :=
  flat_map (fun b => (p, b.1.1, b.1.2) :: jrecs (push_seg p b.1.1) b.2) bs.

Lemma flat_map_fmap {A B C} (f : B -> list C) (g : A -> B) l : flat_map f (g <$> l) = flat_map (fun a => f (g a)) l.
Proof. induction l as [|a l IH]; cbn; [done|]. by rewrite IH. Qed.
Lemma jrecs_blocks p t : jrecs p t = blocks p (items t).
Proof. destruct t as [v|fs|els]; [done| |rewrite jrecs_arr]; unfold blocks, items; by rewrite flat_map_fmap. Qed.

Lemma with_left_Forall (P : jtree -> Prop) l els : Forall (fun e => P e.2) els -> Forall (fun x => P x.2) (with_left l els).
Proof. intros H. revert l. induction H as [|[e c] els He H IH]; intros l; constructor; [exact He|apply IH]. Qed.
Lemma items_ind (P : jtree -> Prop) : (forall t, Forall (fun b => P b.2) (items t) -> P t) -> forall t, P t.
Proof.
  intros H t. induction t as [v|fs IH|els IH] using jtree_ind'; apply H; cbn; [constructor|by apply Forall_fmap|].
  apply Forall_fmap. by apply with_left_Forall.
Qed.

Lemma blocks_elem p bs e : e ∈ blocks p bs -> exists b, b ∈ bs /\ (e = (p, b.1.1, b.1.2) \/ e ∈ jrecs (push_seg p b.1.1) b.2).
Proof.
  intros He%list_elem_of_In. apply in_flat_map in He as (b & Hb & He). exists b. split; [by apply list_elem_of_In|].
  by apply list_elem_of_In, elem_of_cons in He.
Qed.
Lemma jrecs_below p t e : e ∈ jrecs p t -> exists x, e.1.1 = p ++ x.
Proof.
  revert p e. induction t as [t IH] using items_ind. intros p e. rewrite jrecs_blocks. intros (b & Hb & [->|He])%blocks_elem.
  - exists []. by rewrite app_nil_r.
  - rewrite Forall_forall in IH. destruct (IH b Hb _ _ He) as [x ->]. unfold push_seg. rewrite <- app_assoc. by eexists.
Qed.

(** Records whose parent is [q]. *)
Definition at_parent (q : bytes) (es : list entry) : list entry := filter (fun e => e.1.1 = q) es.
Lemma at_parent_nil q es : (forall e, e ∈ es -> e.1.1 <> q) -> at_parent q es = [].
Proof.
  intros H. apply elem_of_nil_inv. intros e He. apply list_elem_of_filter in He as [Hq He]. by apply (H e).
Qed.
Lemma at_parent_cons q e es : at_parent q (e :: es) = if decide (e.1.1 = q) then e :: at_parent q es else at_parent q es.
Proof. unfold at_parent. by rewrite filter_cons. Qed.
Lemma at_parent_app q es es' : at_parent q (es ++ es') = at_parent q es ++ at_parent q es'.
Proof. apply filter_app. Qed.
Lemma push_seg_longer p s x : p <> push_seg p s ++ x.
Proof.
  unfold push_seg. intros E. apply (f_equal length) in E. rewrite !length_app in E. pose proof (seg_bytes_pos s). lia.
Qed.

Lemma at_parent_own p bs : at_parent p (blocks p bs) = (fun b => (p, b.1.1, b.1.2)) <$> bs.
Proof.
  induction bs as [|b bs IH]; [done|]. unfold blocks. cbn [flat_map]. rewrite at_parent_app. cbn [fmap list_fmap]. fold (blocks p bs). rewrite IH.
  rewrite at_parent_cons, decide_True by done.
  rewrite at_parent_nil; [done|]. intros e He. apply jrecs_below in He as [x ->]. intros E. by apply (push_seg_longer p b.1.1 x).
Qed.

Lemma at_parent_block p bs b x : Forall (fun c => seg_ok c.1.1) bs -> NoDup ((fun c => c.1.1) <$> bs) -> b ∈ bs ->
  at_parent (push_seg p b.1.1 ++ x) (blocks p bs) = at_parent (push_seg p b.1.1 ++ x) (jrecs (push_seg p b.1.1) b.2).
Proof.
  intros Hs Hn Hb. set (q := push_seg p b.1.1 ++ x).
  assert (Hother : forall cs, Forall (fun c => seg_ok c.1.1 /\ c.1.1 <> b.1.1) cs -> at_parent q (blocks p cs) = []).
  { intros cs Hcs. apply at_parent_nil. intros e (c & Hc & He)%blocks_elem E. rewrite Forall_forall in Hcs. destruct (Hcs c Hc) as [Hok Hne].
    destruct He as [->|He]; [by apply (push_seg_longer p b.1.1 x)|]. apply jrecs_below in He as [y Hy].
    rewrite E in Hy. unfold q, push_seg in Hy. rewrite <- !app_assoc in Hy. apply app_inv_head in Hy.
    rewrite Forall_forall in Hs. apply Hne. symmetry. by eapply seg_prefix_free; [by apply Hs| |exact Hy]. }
  apply list_elem_of_split in Hb as (b1 & b2 & ->). rewrite fmap_app in Hn. cbn in Hn. apply NoDup_app in Hn as (_ & Hd & Hn2).
  apply NoDup_cons in Hn2 as [Hn2 _]. apply Forall_app in Hs as [Hs1 Hs2]. apply Forall_cons in Hs2 as [Hs2 Hs3].
  unfold blocks. rewrite flat_map_app. cbn [flat_map]. rewrite !at_parent_app. fold (blocks p b1) (blocks p b2).
  rewrite !Hother; [|apply Forall_forall; intros c Hc; split; [rewrite Forall_forall in *; auto|]..].
  - rewrite app_nil_r. cbn [app]. rewrite at_parent_cons, decide_False; [done|]. apply push_seg_longer.
  - intros E. apply Hn2. rewrite <- E. by apply (list_elem_of_fmap_2 (fun c => c.1.1)).
  - intros E. apply (Hd c.1.1); [by apply (list_elem_of_fmap_2 (fun c => c.1.1))|]. rewrite E. left.
Qed.

(** Deleted array elements of old ids. *)
Definition dead_kid (c : Seg * NodeIn) : Prop := exists e a, c = (Elem e, NArr a false) /\ old e /\ e <> EID_HEAD /\ old (ae_left a).
(** [K] holds the records of [t] below [p], and otherwise dead elements. *)
Definition Kids (K : kids_map) (p : bytes) (t : jtree) : Prop :=
  forall x, exists dead, default [] (K !! (p ++ x)) ≡ₚ (entry_kid <$> at_parent (p ++ x) (jrecs p t)) ++ dead /\
    Forall dead_kid dead /\ NoDup dead.*1.

Lemma foldr_Forall {A} (P : A -> Prop) l : foldr (fun a Q => P a /\ Q) True l <-> Forall P l.
Proof. induction l as [|a l IH]; cbn; [split; [constructor|done]|]. rewrite Forall_cons. tauto. Qed.
Lemma foldr_Forall2 {A} (P Q : A -> Prop) l : foldr (fun a R => P a /\ Q a /\ R) True l <-> Forall (fun a => P a /\ Q a) l.
Proof. induction l as [|a l IH]; cbn; [split; [constructor|done]|]. rewrite Forall_cons. tauto. Qed.
Lemma keys_sorted_nodup {A} (m : list (bytes * A)) : keys_sorted m -> NoDup m.*1.
Proof.
  induction 1 as [|c m Hs IH Hc]; constructor; [|done]. intros Hin. rewrite Forall_forall in Hc.
  apply list_elem_of_fmap in Hin as (d & E & Hd). specialize (Hc d Hd). cbn in Hc. by rewrite E, bytes_cmp_refl in Hc.
Qed.
Lemma with_left_ids l (els : list (Eid * jtree)) : (fun x => x.1.2) <$> with_left l els = els.*1.
Proof. revert l. induction els as [|[e c] els IH]; intros l; [done|]. cbn. by rewrite IH. Qed.

Lemma items_ok t : tree_ok t -> Forall (fun c => seg_ok c.1.1 /\ tree_ok c.2) (items t) /\ NoDup ((fun c => c.1.1) <$> items t).
Proof.
  destruct t as [v|fs|els]; cbn [tree_ok items].
  - split; constructor.
  - intros [Hs H]. rewrite foldr_Forall2 in H. split.
    + apply Forall_fmap. eapply Forall_impl; [exact H|]. intros f [[_ Hk] Ht]. by split.
    + rewrite <- list_fmap_compose. change (NoDup ((Field ∘ fst) <$> fs)). rewrite list_fmap_compose. apply NoDup_fmap_2; [by intros ?? [=]|]. by apply keys_sorted_nodup.
  - intros (Hn & _ & H). rewrite foldr_Forall2 in H. split.
    + apply Forall_fmap. generalize EID_HEAD. induction H as [|[e c] els [He Hc] H IH]; intros l; constructor; [by split|].
      apply IH. by apply NoDup_cons in Hn as [_ ?].
    + rewrite <- list_fmap_compose. change (NoDup ((Elem ∘ (fun x : Eid * Eid * jtree => x.1.2)) <$> with_left EID_HEAD els)). rewrite list_fmap_compose, with_left_ids.
      apply NoDup_fmap_2; [by intros ?? [=]|done].
Qed.

Lemma Kids_own K p t : Kids K p t -> exists dead,
  default [] (K !! p) ≡ₚ ((fun b => (b.1.1, entry_node (p, b.1.1, b.1.2))) <$> items t) ++ dead /\ Forall dead_kid dead /\ NoDup dead.*1.
Proof.
  intros HK. destruct (HK []) as (dead & H & Hd). exists dead. rewrite app_nil_r, jrecs_blocks, at_parent_own, <- list_fmap_compose in H. by split.
Qed.
Lemma Kids_child K p t b : tree_ok t -> b ∈ items t -> Kids K p t -> Kids K (push_seg p b.1.1) b.2.
Proof.
  intros Ht Hb HK x. destruct (items_ok t Ht) as [Hs Hn]. destruct (HK (seg_bytes b.1.1 ++ x)) as (dead & H & Hd). exists dead.
  rewrite jrecs_blocks in H. rewrite app_assoc in H. fold (push_seg p b.1.1) in H. rewrite at_parent_block in H; [done| |done|done].
  eapply Forall_impl; [exact Hs|]. by intros ? [? _].
Qed.
Lemma Kids_fuel K p t b fuel : b ∈ items t -> Kids K p t -> recs_below K p < Z.of_nat (S fuel) -> recs_below K (push_seg p b.1.1) < Z.of_nat fuel.
Proof.
  intros Hb HK Hf. pose proof (recs_below_child K p b.1.1 (entry_node (p, b.1.1, b.1.2))) as H.
  assert (recs_below K (push_seg p b.1.1) < recs_below K p); [|lia]. apply H. destruct (Kids_own K p t HK) as (dead & -> & _). rewrite elem_of_app. left.
  by apply (list_elem_of_fmap_2 (fun b => (b.1.1, entry_node (p, b.1.1, b.1.2)))).
Qed.
Lemma items_new t : tree_new old t -> Forall (fun c => tree_new old c.2) (items t).
Proof.
  unfold tree_new. destruct t as [v|fs|els]; cbn [tree_ids items]; [constructor| |].
  - intros H. apply Forall_fmap. by apply foldr_Forall.
  - intros H. apply Forall_fmap. apply with_left_Forall. rewrite foldr_Forall2 in H. eapply Forall_impl; [exact H|]. by intros ? [_ ?].
Qed.

(** ** Rebuilding *)

Lemma scalar_round v : scalar v -> value_ok v -> scalar_value (jval_of v) = Ret v.
Proof using All.
  destruct v as [|b|n|s|a|m]; intros Hs Hv; try done; cbn [jval_of].
  - destruct (as_i64 n) as [i|] eqn:Ei; [cbn; by destruct (as_i64_exact n i Ei) as [_ ->]|].
    destruct (as_u64 n) as [u|] eqn:Eu; [cbn; by destruct (as_u64_exact n u Eu) as [_ ->]|].
    destruct (as_f64_exact n Ei Eu) as (f & -> & _ & Ef). cbn. by rewrite Ef.
  - cbn. by rewrite from_utf8_lossy_id.
Qed.

Lemma bt_update_last {V} k (f : option V -> V) m : Forall (fun e => bytes_cmp e.1 k = Lt) m -> bt_update bytes_cmp k f m = m ++ [(k, f None)].
Proof. induction 1 as [|[k' v] m Hk Hm IH]; [done|]. cbn in *. rewrite bytes_cmp_antisym, Hk. cbn. by rewrite IH. Qed.

Definition field_rec (p : bytes) (f : bytes * jtree) : bytes * JVal * list Dot := (f.1, tval f.2, dots (push_seg p (Field f.1))).
Lemma mat_fields_round rec p fs m idx :
  (forall f idx, f ∈ fs -> exists idx', rec (push_seg p (Field f.1)) (tval f.2) idx = Ret (value_of f.2, idx')) ->
  keys_sorted fs -> Forall (fun f => utf8_ok f.1 = true) fs -> Forall (fun e => Forall (fun f => bytes_cmp e.1 f.1 = Lt) fs) m ->
  exists idx', mat_fields rec p (field_rec p <$> fs) m idx = Ret (m ++ ((fun f => (f.1, value_of f.2)) <$> fs), idx').
Proof.
  revert m idx. induction fs as [|f fs IH]; intros m idx Hrec Hs Hu Hm; [exists idx; cbn; by rewrite app_nil_r|].
  apply StronglySorted_inv in Hs as [Hs Hf]. apply Forall_cons in Hu as [Hu Hus].
  cbn [fmap list_fmap mat_fields]. unfold field_rec at 1. cbn [fst snd].
  destruct (Hrec f (put_dots (push_seg p (Field f.1)) (dots (push_seg p (Field f.1))) idx)) as (idx1 & ->); [left|]. cbn [rust_bind].
  rewrite from_utf8_lossy_id, bt_update_last; [|eapply Forall_impl; [exact Hm|]; cbn; by intros e [? _]%Forall_cons|done].
  destruct (IH (m ++ [(f.1, value_of f.2)]) idx1) as (idx' & E); [intros; apply Hrec; by right|done|done| |].
  - apply Forall_app. split; [eapply Forall_impl; [exact Hm|]; cbn; by intros e [_ ?]%Forall_cons|]. by repeat constructor.
  - exists idx'. rewrite E. cbn. by rewrite <- app_assoc.
Qed.

Lemma mat_elems_live rec p by_eid ordered idx : mat_elems (Number := Number) rec p by_eid ordered idx = mat_elems rec p by_eid (filter is_live ordered) idx.
Proof.
  revert idx. induction ordered as [|[e []] ordered IH]; intros idx; [done| |].
  - rewrite filter_cons_True by done. cbn [mat_elems]. destruct (by_eid !! e); [|done]. destruct (rec _ _ _) as [[v i]|]; [|done]. cbn. by rewrite IH.
  - rewrite filter_cons_False by (unfold is_live; done). cbn [mat_elems]. apply IH.
Qed.

Lemma mat_elems_round rec p by_eid els idx :
  (forall e c, (e, c) ∈ els -> exists a, by_eid !! e = Some a /\ ae_val a = tval c) ->
  (forall e c idx, (e, c) ∈ els -> exists idx', rec (push_seg p (Elem e)) (tval c) idx = Ret (value_of c, idx')) ->
  exists idx', mat_elems rec p by_eid ((fun e => (e, true)) <$> els.*1) idx = Ret ((fun e => value_of e.2) <$> els, els.*1, idx').
Proof.
  revert idx. induction els as [|[e c] els IH]; intros idx Hby Hrec; [by exists idx|]. cbn [fmap list_fmap mat_elems fst snd].
  destruct (Hby e c) as (a & -> & ->); [left|]. destruct (Hrec e c idx) as (idx1 & ->); [left|]. cbn [rust_bind].
  destruct (IH idx1) as (idx' & ->); [intros; apply Hby; by right|intros; apply Hrec; by right|]. by exists idx'.
Qed.

#[local] Instance name_le_total : Total name_le.
Proof. intros a b. unfold name_le. rewrite (bytes_cmp_antisym a.1.1 b.1.1). destruct (bytes_cmp a.1.1 b.1.1); auto. Qed.
#[local] Instance name_le_trans : Transitive name_le.
Proof.
  intros a b c. unfold name_le. intros H1 H2. destruct (bytes_cmp a.1.1 b.1.1) eqn:E1; [|destruct (bytes_cmp b.1.1 c.1.1) eqn:E2|done].
  - apply bytes_cmp_eq in E1. by rewrite E1.
  - apply bytes_cmp_eq in E2. by rewrite <- E2, E1.
  - by rewrite (bytes_cmp_trans _ _ _ E1 E2).
  - done.
Qed.
Definition name_lt (a b : bytes * JVal * list Dot) : Prop := bytes_cmp a.1.1 b.1.1 = Lt.
#[local] Instance name_lt_irrefl : Irreflexive name_lt.
Proof. intros a. unfold complement, name_lt. by rewrite bytes_cmp_refl. Qed.
#[local] Instance name_lt_trans : Transitive name_lt.
Proof. intros a b c. apply bytes_cmp_trans. Qed.

Lemma name_sort_round l k : StronglySorted name_lt k -> l ≡ₚ k -> merge_sort name_le l = k.
Proof.
  intros Hk Hp. apply (sorted_ext name_lt); [|done|intros x; by rewrite merge_sort_Permutation, Hp].
  assert (Hn : NoDup ((fun x => x.1.1) <$> merge_sort name_le l)).
  { rewrite merge_sort_Permutation, Hp. clear -Hk. induction Hk as [|a k Hk IH Ha]; cbn; constructor; [|done].
    intros (b & E & Hb)%list_elem_of_fmap. rewrite Forall_forall in Ha. specialize (Ha b Hb). unfold name_lt in Ha. by rewrite E, bytes_cmp_refl in Ha. }
  pose proof (StronglySorted_merge_sort name_le l) as Hs. revert Hs Hn. generalize (merge_sort name_le l). clear. intros l Hs.
  induction Hs as [|a l Hs IH Ha]; intros Hn; constructor; cbn in Hn; apply NoDup_cons in Hn as [Hin Hn]; [by apply IH|].
  rewrite Forall_forall in Ha |- *. intros b Hb. specialize (Ha b Hb). unfold name_le in Ha. unfold name_lt.
  destruct (bytes_cmp a.1.1 b.1.1) eqn:E; [|done|done]. apply bytes_cmp_eq in E. exfalso. apply Hin. rewrite E.
  by apply (list_elem_of_fmap_2 (fun x => x.1.1)).
Qed.

Lemma omap_fmap_some {A B C} (f : B -> option C) (g : A -> B) (h : A -> C) (l : list A) : (forall a, f (g a) = Some (h a)) -> omap f (g <$> l) = h <$> l.
Proof. intros H. induction l as [|a l IH]; cbn; [done|]. by rewrite H, IH. Qed.

Lemma with_left_chain l els : (fun x : Eid * Eid * jtree => (x.1.2, x.1.1, true)) <$> with_left l els = chain l els.*1.
Proof. revert l. induction els as [|[e c] els IH]; intros l; [done|]. cbn. by rewrite IH. Qed.
Lemma with_left_elem l (els : list (Eid * jtree)) e c : (e, c) ∈ els -> exists l', (l', e, c) ∈ with_left l els.
Proof.
  revert l. induction els as [|[e' c'] els IH]; intros l; [by intros ?%not_elem_of_nil|]. intros [[= -> ->]|H]%elem_of_cons; [eexists; left|].
  destruct (IH e' H) as [l' Hl']. exists l'. by right.
Qed.

Lemma dead_fields dead : Forall dead_kid dead -> omap field_of dead = [].
Proof. induction 1 as [|c dead (e & a & -> & _) Hd IH]; [done|]. exact IH. Qed.
(** A dead element as the walk sees it. *)
Definition dead_elem (c : Seg * NodeIn) : Eid * ArrElem * bool :=
  match c with (Elem e, NArr a _) => (e, a, false) | _ => (EID_HEAD, mkArrElem EID_HEAD VNull, false) end.
Lemma dead_elems dead : Forall dead_kid dead -> omap elem_entry dead = dead_elem <$> dead.
Proof. induction 1 as [|c dead (e & a & -> & _) Hd IH]; [done|]. cbn. f_equal. exact IH. Qed.
Lemma dead_ids dead : Forall dead_kid dead -> NoDup dead.*1 -> NoDup ((fun c => (dead_elem c).1.1) <$> dead).
Proof.
  induction 1 as [|c dead (e & a & -> & _) Hd IH]; intros Hn; [constructor|]. cbn in *. apply NoDup_cons in Hn as [Hi Hn].
  constructor; [|by apply IH]. intros Hin. apply Hi. apply list_elem_of_fmap in Hin as (c & E & Hc). rewrite Forall_forall in Hd.
  destruct (Hd c Hc) as (e' & a' & -> & _). cbn in E. subst e'. by apply (list_elem_of_fmap_2' fst dead (Elem e, NArr a' false)).
Qed.

Section array.
Context (els : list (Eid * jtree)) (dead : list (Seg * NodeIn)) (elems : list (Eid * ArrElem * bool)).
Hypothesis (Hn : NoDup els.*1) (Hh : EID_HEAD ∉ els.*1) (Hnew : Forall (fun e => ~ old e) els.*1).
Hypothesis (Hd : Forall dead_kid dead) (Hdn : NoDup dead.*1).
Definition live_elem (x : Eid * Eid * jtree) : Eid * ArrElem * bool := (x.1.2, mkArrElem x.1.1 (tval x.2), true).
Hypothesis Hel : elems ≡ₚ (live_elem <$> with_left EID_HEAD els) ++ (dead_elem <$> dead).

Lemma array_ids : NoDup (els.*1 ++ ((fun c => (dead_elem c).1.1) <$> dead)) /\ EID_HEAD ∉ els.*1 ++ ((fun c => (dead_elem c).1.1) <$> dead).
Proof using All.
  assert (Hold : forall i, i ∈ (fun c => (dead_elem c).1.1) <$> dead -> old i /\ i <> EID_HEAD).
  { intros i (c & -> & Hc)%list_elem_of_fmap. rewrite Forall_forall in Hd. by destruct (Hd c Hc) as (e & a & -> & ? & ? & _). }
  split.
  - apply NoDup_app. split_and!; [done| |by apply dead_ids]. intros i Hi Hi'. rewrite Forall_forall in Hnew. apply (Hnew i Hi). by apply Hold.
  - intros [?|Hi]%elem_of_app; [done|]. by apply Hold in Hi as [_ ?].
Qed.
Lemma array_keys : (fun x => x.1.1) <$> elems ≡ₚ els.*1 ++ ((fun c => (dead_elem c).1.1) <$> dead).
Proof using All.
  rewrite Hel, fmap_app, <- !list_fmap_compose. f_equiv; [|done]. change ((fun x : Eid * Eid * jtree => x.1.2) <$> with_left EID_HEAD els ≡ₚ els.*1). by rewrite with_left_ids.
Qed.
Lemma array_order : filter is_live (rga_order ((fun '(e, elem, live) => (e, ae_left elem, live)) <$> elems)) = (fun e => (e, true)) <$> els.*1.
Proof using All.
  set (f := fun '(e, elem, live) => (e, ae_left elem, live)).
  assert (Hids : forall l : list (Eid * ArrElem * bool), elem_ids (f <$> l) = (fun x => x.1.1) <$> l).
  { intros l. unfold elem_ids. rewrite <- list_fmap_compose. apply list_fmap_ext. by intros ? [[? ?] ?] _. }
  destruct array_ids as [Hi1 Hi2].
  rewrite (rga_order_perm (f <$> elems) (chain EID_HEAD els.*1 ++ (f <$> (dead_elem <$> dead)))).
  - assert (Hdi : elem_ids (f <$> (dead_elem <$> dead)) = (fun c => (dead_elem c).1.1) <$> dead) by (by rewrite Hids, <- list_fmap_compose).
    apply rga_order_chain; rewrite ?Hdi; [done..|]. apply Forall_fmap, Forall_fmap. eapply Forall_impl; [exact Hd|].
    intros c (e & a & -> & _ & _ & Hl). cbn. split; [done|]. intros Hin. rewrite Forall_forall in Hnew. by apply (Hnew _ Hin).
  - rewrite Hids, array_keys. done.
  - rewrite Hel, fmap_app. f_equiv. rewrite <- list_fmap_compose. by rewrite <- with_left_chain.
Qed.
Lemma array_index e c : (e, c) ∈ els -> exists a, eid_index elems !! e = Some a /\ ae_val a = tval c.
Proof using All.
  intros Hin. destruct (with_left_elem EID_HEAD els e c Hin) as [l' Hl']. exists (mkArrElem l' (tval c)). split; [|done].
  apply (eid_index_nodup elems e _ true); [rewrite array_keys; apply array_ids|]. rewrite Hel, elem_of_app. left.
  by apply (list_elem_of_fmap_2 live_elem _ (l', e, c)).
Qed.
End array.

Lemma materialize_round t : forall fuel K p idx, tree_ok t -> tree_new old t -> Kids K p t -> recs_below K p < Z.of_nat fuel ->
  exists idx', materialize fuel K p (tval t) idx = Ret (value_of t, idx').
Proof using All.
  induction t as [t IH] using items_ind. intros fuel K p idx Ht Hnew HK Hf.
  destruct fuel as [|fuel]; [pose proof (recs_below_nonneg K p); lia|].
  assert (Hsub : forall b idx, b ∈ items t -> exists idx', materialize fuel K (push_seg p b.1.1) (tval b.2) idx = Ret (value_of b.2, idx')).
  { intros b i Hb. rewrite Forall_forall in IH. pose proof (items_new t Hnew) as Hn'. rewrite Forall_forall in Hn'.
    apply IH; [done| |by apply Hn'|by eapply Kids_child|by eapply Kids_fuel].
    destruct (items_ok t Ht) as [Hs _]. rewrite Forall_forall in Hs. by apply Hs. }
  destruct (Kids_own K p t HK) as (dead & Hown & Hdead & Hdn). destruct t as [v|fs|els].
  - destruct Ht as [Hs Hv]. pose proof (scalar_round v Hs Hv) as E. exists idx. unfold tval. cbn [value_of].
    cbn [materialize]. destruct (jval_of v) eqn:Ej; cbn in E; try done; cbn; by injection E as ->.
  - destruct Ht as [Hs Hok]. rewrite foldr_Forall2 in Hok. cbn [materialize tval value_of jval_of].
    assert (merge_sort name_le (omap field_of (default [] (K !! p))) = field_rec p <$> fs) as ->.
    { apply name_sort_round.
      - clear -Hs. induction Hs as [|f fs Hs IH Hf]; cbn; constructor; [done|]. apply Forall_fmap. eapply Forall_impl; [exact Hf|]. done.
      - rewrite Hown, omap_app, (dead_fields dead), app_nil_r by done. cbn [items]. rewrite <- list_fmap_compose. by rewrite (omap_fmap_some _ _ (field_rec p)). }
    destruct (mat_fields_round (materialize fuel K) p fs [] idx) as (idx' & ->); [|done| |constructor|by eexists].
    + intros f i Hf'. apply (Hsub (Field f.1, BMap (tval f.2), f.2)). cbn. by apply (list_elem_of_fmap_2 (fun f : bytes * jtree => (Field f.1, BMap (tval f.2), f.2))).
    + eapply Forall_impl; [exact Hok|]. by intros f [[? _] _].
  - destruct Ht as (Hn & Hh & Hok). cbn [materialize tval value_of jval_of]. set (elems := omap elem_entry (default [] (K !! p))).
    assert (Hel : elems ≡ₚ (live_elem <$> with_left EID_HEAD els) ++ (dead_elem <$> dead)).
    { unfold elems. rewrite Hown, omap_app, (dead_elems dead) by done. f_equiv. cbn [items]. rewrite <- list_fmap_compose. by rewrite (omap_fmap_some _ _ live_elem). }
    assert (Hne : Forall (fun e => ~ old e) els.*1).
    { unfold tree_new in Hnew. cbn [tree_ids] in Hnew. rewrite foldr_Forall2 in Hnew. apply Forall_fmap. eapply Forall_impl; [exact Hnew|]. by intros ? [? _]. }
    fold (eid_index elems). rewrite mat_elems_live, (array_order els dead elems) by done.
    destruct (mat_elems_round (materialize fuel K) p (eid_index elems) els idx) as (idx' & ->); [|intros e c i Hin|by eexists].
    + intros e c Hin. by apply (array_index els dead elems).
    + destruct (with_left_elem EID_HEAD els e c Hin) as [l' Hl'].
      apply (Hsub (Elem e, BArr (mkArrElem l' (tval c)), c)). cbn.
      by apply (list_elem_of_fmap_2 (fun x : Eid * Eid * jtree => (Elem x.1.2, BArr (mkArrElem x.1.1 (tval x.2)), x.2)) _ (l', e, c)).
Qed.

(** ** Documents *)

Lemma jrecs_paths t : forall p e, tree_ok t -> (exists segs, Forall seg_ok segs /\ p = encode_path segs) -> e ∈ jrecs p t ->
  seg_ok e.1.2 /\ exists segs, Forall seg_ok segs /\ e.1.1 = encode_path segs.
Proof.
  induction t as [t IH] using items_ind. intros p e Ht (segs & Hsegs & ->). rewrite jrecs_blocks. intros (b & Hb & He)%blocks_elem.
  destruct (items_ok t Ht) as [Hok _]. rewrite Forall_forall in Hok. destruct (Hok b Hb) as [Hs Htb]. destruct He as [->|He].
  - split; [done|]. by exists segs.
  - rewrite Forall_forall in IH. apply (IH b Hb (push_seg (encode_path segs) b.1.1)); [done| |done].
    exists (segs ++ [b.1.1]). split; [by apply Forall_app_2; [|constructor]|]. by rewrite encode_path_snoc.
Qed.

Lemma split_of_entry e : seg_ok e.1.2 -> (exists segs, Forall seg_ok segs /\ e.1.1 = encode_path segs) ->
  split_last (entry_path e) = Ret (Some (e.1.1, e.1.2)).
Proof. intros Hs (segs & Hsegs & E). unfold entry_path. rewrite E. by apply split_last_push. Qed.

Lemma entry_path_nonempty e : entry_path e <> [].
Proof. unfold entry_path, push_seg. intros E%(f_equal length). rewrite length_app in E. pose proof (seg_bytes_pos e.1.2). cbn in E. lia. Qed.

Lemma root_of_unique nodes r x : (forall n, n ∈ nodes -> n.1 = [] -> n.2 = x) -> (r = Some x \/ ([], x) ∈ nodes) -> root_of nodes r = Some x.
Proof.
  unfold root_of. revert r. induction nodes as [|[p n] nodes IH]; intros r Hu Hr; [destruct Hr as [->|H]; [done|by apply not_elem_of_nil in H]|].
  cbn [foldl fst snd]. apply IH; [intros; apply Hu; [by right|done]|]. destruct p as [|b p].
  - left. f_equal. apply (Hu ([], n)); [left|done].
  - destruct Hr as [->|Hr]; [by left|]. apply elem_of_cons in Hr as [?|Hr]; [done|by right].
Qed.

Definition entry_item (e : entry) : bytes * NodeIn := (entry_path e, entry_node e).
(** A dead element at any path. *)
Definition dead_item (n : bytes * NodeIn) : Prop :=
  exists segs e a, Forall seg_ok segs /\ eid_ok e /\ n = (push_seg (encode_path segs) (Elem e), NArr a false) /\ old e /\ e <> EID_HEAD /\ old (ae_left a).
Lemma dead_split n : dead_item n -> exists q c, split_last n.1 = Ret (Some (q, c.1)) /\ c.2 = n.2 /\ dead_kid c /\ n.1 = push_seg q c.1.
Proof.
  intros (segs & e & a & Hs & He & -> & Ho & Hh & Hl). exists (encode_path segs), (Elem e, NArr a false). cbn [fst snd].
  split_and!; [by apply split_last_push|done| |done]. by exists e, a.
Qed.

(** Grouped by parent. *)
Lemma kids_of_app ks ks' q : kids_of (ks ++ ks') q = kids_of ks q ++ kids_of ks' q.
Proof. unfold kids_of. by rewrite filter_app, fmap_app. Qed.
Lemma kids_of_entries es q : (forall e, e ∈ es -> split_last (entry_path e) = Ret (Some (e.1.1, e.1.2))) ->
  kids_of (omap split_of (entry_item <$> es)) q = entry_kid <$> at_parent q es.
Proof.
  induction es as [|e es IH]; intros H; [done|]. cbn [fmap list_fmap omap list_omap]. unfold split_of at 1. cbn [fst snd entry_item].
  rewrite H by left. unfold kids_of. rewrite filter_cons, at_parent_cons. cbn [fst].
  assert (kids_of (omap split_of (entry_item <$> es)) q = entry_kid <$> at_parent q es) as IH' by (apply IH; intros; apply H; by right).
  unfold kids_of in IH'. destruct (decide (e.1.1 = q)); cbn [fmap list_fmap]; [f_equal|]; exact IH'.
Qed.
Lemma kids_of_dead ds q : Forall dead_item ds -> NoDup ds.*1 -> Forall dead_kid (kids_of (omap split_of ds) q) /\ NoDup (kids_of (omap split_of ds) q).*1.
Proof.
  induction 1 as [|n ds Hn Hd IH]; intros Hnd; [by split; constructor|]. cbn in Hnd. apply NoDup_cons in Hnd as [Hni Hnd]. destruct (IH Hnd) as [H1 H2].
  destruct (dead_split n Hn) as (q' & c & E & Ec & Hk & Ep). cbn [omap list_omap].
  assert (split_of n = Some (q', (c.1, n.2))) as -> by (unfold split_of; by rewrite E). unfold kids_of. rewrite !filter_cons. cbn [fst].
  destruct (decide (q' = q)) as [->|]; [|by split]. cbn [fmap list_fmap snd]. split; [constructor; [|exact H1]|constructor; [|exact H2]].
  - rewrite <- Ec. by destruct c.
  - cbn [fst]. intros Hin. apply Hni. apply list_elem_of_fmap in Hin as (c2 & E2 & Hc2). apply list_elem_of_fmap in Hc2 as ([q2 c3] & -> & Hc3).
    apply list_elem_of_filter in Hc3 as [Hq Hc3]. cbn in Hq, E2. subst q2. apply list_elem_of_omap in Hc3 as (m & Hm & Em).
    rewrite Forall_forall in Hd. destruct (dead_split m (Hd m Hm)) as (q3 & c4 & E3 & _ & _ & Ep3). unfold split_of in Em. rewrite E3 in Em.
    injection Em as -> <-. cbn in E2. rewrite Ep, E2, <- Ep3. by apply list_elem_of_fmap_2.
Qed.

(** The records of a tree and its root, read in any order, among dead elements. *)
Lemma build_doc_tree nodes t ds : tree_ok t -> tree_new old t -> Forall dead_item ds -> NoDup ds.*1 ->
  nodes ≡ₚ ([], NMap (tval t) (dots [])) :: (entry_item <$> jrecs [] t) ++ ds ->
  exists idx, build_doc nodes = Ret (Some (mkDoc _ (value_of t) idx)).
Proof using All.
  intros Ht Hnew Hds Hdn Hp.
  assert (Hsplit : forall e, e ∈ jrecs [] t -> split_last (entry_path e) = Ret (Some (e.1.1, e.1.2))).
  { intros e He. destruct (jrecs_paths t [] e Ht) as [Hs Hsegs]; [by exists []|done|]. by apply split_of_entry. }
  destruct (collect_spec nodes ∅ None) as (K & E & HK & Hb).
  { rewrite Hp. constructor; [done|]. apply Forall_app. split; [apply Forall_fmap, Forall_forall; intros e He; unfold no_panic; cbn; by rewrite Hsplit|].
    eapply Forall_impl; [exact Hds|]. intros n Hn. destruct (dead_split n Hn) as (q & c & En & _). unfold no_panic. by rewrite En. }
  assert (Hroot : root_of nodes None = Some (NMap (tval t) (dots []))).
  { apply root_of_unique; [|right; rewrite Hp; left]. intros n. rewrite Hp. intros [->|[Hn|Hn]%elem_of_app]%elem_of_cons; [done| |].
    - apply list_elem_of_fmap in Hn as (e & -> & _). cbn. intros E0. by apply entry_path_nonempty in E0.
    - rewrite Forall_forall in Hds. destruct (dead_split n (Hds n Hn)) as (q & c & En & _). intros E0. by rewrite E0 in En. }
  assert (Hkids : Kids K [] t).
  { intros q. exists (kids_of (omap split_of ds) q). cbn [app]. split; [|by apply kids_of_dead]. rewrite HK, lookup_empty. cbn [from_option app].
    assert (Hom : omap split_of nodes ≡ₚ omap split_of (entry_item <$> jrecs [] t) ++ omap split_of ds).
    { rewrite Hp. cbn [omap list_omap]. unfold split_of at 1. cbn [fst]. change (split_last []) with (Ret (A := option (bytes * Seg)) None). cbn iota beta.
      by rewrite omap_app. }
    rewrite <- kids_of_entries, <- kids_of_app by done. unfold kids_of. by rewrite Hom. }
  destruct (materialize_round t (S (length nodes)) K [] (mkDocIndex {[ [] := dots [] ]} ∅)) as (idx & Em); [done|done|done| |].
  - change (recs_below ∅ []) with 0 in Hb. lia.
  - exists idx. unfold build_doc. rewrite E, Hroot. cbn [rust_bind]. by rewrite Em.
Qed.

(** A record as it is read back: live, a map entry with its dots. *)
Definition read_record (r : JsonRecord) : bytes * NodeIn :=
  match r with JMap p v => (p, NMap v (dots p)) | JArr p a => (p, NArr a true) end.
Lemma read_entry e : read_record (entry_rec e) = entry_item e.
Proof. destruct e as [[q s] [v|a]]; done. Qed.
End round.

(** [C29] Documents survive their decomposition: the records of a value - whatever
    increasing ids its array elements drew - read back in any
    order and with any dots build the value again. *)
Theorem build_decompose {Number : Type} `{!JsonNumber Number, !JsonNumberLaws Number} {St : Type}
    (fresh : St -> bytes -> nat -> Eid * St) (seen : St -> version) (room : nat -> St -> Prop) (dots : bytes -> list Dot) (v : Value Number) st nodes :
  fresh_increasing fresh seen room -> value_ok v -> room (slots v) st ->
  nodes ≡ₚ read_record dots <$> (decompose_with_paths fresh [] v st).1 ->
  exists idx, build_doc nodes = Ret (Some (mkDoc _ v idx)).
Proof.
  intros Hf Hv Hr Hp. destruct (decompose_tree fresh seen room Hf v [] st Hv 0%nat) as (t & st' & E & Et & Ht & _ & _ & Hnew); [by rewrite Nat.add_0_r|].
  rewrite <- Et. apply (build_doc_tree dots (drawn_by seen st) nodes t []); [done|by eapply between_new|constructor|constructor|].
  rewrite Hp, app_nil_r. unfold decompose_with_paths, decompose_into. change (encode_path []) with (@nil Z). rewrite E.
  cbn [fst fmap list_fmap read_record]. unfold tval. rewrite Et. f_equiv. rewrite <- list_fmap_compose.
  apply reflexive_eq, list_fmap_ext. intros i e _. apply read_entry.
Qed.

(** A clock that ticks; an object with an array of a number, a string and an
    object, its records read backwards. *)
Definition tick_eid (st : Z) (_ : bytes) (_ : nat) : Eid * Z := (mkEid (st + 1) 1, st + 1).
Definition tick_room (n : nat) (st : Z) : Prop := 0 <= st /\ st + Z.of_nat n < 2 ^ 64.
Definition sample : Value N64 :=
  Object [([97], Array [Num (PosInt 7 eq_refl); Str [104; 195; 169]; Object []]); ([98], Num (NegInt (-3) eq_refl))].

Lemma build_decompose_witness :
  exists idx, build_doc (rev (read_record (fun _ => [mkDot 9 1]) <$> (decompose_with_paths tick_eid [] sample 5).1)) = Ret (Some (mkDoc _ sample idx)).
Proof.
  apply (build_decompose tick_eid (fun st => (st, 1)) tick_room (fun _ => [mkDot 9 1]) sample 5).
  - intros n st p i [H0 H1]. cbn. split_and!; [split; unfold u64, u16, in_range; cbn; lia|intros [= H2]; lia| |apply ver_le_refl|split; lia].
    unfold ver_ltb, ver_cmp. cbn. rewrite (proj2 (Z.compare_lt_iff st (st + 1))) by lia. done.
  - cbn. unfold key_ok, slice_len_ok. cbn. split_and!; try done; repeat constructor.
  - cbn. split; lia.
  - symmetry. apply Permutation_rev.
Defined.
