(* ===== verification/JsonDoc.v ===== *)
(** * JSON documents in the store ([crates/marekvs-engine/src/cmd/json/])

    [path.rs] - static paths, their resolution against a document and the
    translation to record paths - and [doc.rs] - loading a document and the
    record writes every JSON command is made of.  JSONPath queries are the
    library's: a parameter that parses them and one that lists the matches.
    Fetching remote keys is not part of the handlers. *)

From Stdlib Require Import String.
From S2P Require Import Prelude Partition Hlc Envelope Ikey Counter Lattice Merge Store BTree Resp Reply Glob Server.
From S2P Require Import Generic Json.

(** ** Paths ([path.rs]) *)

Inductive LocElem := LKey (k : bytes) | LIndex (i : nat).
Definition Loc : Type := list LocElem.
Inductive StaticSeg := SKey (k : bytes) | SIndex (n : Z).
Inductive Dialect := Query | Legacy.

Record ParsedPath {Q : Type} := mkParsedPath { pp_dialect : Dialect; pp_query : option Q; static_segs : option (list StaticSeg) }.
Arguments ParsedPath : clear implicits.
Definition is_root {Q} (p : ParsedPath Q) : bool := match static_segs p with Some [] => true | _ => false end.

(** The bytes before the first that satisfies [stop], and the rest. *)
Fixpoint span (stop : Z -> bool) (b : bytes) : bytes * bytes :=
  match b with
  | [] => ([], [])
  | c :: r => if stop c then ([], b) else let '(name, rest) := span stop r in (c :: name, rest)
  end.
Definition name_stop (c : Z) : bool := (c =? 46) || (c =? 91).

(** The scanning loop on what is left of the path; [first] is [i == 0].  Every
    round consumes a byte. *)
Fixpoint parse_segs (fuel : nat) (first : bool) (b : bytes) : option (list StaticSeg) :=
  match b, fuel with
  | [], _ => Some []
  | _, O => None
  | c :: r, S fuel =>
      if c =? 46 then
        let '(name, rest) := span name_stop r in
        match name with [] => None | _ => cons (SKey name) <$> parse_segs fuel false rest end
      else if c =? 91 then
        match r with
        | [] => None
        | q :: r' =>
            if (q =? 34) || (q =? 39) then
              let '(name, rest) := span (Z.eqb q) r' in
              match rest with
              | _ :: close :: rest => if close =? 93 then cons (SKey name) <$> parse_segs fuel false rest else None
              | _ => None
              end
            else
              let '(num, rest) := span (Z.eqb 93) r in
              match rest with
              | [] => None
              | _ :: rest => match parse_i64 num with None => None | Some n => cons (SIndex n) <$> parse_segs fuel false rest end
              end
        end
      else if negb first then None
      else let '(name, rest) := span name_stop b in cons (SKey name) <$> parse_segs fuel false rest
  end.
Definition parse_static (s : bytes) : bytes + list StaticSeg :=
  if bool_decide (s = []) || bool_decide (s = [46]) then inr []
  else match parse_segs (length s) true s with
       | Some segs => inr segs
       | None => inl (str "ERR invalid path '" ++ s ++ [39])
       end.

(** [JsonPath::parse]: an error text or a query. *)
Definition parse_path {Q} (query_parse : bytes -> bytes + Q) (arg : bytes) : bytes + ParsedPath Q :=
  if negb (utf8_ok arg) then inl (str "ERR path is not valid UTF-8")
  else match arg with
  | 36 :: rest =>
      match query_parse arg with
      | inl e => inl (str "ERR invalid JSONPath: " ++ e)
      | inr q => inr (mkParsedPath _ Query (Some q) (match parse_static rest with inr segs => Some segs | inl _ => None end))
      end
  | _ => match parse_static arg with inl e => inl e | inr segs => inr (mkParsedPath _ Legacy None (Some segs)) end
  end.

Inductive StaticTarget := Exists (l : Loc) | NewKey (parent : Loc) (key : bytes) | Missing.

Definition norm_index (n : Z) (len : nat) : option nat :=
  let r := if n <? 0 then Z.of_nat len + n else n in
  if (0 <=? r) && (r <? Z.of_nat len) then Some (Z.to_nat r) else None.

Section paths.
Context {Number : Type}.
Abbreviation value := (Value Number).

Fixpoint resolve_from (cur : value) (loc : Loc) (segs : list StaticSeg) : StaticTarget :=
  match segs with
  | [] => Exists loc
  | SKey key :: segs =>
      match cur with
      | Object m =>
          match bt_get bytes_cmp key m with
          | Some v => resolve_from v (loc ++ [LKey key]) segs
          | None => match segs with [] => NewKey loc key | _ => Missing end
          end
      | _ => Missing
      end
  | SIndex n :: segs =>
      match cur with
      | Array a =>
          match norm_index n (length a) with
          | Some idx => match a !! idx with Some v => resolve_from v (loc ++ [LIndex idx]) segs | None => Missing end
          | None => Missing
          end
      | _ => Missing
      end
  end.
Definition resolve_static (doc : value) (segs : list StaticSeg) : StaticTarget := resolve_from doc [] segs.

(** [query_located(..).locations()] is a parameter. *)
Definition resolve_read {Q} (locations : Q -> value -> list Loc) (doc : value) (path : ParsedPath Q) : list Loc :=
  match pp_query path with
  | Some q => locations q doc
  | None =>
      match resolve_static doc (default [] (static_segs path)) with Exists loc => [loc] | _ => [] end
  end.

(** [value_at] of [mod.rs]. *)
Fixpoint value_at (cur : value) (loc : Loc) : option value :=
  match loc with
  | [] => Some cur
  | LKey k :: loc => match cur with Object m => bt_get bytes_cmp k m ≫= fun v => value_at v loc | _ => None end
  | LIndex i :: loc => match cur with Array a => a !! i ≫= fun v => value_at v loc | _ => None end
  end.
End paths.

Fixpoint record_path_from (path : bytes) (loc : Loc) (index : DocIndex) : option bytes :=
  match loc with
  | [] => Some path
  | LKey k :: loc => record_path_from (push_seg path (Field k)) loc index
  | LIndex i :: loc =>
      match arrays index !! path with
      | None => None
      | Some info => match ai_order info !! i with None => None | Some eid => record_path_from (push_seg path (Elem eid)) loc index end
      end
  end.
Definition loc_to_record_path (loc : Loc) (index : DocIndex) : option bytes := record_path_from [] loc index.
Definition array_info (loc : Loc) (index : DocIndex) : option (ArrInfo * bytes) :=
  match loc_to_record_path loc index with
  | None => None
  | Some path => (fun info => (info, path)) <$> arrays index !! path
  end.
Definition eid_at (info : ArrInfo) (idx : Z) : rust (option (Eid * Eid)) :=
  match norm_index idx (length (ai_order info)) with
  | None => Ret None
  | Some i =>
      match i, ai_order info !! i with
      | _, None => Panic
      | O, Some e => Ret (Some (e, EID_HEAD))
      | S j, Some e => match ai_order info !! j with Some l => Ret (Some (e, l)) | None => Panic end
      end
  end.

(** ** Loading and writing ([doc.rs]) *)

Section docs.
Context {DB : Type} `{!KV DB}.
Context (node_id : Z) (wall : nat -> Z).
Context {Number : Type} `{!JsonNumber Number}.
Abbreviation value := (Value Number).

(** The node a stored record contributes. *)
Definition node_of_record (del_hlc now : Z) (k v : bytes) : rust (option (bytes * NodeIn)) :=
  let! p := parse k in
  match p, Envelope_decode v with
  | Some p, Some (env, pay) =>
      if (hlc env <=? del_hlc) || is_expired env now then Ret None else
      let! segs := decode_path (pk_suffix p) in
      match segs ≫= last with
      | Some (Elem _) => Ret ((fun elem => (pk_suffix p, NArr elem (negb (is_tombstone env)))) <$> arr_decode pay)
      | _ =>
          if is_tombstone env then Ret None else
          let! st := ElementState_decode pay in
          Ret (match st with
               | None => None
               | Some st =>
                   match st_value st with
                   | None => None
                   | Some vb => (fun val => (pk_suffix p, NMap val (dots st))) <$> jval_decode vb
                   end
               end)
      end
  | _, _ => Ret None
  end.
Definition load_nodes (key : bytes) (del_hlc : Z) : M DB (list (bytes * NodeIn)) :=
  now ← now_ms wall;
  scan_prefix (collection_prefix TJson key) (fun nodes k v =>
    let! n := node_of_record del_hlc now k v in
    Ret (match n with Some n => nodes ++ [n] | None => nodes end, true)) [].

Definition load_doc (key : bytes) : M DB (option (Doc Number * Z)) :=
  h ← get_head key;
  match h with
  | None => mret None
  | Some (env, ctype, del) =>
      if is_tombstone env then mret None else
      now ← now_ms wall;
      if is_expired env now || negb (ctype =? CTYPE_JSON) then mret None else
      nodes ← load_nodes key del;
      d ← lift (build_doc nodes);
      mret ((fun d => (d, del)) <$> d)
  end.

Definition other_type_holds (key : bytes) : M DB bool :=
  t ← key_type wall key;
  mret (match t with None => false | Some t => negb (t =? CTYPE_JSON) end).

Definition fresh_tick (s : Shard DB) : Eid * Shard DB :=
  let '(w, t) := Hlc_now (hlc_word s) (wall (ticks s)) in
  (mkEid t node_id, mkShard (db s) w (pop_hints s) (S (ticks s))).
Definition fresh_eid : M DB Eid := fun s => Ret (fresh_tick s).

Definition write_map_node (key path : bytes) (val : JVal) (observed : list Dot) : M DB unit :=
  h ← hlc_now wall;
  _ ← write_merged (json_node_key key path) (element_set HashField h node_id (jval_encode val) observed); mret tt.
Definition remove_map_node (key path : bytes) (observed : list Dot) : M DB unit :=
  h ← hlc_now wall;
  _ ← write_merged (json_node_key key path) (element_remove HashField h node_id observed); mret tt.
Definition write_arr_node (key path : bytes) (elem : ArrElem) : M DB unit :=
  h ← hlc_now wall;
  _ ← write_merged (json_node_key key path) (encode_with (Envelope_new RList h node_id) (arr_encode elem)); mret tt.
Definition tomb_arr_node (key path : bytes) (elem : ArrElem) : M DB unit :=
  h ← hlc_now wall;
  _ ← write_merged (json_node_key key path) (encode_with (Envelope_tombstone RList h node_id) (arr_encode elem)); mret tt.

(** What the scan of [cover_descendants] collects: map entries and elements. *)
Definition covered_node : Type := bytes * list Dot + bytes * ArrElem.
Definition descendant (node_path : bytes) (del_hlc : Z) (k v : bytes) : rust (option covered_node) :=
  let! p := parse k in
  match p, Envelope_decode v with
  | Some p, Some (env, pay) =>
      if bytes_eqb (pk_suffix p) node_path || is_tombstone env || (hlc env <=? del_hlc) then Ret None else
      let! s := split_last (pk_suffix p) in
      match s with
      | Some (_, Elem _) => Ret ((fun elem => inr (pk_suffix p, elem)) <$> arr_decode pay)
      | _ => let! ds := element_dots pay in Ret (Some (inl (pk_suffix p, ds)))
      end
  | _, _ => Ret None
  end.
Fixpoint each {A} (f : A -> M DB unit) (l : list A) : M DB unit :=
  match l with [] => mret tt | x :: l => _ ← f x; each f l end.
Definition cover_descendants (key node_path : bytes) (del_hlc : Z) : M DB unit :=
  found ← scan_prefix (json_node_key key node_path) (fun acc k v =>
    let! n := descendant node_path del_hlc k v in
    Ret (match n with
         | Some (inl a) => (acc.1 ++ [a], acc.2)
         | Some (inr b) => (acc.1, acc.2 ++ [b])
         | None => acc
         end, true)) ([], []);
  _ ← each (fun '(path, ds) => remove_map_node key path ds) found.1;
  each (fun '(path, elem) => tomb_arr_node key path elem) found.2.

Definition stored_left (key node_path : bytes) : M DB Eid :=
  v ← get_raw (json_node_key key node_path);
  mret (match v ≫= Envelope_decode with
        | None => EID_HEAD
        | Some (_, pay) => match arr_decode pay with Some e => ae_left e | None => EID_HEAD end
        end).

Definition write_record (key : bytes) (rec : JsonRecord) : M DB unit :=
  match rec with
  | JMap path val => write_map_node key path val []
  | JArr path elem => write_arr_node key path elem
  end.
Definition write_children (key node_path : bytes) (v : value) : M DB unit :=
  recs ← (fun s => Ret (decompose_children_at node_path v fresh_tick s));
  each (write_record key) recs.

Definition is_elem_path (path : bytes) : M DB bool :=
  s ← lift (split_last path); mret (match s with Some (_, Elem _) => true | _ => false end).
Definition observed_dots (index : DocIndex) (path : bytes) : list Dot := default [] (map_dots index !! path).

Definition update_scalar_node (key node_path : bytes) (val : JVal) (index : DocIndex) : M DB unit :=
  e ← is_elem_path node_path;
  if (e : bool) then lft ← stored_left key node_path; write_arr_node key node_path (mkArrElem lft val)
  else write_map_node key node_path val (observed_dots index node_path).

Definition replace_subtree (key node_path : bytes) (v : value) (index : DocIndex) (del_hlc : Z) : M DB unit :=
  _ ← cover_descendants key node_path del_hlc;
  _ ← update_scalar_node key node_path (jval_of v) index;
  write_children key node_path v.

Definition delete_subtree (key node_path : bytes) (index : DocIndex) (del_hlc : Z) : M DB unit :=
  _ ← cover_descendants key node_path del_hlc;
  e ← is_elem_path node_path;
  if (e : bool) then lft ← stored_left key node_path; tomb_arr_node key node_path (mkArrElem lft VNull)
  else remove_map_node key node_path (observed_dots index node_path).
End docs.
