(* ===== verification/JsonCmd.v ===== *)
(** * JSON commands ([crates/marekvs-engine/src/cmd/json/mod.rs])

    The bodies the handlers run on the key's shard, on parsed arguments: JSON
    texts and JSONPath queries are parsed by libraries.  Serialization with its
    formatting options and the text of a number are parameters as well; of
    [FmtOpts] only its use is left, so JSON.GET takes the serializer. *)

From Stdlib Require Import String Floats.SpecFloat.
From S2P Require Import Prelude Partition Hlc Envelope Ikey Counter Lattice Merge Score F64 Store BTree Resp Reply Glob Server.
From S2P Require Import Generic Json JsonTree JsonDoc.

Definition ROOT_ONLY : Reply := RErr (str "ERR new objects must be created at the root").
Definition NOT_ARRAY : Reply := RErr (str "ERR path does not hold an array").
Definition NOT_STRING : Reply := RErr (str "ERR path does not hold a string").
Definition NO_SUCH_KEY : Reply := RErr (str "ERR no such key").

Definition or_null (o : option Reply) : Reply := default RNull o.
(** [results.into_iter().flatten().next()] *)
Fixpoint first_some {A} (l : list (option A)) : option A :=
  match l with [] => None | Some x :: _ => Some x | None :: l => first_some l end.
Definition shape (d : Dialect) (results : list (option Reply)) (legacy_missing : Reply) : Reply :=
  match d with
  | Query => RArray (map or_null results)
  | Legacy => default legacy_missing (first_some results)
  end.

Section commands.
Context {DB : Type} `{!KV DB}.
Context (node_id : Z) (wall : nat -> Z).
Context {Number : Type} `{!JsonNumber Number}.
Abbreviation value := (Value Number).
Abbreviation doc := (Doc Number).
(** Compiled queries and their matches; [serde_json::to_vec]; [Number]'s text
    and [PartialEq] of values. *)
Context {Q : Type} (locations : Q -> value -> list Loc).
Context (to_vec : value -> bytes) (num_text : Number -> bytes) (value_eqb : value -> value -> bool).
Abbreviation ppath := (ParsedPath Q).

Definition targets (d : doc) (pp : ppath) : list (Loc * bytes) :=
  omap (fun loc => (fun rp => (loc, rp)) <$> loc_to_record_path loc (doc_index d)) (resolve_read locations (doc_value d) pp).

Definition as_array (v : value) : option (list value) := match v with Array a => Some a | _ => None end.
Definition as_object (v : value) : option (list (bytes * value)) := match v with Object m => Some m | _ => None end.
Definition as_str (v : value) : option bytes := match v with Str s => Some s | _ => None end.
Definition as_bool (v : value) : option bool := match v with Bool b => Some b | _ => None end.
Definition is_null (v : value) : bool := match v with Null => true | _ => false end.

(** ** JSON.SET, JSON.MSET *)

Definition create_node (key path : bytes) (v : value) : M DB unit :=
  _ ← write_map_node node_id wall key path (jval_of v) [];
  write_children node_id wall key path v.

Definition set_in (key : bytes) (pp : ppath) (v : value) (nx xx : bool) : M DB Reply :=
  other ← other_type_holds wall key;
  if (other : bool) then mret wrongtype else
  loaded ← load_doc wall key;
  if is_root pp then
    if (bool_decide (is_Some loaded) && nx) || (negb (bool_decide (is_Some loaded)) && xx) then mret RNull else
    _ ← ensure_head node_id wall key CTYPE_JSON;
    _ ← match loaded with
        | Some (d, del) => replace_subtree node_id wall key [] v (doc_index d) del
        | None => create_node key [] v
        end;
    mret ok
  else
    match loaded with
    | None => mret ROOT_ONLY
    | Some (d, del) =>
        match targets d pp with
        | _ :: _ as matches =>
            if nx then mret RNull else
            _ ← each (fun '(_, rp) => replace_subtree node_id wall key rp v (doc_index d) del) matches;
            mret ok
        | [] =>
            match static_segs pp with
            | None => mret ROOT_ONLY
            | Some segs =>
                match resolve_static (doc_value d) segs with
                | NewKey parent fname =>
                    if xx then mret RNull else
                    match loc_to_record_path parent (doc_index d) with
                    | None => mret ROOT_ONLY
                    | Some rp => _ ← create_node key (push_seg rp (Field fname)) v; mret ok
                    end
                | _ => mret ROOT_ONLY
                end
            end
        end
    end.

(** The keys' shards are taken to be one. *)
Fixpoint mset (triplets : list (bytes * ppath * value)) : M DB Reply :=
  match triplets with
  | [] => mret ok
  | (key, pp, v) :: triplets =>
      r ← set_in key pp v false false;
      match r with RErr _ => mret r | _ => mset triplets end
  end.

(** ** JSON.GET, JSON.MGET, JSON.TYPE and the other reads *)

Definition eval_path (docv : value) (pp : ppath) : option value :=
  let locs := resolve_read locations docv pp in
  match pp_dialect pp with
  | Query => Some (Array (omap (value_at docv) locs))
  | Legacy => head locs ≫= value_at docv
  end.

(** [ser] is [ser_value] with the options of the command. *)
Definition get (ser : value -> bytes) (key : bytes) (paths : list (bytes * ppath)) : M DB Reply :=
  other ← other_type_holds wall key;
  if (other : bool) then mret wrongtype else
  loaded ← load_doc wall key;
  mret (match loaded with
        | None => RNull
        | Some (d, _) =>
            match paths with
            | [(_, pp)] => match eval_path (doc_value d) pp with Some v => RBulk (ser v) | None => RNull end
            | _ =>
                let obj := foldl (fun m '(orig, pp) =>
                  bt_update bytes_cmp (from_utf8_lossy orig) (fun _ => default Null (eval_path (doc_value d) pp)) m) [] paths in
                RBulk (ser (Object obj))
            end
        end).
Definition mget_one (key : bytes) (pp : ppath) : M DB Reply :=
  loaded ← load_doc wall key;
  mret (match loaded with
        | None => RNull
        | Some (d, _) => match eval_path (doc_value d) pp with Some v => RBulk (to_vec v) | None => RNull end
        end).
Fixpoint mget (keys : list bytes) (pp : ppath) : M DB (list Reply) :=
  match keys with [] => mret [] | k :: keys => r ← mget_one k pp; rs ← mget keys pp; mret (r :: rs) end.

(** A read of every match: [missing] when there is no document, [none] when a
    legacy path has no applicable match. *)
Definition read_each (key : bytes) (pp : ppath) (missing none : Reply) (f : doc -> Loc -> option Reply) : M DB Reply :=
  loaded ← load_doc wall key;
  mret (match loaded with
        | None => missing
        | Some (d, _) => shape (pp_dialect pp) (map (f d) (resolve_read locations (doc_value d) pp)) none
        end).
Definition at_loc (f : value -> option Reply) (d : doc) (loc : Loc) : option Reply := value_at (doc_value d) loc ≫= f.

Definition type_name (v : value) : bytes :=
  match v with
  | Null => str "null"
  | Bool _ => str "boolean"
  | Num n => if bool_decide (is_Some (as_i64 n)) || bool_decide (is_Some (as_u64 n)) then str "integer" else str "number"
  | Str _ => str "string"
  | Array _ => str "array"
  | Object _ => str "object"
  end.
Definition type_cmd (key : bytes) (pp : ppath) : M DB Reply :=
  read_each key pp RNull RNull (at_loc (fun v => Some (RBulk (type_name v)))).
Definition strlen (key : bytes) (pp : ppath) : M DB Reply :=
  read_each key pp RNull NOT_STRING (at_loc (fun v => (fun s => RInt (Z.of_nat (length s))) <$> as_str v)).
Definition arrlen (key : bytes) (pp : ppath) : M DB Reply :=
  read_each key pp RNull NOT_ARRAY (at_loc (fun v => (fun a => RInt (Z.of_nat (length a))) <$> as_array v)).
Definition objkeys (key : bytes) (pp : ppath) : M DB Reply :=
  read_each key pp RNull RNull (at_loc (fun v => (fun m => RArray (map RBulk m.*1)) <$> as_object v)).
Definition objlen (key : bytes) (pp : ppath) : M DB Reply :=
  read_each key pp RNull RNull (at_loc (fun v => (fun m => RInt (Z.of_nat (length m))) <$> as_object v)).

(** [for i in s..=e]: the first index that holds the needle. *)
Fixpoint find_from (needle : value) (i e : Z) (l : list value) : Z :=
  match l with
  | [] => -1
  | v :: l => if e <? i then -1 else if value_eqb v needle then i else find_from needle (i + 1) e l
  end.
Definition arrindex_in (needle : value) (start stop : Z) (arr : list value) : Z :=
  let len := Z.of_nat (length arr) in
  let s := if start <? 0 then Z.max (len + start) 0 else Z.min start len in
  let e := if stop <=? 0 then len + stop else Z.min stop (len - 1) in
  find_from needle s (Z.min e (len - 1)) (drop (Z.to_nat s) arr).
Definition arrindex (key : bytes) (pp : ppath) (needle : value) (start stop : Z) : M DB Reply :=
  read_each key pp NO_SUCH_KEY NOT_ARRAY (at_loc (fun v => (fun a => RInt (arrindex_in needle start stop a)) <$> as_array v)).

Fixpoint resp_of (v : value) : Reply :=
  match v with
  | Null => RNull
  | Bool b => RBulk (str (if b then "true" else "false"))
  | Num n => match as_i64 n with Some i => RInt i | None => RBulk (num_text n) end
  | Str s => RBulk s
  | Array a => RArray (RBulk (str "[") :: map resp_of a)
  | Object m => RArray (RBulk (str "{") :: flat_map (fun e => [RBulk e.1; resp_of e.2]) m)
  end.
Definition resp (key : bytes) (pp : ppath) : M DB Reply :=
  read_each key pp RNull RNull (at_loc (fun v => Some (resp_of v))).

Definition memory_at (key : bytes) (d : doc) (loc : Loc) : M DB (option Reply) :=
  match loc_to_record_path loc (doc_index d) with
  | None => mret None
  | Some rp =>
      n ← scan_prefix (json_node_key key rp) (fun n _ v => Ret (n + Z.of_nat (length v), true)) 0;
      h ← match rp with [] => get_raw (head_key key) | _ => mret None end;
      mret (Some (RInt (n + match h with Some h => Z.of_nat (length h) | None => 0 end)))
  end.
Fixpoint each_ret {A B} (f : A -> M DB B) (l : list A) : M DB (list B) :=
  match l with [] => mret [] | x :: l => r ← f x; rs ← each_ret f l; mret (r :: rs) end.
Definition debug_memory (key : bytes) (pp : ppath) : M DB Reply :=
  loaded ← load_doc wall key;
  match loaded with
  | None => mret (RInt 0)
  | Some (d, _) =>
      rs ← each_ret (memory_at key d) (resolve_read locations (doc_value d) pp);
      mret (shape (pp_dialect pp) rs (RInt 0))
  end.

(** ** Writes on matches *)

(** The prologue of the writing commands. *)
Definition on_doc (key : bytes) (missing : Reply) (f : doc -> Z -> M DB Reply) : M DB Reply :=
  other ← other_type_holds wall key;
  if (other : bool) then mret wrongtype else
  loaded ← load_doc wall key;
  match loaded with None => mret missing | Some (d, del) => f d del end.

Definition delete_match (key : bytes) (d : doc) (del_hlc : Z) (m : Loc * bytes) : M DB unit :=
  match m.1 with
  | [] => _ ← del_key node_id wall key; mret tt
  | _ => delete_subtree node_id wall key m.2 (doc_index d) del_hlc
  end.
Definition del (key : bytes) (pp : ppath) : M DB Reply :=
  on_doc key (RInt 0) (fun d del_hlc =>
    if is_root pp then b ← del_key node_id wall key; mret (RInt (if (b : bool) then 1 else 0)) else
    let matches := targets d pp in
    _ ← each (delete_match key d del_hlc) matches;
    mret (RInt (Z.of_nat (length matches)))).

(** [f * g] on doubles, [fract() == 0.0 && abs() < 9.0e15], [as i64]. *)
Definition f64_mul (a b : Z) : Z := f64_encode (SFmul 53 1024 (f64_decode a) (f64_decode b)).
Definition f64_finite (b : Z) : bool := wrap 63 b <? 0x7FF0000000000000.
Definition f64_small_int (b : Z) : option Z :=
  let v := f64_value b in
  if (v mod 2 ^ 1074 =? 0) && (Z.abs v <? 9000000000000000 * 2 ^ 1074) then Some (v / 2 ^ 1074) else None.
Definition num_apply (cur delta : value) (mult : bool) : option value :=
  match cur, delta with
  | Num a, Num b =>
      let exact :=
        match as_i64 a, as_i64 b with
        | Some x, Some y =>
            let r := if mult then x * y else x + y in
            if (- 2 ^ 63 <=? r) && (r <? 2 ^ 63) then Some (Num (of_i64 r)) else None
        | _, _ => None
        end in
      match exact with
      | Some v => Some v
      | None =>
          match as_f64 a, as_f64 b with
          | Some x, Some y =>
              let r := if mult then f64_mul x y else f64_add x y in
              if negb (f64_finite r) then None else
              match f64_small_int r with
              | Some i => Some (Num (of_i64 i))
              | None => Num <$> from_f64 r
              end
          | _, _ => None
          end
      end
  | _, _ => None
  end.

(** A scalar rewrite of every match. *)
Definition update_each {A} (key : bytes) (d : doc) (f : value -> option (A * JVal)) (m : Loc * bytes) : M DB (option A) :=
  match value_at (doc_value d) m.1 ≫= f with
  | None => mret None
  | Some (a, jv) => _ ← update_scalar_node node_id wall key m.2 jv (doc_index d); mret (Some a)
  end.
(** [to_vec] of the optional results of a query. *)
Definition json_list (l : list (option value)) : value := Array (map (default Null) l).
Definition numop (key : bytes) (pp : ppath) (delta : value) (mult : bool) : M DB Reply :=
  on_doc key NO_SUCH_KEY (fun d _ =>
    rs ← each_ret (update_each key d (fun cur => (fun v => (v, jval_of v)) <$> num_apply cur delta mult)) (targets d pp);
    mret (match pp_dialect pp with
          | Query => RBulk (to_vec (json_list rs))
          | Legacy => match first_some rs with Some v => RBulk (to_vec v) | None => RErr (str "ERR path is not a number") end
          end)).
Definition strappend (key : bytes) (pp : ppath) (suffix : bytes) : M DB Reply :=
  on_doc key NO_SUCH_KEY (fun d _ =>
    rs ← each_ret (update_each key d (fun v =>
      (fun s => let ns := s ++ suffix in (RInt (Z.of_nat (length ns)), VStr ns)) <$> as_str v)) (targets d pp);
    mret (shape (pp_dialect pp) rs NOT_STRING)).
Definition toggle (key : bytes) (pp : ppath) : M DB Reply :=
  on_doc key NO_SUCH_KEY (fun d _ =>
    rs ← each_ret (update_each key d (fun v => (fun b => (negb b, VBool (negb b))) <$> as_bool v)) (targets d pp);
    mret (match pp_dialect pp with
          | Query => RArray (map (fun o : option bool => match o with Some b => RInt (if b then 1 else 0) | None => RNull end) rs)
          | Legacy =>
              match first_some rs with
              | Some b => RBulk (str (if b then "true" else "false"))
              | None => RErr (str "ERR path does not hold a boolean")
              end
          end)).

(** New elements behind [left], each with its children. *)
Fixpoint insert_elems (key apath : bytes) (lft : Eid) (values : list value) : M DB unit :=
  match values with
  | [] => mret tt
  | v :: values =>
      e ← fresh_eid node_id wall;
      let ep := push_seg apath (Elem e) in
      _ ← write_arr_node node_id wall key ep (mkArrElem lft (jval_of v));
      _ ← write_children node_id wall key ep v;
      insert_elems key apath e values
  end.
Definition append_at (key : bytes) (d : doc) (values : list value) (m : Loc * bytes) : M DB (option Reply) :=
  match array_info m.1 (doc_index d) with
  | None => mret None
  | Some (info, apath) =>
      _ ← insert_elems key apath (default EID_HEAD (ai_last info)) values;
      mret (Some (RInt (Z.of_nat (length (ai_order info) + length values))))
  end.
Definition arrappend (key : bytes) (pp : ppath) (values : list value) : M DB Reply :=
  on_doc key NO_SUCH_KEY (fun d _ =>
    rs ← each_ret (append_at key d values) (targets d pp);
    mret (shape (pp_dialect pp) rs NOT_ARRAY)).

(** [inl] marks an index out of range. *)
Definition insert_at (key : bytes) (d : doc) (idx : Z) (values : list value) (m : Loc * bytes) : M DB (unit + option Reply) :=
  match array_info m.1 (doc_index d) with
  | None => mret (inr None)
  | Some (info, apath) =>
      let n := Z.of_nat (length (ai_order info)) in
      let pos := if idx <? 0 then n + idx else idx in
      if negb ((0 <=? pos) && (pos <=? n)) then mret (inl tt) else
      lft ← lift (if pos =? 0 then Ret EID_HEAD
                  else match ai_order info !! (Z.to_nat pos - 1)%nat with Some e => Ret e | None => Panic end);
      _ ← insert_elems key apath lft values;
      mret (inr (Some (RInt (n + Z.of_nat (length values)))))
  end.
Definition insert_result (r : unit + option Reply) : option Reply := match r with inl _ => None | inr o => o end.
Definition out_of_range (r : unit + option Reply) : bool := match r with inl _ => true | inr _ => false end.
Definition arrinsert (key : bytes) (pp : ppath) (idx : Z) (values : list value) : M DB Reply :=
  on_doc key NO_SUCH_KEY (fun d _ =>
    rs ← each_ret (insert_at key d idx values) (targets d pp);
    let results := map insert_result rs in
    mret (if existsb out_of_range rs && forallb (fun o : option Reply => negb (bool_decide (is_Some o))) results
          then RErr (str "ERR index out of range")
          else shape (pp_dialect pp) results NOT_ARRAY)).

Definition pop_at (key : bytes) (d : doc) (del_hlc idx : Z) (m : Loc * bytes) : M DB (option Reply) :=
  match value_at (doc_value d) m.1 ≫= as_array with
  | None | Some [] => mret None
  | Some arr =>
      let len := Z.of_nat (length arr) in
      let pos := Z.to_nat (if idx <? 0 then Z.max (len + idx) 0 else Z.min idx (len - 1)) in
      match array_info m.1 (doc_index d) with
      | None => mret None
      | Some (info, apath) =>
          match ai_order info !! pos with
          | None => mret None
          | Some eid =>
              v ← lift (match arr !! pos with Some v => Ret v | None => Panic end);
              _ ← delete_subtree node_id wall key (push_seg apath (Elem eid)) (doc_index d) del_hlc;
              mret (Some (RBulk (to_vec v)))
          end
      end
  end.
Definition arrpop (key : bytes) (pp : ppath) (idx : Z) : M DB Reply :=
  on_doc key NO_SUCH_KEY (fun d del_hlc =>
    rs ← each_ret (pop_at key d del_hlc idx) (targets d pp);
    mret (shape (pp_dialect pp) rs RNull)).

Fixpoint trim_loop (key apath : bytes) (d : doc) (del_hlc s e i kept : Z) (order : list Eid) : M DB Z :=
  match order with
  | [] => mret kept
  | eid :: order =>
      if (s <=? i) && (i <=? e) then trim_loop key apath d del_hlc s e (i + 1) (kept + 1) order else
      _ ← delete_subtree node_id wall key (push_seg apath (Elem eid)) (doc_index d) del_hlc;
      trim_loop key apath d del_hlc s e (i + 1) kept order
  end.
Definition trim_at (key : bytes) (d : doc) (del_hlc start stop : Z) (m : Loc * bytes) : M DB (option Reply) :=
  match array_info m.1 (doc_index d) with
  | None => mret None
  | Some (info, apath) =>
      let len := Z.of_nat (length (ai_order info)) in
      let s := if start <? 0 then Z.max (len + start) 0 else start in
      let e := if stop <? 0 then len + stop else Z.min stop (len - 1) in
      kept ← trim_loop key apath d del_hlc s e 0 0 (ai_order info);
      mret (Some (RInt kept))
  end.
Definition arrtrim (key : bytes) (pp : ppath) (start stop : Z) : M DB Reply :=
  on_doc key NO_SUCH_KEY (fun d del_hlc =>
    rs ← each_ret (trim_at key d del_hlc start stop) (targets d pp);
    mret (shape (pp_dialect pp) rs NOT_ARRAY)).

(** [n.as_f64() != Some(0.0)]: NaN never occurs. *)
Definition clear_at (key : bytes) (d : doc) (del_hlc : Z) (m : Loc * bytes) : M DB Z :=
  match value_at (doc_value d) m.1 with
  | Some (Object _) | Some (Array _) => _ ← cover_descendants node_id wall key m.2 del_hlc; mret 1
  | Some (Num n) =>
      if match as_f64 n with Some f => f64_eqb f 0 | None => false end then mret 0 else
      _ ← update_scalar_node node_id wall key m.2 (VInt 0) (doc_index d); mret 1
  | _ => mret 0
  end.
Definition clear (key : bytes) (pp : ppath) : M DB Reply :=
  on_doc key (RInt 0) (fun d del_hlc =>
    ns ← each_ret (clear_at key d del_hlc) (targets d pp);
    mret (RInt (foldr Z.add 0 ns))).

(** ** JSON.MERGE *)

Fixpoint strip_nulls (v : value) : value :=
  match v with
  | Object m => Object (omap (fun e => if is_null e.2 then None else Some (e.1, strip_nulls e.2)) m)
  | Array a => Array (map strip_nulls a)
  | other => other
  end.

Fixpoint apply_merge (key : bytes) (d : doc) (del_hlc : Z) (rp : bytes) (cur patch : value) {struct patch} : M DB unit :=
  match cur, patch with
  | Object curm, Object patchm =>
      (fix fields patchm : M DB unit :=
         match patchm with
         | [] => mret tt
         | (k, pv) :: patchm =>
             let crp := push_seg rp (Field k) in
             _ ← match bt_get bytes_cmp k curm, pv with
                 | Some _, Null => delete_subtree node_id wall key crp (doc_index d) del_hlc
                 | Some (Object _ as cv), Object _ => apply_merge key d del_hlc crp cv pv
                 | Some _, _ => replace_subtree node_id wall key crp (strip_nulls pv) (doc_index d) del_hlc
                 | None, Null => mret tt
                 | None, _ => create_node key crp (strip_nulls pv)
                 end;
             fields patchm
         end) patchm
  | _, _ => replace_subtree node_id wall key rp (strip_nulls patch) (doc_index d) del_hlc
  end.

Definition merge_match (key : bytes) (d : doc) (del_hlc : Z) (patch : value) (m : Loc * bytes) : M DB unit :=
  if is_null patch then delete_match key d del_hlc m
  else apply_merge key d del_hlc m.2 (default Null (value_at (doc_value d) m.1)) patch.
Definition merge (key : bytes) (pp : ppath) (patch : value) : M DB Reply :=
  other ← other_type_holds wall key;
  if (other : bool) then mret wrongtype else
  loaded ← load_doc wall key;
  match loaded with
  | None =>
      if is_root pp then
        if is_null patch then mret ok else
        _ ← ensure_head node_id wall key CTYPE_JSON;
        _ ← create_node key [] (strip_nulls patch); mret ok
      else mret ROOT_ONLY
  | Some (d, del_hlc) =>
      if is_root pp && is_null patch then _ ← del_key node_id wall key; mret ok else
      match targets d pp with
      | _ :: _ as matches => _ ← each (merge_match key d del_hlc patch) matches; mret ok
      | [] =>
          match static_segs pp with
          | None => mret ROOT_ONLY
          | Some segs =>
              match resolve_static (doc_value d) segs with
              | NewKey parent fname =>
                  if is_null patch then mret ok else
                  match loc_to_record_path parent (doc_index d) with
                  | None => mret ok
                  | Some rp => _ ← create_node key (push_seg rp (Field fname)) (strip_nulls patch); mret ok
                  end
              | _ => mret ROOT_ONLY
              end
          end
      end
  end.
End commands.

(** ** Paths and patches

    Static resolution points at values that exist or at one new key; and two
    places where the code departs from what its comments describe. *)

Section resolve.
Context {Number : Type}.

(** A path resolved to a location: the value is there.  Resolved to a new key:
    the parent is an object that does not have it. *)
Lemma resolve_from_spec segs : forall (doc cur : Value Number) loc, value_at doc loc = Some cur ->
  match resolve_from cur loc segs with
  | Exists l => is_Some (value_at doc l)
  | NewKey l k => exists m, value_at doc l = Some (Object m) /\ bt_get bytes_cmp k m = None
  | Missing => True
  end.
Proof.
  assert (Hsnoc : forall loc (doc : Value Number) e, value_at doc (loc ++ [e]) = value_at doc loc ≫= fun c => value_at c [e]).
  { induction loc as [|[k|i] loc IH]; intros doc e; [done|..]; destruct doc; cbn; try done; [destruct (bt_get _ _ _)|destruct (_ !! _)]; cbn; [apply IH|done|apply IH|done]. }
  induction segs as [|[k|n] segs IH]; intros doc cur loc E; cbn [resolve_from]; [by rewrite E| |]; destruct cur as [| | | |a|m]; try done.
  - destruct (bt_get bytes_cmp k m) as [v|] eqn:G.
    + apply IH. rewrite Hsnoc, E. cbn. by rewrite G.
    + destruct segs; [|done]. by exists m.
  - destruct (norm_index n (length a)) as [i|]; [|done]. destruct (a !! i) as [v|] eqn:G; [|done]. apply IH. rewrite Hsnoc, E. cbn. by rewrite G.
Qed.
Lemma resolve_static_spec (doc : Value Number) segs :
  match resolve_static doc segs with
  | Exists l => is_Some (value_at doc l)
  | NewKey l k => exists m, value_at doc l = Some (Object m) /\ bt_get bytes_cmp k m = None
  | Missing => True
  end.
Proof. by apply (resolve_from_spec segs doc doc []). Qed.
End resolve.

(** The wildcard of [$.*] is taken for a key named [*]: on an object without
    members, where the query has no match, JSON.SET would create that key. *)
Lemma wildcard_is_static_key : parse_static [46; 42] = inr [SKey [42]] /\ resolve_static (Object [] : Value N64) [SKey [42]] = NewKey [] [42].
Proof. by vm_compute. Qed.

(** Nulls are stripped from the objects inside an array as well; a merge patch
    takes an array as it is. *)
Lemma strip_nulls_inside_arrays : strip_nulls (Array [Object [([97], Null)]] : Value N64) = Array [Object []].
Proof. by vm_compute. Qed.
