(* ===== verification/JsonStore.v ===== *)
(** * JSON records in the store

    The records under a JSON key - observed-remove registers for map entries,
    last-writer-wins registers for array elements - what each shows, and what
    the writers of [doc.rs] do to them, up to covering a whole document. *)

From S2P Require Import Prelude Partition Hlc Envelope Varint Ikey Counter Lattice Merge MergeLaws Store ListLaws ListRefine GenericLaws ElemLaws.
From S2P Require Import BTree Generic Json JsonPath RgaLaws JsonTree JsonLaws JsonRound JsonDoc.

(** ** A write that covers what it replaces *)

Section set_record.
Context (rt : RecordType) (rt_or : is_or_element rt = true) (rt_plain : rt <> CounterField).

Definition set_rec (h n : Z) (v : bytes) (r : erec) : erec := mkErec rt (h, n) 0 (normalize (mkElement [(mkDot h n, v)] (dots (er_st r)))).

Lemma all_covered_dots st : element_wf st -> all_covered (dots st) = dots st.
Proof. intros W. apply (sorted_ext (key_gt dot_ver)); [apply all_covered_sorted|by apply dots_sorted|intros d; apply all_covered_elem]. Qed.
Lemma dots_few st : element_wf st -> (length (dots st) <= MAX_LIVE_DOTS)%nat.
Proof. intros W. unfold dots. rewrite length_fmap. apply W. Qed.

Lemma set_rec_state h n v st : element_wf st -> mkDot h n ∉ dots st ->
  normalize (mkElement [(mkDot h n, v)] (dots st)) = mkElement [(mkDot h n, v)] (dots st).
Proof.
  intros W N. rewrite normalize_unfold. cbn [live covered]. rewrite all_covered_dots by done. cbv zeta.
  rewrite (take_ge (dots st)) by (pose proof (dots_few st W); unfold MAX_LIVE_DOTS, MAX_TOMB_DOTS in *; lia).
  assert (survivors [(mkDot h n, v)] (dots st) = [(mkDot h n, v)]) as ->; [|done].
  apply (sorted_ext (key_gt live_key)); [apply survivors_sorted|by repeat constructor|]. intros e.
  assert (one_value [(mkDot h n, v)]) by (intros x a b; set_solver). rewrite survivors_elem by done. set_solver.
Qed.

Lemma dots_older w r d : own_ok rt w r -> d ∈ dots (er_st r) -> dot_hlc d <= w.
Proof. intros O (e & -> & He)%list_elem_of_fmap. pose proof (oo_live _ _ _ O) as L. rewrite Forall_forall in L. by apply L. Qed.

Lemma set_rec_ok w h n v r : own_ok rt w r -> w < h -> u64 h -> u16 n -> value_len_ok v -> erec_ok (set_rec h n v r).
Proof.
  intros O Lt Uh Un L. pose proof (oo_rec _ _ _ O) as [R1 R2 R3 R4 R5 R6 R7].
  assert (N : mkDot h n ∉ dots (er_st r)) by (intros I; apply (dots_older w r _ O) in I; cbn in I; lia).
  split; cbn [er_type er_ver er_ttl er_st set_rec fst snd]; try done; [apply normalize_wf|..]; rewrite set_rec_state by done; cbn [live covered].
  - constructor; [|constructor]. split; [by split|done].
  - rewrite Forall_forall. intros d (e & -> & He)%list_elem_of_fmap. rewrite Forall_forall in R6. by apply R6.
Qed.

Lemma normalize_set st h n v : element_wf st -> settled st -> mkDot h n ∉ dots st -> mkDot h n ∉ covered st ->
  Forall (fun e => ver_ltb (dot_ver e.1) (dot_ver (mkDot h n)) = true) (live st) ->
  live (normalize (mkElement (live st ++ [(mkDot h n, v)]) (covered st ++ dots st))) = [(mkDot h n, v)] /\
  forall c, c ∈ covered (normalize (mkElement (live st ++ [(mkDot h n, v)]) (covered st ++ dots st))) -> c ∈ covered st \/ c ∈ dots st.
Proof.
  intros W S N1 N2 F. split; [|intros c I%normalize_cov_incl; cbn [covered] in I; by apply elem_of_app in I].
  rewrite normalize_unfold. cbn [live covered]. rewrite covers_all by done. cbv zeta.
  set (cov := take MAX_TOMB_DOTS (dots st ++ covered st)).
  assert (survivors (live st ++ [(mkDot h n, v)]) cov = [(mkDot h n, v)]) as ->; [|done].
  apply (sorted_ext (key_gt live_key)); [apply survivors_sorted|by repeat constructor|].
  assert (O : one_value (live st ++ [(mkDot h n, v)])).
  { assert (So : StronglySorted (key_gt live_key) ((mkDot h n, v) :: live st)) by (constructor; [apply W|exact F]).
    pose proof (sorted_live_one_value _ So) as O. intros x a b Ha Hb. apply (O x); set_solver. }
  intros e. rewrite survivors_elem by done. rewrite elem_of_app, list_elem_of_singleton. split.
  - intros [[I| ->] Nc]; [|done]. exfalso. apply Nc. unfold cov. rewrite take_app_ge.
    + apply elem_of_app. left. by apply list_elem_of_fmap_2.
    + pose proof (dots_few st W). unfold MAX_LIVE_DOTS, MAX_TOMB_DOTS in *. lia.
  - intros ->. split; [by right|]. cbn. unfold cov. intros I. apply elem_of_take in I as (i & I & _). apply list_elem_of_lookup_2 in I. set_solver.
Qed.

Lemma join_set w r h n v : own_ok rt w r -> w < h -> u64 h -> u16 n -> value_len_ok v ->
  let j := erec_join r (set_rec h n v r) in
  own_ok rt h j /\ er_ver j = (h, n) /\ er_ttl j = 0 /\ st_value (er_st j) = Some v.
Proof.
  intros O Lt Uh Un L. pose proof (set_rec_ok w h n v r O Lt Uh Un L) as Oa. pose proof O as [R T C Li V S]. cbn zeta.
  destruct (newer_ver (er_ver r) (h, n)) as [N1 N2]; [cbn; lia|]. pose proof (eo_wf _ R) as W.
  assert (Nd : mkDot h n ∉ dots (er_st r)) by (intros I; apply (dots_older w r _ O) in I; cbn in I; lia).
  assert (Nc : mkDot h n ∉ covered (er_st r)) by (intros I; rewrite Forall_forall in V; apply V in I; cbn in I; lia).
  assert (F : Forall (fun e => ver_ltb (dot_ver e.1) (dot_ver (mkDot h n)) = true) (live (er_st r))).
  { eapply Forall_impl; [exact Li|]. intros e He. cbn in He. apply (newer_ver (dot_ver e.1) (dot_ver (mkDot h n))). cbn. lia. }
  assert (Es : er_st (erec_join r (set_rec h n v r)) = normalize (mkElement (live (er_st r) ++ [(mkDot h n, v)]) (covered (er_st r) ++ dots (er_st r)))).
  { unfold erec_join, join_elements. cbn [er_st er_type set_rec]. rewrite (join_type rt rt_or rt_plain w r O), bool_decide_false by done.
    by rewrite set_rec_state. }
  destruct (normalize_set (er_st r) h n v W S Nd Nc F) as [El Ec]. rewrite <- Es in El, Ec.
  split; [|split; [exact N2|split; [by unfold erec_join; cbn [er_ttl er_ver set_rec]; rewrite N1|unfold st_value; by rewrite El]]].
  assert (Cw : forall c, c ∈ covered (er_st (erec_join r (set_rec h n v r))) -> dot_hlc c <= w).
  { intros c [I|I]%Ec; [rewrite Forall_forall in V; by apply V|by apply (dots_older w r)]. }
  split; [by apply erec_join_ok| | | | |].
  - unfold erec_join. cbn [er_type set_rec]. by eapply join_type.
  - change (er_ver (erec_join r (set_rec h n v r))) with (ver_max (er_ver r) (h, n)). rewrite N2. cbn. lia.
  - rewrite El. constructor; [cbn; lia|constructor].
  - rewrite Forall_forall. intros c I%Cw. lia.
  - intros c e Hc He. rewrite El in He. apply list_elem_of_singleton in He. subst e. apply Cw in Hc.
    apply (newer_ver (dot_ver c) (dot_ver (mkDot h n))). cbn. lia.
Qed.
End set_record.

(** ** Records and what they show *)

Inductive srec := SMap (r : erec) | SArr (tomb : bool) (h n : Z) (a : ArrElem).
Definition arr_env (tomb : bool) (h n : Z) : Envelope := if tomb then Envelope_tombstone RList h n else Envelope_new RList h n.
Definition srec_bytes (x : srec) : bytes :=
  match x with SMap r => erec_bytes r | SArr tomb h n a => encode_with (arr_env tomb h n) (arr_encode a) end.

Definition map_path (p : bytes) : Prop := exists segs, Forall seg_ok segs /\ p = encode_path segs /\ forall e, last segs <> Some (Elem e).
Definition arr_path (w : Z) (p : bytes) : Prop :=
  exists segs e, Forall seg_ok segs /\ p = push_seg (encode_path segs) (Elem e) /\ eid_ok e /\ e <> EID_HEAD /\ eid_hlc e <= w.
Definition srec_ok (w : Z) (p : bytes) (x : srec) : Prop :=
  match x with
  | SMap r => own_ok HashField w r /\ er_ttl r = 0 /\ map_path p
  | SArr tomb h n a => u64 h /\ u16 n /\ h <= w /\ eid_ok (ae_left a) /\ jval_ok (ae_val a) /\ eid_hlc (ae_left a) <= w /\ arr_path w p
  end.
Definition view (del : Z) (x : srec) : option NodeIn :=
  match x with
  | SMap r =>
      if (er_ver r).1 <=? del then None
      else match st_value (er_st r) with Some vb => (fun v => NMap v (dots (er_st r))) <$> jval_decode vb | None => None end
  | SArr tomb h n a => if h <=? del then None else Some (NArr a (negb tomb))
  end.

Lemma arr_env_ok tomb h n : u64 h -> u16 n -> envelope_ok (arr_env tomb h n).
Proof. intros Uh Un. destruct tomb; (split; [by vm_compute|done|done|by vm_compute]). Qed.
Lemma arr_env_tomb tomb h n : is_tombstone (arr_env tomb h n) = tomb.
Proof. by destruct tomb. Qed.
Lemma arr_env_lww tomb h n : lww_type (rtype (arr_env tomb h n)) = true.
Proof. by destruct tomb. Qed.
Lemma map_decodes p : map_path p -> exists segs, decode_path p = Ret (Some segs) /\ (forall e, last segs <> Some (Elem e)) /\ p = encode_path segs /\ Forall seg_ok segs.
Proof. intros (segs & Hs & -> & Hl). exists segs. by rewrite decode_encode_path. Qed.
Lemma map_splits p : map_path p -> exists o, split_last p = Ret o /\ match o with Some (_, Elem _) => False | _ => True end.
Proof.
  intros (segs & Hs & -> & Hl). destruct segs as [|s segs _] using rev_ind; [by exists None|]. apply Forall_app in Hs as [Hs Hk].
  apply Forall_cons in Hk as [Hk _]. rewrite encode_path_snoc, split_last_push by done. eexists. split; [done|].
  destruct s as [f|e]; [done|]. apply (Hl e). by rewrite last_snoc.
Qed.

Section json.
Context {DB : Type} `{KVLaws DB}.
Context (key : bytes) (key_len : slice_len_ok key) (key_bytes : is_bytes key).
Context (node_id : Z) (wall : nat -> Z) (node_range : u16 node_id) (walls : forall n, 0 <= wall n < 2 ^ 47).

Abbreviation jkey := (json_node_key key).
Lemma parse_jkey p : parse (jkey p) = Ret (Some (mkParsedKey (pid_of key) (tag_u8 TJson) key p)).
Proof using All. by apply parse_prefixed. Qed.
Lemma jkey_inj p q : jkey p = jkey q -> p = q.
Proof. unfold json_node_key. rewrite !prefixed_split. intros E. by apply app_inv_head in E. Qed.
Lemma jkey_bytes p : is_bytes p -> is_bytes (jkey p).
Proof using All. intros Hp. by apply prefixed_is_bytes. Qed.

(** Every record under the key was written before [w]. *)
Record jwf (d : DB) (w : Z) : Prop := {
  jw_bytes : keys_are_bytes d;
  jw_rec : forall p b, kv_get d (jkey p) = Some b -> exists x, srec_ok w p x /\ b = srec_bytes x;
}.

Lemma srec_ok_mono w w' p x : w <= w' -> srec_ok w p x -> srec_ok w' p x.
Proof.
  intros Hw. destruct x as [r|tomb h n a]; cbn.
  - intros (O & T & P). split_and!; [by eapply own_ok_mono|done..].
  - intros (A1 & A2 & A3 & A4 & A5 & A6 & segs & e & P1 & P2 & P3 & P4 & P5). split_and!; try done; try lia. exists segs, e. split_and!; try done; lia.
Qed.

Lemma node_of_srec w p x del now : srec_ok w p x -> node_of_record del now (jkey p) (srec_bytes x) = Ret (pair p <$> view del x).
Proof using All.
  intros Hx. unfold node_of_record. rewrite parse_jkey. cbn [rust_bind pk_suffix]. destruct x as [r|tomb h n a]; cbn [srec_bytes view].
  - destruct Hx as (O & T & P). destruct (erec_decode r (oo_rec _ _ _ O)) as [D1 D2]. rewrite D1.
    change (hlc (erec_env r)) with (er_ver r).1. destruct ((er_ver r).1 <=? del); [done|]. cbn [orb].
    assert (is_expired (erec_env r) now = false) as ->. { unfold is_expired. change (ttl_deadline_ms (erec_env r)) with (er_ttl r). by rewrite T. }
    destruct (map_decodes p P) as (segs & -> & Hl & _). cbn [rust_bind]. change (Some segs ≫= last) with (last segs).
    assert (match last segs with Some (Elem _) => false | _ => true end = true) as Hm by (destruct (last segs) as [[f|e]|] eqn:El; [done|by destruct (Hl e)|done]).
    rewrite erec_env_tombstone, D2. unfold is_dead, st_value.
    destruct (last segs) as [[f|e]|]; [|done|].
    all: destruct (live (er_st r)) as [|[dt v] l] eqn:Elv; [done|].
    all: cbn; rewrite Elv; cbn.
    all: by destruct (jval_decode v).
  - destruct Hx as (Uh & Un & _ & Hl & Hv & _ & segs & e & Hs & -> & He & _). rewrite Envelope_decode_encode_with by (by apply arr_env_ok).
    assert (hlc (arr_env tomb h n) = h) as -> by (by destruct tomb). destruct (h <=? del); [done|]. cbn [orb].
    assert (is_expired (arr_env tomb h n) now = false) as -> by (by destruct tomb).
    rewrite <- encode_path_snoc, decode_encode_path by (apply Forall_app; split; [done|by apply Forall_singleton]). cbn [rust_bind].
    change (Some (segs ++ [Elem e]) ≫= last) with (last (segs ++ [Elem e])). rewrite last_snoc, arr_decode_encode by done. by rewrite arr_env_tomb.
Qed.

(** The node shown at a path. *)
Definition node_at (d : DB) (del : Z) (p : bytes) : option NodeIn :=
  match kv_get d (jkey p) with
  | None => None
  | Some b => match node_of_record del 0 (jkey p) b with Ret (Some (_, n)) => Some n | _ => None end
  end.
Lemma node_at_rec d w del p x : srec_ok w p x -> kv_get d (jkey p) = Some (srec_bytes x) -> node_at d del p = view del x.
Proof using All. intros Hx G. unfold node_at. rewrite G, (node_of_srec w) by done. by destruct (view del x). Qed.

(** *** Loading *)

Definition scan_node (del now : Z) (e : bytes * bytes) : option (bytes * NodeIn) :=
  match node_of_record del now e.1 e.2 with Ret o => o | Panic => None end.
Lemma scan_nodes_eq del now l acc : Forall (fun e => starts_with e.1 (jkey []) = true /\ node_of_record del now e.1 e.2 = Ret (scan_node del now e)) l ->
  scan_loop (jkey []) (fun nodes k v => let! n := node_of_record del now k v in
    Ret (match n with Some n => nodes ++ [n] | None => nodes end, true)) acc l = Ret (acc ++ omap (scan_node del now) l).
Proof.
  intros Hl. revert acc. induction Hl as [|[k v] l [Hk Hn] Hl IH]; intros acc; cbn [scan_loop]; [by rewrite app_nil_r|]. cbn [fst snd] in Hk, Hn.
  rewrite Hk. cbn [negb]. rewrite Hn. cbn [rust_bind fst snd]. rewrite IH. cbn [omap list_omap]. destruct (scan_node del now (k, v)); [|done].
  by rewrite <- app_assoc.
Qed.

Lemma jkey_prefix p : starts_with (jkey p) (jkey []) = true.
Proof. unfold json_node_key. rewrite (prefixed_split _ _ p). change (prefixed TJson key []) with (collection_prefix TJson key). apply starts_with_app. Qed.
Lemma jkey_under k : starts_with k (jkey []) = true -> exists p, k = jkey p.
Proof. intros [p ->]%starts_with_spec. exists p. unfold json_node_key. by rewrite (prefixed_split _ _ p). Qed.

Lemma load_nodes_eq w s del : jwf (db s) w -> exists nodes, load_nodes wall key del s = Ret (nodes, tick s) /\
  NoDup nodes.*1 /\ forall p n, (p, n) ∈ nodes <-> node_at (db s) del p = Some n.
Proof using All.
  intros [Wb Wr]. set (now := wall (ticks s)). set (l := with_prefix (db s) (jkey [])).
  assert (Hl : forall k v, (k, v) ∈ l -> exists p x, k = jkey p /\ v = srec_bytes x /\ srec_ok w p x /\ kv_get (db s) k = Some v).
  { intros k v Hin. apply with_prefix_spec in Hin as [G P]; [|done]. destruct (jkey_under k P) as [p ->]. destruct (Wr p v G) as (x & Hx & ->). by exists p, x. }
  assert (Hsn : forall p x, srec_ok w p x -> scan_node del now (jkey p, srec_bytes x) = pair p <$> view del x).
  { intros p x Hx. unfold scan_node. cbn [fst snd]. by rewrite (node_of_srec w). }
  exists (omap (scan_node del now) l). split_and!.
  - unfold load_nodes, mbind, M_bind, now_ms. cbn [rust_bind fst snd]. unfold scan_prefix, scan_from. cbn [db]. fold now.
    change (collection_prefix TJson key) with (jkey []). change (kv_range (db s) (jkey []) (prefix_upper_bound (jkey []))) with l.
    rewrite scan_nodes_eq; [done|]. apply Forall_forall. intros [k v] Hin. destruct (Hl k v Hin) as (p & x & -> & -> & Hx & _). cbn [fst snd].
    split; [apply jkey_prefix|]. by rewrite Hsn, (node_of_srec w).
  - assert (So : StronglySorted key_lt l) by apply kv_range_sorted.
    clear -So Hl Hsn. induction So as [|[k v] l So IH Hk]; [constructor|]. cbn [omap list_omap].
    destruct (Hl k v) as (p & x & -> & -> & Hx & _); [left|]. rewrite Hsn by done.
    assert (IH' : NoDup (omap (scan_node del now) l).*1) by (apply IH; intros; apply Hl; by right).
    destruct (view del x) as [n|]; cbn; [|done]. constructor; [|done]. intros (m & E & Hm)%list_elem_of_fmap.
    apply list_elem_of_omap in Hm as ([k' v'] & Hin & Hm). destruct (Hl k' v') as (p' & x' & -> & -> & Hx' & _); [by right|].
    rewrite Hsn in Hm by done. destruct (view del x') as [n'|]; [|done]. injection Hm as <-. cbn in E. subst p'.
    rewrite Forall_forall in Hk. specialize (Hk _ Hin). unfold key_lt in Hk. cbn [fst] in Hk. by rewrite bytes_cmp_refl in Hk.
  - intros p n. rewrite list_elem_of_omap. split.
    + intros ([k v] & Hin & E). destruct (Hl k v Hin) as (p' & x & -> & -> & Hx & G). rewrite Hsn in E by done.
      rewrite <- (node_at_rec (db s) w del p' x Hx G) in E. destruct (node_at (db s) del p') eqn:En; [|done]. cbn in E. injection E as <- <-. exact En.
    + intros E. unfold node_at in E. destruct (kv_get (db s) (jkey p)) as [b|] eqn:G; [|done]. destruct (Wr p b G) as (x & Hx & ->).
      rewrite (node_of_srec w) in E by done. exists (jkey p, srec_bytes x). split; [apply with_prefix_spec; [done|]; split; [done|apply jkey_prefix]|].
      rewrite Hsn by done. destruct (view del x); [|done]. by injection E as ->.
Qed.

(** *** Writing *)

(** Clock, room and records of a shard, with delete clock [del]. *)
Record jstate (n : nat) (del : Z) (s : Shard DB) : Prop := {
  js_wf : jwf (db s) (hlc_word s);
  js_room : room n s;
  js_del : del <= hlc_word s;
}.
(** One record written at [p], showing [o] afterwards. *)
Definition wrote (p : bytes) (o : option NodeIn) (del : Z) (s s' : Shard DB) : Prop :=
  hlc_word s < hlc_word s' /\ Store.frame (jkey p) (db s) (db s') /\ node_at (db s') del p = o.

Lemma node_at_frame p q del (d d' : DB) : Store.frame (jkey p) d d' -> q <> p -> node_at d' del q = node_at d del q.
Proof. intros F N. unfold node_at. rewrite F; [done|]. intros E. by apply jkey_inj in E. Qed.

(** Storing [x] at [p] keeps the records well-formed. *)
Lemma jwf_put d w d' w' p x : jwf d w -> w <= w' -> is_bytes p -> srec_ok w' p x -> kv_get d' (jkey p) = Some (srec_bytes x) ->
  Store.frame (jkey p) d d' -> jwf d' w'.
Proof using All.
  intros [Wb Wr] Hw Hp Hx G F. split.
  - intros k v Gk. destruct (decide (k = jkey p)) as [->|Ne]; [by apply jkey_bytes|]. rewrite F in Gk by done. by eapply Wb.
  - intros q b Gq. destruct (decide (q = p)) as [->|Ne].
    + rewrite G in Gq. injection Gq as <-. by exists x.
    + rewrite F in Gq by (intros E; by apply jkey_inj in E). destruct (Wr q b Gq) as (y & Hy & ->). exists y. split; [|done]. by eapply srec_ok_mono.
Qed.

(** A merged write of a map entry whose join with the stored one is [r]. *)
Lemma write_map_rec n del s p i r s1 h : jstate (S n) del s -> is_bytes p -> map_path p -> hlc_now wall s = Ret (h, s1) ->
  match kv_get (db s) (jkey p) with
  | None => i = r
  | Some b => exists r0, b = erec_bytes r0 /\ erec_ok r0 /\ erec_ok i /\ erec_join r0 i = r
  end -> own_ok HashField h r -> er_ttl r = 0 ->
  exists b s', write_merged (jkey p) (erec_bytes i) s1 = Ret (b, s') /\ jstate n del s' /\ wrote p (view del (SMap r)) del s s'.
Proof using All.
  intros [W R D] Pb Pm E J O T. destruct (hlc_now_eq wall walls s n R) as (h' & s1' & E' & L & U & Ew & Ed & Eh & R1).
  rewrite E in E'. injection E' as <- <-.
  destruct (write_merged_plain s1 (jkey p) _ (erec_bytes i) (erec_bytes r) (parse_jkey p)) as (b & d' & Wr & G & F); [done| |].
  { rewrite Ed. destruct (kv_get (db s) (jkey p)) as [b|]; [|by subst]. destruct J as (r0 & -> & O0 & Oi & <-).
    cbn [deliver_with]. rewrite (merged_at_plain _ _ _ _ (parse_jkey p)) by done. by apply merged_bytes_erec. }
  assert (Sx : srec_ok (hlc_word s1) p (SMap r)) by (rewrite Ew; by split_and!).
  exists b, (with_db s1 d'). split; [exact Wr|]. rewrite Ed in F. cbn [db hlc_word with_db]. split.
  - split; cbn [db hlc_word with_db]; [|done|lia]. eapply (jwf_put (db s)); [exact W| |exact Pb|exact Sx|exact G|exact F]. lia.
  - split; [cbn; lia|]. split; [done|]. by apply (node_at_rec d' (hlc_word s1)).
Qed.

(** What is stored at a map path. *)
Lemma map_rec d w p b : jwf d w -> map_path p -> kv_get d (jkey p) = Some b -> exists r, own_ok HashField w r /\ er_ttl r = 0 /\ b = erec_bytes r.
Proof using All.
  intros W (segs & Hs & -> & Hl) G. destruct (jw_rec d w W _ b G) as (x & Hx & ->). destruct x as [r|tomb h n a].
  - exists r. by destruct Hx as (? & ? & _).
  - destruct Hx as (_ & _ & _ & _ & _ & _ & segs' & e & Hs' & Ep & He & _). exfalso. rewrite <- encode_path_snoc in Ep.
    apply encode_path_inj in Ep; [|done|apply Forall_app; split; [done|by apply Forall_singleton]]. apply (Hl e). by rewrite Ep, last_snoc.
Qed.
Lemma arr_rec d w p b : jwf d w -> arr_path w p -> kv_get d (jkey p) = Some b -> exists tomb h n a, srec_ok w p (SArr tomb h n a) /\ b = srec_bytes (SArr tomb h n a).
Proof using All.
  intros W (segs & e & Hs & -> & He & _) G. destruct (jw_rec d w W _ b G) as (x & Hx & ->). destruct x as [r|tomb h n a]; [|by exists tomb, h, n, a].
  destruct Hx as (_ & _ & segs' & Hs' & Ep & Hl). exfalso. rewrite <- encode_path_snoc in Ep.
  apply encode_path_inj in Ep; [|apply Forall_app; split; [done|by apply Forall_singleton]|done]. apply (Hl e). by rewrite <- Ep, last_snoc.
Qed.

(** The dots stored at a path. *)
Definition stored_dots (d : DB) (p : bytes) (ds : list Dot) : Prop :=
  match kv_get d (jkey p) with None => ds = [] | Some b => forall r, b = erec_bytes r -> erec_ok r -> ds = dots (er_st r) end.

Lemma write_map_node_eq n del s p v observed : jstate (S n) del s -> is_bytes p -> map_path p -> jval_ok v -> value_len_ok (jval_encode v) ->
  observed = [] \/ stored_dots (db s) p observed ->
  exists s' ds, write_map_node node_id wall key p v observed s = Ret (tt, s') /\ jstate n del s' /\ wrote p (Some (NMap v ds)) del s s'.
Proof using All.
  intros S Pb Pm Hv Hl Ho. destruct (hlc_now_eq wall walls s n (js_room _ _ _ S)) as (h & s1 & E & L & U & Ew & Ed & _).
  assert (Hu0 : u64 0) by (by vm_compute).
  pose proof (add_rec_ok HashField eq_refl ltac:(done) h node_id (jval_encode v) 0 U node_range Hu0 Hl) as Oa.
  assert (X : exists i r, element_set HashField h node_id (jval_encode v) observed = erec_bytes i /\ match kv_get (db s) (jkey p) with
    | None => i = r | Some b => exists r0, b = erec_bytes r0 /\ erec_ok r0 /\ erec_ok i /\ erec_join r0 i = r end /\
    own_ok HashField h r /\ er_ver r = (h, node_id) /\ er_ttl r = 0 /\ st_value (er_st r) = Some (jval_encode v)).
  { unfold stored_dots in Ho. destruct (kv_get (db s) (jkey p)) as [b|] eqn:G.
    - destruct (map_rec (db s) (hlc_word s) p b (js_wf _ _ _ S) Pm G) as (r0 & O0 & T0 & ->). destruct Ho as [->|Ho].
      + destruct (join_add HashField eq_refl ltac:(done) (hlc_word s) r0 h node_id (jval_encode v) 0 O0 L U node_range Hu0 Hl) as (J1 & J2 & J3 & J4).
        eexists (add_rec HashField h node_id (jval_encode v) 0), _. split; [done|]. split; [|by split_and!; eauto].
        exists r0. split_and!; try done; [apply O0|apply Oa].
      + rewrite (Ho r0 eq_refl (oo_rec _ _ _ O0)).
        destruct (join_set HashField eq_refl ltac:(done) (hlc_word s) r0 h node_id (jval_encode v) O0 L U node_range Hl) as (J1 & J2 & J3 & J4).
        eexists (set_rec HashField h node_id (jval_encode v) r0), _. split; [|split; [|by split_and!; eauto]].
        * unfold element_set, erec_bytes, encode_element, set_rec. cbn [er_type er_ver er_ttl er_st]. by rewrite (normalize_id (normalize _)) by apply normalize_wf.
        * exists r0. split_and!; try done; [apply O0|]. by eapply set_rec_ok.
    - assert (observed = []) as -> by (by destruct Ho). exists (add_rec HashField h node_id (jval_encode v) 0), (add_rec HashField h node_id (jval_encode v) 0).
      by split_and!. }
  destruct X as (i & r & Ei & J & Or & Vr & Tr & Sr).
  destruct (write_map_rec n del s p i r s1 h S Pb Pm E J Or Tr) as (b & s' & Wr & S' & Wo).
  exists s', (dots (er_st r)). split; [|split; [done|]].
  - unfold write_map_node, mbind, M_bind. rewrite E. cbn [rust_bind fst snd]. rewrite Ei, Wr. done.
  - replace (view del (SMap r)) with (Some (NMap v (dots (er_st r)))) in Wo; [done|]. unfold view. rewrite Vr, Sr, jval_decode_encode by done. cbn [fst].
    rewrite (proj2 (Z.leb_gt h del)); [done|]. pose proof (js_del _ _ _ S). lia.
Qed.

Lemma remove_map_node_eq n del s p r : jstate (S n) del s -> is_bytes p -> map_path p ->
  kv_get (db s) (jkey p) = Some (erec_bytes r) -> own_ok HashField (hlc_word s) r ->
  exists s', remove_map_node node_id wall key p (dots (er_st r)) s = Ret (tt, s') /\ jstate n del s' /\ wrote p None del s s'.
Proof using All.
  intros S Pb Pm G O. destruct (hlc_now_eq wall walls s n (js_room _ _ _ S)) as (h & s1 & E & L & U & Ew & Ed & _).
  destruct (join_remove HashField eq_refl ltac:(done) (hlc_word s) r h node_id O L U node_range) as (J1 & J2 & J3 & J4).
  destruct (write_map_rec n del s p (rm_rec HashField h node_id r) (erec_join r (rm_rec HashField h node_id r)) s1 h S Pb Pm E) as (b & s' & Wr & S' & Wo).
  - rewrite G. exists r. split_and!; try done; [apply O|by eapply rm_rec_ok].
  - done.
  - done.
  - exists s'. split; [|split; [done|]].
    + unfold remove_map_node, mbind, M_bind. rewrite E. cbn [rust_bind fst snd]. rewrite rm_rec_bytes, Wr by done. done.
    + replace (view del _) with (@None NodeIn) in Wo; [done|]. unfold view, st_value. rewrite J2. by destruct (_ <=? _).
Qed.

(** An array element record, live or deleted. *)
Lemma write_arr_eq n del s p tomb a h s1 : jstate (S n) del s -> is_bytes p -> arr_path (hlc_word s) p ->
  eid_ok (ae_left a) -> jval_ok (ae_val a) -> eid_hlc (ae_left a) <= hlc_word s -> hlc_now wall s = Ret (h, s1) ->
  exists b s', write_merged (jkey p) (encode_with (arr_env tomb h node_id) (arr_encode a)) s1 = Ret (b, s') /\ jstate n del s' /\
    wrote p (Some (NArr a (negb tomb))) del s s'.
Proof using All.
  intros [W R D] Pb Pa Hl Hv Hle E. destruct (hlc_now_eq wall walls s n R) as (h' & s1' & E' & L & U & Ew & Ed & Eh & R1).
  rewrite E in E'. injection E' as <- <-.
  destruct (write_newer s1 (hlc_word s) (jkey p) _ (arr_env tomb h node_id, arr_encode a) (parse_jkey p)) as (b & d' & Wr & G & F); [done|done| | | | |].
  { intros v G. rewrite Ed in G. destruct (arr_rec (db s) (hlc_word s) p v W Pa G) as (tomb' & h' & n' & a' & (U1 & U2 & U3 & _) & ->).
    exists (arr_env tomb' h' n', arr_encode a'). split_and!; [by apply arr_env_ok|apply arr_env_lww|by destruct tomb'|done]. }
  { by apply arr_env_ok. } { apply arr_env_lww. } { by destruct tomb. }
  assert (Sx : srec_ok (hlc_word s1) p (SArr tomb h node_id a)).
  { destruct Pa as (segs & e & P1 & P2 & P3 & P4 & P5). rewrite Ew. split_and!; try done; try lia. exists segs, e. split_and!; try done; lia. }
  exists b, (with_db s1 d'). split; [exact Wr|]. rewrite Ed in F. cbn [db hlc_word with_db]. split.
  - split; cbn [db hlc_word with_db]; [|done|lia]. eapply (jwf_put (db s)); [exact W| |exact Pb|exact Sx|exact G|exact F]. lia.
  - split; [cbn; lia|]. split; [done|]. cbn [db with_db]. rewrite (node_at_rec d' (hlc_word s1) del p _ Sx G). unfold view.
    by rewrite (proj2 (Z.leb_gt h del)) by lia.
Qed.
Lemma write_arr_node_eq n del s p a : jstate (S n) del s -> is_bytes p -> arr_path (hlc_word s) p ->
  eid_ok (ae_left a) -> jval_ok (ae_val a) -> eid_hlc (ae_left a) <= hlc_word s ->
  exists s', write_arr_node node_id wall key p a s = Ret (tt, s') /\ jstate n del s' /\ wrote p (Some (NArr a true)) del s s'.
Proof using All.
  intros S Pb Pa Hl Hv Hle. destruct (hlc_now_eq wall walls s n (js_room _ _ _ S)) as (h & s1 & E & _).
  destruct (write_arr_eq n del s p false a h s1 S Pb Pa Hl Hv Hle E) as (b & s' & Wr & S' & Wo). exists s'. split; [|by split].
  unfold write_arr_node, mbind, M_bind. rewrite E. cbn [rust_bind fst snd]. change (Envelope_new RList h node_id) with (arr_env false h node_id). by rewrite Wr.
Qed.
Lemma tomb_arr_node_eq n del s p a : jstate (S n) del s -> is_bytes p -> arr_path (hlc_word s) p ->
  eid_ok (ae_left a) -> jval_ok (ae_val a) -> eid_hlc (ae_left a) <= hlc_word s ->
  exists s', tomb_arr_node node_id wall key p a s = Ret (tt, s') /\ jstate n del s' /\ wrote p (Some (NArr a false)) del s s'.
Proof using All.
  intros S Pb Pa Hl Hv Hle. destruct (hlc_now_eq wall walls s n (js_room _ _ _ S)) as (h & s1 & E & _).
  destruct (write_arr_eq n del s p true a h s1 S Pb Pa Hl Hv Hle E) as (b & s' & Wr & S' & Wo). exists s'. split; [|by split].
  unfold tomb_arr_node, mbind, M_bind. rewrite E. cbn [rust_bind fst snd]. change (Envelope_tombstone RList h node_id) with (arr_env true h node_id). by rewrite Wr.
Qed.
End json.

(** ** Covering the records below the root

    After [cover_descendants] at the root the document shows nothing but its
    root and deleted array elements. *)

Section cover.
Context {DB : Type} `{KVLaws DB}.
Context (key : bytes) (key_len : slice_len_ok key) (key_bytes : is_bytes key).
Context (node_id : Z) (wall : nat -> Z) (node_range : u16 node_id) (walls : forall n, 0 <= wall n < 2 ^ 47).
Abbreviation jkey := (json_node_key key).
Abbreviation jstate := (jstate key).
Abbreviation node_at := (node_at key).

(** *** One write per record *)

Lemma each_fmap {A B} (f : B -> M DB unit) (g : A -> B) l : each f (g <$> l) = each (fun a => f (g a)) l.
Proof. induction l as [|a l IH]; [done|]. cbn. by rewrite IH. Qed.

(** Writes at distinct paths: each leaves what it shows. *)
Lemma each_wrote {A} (f : A -> M DB unit) (path : A -> bytes) (pre : A -> Shard DB -> Prop) (post : A -> option NodeIn -> Prop) n del l s :
  (forall a n s, a ∈ l -> jstate (S n) del s -> pre a s -> exists s' o, f a s = Ret (tt, s') /\ jstate n del s' /\ wrote key (path a) o del s s' /\ post a o) ->
  (forall a s s', pre a s -> hlc_word s <= hlc_word s' -> kv_get (db s') (jkey (path a)) = kv_get (db s) (jkey (path a)) -> pre a s') ->
  NoDup (path <$> l) -> jstate (length l + n) del s -> Forall (fun a => pre a s) l ->
  exists s', each f l s = Ret (tt, s') /\ jstate n del s' /\ hlc_word s <= hlc_word s' /\
    Forall (fun a => post a (node_at (db s') del (path a))) l /\
    forall k, Forall (fun a => k <> jkey (path a)) l -> kv_get (db s') k = kv_get (db s) k.
Proof.
  intros Hf Hm. revert s. induction l as [|a l IH]; intros s Hn Hs Hp; [by exists s; split_and!|].
  apply NoDup_cons in Hn as [Hni Hn]. apply Forall_cons in Hp as [Ha Hp].
  destruct (Hf a (length l + n)%nat s) as (s1 & o & E1 & S1 & (L1 & F1 & N1) & P1); [left|done|done|].
  assert (Hne : forall b, b ∈ l -> jkey (path b) <> jkey (path a)).
  { intros b Hb Eq. apply jkey_inj in Eq. apply Hni. rewrite <- Eq. by apply list_elem_of_fmap_2. }
  destruct (IH (fun b m s' Hb => Hf b m s' ltac:(by right)) s1 Hn S1) as (s2 & E2 & S2 & L2 & P2 & F2).
  { rewrite Forall_forall in Hp |- *. intros b Hb. apply (Hm b s s1); [by apply Hp|lia|]. apply F1. by apply Hne. }
  exists s2. cbn [each]. unfold mbind, M_bind. rewrite E1. cbn [rust_bind fst snd]. split_and!; [done|done|lia| |].
  - constructor; [|done]. replace (node_at (db s2) del (path a)) with o; [done|]. rewrite <- N1. unfold node_at. rewrite F2; [done|].
    apply Forall_forall. intros b Hb Eq. by apply (Hne b Hb).
  - intros k [Hk Hl]%Forall_cons. rewrite F2 by done. by apply F1.
Qed.

(** *** What the scan finds *)

Definition found_at (del : Z) (p : bytes) (x : srec) : option covered_node :=
  if bool_decide (p = []) then None else
  match x with
  | SMap r => if is_dead (er_st r) || ((er_ver r).1 <=? del) then None else Some (inl (p, dots (er_st r)))
  | SArr tomb h n a => if tomb || (h <=? del) then None else Some (inr (p, a))
  end.
Lemma descendant_eq w p x del : srec_ok w p x -> descendant [] del (jkey p) (srec_bytes x) = Ret (found_at del p x).
Proof using All.
  intros Hx. unfold descendant. rewrite (parse_jkey key key_len key_bytes node_id wall node_range walls p). cbn [rust_bind pk_suffix]. unfold found_at.
  assert (bytes_eqb p [] = bool_decide (p = [])) as -> by (by destruct p).
  destruct x as [r|tomb h n a]; cbn [srec_bytes].
  - destruct Hx as (O & T & P). destruct (erec_decode r (oo_rec _ _ _ O)) as [D1 D2]. rewrite D1.
    change (hlc (erec_env r)) with (er_ver r).1. rewrite erec_env_tombstone. destruct (bool_decide (p = [])); [done|]. cbn [orb].
    destruct (is_dead (er_st r) || ((er_ver r).1 <=? del)); [done|]. destruct (map_splits p P) as (o & -> & Ho). cbn [rust_bind].
    unfold element_dots. rewrite D2. destruct o as [[q [f|e]]|]; done.
  - destruct Hx as (Uh & Un & _ & Hl & Hv & _ & segs & e & Hs & -> & He & _). rewrite Envelope_decode_encode_with by (by apply arr_env_ok).
    assert (hlc (arr_env tomb h n) = h) as -> by (by destruct tomb). rewrite arr_env_tomb. destruct (bool_decide _); [done|]. cbn [orb].
    destruct (tomb || (h <=? del)); [done|]. rewrite split_last_push by done. cbn [rust_bind]. by rewrite arr_decode_encode.
Qed.

Definition found_of (del : Z) (e : bytes * bytes) : option covered_node := match descendant [] del e.1 e.2 with Ret o => o | Panic => None end.
Definition in_map (c : covered_node) : option (bytes * list Dot) := match c with inl a => Some a | inr _ => None end.
Definition in_arr (c : covered_node) : option (bytes * ArrElem) := match c with inr a => Some a | inl _ => None end.
Lemma scan_found_eq del l acc : Forall (fun e => starts_with e.1 (jkey []) = true /\ descendant [] del e.1 e.2 = Ret (found_of del e)) l ->
  scan_loop (jkey []) (fun acc k v => let! n := descendant [] del k v in
    Ret (match n with Some (inl a) => (acc.1 ++ [a], acc.2) | Some (inr b) => (acc.1, acc.2 ++ [b]) | None => acc end, true)) acc l =
  Ret (acc.1 ++ omap (fun e => found_of del e ≫= in_map) l, acc.2 ++ omap (fun e => found_of del e ≫= in_arr) l).
Proof.
  intros Hl. revert acc. induction Hl as [|[k v] l [Hk Hn] Hl IH]; intros [ms as_]; cbn [scan_loop]; [by rewrite !app_nil_r|]. cbn [fst snd] in Hk, Hn.
  rewrite Hk. cbn [negb]. rewrite Hn. cbn [rust_bind fst snd]. rewrite IH. cbn [omap list_omap].
  destruct (found_of del (k, v)) as [[a|b]|]; cbn [mbind option_bind in_map in_arr fst snd]; by rewrite <- ?app_assoc.
Qed.

(** Distinct records contribute distinct paths. *)
Lemma omap_paths_nodup {X} (g : bytes * bytes -> option (bytes * X)) l : StronglySorted key_lt l ->
  (forall e y, e ∈ l -> g e = Some y -> e.1 = jkey y.1) -> NoDup (fst <$> omap g l).
Proof.
  induction 1 as [|e l So IH Hk]; intros Hg; [constructor|]. cbn [omap list_omap].
  assert (IH' : NoDup (fst <$> omap g l)) by (apply IH; intros; apply Hg; [by right|done]).
  destruct (g e) as [y|] eqn:Ey; [|done]. cbn. constructor; [|done]. intros (z & E & Hz)%list_elem_of_fmap.
  apply list_elem_of_omap in Hz as (e' & He' & Ez). pose proof (Hg e y ltac:(left) Ey) as E1. pose proof (Hg e' z ltac:(by right) Ez) as E2.
  rewrite Forall_forall in Hk. specialize (Hk _ He'). unfold key_lt in Hk. rewrite E1, E2, E, bytes_cmp_refl in Hk. done.
Qed.
Lemma found_lengths del l : (length (omap (fun e => found_of del e ≫= in_map) l) + length (omap (fun e => found_of del e ≫= in_arr) l) <= length l)%nat.
Proof. induction l as [|e l IH]; [done|]. cbn [omap list_omap]. destruct (found_of del e) as [[a|b]|]; cbn in *; lia. Qed.

(** What is left below the root: nothing, or a deleted element. *)
Definition gone (o : option NodeIn) : Prop := match o with None => True | Some (NArr _ live) => live = false | Some (NMap _ _) => False end.
Lemma found_gone w p x del : srec_ok w p x -> p <> [] -> found_at del p x = None -> gone (view del x).
Proof.
  intros Hx Hp. unfold found_at. rewrite bool_decide_false by done. destruct x as [r|tomb h n a]; cbn [view].
  - unfold is_dead, st_value. destruct (live (er_st r)); cbn [orb]; [by destruct (_ <=? _)|]. by destruct (_ <=? _).
  - destruct tomb; cbn [orb negb]; [by destruct (_ <=? _)|]. by destruct (h <=? del).
Qed.

(** The records below the root. *)
Abbreviation records d := (with_prefix d (jkey [])).

Definition found_maps (d : DB) (del : Z) : list (bytes * list Dot) := omap (fun e => found_of del e ≫= in_map) (records d).
Definition found_arrs (d : DB) (del : Z) : list (bytes * ArrElem) := omap (fun e => found_of del e ≫= in_arr) (records d).

Section found.
Context (d : DB) (w del : Z) (W : jwf key d w).
Lemma records_elem k v : (k, v) ∈ records d <-> exists p x, k = jkey p /\ v = srec_bytes x /\ srec_ok w p x /\ kv_get d k = Some v.
Proof using All.
  destruct W as [Wb Wr]. rewrite with_prefix_spec by done. split.
  - intros [G P]. destruct (jkey_under key k P) as [p ->]. destruct (Wr p v G) as (x & Hx & ->). by exists p, x.
  - intros (p & x & -> & -> & _ & G). split; [done|apply jkey_prefix].
Qed.
Lemma found_of_eq p x : srec_ok w p x -> found_of del (jkey p, srec_bytes x) = found_at del p x.
Proof using All. intros Hx. unfold found_of. cbn [fst snd]. by rewrite (descendant_eq w). Qed.

Lemma scan_found s0 : db s0 = d -> scan_prefix (jkey []) (fun acc k v =>
    let! n := descendant [] del k v in
    Ret (match n with Some (inl a) => (acc.1 ++ [a], acc.2) | Some (inr b) => (acc.1, acc.2 ++ [b]) | None => acc end, true)) ([], []) s0 =
  Ret ((found_maps d del, found_arrs d del), s0).
Proof using All.
  intros E0. unfold scan_prefix, scan_from. rewrite E0. change (kv_range d (jkey []) (prefix_upper_bound (jkey []))) with (records d).
  rewrite scan_found_eq; [done|]. apply Forall_forall. intros [k v] (p & x & -> & -> & Hx & _)%records_elem. cbn [fst snd].
  split; [apply jkey_prefix|]. by rewrite found_of_eq, (descendant_eq w).
Qed.

Lemma found_maps_elem p ds : (p, ds) ∈ found_maps d del <-> exists r, srec_ok w p (SMap r) /\ kv_get d (jkey p) = Some (erec_bytes r) /\
  found_at del p (SMap r) = Some (inl (p, ds)) /\ ds = dots (er_st r) /\ p <> [].
Proof using All.
  unfold found_maps. rewrite list_elem_of_omap. split.
  - intros ([k v] & (q & x & -> & -> & Hx & G)%records_elem & E). rewrite found_of_eq in E by done.
    unfold found_at in *. destruct (bool_decide_reflect (q = [])) as [|Hq]; [done|]. destruct x as [r|tomb h m a]; [|by destruct (_ || _)].
    destruct (_ || _) eqn:Eo; [done|]. injection E as -> <-. exists r. rewrite bool_decide_false, Eo by done. by split_and!.
  - intros (r & Hx & G & E & _). exists (jkey p, erec_bytes r). split; [apply records_elem; by exists p, (SMap r)|].
    change (erec_bytes r) with (srec_bytes (SMap r)). by rewrite found_of_eq, E.
Qed.
Lemma found_arrs_elem p a : (p, a) ∈ found_arrs d del <-> exists h m, srec_ok w p (SArr false h m a) /\ kv_get d (jkey p) = Some (srec_bytes (SArr false h m a)) /\
  found_at del p (SArr false h m a) = Some (inr (p, a)) /\ p <> [].
Proof using All.
  unfold found_arrs. rewrite list_elem_of_omap. split.
  - intros ([k v] & (q & x & -> & -> & Hx & G)%records_elem & E). rewrite found_of_eq in E by done.
    unfold found_at in *. destruct (bool_decide_reflect (q = [])) as [|Hq]; [done|]. destruct x as [r|tomb h m a']; [by destruct (_ || _)|].
    destruct tomb; [done|]. cbn [orb] in E. destruct (h <=? del) eqn:Eo; [done|]. injection E as -> ->. exists h, m. rewrite bool_decide_false by done. cbn [orb]. by rewrite Eo.
  - intros (h & m & Hx & G & E & _). exists (jkey p, srec_bytes (SArr false h m a)). split; [apply records_elem; by exists p, (SArr false h m a)|].
    by rewrite found_of_eq, E.
Qed.
Lemma found_maps_nodup : NoDup (fst <$> found_maps d del).
Proof using All.
  apply omap_paths_nodup; [apply kv_range_sorted|]. intros [k v] [p ds] (q & x & -> & -> & Hx & G)%records_elem E. rewrite found_of_eq in E by done.
  unfold found_at in E. destruct (bool_decide _); [done|]. destruct x; destruct (_ || _); try done. by injection E as ->.
Qed.
Lemma found_arrs_nodup : NoDup (fst <$> found_arrs d del).
Proof using All.
  apply omap_paths_nodup; [apply kv_range_sorted|]. intros [k v] [p ds] (q & x & -> & -> & Hx & G)%records_elem E. rewrite found_of_eq in E by done.
  unfold found_at in E. destruct (bool_decide _); [done|]. destruct x; destruct (_ || _); try done. by injection E as ->.
Qed.
(** Whatever the scan does not find is gone already. *)
Lemma not_found_gone p : p <> [] -> (forall ds, (p, ds) ∉ found_maps d del) -> (forall a, (p, a) ∉ found_arrs d del) -> gone (node_at d del p).
Proof using All.
  intros Hp Hm Ha. destruct (kv_get d (jkey p)) as [b|] eqn:G; [|unfold node_at; by rewrite G].
  destruct (jw_rec _ _ _ W p b G) as (x & Hx & ->). rewrite (node_at_rec key key_len key_bytes node_id wall node_range walls d w del p x Hx G).
  apply (found_gone w p); [done|done|]. destruct (found_at del p x) as [c|] eqn:E; [|done]. exfalso.
  pose proof E as E0. unfold found_at in E. rewrite bool_decide_false in E by done. destruct x as [r|tomb h m a].
  - destruct (_ || _); [done|]. injection E as <-. apply (Hm (dots (er_st r))), found_maps_elem. by exists r.
  - destruct tomb; [done|]. destruct (_ || _); [done|]. injection E as <-. apply (Ha a), found_arrs_elem. by exists h, m.
Qed.
End found.

Lemma path_bytes d p b : keys_are_bytes d -> kv_get d (jkey p) = Some b -> is_bytes p.
Proof. intros Wb G. apply Wb in G. unfold json_node_key in G. rewrite prefixed_split in G. by apply is_bytes_app in G as [_ ?]. Qed.

(** *** Removing the map entries, then the elements *)

Definition map_pre (a : bytes * list Dot) (s : Shard DB) : Prop := is_bytes a.1 /\ map_path a.1 /\
  exists r, kv_get (db s) (jkey a.1) = Some (erec_bytes r) /\ own_ok HashField (hlc_word s) r /\ a.2 = dots (er_st r).
Definition arr_pre (a : bytes * ArrElem) (s : Shard DB) : Prop := is_bytes a.1 /\ arr_path (hlc_word s) a.1 /\
  eid_ok (ae_left a.2) /\ jval_ok (ae_val a.2) /\ eid_hlc (ae_left a.2) <= hlc_word s.
Lemma arr_path_mono w w' p : w <= w' -> arr_path w p -> arr_path w' p.
Proof. intros L (segs & e & H1 & H2 & H3 & H4 & H5). exists segs, e. split_and!; try done. lia. Qed.

Lemma cover_root_eq n del s : jstate (length (records (db s)) + n) del s ->
  exists s', cover_descendants node_id wall key [] del s = Ret (tt, s') /\ jstate n del s' /\ hlc_word s <= hlc_word s' /\
    (forall p, p <> [] -> gone (node_at (db s') del p)) /\
    forall k, (forall p, p <> [] -> k <> jkey p) -> kv_get (db s') k = kv_get (db s) k.
Proof using All.
  intros S. pose proof (js_wf _ _ _ _ S) as W. pose proof (jw_bytes _ _ _ W) as Wb.
  set (ms := found_maps (db s) del). set (rs := found_arrs (db s) del).
  assert (Hroom : jstate (length ms + (length rs + n)) del s).
  { destruct S as [S1 S2 S3]. split; [done| |done]. destruct S2 as (R1 & R2 & R3). pose proof (found_lengths del (records (db s))) as L.
    fold ms rs in L. unfold found_maps, found_arrs in ms, rs. fold ms rs in L. split_and!; lia. }
  destruct (each_wrote (fun '(path, ds) => remove_map_node node_id wall key path ds) fst map_pre (fun _ o => o = None) (length rs + n) del ms s) as (s1 & E1 & S1 & L1 & P1 & F1).
  { intros [p ds] m s0 _ S0 (Pb & Pm & r & G & O & Ed). cbn [fst snd] in *. subst ds.
    destruct (remove_map_node_eq key key_len key_bytes node_id wall node_range walls m del s0 p r S0 Pb Pm G O) as (s' & E & S' & Wo). by exists s', None. }
  { intros [p ds] s0 s0' (Pb & Pm & r & G & O & Ed) L F. split_and!; try done. exists r. cbn [fst snd] in *. rewrite F. split_and!; try done. by eapply own_ok_mono. }
  { by apply (found_maps_nodup _ (hlc_word s)). }
  { done. }
  { apply Forall_forall. intros [p ds] Hin. apply (found_maps_elem _ (hlc_word s)) in Hin as (r & (O & T & P) & G & _ & -> & _); [|done].
    split_and!; [by eapply path_bytes|done|]. by exists r. }
  destruct (each_wrote (fun '(path, elem) => tomb_arr_node node_id wall key path elem) fst arr_pre (fun a o => o = Some (NArr a.2 false)) n del rs s1) as (s2 & E2 & S2 & L2 & P2 & F2).
  { intros [p a] m s0 _ S0 (Pb & Pa & H1 & H2 & H3). cbn [fst snd] in *.
    destruct (tomb_arr_node_eq key key_len key_bytes node_id wall node_range walls m del s0 p a S0 Pb Pa H1 H2 H3) as (s' & E & S' & Wo). by exists s', (Some (NArr a false)). }
  { intros [p a] s0 s0' (Pb & Pa & H1 & H2 & H3) L F. cbn [fst snd] in *. split_and!; try done; [by eapply arr_path_mono|cbn; lia]. }
  { by apply (found_arrs_nodup _ (hlc_word s)). }
  { done. }
  { apply Forall_forall. intros [p a] Hin. apply (found_arrs_elem _ (hlc_word s)) in Hin as (h & m & (U1 & U2 & U3 & U4 & U5 & U6 & Pa) & G & _); [|done].
    split_and!; cbn [fst snd]; [by eapply path_bytes|by eapply arr_path_mono|done|done|lia]. }
  assert (Q1 : forall a, a ∈ ms -> node_at (db s1) del a.1 = None) by (by apply Forall_forall).
  assert (Q2 : forall a, a ∈ rs -> node_at (db s2) del a.1 = Some (NArr a.2 false)) by (by apply Forall_forall).
  exists s2. split_and!; [|done|lia| |].
  - unfold cover_descendants, mbind at 1, M_bind at 1. rewrite (scan_found (db s) (hlc_word s)) by done. cbn [rust_bind fst snd].
    unfold mbind, M_bind. fold ms rs. rewrite E1. cbn [rust_bind fst snd]. exact E2.
  - intros p Hp. destruct (decide (p ∈ rs.*1)) as [(a & -> & Ha)%list_elem_of_fmap|Hnr].
    { by rewrite (Q2 a Ha). }
    assert (E : node_at (db s2) del p = node_at (db s1) del p).
    { unfold node_at. rewrite F2; [done|]. apply Forall_forall. intros a Ha Eq. apply jkey_inj in Eq. subst p. by apply Hnr, list_elem_of_fmap_2. }
    rewrite E. clear E. destruct (decide (p ∈ ms.*1)) as [(a & -> & Ha)%list_elem_of_fmap|Hnm].
    { by rewrite (Q1 a Ha). }
    assert (E : node_at (db s1) del p = node_at (db s) del p).
    { unfold node_at. rewrite F1; [done|]. apply Forall_forall. intros a Ha Eq. apply jkey_inj in Eq. subst p. by apply Hnm, list_elem_of_fmap_2. }
    rewrite E. apply (not_found_gone _ (hlc_word s)); [done|done|..].
    + intros ds Hin. apply Hnm. by apply (list_elem_of_fmap_2 fst) in Hin.
    + intros a Hin. apply Hnr. by apply (list_elem_of_fmap_2 fst) in Hin.
  - intros k Hk. rewrite F2, F1; [done|..]; apply Forall_forall; intros [p y] Hin; apply Hk; cbn [fst].
    + by apply (found_maps_elem _ (hlc_word s)) in Hin as (? & _ & _ & _ & _ & ?).
    + by apply (found_arrs_elem _ (hlc_word s)) in Hin as (? & ? & _ & _ & _ & ?).
Qed.
End cover.
