(* ===== verification/JsonSet.v ===== *)
(** * JSON.SET at the root, then JSON.GET

    Whatever document the key held before - none, a deleted one, a live one
    with deleted elements - a root write is read back as written. *)

From S2P Require Import Prelude Partition Hlc Envelope Varint Ikey Counter Lattice Merge MergeLaws Store Resp Reply ListLaws ListRefine GenericLaws ElemLaws.
From S2P Require Import BTree Generic Json JsonPath RgaLaws JsonTree JsonLaws JsonRound JsonDoc JsonCmd JsonStore.

(** ** Values that fit their records *)

Section sizes.
Context {Number : Type} `{!JsonNumber Number, !JsonNumberLaws Number}.
Abbreviation value := (Value Number).
Abbreviation jtree := (jtree Number).

(** Keys are bytes, strings are shorter than a record's value may be. *)
Fixpoint value_fits (v : value) : Prop :=
  match v with
  | Str s => Z.of_nat (length s) + 1 < 2 ^ 56
  | Array a => foldr (fun c P => value_fits c /\ P) True a
  | Object m => foldr (fun c P => is_bytes c.1 /\ value_fits c.2 /\ P) True m
  | _ => True
  end.
(** The records below a value. *)
Fixpoint records_of (v : value) : nat :=
  match v with
  | Array a => foldr (fun c n => S (records_of c) + n)%nat 0%nat a
  | Object m => foldr (fun c n => S (records_of c.2) + n)%nat 0%nat m
  | _ => 0%nat
  end.

Lemma jval_of_ok (v : value) : jval_ok (jval_of v).
Proof using All.
  destruct v as [| |n| | |]; try done. cbn. destruct (as_i64 n) as [i|] eqn:Ei; [by apply (as_i64_exact n)|].
  destruct (as_u64 n) as [u|] eqn:Eu; [by apply (as_u64_exact n)|]. by destruct (as_f64_exact n Ei Eu) as (f & -> & ? & _).
Qed.
Lemma jval_fits (v : value) : value_fits v -> value_len_ok (jval_encode (jval_of v)).
Proof.
  assert (0 < 2 ^ 56 - 20) as B by done. unfold value_len_ok. destruct v as [|[]|n|s|a|m]; intros Hv; cbn [jval_of].
  4: destruct (as_i64 n); [|destruct (as_u64 n)]; cbn [jval_encode length]; rewrite length_be_bytes; lia.
  all: cbn [value_fits] in Hv; cbn [jval_encode length] in *; lia.
Qed.

(** What a record of the tree below [p] is made of. *)
Definition entry_ok (w : Z) (e : JsonTree.entry) : Prop :=
  is_bytes (entry_path e) /\ (exists segs, Forall seg_ok segs /\ e.1.1 = encode_path segs) /\ seg_ok e.1.2 /\
  match e.2 with
  | BMap v => (exists f, e.1.2 = Field f) /\ jval_ok v /\ value_len_ok (jval_encode v)
  | BArr a => (exists i, e.1.2 = Elem i /\ i <> EID_HEAD /\ eid_hlc i <= w) /\ eid_ok (ae_left a) /\ eid_hlc (ae_left a) <= w /\ jval_ok (ae_val a)
  end.

Lemma with_left_props (P : Eid -> Prop) l (els : list (Eid * jtree)) : P l -> Forall P els.*1 -> Forall (fun x => P x.1.1 /\ P x.1.2) (with_left l els).
Proof. revert l. induction els as [|[e c] els IH]; intros l Hl Hels; [constructor|]. cbn in Hels. apply Forall_cons in Hels as [He Hels]. constructor; [done|by apply IH]. Qed.

Lemma seg_bytes_is_bytes s : match s with Field f => is_bytes f | Elem _ => True end -> is_bytes (seg_bytes s).
Proof.
  destruct s as [f|e]; intros Hs; cbn [seg_bytes]; (constructor; [by vm_compute|]); apply is_bytes_app; split; auto with marekvs.
Qed.

Lemma items_entry_ok t p w : tree_ok t -> value_fits (value_of t) -> tree_ids (fun e => eid_hlc e <= w) t -> 0 <= w -> is_bytes p ->
  (exists segs, Forall seg_ok segs /\ p = encode_path segs) ->
  Forall (fun b => entry_ok w (p, b.1.1, b.1.2) /\ value_fits (value_of b.2) /\ tree_ids (fun e => eid_hlc e <= w) b.2 /\ is_bytes (push_seg p b.1.1)) (items t).
Proof using All.
  intros Ht Hv Hi Hw Hp Hs. destruct t as [v|fs|els]; cbn [items]; [constructor| |].
  - destruct Ht as [_ Ht]. rewrite foldr_Forall2 in Ht. cbn in Hv, Hi. apply Forall_fmap.
    assert (Hf : Forall (fun f : bytes * jtree => is_bytes f.1 /\ value_fits (value_of f.2)) fs).
    { clear -Hv. induction fs as [|f fs IH]; constructor; cbn in Hv; [by destruct Hv as (? & ? & _)|apply IH; by destruct Hv as (_ & _ & ?)]. }
    rewrite foldr_Forall in Hi. rewrite Forall_forall in Ht, Hf, Hi |- *. intros f Hin. destruct (Ht f Hin) as [[_ Hl] _]. destruct (Hf f Hin) as [Hb Hvf].
    assert (is_bytes (push_seg p (Field f.1))) as Hpb by (apply is_bytes_app; split; [done|by apply seg_bytes_is_bytes]).
    cbn. split_and!; [|done|by apply Hi|done]. split_and!; [done|done|done|]. cbn. split_and!; [by eexists|apply jval_of_ok|by apply jval_fits].
  - destruct Ht as (_ & Hh & Ht). rewrite foldr_Forall2 in Ht. cbn in Hv, Hi. rewrite foldr_Forall2 in Hi. apply Forall_fmap.
    assert (Hf : Forall (fun e : Eid * jtree => value_fits (value_of e.2)) els).
    { clear -Hv. induction els as [|f fs IH]; constructor; cbn in Hv; [by destruct Hv as (? & _)|apply IH; by destruct Hv as (_ & ?)]. }
    assert (Hid : Forall (fun e => eid_ok e /\ eid_hlc e <= w) els.*1).
    { apply Forall_fmap. rewrite Forall_forall in Ht, Hi |- *. intros e He. split; [by apply Ht|by apply Hi]. }
    assert (Hids : Forall (fun x : Eid * Eid * jtree => (eid_ok x.1.1 /\ eid_hlc x.1.1 <= w) /\ (eid_ok x.1.2 /\ eid_hlc x.1.2 <= w)) (with_left EID_HEAD els)).
    { apply (with_left_props (fun e => eid_ok e /\ eid_hlc e <= w)); [|done]. split; [split; by vm_compute|by cbn]. }
    pose proof (with_left_Forall (fun t => value_fits (value_of t)) EID_HEAD els Hf) as Hf'.
    pose proof (with_left_Forall (fun t => tree_ids (fun e => eid_hlc e <= w) t) EID_HEAD els) as Hi'.
    specialize (Hi' ltac:(eapply Forall_impl; [exact Hi|]; by intros ? [_ ?])).
    rewrite Forall_forall in Hf', Hi', Hids |- *. intros x Hx. destruct (Hids x Hx) as [[L1 L2] [E1 E2]].
    assert (is_bytes (push_seg p (Elem x.1.2))) as Hpb by (apply is_bytes_app; split; [done|by apply seg_bytes_is_bytes]).
    cbn. split_and!; [|by apply Hf'|by apply Hi'|done]. split_and!; [done|done|done|]. cbn. split_and!; [|done|done|apply jval_of_ok].
    exists x.1.2. split_and!; [done| |done]. intros E. apply Hh. rewrite <- (with_left_ids EID_HEAD els).
    apply list_elem_of_fmap. by exists x.
Qed.

Lemma jrecs_entry_ok t w : 0 <= w -> forall p, tree_ok t -> value_fits (value_of t) -> tree_ids (fun e => eid_hlc e <= w) t -> is_bytes p ->
  (exists segs, Forall seg_ok segs /\ p = encode_path segs) -> Forall (entry_ok w) (jrecs p t).
Proof using All.
  intros Hw. induction t as [t IH] using items_ind. intros p Ht Hv Hi Hp Hs. rewrite jrecs_blocks. apply Forall_forall. intros e (b & Hb & He)%blocks_elem.
  pose proof (items_entry_ok t p w Ht Hv Hi Hw Hp Hs) as Hit. rewrite Forall_forall in Hit. destruct (Hit b Hb) as (H1 & H2 & H3 & H4).
  destruct He as [->|He]; [done|]. rewrite Forall_forall in IH. destruct (items_ok t Ht) as [Hok _]. rewrite Forall_forall in Hok. destruct (Hok b Hb) as [Hsb Htb].
  assert (Hall : Forall (entry_ok w) (jrecs (push_seg p b.1.1) b.2)); [|rewrite Forall_forall in Hall; by apply Hall].
  apply (IH b Hb); try done. destruct Hs as (segs & Hss & ->). exists (segs ++ [b.1.1]). split; [by apply Forall_app_2; [|apply Forall_singleton]|]. by rewrite encode_path_snoc.
Qed.

(** Records of a tree have distinct paths. *)
Lemma jrecs_nodup t : forall p, tree_ok t -> NoDup (entry_path <$> jrecs p t).
Proof.
  induction t as [t IH] using items_ind. intros p Ht. rewrite jrecs_blocks. destruct (items_ok t Ht) as [Hok Hn].
  assert (Hsub : Forall (fun b => seg_ok b.1.1 /\ NoDup (entry_path <$> jrecs (push_seg p b.1.1) b.2)) (items t)).
  { rewrite Forall_forall in IH, Hok |- *. intros b Hb. destruct (Hok b Hb) as [H1 H2]. split; [done|]. by apply IH. }
  clear Ht IH Hok. induction (items t) as [|b bs IHb]; [constructor|]. apply Forall_cons in Hsub as [[Hs1 Hs2] Hsub]. cbn in Hn. apply NoDup_cons in Hn as [Hni Hn].
  unfold blocks. cbn [flat_map]. fold (blocks p bs). cbn [app fmap list_fmap]. rewrite fmap_app. specialize (IHb Hn Hsub).
  assert (Hbelow : forall e, e ∈ jrecs (push_seg p b.1.1) b.2 -> exists x, x <> [] /\ entry_path e = push_seg p b.1.1 ++ x).
  { intros e He. apply jrecs_below in He as [x Hx]. exists (x ++ seg_bytes e.1.2). split; [|unfold entry_path, push_seg at 1; rewrite Hx; by rewrite <- app_assoc].
    pose proof (seg_bytes_pos e.1.2). intros E. apply app_eq_nil in E as [_ E]. rewrite E in *. cbn in *. lia. }
  assert (Hother : forall y, y ∈ entry_path <$> blocks p bs -> exists c x, c ∈ bs /\ y = push_seg p c.1.1 ++ x).
  { intros y (e & -> & He)%list_elem_of_fmap. apply blocks_elem in He as (c & Hc & [->|He]).
    - exists c, []. split; [done|]. by rewrite app_nil_r.
    - apply jrecs_below in He as [x Hx]. exists c, (x ++ seg_bytes e.1.2). split; [done|]. unfold entry_path, push_seg at 1. rewrite Hx. by rewrite <- app_assoc. }
  assert (Hdis : forall c x y, c ∈ bs -> push_seg p b.1.1 ++ x <> push_seg p c.1.1 ++ y).
  { intros c x y Hc E. unfold push_seg in E. rewrite <- !app_assoc in E. apply app_inv_head in E. rewrite Forall_forall in Hsub.
    apply seg_prefix_free in E as [E _]; [|done|by apply Hsub]. apply Hni. rewrite E. by apply (list_elem_of_fmap_2 (fun c => c.1.1)). }
  constructor.
  - change (entry_path (p, b.1.1, b.1.2)) with (push_seg p b.1.1). intros [Hin|Hin]%elem_of_app.
    + apply list_elem_of_fmap in Hin as (e & E & He). destruct (Hbelow e He) as (x & Hx & Ex). rewrite Ex in E. rewrite <- (app_nil_r (push_seg p b.1.1)) in E at 1.
      apply app_inv_head in E. by subst x.
    + apply Hother in Hin as (c & x & Hc & E). rewrite <- (app_nil_r (push_seg p b.1.1)) in E. by apply Hdis in E.
  - apply NoDup_app. split_and!; [done| |done]. intros y (e & -> & He)%list_elem_of_fmap Hin. destruct (Hbelow e He) as (x & _ & Ex).
    apply Hother in Hin as (c & x' & Hc & E). rewrite Ex in E. by apply Hdis in E.
Qed.

Lemma blocks_length p bs : length (blocks p bs) = foldr (fun b n => S (length (jrecs (push_seg p b.1.1) b.2)) + n)%nat 0%nat bs.
Proof. induction bs as [|b bs IH]; [done|]. unfold blocks. cbn [flat_map foldr app length]. rewrite length_app. apply (f_equal S), (f_equal (Nat.add _)). exact IH. Qed.
Lemma jrecs_length t : forall p, tree_ok t -> length (jrecs p t) = records_of (value_of t).
Proof.
  induction t as [t IH] using items_ind. intros p Ht. rewrite jrecs_blocks, blocks_length.
  assert (Hsub : Forall (fun b => forall p, length (jrecs p b.2) = records_of (value_of b.2)) (items t)).
  { destruct (items_ok t Ht) as [Hok _]. rewrite Forall_forall in IH, Hok |- *. intros b Hb q. apply IH; [done|by apply Hok]. }
  clear IH. destruct t as [v|fs|els]; cbn [items value_of records_of] in *.
  - by destruct v, Ht.
  - clear Ht. apply Forall_fmap in Hsub. induction Hsub as [|f fs Hf IH IHf]; [done|]. cbn in *. by rewrite Hf, IHf.
  - clear Ht. apply Forall_fmap in Hsub. revert Hsub. generalize EID_HEAD. induction els as [|[e c] els IHe]; intros l Hl; [done|].
    cbn [with_left] in Hl. apply Forall_cons in Hl as [Hc Hl]. cbn in *. by rewrite Hc, (IHe e).
Qed.
End sizes.

(** ** A root write *)

Section root.
Context {DB : Type} `{KVLaws DB}.
Context {Number : Type} `{!JsonNumber Number, !JsonNumberLaws Number}.
Context (key : bytes) (key_len : slice_len_ok key) (key_bytes : is_bytes key).
Context (node_id : Z) (wall : nat -> Z) (node_range : u16 node_id) (walls : forall n, 0 <= wall n < 2 ^ 47).
Abbreviation value := (Value Number).
Abbreviation jtree := (jtree Number).
Abbreviation jkey := (json_node_key key).
Abbreviation jstate := (jstate key).
Abbreviation node_at := (node_at key).

Lemma ver_le_fst a b : ver_le a b -> a.1 <= b.1.
Proof. unfold ver_le, ver_leb, ver_cmp. destruct (Z.compare_spec a.1 b.1); (lia || done). Qed.
Lemma ver_le_intro a b : a.1 <= b.1 -> a.2 <= b.2 -> ver_le a b.
Proof. intros L1 L2. unfold ver_le, ver_leb, ver_cmp. destruct (Z.compare_spec a.1 b.1); [|done|lia]. by destruct (Z.compare_spec a.2 b.2); [..|lia]. Qed.
(** Element ids up to the shard's clock. *)
Definition last_id (s : Shard DB) : version := (hlc_word s, 2 ^ 16).
Definition old_id (s : Shard DB) : Eid -> Prop := drawn_by last_id s.
Lemma old_id_intro s e : eid_ok e -> eid_hlc e <= hlc_word s -> old_id s e.
Proof.
  intros [_ U] L. apply ver_le_intro; cbn; [done|]. unfold u16, in_range in U. lia.
Qed.

Lemma fresh_ticks d0 : fresh_increasing (fun s _ _ => fresh_tick node_id wall s) last_id (fun n s => room n s /\ db s = d0).
Proof using All.
  intros n s p i [R Ed]. destruct (hlc_now_eq wall walls s n R) as (h & s1 & E & L & U & Ew & Ed1 & _ & R1). unfold hlc_now in E. unfold fresh_tick.
  destruct (Hlc_now (hlc_word s) (wall (ticks s))) as [w t]. injection E as -> <-. cbn [hlc_word db] in *. subst w.
  split_and!; [by split| | |apply (old_id_intro (mkShard (db s) h (pop_hints s) (S (ticks s)))); [by split|cbn; lia]|done|congruence].
  - intros [= E0 _]. destruct R. lia.
  - unfold ver_ltb, ver_cmp, last_id, eid_ver. cbn. by rewrite (proj2 (Z.compare_lt_iff (hlc_word s) h)) by lia.
Qed.

(** *** The children *)

Definition shows (e : JsonTree.entry) (o : option NodeIn) : Prop :=
  match e.2 with BMap v => exists ds, o = Some (NMap v ds) | BArr a => o = Some (NArr a true) end.

Lemma write_entry_eq n del s e : jstate (S n) del s -> entry_ok (hlc_word s) e ->
  exists s' o, write_record node_id wall key (entry_rec e) s = Ret (tt, s') /\ jstate n del s' /\ wrote key (entry_path e) o del s s' /\ shows e o.
Proof using All.
  intros S (Pb & (segs & Hs & Es) & Hseg & He). unfold entry_rec, shows. destruct e as [[q seg] [v|a]]; cbn [fst snd] in *; subst q.
  - destruct He as ((f & ->) & Hv & Hl).
    destruct (write_map_node_eq key key_len key_bytes node_id wall node_range walls n del s _ v [] S Pb) as (s' & ds & E & S' & Wo); [|done|done|by left|].
    + exists (segs ++ [Field f]). split_and!; [by apply Forall_app_2; [|apply Forall_singleton]|by rewrite encode_path_snoc|]. intros e. by rewrite last_snoc.
    + exists s', (Some (NMap v ds)). split_and!; try done. by exists ds.
  - destruct He as ((i & -> & Hh & Hi) & Hl & Hlw & Hv).
    destruct (write_arr_node_eq key key_len key_bytes node_id wall node_range walls n del s _ a S Pb) as (s' & E & S' & Wo); [|done|done|done|].
    + exists segs, i. by split_and!.
    + exists s', (Some (NArr a true)). by split_and!.
Qed.
Lemma entry_ok_mono w w' e : w <= w' -> entry_ok w e -> entry_ok w' e.
Proof.
  intros L (H1 & H2 & H3 & H4). split_and!; try done. destruct e.2 as [v|a]; [done|]. destruct H4 as ((i & -> & Hh & Hi) & Hl & Hlw & Hv).
  split_and!; try done; try lia. exists i. split_and!; try done; lia.
Qed.

Lemma jstate_room n m del s : (m <= n)%nat -> jstate n del s -> jstate m del s.
Proof. intros L [S1 (R1 & R2 & R3) S3]. split; [done| |done]. split_and!; lia. Qed.

Lemma write_children_eq n del s v : jstate (slots v + (records_of v + n)) del s -> value_ok v -> value_fits v ->
  exists t s', write_children node_id wall key [] v s = Ret (tt, s') /\ value_of t = v /\ tree_ok t /\ tree_new (old_id s) t /\
    jstate n del s' /\ hlc_word s <= hlc_word s' /\ Forall (fun e => shows e (node_at (db s') del (entry_path e))) (jrecs [] t) /\
    forall k, Forall (fun e => k <> jkey (entry_path e)) (jrecs [] t) -> kv_get (db s') k = kv_get (db s) k.
Proof using All.
  intros S Hv Hf. destruct (decompose_tree _ _ _ (fresh_ticks (db s)) v [] s Hv (records_of v + n)%nat) as (t & s1 & E & Et & Ht & Hle & [R1 E1] & Hids).
  { split; [apply S|done]. }
  assert (L1 : hlc_word s <= hlc_word s1).
  { by apply ver_le_fst in Hle. }
  assert (S1 : jstate (length (jrecs [] t) + n) del s1).
  { rewrite jrecs_length, Et by done. destruct S as [[Wb Wr] S2 S3]. split; [|done|lia]. rewrite E1. split; [done|].
    intros p b G. destruct (Wr p b G) as (x & Hx & ->). exists x. split; [|done]. by eapply srec_ok_mono. }
  destruct (each_wrote key (fun e => write_record node_id wall key (entry_rec e)) entry_path (fun e s => entry_ok (hlc_word s) e) shows n del (jrecs [] t) s1) as (s2 & E2 & S2 & L2 & P2 & F2).
  { intros e m s0 _. apply write_entry_eq. }
  { intros e s0 s0' Ho L _. by eapply entry_ok_mono. }
  { by apply jrecs_nodup. } { done. }
  { apply jrecs_entry_ok; [destruct R1; lia|done|by rewrite Et| |constructor|by exists []]. eapply tree_ids_weaken; [|exact Hids].
    intros e [_ Ho]. by apply ver_le_fst in Ho. }
  exists t, s2. split_and!; try done; [|exact (between_new _ _ _ (fresh_ticks (db s)) _ _ _ Hids)|lia|].
  - unfold write_children, mbind, M_bind, decompose_children_at. rewrite E. cbn [rust_bind fst snd]. by rewrite each_fmap.
  - intros k Hk. rewrite F2 by done. by rewrite E1.
Qed.

(** *** Reading a written tree *)

Definition root_dots (d : DB) (del : Z) (p : bytes) : list Dot := match node_at d del p with Some (NMap _ ds) => ds | _ => [] end.
Definition is_dead_node (n : bytes * NodeIn) : Prop := gone (Some n.2).
#[local] Instance is_dead_node_dec n : Decision (is_dead_node n).
Proof. unfold is_dead_node. cbn. destruct n.2; apply _. Defined.

Lemma gone_dead_item s0 del p a : jwf key (db s0) (hlc_word s0) -> node_at (db s0) del p = Some (NArr a false) -> dead_item (old_id s0) (p, NArr a false).
Proof using All.
  intros W E. destruct (kv_get (db s0) (jkey p)) as [b|] eqn:G; [|unfold JsonStore.node_at in E; by rewrite G in E].
  destruct (jw_rec _ _ _ W p b G) as (x & Hx & ->). rewrite (node_at_rec key key_len key_bytes node_id wall node_range walls (db s0) _ del p x Hx G) in E.
  destruct x as [r|tomb h n a']; cbn [view] in E.
  - destruct (_ <=? _); [done|]. destruct (st_value _) as [vb|]; [|done]. by destruct (jval_decode vb).
  - destruct (_ <=? _); [done|]. injection E as -> _. destruct Hx as (_ & _ & _ & Hl & _ & Hlw & segs & e & Hs & -> & He & Hh & Hw).
    exists segs, e, a. split_and!; try done; by apply old_id_intro.
Qed.

Lemma load_tree s s0 del t : jwf key (db s) (hlc_word s) -> jwf key (db s0) (hlc_word s0) -> tree_ok t -> tree_new (old_id s0) t ->
  (exists ds, node_at (db s) del [] = Some (NMap (tval t) ds)) ->
  Forall (fun e => shows e (node_at (db s) del (entry_path e))) (jrecs [] t) ->
  (forall p, p <> [] -> p ∉ entry_path <$> jrecs [] t -> node_at (db s) del p = node_at (db s0) del p /\ gone (node_at (db s0) del p)) ->
  exists nodes idx, load_nodes wall key del s = Ret (nodes, tick s) /\ build_doc nodes = Ret (Some (mkDoc _ (value_of t) idx)).
Proof using All.
  intros W W0 Ht Hnew [ds0 Hroot] Hsh Hrest.
  destruct (load_nodes_eq key key_len key_bytes node_id wall node_range walls (hlc_word s) s del W) as (nodes & E & Hnd & Hin).
  set (dts := root_dots (db s) del). set (dead := filter is_dead_node nodes).
  assert (Hent : forall e, e ∈ jrecs [] t -> node_at (db s) del (entry_path e) = Some (entry_node dts e) /\ ~ is_dead_node (entry_item dts e)).
  { intros e He. rewrite Forall_forall in Hsh. specialize (Hsh e He). unfold shows in Hsh. unfold entry_node, is_dead_node, entry_item, dts, root_dots.
    destruct e as [[q sg] [v|a]]; cbn [snd fst] in *; [|by split]. destruct Hsh as [ds Eq]. rewrite Eq. split; [done|]. unfold entry_node. cbn. by intros []. }
  assert (Hmem : forall p n, (p, n) ∈ nodes <-> (p, n) ∈ ([], NMap (tval t) (dts [])) :: (entry_item dts <$> jrecs [] t) ++ dead).
  { intros p n. rewrite elem_of_cons, elem_of_app. split.
    - intros Hn. pose proof (proj1 (Hin p n) Hn) as En. destruct (decide (p = [])) as [->|Hp].
      { left. unfold dts, root_dots. rewrite Hroot in En |- *. injection En as <-. done. }
      right. destruct (decide (p ∈ entry_path <$> jrecs [] t)) as [(e & -> & He)%list_elem_of_fmap|Hne].
      { left. apply list_elem_of_fmap. exists e. split; [|done]. unfold entry_item. destruct (Hent e He) as [Ee _]. rewrite Ee in En. by injection En as ->. }
      right. apply list_elem_of_filter. split; [|done]. unfold is_dead_node. cbn [snd]. destruct (Hrest p Hp Hne) as [E1 E2]. rewrite <- E1, En in E2. done.
    - intros [[= -> ->]|[(e & [= -> ->] & He)%list_elem_of_fmap|Hd]].
      + apply Hin. unfold dts, root_dots. by rewrite Hroot.
      + apply Hin. by apply Hent.
      + apply list_elem_of_filter in Hd. apply Hd. }
  assert (Hpe : entry_path <$> jrecs [] t = (entry_item dts <$> jrecs [] t).*1) by (by rewrite <- list_fmap_compose).
  assert (Hperm : nodes ≡ₚ ([], NMap (tval t) (dts [])) :: (entry_item dts <$> jrecs [] t) ++ dead).
  { apply NoDup_Permutation; [by eapply NoDup_fmap_1| |intros []; apply Hmem]. constructor; [|apply NoDup_app; split_and!].
    - intros [Hi|Hi]%elem_of_app; [apply list_elem_of_fmap in Hi as (e & Eq & _); injection Eq as Eq _; symmetry in Eq; by apply entry_path_nonempty in Eq|].
      apply list_elem_of_filter in Hi as [Hi _]. by destruct Hi.
    - apply (NoDup_fmap_1 fst). rewrite <- Hpe. by apply jrecs_nodup.
    - intros x (e & -> & He)%list_elem_of_fmap Hd. apply list_elem_of_filter in Hd as [Hd _]. by apply (Hent e).
    - apply NoDup_filter. by eapply NoDup_fmap_1. }
  assert (Hdead : Forall (dead_item (old_id s0)) dead).
  { apply Forall_forall. intros [p n] [Hd Hn]%list_elem_of_filter. pose proof (proj1 (Hin p n) Hn) as En.
    assert (Hp : p <> []) by (intros ->; rewrite Hroot in En; injection En as <-; by destruct Hd).
    assert (Hne : p ∉ entry_path <$> jrecs [] t).
    { intros (e & -> & He)%list_elem_of_fmap. destruct (Hent e He) as [Ee Hnd']. rewrite Ee in En. injection En as <-. by apply Hnd'. }
    destruct (Hrest p Hp Hne) as [E1 _]. rewrite E1 in En. unfold is_dead_node in Hd. destruct n as [v ds|a lv]; cbn in Hd; [done|]. subst lv. by eapply gone_dead_item. }
  destruct (build_doc_tree dts (old_id s0) nodes t dead Ht Hnew Hdead) as [idx Eb]; [|done|by exists nodes, idx].
  unfold dead. clear -Hnd. induction nodes as [|n nodes IH]; [constructor|]. rewrite filter_cons. cbn in Hnd. apply NoDup_cons in Hnd as [Hni Hnd].
  destruct (decide (is_dead_node n)); [|by apply IH]. cbn. constructor; [|by apply IH]. intros (m & Eq & Hm)%list_elem_of_fmap. apply list_elem_of_filter in Hm as [_ Hm].
  apply Hni. rewrite Eq. by apply list_elem_of_fmap_2.
Qed.

(** *** The key *)

(** A key that is free for, or holds, a document with delete clock [del]: it
    has a root whenever it shows anything. *)
Record json_key (del : Z) (s : Shard DB) : Prop := {
  jk_type : coll_typed key CTYPE_JSON del (db s) (hlc_word s);
  jk_list : kv_get (db s) (list_key key) = None;
  jk_wf : jwf key (db s) (hlc_word s);
  jk_del : del <= hlc_word s;
  jk_root : (holds_coll key CTYPE_JSON del (db s) /\ exists v ds, node_at (db s) del [] = Some (NMap v ds)) \/ forall p, gone (node_at (db s) del p);
}.

Lemma jkey_not_head p : jkey p <> head_key key.
Proof. done. Qed.
Lemma jkey_not_string p : jkey p <> string_key key.
Proof. done. Qed.
Lemma jkey_not_list p : jkey p <> list_key key.
Proof. done. Qed.

(** Writes under the JSON prefix leave the key's type alone. *)
Lemma coll_typed_json del (d d' : DB) w w' : w <= w' -> (forall k, (forall p, k <> jkey p) -> kv_get d' k = kv_get d k) ->
  coll_typed key CTYPE_JSON del d w -> coll_typed key CTYPE_JSON del d' w'.
Proof. intros L F T. eapply (typed_frame key CTYPE_JSON eq_refl); [exact L| |exact T]. intros k [->|[->| ->]]; by apply F. Qed.
Lemma holds_coll_json del (d d' : DB) : (forall k, (forall p, k <> jkey p) -> kv_get d' k = kv_get d k) ->
  holds_coll key CTYPE_JSON del d -> holds_coll key CTYPE_JSON del d'.
Proof. intros F (v & env & pay & G & Hh). exists v, env, pay. split; [|done]. rewrite F; [done|]. intros p E. by apply (jkey_not_head p). Qed.

Lemma other_type_eq del s : json_key del s -> exists s', other_type_holds wall key s = Ret (false, s') /\ quiet s s'.
Proof using All.
  intros K. destruct (jk_type _ _ K) as (_ & D1 & _ & T). destruct (key_type_eq wall key s (jk_list _ _ K)) as (o & s' & E & Q & _ & Ho). exists s'. split; [|done].
  unfold other_type_holds, mbind, M_bind. rewrite E. cbn [rust_bind fst snd].
  assert (string_shown (db s) key (wall (ticks s)) = false) as Hs.
  { unfold string_shown. specialize (D1 (wall (ticks s))). destruct (kv_get (db s) (string_key key) ≫= Envelope_decode) as [[env pay]|]; [|done].
    unfold visible. destruct (is_tombstone env), (is_expired env _); done. }
  rewrite Hs in Ho. unfold head_of in Ho. destruct (kv_get (db s) (head_key key)) as [v|] eqn:G; [|by rewrite Ho].
  destruct T as (env & pay & t & d0 & T1 & T2 & T3 & _ & T5). cbn [mbind option_bind] in Ho. rewrite T1, T2 in Ho. cbn [head_live] in Ho.
  destruct T5 as [(Et & -> & ->)|(Et & _)]; rewrite Et in Ho; cbn [negb andb] in Ho; [|by rewrite Ho].
  destruct (negb _); [|by rewrite Ho]. destruct Ho as [->|(env' & t' & del' & [= <- <- <-] & ->)]; [done|]. done.
Qed.

Lemma jwf_no_panic d w (nodes : list (bytes * NodeIn)) : jwf key d w ->
  (forall p n, (p, n) ∈ nodes -> exists b, kv_get d (jkey p) = Some b) -> Forall (fun n => no_panic (split_last n.1)) nodes.
Proof using All.
  intros W Hn. apply Forall_forall. intros [p n] Hin. destruct (Hn p n Hin) as (b & G). destruct (jw_rec _ _ _ W p b G) as (x & Hx & _). cbn [fst].
  destruct x as [r|tomb h m a].
  - destruct Hx as (_ & _ & Hm). destruct (map_splits p Hm) as (o & -> & _). done.
  - destruct Hx as (_ & _ & _ & _ & _ & _ & segs & e & Hs & -> & He & _). by rewrite split_last_push.
Qed.

(** Only a map entry is stored at the root. *)
Lemma root_node d w del : jwf key d w -> match node_at d del [] with Some (NArr _ _) => False | _ => True end.
Proof using All.
  intros W. destruct (kv_get d (jkey [])) as [b|] eqn:G; [|unfold JsonStore.node_at; by rewrite G].
  destruct (jw_rec _ _ _ W [] b G) as (x & Hx & ->). rewrite (node_at_rec key key_len key_bytes node_id wall node_range walls d w del [] x Hx G).
  destruct x as [r|tomb h m a]; cbn [view].
  - destruct (_ <=? _); [done|]. destruct (st_value _) as [vb|]; [|done]. by destruct (jval_decode vb).
  - destruct Hx as (_ & _ & _ & _ & _ & _ & segs & e & Hs & E & He & _). unfold push_seg in E. symmetry in E. apply app_eq_nil in E as [_ E].
    pose proof (seg_bytes_pos (Elem e)) as Hp. rewrite E in Hp. cbn in Hp. lia.
Qed.

Lemma root_of_nodes nodes (o : option NodeIn) : NoDup nodes.*1 -> (forall n, ([], n) ∈ nodes <-> o = Some n) -> root_of nodes None = o.
Proof.
  intros Hnd Hn. destruct o as [x|].
  - apply root_of_unique; [|right; by apply Hn]. intros [p n] Hin E. cbn in *. subst p. apply Hn in Hin. by injection Hin.
  - assert (Hne : Forall (fun n => n.1 <> []) nodes). { apply Forall_forall. intros [p n] Hin E. cbn in E. subst p. by apply Hn in Hin. }
    clear -Hne. unfold root_of. generalize (@None NodeIn). induction Hne as [|[p n] nodes Hp Hne IH]; intros r; [done|]. cbn. destruct p; [done|apply IH].
Qed.

(** What loading finds before the write. *)
Lemma load_doc_eq del s : json_key del s -> exists o s', load_doc (Number := Number) wall key s = Ret (o, s') /\ quiet s s' /\
  match o with
  | None => forall p, gone (node_at (db s) del p)
  | Some (d, del') => del' = del /\ exists v ds, node_at (db s) del [] = Some (NMap v ds) /\ map_dots (doc_index d) !! [] = Some ds
  end.
Proof using All.
  intros [T _ W _ R]. unfold load_doc, mbind at 1, M_bind at 1. rewrite get_head_eq. cbn [rust_bind fst snd]. unfold head_of.
  assert (Gone : ~ holds_coll key CTYPE_JSON del (db s) -> forall p, gone (node_at (db s) del p)) by (intros Hn; by destruct R as [[? _]|]).
  destruct T as (_ & _ & _ & T). destruct (kv_get (db s) (head_key key)) as [v|] eqn:G; cbn [mbind option_bind].
  2:{ exists None, s. split_and!; [done|done|]. apply Gone. intros (v' & env & pay & G' & _). congruence. }
  destruct T as (env & pay & t & d0 & T1 & T2 & T3 & _ & T5). rewrite T1, T2. destruct T5 as [(Et & -> & ->)|(Et & _)]; rewrite Et.
  2:{ exists None, s. split_and!; [done|done|]. apply Gone. intros (v' & env' & pay' & G' & E' & _ & _ & Et'). congruence. }
  unfold mbind, M_bind, now_ms. cbn [rust_bind fst snd]. unfold is_expired. rewrite T3. cbn [Z.ltb Z.eqb andb negb Z.compare]. rewrite Z.eqb_refl. cbn [orb negb].
  fold (tick s). destruct (load_nodes_eq key key_len key_bytes node_id wall node_range walls (hlc_word s) (tick s) del W) as (nodes & E & Hnd & Hin).
  rewrite E. cbn [rust_bind fst snd]. change (db (tick s)) with (db s) in Hin.
  assert (Hr : root_of nodes None = node_at (db s) del []) by (apply root_of_nodes; [done|]; intros n; apply Hin).
  destruct (build_doc_cases nodes) as [[E1 E2]|(d & v1 & ds & E1 & E2 & E3)].
  { eapply jwf_no_panic; [exact W|]. intros p n Hn%Hin. unfold JsonStore.node_at in Hn. destruct (kv_get (db s) (jkey p)); [by eexists|done]. }
  - unfold lift. rewrite E1. cbn [rust_bind fst snd]. exists None, (tick (tick s)). split_and!; [done|done|].
    destruct R as [[_ (v1 & ds & Er)]|R]; [|done]. by destruct (E2 v1 ds); rewrite Hr.
  - unfold lift. rewrite E1. cbn [rust_bind fst snd]. exists (Some (d, del)), (tick (tick s)). split_and!; [done|done|done|].
    exists v1, ds. by rewrite <- Hr.
Qed.

(** *** The write *)

Lemma jwf_other d d' w w' k : jwf key d w -> w <= w' -> is_bytes k -> (forall p, jkey p <> k) -> Store.frame k d d' -> jwf key d' w'.
Proof.
  intros [Wb Wr] L Kb Kn F. split.
  - intros k' v G. destruct (decide (k' = k)) as [->|Ne]; [done|]. rewrite F in G by done. by eapply Wb.
  - intros p b G. rewrite F in G by done. destruct (Wr p b G) as (x & Hx & ->). exists x. split; [|done]. by eapply srec_ok_mono.
Qed.
Lemma records_other (d d' : DB) k : keys_are_bytes d -> keys_are_bytes d' -> (forall p, jkey p <> k) -> Store.frame k d d' -> with_prefix d' (jkey []) = with_prefix d (jkey []).
Proof using All.
  intros B B' Kn F. apply (sorted_ext key_lt); [apply kv_range_sorted..|]. intros [k' v]. rewrite !with_prefix_spec by done.
  split; intros [G P]; (split; [|done]); destruct (jkey_under key k' P) as [p ->]; by rewrite F in * by done.
Qed.

(** The head is there, the records are as they were. *)
Lemma ensure_head_json n del s : json_key del s -> room (S n) s -> exists s', ensure_head node_id wall key CTYPE_JSON s = Ret (del, s') /\
  coll_typed key CTYPE_JSON del (db s') (hlc_word s') /\ holds_coll key CTYPE_JSON del (db s') /\ jstate n del s' /\ kv_get (db s') (list_key key) = None /\
  (forall p, kv_get (db s') (jkey p) = kv_get (db s) (jkey p)) /\ with_prefix (db s') (jkey []) = with_prefix (db s) (jkey []).
Proof using All.
  intros K R. destruct (ensure_head_holds key key_len CTYPE_JSON eq_refl node_id wall node_range walls n del s (jk_type _ _ K) R) as (s' & E & T & R' & L & _ & F & Hh).
  pose proof (jk_wf _ _ K) as W. assert (W' : jwf key (db s') (hlc_word s')).
  { eapply (jwf_other _ _ _ _ (head_key key)); [exact W|exact L|apply prefixed_is_bytes; [done|constructor]|done|exact F]. }
  exists s'. split_and!; try done.
  - split; [done|done|]. pose proof (jk_del _ _ K). lia.
  - rewrite F by done. apply K.
  - intros p. by apply F.
  - eapply (records_other _ _ (head_key key)); [apply W|apply W'|done|exact F].
Qed.

(** The document below a root that is covered or empty is replaced. *)
Lemma root_write n del s v observed : jstate (S (slots v + (records_of v + n))) del s -> value_ok v -> value_fits v ->
  observed = [] \/ stored_dots key (db s) [] observed -> (forall p, p <> [] -> gone (node_at (db s) del p)) ->
  exists s', (_ ← write_map_node node_id wall key [] (jval_of v) observed; write_children node_id wall key [] v) s = Ret (tt, s') /\
    jstate n del s' /\ hlc_word s <= hlc_word s' /\ (forall k, (forall p, k <> jkey p) -> kv_get (db s') k = kv_get (db s) k) /\
    (exists ds, node_at (db s') del [] = Some (NMap (jval_of v) ds)) /\
    forall s0, db s0 = db s' -> hlc_word s0 = hlc_word s' -> exists nodes idx, load_nodes wall key del s0 = Ret (nodes, tick s0) /\ build_doc nodes = Ret (Some (mkDoc _ v idx)).
Proof using All.
  intros S Hv Hf Ho Hg.
  destruct (write_map_node_eq key key_len key_bytes node_id wall node_range walls _ del s [] (jval_of v) observed S) as (s1 & ds & E1 & S1 & L1 & F1 & N1); [constructor|by exists []|apply jval_of_ok|by apply jval_fits|done|].
  destruct (write_children_eq n del s1 v S1 Hv Hf) as (t & s2 & E2 & Et & Ht & Hnew & S2 & L2 & P2 & F2).
  assert (Root : node_at (db s2) del [] = Some (NMap (tval t) ds)).
  { unfold tval. rewrite Et, <- N1. unfold JsonStore.node_at. rewrite F2; [done|]. apply Forall_forall. intros e _ Eq. apply jkey_inj in Eq. symmetry in Eq. by apply entry_path_nonempty in Eq. }
  assert (Rest : forall p, p <> [] -> p ∉ entry_path <$> jrecs [] t -> node_at (db s2) del p = node_at (db s1) del p /\ gone (node_at (db s1) del p)).
  { intros p Hp Hne. split.
    - unfold JsonStore.node_at. rewrite F2; [done|]. apply Forall_forall. intros e He Eq. apply jkey_inj in Eq. apply Hne. rewrite Eq. by apply list_elem_of_fmap_2.
    - rewrite (node_at_frame key _ _ _ _ _ F1) by done. by apply Hg. }
  exists s2. split_and!; [|done|lia| | |].
  - unfold mbind, M_bind. rewrite E1. cbn [rust_bind fst snd]. exact E2.
  - intros k Hk. rewrite F2, F1; [done|by apply Hk|]. apply Forall_forall. intros e _. apply Hk.
  - exists ds. rewrite Root. unfold tval. by rewrite Et.
  - intros s0 Ed Ew. rewrite <- Et. apply (load_tree s0 s1 del t); rewrite ?Ed, ?Ew; try done; [apply S2|apply S1|by exists ds].
Qed.

Lemma load_written del s : coll_typed key CTYPE_JSON del (db s) (hlc_word s) -> holds_coll key CTYPE_JSON del (db s) ->
  forall v, (forall s0, db s0 = db s -> hlc_word s0 = hlc_word s -> exists nodes idx, load_nodes wall key del s0 = Ret (nodes, tick s0) /\ build_doc nodes = Ret (Some (mkDoc Number v idx))) ->
  exists idx s', load_doc wall key s = Ret (Some (mkDoc _ v idx, del), s') /\ quiet s s'.
Proof.
  intros _ (vb & env & pay & G & E1 & E2 & E3 & E4) v Hl. destruct (Hl (tick s) eq_refl eq_refl) as (nodes & idx & El & Eb). exists idx, (tick (tick s)).
  split; [|done]. unfold load_doc, mbind at 1, M_bind at 1. rewrite get_head_eq. cbn [rust_bind fst snd]. unfold head_of. rewrite G. cbn [mbind option_bind]. rewrite E1, E2, E4.
  unfold mbind, M_bind, now_ms. cbn [rust_bind fst snd]. unfold is_expired. rewrite E3. cbn [Z.ltb Z.eqb andb negb Z.compare]. rewrite Z.eqb_refl. cbn [orb negb].
  fold (tick s). rewrite El. cbn [rust_bind fst snd]. unfold lift. by rewrite Eb.
Qed.

(** The dots the index holds for the root are the stored ones. *)
Lemma stored_root d w del v ds : jwf key d w -> node_at d del [] = Some (NMap v ds) -> stored_dots key d [] ds.
Proof using All.
  intros W E. unfold stored_dots. destruct (kv_get d (jkey [])) as [b|] eqn:G; [|unfold JsonStore.node_at in E; by rewrite G in E].
  intros r -> Or. destruct (map_rec key key_len key_bytes node_id wall node_range walls d w [] _ W ltac:(by exists []) G) as (r0 & O0 & T0 & Eb).
  destruct (erec_decode r Or) as [D1 D2]. destruct (erec_decode r0 (oo_rec _ _ _ O0)) as [D3 D4]. rewrite Eb in D1, G. rewrite D3 in D1.
  assert (D5 : ElementState_encode (er_st r0) = ElementState_encode (er_st r)) by congruence. rewrite D5, D2 in D4. assert (D6 : er_st r = er_st r0) by congruence. rewrite D6.
  rewrite (node_at_rec key key_len key_bytes node_id wall node_range walls d w del [] (SMap r0)) in E; [|by split_and!; [| |exists []]|done]. cbn [view] in E.
  destruct (_ <=? _); [done|]. destruct (st_value _) as [vb|]; [|done]. destruct (jval_decode vb); [|done]. by injection E.
Qed.

(** Either branch of a root SET. *)
Definition root_body (o : option (Doc Number * Z)) (v : value) : M DB unit :=
  match o with Some (d, del) => replace_subtree node_id wall key [] v (doc_index d) del | None => create_node node_id wall key [] v end.

Lemma root_body_eq n del s v o : jstate (length (with_prefix (db s) (jkey [])) + S (slots v + (records_of v + n))) del s -> value_ok v -> value_fits v ->
  match o with
  | None => forall p, gone (node_at (db s) del p)
  | Some (d, del') => del' = del /\ exists v ds, node_at (db s) del [] = Some (NMap v ds) /\ map_dots (doc_index d) !! [] = Some ds
  end ->
  exists s', root_body o v s = Ret (tt, s') /\ jstate n del s' /\ hlc_word s <= hlc_word s' /\
    (forall k, (forall p, k <> jkey p) -> kv_get (db s') k = kv_get (db s) k) /\
    (exists ds, node_at (db s') del [] = Some (NMap (jval_of v) ds)) /\
    forall s0, db s0 = db s' -> hlc_word s0 = hlc_word s' -> exists nodes idx, load_nodes wall key del s0 = Ret (nodes, tick s0) /\ build_doc nodes = Ret (Some (mkDoc _ v idx)).
Proof using All.
  intros S Hv Hf Ho. destruct o as [[d del']|]; cbn [root_body].
  - destruct Ho as (-> & v0 & ds & Er & Ei).
    destruct (cover_root_eq key key_len key_bytes node_id wall node_range walls _ del s S) as (s1 & E1 & S1 & L1 & G1 & F1).
    assert (Eroot : kv_get (db s1) (jkey []) = kv_get (db s) (jkey [])) by (apply F1; intros p Hp Eq; by apply jkey_inj in Eq).
    destruct (root_write n del s1 v ds S1 Hv Hf) as (s2 & E2 & S2 & L2 & F2 & R2 & Ld); [|done|].
    { right. apply (stored_root _ (hlc_word s1) del v0); [apply S1|]. unfold JsonStore.node_at in *. by rewrite Eroot. }
    exists s2. split_and!; try done; [|lia|].
    + unfold replace_subtree, update_scalar_node, is_elem_path, mbind, M_bind in *. rewrite E1. cbn [rust_bind fst snd].
      change (lift (split_last []) s1) with (Ret (A := option (bytes * Seg) * Shard DB) (None, s1)). cbn [rust_bind fst snd mret M_ret].
      unfold observed_dots. rewrite Ei. exact E2.
    + intros k Hk. rewrite F2 by done. apply F1. intros p _. apply Hk.
  - destruct (root_write n del s v [] ltac:(eapply jstate_room; [|exact S]; lia) Hv Hf) as (s2 & E2 & S2 & L2 & F2 & R2 & Ld); [by left|intros; apply Ho|].
    by exists s2.
Qed.

Lemma json_key_quiet del s s' : quiet s s' -> json_key del s -> json_key del s'.
Proof. intros (Ed & _ & Ew) [K1 K2 K3 K4 K5]. split; by rewrite ?Ed, ?Ew. Qed.
End root.

(** The path [.] of the legacy dialect. *)
Definition root_path {Q} : ParsedPath Q := mkParsedPath _ Legacy None (Some []).

(** [C7] JSON.SET at the root, then JSON.GET: on a key that is free or holds a
    document - whatever records, covered entries and deleted elements its past
    has left under the key - the write succeeds, keeps the invariant and is
    read back as exactly the value written. *)
Theorem json_set_get {DB} `{KVLaws DB} {Number} `{!JsonNumber Number, !JsonNumberLaws Number} {Q} (locations : Q -> Value Number -> list Loc)
    (node_id : Z) (wall : nat -> Z) (key : bytes) (pp : ParsedPath Q) (v : Value Number) (ser : Value Number -> bytes) (orig : bytes) (del : Z) (s : Shard DB) :
  slice_len_ok key -> is_bytes key -> u16 node_id -> (forall n, 0 <= wall n < 2 ^ 47) ->
  json_key key del s -> value_ok v -> value_fits v -> is_root pp = true ->
  room (length (with_prefix (db s) (collection_prefix TJson key)) + (2 + slots v + records_of v)) s ->
  exists s1 s2, set_in node_id wall locations key pp v false false s = Ret (ok, s1) /\ json_key key del s1 /\
    get wall locations ser key [(orig, root_path)] s1 = Ret (RBulk (ser v), s2).
Proof.
  intros Kl Kb Nr Wl K Hv Hf Hr R.
  destruct (other_type_eq key Kl Kb node_id wall Nr Wl del s K) as (s1 & E1 & Q1). pose proof (json_key_quiet key del s s1 Q1 K) as K1.
  destruct (load_doc_eq key Kl Kb node_id wall Nr Wl del s1 K1) as (o & s2 & E2 & Q2 & Ho). pose proof (json_key_quiet key del s1 s2 Q2 K1) as K2.
  set (n := (length (with_prefix (db s) (collection_prefix TJson key)) + S (slots v + (records_of v + 0)))%nat).
  assert (R2 : room (S n) s2).
  { eapply room_quiet; [|eapply room_quiet; [exact Q1|]]; [exact Q2|]. destruct R as (R1 & R2 & R3). unfold n. split_and!; lia. }
  destruct (ensure_head_json key Kl Kb node_id wall Nr Wl n del s2 K2 R2) as (s3 & E3 & T3 & H3 & S3 & N3 & F3 & P3).
  assert (Ed : db s2 = db s) by (destruct Q1 as (<- & _), Q2 as (<- & _); done).
  destruct (root_body_eq key Kl Kb node_id wall Nr Wl 0 del s3 v o) as (s4 & E4 & S4 & L4 & F4 & R4 & Ld); [|done|done| |].
  { rewrite P3, Ed. exact S3. }
  { rewrite <- (proj1 Q2) in Ho. destruct o as [[d del']|].
    - destruct Ho as (-> & v0 & ds & Er & Ei). split; [done|]. exists v0, ds. split; [|done]. unfold node_at in *. by rewrite F3.
    - intros p. unfold node_at in *. rewrite F3. apply Ho. }
  assert (T4 : coll_typed key CTYPE_JSON del (db s4) (hlc_word s4)) by (by eapply (coll_typed_json key)).
  assert (H4 : holds_coll key CTYPE_JSON del (db s4)) by (by eapply (holds_coll_json key)).
  assert (K4 : json_key key del s4).
  { split; [done| |apply S4|apply S4|]; [by rewrite F4 by (intros p; apply not_eq_sym, jkey_not_list)|]. left. split; [done|]. destruct R4 as [ds ?]. by exists (jval_of v), ds. }
  destruct (other_type_eq key Kl Kb node_id wall Nr Wl del s4 K4) as (s5 & E5 & Q5).
  destruct (load_written key wall del s5) with (v := v) as (idx & s6 & E6 & Q6).
  { destruct Q5 as (-> & _ & ->). done. } { destruct Q5 as (-> & _). done. }
  { intros s0 Ed0 Ew0. destruct Q5 as (Ed5 & _ & Ew5). apply Ld; congruence. }
  exists s4, s6. split_and!; [|done|].
  - unfold set_in, mbind at 1, M_bind at 1. rewrite E1. cbn [rust_bind fst snd]. unfold mbind at 1, M_bind at 1. rewrite E2. cbn [rust_bind fst snd]. rewrite Hr, !andb_false_r. cbn [orb].
    unfold mbind at 1, M_bind at 1. rewrite E3. cbn [rust_bind fst snd]. unfold mbind at 1, M_bind at 1.
    unfold root_body in E4. by rewrite E4.
  - unfold get, mbind, M_bind. rewrite E5. cbn [rust_bind fst snd]. by rewrite E6.
Qed.

(** A first document under an unused key. *)
Lemma empty_json_key key : slice_len_ok key -> json_key key 0 (mkShard (∅ : gmap bytes bytes) 0 ∅ 0).
Proof.
  intros Kl. split; cbn [db hlc_word]; [|done| |lia|by right].
  - split; [by vm_compute|]. by split_and!.
  - split; [intros k v G|intros p b G]; cbn in G; by rewrite lookup_empty in G.
Qed.
Lemma json_set_get_witness : exists s1 s2,
  set_in 3 (fun n => 5 + Z.of_nat n mod 100) (fun (_ : unit) (_ : Value N64) => []) [104] root_path sample false false (mkShard (∅ : gmap bytes bytes) 0 ∅ 0) = Ret (ok, s1) /\
  json_key [104] 0 s1 /\ get (Q := unit) (fun n => 5 + Z.of_nat n mod 100) (fun _ (_ : Value N64) => []) (fun _ => [1]) [104] [([46], root_path)] s1 = Ret (RBulk [1], s2).
Proof.
  apply (json_set_get (fun (_ : unit) (_ : Value N64) => []) 3 (fun n => 5 + Z.of_nat n mod 100) [104] root_path sample (fun _ => [1]) [46] 0 (mkShard (∅ : gmap bytes bytes) 0 ∅ 0)).
  - by vm_compute.
  - by apply Forall_singleton.
  - by vm_compute.
  - intros n. pose proof (Z.mod_pos_bound (Z.of_nat n) 100 ltac:(lia)). split; [lia|]. assert (105 < 2 ^ 47) by done. lia.
  - apply empty_json_key. by vm_compute.
  - cbn. unfold key_ok, slice_len_ok. cbn. split_and!; try done; repeat constructor.
  - cbn. split_and!; try done; by apply Forall_singleton.
  - done.
  - split_and!; by vm_compute.
Defined.
